(* ===== verification/_CoqProject ===== *)
-Q . S2P
Prelude.v
Bytes.v
Types.v
EvmConfig.v
Backend.v
ConflictGraph.v
CdsScheduler.v
GraphProps.v
SortProps.v
Seer.v
ChaseCore.v
Pages.v
Cache.v
Pipeline.v
Bridge.v
Storage.v
EvmWord.v
EvmCore.v
EvmCoreProps.v
EvmRuntime.v
EvmGas.v
EvmGasProps.v
EvmRuntimeProps.v
EvmSubstate.v
EvmSubstateProps.v
EvmExecutor.v
EvmExecutorProps.v
EvmTransactionProps.v
EvmLocality.v
EvmChase.v
BridgeEvm.v
Committee.v
DagTypes.v
ConsensusCore.v
Bullshark.v
DagProps.v
ConsensusSample.v
Agreement.v
ConsensusProps.v
ConsensusSafe.v
ConsensusLimits.v
Certification.v
SignatureSample.v
CertificationProps.v
PrimarySample.v
CertificateStore.v
Synchronizer.v
SynchronizerProps.v
SynchronizerSafe.v
Proposer.v
ProposerProps.v
Voting.v
Certifier.v
CertifierProps.v
PrimaryNode.v
PrimaryProps.v
ProposerFeed.v
PrimarySafe.v
Epoch.v
Fetching.v
FetchingProps.v
Recovery.v
RecoveryProps.v
Restart.v
Executor.v
ExecutorProps.v
Conformance.v
