(* ===== verification/Prelude.v ===== *)
(** * CHASE: a verification development

    CHASE executes the ordered output of a Narwhal consensus on an EVM.  The nodes
    of a committee certify each other's headers and order the certificates.  A
    batch of transactions is simulated in parallel, a conflict graph decides which
    of them commit and in which wave, the rest is re-executed, and the results go
    through a two-level cache to a durable store.  This library models the
    consensus, the executor and the EVM as Rocq functions and proves what they do.
    Paths below are relative to src/crates/sslab-execution/ unless they start with
    src/.

    ** The parts and how they interact

    The proposer of a node (src/narwhal/primary) makes headers from batch digests
    and certificates of the round before; the other nodes vote for them; the
    certifier assembles certificates from votes; the synchronizer accepts a
    certificate once its parents are stored and hands it to consensus; the
    certificate fetcher asks peers for certificates that are missing.  Consensus
    (src/narwhal/consensus), Tusk or Bullshark, keeps the dag of certificates and
    commits sub-dags, which it also writes to the consensus store.  The executor
    (src/narwhal/executor) adds the batches of each sub-dag and passes it to the
    execution state of the stack.

    The consensus adapter (stack/src/adapter.rs) turns consensus output into
    batches and hands them to the executor.  [ConcurrencyLevelManager]
    (chase/src/chase_core.rs) simulates a batch against its backend, possibly
    through the pre-execution cache of Seer (chase/src/seer/), builds the
    address-based conflict graph (address_based_conflict_graph.rs), lets the CDS
    scheduler (cds_scheduler.rs) cut the result into conflict-free chains and
    epochs, commits those, and re-executes the aborted transactions.  The EV-BLP
    pipeline (chase/src/executor/) runs a sequence of batches through three
    stages, order (P1), execution (P2) and commit (P3): execution produces delta
    pages, which the two-level cache serves to later reads and the commit stage
    writes to a [StateStore].  The store used in production is RocksDB
    (stack/src/rocksdb_store.rs).

    ** Files

    - Prelude (this file): machine integers with their wrap-around, sorting by
      key, logs of writes ([last_write], written [l !!ʳ k]), the state-and-panic
      monad [ST], [Result], the notations of [chase_scope], the tactics
      [no_wrap] and [lookup_cases], the hint database [chase].
    - Types: transactions, effects, read-write sets and the views of a
      transaction in the scheduler (evm/src/types.rs, chase/src/types.rs, [RwSet]
      of src/crates/chase-evm/src/executor/stack/executor.rs).
    - Backend: [MemoryBackend], [CMemoryBackend], [EvmStorage], chain
      configuration and genesis (evm/src/evm_storage/).  Class [StorageBackend]
      is the interface the scheduler commits through, [StorageBackendLaws] what
      it promises; [MemoryBackend] keeps the laws.
    - ConflictGraph: the graph and its operations, the shared transactions in a
      heap indexed by id.  GraphProps and SortProps hold the theorems about it.
    - CdsScheduler: [TxWithKeys], chains, epochs, [ScheduledInfo].
    - Seer: perceptron, variable table, pre-execution cache, simulation
      (chase/src/seer/, evm_utils.rs, evm/src/executor.rs).
    - ChaseCore: [ConcurrencyLevelManager]: preparation, simulation, commit,
      re-execution, validation.
    - Pages: delta pages, temporary and apply buffers, index tables,
      configuration (executor/cache/, executor/config.rs).
    - Cache: L1, L2, the two-level cache, the overlay backend, the class
      [StateStore] and the in-memory store.
    - Pipeline: stages, controller, metrics, calibration and
      [EvBlpPipeline::process_batches] (executor/pipeline/).
    - Bridge: the concurrent pipeline of executor/chase_bridge.rs and
      runtime.rs: one step function per worker, [bridge_step] interleaves them.  An
      execution reads the cache while the other workers run ([staged_read]).
    - Storage: [ChaseStorage], [RocksDbStateStore], the persistable backend, the
      adapter and the handling of one consensus output (stack/src/).
    - EvmConfig, EvmWord, EvmCore, EvmRuntime, EvmGas, EvmSubstate, EvmExecutor:
      the EVM of src/crates/chase-evm.  EvmConfig has the fork configurations,
      EvmWord the 256-bit arithmetic, EvmCore the machine (core/src), EvmRuntime
      the runtime and the trait [Handler] (runtime/src), EvmGas the gasometer
      (gasometer/src), EvmSubstate the layers of a transaction, EvmExecutor the
      stack executor (src/executor/stack).  EvmCoreProps, EvmGasProps,
      EvmRuntimeProps, EvmSubstateProps, EvmExecutorProps, EvmTransactionProps and
      EvmLocality hold the theorems about them; [HandlerLaws] is what the runtime
      relies on in its handler, and the stack executor keeps it.
    - EvmChase: the stack executor as the interpreter of the scheduler
      ([chase_evm]), and what follows for the scheduler.  BridgeEvm: the concurrent
      pipeline with the batch executor and this interpreter in it.
    - Committee, DagTypes: authorities, stakes and leader choice
      (src/narwhal/config), headers, certificates and sub-dags (src/narwhal/types).
    - ConsensusCore, Bullshark: the state of consensus, the leader schedule,
      [order_dag], both engines, the consensus store and the loop of the consensus
      task.  DagProps has the invariant of the dag and the reference [flatten];
      ConsensusSample a committee of four; Agreement, ConsensusProps, ConsensusSafe
      and ConsensusLimits the theorems.
    - Certification: validation of headers, votes and certificates and the two
      aggregators (src/narwhal/types, src/narwhal/primary/src/aggregators.rs), with
      CertificationProps and the sample signatures of SignatureSample.
    - CertificateStore: the store of certificates with its indexes and caches
      (src/narwhal/storage).
    - Synchronizer: suspension, acceptance and collection of certificates, with
      SynchronizerProps and SynchronizerSafe, where the tasks are events that
      interleave; PrimarySample has its samples.
    - Proposer, Voting, Certifier: the tasks of src/narwhal/primary, with
      ProposerProps and CertifierProps.
    - Fetching: the certificate fetcher and the handler that answers it, with
      FetchingProps.
    - PrimaryNode: the parts of a primary together, and the primaries of a committee
      with Byzantine ones among them, as the step relation [world_step].
      PrimaryProps, ProposerFeed (what the proposer makes of the parents its
      synchronizer sends) and PrimarySafe have its invariant, Epoch the theorems.
    - Recovery: the start of consensus from the stores and the output restored for
      the executor (src/narwhal/consensus, src/narwhal/executor/src/lib.rs,
      src/narwhal/node), with RecoveryProps.  Restart has the life of a disk over
      several starts, [lifetime], and its theorems.
    - Executor: the subscriber (src/narwhal/executor) and the trait
      [ExecutionState], a class that the stack implements, with ExecutorProps.
    - Conformance: the tests of chase/src/tests/chase_tests.rs, evaluated.

    ** Conventions

    A panic is [None]: the release profile sets panic to abort, so nothing runs
    after it.  The same profile leaves overflow checks off, so the arithmetic of
    the source wraps; [+u64], [+u32] and [-u32] are the wrapping operations.
    Hash maps are [gmap]s; where the source iterates over one, the model takes
    one of the orders the source may take.  What other crates
    provide is a class or an argument: keccak and RLP, the precompiles,
    [DefaultHasher], the lru crate, typed-store over RocksDB, the JSON parser, the
    environment; for consensus the digest of a header ([HeaderHash]), the random
    choice ([Rng]), the signature scheme ([Signatures]), the order of a hash set
    ([SetIter]) and bitmaps ([RoaringBitmap]).  A future that waits is cut there: what
    happens in between is another event.  The results of writes to the stores of
    Narwhal come from a script.  The scheduler sees the interpreter through the class
    [EvmExecutor], whose simulation may also fail to return; its theorems hold for any
    instance, those of termination for one with [SimulationLaws], and [chase_evm] is
    the one the program uses.
    Their laws state documented behaviour, and a concrete instance shows that
    they can hold ([LruList], the in-memory stores, the sample executors).

    ** What the theorems show

    - Scheduling (GraphProps, SortProps, CdsScheduler).  Construction implements
      first updater wins.  No transaction is lost or duplicated up to the
      schedule, on any number of cores.  Sorting orders the readers of a slot
      before its writers, and its counters cannot wrap.  [reorder] does not panic.
      Chains cover a wave in dependency order, and are built if and only if the
      dependencies are acyclic.  Epochs are free of write conflicts and greedy.
    - Batches (ChaseCore, Seer, Backend).  The order inside an epoch does not
      matter.  Validation is a lossless split.  [MemoryBackend] applies
      effects as the reference meaning says.
    - The interpreter (EvmWord, EvmCoreProps, EvmGasProps, EvmRuntimeProps).  The
      arithmetic opcodes compute their integer meaning.  A machine stays well formed
      and no step panics.  Metering is exact, and every step that goes on costs gas.
    - Transactions (EvmSubstateProps, EvmExecutorProps, EvmTransactionProps,
      EvmLocality).  Leaving a call keeps or restores the view of the state.  The
      effects applied to the backend give what the transaction saw.  A transaction
      terminates within its gas, without panic, and writes only slots it has
      recorded.  Its result depends on storage only through the slots it has
      recorded as read.
    - Interpreter and scheduler together (EvmChase).  The simulation of a batch
      returns within the gas limits of its transactions, and executing it returns its
      digests if and only if the graph and the schedule are built.  The epochs of a
      simulated batch can be committed in any order.  Batches of ordinary contract calls and
      transfers lose updates, break serializability and stop the node
      ([concurrent_transfers_lose_updates], [write_skew_commits],
      [evm_batch_panics]).
    - Cache and pipeline (Pages, Cache, Pipeline, Bridge, BridgeEvm).  A read returns
      the last write, or nothing where that is zero, whatever was frozen, committed,
      evicted or flushed and whichever puts failed; also a read that looks at the
      cache at different times of any interleaving of the workers.  Under light load
      every interleaving terminates unless an execution panics, and returns the
      digests in order.  The sequential pipeline equals a plain loop.
    - Durability (Storage).  Persisting and hydrating give back the state.  The
      adapter keeps the order.
    - Agreement (Agreement, ConsensusProps, ConsensusSafe).  Nodes that are given
      certificates of one certified dag, in any order and selection, commit sequences
      of sub-dags that extend each other.  A sequence is numbered, repeats no header
      and lists parents first.  Consensus does not panic on certificates in causal
      order.
    - Certification (CertificationProps, CertifierProps, ProposerProps, Epoch).  A
      quorum of votes gives a certificate that verifies.  A proposer makes one header
      per round and loses no batch.  With Byzantine nodes below a third of the stake,
      signatures that are not forged and digests without collisions, the headers that
      can be certified form a certified dag, so the sub-dags of honest nodes agree.
    - Delivery (CertificateStore, SynchronizerSafe, FetchingProps).  Certificates
      reach consensus after their parents, once unless garbage collection runs while
      the acceptor task waits for its lock, and then at most twice; the one way the
      synchronizer can panic is stated exactly.  The answer to a fetch has what
      is missing, in an order in which it can be accepted, and is bounded.
    - Restarts and execution (Restart, ExecutorProps).  Nodes agree although they
      stop anywhere and start again; a start does not panic and gives back what was
      committed; sub-dags are executed in order and without a gap, and the one with the
      index executed last is executed again ([restart_executes_again]).
    - Flaws.  The theorems named after a failure (for example
      [evm_batch_panics], [merge_drops_readers], [overload_deadlock],
      [flush_regresses_store], [CMemoryBackend_apply_drops_modifications])
      exhibit, on concrete inputs or in general, behaviour the code does not
      intend.

    ** Bounds and fuel

    - [next_free_seq] gets one more than the size of the used set, which cannot
      cover more consecutive numbers ([next_free_seq_fresh]).
    - [build_chains] and [extend_chain] get the number of transactions: every
      round assigns one ([build_conflict_free_chain_indices_total]).
    - [chunks_of] and [merge_rounds] get a length that every round shortens
      ([par_construct_total]).
    - [evict_loop] gets the number of entries; each round drops one.
    - [prepare_loop] gets the number of batches; with a positive concurrency level
      each round takes at least one.
    - The waiting loops of [process_batches] have no bound in the source.  Their
      fuel is a variable of the theorems: with successful commits none is needed
      ([process_batches_sequential]), with failing ones none suffices
      ([failing_commits_spin]), and running out is the outcome [Spinning].
    - [Bridge] uses no fuel; [bridge_terminates] bounds the steps per batch by the
      records a batch may write under light load.
    - [exp_loop] gets 256 rounds, one per bit; [valids_loop] the length of the code.
    - The loops of the interpreter are bounded by gas: [gas_fuel] is twice the gas
      limit plus two, and [transact_call_safe] and [transact_create_safe] show that
      this suffices; [execute_returns] uses it for a whole batch.  Gas limits are taken up to [max_gas] (2^63 - 1), so that the
      64-bit sums of the gasometer do not wrap.
    - [order_dag] gets one more than the size of the dag, [flatten] one more than the
      number of headers: each round orders one certificate.
    - [accept_children] gets one more than the number of suspended certificates;
      each round accepts one.
    - [find_next_round] and [fetch_loop] get one more than the rows of the index by
      origin, of which each round uses up one.

    ** What is not modelled

    The multi-version executor of src/crates/chase-evm, which no crate uses, and its
    tracing features, which are off.  The workers of Narwhal and the network: what
    peers and workers answer is an argument of the models.  The task that starts and
    cancels the proposals of the certifier, the choice of peers and the timeouts of
    the fetcher, and the sending of certificates to peers, which are network I/O.  A
    restart of the primary: the world of PrimaryNode has nodes that do not restart,
    because the proposer can then equivocate ([restart_equivocates]).  Restarts with
    the changing leader schedule, which is off and with which nodes disagree also
    without a restart ([schedule_change_disagrees]).  The typed store
    (src/crates/typed-store) and the Sui node.  The assembly of the stack
    (stack/src/pipeline.rs), the latency and parallelism benchmarks of
    chase_core.rs, the formatted reports of metrics.rs, test data generators.
    Parallel loops of the batch executor run in list order; for the commits,
    [interleaving] in ChaseCore describes every order. *)

From stdpp Require Export gmap list sorting strings numbers fin_maps sets.

(** ** Machine integers

    Rust's fixed-width integers are modelled as [Z] kept in range by the
    operations below.  The release profile of the workspace does not enable
    overflow checks, so [+], [-] wrap. *)

Definition u32_modulus : Z := 4294967296.
Definition u64_modulus : Z := 18446744073709551616.
Definition u32_max : Z := 4294967295.
Definition u64_max : Z := 18446744073709551615.

Definition u32_add (x y : Z) : Z := (x + y) mod u32_modulus.
Definition u32_sub (x y : Z) : Z := (x - y) mod u32_modulus.
Definition u64_add (x y : Z) : Z := (x + y) mod u64_modulus.
Definition u64_sub (x y : Z) : Z := (x - y) mod u64_modulus.
Definition u64_mul (x y : Z) : Z := (x * y) mod u64_modulus.
Definition i64_add (x y : Z) : Z := (x + y + 9223372036854775808) mod u64_modulus - 9223372036854775808.

Definition u32_saturating_add (x y : Z) : Z := Z.min u32_max (x + y).
Definition u32_saturating_mul (x y : Z) : Z := Z.min u32_max (x * y).
Definition u32_saturating_sub (x y : Z) : Z := Z.max 0 (x - y).
Definition u64_saturating_add (x y : Z) : Z := Z.min u64_max (x + y).
Definition u64_saturating_mul (x y : Z) : Z := Z.min u64_max (x * y).
Definition u64_saturating_sub (x y : Z) : Z := Z.max 0 (x - y).

Declare Scope chase_scope.
Delimit Scope chase_scope with chase.
Infix "+u32" := u32_add (at level 50, left associativity) : chase_scope.
Infix "-u32" := u32_sub (at level 50, left associativity) : chase_scope.
Infix "+u64" := u64_add (at level 50, left associativity) : chase_scope.
Infix "-u64" := u64_sub (at level 50, left associativity) : chase_scope.
Infix "*u64" := u64_mul (at level 40, left associativity) : chase_scope.

(** The hints the components share; each component adds its own closure lemmas. *)
Create HintDb chase.

Lemma u64_add_small x y : (0 <= x + y < u64_modulus)%Z -> u64_add x y = (x + y)%Z.
Proof. apply Z.mod_small. Qed.

Lemma u32_add_small x y : (0 <= x + y < u32_modulus)%Z -> u32_add x y = (x + y)%Z.
Proof. apply Z.mod_small. Qed.

Lemma u64_add_range x y : (0 <= u64_add x y < u64_modulus)%Z.
Proof. by apply Z.mod_pos_bound. Qed.

Lemma u32_add_range x y : (0 <= u32_add x y < u32_modulus)%Z.
Proof. by apply Z.mod_pos_bound. Qed.

Lemma u64_add_le x y : (0 <= x + y)%Z -> (u64_add x y <= x + y)%Z.
Proof. intros H. by apply Z.mod_le. Qed.

#[export] Hint Resolve u64_add_range u32_add_range u64_add_le list_elem_of_fmap_2 : chase.

(** Discharges an arithmetic goal in which the wrapping additions provably do
    not wrap. *)
Ltac no_wrap :=
  repeat first [rewrite u64_add_small by lia | rewrite u32_add_small by lia]; lia.

(** Case analysis on the keys of a map after updates: equal keys are
    substituted, and every lookup through an insert or a delete is resolved. *)
Ltac lookup_cases :=
  repeat case_decide; subst;
  repeat first [rewrite lookup_insert_eq | rewrite lookup_delete_eq
    | rewrite lookup_insert_ne by done | rewrite lookup_delete_ne by done].

(** ** Sorting by a key *)

Section sort_by.
Context {A : Type} (key : A -> Z).

Definition key_le (x y : A) : Prop := (key x <= key y)%Z.

#[global] Instance key_le_dec : RelDecision key_le.
Proof. intros x y. apply Z_le_dec. Defined.

#[global] Instance key_le_total : Total key_le.
Proof. intros x y. unfold key_le. lia. Qed.

#[global] Instance key_le_trans : Transitive key_le.
Proof. intros x y z. unfold key_le. lia. Qed.

(** [Vec::sort_unstable_by_key].  The order among equal keys is not
    specified by Rust; every caller sorts by pairwise distinct keys. *)
Definition sort_by_key (l : list A) : list A := merge_sort key_le l.

Lemma sort_by_key_Permutation l : sort_by_key l ≡ₚ l.
Proof. apply merge_sort_Permutation. Qed.

Lemma sort_by_key_sorted l : StronglySorted key_le (sort_by_key l).
Proof. apply StronglySorted_merge_sort; apply _. Qed.

Lemma elem_of_sort_by_key x l : x ∈ sort_by_key l ↔ x ∈ l.
Proof. by rewrite sort_by_key_Permutation. Qed.

Lemma length_sort_by_key l : length (sort_by_key l) = length l.
Proof. by rewrite sort_by_key_Permutation. Qed.
End sort_by.

(** [slice::sort_by_key], which is stable. *)
Lemma Forall2_elem_of_l {A B} (P : A -> B -> Prop) l k x : Forall2 P l k -> x ∈ l -> exists y, y ∈ k ∧ P x y.
Proof. induction 1; set_solver. Qed.

Lemma Forall2_elem_of_r {A B} (P : A -> B -> Prop) l k y : Forall2 P l k -> y ∈ k -> exists x, x ∈ l ∧ P x y.
Proof. induction 1; set_solver. Qed.

Lemma Forall2_impl_elem {A B} (P Q : A -> B -> Prop) l k :
  Forall2 P l k -> (forall x y, x ∈ l -> y ∈ k -> P x y -> Q x y) -> Forall2 Q l k.
Proof. induction 1 as [|x y l k Hxy _ IH]; intros Hq; constructor; [set_solver|]. apply IH. set_solver. Qed.

Section stable_sort.
Context {A : Type} (key : A -> Z).

Fixpoint insert_by_key (x : A) (l : list A) : list A :=
  match l with
  | [] => [x]
  | y :: l' => if (key x <=? key y)%Z then x :: l else y :: insert_by_key x l'
  end.

Definition stable_sort_by_key (l : list A) : list A := foldr insert_by_key [] l.

Lemma insert_by_key_Permutation x l : insert_by_key x l ≡ₚ x :: l.
Proof. induction l as [|y l IH]; simpl; [done|]. case_match; [done|]. rewrite IH. constructor. Qed.

Lemma stable_sort_by_key_Permutation l : stable_sort_by_key l ≡ₚ l.
Proof. induction l as [|x l IH]; simpl; [done|]. by rewrite insert_by_key_Permutation, IH. Qed.

Lemma insert_by_key_sorted x l : StronglySorted (key_le key) l -> StronglySorted (key_le key) (insert_by_key x l).
Proof.
  induction 1 as [|y l Hs IH Hy]; simpl; [repeat constructor|]. destruct (_ <=? _)%Z eqn:E.
  - constructor; [by constructor|]. apply Z.leb_le in E. constructor; [done|].
    eapply Forall_impl; [exact Hy|]. unfold key_le. simpl. lia.
  - apply Z.leb_gt in E. constructor; [done|]. rewrite insert_by_key_Permutation. constructor; [|done]. unfold key_le. lia.
Qed.

Lemma stable_sort_by_key_sorted l : StronglySorted (key_le key) (stable_sort_by_key l).
Proof. induction l; simpl; [constructor|]. by apply insert_by_key_sorted. Qed.
End stable_sort.

Lemma stable_sort_by_key_fmap {A B} (f : A -> B) (key : B -> Z) (key' : A -> Z) l :
  (forall x, key' x = key (f x)) -> f <$> stable_sort_by_key key' l = stable_sort_by_key key (f <$> l).
Proof.
  intros Hk. induction l as [|x l IH]; csimpl; [done|]. rewrite <- IH. generalize (stable_sort_by_key key' l) as k.
  induction k as [|y k IHk]; csimpl; [done|]. rewrite <- !Hk. case_match; csimpl; [done|]. by rewrite IHk.
Qed.

(** Lexicographic order on a pair of integer keys, the order of Rust tuples. *)
Section sort_by_pair.
Context {A : Type} (key : A -> Z * Z).

Definition pair_key_le (x y : A) : Prop :=
  (fst (key x) < fst (key y))%Z ∨
  (fst (key x) = fst (key y) ∧ (snd (key x) <= snd (key y))%Z).

#[global] Instance pair_key_le_dec : RelDecision pair_key_le.
Proof. intros x y. unfold pair_key_le. apply _. Defined.

#[global] Instance pair_key_le_total : Total pair_key_le.
Proof. intros x y. unfold pair_key_le. lia. Qed.

#[global] Instance pair_key_le_trans : Transitive pair_key_le.
Proof. intros x y z. unfold pair_key_le. lia. Qed.

Definition sort_by_pair (l : list A) : list A := merge_sort pair_key_le l.

Lemma sort_by_pair_Permutation l : sort_by_pair l ≡ₚ l.
Proof. apply merge_sort_Permutation. Qed.

Lemma sort_by_pair_sorted l : StronglySorted pair_key_le (sort_by_pair l).
Proof. apply StronglySorted_merge_sort; apply _. Qed.
End sort_by_pair.

(** ** Ordered maps

    A Rust [BTreeMap] is a [gmap]; [btree_iter] lists it in ascending key
    order, which is the order of [BTreeMap::iter]. *)
Definition btree_iter {V : Type} (m : gmap Z V) : list (Z * V) :=
  sort_by_key fst (map_to_list m).

Lemma elem_of_btree_iter {V} (m : gmap Z V) k v :
  (k, v) ∈ btree_iter m ↔ m !! k = Some v.
Proof. unfold btree_iter. by rewrite elem_of_sort_by_key, elem_of_map_to_list. Qed.

Lemma btree_iter_NoDup {V} (m : gmap Z V) : NoDup (btree_iter m).*1.
Proof.
  unfold btree_iter. rewrite sort_by_key_Permutation.
  apply NoDup_fst_map_to_list.
Qed.

(** ** Association lists read from the right

    [last_write l k] is the value the last record of [l] with key [k] carries:
    the meaning of a log of writes. *)
Section last_write.
Context {K V : Type} `{EqDecision K}.

Fixpoint last_write (l : list (K * V)) (k : K) : option V :=
  match l with
  | [] => None
  | (k', v) :: l' =>
      match last_write l' k with
      | Some v' => Some v'
      | None => if decide (k = k') then Some v else None
      end
  end.

Lemma last_write_app l1 l2 k :
  last_write (l1 ++ l2) k =
  match last_write l2 k with Some v => Some v | None => last_write l1 k end.
Proof.
  induction l1 as [|[k' v'] l1 IH]; simpl.
  - by destruct (last_write l2 k).
  - rewrite IH. by destruct (last_write l2 k).
Qed.

Lemma last_write_snoc l k v k' :
  last_write (l ++ [(k, v)]) k' = if decide (k' = k) then Some v else last_write l k'.
Proof. rewrite last_write_app. simpl. by case_decide. Qed.

Lemma last_write_None l k : last_write l k = None ↔ k ∉ l.*1.
Proof.
  induction l as [|[k' v'] l IH]; simpl; [set_solver|].
  rewrite not_elem_of_cons, <- IH.
  destruct (last_write l k); [naive_solver|].
  case_decide; naive_solver.
Qed.

Lemma last_write_Some_elem_of l k v : last_write l k = Some v -> (k, v) ∈ l.
Proof.
  induction l as [|[k' v'] l IH]; simpl; [done|].
  destruct (last_write l k) eqn:E; [set_solver|].
  case_decide; [|done]. naive_solver set_solver.
Qed.

Lemma last_write_NoDup l k v :
  NoDup l.*1 -> (k, v) ∈ l -> last_write l k = Some v.
Proof.
  induction l as [|[k' v'] l IH]; simpl; [set_solver|].
  intros [Hnot Hnd]%NoDup_cons [Heq|Hin]%elem_of_cons.
  - simplify_eq. rewrite (proj2 (last_write_None l k')); [|done].
    by rewrite decide_True.
  - by rewrite (IH Hnd Hin).
Qed.
End last_write.

Infix "!!ʳ" := last_write (at level 20) : chase_scope.

(** [autorewrite with chase] pushes [last_write] through the shapes a log is built from,
    and membership and length through the sorts. *)
Create Rewrite HintDb chase.
#[export] Hint Rewrite @last_write_app @last_write_snoc @elem_of_sort_by_key
  @length_sort_by_key @elem_of_btree_iter : chase.

(** ** List lemmas *)

Lemma omap_lookup_seq {A B} (f : A -> B) (l : list A) :
  omap (fun i => f <$> l !! i) (seq 0 (length l)) = f <$> l.
Proof.
  induction l as [|x l IH] using rev_ind; [done|].
  rewrite length_app, seq_app, omap_app, fmap_app. f_equal.
  - rewrite <- IH. apply list_omap_ext.
    apply Forall_Forall2_diag, Forall_forall. intros i Hi%elem_of_seq.
    rewrite lookup_app_l by lia. done.
  - simpl. by rewrite list_lookup_middle.
Qed.

Lemma concat_omap {A B} (f : A -> option B) (ls : list (list A)) :
  concat ((fun l : list A => omap f l) <$> ls) = omap f (concat ls).
Proof. induction ls as [|l ls IH]; csimpl; [done|]. by rewrite omap_app, IH. Qed.

Lemma concat_fmap_fmap {A B} (f : A -> B) (ls : list (list A)) :
  concat ((fun l : list A => f <$> l) <$> ls) = f <$> concat ls.
Proof. induction ls as [|l ls IH]; csimpl; [done|]. by rewrite fmap_app, IH. Qed.

Lemma sum_list_length_concat {A} (ls : list (list A)) :
  sum_list (length <$> ls) = length (concat ls).
Proof. induction ls as [|l ls IH]; csimpl; [done|]. by rewrite length_app, IH. Qed.

Lemma foldl_max_ge_init l z : (z <= foldl Z.max z l)%Z.
Proof. revert z. induction l as [|y l IH]; intros z; simpl; [done|]. specialize (IH (Z.max z y)). lia. Qed.

Lemma foldl_max_le l z x : x ∈ z :: l -> (x <= foldl Z.max z l)%Z.
Proof.
  revert z. induction l as [|y l IH]; intros z Hx; simpl.
  - apply elem_of_cons in Hx as [->|Hx%elem_of_nil]; done.
  - pose proof (foldl_max_ge_init l (Z.max z y)).
    apply elem_of_cons in Hx as [->|Hx]; [lia|].
    apply elem_of_cons in Hx as [->|Hx]; [lia|]. apply IH. by right.
Qed.

Lemma foldl_max_elem_of l z : foldl Z.max z l ∈ z :: l.
Proof.
  revert z. induction l as [|y l IH]; intros z; simpl; [left|].
  destruct (Z.max_spec z y) as [[_ ->]|[_ ->]]; pose proof (IH y); pose proof (IH z); set_solver.
Qed.

Lemma foldl_min_elem_of l z : foldl Z.min z l ∈ z :: l.
Proof.
  revert z. induction l as [|y l IH]; intros z; simpl; [left|].
  destruct (Z.min_spec z y) as [[_ ->]|[_ ->]]; pose proof (IH y); pose proof (IH z); set_solver.
Qed.

Lemma foldl_min_le_init l z : (foldl Z.min z l <= z)%Z.
Proof. revert z. induction l as [|y l IH]; intros z; simpl; [done|]. specialize (IH (Z.min z y)). lia. Qed.

Lemma foldl_min_le l z x : x ∈ z :: l -> (foldl Z.min z l <= x)%Z.
Proof.
  revert z. induction l as [|y l IH]; intros z Hx; simpl.
  - apply elem_of_cons in Hx as [->|Hx%elem_of_nil]; done.
  - pose proof (foldl_min_le_init l (Z.min z y)).
    apply elem_of_cons in Hx as [->|Hx]; [lia|].
    apply elem_of_cons in Hx as [->|Hx]; [lia|]. apply IH. by right.
Qed.

Lemma elements_difference_filter (X : gset Z) (P : Z -> Prop) `{!forall x, Decision (P x)} :
  elements (X ∖ list_to_set (filter P (elements X))) ++ filter P (elements X) ≡ₚ elements X.
Proof.
  set (l := filter P (elements X)).
  assert (NoDup l) as Hl by (apply NoDup_filter, NoDup_elements).
  assert (list_to_set l ⊆ X) as Hs.
  { intros x Hx%elem_of_list_to_set. apply list_elem_of_filter in Hx as [_ Hx].
    by apply elem_of_elements. }
  rewrite <- (elements_list_to_set (C := gset Z) l Hl) at 2.
  rewrite <- elements_disj_union by set_solver.
  f_equiv. apply set_equiv_subseteq; split; [set_solver|].
  intros x Hx. destruct (decide (x ∈ (list_to_set l : gset Z))); set_solver.
Qed.

(** ** Computations that change a state and may panic

    [None] is a Rust panic; the release profile aborts the process, so there is
    no state after it. *)
Definition ST (S A : Type) : Type := S -> option (S * A).

#[global] Instance ST_ret S : MRet (ST S) := fun A x s => Some (s, x).
#[global] Instance ST_bind S : MBind (ST S) := fun A B f m s =>
  match m s with Some (s', x) => f x s' | None => None end.

Definition st_panic {S A} : ST S A := fun _ => None.
Definition st_get {S} : ST S S := fun s => Some (s, s).
Definition st_modify {S} (f : S -> S) : ST S unit := fun s => Some (f s, tt).

(** A state change that cannot panic. *)
Definition st_run {S A} (f : S -> S * A) : ST S A := fun s => Some (f s).

(** A value whose computation may panic. *)
Definition st_lift {S A} (o : option A) : ST S A :=
  fun s => match o with Some x => Some (s, x) | None => None end.

(** A loop over a list, left to right. *)
Fixpoint st_iter {S A B} (f : A -> ST S B) (l : list A) : ST S (list B) :=
  match l with
  | [] => mret []
  | x :: l' => y ← f x; ys ← st_iter f l'; mret (y :: ys)
  end.

(** Rust's [Result]. *)
Inductive Result (A E : Type) : Type :=
| Ok (x : A)
| Err (e : E).
Arguments Ok {A E} x.
Arguments Err {A E} e.

(** Computations that change a state, may return early with an error, and may
    panic.  The state reached stays when they return early. *)
Definition EM (S E A : Type) : Type := S -> option (S * Result A E).

#[global] Instance EM_ret S E : MRet (EM S E) := fun A x s => Some (s, Ok x).
#[global] Instance EM_bind S E : MBind (EM S E) := fun A B f m s =>
  match m s with
  | None => None
  | Some (s', Ok x) => f x s'
  | Some (s', Err e) => Some (s', Err e)
  end.

Definition em_fail {S E A} (e : E) : EM S E A := fun s => Some (s, Err e).
Definition em_get {S E} : EM S E S := fun s => Some (s, Ok s).
Definition em_modify {S E} (f : S -> S) : EM S E unit := fun s => Some (f s, Ok tt).
Definition em_panic {S E A} : EM S E A := fun _ => None.

(** A value whose computation may panic. *)
Definition em_lift {S E A} (o : option A) : EM S E A :=
  match o with Some x => mret x | None => em_panic end.

(** [?] on a [Result] that does not touch the state. *)
Definition em_result {S E A} (r : Result A E) : EM S E A :=
  match r with Ok x => mret x | Err e => em_fail e end.

(** One step for each element, in order. *)
Fixpoint em_iter {S E A B} (f : A -> EM S E B) (l : list A) : EM S E (list B) :=
  match l with
  | [] => mret []
  | x :: l' => y ← f x; ys ← em_iter f l'; mret (y :: ys)
  end.

Lemma em_bind_ok {S E A B} (m : EM S E A) (f : A -> EM S E B) s s1 x :
  m s = Some (s1, Ok x) -> (m ≫= f) s = f x s1.
Proof. unfold mbind, EM_bind. by intros ->. Qed.

Lemma em_bind_inv {S E A B} (m : EM S E A) (f : A -> EM S E B) s s' r :
  (m ≫= f) s = Some (s', r) ->
  (exists s1 x, m s = Some (s1, Ok x) ∧ f x s1 = Some (s', r)) ∨ (exists e, m s = Some (s', Err e) ∧ r = Err e).
Proof.
  unfold mbind, EM_bind. destruct (m s) as [[s1 [x|e]]|]; [|intros [= <- <-]|done]; eauto.
Qed.

Lemma em_lift_inv {S E A} (o : option A) (s s' : S) (r : Result A E) :
  em_lift o s = Some (s', r) -> exists x, o = Some x ∧ s' = s ∧ r = Ok x.
Proof. unfold em_lift. destruct o; [intros [= <- <-]; eauto|done]. Qed.

(** Takes a step apart that reads or writes the state. *)
Ltac em_pure H :=
  let Hm := fresh "Hm" in
  apply em_bind_inv in H as [(? & ? & Hm & H)|(? & Hm & _)]; [injection Hm as <- <-|done].

(** Takes a lifted option apart: its value is [x]. *)
Tactic Notation "em_value" hyp(H) "as" ident(x) ident(Hx) :=
  let Hm := fresh "Hm" in
  apply em_bind_inv in H as [(? & x & Hm & H)|(? & Hm & _)];
    [apply em_lift_inv in Hm as (? & Hx & -> & [= <-])|by apply em_lift_inv in Hm as (? & _ & _ & ?)].

(** [hoare P c Q X]: from a state that satisfies [P], [c] does not panic; it
    establishes [Q] when it returns a value and [X] when it returns early. *)
Definition hoare {S E A} (P : S -> Prop) (c : EM S E A) (Q : A -> S -> Prop) (X : E -> S -> Prop) : Prop :=
  forall s, P s ->
    match c s with
    | Some (s', Ok x) => Q x s'
    | Some (s', Err e) => X e s'
    | None => False
    end.

Section hoare.
Context {S E : Type}.

Lemma hoare_bind {A B} P (c : EM S E A) (f : A -> EM S E B) Q R X :
  hoare P c Q X -> (forall x, hoare (Q x) (f x) R X) -> hoare P (c ≫= f) R X.
Proof.
  intros Hc Hf s HP. specialize (Hc s HP). unfold mbind, EM_bind.
  destruct (c s) as [[s' [x|e]]|]; [by apply Hf|done..].
Qed.

Lemma hoare_conseq {A} (P P' : S -> Prop) (c : EM S E A) (Q Q' : A -> S -> Prop) (X X' : E -> S -> Prop) :
  hoare P' c Q' X' -> (forall s, P s -> P' s) -> (forall x s, Q' x s -> Q x s) ->
  (forall e s, X' e s -> X e s) -> hoare P c Q X.
Proof.
  intros Hc HP HQ HX s Hs. specialize (Hc s (HP s Hs)).
  destruct (c s) as [[s' [x|e]]|]; [by apply HQ|by apply HX|done].
Qed.

Lemma hoare_pre {A} (P P' : S -> Prop) (c : EM S E A) Q X :
  hoare P' c Q X -> (forall s, P s -> P' s) -> hoare P c Q X.
Proof. intros Hc HP. by eapply hoare_conseq. Qed.

Lemma hoare_post {A} (P : S -> Prop) (c : EM S E A) (Q Q' : A -> S -> Prop) X :
  hoare P c Q' X -> (forall x s, Q' x s -> Q x s) -> hoare P c Q X.
Proof. intros Hc HQ. by eapply hoare_conseq. Qed.

Lemma hoare_ret {A} (x : A) (P : S -> Prop) (Q : A -> S -> Prop) (X : E -> S -> Prop) :
  (forall s, P s -> Q x s) -> hoare P (mret x) Q X.
Proof. intros HQ s HP. by apply HQ. Qed.

Lemma hoare_fail {A} (e : E) (P : S -> Prop) (Q : A -> S -> Prop) (X : E -> S -> Prop) :
  (forall s, P s -> X e s) -> hoare P (em_fail e) Q X.
Proof. intros HX s HP. by apply HX. Qed.

Lemma hoare_get (P : S -> Prop) (X : E -> S -> Prop) : hoare P em_get (fun x s => x = s ∧ P s) X.
Proof. by intros s HP. Qed.

Lemma hoare_modify (f : S -> S) (P : S -> Prop) (Q : unit -> S -> Prop) (X : E -> S -> Prop) :
  (forall s, P s -> Q tt (f s)) -> hoare P (em_modify f) Q X.
Proof. intros HQ s HP. by apply HQ. Qed.

Lemma hoare_lift {A} (o : option A) (P : S -> Prop) (Q : A -> S -> Prop) (X : E -> S -> Prop) :
  (forall s, P s -> exists x, o = Some x ∧ Q x s) -> hoare P (em_lift o) Q X.
Proof. intros HQ s HP. destruct (HQ s HP) as (x & -> & Hx). done. Qed.

Lemma hoare_result {A} (r : Result A E) (P : S -> Prop) (Q : A -> S -> Prop) (X : E -> S -> Prop) :
  (forall x s, r = Ok x -> P s -> Q x s) -> (forall e s, r = Err e -> P s -> X e s) ->
  hoare P (em_result r) Q X.
Proof. intros HQ HX s HP. destruct r; simpl; auto. Qed.

Lemma hoare_conj {A} P P' (c : EM S E A) Q Q' X X' :
  hoare P c Q X -> hoare P' c Q' X' ->
  hoare (fun s => P s ∧ P' s) c (fun x s => Q x s ∧ Q' x s) (fun e s => X e s ∧ X' e s).
Proof.
  intros H1 H2 s [HP HP']. specialize (H1 s HP). specialize (H2 s HP').
  destruct (c s) as [[s' [x|e]]|]; done.
Qed.

(** A fact about no state moves out of the precondition. *)
Lemma hoare_pure {A} (φ : Prop) (P : S -> Prop) (c : EM S E A) Q X :
  (φ -> hoare P c Q X) -> hoare (fun s => φ ∧ P s) c Q X.
Proof. intros Hc s [Hφ HP]. by apply Hc. Qed.

Lemma hoare_exists {A T} (P : T -> S -> Prop) (c : EM S E A) Q X :
  (forall t, hoare (P t) c Q X) -> hoare (fun s => exists t, P t s) c Q X.
Proof. intros Hc s [t HP]. by apply (Hc t). Qed.
End hoare.

(** The outcome of a run of code with loops. *)
Inductive Run (A : Type) :=
| Finished (x : A)
| Panicked
| Spinning.
Arguments Finished {A}.
Arguments Panicked {A}.
Arguments Spinning {A}.

#[global] Instance Run_ret : MRet Run := @Finished.
#[global] Instance Run_bind : MBind Run := fun A B f m =>
  match m with Finished x => f x | Panicked => Panicked | Spinning => Spinning end.

(** Signed 32-bit addition, wrapping. *)
Definition i32_wrap (x : Z) : Z := ((x + 2147483648) mod 4294967296 - 2147483648)%Z.
Definition i32_add (x y : Z) : Z := i32_wrap (x + y).
Definition i32_sub (x y : Z) : Z := i32_wrap (x - y).

(** ** Logs written by several writers *)

Lemma last_write_concat_Some {K V} `{EqDecision K} (ls : list (list (K * V))) k v :
  (forall l1 l2, l1 ∈ ls -> l2 ∈ ls -> last_write l1 k ≠ None -> last_write l2 k ≠ None ->
     last_write l1 k = last_write l2 k) ->
  last_write (concat ls) k = Some v ↔ exists l, l ∈ ls ∧ last_write l k = Some v.
Proof.
  revert v. induction ls as [|l ls IH]; intros v Hu; simpl.
  - split; [done|]. by intros (? & ?%elem_of_nil & _).
  - rewrite last_write_app.
    assert (last_write (concat ls) k = Some v ↔ exists l, l ∈ ls ∧ last_write l k = Some v) as IH'.
    { apply IH. intros l1 l2 H1 H2. apply Hu; by right. }
    destruct (last_write (concat ls) k) as [v'|] eqn:E.
    + split.
      * intros [= ->]. destruct IH' as [(l' & ? & ?) _]; [done|]. exists l'. split; [by right|done].
      * intros (l' & Hl & Hv). assert (exists l1, l1 ∈ ls ∧ last_write l1 k = Some v') as (l1 & H1 & E1).
        { apply IH; [|done]. intros a b Ha Hb. apply Hu; by right. }
        f_equal. specialize (Hu l1 l'). rewrite E1, Hv in Hu.
        assert (Some v' = Some v) as [= ->]; [|done]. by apply Hu; [right|..].
    + split.
      * intros Hv. exists l. split; [left|done].
      * intros (l' & [->|Hl]%elem_of_cons & Hv); [done|].
        assert (None = Some v) as [=]. apply IH'. eauto.
Qed.

Lemma last_write_concat_Permutation {K V} `{EqDecision K} (ls ls' : list (list (K * V))) k :
  ls ≡ₚ ls' ->
  (forall l1 l2, l1 ∈ ls' -> l2 ∈ ls' -> last_write l1 k ≠ None -> last_write l2 k ≠ None ->
     last_write l1 k = last_write l2 k) ->
  last_write (concat ls) k = last_write (concat ls') k.
Proof.
  intros Hp Hu. apply option_eq. intros v. rewrite !last_write_concat_Some; [by setoid_rewrite Hp|done|].
  intros l1 l2 H1 H2. rewrite Hp in H1, H2. by apply Hu.
Qed.

Lemma StronglySorted_cases {A} (R : A -> A -> Prop) l x y :
  StronglySorted R l -> x ∈ l -> y ∈ l -> x = y ∨ R x y ∨ R y x.
Proof.
  induction 1 as [|z l Hs IH Hf]; intros Hx Hy; [by apply elem_of_nil in Hx|].
  rewrite Forall_forall in Hf.
  apply elem_of_cons in Hx as [Ex|Hx]; apply elem_of_cons in Hy as [Ey|Hy]; subst; auto.
Qed.

Lemma StronglySorted_impl {A} (R R' : A -> A -> Prop) l :
  (forall x y, R x y -> R' x y) -> StronglySorted R l -> StronglySorted R' l.
Proof.
  intros HR. induction 1 as [|x l Hs IH Hf]; constructor; [done|].
  eapply Forall_impl; [done|]. intros y. apply HR.
Qed.
