(* ===== verification/Bytes.v ===== *)
(** * Big-endian bytes

    The 20- and 32-byte arrays of the source ([H160], [H256], keys and values of
    the cache, words in EVM memory) are lists of bytes; [be_bytes] and [be_value]
    convert between them and integers. *)

From S2P Require Import Prelude.
Local Open Scope Z_scope.

Fixpoint be_bytes (n : nat) (z : Z) : list Z :=
  match n with
  | O => []
  | S n' => be_bytes n' (z / 256) ++ [z mod 256]
  end.

Definition be_value (l : list Z) : Z := foldl (fun acc b => acc * 256 + b) 0 l.

Lemma length_be_bytes n z : length (be_bytes n z) = n.
Proof. revert z. induction n as [|n IH]; intros z; simpl; [done|]. rewrite length_app, IH. simpl. lia. Qed.

Lemma be_value_snoc l b : be_value (l ++ [b]) = be_value l * 256 + b.
Proof. unfold be_value. by rewrite foldl_app. Qed.

Lemma be_value_bytes n z : be_value (be_bytes n z) = z mod 256 ^ Z.of_nat n.
Proof.
  revert z. induction n as [|n IH]; intros z; simpl be_bytes.
  - by rewrite Z.mod_1_r.
  - rewrite be_value_snoc, IH, Nat2Z.inj_succ, Z.pow_succ_r by lia.
    rewrite (Z.rem_mul_r z 256 (256 ^ Z.of_nat n)) by (try apply Z.pow_nonzero; lia). lia.
Qed.

Lemma be_value_app l l' :
  be_value (l ++ l') = be_value l * 256 ^ Z.of_nat (length l') + be_value l'.
Proof.
  induction l' as [|b l' IH] using rev_ind; [rewrite app_nil_r; unfold be_value; simpl; lia|].
  rewrite app_assoc, !be_value_snoc, IH, length_app. simpl length.
  rewrite Nat.add_1_r, Nat2Z.inj_succ, Z.pow_succ_r by lia. ring.
Qed.

Lemma be_bytes_app n k z : be_bytes (n + k) z = be_bytes n (z / 256 ^ Z.of_nat k) ++ be_bytes k z.
Proof.
  revert z. induction k as [|k IH]; intros z.
  - by rewrite Nat.add_0_r, Z.div_1_r, app_nil_r.
  - rewrite Nat.add_succ_r. simpl be_bytes. rewrite IH, <- app_assoc. do 2 f_equal.
    rewrite Nat2Z.inj_succ, Z.pow_succ_r by lia. rewrite Zdiv_Zdiv; [done|lia|].
    apply Z.pow_nonneg. lia.
Qed.

Lemma drop_be_bytes n k z : drop n (be_bytes (n + k) z) = be_bytes k z.
Proof. rewrite be_bytes_app. apply drop_app_length'. by rewrite length_be_bytes. Qed.

Lemma be_bytes_inj n z z' :
  be_bytes n z = be_bytes n z' -> z mod 256 ^ Z.of_nat n = z' mod 256 ^ Z.of_nat n.
Proof. intros H. by rewrite <- !be_value_bytes, H. Qed.

Lemma be_bytes_mod n z z' :
  z mod 256 ^ Z.of_nat n = z' mod 256 ^ Z.of_nat n -> be_bytes n z = be_bytes n z'.
Proof.
  revert z z'. induction n as [|n IH]; intros z z' H; simpl; [done|].
  rewrite Nat2Z.inj_succ, Z.pow_succ_r in H by lia.
  rewrite !(Z.rem_mul_r _ 256 (256 ^ Z.of_nat n)) in H by (try apply Z.pow_nonzero; lia).
  pose proof (Z.mod_pos_bound z 256). pose proof (Z.mod_pos_bound z' 256).
  assert (z mod 256 = z' mod 256) as ->.
  { apply (f_equal (fun x => x mod 256)) in H.
    rewrite !(Z.mul_comm 256), !Z_mod_plus_full, !Z.mod_mod in H by lia. done. }
  f_equal. apply IH. lia.
Qed.

Lemma be_bytes_value l : Forall (fun b => 0 <= b < 256) l -> be_bytes (length l) (be_value l) = l.
Proof.
  induction l as [|b l IH] using rev_ind; intros Hl; [done|].
  apply Forall_app in Hl as [Hl [Hb _]%Forall_cons]. rewrite be_value_snoc, length_app, Nat.add_1_r. simpl.
  rewrite Z.div_add_l, Z.div_small, Z.add_0_r, IH by (done || lia). f_equal. f_equal.
  rewrite Z.add_comm, Z.mod_add, Z.mod_small by lia. done.
Qed.

Lemma be_value_inj l l' :
  Forall (fun b => 0 <= b < 256) l -> Forall (fun b => 0 <= b < 256) l' ->
  length l = length l' -> be_value l = be_value l' -> l = l'.
Proof. intros Hl Hl' Hn Hv. by rewrite <- (be_bytes_value l), <- (be_bytes_value l'), Hn, Hv. Qed.

Lemma be_bytes_range n z : Forall (fun b => 0 <= b < 256) (be_bytes n z).
Proof.
  revert z. induction n as [|n IH]; intros z; simpl; [constructor|]. apply Forall_app.
  split; [done|]. repeat constructor; apply Z.mod_pos_bound; lia.
Qed.

#[export] Hint Resolve length_be_bytes be_bytes_range : chase.
