(* ===== verification/Types.v ===== *)
(** * Transactions, effects and read/write sets

    The data exchanged between the components of CHASE:
    - [Basic], [Apply], [Log]: the state effects an EVM run produces
      (crates/chase-evm/src/backend/mod.rs);
    - [RwSet]: the storage slots a simulated run read and wrote
      (crates/chase-evm/src/executor/stack/executor.rs);
    - [EthereumTransaction], [IndexedEthereumTransaction],
      [ExecutableEthereumBatch] (crates/sslab-execution/evm/src/types.rs);
    - the views a transaction goes through in the scheduler: simulated, aborted,
      scheduled, re-executed, finalized
      (crates/sslab-execution/chase/src/types.rs).

    Addresses, hashes and 256-bit words are integers.  A Rust panic is [None] of
    the option monad. *)

From S2P Require Import Prelude.
Local Open Scope Z_scope.

Abbreviation H160 := Z (only parsing).
Abbreviation H256 := Z (only parsing).
Abbreviation U256 := Z (only parsing).
Abbreviation bytes := (list Z) (only parsing).

(** ** State effects *)

Record Basic := mkBasic { balance : U256; nonce : U256 }.

#[global] Instance Basic_eq_dec : EqDecision Basic.
Proof. solve_decision. Defined.

Definition Basic_default : Basic := mkBasic 0 0.

Record Log := mkLog { log_address : H160; log_topics : list H256; log_data : bytes }.

Inductive Apply :=
| Modify (address : H160) (basic : Basic) (code : option bytes)
         (storage : gmap H256 H256) (reset_storage : bool)
| Delete (address : H160).

Definition apply_address (a : Apply) : H160 :=
  match a with Modify address _ _ _ _ => address | Delete address => address end.

(** ** Exit reasons of the EVM

    src/crates/chase-evm/core/src/error.rs *)

Inductive ExitSucceed := Stopped | Returned | Suicided.
Inductive ExitRevert := Reverted.

Inductive ExitError :=
| StackUnderflow | StackOverflow | InvalidJump | InvalidRange | DesignatedInvalid
| CallTooDeep | CreateCollision | CreateContractLimit
| InvalidCode (opcode : Z)
| OutOfOffset | OutOfGas | OutOfFund | PCUnderflow | CreateEmpty
| ExitErrorOther (msg : string)
| MaxNonce | NotEstimatedYet.

Inductive ExitFatal :=
| NotSupported | UnhandledInterrupt
| CallErrorAsFatal (e : ExitError)
| ExitFatalOther (msg : string).

Inductive ExitReason :=
| Succeed (s : ExitSucceed)
| ExitReasonError (e : ExitError)
| Revert (r : ExitRevert)
| Fatal (f : ExitFatal).

(** ** Call contexts and precompiles

    src/crates/chase-evm/runtime/src/context.rs and
    src/crates/chase-evm/src/executor/stack/precompile.rs *)

Record Context := mkContext {
  ctx_address : H160;
  ctx_caller : H160;
  ctx_apparent_value : U256
}.

Record PrecompileOutput := mkPrecompileOutput { po_exit_status : ExitSucceed; po_output : bytes }.

Inductive PrecompileFailure :=
| PrecompileError (exit_status : ExitError)
| PrecompileRevert (exit_status : ExitRevert) (output : bytes)
| PrecompileFatal (exit_status : ExitFatal).

(** Input, gas limit, context and the static flag; the output and its cost. *)
Definition PrecompileFn : Type :=
  bytes -> option Z -> Context -> bool -> Result (PrecompileOutput * Z) PrecompileFailure.

(** ** Read/write sets *)

Record RwSet := mkRwSet {
  read_set : gmap H160 (gmap H256 H256);
  write_set : gmap H160 (gmap H256 H256)
}.

Definition RwSet_new : RwSet := mkRwSet ∅ ∅.

Definition RwSet_destruct (s : RwSet) :
    gmap H160 (gmap H256 H256) * gmap H160 (gmap H256 H256) :=
  (read_set s, write_set s).

(** [map.entry(address).or_insert_with(HashMap::new).insert(key, value)] *)
Definition record_key (m : gmap H160 (gmap H256 H256)) (address : H160)
    (key value : H256) : gmap H160 (gmap H256 H256) :=
  <[address := <[key := value]> (default ∅ (m !! address))]> m.

Definition record_read_key (s : RwSet) (address : H160) (key value : H256) : RwSet :=
  mkRwSet (record_key (read_set s) address key value) (write_set s).

Definition record_write_key (s : RwSet) (address : H160) (key value : H256) : RwSet :=
  mkRwSet (read_set s) (record_key (write_set s) address key value).

(** The slots of every contract, flattened: the contract address is dropped, so
    equal slots of two contracts coincide. *)
Definition flatten_keys (m : gmap H160 (gmap H256 H256)) : gset H256 :=
  ⋃ ((fun p : H160 * gmap H256 H256 => dom p.2) <$> map_to_list m).

Definition extract_read_set (s : RwSet) : gset H256 := flatten_keys (read_set s).
Definition extract_write_set (s : RwSet) : gset H256 := flatten_keys (write_set s).

(** [types::is_disjoint]: probes the larger set with the smaller one. *)
Definition HashSet_is_disjoint (left right : gset H256) : bool :=
  forallb (fun k => negb (bool_decide (k ∈ right))) (elements left).

Definition is_disjoint (left right : gset H256) : bool :=
  (bool_decide (size left <= size right)%nat && HashSet_is_disjoint left right)
  || (bool_decide (size right < size left)%nat && HashSet_is_disjoint right left).

(** ** Transactions of the execution layer *)

(** The fields of ethers' [TypedTransaction] the code reads; each is optional. *)
Record EthereumTransaction := mkEthereumTransaction {
  tx_from : option H160;
  tx_to : option H160;
  tx_value : option U256;
  tx_data : option bytes;
  tx_gas : option U256;
  tx_access_list : option (list (H160 * list H256));
  tx_nonce : option U256
}.

Definition to_addr (tx : EthereumTransaction) : option H160 := tx_to tx.
Definition caller (tx : EthereumTransaction) : option H160 := tx_from tx.
Definition value (tx : EthereumTransaction) : option U256 := tx_value tx.
Definition data (tx : EthereumTransaction) : option bytes := tx_data tx.
Definition tx_nonce_of (tx : EthereumTransaction) : option U256 := tx_nonce tx.

(** [self.0.gas().unwrap().as_u64()]: panics on a missing limit and on one above
    [u64::MAX]. *)
Definition gas_limit (tx : EthereumTransaction) : option Z :=
  match tx_gas tx with
  | Some g => if g <=? u64_max then Some g else None
  | None => None
  end.

Definition access_list (tx : EthereumTransaction) : list (H160 * list H256) :=
  match tx_access_list tx with
  | Some l => (fun item : H160 * list H256 => (item.1, item.2)) <$> l
  | None => []
  end.

Record IndexedEthereumTransaction := mkIndexed { itx : EthereumTransaction; itx_id : Z }.

Record ExecutableEthereumBatch := mkBatch {
  batch_digest : Z;
  batch_data : list EthereumTransaction
}.

(** ** Views of a transaction in the scheduler *)

Record SimulatedTransaction := mkSimulated {
  sim_tx_id : Z;
  sim_read_set : gset H256;
  sim_write_set : gset H256;
  sim_rw_set : RwSet;
  sim_effects : list Apply;
  sim_logs : list Log;
  sim_raw_tx : IndexedEthereumTransaction
}.

Definition SimulatedTransaction_new (rw_set : RwSet) (effects : list Apply)
    (logs : list Log) (raw_tx : IndexedEthereumTransaction) : SimulatedTransaction :=
  mkSimulated (itx_id raw_tx) (extract_read_set rw_set) (extract_write_set rw_set)
    rw_set effects logs raw_tx.

Definition SimulatedTransaction_deconstruct (tx : SimulatedTransaction) :
    Z * RwSet * list Apply * list Log * IndexedEthereumTransaction :=
  (itx_id (sim_raw_tx tx), sim_rw_set tx, sim_effects tx, sim_logs tx, sim_raw_tx tx).

Record AbortedTransaction := mkAborted {
  aborted_raw_tx : IndexedEthereumTransaction;
  aborted_prev_write_keys : gset H256;
  aborted_prev_read_keys : gset H256
}.

Definition AbortedTransaction_new (raw_tx : IndexedEthereumTransaction)
    (prev_read_keys prev_write_keys : gset H256) : AbortedTransaction :=
  mkAborted raw_tx prev_write_keys prev_read_keys.

Definition AbortedTransaction_id (tx : AbortedTransaction) : Z :=
  itx_id (aborted_raw_tx tx).

Definition into_raw_tx (tx : AbortedTransaction) : IndexedEthereumTransaction :=
  aborted_raw_tx tx.

Record ScheduledTransaction := mkScheduled {
  sched_seq : Z;
  sched_tx_id : Z;
  sched_effect : list Apply;
  sched_log : list Log
}.

(** [impl Ord for ScheduledTransaction]: by sequence, then by id. *)
Definition ScheduledTransaction_cmp (x y : ScheduledTransaction) : comparison :=
  if sched_seq x >? sched_seq y then Gt
  else if sched_seq x <? sched_seq y then Lt
  else if sched_tx_id x <? sched_tx_id y then Lt
  else if sched_tx_id x >? sched_tx_id y then Gt
  else Eq.

(** [impl PartialEq for ScheduledTransaction] compares the ids only. *)
Definition ScheduledTransaction_eqb (x y : ScheduledTransaction) : bool :=
  sched_tx_id x =? sched_tx_id y.

Record ReExecutedTransaction := mkReExecuted {
  reexec_tx : IndexedEthereumTransaction;
  reexec_effect : list Apply;
  reexec_log : list Log;
  reexec_rw_set : RwSet
}.

Definition ReExecutedTransaction_build_from (tx : IndexedEthereumTransaction)
    (effect : list Apply) (log : list Log) (rw_set : RwSet) : ReExecutedTransaction :=
  mkReExecuted tx effect log rw_set.

Definition ReExecutedTransaction_write_set (tx : ReExecutedTransaction) : gset H256 :=
  extract_write_set (reexec_rw_set tx).

Record FinalizedTransaction := mkFinalized { fin_id : Z; fin_effect : list Apply }.

Definition FinalizedTransaction_new (id : Z) (effect : list Apply) : FinalizedTransaction :=
  mkFinalized id effect.

Definition FinalizedTransaction_extract (tx : FinalizedTransaction) : list Apply :=
  fin_effect tx.

Definition FinalizedTransaction_from_reexecuted (tx : ReExecutedTransaction) :
    FinalizedTransaction :=
  mkFinalized (itx_id (reexec_tx tx)) (reexec_effect tx).

Definition FinalizedTransaction_from_scheduled (tx : ScheduledTransaction) :
    FinalizedTransaction :=
  mkFinalized (sched_tx_id tx) (sched_effect tx).

(** ** Lemmas *)

Lemma elem_of_flatten_keys m k :
  k ∈ flatten_keys m ↔ ∃ a st, m !! a = Some st ∧ k ∈ dom st.
Proof.
  unfold flatten_keys. rewrite elem_of_union_list. split.
  - intros (X & HX & Hk). apply list_elem_of_fmap in HX as ([a st] & -> & Hin).
    apply elem_of_map_to_list in Hin. eauto.
  - intros (a & st & Hm & Hk). exists (dom st). split; [|done].
    apply list_elem_of_fmap. exists (a, st). split; [done|].
    by apply elem_of_map_to_list.
Qed.

Lemma flatten_keys_record_key m a k v :
  flatten_keys (record_key m a k v) = {[k]} ∪ flatten_keys m.
Proof.
  apply set_eq. intros k'. rewrite elem_of_union, elem_of_singleton.
  rewrite !elem_of_flatten_keys. unfold record_key. split.
  - intros (a' & st & Hl & Hk'). destruct (decide (a = a')) as [<-|Hne].
    + rewrite lookup_insert_eq in Hl. simplify_eq.
      rewrite dom_insert, elem_of_union, elem_of_singleton in Hk'.
      destruct Hk' as [->|Hk']; [by left|right].
      destruct (m !! a) eqn:E; simpl in Hk'; [eauto|set_solver].
    + rewrite lookup_insert_ne in Hl by done. eauto.
  - intros [->|(a' & st & Hl & Hk')].
    + exists a. rewrite lookup_insert_eq. eexists; split; [done|]. set_solver.
    + destruct (decide (a = a')) as [<-|Hne].
      * exists a. rewrite lookup_insert_eq, Hl. eexists; split; [done|]. set_solver.
      * exists a', st. by rewrite lookup_insert_ne.
Qed.

Lemma HashSet_is_disjoint_spec left right :
  HashSet_is_disjoint left right = true ↔ left ## right.
Proof.
  unfold HashSet_is_disjoint. rewrite forallb_forall. split.
  - intros H k Hl Hr. specialize (H k).
    rewrite <- list_elem_of_In, elem_of_elements in H.
    specialize (H Hl). by rewrite bool_decide_eq_true_2 in H.
  - intros H k Hk. rewrite <- list_elem_of_In, elem_of_elements in Hk.
    rewrite bool_decide_eq_false_2; [done|]. set_solver.
Qed.

Lemma is_disjoint_spec left right : is_disjoint left right = true ↔ left ## right.
Proof.
  unfold is_disjoint.
  rewrite orb_true_iff, !andb_true_iff, !bool_decide_eq_true, !HashSet_is_disjoint_spec.
  destruct (decide (size left <= size right)%nat); intuition (lia || set_solver).
Qed.
