(* ===== verification/EvmConfig.v ===== *)
(** * Fork configurations of the EVM runtime

    [Config] and its constructors, crates/chase-evm/runtime/src/lib.rs: the gas
    prices, limits and feature switches of a hard fork.  The four forks from
    Berlin on are derived from the inputs that distinguish them.

    [cfg_ok] collects what the metered interpreter relies on: every step that
    goes on costs gas, a call that carries value pays more than the stipend it
    hands over, and no constant is large enough to overflow the 64-bit sums.
    The six forks satisfy it. *)

From S2P Require Import Prelude.
Local Open Scope Z_scope.

Record Config := mkConfig {
  cfg_gas_ext_code : Z;
  cfg_gas_ext_code_hash : Z;
  cfg_gas_sstore_set : Z;
  cfg_gas_sstore_reset : Z;
  cfg_refund_sstore_clears : Z;
  cfg_max_refund_quotient : Z;
  cfg_gas_balance : Z;
  cfg_gas_sload : Z;
  cfg_gas_sload_cold : Z;
  cfg_gas_suicide : Z;
  cfg_gas_suicide_new_account : Z;
  cfg_gas_call : Z;
  cfg_gas_expbyte : Z;
  cfg_gas_transaction_create : Z;
  cfg_gas_transaction_call : Z;
  cfg_gas_transaction_zero_data : Z;
  cfg_gas_transaction_non_zero_data : Z;
  cfg_gas_access_list_address : Z;
  cfg_gas_access_list_storage_key : Z;
  cfg_gas_account_access_cold : Z;
  cfg_gas_storage_read_warm : Z;
  cfg_sstore_gas_metering : bool;
  cfg_sstore_revert_under_stipend : bool;
  cfg_increase_state_access_gas : bool;
  cfg_decrease_clears_refund : bool;
  cfg_disallow_executable_format : bool;
  cfg_warm_coinbase_address : bool;
  cfg_err_on_call_with_more_gas : bool;
  cfg_call_l64_after_gas : bool;
  cfg_empty_considered_exists : bool;
  cfg_create_increase_nonce : bool;
  cfg_stack_limit : Z;
  cfg_memory_limit : Z;
  cfg_call_stack_limit : Z;
  cfg_create_contract_limit : option Z;
  cfg_max_initcode_size : option Z;
  cfg_call_stipend : Z;
  cfg_has_delegate_call : bool;
  cfg_has_create2 : bool;
  cfg_has_revert : bool;
  cfg_has_return_data : bool;
  cfg_has_bitwise_shifting : bool;
  cfg_has_chain_id : bool;
  cfg_has_self_balance : bool;
  cfg_has_ext_code_hash : bool;
  cfg_has_base_fee : bool;
  cfg_has_push0 : bool;
  cfg_estimate : bool
}.

Record DerivedConfigInputs := mkInputs {
  in_gas_storage_read_warm : Z;
  in_gas_sload_cold : Z;
  in_gas_access_list_storage_key : Z;
  in_decrease_clears_refund : bool;
  in_has_base_fee : bool;
  in_has_push0 : bool;
  in_disallow_executable_format : bool;
  in_warm_coinbase_address : bool;
  in_max_initcode_size : option Z
}.

(** [DerivedConfigInputs::berlin] *)
Definition inputs_berlin : DerivedConfigInputs := {|
  in_gas_storage_read_warm := 100;
  in_gas_sload_cold := 2100;
  in_gas_access_list_storage_key := 1900;
  in_decrease_clears_refund := false;
  in_has_base_fee := false;
  in_has_push0 := false;
  in_disallow_executable_format := false;
  in_warm_coinbase_address := false;
  in_max_initcode_size := None
|}.

(** [DerivedConfigInputs::london] *)
Definition inputs_london : DerivedConfigInputs := {|
  in_gas_storage_read_warm := 100;
  in_gas_sload_cold := 2100;
  in_gas_access_list_storage_key := 1900;
  in_decrease_clears_refund := true;
  in_has_base_fee := true;
  in_has_push0 := false;
  in_disallow_executable_format := true;
  in_warm_coinbase_address := false;
  in_max_initcode_size := None
|}.

(** [DerivedConfigInputs::merge] *)
Definition inputs_merge : DerivedConfigInputs := {|
  in_gas_storage_read_warm := 100;
  in_gas_sload_cold := 2100;
  in_gas_access_list_storage_key := 1900;
  in_decrease_clears_refund := true;
  in_has_base_fee := true;
  in_has_push0 := false;
  in_disallow_executable_format := true;
  in_warm_coinbase_address := false;
  in_max_initcode_size := None
|}.

(** [DerivedConfigInputs::shanghai] *)
Definition inputs_shanghai : DerivedConfigInputs := {|
  in_gas_storage_read_warm := 100;
  in_gas_sload_cold := 2100;
  in_gas_access_list_storage_key := 1900;
  in_decrease_clears_refund := true;
  in_has_base_fee := true;
  in_has_push0 := true;
  in_disallow_executable_format := true;
  in_warm_coinbase_address := true;
  in_max_initcode_size := Some 49152
|}.

(** [Config::frontier] *)
Definition frontier : Config := {|
  cfg_gas_ext_code := 20;
  cfg_gas_ext_code_hash := 20;
  cfg_gas_sstore_set := 20000;
  cfg_gas_sstore_reset := 5000;
  cfg_refund_sstore_clears := 15000;
  cfg_max_refund_quotient := 2;
  cfg_gas_balance := 20;
  cfg_gas_sload := 50;
  cfg_gas_sload_cold := 0;
  cfg_gas_suicide := 0;
  cfg_gas_suicide_new_account := 0;
  cfg_gas_call := 40;
  cfg_gas_expbyte := 10;
  cfg_gas_transaction_create := 21000;
  cfg_gas_transaction_call := 21000;
  cfg_gas_transaction_zero_data := 4;
  cfg_gas_transaction_non_zero_data := 68;
  cfg_gas_access_list_address := 0;
  cfg_gas_access_list_storage_key := 0;
  cfg_gas_account_access_cold := 0;
  cfg_gas_storage_read_warm := 0;
  cfg_sstore_gas_metering := false;
  cfg_sstore_revert_under_stipend := false;
  cfg_increase_state_access_gas := false;
  cfg_decrease_clears_refund := false;
  cfg_disallow_executable_format := false;
  cfg_warm_coinbase_address := false;
  cfg_err_on_call_with_more_gas := true;
  cfg_call_l64_after_gas := false;
  cfg_empty_considered_exists := true;
  cfg_create_increase_nonce := false;
  cfg_stack_limit := 1024;
  cfg_memory_limit := u64_max;
  cfg_call_stack_limit := 1024;
  cfg_create_contract_limit := None;
  cfg_max_initcode_size := None;
  cfg_call_stipend := 2300;
  cfg_has_delegate_call := false;
  cfg_has_create2 := false;
  cfg_has_revert := false;
  cfg_has_return_data := false;
  cfg_has_bitwise_shifting := false;
  cfg_has_chain_id := false;
  cfg_has_self_balance := false;
  cfg_has_ext_code_hash := false;
  cfg_has_base_fee := false;
  cfg_has_push0 := false;
  cfg_estimate := false
|}.

(** [Config::istanbul] *)
Definition istanbul : Config := {|
  cfg_gas_ext_code := 700;
  cfg_gas_ext_code_hash := 700;
  cfg_gas_sstore_set := 20000;
  cfg_gas_sstore_reset := 5000;
  cfg_refund_sstore_clears := 15000;
  cfg_max_refund_quotient := 2;
  cfg_gas_balance := 700;
  cfg_gas_sload := 800;
  cfg_gas_sload_cold := 0;
  cfg_gas_suicide := 5000;
  cfg_gas_suicide_new_account := 25000;
  cfg_gas_call := 700;
  cfg_gas_expbyte := 50;
  cfg_gas_transaction_create := 53000;
  cfg_gas_transaction_call := 21000;
  cfg_gas_transaction_zero_data := 4;
  cfg_gas_transaction_non_zero_data := 16;
  cfg_gas_access_list_address := 0;
  cfg_gas_access_list_storage_key := 0;
  cfg_gas_account_access_cold := 0;
  cfg_gas_storage_read_warm := 0;
  cfg_sstore_gas_metering := true;
  cfg_sstore_revert_under_stipend := true;
  cfg_increase_state_access_gas := false;
  cfg_decrease_clears_refund := false;
  cfg_disallow_executable_format := false;
  cfg_warm_coinbase_address := false;
  cfg_err_on_call_with_more_gas := false;
  cfg_call_l64_after_gas := true;
  cfg_empty_considered_exists := false;
  cfg_create_increase_nonce := true;
  cfg_stack_limit := 1024;
  cfg_memory_limit := u64_max;
  cfg_call_stack_limit := 1024;
  cfg_create_contract_limit := Some 24576;
  cfg_max_initcode_size := None;
  cfg_call_stipend := 2300;
  cfg_has_delegate_call := true;
  cfg_has_create2 := true;
  cfg_has_revert := true;
  cfg_has_return_data := true;
  cfg_has_bitwise_shifting := true;
  cfg_has_chain_id := true;
  cfg_has_self_balance := true;
  cfg_has_ext_code_hash := true;
  cfg_has_base_fee := false;
  cfg_has_push0 := false;
  cfg_estimate := false
|}.

(** [Config::config_with_derived_values]; the fork constants keep the u64
    subtraction and the cast to i64 in range. *)
Definition config_with_derived_values (inputs : DerivedConfigInputs) : Config :=
  let gas_sload := in_gas_storage_read_warm inputs in
  let gas_sstore_reset := 5000 - in_gas_sload_cold inputs in
  let refund_sstore_clears :=
    if in_decrease_clears_refund inputs
    then gas_sstore_reset + in_gas_access_list_storage_key inputs
    else 15000 in
  let max_refund_quotient := if in_decrease_clears_refund inputs then 5 else 2 in
  {|
    cfg_gas_ext_code := 0;
    cfg_gas_ext_code_hash := 0;
    cfg_gas_sstore_set := 20000;
    cfg_gas_sstore_reset := gas_sstore_reset;
    cfg_refund_sstore_clears := refund_sstore_clears;
    cfg_max_refund_quotient := max_refund_quotient;
    cfg_gas_balance := 0;
    cfg_gas_sload := gas_sload;
    cfg_gas_sload_cold := in_gas_sload_cold inputs;
    cfg_gas_suicide := 5000;
    cfg_gas_suicide_new_account := 25000;
    cfg_gas_call := 0;
    cfg_gas_expbyte := 50;
    cfg_gas_transaction_create := 53000;
    cfg_gas_transaction_call := 21000;
    cfg_gas_transaction_zero_data := 4;
    cfg_gas_transaction_non_zero_data := 16;
    cfg_gas_access_list_address := 2400;
    cfg_gas_access_list_storage_key := in_gas_access_list_storage_key inputs;
    cfg_gas_account_access_cold := 2600;
    cfg_gas_storage_read_warm := in_gas_storage_read_warm inputs;
    cfg_sstore_gas_metering := true;
    cfg_sstore_revert_under_stipend := true;
    cfg_increase_state_access_gas := true;
    cfg_decrease_clears_refund := in_decrease_clears_refund inputs;
    cfg_disallow_executable_format := in_disallow_executable_format inputs;
    cfg_warm_coinbase_address := in_warm_coinbase_address inputs;
    cfg_err_on_call_with_more_gas := false;
    cfg_call_l64_after_gas := true;
    cfg_empty_considered_exists := false;
    cfg_create_increase_nonce := true;
    cfg_stack_limit := 1024;
    cfg_memory_limit := u64_max;
    cfg_call_stack_limit := 1024;
    cfg_create_contract_limit := Some 24576;
    cfg_max_initcode_size := in_max_initcode_size inputs;
    cfg_call_stipend := 2300;
    cfg_has_delegate_call := true;
    cfg_has_create2 := true;
    cfg_has_revert := true;
    cfg_has_return_data := true;
    cfg_has_bitwise_shifting := true;
    cfg_has_chain_id := true;
    cfg_has_self_balance := true;
    cfg_has_ext_code_hash := true;
    cfg_has_base_fee := in_has_base_fee inputs;
    cfg_has_push0 := in_has_push0 inputs;
    cfg_estimate := false
  |}.

Definition berlin : Config := config_with_derived_values inputs_berlin.
Definition london : Config := config_with_derived_values inputs_london.
Definition merge_config : Config := config_with_derived_values inputs_merge.
Definition shanghai : Config := config_with_derived_values inputs_shanghai.

(** ** What metering relies on *)

Definition price_ok (x : Z) : Prop := 0 <= x <= 4294967295.

Record cfg_ok (c : Config) : Prop := {
  ck_access : if cfg_increase_state_access_gas c
    then 0 < cfg_gas_account_access_cold c ∧ 0 < cfg_gas_storage_read_warm c ∧ 0 < cfg_gas_sload_cold c
    else 0 < cfg_gas_ext_code c ∧ 0 < cfg_gas_ext_code_hash c ∧ 0 < cfg_gas_balance c ∧ 0 < cfg_gas_call c;
  ck_sload : 0 < cfg_gas_sload c;
  ck_sstore : 0 < cfg_gas_sstore_set c ∧ 0 < cfg_gas_sstore_reset c;
  ck_stipend : 0 <= cfg_call_stipend c < 9000;
  ck_prices : Forall price_ok
    [cfg_gas_ext_code c; cfg_gas_ext_code_hash c; cfg_gas_balance c; cfg_gas_sload c; cfg_gas_sload_cold c;
     cfg_gas_sstore_set c; cfg_gas_sstore_reset c; cfg_gas_suicide c; cfg_gas_suicide_new_account c;
     cfg_gas_call c; cfg_gas_expbyte c; cfg_gas_account_access_cold c; cfg_gas_storage_read_warm c];
  ck_stack : 0 <= cfg_stack_limit c;
  ck_memory : 0 <= cfg_memory_limit c <= u64_max;
  ck_quotient : 1 < cfg_max_refund_quotient c;
  ck_initcode : default 0 (cfg_max_initcode_size c) <= 4294967295
}.

Definition forks : list Config := [frontier; istanbul; berlin; london; merge_config; shanghai].

Lemma forks_cfg_ok : Forall cfg_ok forks.
Proof.
  repeat constructor; vm_compute; repeat split; try done; try (by intros ?).
Qed.
