(* ===== verification/Backend.v ===== *)
(** * In-memory EVM state backends

    - [MemoryBackend]: crates/sslab-execution/evm/src/evm_storage/backend/memory_backend.rs
    - [CMemoryBackend]: .../backend/concurrent_memory_backend.rs
    - [EvmStorage]: crates/sslab-execution/evm/src/evm_storage/evm_storage.rs

    The state is a finite map from addresses to accounts.  [StorageBackend] is
    the interface the scheduler commits through; [StorageBackendLaws] is what it
    promises: the storage read after [apply] is the one [effects_storage]
    computes.  [MemoryBackend] discharges it. *)

From S2P Require Import Prelude Types EvmConfig.
Local Open Scope Z_scope.
Local Open Scope chase_scope.

(** ** Abstract meaning of effects on storage *)

(** The storage of every account, as a total function: an absent slot is zero. *)
Abbreviation world := (H160 -> H256 -> H256).

Definition effect_storage (e : Apply) (s : world) : world :=
  match e with
  | Modify a _ _ st reset => fun a' k =>
      if decide (a' = a) then
        match st !! k with
        | Some v => v
        | None => if reset then 0 else s a' k
        end
      else s a' k
  | Delete a => fun a' k => if decide (a' = a) then 0 else s a' k
  end.

Fixpoint effects_storage (es : list Apply) (s : world) : world :=
  match es with
  | [] => s
  | e :: es' => effects_storage es' (effect_storage e s)
  end.

(** ** The backend interface *)

Class StorageBackend (B : Type) := {
  be_storage : B -> H160 -> H256 -> H256;
  be_apply : B -> list Apply -> bool -> B
}.

Class StorageBackendLaws (B : Type) `{StorageBackend B} := {
  be_storage_apply : forall b es a k,
    be_storage (be_apply b es false) a k = effects_storage es (be_storage b) a k
}.

(** The [Backend] trait the interpreter reads through
    (crates/chase-evm/src/backend/mod.rs). *)
Class EvmBackend (B : Type) := {
  bk_gas_price : B -> U256;
  bk_origin : B -> H160;
  (** [None] is an out-of-range index. *)
  bk_block_hash : B -> U256 -> option H256;
  bk_block_number : B -> U256;
  bk_block_coinbase : B -> H160;
  bk_block_timestamp : B -> U256;
  bk_block_difficulty : B -> U256;
  bk_block_randomness : B -> option H256;
  bk_block_gas_limit : B -> U256;
  bk_block_base_fee_per_gas : B -> U256;
  bk_chain_id : B -> U256;
  bk_exists : B -> H160 -> bool;
  bk_basic : B -> H160 -> Basic;
  bk_code : B -> H160 -> bytes;
  bk_storage : B -> H160 -> H256 -> H256;
  bk_original_storage : B -> H160 -> H256 -> option H256
}.

(** ** Accounts and vicinity *)

Record MemoryVicinity := mkVicinity {
  gas_price : U256;
  origin : H160;
  chain_id : U256;
  block_hashes : list H256;
  block_number : U256;
  block_coinbase : H160;
  block_timestamp : U256;
  block_difficulty : U256;
  block_gas_limit : U256;
  block_base_fee_per_gas : U256;
  block_randomness : option H256
}.

Record MemoryAccount := mkAccount {
  acc_nonce : U256;
  acc_balance : U256;
  acc_storage : gmap H256 H256;
  acc_code : bytes
}.

Definition MemoryAccount_default : MemoryAccount := mkAccount 0 0 ∅ [].

(** ** MemoryBackend *)

Record MemoryBackend := mkMemoryBackend {
  mb_vicinity : MemoryVicinity;
  mb_state : gmap H160 MemoryAccount
}.

(** [Backend::block_hash]; [None] would be an out-of-range index. *)
Definition vicinity_block_hash (v : MemoryVicinity) (number : U256) : option H256 :=
  if (number >=? block_number v)
     || (block_number v - number - 1 >=? Z.of_nat (length (block_hashes v)))
  then Some 0
  else block_hashes v !! Z.to_nat (block_number v - number - 1).

Definition MemoryBackend_exists (b : MemoryBackend) (address : H160) : bool :=
  bool_decide (is_Some (mb_state b !! address)).

Definition MemoryBackend_basic (b : MemoryBackend) (address : H160) : Basic :=
  match mb_state b !! address with
  | Some a => mkBasic (acc_balance a) (acc_nonce a)
  | None => Basic_default
  end.

Definition MemoryBackend_code (b : MemoryBackend) (address : H160) : bytes :=
  match mb_state b !! address with Some a => acc_code a | None => [] end.

Definition MemoryBackend_storage (b : MemoryBackend) (address : H160) (index : H256) : H256 :=
  match mb_state b !! address with
  | Some a => default 0 (acc_storage a !! index)
  | None => 0
  end.

Definition MemoryBackend_original_storage (b : MemoryBackend) (address : H160)
    (index : H256) : option H256 :=
  Some (MemoryBackend_storage b address index).

(** One slot of the effect: a zero value clears the slot. *)
Definition write_slot (m : gmap H256 H256) (index value : H256) : gmap H256 H256 :=
  if decide (value = 0) then delete index m else <[index := value]> m.

Definition write_slots (m : gmap H256 H256) (l : list (H256 * H256)) : gmap H256 H256 :=
  foldl (fun m p => write_slot m p.1 p.2) m l.

(** The slots holding zero are collected and removed. *)
Definition purge_zeros (m : gmap H256 H256) : gmap H256 H256 :=
  filter (fun p : H256 * H256 => p.2 ≠ 0) m.

(** The body of the [Apply::Modify] arm on one account. *)
Definition modify_account (account : MemoryAccount) (basic : Basic) (code : option bytes)
    (storage : gmap H256 H256) (reset_storage : bool) : MemoryAccount :=
  mkAccount (nonce basic) (balance basic)
    (write_slots
       (purge_zeros (if reset_storage then ∅ else acc_storage account))
       (btree_iter storage))
    (match code with Some c => c | None => acc_code account end).

Definition account_is_empty (account : MemoryAccount) : bool :=
  (acc_balance account =? 0) && (acc_nonce account =? 0)
  && match acc_code account with [] => true | _ => false end.

Definition apply_one (delete_empty : bool) (state : gmap H160 MemoryAccount) (e : Apply) :
    gmap H160 MemoryAccount :=
  match e with
  | Modify address basic code storage reset_storage =>
      let account :=
        modify_account (default MemoryAccount_default (state !! address))
          basic code storage reset_storage in
      let state' := <[address := account]> state in
      if account_is_empty account && delete_empty
      then delete address state' else state'
  | Delete address => delete address state
  end.

Definition MemoryBackend_apply (b : MemoryBackend) (values : list Apply)
    (delete_empty : bool) : MemoryBackend :=
  mkMemoryBackend (mb_vicinity b) (foldl (apply_one delete_empty) (mb_state b) values).

#[global] Instance MemoryBackend_StorageBackend : StorageBackend MemoryBackend := {
  be_storage := MemoryBackend_storage;
  be_apply := MemoryBackend_apply
}.

#[global] Instance MemoryBackend_EvmBackend : EvmBackend MemoryBackend := {
  bk_gas_price b := gas_price (mb_vicinity b);
  bk_origin b := origin (mb_vicinity b);
  bk_block_hash b := vicinity_block_hash (mb_vicinity b);
  bk_block_number b := block_number (mb_vicinity b);
  bk_block_coinbase b := block_coinbase (mb_vicinity b);
  bk_block_timestamp b := block_timestamp (mb_vicinity b);
  bk_block_difficulty b := block_difficulty (mb_vicinity b);
  bk_block_randomness b := block_randomness (mb_vicinity b);
  bk_block_gas_limit b := block_gas_limit (mb_vicinity b);
  bk_block_base_fee_per_gas b := block_base_fee_per_gas (mb_vicinity b);
  bk_chain_id b := chain_id (mb_vicinity b);
  bk_exists := MemoryBackend_exists;
  bk_basic := MemoryBackend_basic;
  bk_code := MemoryBackend_code;
  bk_storage := MemoryBackend_storage;
  bk_original_storage := MemoryBackend_original_storage
}.

(** ** CMemoryBackend

    [CAccount] and the vicinity are those of [MemoryBackend]; the maps are
    flurry's.  [get(&address).cloned()] copies the account, its storage map
    included, and the arm changes the copy. *)

Record CMemoryBackend := mkCMemoryBackend {
  cmb_vicinity : MemoryVicinity;
  cmb_state : gmap H160 MemoryAccount
}.

Definition CMemoryBackend_basic (b : CMemoryBackend) (address : H160) : Basic :=
  match cmb_state b !! address with
  | Some a => mkBasic (acc_balance a) (acc_nonce a)
  | None => Basic_default
  end.

Definition CMemoryBackend_code (b : CMemoryBackend) (address : H160) : bytes :=
  match cmb_state b !! address with Some a => acc_code a | None => [] end.

Definition CMemoryBackend_storage (b : CMemoryBackend) (address : H160) (index : H256) : H256 :=
  match cmb_state b !! address with
  | Some a => match acc_storage a !! index with Some v => v | None => 0 end
  | None => 0
  end.

Definition capply_one (delete_empty : bool) (state : gmap H160 MemoryAccount) (e : Apply) :
    gmap H160 MemoryAccount :=
  match e with
  | Modify address basic code storage reset_storage =>
      let account :=
        modify_account (default MemoryAccount_default (state !! address))
          basic code storage reset_storage in
      if account_is_empty account && delete_empty
      then delete address state else state
  | Delete address => delete address state
  end.

Definition CMemoryBackend_apply (b : CMemoryBackend) (values : list Apply)
    (delete_empty : bool) : CMemoryBackend :=
  mkCMemoryBackend (cmb_vicinity b) (foldl (capply_one delete_empty) (cmb_state b) values).

#[global] Instance CMemoryBackend_StorageBackend : StorageBackend CMemoryBackend := {
  be_storage := CMemoryBackend_storage;
  be_apply := CMemoryBackend_apply
}.

(** ** Chain configuration *)

Inductive SpecId :=
| FRONTIER | FRONTIER_THAWING | HOMESTEAD | DAO_FORK | TANGERINE | SPURIOUS_DRAGON
| BYZANTIUM | CONSTANTINOPLE | PETERSBURG | ISTANBUL | MUIR_GLACIER | BERLIN | LONDON
| ARROW_GLACIER | GRAY_GLACIER | MERGE | SHANGHAI | CANCUN | LATEST.

Definition SpecId_all : list SpecId :=
  [FRONTIER; FRONTIER_THAWING; HOMESTEAD; DAO_FORK; TANGERINE; SPURIOUS_DRAGON;
   BYZANTIUM; CONSTANTINOPLE; PETERSBURG; ISTANBUL; MUIR_GLACIER; BERLIN; LONDON;
   ARROW_GLACIER; GRAY_GLACIER; MERGE; SHANGHAI; CANCUN; LATEST].

(** The discriminants are the positions 0 to 18. *)
Definition SpecId_try_from_u8 (spec_id : Z) : option SpecId :=
  if spec_id <? 0 then None else SpecId_all !! Z.to_nat spec_id.

(** [U256::byte(0)] is the least significant byte. *)
Definition SpecId_try_from_u256 (spec_id : U256) : option SpecId :=
  SpecId_try_from_u8 (spec_id mod 256).

(** [ChainConfig::new]; the other forks panic. *)
Definition ChainConfig_new (chain_id : SpecId) : option Config :=
  match chain_id with
  | FRONTIER => Some frontier
  | ISTANBUL => Some istanbul
  | BERLIN => Some berlin
  | LONDON => Some london
  | MERGE => Some merge_config
  | SHANGHAI => Some shanghai
  | LATEST => Some shanghai
  | _ => None
  end.

(** ** EvmStorage *)

Record EvmStorage (B : Type) := mkEvmStorage {
  backend : B;
  precompiles : gmap H160 PrecompileFn;
  chain_config : Config
}.
Arguments mkEvmStorage {B} _ _ _.
Arguments backend {B} _.
Arguments precompiles {B} _.
Arguments chain_config {B} _.

Definition EvmStorage_new {B} (chain_id : Z) (b : B) (pre : gmap H160 PrecompileFn) : option (EvmStorage B) :=
  spec ← SpecId_try_from_u8 (chain_id mod 256);
  cfg ← ChainConfig_new spec;
  Some (mkEvmStorage b pre cfg).

Definition EvmStorage_default {B} (default_backend : B) : option (EvmStorage B) :=
  EvmStorage_new 9 default_backend ∅.

Definition get_storage {B} (s : EvmStorage B) : B := backend s.

Definition snapshot {B} (s : EvmStorage B) : EvmStorage B :=
  mkEvmStorage (backend s) (precompiles s) (chain_config s).

Definition apply_local_effect {B} `{StorageBackend B} (s : EvmStorage B) (effect : list Apply) :
    EvmStorage B :=
  mkEvmStorage (be_apply (backend s) effect false) (precompiles s) (chain_config s).

(** [ExecutionResult] of the backend module: logs and effects. *)
Definition apply_all_effects {B} `{StorageBackend B} (s : EvmStorage B)
    (execution_result : list Log * list Apply) : EvmStorage B :=
  mkEvmStorage (be_apply (backend s) execution_result.2 false) (precompiles s) (chain_config s).

(** ** Initial states

    [parse_h160] and [hex_decode] stand for [H160::from_str] and
    [hex::decode]; both results are unwrapped. *)
Section initial_state.
Context (parse_h160 : string -> option H160) (hex_decode : string -> option bytes).

Definition genesis_vicinity : MemoryVicinity := mkVicinity 0 0 1 [] 0 0 0 0 0 0 None.

(** The contract is inserted first; an equal admin address replaces it. *)
Definition genesis_state (contract_addr bytecode admin_acc : string) :
    option (gmap H160 MemoryAccount) :=
  contract ← parse_h160 contract_addr;
  code ← hex_decode bytecode;
  admin ← parse_h160 admin_acc;
  Some (<[admin := mkAccount 1 10000000 ∅ []]>
          (<[contract := mkAccount 1 10000000 ∅ code]> ∅)).

Definition memory_storage (contract_addr bytecode admin_acc : string) :
    option (EvmStorage MemoryBackend) :=
  state ← genesis_state contract_addr bytecode admin_acc;
  EvmStorage_new 9 (mkMemoryBackend genesis_vicinity state) ∅.

Definition cmemory_backend (contract_addr bytecode admin_acc : string) : option CMemoryBackend :=
  state ← genesis_state contract_addr bytecode admin_acc;
  Some (mkCMemoryBackend genesis_vicinity state).

Definition concurrent_evm_storage (contract_addr bytecode admin_acc : string) :
    option (EvmStorage CMemoryBackend) :=
  state ← genesis_state contract_addr bytecode admin_acc;
  EvmStorage_new 9 (mkCMemoryBackend genesis_vicinity state) ∅.
End initial_state.

(** ** Slot-level lemmas *)

Lemma lookup_write_slot m i v k :
  default 0 (write_slot m i v !! k) = if decide (k = i) then v else default 0 (m !! k).
Proof.
  unfold write_slot. case_decide as Hv; case_decide as Hk; subst.
  - by rewrite lookup_delete_eq.
  - by rewrite lookup_delete_ne.
  - by rewrite lookup_insert_eq.
  - by rewrite lookup_insert_ne.
Qed.

Lemma lookup_write_slots l m k :
  default 0 (write_slots m l !! k) =
  match l !!ʳ k with Some v => v | None => default 0 (m !! k) end.
Proof.
  unfold write_slots. revert m. induction l as [|[i v] l IH]; intros m; simpl; [done|].
  rewrite IH, lookup_write_slot. destruct (l !!ʳ k); [done|].
  by case_decide.
Qed.

Lemma lookup_purge_zeros m k : default 0 (purge_zeros m !! k) = default 0 (m !! k).
Proof.
  unfold purge_zeros. rewrite map_lookup_filter.
  destruct (m !! k) as [v|]; simpl; [|done].
  case_guard; simpl; [done|]. by destruct (decide (v = 0)) as [->|].
Qed.

Lemma last_write_btree_iter (m : gmap Z Z) k : btree_iter m !!ʳ k = m !! k.
Proof.
  destruct (m !! k) as [v|] eqn:E.
  - apply last_write_NoDup; [apply btree_iter_NoDup|by apply elem_of_btree_iter].
  - apply last_write_None. intros ([k' v] & -> & Hin)%list_elem_of_fmap.
    apply elem_of_btree_iter in Hin. naive_solver.
Qed.

Lemma modify_account_storage acc b c st reset k :
  default 0 (acc_storage (modify_account acc b c st reset) !! k) =
  match st !! k with
  | Some v => v
  | None => if reset then 0 else default 0 (acc_storage acc !! k)
  end.
Proof.
  unfold modify_account; simpl. rewrite lookup_write_slots, last_write_btree_iter.
  destruct (st !! k); [done|]. rewrite lookup_purge_zeros. by destruct reset.
Qed.

(** Reading the storage of a state map, the shape shared by all backends. *)
Definition state_storage (state : gmap H160 MemoryAccount) (a : H160) (k : H256) : H256 :=
  match state !! a with Some acc => default 0 (acc_storage acc !! k) | None => 0 end.

Lemma apply_one_storage state e a k :
  state_storage (apply_one false state e) a k = effect_storage e (state_storage state) a k.
Proof.
  unfold state_storage, apply_one, effect_storage.
  destruct e as [a' b c st reset|a'].
  - rewrite andb_false_r. case_decide as Ha; subst.
    + rewrite lookup_insert_eq, modify_account_storage.
      destruct (st !! k); [done|]. destruct reset; [done|].
      by destruct (state !! a').
    + by rewrite lookup_insert_ne.
  - case_decide as Ha; subst; [by rewrite lookup_delete_eq|by rewrite lookup_delete_ne].
Qed.

Lemma effects_storage_proper es s1 s2 :
  (forall a k, s1 a k = s2 a k) ->
  forall a k, effects_storage es s1 a k = effects_storage es s2 a k.
Proof.
  revert s1 s2. induction es as [|e es IH]; intros s1 s2 H a k; simpl; [done|].
  apply IH. intros a' k'. destruct e; simpl; rewrite H; done.
Qed.

Lemma effects_storage_app es1 es2 s :
  effects_storage (es1 ++ es2) s = effects_storage es2 (effects_storage es1 s).
Proof. revert s. induction es1 as [|e es1 IH]; intros s; simpl; [done|]. apply IH. Qed.

Lemma fold_apply_one_storage es state a k :
  state_storage (foldl (apply_one false) state es) a k =
  effects_storage es (state_storage state) a k.
Proof.
  revert state. induction es as [|e es IH]; intros state; simpl; [done|].
  rewrite IH. apply effects_storage_proper. intros. apply apply_one_storage.
Qed.

#[global] Instance MemoryBackend_laws : StorageBackendLaws MemoryBackend.
Proof. constructor. intros b es a k. apply fold_apply_one_storage. Qed.

(** ** Footprints of plain effects

    The effects of a call that neither resets storage nor destroys a contract
    are [Modify] records without [reset_storage]: a list of slot writes. *)

Definition plain (e : Apply) : Prop :=
  match e with Modify _ _ _ _ reset => reset = false | Delete _ => False end.

Definition effect_writes (e : Apply) : list ((H160 * H256) * H256) :=
  match e with
  | Modify a _ _ st _ => (fun p : H256 * H256 => ((a, p.1), p.2)) <$> btree_iter st
  | Delete _ => []
  end.

Definition effects_writes (es : list Apply) : list ((H160 * H256) * H256) :=
  es ≫= effect_writes.

Lemma last_write_effect_writes a b c st r a' k :
  effect_writes (Modify a b c st r) !!ʳ (a', k) =
  if decide (a' = a) then st !! k else None.
Proof.
  unfold effect_writes. rewrite <- (last_write_btree_iter st k).
  induction (btree_iter st) as [|[k' v] l IH]; csimpl; [by case_decide|].
  rewrite IH. repeat case_decide; simplify_eq; try done; by destruct (l !!ʳ k).
Qed.

Lemma effects_storage_plain es s a k :
  Forall plain es ->
  effects_storage es s a k =
  match effects_writes es !!ʳ (a, k) with Some v => v | None => s a k end.
Proof.
  intros Hp. revert s. induction Hp as [|e es He Hp IH]; intros s; simpl; [done|].
  unfold effects_writes in *. simpl. rewrite IH, last_write_app.
  destruct ((es ≫= effect_writes) !!ʳ (a, k)); [done|].
  destruct e as [a' b c st reset|a']; [|done]. simpl in He; subst reset.
  rewrite last_write_effect_writes. simpl. case_decide; subst; [|done].
  by destruct (st !! k).
Qed.

(** ** Lemmas: no stored zeros *)

Definition zero_free (m : gmap H256 H256) : Prop := forall k, m !! k ≠ Some 0.

Definition state_zero_free (state : gmap H160 MemoryAccount) : Prop :=
  forall a acc, state !! a = Some acc -> zero_free (acc_storage acc).

Lemma write_slots_zero_free l m : zero_free m -> zero_free (write_slots m l).
Proof.
  unfold write_slots. revert m. induction l as [|[i v] l IH]; intros m Hm; simpl; [done|].
  apply IH. intros k. unfold write_slot. case_decide as Hv.
  - destruct (decide (i = k)) as [<-|?]; [by rewrite lookup_delete_eq|].
    rewrite lookup_delete_ne by done. apply Hm.
  - destruct (decide (i = k)) as [<-|?]; [rewrite lookup_insert_eq; congruence|].
    rewrite lookup_insert_ne by done. apply Hm.
Qed.

Lemma purge_zeros_zero_free m : zero_free (purge_zeros m).
Proof. intros k [_ H]%map_lookup_filter_Some. by apply H. Qed.

Lemma apply_one_zero_free de state e :
  state_zero_free state -> state_zero_free (apply_one de state e).
Proof.
  intros Hs a acc. unfold apply_one. destruct e as [a' b c st reset|a'].
  - set (acc' := modify_account _ _ _ _ _).
    assert (zero_free (acc_storage acc')) as Hz by apply write_slots_zero_free, purge_zeros_zero_free.
    destruct (account_is_empty acc' && de).
    + intros [_ Ha]%lookup_delete_Some. destruct (decide (a' = a)) as [->|?];
        [rewrite lookup_insert_eq in Ha|rewrite lookup_insert_ne in Ha by done]; simplify_eq; eauto.
    + destruct (decide (a' = a)) as [->|?].
      * rewrite lookup_insert_eq. by intros [= <-].
      * rewrite lookup_insert_ne by done. apply Hs.
  - intros [_ Ha]%lookup_delete_Some. by eapply Hs.
Qed.

(** ** Theorems *)

(** Applying effects to [MemoryBackend]: every slot reads as the reference
    meaning of the effects says (the last write of the slot wins, a storage
    reset or an account deletion clears the rest), and no zero is ever stored. *)
Theorem MemoryBackend_apply_correct b es :
  (forall a k, MemoryBackend_storage (MemoryBackend_apply b es false) a k =
     effects_storage es (MemoryBackend_storage b) a k) ∧
  (state_zero_free (mb_state b) ->
   forall de, state_zero_free (mb_state (MemoryBackend_apply b es de))).
Proof.
  split.
  - intros a k. apply fold_apply_one_storage.
  - intros Hz de. unfold MemoryBackend_apply. simpl. revert Hz. generalize (mb_state b).
    induction es as [|e es IH]; intros st Hz; simpl; [done|]. by apply IH, apply_one_zero_free.
Qed.

(** [CMemoryBackend], the default backend of the executor, drops every
    [Modify]: it changes a copy of the account and never stores it back, so
    applying modifications leaves the backend as it was. *)
Theorem CMemoryBackend_apply_drops_modifications b es :
  Forall (fun e => match e with Modify _ _ _ _ _ => True | Delete _ => False end) es ->
  CMemoryBackend_apply b es false = b.
Proof.
  intros Hes. destruct b as [v st]. unfold CMemoryBackend_apply. simpl. f_equal.
  revert st. induction Hes as [|e es He _ IH]; intros st; simpl; [done|].
  destruct e; [|done]. simpl. rewrite andb_false_r. apply IH.
Qed.

Lemma CMemoryBackend_apply_drops_modifications_witness :
  CMemoryBackend_apply (mkCMemoryBackend genesis_vicinity ∅)
    [Modify 7 (mkBasic 5 1) None {[0 := 1]} false] false = mkCMemoryBackend genesis_vicinity ∅.
Proof.
  apply (CMemoryBackend_apply_drops_modifications (mkCMemoryBackend genesis_vicinity ∅)
    [Modify 7 (mkBasic 5 1) None {[0 := 1]} false]).
  repeat constructor.
Defined.

(** [block_hash] never indexes the list of block hashes out of range. *)
Theorem block_hash_in_range v number :
  is_Some (vicinity_block_hash v number).
Proof.
  unfold vicinity_block_hash. case_match eqn:E; [by eauto|].
  apply orb_false_iff in E as [E1 E2]. apply lookup_lt_is_Some_2. lia.
Qed.
