(* ===== verification/ConflictGraph.v ===== *)
(** * The address-based conflict graph

    crates/sslab-execution/chase/src/address_based_conflict_graph.rs

    The graph indexes, per storage slot ("address"), the transactions that read
    and write it, and assigns every transaction a sequence number (its commit
    wave) or aborts it.

    Transactions are shared and mutable in the source ([Arc<Transaction>] with
    locks inside): a unit of an address points to its transaction, and sorting
    one address changes the sequence every other address sees.  The model keeps
    them in a heap indexed by the transaction id, and a unit carries that id.
    Ids of a batch are pairwise distinct ([_unpack_batches] enumerates them).
    A unit's dependency counter is only changed before the unit is shared, so
    units themselves are plain values. *)

From S2P Require Import Prelude Types.
Local Open Scope Z_scope.
Local Open Scope chase_scope.

(** ** Units and transactions *)

Inductive UnitType := Read | Write.

Record Unit := mkUnit {
  unit_tx : Z;
  unit_type : UnitType;
  unit_address : H256;
  unit_degree : Z;
  unit_co_located : bool
}.

Definition Unit_new (tx : Z) (ty : UnitType) (address : H256) (co_located : bool) : Unit :=
  mkUnit tx ty address 0 co_located.

(** [n] calls of [add_dependency]. *)
Definition add_dependencies (u : Unit) (n : nat) : Unit :=
  mkUnit (unit_tx u) (unit_type u) (unit_address u)
    (unit_degree u +u32 Z.of_nat n) (unit_co_located u).

Record AbortInfo := mkAbortInfo {
  ai_aborted : bool;
  ai_prev_write_keys : gmap H160 (gmap H256 H256);
  ai_prev_read_keys : gmap H160 (gmap H256 H256)
}.

Definition AbortInfo_new (rw_set : RwSet) : AbortInfo :=
  mkAbortInfo false (write_set rw_set) (read_set rw_set).

Definition AbortInfo_write_keys (i : AbortInfo) : gset H256 := flatten_keys (ai_prev_write_keys i).
Definition AbortInfo_read_keys (i : AbortInfo) : gset H256 := flatten_keys (ai_prev_read_keys i).

Record Transaction := mkTransaction {
  t_id : Z;
  t_sequence : Z;  (* 0: not ordered yet *)
  t_abort_info : AbortInfo;
  t_write_units : list Unit;
  t_effects : list Apply;
  t_logs : list Log;
  t_raw_tx : IndexedEthereumTransaction
}.

Definition Transaction_from (tx : SimulatedTransaction) : Transaction * RwSet :=
  let '(tx_id, rw_set, effects, logs, raw_tx) := SimulatedTransaction_deconstruct tx in
  (mkTransaction tx_id 0 (AbortInfo_new rw_set) [] effects logs raw_tx, rw_set).

Definition set_aborted (b : bool) (t : Transaction) : Transaction :=
  let i := t_abort_info t in
  mkTransaction (t_id t) (t_sequence t)
    (mkAbortInfo b (ai_prev_write_keys i) (ai_prev_read_keys i))
    (t_write_units t) (t_effects t) (t_logs t) (t_raw_tx t).

Definition Transaction_set_sequence (s : Z) (t : Transaction) : Transaction :=
  mkTransaction (t_id t) s (t_abort_info t) (t_write_units t)
    (t_effects t) (t_logs t) (t_raw_tx t).

Definition Transaction_init (t : Transaction) : Transaction :=
  set_aborted false (Transaction_set_sequence 0 t).

Definition Transaction_abort (t : Transaction) : Transaction := set_aborted true t.

Definition Transaction_aborted (t : Transaction) : bool := ai_aborted (t_abort_info t).

Definition set_write_units (us : list Unit) (t : Transaction) : Transaction :=
  mkTransaction (t_id t) (t_sequence t) (t_abort_info t) (t_write_units t ++ us)
    (t_effects t) (t_logs t) (t_raw_tx t).

Definition clear_write_units (t : Transaction) : Transaction :=
  mkTransaction (t_id t) (t_sequence t) (t_abort_info t) []
    (t_effects t) (t_logs t) (t_raw_tx t).

Definition Transaction_is_sorted (t : Transaction) : bool :=
  negb (t_sequence t =? 0) || Transaction_aborted t.

Definition is_write_only (t : Transaction) : bool :=
  forallb (fun u => (unit_degree u =? 0) && negb (unit_co_located u)) (t_write_units t).

Definition reorderable (t : Transaction) : bool :=
  is_write_only t && (1 <? Z.of_nat (length (t_write_units t))).

Definition to_finalized (t : Transaction) : FinalizedTransaction :=
  FinalizedTransaction_new (t_id t) (t_effects t).

Definition to_aborted (t : Transaction) : AbortedTransaction :=
  AbortedTransaction_new (t_raw_tx t)
    (AbortInfo_read_keys (t_abort_info t)) (AbortInfo_write_keys (t_abort_info t)).

Definition Transaction_deconstruct (t : Transaction) : Z * Z * list Apply * list Log :=
  (t_id t, t_sequence t, t_effects t, t_logs t).

Definition ScheduledTransaction_from (t : Transaction) : ScheduledTransaction :=
  let '(tx_id, seq, effect, log) := Transaction_deconstruct t in
  mkScheduled seq tx_id effect log.

(** ** The heap of shared transactions *)

Abbreviation heap := (gmap Z Transaction).

Definition tx_aborted (h : heap) (id : Z) : bool :=
  match h !! id with Some t => Transaction_aborted t | None => false end.

Definition tx_sequence (h : heap) (id : Z) : Z :=
  match h !! id with Some t => t_sequence t | None => 0 end.

Definition unit_is_sorted (h : heap) (u : Unit) : bool :=
  match h !! unit_tx u with Some t => Transaction_is_sorted t | None => false end.

Definition unit_aborted (h : heap) (u : Unit) : bool := tx_aborted h (unit_tx u).
Definition unit_sequence (h : heap) (u : Unit) : Z := tx_sequence h (unit_tx u).

Definition unit_set_sequence (h : heap) (u : Unit) (s : Z) : heap :=
  alter (Transaction_set_sequence s) (unit_tx u) h.

Definition unit_abort_tx (h : heap) (u : Unit) : heap :=
  alter Transaction_abort (unit_tx u) h.

(** [Iterator::partition] *)
Definition partition_by {A} (f : A -> bool) (l : list A) : list A * list A :=
  (filter (fun x => f x = true) l, filter (fun x => f x = false) l).

(** ** ReadUnits *)

Record ReadUnits := mkReadUnits { ru_units : list Unit; ru_max_seq : Z }.

Definition ReadUnits_new : ReadUnits := mkReadUnits [] 0.

Definition ReadUnits_push (ru : ReadUnits) (u : Unit) : ReadUnits :=
  mkReadUnits (ru_units ru ++ [u]) (ru_max_seq ru).

(** [Itertools::minmax] *)
Definition minmax (l : list Z) : option (Z * Z) :=
  match l with
  | [] => None
  | x :: l' => Some (foldl Z.min x l', foldl Z.max x l')
  end.

Definition set_sequences (h : heap) (us : list Unit) (s : Z) : heap :=
  foldl (fun h u => unit_set_sequence h u s) h us.

Definition live_units (h : heap) (us : list Unit) : list Unit :=
  filter (fun u => unit_aborted h u = false) us.

Definition ReadUnits_sort (h : heap) (ru : ReadUnits) : heap * ReadUnits :=
  let '(sorted, remaining) := partition_by (unit_is_sorted h) (ru_units ru) in
  let '(min_seq, max_seq) :=
    match minmax (unit_sequence h <$> live_units h sorted) with
    | None => (1, 1)
    | Some mm => mm
    end in
  (set_sequences h remaining min_seq, mkReadUnits (sorted ++ remaining) max_seq).

(** ** WriteUnits *)

Record WriteUnits := mkWriteUnits {
  wu_units : list Unit;
  wu_max_seq : Z;
  wu_first_updater_flag : bool
}.

Definition WriteUnits_new : WriteUnits := mkWriteUnits [] 0 false.

Definition WriteUnits_push (wu : WriteUnits) (u : Unit) : WriteUnits :=
  mkWriteUnits (wu_units wu ++ [u]) (wu_max_seq wu) (wu_first_updater_flag wu).

(** [while write_seq_set.contains(&write_seq) { write_seq += 1; }]; the set is
    finite, so [size] iterations are enough ([next_free_seq_fresh]). *)
Fixpoint next_free_seq (fuel : nat) (used : gset Z) (s : Z) : Z :=
  match fuel with
  | O => s
  | S fuel' => if decide (s ∈ used) then next_free_seq fuel' used (s + 1) else s
  end.

(** Lines 17-19 of Algorithm 2: the loop over the sorted, live units.  The
    filter is lazy: a unit aborted by an earlier iteration is skipped. *)
Definition updater_step (last_committer_wins : bool) (st : heap * Z * bool) (u : Unit) :
    heap * Z * bool :=
  let '(h, max_seq, first_updater_flag) := st in
  if unit_aborted h u then st
  else if unit_co_located u then
    if last_committer_wins then
      (unit_set_sequence h u (max_seq + 1), max_seq + 1, first_updater_flag)
    else if first_updater_flag then (unit_abort_tx h u, max_seq, true)
    else (unit_set_sequence h u (max_seq + 1), max_seq + 1, true)
  else st.

(** Lines 20-24: abort the writers ordered before a reader. *)
Definition abort_early_step (max_seq : Z) (h : heap) (u : Unit) : heap :=
  if unit_aborted h u then h
  else if unit_sequence h u <? max_seq then unit_abort_tx h u
  else h.

(** Lines 30-35: give the unsorted writers fresh sequences. *)
Definition assign_write_step (st : heap * Z * gset Z) (u : Unit) : heap * Z * gset Z :=
  let '(h, write_seq, write_seq_set) := st in
  let s := next_free_seq (S (size write_seq_set)) write_seq_set write_seq in
  (unit_set_sequence h u s, s, {[s]} ∪ write_seq_set).

Definition WriteUnits_sort (last_committer_wins : bool) (h : heap) (wu : WriteUnits)
    (ru : ReadUnits) : heap * WriteUnits * ReadUnits :=
  let '(sorted, remaining) := partition_by (unit_is_sorted h) (wu_units wu) in
  let '(h1, max1, flag) :=
    foldl (updater_step last_committer_wins)
      (h, ru_max_seq ru, wu_first_updater_flag wu) sorted in
  let h2 := foldl (abort_early_step max1) h1 sorted in
  let write_seq := max1 + 1 in
  let write_seq_set : gset Z := list_to_set (unit_sequence h2 <$> sorted) in
  let '(h3, last_seq, _) := foldl assign_write_step (h2, write_seq, write_seq_set) remaining in
  (h3, mkWriteUnits (sorted ++ remaining) last_seq flag,
   mkReadUnits (ru_units ru) write_seq).

(** ** Address *)

Record Address := mkAddress {
  ad_address : H256;
  ad_in_degree : Z;
  ad_out_degree : Z;
  ad_read_units : ReadUnits;
  ad_write_units : WriteUnits;
  ad_first_updater_flag : bool
}.

Definition Address_new (address : H256) : Address :=
  mkAddress address 0 0 ReadUnits_new WriteUnits_new false.

Definition add_unit (ad : Address) (u : Unit) : Address :=
  match unit_type u with
  | Read =>
      mkAddress (ad_address ad) (ad_in_degree ad +u32 unit_degree u)
        (ad_out_degree ad) (ReadUnits_push (ad_read_units ad) u)
        (ad_write_units ad) (ad_first_updater_flag ad)
  | Write =>
      mkAddress (ad_address ad) (ad_in_degree ad)
        (ad_out_degree ad +u32 unit_degree u) (ad_read_units ad)
        (WriteUnits_push (ad_write_units ad) u)
        (if unit_co_located u then true else ad_first_updater_flag ad)
  end.

Definition sort_read_units (h : heap) (ad : Address) : heap * Address :=
  let '(h', ru) := ReadUnits_sort h (ad_read_units ad) in
  (h', mkAddress (ad_address ad) (ad_in_degree ad) (ad_out_degree ad) ru
         (ad_write_units ad) (ad_first_updater_flag ad)).

Definition sort_write_units (last_committer_wins : bool) (h : heap) (ad : Address) :
    heap * Address :=
  let '(h', wu, ru) :=
    WriteUnits_sort last_committer_wins h (ad_write_units ad) (ad_read_units ad) in
  (h', mkAddress (ad_address ad) (ad_in_degree ad) (ad_out_degree ad) ru wu
         (ad_first_updater_flag ad)).

(** The loop [for u in units { if u.co_located { ...; break; } }] of [merge]:
    the first co-located unit is aborted and the degree adjusted (u32, wrapping). *)
Definition merge_last_updater (h : heap) (in_degree other_in_degree : Z) (us : list Unit) :
    heap * Z :=
  match list_find (fun u => unit_co_located u = true) us with
  | Some (_, u) =>
      (unit_abort_tx h u, (in_degree +u32 other_in_degree) -u32 unit_degree u)
  | None => (h, in_degree)
  end.

Definition Address_merge (h : heap) (self other : Address) : heap * Address :=
  if ad_first_updater_flag self && ad_first_updater_flag other then
    let '(h1, d1) := merge_last_updater h (ad_in_degree self) (ad_in_degree other)
                       (ru_units (ad_read_units other)) in
    let '(h2, d2) := merge_last_updater h1 d1 (ad_in_degree other)
                       (wu_units (ad_write_units other)) in
    (h2, mkAddress (ad_address self) d2 (ad_out_degree self) (ad_read_units self)
           (ad_write_units self) (ad_first_updater_flag self))
  else
    (h, mkAddress (ad_address self)
          (ad_in_degree self +u32 ad_in_degree other)
          (ad_out_degree self +u32 ad_out_degree other)
          (mkReadUnits (ru_units (ad_read_units self) ++ ru_units (ad_read_units other))
             (ru_max_seq (ad_read_units self)))
          (mkWriteUnits (wu_units (ad_write_units self) ++ wu_units (ad_write_units other))
             (wu_max_seq (ad_write_units self))
             (wu_first_updater_flag (ad_write_units self)))
          (ad_first_updater_flag self || ad_first_updater_flag other)).

(** ** The graph *)

Record AddressBasedConflictGraph := mkACG {
  acg_addresses : gmap H256 Address;
  acg_tx_list : gset Z;            (* the keys of tx_list; its values are the heap's *)
  acg_aborted_txs : list Z;
  acg_heap : heap
}.

Definition ACG_new : AddressBasedConflictGraph := mkACG ∅ ∅ [] ∅.

Definition add_unit_to_address (ads : gmap H256 Address) (u : Unit) : gmap H256 Address :=
  let ad := default (Address_new (unit_address u)) (ads !! unit_address u) in
  <[unit_address u := add_unit ad u]> ads.

Definition add_units_to_address (ads : gmap H256 Address) (us : list Unit) :
    gmap H256 Address :=
  foldl add_unit_to_address ads us.

Definition convert_to_units (tx : Z) (ty : UnitType) (set : gmap H160 (gmap H256 H256))
    (read_set : option (gmap H160 (gmap H256 H256))) : list Unit :=
  btree_iter set ≫= fun ci : H160 * gmap H256 H256 =>
    (fun kv : H256 * H256 =>
       let co_locate :=
         match read_set with
         | Some rs =>
             match rs !! ci.1 with
             | Some states => bool_decide (is_Some (states !! kv.1))
             | None => false
             end
         | None => false
         end in
       Unit_new tx ty kv.1 co_locate) <$> map_to_list ci.2.

(** Every pair of a read and a write unit at different addresses adds one
    dependency to both. *)
Definition count_elsewhere (a : H256) (us : list Unit) : nat :=
  length (filter (fun u => unit_address u ≠ a) us).

Definition set_wr_dependencies (read_units write_units : list Unit) :
    list Unit * list Unit :=
  ((fun r => add_dependencies r (count_elsewhere (unit_address r) write_units)) <$> read_units,
   (fun w => add_dependencies w (count_elsewhere (unit_address w) read_units)) <$> write_units).

Definition check_updater_already_exist_in_same_address (ads : gmap H256 Address)
    (write_units : list Unit) : bool :=
  existsb (fun u =>
      match ads !! unit_address u with
      | Some ad => ad_first_updater_flag ad
      | None => false
      end)
    (filter (fun u => unit_co_located u = true) write_units).

(** Insertion of one transaction that passed early detection. *)
Definition insert_transaction (acg : AddressBasedConflictGraph) (t : Transaction)
    (read_set : gmap H160 (gmap H256 H256)) (write_units : list Unit) :
    AddressBasedConflictGraph :=
  let read_units := convert_to_units (t_id t) Read read_set None in
  let '(read_units, write_units) := set_wr_dependencies read_units write_units in
  mkACG
    (add_units_to_address (add_units_to_address (acg_addresses acg) read_units) write_units)
    ({[t_id t]} ∪ acg_tx_list acg) (acg_aborted_txs acg)
    (<[t_id t := set_write_units write_units t]> (acg_heap acg)).

Definition construct_step (acg : AddressBasedConflictGraph) (tx : SimulatedTransaction) :
    AddressBasedConflictGraph :=
  let '(t, rw_set) := Transaction_from tx in
  let '(read_set, write_set) := RwSet_destruct rw_set in
  let write_units := convert_to_units (t_id t) Write write_set (Some read_set) in
  if check_updater_already_exist_in_same_address (acg_addresses acg) write_units then
    mkACG (acg_addresses acg) (acg_tx_list acg) (acg_aborted_txs acg ++ [t_id t])
      (<[t_id t := Transaction_abort t]> (acg_heap acg))
  else insert_transaction acg t read_set write_units.

Definition construct (simulation_result : list SimulatedTransaction) :
    AddressBasedConflictGraph :=
  foldl construct_step ACG_new simulation_result.

Definition construct_without_early_detection_step (acg : AddressBasedConflictGraph)
    (tx : SimulatedTransaction) : AddressBasedConflictGraph :=
  let '(t, rw_set) := Transaction_from tx in
  let '(read_set, write_set) := RwSet_destruct rw_set in
  let write_units := convert_to_units (t_id t) Write write_set (Some read_set) in
  insert_transaction acg t read_set write_units.

Definition construct_without_early_detection
    (simulation_result : list SimulatedTransaction) : AddressBasedConflictGraph :=
  foldl construct_without_early_detection_step ACG_new simulation_result.

(** ** Merging sub-graphs *)

Definition merge_address (st : heap * gmap H256 Address) (p : H256 * Address) :
    heap * gmap H256 Address :=
  let '(h, ads) := st in
  match ads !! p.1 with
  | Some my_address =>
      let '(h', ad) := Address_merge h my_address p.2 in (h', <[p.1 := ad]> ads)
  | None => (h, <[p.1 := p.2]> ads)
  end.

Definition merge (self other : AddressBasedConflictGraph) : AddressBasedConflictGraph :=
  let '(h, ads) :=
    foldl merge_address (acg_heap self ∪ acg_heap other, acg_addresses self)
      (map_to_list (acg_addresses other)) in
  mkACG ads (acg_tx_list self ∪ acg_tx_list other)
    (acg_aborted_txs self ++ acg_aborted_txs other) h.

(** [par_chunks(size)] *)
Fixpoint chunks_of {A} (fuel size : nat) (l : list A) : list (list A) :=
  match fuel, l with
  | O, _ | _, [] => []
  | S fuel', _ => take size l :: chunks_of fuel' size (drop size l)
  end.

(** One round of [sub_graphs.chunks(2).map(merge)]. *)
Fixpoint merge_round (gs : list AddressBasedConflictGraph) :
    list AddressBasedConflictGraph :=
  match gs with
  | g1 :: g2 :: gs' => merge g1 g2 :: merge_round gs'
  | _ => gs
  end.

(** [while sub_graphs.len() > 1]; each round halves the list. *)
Fixpoint merge_rounds (fuel : nat) (gs : list AddressBasedConflictGraph) :
    list AddressBasedConflictGraph :=
  match fuel with
  | O => gs
  | S fuel' => if decide (1 < length gs)%nat then merge_rounds fuel' (merge_round gs) else gs
  end.

(** [sub_graphs.into_iter().next().unwrap()]: no chunk means a panic. *)
Definition par_construct_with {A} (ncpu : nat) (constructor : list A -> AddressBasedConflictGraph)
    (simulation_result : list A) : option AddressBasedConflictGraph :=
  let n := length simulation_result in
  let sub_graphs :=
    constructor <$> chunks_of n (Nat.max (n / ncpu) 1) simulation_result in
  head (merge_rounds n sub_graphs).

Definition par_construct (ncpu : nat) (simulation_result : list SimulatedTransaction) :
    option AddressBasedConflictGraph :=
  par_construct_with ncpu construct simulation_result.

(** ** Hierarchical sort *)

Definition rank_le (x y : Address) : Prop :=
  ad_in_degree x < ad_in_degree y ∨
  (ad_in_degree x = ad_in_degree y ∧
   (ad_out_degree y < ad_out_degree x ∨
    (ad_out_degree x = ad_out_degree y ∧ ad_address x <= ad_address y))).

#[global] Instance rank_le_dec : RelDecision rank_le.
Proof. intros x y. unfold rank_le. apply _. Defined.

Definition address_rank (acg : AddressBasedConflictGraph) : list H256 :=
  ad_address <$> merge_sort rank_le (map_to_list (acg_addresses acg)).*2.

Definition sort_address (last_committer_wins : bool) (acg : AddressBasedConflictGraph)
    (addr_key : H256) : AddressBasedConflictGraph :=
  match acg_addresses acg !! addr_key with
  | Some ad =>
      let '(h1, ad1) := sort_read_units (acg_heap acg) ad in
      let '(h2, ad2) := sort_write_units last_committer_wins h1 ad1 in
      mkACG (<[addr_key := ad2]> (acg_addresses acg)) (acg_tx_list acg)
        (acg_aborted_txs acg) h2
  | None => acg
  end.

Definition hierarchcial_sort (last_committer_wins : bool) (acg : AddressBasedConflictGraph) :
    AddressBasedConflictGraph :=
  foldl (sort_address last_committer_wins) acg (address_rank acg).

(** ** Reordering *)

Definition extract_aborted_txs (acg : AddressBasedConflictGraph) :
    AddressBasedConflictGraph * list Z :=
  let aborted_tx_indice :=
    filter (fun id => tx_aborted (acg_heap acg) id = true) (elements (acg_tx_list acg)) in
  (mkACG (acg_addresses acg) (acg_tx_list acg ∖ list_to_set aborted_tx_indice) []
     (acg_heap acg),
   sort_by_key id (acg_aborted_txs acg ++ aborted_tx_indice)).

Definition address_max_seq (ad : Address) : Z :=
  Z.max (wu_max_seq (ad_write_units ad)) (ru_max_seq (ad_read_units ad)).

(** [write_units.map(address).unique().map(|a| addresses.get(a).unwrap()..).max().unwrap()];
    duplicates do not change a maximum. *)
Definition reorder_seq (acg : AddressBasedConflictGraph) (t : Transaction) : option Z :=
  seqs ← mapM (fun u => address_max_seq <$> (acg_addresses acg !! unit_address u))
           (t_write_units t);
  match seqs with [] => None | s :: seqs' => Some (foldl Z.max s seqs') end.

Definition reorder_one (acg : AddressBasedConflictGraph) (tx : Z) :
    option AddressBasedConflictGraph :=
  t ← acg_heap acg !! tx;
  seq ← reorder_seq acg t;
  Some (mkACG (acg_addresses acg) ({[tx]} ∪ acg_tx_list acg) (acg_aborted_txs acg)
          (<[tx := Transaction_set_sequence seq t]> (acg_heap acg))).

Fixpoint reorder_all (acg : AddressBasedConflictGraph) (txs : list Z) :
    option AddressBasedConflictGraph :=
  match txs with
  | [] => Some acg
  | tx :: txs' => acg' ← reorder_one acg tx; reorder_all acg' txs'
  end.

Definition tx_reorderable (h : heap) (tx : Z) : bool :=
  match h !! tx with Some t => reorderable t | None => false end.

Definition reorder (acg : AddressBasedConflictGraph) : option AddressBasedConflictGraph :=
  let '(acg1, extracted) := extract_aborted_txs acg in
  let '(reorder_targets, aborted) := partition_by (tx_reorderable (acg_heap acg1)) extracted in
  reorder_all
    (mkACG (acg_addresses acg1) (acg_tx_list acg1) aborted (acg_heap acg1)) reorder_targets.

(** [extract_schedule]/[par_extract_schedule]: the transactions handed to
    [ScheduledInfo]. *)
Definition take_schedule (acg : AddressBasedConflictGraph) :
    list Transaction * list Transaction :=
  (omap (fun id => acg_heap acg !! id) (elements (acg_tx_list acg)),
   omap (fun id => acg_heap acg !! id) (acg_aborted_txs acg)).
