(* ===== verification/CdsScheduler.v ===== *)
(** * Conflict detection scheduling

    crates/sslab-execution/chase/src/cds_scheduler.rs and the [ScheduledInfo]
    part of crates/sslab-execution/chase/src/chase_core.rs.

    The first commit wave becomes parallel dependency chains; the later waves
    and the aborted transactions are placed into epochs, each transaction in the
    first epoch whose writes it does not touch. *)

From S2P Require Import Prelude Types ConflictGraph.
Local Open Scope Z_scope.

Record TxWithKeys := mkTxWithKeys {
  tk_id : Z;
  tk_read_keys : gset H256;
  tk_write_keys : gset H256;
  tk_finalized : FinalizedTransaction
}.

Definition TxWithKeys_from_transaction (t : Transaction) : TxWithKeys :=
  let finalized := to_finalized t in
  mkTxWithKeys (fin_id finalized)
    (AbortInfo_read_keys (t_abort_info t)) (AbortInfo_write_keys (t_abort_info t)) finalized.

(** ** Grouping by commit wave *)

Definition group_step (groups : list (list Transaction)) (tx : Transaction) :
    list (list Transaction) :=
  match last groups with
  | Some (t0 :: g) =>
      if t_sequence tx =? t_sequence t0
      then take (pred (length groups)) groups ++ [(t0 :: g) ++ [tx]]
      else groups ++ [[tx]]
  | _ => groups ++ [[tx]]
  end.

Definition group_by_sequence (tx_list : list Transaction) : list (list Transaction) :=
  match sort_by_pair (fun t => (t_sequence t, t_id t)) tx_list with
  | [] => []
  | t0 :: rest => foldl group_step [[t0]] rest
  end.

(** ** Dependency chains of the conflict-free zone *)

(** [i != j && !txs[i].read_keys.is_disjoint(&txs[j].write_keys)] *)
Definition tx_depends (txs : list TxWithKeys) (i j : nat) : bool :=
  match txs !! i, txs !! j with
  | Some ti, Some tj =>
      bool_decide (i ≠ j)
      && negb (HashSet_is_disjoint (tk_read_keys ti) (tk_write_keys tj))
  | _, _ => false
  end.

Definition depends_on_of (txs : list TxWithKeys) (i : nat) : list nat :=
  filter (fun j => tx_depends txs i j = true) (seq 0 (length txs)).

Section chains.
(** [depends_on] and [n] of the source. *)
Context (depends_on : list (list nat)) (n : nat).

Definition deps (i : nat) : list nat := default [] (depends_on !! i).

Definition is_assigned (assigned : list bool) (i : nat) : bool :=
  default false (assigned !! i).

(** [!assigned[i] && depends_on[i].iter().all(|&j| assigned[j])] *)
Definition ready (assigned : list bool) (i : nat) : bool :=
  negb (is_assigned assigned i) && forallb (is_assigned assigned) (deps i).

Definition find_start (assigned : list bool) : option nat :=
  fst <$> list_find (fun i => ready assigned i = true) (seq 0 n).

Definition find_next (assigned : list bool) (l : nat) : option nat :=
  fst <$> list_find (fun i => ready assigned i && bool_decide (l ∈ deps i) = true) (seq 0 n).

(** The inner [loop]: extend the chain while some transaction depends on its
    last element and has no other unassigned dependency. *)
Fixpoint extend_chain (fuel : nat) (assigned : list bool) (chain_indices : list nat)
    (l : nat) : list bool * list nat :=
  match fuel with
  | O => (assigned, chain_indices)
  | S fuel' =>
      match find_next assigned l with
      | Some i => extend_chain fuel' (<[i := true]> assigned) (chain_indices ++ [i]) i
      | None => (assigned, chain_indices)
      end
  end.

(** The outer [while]; [None] is the panic
    "cycle in conflict-free zone dependency graph". *)
Fixpoint build_chains (fuel : nat) (assigned : list bool) : option (list (list nat)) :=
  if forallb (fun a => a) assigned then Some []
  else match fuel with
  | O => None
  | S fuel' =>
      match find_start assigned with
      | None => None
      | Some start =>
          let '(assigned', chain) :=
            extend_chain n (<[start := true]> assigned) [start] start in
          chains ← build_chains fuel' assigned';
          Some (chain :: chains)
      end
  end.
End chains.

Definition build_conflict_free_chain_indices (txs : list TxWithKeys) :
    option (list (list nat)) :=
  let n := length txs in
  if decide (n = 0%nat) then Some []
  else
    let depends_on := depends_on_of txs <$> seq 0 n in
    build_chains depends_on n n (replicate n false).

Definition chain_at (txs : list TxWithKeys) (chain_indices : list nat) :
    list FinalizedTransaction :=
  omap (fun i => tk_finalized <$> txs !! i) chain_indices.

Definition extract_conflict_free_chains (seq1_txs : list Transaction) :
    option (list (list FinalizedTransaction)) :=
  let txs := sort_by_key tk_id (TxWithKeys_from_transaction <$> seq1_txs) in
  match txs with
  | [] => Some []
  | _ =>
      match build_conflict_free_chain_indices txs with
      | Some chains => Some (chain_at txs <$> chains)
      | None => None
      end
  end.

(** ** Epochs of the conflict zone *)

(** [while epoch_map.len() > epoch && !keys_of_tx.is_disjoint(&epoch_map[epoch])] *)
Fixpoint find_epoch_for (keys_of_tx : gset H256) (epoch_map : list (gset H256)) : nat :=
  match epoch_map with
  | [] => 0
  | w :: rest =>
      if HashSet_is_disjoint keys_of_tx w then 0 else S (find_epoch_for keys_of_tx rest)
  end.

Definition find_minimum_epoch (read_keys write_keys : gset H256)
    (epoch_map : list (gset H256)) : nat :=
  find_epoch_for (read_keys ∪ write_keys) epoch_map.

Section epochs.
Context {A T : Type} (reads writes : A -> gset H256) (map_tx : A -> T).

Definition place_step (st : list (gset H256) * list (list T)) (tx : A) :
    list (gset H256) * list (list T) :=
  let '(epoch_map, schedule) := st in
  let epoch := find_minimum_epoch (reads tx) (writes tx) epoch_map in
  match epoch_map !! epoch with
  | Some w_map =>
      (<[epoch := w_map ∪ writes tx]> epoch_map,
       alter (fun e => e ++ [map_tx tx]) epoch schedule)
  | None => (epoch_map ++ [writes tx], schedule ++ [[map_tx tx]])
  end.

Definition place_all (candidates : list A) : list (gset H256) * list (list T) :=
  foldl place_step ([], []) candidates.
End epochs.

Definition place_into_epochs {T} (candidates : list TxWithKeys) (map_tx : TxWithKeys -> T) :
    list (list T) :=
  snd (place_all tk_read_keys tk_write_keys map_tx candidates).

Definition schedule_conflict_zone_finalized (seq2plus_txs : list Transaction) :
    list (list FinalizedTransaction) :=
  place_into_epochs (sort_by_key tk_id (TxWithKeys_from_transaction <$> seq2plus_txs))
    tk_finalized.

Definition schedule_conflict_zone_aborted (disable_rescheduling : bool)
    (aborted_txs : list Transaction) : list (list AbortedTransaction) :=
  if disable_rescheduling then []
  else
    let txs := (fun t => Transaction_init (clear_write_units t)) <$> aborted_txs in
    let candidates := sort_by_key AbortedTransaction_id (to_aborted <$> txs) in
    snd (place_all aborted_prev_read_keys aborted_prev_write_keys (fun a => a) candidates).

(** ** ScheduledInfo *)

Record ScheduledInfo := mkScheduledInfo {
  conflict_free_zone : list (list FinalizedTransaction);
  conflict_zone_finalized : list (list FinalizedTransaction);
  conflict_zone_aborted : list (list AbortedTransaction)
}.

Definition build_cds_schedule (disable_rescheduling : bool)
    (tx_list aborted_txs : list Transaction) : option ScheduledInfo :=
  let groups := group_by_sequence (clear_write_units <$> tx_list) in
  let first_epoch_txs := default [] (head groups) in
  let seq2plus_txs := concat (tail groups) in
  chains ← extract_conflict_free_chains first_epoch_txs;
  Some (mkScheduledInfo chains
          (schedule_conflict_zone_finalized seq2plus_txs)
          (schedule_conflict_zone_aborted disable_rescheduling aborted_txs)).

Definition extract_schedule (disable_rescheduling : bool) (acg : AddressBasedConflictGraph) :
    option ScheduledInfo :=
  let '(tx_list, aborted_txs) := take_schedule acg in
  build_cds_schedule disable_rescheduling tx_list aborted_txs.

Definition first_pass_epochs (s : ScheduledInfo) : list (list FinalizedTransaction) :=
  conflict_free_zone s ++ conflict_zone_finalized s.

Definition scheduled_txs_len (s : ScheduledInfo) : nat :=
  sum_list (length <$> (conflict_free_zone s ++ conflict_zone_finalized s)).

Definition aborted_txs_len (s : ScheduledInfo) : nat :=
  sum_list (length <$> conflict_zone_aborted s).

(** The scheduling pipeline of [_execute] and of the unit tests. *)
Definition schedule_graph (lcw disable_rescheduling : bool)
    (acg : AddressBasedConflictGraph) : option ScheduledInfo :=
  acg' ← reorder (hierarchcial_sort lcw acg);
  extract_schedule disable_rescheduling acg'.

(** ** Lemmas: epochs *)

Section epochs_lemmas.
Context {A : Type} (reads writes : A -> gset H256).

Definition keys (x : A) : gset H256 := reads x ∪ writes x.

(** [y], placed after [x] in the same epoch, touches nothing [x] writes. *)
Definition epoch_compat (x y : A) : Prop := keys y ## writes x.

Definition epoch_writes (e : list A) : gset H256 := ⋃ (writes <$> e).

Definition conflicts_with_epoch (x : A) (e : list A) : Prop :=
  exists y, y ∈ e ∧ ¬ (keys x ## writes y).

Record epochs_inv (done : list A) (st : list (gset H256) * list (list A)) : Prop := {
  ei_map : st.1 = epoch_writes <$> st.2;
  ei_perm : concat st.2 ≡ₚ done;
  ei_nonempty : [] ∉ st.2;
  ei_compat : forall i e, st.2 !! i = Some e -> StronglySorted epoch_compat e;
  ei_minimal : forall i e x j e',
    st.2 !! i = Some e -> x ∈ e -> (j < i)%nat -> st.2 !! j = Some e' ->
    conflicts_with_epoch x e'
}.

Lemma find_epoch_for_spec ks em i :
  find_epoch_for ks em = i ->
  (forall j w, (j < i)%nat -> em !! j = Some w -> ¬ (ks ## w)) ∧
  (forall w, em !! i = Some w -> ks ## w) ∧
  (i <= length em)%nat.
Proof.
  revert i. induction em as [|w em IH]; intros i; simpl.
  - intros <-. split_and!; [lia|done|lia].
  - destruct (HashSet_is_disjoint ks w) eqn:E.
    + apply HashSet_is_disjoint_spec in E. intros <-.
      split_and!; [lia| |lia]. intros w' [= <-]. done.
    + intros <-. destruct (IH _ eq_refl) as (H1 & H2 & H3).
      assert (¬ (ks ## w)) as Hw.
      { rewrite <- HashSet_is_disjoint_spec, E. done. }
      split_and!; [|done|lia].
      intros [|j] w' Hj; simpl; [naive_solver|]. apply H1. lia.
Qed.

Lemma elem_of_epoch_writes k e : k ∈ epoch_writes e ↔ exists y, y ∈ e ∧ k ∈ writes y.
Proof.
  unfold epoch_writes. rewrite elem_of_union_list. split.
  - intros (X & (y & -> & Hy)%list_elem_of_fmap & Hk). eauto.
  - intros (y & Hy & Hk). exists (writes y). split; [|done].
    auto with chase.
Qed.

Lemma not_disjoint_epoch_writes x e :
  ¬ (keys x ## epoch_writes e) -> conflicts_with_epoch x e.
Proof.
  intros Hnd. unfold conflicts_with_epoch.
  destruct (decide (Exists (fun y => ¬ (keys x ## writes y)) e)) as [He|He].
  - apply Exists_exists in He as (y & Hy & Hc). eauto.
  - exfalso. apply Hnd. intros k Hk (y & Hy & Hky)%elem_of_epoch_writes.
    apply He, Exists_exists. exists y. split; [done|].
    intros Hd. by apply (Hd k).
Qed.

Lemma epoch_writes_snoc e x : epoch_writes (e ++ [x]) = epoch_writes e ∪ writes x.
Proof.
  apply set_eq. intros k.
  rewrite elem_of_union, !elem_of_epoch_writes. set_solver.
Qed.

Lemma concat_alter_snoc (l : list (list A)) i e x :
  l !! i = Some e -> concat (alter (fun e => e ++ [x]) i l) ≡ₚ x :: concat l.
Proof.
  revert i. induction l as [|e' l IH]; intros [|i]; simpl; try done.
  - intros [= ->]. rewrite <- app_assoc. simpl. by rewrite Permutation_middle.
  - intros H. unfold alter in *. rewrite (IH i) by done.
    by rewrite Permutation_middle.
Qed.

Lemma fmap_alter_epoch_writes (l : list (list A)) i e x :
  l !! i = Some e ->
  <[i := epoch_writes e ∪ writes x]> (epoch_writes <$> l) =
  epoch_writes <$> alter (fun e => e ++ [x]) i l.
Proof.
  intros H. apply list_eq. intros j.
  rewrite list_lookup_fmap. destruct (decide (i = j)) as [<-|Hne].
  - rewrite list_lookup_insert_eq by (rewrite length_fmap; by eapply lookup_lt_Some).
    rewrite list_lookup_alter_eq, H. simpl. by rewrite epoch_writes_snoc.
  - rewrite list_lookup_insert_ne, list_lookup_alter_ne by done.
    by rewrite list_lookup_fmap.
Qed.

Lemma epoch_compat_snoc e x :
  StronglySorted epoch_compat e -> keys x ## epoch_writes e ->
  StronglySorted epoch_compat (e ++ [x]).
Proof.
  intros Hs Hd. apply StronglySorted_app. split_and!; [|done|by repeat constructor].
  intros y z Hy ->%list_elem_of_singleton k Hk Hky.
  apply (Hd k Hk). apply elem_of_epoch_writes. eauto.
Qed.

Lemma not_elem_of_nil_alter (sch : list (list A)) i x :
  [] ∉ sch -> [] ∉ alter (fun e => e ++ [x]) i sch.
Proof.
  intros Hn (j & Hj)%list_elem_of_lookup.
  destruct (decide (i = j)) as [<-|Hne].
  - rewrite list_lookup_alter_eq in Hj. by destruct (sch !! i) as [[]|].
  - rewrite list_lookup_alter_ne in Hj by done. apply Hn, list_elem_of_lookup. eauto.
Qed.

(** The transaction joins an existing epoch [e] whose writes it avoids. *)
Lemma place_existing_inv done sch x i e :
  epochs_inv done (epoch_writes <$> sch, sch) ->
  sch !! i = Some e -> keys x ## epoch_writes e ->
  (forall j e', (j < i)%nat -> sch !! j = Some e' -> conflicts_with_epoch x e') ->
  epochs_inv (done ++ [x])
    (<[i := epoch_writes e ∪ writes x]> (epoch_writes <$> sch),
     alter (fun e => e ++ [x]) i sch).
Proof.
  intros [_ Hp Hn Hc Hmin] He Hd Hearlier. simpl in *. constructor; simpl.
  - by apply fmap_alter_epoch_writes.
  - rewrite concat_alter_snoc, Hp by done. by rewrite Permutation_app_comm.
  - by apply not_elem_of_nil_alter.
  - intros j e' Hj. destruct (decide (i = j)) as [<-|Hne].
    + rewrite list_lookup_alter_eq, He in Hj. simplify_eq/=.
      apply epoch_compat_snoc; eauto.
    + rewrite list_lookup_alter_ne in Hj by done. eauto.
  - intros j e' y j' e'' Hj Hy Hlt' Hj'.
    assert (exists e1, sch !! j' = Some e1 ∧ (forall z, z ∈ e1 -> z ∈ e''))
      as (e1 & He1 & Hsub).
    { destruct (decide (i = j')) as [<-|Hne].
      - rewrite list_lookup_alter_eq, He in Hj'. simplify_eq/=. exists e. set_solver.
      - rewrite list_lookup_alter_ne in Hj' by done. eauto. }
    assert (conflicts_with_epoch y e1) as (z & Hz & Hcz); [|by exists z; auto].
    destruct (decide (i = j)) as [<-|Hne].
    + rewrite list_lookup_alter_eq, He in Hj. simplify_eq/=.
      apply elem_of_app in Hy as [Hy| ->%list_elem_of_singleton]; eauto.
    + rewrite list_lookup_alter_ne in Hj by done. eauto.
Qed.

(** The transaction conflicts with every epoch and opens a new one. *)
Lemma place_new_inv done sch x :
  epochs_inv done (epoch_writes <$> sch, sch) ->
  (forall e', e' ∈ sch -> conflicts_with_epoch x e') ->
  epochs_inv (done ++ [x]) ((epoch_writes <$> sch) ++ [writes x], sch ++ [[x]]).
Proof.
  intros [_ Hp Hn Hc Hmin] Hall. simpl in *. constructor; simpl.
  - rewrite fmap_app. simpl. do 2 f_equal.
    unfold epoch_writes. simpl. by rewrite union_empty_r_L.
  - rewrite concat_app. simpl. by rewrite Hp.
  - rewrite elem_of_app. intros [?|Hs]; [done|]. by apply list_elem_of_singleton in Hs.
  - intros j e' [Hj|(Hj & Hj1)]%lookup_app_Some; [eauto|].
    apply list_lookup_singleton_Some in Hj1 as [_ <-]. by repeat constructor.
  - intros j e' y j' e'' Hj Hy Hlt' Hj'.
    apply lookup_app_Some in Hj as [Hj|(Hj & Hj1)].
    + rewrite lookup_app_l in Hj' by (apply lookup_lt_Some in Hj; lia). eauto.
    + apply list_lookup_singleton_Some in Hj1 as [Hj1 <-].
      apply list_elem_of_singleton in Hy as ->.
      rewrite lookup_app_l in Hj' by lia. apply Hall, list_elem_of_lookup. eauto.
Qed.

Lemma place_step_inv done st x :
  epochs_inv done st ->
  epochs_inv (done ++ [x]) (place_step reads writes (fun a => a) st x).
Proof.
  destruct st as [em sch]. intros Hinv. pose proof (ei_map _ _ Hinv) as Hm.
  simpl in Hm. subst em.
  destruct (find_epoch_for_spec (keys x) (epoch_writes <$> sch) _ eq_refl)
    as (Hlt & Heq & Hle).
  unfold place_step, find_minimum_epoch. fold (keys x).
  set (i := find_epoch_for (keys x) (epoch_writes <$> sch)) in *.
  assert (forall j e', (j < i)%nat -> sch !! j = Some e' -> conflicts_with_epoch x e')
    as Hearlier.
  { intros j e' Hj He'. apply not_disjoint_epoch_writes, (Hlt j); [done|].
    by rewrite list_lookup_fmap, He'. }
  rewrite list_lookup_fmap in *. destruct (sch !! i) as [e|] eqn:Ei; simpl in *.
  - apply place_existing_inv; auto.
  - apply lookup_ge_None in Ei. apply place_new_inv; [done|].
    intros e' (j & Hj)%list_elem_of_lookup. apply (Hearlier j); [|done].
    apply lookup_lt_Some in Hj. lia.
Qed.

Lemma place_all_inv (candidates : list A) :
  epochs_inv candidates (place_all reads writes (fun a => a) candidates).
Proof.
  unfold place_all.
  enough (forall done st, epochs_inv done st ->
    epochs_inv (done ++ candidates)
      (foldl (place_step reads writes (fun a => a)) st candidates)) as H.
  { apply (H []). constructor; simpl; try done; set_solver. }
  induction candidates as [|x l IH]; intros done st Hst; simpl.
  - by rewrite app_nil_r.
  - rewrite (cons_middle x), app_assoc. apply IH, place_step_inv, Hst.
Qed.

(** The stored view does not influence placement. *)
Lemma place_all_fmap {T} (map_tx : A -> T) (candidates : list A) :
  snd (place_all reads writes map_tx candidates) =
  (fun e : list A => map_tx <$> e) <$> snd (place_all reads writes (fun a => a) candidates).
Proof.
  unfold place_all.
  enough (forall em (sch : list (list A)),
    foldl (place_step reads writes map_tx)
      (em, (fun e : list A => map_tx <$> e) <$> sch) candidates =
    let r := foldl (place_step reads writes (fun a => a)) (em, sch) candidates in
    (r.1, (fun e : list A => map_tx <$> e) <$> r.2)) as H.
  { specialize (H [] []). simpl in H. by rewrite H. }
  induction candidates as [|x l IH]; intros em sch; simpl; [done|].
  destruct (em !! _) as [w|]; rewrite <- IH; f_equal; f_equal.
  - apply list_eq. intros j. rewrite list_lookup_fmap.
    destruct (decide (find_minimum_epoch (reads x) (writes x) em = j)) as [<-|Hne].
    + rewrite !list_lookup_alter_eq, list_lookup_fmap.
      destruct (sch !! _); simpl; [|done]. by rewrite fmap_app.
    + by rewrite !list_lookup_alter_ne, list_lookup_fmap by done.
  - by rewrite fmap_app.
Qed.
End epochs_lemmas.

(** ** Lemmas: dependency chains *)

Section chains_lemmas.
Context (depends_on : list (list nat)) (n : nat).
Local Abbreviation deps := (deps depends_on).

(** [a] marks exactly the indices of [S] among [0..n). *)
Definition marks (a : list bool) (S : list nat) : Prop :=
  length a = n ∧ forall i, (i < n)%nat -> a !! i = Some (bool_decide (i ∈ S)).

Definition good (a : list bool) (S : list nat) : Prop :=
  marks a S ∧ NoDup S ∧ Forall (fun i => (i < n)%nat) S.

(** [l], appended to [seen], lists every index after its dependencies. *)
Fixpoint topological (seen l : list nat) : Prop :=
  match l with
  | [] => True
  | i :: l' => (forall j, j ∈ deps i -> j ∈ seen) ∧ topological (seen ++ [i]) l'
  end.

(** Every element of a chain depends on the one before it. *)
Fixpoint linked (l : nat) (chain : list nat) : Prop :=
  match chain with
  | [] => True
  | i :: chain' => l ∈ deps i ∧ linked i chain'
  end.

Definition chain_linked (chain : list nat) : Prop :=
  match chain with [] => False | i :: chain' => linked i chain' end.

Lemma topological_app seen l1 l2 :
  topological seen (l1 ++ l2) ↔ topological seen l1 ∧ topological (seen ++ l1) l2.
Proof.
  revert seen. induction l1 as [|i l1 IH]; intros seen; simpl.
  - rewrite app_nil_r. tauto.
  - rewrite IH, <- app_assoc. simpl. tauto.
Qed.

Lemma marks_is_assigned a S i : marks a S -> is_assigned a i = true -> i ∈ S.
Proof.
  intros [Hlen Hm] Hi. unfold is_assigned in Hi.
  destruct (a !! i) as [b|] eqn:E; [|done]. simpl in Hi; subst b.
  rewrite Hm in E by (apply lookup_lt_Some in E; lia).
  injection E. by rewrite bool_decide_eq_true.
Qed.

Lemma is_assigned_marks a S i : marks a S -> (i < n)%nat -> i ∈ S -> is_assigned a i = true.
Proof. intros [_ Hm] Hi HS. unfold is_assigned. rewrite Hm by done. simpl. by case_bool_decide. Qed.

Lemma ready_spec a S i :
  good a S -> (i < n)%nat -> ready depends_on a i = true ->
  (i ∉ S) ∧ (forall j, j ∈ deps i -> j ∈ S).
Proof.
  intros (Hm & _ & _) Hi. unfold ready.
  rewrite andb_true_iff, negb_true_iff, forallb_forall. intros [Hn Hall]. split.
  - intros HS. by rewrite (is_assigned_marks a S i) in Hn.
  - intros j Hj. apply (marks_is_assigned a); [done|]. by apply Hall, list_elem_of_In.
Qed.

Lemma good_assign a S i :
  good a S -> (i < n)%nat -> i ∉ S -> good (<[i := true]> a) (S ++ [i]).
Proof.
  intros ((Hlen & Hm) & Hnd & Hlt) Hi HS. split_and!.
  - split; [by rewrite length_insert|]. intros j Hj.
    destruct (decide (i = j)) as [<-|Hne].
    + rewrite list_lookup_insert_eq by lia. rewrite bool_decide_eq_true_2; set_solver.
    + rewrite list_lookup_insert_ne, Hm by done.
      f_equal. apply bool_decide_ext. set_solver.
  - apply NoDup_app. split_and!; [done| |apply NoDup_singleton]. set_solver.
  - rewrite Forall_app. split; [done|by constructor].
Qed.

Lemma find_seq_Some (P : nat -> Prop) `{forall i, Decision (P i)} i :
  (fst <$> list_find P (seq 0 n)) = Some i -> (i < n)%nat ∧ P i.
Proof.
  rewrite fmap_Some. intros ([k x] & (Hk & HP & _)%list_find_Some & ->). simpl.
  apply lookup_seq in Hk as [-> Hlt]. simpl in *. split; [lia|done].
Qed.

Lemma find_seq_None (P : nat -> Prop) `{forall i, Decision (P i)} i :
  (fst <$> list_find P (seq 0 n)) = None -> (i < n)%nat -> ¬ P i.
Proof.
  rewrite fmap_None, list_find_None, Forall_forall. intros HP Hi.
  apply HP, elem_of_seq. lia.
Qed.

Lemma extend_chain_spec fuel a S chain l a' chain' :
  good a S ->
  extend_chain depends_on n fuel a chain l = (a', chain') ->
  exists ext, chain' = chain ++ ext ∧ good a' (S ++ ext) ∧ topological S ext ∧ linked l ext.
Proof.
  revert a S chain l. induction fuel as [|fuel IH]; intros a S chain l Hg; simpl.
  { intros [= <- <-]. exists []. by rewrite !app_nil_r. }
  destruct (find_next depends_on n a l) as [i|] eqn:Ef; cycle 1.
  { intros [= <- <-]. exists []. by rewrite !app_nil_r. }
  apply find_seq_Some in Ef as [Hi Hr].
  apply andb_true_iff in Hr as [Hr Hl%bool_decide_eq_true].
  destruct (ready_spec a S i Hg Hi Hr) as [HS Hdeps].
  intros Hext. destruct (IH _ (S ++ [i]) _ _ (good_assign a S i Hg Hi HS) Hext)
    as (ext & -> & Hg' & Ht & Hlk).
  exists (i :: ext). rewrite <- !app_assoc in *. simpl in *. auto.
Qed.

(** With [n] steps of fuel the chain is maximal when the loop stops. *)
Lemma extend_chain_maximal fuel a S chain l a' chain' :
  good a S -> (n <= length S + fuel)%nat ->
  extend_chain depends_on n fuel a chain l = (a', chain') ->
  exists l', find_next depends_on n a' l' = None ∧ last (l :: drop (length chain) chain') = Some l'.
Proof.
  revert a S chain l. induction fuel as [|fuel IH]; intros a S chain l Hg Hf; simpl.
  - intros [= <- <-]. exists l. rewrite drop_all. split; [|done].
    destruct (find_next depends_on n a l) as [i|] eqn:Ef; [|done].
    apply find_seq_Some in Ef as [Hi Hr]. apply andb_true_iff in Hr as [Hr _].
    destruct (ready_spec a S i Hg Hi Hr) as [HS _].
    destruct Hg as (_ & Hnd & Hlt). exfalso. apply HS.
    assert (S ≡ₚ seq 0 n) as ->; [|apply elem_of_seq; lia].
    apply submseteq_length_Permutation; [|rewrite length_seq; lia].
    apply NoDup_submseteq; [done|]. intros j Hj. apply elem_of_seq.
    rewrite Forall_forall in Hlt. specialize (Hlt j Hj). lia.
  - destruct (find_next depends_on n a l) as [i|] eqn:Ef; cycle 1.
    { intros [= <- <-]. exists l. by rewrite drop_all. }
    apply find_seq_Some in Ef as [Hi Hr]. apply andb_true_iff in Hr as [Hr _].
    destruct (ready_spec a S i Hg Hi Hr) as [HS _].
    pose proof (good_assign a S i Hg Hi HS) as Hg'. intros Hext.
    destruct (IH _ (S ++ [i]) _ _ Hg' ltac:(rewrite length_app; simpl; lia) Hext)
      as (l' & Hnone & Hlast).
    destruct (extend_chain_spec _ _ _ _ _ _ _ Hg' Hext) as (ext & -> & _).
    exists l'. split; [done|].
    rewrite <- app_assoc in *. rewrite drop_app_length. simpl.
    rewrite app_assoc, drop_app_length in Hlast. done.
Qed.

Lemma good_all_assigned a S :
  good a S -> forallb (fun b => b) a = true -> S ≡ₚ seq 0 n.
Proof.
  intros ((Hlen & Hm) & Hnd & Hlt) Hall. rewrite forallb_forall in Hall.
  apply NoDup_Permutation; [done|apply NoDup_seq|]. intros i. rewrite elem_of_seq.
  rewrite Forall_forall in Hlt. split; [intros Hi; specialize (Hlt i Hi); lia|].
  intros [_ Hi]. specialize (Hm i ltac:(lia)).
  assert (bool_decide (i ∈ S) = true) as ?%bool_decide_eq_true; [|done].
  apply Hall, list_elem_of_In, list_elem_of_lookup. eauto.
Qed.

Lemma build_chains_spec fuel a S chains :
  good a S ->
  build_chains depends_on n fuel a = Some chains ->
  topological S (concat chains) ∧ S ++ concat chains ≡ₚ seq 0 n ∧
  Forall chain_linked chains.
Proof.
  revert a S chains. induction fuel as [|fuel IH]; intros a S chains Hg; simpl;
    destruct (forallb (fun b => b) a) eqn:Eall; try done.
  - intros [= <-]. simpl. rewrite app_nil_r. eauto using good_all_assigned.
  - intros [= <-]. simpl. rewrite app_nil_r. eauto using good_all_assigned.
  - destruct (find_start depends_on n a) as [start|] eqn:Es; [|done].
    apply find_seq_Some in Es as [Hi Hr].
    destruct (ready_spec a S start Hg Hi Hr) as [HS Hdeps].
    pose proof (good_assign a S start Hg Hi HS) as Hg1.
    destruct (extend_chain depends_on n n (<[start:=true]> a) [start] start)
      as [a' chain] eqn:Ee.
    destruct (extend_chain_spec _ _ _ _ _ _ _ Hg1 Ee) as (ext & -> & Hg2 & Ht & Hl).
    destruct (build_chains depends_on n fuel a') as [chains'|] eqn:Eb; simpl; [|done].
    intros [= <-]. destruct (IH _ _ _ Hg2 Eb) as (Ht' & Hp & Hall).
    simpl. rewrite <- !app_assoc in *. simpl in *. split_and!; [done| |done|by constructor].
    rewrite topological_app, <- app_assoc. done.
Qed.

(** A ranking of the indices that decreases along dependencies. *)
Definition acyclic (rank : nat -> nat) : Prop :=
  forall i j, (i < n)%nat -> j ∈ deps i -> (j < n)%nat ∧ (rank j < rank i)%nat.

Lemma find_start_Some rank a S :
  acyclic rank -> good a S -> forallb (fun b => b) a = false ->
  exists i, find_start depends_on n a = Some i.
Proof.
  intros Hac Hg Hall.
  destruct (find_start depends_on n a) as [i|] eqn:E; [eauto|exfalso].
  assert (forall m i, (i < n)%nat -> (rank i < m)%nat -> is_assigned a i = true) as Hass.
  { induction m as [|m IHm]; intros i Hi Hr; [lia|].
    destruct (is_assigned a i) eqn:Ei; [done|exfalso].
    apply (find_seq_None _ i E Hi). unfold ready. rewrite Ei. simpl.
    apply forallb_forall. intros j Hj%list_elem_of_In.
    destruct (Hac i j Hi Hj). apply IHm; lia. }
  apply not_true_iff_false in Hall. apply Hall, forallb_forall.
  intros b (i & Hb)%list_elem_of_In%list_elem_of_lookup.
  destruct Hg as ((Hlen & _) & _). pose proof (lookup_lt_Some _ _ _ Hb).
  specialize (Hass (Datatypes.S (rank i)) i ltac:(lia) ltac:(lia)).
  unfold is_assigned in Hass. by rewrite Hb in Hass.
Qed.

Lemma build_chains_total rank fuel a S :
  acyclic rank -> good a S -> (n <= length S + fuel)%nat ->
  exists chains, build_chains depends_on n fuel a = Some chains.
Proof.
  intros Hac. revert a S. induction fuel as [|fuel IH]; intros a S Hg Hf; simpl;
    destruct (forallb (fun b => b) a) eqn:Eall; eauto;
    destruct (find_start_Some rank a S Hac Hg Eall) as (start & Es);
    pose proof (find_seq_Some _ _ Es) as [Hi Hr];
    destruct (ready_spec a S start Hg Hi Hr) as [HS _];
    pose proof (good_assign a S start Hg Hi HS) as Hg1.
  - destruct Hg1 as (_ & Hnd & Hlt). exfalso.
    assert (length (S ++ [start]) <= length (seq 0 n))%nat as Hle.
    { apply submseteq_length, NoDup_submseteq; [done|]. intros j Hj.
      rewrite Forall_forall in Hlt. specialize (Hlt j Hj). apply elem_of_seq. lia. }
    rewrite length_app, length_seq in Hle. simpl in Hle. lia.
  - rewrite Es.
    destruct (extend_chain depends_on n n (<[start:=true]> a) [start] start)
      as [a' chain] eqn:Ee.
    destruct (extend_chain_spec _ _ _ _ _ _ _ Hg1 Ee) as (ext & -> & Hg2 & _).
    destruct (IH a' _ Hg2) as (chains & ->); [|by eauto].
    rewrite !length_app. simpl. lia.
Qed.

Lemma topological_position l i j :
  topological [] l -> NoDup l -> i ∈ l -> j ∈ deps i ->
  exists pi pj, l !! pi = Some i ∧ l !! pj = Some j ∧ (pj < pi)%nat.
Proof.
  intros Ht Hnd (pi & Hpi)%list_elem_of_lookup Hj.
  pose proof (take_drop_middle l pi i Hpi) as Hl. rewrite <- Hl in Ht.
  apply topological_app in Ht as [_ [Hd _]].
  apply Hd, list_elem_of_lookup in Hj as (pj & Hpj). exists pi, pj.
  simpl in Hpj. apply lookup_take_Some in Hpj as [Hpj Hlt]. auto.
Qed.
End chains_lemmas.

Lemma good_replicate n : good n (replicate n false) [].
Proof.
  split_and!; [split|apply NoDup_nil_2|constructor].
  - apply length_replicate.
  - intros i Hi. by rewrite lookup_replicate_2.
Qed.

(** The read-write dependency of the source on the indices of [txs]. *)
Definition rw_dependency (txs : list TxWithKeys) (i j : nat) : Prop :=
  i ≠ j ∧ exists ti tj, txs !! i = Some ti ∧ txs !! j = Some tj ∧
    ¬ (tk_read_keys ti ## tk_write_keys tj).

Lemma tx_depends_spec txs i j : tx_depends txs i j = true ↔ rw_dependency txs i j.
Proof.
  unfold tx_depends, rw_dependency.
  destruct (txs !! i) as [ti|], (txs !! j) as [tj|];
    try (split; [done|]; naive_solver).
  rewrite andb_true_iff, bool_decide_eq_true, negb_true_iff, <- not_true_iff_false,
    HashSet_is_disjoint_spec. naive_solver.
Qed.

Lemma elem_of_deps txs i j :
  (i < length txs)%nat ->
  j ∈ deps (depends_on_of txs <$> seq 0 (length txs)) i ↔ rw_dependency txs i j.
Proof.
  intros Hi. unfold deps. rewrite list_lookup_fmap, lookup_seq_lt by done. simpl.
  unfold depends_on_of. rewrite list_elem_of_filter, tx_depends_spec, elem_of_seq.
  split; [naive_solver|]. intros Hd. split; [done|].
  destruct Hd as (_ & ti & tj & _ & Hj & _). apply lookup_lt_Some in Hj. lia.
Qed.

(** ** Lemmas: commit waves *)

Definition wave_lt (g1 g2 : list Transaction) : Prop :=
  forall x y, x ∈ g1 -> y ∈ g2 -> t_sequence x < t_sequence y.

Record waves (done : list Transaction) (groups : list (list Transaction)) : Prop := {
  wv_concat : concat groups = done;
  wv_nonempty : [] ∉ groups;
  wv_same : forall g x y, g ∈ groups -> x ∈ g -> y ∈ g -> t_sequence x = t_sequence y;
  wv_order : StronglySorted wave_lt groups
}.

Lemma waves_join done gs0 g tx :
  waves done (gs0 ++ [g]) -> (forall x, x ∈ g -> t_sequence x = t_sequence tx) ->
  waves (done ++ [tx]) (gs0 ++ [g ++ [tx]]).
Proof.
  intros [Hc Hn Hs Ho] Hseq. rewrite concat_app in Hc. simpl in Hc. constructor.
  - rewrite concat_app. simpl. rewrite <- Hc, <- !app_assoc. done.
  - rewrite not_elem_of_app in *. split; [naive_solver|].
    intros H%list_elem_of_singleton. by destruct g.
  - intros g' x y Hg' Hx Hy. apply elem_of_app in Hg' as [Hg'|Hg'].
    + eapply Hs; [|done..]. set_solver.
    + apply list_elem_of_singleton in Hg' as ->.
      rewrite elem_of_app, list_elem_of_singleton in Hx, Hy.
      destruct Hx as [Hx| ->], Hy as [Hy| ->]; auto; rewrite ?(Hseq x), ?(Hseq y); done.
  - apply StronglySorted_app in Ho as (Hlt & Ho & _). apply StronglySorted_app.
    split_and!; [|done|by repeat constructor].
    intros g1 g2 Hg1 ->%list_elem_of_singleton x y Hx Hy.
    apply elem_of_app in Hy as [Hy| ->%list_elem_of_singleton].
    + eapply (Hlt g1 g); set_solver.
    + destruct g as [|t0 g]; [set_solver|]. rewrite <- (Hseq t0) by set_solver.
      eapply (Hlt g1 (t0 :: g)); set_solver.
Qed.

Lemma waves_open done gs0 g tx :
  waves done (gs0 ++ [g]) ->
  (forall x, x ∈ done -> t_sequence x <= t_sequence tx) ->
  (forall x, x ∈ g -> t_sequence x ≠ t_sequence tx) ->
  waves (done ++ [tx]) ((gs0 ++ [g]) ++ [[tx]]).
Proof.
  intros [Hc Hn Hs Ho] Hle Hne.
  assert (forall x, x ∈ done -> t_sequence x < t_sequence tx) as Hlt.
  { rewrite <- Hc. rewrite concat_app. simpl. intros x Hx.
    rewrite app_nil_r, elem_of_app in Hx.
    assert (forall y, y ∈ g -> t_sequence y < t_sequence tx) as Hg.
    { intros y Hy. specialize (Hne y Hy).
      assert (y ∈ done) as Hd by (rewrite <- Hc, concat_app; simpl; set_solver).
      specialize (Hle y Hd). lia. }
    destruct Hx as [(g' & Hg' & Hx)%list_elem_of_In%in_concat|Hx]; [|auto].
    apply list_elem_of_In in Hg', Hx.
    destruct g as [|t0 g]; [set_solver|].
    apply StronglySorted_app in Ho as (Hw & _ & _).
    specialize (Hw g' (t0 :: g) Hg' ltac:(set_solver) x t0 Hx ltac:(set_solver)).
    specialize (Hg t0 ltac:(set_solver)). lia. }
  constructor.
  - rewrite (concat_app (gs0 ++ [g])), Hc. done.
  - rewrite not_elem_of_app. split; [done|]. by intros H%list_elem_of_singleton.
  - intros g' x y [Hg'| ->%list_elem_of_singleton]%elem_of_app; [eauto|].
    by intros ->%list_elem_of_singleton ->%list_elem_of_singleton.
  - apply StronglySorted_app. split_and!; [|done|by repeat constructor].
    intros g1 g2 Hg1 ->%list_elem_of_singleton x y Hx ->%list_elem_of_singleton.
    apply Hlt. rewrite <- Hc. apply list_elem_of_In, in_concat.
    exists g1. by rewrite <- !list_elem_of_In.
Qed.

Lemma waves_singleton t0 : waves [t0] [[t0]].
Proof.
  constructor; simpl; [done| | |by repeat constructor].
  - by intros H%list_elem_of_singleton.
  - intros g x y ->%list_elem_of_singleton.
    by intros ->%list_elem_of_singleton ->%list_elem_of_singleton.
Qed.

Lemma group_step_waves done groups tx :
  groups ≠ [] -> waves done groups ->
  (forall x, x ∈ done -> t_sequence x <= t_sequence tx) ->
  waves (done ++ [tx]) (group_step groups tx).
Proof.
  intros Hne Hw Hle. unfold group_step.
  destruct (last groups) as [g|] eqn:El; [|by apply last_None in El].
  apply last_Some in El as (gs0 & ->).
  destruct g as [|t0 g].
  { destruct Hw as [_ Hn _ _]. exfalso. set_solver. }
  assert (forall x, x ∈ t0 :: g -> t_sequence x = t_sequence t0) as Hsame.
  { intros x Hx. eapply (wv_same _ _ Hw (t0 :: g)); set_solver. }
  case_match eqn:E.
  - apply Z.eqb_eq in E.
    rewrite length_app, Nat.add_comm. simpl. rewrite take_app_length.
    apply (waves_join _ _ (t0 :: g)); [done|]. intros x Hx. rewrite Hsame by done. done.
  - apply Z.eqb_neq in E. apply waves_open; [done..|].
    intros x Hx. rewrite Hsame by done. congruence.
Qed.

Lemma group_step_nonempty groups tx : group_step groups tx ≠ [].
Proof.
  unfold group_step. destruct (last groups) as [[|t0 g]|]; [by destruct groups| |by destruct groups].
  case_match; intros Hnil; by apply app_nil in Hnil as [_ ?].
Qed.

Lemma group_by_sequence_waves tx_list :
  exists done, done ≡ₚ tx_list ∧ waves done (group_by_sequence tx_list).
Proof.
  unfold group_by_sequence.
  pose proof (sort_by_pair_Permutation (fun t => (t_sequence t, t_id t)) tx_list) as Hp.
  pose proof (sort_by_pair_sorted (fun t => (t_sequence t, t_id t)) tx_list) as Hs.
  destruct (sort_by_pair _ tx_list) as [|t0 rest].
  { exists []. split; [done|]. constructor; simpl; [done|set_solver|set_solver|constructor]. }
  exists (t0 :: rest). split; [done|]. clear Hp.
  enough (forall done groups, groups ≠ [] -> waves done groups ->
    StronglySorted (pair_key_le (fun t => (t_sequence t, t_id t))) (done ++ rest) ->
    waves (done ++ rest) (foldl group_step groups rest)) as H.
  { apply (H [t0]); [done|apply waves_singleton|done]. }
  clear Hs. induction rest as [|tx rest IH]; intros done groups Hne Hw Hs; simpl.
  { by rewrite app_nil_r. }
  rewrite (cons_middle tx), app_assoc in Hs |- *.
  apply IH; [apply group_step_nonempty| |done].
  apply group_step_waves; [done..|].
  apply StronglySorted_app in Hs as (_ & Hs & _).
  apply StronglySorted_app in Hs as (Hle & _ & _). intros x Hx.
  specialize (Hle x tx Hx ltac:(set_solver)). unfold pair_key_le in Hle. simpl in Hle. lia.
Qed.

(** ** Lemmas: conservation *)

Lemma place_all_Permutation {A T} reads writes (map_tx : A -> T) candidates :
  concat (snd (place_all reads writes map_tx candidates)) ≡ₚ map_tx <$> candidates.
Proof.
  rewrite place_all_fmap, concat_fmap_fmap.
  by rewrite (ei_perm _ _ _ _ (place_all_inv reads writes candidates)).
Qed.

Lemma build_indices_spec txs chains :
  build_conflict_free_chain_indices txs = Some chains ->
  let depends_on := depends_on_of txs <$> seq 0 (length txs) in
  topological depends_on [] (concat chains) ∧
  concat chains ≡ₚ seq 0 (length txs) ∧
  Forall (chain_linked depends_on) chains.
Proof.
  unfold build_conflict_free_chain_indices. case_decide as Hn.
  - intros [= <-]. rewrite Hn. done.
  - intros H. by apply (build_chains_spec _ _ _ _ [] _ (good_replicate _)) in H.
Qed.

Lemma chain_at_Permutation txs chains :
  build_conflict_free_chain_indices txs = Some chains ->
  concat (chain_at txs <$> chains) ≡ₚ tk_finalized <$> txs.
Proof.
  intros (_ & Hp & _)%build_indices_spec. unfold chain_at.
  rewrite (concat_omap (fun i => tk_finalized <$> txs !! i)), Hp.
  by rewrite omap_lookup_seq.
Qed.

Lemma extract_conflict_free_chains_Permutation seq1_txs chains :
  extract_conflict_free_chains seq1_txs = Some chains ->
  concat chains ≡ₚ to_finalized <$> seq1_txs.
Proof.
  unfold extract_conflict_free_chains.
  assert (to_finalized <$> seq1_txs =
    tk_finalized <$> (TxWithKeys_from_transaction <$> seq1_txs)) as ->.
  { rewrite <- list_fmap_compose. done. }
  pose proof (sort_by_key_Permutation tk_id (TxWithKeys_from_transaction <$> seq1_txs)) as Hs.
  destruct (sort_by_key tk_id _) as [|t0 txs].
  { intros [= <-]. by rewrite <- Hs. }
  destruct (build_conflict_free_chain_indices (t0 :: txs)) as [c|] eqn:Eb; [|done].
  intros [= <-]. rewrite <- Hs. by apply chain_at_Permutation.
Qed.

Lemma conflict_zone_finalized_Permutation txs :
  concat (schedule_conflict_zone_finalized txs) ≡ₚ to_finalized <$> txs.
Proof.
  unfold schedule_conflict_zone_finalized, place_into_epochs.
  rewrite place_all_Permutation, sort_by_key_Permutation, <- list_fmap_compose. done.
Qed.

Lemma conflict_zone_aborted_Permutation txs :
  concat (schedule_conflict_zone_aborted false txs) ≡ₚ to_aborted <$> txs.
Proof.
  unfold schedule_conflict_zone_aborted.
  rewrite place_all_Permutation, list_fmap_id, sort_by_key_Permutation, <- list_fmap_compose.
  done.
Qed.

Lemma head_tail_concat {A} (gs : list (list A)) :
  default [] (head gs) ++ concat (tail gs) = concat gs.
Proof. by destruct gs. Qed.

Lemma build_cds_schedule_Permutation tx_list aborted_txs s :
  build_cds_schedule false tx_list aborted_txs = Some s ->
  concat (first_pass_epochs s) ≡ₚ to_finalized <$> tx_list ∧
  concat (conflict_zone_aborted s) ≡ₚ to_aborted <$> aborted_txs.
Proof.
  unfold build_cds_schedule.
  destruct (group_by_sequence_waves (clear_write_units <$> tx_list)) as (done & Hp & Hw).
  set (groups := group_by_sequence _) in *.
  destruct (extract_conflict_free_chains _) as [chains|] eqn:Ec; simpl; [|done].
  intros [= <-]. unfold first_pass_epochs. simpl.
  split; [|apply conflict_zone_aborted_Permutation].
  rewrite concat_app, conflict_zone_finalized_Permutation.
  rewrite (extract_conflict_free_chains_Permutation _ _ Ec), <- fmap_app.
  rewrite head_tail_concat, (wv_concat _ _ Hw), Hp, <- list_fmap_compose. done.
Qed.

(** ** Sample transactions *)

Definition sample_tk (id : Z) (reads writes : list H256) : TxWithKeys :=
  mkTxWithKeys id (list_to_set reads) (list_to_set writes) (FinalizedTransaction_new id []).

Definition sample_simulated (id : Z) (reads writes : list H256) : SimulatedTransaction :=
  let s := foldl (fun s k => record_read_key s 1 k 1) RwSet_new reads in
  let s := foldl (fun s k => record_write_key s 1 k 1) s writes in
  SimulatedTransaction_new s [] []
    (mkIndexed (mkEthereumTransaction None None None None None None None) id).

Definition schedule_ids (s : ScheduledInfo) : list (list Z) * list (list Z) * list (list Z) :=
  ((fun e : list FinalizedTransaction => fin_id <$> e) <$> conflict_free_zone s,
   (fun e : list FinalizedTransaction => fin_id <$> e) <$> conflict_zone_finalized s,
   (fun e : list AbortedTransaction => AbortedTransaction_id <$> e) <$> conflict_zone_aborted s).

(** ** Theorems *)

(** C25. [place_into_epochs] schedules every candidate exactly once, and inside an
    epoch no transaction reads or writes a slot that a transaction placed before
    it in the same epoch writes. *)
Theorem place_into_epochs_correct {T} (candidates : list TxWithKeys) (map_tx : TxWithKeys -> T) :
  exists epochs : list (list TxWithKeys),
    place_into_epochs candidates map_tx = (fun e : list TxWithKeys => map_tx <$> e) <$> epochs ∧
    concat epochs ≡ₚ candidates ∧
    forall e i j x y, e ∈ epochs -> e !! i = Some x -> e !! j = Some y -> (i < j)%nat ->
      tk_read_keys y ∪ tk_write_keys y ## tk_write_keys x.
Proof.
  exists (snd (place_all tk_read_keys tk_write_keys (fun a => a) candidates)).
  destruct (place_all_inv tk_read_keys tk_write_keys candidates) as [_ Hp _ Hc _].
  split_and!; [apply place_all_fmap|done|].
  intros e i j x y (p & He)%list_elem_of_lookup Hx Hy Hij.
  specialize (Hc p e He).
  rewrite <- (take_drop_middle e i x Hx) in Hc.
  apply StronglySorted_app in Hc as (_ & _ & Hc). inversion Hc as [|?? _ Hall]; subst.
  rewrite Forall_forall in Hall. apply Hall, list_elem_of_lookup.
  exists (j - S i)%nat. rewrite lookup_drop. rewrite <- Hy. f_equal. lia.
Qed.

(** Placement is greedy: a transaction is not in a later epoch unless it
    conflicts, in every earlier epoch, with the writes of a transaction there;
    no epoch is empty. *)
Theorem place_into_epochs_minimal (candidates : list TxWithKeys) i j e e' x :
  place_into_epochs candidates (fun tx => tx) !! i = Some e -> x ∈ e ->
  (j < i)%nat -> place_into_epochs candidates (fun tx => tx) !! j = Some e' ->
  exists y, y ∈ e' ∧ ¬ (tk_read_keys x ∪ tk_write_keys x ## tk_write_keys y).
Proof.
  unfold place_into_epochs.
  destruct (place_all_inv tk_read_keys tk_write_keys candidates) as [_ _ _ _ Hm].
  intros He Hx Hlt He'. exact (Hm i e x j e' He Hx Hlt He').
Qed.

Lemma place_into_epochs_minimal_witness :
  let txs := [sample_tk 1 [] [1]; sample_tk 2 [1] [2]] in
  place_into_epochs txs (fun tx => tx) !! 1%nat = Some [sample_tk 2 [1] [2]] ∧
  exists y, y ∈ [sample_tk 1 [] [1]] ∧
    ¬ (tk_read_keys (sample_tk 2 [1] [2]) ∪ tk_write_keys (sample_tk 2 [1] [2])
       ## tk_write_keys y).
Proof.
  split; [vm_compute; reflexivity|].
  apply (place_into_epochs_minimal [sample_tk 1 [] [1]; sample_tk 2 [1] [2]] 1 0
           [sample_tk 2 [1] [2]]).
  - vm_compute. reflexivity.
  - left.
  - lia.
  - vm_compute. reflexivity.
Defined.

(** C26. When it does not panic, chain extraction covers every index once, lists
    every transaction after all the transactions it reads from (across chains,
    in the order the chains are built), and inside a chain every transaction
    reads a slot its predecessor writes. *)
Theorem build_conflict_free_chain_indices_correct txs chains :
  build_conflict_free_chain_indices txs = Some chains ->
  concat chains ≡ₚ seq 0 (length txs) ∧
  (forall i j, rw_dependency txs i j ->
     exists pi pj, concat chains !! pi = Some i ∧ concat chains !! pj = Some j ∧ (pj < pi)%nat) ∧
  (forall c k i i', c ∈ chains -> c !! k = Some i -> c !! S k = Some i' ->
     rw_dependency txs i' i).
Proof.
  intros (Ht & Hp & Hl)%build_indices_spec. split_and!; [done| |].
  - intros i j Hd. pose proof Hd as (_ & ti & tj & Hi%lookup_lt_Some & _).
    eapply topological_position; [done| | |by apply elem_of_deps].
    + rewrite Hp. apply NoDup_seq.
    + rewrite Hp. apply elem_of_seq. lia.
  - intros c k i i' Hc Hi Hi'. rewrite Forall_forall in Hl. specialize (Hl c Hc).
    assert (i' ∈ concat chains) as Hlt.
    { apply list_elem_of_In, in_concat. exists c. rewrite <- !list_elem_of_In.
      split; [done|]. apply list_elem_of_lookup. eauto. }
    rewrite Hp, elem_of_seq in Hlt. apply elem_of_deps; [lia|].
    destruct c as [|i0 c]; [done|]. simpl in Hl.
    clear Hc Hlt. revert k i0 Hl Hi Hi'. induction c as [|i1 c IH]; intros k i0 Hl Hi Hi'.
    + by destruct k.
    + simpl in Hl. destruct Hl as [Hd Hl]. destruct k as [|k]; simpl in *.
      * by simplify_eq.
      * eapply IH; eauto.
Qed.

Lemma build_conflict_free_chain_indices_correct_witness :
  let txs := [sample_tk 1 [10] [1]; sample_tk 2 [1] [2]; sample_tk 3 [30] [3]] in
  build_conflict_free_chain_indices txs = Some [[0; 1]; [2]]%nat ∧
  concat [[0; 1]; [2]]%nat ≡ₚ seq 0 3.
Proof.
  split; [vm_compute; reflexivity|].
  apply (build_conflict_free_chain_indices_correct
           [sample_tk 1 [10] [1]; sample_tk 2 [1] [2]; sample_tk 3 [30] [3]]).
  vm_compute. reflexivity.
Defined.

(** C37. Chain extraction panics exactly when the read-write dependencies of the
    wave are cyclic: it returns chains if and only if the transactions can be
    ranked so that each reads only from lower-ranked ones. *)
Theorem build_conflict_free_chain_indices_total txs :
  is_Some (build_conflict_free_chain_indices txs) ↔
  exists rank : nat -> nat, forall i j, rw_dependency txs i j -> (rank j < rank i)%nat.
Proof.
  split.
  - intros [chains (Ht & Hp & _)%build_indices_spec].
    exists (fun i => default 0%nat (fst <$> list_find (eq i) (concat chains))).
    assert (NoDup (concat chains)) as Hnd by (rewrite Hp; apply NoDup_seq).
    intros i j Hd. pose proof Hd as (_ & ti & tj & Hi%lookup_lt_Some & _).
    destruct (topological_position _ (concat chains) i j Ht Hnd) as (pi & pj & Hpi & Hpj & Hlt).
    { rewrite Hp. apply elem_of_seq. lia. }
    { by apply elem_of_deps. }
    assert (forall p k, concat chains !! p = Some k -> list_find (eq k) (concat chains) = Some (p, k))
      as Hfind.
    { intros p k Hk. apply list_find_Some. split_and!; [done..|].
      intros p' k' Hk' Hlt' <-. pose proof (NoDup_lookup _ _ _ _ Hnd Hk Hk'). lia. }
    by rewrite (Hfind pi i Hpi), (Hfind pj j Hpj).
  - intros (rank & Hrank). unfold build_conflict_free_chain_indices.
    case_decide; [by eauto|].
    destruct (build_chains_total (depends_on_of txs <$> seq 0 (length txs)) (length txs)
                rank (length txs) (replicate (length txs) false) []) as (chains & Hc);
      [|apply good_replicate|simpl; lia|by eauto].
    intros i j Hi Hd. rewrite elem_of_deps in Hd by done.
    split; [|by apply Hrank]. destruct Hd as (_ & ? & ? & _ & Hj & _). by eapply lookup_lt_Some.
Qed.

(** Grouping by sequence partitions the transactions into non-empty waves of
    equal sequence, in strictly increasing order of sequence. *)
Theorem group_by_sequence_correct tx_list :
  concat (group_by_sequence tx_list) ≡ₚ tx_list ∧
  ([] ∉ group_by_sequence tx_list) ∧
  (forall i g x y, group_by_sequence tx_list !! i = Some g -> x ∈ g -> y ∈ g ->
     t_sequence x = t_sequence y) ∧
  (forall i j g g' x y, (i < j)%nat ->
     group_by_sequence tx_list !! i = Some g -> group_by_sequence tx_list !! j = Some g' ->
     x ∈ g -> y ∈ g' -> t_sequence x < t_sequence y).
Proof.
  destruct (group_by_sequence_waves tx_list) as (done & Hp & [Hc Hn Hs Ho]).
  split_and!; [by rewrite Hc|done| |].
  - intros i g x y Hg. apply Hs, list_elem_of_lookup. eauto.
  - intros i j g g' x y Hij Hg Hg' Hx Hy.
    rewrite <- (take_drop_middle _ i g Hg) in Ho.
    apply StronglySorted_app in Ho as (_ & _ & Ho). inversion Ho as [|?? _ Hall]; subst.
    rewrite Forall_forall in Hall. apply (Hall g'); [|done..].
    apply list_elem_of_lookup. exists (j - S i)%nat. rewrite lookup_drop, <- Hg'. f_equal. lia.
Qed.

(** The CDS schedule loses and duplicates nothing: the finalized zones
    together hold each transaction of the list once, the aborted zone each
    aborted one, and [scheduled_txs_len] and [aborted_txs_len] count them. *)
Theorem build_cds_schedule_conservation tx_list aborted_txs s :
  build_cds_schedule false tx_list aborted_txs = Some s ->
  concat (first_pass_epochs s) ≡ₚ to_finalized <$> tx_list ∧
  concat (conflict_zone_aborted s) ≡ₚ to_aborted <$> aborted_txs ∧
  scheduled_txs_len s = length tx_list ∧
  aborted_txs_len s = length aborted_txs.
Proof.
  intros (H1 & H2)%build_cds_schedule_Permutation. split_and!; [done..| |].
  - unfold scheduled_txs_len. rewrite sum_list_length_concat. fold (first_pass_epochs s).
    by rewrite H1, length_fmap.
  - unfold aborted_txs_len. by rewrite sum_list_length_concat, H2, length_fmap.
Qed.

Lemma build_cds_schedule_conservation_witness :
  let t := (Transaction_from (sample_simulated 7 [1] [2])).1 in
  exists s, build_cds_schedule false [t] [] = Some s ∧ scheduled_txs_len s = 1%nat.
Proof.
  eexists. split; [vm_compute; reflexivity|].
  apply (build_cds_schedule_conservation
           [(Transaction_from (sample_simulated 7 [1] [2])).1] []).
  vm_compute. reflexivity.
Defined.
