(* ===== verification/GraphProps.v ===== *)
(** * Properties of the address-based conflict graph

    Theorems about the operations of ConflictGraph.v:
    - what graph construction admits and aborts, against a reference
      definition on the read-write sets alone ([first_updaters]);
    - conservation of transactions by construction, merging, sorting and
      reordering, and absence of panics in [reorder];
    - the order [sort_address] leaves on the readers and writers of a slot;
    - the bound on the sequence numbers. *)

From S2P Require Import Prelude Types ConflictGraph CdsScheduler.
Local Open Scope Z_scope.

Create HintDb graph.

(** ** Heaps equal up to sequences and abort flags *)

(** Sorting and merging only change the sequence and the abort flag of a shared
    transaction; [Transaction_init] erases both. *)
Definition heap_frame (h h' : heap) : Prop :=
  Transaction_init <$> h' = Transaction_init <$> h.

#[global] Instance heap_frame_equivalence : Equivalence heap_frame.
Proof.
  unfold heap_frame. split; [done|by intros ???|].
  intros h1 h2 h3 H12 H23. congruence.
Qed.

Lemma heap_frame_alter f i h :
  (forall t, Transaction_init (f t) = Transaction_init t) -> heap_frame h (alter f i h).
Proof.
  intros Hf. apply map_eq. intros j. rewrite !lookup_fmap.
  destruct (decide (i = j)) as [<-|Hne].
  - rewrite lookup_alter_eq. destruct (h !! i); simpl; [|done]. by rewrite Hf.
  - by rewrite lookup_alter_ne.
Qed.

Lemma heap_frame_foldl {A} (f : heap -> A -> heap) l h :
  (forall h x, heap_frame h (f h x)) -> heap_frame h (foldl f h l).
Proof.
  intros Hf. revert h. induction l as [|x l IH]; intros h; simpl; [done|].
  transitivity (f h x); [apply Hf|apply IH].
Qed.

Lemma heap_frame_set_sequence h u s : heap_frame h (unit_set_sequence h u s).
Proof. by apply heap_frame_alter. Qed.

Lemma heap_frame_abort_tx h u : heap_frame h (unit_abort_tx h u).
Proof. by apply heap_frame_alter. Qed.

#[export] Hint Resolve heap_frame_set_sequence heap_frame_abort_tx : graph.

Lemma heap_frame_dom h h' : heap_frame h h' -> dom h' = dom h.
Proof.
  intros H. rewrite <- (dom_fmap_L Transaction_init h), <- (dom_fmap_L Transaction_init h').
  by f_equal.
Qed.

Lemma heap_frame_lookup h h' i t' :
  heap_frame h h' -> h' !! i = Some t' ->
  exists t, h !! i = Some t ∧ Transaction_init t' = Transaction_init t.
Proof.
  intros H Ht. assert ((Transaction_init <$> h') !! i = Some (Transaction_init t')) as E.
  { by rewrite lookup_fmap, Ht. }
  rewrite H, lookup_fmap in E. destruct (h !! i) as [t|] eqn:Et; [|done].
  exists t. split; [done|]. simpl in E. congruence.
Qed.

(** The fields [Transaction_init] keeps. *)
Lemma init_fields t t' :
  Transaction_init t' = Transaction_init t ->
  t_id t' = t_id t ∧ t_write_units t' = t_write_units t ∧ t_effects t' = t_effects t ∧
  t_raw_tx t' = t_raw_tx t ∧ t_logs t' = t_logs t ∧
  ai_prev_write_keys (t_abort_info t') = ai_prev_write_keys (t_abort_info t) ∧
  ai_prev_read_keys (t_abort_info t') = ai_prev_read_keys (t_abort_info t).
Proof.
  intros H. unfold Transaction_init, set_aborted, Transaction_set_sequence in H. simpl in H.
  injection H. intros. split_and!; congruence.
Qed.

(** *** Sorting one address *)

Lemma ReadUnits_sort_frame h ru : heap_frame h (ReadUnits_sort h ru).1.
Proof.
  unfold ReadUnits_sort. simpl.
  destruct (minmax _) as [[mn mx]|]; simpl; apply heap_frame_foldl; auto with graph.
Qed.

Lemma partition_by_Permutation {A} (f : A -> bool) l :
  (partition_by f l).1 ++ (partition_by f l).2 ≡ₚ l.
Proof.
  simpl. induction l as [|x l IH]; [done|]. rewrite !filter_cons.
  destruct (f x) eqn:E; simpl.
  - by rewrite IH.
  - by rewrite <- Permutation_middle, IH.
Qed.

Lemma ReadUnits_sort_units h ru : ru_units (ReadUnits_sort h ru).2 ≡ₚ ru_units ru.
Proof.
  unfold ReadUnits_sort. pose proof (partition_by_Permutation (unit_is_sorted h) (ru_units ru)) as H.
  destruct (partition_by _ _) as [sorted remaining]. simpl in *.
  by destruct (minmax _) as [[mn mx]|].
Qed.

Lemma updater_step_frame lcw st u : heap_frame st.1.1 (updater_step lcw st u).1.1.
Proof.
  destruct st as [[h m] b]. unfold updater_step.
  repeat case_match; simpl; auto with graph; reflexivity.
Qed.

Lemma fold_updater_frame lcw l st : heap_frame st.1.1 (foldl (updater_step lcw) st l).1.1.
Proof.
  revert st. induction l as [|u l IH]; intros st; simpl; [done|].
  etransitivity; [apply updater_step_frame|apply IH].
Qed.

Lemma fold_assign_frame l st : heap_frame st.1.1 (foldl assign_write_step st l).1.1.
Proof.
  revert st. induction l as [|u l IH]; intros [[h s] used]; simpl; [done|].
  etransitivity; [|apply IH]. simpl. auto with graph.
Qed.

Lemma abort_early_frame m l h : heap_frame h (foldl (abort_early_step m) h l).
Proof.
  apply heap_frame_foldl. intros h' u. unfold abort_early_step.
  repeat case_match; auto with graph; reflexivity.
Qed.

Lemma WriteUnits_sort_frame lcw h wu ru : heap_frame h (WriteUnits_sort lcw h wu ru).1.1.
Proof.
  unfold WriteUnits_sort. destruct (partition_by _ _) as [sorted remaining].
  destruct (foldl (updater_step lcw) _ sorted) as [[h1 m1] flag] eqn:E1.
  destruct (foldl assign_write_step _ remaining) as [[h3 s3] used] eqn:E3. simpl.
  pose proof (fold_updater_frame lcw sorted (h, ru_max_seq ru, wu_first_updater_flag wu)) as H1.
  rewrite E1 in H1. simpl in H1. etransitivity; [exact H1|].
  etransitivity; [apply (abort_early_frame m1 sorted)|].
  pose proof (fold_assign_frame remaining
    (foldl (abort_early_step m1) h1 sorted, m1 + 1,
     list_to_set (unit_sequence (foldl (abort_early_step m1) h1 sorted) <$> sorted))) as H3.
  by rewrite E3 in H3.
Qed.

Lemma WriteUnits_sort_units lcw h wu ru :
  wu_units (WriteUnits_sort lcw h wu ru).1.2 ≡ₚ wu_units wu ∧
  ru_units (WriteUnits_sort lcw h wu ru).2 = ru_units ru.
Proof.
  unfold WriteUnits_sort. pose proof (partition_by_Permutation (unit_is_sorted h) (wu_units wu)) as H.
  destruct (partition_by _ _) as [sorted remaining].
  destruct (foldl (updater_step lcw) _ sorted) as [[h1 m1] flag].
  by destruct (foldl assign_write_step _ remaining) as [[h3 s3] used].
Qed.

(** Two addresses with the same units, up to order. *)
Record same_units (x y : Address) : Prop := {
  su_address : ad_address x = ad_address y;
  su_reads : ru_units (ad_read_units x) ≡ₚ ru_units (ad_read_units y);
  su_writes : wu_units (ad_write_units x) ≡ₚ wu_units (ad_write_units y)
}.

(** What [sort_address] keeps of the graph. *)
Record graph_frame (g g' : AddressBasedConflictGraph) : Prop := {
  gf_heap : heap_frame (acg_heap g) (acg_heap g');
  gf_tx_list : acg_tx_list g' = acg_tx_list g;
  gf_aborted : acg_aborted_txs g' = acg_aborted_txs g;
  gf_addresses : forall a, option_Forall2 same_units (acg_addresses g !! a) (acg_addresses g' !! a)
}.

#[global] Instance graph_frame_refl : Reflexive graph_frame.
Proof.
  intros g. split; [done..|]. intros a. destruct (acg_addresses g !! a); by repeat constructor.
Qed.

#[global] Instance same_units_trans : Transitive same_units.
Proof. intros x y z [] []. split; by etransitivity. Qed.

#[global] Instance graph_frame_trans : Transitive graph_frame.
Proof.
  intros g1 g2 g3 [H1 H2 H3 H4] [K1 K2 K3 K4]. split; [by etransitivity|congruence..|].
  intros a. specialize (H4 a). specialize (K4 a). by etransitivity.
Qed.

Lemma sort_address_frame lcw g a : graph_frame g (sort_address lcw g a).
Proof.
  unfold sort_address. destruct (acg_addresses g !! a) as [ad|] eqn:Ea; [|done].
  unfold sort_read_units, sort_write_units.
  pose proof (ReadUnits_sort_frame (acg_heap g) (ad_read_units ad)) as F1.
  pose proof (ReadUnits_sort_units (acg_heap g) (ad_read_units ad)) as U1.
  destruct (ReadUnits_sort _ _) as [h1 ru1]. simpl in *.
  pose proof (WriteUnits_sort_frame lcw h1 (ad_write_units ad) ru1) as F2.
  pose proof (WriteUnits_sort_units lcw h1 (ad_write_units ad) ru1) as [U2 U3].
  destruct (WriteUnits_sort _ _ _ _) as [[h2 wu2] ru2]. simpl in *.
  split; simpl; [by etransitivity|done..|]. intros a'.
  destruct (decide (a = a')) as [<-|Hne].
  - rewrite lookup_insert_eq, Ea. constructor. split; simpl; [done|by rewrite U3|done].
  - rewrite lookup_insert_ne by done. apply graph_frame_refl.
Qed.

Lemma hierarchcial_sort_frame lcw g : graph_frame g (hierarchcial_sort lcw g).
Proof.
  unfold hierarchcial_sort. generalize (address_rank g). intros l.
  revert g. induction l as [|a l IH]; intros g; simpl; [done|].
  etransitivity; [apply sort_address_frame|apply IH].
Qed.

(** ** Units of an address *)

Definition addr_units (ads : gmap H256 Address) (a : H256) : list Unit :=
  match ads !! a with
  | Some ad => ru_units (ad_read_units ad) ++ wu_units (ad_write_units ad)
  | None => []
  end.

Definition addr_flag (ads : gmap H256 Address) (a : H256) : bool :=
  match ads !! a with Some ad => ad_first_updater_flag ad | None => false end.

(** An updater unit: a write of a slot the transaction also reads. *)
Definition updates (u : Unit) : bool :=
  match unit_type u with Write => unit_co_located u | Read => false end.

(** Every address is stored under its own key. *)
Definition keys_ok (ads : gmap H256 Address) : Prop :=
  forall a ad, ads !! a = Some ad -> ad_address ad = a.

Lemma elem_of_add_unit ads v u a :
  u ∈ addr_units (add_unit_to_address ads v) a ↔
  u ∈ addr_units ads a ∨ (u = v ∧ unit_address v = a).
Proof.
  unfold addr_units, add_unit_to_address. destruct (decide (unit_address v = a)) as [<-|Hne].
  - rewrite lookup_insert_eq. unfold add_unit.
    destruct (ads !! unit_address v) as [ad|]; simpl;
      destruct (unit_type v); simpl; rewrite ?elem_of_app; set_solver.
  - rewrite lookup_insert_ne by done. naive_solver.
Qed.

Lemma addr_flag_add_unit ads v a :
  addr_flag (add_unit_to_address ads v) a =
  addr_flag ads a || (updates v && bool_decide (unit_address v = a)).
Proof.
  unfold addr_flag, add_unit_to_address, updates.
  case_bool_decide as Hv; rewrite ?andb_true_r, ?andb_false_r, ?orb_false_r.
  - subst a. rewrite lookup_insert_eq. unfold add_unit.
    destruct (ads !! unit_address v) as [ad|]; simpl; destruct (unit_type v); simpl;
      rewrite ?orb_false_r; try done; destruct (unit_co_located v); simpl;
      by rewrite ?orb_true_r, ?orb_false_r.
  - by rewrite lookup_insert_ne.
Qed.

Lemma keys_ok_add_unit ads v : keys_ok ads -> keys_ok (add_unit_to_address ads v).
Proof.
  intros H a ad. unfold add_unit_to_address.
  destruct (decide (unit_address v = a)) as [<-|Hne].
  - rewrite lookup_insert_eq. intros [= <-]. unfold add_unit.
    destruct (ads !! unit_address v) as [ad|] eqn:E; simpl;
      [apply H in E|]; by destruct (unit_type v).
  - rewrite lookup_insert_ne by done. apply H.
Qed.

Lemma elem_of_add_units ads us u a :
  u ∈ addr_units (add_units_to_address ads us) a ↔
  u ∈ addr_units ads a ∨ (u ∈ us ∧ unit_address u = a).
Proof.
  revert ads. induction us as [|v us IH]; intros ads; simpl; [set_solver|].
  rewrite IH, elem_of_add_unit, elem_of_cons. naive_solver.
Qed.

Lemma addr_flag_add_units ads us a :
  addr_flag (add_units_to_address ads us) a =
  addr_flag ads a || existsb (fun u => updates u && bool_decide (unit_address u = a)) us.
Proof.
  revert ads. induction us as [|v us IH]; intros ads; simpl; [by rewrite orb_false_r|].
  by rewrite IH, addr_flag_add_unit, orb_assoc.
Qed.

Lemma keys_ok_add_units ads us : keys_ok ads -> keys_ok (add_units_to_address ads us).
Proof.
  revert ads. induction us as [|v us IH]; intros ads H; simpl; [done|].
  by apply IH, keys_ok_add_unit.
Qed.

Lemma addr_units_is_Some ads a u : u ∈ addr_units ads a -> is_Some (ads !! a).
Proof. unfold addr_units. destruct (ads !! a); [eauto|]. by intros ?%elem_of_nil. Qed.

Lemma dom_add_units ads us :
  dom (add_units_to_address ads us) = dom ads ∪ list_to_set (unit_address <$> us).
Proof.
  revert ads. induction us as [|v us IH]; intros ads; simpl; [set_solver|].
  rewrite IH. unfold add_unit_to_address. rewrite dom_insert_L. set_solver.
Qed.

(** *** The units of one transaction *)

Lemma elem_of_convert_to_units tx ty m rs u :
  u ∈ convert_to_units tx ty m rs ↔
  exists c st k, m !! c = Some st ∧ k ∈ dom st ∧
    u = Unit_new tx ty k
          match rs with
          | Some rs =>
              match rs !! c with
              | Some states => bool_decide (is_Some (states !! k))
              | None => false
              end
          | None => false
          end.
Proof.
  unfold convert_to_units. rewrite list_elem_of_bind. split.
  - intros ([c st] & (kv & -> & Hkv)%list_elem_of_fmap & Hc%elem_of_btree_iter).
    destruct kv as [k v]. apply elem_of_map_to_list in Hkv. exists c, st, k. simpl.
    split_and!; [done| |done]. apply elem_of_dom. eauto.
  - intros (c & st & k & Hc & (v & Hk)%elem_of_dom & ->). exists (c, st). split.
    + apply list_elem_of_fmap. exists (k, v). simpl. split; [done|]. by apply elem_of_map_to_list.
    + by apply elem_of_btree_iter.
Qed.

(** The slots a transaction both reads and writes in the same contract. *)
Definition update_keys (s : RwSet) : gset H256 :=
  ⋃ ((fun p : H160 * gmap H256 H256 =>
        dom p.2 ∩ dom (default ∅ (read_set s !! p.1))) <$> map_to_list (write_set s)).

Lemma elem_of_update_keys s k :
  k ∈ update_keys s ↔
  exists c w r, write_set s !! c = Some w ∧ read_set s !! c = Some r ∧ k ∈ dom w ∧ k ∈ dom r.
Proof.
  unfold update_keys. rewrite elem_of_union_list. split.
  - intros (X & ([c w] & -> & Hw%elem_of_map_to_list)%list_elem_of_fmap & Hk).
    simpl in Hk. apply elem_of_intersection in Hk as [Hkw Hkr].
    destruct (read_set s !! c) as [r|] eqn:Er; simpl in Hkr; [|set_solver]. eauto 10.
  - intros (c & w & r & Hw & Hr & Hkw & Hkr). exists (dom w ∩ dom r). split; [|set_solver].
    apply list_elem_of_fmap. exists (c, w). simpl. rewrite Hr. simpl. split; [done|].
    by apply elem_of_map_to_list.
Qed.

Lemma updates_convert tx s k :
  (exists u, u ∈ convert_to_units tx Write (write_set s) (Some (read_set s)) ∧
     unit_co_located u = true ∧ unit_address u = k) ↔ k ∈ update_keys s.
Proof.
  rewrite elem_of_update_keys. split.
  - intros (u & (c & w & k' & Hw & Hk & ->)%elem_of_convert_to_units & Hu & <-). simpl in *.
    destruct (read_set s !! c) as [r|] eqn:Er; [|done].
    apply bool_decide_eq_true in Hu. exists c, w, r. split_and!; [done..|].
    by apply elem_of_dom.
  - intros (c & w & r & Hw & Hr & Hkw & Hkr). eexists. split_and!.
    + apply elem_of_convert_to_units. exists c, w, k. split_and!; [done..|reflexivity].
    + simpl. rewrite Hr. apply bool_decide_eq_true. by apply elem_of_dom.
    + done.
Qed.

(** ** First updater wins: a reference definition *)

(** Transactions in order; one is admitted when none of the slots it updates
    is claimed by an admitted one. *)
Definition first_updaters_step (st : list Z * list Z * gset H256) (tx : SimulatedTransaction) :
    list Z * list Z * gset H256 :=
  let '(admitted, aborted, claimed) := st in
  let keys := update_keys (sim_rw_set tx) in
  let id := itx_id (sim_raw_tx tx) in
  if decide (keys ## claimed) then (admitted ++ [id], aborted, keys ∪ claimed)
  else (admitted, aborted ++ [id], claimed).

Definition first_updaters (txs : list SimulatedTransaction) : list Z * list Z * gset H256 :=
  foldl first_updaters_step ([], [], ∅) txs.

(** The graph claims the slots whose address carries the first-updater flag. *)
Record claims (g : AddressBasedConflictGraph) (st : list Z * list Z * gset H256) : Prop := {
  cl_tx_list : acg_tx_list g = list_to_set st.1.1;
  cl_aborted : acg_aborted_txs g = st.1.2;
  cl_flag : forall k, addr_flag (acg_addresses g) k = true ↔ k ∈ st.2
}.

Lemma existsb_elem_of {A} (f : A -> bool) l :
  existsb f l = true ↔ exists x, x ∈ l ∧ f x = true.
Proof. rewrite existsb_exists. by setoid_rewrite list_elem_of_In. Qed.

Lemma check_updater_spec ads tx s :
  check_updater_already_exist_in_same_address ads
    (convert_to_units tx Write (write_set s) (Some (read_set s))) = true ↔
  exists k, k ∈ update_keys s ∧ addr_flag ads k = true.
Proof.
  unfold check_updater_already_exist_in_same_address. rewrite existsb_elem_of.
  setoid_rewrite list_elem_of_filter. split.
  - intros (u & [Hc Hu] & Hf). exists (unit_address u). split; [|exact Hf].
    apply (updates_convert tx). eauto.
  - intros (k & (u & Hu & Hc & <-)%(updates_convert tx) & Hf). eauto.
Qed.

Lemma write_units_updates tx s rs k :
  existsb (fun u => updates u && bool_decide (unit_address u = k))
    (set_wr_dependencies rs
       (convert_to_units tx Write (write_set s) (Some (read_set s)))).2 = true ↔
  k ∈ update_keys s.
Proof.
  rewrite <- (updates_convert tx), existsb_elem_of. simpl. split.
  - intros (u & (v & -> & Hv)%list_elem_of_fmap & Hu).
    apply andb_true_iff in Hu as [Hu Ha%bool_decide_eq_true]. simpl in *.
    exists v. split_and!; [done| |done]. unfold updates in Hu. simpl in Hu.
    by destruct (unit_type v).
  - intros (u & Hu & Hc & Ha). eexists. split; [apply list_elem_of_fmap; by exists u|].
    apply andb_true_iff. rewrite bool_decide_eq_true. split; [|done].
    unfold updates. simpl. by apply elem_of_convert_to_units in Hu as (c & w & k' & _ & _ & ->).
Qed.

Lemma read_units_no_update tx m ws k :
  existsb (fun u => updates u && bool_decide (unit_address u = k))
    (set_wr_dependencies (convert_to_units tx Read m None) ws).1 = false.
Proof.
  apply not_true_iff_false. rewrite existsb_elem_of. simpl.
  intros (u & (v & -> & Hv)%list_elem_of_fmap & Hu).
  apply elem_of_convert_to_units in Hv as (c & w & k' & _ & _ & ->). done.
Qed.

Lemma insert_transaction_eq g t rs ws :
  insert_transaction g t rs ws =
  let d := set_wr_dependencies (convert_to_units (t_id t) Read rs None) ws in
  mkACG (add_units_to_address (add_units_to_address (acg_addresses g) d.1) d.2)
    ({[t_id t]} ∪ acg_tx_list g) (acg_aborted_txs g)
    (<[t_id t := set_write_units d.2 t]> (acg_heap g)).
Proof. reflexivity. Qed.

(** The two outcomes of a construction step. *)
Lemma construct_step_cases g tx :
  let t := (Transaction_from tx).1 in
  let s := sim_rw_set tx in
  let ws := convert_to_units (t_id t) Write (write_set s) (Some (read_set s)) in
  ((exists k, k ∈ update_keys s ∧ addr_flag (acg_addresses g) k = true) ∧
   construct_step g tx =
     mkACG (acg_addresses g) (acg_tx_list g) (acg_aborted_txs g ++ [t_id t])
       (<[t_id t := Transaction_abort t]> (acg_heap g))) ∨
  ((forall k, k ∈ update_keys s -> addr_flag (acg_addresses g) k = false) ∧
   construct_step g tx = insert_transaction g t (read_set s) ws).
Proof.
  intros t s ws. unfold construct_step. simpl. fold t s. fold ws.
  destruct (check_updater_already_exist_in_same_address _ _) eqn:Ec; [left|right].
  - split; [|done]. by apply check_updater_spec in Ec.
  - split; [|done]. intros k Hk. apply not_true_iff_false. intros Hf.
    apply not_true_iff_false in Ec. apply Ec. apply check_updater_spec. eauto.
Qed.

Lemma construct_step_claims g st tx :
  claims g st -> claims (construct_step g tx) (first_updaters_step st tx).
Proof.
  destruct st as [[adm ab] cl]. intros [H1 H2 H3]. simpl in *. unfold first_updaters_step.
  destruct (construct_step_cases g tx) as [((k & Hk & Hf) & ->)|(Hf & ->)].
  - rewrite decide_False; [|set_solver]. split; simpl; [done|by rewrite H2|done].
  - rewrite decide_True.
    2: { intros k Hk Hc%H3. by rewrite Hf in Hc. }
    rewrite insert_transaction_eq.
    split; cbn [acg_tx_list acg_aborted_txs acg_addresses fst snd]; [|done|].
    + rewrite H1, list_to_set_app_L. simpl. set_solver.
    + intros k. rewrite !addr_flag_add_units, !orb_true_iff, write_units_updates.
      rewrite read_units_no_update, H3. set_solver.
Qed.

Lemma construct_claims txs : claims (construct txs) (first_updaters txs).
Proof.
  unfold construct, first_updaters.
  assert (claims ACG_new ([], [], ∅)) as H.
  { split; [done..|]. intros k. unfold addr_flag. simpl. rewrite lookup_empty. set_solver. }
  revert H. generalize ACG_new, (@nil Z, @nil Z, ∅ : gset H256).
  induction txs as [|tx txs IH]; intros g st H; simpl; [done|].
  by apply IH, construct_step_claims.
Qed.

(** ** Well-formed graphs *)

Definition tx_ids (txs : list SimulatedTransaction) : list Z :=
  (fun tx => itx_id (sim_raw_tx tx)) <$> txs.

(** The shared transaction [t] carries the simulation result [tx]. *)
Record represents (tx : SimulatedTransaction) (t : Transaction) : Prop := {
  rp_raw : t_raw_tx t = sim_raw_tx tx;
  rp_effects : t_effects t = sim_effects tx;
  rp_logs : t_logs t = sim_logs tx;
  rp_writes : ai_prev_write_keys (t_abort_info t) = write_set (sim_rw_set tx);
  rp_reads : ai_prev_read_keys (t_abort_info t) = read_set (sim_rw_set tx)
}.

Record graph_wf (txs : list SimulatedTransaction) (g : AddressBasedConflictGraph) : Prop := {
  gw_ids : elements (acg_tx_list g) ++ acg_aborted_txs g ≡ₚ tx_ids txs;
  gw_dom : dom (acg_heap g) = list_to_set (tx_ids txs);
  gw_represents : forall i t, acg_heap g !! i = Some t ->
    t_id t = i ∧ itx_id (t_raw_tx t) = i ∧ exists tx, tx ∈ txs ∧ represents tx t;
  gw_aborted : forall i t, i ∈ acg_aborted_txs g -> acg_heap g !! i = Some t ->
    t_write_units t = [];
  gw_write_units : forall i t u, acg_heap g !! i = Some t -> u ∈ t_write_units t ->
    is_Some (acg_addresses g !! unit_address u);
  gw_addr_units : forall a u, u ∈ addr_units (acg_addresses g) a ->
    unit_tx u ∈ dom (acg_heap g) ∧ unit_address u = a;
  gw_keys : keys_ok (acg_addresses g)
}.

Lemma tx_ids_app txs txs' : tx_ids (txs ++ txs') = tx_ids txs ++ tx_ids txs'.
Proof. apply fmap_app. Qed.

Lemma gw_elem_of txs g i :
  graph_wf txs g -> i ∈ acg_tx_list g ∨ i ∈ acg_aborted_txs g ↔ i ∈ tx_ids txs.
Proof. intros H. by rewrite <- (gw_ids _ _ H), elem_of_app, elem_of_elements. Qed.

Lemma graph_wf_new : graph_wf [] ACG_new.
Proof.
  split; simpl; try done.
  intros a u. unfold addr_units. rewrite lookup_empty. by intros ?%elem_of_nil.
Qed.

Lemma fresh_not_in_dom txs g i : graph_wf txs g -> i ∉ tx_ids txs -> acg_heap g !! i = None.
Proof.
  intros H Hi. apply not_elem_of_dom. rewrite (gw_dom _ _ H). by rewrite elem_of_list_to_set.
Qed.

Lemma construct_step_abort_wf txs g tx :
  let t := (Transaction_from tx).1 in
  graph_wf txs g -> t_id t ∉ tx_ids txs ->
  graph_wf (txs ++ [tx])
    (mkACG (acg_addresses g) (acg_tx_list g) (acg_aborted_txs g ++ [t_id t])
       (<[t_id t := Transaction_abort t]> (acg_heap g))).
Proof.
  intros t Hw Hi. pose proof (fresh_not_in_dom _ _ _ Hw Hi) as Hn.
  destruct Hw as [H1 H2 H3 H4 H5 H6 H7].
  split; cbn [acg_addresses acg_tx_list acg_aborted_txs acg_heap].
  - by rewrite tx_ids_app, app_assoc, H1.
  - rewrite dom_insert_L, tx_ids_app, list_to_set_app_L, H2. simpl. set_solver.
  - intros i t'. destruct (decide (t_id t = i)) as [<-|Hne].
    + rewrite lookup_insert_eq. intros [= <-]. split_and!; [done..|].
      exists tx. split; [set_solver|]. by split.
    + rewrite lookup_insert_ne by done. intros (? & ? & tx' & ? & ?)%H3.
      split_and!; [done..|]. exists tx'. split; [set_solver|done].
  - intros i t'. destruct (decide (t_id t = i)) as [<-|Hne].
    + rewrite lookup_insert_eq. by intros _ [= <-].
    + rewrite lookup_insert_ne by done. intros Hin. apply H4. set_solver.
  - intros i t' u. destruct (decide (t_id t = i)) as [<-|Hne].
    + rewrite lookup_insert_eq. intros [= <-]. by intros ?%elem_of_nil.
    + rewrite lookup_insert_ne by done. apply H5.
  - intros a u Hu. apply H6 in Hu as [? ?]. split; [|done]. rewrite dom_insert_L. set_solver.
  - done.
Qed.

(** The units of one transaction point back to it. *)
Lemma wr_dependencies_units tx m rs m' u :
  let d := set_wr_dependencies (convert_to_units tx Read m None)
             (convert_to_units tx Write m' rs) in
  u ∈ d.1 ∨ u ∈ d.2 -> unit_tx u = tx.
Proof.
  intros d. simpl.
  intros [(v & -> & Hv)%list_elem_of_fmap|(v & -> & Hv)%list_elem_of_fmap];
    apply elem_of_convert_to_units in Hv as (c & st & k & _ & _ & ->); done.
Qed.

Lemma construct_step_insert_wf txs g tx :
  let t := (Transaction_from tx).1 in
  let s := sim_rw_set tx in
  graph_wf txs g -> t_id t ∉ tx_ids txs ->
  graph_wf (txs ++ [tx])
    (insert_transaction g t (read_set s)
       (convert_to_units (t_id t) Write (write_set s) (Some (read_set s)))).
Proof.
  intros t s Hw Hi. pose proof (fresh_not_in_dom _ _ _ Hw Hi) as Hn.
  rewrite insert_transaction_eq. cbv zeta.
  pose proof (wr_dependencies_units (t_id t) (read_set s) (Some (read_set s)) (write_set s)) as Hd.
  cbv zeta in Hd.
  destruct (set_wr_dependencies _ _) as [d1 d2]. cbn [fst snd] in *.
  pose proof (gw_elem_of _ _ (t_id t) Hw) as Hel.
  destruct Hw as [H1 H2 H3 H4 H5 H6 H7].
  split; cbn [acg_addresses acg_tx_list acg_aborted_txs acg_heap].
  - rewrite tx_ids_app, <- H1, elements_union_singleton by naive_solver.
    apply (Permutation_cons_append (elements (acg_tx_list g) ++ acg_aborted_txs g)).
  - rewrite dom_insert_L, tx_ids_app, list_to_set_app_L, H2. simpl. set_solver.
  - intros i t'. destruct (decide (t_id t = i)) as [<-|Hne].
    + rewrite lookup_insert_eq. intros [= <-]. split_and!; [done..|].
      exists tx. split; [set_solver|]. by split.
    + rewrite lookup_insert_ne by done. intros (? & ? & tx' & ? & ?)%H3.
      split_and!; [done..|]. exists tx'. split; [set_solver|done].
  - intros i t'. destruct (decide (t_id t = i)) as [<-|Hne].
    + naive_solver.
    + rewrite lookup_insert_ne by done. apply H4.
  - intros i t' u. destruct (decide (t_id t = i)) as [<-|Hne].
    + rewrite lookup_insert_eq. intros [= <-]. simpl. intros Hu.
      apply (addr_units_is_Some _ _ u), elem_of_add_units. auto.
    + rewrite lookup_insert_ne by done. intros Ht Hu. pose proof (H5 _ _ _ Ht Hu) as [ad Had].
      apply elem_of_dom. rewrite !dom_add_units. apply elem_of_dom_2 in Had. set_solver.
  - intros a u. rewrite !elem_of_add_units, dom_insert_L. intros [[Hu|[Hu ?]]|[Hu ?]].
    + apply H6 in Hu as [? ?]. split; [set_solver|done].
    + split; [|done]. rewrite (Hd u) by auto. set_solver.
    + split; [|done]. rewrite (Hd u) by auto. set_solver.
  - by do 2 apply keys_ok_add_units.
Qed.

Lemma construct_step_wf txs g tx :
  graph_wf txs g -> itx_id (sim_raw_tx tx) ∉ tx_ids txs -> graph_wf (txs ++ [tx]) (construct_step g tx).
Proof.
  intros Hw Hi. destruct (construct_step_cases g tx) as [[_ ->]|[_ ->]].
  - by apply construct_step_abort_wf.
  - by apply construct_step_insert_wf.
Qed.

Lemma construct_wf txs : NoDup (tx_ids txs) -> graph_wf txs (construct txs).
Proof.
  unfold construct. induction txs as [|tx txs IH] using rev_ind; [intros _; apply graph_wf_new|].
  rewrite tx_ids_app, foldl_app. intros (H1 & H2 & _)%NoDup_app. simpl.
  apply construct_step_wf; [by apply IH|]. intros Hin. apply (H2 _ Hin). set_solver.
Qed.

(** ** Merging *)

Definition ad_units (ad : Address) : list Unit :=
  ru_units (ad_read_units ad) ++ wu_units (ad_write_units ad).

Lemma merge_last_updater_frame h d d' us : heap_frame h (merge_last_updater h d d' us).1.
Proof. unfold merge_last_updater. repeat case_match; simpl; auto with graph; reflexivity. Qed.

Lemma Address_merge_spec h x y :
  heap_frame h (Address_merge h x y).1 ∧
  ad_address (Address_merge h x y).2 = ad_address x ∧
  forall u, u ∈ ad_units (Address_merge h x y).2 -> u ∈ ad_units x ∨ u ∈ ad_units y.
Proof.
  unfold Address_merge. destruct (_ && _).
  - pose proof (merge_last_updater_frame h (ad_in_degree x) (ad_in_degree y)
      (ru_units (ad_read_units y))) as F1.
    destruct (merge_last_updater h _ _ _) as [h1 d1].
    pose proof (merge_last_updater_frame h1 d1 (ad_in_degree y)
      (wu_units (ad_write_units y))) as F2.
    destruct (merge_last_updater h1 _ _ _) as [h2 d2]. simpl in *.
    split_and!; [by etransitivity|done|]. intros u. unfold ad_units. simpl. auto.
  - simpl. split_and!; [done..|]. intros u. unfold ad_units. simpl. rewrite !elem_of_app. naive_solver.
Qed.

Lemma elem_of_addr_units ads a u :
  u ∈ addr_units ads a ↔ exists ad, ads !! a = Some ad ∧ u ∈ ad_units ad.
Proof.
  unfold addr_units. destruct (ads !! a) as [ad|]; [unfold ad_units; naive_solver|].
  rewrite elem_of_nil. naive_solver.
Qed.

Lemma merge_address_spec h ads p :
  let st := merge_address (h, ads) p in
  ad_address p.2 = p.1 -> keys_ok ads ->
  heap_frame h st.1 ∧ dom st.2 = {[p.1]} ∪ dom ads ∧ keys_ok st.2 ∧
  (forall a u, u ∈ addr_units st.2 a -> u ∈ addr_units ads a ∨ (a = p.1 ∧ u ∈ ad_units p.2)).
Proof.
  destruct p as [k ad]. simpl. intros Hk Hok.
  destruct (ads !! k) as [my|] eqn:E.
  - pose proof (Address_merge_spec h my ad) as (F & A & U).
    destruct (Address_merge h my ad) as [h' ad']. simpl in *.
    split_and!; [done|by rewrite dom_insert_L| |].
    + intros a x. destruct (decide (k = a)) as [<-|Hne].
      * rewrite lookup_insert_eq. intros [= <-]. rewrite A. by apply Hok.
      * rewrite lookup_insert_ne by done. apply Hok.
    + intros a u. rewrite !elem_of_addr_units. destruct (decide (k = a)) as [<-|Hne].
      * rewrite lookup_insert_eq. intros (x & [= <-] & Hu). apply U in Hu as [?|?]; eauto.
      * rewrite lookup_insert_ne by done. auto.
  - simpl. split_and!; [done|by rewrite dom_insert_L| |].
    + intros a x. destruct (decide (k = a)) as [<-|Hne].
      * rewrite lookup_insert_eq. by intros [= <-].
      * rewrite lookup_insert_ne by done. apply Hok.
    + intros a u. rewrite !elem_of_addr_units. destruct (decide (k = a)) as [<-|Hne].
      * rewrite lookup_insert_eq. intros (x & [= <-] & Hu). eauto.
      * rewrite lookup_insert_ne by done. auto.
Qed.

Lemma merge_addresses_spec h ads l :
  let st := foldl merge_address (h, ads) l in
  (forall p, p ∈ l -> ad_address p.2 = p.1) -> keys_ok ads ->
  heap_frame h st.1 ∧ dom st.2 = list_to_set l.*1 ∪ dom ads ∧ keys_ok st.2 ∧
  (forall a u, u ∈ addr_units st.2 a ->
     u ∈ addr_units ads a ∨ exists ad, (a, ad) ∈ l ∧ u ∈ ad_units ad).
Proof.
  revert h ads. induction l as [|p l IH]; intros h ads; cbn [foldl].
  - intros _ Hok. split_and!; [done|simpl; set_solver|done|auto].
  - intros Hl Hok.
    pose proof (merge_address_spec h ads p) as (F & D & K & U); [|done|].
    { apply Hl. left. }
    destruct (merge_address (h, ads) p) as [h1 ads1]. simpl in F, D, K, U.
    destruct (IH h1 ads1) as (F' & D' & K' & U'); [|done|].
    { intros q Hq. apply Hl. by right. }
    split_and!; [by etransitivity|rewrite D', D; simpl; set_solver|done|].
    intros a u [Hu|(ad & ? & ?)]%U'; [|right; exists ad; split; [by right|done]].
    apply U in Hu as [?|[-> ?]]; [by left|]. right. exists p.2. split; [|done].
    destruct p. left.
Qed.

Lemma elem_of_heap_union txs1 txs2 g1 g2 i t :
  graph_wf txs1 g1 -> graph_wf txs2 g2 -> tx_ids txs1 ## tx_ids txs2 ->
  (acg_heap g1 ∪ acg_heap g2) !! i = Some t ->
  (acg_heap g1 !! i = Some t ∧ i ∈ tx_ids txs1) ∨ (acg_heap g2 !! i = Some t ∧ i ∈ tx_ids txs2).
Proof.
  intros W1 W2 Hd [H|[_ H]]%lookup_union_Some_raw; [left|right]; (split; [done|]);
    apply elem_of_dom_2 in H.
  - by rewrite (gw_dom _ _ W1), elem_of_list_to_set in H.
  - by rewrite (gw_dom _ _ W2), elem_of_list_to_set in H.
Qed.

Lemma elements_merge txs1 txs2 g1 g2 :
  graph_wf txs1 g1 -> graph_wf txs2 g2 -> tx_ids txs1 ## tx_ids txs2 ->
  elements (acg_tx_list g1 ∪ acg_tx_list g2) ++ acg_aborted_txs g1 ++ acg_aborted_txs g2
  ≡ₚ tx_ids txs1 ++ tx_ids txs2.
Proof.
  intros W1 W2 Hd. rewrite <- (gw_ids _ _ W1), <- (gw_ids _ _ W2).
  rewrite elements_disj_union.
  - rewrite <- !app_assoc. apply Permutation_app_head.
    rewrite !app_assoc. apply Permutation_app_tail, Permutation_app_comm.
  - intros i H1 H2. apply (Hd i); [by apply (gw_elem_of _ _ _ W1); left|].
    by apply (gw_elem_of _ _ _ W2); left.
Qed.

Lemma merge_represents txs1 txs2 g1 g2 i t :
  graph_wf txs1 g1 -> graph_wf txs2 g2 ->
  (acg_heap g1 !! i = Some t ∧ i ∈ tx_ids txs1) ∨ (acg_heap g2 !! i = Some t ∧ i ∈ tx_ids txs2) ->
  t_id t = i ∧ itx_id (t_raw_tx t) = i ∧ exists tx, tx ∈ txs1 ++ txs2 ∧ represents tx t.
Proof.
  intros W1 W2 [[Ht _]|[Ht _]];
    [apply (gw_represents _ _ W1) in Ht as (? & ? & tx & ? & ?)|
     apply (gw_represents _ _ W2) in Ht as (? & ? & tx & ? & ?)];
    (split_and!; [done..|]; exists tx; split; [set_solver|done]).
Qed.

Lemma merge_wf txs1 txs2 g1 g2 :
  graph_wf txs1 g1 -> graph_wf txs2 g2 -> tx_ids txs1 ## tx_ids txs2 ->
  graph_wf (txs1 ++ txs2) (merge g1 g2).
Proof.
  intros W1 W2 Hd. unfold merge.
  destruct (merge_addresses_spec (acg_heap g1 ∪ acg_heap g2) (acg_addresses g1)
    (map_to_list (acg_addresses g2))) as (F & D & K & U).
  { intros [a ad] Hin%elem_of_map_to_list. by apply (gw_keys _ _ W2). }
  { apply (gw_keys _ _ W1). }
  destruct (foldl merge_address _ _) as [h ads]. simpl in F, D, K, U.
  assert (dom h = dom (acg_heap g1) ∪ dom (acg_heap g2)) as Hdom.
  { by rewrite (heap_frame_dom _ _ F), dom_union_L. }
  assert (dom ads = dom (acg_addresses g2) ∪ dom (acg_addresses g1)) as Hads.
  { rewrite D. f_equal. symmetry. apply leibniz_equiv, dom_alt. }
  assert (forall i t', h !! i = Some t' -> exists t, Transaction_init t' = Transaction_init t ∧
    ((acg_heap g1 !! i = Some t ∧ i ∈ tx_ids txs1) ∨ (acg_heap g2 !! i = Some t ∧ i ∈ tx_ids txs2)))
    as Hh.
  { intros i t' Ht'. destruct (heap_frame_lookup _ _ _ _ F Ht') as (t & Ht & He).
    exists t. split; [done|]. by eapply elem_of_heap_union. }
  split; cbn [acg_addresses acg_tx_list acg_aborted_txs acg_heap].
  - rewrite tx_ids_app. by apply elements_merge.
  - rewrite Hdom, (gw_dom _ _ W1), (gw_dom _ _ W2), tx_ids_app. by rewrite list_to_set_app_L.
  - intros i t' (t & (E1 & E2 & E3 & E4 & E5 & E6 & E7)%init_fields & Ht)%Hh.
    destruct (merge_represents _ _ _ _ _ _ W1 W2 Ht) as (A1 & A2 & tx & Hin & [R1 R2 R3 R4 R5]).
    split_and!; [congruence..|]. exists tx. split; [done|]. split; congruence.
  - intros i t' Hin (t & (_ & E & _)%init_fields & Ht)%Hh. rewrite E.
    rewrite elem_of_app in Hin. destruct Ht as [[Ht Hi]|[Ht Hi]], Hin as [Hin|Hin].
    + by eapply (gw_aborted _ _ W1).
    + exfalso. apply (Hd i); [done|]. apply (gw_elem_of _ _ _ W2). auto.
    + exfalso. apply (Hd i); [|done]. apply (gw_elem_of _ _ _ W1). auto.
    + by eapply (gw_aborted _ _ W2).
  - intros i t' u (t & (_ & E & _)%init_fields & Ht)%Hh. rewrite E. intros Hu.
    apply elem_of_dom. rewrite Hads, elem_of_union, !elem_of_dom.
    destruct Ht as [[Ht _]|[Ht _]]; [right; by eapply (gw_write_units _ _ W1)|].
    left. by eapply (gw_write_units _ _ W2).
  - intros a u Hu. rewrite Hdom, elem_of_union.
    apply U in Hu as [Hu|(ad & Had%elem_of_map_to_list & Hu)].
    + apply (gw_addr_units _ _ W1) in Hu as [? ?]. auto.
    + assert (u ∈ addr_units (acg_addresses g2) a) as Hu'.
      { apply elem_of_addr_units. eauto. }
      apply (gw_addr_units _ _ W2) in Hu' as [? ?]. auto.
  - done.
Qed.

(** ** Parallel construction *)

Lemma concat_chunks_of {A} fuel size (l : list A) :
  (0 < size)%nat -> (length l <= fuel)%nat -> concat (chunks_of fuel size l) = l.
Proof.
  intros Hs. revert l. induction fuel as [|fuel IH]; intros l Hl; simpl.
  - by destruct l; [|simpl in Hl; lia].
  - destruct l as [|x l]; [done|]. cbn [concat]. rewrite IH.
    + apply take_drop.
    + rewrite length_drop. simpl in *. lia.
Qed.

Lemma chunks_of_nil {A} fuel size (l : list A) :
  (length l <= fuel)%nat -> chunks_of fuel size l = [] -> l = [].
Proof. destruct fuel, l; simpl; try done. lia. Qed.

Lemma chunks_of_length {A} fuel size (l : list A) : (length (chunks_of fuel size l) <= fuel)%nat.
Proof.
  revert l. induction fuel as [|fuel IH]; intros l; simpl; [lia|].
  destruct l as [|x l]; simpl; [lia|]. specialize (IH (drop size (x :: l))). lia.
Qed.

(** A list of graphs built from consecutive segments of the batch. *)
Definition graphs_wf (css : list (list SimulatedTransaction))
    (gs : list AddressBasedConflictGraph) : Prop :=
  Forall2 graph_wf css gs ∧ NoDup (tx_ids (concat css)).

Lemma merge_round_wf css gs :
  graphs_wf css gs -> exists css', graphs_wf css' (merge_round gs) ∧ concat css' = concat css.
Proof.
  intros [HF Hnd].
  assert (exists css', Forall2 graph_wf css' (merge_round gs) ∧ concat css' = concat css)
    as (css' & H1 & H2).
  2: { exists css'. split; [|done]. split; [done|]. by rewrite H2. }
  remember (length gs) as n eqn:Hn. revert css gs HF Hnd Hn.
  induction (lt_wf n) as [n _ IH]. intros css gs HF Hnd Hn.
  destruct gs as [|g1 [|g2 gs]]; simpl; [by eauto..|].
  inversion HF as [|c1 ? css1 ? W1 HF1]; subst. inversion HF1 as [|c2 ? css2 ? W2 HF2]; subst.
  simpl in Hnd. rewrite !tx_ids_app in Hnd.
  apply NoDup_app in Hnd as (Hn1 & Hd1 & (Hn2 & Hd2 & Hn3)%NoDup_app).
  destruct (IH (length gs)) with (css := css2) (gs := gs) as (css' & H1 & H2); [simpl; lia|done..|].
  exists ((c1 ++ c2) :: css'). split.
  - constructor; [|done]. apply merge_wf; [done..|]. intros i ??. apply (Hd1 i); [done|].
    by apply elem_of_app; left.
  - simpl. by rewrite H2, <- app_assoc.
Qed.

Lemma merge_round_length gs :
  (1 < length gs)%nat -> (0 < length (merge_round gs) < length gs)%nat.
Proof.
  remember (length gs) as n eqn:Hn. revert gs Hn.
  induction (lt_wf n) as [n _ IH]. intros gs -> H.
  destruct gs as [|g1 [|g2 gs]]; simpl in *; [lia..|].
  destruct (decide (1 < length gs)%nat) as [Hl|Hl].
  - specialize (IH (length gs) ltac:(lia) gs eq_refl). lia.
  - destruct gs as [|g3 [|]]; simpl in *; lia.
Qed.

Lemma merge_rounds_wf fuel css gs :
  graphs_wf css gs -> (length gs <= fuel)%nat ->
  exists css', graphs_wf css' (merge_rounds fuel gs) ∧ concat css' = concat css ∧
    length (merge_rounds fuel gs) = Nat.min 1 (length gs).
Proof.
  revert css gs. induction fuel as [|fuel IH]; intros css gs Hw Hl; cbn [merge_rounds].
  - exists css. split_and!; [done..|]. lia.
  - case_decide as Hlen.
    + pose proof (merge_round_length gs Hlen).
      destruct (merge_round_wf css gs Hw) as (css1 & Hw1 & E1).
      destruct (IH css1 (merge_round gs) Hw1) as (css2 & Hw2 & E2 & L2); [lia|].
      exists css2. split_and!; [done|congruence|]. rewrite L2. lia.
    + exists css. split_and!; [done..|]. lia.
Qed.

Lemma par_construct_with_wf ncpu constructor txs :
  (forall c, NoDup (tx_ids c) -> graph_wf c (constructor c)) ->
  txs ≠ [] -> NoDup (tx_ids txs) ->
  exists g, par_construct_with ncpu constructor txs = Some g ∧ graph_wf txs g.
Proof.
  intros Hc Hne Hnd. unfold par_construct_with.
  set (size := Nat.max (length txs / ncpu) 1).
  set (chunks := chunks_of (length txs) size txs).
  assert (concat chunks = txs) as Hcc by (apply concat_chunks_of; lia).
  assert (graphs_wf chunks (constructor <$> chunks)) as Hw.
  { split; [|by rewrite Hcc]. rewrite <- Hcc in Hnd. clearbody chunks. clear Hcc.
    induction chunks as [|c cs IH]; [by constructor|]. simpl in Hnd. rewrite tx_ids_app in Hnd.
    apply NoDup_app in Hnd as (? & _ & ?). constructor; [by apply Hc|by apply IH]. }
  assert (length (constructor <$> chunks) <= length txs)%nat as Hlen.
  { rewrite length_fmap. apply chunks_of_length. }
  destruct (merge_rounds_wf _ _ _ Hw Hlen) as (css & [HF _] & E & L).
  assert (length (constructor <$> chunks) ≠ 0%nat) as Hn0.
  { rewrite length_fmap. intros H0%nil_length_inv. apply Hne, (chunks_of_nil (length txs) size); done. }
  destruct (merge_rounds _ _) as [|g [|]]; cbn [length] in L; [lia| |lia].
  exists g. split; [done|]. apply Forall2_cons_inv_r in HF as (c & cs & W & HF' & ->).
  apply Forall2_nil_inv_r in HF' as ->. simpl in E. rewrite app_nil_r in E.
  assert (c = txs) as -> by congruence. done.
Qed.

Lemma par_construct_wf ncpu txs :
  txs ≠ [] -> NoDup (tx_ids txs) ->
  exists g, par_construct ncpu txs = Some g ∧ graph_wf txs g.
Proof. apply par_construct_with_wf. apply construct_wf. Qed.

(** ** Sorting and reordering *)

Lemma graph_frame_wf txs g g' : graph_wf txs g -> graph_frame g g' -> graph_wf txs g'.
Proof.
  intros [H1 H2 H3 H4 H5 H6 H7] [F1 F2 F3 F4]. pose proof (heap_frame_dom _ _ F1) as Hd.
  assert (forall a, is_Some (acg_addresses g' !! a) ↔ is_Some (acg_addresses g !! a)) as Ha.
  { intros a. specialize (F4 a). destruct F4; split; intros []; eauto; done. }
  split; rewrite ?F2, ?F3; try done.
  - by rewrite Hd.
  - intros i t' (t & (Ht1 & Ht2 & tx & Hin & [])%H3 & (?&?&?&?&?&?&?)%init_fields)%(heap_frame_lookup _ _ _ _ F1).
    split_and!; [congruence..|]. exists tx. split; [done|]. split; congruence.
  - intros i t' Hi (t & Ht & (_ & -> & _)%init_fields)%(heap_frame_lookup _ _ _ _ F1).
    by eapply H4.
  - intros i t' u (t & Ht & (_ & -> & _)%init_fields)%(heap_frame_lookup _ _ _ _ F1) Hu.
    apply Ha. by eapply H5.
  - intros a u (ad' & Had' & Hu)%elem_of_addr_units. rewrite Hd. apply H6, elem_of_addr_units.
    specialize (F4 a). rewrite Had' in F4. inversion F4 as [ad ? [? Hr Hw] E1 E2|]; subst.
    exists ad. split; [done|]. unfold ad_units in *. by rewrite Hr, Hw.
  - intros a ad' Had'. specialize (F4 a). rewrite Had' in F4.
    inversion F4 as [ad ? [Ek _ _] E1 E2|]; subst. rewrite <- Ek. by apply H7.
Qed.

(** What [ScheduledInfo] relies on: every transaction of the batch is either
    scheduled or aborted, and carries its simulation result. *)
Record holds (txs : list SimulatedTransaction) (g : AddressBasedConflictGraph) : Prop := {
  ho_ids : elements (acg_tx_list g) ++ acg_aborted_txs g ≡ₚ tx_ids txs;
  ho_dom : dom (acg_heap g) = list_to_set (tx_ids txs);
  ho_represents : forall i t, acg_heap g !! i = Some t ->
    t_id t = i ∧ itx_id (t_raw_tx t) = i ∧ exists tx, tx ∈ txs ∧ represents tx t
}.

Lemma reorderable_nonempty t : reorderable t = true -> t_write_units t ≠ [].
Proof. unfold reorderable. intros [_ H]%andb_true_iff E. by rewrite E in H. Qed.

Lemma reorder_seq_Some g t :
  t_write_units t ≠ [] ->
  (forall u, u ∈ t_write_units t -> is_Some (acg_addresses g !! unit_address u)) ->
  exists s, reorder_seq g t = Some s ∧
    forall u ad, u ∈ t_write_units t -> acg_addresses g !! unit_address u = Some ad ->
      address_max_seq ad <= s.
Proof.
  intros Hne Hall. unfold reorder_seq.
  destruct (mapM (fun u => address_max_seq <$> acg_addresses g !! unit_address u) (t_write_units t))
    as [seqs|] eqn:E; simpl.
  - apply mapM_Some in E. destruct E as [|u s us seqs Hs HF]; [done|].
    exists (foldl Z.max s seqs). split; [done|]. intros u' ad Hu' Had.
    assert (address_max_seq ad ∈ s :: seqs) as Hin.
    { assert (Forall2 (fun u s => address_max_seq <$> acg_addresses g !! unit_address u = Some s)
        (u :: us) (s :: seqs)) as HF' by (by constructor).
      apply list_elem_of_lookup in Hu' as [k Hk].
      destruct (Forall2_lookup_l _ _ _ _ _ HF' Hk) as (s' & Hs' & E').
      rewrite Had in E'. simpl in E'. simplify_eq. by eapply list_elem_of_lookup_2. }
    by apply foldl_max_le.
  - apply mapM_None in E. apply Exists_exists in E as (u & Hu & En).
    destruct (Hall u Hu) as [ad Had]. by rewrite Had in En.
Qed.

Lemma reorder_one_Some g tx t :
  acg_heap g !! tx = Some t -> t_write_units t ≠ [] ->
  (forall u, u ∈ t_write_units t -> is_Some (acg_addresses g !! unit_address u)) ->
  exists g', reorder_one g tx = Some g' ∧ heap_frame (acg_heap g) (acg_heap g') ∧
    acg_addresses g' = acg_addresses g ∧ acg_aborted_txs g' = acg_aborted_txs g ∧
    acg_tx_list g' = {[tx]} ∪ acg_tx_list g.
Proof.
  intros Ht Hne Hall. unfold reorder_one. rewrite Ht. simpl.
  destruct (reorder_seq_Some g t Hne Hall) as (s & -> & _). simpl.
  eexists. split_and!; [done| |done..]. simpl. apply map_eq. intros i. rewrite !lookup_fmap.
  destruct (decide (tx = i)) as [<-|?]; [by rewrite lookup_insert_eq, Ht|by rewrite lookup_insert_ne].
Qed.

Lemma reorder_all_Some g targets :
  (forall tx, tx ∈ targets -> exists t, acg_heap g !! tx = Some t ∧ t_write_units t ≠ [] ∧
     forall u, u ∈ t_write_units t -> is_Some (acg_addresses g !! unit_address u)) ->
  exists g', reorder_all g targets = Some g' ∧ heap_frame (acg_heap g) (acg_heap g') ∧
    acg_addresses g' = acg_addresses g ∧ acg_aborted_txs g' = acg_aborted_txs g ∧
    acg_tx_list g' = list_to_set targets ∪ acg_tx_list g.
Proof.
  revert g. induction targets as [|tx targets IH]; intros g Hall; simpl.
  - exists g. split_and!; [done..|]. set_solver.
  - destruct (Hall tx) as (t & Ht & Hne & Hu); [left|].
    destruct (reorder_one_Some g tx t Ht Hne Hu) as (g1 & -> & F1 & A1 & B1 & T1). simpl.
    destruct (IH g1) as (g2 & -> & F2 & A2 & B2 & T2).
    { intros tx' Hin. destruct (Hall tx') as (t' & Ht' & Hne' & Hu'); [by right|].
      symmetry in F1. destruct (heap_frame_lookup _ _ _ _ F1 Ht') as (t1 & Ht1 & E).
      exists t1. apply init_fields in E as (_ & E & _). rewrite <- E, A1. done. }
    exists g2. split_and!; [done|by etransitivity|congruence..|].
    rewrite T2, T1. set_solver.
Qed.

Lemma reorder_holds txs g :
  NoDup (tx_ids txs) -> graph_wf txs g ->
  exists g', reorder g = Some g' ∧ holds txs g'.
Proof.
  intros Hnd W. unfold reorder, extract_aborted_txs. cbn [acg_heap acg_addresses acg_tx_list].
  set (idx := filter _ (elements (acg_tx_list g))).
  set (extracted := sort_by_key id (acg_aborted_txs g ++ idx)).
  pose proof (partition_by_Permutation (tx_reorderable (acg_heap g)) extracted) as HP.
  assert (extracted ≡ₚ acg_aborted_txs g ++ idx) as HE by apply sort_by_key_Permutation.
  assert (elements (acg_tx_list g ∖ list_to_set idx) ++ idx ≡ₚ elements (acg_tx_list g)) as HX.
  { apply elements_difference_filter. }
  destruct (partition_by _ extracted) as [targets rest] eqn:Ep. simpl in HP.
  destruct (reorder_all_Some (mkACG (acg_addresses g) (acg_tx_list g ∖ list_to_set idx) rest
    (acg_heap g)) targets) as (g' & -> & F & A & B & T); cbn [acg_heap acg_addresses acg_tx_list] in *.
  { intros tx Hin. assert (tx_reorderable (acg_heap g) tx = true) as Hr.
    { unfold partition_by in Ep. simplify_eq. by apply list_elem_of_filter in Hin as [? _]. }
    unfold tx_reorderable in Hr. destruct (acg_heap g !! tx) as [t|] eqn:Ht; [|done].
    exists t. split_and!; [done|by apply reorderable_nonempty|].
    intros u. by apply (gw_write_units _ _ W tx). }
  exists g'. split; [done|].
  assert (elements (acg_tx_list g') ++ rest ≡ₚ tx_ids txs) as Hids.
  { rewrite T, <- (gw_ids _ _ W), <- HX, <- app_assoc, (Permutation_app_comm idx), <- HE, <- HP.
    rewrite app_assoc. f_equiv.
    assert (NoDup (elements (acg_tx_list g ∖ list_to_set idx) ++ targets ++ rest)) as Hn.
    { rewrite HP, HE, (Permutation_app_comm (acg_aborted_txs g)), app_assoc, HX, (gw_ids _ _ W). done. }
    apply NoDup_app in Hn as (_ & Hd & (Ht & _)%NoDup_app).
    rewrite elements_disj_union.
    - rewrite elements_list_to_set by done. apply Permutation_app_comm.
    - intros i Hi1%elem_of_list_to_set Hi2. apply (Hd i); [by apply elem_of_elements|set_solver]. }
  split; [by rewrite B| |].
  - rewrite (heap_frame_dom _ _ F). apply (gw_dom _ _ W).
  - intros i t' (t & (Ht1 & Ht2 & tx & Hin & [])%(gw_represents _ _ W) &
      (?&?&?&?&?&?&?)%init_fields)%(heap_frame_lookup _ _ _ _ F).
    split_and!; [congruence..|]. exists tx. split; [done|]. split; congruence.
Qed.

(** ** From the graph to the schedule *)

Lemma omap_heap_ids (h : heap) (l : list Z) :
  (forall i, i ∈ l -> exists t, h !! i = Some t ∧ t_id t = i) ->
  t_id <$> omap (fun i => h !! i) l = l.
Proof.
  induction l as [|i l IH]; intros H; [done|]. simpl.
  destruct (H i) as (t & Ht & Hi); [left|]. rewrite Ht. csimpl. rewrite Hi, IH; [done|].
  intros j Hj. apply H. by right.
Qed.

Lemma take_schedule_holds txs g :
  holds txs g ->
  let '(tx_list, aborted_txs) := take_schedule g in
  (t_id <$> tx_list) ++ (t_id <$> aborted_txs) ≡ₚ tx_ids txs ∧
  forall t, t ∈ tx_list ∨ t ∈ aborted_txs ->
    t_id t = itx_id (t_raw_tx t) ∧ exists tx, tx ∈ txs ∧ represents tx t.
Proof.
  intros [H1 H2 H3]. unfold take_schedule.
  assert (forall i, i ∈ elements (acg_tx_list g) ++ acg_aborted_txs g ->
    exists t, acg_heap g !! i = Some t ∧ t_id t = i) as Hl.
  { intros i Hi. rewrite H1 in Hi.
    assert (i ∈ dom (acg_heap g)) as [t Ht]%elem_of_dom.
    { rewrite H2. by apply elem_of_list_to_set. }
    exists t. split; [done|]. by apply H3 in Ht as (? & _). }
  split.
  - rewrite !omap_heap_ids; [done|..]; intros i Hi; apply Hl, elem_of_app; auto.
  - assert (forall (l : list Z) t, t ∈ omap (fun id => acg_heap g !! id) l ->
      t_id t = itx_id (t_raw_tx t) ∧ exists tx, tx ∈ txs ∧ represents tx t) as Hr.
    { intros l t (i & _ & Ht)%list_elem_of_omap. apply H3 in Ht as (? & ? & ?).
      split; [congruence|done]. }
    intros t [Ht|Ht]; by eapply Hr.
Qed.

Lemma schedule_graph_reordered lcw dr txs g s :
  NoDup (tx_ids txs) -> graph_wf txs g -> schedule_graph lcw dr g = Some s ->
  exists g', holds txs g' ∧ extract_schedule dr g' = Some s.
Proof.
  intros Hnd W. unfold schedule_graph.
  destruct (reorder_holds txs (hierarchcial_sort lcw g) Hnd) as (g' & -> & Hh).
  { eapply graph_frame_wf; [done|apply hierarchcial_sort_frame]. }
  simpl. eauto.
Qed.

Lemma represents_finalized tx t :
  represents tx t -> t_id t = itx_id (t_raw_tx t) ->
  to_finalized t = FinalizedTransaction_new (itx_id (sim_raw_tx tx)) (sim_effects tx).
Proof. intros [E1 E2 _ _ _] Hid. unfold to_finalized. by rewrite Hid, E1, E2. Qed.

Lemma represents_aborted tx t :
  represents tx t ->
  to_aborted t = AbortedTransaction_new (sim_raw_tx tx)
    (extract_read_set (sim_rw_set tx)) (extract_write_set (sim_rw_set tx)).
Proof.
  intros [E1 _ _ E4 E5]. unfold to_aborted, AbortInfo_read_keys, AbortInfo_write_keys.
  by rewrite E1, E4, E5.
Qed.

Lemma schedule_graph_conservation lcw txs g s :
  NoDup (tx_ids txs) -> graph_wf txs g -> schedule_graph lcw false g = Some s ->
  (fin_id <$> concat (first_pass_epochs s)) ++
  (AbortedTransaction_id <$> concat (conflict_zone_aborted s)) ≡ₚ tx_ids txs ∧
  (forall f, f ∈ concat (first_pass_epochs s) -> exists tx, tx ∈ txs ∧
     f = FinalizedTransaction_new (itx_id (sim_raw_tx tx)) (sim_effects tx)) ∧
  (forall a, a ∈ concat (conflict_zone_aborted s) -> exists tx, tx ∈ txs ∧
     a = AbortedTransaction_new (sim_raw_tx tx)
           (extract_read_set (sim_rw_set tx)) (extract_write_set (sim_rw_set tx))).
Proof.
  intros Hnd W Hs. destruct (schedule_graph_reordered _ _ _ _ _ Hnd W Hs) as (g' & Hh & Hx).
  pose proof (take_schedule_holds _ _ Hh) as Ht. unfold extract_schedule in Hx.
  destruct (take_schedule g') as [tx_list aborted_txs]. destruct Ht as [Hp Hr].
  apply build_cds_schedule_Permutation in Hx as [P1 P2]. split_and!.
  - rewrite P1, P2, <- !list_fmap_compose, <- Hp.
    apply Permutation_app; [done|]. apply reflexive_eq, list_fmap_ext.
    intros _ t Ht%list_elem_of_lookup_2. simpl. symmetry. apply Hr. auto.
  - intros f Hf. rewrite P1 in Hf. apply list_elem_of_fmap in Hf as (t & -> & Ht).
    destruct (Hr t) as (Hid & tx & Hin & R); [auto|]. exists tx. split; [done|].
    by apply represents_finalized.
  - intros a Ha. rewrite P2 in Ha. apply list_elem_of_fmap in Ha as (t & -> & Ht).
    destruct (Hr t) as (Hid & tx & Hin & R); [auto|]. exists tx. split; [done|].
    by apply represents_aborted.
Qed.

(** ** Theorems *)

(** C38. Graph construction admits and aborts exactly the transactions of the
    first-updater-wins reference: in batch order, a transaction is aborted if
    and only if some slot that it both reads and writes in one contract is, as a
    slot number of whatever contract, also both read and written in one contract
    by a transaction admitted before it. *)
Theorem construct_first_updater_wins txs :
  acg_tx_list (construct txs) = list_to_set (first_updaters txs).1.1 ∧
  acg_aborted_txs (construct txs) = (first_updaters txs).1.2.
Proof. destruct (construct_claims txs) as [H1 H2 _]. done. Qed.

(** Parallel construction of a batch with distinct ids returns a graph if and
    only if the batch is not empty; on an empty simulation result its final
    [unwrap] panics. *)
Theorem par_construct_total ncpu txs :
  NoDup (tx_ids txs) -> is_Some (par_construct ncpu txs) ↔ txs ≠ [].
Proof.
  intros Hnd. split.
  - intros [g Hg] ->. done.
  - intros Hne. destruct (par_construct_wf ncpu txs Hne Hnd) as (g & -> & _). eauto.
Qed.

Lemma par_construct_total_witness :
  is_Some (par_construct 4 [sample_simulated 1 [1] [2]]) ↔ [sample_simulated 1 [1] [2]] ≠ [].
Proof.
  apply (par_construct_total 4 [sample_simulated 1 [1] [2]]).
  apply NoDup_cons_2; [by apply not_elem_of_nil|apply NoDup_nil_2].
Defined.

(** C2. No transaction is lost or duplicated between simulation and schedule:
    whatever the number of cores, the finalized and aborted transactions of the
    schedule together carry each id of the batch once; a finalized one carries
    the effects of its simulation, an aborted one its raw transaction and keys. *)
Theorem schedule_conserves_transactions ncpu lcw txs g s :
  NoDup (tx_ids txs) -> par_construct ncpu txs = Some g -> schedule_graph lcw false g = Some s ->
  (fin_id <$> concat (first_pass_epochs s)) ++
  (AbortedTransaction_id <$> concat (conflict_zone_aborted s)) ≡ₚ tx_ids txs ∧
  (forall f, f ∈ concat (first_pass_epochs s) -> exists tx, tx ∈ txs ∧
     f = FinalizedTransaction_new (itx_id (sim_raw_tx tx)) (sim_effects tx)) ∧
  (forall a, a ∈ concat (conflict_zone_aborted s) -> exists tx, tx ∈ txs ∧
     a = AbortedTransaction_new (sim_raw_tx tx)
           (extract_read_set (sim_rw_set tx)) (extract_write_set (sim_rw_set tx))).
Proof.
  intros Hnd Hg Hs. eapply schedule_graph_conservation; [done| |done].
  destruct (par_construct_wf ncpu txs) as (g' & Hg' & W); [|done|congruence].
  intros ->. done.
Qed.

Lemma schedule_conserves_transactions_witness :
  let txs := [sample_simulated 1 [2] [1]; sample_simulated 2 [3] [2]; sample_simulated 3 [1] [3]] in
  exists g s, par_construct 2 txs = Some g ∧ schedule_graph false false g = Some s ∧
    (fin_id <$> concat (first_pass_epochs s)) ++
    (AbortedTransaction_id <$> concat (conflict_zone_aborted s)) ≡ₚ tx_ids txs.
Proof.
  eexists _, _. split; [vm_compute; reflexivity|]. split; [vm_compute; reflexivity|].
  eapply (schedule_conserves_transactions 2 false
    [sample_simulated 1 [2] [1]; sample_simulated 2 [3] [2]; sample_simulated 3 [1] [3]]).
  - apply (bool_decide_unpack _). vm_compute. exact I.
  - vm_compute. reflexivity.
  - vm_compute. reflexivity.
Defined.

(** [reorder] never panics on a graph built from a batch: every address it
    looks up exists and every reordered transaction has a write unit. *)
Theorem reorder_never_panics ncpu lcw txs g :
  NoDup (tx_ids txs) -> par_construct ncpu txs = Some g ->
  is_Some (reorder (hierarchcial_sort lcw g)).
Proof.
  intros Hnd Hg.
  destruct (par_construct_wf ncpu txs) as (g' & Hg' & W); [by intros ->|done|].
  assert (g' = g) as -> by congruence.
  destruct (reorder_holds txs (hierarchcial_sort lcw g) Hnd) as (r & -> & _); [|by eauto].
  eapply graph_frame_wf; [done|apply hierarchcial_sort_frame].
Qed.

Lemma reorder_never_panics_witness :
  exists g, par_construct 2 [sample_simulated 1 [] [1; 2]; sample_simulated 2 [2] [1]] = Some g ∧
    is_Some (reorder (hierarchcial_sort false g)).
Proof.
  eexists. split; [vm_compute; reflexivity|].
  eapply (reorder_never_panics 2 false [sample_simulated 1 [] [1; 2]; sample_simulated 2 [2] [1]]).
  - apply (bool_decide_unpack _). vm_compute. exact I.
  - vm_compute. reflexivity.
Defined.

(** Two transactions that read each other's output slot, each with one more,
    write-only slot. *)
Definition cyclic_batch : list SimulatedTransaction :=
  [sample_simulated 1 [1] [2; 3]; sample_simulated 2 [2] [1; 4]].

(** The sort lets two mutually dependent transactions share a wave: their
    write-only slots are sorted first and give both the sequence 2, which
    passes the later [sequence < max_seq] tests, so chain extraction meets a
    cycle and panics, whatever the number of cores. *)
Theorem cyclic_batch_panics ncpu :
  (g ← par_construct ncpu cyclic_batch; schedule_graph false false g) = None.
Proof.
  assert (Nat.max (2 / ncpu) 1 = 1%nat ∨ Nat.max (2 / ncpu) 1 = 2%nat) as H.
  { destruct ncpu as [|[|[|n]]]; [left|right|left|left]; reflexivity. }
  unfold par_construct, par_construct_with. change (length cyclic_batch) with 2%nat.
  destruct H as [-> | ->]; vm_compute; reflexivity.
Qed.

(** Transaction 1 updates slot 1 and reads slot 2; transaction 4 reads slot 1 and
    writes slot 2.  Transaction 3, in the chunk of 4, also updates slot 1. *)
Definition skew_batch : list SimulatedTransaction :=
  [sample_simulated 1 [1; 2] [1]; sample_simulated 2 [8] [9];
   sample_simulated 3 [1] [1]; sample_simulated 4 [1] [2]].

Definition committed_ids (s : ScheduledInfo) : list Z := fin_id <$> concat (first_pass_epochs s).

(** Merging sub-graphs drops units: when both sides hold an updater of a
    slot, every unit of the right side is discarded, readers included.  On two
    cores transactions 1 and 4, each of which reads what the other writes, both
    commit; sequential construction aborts 4. *)
Theorem merge_drops_readers :
  (committed_ids <$> (g ← par_construct 2 skew_batch; schedule_graph false false g))
    = Some [1; 2; 4] ∧
  (committed_ids <$> schedule_graph false false (construct skew_batch)) = Some [1; 2].
Proof. split; vm_compute; reflexivity. Qed.

(** Transactions 1 and 2 write slot 10; transaction 2 reads slot 11, which 1
    writes. *)
Definition wave_order_batch : list SimulatedTransaction :=
  [sample_simulated 1 [] [10; 11]; sample_simulated 2 [11] [10; 12]; sample_simulated 3 [12] [13]].

(** The conflict zone is ordered by transaction id, not by commit wave: here
    transaction 2, which read slot 11 before transaction 1 writes it, has the
    smaller sequence, yet 1 is committed first and 2 overwrites its value of
    slot 10, the result of no serial order. *)
Theorem conflict_zone_ignores_waves :
  ((fun g => (tx_sequence (acg_heap g) 2, tx_sequence (acg_heap g) 1)) <$>
     reorder (hierarchcial_sort false (construct wave_order_batch))) = Some (3, 4) ∧
  (schedule_ids <$> schedule_graph false false (construct wave_order_batch)) =
    Some ([[3]], [[1]; [2]], []).
Proof. split; vm_compute; reflexivity. Qed.
