(* ===== verification/SortProps.v ===== *)
(** * The order the hierarchical sort establishes

    Lemmas about [ReadUnits_sort], [WriteUnits_sort] and [sort_address]
    (address_based_conflict_graph.rs): the readers of a slot are ordered before
    its writers, the newly ordered writers get fresh sequence numbers, and the
    sequence numbers stay below a bound linear in the number of write units, so
    the u32 counters of the source do not wrap. *)

From S2P Require Import Prelude Types ConflictGraph CdsScheduler GraphProps.
Local Open Scope Z_scope.

(** ** Sequences and abort flags after one update *)

Lemma tx_sequence_set h u s i :
  is_Some (h !! unit_tx u) ->
  tx_sequence (unit_set_sequence h u s) i =
  if decide (i = unit_tx u) then s else tx_sequence h i.
Proof.
  intros [t Ht]. unfold tx_sequence, unit_set_sequence. case_decide as Hi.
  - subst i. by rewrite lookup_alter_eq, Ht.
  - by rewrite lookup_alter_ne.
Qed.

Lemma tx_aborted_set h u s i : tx_aborted (unit_set_sequence h u s) i = tx_aborted h i.
Proof.
  unfold tx_aborted, unit_set_sequence. destruct (decide (unit_tx u = i)) as [<-|Hne].
  - rewrite lookup_alter_eq. by destruct (h !! unit_tx u).
  - by rewrite lookup_alter_ne.
Qed.

Lemma tx_sequence_abort h u i : tx_sequence (unit_abort_tx h u) i = tx_sequence h i.
Proof.
  unfold tx_sequence, unit_abort_tx. destruct (decide (unit_tx u = i)) as [<-|Hne].
  - rewrite lookup_alter_eq. by destruct (h !! unit_tx u).
  - by rewrite lookup_alter_ne.
Qed.

Lemma tx_aborted_abort h u i :
  is_Some (h !! unit_tx u) ->
  tx_aborted (unit_abort_tx h u) i = bool_decide (i = unit_tx u) || tx_aborted h i.
Proof.
  intros [t Ht]. unfold tx_aborted, unit_abort_tx. case_bool_decide as Hi.
  - subst i. by rewrite lookup_alter_eq, Ht.
  - by rewrite lookup_alter_ne.
Qed.

Lemma frame_is_Some h h' i : heap_frame h h' -> is_Some (h' !! i) ↔ is_Some (h !! i).
Proof. intros H%heap_frame_dom. by rewrite <- !elem_of_dom, H. Qed.

Lemma unit_is_sorted_spec h u :
  is_Some (h !! unit_tx u) ->
  unit_is_sorted h u = true ↔ unit_sequence h u ≠ 0 ∨ unit_aborted h u = true.
Proof.
  intros [t Ht]. unfold unit_is_sorted, unit_sequence, unit_aborted, tx_sequence, tx_aborted.
  rewrite Ht. unfold Transaction_is_sorted. rewrite orb_true_iff, negb_true_iff, Z.eqb_neq. done.
Qed.

Lemma unit_is_sorted_tx h u v : unit_tx u = unit_tx v -> unit_is_sorted h u = unit_is_sorted h v.
Proof. unfold unit_is_sorted. by intros ->. Qed.

(** ** Reads *)

Lemma set_sequences_spec h us s i :
  (forall u, u ∈ us -> is_Some (h !! unit_tx u)) ->
  tx_sequence (set_sequences h us s) i =
    (if decide (i ∈ unit_tx <$> us) then s else tx_sequence h i) ∧
  tx_aborted (set_sequences h us s) i = tx_aborted h i.
Proof.
  unfold set_sequences. revert h. induction us as [|u us IH]; intros h Hd; cbn [foldl].
  - rewrite decide_False by apply not_elem_of_nil. done.
  - assert (is_Some (h !! unit_tx u)) as Hu by (apply Hd; left).
    destruct (IH (unit_set_sequence h u s)) as [E1 E2].
    { intros v Hv. eapply (frame_is_Some h); [auto with graph|]. apply Hd. by right. }
    rewrite E1, E2, tx_sequence_set, tx_aborted_set by done. split; [|done].
    rewrite fmap_cons. destruct (decide (i ∈ unit_tx <$> us)) as [H|H].
    + rewrite decide_True; [done|]. by right.
    + destruct (decide (i = unit_tx u)) as [->|Hne].
      * rewrite decide_True; [done|]. left.
      * rewrite decide_False; [done|]. by rewrite not_elem_of_cons.
Qed.

Lemma minmax_spec l mn mx :
  minmax l = Some (mn, mx) -> mn ∈ l ∧ mx ∈ l ∧ forall x, x ∈ l -> mn <= x <= mx.
Proof.
  destruct l as [|x l]; [done|]. intros [= <- <-]. split_and!.
  - apply foldl_min_elem_of.
  - apply foldl_max_elem_of.
  - intros y Hy. split; [by apply foldl_min_le|by apply foldl_max_le].
Qed.

Lemma minmax_None l : minmax l = None -> l = [].
Proof. by destruct l. Qed.

(** The range [ReadUnits_sort] computes over the live readers already sorted. *)
Lemma read_range_spec h us :
  (forall u, u ∈ us -> is_Some (h !! unit_tx u)) ->
  let sorted := filter (fun u => unit_is_sorted h u = true) us in
  exists mn mx, match minmax (unit_sequence h <$> live_units h sorted) with
    | Some mm => mm | None => (1, 1) end = (mn, mx) ∧ mn ≠ 0 ∧ mn <= mx ∧
    forall u, u ∈ sorted -> unit_aborted h u = false -> unit_sequence h u <= mx.
Proof.
  intros Hd sorted.
  assert (forall u, u ∈ sorted -> unit_aborted h u = false ->
    unit_sequence h u ∈ unit_sequence h <$> live_units h sorted) as Hin.
  { intros u Hu Ha. apply list_elem_of_fmap_2. by apply list_elem_of_filter. }
  destruct (minmax _) as [[mn mx]|] eqn:E.
  - apply minmax_spec in E as (H1 & H2 & H3). exists mn, mx. split_and!; [done| |by apply H3|].
    + apply list_elem_of_fmap in H1 as (u & -> & [Ha Hu]%list_elem_of_filter).
      apply list_elem_of_filter in Hu as [Hs Hu].
      apply unit_is_sorted_spec in Hs as [?|?]; [done|congruence|by apply Hd].
    + intros u Hu Ha. apply H3. auto.
  - apply minmax_None in E. exists 1, 1. split_and!; [done|lia..|].
    intros u Hu Ha. specialize (Hin u Hu Ha). rewrite E in Hin. by apply elem_of_nil in Hin.
Qed.

(** After [ReadUnits_sort], every reader is ordered, none later than [max_seq]
    unless aborted. *)
Lemma ReadUnits_sort_order h ru :
  (forall u, u ∈ ru_units ru -> is_Some (h !! unit_tx u)) ->
  let '(h1, ru1) := ReadUnits_sort h ru in
  (forall i, tx_aborted h1 i = tx_aborted h i) ∧
  (forall i, i ∉ unit_tx <$> ru_units ru -> tx_sequence h1 i = tx_sequence h i) ∧
  (forall u, u ∈ ru_units ru -> unit_is_sorted h1 u = true) ∧
  (forall u, u ∈ ru_units ru -> unit_aborted h1 u = false -> unit_sequence h1 u <= ru_max_seq ru1) ∧
  (forall u, unit_is_sorted h u = true -> unit_sequence h1 u = unit_sequence h u).
Proof.
  intros Hd. unfold ReadUnits_sort. cbn [partition_by].
  set (sorted := filter (fun u => unit_is_sorted h u = true) (ru_units ru)).
  set (remaining := filter (fun u => unit_is_sorted h u = false) (ru_units ru)).
  destruct (read_range_spec h (ru_units ru) Hd) as (mn & mx & E & Hmn & Hle & Hmax).
  fold sorted in E, Hmax.
  rewrite E.
  assert (forall u, u ∈ remaining -> is_Some (h !! unit_tx u)) as Hd'.
  { intros u [_ Hu]%list_elem_of_filter. by apply Hd. }
  assert (forall u, u ∈ ru_units ru -> unit_is_sorted h u = false -> unit_tx u ∈ unit_tx <$> remaining) as Hrem.
  { intros u Hu Hs. apply list_elem_of_fmap_2. by apply list_elem_of_filter. }
  assert (forall u, unit_is_sorted h u = true -> unit_tx u ∉ unit_tx <$> remaining) as Hsor.
  { intros u Hs (v & Hv & [Hv' _]%list_elem_of_filter)%list_elem_of_fmap.
    rewrite (unit_is_sorted_tx h u v Hv) in Hs. congruence. }
  assert (forall u, unit_is_sorted h u = true ->
    unit_sequence (set_sequences h remaining mn) u = unit_sequence h u) as Hkeep.
  { intros u Hs. unfold unit_sequence. destruct (set_sequences_spec h remaining mn (unit_tx u) Hd') as [-> _].
    by rewrite decide_False by auto. }
  assert (forall u, u ∈ ru_units ru -> unit_is_sorted h u = false ->
    unit_sequence (set_sequences h remaining mn) u = mn) as Hnew.
  { intros u Hu Hs. unfold unit_sequence. destruct (set_sequences_spec h remaining mn (unit_tx u) Hd') as [-> _].
    by rewrite decide_True by auto. }
  split_and!; try done.
  - intros i. by apply set_sequences_spec.
  - intros i Hi. destruct (set_sequences_spec h remaining mn i Hd') as [-> _].
    rewrite decide_False; [done|]. intros (u & -> & [_ Hu]%list_elem_of_filter)%list_elem_of_fmap.
    auto with chase.
  - intros u Hu. apply unit_is_sorted_spec.
    { eapply frame_is_Some; [|by apply Hd]. apply heap_frame_foldl. auto with graph. }
    destruct (unit_is_sorted h u) eqn:Hs.
    + rewrite Hkeep by done. apply unit_is_sorted_spec in Hs as [?|?]; [by left| |by apply Hd].
      right. unfold unit_aborted. by rewrite (proj2 (set_sequences_spec h remaining mn (unit_tx u) Hd')).
    + left. by rewrite Hnew.
  - intros u Hu Ha. unfold unit_aborted in Ha.
    rewrite (proj2 (set_sequences_spec h remaining mn (unit_tx u) Hd')) in Ha. cbn [ru_max_seq].
    destruct (unit_is_sorted h u) eqn:Hs.
    + rewrite Hkeep by done. apply Hmax; [by apply list_elem_of_filter|done].
    + rewrite Hnew by done. done.
Qed.

Lemma ReadUnits_sort_bound h ru B :
  1 <= B -> (forall i, tx_sequence h i <= B) ->
  (forall u, u ∈ ru_units ru -> is_Some (h !! unit_tx u)) ->
  (forall i, tx_sequence (ReadUnits_sort h ru).1 i <= B) ∧ ru_max_seq (ReadUnits_sort h ru).2 <= B.
Proof.
  intros HB1 HB Hd. unfold ReadUnits_sort. cbn [partition_by].
  set (sorted := filter (fun u => unit_is_sorted h u = true) (ru_units ru)).
  set (remaining := filter (fun u => unit_is_sorted h u = false) (ru_units ru)).
  assert (forall u, u ∈ remaining -> is_Some (h !! unit_tx u)) as Hd'.
  { intros u [_ Hu]%list_elem_of_filter. by apply Hd. }
  assert (match minmax (unit_sequence h <$> live_units h sorted) with
          | Some mm => mm | None => (1, 1) end.1 <= B ∧
          match minmax (unit_sequence h <$> live_units h sorted) with
          | Some mm => mm | None => (1, 1) end.2 <= B) as [H1 H2].
  { destruct (minmax _) as [[mn mx]|] eqn:E; simpl; [|lia].
    apply minmax_spec in E as (Hmn & Hmx & _).
    apply list_elem_of_fmap in Hmn as (u & -> & _), Hmx as (u' & -> & _). split; apply HB. }
  destruct (match minmax _ with Some mm => mm | None => (1, 1) end) as [mn mx]. simpl in *.
  split; [|done]. intros i. rewrite (proj1 (set_sequences_spec h remaining mn i Hd')).
  case_decide; [done|apply HB].
Qed.

(** ** Writes: the updaters *)

(** The state after the updater loop over [us], from [(h, m, f)]. *)
Record updated (us : list Unit) (h : heap) (m : Z) (h' : heap) (m' : Z) : Prop := {
  up_max : m <= m' <= m + Z.of_nat (length us);
  up_seq : forall i, tx_sequence h' i = tx_sequence h i ∨
             (i ∈ unit_tx <$> us ∧ m < tx_sequence h' i <= m');
  up_aborted : forall i, tx_aborted h i = true -> tx_aborted h' i = true;
  up_frame : heap_frame h h'
}.

Lemma fold_updater_updated lcw us h m f :
  (forall u, u ∈ us -> is_Some (h !! unit_tx u)) ->
  let '(h', m', f') := foldl (updater_step lcw) (h, m, f) us in updated us h m h' m'.
Proof.
  revert h m f. induction us as [|u us IH]; intros h m f Hd; cbn [foldl].
  - split; [simpl; lia|auto..]. done.
  - assert (is_Some (h !! unit_tx u)) as Hu by (apply Hd; left).
    assert (exists h1 m1 f1, updater_step lcw (h, m, f) u = (h1, m1, f1) ∧ updated [u] h m h1 m1)
      as (h1 & m1 & f1 & -> & [M1 S1 A1 F1]).
    { assert (updated [u] h m h m) as H0 by (split; [simpl; lia|auto|auto|done]).
      assert (updated [u] h m (unit_set_sequence h u (m + 1)) (m + 1)) as H1.
      { split; [simpl; lia| | |auto with graph].
        - intros i. rewrite tx_sequence_set by done. case_decide as Hi; [|by left].
          right. subst i. split; [set_solver|lia].
        - intros i. by rewrite tx_aborted_set. }
      assert (updated [u] h m (unit_abort_tx h u) m) as H2.
      { split; [simpl; lia| | |auto with graph].
        - intros i. rewrite tx_sequence_abort. by left.
        - intros i Hi. rewrite tx_aborted_abort by done. rewrite Hi. by rewrite orb_true_r. }
      unfold updater_step. repeat case_match; eauto 10. }
    specialize (IH h1 m1 f1). destruct (foldl _ _ us) as [[h' m'] f'].
    destruct IH as [M2 S2 A2 F2].
    { intros v Hv. apply (frame_is_Some _ _ _ F1), Hd. by right. }
    split; [simpl in *; lia| |auto|by etransitivity].
    intros i. rewrite fmap_cons. destruct (S2 i) as [->|[Hi ?]].
    + destruct (S1 i) as [->|[Hi ?]]; [by left|right]. split; [set_solver|lia].
    + right. split; [by right|lia].
Qed.

(** ** Writes: aborting the early ones *)

Lemma abort_early_spec m us h :
  (forall u, u ∈ us -> is_Some (h !! unit_tx u)) ->
  let h' := foldl (abort_early_step m) h us in
  (forall i, tx_sequence h' i = tx_sequence h i) ∧
  (forall i, tx_aborted h i = true -> tx_aborted h' i = true) ∧
  (forall u, u ∈ us -> unit_aborted h' u = false -> m <= unit_sequence h u).
Proof.
  revert h. induction us as [|u us IH]; intros h Hd; cbn [foldl].
  - split_and!; [done..|]. by intros u ?%elem_of_nil.
  - assert (is_Some (h !! unit_tx u)) as Hu by (apply Hd; left).
    assert ((forall i, tx_sequence (abort_early_step m h u) i = tx_sequence h i) ∧
      (forall i, tx_aborted h i = true -> tx_aborted (abort_early_step m h u) i = true) ∧
      (unit_aborted (abort_early_step m h u) u = false -> m <= unit_sequence h u) ∧
      heap_frame h (abort_early_step m h u)) as (S1 & A1 & L1 & F1).
    { unfold abort_early_step. destruct (unit_aborted h u) eqn:Ea.
      { split_and!; [done..| |done]. by rewrite Ea. }
      destruct (unit_sequence h u <? m) eqn:El.
      - split_and!; [apply tx_sequence_abort| | |auto with graph].
        + intros i Hi. rewrite tx_aborted_abort by done. by rewrite Hi, orb_true_r.
        + unfold unit_aborted. rewrite tx_aborted_abort by done. by rewrite bool_decide_eq_true_2.
      - split_and!; [done..| |done]. lia. }
    destruct (IH (abort_early_step m h u)) as (S2 & A2 & L2).
    { intros v Hv. apply (frame_is_Some _ _ _ F1), Hd. by right. }
    split_and!.
    + intros i. by rewrite S2, S1.
    + auto.
    + intros v [->|Hv]%elem_of_cons Hl.
      * apply L1. apply not_true_iff_false. intros Ht%A2. unfold unit_aborted in Hl. congruence.
      * specialize (L2 v Hv Hl). unfold unit_sequence in *. by rewrite S1 in L2.
Qed.

(** ** Writes: fresh sequences *)

Lemma next_free_seq_ge fuel used s : s <= next_free_seq fuel used s.
Proof.
  revert s. induction fuel as [|fuel IH]; intros s; simpl; [done|].
  case_decide; [|done]. specialize (IH (s + 1)). lia.
Qed.

Lemma next_free_seq_between fuel used s x :
  s <= x < next_free_seq fuel used s -> x ∈ used.
Proof.
  revert s. induction fuel as [|fuel IH]; intros s; simpl; [lia|].
  case_decide as Hs; [|lia]. intros Hx.
  destruct (decide (x = s)) as [->|Hne]; [done|]. apply (IH (s + 1)). lia.
Qed.

(** [size used + 1] probes reach a number outside the set: the source's
    unbounded [while] loop stops there. *)
Lemma next_free_seq_fresh used s : next_free_seq (S (size used)) used s ∉ used.
Proof.
  assert (forall fuel s, next_free_seq fuel used s ∈ used ->
    forall x, s <= x <= s + Z.of_nat fuel -> x ∈ used) as Hall.
  { clear s. induction fuel as [|fuel IH]; intros s; simpl.
    - intros H x Hx. by replace x with s by lia.
    - case_decide as Hs; [|done]. intros H x Hx.
      destruct (decide (x = s)) as [->|Hne]; [done|]. apply (IH (s + 1)); [done|lia]. }
  intros H. specialize (Hall _ _ H).
  assert ((list_to_set (seqZ s (Z.of_nat (S (size used)))) : gset Z) ⊆ used) as Hsub.
  { intros x Hx%elem_of_list_to_set. apply elem_of_seqZ in Hx. apply Hall. lia. }
  apply subseteq_size in Hsub. rewrite size_list_to_set in Hsub by apply NoDup_seqZ.
  rewrite length_seqZ in Hsub. lia.
Qed.

Record assigned (us : list Unit) (h : heap) (s : Z) (used : gset Z) (h' : heap) (s' : Z) : Prop := {
  as_other : forall i, i ∉ unit_tx <$> us -> tx_sequence h' i = tx_sequence h i;
  as_aborted : forall i, tx_aborted h' i = tx_aborted h i;
  as_ge : s <= s';
  as_fresh : forall i, i ∈ unit_tx <$> us -> s <= tx_sequence h' i ∧ tx_sequence h' i ∉ used;
  as_distinct : forall i j, i ∈ unit_tx <$> us -> j ∈ unit_tx <$> us -> i ≠ j ->
    tx_sequence h' i ≠ tx_sequence h' j;
  as_bound : forall B, (forall x, x ∈ used -> x <= B) -> s <= B + 1 ->
    s' <= Z.max s (B + Z.of_nat (length us)) ∧
    forall i, i ∈ unit_tx <$> us -> tx_sequence h' i <= B + Z.of_nat (length us)
}.

Lemma assigned_cons u us h s used h' s' :
  let s1 := next_free_seq (S (size used)) used s in
  is_Some (h !! unit_tx u) ->
  assigned us (unit_set_sequence h u s1) s1 ({[s1]} ∪ used) h' s' ->
  assigned (u :: us) h s used h' s'.
Proof.
  intros s1 Hu [O A G F D B].
  pose proof (next_free_seq_ge (S (size used)) used s) as Hge.
  pose proof (next_free_seq_fresh used s) as Hfr.
  pose proof (next_free_seq_between (S (size used)) used s) as Hbt.
  fold s1 in Hge, Hfr, Hbt.
  assert (unit_tx u ∉ unit_tx <$> us -> tx_sequence h' (unit_tx u) = s1) as Hs1.
  { intros Hn. rewrite O by done. rewrite tx_sequence_set by done. by rewrite decide_True. }
  split.
  - intros i [Hne Hi]%not_elem_of_cons. rewrite O, tx_sequence_set by done. by rewrite decide_False.
  - intros i. by rewrite A, tx_aborted_set.
  - lia.
  - intros i Hi. destruct (decide (i ∈ unit_tx <$> us)) as [Hin|Hn].
    + destruct (F i Hin). split; [lia|set_solver].
    + apply elem_of_cons in Hi as [->|?]; [|done]. rewrite Hs1 by done. done.
  - intros i j Hi Hj Hne. rewrite fmap_cons in Hi, Hj.
    destruct (decide (i ∈ unit_tx <$> us)) as [Hi'|Hi'], (decide (j ∈ unit_tx <$> us)) as [Hj'|Hj'].
    + by apply D.
    + apply elem_of_cons in Hj as [->|?]; [|done]. rewrite (Hs1 Hj').
      destruct (F i Hi'). set_solver.
    + apply elem_of_cons in Hi as [->|?]; [|done]. rewrite (Hs1 Hi').
      destruct (F j Hj'). set_solver.
    + apply elem_of_cons in Hi as [->|?]; [|done]. by apply elem_of_cons in Hj as [->|?].
  - intros Bd Hused Hs.
    assert (s1 <= Bd + 1) as Hs1B.
    { destruct (decide (s1 = s)) as [->|Hne]; [done|].
      assert (s1 - 1 ∈ used) as Hin by (apply Hbt; lia). apply Hused in Hin. lia. }
    destruct (B (Bd + 1)) as [B1 B2]; [|lia|].
    { intros x [->%elem_of_singleton|Hx%Hused]%elem_of_union; lia. }
    cbn [length]. rewrite Nat2Z.inj_succ. split; [lia|].
    + intros i Hi. destruct (decide (i ∈ unit_tx <$> us)) as [Hin|Hn].
      { apply B2 in Hin. lia. }
      apply elem_of_cons in Hi as [->|?]; [|done]. rewrite Hs1 by done. lia.
Qed.

Lemma fold_assign_assigned us h s used :
  (forall u, u ∈ us -> is_Some (h !! unit_tx u)) ->
  let '(h', s', _) := foldl assign_write_step (h, s, used) us in assigned us h s used h' s'.
Proof.
  revert h s used. induction us as [|u us IH]; intros h s used Hd; cbn [foldl].
  - assert (forall i : Z, i ∉ unit_tx <$> []) as Hn by (intros i; apply not_elem_of_nil).
    split; try done.
    + by intros i Hi%Hn.
    + by intros i j Hi%Hn.
    + intros B _ Hs. simpl. split; [lia|]. by intros i Hi%Hn.
  - cbn [assign_write_step].
    set (s1 := next_free_seq (S (size used)) used s).
    specialize (IH (unit_set_sequence h u s1) s1 ({[s1]} ∪ used)).
    destruct (foldl assign_write_step _ us) as [[h' s'] used'].
    apply assigned_cons; [apply Hd; left|]. apply IH.
    intros v Hv. eapply (frame_is_Some h); [auto with graph|]. apply Hd. by right.
Qed.

(** ** Writes: the whole sort *)

Record writes_sorted (h : heap) (wu : WriteUnits) (m : Z) (h' : heap) (wu' : WriteUnits)
    (ru' : ReadUnits) (m' : Z) : Prop := {
  ws_max : m <= m';
  ws_aborted : forall i, tx_aborted h i = true -> tx_aborted h' i = true;
  ws_keep : forall i, (forall w, w ∈ wu_units wu -> unit_tx w = i -> unit_is_sorted h w = true) ->
    tx_sequence h' i = tx_sequence h i ∨ m < tx_sequence h' i <= m';
  ws_sorted : forall w, w ∈ wu_units wu -> unit_is_sorted h w = true ->
    unit_aborted h' w = false -> m' <= unit_sequence h' w;
  ws_new : forall w, w ∈ wu_units wu -> unit_is_sorted h w = false ->
    m' < unit_sequence h' w;
  ws_fresh : forall w w', w ∈ wu_units wu -> w' ∈ wu_units wu -> unit_is_sorted h w = false ->
    unit_tx w ≠ unit_tx w' -> unit_sequence h' w ≠ unit_sequence h' w';
  ws_bound : forall B, (forall i, tx_sequence h i <= B) -> m <= B ->
    (forall i, tx_sequence h' i <= B + Z.of_nat (length (wu_units wu))) ∧
    wu_max_seq wu' <= B + Z.of_nat (length (wu_units wu)) + 1 ∧
    ru_max_seq ru' <= B + Z.of_nat (length (wu_units wu)) + 1
}.

Lemma partition_lengths {A} (f : A -> bool) l :
  length l = (length (partition_by f l).1 + length (partition_by f l).2)%nat.
Proof. rewrite <- length_app. by rewrite partition_by_Permutation. Qed.

Lemma elem_of_partition_by {A} (f : A -> bool) l a b :
  partition_by f l = (a, b) ->
  (forall x, x ∈ a ↔ x ∈ l ∧ f x = true) ∧ (forall x, x ∈ b ↔ x ∈ l ∧ f x = false).
Proof.
  unfold partition_by. intros [= <- <-].
  split; intros x; rewrite list_elem_of_filter; naive_solver.
Qed.

Lemma assigned_bounded us h s used h' s' B :
  assigned us h s used h' s' ->
  (forall i, tx_sequence h i <= B) -> (forall x, x ∈ used -> x <= B) -> s <= B + 1 ->
  (forall i, tx_sequence h' i <= B + Z.of_nat (length us)) ∧
  s' <= Z.max s (B + Z.of_nat (length us)).
Proof.
  intros Has Hh Hu Hs. destruct (as_bound _ _ _ _ _ _ Has B Hu Hs) as [B1 B2].
  split; [|done]. intros i. destruct (decide (i ∈ unit_tx <$> us)) as [Hi|Hi]; [auto|].
  rewrite (as_other _ _ _ _ _ _ Has) by done. specialize (Hh i). lia.
Qed.

Lemma WriteUnits_sort_order lcw h wu ru :
  (forall w, w ∈ wu_units wu -> is_Some (h !! unit_tx w)) ->
  let '(h', wu', ru') := WriteUnits_sort lcw h wu ru in
  exists m', writes_sorted h wu (ru_max_seq ru) h' wu' ru' m'.
Proof.
  intros Hd. unfold WriteUnits_sort.
  pose proof (partition_lengths (unit_is_sorted h) (wu_units wu)) as Hlen.
  destruct (partition_by _ _) as [sorted remaining] eqn:Ep. cbn [fst snd] in Hlen.
  destruct (elem_of_partition_by _ _ _ _ Ep) as [Hso Hre]. clear Ep.
  pose proof (fold_updater_updated lcw sorted h (ru_max_seq ru) (wu_first_updater_flag wu)) as Hup.
  destruct (foldl (updater_step lcw) _ sorted) as [[h1 m1] flag].
  destruct Hup as [UM US UA UF]. { intros w [? _]%Hso. auto. }
  destruct (abort_early_spec m1 sorted h1) as (ES & EA & EL).
  { intros w [? _]%Hso. apply (frame_is_Some _ _ _ UF). auto. }
  set (h2 := foldl (abort_early_step m1) h1 sorted) in *.
  assert (heap_frame h h2) as EF by (etransitivity; [exact UF|apply abort_early_frame]).
  set (used := list_to_set (unit_sequence h2 <$> sorted) : gset Z).
  pose proof (fold_assign_assigned remaining h2 (m1 + 1) used) as Has.
  destruct (foldl assign_write_step _ remaining) as [[h3 s3] used3].
  assert (assigned remaining h2 (m1 + 1) used h3 s3) as Has'.
  { apply Has. intros w [? _]%Hre. apply (frame_is_Some _ _ _ EF). auto. }
  clear Has. pose proof Has' as [O A _ F D _].
  assert (forall w, w ∈ wu_units wu -> unit_is_sorted h w = true ->
    unit_tx w ∉ unit_tx <$> remaining) as Hns.
  { intros w Hw Hs (v & Hv & [_ Hv']%Hre)%list_elem_of_fmap.
    rewrite (unit_is_sorted_tx h w v Hv) in Hs. congruence. }
  assert (forall w, w ∈ remaining -> unit_tx w ∈ unit_tx <$> remaining) as Hin.
  { auto with chase. }
  exists m1. split; cbn [wu_max_seq ru_max_seq].
  - lia.
  - intros i Hi. rewrite A. auto.
  - intros i Hi. rewrite O.
    + rewrite ES. destruct (US i) as [?|[_ ?]]; auto.
    + intros (w & -> & [Hw Hs]%Hre)%list_elem_of_fmap. rewrite (Hi w) in Hs; done.
  - intros w Hw Hs Hl. unfold unit_aborted, unit_sequence in *. rewrite O by auto.
    rewrite A in Hl. rewrite ES. apply EL; [by apply Hso|done].
  - intros w Hw Hs. assert (unit_tx w ∈ unit_tx <$> remaining) as Hw' by (apply Hin, Hre; done).
    destruct (F _ Hw') as [H1 H2]. unfold unit_sequence. lia.
  - intros w w' Hw Hw' Hs Hne. unfold unit_sequence.
    assert (unit_tx w ∈ unit_tx <$> remaining) as Hwr by (apply Hin, Hre; done).
    destruct (unit_is_sorted h w') eqn:Hs'.
    + rewrite (O (unit_tx w')) by auto. destruct (F _ Hwr) as [_ Hf]. intros Heq. apply Hf.
      rewrite Heq. apply elem_of_list_to_set, list_elem_of_fmap. exists w'. split; [done|]. by apply Hso.
    + apply D; [done| |done]. by apply Hin, Hre.
  - intros B HB Hm.
    assert (forall i, tx_sequence h2 i <= B + Z.of_nat (length sorted)) as HB2.
    { intros i. rewrite ES. destruct (US i) as [->|[_ ?]]; [|lia]. specialize (HB i). lia. }
    destruct (assigned_bounded _ _ _ _ _ _ _ Has' HB2) as [B1 B2]; [|lia|].
    { intros x (w & -> & _)%elem_of_list_to_set%list_elem_of_fmap. apply HB2. }
    split_and!; [|lia..]. intros i. specialize (B1 i). lia.
Qed.

(** ** Sorting one address *)

Section sort_one.
Context (lcw : bool) (txs : list SimulatedTransaction) (g : AddressBasedConflictGraph).
Context (a : H256) (ad : Address).
Context (Hwf : graph_wf txs g) (Had : acg_addresses g !! a = Some ad).

Abbreviation reads := (ru_units (ad_read_units ad)).
Abbreviation writes := (wu_units (ad_write_units ad)).
Abbreviation sorted_graph := (sort_address lcw g a).

Lemma sort_address_units u : u ∈ reads ∨ u ∈ writes -> is_Some (acg_heap g !! unit_tx u).
Proof using Hwf Had.
  intros Hu. apply elem_of_dom. apply (gw_addr_units _ _ Hwf a).
  apply elem_of_addr_units. exists ad. split; [done|]. unfold ad_units. by apply elem_of_app.
Qed.

(** The intermediate heap, after the reads are sorted. *)
Lemma sort_address_stages :
  exists h1 ru1 m', ReadUnits_sort (acg_heap g) (ad_read_units ad) = (h1, ru1) ∧
    exists wu' ru', acg_addresses sorted_graph !! a =
      Some (mkAddress (ad_address ad) (ad_in_degree ad) (ad_out_degree ad) ru' wu'
              (ad_first_updater_flag ad)) ∧
    writes_sorted h1 (ad_write_units ad) (ru_max_seq ru1) (acg_heap sorted_graph) wu' ru' m'.
Proof using Hwf Had.
  unfold sort_address. rewrite Had. unfold sort_read_units, sort_write_units.
  pose proof (ReadUnits_sort_frame (acg_heap g) (ad_read_units ad)) as F1.
  destruct (ReadUnits_sort _ _) as [h1 ru1]. cbn [ad_write_units ad_read_units fst] in *.
  pose proof (WriteUnits_sort_order lcw h1 (ad_write_units ad) ru1) as Hw.
  destruct (WriteUnits_sort _ _ _ _) as [[h2 wu2] ru2].
  destruct Hw as [m' Hw].
  { intros w Hin. apply (frame_is_Some _ _ _ F1), sort_address_units. auto. }
  exists h1, ru1, m'. split; [done|]. exists wu2, ru2. cbn [acg_addresses acg_heap].
  by rewrite lookup_insert_eq.
Qed.

(** A writer not ordered before, which does not read the slot, is still
    unordered once the reads are sorted. *)
Lemma unsorted_after_reads h1 ru1 w :
  ReadUnits_sort (acg_heap g) (ad_read_units ad) = (h1, ru1) -> w ∈ writes ->
  unit_is_sorted (acg_heap g) w = false -> (forall r, r ∈ reads -> unit_tx r ≠ unit_tx w) ->
  unit_is_sorted h1 w = false.
Proof using Hwf Had.
  intros E Hw Hns Hnr. pose proof (ReadUnits_sort_order (acg_heap g) (ad_read_units ad)) as HR.
  pose proof (ReadUnits_sort_frame (acg_heap g) (ad_read_units ad)) as F1.
  rewrite E in HR, F1. destruct HR as (RA & RO & _).
  { intros u Hu. apply sort_address_units. auto. }
  apply not_true_iff_false. intros Hs. apply not_true_iff_false in Hns. apply Hns.
  apply unit_is_sorted_spec; [apply sort_address_units; auto|].
  apply unit_is_sorted_spec in Hs.
  - unfold unit_sequence, unit_aborted in *. rewrite RA in Hs. rewrite RO in Hs; [done|].
    intros (r' & Hr' & Hin)%list_elem_of_fmap. by apply (Hnr r').
  - apply (frame_is_Some _ _ _ F1), sort_address_units. auto.
Qed.

Lemma sort_address_other b :
  b ≠ a -> acg_addresses sorted_graph !! b = acg_addresses g !! b.
Proof using Had.
  intros Hne. unfold sort_address. rewrite Had.
  destruct (sort_read_units _ _) as [h1 ad1]. destruct (sort_write_units _ _ _) as [h2 ad2].
  cbn [acg_addresses]. by rewrite lookup_insert_ne.
Qed.

Lemma sort_address_readers_first r w :
  r ∈ reads -> w ∈ writes ->
  unit_aborted (acg_heap sorted_graph) r = false ->
  unit_aborted (acg_heap sorted_graph) w = false ->
  unit_sequence (acg_heap sorted_graph) r <= unit_sequence (acg_heap sorted_graph) w ∧
  (unit_is_sorted (acg_heap g) w = false -> (forall r', r' ∈ reads -> unit_tx r' ≠ unit_tx w) ->
   unit_sequence (acg_heap sorted_graph) r < unit_sequence (acg_heap sorted_graph) w).
Proof using Hwf Had.
  intros Hr Hw Hlr Hlw. destruct sort_address_stages as (h1 & ru1 & m' & E & wu' & ru' & _ & W).
  pose proof (ReadUnits_sort_order (acg_heap g) (ad_read_units ad)) as HR.
  rewrite E in HR. destruct HR as (RA & RO & RS & RM & RK).
  { intros u Hu. apply sort_address_units. auto. }
  assert (unit_aborted h1 r = false) as Hlr1.
  { apply not_true_iff_false. intros Ht%(ws_aborted _ _ _ _ _ _ _ W). unfold unit_aborted in Hlr. congruence. }
  assert (unit_sequence (acg_heap sorted_graph) r <= m') as Hrm.
  { pose proof (RM r Hr Hlr1). pose proof (ws_max _ _ _ _ _ _ _ W).
    destruct (ws_keep _ _ _ _ _ _ _ W (unit_tx r)) as [He|?].
    - intros w' _ Ht. rewrite (unit_is_sorted_tx h1 w' r Ht). auto.
    - unfold unit_sequence in *. lia.
    - unfold unit_sequence in *. lia. }
  split.
  - destruct (unit_is_sorted h1 w) eqn:Hs.
    + pose proof (ws_sorted _ _ _ _ _ _ _ W w Hw Hs Hlw). lia.
    + pose proof (ws_new _ _ _ _ _ _ _ W w Hw Hs). lia.
  - intros Hns Hnr. pose proof (unsorted_after_reads _ _ _ E Hw Hns Hnr) as Hs.
    pose proof (ws_new _ _ _ _ _ _ _ W w Hw Hs). lia.
Qed.

Lemma sort_address_new_writers_distinct w w' :
  w ∈ writes -> w' ∈ writes -> unit_tx w ≠ unit_tx w' ->
  unit_is_sorted (acg_heap g) w = false -> (forall r, r ∈ reads -> unit_tx r ≠ unit_tx w) ->
  unit_sequence (acg_heap sorted_graph) w ≠ unit_sequence (acg_heap sorted_graph) w'.
Proof using Hwf Had.
  intros Hw Hw' Hne Hns Hnr. destruct sort_address_stages as (h1 & ru1 & m' & E & wu' & ru' & _ & W).
  apply (ws_fresh _ _ _ _ _ _ _ W); [done..| |done]. by eapply unsorted_after_reads.
Qed.

(** The sequence numbers of the graph are at most [B], the counters of its
    addresses at most one more. *)
Definition graph_seq_le (B : Z) (g : AddressBasedConflictGraph) : Prop :=
  (forall i, tx_sequence (acg_heap g) i <= B) ∧
  (forall b x, acg_addresses g !! b = Some x -> address_max_seq x <= B + 1).

Lemma sort_address_seq_bound B :
  1 <= B -> graph_seq_le B g -> graph_seq_le (B + Z.of_nat (length writes)) sorted_graph.
Proof using Hwf Had.
  intros HB1 [HB HBa]. destruct sort_address_stages as (h1 & ru1 & m' & E & wu' & ru' & Ha & W).
  pose proof (ReadUnits_sort_bound (acg_heap g) (ad_read_units ad) B HB1 HB) as [B1 B2].
  { intros u Hu. apply sort_address_units. auto. }
  rewrite E in B1, B2. cbn [fst snd] in B1, B2.
  destruct (ws_bound _ _ _ _ _ _ _ W B B1 B2) as (C1 & C2 & C3). split; [done|].
  intros b x. destruct (decide (b = a)) as [->|Hne].
  - rewrite Ha. intros [= <-]. unfold address_max_seq. simpl. lia.
  - intros Hx. rewrite sort_address_other in Hx by done. apply HBa in Hx. lia.
Qed.
End sort_one.

(** ** The whole sort *)

Definition total_write_units (g : AddressBasedConflictGraph) : Z :=
  foldr Z.add 0 ((fun p : H256 * Address => Z.of_nat (length (wu_units (ad_write_units p.2))))
    <$> map_to_list (acg_addresses g)).

(** The number of write units of the address stored under [a]. *)
Definition writes_at (g : AddressBasedConflictGraph) (a : H256) : Z :=
  match acg_addresses g !! a with
  | Some ad => Z.of_nat (length (wu_units (ad_write_units ad)))
  | None => 0
  end.

Lemma writes_at_frame g g' a : graph_frame g g' -> writes_at g' a = writes_at g a.
Proof.
  intros F. pose proof (gf_addresses _ _ F a) as Ha. unfold writes_at.
  destruct Ha as [x y [_ _ Hw]|]; [|done]. by rewrite Hw.
Qed.

Lemma fold_sort_seq_bound lcw txs g l B :
  graph_wf txs g -> 1 <= B -> graph_seq_le B g ->
  graph_seq_le (B + foldr Z.add 0 (writes_at g <$> l)) (foldl (sort_address lcw) g l).
Proof.
  revert g B. induction l as [|a l IH]; intros g B W HB Hs; cbn [foldl].
  - simpl. by rewrite Z.add_0_r.
  - rewrite fmap_cons. cbn [foldr]. rewrite Z.add_assoc.
    pose proof (sort_address_frame lcw g a) as F.
    assert (graph_seq_le (B + writes_at g a) (sort_address lcw g a) ∧ 0 <= writes_at g a) as [Hs1 Hp].
    { unfold writes_at. destruct (acg_addresses g !! a) as [ad|] eqn:Ea.
      - split; [|lia]. by eapply sort_address_seq_bound.
      - split; [|lia]. rewrite Z.add_0_r. unfold sort_address. by rewrite Ea. }
    assert (writes_at g <$> l = writes_at (sort_address lcw g a) <$> l) as ->.
    { apply list_fmap_ext. intros _ b _. symmetry. by apply writes_at_frame. }
    apply IH; [by eapply graph_frame_wf|lia|done].
Qed.

Lemma address_rank_writes txs g :
  graph_wf txs g -> foldr Z.add 0 (writes_at g <$> address_rank g) = total_write_units g.
Proof.
  intros W. unfold address_rank, total_write_units.
  rewrite <- list_fmap_compose.
  assert (forall l l' : list Z, l ≡ₚ l' -> foldr Z.add 0 l = foldr Z.add 0 l') as Hperm.
  { induction 1; simpl; lia. }
  rewrite (Hperm _ ((writes_at g ∘ ad_address) <$> (map_to_list (acg_addresses g)).*2)).
  2: { f_equiv. apply merge_sort_Permutation. }
  f_equal. rewrite <- list_fmap_compose. apply list_fmap_ext.
  intros k [a ad] H%list_elem_of_lookup_2%elem_of_map_to_list. simpl. unfold writes_at.
  by rewrite (gw_keys _ _ W _ _ H), H.
Qed.

(** *** Graphs whose transactions are not ordered yet *)

Record unsorted_graph (g : AddressBasedConflictGraph) : Prop := {
  ug_seq : forall i, tx_sequence (acg_heap g) i = 0;
  ug_max : forall a x, acg_addresses g !! a = Some x -> address_max_seq x = 0
}.

Lemma tx_sequence_insert (h : heap) k t i :
  (forall i, tx_sequence h i = 0) -> t_sequence t = 0 -> tx_sequence (<[k := t]> h) i = 0.
Proof.
  intros H Ht. unfold tx_sequence. destruct (decide (k = i)) as [<-|Hne].
  - by rewrite lookup_insert_eq.
  - rewrite lookup_insert_ne by done. apply H.
Qed.

Lemma add_units_max_seq ads us :
  (forall a x, ads !! a = Some x -> address_max_seq x = 0) ->
  forall a x, add_units_to_address ads us !! a = Some x -> address_max_seq x = 0.
Proof.
  revert ads. induction us as [|u us IH]; intros ads H; simpl; [done|]. apply IH.
  intros a x. unfold add_unit_to_address. destruct (decide (unit_address u = a)) as [<-|Hne].
  - rewrite lookup_insert_eq. intros [= <-]. unfold add_unit.
    destruct (ads !! unit_address u) as [y|] eqn:E; simpl; [apply H in E|];
      by destruct (unit_type u).
  - rewrite lookup_insert_ne by done. apply H.
Qed.

Lemma construct_unsorted txs : unsorted_graph (construct txs).
Proof.
  unfold construct. assert (unsorted_graph ACG_new) as H by (by split).
  revert H. generalize ACG_new. induction txs as [|tx txs IH]; intros g H; simpl; [done|].
  apply IH. destruct H as [H1 H2].
  destruct (construct_step_cases g tx) as [[_ ->]|[_ ->]].
  - split; simpl; [|done]. intros i. by apply tx_sequence_insert.
  - rewrite insert_transaction_eq. cbv zeta. destruct (set_wr_dependencies _ _) as [d1 d2].
    split; cbn [acg_heap acg_addresses fst snd].
    + intros i. by apply tx_sequence_insert.
    + by do 2 apply add_units_max_seq.
Qed.

Lemma merge_last_updater_seq h d d' us i :
  tx_sequence (merge_last_updater h d d' us).1 i = tx_sequence h i.
Proof. unfold merge_last_updater. repeat case_match; simpl; [apply tx_sequence_abort|done]. Qed.

Lemma merge_address_unsorted st p :
  (forall i, tx_sequence st.1 i = 0) -> (forall a x, st.2 !! a = Some x -> address_max_seq x = 0) ->
  address_max_seq p.2 = 0 ->
  (forall i, tx_sequence (merge_address st p).1 i = 0) ∧
  (forall a x, (merge_address st p).2 !! a = Some x -> address_max_seq x = 0).
Proof.
  destruct st as [h ads], p as [k ad]. simpl. intros H1 H2 H3.
  destruct (ads !! k) as [my|] eqn:E.
  - assert ((forall i, tx_sequence (Address_merge h my ad).1 i = tx_sequence h i) ∧
      address_max_seq (Address_merge h my ad).2 = address_max_seq my) as [S1 S2].
    { unfold Address_merge. destruct (_ && _); [|done].
      pose proof (fun i => merge_last_updater_seq h (ad_in_degree my) (ad_in_degree ad)
        (ru_units (ad_read_units ad)) i) as M1.
      destruct (merge_last_updater h _ _ _) as [h1 d1].
      pose proof (fun i => merge_last_updater_seq h1 d1 (ad_in_degree ad)
        (wu_units (ad_write_units ad)) i) as M2.
      destruct (merge_last_updater h1 _ _ _) as [h2 d2]. simpl in *. split; [|done].
      intros i. by rewrite M2, M1. }
    destruct (Address_merge h my ad) as [h' ad']. simpl in *. split.
    + intros i. by rewrite S1.
    + intros a x. destruct (decide (k = a)) as [<-|Hne].
      * rewrite lookup_insert_eq. intros [= <-]. rewrite S2. by apply (H2 k).
      * rewrite lookup_insert_ne by done. apply H2.
  - simpl. split; [done|]. intros a x. destruct (decide (k = a)) as [<-|Hne].
    + rewrite lookup_insert_eq. by intros [= <-].
    + rewrite lookup_insert_ne by done. apply H2.
Qed.

Lemma merge_unsorted g1 g2 : unsorted_graph g1 -> unsorted_graph g2 -> unsorted_graph (merge g1 g2).
Proof.
  intros [A1 A2] [B1 B2]. unfold merge.
  assert (forall l st, (forall p, p ∈ l -> address_max_seq p.2 = 0) ->
    (forall i, tx_sequence st.1 i = 0) -> (forall a x, st.2 !! a = Some x -> address_max_seq x = 0) ->
    (forall i, tx_sequence (foldl merge_address st l).1 i = 0) ∧
    (forall a x, (foldl merge_address st l).2 !! a = Some x -> address_max_seq x = 0)) as Hf.
  { induction l as [|p l IH]; intros st Hl H1 H2; [done|]. cbn [foldl].
    destruct (merge_address_unsorted st p H1 H2) as [H3 H4]; [apply Hl; left|].
    apply IH; [|done..]. intros q Hq. apply Hl. by right. }
  destruct (Hf (map_to_list (acg_addresses g2)) (acg_heap g1 ∪ acg_heap g2, acg_addresses g1)) as [H1 H2].
  - intros [a x] Hin%elem_of_map_to_list. by eapply B2.
  - intros i. simpl. specialize (A1 i). specialize (B1 i). unfold tx_sequence in *.
    destruct (acg_heap g1 !! i) as [t|] eqn:E1.
    + by rewrite (lookup_union_Some_l _ _ _ _ E1).
    + by rewrite lookup_union_r.
  - done.
  - destruct (foldl merge_address _ _). by split.
Qed.

Lemma merge_rounds_unsorted fuel gs :
  Forall unsorted_graph gs -> Forall unsorted_graph (merge_rounds fuel gs).
Proof.
  assert (forall gs, Forall unsorted_graph gs -> Forall unsorted_graph (merge_round gs)) as Hr.
  { intros gs'. remember (length gs') as n eqn:Hn. revert gs' Hn.
    induction (lt_wf n) as [n _ IH]. intros gs' -> H. destruct gs' as [|g1 [|g2 gs']]; simpl; [done..|].
    apply Forall_cons in H as [H1 [H2 H3]%Forall_cons].
    constructor; [by apply merge_unsorted|]. eapply IH; [|done|done]. simpl. lia. }
  revert gs. induction fuel as [|fuel IH]; intros gs H; simpl; [done|]. case_decide; auto.
Qed.

Lemma par_construct_unsorted ncpu txs g : par_construct ncpu txs = Some g -> unsorted_graph g.
Proof.
  unfold par_construct, par_construct_with. intros Hh.
  pose proof (merge_rounds_unsorted (length txs)
    (construct <$> chunks_of (length txs) (Nat.max (length txs / ncpu) 1) txs)) as HF.
  destruct (merge_rounds _ _) as [|g' gs]; simplify_eq/=.
  assert (Forall unsorted_graph (g :: gs)) as [? _]%Forall_cons; [|done].
  apply HF, Forall_fmap, Forall_forall. intros c _. apply construct_unsorted.
Qed.

(** ** Theorems *)

(** C33. After an address is sorted, no live reader of the slot is ordered after a
    live writer of it, and strictly before when the writer was not ordered yet
    and does not read the slot. *)
Theorem sort_address_order lcw txs g a ad r w :
  graph_wf txs g -> acg_addresses g !! a = Some ad ->
  r ∈ ru_units (ad_read_units ad) -> w ∈ wu_units (ad_write_units ad) ->
  let h' := acg_heap (sort_address lcw g a) in
  unit_aborted h' r = false -> unit_aborted h' w = false ->
  unit_sequence h' r <= unit_sequence h' w ∧
  (unit_is_sorted (acg_heap g) w = false ->
   (forall r', r' ∈ ru_units (ad_read_units ad) -> unit_tx r' ≠ unit_tx w) ->
   unit_sequence h' r < unit_sequence h' w).
Proof. intros Hwf Had Hr Hw h'. by eapply sort_address_readers_first. Qed.

(** One reader and one writer of slot 1. *)
Definition sample_pair : list SimulatedTransaction :=
  [sample_simulated 1 [1] [2]; sample_simulated 2 [3] [1]].

Lemma sample_pair_NoDup : NoDup (tx_ids sample_pair).
Proof. apply (bool_decide_unpack _). vm_compute. exact I. Defined.

Lemma sort_address_order_witness :
  let h' := acg_heap (sort_address false (construct sample_pair) 1) in
  unit_sequence h' (mkUnit 1 Read 1 1 false) <= unit_sequence h' (mkUnit 2 Write 1 1 false).
Proof.
  assert (exists ad, acg_addresses (construct sample_pair) !! 1 = Some ad ∧
    ru_units (ad_read_units ad) = [mkUnit 1 Read 1 1 false] ∧
    wu_units (ad_write_units ad) = [mkUnit 2 Write 1 1 false]) as (ad & Ha & Hr & Hw).
  { eexists. split_and!; vm_compute; reflexivity. }
  apply (sort_address_order false sample_pair (construct sample_pair) 1 ad).
  - apply construct_wf, sample_pair_NoDup.
  - exact Ha.
  - rewrite Hr. left.
  - rewrite Hw. left.
  - vm_compute. reflexivity.
  - vm_compute. reflexivity.
Defined.

(** A writer ordered by this sort gets a sequence no other transaction
    writing the slot has. *)
Theorem sort_address_fresh lcw txs g a ad w w' :
  graph_wf txs g -> acg_addresses g !! a = Some ad ->
  w ∈ wu_units (ad_write_units ad) -> w' ∈ wu_units (ad_write_units ad) ->
  unit_tx w ≠ unit_tx w' -> unit_is_sorted (acg_heap g) w = false ->
  (forall r, r ∈ ru_units (ad_read_units ad) -> unit_tx r ≠ unit_tx w) ->
  unit_sequence (acg_heap (sort_address lcw g a)) w ≠
  unit_sequence (acg_heap (sort_address lcw g a)) w'.
Proof. intros Hwf Had Hw Hw'. by eapply sort_address_new_writers_distinct. Qed.

(** Two blind writers of slot 1. *)
Definition sample_writers : list SimulatedTransaction :=
  [sample_simulated 1 [2] [1]; sample_simulated 2 [3] [1]].

Lemma sort_address_fresh_witness :
  let h' := acg_heap (sort_address false (construct sample_writers) 1) in
  unit_sequence h' (mkUnit 1 Write 1 1 false) ≠ unit_sequence h' (mkUnit 2 Write 1 1 false).
Proof.
  assert (exists ad, acg_addresses (construct sample_writers) !! 1 = Some ad ∧
    ru_units (ad_read_units ad) = [] ∧
    wu_units (ad_write_units ad) = [mkUnit 1 Write 1 1 false; mkUnit 2 Write 1 1 false])
    as (ad & Ha & Hr & Hw).
  { eexists. split_and!; vm_compute; reflexivity. }
  apply (sort_address_fresh false sample_writers (construct sample_writers) 1 ad).
  - apply construct_wf. apply (bool_decide_unpack _). vm_compute. exact I.
  - exact Ha.
  - rewrite Hw. left.
  - rewrite Hw. right. left.
  - discriminate.
  - vm_compute. reflexivity.
  - rewrite Hr. intros r Hin. by apply elem_of_nil in Hin.
Defined.

(** Sorting a freshly built graph keeps every sequence number at most one
    above the number of write units, and every per-address counter one above
    that: the u32 counters cannot wrap on a batch with fewer than 2^32 - 2
    write units. *)
Theorem hierarchcial_sort_bound ncpu lcw txs g :
  NoDup (tx_ids txs) -> par_construct ncpu txs = Some g ->
  let g' := hierarchcial_sort lcw g in
  (forall i, tx_sequence (acg_heap g') i <= 1 + total_write_units g) ∧
  (forall a ad, acg_addresses g' !! a = Some ad -> address_max_seq ad <= 2 + total_write_units g).
Proof.
  intros Hnd Hg g'.
  destruct (par_construct_wf ncpu txs) as (g0 & Hg0 & W); [by intros ->|done|].
  assert (g0 = g) as -> by congruence.
  destruct (par_construct_unsorted _ _ _ Hg) as [U1 U2].
  destruct (fold_sort_seq_bound lcw txs g (address_rank g) 1 W) as [B1 B2].
  - done.
  - split; [intros i; rewrite U1; lia|]. intros b x Hx%U2. lia.
  - rewrite (address_rank_writes txs) in B1, B2 by done. split; [exact B1|].
    intros a ad Had. specialize (B2 a ad Had). lia.
Qed.

Lemma hierarchcial_sort_bound_witness :
  exists g, par_construct 2 sample_pair = Some g ∧
    forall i, tx_sequence (acg_heap (hierarchcial_sort false g)) i <= 1 + total_write_units g.
Proof.
  eexists. split; [vm_compute; reflexivity|].
  apply (hierarchcial_sort_bound 2 false sample_pair).
  - apply sample_pair_NoDup.
  - vm_compute. reflexivity.
Defined.
