(* ===== verification/Seer.v ===== *)
(** * Seer: the pre-execution cache and the branch predictor

    crates/sslab-execution/chase/src/seer: perceptron.rs, var_table.rs,
    pre_execution_cache.rs, context.rs and simulator.rs, and
    crates/sslab-execution/chase/src/evm_utils.rs with the result handling of
    crates/sslab-execution/evm/src/executor.rs.

    The EVM interpreter is an argument of the model ([transact_call],
    [transact_create]): it maps a backend and a transaction to an exit reason
    and the effects, logs and read-write set of the run, or to nothing if the run
    panics or does not end.  EvmChase gives the interpreter the program uses.  The 64-bit hashes of
    the standard library's [DefaultHasher], whose algorithm is unspecified, are
    arguments too. *)

From S2P Require Import Prelude Types Backend.
Local Open Scope Z_scope.
Local Open Scope chase_scope.

(** ** Perceptron *)

Definition TAKEN : Z := 1.
Definition NOT_TAKEN : Z := -1.
Definition UNCERTAIN : Z := 0.

Definition HISTORY_LENGTH_MIN : nat := 10.
Definition LHR_LENGTH : nat := HISTORY_LENGTH_MIN.
Definition WT_LENGTH : nat := HISTORY_LENGTH_MIN + 1.
Definition MAX_WT : Z := 127.
Definition MIN_WT : Z := -128.
Definition OBSERVER_MODE_THRESHOLD : Z := 10.
Definition THETA : Z := 33.

Record Perceptron := mkPerceptron {
  history_length : nat;
  weights : list Z;
  lhr : list Z;
  last_pred : list Z;
  enabled : bool;
  round : Z;
  uncertain_num : Z
}.

Definition Perceptron_new : Perceptron :=
  mkPerceptron 0 (replicate WT_LENGTH 0) (replicate LHR_LENGTH UNCERTAIN) [] false 0 0.

(** One of the two [while] loops of [run]: it walks a history from its newest
    entry and [weights] from index [n] down, stopping when either is exhausted.
    The list is the history reversed. *)
Fixpoint run_over (ws : list Z) (newest_first : list Z) (n : nat) (prediction : Z) :
    option (Z * nat) :=
  match newest_first, n with
  | [], _ | _, O => Some (prediction, n)
  | d :: rest, S n' =>
      if d =? UNCERTAIN then run_over ws rest n' prediction
      else
        match ws !! n with
        | Some w =>
            run_over ws rest n'
              (if d =? TAKEN then i32_add prediction w else i32_sub prediction w)
        | None => None
        end
  end.

(** [run]; indexing an empty history or a missing weight panics. *)
Definition run (p : Perceptron) : option Z :=
  match weights p !! 0%nat with
  | None => None
  | Some w0 =>
      match run_over (weights p) (reverse (last_pred p)) LHR_LENGTH w0 with
      | None => None
      | Some (prediction, n) =>
          match n, lhr p with
          | S _, [] => None
          | _, _ =>
              match run_over (weights p) (reverse (lhr p)) n prediction with
              | Some (prediction', _) => Some prediction'
              | None => None
              end
          end
      end
  end.

Definition direction (prediction : Z) : Z := if prediction >? 0 then TAKEN else NOT_TAKEN.

Definition set_observer (p : Perceptron) (en : bool) (r u : Z) : Perceptron :=
  mkPerceptron (history_length p) (weights p) (lhr p) (last_pred p) en r u.

Definition Perceptron_predict (p : Perceptron) (train : bool) : option (Perceptron * Z) :=
  if negb train && bool_decide (history_length p < HISTORY_LENGTH_MIN)%nat
  then Some (p, UNCERTAIN)
  else if enabled p then
    let r := i32_add (round p) 1 in
    let p1 := set_observer p true r (uncertain_num p) in
    if Z.rem r 10 >? 0 then Some (p1, UNCERTAIN)
    else
      match run p1 with
      | None => None
      | Some prediction =>
          if Z.abs prediction <? THETA then Some (p1, UNCERTAIN)
          else Some (set_observer p1 false 0 (uncertain_num p1), direction prediction)
      end
  else
    match run p with
    | None => None
    | Some prediction =>
        if Z.abs prediction <? THETA then
          let u := i32_add (uncertain_num p) 1 in
          if u =? OBSERVER_MODE_THRESHOLD
          then Some (set_observer p true (round p) 0, UNCERTAIN)
          else Some (set_observer p false (round p) u, UNCERTAIN)
        else Some (set_observer p false (round p) 0, direction prediction)
    end.

(** The training loop [for i in 0..LHR_LENGTH]. *)
Definition train_weight (dir : Z) (hist : list Z) (ws : list Z) (i : nat) : option (list Z) :=
  match hist !! i with
  | None => None
  | Some h =>
      if h =? UNCERTAIN then Some ws
      else
        match ws !! S i with
        | None => None
        | Some w =>
            if dir =? h then
              Some (if w <? MAX_WT then <[S i := i32_add w 1]> ws else ws)
            else Some (if w >? MIN_WT then <[S i := i32_sub w 1]> ws else ws)
        end
  end.

Fixpoint train_weights (dir : Z) (hist : list Z) (ws : list Z) (idx : list nat) :
    option (list Z) :=
  match idx with
  | [] => Some ws
  | i :: idx' =>
      match train_weight dir hist ws i with
      | Some ws' => train_weights dir hist ws' idx'
      | None => None
      end
  end.

(** The bias [weights[0]], not clamped. *)
Definition train_bias (dir : Z) (ws : list Z) : option (list Z) :=
  match ws !! 0%nat with
  | None => if (dir =? TAKEN) || (dir =? NOT_TAKEN) then None else Some ws
  | Some w0 =>
      Some (if dir =? TAKEN then <[0%nat := i32_add w0 1]> ws
            else if dir =? NOT_TAKEN then <[0%nat := i32_sub w0 1]> ws
            else ws)
  end.

Definition Perceptron_update (p : Perceptron) (dir pred_dir : Z) : option Perceptron :=
  let hl := S (history_length p) in
  let trained :=
    if (pred_dir =? UNCERTAIN) || negb (pred_dir =? dir) then
      match train_bias dir (weights p) with
      | Some ws => train_weights dir (lhr p) ws (seq 0 LHR_LENGTH)
      | None => None
      end
    else Some (weights p) in
  match trained with
  | None => None
  | Some ws =>
      let lhr1 := lhr p ++ [dir] in
      let '(hl', lhr2) :=
        if bool_decide (HISTORY_LENGTH_MIN < hl)%nat then ((hl - 1)%nat, drop 1 lhr1)
        else (hl, lhr1) in
      let lp :=
        if bool_decide (1 < length (last_pred p))%nat then drop 1 (last_pred p) else [] in
      Some (mkPerceptron hl' ws lhr2 lp (enabled p) (round p) (uncertain_num p))
  end.

Definition push_last_pred (p : Perceptron) (pred : Z) : Perceptron :=
  mkPerceptron (history_length p) (weights p) (lhr p) (last_pred p ++ [pred])
    (enabled p) (round p) (uncertain_num p).

Definition last_prediction (p : Perceptron) : option Z := head (last_pred p).

Definition has_last_prediction (p : Perceptron) : bool :=
  match last_pred p with [] => false | _ => true end.

Definition bool_to_branch_res (dir : bool) : Z := if dir then TAKEN else NOT_TAKEN.

(** ** VarTable *)

Record BranchInfo := mkBranchInfo { perceptron : Perceptron; regular : bool }.

Definition BranchInfo_new : BranchInfo := mkBranchInfo Perceptron_new false.

(** contract -> slot -> branch id -> branch.  The branch ids the code uses are
    [format!("rw:{slot:?}")], one per slot; the model names a branch by a string. *)
Abbreviation SlotEntry := (gmap string BranchInfo).
Abbreviation ContractSubTable := (gmap H256 SlotEntry).
Abbreviation VarTable := (gmap H160 ContractSubTable).

Definition get_branch (t : VarTable) (contract : H160) (slot : H256) (branch_id : string) :
    option BranchInfo :=
  sub ← t !! contract; entry ← sub !! slot; entry !! branch_id.

(** [entry(..).or_default()] down to the branch, which is then written. *)
Definition set_branch (t : VarTable) (contract : H160) (slot : H256) (branch_id : string)
    (b : BranchInfo) : VarTable :=
  let sub := default ∅ (t !! contract) in
  let entry := default ∅ (sub !! slot) in
  <[contract := <[slot := <[branch_id := b]> entry]> sub]> t.

Definition VarTable_predict (t : VarTable) (contract : H160) (slot : H256)
    (branch_id : string) : option (VarTable * Z) :=
  match get_branch t contract slot branch_id with
  | None => Some (t, UNCERTAIN)
  | Some branch =>
      match Perceptron_predict (perceptron branch) false with
      | None => None
      | Some (p, res) =>
          let b := mkBranchInfo (push_last_pred p res)
                     ((res =? TAKEN) || (res =? NOT_TAKEN)) in
          Some (set_branch t contract slot branch_id b, res)
      end
  end.

Definition VarTable_update (t : VarTable) (contract : H160) (slot : H256)
    (branch_id : string) (taken : bool) : option VarTable :=
  let branch := default BranchInfo_new (get_branch t contract slot branch_id) in
  let dir := bool_to_branch_res taken in
  let p := perceptron branch in
  let predicted :=
    if has_last_prediction p
    then match last_prediction p with Some pred => Some (p, pred) | None => None end
    else Perceptron_predict p true in
  match predicted with
  | None => None
  | Some (p1, pred) =>
      match Perceptron_update p1 dir pred with
      | None => None
      | Some p2 =>
          Some (set_branch t contract slot branch_id (mkBranchInfo p2 (regular branch)))
      end
  end.

Definition ensure_branch (t : VarTable) (contract : H160) (slot : H256) (branch_id : string) :
    VarTable :=
  set_branch t contract slot branch_id
    (default BranchInfo_new (get_branch t contract slot branch_id)).

Definition learn_slot (branch_id_of : H256 -> string) (contract : H160)
    (write_keys : gset H256) (t : VarTable) (slot : H256) : option VarTable :=
  let branch_id := branch_id_of slot in
  VarTable_update (ensure_branch t contract slot branch_id) contract slot branch_id
    (bool_decide (slot ∈ write_keys)).

Fixpoint learn_slots (branch_id_of : H256 -> string) (contract : H160)
    (write_keys : gset H256) (t : VarTable) (slots : list H256) : option VarTable :=
  match slots with
  | [] => Some t
  | slot :: slots' =>
      match learn_slot branch_id_of contract write_keys t slot with
      | Some t' => learn_slots branch_id_of contract write_keys t' slots'
      | None => None
      end
  end.

(** [for slot in read_keys.iter().chain(write_keys.iter())]: a slot both read and
    written is trained twice. *)
Definition learn_from_rw_access (branch_id_of : H256 -> string) (t : VarTable)
    (contract : H160) (read_keys write_keys : gset H256) : option VarTable :=
  learn_slots branch_id_of contract write_keys t (elements read_keys ++ elements write_keys).

(** ** Simulation of one transaction *)

(** The one error the code builds, [SuiError::ExecutionError]. *)
Inductive SuiError := ExecutionError (msg : string).

Definition process_transact_call_result (reason : ExitReason) : Result bool SuiError :=
  match reason with
  | Succeed _ => Ok false
  | Revert _ => Ok true
  | ExitReasonError _ => Ok true
  | Fatal _ => Err (ExecutionError "Fatal error occurred on EVM!")
  end.

Definition process_transact_create_result (reason : ExitReason) : Result bool SuiError :=
  match reason with
  | Succeed _ => Ok false
  | Revert _ => Ok true
  | ExitReasonError _ => Ok true
  | Fatal _ => Err (ExecutionError "Fatal error occurred on EVM!")
  end.

(** What a run of the stack executor leaves: [into_state().deconstruct()] and the
    recorded read-write set. *)
Record Outcome := mkOutcome {
  out_effects : list Apply;
  out_logs : list Log;
  out_rw_set : RwSet
}.

(** The EVM interpreter over a backend: caller, target, value, data, gas limit,
    access list.  [None] is a run that panics or does not end. *)
Class EvmExecutor (B : Type) := {
  transact_call : B -> H160 -> H160 -> U256 -> bytes -> Z ->
    list (H160 * list H256) -> option (ExitReason * Outcome);
  transact_create : B -> H160 -> U256 -> bytes -> Z ->
    list (H160 * list H256) -> option (ExitReason * Outcome)
}.

Definition finish (processed : Result bool SuiError) (o : Outcome) :
    Result (option Outcome) SuiError :=
  match processed with
  | Ok fail => if fail then Ok None else Ok (Some o)
  | Err e => Err e
  end.

(** [evm_utils::simulate_tx]; the [unwrap]s on the sender, the value, the gas limit
    and, for a call, the data panic when the field is missing. *)
Definition simulate_tx {B} `{EvmExecutor B} (snapshot : B) (tx : EthereumTransaction) :
    option (Result (option Outcome) SuiError) :=
  gas ← gas_limit tx;
  match to_addr tx with
  | Some to =>
      from ← caller tx;
      v ← value tx;
      d ← data tx;
      '(reason, o) ← transact_call snapshot from to v d gas (access_list tx);
      Some (finish (process_transact_call_result reason) o)
  | None =>
      match data tx with
      | Some init_code =>
          from ← caller tx;
          v ← value tx;
          '(reason, o) ← transact_create snapshot from v init_code gas (access_list tx);
          Some (finish (process_transact_create_result reason) o)
      | None =>
          from ← caller tx;
          v ← value tx;
          n ← tx_nonce_of tx;
          Some (Ok (Some (mkOutcome
            [Modify from (mkBasic v n) None ∅ false]
            [mkLog from [] []] RwSet_new)))
      end
  end.

(** ** The pre-execution cache *)

Record TxFingerprint := mkFingerprint {
  fp_caller : H160;
  fp_to : option H160;
  fp_value_hash : Z;
  fp_data_hash : Z;
  fp_gas_limit : Z
}.

#[global] Instance TxFingerprint_eq_dec : EqDecision TxFingerprint.
Proof. solve_decision. Defined.

#[global] Instance TxFingerprint_countable : Countable TxFingerprint.
Proof.
  refine (inj_countable'
    (fun f => (fp_caller f, fp_to f, fp_value_hash f, fp_data_hash f, fp_gas_limit f))
    (fun '(c, t, v, d, g) => mkFingerprint c t v d g) _).
  by intros [].
Defined.

(** The two 64-bit hashes of [TxFingerprint::from_tx]; the second is the hash of
    the empty input when there is no data. *)
Record Hasher := mkHasher { value_hash : U256 -> Z; data_hash : option bytes -> Z }.

Definition TxFingerprint_from_tx (hs : Hasher) (tx : EthereumTransaction) :
    option TxFingerprint :=
  v ← value tx;
  from ← caller tx;
  gas ← gas_limit tx;
  Some (mkFingerprint from (to_addr tx) (value_hash hs v) (data_hash hs (data tx)) gas).

Record PreExecutionCache := mkCache {
  entries : gmap TxFingerprint Outcome;
  hits : Z;
  misses : Z
}.

Definition PreExecutionCache_new : PreExecutionCache := mkCache ∅ 0 0.

Definition PreExecutionCache_get (hs : Hasher) (c : PreExecutionCache)
    (tx : EthereumTransaction) : option (PreExecutionCache * option Outcome) :=
  match TxFingerprint_from_tx hs tx with
  | None => None
  | Some key =>
      match entries c !! key with
      | Some cached => Some (mkCache (entries c) (hits c +u64 1) (misses c), Some cached)
      | None => Some (mkCache (entries c) (hits c) (misses c +u64 1), None)
      end
  end.

Definition PreExecutionCache_insert (hs : Hasher) (c : PreExecutionCache)
    (tx : EthereumTransaction) (cached : Outcome) : option PreExecutionCache :=
  match TxFingerprint_from_tx hs tx with
  | None => None
  | Some key => Some (mkCache (<[key := cached]> (entries c)) (hits c) (misses c))
  end.

Definition PreExecutionCache_stats (c : PreExecutionCache) : Z * Z := (hits c, misses c).

(** ** SeerContext *)

Record SeerConfig := mkSeerConfig {
  enable_perceptron : bool;
  enable_cache : bool;
  contract_locality_ordering : bool
}.

Definition SeerConfig_default : SeerConfig := mkSeerConfig true true true.

(** [v != "0" && v != "false"], true when the variable is not set. *)
Definition env_flag (v : option string) : bool :=
  match v with
  | Some v => negb (bool_decide (v = "0"%string)) && negb (bool_decide (v = "false"%string))
  | None => true
  end.

Definition SeerConfig_from_env (env : string -> option string) : SeerConfig :=
  if negb (env_flag (env "CHASE_USE_SEER"%string)) then mkSeerConfig false false false
  else mkSeerConfig (env_flag (env "CHASE_SEER_PERCEPTRON"%string))
         (env_flag (env "CHASE_SEER_CACHE"%string))
         (env_flag (env "CHASE_SEER_LOCALITY"%string)).

Definition is_enabled (c : SeerConfig) : bool :=
  enable_perceptron c || enable_cache c || contract_locality_ordering c.

Record SeerContext := mkSeerContext {
  config : SeerConfig;
  var_table : VarTable;
  pre_execution_cache : PreExecutionCache
}.

Definition SeerContext_new (c : SeerConfig) : SeerContext :=
  mkSeerContext c ∅ PreExecutionCache_new.

Definition SeerContext_disabled : SeerContext := SeerContext_new (mkSeerConfig false false false).

Definition cache_stats (c : SeerContext) : Z * Z := PreExecutionCache_stats (pre_execution_cache c).

Definition set_cache (c : PreExecutionCache) (s : SeerContext) : SeerContext :=
  mkSeerContext (config s) (var_table s) c.

Definition set_var_table (t : VarTable) (s : SeerContext) : SeerContext :=
  mkSeerContext (config s) t (pre_execution_cache s).

(** ** The simulator *)

(** [sort_unstable_by] on target contract (zero for a creation), then id. *)
Definition order_for_contract_locality (txs : list IndexedEthereumTransaction) :
    list IndexedEthereumTransaction :=
  sort_by_pair (fun t => (default 0 (to_addr (itx t)), itx_id t)) txs.

Section simulator.
Context {B : Type} `{EvmExecutor B} (hs : Hasher) (branch_id_of : H256 -> string).

(** The cache lookup at the head of [seer_simulate_tx]. *)
Definition cache_lookup (tx : EthereumTransaction) : ST SeerContext (option Outcome) := fun s =>
  if enable_cache (config s) then
    match PreExecutionCache_get hs (pre_execution_cache s) tx with
    | Some (c, r) => Some (set_cache c s, r)
    | None => None
    end
  else Some (s, None).

Definition cache_store (tx : EthereumTransaction) (o : Outcome) : ST SeerContext unit := fun s =>
  if enable_cache (config s) then
    match PreExecutionCache_insert hs (pre_execution_cache s) tx o with
    | Some c => Some (set_cache c s, tt)
    | None => None
    end
  else Some (s, tt).

Definition learn (tx : EthereumTransaction) (o : Outcome) : ST SeerContext unit := fun s =>
  if enable_perceptron (config s) then
    match to_addr tx with
    | Some to =>
        match learn_from_rw_access branch_id_of (var_table s) to
                (extract_read_set (out_rw_set o)) (extract_write_set (out_rw_set o)) with
        | Some t => Some (set_var_table t s, tt)
        | None => None
        end
    | None => Some (s, tt)
    end
  else Some (s, tt).

Definition seer_simulate_tx (snapshot : B) (tx : EthereumTransaction) :
    ST SeerContext (Result (option Outcome) SuiError) :=
  cached ← cache_lookup tx;
  match cached with
  | Some o => mret (Ok (Some o))
  | None =>
      result ← st_lift (simulate_tx snapshot tx);
      match result with
      | Ok (Some o) =>
          _ ← cache_store tx o;
          _ ← learn tx o;
          mret (Ok (Some o))
      | r => mret r
      end
  end.

(** The [filter_map] of the batch loops: only successful runs are kept. *)
Definition keep_simulated (tx : IndexedEthereumTransaction)
    (r : Result (option Outcome) SuiError) : option SimulatedTransaction :=
  match r with
  | Ok (Some o) =>
      Some (SimulatedTransaction_new (out_rw_set o) (out_effects o) (out_logs o) tx)
  | _ => None
  end.

Definition simulate_all
    (simulate : EthereumTransaction -> ST SeerContext (Result (option Outcome) SuiError))
    (txs : list IndexedEthereumTransaction) : ST SeerContext (list SimulatedTransaction) :=
  rs ← st_iter (fun t => r ← simulate (itx t); mret (keep_simulated t r)) txs;
  mret (omap id rs).

Definition seer_simulate_batch (snapshot : B) (tx_list : list IndexedEthereumTransaction) :
    ST SeerContext (list SimulatedTransaction) := fun s =>
  let ordered :=
    if contract_locality_ordering (config s)
    then order_for_contract_locality tx_list else tx_list in
  simulate_all (seer_simulate_tx snapshot) ordered s.
End simulator.

(** ** Lemmas: the perceptron *)

Record perceptron_ok (p : Perceptron) : Prop := {
  po_weights : length (weights p) = WT_LENGTH;
  po_lhr : length (lhr p) = (LHR_LENGTH + history_length p)%nat;
  po_history : (history_length p <= HISTORY_LENGTH_MIN)%nat;
  po_clamped : forall i w, weights p !! S i = Some w -> MIN_WT <= w <= MAX_WT
}.

Lemma Perceptron_new_ok : perceptron_ok Perceptron_new.
Proof.
  split; [done|done|simpl; lia|].
  intros i w H. simpl in H. apply (lookup_replicate_1 10 0 w i) in H as [-> _].
  unfold MIN_WT, MAX_WT. lia.
Qed.

Lemma run_over_total ws l n acc :
  length ws = WT_LENGTH -> (n <= LHR_LENGTH)%nat -> exists r n', run_over ws l n acc = Some (r, n').
Proof.
  intros Hw. revert n acc. induction l as [|d l IH]; intros n acc Hn; simpl; [by eauto|].
  destruct n as [|n]; [by eauto|]. case_match; [apply IH; lia|].
  destruct (ws !! S n) as [w|] eqn:E; [apply IH; lia|].
  apply lookup_ge_None in E. unfold WT_LENGTH, LHR_LENGTH in *. lia.
Qed.

Lemma run_over_le ws l n acc r n' : run_over ws l n acc = Some (r, n') -> (n' <= n)%nat.
Proof.
  revert n acc. induction l as [|d l IH]; intros n acc; simpl; [intros [= _ ->]; lia|].
  destruct n as [|n]; [intros [= _ ->]; lia|].
  case_match; [intros ?%IH; lia|]. case_match; [intros ?%IH; lia|done].
Qed.

(** A history segment as long as the remaining weights hides what precedes it. *)
Lemma run_over_app_full ws l1 l2 n acc :
  length l1 = n -> run_over ws (l1 ++ l2) n acc = run_over ws l1 n acc.
Proof.
  revert n acc. induction l1 as [|d l1 IH]; intros n acc Hn; simpl in *; subst n.
  - by destruct l2.
  - by repeat case_match; rewrite ?IH.
Qed.

Lemma run_total p : perceptron_ok p -> is_Some (run p).
Proof.
  intros [Hw Hl Hh _]. unfold run.
  destruct (weights p !! 0%nat) as [w0|] eqn:E0.
  2: { apply lookup_ge_None in E0. rewrite Hw in E0. unfold WT_LENGTH in E0. lia. }
  destruct (run_over_total (weights p) (reverse (last_pred p)) LHR_LENGTH w0 Hw) as (r & n & E); [lia|].
  rewrite E. apply run_over_le in E.
  destruct (run_over_total (weights p) (reverse (lhr p)) n r Hw) as (r' & n' & E'); [lia|].
  rewrite E'. destruct (lhr p) as [|d l] eqn:El; [simpl in Hl; unfold LHR_LENGTH, HISTORY_LENGTH_MIN in Hl; lia|].
  destruct n; eauto.
Qed.

Lemma set_observer_ok p en r u : perceptron_ok p -> perceptron_ok (set_observer p en r u).
Proof. intros []. by split. Qed.

Lemma push_last_pred_ok p pred : perceptron_ok p -> perceptron_ok (push_last_pred p pred).
Proof. intros []. by split. Qed.

Lemma Perceptron_predict_ok p train :
  perceptron_ok p -> exists p' r, Perceptron_predict p train = Some (p', r) ∧ perceptron_ok p' ∧
    (r = TAKEN ∨ r = NOT_TAKEN ∨ r = UNCERTAIN).
Proof.
  intros Hp. assert (forall z, direction z = TAKEN ∨ direction z = NOT_TAKEN ∨ direction z = UNCERTAIN) as Hd.
  { intros z. unfold direction. case_match; auto. }
  unfold Perceptron_predict. case_match; [by eauto 10|]. case_match.
  - case_match; [eauto 10 using set_observer_ok|].
    destruct (run_total (set_observer p true (i32_add (round p) 1) (uncertain_num p))) as [z ->];
      [by apply set_observer_ok|].
    case_match; eauto 10 using set_observer_ok.
  - destruct (run_total p Hp) as [z ->].
    case_match; [case_match|]; eauto 10 using set_observer_ok.
Qed.

(** Weights after training: same length, every weight but the bias clamped. *)
Definition weights_ok (ws : list Z) : Prop :=
  length ws = WT_LENGTH ∧ forall i w, ws !! S i = Some w -> MIN_WT <= w <= MAX_WT.

Lemma i32_small x : -2147483648 <= x < 2147483648 -> i32_wrap x = x.
Proof. intros H. unfold i32_wrap. rewrite Z.mod_small; lia. Qed.

Lemma train_weight_ok dir hist ws i :
  weights_ok ws -> (i < length hist)%nat -> (i < LHR_LENGTH)%nat ->
  exists ws', train_weight dir hist ws i = Some ws' ∧ weights_ok ws'.
Proof.
  intros [Hl Hc] Hi Hi'. unfold train_weight.
  destruct (lookup_lt_is_Some_2 hist i Hi) as [h ->].
  destruct (h =? UNCERTAIN); [by exists ws|].
  destruct (lookup_lt_is_Some_2 ws (S i)) as [w Hw]; [unfold WT_LENGTH, LHR_LENGTH in *; lia|].
  rewrite Hw. pose proof (Hc i w Hw) as Hwb. unfold MIN_WT, MAX_WT in *.
  assert (forall v, -128 <= v <= 127 -> weights_ok (<[S i := v]> ws)) as Hins.
  { intros v Hv. split; [by rewrite length_insert|]. intros j x.
    destruct (decide (i = j)) as [<-|Hne].
    - rewrite list_lookup_insert_eq by (apply lookup_lt_Some in Hw; lia).
      intros [= <-]. unfold MIN_WT, MAX_WT. lia.
    - rewrite list_lookup_insert_ne by lia. apply Hc. }
  destruct (dir =? h).
  - destruct (w <? 127) eqn:E; eexists; (split; [done|]); [|by split].
    apply Hins. unfold i32_add. rewrite i32_small; lia.
  - destruct (w >? -128) eqn:E; eexists; (split; [done|]); [|by split].
    apply Hins. unfold i32_sub. rewrite i32_small; lia.
Qed.

Lemma train_weights_ok dir hist ws idx :
  weights_ok ws -> Forall (fun i => i < length hist ∧ i < LHR_LENGTH)%nat idx ->
  exists ws', train_weights dir hist ws idx = Some ws' ∧ weights_ok ws'.
Proof.
  revert ws. induction idx as [|i idx IH]; intros ws Hw Hf; simpl; [by eauto|].
  apply Forall_cons in Hf as [[H1 H2] Hf].
  destruct (train_weight_ok dir hist ws i Hw H1 H2) as (ws' & -> & Hw'). by apply IH.
Qed.

Lemma train_bias_ok dir ws :
  weights_ok ws -> exists ws', train_bias dir ws = Some ws' ∧ weights_ok ws'.
Proof.
  intros [Hl Hc]. unfold train_bias.
  destruct (lookup_lt_is_Some_2 ws 0) as [w Hw]; [unfold WT_LENGTH in Hl; lia|].
  rewrite Hw. assert (forall v, weights_ok (<[0%nat := v]> ws)) as Hins.
  { intros v. split; [by rewrite length_insert|]. intros j x.
    rewrite list_lookup_insert_ne by lia. apply Hc. }
  eexists. split; [done|]. repeat case_match; try apply Hins. by split.
Qed.

Lemma Perceptron_update_ok p dir pred :
  perceptron_ok p -> exists p', Perceptron_update p dir pred = Some p' ∧ perceptron_ok p'.
Proof.
  intros [Hw Hl Hh Hc]. unfold Perceptron_update.
  assert (weights_ok (weights p)) as Hwo by done.
  assert (exists ws, (if (pred =? UNCERTAIN) || negb (pred =? dir)
    then match train_bias dir (weights p) with
         | Some ws => train_weights dir (lhr p) ws (seq 0 LHR_LENGTH) | None => None end
    else Some (weights p)) = Some ws ∧ weights_ok ws) as (ws & -> & [W1 W2]).
  { case_match; [|by eauto]. destruct (train_bias_ok dir (weights p) Hwo) as (ws & -> & Hws).
    apply train_weights_ok; [done|]. apply Forall_forall. intros i Hi%elem_of_seq. lia. }
  case_bool_decide as Hlt; eexists; (split; [done|]);
    (split; cbn [weights lhr history_length]; [done| | |done]);
    rewrite ?length_drop, ?length_app, ?Hl; cbn [length]; unfold HISTORY_LENGTH_MIN in *; lia.
Qed.

(** ** Lemmas: the branch table *)

Lemma get_set_branch t c s b br c' s' b' :
  get_branch (set_branch t c s b br) c' s' b' =
  if decide (c = c' ∧ s = s' ∧ b = b') then Some br else get_branch t c' s' b'.
Proof.
  unfold get_branch, set_branch. destruct (decide (c = c')) as [<-|Hc].
  2: { rewrite lookup_insert_ne by done. by rewrite decide_False by naive_solver. }
  rewrite lookup_insert_eq. simpl. destruct (decide (s = s')) as [<-|Hs].
  2: { rewrite lookup_insert_ne by done. rewrite decide_False by naive_solver.
       by destruct (t !! c). }
  rewrite lookup_insert_eq. simpl. destruct (decide (b = b')) as [<-|Hb].
  - by rewrite lookup_insert_eq, decide_True.
  - rewrite lookup_insert_ne by done. rewrite decide_False by naive_solver.
    destruct (t !! c) as [sub|]; simpl; [|by rewrite lookup_empty].
    by destruct (sub !! s).
Qed.

Definition table_ok (t : VarTable) : Prop :=
  forall c s b br, get_branch t c s b = Some br -> perceptron_ok (perceptron br).

Lemma set_branch_ok t c s b br :
  table_ok t -> perceptron_ok (perceptron br) -> table_ok (set_branch t c s b br).
Proof. intros Ht Hb c' s' b' br'. rewrite get_set_branch. case_decide; [by intros [= <-]|apply Ht]. Qed.

Lemma get_branch_default_ok t c s b :
  table_ok t -> perceptron_ok (perceptron (default BranchInfo_new (get_branch t c s b))).
Proof.
  intros Ht. destruct (get_branch t c s b) eqn:E; simpl; [by eapply Ht|apply Perceptron_new_ok].
Qed.

Lemma VarTable_update_ok t c s b taken :
  table_ok t -> exists t', VarTable_update t c s b taken = Some t' ∧ table_ok t' ∧
    is_Some (get_branch t' c s b) ∧
    forall c' s' b', is_Some (get_branch t c' s' b') -> is_Some (get_branch t' c' s' b').
Proof.
  intros Ht. unfold VarTable_update.
  pose proof (get_branch_default_ok t c s b Ht) as Hp.
  set (br := default BranchInfo_new (get_branch t c s b)) in *.
  assert (exists p1 pred, (if has_last_prediction (perceptron br)
    then match last_prediction (perceptron br) with
         | Some pred => Some (perceptron br, pred) | None => None end
    else Perceptron_predict (perceptron br) true) = Some (p1, pred) ∧ perceptron_ok p1)
    as (p1 & pred & -> & Hp1).
  { unfold has_last_prediction, last_prediction. destruct (last_pred (perceptron br)); simpl.
    - destruct (Perceptron_predict_ok _ true Hp) as (p1 & r & -> & ? & _). eauto.
    - eauto. }
  destruct (Perceptron_update_ok p1 (bool_to_branch_res taken) pred Hp1) as (p2 & -> & Hp2).
  eexists. split; [done|]. split_and!.
  - by apply set_branch_ok.
  - rewrite get_set_branch, decide_True by done. eauto.
  - intros c' s' b' Hs. rewrite get_set_branch. case_decide; eauto.
Qed.

Lemma ensure_branch_ok t c s b :
  table_ok t -> table_ok (ensure_branch t c s b) ∧
  forall c' s' b', is_Some (get_branch t c' s' b') -> is_Some (get_branch (ensure_branch t c s b) c' s' b').
Proof.
  intros Ht. split.
  - apply set_branch_ok; [done|]. by apply get_branch_default_ok.
  - intros c' s' b' Hs. unfold ensure_branch. rewrite get_set_branch. case_decide; eauto.
Qed.

Lemma learn_slots_ok f c ws t slots :
  table_ok t -> exists t', learn_slots f c ws t slots = Some t' ∧ table_ok t' ∧
    (forall slot, slot ∈ slots -> is_Some (get_branch t' c slot (f slot))) ∧
    forall c' s' b', is_Some (get_branch t c' s' b') -> is_Some (get_branch t' c' s' b').
Proof.
  revert t. induction slots as [|slot slots IH]; intros t Ht; simpl.
  - exists t. split_and!; [done..| |done]. by intros slot ?%elem_of_nil.
  - unfold learn_slot. destruct (ensure_branch_ok t c slot (f slot) Ht) as [He Hk].
    destruct (VarTable_update_ok (ensure_branch t c slot (f slot)) c slot (f slot)
      (bool_decide (slot ∈ ws)) He) as (t1 & -> & Ht1 & Hs1 & Hk1).
    destruct (IH t1 Ht1) as (t2 & -> & Ht2 & Hs2 & Hk2).
    exists t2. split_and!; [done..| |auto].
    intros s [->|Hs]%elem_of_cons; auto.
Qed.

(** ** Lemmas: simulation *)

Section simulator_lemmas.
Context {B : Type} `{EvmExecutor B} (hs : Hasher) (branch_id_of : H256 -> string).

Lemma st_bind_Some {S A C} (m : ST S A) (f : A -> ST S C) s s' y :
  (m ≫= f) s = Some (s', y) ↔ exists s1 x, m s = Some (s1, x) ∧ f x s1 = Some (s', y).
Proof.
  unfold mbind, ST_bind. split.
  - destruct (m s) as [[s1 x]|]; [eauto|done].
  - by intros (s1 & x & -> & ?).
Qed.

(** A hit answers from the cache whatever the snapshot. *)
Lemma seer_simulate_hit snapshot tx s fp o :
  enable_cache (config s) = true -> TxFingerprint_from_tx hs tx = Some fp ->
  entries (pre_execution_cache s) !! fp = Some o ->
  exists s', seer_simulate_tx hs branch_id_of snapshot tx s = Some (s', Ok (Some o)) ∧
    config s' = config s ∧ entries (pre_execution_cache s') = entries (pre_execution_cache s).
Proof.
  intros Hc Hf He. unfold seer_simulate_tx, mbind, ST_bind, cache_lookup.
  rewrite Hc. unfold PreExecutionCache_get. rewrite Hf, He. by eexists.
Qed.

(** After a successful run the result is in the cache. *)
Lemma seer_simulate_caches snapshot tx s s' o :
  enable_cache (config s) = true ->
  seer_simulate_tx hs branch_id_of snapshot tx s = Some (s', Ok (Some o)) ->
  config s' = config s ∧ exists fp, TxFingerprint_from_tx hs tx = Some fp ∧
    entries (pre_execution_cache s') !! fp = Some o.
Proof.
  intros Hc. unfold seer_simulate_tx. rewrite st_bind_Some.
  intros (s1 & cached & Hl & Hrest). unfold cache_lookup in Hl. rewrite Hc in Hl.
  unfold PreExecutionCache_get in Hl.
  destruct (TxFingerprint_from_tx hs tx) as [fp|] eqn:Ef; [|done].
  destruct (entries (pre_execution_cache s) !! fp) as [o'|] eqn:Ee; simplify_eq/=.
  { unfold mret, ST_ret in Hrest. simplify_eq/=. eauto. }
  apply st_bind_Some in Hrest as (s2 & result & Hsim & Hrest).
  unfold st_lift in Hsim. destruct (simulate_tx snapshot tx) as [r|]; simplify_eq/=.
  destruct result as [[o'|]|e]; [|unfold mret, ST_ret in Hrest; by simplify_eq/=..].
  apply st_bind_Some in Hrest as (s3 & [] & Hstore & Hrest).
  unfold cache_store, PreExecutionCache_insert in Hstore. simpl in Hstore.
  rewrite Hc, Ef in Hstore. simplify_eq/=.
  apply st_bind_Some in Hrest as (s4 & [] & Hlearn & Hrest).
  unfold mret, ST_ret in Hrest. simplify_eq/=. unfold learn in Hlearn. simpl in Hlearn.
  repeat case_match; simplify_eq/=; (split; [done|]; exists fp; split; [done|]; apply lookup_insert_eq).
Qed.
End simulator_lemmas.

(** ** A sample interpreter

    Every call reads slot 0 of its target and stores its successor. *)
Definition counter_call (b : MemoryBackend) (from to : H160) (v : U256) (d : bytes) (gas : Z)
    (al : list (H160 * list H256)) : option (ExitReason * Outcome) :=
  let old := MemoryBackend_storage b to 0 in
  Some (Succeed Stopped,
        mkOutcome [Modify to (MemoryBackend_basic b to) None {[0 := old + 1]} false] []
          (record_write_key (record_read_key RwSet_new to 0 old) to 0 (old + 1))).

Definition counter_evm : EvmExecutor MemoryBackend := {|
  transact_call := counter_call;
  transact_create := fun _ _ _ _ _ _ => Some (ExitReasonError OutOfGas, mkOutcome [] [] RwSet_new)
|}.

Definition sample_hasher : Hasher :=
  mkHasher (fun v => v) (fun d => match d with Some l => Z.of_nat (length l) | None => 0 end).

Definition sample_branch_id (slot : H256) : string := "rw".

Definition sample_backend (v : Z) : MemoryBackend :=
  mkMemoryBackend genesis_vicinity {[7 := mkAccount 1 0 {[0 := v]} []]}.

(** A call of contract 7 from account 5. *)
Definition sample_call (n : Z) : EthereumTransaction :=
  mkEthereumTransaction (Some 5) (Some 7) (Some 0) (Some []) (Some 21000) None (Some n).

(** ** Theorems *)

(** Learning from a read-write set never panics on a table whose perceptrons
    are well formed (11 weights, the ten input weights within -128..127, a
    history of 10 + [history_length] entries), keeps it well formed, and leaves
    a branch for every accessed slot. *)
Theorem learn_from_rw_access_total f t contract read_keys write_keys :
  table_ok t -> exists t', learn_from_rw_access f t contract read_keys write_keys = Some t' ∧
    table_ok t' ∧
    forall slot, slot ∈ read_keys ∪ write_keys -> is_Some (get_branch t' contract slot (f slot)).
Proof.
  intros Ht. destruct (learn_slots_ok f contract write_keys t
    (elements read_keys ++ elements write_keys) Ht) as (t' & E & Ht' & Hs & _).
  exists t'. split_and!; [done..|]. intros slot Hslot. apply Hs.
  rewrite elem_of_app, !elem_of_elements. set_solver.
Qed.

Lemma learn_from_rw_access_total_witness :
  table_ok ∅ ∧ exists t', learn_from_rw_access sample_branch_id ∅ 7 {[1]} {[2]} = Some t' ∧
    is_Some (get_branch t' 7 2 (sample_branch_id 2)).
Proof.
  assert (table_ok ∅) as H0 by (intros c s b br Hb; discriminate Hb).
  split; [exact H0|].
  destruct (learn_from_rw_access_total sample_branch_id ∅ 7 {[1]} {[2]} H0) as (t' & E & _ & Hs).
  exists t'. split; [exact E|]. apply Hs. set_solver.
Defined.

(** Once a transaction has been simulated with the cache enabled, any
    transaction with the same fingerprint (sender, target, hashes of value and
    data, gas limit) gets the same effects, logs and read-write set, on every
    later snapshot: the key ignores the state, the nonce and the access list. *)
Theorem cached_simulation_ignores_state {B} `{EvmExecutor B} hs f (b1 b2 : B) tx1 tx2 s s1 o :
  enable_cache (config s) = true ->
  TxFingerprint_from_tx hs tx1 = TxFingerprint_from_tx hs tx2 ->
  seer_simulate_tx hs f b1 tx1 s = Some (s1, Ok (Some o)) ->
  exists s2, seer_simulate_tx hs f b2 tx2 s1 = Some (s2, Ok (Some o)).
Proof.
  intros Hc Hfp Hs. destruct (seer_simulate_caches hs f b1 tx1 s s1 o Hc Hs) as (Hc1 & fp & Hf & He).
  destruct (seer_simulate_hit hs f b2 tx2 s1 fp o) as (s2 & E & _); [congruence..|by eauto].
Qed.

Lemma cached_simulation_ignores_state_witness :
  exists s1 o s2,
    seer_simulate_tx (H := counter_evm) sample_hasher sample_branch_id (sample_backend 1) (sample_call 0)
      (SeerContext_new SeerConfig_default) = Some (s1, Ok (Some o)) ∧
    seer_simulate_tx (H := counter_evm) sample_hasher sample_branch_id (sample_backend 9) (sample_call 1)
      s1 = Some (s2, Ok (Some o)).
Proof.
  assert (exists s1 o, seer_simulate_tx (H := counter_evm) sample_hasher sample_branch_id
    (sample_backend 1) (sample_call 0) (SeerContext_new SeerConfig_default) = Some (s1, Ok (Some o)))
    as (s1 & o & E).
  { eexists _, _. vm_compute. reflexivity. }
  destruct (cached_simulation_ignores_state (H := counter_evm) sample_hasher sample_branch_id
    (sample_backend 1) (sample_backend 9) (sample_call 0) (sample_call 1)
    (SeerContext_new SeerConfig_default) s1 o) as (s2 & E2).
  - reflexivity.
  - reflexivity.
  - exact E.
  - exists s1, o, s2. split; [exact E|exact E2].
Defined.

(** With more than ten entries in the history register, training and
    prediction look at different outcomes: [update] trains the weights on the
    oldest ten entries only, [run] evaluates the newest ten only. *)
Theorem perceptron_history_mismatch p old1 old2 new1 new2 dir pred :
  length old1 = LHR_LENGTH -> length new1 = LHR_LENGTH ->
  let q o n := mkPerceptron (history_length p) (weights p) (o ++ n) [] (enabled p) (round p)
                 (uncertain_num p) in
  run (q old1 new1) = run (q old2 new1) ∧
  weights <$> Perceptron_update (q old1 new1) dir pred =
  weights <$> Perceptron_update (q old1 new2) dir pred.
Proof.
  intros Ho Hn q. split.
  - unfold run, q. cbn [weights last_pred lhr].
    destruct (weights p !! 0%nat) as [w0|]; [|done]. cbn [reverse rev_append run_over].
    destruct new1 as [|d new1]; [done|].
    assert (forall o, exists x l, o ++ d :: new1 = x :: l) as Hne.
    { intros [|x o]; simpl; eauto. }
    assert (forall o, run_over (weights p) (reverse (o ++ d :: new1)) LHR_LENGTH w0 =
      run_over (weights p) (reverse (d :: new1)) LHR_LENGTH w0) as Hr.
    { intros o. rewrite reverse_app. apply run_over_app_full.
      by rewrite length_reverse. }
    destruct (Hne old1) as (x1 & l1 & E1), (Hne old2) as (x2 & l2 & E2).
    pose proof (Hr old1) as R1. pose proof (Hr old2) as R2. rewrite E1 in *. rewrite E2 in *.
    change (S 9) with LHR_LENGTH. by rewrite R1, R2.
  - unfold Perceptron_update, q. cbn [weights last_pred lhr history_length].
    assert (forall ws idx, Forall (fun i => i < LHR_LENGTH)%nat idx ->
      train_weights dir (old1 ++ new1) ws idx = train_weights dir (old1 ++ new2) ws idx) as Ht.
    { intros ws idx. revert ws. induction idx as [|i idx IH]; intros ws Hf; simpl; [done|].
      apply Forall_cons in Hf as [Hi Hf]. unfold train_weight.
      rewrite !(lookup_app_l old1) by lia. repeat case_match; auto. }
    assert (Forall (fun i => i < LHR_LENGTH)%nat (seq 0 LHR_LENGTH)) as Hseq.
    { apply Forall_forall. intros i Hi%elem_of_seq. lia. }
    destruct (_ || _).
    + destruct (train_bias dir (weights p)) as [ws|]; [|done]. rewrite (Ht ws _ Hseq).
      destruct (train_weights dir (old1 ++ new2) ws _); [|done]. by case_bool_decide.
    + by case_bool_decide.
Qed.

Lemma perceptron_history_mismatch_witness :
  let q o n := mkPerceptron 10 (replicate 11 5) (replicate 10 o ++ replicate 10 n) [] false 0 0 in
  run (q TAKEN NOT_TAKEN) = run (q NOT_TAKEN NOT_TAKEN) ∧
  weights <$> Perceptron_update (q TAKEN NOT_TAKEN) TAKEN UNCERTAIN =
  weights <$> Perceptron_update (q TAKEN TAKEN) TAKEN UNCERTAIN.
Proof.
  apply (perceptron_history_mismatch (mkPerceptron 10 (replicate 11 5) [] [] false 0 0)
    (replicate 10 TAKEN) (replicate 10 NOT_TAKEN) (replicate 10 NOT_TAKEN) (replicate 10 TAKEN)).
  - reflexivity.
  - reflexivity.
Defined.
