(* ===== verification/ChaseCore.v ===== *)
(** * Batch execution

    crates/sslab-execution/chase/src/chase_core.rs: [ConcurrencyLevelManager]
    simulates a batch of transactions against the current state, builds the
    conflict graph and the CDS schedule, commits the scheduled transactions and
    re-executes the aborted ones, epoch by epoch.

    The manager is an explicit state; a computation that panics has no result.
    The rayon loops run here in list order, one of their possible schedules.
    For the commits, [interleaving] describes all of them. *)

From S2P Require Import Prelude EvmConfig Types Backend ConflictGraph CdsScheduler GraphProps Seer.
Local Open Scope Z_scope.
Local Open Scope chase_scope.

Record ConcurrencyLevelManager (B : Type) := mkManager {
  concurrency_level : nat;
  global_state : EvmStorage B;
  seer_ctx : SeerContext;
  effect_collector : option (list Apply)
}.
Arguments mkManager {B} _ _ _ _.
Arguments concurrency_level {B} _.
Arguments global_state {B} _.
Arguments seer_ctx {B} _.
Arguments effect_collector {B} _.

Definition with_seer {B} (gs : EvmStorage B) (level : nat) (ctx : SeerContext) :
    ConcurrencyLevelManager B :=
  mkManager level gs ctx None.

Definition set_seer {B} (ctx : SeerContext) (m : ConcurrencyLevelManager B) :
    ConcurrencyLevelManager B :=
  mkManager (concurrency_level m) (global_state m) ctx (effect_collector m).

Definition set_collector {B} (c : option (list Apply)) (m : ConcurrencyLevelManager B) :
    ConcurrencyLevelManager B :=
  mkManager (concurrency_level m) (global_state m) (seer_ctx m) c.

(** [digest] and [data] of every batch; the transactions are numbered across
    the batches. *)
Definition unpack_batches (consensus_output : list ExecutableEthereumBatch) :
    list Z * list IndexedEthereumTransaction :=
  (batch_digest <$> consensus_output,
   imap (fun id tx => mkIndexed tx (Z.of_nat id)) (concat (batch_data <$> consensus_output))).

(** ** Commits *)

Section commit.
Context {B : Type} `{StorageBackend B}.

(** The loop body of the commit functions: record the effect, then apply it. *)
Definition commit_one (m : ConcurrencyLevelManager B) (tx : FinalizedTransaction) :
    ConcurrencyLevelManager B :=
  let effect := FinalizedTransaction_extract tx in
  mkManager (concurrency_level m) (apply_local_effect (global_state m) effect) (seer_ctx m)
    (match effect_collector m with Some sink => Some (sink ++ effect) | None => None end).

Definition commit_in_order (m : ConcurrencyLevelManager B) (txs : list FinalizedTransaction) :
    ConcurrencyLevelManager B :=
  foldl commit_one m txs.

Definition commit_cds_conflict_free_zone (m : ConcurrencyLevelManager B)
    (chains : list (list FinalizedTransaction)) : ConcurrencyLevelManager B :=
  commit_in_order m (concat chains).

Definition concurrent_commit (m : ConcurrencyLevelManager B)
    (scheduled_txs : list (list FinalizedTransaction)) : ConcurrencyLevelManager B :=
  foldl commit_in_order m scheduled_txs.

Definition commit_cds_schedule (m : ConcurrencyLevelManager B) (schedule : ScheduledInfo) :
    ConcurrencyLevelManager B * list (list AbortedTransaction) :=
  let m1 := commit_cds_conflict_free_zone m (conflict_free_zone schedule) in
  let m2 := concurrent_commit m1 (conflict_zone_finalized schedule) in
  (m2, conflict_zone_aborted schedule).

Definition concurrent_commit_2 (m : ConcurrencyLevelManager B)
    (scheduled_txs : list ReExecutedTransaction) : ConcurrencyLevelManager B :=
  concurrent_commit m [FinalizedTransaction_from_reexecuted <$> scheduled_txs].

(** The loop of [_validate_optimistic_assumption]. *)
Definition validate_step
    (st : list ReExecutedTransaction * list ReExecutedTransaction * gset H256)
    (tx : ReExecutedTransaction) :
    list ReExecutedTransaction * list ReExecutedTransaction * gset H256 :=
  let '(valid_txs, invalid_txs, write_set) := st in
  let set := ReExecutedTransaction_write_set tx in
  if is_disjoint set write_set
  then (valid_txs ++ [tx], invalid_txs, write_set ∪ set)
  else (valid_txs, invalid_txs ++ [tx], write_set).

Definition validate (rw_set : list ReExecutedTransaction) :
    list ReExecutedTransaction * list ReExecutedTransaction :=
  let '(valid_txs, invalid_txs, _) := foldl validate_step ([], [], ∅) rw_set in
  (valid_txs, invalid_txs).

Definition validate_optimistic_assumption (m : ConcurrencyLevelManager B)
    (rw_set : list ReExecutedTransaction) :
    ConcurrencyLevelManager B * option (list ReExecutedTransaction) :=
  if decide (length rw_set = 1%nat) then (concurrent_commit_2 m rw_set, None)
  else
    let '(valid_txs, invalid_txs) := validate rw_set in
    (concurrent_commit_2 m valid_txs,
     match invalid_txs with [] => None | _ => Some invalid_txs end).
End commit.

(** The orders in which a parallel loop over sequential lists can run their
    elements. *)
Inductive interleaving {A} : list (list A) -> list A -> Prop :=
| interleaving_done ls : Forall (fun l => l = []) ls -> interleaving ls []
| interleaving_step ls1 x l ls2 out :
    interleaving (ls1 ++ l :: ls2) out -> interleaving (ls1 ++ (x :: l) :: ls2) (x :: out).

(** ** Execution *)

Section execute.
Context {B : Type} `{StorageBackend B} `{EvmExecutor B}.
Context (hs : Hasher) (branch_id_of : H256 -> string) (ncpu : nat) (lcw disable_rescheduling : bool).

Abbreviation Manager := (ConcurrencyLevelManager B).

(** Runs a Seer computation on the context of the manager. *)
Definition on_seer {A} (c : ST SeerContext A) : ST Manager A := fun m =>
  match c (seer_ctx m) with
  | Some (ctx, x) => Some (set_seer ctx m, x)
  | None => None
  end.

(** [_simulate] *)
Definition simulate_batch (tx_list : list IndexedEthereumTransaction) :
    ST Manager (list SimulatedTransaction) := fun m =>
  let snapshot := backend (global_state m) in
  let cfg := config (seer_ctx m) in
  if is_enabled cfg then
    if contract_locality_ordering cfg then
      on_seer (simulate_all (seer_simulate_tx hs branch_id_of snapshot)
                 (order_for_contract_locality tx_list)) m
    else on_seer (seer_simulate_batch hs branch_id_of snapshot tx_list) m
  else
    on_seer (simulate_all (fun tx => st_lift (simulate_tx snapshot tx)) tx_list) m.

Definition keep_reexecuted (tx : IndexedEthereumTransaction)
    (r : Result (option Outcome) SuiError) : option ReExecutedTransaction :=
  match r with
  | Ok (Some o) =>
      Some (ReExecutedTransaction_build_from tx (out_effects o) (out_logs o) (out_rw_set o))
  | _ => None
  end.

(** [_re_execute] *)
Definition re_execute (tx_list : list IndexedEthereumTransaction) :
    ST Manager (list ReExecutedTransaction) := fun m =>
  let snapshot := backend (global_state m) in
  let simulate := fun tx : EthereumTransaction =>
    if is_enabled (config (seer_ctx m))
    then seer_simulate_tx hs branch_id_of snapshot tx
    else st_lift (simulate_tx snapshot tx) in
  on_seer
    (rs ← st_iter (fun t => r ← simulate (itx t); mret (keep_reexecuted t r)) tx_list;
     mret (omap id rs)) m.

(** One iteration of the loop over the aborted epochs. *)
Definition re_execute_epoch (epoch : list AbortedTransaction) :
    ST Manager (option (list ReExecutedTransaction)) :=
  rw_sets ← re_execute (into_raw_tx <$> epoch);
  st_run (fun m => validate_optimistic_assumption m rw_sets).

(** [_execute] *)
Definition execute (consensus_output : list ExecutableEthereumBatch) : ST Manager (list Z) :=
  let '(digests, tx_list) := unpack_batches consensus_output in
  rw_sets ← simulate_batch tx_list;
  schedule ← st_lift (acg ← par_construct ncpu rw_sets;
                      schedule_graph lcw disable_rescheduling acg);
  aborted ← st_run (fun m => commit_cds_schedule m schedule);
  _ ← st_iter re_execute_epoch aborted;
  mret digests.

(** [simulate] *)
Definition simulate (consensus_output : list ExecutableEthereumBatch) :
    ST Manager (list Z * list SimulatedTransaction) :=
  let '(digests, tx_list) := unpack_batches consensus_output in
  rw_sets ← simulate_batch tx_list;
  mret (digests, rw_sets).

(** The [while] loop of [prepare_execution]. *)
Fixpoint prepare_loop (fuel : nat) (target : list ExecutableEthereumBatch) :
    ST Manager (list Z) :=
  match fuel, target with
  | _, [] => mret []
  | O, _ => st_panic
  | S fuel', _ => fun m =>
      let split_idx := Nat.min (concurrency_level m) (length target) in
      (ds ← execute (take split_idx target);
       rest ← prepare_loop fuel' (drop split_idx target);
       mret (ds ++ rest)) m
  end.

(** With a positive concurrency level every iteration removes a batch. *)
Definition prepare_execution (consensus_output : list ExecutableEthereumBatch) :
    ST Manager (list Z) :=
  prepare_loop (length consensus_output) consensus_output.

Definition execute_batch_with_effects (batch : ExecutableEthereumBatch) :
    ST Manager (list Z * list Apply) := fun m =>
  match execute [batch] (set_collector (Some []) m) with
  | Some (m', digests) =>
      Some (set_collector None m', (digests, default [] (effect_collector m')))
  | None => None
  end.
End execute.

(** ** Lemmas: transaction ids *)

Lemma unpack_ids out :
  itx_id <$> (unpack_batches out).2 =
  Z.of_nat <$> seq 0 (length (concat (batch_data <$> out))).
Proof.
  unfold unpack_batches. simpl. generalize (concat (batch_data <$> out)). intros l.
  apply list_eq. intros i. rewrite !list_lookup_fmap, list_lookup_imap.
  destruct (l !! i) as [x|] eqn:E; simpl.
  - apply lookup_lt_Some in E. by rewrite (lookup_seq_lt 0 (length l) i).
  - apply lookup_ge_None in E. by rewrite lookup_seq_ge.
Qed.

Lemma unpack_ids_NoDup out : NoDup (itx_id <$> (unpack_batches out).2).
Proof. rewrite unpack_ids. apply NoDup_fmap_2; [apply _|apply NoDup_seq]. Qed.

(** What a loop over a list returns comes from runs of its body. *)
Lemma st_iter_Forall2 {S A C} (f : A -> ST S C) l s s' ys :
  st_iter f l s = Some (s', ys) ->
  Forall2 (fun x y => exists s1 s2, f x s1 = Some (s2, y)) l ys.
Proof.
  revert s ys. induction l as [|x l IH]; intros s ys; simpl.
  - unfold mret, ST_ret. intros [= _ <-]. constructor.
  - rewrite st_bind_Some. intros (s1 & y & Hx & Hr).
    apply st_bind_Some in Hr as (s2 & ys' & Hl & Hr). unfold mret, ST_ret in Hr. simplify_eq/=.
    constructor; [by eauto|by eapply IH].
Qed.

Lemma simulate_all_ids sim l s s' rs :
  simulate_all sim l s = Some (s', rs) -> sublist (tx_ids rs) (itx_id <$> l).
Proof.
  unfold simulate_all. rewrite st_bind_Some. intros (s1 & os & Hi & Hr).
  unfold mret, ST_ret in Hr. simplify_eq/=. apply st_iter_Forall2 in Hi.
  induction Hi as [|x o l os (s1 & s2 & Hx) _ IH]; csimpl; [constructor|].
  apply st_bind_Some in Hx as (s3 & r & _ & Hm). unfold mret, ST_ret in Hm. simplify_eq/=.
  unfold keep_simulated. destruct r as [[o|]|e]; csimpl; [|by apply sublist_cons..].
  by apply sublist_skip.
Qed.

Section execute_lemmas.
Context {B : Type} `{StorageBackend B} `{EvmExecutor B}.
Context (hs : Hasher) (f : H256 -> string) (ncpu : nat) (lcw dr : bool).
Abbreviation Manager := (ConcurrencyLevelManager B).

Lemma on_seer_Some {A} (c : ST SeerContext A) (m m' : Manager) x :
  on_seer c m = Some (m', x) ↔ exists ctx, c (seer_ctx m) = Some (ctx, x) ∧ m' = set_seer ctx m.
Proof. unfold on_seer. destruct (c (seer_ctx m)) as [[ctx y]|]; naive_solver. Qed.

(** Simulation keeps some transactions of the batch, each at most once. *)
Lemma simulate_batch_ids l (m m' : Manager) rs :
  simulate_batch hs f l m = Some (m', rs) -> tx_ids rs ⊆+ itx_id <$> l.
Proof.
  unfold simulate_batch, seer_simulate_batch.
  assert (forall l', l' ≡ₚ l -> forall sim s ctx, simulate_all sim l' s = Some (ctx, rs) ->
    tx_ids rs ⊆+ itx_id <$> l) as Hp.
  { intros l' Hl sim s ctx Hs%simulate_all_ids%sublist_submseteq. by rewrite Hl in Hs. }
  assert (forall b : bool, (if b then order_for_contract_locality l else l) ≡ₚ l) as Ho.
  { intros []; [apply sort_by_pair_Permutation|done]. }
  repeat case_match; intros (ctx & Hs & _)%on_seer_Some; eapply Hp; try exact Hs;
    [apply (Ho true)|apply Ho|done].
Qed.

Lemma simulate_batch_NoDup out (m m' : Manager) rs :
  simulate_batch hs f (unpack_batches out).2 m = Some (m', rs) -> NoDup (tx_ids rs).
Proof.
  intros (k & Hk)%simulate_batch_ids%submseteq_Permutation.
  pose proof (unpack_ids_NoDup out) as Hnd. rewrite Hk in Hnd. by apply NoDup_app in Hnd as (? & _).
Qed.
End execute_lemmas.

(** ** Lemmas: the concurrency level *)

Section level.
Context {B : Type} `{StorageBackend B} `{EvmExecutor B}.
Context (hs : Hasher) (f : H256 -> string) (ncpu : nat) (lcw dr : bool).
Abbreviation Manager := (ConcurrencyLevelManager B).

(** The computation leaves the concurrency level alone. *)
Definition keeps_level {A} (c : ST Manager A) : Prop :=
  forall m m' x, c m = Some (m', x) -> concurrency_level m' = concurrency_level m.

Lemma keeps_level_bind {A C} (c : ST Manager A) (k : A -> ST Manager C) :
  keeps_level c -> (forall x, keeps_level (k x)) -> keeps_level (c ≫= k).
Proof.
  intros Hc Hk m m' y (m1 & x & H1 & H2)%st_bind_Some.
  rewrite (Hk _ _ _ _ H2). by eapply Hc.
Qed.

Lemma keeps_level_iter {A C} (g : A -> ST Manager C) l :
  (forall x, keeps_level (g x)) -> keeps_level (st_iter g l).
Proof.
  intros Hg. induction l as [|x l IH]; simpl; [by intros m m' y [= -> _]|].
  apply keeps_level_bind; [apply Hg|]. intros y. apply keeps_level_bind; [done|].
  by intros ys m m' z [= -> _].
Qed.

Lemma commit_in_order_level (m : Manager) txs :
  concurrency_level (commit_in_order m txs) = concurrency_level m.
Proof.
  unfold commit_in_order. revert m. induction txs as [|tx txs IH]; intros m; simpl; [done|].
  by rewrite IH.
Qed.

Lemma concurrent_commit_level (m : Manager) epochs :
  concurrency_level (concurrent_commit m epochs) = concurrency_level m.
Proof.
  unfold concurrent_commit. revert m. induction epochs as [|e es IH]; intros m; simpl; [done|].
  by rewrite IH, commit_in_order_level.
Qed.

Lemma on_seer_level {A} (c : ST SeerContext A) : keeps_level (on_seer (B := B) c).
Proof. intros m m' x (ctx & _ & ->)%on_seer_Some. done. Qed.

Lemma simulate_batch_level l : keeps_level (simulate_batch (B := B) hs f l).
Proof. intros m m' x. unfold simulate_batch. repeat case_match; apply on_seer_level. Qed.

Lemma re_execute_level l : keeps_level (re_execute (B := B) hs f l).
Proof. intros m m' x. unfold re_execute. apply on_seer_level. Qed.

Lemma re_execute_epoch_level e : keeps_level (re_execute_epoch (B := B) hs f e).
Proof.
  apply keeps_level_bind; [apply re_execute_level|]. intros rw m m' x [= E].
  unfold validate_optimistic_assumption, concurrent_commit_2 in E.
  case_decide; [|destruct (validate rw)]; simplify_eq; apply concurrent_commit_level.
Qed.

Lemma execute_level out : keeps_level (execute (B := B) hs f ncpu lcw dr out).
Proof.
  unfold execute. destruct (unpack_batches out) as [ds l].
  apply keeps_level_bind; [apply simulate_batch_level|]. intros rw.
  apply keeps_level_bind.
  { intros m m' x. unfold st_lift. case_match; [by intros [= -> _]|done]. }
  intros s. apply keeps_level_bind.
  { intros m m' x [= E]. unfold commit_cds_schedule in E. simplify_eq.
    rewrite concurrent_commit_level. apply commit_in_order_level. }
  intros ab. apply keeps_level_bind; [apply keeps_level_iter, re_execute_epoch_level|].
  by intros ? m m' x [= -> _].
Qed.

Lemma prepare_loop_chunks fuel out (m : Manager) :
  (0 < concurrency_level m)%nat -> (length out <= fuel)%nat ->
  prepare_loop hs f ncpu lcw dr fuel out m =
  (dss ← st_iter (execute hs f ncpu lcw dr) (chunks_of fuel (concurrency_level m) out);
   mret (concat dss)) m.
Proof.
  revert out m. induction fuel as [|fuel IH]; intros out m Hl Hn.
  { destruct out; [done|simpl in Hn; lia]. }
  destruct out as [|b out]; [done|]. cbn [prepare_loop chunks_of st_iter].
  set (t := b :: out) in *.
  assert (take (Nat.min (concurrency_level m) (length t)) t = take (concurrency_level m) t ∧
    drop (Nat.min (concurrency_level m) (length t)) t = drop (concurrency_level m) t) as [-> ->].
  { destruct (decide (concurrency_level m <= length t)%nat).
    - by rewrite Nat.min_l.
    - rewrite Nat.min_r by lia. by rewrite !take_ge, !drop_ge by lia. }
  unfold mbind at 1 3 4, ST_bind.
  destruct (execute hs f ncpu lcw dr (take (concurrency_level m) t) m) as [[m1 ds]|] eqn:E; [|done].
  apply execute_level in E. unfold mbind, ST_bind. rewrite IH.
  - rewrite E. unfold mbind, ST_bind.
    by destruct (st_iter _ (chunks_of fuel (concurrency_level m) _) m1) as [[m2 dss]|].
  - lia.
  - rewrite length_drop. subst t. simpl in *. lia.
Qed.
End level.

(** ** Lemmas: validation *)

Definition writes_disjoint (x y : ReExecutedTransaction) : Prop :=
  ReExecutedTransaction_write_set y ## ReExecutedTransaction_write_set x.

Record validated (done : list ReExecutedTransaction)
    (st : list ReExecutedTransaction * list ReExecutedTransaction * gset H256) : Prop := {
  va_perm : st.1.1 ++ st.1.2 ≡ₚ done;
  va_set : forall k, k ∈ st.2 ↔ exists tx, tx ∈ st.1.1 ∧ k ∈ ReExecutedTransaction_write_set tx;
  va_valid : StronglySorted writes_disjoint st.1.1;
  va_invalid : forall tx, tx ∈ st.1.2 -> ¬ (ReExecutedTransaction_write_set tx ## st.2)
}.

Lemma validate_step_validated done st tx :
  validated done st -> validated (done ++ [tx]) (validate_step st tx).
Proof.
  destruct st as [[v i] W]. intros [H1 H2 H3 H4]. simpl in *. unfold validate_step.
  destruct (is_disjoint _ W) eqn:E.
  - apply is_disjoint_spec in E. split; simpl.
    + rewrite <- H1, <- !app_assoc. apply Permutation_app_head, Permutation_app_comm.
    + intros k. rewrite elem_of_union, H2. setoid_rewrite elem_of_app.
      setoid_rewrite list_elem_of_singleton. naive_solver.
    + apply StronglySorted_app. split_and!; [|done|by repeat constructor].
      intros x y Hx Hy%list_elem_of_singleton k Hk Hkx. subst y. apply (E k); [done|]. apply H2. eauto.
    + intros x Hx Hd. apply (H4 x Hx). set_solver.
  - assert (¬ (ReExecutedTransaction_write_set tx ## W)) as En.
    { rewrite <- is_disjoint_spec. congruence. }
    split; simpl; [by rewrite <- H1, app_assoc|done|done|].
    intros x [Hx|Hx%list_elem_of_singleton]%elem_of_app; [auto|by subst].
Qed.

Lemma fold_validate_validated rw :
  validated rw (foldl validate_step ([], [], ∅) rw).
Proof.
  induction rw as [|tx rw IH] using rev_ind.
  - split; simpl; [done| |constructor|by intros ? ?%elem_of_nil].
    intros k. split; [set_solver|]. by intros (? & ?%elem_of_nil & _).
  - rewrite foldl_app. simpl. by apply validate_step_validated.
Qed.

(** ** Lemmas: the order of commits *)

(** The storage the manager's backend shows. *)
Definition storage_of {B} `{StorageBackend B} (m : ConcurrencyLevelManager B) : world :=
  be_storage (backend (global_state m)).

Section commit_order.
Context {B : Type} `{StorageBackendLaws B}.
Abbreviation Manager := (ConcurrencyLevelManager B).

Lemma commit_in_order_storage (m : Manager) txs a k :
  storage_of (commit_in_order m txs) a k =
  effects_storage (concat (fin_effect <$> txs)) (storage_of m) a k.
Proof.
  unfold commit_in_order. revert m. induction txs as [|tx txs IH]; intros m; csimpl; [done|].
  rewrite IH, effects_storage_app. apply effects_storage_proper. intros a' k'.
  unfold storage_of, commit_one. simpl. apply be_storage_apply.
Qed.

(** The effects of the transaction are plain writes of slots in [keys]. *)
Definition confined (keys : gset H256) (tx : FinalizedTransaction) : Prop :=
  Forall plain (fin_effect tx) ∧
  forall a k v, ((a, k), v) ∈ effects_writes (fin_effect tx) -> k ∈ keys.

Lemma effects_writes_concat txs :
  effects_writes (concat (fin_effect <$> txs)) = concat ((fun tx => effects_writes (fin_effect tx)) <$> txs).
Proof.
  induction txs as [|tx txs IH]; csimpl; [done|]. unfold effects_writes in *.
  by rewrite bind_app, IH.
Qed.

Lemma commit_in_order_permutation {A} (m : Manager) (fin : A -> FinalizedTransaction)
    (keys : A -> gset H256) l txs :
  Forall (fun x => confined (keys x) (fin x)) l ->
  StronglySorted (fun x y => keys y ## keys x) l -> txs ≡ₚ fin <$> l ->
  forall a k, storage_of (commit_in_order m txs) a k = storage_of (commit_in_order m (fin <$> l)) a k.
Proof.
  intros Hc Hs Hp a k. rewrite !commit_in_order_storage.
  assert (forall l', l' ≡ₚ fin <$> l -> Forall plain (concat (fin_effect <$> l'))) as Hplain.
  { intros l' Hl. apply Forall_concat, Forall_fmap. rewrite Hl. apply Forall_fmap.
    eapply Forall_impl; [done|]. by intros x []. }
  rewrite !effects_storage_plain by auto. rewrite !effects_writes_concat.
  rewrite (last_write_concat_Permutation _ ((fun tx => effects_writes (fin_effect tx)) <$> (fin <$> l)));
    [done|by rewrite Hp|].
  intros l1 l2 (t1 & -> & H1)%list_elem_of_fmap (t2 & -> & H2)%list_elem_of_fmap Hn1 Hn2.
  apply list_elem_of_fmap in H1 as (x1 & -> & H1), H2 as (x2 & -> & H2).
  rewrite Forall_forall in Hc. destruct (Hc _ H1) as [_ C1], (Hc _ H2) as [_ C2].
  destruct (effects_writes (fin_effect (fin x1)) !!ʳ (a, k)) as [v1|] eqn:E1; [|done].
  destruct (effects_writes (fin_effect (fin x2)) !!ʳ (a, k)) as [v2|] eqn:E2; [|done].
  pose proof (C1 _ _ _ (last_write_Some_elem_of _ _ _ E1)) as K1.
  pose proof (C2 _ _ _ (last_write_Some_elem_of _ _ _ E2)) as K2.
  destruct (StronglySorted_cases _ _ _ _ Hs H1 H2) as [->|[Hd|Hd]]; [congruence|set_solver..].
Qed.

Lemma epoch_commit_permutation (m : Manager) (candidates : list TxWithKeys) e order :
  Forall (fun tx => confined (tk_write_keys tx) (tk_finalized tx)) candidates ->
  e ∈ place_into_epochs candidates tk_finalized -> order ≡ₚ e ->
  forall a k, storage_of (commit_in_order m order) a k = storage_of (commit_in_order m e) a k.
Proof.
  intros Hc He Hp. unfold place_into_epochs in He. rewrite place_all_fmap in He.
  apply list_elem_of_fmap in He as (l & -> & Hl).
  destruct (place_all_inv tk_read_keys tk_write_keys candidates) as [_ Hperm _ Hcompat _].
  apply (commit_in_order_permutation m tk_finalized tk_write_keys); [| |done].
  - apply Forall_forall. intros x Hx. rewrite Forall_forall in Hc. apply Hc. rewrite <- Hperm.
    apply list_elem_of_In, in_concat. exists l. by rewrite <- !list_elem_of_In.
  - apply list_elem_of_lookup in Hl as [p Hl]. specialize (Hcompat p l Hl).
    eapply StronglySorted_impl; [|exact Hcompat]. intros x y Hxy. set_solver.
Qed.
End commit_order.

(** ** Lemmas: the cache across a batch *)

Section cache_lemmas.
Context {B : Type} `{StorageBackend B} `{EvmExecutor B}.
Context (hs : Hasher) (f : H256 -> string).

(** Entries are never overwritten: a present one is a hit. *)
Lemma seer_simulate_entries (b : B) tx s s' r :
  enable_cache (config s) = true -> seer_simulate_tx hs f b tx s = Some (s', r) ->
  config s' = config s ∧
  entries (pre_execution_cache s) ⊆ entries (pre_execution_cache s').
Proof.
  intros Hc. unfold seer_simulate_tx. rewrite st_bind_Some.
  intros (s1 & cached & Hl & Hr). unfold cache_lookup in Hl. rewrite Hc in Hl.
  unfold PreExecutionCache_get in Hl.
  destruct (TxFingerprint_from_tx hs tx) as [fp|] eqn:Ef; [|done].
  destruct (entries (pre_execution_cache s) !! fp) as [o'|] eqn:Ee; simplify_eq/=.
  { unfold mret, ST_ret in Hr. by simplify_eq/=. }
  apply st_bind_Some in Hr as (s2 & res & Hsim & Hr).
  unfold st_lift in Hsim. destruct (simulate_tx b tx); simplify_eq/=.
  destruct res as [[o'|]|e]; [|unfold mret, ST_ret in Hr; by simplify_eq/=..].
  apply st_bind_Some in Hr as (s3 & [] & Hst & Hr).
  unfold cache_store, PreExecutionCache_insert in Hst. simpl in Hst.
  rewrite Hc, Ef in Hst. simplify_eq/=.
  apply st_bind_Some in Hr as (s4 & [] & Hln & Hr). unfold mret, ST_ret in Hr. simplify_eq/=.
  assert (config s' = config s ∧ entries (pre_execution_cache s') =
    <[fp := o']> (entries (pre_execution_cache s))) as [-> ->].
  { unfold learn in Hln. simpl in Hln. repeat case_match; by simplify_eq/=. }
  split; [done|]. by apply insert_subseteq.
Qed.

(** The simulation result is in the cache under the fingerprint of its
    transaction. *)
Definition cached (s : SeerContext) (r : SimulatedTransaction) : Prop :=
  exists fp, TxFingerprint_from_tx hs (itx (sim_raw_tx r)) = Some fp ∧
    entries (pre_execution_cache s) !! fp =
      Some (mkOutcome (sim_effects r) (sim_logs r) (sim_rw_set r)).

Lemma simulate_all_cached (b : B) l s s' rs :
  enable_cache (config s) = true ->
  simulate_all (seer_simulate_tx hs f b) l s = Some (s', rs) ->
  config s' = config s ∧ entries (pre_execution_cache s) ⊆ entries (pre_execution_cache s') ∧
  Forall (cached s') rs.
Proof.
  unfold simulate_all. intros Hc (s1 & os & Hi & E)%st_bind_Some. unfold mret, ST_ret in E.
  simplify_eq/=. revert s os Hc Hi. induction l as [|t l IH]; intros s os Hc Hi; simpl in Hi.
  { unfold mret, ST_ret in Hi. simplify_eq/=. split_and!; [done..|constructor]. }
  apply st_bind_Some in Hi as (s1 & o & Ht & Hi). apply st_bind_Some in Hi as (s2 & os' & Hl & E).
  unfold mret, ST_ret in E. simplify_eq/=.
  apply st_bind_Some in Ht as (s3 & res & Hsim & E). unfold mret, ST_ret in E. simplify_eq/=.
  destruct (seer_simulate_entries b _ _ _ _ Hc Hsim) as [Hc1 Hsub].
  destruct (IH s1 os') as (Hc2 & Hsub2 & Hf); [congruence|done|].
  split_and!; [congruence|by etransitivity|].
  destruct res as [[o|]|e]; csimpl; [|done..]. constructor; [|done].
  destruct (seer_simulate_caches hs f b _ _ _ _ Hc Hsim) as (_ & fp & Hfp & He).
  exists fp. split; [done|]. simpl. destruct o. simpl. by eapply lookup_weaken.
Qed.

Lemma simulate_batch_cached l (m m' : ConcurrencyLevelManager B) rs :
  enable_cache (config (seer_ctx m)) = true ->
  simulate_batch hs f l m = Some (m', rs) ->
  config (seer_ctx m') = config (seer_ctx m) ∧ Forall (cached (seer_ctx m')) rs.
Proof.
  intros Hc. unfold simulate_batch, seer_simulate_batch, is_enabled. rewrite Hc, orb_true_r. simpl.
  case_match; intros (ctx & Hs & ->)%on_seer_Some; apply simulate_all_cached in Hs as (? & _ & ?); done.
Qed.

Lemma re_execute_cached (m : ConcurrencyLevelManager B) r :
  enable_cache (config (seer_ctx m)) = true -> cached (seer_ctx m) r ->
  exists m', re_execute hs f [sim_raw_tx r] m =
    Some (m', [ReExecutedTransaction_build_from (sim_raw_tx r)
                 (sim_effects r) (sim_logs r) (sim_rw_set r)]).
Proof.
  intros Hc (fp & Hfp & He). unfold re_execute, is_enabled. rewrite Hc, orb_true_r. simpl.
  destruct (seer_simulate_hit hs f (backend (global_state m)) _ (seer_ctx m) fp _ Hc Hfp He)
    as (s' & E & _).
  exists (set_seer s' m). apply on_seer_Some. exists s'. split; [|done].
  unfold mbind, ST_bind. rewrite E. reflexivity.
Qed.
End cache_lemmas.

(** ** Lemmas: absence of panics *)

(** The fields the simulation unwraps are present. *)
Record tx_complete (tx : EthereumTransaction) : Prop := {
  tc_gas : is_Some (gas_limit tx);
  tc_caller : is_Some (caller tx);
  tc_value : is_Some (value tx);
  tc_data : is_Some (to_addr tx) -> is_Some (data tx);
  tc_nonce : is_Some (tx_nonce_of tx)
}.

Lemma st_iter_total {S A C} (I : S -> Prop) (P : C -> Prop) (f : A -> ST S C) l s :
  (forall x s, x ∈ l -> I s -> exists s' y, f x s = Some (s', y) ∧ I s' ∧ P y) -> I s ->
  exists s' ys, st_iter f l s = Some (s', ys) ∧ I s' ∧ Forall P ys.
Proof.
  revert s. induction l as [|x l IH]; intros s Hf Hs; simpl; [unfold mret, ST_ret; by eauto|].
  destruct (Hf x s) as (s1 & y & Hx & Hs1 & Hy); [left|done|].
  destruct (IH s1) as (s2 & ys & Hl & Hs2 & Hys); [intros; apply Hf; [by right|done]|done|].
  exists s2, (y :: ys). split; [|by split; [|constructor]]. apply st_bind_Some. exists s1, y. split; [done|].
  apply st_bind_Some. exists s2, ys. split; [done|]. unfold mret, ST_ret. done.
Qed.

Lemma st_bind_eq {S A C} (m : ST S A) (k : A -> ST S C) s s1 x :
  m s = Some (s1, x) -> (m ≫= k) s = k x s1.
Proof. unfold mbind, ST_bind. by intros ->. Qed.

Lemma validate_valid rw tx : tx ∈ (validate rw).1 -> tx ∈ rw.
Proof.
  unfold validate. pose proof (fold_validate_validated rw) as [H1 _ _ _].
  destruct (foldl validate_step _ rw) as [[v i] W]. simpl in *. intros Hv. rewrite <- H1. set_solver.
Qed.

(** What the scheduler asks of the interpreter: on a good state, the simulation of a
    good transaction ends without a panic and has good effects, and good effects lead
    to a good state. *)
Class SimulationLaws {B} `{StorageBackend B} `{EvmExecutor B} (good : B -> Prop)
    (good_tx : EthereumTransaction -> Prop) (good_effects : list Apply -> Prop) : Prop := {
  sl_complete tx : good_tx tx -> tx_complete tx;
  sl_total b tx : good b -> good_tx tx ->
    exists r, simulate_tx b tx = Some r ∧ forall o, r = Ok (Some o) -> good_effects (out_effects o);
  sl_apply b es : good b -> good_effects es -> good (be_apply b es false)
}.

(** A context whose cached effects are good. *)
Definition seer_ok (good_effects : list Apply -> Prop) (s : SeerContext) : Prop :=
  table_ok (var_table s) ∧
  forall fp o, entries (pre_execution_cache s) !! fp = Some o -> good_effects (out_effects o).

Section totality.
Context {B : Type} `{HB : StorageBackend B} `{HE : EvmExecutor B}.
Context (good : B -> Prop) (good_tx : EthereumTransaction -> Prop) (good_effects : list Apply -> Prop).
Context `{HL : !SimulationLaws good good_tx good_effects}.
Context (hs : Hasher) (f : H256 -> string) (ncpu : nat) (lcw dr : bool).
Abbreviation Manager := (ConcurrencyLevelManager B).
Abbreviation ctx_ok := (seer_ok good_effects).

Definition manager_ok (m : Manager) : Prop := good (backend (global_state m)) ∧ ctx_ok (seer_ctx m).

Definition result_good (r : Result (option Outcome) SuiError) : Prop :=
  forall o, r = Ok (Some o) -> good_effects (out_effects o).

Lemma fingerprint_total tx : tx_complete tx -> is_Some (TxFingerprint_from_tx hs tx).
Proof.
  intros [[g Hg] [c Hc] [v Hv] _ _]. unfold TxFingerprint_from_tx. rewrite Hv, Hc, Hg. simpl. eauto.
Qed.

Lemma learn_total tx o s :
  ctx_ok s -> exists s', learn f tx o s = Some (s', tt) ∧ ctx_ok s'.
Proof.
  intros [Ht He]. unfold learn. destruct (enable_perceptron (config s)); [|by eexists].
  destruct (to_addr tx) as [to|]; [|by eexists].
  destruct (learn_slots_ok f to (extract_write_set (out_rw_set o)) (var_table s)
    (elements (extract_read_set (out_rw_set o)) ++ elements (extract_write_set (out_rw_set o))) Ht)
    as (t' & E & Ht' & _). unfold learn_from_rw_access. rewrite E. by eexists.
Qed.

Lemma cache_lookup_total tx s :
  tx_complete tx -> ctx_ok s -> exists s' r, cache_lookup hs tx s = Some (s', r) ∧ ctx_ok s' ∧ result_good (Ok r).
Proof.
  intros Htx [Ht He]. destruct (fingerprint_total tx Htx) as [fp Hfp].
  unfold cache_lookup, PreExecutionCache_get. rewrite Hfp. destruct (enable_cache (config s)).
  - destruct (entries (pre_execution_cache s) !! fp) as [o|] eqn:Ee; eexists _, _; (split; [done|]); split; try done.
    intros o' [= <-]. by eapply He.
  - by eexists _, _.
Qed.

Lemma cache_store_total tx o s :
  tx_complete tx -> good_effects (out_effects o) -> ctx_ok s ->
  exists s', cache_store hs tx o s = Some (s', tt) ∧ ctx_ok s'.
Proof.
  intros Htx Ho [Ht He]. destruct (fingerprint_total tx Htx) as [fp Hfp].
  unfold cache_store, PreExecutionCache_insert. rewrite Hfp. destruct (enable_cache (config s)); [|by eexists].
  eexists. split; [done|]. split; [done|]. simpl.
  intros fp' o' [[<- <-]|[_ Hl]]%lookup_insert_Some; [done|by eapply He].
Qed.

Lemma seer_simulate_total b tx s :
  good b -> good_tx tx -> ctx_ok s ->
  exists s' r, seer_simulate_tx hs f b tx s = Some (s', r) ∧ ctx_ok s' ∧ result_good r.
Proof.
  intros Hb Htx Hs. pose proof (sl_complete _ Htx) as Hc.
  destruct (cache_lookup_total tx s Hc Hs) as (s1 & r & E1 & Hs1 & Hr).
  unfold seer_simulate_tx. rewrite (st_bind_eq _ _ _ _ _ E1). destruct r as [o|]; [by eexists _, _|].
  destruct (sl_total b tx Hb Htx) as (r & E & Hg). rewrite (st_bind_eq _ _ s1 s1 r) by (unfold st_lift; by rewrite E).
  destruct r as [[o|]|e]; [|by eexists _, _..].
  destruct (cache_store_total tx o s1 Hc (Hg o eq_refl) Hs1) as (s2 & E2 & Hs2). rewrite (st_bind_eq _ _ _ _ _ E2).
  destruct (learn_total tx o s2 Hs2) as (s3 & E3 & Hs3). rewrite (st_bind_eq _ _ _ _ _ E3). by eexists _, _.
Qed.

(** The simulation the manager uses, with or without the Seer. *)
Lemma simulate_one_total (enabled : bool) b tx s :
  good b -> good_tx tx -> ctx_ok s ->
  exists s' r, (if enabled then seer_simulate_tx hs f b tx else st_lift (simulate_tx b tx)) s = Some (s', r) ∧
    ctx_ok s' ∧ result_good r.
Proof.
  intros Hb Htx Hs. destruct enabled; [by apply seer_simulate_total|].
  destruct (sl_total b tx Hb Htx) as (r & E & Hr). exists s, r. unfold st_lift. by rewrite E.
Qed.

Lemma simulate_all_total sim l s :
  (forall t s, t ∈ l -> ctx_ok s -> exists s' r, sim (itx t) s = Some (s', r) ∧ ctx_ok s' ∧ result_good r) ->
  ctx_ok s -> exists s' rs, simulate_all sim l s = Some (s', rs) ∧ ctx_ok s' ∧
    Forall (fun r => good_effects (sim_effects r)) rs.
Proof.
  intros Hsim Hs. unfold simulate_all.
  destruct (st_iter_total ctx_ok (fun o => forall r, o = Some r -> good_effects (sim_effects r))
    (fun t => r ← sim (itx t); mret (keep_simulated t r)) l s) as (s' & ys & Hi & Hs' & Hys); [|done|].
  { intros t s0 Ht H0'. destruct (Hsim t s0 Ht H0') as (s1 & r & Hr & H1' & Hg).
    exists s1, (keep_simulated t r). split; [apply st_bind_Some; eauto|]. split; [done|].
    unfold keep_simulated. intros r0 E. destruct r as [[o|]|]; simplify_eq. by apply Hg. }
  exists s', (omap id ys). split; [apply st_bind_Some; eauto|]. split; [done|].
  apply Forall_forall. intros r (o & Ho & Er)%list_elem_of_omap. rewrite Forall_forall in Hys. by eapply Hys.
Qed.

Lemma simulate_batch_total l (m : Manager) :
  Forall (fun t => good_tx (itx t)) l -> manager_ok m ->
  exists m' rs, simulate_batch hs f l m = Some (m', rs) ∧ manager_ok m' ∧
    Forall (fun r => good_effects (sim_effects r)) rs.
Proof.
  rewrite Forall_forall. intros Hl [Hb Hm].
  assert (forall (enabled : bool) l', (forall t, t ∈ l' -> t ∈ l) ->
    exists m' rs, on_seer (simulate_all (fun tx => if enabled then seer_simulate_tx hs f (backend (global_state m)) tx
        else st_lift (simulate_tx (backend (global_state m)) tx)) l') m = Some (m', rs) ∧ manager_ok m' ∧
      Forall (fun r => good_effects (sim_effects r)) rs) as Hall.
  { intros enabled l' Hsub.
    destruct (simulate_all_total (fun tx => if enabled then seer_simulate_tx hs f (backend (global_state m)) tx
      else st_lift (simulate_tx (backend (global_state m)) tx)) l' (seer_ctx m)) as (s' & rs & E & Hs' & Hrs); [|done|].
    - intros t s Ht Hs. apply simulate_one_total; auto.
    - exists (set_seer s' m), rs. split; [apply on_seer_Some; by eexists|]. done. }
  assert (forall t, t ∈ order_for_contract_locality l -> t ∈ l) as Hord.
  { intros t. unfold order_for_contract_locality. by rewrite sort_by_pair_Permutation. }
  unfold simulate_batch, seer_simulate_batch. destruct (is_enabled _); [|by apply (Hall false)].
  destruct (contract_locality_ordering (config (seer_ctx m))) eqn:El; [by apply (Hall true)|].
  destruct (Hall true l) as (m' & rs & E & ?); [done|]. exists m', rs. split; [|done]. unfold on_seer in *.
  by rewrite El.
Qed.

Lemma commit_in_order_ok (m : Manager) txs :
  Forall (fun tx => good_effects (fin_effect tx)) txs -> manager_ok m -> manager_ok (commit_in_order m txs).
Proof.
  intros Htxs. unfold commit_in_order. revert m. induction Htxs as [|tx txs Htx _ IH]; intros m Hm; simpl; [done|].
  apply IH. destruct Hm as [Hb Hs]. split; [|done]. by apply sl_apply.
Qed.

Lemma concurrent_commit_ok (m : Manager) epochs :
  Forall (fun tx => good_effects (fin_effect tx)) (concat epochs) -> manager_ok m ->
  manager_ok (concurrent_commit m epochs).
Proof.
  unfold concurrent_commit. revert m. induction epochs as [|e es IH]; intros m He Hm; simpl; [done|].
  apply Forall_app in He as [He Hes]. apply IH; [done|]. by apply commit_in_order_ok.
Qed.

Lemma validate_optimistic_ok (m : Manager) rw :
  Forall (fun tx => good_effects (reexec_effect tx)) rw -> manager_ok m ->
  manager_ok (validate_optimistic_assumption m rw).1.
Proof.
  rewrite Forall_forall. intros Hrw Hm.
  assert (forall l, (forall tx, tx ∈ l -> tx ∈ rw) -> manager_ok (concurrent_commit_2 m l)) as Hc.
  { intros l Hl. apply concurrent_commit_ok; [|done]. simpl. rewrite app_nil_r. apply Forall_fmap, Forall_forall.
    intros tx Htx. by apply Hrw, Hl. }
  unfold validate_optimistic_assumption. case_decide; [by apply Hc|].
  pose proof (validate_valid rw) as Hv. destruct (validate rw) as [v i]. by apply Hc.
Qed.

Lemma re_execute_epoch_total epoch (m : Manager) :
  Forall (fun a => good_tx (itx (into_raw_tx a))) epoch -> manager_ok m ->
  exists m' r, re_execute_epoch hs f epoch m = Some (m', r) ∧ manager_ok m'.
Proof.
  rewrite Forall_forall. intros He [Hb Hm].
  assert (exists m1 rs, re_execute hs f (into_raw_tx <$> epoch) m = Some (m1, rs) ∧ manager_ok m1 ∧
    Forall (fun tx => good_effects (reexec_effect tx)) rs) as (m1 & rs & Hr & Hm1 & Hrs).
  { unfold re_execute.
    destruct (st_iter_total ctx_ok (fun o => forall r, o = Some r -> good_effects (reexec_effect r))
      (fun t => r ← (if is_enabled (config (seer_ctx m))
         then seer_simulate_tx hs f (backend (global_state m)) (itx t)
         else st_lift (simulate_tx (backend (global_state m)) (itx t))); mret (keep_reexecuted t r))
      (into_raw_tx <$> epoch) (seer_ctx m)) as (s' & ys & Hi & Hs' & Hys); [|done|].
    - intros t s (a & -> & Ha)%list_elem_of_fmap Hs.
      destruct (simulate_one_total (is_enabled (config (seer_ctx m))) (backend (global_state m)) _ s Hb (He a Ha) Hs)
        as (s1 & r & E & Hs1 & Hg).
      eexists s1, _. split; [apply st_bind_Some; by eexists _, _|]. split; [done|].
      unfold keep_reexecuted. intros r0 Er. destruct r as [[o|]|]; simplify_eq. by apply Hg.
    - exists (set_seer s' m), (omap id ys). split; [|split; [done|]].
      + apply on_seer_Some. exists s'. split; [|done]. apply st_bind_Some. eauto.
      + apply Forall_forall. intros r (o & Ho & Er)%list_elem_of_omap. rewrite Forall_forall in Hys. by eapply Hys. }
  unfold re_execute_epoch. eexists _, _. split.
  - apply st_bind_Some. exists m1, rs. split; [exact Hr|]. unfold st_run.
    rewrite (surjective_pairing (validate_optimistic_assumption m1 rs)). reflexivity.
  - by apply validate_optimistic_ok.
Qed.
End totality.

Section execute_total.
Context {B : Type} `{HB : StorageBackend B} `{HE : EvmExecutor B}.
Context (hs : Hasher) (f : H256 -> string) (ncpu : nat) (lcw dr : bool).
Abbreviation Manager := (ConcurrencyLevelManager B).

Lemma simulate_batch_raw l (m m' : Manager) rs r :
  simulate_batch hs f l m = Some (m', rs) -> r ∈ rs -> sim_raw_tx r ∈ l.
Proof.
  intros Hs Hr.
  assert (forall sim l' s ctx, simulate_all sim l' s = Some (ctx, rs) -> sim_raw_tx r ∈ l') as Hall.
  { intros sim l' s ctx. unfold simulate_all. rewrite st_bind_Some.
    intros (s1 & os & Hi%st_iter_Forall2 & E). unfold mret, ST_ret in E. simplify_eq/=.
    apply list_elem_of_omap in Hr as (o & Ho & Eo). unfold id in Eo. subst o.
    apply list_elem_of_lookup in Ho as [i Hi'].
    destruct (Forall2_lookup_r _ _ _ _ _ Hi Hi') as (x & Hx & s2 & s3 & Hb).
    apply st_bind_Some in Hb as (s4 & res & _ & E). unfold mret, ST_ret in E. simplify_eq/=.
    unfold keep_simulated in *. repeat case_match; simplify_eq/=.
    by eapply list_elem_of_lookup_2. }
  unfold simulate_batch, seer_simulate_batch in Hs.
  assert (forall t, t ∈ order_for_contract_locality l -> t ∈ l) as Hord.
  { intros t. unfold order_for_contract_locality. by rewrite sort_by_pair_Permutation. }
  repeat case_match; apply on_seer_Some in Hs as (ctx & Hs & _); apply Hall in Hs; auto.
  by case_match; auto.
Qed.

Lemma schedule_aborted_raw txs g s a :
  NoDup (tx_ids txs) -> par_construct ncpu txs = Some g -> schedule_graph lcw dr g = Some s ->
  a ∈ concat (conflict_zone_aborted s) -> exists tx, tx ∈ txs ∧ into_raw_tx a = sim_raw_tx tx.
Proof.
  intros Hnd Hg Hs Ha.
  destruct (par_construct_wf ncpu txs) as (g' & Hg' & W); [by intros ->|done|].
  assert (g' = g) as -> by congruence. destruct dr.
  - apply (schedule_graph_reordered lcw true txs g s Hnd W) in Hs as (g' & _ & Hx).
    unfold extract_schedule in Hx. destruct (take_schedule g') as [l1 l2].
    unfold build_cds_schedule in Hx. destruct (extract_conflict_free_chains _); [|done].
    simplify_eq/=. by apply elem_of_nil in Ha.
  - destruct (schedule_graph_conservation lcw txs g s Hnd W Hs) as (_ & _ & Hc).
    destruct (Hc a Ha) as (tx & Hin & ->). eauto.
Qed.

(** The committed transactions carry effects of the simulation. *)
Lemma schedule_finalized_effects txs g s x :
  NoDup (tx_ids txs) -> par_construct ncpu txs = Some g -> schedule_graph lcw dr g = Some s ->
  x ∈ concat (first_pass_epochs s) -> exists tx, tx ∈ txs ∧ fin_effect x = sim_effects tx.
Proof.
  intros Hnd Hg Hs Hx.
  destruct (par_construct_wf ncpu txs) as (g' & Hg' & W); [by intros ->|done|].
  assert (g' = g) as -> by congruence.
  assert (exists s', schedule_graph lcw false g = Some s' ∧ first_pass_epochs s' = first_pass_epochs s) as (s' & Hs' & E).
  { unfold schedule_graph, extract_schedule, build_cds_schedule in *. destruct (reorder _) as [g'|]; [|done]. simpl in *.
    destruct (take_schedule g'). destruct (extract_conflict_free_chains _); [|done]. simplify_eq/=. by eexists. }
  destruct (schedule_graph_conservation lcw txs g s' Hnd W Hs') as (_ & Hc & _). rewrite E in Hc.
  destruct (Hc x Hx) as (tx & Hin & ->). eauto.
Qed.
End execute_total.

(** Once the schedule is built, committing it and re-executing the aborted
    epochs does not panic. *)
Lemma execute_commit_total {B} `{HB : StorageBackend B} `{HE : EvmExecutor B} good good_tx good_effects
    `{!SimulationLaws good good_tx good_effects} hs f ncpu lcw dr rws (m1 : ConcurrencyLevelManager B) s :
  NoDup (tx_ids rws) -> Forall (fun r => good_tx (itx (sim_raw_tx r)) ∧ good_effects (sim_effects r)) rws ->
  manager_ok good good_effects m1 ->
  (acg ← par_construct ncpu rws; schedule_graph lcw dr acg) = Some s ->
  exists m2 m3 ab ys, st_run (fun m => commit_cds_schedule m s) m1 = Some (m2, ab) ∧
    st_iter (re_execute_epoch hs f) ab m2 = Some (m3, ys) ∧ manager_ok good good_effects m3.
Proof.
  intros Hnd Hc Hm Es. destruct (par_construct ncpu rws) as [g|] eqn:Eg; [|done]. simpl in Es.
  rewrite Forall_forall in Hc.
  assert (forall x, x ∈ concat (first_pass_epochs s) -> good_effects (fin_effect x)) as Hfin.
  { intros x Hx. destruct (schedule_finalized_effects ncpu lcw dr rws g s x) as (tx & Hin & ->); [done..|]. by apply Hc. }
  unfold first_pass_epochs in Hfin. setoid_rewrite concat_app in Hfin. setoid_rewrite elem_of_app in Hfin.
  destruct (st_iter_total (manager_ok good good_effects) (fun _ => True) (re_execute_epoch hs f)
    (conflict_zone_aborted s)
    (concurrent_commit (commit_cds_conflict_free_zone m1 (conflict_free_zone s))
       (conflict_zone_finalized s))) as (m3 & ys & Hi & Hm3 & _).
  - intros e mm He Hmm.
    destruct (re_execute_epoch_total good good_tx good_effects hs f e mm) as (m' & r & E & Hm'); [|done|by eauto 6].
    apply Forall_forall. intros a Ha.
    destruct (schedule_aborted_raw ncpu lcw dr rws g s a) as (tx & Hin & ->); [done..| |by apply Hc].
    apply list_elem_of_In, in_concat. exists e. by rewrite <- !list_elem_of_In.
  - eapply concurrent_commit_ok; [done|apply Forall_forall; auto|].
    eapply commit_in_order_ok; [done|apply Forall_forall; auto|done].
  - eexists _, m3, _, ys. split; [reflexivity|]. by split.
Qed.

(** Executing batches of good transactions from a good state. *)
Lemma execute_total {B} `{HB : StorageBackend B} `{HE : EvmExecutor B} good good_tx good_effects
    `{!SimulationLaws good good_tx good_effects} hs f ncpu lcw dr out (m : ConcurrencyLevelManager B) :
  Forall good_tx (concat (batch_data <$> out)) -> manager_ok good good_effects m ->
  exists m1 rws, simulate_batch hs f (unpack_batches out).2 m = Some (m1, rws) ∧
    match (acg ← par_construct ncpu rws; schedule_graph lcw dr acg) with
    | Some _ => exists m', execute hs f ncpu lcw dr out m = Some (m', batch_digest <$> out) ∧
        manager_ok good good_effects m'
    | None => execute hs f ncpu lcw dr out m = None
    end.
Proof.
  intros Hc Hm.
  assert (Forall (fun t => good_tx (itx t)) (unpack_batches out).2) as Hl.
  { unfold unpack_batches. simpl. apply Forall_forall. rewrite Forall_forall in Hc.
    intros t (i & x & -> & Hx)%elem_of_lookup_imap_1. simpl. apply Hc.
    by eapply list_elem_of_lookup_2. }
  destruct (simulate_batch_total good good_tx good_effects hs f _ m Hl Hm) as (m1 & rws & Hs & Hm1 & He).
  exists m1, rws. split; [done|].
  unfold execute. destruct (unpack_batches out) as [ds0 l] eqn:Eu. assert (ds0 = batch_digest <$> out) as Hds.
  { unfold unpack_batches in Eu. by simplify_eq. }
  cbn [snd] in *. rewrite (st_bind_eq _ _ _ _ _ Hs).
  destruct (par_construct ncpu rws ≫= schedule_graph lcw dr) as [s|] eqn:Es; [|done].
  destruct (execute_commit_total good good_tx good_effects hs f ncpu lcw dr rws m1 s)
    as (m2 & m3 & ab & ys & E1 & E2 & Hm3); try done.
  - pose proof (simulate_batch_NoDup hs f out m m1 rws) as Hnd. rewrite Eu in Hnd. by apply Hnd.
  - apply Forall_forall. intros r Hr. rewrite Forall_forall in Hl. rewrite Forall_forall in He. split; [|by apply He]. apply Hl. by eapply simulate_batch_raw.
  - exists m3. rewrite (st_bind_eq _ _ m1 m1 s) by done.
    rewrite (st_bind_eq _ _ m1 m2 ab E1), (st_bind_eq _ _ m2 m3 ys E2), Hds. done.
Qed.

(** ** Sample batches *)

(** A simulated transaction of contract 7 that reads [reads] and stores [v] in
    every slot of [writes]. *)
Definition sample_writer (id : Z) (reads writes : list H256) (v : H256) : SimulatedTransaction :=
  let s := foldl (fun s k => record_read_key s 7 k 0) RwSet_new reads in
  let s := foldl (fun s k => record_write_key s 7 k v) s writes in
  SimulatedTransaction_new s
    [Modify 7 (mkBasic 0 1) None (list_to_map ((fun k => (k, v)) <$> writes)) false] []
    (mkIndexed (sample_call 0) id).

Definition sample_manager : ConcurrencyLevelManager MemoryBackend :=
  with_seer (mkEvmStorage (sample_backend 1) ∅ istanbul) 2 SeerContext_disabled.

(** Two blind writers of slot 30, each with a slot of its own. *)
Definition racing_batch : list SimulatedTransaction :=
  [sample_writer 1 [] [10; 30] 100; sample_writer 2 [] [20; 30] 200].

(** Transaction 1 updates slot 30; transaction 2 writes it blindly. *)
Definition lost_update_batch : list SimulatedTransaction :=
  [sample_writer 1 [30] [30] 100; sample_writer 2 [] [10; 30] 200].

(** ** Theorems *)

Lemma empty_table_ok : table_ok ∅.
Proof. intros c s b br Hb. discriminate Hb. Qed.

Definition sample_batches : list ExecutableEthereumBatch :=
  [mkBatch 41 [sample_call 0]; mkBatch 42 [sample_call 1]].

(** With a positive concurrency level, [prepare_execution] runs [_execute]
    on consecutive groups of at most that many batches and concatenates the
    digests; the loop ends. *)
Theorem prepare_execution_groups {B} `{StorageBackend B} `{EvmExecutor B} hs f ncpu lcw dr
    (out : list ExecutableEthereumBatch) (m : ConcurrencyLevelManager B) :
  (0 < concurrency_level m)%nat ->
  let groups := chunks_of (length out) (concurrency_level m) out in
  concat groups = out ∧
  prepare_execution hs f ncpu lcw dr out m =
  (dss ← st_iter (execute hs f ncpu lcw dr) groups; mret (concat dss)) m.
Proof.
  intros Hl. split; [by apply concat_chunks_of|]. by apply prepare_loop_chunks.
Qed.

Lemma prepare_execution_groups_witness :
  exists m', prepare_execution (H0 := counter_evm) sample_hasher sample_branch_id 4 false false
    sample_batches sample_manager = Some (m', [41; 42]).
Proof.
  destruct (prepare_execution_groups (H0 := counter_evm) sample_hasher sample_branch_id 4 false false
    sample_batches sample_manager) as [_ ->]; [simpl; lia|].
  eexists. vm_compute. reflexivity.
Defined.

(** Validation splits the re-executed transactions in two without loss: the
    valid ones write pairwise disjoint slots, and every invalid one writes a
    slot that a valid one writes. *)
Theorem validate_correct rw_set :
  let '(valid_txs, invalid_txs) := validate rw_set in
  valid_txs ++ invalid_txs ≡ₚ rw_set ∧
  (forall i j x y, (i < j)%nat -> valid_txs !! i = Some x -> valid_txs !! j = Some y ->
     ReExecutedTransaction_write_set x ## ReExecutedTransaction_write_set y) ∧
  (forall tx, tx ∈ invalid_txs -> exists x, x ∈ valid_txs ∧
     ¬ (ReExecutedTransaction_write_set tx ## ReExecutedTransaction_write_set x)).
Proof.
  unfold validate. pose proof (fold_validate_validated rw_set) as [H1 H2 H3 H4].
  destruct (foldl validate_step _ rw_set) as [[v i] W]. simpl in *. split_and!; [done| |].
  - intros a b x y Hab Hx Hy. rewrite <- (take_drop_middle v a x Hx) in H3.
    apply StronglySorted_app in H3 as (_ & _ & H3). inversion H3 as [|?? _ Hall]; subst.
    rewrite Forall_forall in Hall. symmetry. apply (Hall y), list_elem_of_lookup.
    exists (b - S a)%nat. rewrite lookup_drop, <- Hy. f_equal. lia.
  - intros tx Htx%H4.
    destruct (decide (Exists (fun x => ¬ (ReExecutedTransaction_write_set tx ##
      ReExecutedTransaction_write_set x)) v)) as [E|E].
    + by apply Exists_exists in E.
    + exfalso. apply Htx. intros k Hk (x & Hx & Hkx)%H2. apply E, Exists_exists. exists x.
      split; [done|]. set_solver.
Qed.

(** Validation checks write-write conflicts only: two re-executed
    transactions that each read the slot the other writes (both simulated on
    the same state) are both valid, so both are committed. *)
Theorem validate_misses_write_skew :
  let tx id r w := mkReExecuted (mkIndexed (sample_call 0) id) [] []
                     (record_write_key (record_read_key RwSet_new 7 r 0) 7 w 1) in
  validate [tx 1 10 20; tx 2 20 10] = ([tx 1 10 20; tx 2 20 10], []).
Proof. vm_compute. reflexivity. Qed.

(** The transactions of an epoch of the conflict zone can be committed in any
    order: if the effects of each are plain writes of slots in its write set,
    every order leaves the same storage. *)
Theorem epoch_commit_any_order {B} `{StorageBackendLaws B} (m : ConcurrencyLevelManager B)
    (candidates : list TxWithKeys) e order :
  Forall (fun tx => confined (tk_write_keys tx) (tk_finalized tx)) candidates ->
  e ∈ place_into_epochs candidates tk_finalized -> order ≡ₚ e ->
  forall a k, storage_of (commit_in_order m order) a k = storage_of (commit_in_order m e) a k.
Proof. apply epoch_commit_permutation. Qed.

Lemma epoch_commit_any_order_witness :
  let tk id w v := mkTxWithKeys id ∅ {[w]}
        (FinalizedTransaction_new id [Modify 7 (mkBasic 0 1) None {[w := v]} false]) in
  storage_of (commit_in_order sample_manager [tk_finalized (tk 2 20 6); tk_finalized (tk 1 10 5)]) 7 10 =
  storage_of (commit_in_order sample_manager [tk_finalized (tk 1 10 5); tk_finalized (tk 2 20 6)]) 7 10.
Proof.
  intros tk. apply (epoch_commit_any_order sample_manager [tk 1 10 5; tk 2 20 6]).
  - assert (forall id w v, confined {[w]} (tk_finalized (tk id w v))) as Hc.
    { intros id w v. split; [by repeat constructor|]. intros a k x Hin.
      assert (effects_writes (fin_effect (tk_finalized (tk id w v))) = [((7, w), v)]) as Ew.
      { unfold effects_writes, effect_writes. simpl. unfold btree_iter.
        rewrite map_to_list_singleton. reflexivity. }
      rewrite Ew in Hin. apply list_elem_of_singleton in Hin. simplify_eq. set_solver. }
    repeat constructor; apply Hc.
  - vm_compute. left.
  - constructor.
Defined.

(** The conflict-free zone races: the two blind writers of slot 30 share the
    first wave and form two chains, which run in parallel; the two possible
    orders leave different values. *)
Theorem conflict_free_zone_race :
  exists s o1 o2, schedule_graph false false (construct racing_batch) = Some s ∧
    interleaving (conflict_free_zone s) o1 ∧ interleaving (conflict_free_zone s) o2 ∧
    storage_of (commit_in_order sample_manager o1) 7 30 = 200 ∧
    storage_of (commit_in_order sample_manager o2) 7 30 = 100.
Proof.
  pose (f1 := FinalizedTransaction_new 1 (sim_effects (sample_writer 1 [] [10; 30] 100))).
  pose (f2 := FinalizedTransaction_new 2 (sim_effects (sample_writer 2 [] [20; 30] 200))).
  eexists _, [f1; f2], [f2; f1]. split; [vm_compute; reflexivity|]. cbn [conflict_free_zone].
  split_and!; [| |vm_compute; reflexivity|vm_compute; reflexivity].
  - apply (interleaving_step [] f1 [] [[f2]]), (interleaving_step [[]] f2 [] []).
    constructor. by repeat constructor.
  - apply (interleaving_step [[f1]] f2 [] []), (interleaving_step [] f1 [] [[]]).
    constructor. by repeat constructor.
Qed.

(** A chain commits a reader after the writer it depends on although the
    reader was simulated before that write: transaction 1 read slot 30 before
    transaction 2 writes it, and overwrites the value of 2. *)
Theorem chain_loses_update :
  (s ← schedule_graph false false (construct lost_update_batch);
   Some (schedule_ids s,
         storage_of (commit_cds_schedule sample_manager s).1 7 30)) =
  Some (([[2; 1]], [], []), 100).
Proof. vm_compute. reflexivity. Qed.

(** With the pre-execution cache enabled, re-executing an aborted transaction
    does not execute it: whatever was committed since, it returns the effects,
    logs and read-write set of the first simulation. *)
Theorem re_execution_returns_first_simulation {B} `{StorageBackend B} `{EvmExecutor B} hs f l
    (m m1 m2 : ConcurrencyLevelManager B) rws r :
  enable_cache (config (seer_ctx m)) = true ->
  simulate_batch hs f l m = Some (m1, rws) -> r ∈ rws -> seer_ctx m2 = seer_ctx m1 ->
  exists m3, re_execute hs f [sim_raw_tx r] m2 =
    Some (m3, [ReExecutedTransaction_build_from (sim_raw_tx r)
                 (sim_effects r) (sim_logs r) (sim_rw_set r)]).
Proof.
  intros Hc Hs Hr E. destruct (simulate_batch_cached hs f l m m1 rws Hc Hs) as [Hc1 Hf].
  rewrite Forall_forall in Hf. apply re_execute_cached; rewrite E; [congruence|by apply Hf].
Qed.

(** The value slot 0 of contract 7 gets from a re-executed counter call. *)
Definition counted (rs : list ReExecutedTransaction) : list (option H256) :=
  (fun r => match reexec_effect r with
            | [Modify _ _ _ st _] => st !! 0
            | _ => None
            end) <$> rs.

Lemma re_execution_returns_first_simulation_witness :
  let m := with_seer (mkEvmStorage (sample_backend 1) ∅ istanbul) 2
             (SeerContext_new SeerConfig_default) in
  exists m1 rws m3 rs, simulate_batch (H0 := counter_evm) sample_hasher sample_branch_id
      [mkIndexed (sample_call 0) 0] m = Some (m1, rws) ∧
    re_execute (H0 := counter_evm) sample_hasher sample_branch_id [mkIndexed (sample_call 0) 0]
      (mkManager 2 (mkEvmStorage (sample_backend 50) ∅ istanbul) (seer_ctx m1) None) = Some (m3, rs) ∧
    counted rs = [Some 2].
Proof.
  intros m.
  assert (exists m1 r, simulate_batch (H0 := counter_evm) sample_hasher sample_branch_id
    [mkIndexed (sample_call 0) 0] m = Some (m1, [r]) ∧ sim_raw_tx r = mkIndexed (sample_call 0) 0 ∧
    counted [ReExecutedTransaction_build_from (sim_raw_tx r) (sim_effects r) (sim_logs r)
      (sim_rw_set r)] = [Some 2]) as (m1 & r & Hs & Hr & Hv).
  { eexists _, _. split; [vm_compute; reflexivity|]. split; vm_compute; reflexivity. }
  destruct (re_execution_returns_first_simulation (H0 := counter_evm) sample_hasher sample_branch_id
    [mkIndexed (sample_call 0) 0] m m1
    (mkManager 2 (mkEvmStorage (sample_backend 50) ∅ istanbul) (seer_ctx m1) None) [r] r)
    as (m3 & E).
  - reflexivity.
  - exact Hs.
  - left.
  - reflexivity.
  - rewrite Hr in E. rewrite Hr in Hv. eexists m1, [r], m3, _. split; [exact Hs|].
    split; [exact E|exact Hv].
Defined.
