(* ===== verification/Pages.v ===== *)
(** * Delta pages and write buffers

    crates/sslab-execution/chase/src/executor/cache: delta_page.rs,
    temp_buffer.rs, apply_buffer.rs, mem_index_table.rs, and the configuration
    of executor/config.rs.

    A key is the 32-byte array of the source, a list of bytes; addresses and
    slots are integers whose big-endian bytes it holds.  The meaning of a page, a
    buffer or a table is its log of records: a lookup returns the last one. *)

From S2P Require Import Prelude Bytes Types.
Local Open Scope Z_scope.
Local Open Scope chase_scope.

Abbreviation Key := (list Z) (only parsing).
Abbreviation Value := (list Z) (only parsing).

(** ** DeltaPage *)

Definition DELTA_PAGE_MAX_RECORDS : nat := 128.

Record DeltaRecord := mkDeltaRecord { rec_key : Key; rec_value : Value }.

Record DeltaPage := mkDeltaPage {
  block_start : Z;
  block_end : Z;
  records : list DeltaRecord;
  is_readonly : bool
}.

Definition DeltaPage_new (bs be : Z) : DeltaPage := mkDeltaPage bs be [] false.

Definition is_full (p : DeltaPage) : bool :=
  bool_decide (DELTA_PAGE_MAX_RECORDS <= length (records p))%nat.

Definition byte_size (p : DeltaPage) : Z := Z.of_nat (length (records p)) * (64 + 8).

(** The debug assertions are compiled out of release builds. *)
Definition push_record (p : DeltaPage) (key : Key) (value : Value) : DeltaPage :=
  mkDeltaPage (block_start p) (block_end p) (records p ++ [mkDeltaRecord key value])
    (is_readonly p).

Definition freeze_page (p : DeltaPage) : DeltaPage :=
  mkDeltaPage (block_start p) (block_end p) (records p) true.

(** [records.iter().rev().find(|r| &r.key == key)] *)
Definition page_lookup (p : DeltaPage) (key : Key) : option Value :=
  match list_find (fun r => rec_key r = key) (reverse (records p)) with
  | Some (_, r) => Some (rec_value r)
  | None => None
  end.

Definition encode_key (address : H160) (slot : H256) : Key :=
  be_bytes 20 address ++ drop 20 (be_bytes 32 slot).

Definition encode_value (v : H256) : Value := be_bytes 32 v.

Definition decode_value (bytes : Value) : H256 := be_value bytes.

Definition decode_key (key : Key) : H160 * H256 :=
  (be_value (take 20 key), be_value (replicate 20 0 ++ drop 20 key)).

(** ** TempBuffer *)

Abbreviation TempBuffer := (list (Key * Value)).

Definition TempBuffer_new : TempBuffer := [].

Definition record_write (b : TempBuffer) (address : H160) (slot v : H256) : TempBuffer :=
  b ++ [(encode_key address slot, encode_value v)].

Definition delta_bytes (b : TempBuffer) : Z := Z.of_nat (length b) * 64.

(** The loop body of [into_delta_pages]. *)
Definition page_step (bs be : Z) (page_limit : nat) (st : list DeltaPage * DeltaPage)
    (r : Key * Value) : list DeltaPage * DeltaPage :=
  let '(pages, current) := st in
  if bool_decide (page_limit <= length (records current))%nat
  then (pages ++ [freeze_page current], push_record (DeltaPage_new bs be) r.1 r.2)
  else (pages, push_record current r.1 r.2).

Definition into_delta_pages (b : TempBuffer) (bs be : Z) (max_records : nat) :
    list DeltaPage :=
  let page_limit := Nat.min max_records DELTA_PAGE_MAX_RECORDS in
  let '(pages, current) := foldl (page_step bs be page_limit) ([], DeltaPage_new bs be) b in
  match records current with [] => pages | _ => pages ++ [freeze_page current] end.

(** ** Effects to buffer *)

Definition apply_to_temp_buffer (b : TempBuffer) (e : Apply) : TempBuffer :=
  match e with
  | Modify address _ _ storage _ =>
      foldl (fun b (p : H256 * H256) => record_write b address p.1 p.2) b (btree_iter storage)
  | Delete _ => b
  end.

Definition applies_to_temp_buffer (applies : list Apply) (b : TempBuffer) : TempBuffer :=
  foldl apply_to_temp_buffer b applies.

Definition applies_delta_bytes (applies : list Apply) : Z :=
  u64_mul
    (foldl (fun count e =>
        match e with
        | Modify _ _ _ storage _ => count +u64 Z.of_nat (size storage)
        | Delete _ => count
        end) 0 applies) 64.

(** ** MemIndexTable *)

Record MemIndexTable := mkMemIndexTable {
  mit_index : gmap Key nat;
  mit_pages : list DeltaPage;
  mit_total_bytes : Z;
  mit_frozen : bool;
  mit_capacity_threshold : Z
}.

Definition MemIndexTable_new (capacity_threshold : Z) : MemIndexTable :=
  mkMemIndexTable ∅ [] 0 false capacity_threshold.

Definition is_at_capacity (t : MemIndexTable) : bool :=
  mit_capacity_threshold t <=? mit_total_bytes t.

(** [insert_page]; a page that is not readonly panics. *)
Definition insert_page (t : MemIndexTable) (page : DeltaPage) : option MemIndexTable :=
  if is_readonly page then
    let page_idx := length (mit_pages t) in
    Some (mkMemIndexTable
            (foldl (fun ix r => <[rec_key r := page_idx]> ix) (mit_index t) (records page))
            (mit_pages t ++ [page])
            (mit_total_bytes t +u64 byte_size page)
            (mit_frozen t) (mit_capacity_threshold t))
  else None.

Definition table_lookup (t : MemIndexTable) (key : Key) : option Value :=
  match mit_index t !! key with
  | Some page_idx =>
      match mit_pages t !! page_idx with
      | Some page => page_lookup page key
      | None => None
      end
  | None => None
  end.

Definition freeze_table (t : MemIndexTable) : MemIndexTable :=
  mkMemIndexTable (mit_index t) (mit_pages t) (mit_total_bytes t) true
    (mit_capacity_threshold t).

(** [drain_pages]; panics on a table that is not frozen. *)
Definition drain_pages (t : MemIndexTable) : option (MemIndexTable * list DeltaPage) :=
  if mit_frozen t
  then Some (mkMemIndexTable ∅ [] 0 (mit_frozen t) (mit_capacity_threshold t), mit_pages t)
  else None.

Definition clone_pages (t : MemIndexTable) : list DeltaPage := mit_pages t.

(** ** Configuration *)

Record PipelineConfig := mkPipelineConfig { zeta_max : Z; lambda2 : Z; lambda3 : Z }.

Definition PipelineConfig_default : PipelineConfig :=
  mkPipelineConfig 8 10000000 (64 * 1024 * 1024).

Record CacheConfig := mkCacheConfig {
  l1_capacity_bytes : Z;
  deltapage_max_records : nat;
  l2_capacity_bytes : Z
}.

Definition CacheConfig_default : CacheConfig :=
  mkCacheConfig (256 * 1024 * 1024) 128 (1024 * 1024 * 1024).

(** [parse] stands for [str::parse] at the unsigned types; a missing variable or
    one that does not parse keeps the default. *)
Section from_env.
Context (env : string -> option string) (parse_u32 parse_u64 : string -> option Z).
Context (eq_ignore_ascii_case : string -> string -> bool).

Definition env_or (parse : string -> option Z) (name : string) (dflt : Z) : Z :=
  match env name with
  | Some v => match parse v with Some n => n | None => dflt end
  | None => dflt
  end.

(** [mb * 1024 * 1024], wrapping. *)
Definition env_mb_or (name : string) (dflt : Z) : Z :=
  match env name with
  | Some v =>
      match parse_u64 v with Some mb => (mb * 1024 * 1024) mod u64_modulus | None => dflt end
  | None => dflt
  end.

Definition PipelineConfig_from_env : PipelineConfig :=
  mkPipelineConfig
    (env_or parse_u32 "CHASE_PIPELINE_ZETA_MAX" (zeta_max PipelineConfig_default))
    (env_or parse_u64 "CHASE_PIPELINE_LAMBDA2" (lambda2 PipelineConfig_default))
    (env_or parse_u64 "CHASE_PIPELINE_LAMBDA3" (lambda3 PipelineConfig_default)).

Definition CacheConfig_from_env : CacheConfig :=
  mkCacheConfig
    (env_mb_or "CHASE_CACHE_L1_CAPACITY_MB" (l1_capacity_bytes CacheConfig_default))
    (Z.to_nat (env_or parse_u64 "CHASE_CACHE_DELTAPAGE_MAX_RECORDS"
                 (Z.of_nat (deltapage_max_records CacheConfig_default))))
    (env_mb_or "CHASE_CACHE_L2_LRU_SIZE_MB" (l2_capacity_bytes CacheConfig_default)).

Definition EvBlpConfig_is_enabled : bool :=
  match env "CHASE_USE_EV_BLP" with
  | Some v => bool_decide (v = "1"%string) || eq_ignore_ascii_case v "true"
  | None => false
  end.
End from_env.

Record EvBlpConfig := mkEvBlpConfig { cfg_pipeline : PipelineConfig; cfg_cache : CacheConfig }.

Definition EvBlpConfig_from_env (env : string -> option string)
    (parse_u32 parse_u64 : string -> option Z) : EvBlpConfig :=
  mkEvBlpConfig (PipelineConfig_from_env env parse_u32 parse_u64)
    (CacheConfig_from_env env parse_u64).

Definition valid_H160 (a : Z) : Prop := 0 <= a < 256 ^ 20.
Definition valid_H256 (a : Z) : Prop := 0 <= a < 256 ^ 32.

Lemma encode_key_eq a s : encode_key a s = be_bytes 20 a ++ be_bytes 12 s.
Proof. unfold encode_key. by rewrite (drop_be_bytes 20 12). Qed.

(** ** Lemmas: logs *)

Definition page_log (p : DeltaPage) : list (Key * Value) :=
  (fun r => (rec_key r, rec_value r)) <$> records p.

Definition pages_log (ps : list DeltaPage) : list (Key * Value) := concat (page_log <$> ps).

Lemma pages_log_app ps ps' : pages_log (ps ++ ps') = pages_log ps ++ pages_log ps'.
Proof. unfold pages_log. by rewrite fmap_app, concat_app. Qed.

Lemma pages_log_snoc ps p : pages_log (ps ++ [p]) = pages_log ps ++ page_log p.
Proof. rewrite pages_log_app. unfold pages_log at 2. simpl. by rewrite app_nil_r. Qed.

Lemma page_log_freeze p : page_log (freeze_page p) = page_log p.
Proof. done. Qed.

Lemma page_lookup_last_write p key : page_lookup p key = page_log p !!ʳ key.
Proof.
  unfold page_lookup, page_log. induction (records p) as [|r l IH] using rev_ind; [done|].
  rewrite reverse_snoc, fmap_app. simpl. autorewrite with chase. case_decide as Hk.
  - subst. by rewrite decide_True.
  - rewrite decide_False by congruence. rewrite <- IH.
    by destruct (list_find _ (reverse l)) as [[]|].
Qed.

Lemma page_log_push p k v : page_log (push_record p k v) = page_log p ++ [(k, v)].
Proof. unfold page_log. simpl. by rewrite fmap_app. Qed.

(** The state of the page-splitting loop after the records [done]. *)
Record paging (bs be : Z) (limit : nat) (done : TempBuffer) (st : list DeltaPage * DeltaPage) : Prop := {
  pg_log : pages_log st.1 ++ page_log st.2 = done;
  pg_pages : Forall (fun p => is_readonly p = true ∧ (0 < length (records p) <= limit)%nat ∧
               block_start p = bs ∧ block_end p = be) st.1;
  pg_current : (length (records st.2) <= limit)%nat ∧ block_start st.2 = bs ∧ block_end st.2 = be
}.

Lemma page_step_paging bs be limit done st r :
  (0 < limit)%nat -> paging bs be limit done st -> paging bs be limit (done ++ [r]) (page_step bs be limit st r).
Proof.
  intros Hl. destruct st as [pages cur], r as [k v]. intros [H1 H2 (H3 & H4 & H5)]. simpl in *.
  unfold page_step. case_bool_decide as Hc; split; cbn [fst snd].
  - rewrite pages_log_snoc, page_log_push, page_log_freeze, H1. done.
  - apply Forall_app. split; [done|]. repeat constructor; simpl; [lia..|done|done].
  - simpl. split_and!; [lia|done..].
  - by rewrite page_log_push, app_assoc, H1.
  - done.
  - simpl. rewrite length_app. simpl. split_and!; [lia|done..].
Qed.

Lemma fold_page_step_paging bs be limit b :
  (0 < limit)%nat ->
  paging bs be limit b (foldl (page_step bs be limit) ([], DeltaPage_new bs be) b).
Proof.
  intros Hl. induction b as [|r b IH] using rev_ind.
  - simpl. split; simpl; [done|constructor|split_and!; [lia|done..]].
  - rewrite foldl_app. simpl. by apply page_step_paging.
Qed.

Lemma into_delta_pages_spec b bs be max_records :
  (0 < max_records)%nat ->
  let pages := into_delta_pages b bs be max_records in
  pages_log pages = b ∧
  Forall (fun p => is_readonly p = true ∧
            (0 < length (records p) <= Nat.min max_records DELTA_PAGE_MAX_RECORDS)%nat ∧
            block_start p = bs ∧ block_end p = be) pages.
Proof.
  intros Hm. unfold into_delta_pages.
  destruct (fold_page_step_paging bs be (Nat.min max_records DELTA_PAGE_MAX_RECORDS) b)
    as [H1 H2 (H3 & H4 & H5)]; [unfold DELTA_PAGE_MAX_RECORDS; lia|].
  destruct (foldl _ _ b) as [pages cur]. cbn [fst snd] in *.
  destruct (records cur) as [|r rs] eqn:Er.
  - split; [|done]. rewrite <- H1. unfold page_log. rewrite Er. simpl. by rewrite app_nil_r.
  - split.
    + by rewrite pages_log_snoc, page_log_freeze.
    + apply Forall_app. split; [done|]. repeat constructor; simpl; rewrite ?Er; simpl in *; [lia..|done|done].
Qed.

Lemma byte_size_pages_log pages :
  foldr Z.add 0 (byte_size <$> pages) = 72 * Z.of_nat (length (pages_log pages)).
Proof.
  unfold pages_log. induction pages as [|p pages IH]; csimpl; [done|].
  rewrite IH, length_app. unfold byte_size, page_log. rewrite length_fmap. lia.
Qed.

(** ** Lemmas: the index table *)

Definition table_log (t : MemIndexTable) : list (Key * Value) := pages_log (mit_pages t).

Record table_sound (t : MemIndexTable) : Prop := {
  ts_lookup : forall k, table_lookup t k = table_log t !!ʳ k;
  ts_index : forall k i, mit_index t !! k = Some i -> (i < length (mit_pages t))%nat;
  ts_readonly : Forall (fun p => is_readonly p = true) (mit_pages t)
}.

Lemma MemIndexTable_new_sound c : table_sound (MemIndexTable_new c).
Proof. split; simpl; [done|done|constructor]. Qed.

Lemma lookup_index_insert (ix : gmap Key nat) i l k :
  foldl (fun ix r => <[rec_key r := i]> ix) ix l !! k =
  if decide (k ∈ rec_key <$> l) then Some i else ix !! k.
Proof.
  induction l as [|r l IH] using rev_ind; [by rewrite decide_False by apply not_elem_of_nil|].
  rewrite foldl_app. simpl. rewrite fmap_app. simpl.
  destruct (decide (rec_key r = k)) as [<-|Hne].
  - rewrite lookup_insert_eq, decide_True; [done|]. set_solver.
  - rewrite lookup_insert_ne, IH by done. apply decide_ext. set_solver.
Qed.

Lemma page_log_keys p : (page_log p).*1 = rec_key <$> records p.
Proof. unfold page_log. rewrite <- list_fmap_compose. done. Qed.

Lemma insert_page_sound t page t' :
  table_sound t -> insert_page t page = Some t' ->
  table_sound t' ∧ table_log t' = table_log t ++ page_log page.
Proof.
  unfold insert_page. destruct (is_readonly page) eqn:Er; [|done].
  intros [H1 H2 H3] [= <-]. unfold table_log. simpl.
  rewrite pages_log_snoc. split; [|done]. split; cbn [mit_index mit_pages].
  - intros k. unfold table_lookup. cbn [mit_index mit_pages]. rewrite lookup_index_insert.
    unfold table_log. cbn [mit_pages]. rewrite pages_log_snoc, last_write_app. case_decide as Hk.
    + rewrite list_lookup_middle by done. rewrite page_lookup_last_write.
      destruct (page_log page !!ʳ k) eqn:E; [done|].
      apply last_write_None in E. by rewrite page_log_keys in E.
    + assert (page_log page !!ʳ k = None) as ->.
      { apply last_write_None. by rewrite page_log_keys. }
      rewrite <- H1. unfold table_lookup. destruct (mit_index t !! k) as [i|] eqn:E; [|done].
      by rewrite lookup_app_l by eauto.
  - intros k i. rewrite lookup_index_insert, length_app. simpl. case_decide.
    + intros [= <-]. lia.
    + intros Hi%H2. lia.
  - apply Forall_app. split; [done|]. by repeat constructor.
Qed.

Lemma freeze_table_sound t : table_sound t -> table_sound (freeze_table t).
Proof. intros [H1 H2 H3]. by split. Qed.

(** ** Theorems *)

(** Keys keep the address and the low 96 bits of the slot: two keys are equal
    exactly when those agree, and decoding returns them; the upper 20 bytes of
    the slot are lost. *)
Theorem encode_key_spec a s a' s' :
  valid_H160 a -> valid_H160 a' ->
  (encode_key a s = encode_key a' s' ↔ a = a' ∧ s mod 256 ^ 12 = s' mod 256 ^ 12) ∧
  decode_key (encode_key a s) = (a, s mod 256 ^ 12).
Proof.
  unfold valid_H160. intros Ha Ha'. rewrite !encode_key_eq. split.
  - split.
    + intros H. apply app_inj_1 in H as [H1%be_bytes_inj H2%be_bytes_inj]; [|by rewrite !length_be_bytes].
      simpl in *. rewrite !Z.mod_small in H1 by lia. done.
    + intros [-> Hs]. f_equal. by apply be_bytes_mod.
  - unfold decode_key.
    rewrite take_app_length', drop_app_length' by (by rewrite length_be_bytes).
    rewrite be_value_app, !be_value_bytes. simpl (be_value (replicate 20 0)).
    rewrite (Z.mod_small a) by done. done.
Qed.

Lemma encode_key_spec_witness :
  encode_key 1 5 = encode_key 1 (5 + 256 ^ 12) ∧ decode_key (encode_key 1 5) = (1, 5).
Proof.
  destruct (encode_key_spec 1 5 1 (5 + 256 ^ 12)) as [Hk Hd].
  - unfold valid_H160. lia.
  - unfold valid_H160. lia.
  - split; [|exact Hd]. apply Hk. split; [reflexivity|]. vm_compute. reflexivity.
Defined.

(** Splitting a buffer into pages keeps its records in order; the pages are
    read-only, none is empty, none exceeds the page limit, all carry the block
    range, and together they count 72 bytes per record. *)
Theorem into_delta_pages_correct b bs be max_records :
  (0 < max_records)%nat ->
  let pages := into_delta_pages b bs be max_records in
  pages_log pages = b ∧
  Forall (fun p => is_readonly p = true ∧
            (0 < length (records p) <= Nat.min max_records DELTA_PAGE_MAX_RECORDS)%nat ∧
            block_start p = bs ∧ block_end p = be) pages ∧
  foldr Z.add 0 (byte_size <$> pages) = 72 * Z.of_nat (length b).
Proof.
  intros Hm pages. destruct (into_delta_pages_spec b bs be max_records Hm) as [H1 H2].
  split_and!; [done..|]. rewrite <- H1. apply byte_size_pages_log.
Qed.

Lemma into_delta_pages_correct_witness :
  pages_log (into_delta_pages [([1], [2]); ([3], [4]); ([1], [5])] 7 7 2) =
  [([1], [2]); ([3], [4]); ([1], [5])].
Proof. apply (into_delta_pages_correct [([1], [2]); ([3], [4]); ([1], [5])] 7 7 2). lia. Defined.

(** A table built by inserting read-only pages answers a lookup with the value
    of the last record of the key over all its pages. *)
Theorem index_table_refines_log c pages :
  Forall (fun p => is_readonly p = true) pages ->
  exists t, foldl (fun o p => t ← o; insert_page t p) (Some (MemIndexTable_new c)) pages = Some t ∧
    forall k, table_lookup t k = pages_log pages !!ʳ k.
Proof.
  intros Hp.
  assert (exists t, foldl (fun o p => t ← o; insert_page t p) (Some (MemIndexTable_new c)) pages = Some t ∧
    table_sound t ∧ table_log t = pages_log pages) as (t & E & Hs & Hl).
  { induction pages as [|p pages IH] using rev_ind.
    - eexists. split; [done|]. split; [apply MemIndexTable_new_sound|done].
    - apply Forall_app in Hp as [Hp [Hr _]%Forall_cons]. destruct (IH Hp) as (t & E & Hs & Hl).
      rewrite foldl_app, E. simpl. destruct (insert_page t p) as [t'|] eqn:Ei.
      + destruct (insert_page_sound t p t' Hs Ei) as [Hs' Hl'].
        exists t'. split_and!; [done..|]. by rewrite Hl', Hl, pages_log_snoc.
      + unfold insert_page in Ei. by rewrite Hr in Ei. }
  exists t. split; [done|]. intros k. rewrite <- Hl. apply (ts_lookup _ Hs).
Qed.

Lemma index_table_refines_log_witness :
  exists t, foldl (fun o p => t ← o; insert_page t p) (Some (MemIndexTable_new 100))
      (into_delta_pages [([1], [2]); ([3], [4]); ([1], [5])] 7 7 2) = Some t ∧
    table_lookup t [1] = Some [5].
Proof.
  destruct (index_table_refines_log 100 (into_delta_pages [([1], [2]); ([3], [4]); ([1], [5])] 7 7 2))
    as (t & E & H).
  - repeat constructor.
  - exists t. split; [exact E|]. rewrite H. vm_compute. reflexivity.
Defined.
