(* ===== verification/Cache.v ===== *)
(** * The two-level cache

    crates/sslab-execution/chase/src/executor/cache: l1_cache.rs, l2_cache.rs,
    two_level_cache.rs and cache_overlay.rs.

    The tables of L1 are shared through [Arc]s and compared by pointer: the
    model keeps them in a heap, and a pointer is a key of the heap.  The LRU map
    of L2 comes from the [lru] crate; it is a class with the documented
    behaviour of that crate as its laws.  The durable store is the trait
    [StateStore] of the source, again a class, which Storage.v and the in-memory
    store below implement. *)

From stdpp Require Import pretty.
From S2P Require Import Prelude Bytes Types Backend Pages.
Local Open Scope Z_scope.
Local Open Scope chase_scope.

(** A 32-byte array. *)
Definition bytes32 (l : list Z) : Prop := length l = 32%nat ∧ Forall (fun b => 0 <= b < 256) l.

(** ** L1Cache *)

Record L1Cache := mkL1Cache {
  l1_heap : gmap nat MemIndexTable;
  l1_next_ptr : nat;
  l1_active : nat;
  l1_frozen : list nat;
  l1_threshold : Z;
  l1_next_table_id : Z;
  l1_order : list (Z * nat)
}.

Definition L1Cache_new (capacity_threshold : Z) : L1Cache :=
  mkL1Cache {[ 0%nat := MemIndexTable_new capacity_threshold ]} 1 0 [] capacity_threshold 0 [].

(** [l1_deref l p] is the table behind the pointer; every pointer of the cache
    is live, so the default is never read. *)
Definition l1_deref (l : L1Cache) (p : nat) : MemIndexTable :=
  default (MemIndexTable_new 0) (l1_heap l !! p).

Definition l1_store (l : L1Cache) (p : nat) (t : MemIndexTable) : L1Cache :=
  mkL1Cache (<[p := t]> (l1_heap l)) (l1_next_ptr l) (l1_active l) (l1_frozen l)
    (l1_threshold l) (l1_next_table_id l) (l1_order l).

Definition freeze_active (l : L1Cache) : L1Cache :=
  let old := l1_active l in
  let fresh := l1_next_ptr l in
  mkL1Cache
    (<[fresh := MemIndexTable_new (l1_threshold l)]>
       (<[old := freeze_table (l1_deref l old)]> (l1_heap l)))
    (S fresh) fresh (l1_frozen l ++ [old]) (l1_threshold l)
    (l1_next_table_id l +u64 1) (l1_order l ++ [(l1_next_table_id l, old)]).

Definition write_delta_page (l : L1Cache) (page : DeltaPage) : option L1Cache :=
  t ← insert_page (l1_deref l (l1_active l)) page;
  let l' := l1_store l (l1_active l) t in
  Some (if is_at_capacity t then freeze_active l' else l').

Definition frozen_snapshot (l : L1Cache) : list nat := l1_frozen l.

Definition remove_frozen_table (l : L1Cache) (p : nat) : L1Cache :=
  mkL1Cache (l1_heap l) (l1_next_ptr l) (l1_active l)
    (filter (fun q => q ≠ p) (l1_frozen l)) (l1_threshold l) (l1_next_table_id l)
    (filter (fun e : Z * nat => e.2 ≠ p) (l1_order l)).

Definition take_frozen_tables (l : L1Cache) : L1Cache * list nat :=
  (mkL1Cache (l1_heap l) (l1_next_ptr l) (l1_active l) [] (l1_threshold l)
     (l1_next_table_id l) (filter (fun e : Z * nat => e.2 ∉ l1_frozen l) (l1_order l)),
   l1_frozen l).

(** The first table of the list that has the key. *)
Fixpoint read_tables (l : L1Cache) (ps : list nat) (key : Key) : option Value :=
  match ps with
  | [] => None
  | p :: ps' =>
      match table_lookup (l1_deref l p) key with
      | Some v => Some v
      | None => read_tables l ps' key
      end
  end.

Definition l1_read (l : L1Cache) (key : Key) : option Value :=
  match table_lookup (l1_deref l (l1_active l)) key with
  | Some v => Some v
  | None => read_tables l (reverse (l1_order l).*2) key
  end.

(** ** The [lru] crate

    [lru_entries] lists a cache from the most to the least recently used entry. *)
Definition assoc (k : Key) (l : list (Key * Value)) : option Value :=
  snd ∘ snd <$> list_find (fun p : Key * Value => p.1 = k) l.

Definition without (k : Key) (l : list (Key * Value)) : list (Key * Value) :=
  filter (fun p : Key * Value => p.1 ≠ k) l.

Class LruCache (L : Type) := {
  lru_new : nat -> L;
  lru_get : L -> Key -> L * option Value;
  lru_put : L -> Key -> Value -> L * option Value;
  lru_pop_lru : L -> L * option (Key * Value);
  lru_len : L -> nat
}.

Class LruLaws (L : Type) `{LruCache L} := {
  lru_entries : L -> list (Key * Value);
  lru_cap : L -> nat;
  lru_new_spec cap : lru_entries (lru_new cap) = [] ∧ lru_cap (lru_new cap) = cap;
  lru_get_spec l k :
    (lru_get l k).2 = assoc k (lru_entries l) ∧
    lru_entries (lru_get l k).1 =
      match assoc k (lru_entries l) with
      | Some v => (k, v) :: without k (lru_entries l)
      | None => lru_entries l
      end ∧
    lru_cap (lru_get l k).1 = lru_cap l;
  lru_put_spec l k v :
    (lru_put l k v).2 = assoc k (lru_entries l) ∧
    lru_entries (lru_put l k v).1 = take (lru_cap l) ((k, v) :: without k (lru_entries l)) ∧
    lru_cap (lru_put l k v).1 = lru_cap l;
  lru_pop_spec l :
    (lru_pop_lru l).2 = last (lru_entries l) ∧
    lru_entries (lru_pop_lru l).1 = take (length (lru_entries l) - 1) (lru_entries l) ∧
    lru_cap (lru_pop_lru l).1 = lru_cap l;
  lru_len_spec l : lru_len l = length (lru_entries l)
}.

(** The least implementation: the list of entries with the capacity. *)
Definition LruList : Type := nat * list (Key * Value).

#[global] Instance LruList_ops : LruCache LruList := {|
  lru_new cap := (cap, []);
  lru_get l k :=
    match assoc k l.2 with
    | Some v => ((l.1, (k, v) :: without k l.2), Some v)
    | None => (l, None)
    end;
  lru_put l k v := ((l.1, take l.1 ((k, v) :: without k l.2)), assoc k l.2);
  lru_pop_lru l := ((l.1, take (length l.2 - 1) l.2), last l.2);
  lru_len l := length l.2
|}.

#[global] Program Instance LruList_laws : LruLaws LruList := {|
  lru_entries := snd;
  lru_cap := fst
|}.
Next Obligation. done. Qed.
Next Obligation. intros l k. simpl. by destruct (assoc k l.2). Qed.
Next Obligation. done. Qed.
Next Obligation. done. Qed.
Next Obligation. done. Qed.

(** ** L2Cache *)

Record L2Cache (L : Type) := mkL2Cache {
  l2_cache : L;
  l2_limit_bytes : Z;
  l2_current_bytes : Z
}.
Arguments mkL2Cache {L}.
Arguments l2_cache {L}.
Arguments l2_limit_bytes {L}.
Arguments l2_current_bytes {L}.

Section l2.
Context {L : Type} `{LruCache L}.

Definition L2Cache_new (capacity_bytes : Z) : L2Cache L :=
  mkL2Cache (lru_new 1024) capacity_bytes 0.

Definition l2_get (c : L2Cache L) (key : Key) : L2Cache L * option Value :=
  let '(lru, v) := lru_get (l2_cache c) key in
  (mkL2Cache lru (l2_limit_bytes c) (l2_current_bytes c), v).

(** The eviction loop of [insert]; every round removes an entry, so the number
    of entries is enough fuel ([evict_loop_exit]). *)
Fixpoint evict_loop (fuel : nat) (capacity_bytes : Z) (lru : L) (current : Z) : L * Z :=
  match fuel with
  | O => (lru, current)
  | S fuel' =>
      if (capacity_bytes <? current) && (1 <? lru_len lru)%nat then
        match lru_pop_lru lru with
        | (lru', Some _) => evict_loop fuel' capacity_bytes lru' (u64_saturating_sub current 64)
        | (lru', None) => evict_loop fuel' capacity_bytes lru' current
        end
      else (lru, current)
  end.

Definition l2_insert (c : L2Cache L) (key : Key) (value : Value) : L2Cache L :=
  let '(lru, old) := lru_put (l2_cache c) key value in
  let current :=
    match old with
    | Some _ => l2_current_bytes c
    | None => l2_current_bytes c +u64 64
    end in
  let '(lru', current') := evict_loop (lru_len lru) (l2_limit_bytes c) lru current in
  mkL2Cache lru' (l2_limit_bytes c) current'.

Definition l2_insert_batch (c : L2Cache L) (entries : list (Key * Value)) : L2Cache L :=
  foldl (fun c e => l2_insert c e.1 e.2) c entries.
End l2.

(** ** StateStore *)

Class StateStore (D : Type) := {
  ss_get : D -> Key -> option Value;
  ss_put : D -> Key -> Value -> D * Result unit string
}.

(** An answer that stands for the expected one: it is the same, or the expected value is
    zero and the answer is that there is none.  The store on RocksDB keeps no row for a
    zero. *)
Definition reads_as (o expected : option Value) : Prop :=
  o = expected ∨ (o = None ∧ exists v, expected = Some v ∧ decode_value v = 0).

Lemma reads_as_nonzero o v : reads_as o (Some v) -> decode_value v <> 0 -> o = Some v.
Proof. by intros [?|(? & ? & [= <-] & ?)]. Qed.

(** A put that succeeds stores the value, a zero perhaps as the absence of the key, and
    one that fails changes nothing. *)
Class StateStoreLaws (D : Type) `{StateStore D} := {
  ss_get_put d k v k' : bytes32 k -> bytes32 v -> bytes32 k' ->
    match (ss_put d k v).2 with
    | Ok _ => if decide (k' = k) then reads_as (ss_get (ss_put d k v).1 k') (Some v)
              else ss_get (ss_put d k v).1 k' = ss_get d k'
    | Err _ => ss_get (ss_put d k v).1 k' = ss_get d k'
    end
}.

(** The default method [put_batch], which no implementation overrides: the
    first failing put ends the loop, the earlier ones stay. *)
Fixpoint put_batch {D} `{StateStore D} (d : D) (entries : list (Key * Value)) :
    D * Result unit string :=
  match entries with
  | [] => (d, Ok tt)
  | (k, v) :: entries' =>
      match ss_put d k v with
      | (d', Ok _) => put_batch d' entries'
      | (d', Err e) => (d', Err e)
      end
  end.

Definition InMemoryStateStore : Type := gmap Key Value.

#[global] Instance InMemoryStateStore_store : StateStore InMemoryStateStore := {|
  ss_get d key := d !! key;
  ss_put d key value := (<[key := value]> d, Ok tt)
|}.

#[global] Instance InMemoryStateStore_laws : StateStoreLaws InMemoryStateStore.
Proof. split. intros d k v k' _ _ _. simpl. case_decide; subst; [left; apply lookup_insert_eq|by apply lookup_insert_ne]. Qed.

(** ** TwoLevelCache *)

Record TwoLevelCache (L D : Type) := mkTwoLevelCache {
  tc_l1 : L1Cache;
  tc_l2 : L2Cache L;
  tc_db : D;
  tc_completed_batch : Z;
  tc_batch_delta_bytes : gmap Z Z;
  tc_pending_batch_pages : gmap Z (list DeltaPage)
}.
Arguments mkTwoLevelCache {L D}.
Arguments tc_l1 {L D}.
Arguments tc_l2 {L D}.
Arguments tc_db {L D}.
Arguments tc_completed_batch {L D}.
Arguments tc_batch_delta_bytes {L D}.
Arguments tc_pending_batch_pages {L D}.

Section two_level.
Context {L D : Type} `{LruCache L} `{StateStore D}.
Abbreviation TwoLevelCache := (TwoLevelCache L D).

Definition TwoLevelCache_new (config : CacheConfig) (db : D) : TwoLevelCache :=
  mkTwoLevelCache (L1Cache_new (l1_capacity_bytes config))
    (L2Cache_new (l2_capacity_bytes config)) db 0 ∅ ∅.

Definition set_l1 (l : L1Cache) (c : TwoLevelCache) : TwoLevelCache :=
  mkTwoLevelCache l (tc_l2 c) (tc_db c) (tc_completed_batch c) (tc_batch_delta_bytes c)
    (tc_pending_batch_pages c).

Definition set_stored (l2 : L2Cache L) (db : D) (c : TwoLevelCache) : TwoLevelCache :=
  mkTwoLevelCache (tc_l1 c) l2 db (tc_completed_batch c) (tc_batch_delta_bytes c)
    (tc_pending_batch_pages c).

Definition set_pending (p : gmap Z (list DeltaPage)) (c : TwoLevelCache) : TwoLevelCache :=
  mkTwoLevelCache (tc_l1 c) (tc_l2 c) (tc_db c) (tc_completed_batch c)
    (tc_batch_delta_bytes c) p.

(** The loop of [write_delta_pages] over L1. *)
Fixpoint write_pages_l1 (l : L1Cache) (pages : list DeltaPage) : option L1Cache :=
  match pages with
  | [] => Some l
  | page :: pages' => l' ← write_delta_page l page; write_pages_l1 l' pages'
  end.

Definition write_delta_pages (batch_id : Z) (pages : list DeltaPage) (c : TwoLevelCache) :
    option TwoLevelCache :=
  l1 ← write_pages_l1 (tc_l1 c) pages;
  let total_bytes := foldl (fun acc p => acc +u64 byte_size p) 0 pages in
  Some (mkTwoLevelCache l1 (tc_l2 c) (tc_db c) (tc_completed_batch c)
          (<[batch_id := total_bytes]> (tc_batch_delta_bytes c))
          (<[batch_id := pages]> (tc_pending_batch_pages c))).

Definition mark_batch_complete (batch_id : Z) (c : TwoLevelCache) : TwoLevelCache :=
  mkTwoLevelCache (tc_l1 c) (tc_l2 c) (tc_db c) (Z.max (tc_completed_batch c) batch_id)
    (tc_batch_delta_bytes c) (tc_pending_batch_pages c).

Definition cache_read (key : Key) (visible_up_to : Z) (c : TwoLevelCache) :
    TwoLevelCache * option Value :=
  if tc_completed_batch c <? visible_up_to then (c, None)
  else
    match l1_read (tc_l1 c) key with
    | Some v => (c, Some v)
    | None =>
        let '(l2, o) := l2_get (tc_l2 c) key in
        let c' := set_stored l2 (tc_db c) c in
        match o with
        | Some v => (c', Some v)
        | None => (c', ss_get (tc_db c) key)
        end
    end.

Definition delta_bytes_for_batch (batch_id : Z) (c : TwoLevelCache) : Z :=
  default 0 (tc_batch_delta_bytes c !! batch_id).

(** The records of the pages, in order; [flat_map] in [commit_batch] and in
    [flush_frozen_tables]. *)
Definition page_entries (pages : list DeltaPage) : list (Key * Value) :=
  pages ≫= fun page => (fun r => (rec_key r, rec_value r)) <$> records page.

(** [put_batch] to the store, then [insert_batch] to L2 unless it failed. *)
Definition persist (entries : list (Key * Value)) (c : TwoLevelCache) :
    TwoLevelCache * Result unit string :=
  match put_batch (tc_db c) entries with
  | (db, Ok _) => (set_stored (l2_insert_batch (tc_l2 c) entries) db c, Ok tt)
  | (db, Err e) => (set_stored (tc_l2 c) db c, Err e)
  end.

Definition commit_batch (batch_id : Z) (c : TwoLevelCache) : TwoLevelCache * Result unit string :=
  let pages := default [] (tc_pending_batch_pages c !! batch_id) in
  let c' := set_pending (delete batch_id (tc_pending_batch_pages c)) c in
  match page_entries pages with
  | [] => (c', Ok tt)
  | entries => persist entries c'
  end.

(** The loop of [flush_frozen_tables]; [None] is the panic of [drain_pages]. *)
Fixpoint flush_loop (frozen : list nat) (flushed : nat) (c : TwoLevelCache) :
    option (TwoLevelCache * Result nat string) :=
  match frozen with
  | [] => Some (c, Ok flushed)
  | p :: frozen' =>
      match clone_pages (l1_deref (tc_l1 c) p) with
      | [] => flush_loop frozen' flushed (set_l1 (remove_frozen_table (tc_l1 c) p) c)
      | pages =>
          match persist (page_entries pages) c with
          | (c', Ok _) =>
              '(t, _) ← drain_pages (l1_deref (tc_l1 c') p);
              let l1 := remove_frozen_table (l1_store (tc_l1 c') p t) p in
              flush_loop frozen' (flushed + length pages) (set_l1 l1 c')
          | (c', Err e) => Some (c', Err e)
          end
      end
  end.

Definition flush_frozen_tables (c : TwoLevelCache) : option (TwoLevelCache * Result nat string) :=
  flush_loop (frozen_snapshot (tc_l1 c)) 0 c.

Fixpoint retry_loop (attempts : nat) (max_retries : nat) (last_err : string) (c : TwoLevelCache) :
    option (TwoLevelCache * Result nat string) :=
  match attempts with
  | O => Some (c, Err ("flush failed after " +:+ pretty max_retries +:+ " retries: " +:+ last_err))
  | S attempts' =>
      '(c', r) ← flush_frozen_tables c;
      match r with
      | Ok n => Some (c', Ok n)
      | Err e => retry_loop attempts' max_retries e c'
      end
  end.

Definition try_flush_with_retry (max_retries : nat) (c : TwoLevelCache) :
    option (TwoLevelCache * Result nat string) :=
  retry_loop max_retries max_retries ""%string c.

Definition read_h256 (key : Key) (visible_up_to : Z) (c : TwoLevelCache) :
    TwoLevelCache * option H256 :=
  let '(c', o) := cache_read key visible_up_to c in (c', decode_value <$> o).
End two_level.

(** ** The overlay backend *)

(** [L1Visibility]: the cache it shares with the pipeline, and the batch up to
    which the EVM may read. *)
Record L1Visibility (L D : Type) := mkL1Visibility {
  vis_cache : TwoLevelCache L D;
  vis_visible_batch : Z
}.
Arguments mkL1Visibility {L D}.
Arguments vis_cache {L D}.
Arguments vis_visible_batch {L D}.

Definition L1Visibility_new {L D} (cache : TwoLevelCache L D) : L1Visibility L D :=
  mkL1Visibility cache 0.

Definition set_visible_batch {L D} (batch_id : Z) (v : L1Visibility L D) : L1Visibility L D :=
  mkL1Visibility (vis_cache v) batch_id.

Record CacheOverlayBackend (L D B : Type) := mkOverlay {
  ov_inner : B;
  ov_visibility : option (L1Visibility L D)
}.
Arguments mkOverlay {L D B}.
Arguments ov_inner {L D B}.
Arguments ov_visibility {L D B}.

Section overlay.
Context {L D B : Type} `{LruCache L} `{StateStore D} `{StorageBackend B}.

(** A read moves the entry of L2 to the front, hence the new overlay. *)
Definition overlay_storage (o : CacheOverlayBackend L D B) (address : H160) (index : H256) :
    CacheOverlayBackend L D B * H256 :=
  match ov_visibility o with
  | Some vis =>
      let '(c, r) := cache_read (encode_key address index) (vis_visible_batch vis) (vis_cache vis) in
      let o' := mkOverlay (ov_inner o) (Some (mkL1Visibility c (vis_visible_batch vis))) in
      match r with
      | Some val => (o', decode_value val)
      | None => (o', be_storage (ov_inner o) address index)
      end
  | None => (o, be_storage (ov_inner o) address index)
  end.

Definition overlay_original_storage (o : CacheOverlayBackend L D B) (address : H160)
    (index : H256) : CacheOverlayBackend L D B * option H256 :=
  let '(o', v) := overlay_storage o address index in (o', Some v).

Definition overlay_apply (o : CacheOverlayBackend L D B) (values : list Apply)
    (delete_empty : bool) : CacheOverlayBackend L D B :=
  mkOverlay (be_apply (ov_inner o) values delete_empty) (ov_visibility o).
End overlay.

(** The overlay as a backend; the order of recency in L2 is not observable. *)
#[global] Instance overlay_StorageBackend {L D B} `{LruCache L, StateStore D, StorageBackend B} :
    StorageBackend (CacheOverlayBackend L D B) := {|
  be_storage o a k := (overlay_storage o a k).2;
  be_apply := overlay_apply
|}.

(** ** Lemmas: L1 *)

Definition tables_log (l : L1Cache) (ps : list nat) : list (Key * Value) :=
  concat ((fun p => table_log (l1_deref l p)) <$> ps).

(** Everything L1 holds, oldest record first. *)
Definition l1_log (l : L1Cache) : list (Key * Value) :=
  tables_log l ((l1_order l).*2 ++ [l1_active l]).

Record l1_wf (l : L1Cache) : Prop := {
  l1w_NoDup : NoDup ((l1_order l).*2 ++ [l1_active l]);
  l1w_live : forall p, p ∈ (l1_order l).*2 ++ [l1_active l] ->
    is_Some (l1_heap l !! p) ∧ (p < l1_next_ptr l)%nat ∧ table_sound (l1_deref l p);
  l1w_frozen : l1_frozen l = (l1_order l).*2;
  l1w_flag : forall p, p ∈ (l1_order l).*2 -> mit_frozen (l1_deref l p) = true
}.

Lemma l1_deref_insert l p t n a f th i o q :
  l1_deref (mkL1Cache (<[p := t]> (l1_heap l)) n a f th i o) q =
  if decide (q = p) then t else l1_deref l q.
Proof.
  unfold l1_deref. simpl. case_decide as E; [subst; by rewrite lookup_insert_eq|].
  by rewrite lookup_insert_ne.
Qed.

Lemma l1_deref_store l p t q :
  l1_deref (l1_store l p t) q = if decide (q = p) then t else l1_deref l q.
Proof. apply l1_deref_insert. Qed.

Lemma tables_log_ext l l' ps :
  (forall p, p ∈ ps -> table_log (l1_deref l p) = table_log (l1_deref l' p)) ->
  tables_log l ps = tables_log l' ps.
Proof.
  intros Hp. unfold tables_log. f_equal. apply list_fmap_ext. intros i p Hi.
  by eapply Hp, list_elem_of_lookup_2.
Qed.

Lemma tables_log_app l ps qs : tables_log l (ps ++ qs) = tables_log l ps ++ tables_log l qs.
Proof. unfold tables_log. by rewrite fmap_app, concat_app. Qed.

Lemma tables_log_single l p : tables_log l [p] = table_log (l1_deref l p).
Proof. unfold tables_log. simpl. apply app_nil_r. Qed.

Lemma read_tables_log l ps k :
  (forall p, p ∈ ps -> table_sound (l1_deref l p)) ->
  read_tables l (reverse ps) k = tables_log l ps !!ʳ k.
Proof.
  induction ps as [|p ps IH] using rev_ind; intros Hs; [done|].
  rewrite reverse_snoc, tables_log_app, tables_log_single. autorewrite with chase. simpl.
  rewrite (ts_lookup _ (Hs p ltac:(set_solver))). destruct (table_log _ !!ʳ k); [done|].
  apply IH. set_solver.
Qed.

Lemma l1_read_log l k : l1_wf l -> l1_read l k = l1_log l !!ʳ k.
Proof.
  intros Hwf. unfold l1_read, l1_log. rewrite tables_log_app, tables_log_single. autorewrite with chase.
  rewrite (ts_lookup _ (proj2 (proj2 (l1w_live _ Hwf (l1_active l) ltac:(set_solver))))).
  destruct (table_log _ !!ʳ k); [done|]. apply read_tables_log.
  intros p Hp. apply (l1w_live _ Hwf). set_solver.
Qed.

Lemma L1Cache_new_wf c : l1_wf (L1Cache_new c) ∧ l1_log (L1Cache_new c) = [].
Proof.
  split; [|done]. split; simpl.
  - repeat constructor. by apply not_elem_of_nil.
  - intros p ->%list_elem_of_singleton. unfold l1_deref. simpl. rewrite lookup_singleton_eq.
    split_and!; [by eexists|lia|]. apply MemIndexTable_new_sound.
  - done.
  - by intros p ?%elem_of_nil.
Qed.

(** Overwriting the active table. *)
Lemma l1_store_active_wf l t :
  l1_wf l -> table_sound t ->
  l1_wf (l1_store l (l1_active l) t) ∧
  l1_log (l1_store l (l1_active l) t) = tables_log l (l1_order l).*2 ++ table_log t.
Proof.
  intros Hwf Ht. pose proof (l1w_NoDup _ Hwf) as (_ & Hd & _)%NoDup_app.
  assert (l1_active l ∉ (l1_order l).*2) as Hna by set_solver.
  split; [split; simpl|].
  - apply Hwf.
  - intros p Hp. rewrite l1_deref_store.
    destruct (l1w_live _ Hwf p Hp) as (H1 & H2 & H3).
    lookup_cases; by split_and!.
  - apply Hwf.
  - intros p Hp. rewrite l1_deref_store, decide_False by set_solver. by apply Hwf.
  - unfold l1_log. simpl. rewrite tables_log_app, tables_log_single, l1_deref_store, decide_True by done.
    f_equal. apply tables_log_ext. intros p Hp. by rewrite l1_deref_store, decide_False by set_solver.
Qed.

Lemma freeze_active_wf l :
  l1_wf l -> l1_wf (freeze_active l) ∧ l1_log (freeze_active l) = l1_log l.
Proof.
  intros Hwf. pose proof (l1w_NoDup _ Hwf) as Hnd.
  assert (forall p, p ∈ (l1_order l).*2 ++ [l1_active l] -> p ≠ l1_next_ptr l) as Hfresh.
  { intros p (_ & ? & _)%(l1w_live _ Hwf). lia. }
  assert (forall q, q ∈ (l1_order l).*2 ++ [l1_active l] -> l1_deref (freeze_active l) q =
    if decide (q = l1_active l) then freeze_table (l1_deref l q) else l1_deref l q) as Hderef.
  { intros q Hq%Hfresh. unfold l1_deref, freeze_active. simpl. rewrite lookup_insert_ne by done.
    by lookup_cases. }
  assert (l1_deref (freeze_active l) (l1_next_ptr l) = MemIndexTable_new (l1_threshold l)) as Hnew.
  { unfold l1_deref, freeze_active. simpl. by rewrite lookup_insert_eq. }
  assert ((l1_order (freeze_active l)).*2 = (l1_order l).*2 ++ [l1_active l]) as Ho.
  { simpl. by rewrite fmap_app. }
  split; [split|].
  - rewrite Ho. simpl. apply NoDup_app. split_and!; [done| |apply NoDup_singleton].
    intros p Hp%Hfresh ?%list_elem_of_singleton. done.
  - rewrite Ho. intros p [Hp|Hp]%elem_of_app.
    + destruct (l1w_live _ Hwf p Hp) as (H1 & H2 & H3). rewrite Hderef by done. split_and!.
      * simpl. by rewrite !lookup_insert_is_Some'; auto.
      * simpl. lia.
      * case_decide; [by apply freeze_table_sound|done].
    + apply list_elem_of_singleton in Hp as ->. simpl l1_active. rewrite Hnew. split_and!.
      * simpl. rewrite lookup_insert_eq. by eexists.
      * simpl. lia.
      * apply MemIndexTable_new_sound.
  - rewrite Ho. simpl. by rewrite (l1w_frozen _ Hwf).
  - rewrite Ho. intros p Hp. rewrite Hderef by done. case_decide as E; [done|].
    apply (l1w_flag _ Hwf). set_solver.
  - unfold l1_log at 1. rewrite Ho, tables_log_app, tables_log_single. simpl l1_active.
    rewrite Hnew, app_nil_r. apply tables_log_ext. intros p Hp. rewrite Hderef by done. by case_decide.
Qed.

Lemma write_delta_page_wf l page :
  l1_wf l -> is_readonly page = true ->
  exists l', write_delta_page l page = Some l' ∧ l1_wf l' ∧ l1_log l' = l1_log l ++ page_log page.
Proof.
  intros Hwf Hr. destruct (l1w_live _ Hwf (l1_active l)) as (_ & _ & Hs); [set_solver|].
  unfold write_delta_page.
  destruct (insert_page (l1_deref l (l1_active l)) page) as [t|] eqn:Ei.
  2: { unfold insert_page in Ei. by rewrite Hr in Ei. }
  destruct (insert_page_sound _ _ _ Hs Ei) as [Ht Hl].
  destruct (l1_store_active_wf l t Hwf Ht) as [Hwf' Hlog]. simpl.
  assert (l1_log (l1_store l (l1_active l) t) = l1_log l ++ page_log page) as E.
  { rewrite Hlog, Hl. unfold l1_log. by rewrite tables_log_app, tables_log_single, app_assoc. }
  eexists. split; [done|]. case_match; [|done].
  destruct (freeze_active_wf _ Hwf') as [? ->]. done.
Qed.

Lemma write_pages_l1_wf l pages :
  l1_wf l -> Forall (fun p => is_readonly p = true) pages ->
  exists l', write_pages_l1 l pages = Some l' ∧ l1_wf l' ∧ l1_log l' = l1_log l ++ pages_log pages.
Proof.
  intros Hwf Hr. revert l Hwf. induction Hr as [|p pages Hp Hr IH]; intros l Hwf; simpl.
  - exists l. split_and!; [done..|]. by rewrite app_nil_r.
  - destruct (write_delta_page_wf l p Hwf Hp) as (l1 & -> & Hwf1 & Hl1). simpl.
    destruct (IH l1 Hwf1) as (l2 & -> & Hwf2 & Hl2). exists l2. split_and!; [done..|].
    rewrite Hl2, Hl1, <- app_assoc. done.
Qed.

Lemma snd_filter_order (o : list (Z * nat)) p :
  (filter (fun e : Z * nat => e.2 ≠ p) o).*2 = filter (fun q => q ≠ p) o.*2.
Proof.
  induction o as [|[i q] o IH]; [done|]. rewrite fmap_cons, !filter_cons. cbn [snd].
  case_decide; [by rewrite fmap_cons, IH|done].
Qed.

Lemma filter_neq_head (p : nat) ps : NoDup (p :: ps) -> filter (fun q => q ≠ p) (p :: ps) = ps.
Proof.
  intros [Hp _]%NoDup_cons. rewrite filter_cons_False by tauto.
  induction ps as [|q ps IH]; [done|]. rewrite filter_cons_True by set_solver.
  f_equal. apply IH. set_solver.
Qed.

(** Removing the oldest frozen table removes the front of the log. *)
Lemma remove_first_wf l p ps :
  l1_wf l -> (l1_order l).*2 = p :: ps ->
  l1_wf (remove_frozen_table l p) ∧ l1_frozen (remove_frozen_table l p) = ps ∧
  l1_log l = table_log (l1_deref l p) ++ l1_log (remove_frozen_table l p).
Proof.
  intros Hwf Ho. pose proof (l1w_NoDup _ Hwf) as Hnd. rewrite Ho in Hnd.
  assert ((l1_order (remove_frozen_table l p)).*2 = ps) as Ho'.
  { simpl. rewrite snd_filter_order, Ho. apply filter_neq_head. by apply NoDup_app in Hnd as (? & _). }
  assert (l1_frozen (remove_frozen_table l p) = ps) as Hf.
  { simpl. rewrite (l1w_frozen _ Hwf), Ho. apply filter_neq_head. by apply NoDup_app in Hnd as (? & _). }
  split_and!; [split|done|].
  - rewrite Ho'. by apply NoDup_cons in Hnd as [_ ?].
  - rewrite Ho'. intros q Hq. apply (l1w_live _ Hwf). rewrite Ho. set_solver.
  - by rewrite Hf, Ho'.
  - rewrite Ho'. intros q Hq. apply (l1w_flag _ Hwf). rewrite Ho. by right.
  - unfold l1_log. by rewrite Ho, Ho'.
Qed.

Lemma l1_store_frozen_wf l p t :
  l1_wf l -> p ∈ (l1_order l).*2 -> table_sound t -> mit_frozen t = true -> l1_wf (l1_store l p t).
Proof.
  intros Hwf Hp Ht Hf. split; simpl; [apply Hwf| |apply Hwf|].
  - intros q Hq. destruct (l1w_live _ Hwf q Hq) as (H1 & H2 & H3). rewrite l1_deref_store.
    lookup_cases; by split_and!.
  - intros q Hq. rewrite l1_deref_store. case_decide; [done|]. by apply Hwf.
Qed.

(** The same after its pages have been drained. *)
Lemma drain_first_wf l p ps :
  l1_wf l -> (l1_order l).*2 = p :: ps ->
  exists t ps', drain_pages (l1_deref l p) = Some (t, ps') ∧
    l1_wf (remove_frozen_table (l1_store l p t) p) ∧
    l1_frozen (remove_frozen_table (l1_store l p t) p) = ps ∧
    l1_log l = table_log (l1_deref l p) ++ l1_log (remove_frozen_table (l1_store l p t) p).
Proof.
  intros Hwf Ho. assert (p ∈ (l1_order l).*2) as Hp by (rewrite Ho; left).
  pose proof (l1w_flag _ Hwf p Hp) as Hf. unfold drain_pages. rewrite Hf.
  do 2 eexists. split; [done|].
  match goal with |- context [l1_store l p ?t'] => set (t := t') end.
  assert (l1_wf (l1_store l p t)) as Hwf'.
  { apply l1_store_frozen_wf; [done|done|split; simpl; [done|done|constructor]|done]. }
  destruct (remove_first_wf _ p ps Hwf' Ho) as (H1 & H2 & H3). split_and!; [done..|].
  rewrite l1_deref_store, decide_True in H3 by done. simpl in H3. rewrite <- H3.
  unfold l1_log at 1. rewrite Ho. simpl.
  change (tables_log l (p :: ps ++ [l1_active l])) with
    (table_log (l1_deref l p) ++ tables_log l (ps ++ [l1_active l])). f_equal.
  unfold l1_log. cbn [l1_store l1_order l1_active]. rewrite Ho.
  change (tables_log (l1_store l p t) ((p :: ps) ++ [l1_active l])) with
    (table_log (l1_deref (l1_store l p t) p) ++ tables_log (l1_store l p t) (ps ++ [l1_active l])).
  rewrite l1_deref_store, decide_True by done. simpl. apply tables_log_ext.
  intros q Hq. rewrite l1_deref_store, decide_False; [done|]. intros ->.
  pose proof (l1w_NoDup _ Hwf) as Hnd. rewrite Ho in Hnd. by apply NoDup_cons in Hnd as [? _].
Qed.

(** ** Lemmas: L2 *)

Lemma assoc_cons k k' v l :
  assoc k ((k', v) :: l) = if decide (k' = k) then Some v else assoc k l.
Proof.
  unfold assoc. simpl. case_decide; [done|].
  destruct (list_find _ l) as [[? ?]|]; done.
Qed.

Lemma assoc_without k k' l : k' ≠ k -> assoc k' (without k l) = assoc k' l.
Proof.
  intros Hk. unfold without. induction l as [|[k0 v0] l IH]; [done|].
  rewrite filter_cons. cbn [fst]. case_decide as E.
  - rewrite !assoc_cons, IH. done.
  - rewrite assoc_cons, IH, decide_False; [done|]. congruence.
Qed.

Lemma assoc_take k n l v : assoc k (take n l) = Some v -> assoc k l = Some v.
Proof.
  revert n. induction l as [|[k0 v0] l IH]; intros [|n]; simpl; [done..|].
  rewrite !assoc_cons. case_decide; [done|]. apply IH.
Qed.

Section l2_lemmas.
Context {L : Type} `{LruLaws L}.

Definition l2_lookup (c : L2Cache L) (k : Key) : option Value := assoc k (lru_entries (l2_cache c)).

Lemma l2_get_spec (c : L2Cache L) k :
  (l2_get c k).2 = l2_lookup c k ∧ forall k', l2_lookup (l2_get c k).1 k' = l2_lookup c k'.
Proof.
  unfold l2_get, l2_lookup. destruct (lru_get_spec (l2_cache c) k) as (H1 & H2 & _).
  destruct (lru_get (l2_cache c) k) as [lru v]. simpl in *. split; [done|]. intros k'. rewrite H2.
  destruct (assoc k _) as [w|] eqn:E; [|done]. rewrite assoc_cons. case_decide; [by subst|].
  by apply assoc_without.
Qed.

Lemma evict_loop_entries fuel cap (lru : L) current :
  exists n, lru_entries (evict_loop fuel cap lru current).1 = take n (lru_entries lru).
Proof.
  revert lru current. induction fuel as [|fuel IH]; intros lru current; simpl.
  - exists (length (lru_entries lru)). by rewrite firstn_all.
  - destruct (_ && _); [|exists (length (lru_entries lru)); by rewrite firstn_all].
    destruct (lru_pop_spec lru) as (H1 & H2 & _).
    destruct (lru_pop_lru lru) as [lru' o]. simpl in *.
    destruct o; edestruct (IH lru') as [n ->]; rewrite H2, take_take; by eexists.
Qed.

(** The loop ends because its condition fails, not for lack of fuel. *)
Lemma evict_loop_exit fuel cap (lru : L) current :
  (length (lru_entries lru) <= fuel)%nat ->
  let '(lru', current') := evict_loop fuel cap lru current in
  (cap <? current') && (1 <? lru_len lru')%nat = false.
Proof.
  revert lru current. induction fuel as [|fuel IH]; intros lru current Hf; simpl.
  - rewrite lru_len_spec. apply andb_false_intro2. apply Nat.ltb_ge. lia.
  - destruct (_ && _) eqn:E; [|done]. apply andb_true_iff in E as [_ E%Nat.ltb_lt].
    rewrite lru_len_spec in E. destruct (lru_pop_spec lru) as (_ & H2 & _).
    destruct (lru_pop_lru lru) as [lru' o]. simpl in *.
    destruct o; apply IH; rewrite H2, length_take; lia.
Qed.

Lemma l2_insert_lookup (c : L2Cache L) k v k' v' :
  l2_lookup (l2_insert c k v) k' = Some v' ->
  if decide (k = k') then v' = v else l2_lookup c k' = Some v'.
Proof.
  unfold l2_insert, l2_lookup. destruct (lru_put_spec (l2_cache c) k v) as (_ & H2 & _).
  destruct (lru_put (l2_cache c) k v) as [lru old]. simpl in H2.
  match goal with |- context [evict_loop ?n ?m lru ?cur] =>
    destruct (evict_loop_entries n m lru cur) as [t Ht]; destruct (evict_loop n m lru cur) as [lru' cur'] end.
  simpl in *. rewrite Ht, H2. intros Ha%assoc_take%assoc_take. rewrite assoc_cons in Ha.
  case_decide; [by simplify_eq|]. by rewrite assoc_without in Ha.
Qed.

Lemma l2_insert_batch_lookup (c : L2Cache L) entries k v :
  l2_lookup (l2_insert_batch c entries) k = Some v ->
  match entries !!ʳ k with Some v' => v = v' | None => l2_lookup c k = Some v end.
Proof.
  revert v. induction entries as [|[k0 v0] entries IH] using rev_ind; intros v; [done|].
  unfold l2_insert_batch. rewrite foldl_app. autorewrite with chase. simpl.
  intros Hi%l2_insert_lookup. case_decide as E; destruct (decide (k = k0)) as [E'|E']; try congruence.
  by apply IH.
Qed.
End l2_lemmas.

(** ** Lemmas: the store and the cache *)

Definition entry_ok (e : Key * Value) : Prop := bytes32 e.1 ∧ bytes32 e.2.

(** A log over a store: the log is read first. *)
Definition overlaid (log : list (Key * Value)) (base : Key -> option Value) (k : Key) : option Value :=
  match log !!ʳ k with Some v => Some v | None => base k end.

Lemma overlaid_app l1 l2 base k : overlaid (l1 ++ l2) base k = overlaid l2 (overlaid l1 base) k.
Proof. unfold overlaid. rewrite last_write_app. by destruct (l2 !!ʳ k). Qed.

Lemma overlaid_notin log base k : k ∉ log.*1 -> overlaid log base k = base k.
Proof. intros Hk%last_write_None. unfold overlaid. by rewrite Hk. Qed.

(** [get] answers as a log written to a store that answered [base]. *)
Definition holds_over (log : list (Key * Value)) (base get : Key -> option Value) (k : Key) : Prop :=
  match log !!ʳ k with Some v => reads_as (get k) (Some v) | None => get k = base k end.

Lemma holds_over_reads log base get k : holds_over log base get k -> reads_as (get k) (overlaid log base k).
Proof. unfold holds_over, overlaid. destruct (log !!ʳ k); [done|]. intros ->. by left. Qed.

Lemma holds_over_app l1 l2 base get get' k :
  holds_over l1 base get k -> holds_over l2 get get' k -> holds_over (l1 ++ l2) base get' k.
Proof. unfold holds_over. rewrite last_write_app. destruct (l2 !!ʳ k); [done|]. by intros ? ->. Qed.

Lemma holds_over_notin log base get k : k ∉ log.*1 -> holds_over log base get k -> get k = base k.
Proof. intros Hk%last_write_None. unfold holds_over. by rewrite Hk. Qed.

Lemma page_entries_log pages : page_entries pages = pages_log pages.
Proof. unfold page_entries, pages_log. induction pages as [|p ps IH]; csimpl; [done|]. by rewrite IH. Qed.

Section cache_lemmas.
Context {L D : Type} `{HLru : LruCache L, HLruL : !LruLaws L, HSt : StateStore D, HStL : !StateStoreLaws D}.
Abbreviation TwoLevelCache := (TwoLevelCache L D).

Lemma put_batch_spec (d : D) entries :
  Forall entry_ok entries ->
  let '(d', r) := put_batch d entries in
  exists n, (forall k, bytes32 k -> holds_over (take n entries) (ss_get d) (ss_get d') k) ∧
    match r with Ok _ => n = length entries | Err _ => True end.
Proof.
  intros He. revert d. induction He as [|[k v] entries [Hk Hv] He IH]; intros d; simpl.
  - by exists 0%nat.
  - pose proof (fun k' => ss_get_put d k v k' Hk Hv) as Hp.
    destruct (ss_put d k v) as [d1 [[]|e]]; simpl in Hp.
    + specialize (IH d1). destruct (put_batch d1 entries) as [d' r]. destruct IH as (n & Hg & Hn).
      exists (S n). split; [|by destruct r; [rewrite Hn|]]. intros k' Hk'. simpl take.
      apply (holds_over_app [(k, v)] (take n entries) _ (ss_get d1)); [|by apply Hg].
      specialize (Hp k' Hk'). unfold holds_over. simpl. by destruct (decide (k' = k)) as [->|]; rewrite ?decide_True, ?decide_False by done.
    + exists 0%nat. split; [|done]. intros k' Hk'. unfold holds_over. simpl. by apply Hp.
Qed.

Lemma take_keys_subset (n : nat) (l : list (Key * Value)) k : k ∉ l.*1 -> k ∉ (take n l).*1.
Proof. intros Hk Hin. apply Hk. rewrite <- (take_drop n l), fmap_app. set_solver. Qed.

(** The cache after [H] has been written over a store that held [init]: L1
    holds the end of [H]; for a key L1 does not hold, the store answers with the last
    write and so does L2 if it has the key; pages that wait for their commit are
    still in L1. *)
Record cache_inv (init : Key -> option Value) (H : list (Key * Value)) (c : TwoLevelCache) : Prop := {
  ci_l1 : l1_wf (tc_l1 c);
  ci_valid : Forall entry_ok (l1_log (tc_l1 c));
  ci_suffix : exists F, H = F ++ l1_log (tc_l1 c);
  ci_pending : forall b pages, tc_pending_batch_pages c !! b = Some pages ->
    Forall entry_ok (page_entries pages) ∧
    forall k, k ∈ (page_entries pages).*1 -> k ∈ (l1_log (tc_l1 c)).*1;
  ci_store : forall k, bytes32 k -> k ∉ (l1_log (tc_l1 c)).*1 ->
    holds_over H init (ss_get (tc_db c)) k ∧
    forall v, l2_lookup (tc_l2 c) k = Some v -> H !!ʳ k = Some v
}.

Lemma cache_inv_read init H c k visible :
  cache_inv init H c -> bytes32 k -> visible <= tc_completed_batch c ->
  reads_as (cache_read k visible c).2 (overlaid H init k).
Proof.
  intros Hi Hk Hv. unfold cache_read. rewrite (proj2 (Z.ltb_ge _ _) Hv).
  rewrite l1_read_log by apply Hi. destruct (l1_log (tc_l1 c) !!ʳ k) eqn:E.
  - simpl. left. destruct (ci_suffix _ _ _ Hi) as [F ->]. rewrite overlaid_app. unfold overlaid at 1. by rewrite E.
  - apply last_write_None in E. destruct (ci_store _ _ _ Hi k Hk E) as [Hd H2].
    destruct (l2_get_spec (tc_l2 c) k) as [Hg _].
    destruct (l2_get (tc_l2 c) k) as [l2 o]. simpl in Hg. subst o.
    destruct (l2_lookup (tc_l2 c) k) as [v|] eqn:E2; simpl; [|by apply holds_over_reads].
    left. unfold overlaid. by rewrite (H2 v eq_refl).
Qed.

(** A store and an L2 that changed only for keys L1 holds. *)
Lemma cache_inv_touch init H c l2 db :
  cache_inv init H c ->
  (forall k, bytes32 k -> k ∉ (l1_log (tc_l1 c)).*1 ->
     ss_get db k = ss_get (tc_db c) k ∧
     forall v, l2_lookup l2 k = Some v -> l2_lookup (tc_l2 c) k = Some v) ->
  cache_inv init H (set_stored l2 db c).
Proof.
  intros [H1 H2 H3 H4 H5] Hs. split; simpl; [done..|]. intros k Hk Hn.
  destruct (Hs k Hk Hn) as [Hg Hl]. destruct (H5 k Hk Hn) as [Hd Hv]. unfold holds_over in *. rewrite Hg. eauto.
Qed.

(** A persisted log [T] that leaves L1 from its front. *)
Lemma cache_inv_drop init H c T l1 l2 db :
  cache_inv init H c -> tc_pending_batch_pages c = ∅ ->
  l1_log (tc_l1 c) = T ++ l1_log l1 -> l1_wf l1 ->
  (forall k, bytes32 k -> holds_over T (ss_get (tc_db c)) (ss_get db) k ∧
     forall v, l2_lookup l2 k = Some v ->
       match T !!ʳ k with Some v' => v = v' | None => l2_lookup (tc_l2 c) k = Some v end) ->
  cache_inv init H (set_l1 l1 (set_stored l2 db c)).
Proof.
  intros [H1 H2 [F HF] H4 H5] Hp Hl Hw Hs. split; simpl; [done|..].
  - rewrite Hl in H2. by apply Forall_app in H2 as [_ ?].
  - exists (F ++ T). by rewrite HF, Hl, app_assoc.
  - intros b pages. by rewrite Hp, lookup_empty.
  - intros k Hk Hn. destruct (Hs k Hk) as [Hg Hv].
    assert (l1_log l1 !!ʳ k = None) as Hn' by by apply last_write_None.
    assert (H !!ʳ k = match T !!ʳ k with Some v => Some v | None => F !!ʳ k end) as HH.
    { by rewrite HF, Hl, !last_write_app, Hn'. }
    unfold holds_over in *. destruct (T !!ʳ k) as [v'|] eqn:ET; rewrite HH.
    + split; [done|]. by intros v <-%Hv.
    + destruct (H5 k Hk) as [Hd H2k]; [by rewrite <- last_write_None, Hl, last_write_app, Hn'|].
      rewrite HH in Hd, H2k. rewrite Hg. split; [done|]. intros v ?%Hv. by apply H2k.
Qed.

Lemma persist_l1 entries (c : TwoLevelCache) :
  tc_l1 (persist entries c).1 = tc_l1 c ∧
  tc_pending_batch_pages (persist entries c).1 = tc_pending_batch_pages c.
Proof. unfold persist. by destruct (put_batch _ _) as [d [u|e]]. Qed.

(** Persisting entries of keys that L1 holds. *)
Lemma persist_inv init H c entries :
  cache_inv init H c -> Forall entry_ok entries ->
  (forall k, k ∈ entries.*1 -> k ∈ (l1_log (tc_l1 c)).*1) ->
  cache_inv init H (persist entries c).1.
Proof.
  intros Hi He Hk. unfold persist. pose proof (put_batch_spec (tc_db c) entries He) as Hp.
  destruct (put_batch (tc_db c) entries) as [db r]. destruct Hp as (n & Hg & _).
  destruct r; simpl; apply cache_inv_touch; try done; intros k Hk32 Hn.
  - split; [eapply holds_over_notin; [|by apply Hg]; eauto using take_keys_subset|].
    intros v Hl%l2_insert_batch_lookup. rewrite (proj2 (last_write_None entries k)) in Hl; eauto.
  - split; [|done]. eapply holds_over_notin; [|by apply Hg]. eauto using take_keys_subset.
Qed.

Lemma set_pending_inv init H c b :
  cache_inv init H c -> cache_inv init H (set_pending (delete b (tc_pending_batch_pages c)) c).
Proof.
  intros [H1 H2 H3 H4 H5]. split; simpl; [done..| |done]. intros b' pages [_ Hb]%lookup_delete_Some. eauto.
Qed.

Lemma commit_batch_inv init H c b : cache_inv init H c -> cache_inv init H (commit_batch b c).1.
Proof.
  intros Hi. unfold commit_batch. pose proof (set_pending_inv init H c b Hi) as Hi'.
  destruct (tc_pending_batch_pages c !! b) as [pages|] eqn:Eb; simpl; [|done].
  destruct (ci_pending _ _ _ Hi b pages Eb) as [Hv Hk].
  destruct (page_entries pages); [done|]. by apply persist_inv.
Qed.

Lemma write_delta_pages_inv init H (c : TwoLevelCache) b pages :
  cache_inv init H c -> Forall (fun p => is_readonly p = true) pages ->
  Forall entry_ok (pages_log pages) ->
  exists c', write_delta_pages b pages c = Some c' ∧ cache_inv init (H ++ pages_log pages) c'.
Proof.
  intros [H1 H2 [F HF] H4 H5] Hr Hv. unfold write_delta_pages.
  destruct (write_pages_l1_wf (tc_l1 c) pages H1 Hr) as (l1 & -> & Hw & Hl). simpl.
  eexists. split; [done|]. split; simpl; [done|..].
  - rewrite Hl. by apply Forall_app.
  - exists F. by rewrite Hl, HF, app_assoc.
  - intros b' ps [[<- <-]|[_ Hb]]%lookup_insert_Some; rewrite Hl; setoid_rewrite fmap_app.
    + rewrite page_entries_log. split; [done|]. set_solver.
    + destruct (H4 b' ps Hb) as [? Hk]. split; [done|]. intros k Hin%Hk. set_solver.
  - intros k Hk. rewrite Hl, fmap_app. intros [Hn Hn']%not_elem_of_app.
    destruct (H5 k Hk Hn) as [Hd Hl2]. apply last_write_None in Hn'. unfold holds_over in *.
    by rewrite last_write_app, Hn'.
Qed.

(** One put and one insertion for a key that L1 holds. *)
Lemma put_inv init H c k v :
  cache_inv init H c -> entry_ok (k, v) -> k ∈ (l1_log (tc_l1 c)).*1 ->
  cache_inv init H (set_stored (tc_l2 c) (ss_put (tc_db c) k v).1 c).
Proof.
  intros Hi [Hk Hv] Hin. apply cache_inv_touch; [done|]. intros k' Hk' Hn. split; [|done].
  pose proof (ss_get_put (tc_db c) k v k' Hk Hv Hk') as Hp. destruct (ss_put _ _ _) as [d [u|e]]; simpl in *; [|done].
  rewrite decide_False in Hp; [done|]. by intros ->.
Qed.

Lemma l2_insert_inv init H c k v :
  cache_inv init H c -> k ∈ (l1_log (tc_l1 c)).*1 ->
  cache_inv init H (set_stored (l2_insert (tc_l2 c) k v) (tc_db c) c).
Proof.
  intros Hi Hin. apply cache_inv_touch; [done|]. intros k' Hk' Hn. split; [done|].
  intros v' Hl%l2_insert_lookup. rewrite decide_False in Hl; [done|]. by intros ->.
Qed.

Lemma write_delta_pages_keys (c c' : TwoLevelCache) b pages k :
  l1_wf (tc_l1 c) -> Forall (fun p => is_readonly p = true) pages -> write_delta_pages b pages c = Some c' ->
  k ∈ (l1_log (tc_l1 c)).*1 -> k ∈ (l1_log (tc_l1 c')).*1.
Proof.
  intros Hw Hr. unfold write_delta_pages. destruct (write_pages_l1_wf _ _ Hw Hr) as (l1 & -> & _ & Hl).
  intros [= <-]. simpl. rewrite Hl, fmap_app. set_solver.
Qed.

(** A read moves an entry of L2 to the front and changes nothing else. *)
Lemma cache_read_frame init H c k visible :
  cache_inv init H c ->
  cache_inv init H (cache_read k visible c).1 ∧ tc_l1 (cache_read k visible c).1 = tc_l1 c ∧
  tc_pending_batch_pages (cache_read k visible c).1 = tc_pending_batch_pages c ∧
  tc_completed_batch (cache_read k visible c).1 = tc_completed_batch c.
Proof.
  intros Hi. unfold cache_read. case_match; [done|]. case_match; [done|].
  destruct (l2_get_spec (tc_l2 c) k) as [_ Hl]. destruct (l2_get (tc_l2 c) k) as [l2 o].
  assert (cache_inv init H (set_stored l2 (tc_db c) c)) as Hc; [|by destruct o].
  apply cache_inv_touch; [done|]. intros k' _ _. split; [done|]. intros v. by rewrite <- Hl.
Qed.

Lemma order_frozen l p ps : l1_wf l -> l1_frozen l = p :: ps -> (l1_order l).*2 = p :: ps.
Proof. intros Hw <-. symmetry. apply Hw. Qed.

(** One frozen table: L1 after it is flushed, or as it was when the store
    failed. *)
Lemma flush_loop_inv init H frozen n (c : TwoLevelCache) :
  cache_inv init H c -> tc_pending_batch_pages c = ∅ -> l1_frozen (tc_l1 c) = frozen ->
  exists c' r, flush_loop frozen n c = Some (c', r) ∧ cache_inv init H c' ∧
    tc_pending_batch_pages c' = ∅ ∧ tc_completed_batch c' = tc_completed_batch c.
Proof.
  revert n c. induction frozen as [|p ps IH]; intros n c Hi Hp Hf; cbn [flush_loop]; [by do 2 eexists|].
  pose proof (order_frozen _ _ _ (ci_l1 _ _ _ Hi) Hf) as Ho.
  destruct (clone_pages (l1_deref (tc_l1 c) p)) as [|pg pgs] eqn:Ec.
  - destruct (remove_first_wf _ p ps (ci_l1 _ _ _ Hi) Ho) as (Hw & Hf' & Hl).
    apply (IH n (set_l1 (remove_frozen_table (tc_l1 c) p) c)); [|done|done].
    pose proof (cache_inv_drop init H c [] (remove_frozen_table (tc_l1 c) p) (tc_l2 c) (tc_db c)
      Hi Hp) as Hd. apply Hd; [|done|done].
    rewrite Hl at 1. unfold table_log. unfold clone_pages in Ec. by rewrite Ec.
  - assert (page_entries (pg :: pgs) = table_log (l1_deref (tc_l1 c) p)) as Ee.
    { unfold table_log. unfold clone_pages in Ec. by rewrite Ec, page_entries_log. }
    rewrite Ee. destruct (drain_first_wf _ p ps (ci_l1 _ _ _ Hi) Ho) as (t & tp & Hdr & Hw & Hf' & Hl).
    pose proof (ci_valid _ _ _ Hi) as Hv. rewrite Hl in Hv. apply Forall_app in Hv as [Hv _].
    assert (forall k, k ∈ (table_log (l1_deref (tc_l1 c) p)).*1 -> k ∈ (l1_log (tc_l1 c)).*1) as Hk.
    { intros k Hk. rewrite Hl, fmap_app. set_solver. }
    pose proof (persist_inv init H c _ Hi Hv Hk) as Hpi.
    pose proof (put_batch_spec (tc_db c) _ Hv) as Hpb. unfold persist in *.
    destruct (put_batch (tc_db c) _) as [db r]. destruct Hpb as (m & Hg & Hm).
    destruct r as [u|e]; [|by do 2 eexists]. subst m. rewrite firstn_all in Hg. simpl.
    rewrite Hdr. cbn [mbind option_bind].
    match goal with |- context [flush_loop ps ?n' ?c'] => apply (IH n' c') end; [|done|done].
    apply (cache_inv_drop init H c (table_log (l1_deref (tc_l1 c) p))); [done..|].
    intros k Hk32. split; [by apply Hg|]. intros v Hl2. by apply l2_insert_batch_lookup.
Qed.

Lemma retry_loop_inv init H attempts n e (c : TwoLevelCache) :
  cache_inv init H c -> tc_pending_batch_pages c = ∅ ->
  exists c' r, retry_loop attempts n e c = Some (c', r) ∧ cache_inv init H c' ∧
    tc_pending_batch_pages c' = ∅ ∧ tc_completed_batch c' = tc_completed_batch c.
Proof.
  revert e c. induction attempts as [|attempts IH]; intros e c Hi Hp; simpl; [by do 2 eexists|].
  destruct (flush_loop_inv init H (frozen_snapshot (tc_l1 c)) 0 c Hi Hp eq_refl)
    as (c1 & r1 & E & Hi1 & Hp1 & Hc1). unfold flush_frozen_tables. rewrite E. simpl.
  destruct r1 as [m|e1]; [by do 2 eexists|]. rewrite <- Hc1. by apply IH.
Qed.

(** *** The operations in the order the pipeline runs them

    Batches are written, completed, read and committed in any order; the
    frozen tables are flushed when no batch waits for its commit, as
    [EvBlpChaseBridge::execute] and [process_batches] do after their commits.
    The first component is the list of all records written. *)
Inductive cache_step : list (Key * Value) * TwoLevelCache -> list (Key * Value) * TwoLevelCache -> Prop :=
| step_write H c b pages c' :
    Forall (fun p => is_readonly p = true) pages -> Forall entry_ok (pages_log pages) ->
    write_delta_pages b pages c = Some c' -> cache_step (H, c) (H ++ pages_log pages, c')
| step_complete H c b : cache_step (H, c) (H, mark_batch_complete b c)
| step_read H c k visible : cache_step (H, c) (H, (cache_read k visible c).1)
| step_commit H c b : cache_step (H, c) (H, (commit_batch b c).1)
| step_flush H c c' r :
    tc_pending_batch_pages c = ∅ -> flush_frozen_tables c = Some (c', r) -> cache_step (H, c) (H, c').

Lemma cache_step_inv init s s' :
  cache_step s s' -> cache_inv init s.1 s.2 -> cache_inv init s'.1 s'.2.
Proof.
  intros Hs. destruct Hs as [H c b pages c' Hr Hv Hw|H c b|H c k visible|H c b|H c c' r Hp Hf];
    simpl; intros Hi.
  - destruct (write_delta_pages_inv init H c b pages Hi Hr Hv) as (c1 & E & ?). congruence.
  - destruct Hi. by split.
  - by apply cache_read_frame.
  - by apply commit_batch_inv.
  - destruct (flush_loop_inv init H (frozen_snapshot (tc_l1 c)) 0 c) as (c1 & r1 & E & ? & _); [done..|].
    unfold flush_frozen_tables in Hf. congruence.
Qed.

Lemma TwoLevelCache_new_inv config db :
  cache_inv (ss_get db) [] (TwoLevelCache_new (L := L) config db).
Proof.
  destruct (L1Cache_new_wf (l1_capacity_bytes config)) as [Hw Hl]. split; simpl; [done|..].
  - rewrite Hl. constructor.
  - exists []. by rewrite Hl.
  - intros b pages. by rewrite lookup_empty.
  - intros k _ _. split; [done|]. intros v. unfold l2_lookup, L2Cache_new. simpl.
    destruct (lru_new_spec 1024) as [-> _]. done.
Qed.

Definition cache_reachable (config : CacheConfig) (db : D) (H : list (Key * Value)) (c : TwoLevelCache) : Prop :=
  rtc cache_step ([], TwoLevelCache_new config db) (H, c).

Lemma cache_reachable_inv config db H c :
  cache_reachable config db H c -> cache_inv (ss_get db) H c.
Proof.
  intros Hr. change (cache_inv (ss_get db) (H, c).1 (H, c).2).
  unfold cache_reachable in Hr. revert Hr. generalize (H, c).
  apply rtc_ind_r; [apply TwoLevelCache_new_inv|]. intros s s' _ Hs. by apply cache_step_inv.
Qed.
End cache_lemmas.

(** ** Sample caches *)

Definition sample_config : CacheConfig := mkCacheConfig 100 128 1024.

Definition sample_pages (b : Z) (writes : list (H256 * H256)) : list DeltaPage :=
  into_delta_pages (foldl (fun t w => record_write t 1 w.1 w.2) TempBuffer_new writes) b b 128.

Definition sample_write {D} (b : Z) (writes : list (H256 * H256)) (c : TwoLevelCache LruList D) :
    TwoLevelCache LruList D :=
  default c (write_delta_pages b (sample_pages b writes) c).

Definition sample_new : TwoLevelCache LruList InMemoryStateStore := TwoLevelCache_new sample_config ∅.

(** Batch 1 fills a table, batch 2 goes to the next one. *)
Definition sample_written : TwoLevelCache LruList InMemoryStateStore :=
  mark_batch_complete 2 (sample_write 2 [(5, 20)] (sample_write 1 [(5, 10); (6, 11)] sample_new)).

Definition sample_committed : TwoLevelCache LruList InMemoryStateStore :=
  (commit_batch 2 (commit_batch 1 sample_written).1).1.

Definition sample_flushed : TwoLevelCache LruList InMemoryStateStore :=
  match flush_frozen_tables sample_committed with Some (c, _) => c | None => sample_committed end.

Definition sample_log : list (Key * Value) :=
  pages_log (sample_pages 1 [(5, 10); (6, 11)]) ++ pages_log (sample_pages 2 [(5, 20)]).

Lemma bytes32_be z : bytes32 (be_bytes 32 z).
Proof. split; auto with chase. Qed.

Lemma bytes32_encode_key a s : bytes32 (encode_key a s).
Proof.
  unfold encode_key. split; [by rewrite length_app, length_drop, !length_be_bytes|].
  apply Forall_app. split; [|apply Forall_drop]; auto with chase.
Qed.

#[export] Hint Resolve bytes32_be bytes32_encode_key : chase.

Lemma record_write_ok b a s v : Forall entry_ok b -> Forall entry_ok (record_write b a s v).
Proof.
  intros Hb. apply Forall_app. split; [done|]. apply Forall_singleton.
  split; [apply bytes32_encode_key|apply bytes32_be].
Qed.

#[export] Hint Resolve record_write_ok : chase.

Lemma into_delta_pages_ok b bs be max_records :
  (0 < max_records)%nat -> Forall entry_ok b ->
  Forall (fun p => is_readonly p = true) (into_delta_pages b bs be max_records) ∧
  Forall entry_ok (pages_log (into_delta_pages b bs be max_records)).
Proof.
  intros Hm Hb. destruct (into_delta_pages_spec b bs be max_records Hm) as [-> H2].
  split; [|done]. eapply Forall_impl; [done|]. simpl. tauto.
Qed.

Lemma sample_pages_ok b ws :
  Forall (fun p => is_readonly p = true) (sample_pages b ws) ∧ Forall entry_ok (pages_log (sample_pages b ws)).
Proof.
  apply into_delta_pages_ok; [lia|]. unfold TempBuffer_new.
  induction ws as [|w ws IH] using rev_ind; [constructor|]. rewrite foldl_app. simpl. auto with chase.
Qed.

Lemma sample_step_write H (c : TwoLevelCache LruList InMemoryStateStore) b ws :
  is_Some (write_delta_pages b (sample_pages b ws) c) ->
  cache_step (H, c) (H ++ pages_log (sample_pages b ws), sample_write b ws c).
Proof.
  intros [c' E]. destruct (sample_pages_ok b ws). unfold sample_write. rewrite E.
  by eapply step_write.
Qed.

Lemma sample_committed_reachable : cache_reachable sample_config ∅ sample_log sample_committed.
Proof.
  unfold cache_reachable. eapply rtc_l; [apply (sample_step_write _ _ 1 [(5, 10); (6, 11)]); by eexists|].
  eapply rtc_l; [apply (sample_step_write _ _ 2 [(5, 20)]); by eexists|].
  eapply rtc_l; [apply (step_complete _ _ 2)|].
  eapply rtc_l; [apply (step_commit _ _ 1)|]. eapply rtc_once, (step_commit _ _ 2).
Qed.

Lemma sample_flushed_reachable : cache_reachable sample_config ∅ sample_log sample_flushed.
Proof.
  eapply rtc_r; [apply sample_committed_reachable|].
  apply (step_flush _ _ _ (Ok 1%nat)); vm_compute; reflexivity.
Qed.

(** A store on a full disk. *)
Inductive FullStore : Type := full_disk.

#[local] Instance FullStore_store : StateStore FullStore := {|
  ss_get d key := None;
  ss_put d key value := (d, Err "no space left on device"%string)
|}.

(** ** Lemmas: what a flush does *)

Section flush_lemmas.
Context {L D : Type} `{HLru : LruCache L, HLruL : !LruLaws L, HSt : StateStore D, HStL : !StateStoreLaws D}.
Abbreviation TwoLevelCache := (TwoLevelCache L D).

Definition pages_count (l : L1Cache) (ps : list nat) : nat :=
  sum_list ((fun p => length (mit_pages (l1_deref l p))) <$> ps).

(** [flushed] tables have gone to the store; [rest] are still frozen. *)
Definition flush_outcome (c c' : TwoLevelCache) (n : nat) (r : Result nat string)
    (flushed rest : list nat) : Prop :=
  l1_wf (tc_l1 c') ∧ l1_frozen (tc_l1 c') = rest ∧
  l1_log (tc_l1 c) = tables_log (tc_l1 c) flushed ++ l1_log (tc_l1 c') ∧
  match r with
  | Ok m => rest = [] ∧ m = (n + pages_count (tc_l1 c) flushed)%nat ∧
      forall k, bytes32 k -> holds_over (tables_log (tc_l1 c) flushed) (ss_get (tc_db c)) (ss_get (tc_db c')) k
  | Err _ => exists p rest' m, rest = p :: rest' ∧
      forall k, bytes32 k ->
        holds_over (tables_log (tc_l1 c) flushed ++ take m (table_log (l1_deref (tc_l1 c) p)))
          (ss_get (tc_db c)) (ss_get (tc_db c')) k
  end.

(** A flush of the oldest table followed by a flush of the others. *)
Lemma flush_outcome_cons (c c1 c' : TwoLevelCache) p n r flushed rest :
  (forall q, q ∈ flushed ++ rest -> l1_deref (tc_l1 c1) q = l1_deref (tc_l1 c) q) ->
  l1_log (tc_l1 c) = table_log (l1_deref (tc_l1 c) p) ++ l1_log (tc_l1 c1) ->
  (forall k, bytes32 k -> holds_over (table_log (l1_deref (tc_l1 c) p)) (ss_get (tc_db c)) (ss_get (tc_db c1)) k) ->
  flush_outcome c1 c' (n + length (mit_pages (l1_deref (tc_l1 c) p))) r flushed rest ->
  flush_outcome c c' n r (p :: flushed) rest.
Proof.
  intros Hq Hl Hg (H1 & H2 & H3 & H4).
  assert (forall ps, ps ⊆ flushed -> tables_log (tc_l1 c1) ps = tables_log (tc_l1 c) ps) as Ht.
  { intros ps Hps. apply tables_log_ext. intros q Hin. rewrite Hq; set_solver. }
  rewrite Ht in H3, H4 by done.
  change (tables_log (tc_l1 c) (p :: flushed)) with
    (table_log (l1_deref (tc_l1 c) p) ++ tables_log (tc_l1 c) flushed) in *.
  unfold flush_outcome. rewrite Hl, H3, app_assoc. split_and!; [done..|].
  destruct r as [m|e].
  - destruct H4 as (-> & -> & H4). split_and!; [done| |].
    + unfold pages_count. csimpl.
      assert ((fun q => length (mit_pages (l1_deref (tc_l1 c1) q))) <$> flushed =
              (fun q => length (mit_pages (l1_deref (tc_l1 c) q))) <$> flushed) as ->; [|lia].
      apply list_fmap_ext. intros i q Hi%list_elem_of_lookup_2. rewrite Hq; set_solver.
    + intros k Hk. change (tables_log (tc_l1 c) (p :: flushed)) with
        (table_log (l1_deref (tc_l1 c) p) ++ tables_log (tc_l1 c) flushed).
      eapply holds_over_app; [by apply Hg|by apply H4].
  - destruct H4 as (p' & rest' & m & -> & H4). exists p', rest', m. split; [done|].
    intros k Hk. change (tables_log (tc_l1 c) (p :: flushed)) with
        (table_log (l1_deref (tc_l1 c) p) ++ tables_log (tc_l1 c) flushed).
    specialize (H4 k Hk). rewrite (Hq p') in H4 by (apply elem_of_app; right; left).
    rewrite <- app_assoc. eapply holds_over_app; [by apply Hg|exact H4].
Qed.

Lemma flush_loop_outcome frozen n (c : TwoLevelCache) :
  l1_wf (tc_l1 c) -> Forall entry_ok (l1_log (tc_l1 c)) -> l1_frozen (tc_l1 c) = frozen ->
  exists c' r flushed rest, flush_loop frozen n c = Some (c', r) ∧ frozen = flushed ++ rest ∧
    flush_outcome c c' n r flushed rest.
Proof.
  revert n c. induction frozen as [|p ps IH]; intros n c Hw Hv Hf; cbn [flush_loop].
  { exists c, (Ok n), [], []. split_and!; done || (simpl; lia). }
  pose proof (order_frozen _ _ _ Hw Hf) as Ho.
  assert (NoDup (p :: ps)) as [Hnp _]%NoDup_cons.
  { rewrite <- Ho. pose proof (l1w_NoDup _ Hw) as Hn. by apply NoDup_app in Hn as (? & _). }
  destruct (clone_pages (l1_deref (tc_l1 c) p)) as [|pg pgs] eqn:Ec; unfold clone_pages in Ec.
  - destruct (remove_first_wf _ p ps Hw Ho) as (Hw' & Hf' & Hl).
    assert (table_log (l1_deref (tc_l1 c) p) = []) as En by (unfold table_log; by rewrite Ec).
    edestruct (IH n (set_l1 (remove_frozen_table (tc_l1 c) p) c)) as (c' & r & fl & rest & E & Hps & Hout);
      [done| |done|].
    { rewrite En in Hl. simpl in *. by rewrite <- Hl. }
    exists c', r, (p :: fl), rest. split; [done|]. split; [by rewrite Hps|].
    eapply flush_outcome_cons; [..|rewrite Ec; simpl; rewrite Nat.add_0_r; exact Hout]; simpl; [done|done|].
    intros k Hk. by rewrite En.
  - assert (page_entries (pg :: pgs) = table_log (l1_deref (tc_l1 c) p)) as Ee.
    { unfold table_log. by rewrite Ec, page_entries_log. }
    rewrite Ee. destruct (drain_first_wf _ p ps Hw Ho) as (t & tp & Hdr & Hw' & Hf' & Hl).
    rewrite Hl in Hv. apply Forall_app in Hv as [Hv Hv'].
    pose proof (put_batch_spec (tc_db c) _ Hv) as Hpb. unfold persist.
    destruct (put_batch (tc_db c) _) as [db [u|e]]; destruct Hpb as (m & Hg & Hm).
    + subst m. rewrite firstn_all in Hg. cbn [tc_l1 set_stored]. rewrite Hdr. cbn [mbind option_bind].
      edestruct (IH (n + length (pg :: pgs))%nat (set_l1 (remove_frozen_table (l1_store (tc_l1 c) p t) p)
        (set_stored (l2_insert_batch (tc_l2 c) (table_log (l1_deref (tc_l1 c) p))) db c)))
        as (c' & r & fl & rest & E & Hps & Hout); [done..|].
      exists c', r, (p :: fl), rest. split; [done|]. split; [by rewrite Hps|].
      eapply flush_outcome_cons; [..|rewrite Ec; exact Hout]; [|done|done].
      intros q Hq. rewrite <- Hps in Hq. cbn [tc_l1 set_l1]. unfold l1_deref. simpl.
      rewrite lookup_insert_ne; [done|]. by intros ->.
    + exists (set_stored (tc_l2 c) db c), (Err e), [], (p :: ps). split_and!; try done.
      unfold flush_outcome. split_and!; [done..|]. by exists p, ps, m.
Qed.
End flush_lemmas.

(** ** Theorems *)

Section cache_theorems.
Context {L D : Type} `{HLru : LruCache L, HLruL : !LruLaws L, HSt : StateStore D, HStL : !StateStoreLaws D}.

(** C27. The two levels and the store together behave as the log of all writes
    over the initial store.  Batches are written, completed and committed in any order,
    and frozen tables are flushed when no batch waits for its commit, as the pipeline
    does; whatever has been frozen, committed, evicted or flushed, and whichever puts
    have failed, a read at a completed batch returns the last value written to the key,
    and the initial value of the store when there is none.  If the last value is zero,
    the read may instead find nothing, since the store on RocksDB keeps no zeros. *)
Theorem cache_read_last_write config (db : D) H (c : TwoLevelCache L D) k visible :
  cache_reachable config db H c -> bytes32 k -> visible <= tc_completed_batch c ->
  reads_as (cache_read k visible c).2 (overlaid H (ss_get db) k).
Proof. intros Hr%cache_reachable_inv. by apply cache_inv_read. Qed.

(** A flush never panics.  It moves the frozen tables to the store from the
    oldest on: when it succeeds no frozen table is left, the count of pages is
    returned and the store holds their records; when the store fails, the failing
    table and all newer ones stay in L1, and the store holds the flushed tables
    and a front part of the failing one.  L1 keeps exactly the records that were
    not flushed. *)
Theorem flush_frozen_tables_outcome (c : TwoLevelCache L D) :
  l1_wf (tc_l1 c) -> Forall entry_ok (l1_log (tc_l1 c)) ->
  exists c' r flushed rest, flush_frozen_tables c = Some (c', r) ∧
    l1_frozen (tc_l1 c) = flushed ++ rest ∧ flush_outcome c c' 0 r flushed rest.
Proof. intros Hw Hv. by apply flush_loop_outcome. Qed.

(** A commit that fails forgets the pages of the batch: a second attempt
    succeeds without writing anything to the store. *)
Theorem commit_failure_loses_pages (c : TwoLevelCache L D) b pages db e :
  tc_pending_batch_pages c !! b = Some pages ->
  put_batch (tc_db c) (page_entries pages) = (db, Err e) ->
  exists c', commit_batch b c = (c', Err e) ∧ tc_db c' = db ∧
    tc_pending_batch_pages c' !! b = None ∧
    exists c'', commit_batch b c' = (c'', Ok tt) ∧ tc_db c'' = db ∧ tc_l2 c'' = tc_l2 c.
Proof.
  intros Hb Hp. unfold commit_batch at 1. rewrite Hb. simpl default. unfold persist.
  destruct (page_entries pages) as [|en ens]; [done|]. simpl tc_db. rewrite Hp.
  eexists. split_and!; [done|done|by apply lookup_delete_eq|].
  unfold commit_batch. simpl. rewrite lookup_delete_eq. simpl. by eexists.
Qed.
End cache_theorems.

Lemma cache_read_last_write_witness :
  (cache_read (encode_key 1 5) 2 sample_flushed).2 = Some (encode_value 20) ∧
  (cache_read (encode_key 1 6) 2 sample_flushed).2 = Some (encode_value 11).
Proof.
  split; apply reads_as_nonzero.
  - apply (cache_read_last_write sample_config ∅ sample_log sample_flushed (encode_key 1 5) 2).
    + exact sample_flushed_reachable.
    + auto with chase.
    + vm_compute. discriminate.
  - vm_compute. discriminate.
  - apply (cache_read_last_write sample_config ∅ sample_log sample_flushed (encode_key 1 6) 2).
    + exact sample_flushed_reachable.
    + auto with chase.
    + vm_compute. discriminate.
  - vm_compute. discriminate.
Defined.

Lemma sample_committed_wf :
  l1_wf (tc_l1 sample_committed) ∧ Forall entry_ok (l1_log (tc_l1 sample_committed)).
Proof. pose proof (cache_reachable_inv _ _ _ _ sample_committed_reachable) as Hi. split; apply Hi. Qed.

Lemma flush_frozen_tables_outcome_witness :
  exists c' r flushed rest, flush_frozen_tables sample_committed = Some (c', r) ∧
    [0%nat] = flushed ++ rest ∧ flush_outcome sample_committed c' 0 r flushed rest.
Proof.
  apply (flush_frozen_tables_outcome sample_committed).
  - apply sample_committed_wf.
  - apply sample_committed_wf.
Defined.

Lemma commit_failure_loses_pages_witness :
  let c := sample_write 1 [(5, 10)] (TwoLevelCache_new (L := LruList) (D := FullStore) sample_config full_disk) in
  exists c', commit_batch 1 c = (c', Err "no space left on device"%string) ∧ tc_db c' = full_disk ∧
    tc_pending_batch_pages c' !! 1 = None ∧
    exists c'', commit_batch 1 c' = (c'', Ok tt) ∧ tc_db c'' = full_disk ∧ tc_l2 c'' = tc_l2 c.
Proof.
  apply (commit_failure_loses_pages (L := LruList) (D := FullStore)
    (sample_write 1 [(5, 10)] (TwoLevelCache_new (L := LruList) (D := FullStore) sample_config full_disk))
    1 (sample_pages 1 [(5, 10)]) full_disk "no space left on device"%string).
  - vm_compute. reflexivity.
  - vm_compute. reflexivity.
Defined.

(** The end-of-run flush can undo commits in the store: after batches 1 and 2
    wrote slot 5 and both were committed, the store holds the value of batch 2;
    the flush of the table frozen after batch 1 puts the value of batch 1 back,
    so a restart from the store loses the update. *)
Theorem flush_regresses_store :
  cache_reachable sample_config ∅ sample_log sample_committed ∧
  cache_reachable sample_config ∅ sample_log sample_flushed ∧
  ss_get (tc_db sample_committed) (encode_key 1 5) = Some (encode_value 20) ∧
  ss_get (tc_db sample_flushed) (encode_key 1 5) = Some (encode_value 10).
Proof.
  split_and!; [apply sample_committed_reachable|apply sample_flushed_reachable|by vm_compute..].
Qed.
