(* ===== verification/Pipeline.v ===== *)
(** * The EV-BLP pipeline

    crates/sslab-execution/chase/src/executor/pipeline: stages.rs,
    controller.rs, metrics.rs, calibration.rs and ev_blp.rs.

    The atomics of the controller are its fields.  A loop of the source that
    waits for a condition takes fuel; [Spinning] is the outcome of a loop that
    used it up, [Panicked] that of a panic, so a theorem can tell a run that
    returns from one that never does. *)

From Stdlib Require Import Floats.SpecFloat.
From S2P Require Import Prelude Types Pages Cache.
Local Open Scope Z_scope.
Local Open Scope chase_scope.

(** ** Stages *)

Inductive StageId := Order | Exec | Commit.

#[global] Instance StageId_eq_dec : EqDecision StageId.
Proof. solve_decision. Defined.

Definition STAGE_COUNT : nat := 3.

Definition stage_index (s : StageId) : nat :=
  match s with Order => 0 | Exec => 1 | Commit => 2 end.

Definition stage_next (s : StageId) : option StageId :=
  match s with Order => Some Exec | Exec => Some Commit | Commit => None end.

Definition stage_from_index (idx : nat) : option StageId :=
  match idx with
  | 0%nat => Some Order
  | 1%nat => Some Exec
  | 2%nat => Some Commit
  | _ => None
  end.

Record PipelineBatch := mkPipelineBatch {
  pb_batch_id : Z;
  pb_batch : ExecutableEthereumBatch;
  pb_gas_weight : Z;
  pb_delta_bytes : Z
}.

(** The saturating sum of the gas limits; a transaction without one panics. *)
Definition gas_weight (txs : list EthereumTransaction) : option Z :=
  foldl (fun acc tx => a ← acc; g ← gas_limit tx; Some (u64_saturating_add a g)) (Some 0) txs.

Definition PipelineBatch_new (batch_id : Z) (batch : ExecutableEthereumBatch) :
    option PipelineBatch :=
  w ← gas_weight (batch_data batch); Some (mkPipelineBatch batch_id batch w 0).

Definition with_delta_bytes (b : PipelineBatch) (n : Z) : PipelineBatch :=
  mkPipelineBatch (pb_batch_id b) (pb_batch b) (pb_gas_weight b) n.

Definition pb_digest (b : PipelineBatch) : Z := batch_digest (pb_batch b).

(** ** PipelineController *)

(** An array with one cell per stage. *)
Record PerStage := mkPerStage { at_order : Z; at_exec : Z; at_commit : Z }.

Definition cell (a : PerStage) (s : StageId) : Z :=
  match s with Order => at_order a | Exec => at_exec a | Commit => at_commit a end.

Definition set_cell (a : PerStage) (s : StageId) (v : Z) : PerStage :=
  match s with
  | Order => mkPerStage v (at_exec a) (at_commit a)
  | Exec => mkPerStage (at_order a) v (at_commit a)
  | Commit => mkPerStage (at_order a) (at_exec a) v
  end.

Record PipelineController := mkController {
  ctl_zeta : PerStage;
  ctl_w : PerStage;
  ctl_lambda : PerStage;
  ctl_zeta_max : Z;
  ctl_in_flight : PerStage
}.

Definition PipelineController_new (config : PipelineConfig) : PipelineController :=
  mkController (mkPerStage 1 1 1) (mkPerStage 0 0 0)
    (mkPerStage 0 (lambda2 config) (lambda3 config)) (zeta_max config) (mkPerStage 0 0 0).

Definition get_window_size (c : PipelineController) (s : StageId) : Z := cell (ctl_zeta c) s.

Definition get_backpressure_weight (c : PipelineController) (s : StageId) : Z := cell (ctl_w c) s.

Definition in_flight_count (c : PipelineController) (s : StageId) : Z := cell (ctl_in_flight c) s.

Definition can_push (c : PipelineController) (s : StageId) : bool :=
  let window := get_window_size c s in
  if window =? 0 then false else in_flight_count c s <? window.

Definition on_batch_enter (s : StageId) (gas_or_bytes : Z) (c : PipelineController) :
    PipelineController :=
  mkController (ctl_zeta c) (set_cell (ctl_w c) s (cell (ctl_w c) s +u64 gas_or_bytes))
    (ctl_lambda c) (ctl_zeta_max c)
    (set_cell (ctl_in_flight c) s (cell (ctl_in_flight c) s +u32 1)).

Definition next_zeta (w_next lambda current zeta_max : Z) : Z :=
  if w_next =? 0 then
    let capped := Z.min (u32_saturating_mul current 2) zeta_max in
    if capped =? 0 then 1 else capped
  else if w_next <? lambda then Z.min (u32_saturating_add current 1) zeta_max
  else 0.

Definition tick (s : StageId) (c : PipelineController) : PipelineController :=
  match stage_next s with
  | None => c
  | Some next =>
      mkController
        (set_cell (ctl_zeta c) s
           (next_zeta (get_backpressure_weight c next) (cell (ctl_lambda c) next)
              (cell (ctl_zeta c) s) (ctl_zeta_max c)))
        (ctl_w c) (ctl_lambda c) (ctl_zeta_max c) (ctl_in_flight c)
  end.

Definition on_batch_exit (s : StageId) (gas_or_bytes : Z) (c : PipelineController) :
    PipelineController :=
  tick s
    (mkController (ctl_zeta c)
       (set_cell (ctl_w c) s (u64_saturating_sub (cell (ctl_w c) s) gas_or_bytes))
       (ctl_lambda c) (ctl_zeta_max c)
       (set_cell (ctl_in_flight c) s (u32_saturating_sub (cell (ctl_in_flight c) s) 1))).

(** ** Metrics *)

Record StageStats := mkStageStats {
  batch_count : Z;
  total_us : Z;
  max_us : Z;
  stall_count : Z;
  stall_us : Z
}.

Definition StageStats_default : StageStats := mkStageStats 0 0 0 0 0.

(** The compare-and-swap loop leaves the larger of the two values. *)
Definition update_max (current value : Z) : Z := if current <? value then value else current.

Definition StageStats_record_batch (duration_us : Z) (s : StageStats) : StageStats :=
  mkStageStats (batch_count s +u64 1) (total_us s +u64 duration_us)
    (update_max (max_us s) duration_us) (stall_count s) (stall_us s).

Definition StageStats_record_stall (duration_us : Z) (s : StageStats) : StageStats :=
  mkStageStats (batch_count s) (total_us s) (max_us s) (stall_count s +u64 1)
    (stall_us s +u64 duration_us).

Record WorkloadSample := mkSample { ws_gas_weight : Z; ws_delta_bytes : Z }.

Record PipelineMetrics := mkMetrics {
  mt_order : StageStats;
  mt_exec : StageStats;
  mt_commit : StageStats;
  mt_samples : list WorkloadSample;
  mt_max_w_exec : Z;
  mt_max_w_commit : Z
}.

Definition PipelineMetrics_default : PipelineMetrics :=
  mkMetrics StageStats_default StageStats_default StageStats_default [] 0 0.

Definition stage_stats (m : PipelineMetrics) (s : StageId) : StageStats :=
  match s with Order => mt_order m | Exec => mt_exec m | Commit => mt_commit m end.

Definition on_stage_stats (f : StageStats -> StageStats) (s : StageId) (m : PipelineMetrics) :
    PipelineMetrics :=
  match s with
  | Order => mkMetrics (f (mt_order m)) (mt_exec m) (mt_commit m) (mt_samples m)
               (mt_max_w_exec m) (mt_max_w_commit m)
  | Exec => mkMetrics (mt_order m) (f (mt_exec m)) (mt_commit m) (mt_samples m)
              (mt_max_w_exec m) (mt_max_w_commit m)
  | Commit => mkMetrics (mt_order m) (mt_exec m) (f (mt_commit m)) (mt_samples m)
                (mt_max_w_exec m) (mt_max_w_commit m)
  end.

Definition record_batch (s : StageId) (duration_us : Z) : PipelineMetrics -> PipelineMetrics :=
  on_stage_stats (StageStats_record_batch duration_us) s.

Definition record_stall (s : StageId) (duration_us : Z) : PipelineMetrics -> PipelineMetrics :=
  on_stage_stats (StageStats_record_stall duration_us) s.

Definition record_workload (gas delta : Z) (m : PipelineMetrics) : PipelineMetrics :=
  mkMetrics (mt_order m) (mt_exec m) (mt_commit m) (mt_samples m ++ [mkSample gas delta])
    (mt_max_w_exec m) (mt_max_w_commit m).

Definition record_backpressure_peak (w_exec w_commit : Z) (m : PipelineMetrics) : PipelineMetrics :=
  mkMetrics (mt_order m) (mt_exec m) (mt_commit m) (mt_samples m)
    (update_max (mt_max_w_exec m) w_exec) (update_max (mt_max_w_commit m) w_commit).

Record PipelineMetricsSummary := mkSummary {
  sm_order : StageStats;
  sm_exec : StageStats;
  sm_commit : StageStats;
  sm_max_w_exec : Z;
  sm_max_w_commit : Z;
  sm_sample_count : Z
}.

Definition metrics_summary (m : PipelineMetrics) : PipelineMetricsSummary :=
  mkSummary (mt_order m) (mt_exec m) (mt_commit m) (mt_max_w_exec m) (mt_max_w_commit m)
    (Z.of_nat (length (mt_samples m))).

(** ** Calibration

    Double-precision arithmetic is the binary64 format of [SpecFloat]. *)
Definition f64_of_Z (n : Z) : spec_float := binary_normalize 53 1024 n 0 false.

(** [f64::round] (half away from zero) followed by [as usize], for the
    non-negative values it meets here. *)
Definition f64_round_as_usize (x : spec_float) : Z :=
  match x with
  | S754_finite false m e =>
      if 0 <=? e then Z.min u64_max (Z.pos m * 2 ^ e)
      else
        let d := 2 ^ (- e) in
        if d <=? 2 * (Z.pos m mod d) then Z.pos m / d + 1 else Z.pos m / d
  | S754_infinity false => u64_max
  | _ => 0
  end.

Definition percentile_u64 (values : list Z) (pct : Z) : option Z :=
  match values with
  | [] => None
  | _ =>
      let sorted := sort_by_key id values in
      let last := length sorted - 1 in
      let idx := f64_round_as_usize
        (SFmul 53 1024 (SFdiv 53 1024 (f64_of_Z pct) (f64_of_Z 100)) (f64_of_Z (Z.of_nat last))) in
      sorted !! Nat.min (Z.to_nat idx) last
  end%nat.

Record LambdaRecommendation := mkRecommendation {
  rec_lambda2 : Z;
  rec_lambda3 : Z;
  p95_gas_per_batch : Z;
  p95_delta_bytes_per_batch : Z;
  rec_sample_count : nat
}.

Definition recommend_lambdas (samples : list WorkloadSample) (zeta_max : Z) : LambdaRecommendation :=
  let p95_gas := default 1 (percentile_u64 (ws_gas_weight <$> samples) 95) in
  let p95_delta := default 1 (percentile_u64 (ws_delta_bytes <$> samples) 95) in
  let z := Z.max zeta_max 1 in
  mkRecommendation
    (u64_saturating_mul (u64_saturating_mul p95_gas z) 2)
    (u64_saturating_mul (u64_saturating_mul p95_delta z) 2)
    p95_gas p95_delta (length samples).

(** ** EvBlpPipeline *)

Definition or_panic {A} (o : option A) : Run A :=
  match o with Some x => Finished x | None => Panicked end.

Record EvBlpPipeline (L D : Type) := mkPipeline {
  ppl_controller : PipelineController;
  ppl_cache : TwoLevelCache L D;
  ppl_config : EvBlpConfig;
  ppl_next_batch_id : Z;
  ppl_last_exec_complete : Z
}.
Arguments mkPipeline {L D}.
Arguments ppl_controller {L D}.
Arguments ppl_cache {L D}.
Arguments ppl_config {L D}.
Arguments ppl_next_batch_id {L D}.
Arguments ppl_last_exec_complete {L D}.

(** The trait [BatchExecutor].  The executor has a state of its own and may use
    the cache it shares with the pipeline. *)
Class BatchExecutor (X L D : Type) := {
  ex_execute_batch : ExecutableEthereumBatch -> TempBuffer -> Z -> X * TwoLevelCache L D ->
    (X * TwoLevelCache L D) * (TempBuffer * Z);
  ex_commit_batch : PipelineBatch -> X * TwoLevelCache L D ->
    (X * TwoLevelCache L D) * Result unit string
}.

Section pipeline.
Context {L D : Type} `{LruCache L} `{StateStore D}.
Abbreviation EvBlpPipeline := (EvBlpPipeline L D).

Definition EvBlpPipeline_from_config (config : EvBlpConfig) (db : D) : EvBlpPipeline :=
  mkPipeline (PipelineController_new (cfg_pipeline config))
    (TwoLevelCache_new (cfg_cache config) db) config 1 0.

Definition EvBlpPipeline_new (pipeline_config : PipelineConfig) (cache_config : CacheConfig) (db : D) :
    EvBlpPipeline :=
  EvBlpPipeline_from_config (mkEvBlpConfig pipeline_config cache_config) db.

Definition on_controller (f : PipelineController -> PipelineController) (p : EvBlpPipeline) :
    EvBlpPipeline :=
  mkPipeline (f (ppl_controller p)) (ppl_cache p) (ppl_config p) (ppl_next_batch_id p)
    (ppl_last_exec_complete p).

Definition with_cache (c : TwoLevelCache L D) (p : EvBlpPipeline) : EvBlpPipeline :=
  mkPipeline (ppl_controller p) c (ppl_config p) (ppl_next_batch_id p) (ppl_last_exec_complete p).

Definition alloc_batch_id (p : EvBlpPipeline) : EvBlpPipeline * Z :=
  (mkPipeline (ppl_controller p) (ppl_cache p) (ppl_config p) (ppl_next_batch_id p +u64 1)
     (ppl_last_exec_complete p), ppl_next_batch_id p).

Definition on_batch_exec_complete (batch_id : Z) (pages : list DeltaPage) (p : EvBlpPipeline) :
    option EvBlpPipeline :=
  c ← write_delta_pages batch_id pages (ppl_cache p);
  Some (mkPipeline (ppl_controller p) (mark_batch_complete batch_id c) (ppl_config p)
          (ppl_next_batch_id p) batch_id).

Context {X : Type} `{BatchExecutor X L D}.

(** [drain_commit_stage]: [kept] are the batches before the index, whose commit
    failed in this pass. *)
Fixpoint drain_loop (kept todo : list PipelineBatch) (s : X * EvBlpPipeline) :
    (X * EvBlpPipeline) * list PipelineBatch :=
  match todo with
  | [] => (s, kept)
  | batch :: todo' =>
      if can_push (ppl_controller s.2) Commit then
        let p := on_controller (on_batch_enter Commit (pb_delta_bytes batch)) s.2 in
        let '((x, c), r) := ex_commit_batch batch (s.1, ppl_cache p) in
        let p' := on_controller (on_batch_exit Commit (pb_delta_bytes batch)) (with_cache c p) in
        match r with
        | Ok _ => drain_loop kept todo' (x, p')
        | Err _ => drain_loop (kept ++ [batch]) todo' (x, p')
        end
      else (s, kept ++ todo)
  end.

Definition drain_commit_stage (pending : list PipelineBatch) (s : X * EvBlpPipeline) :
    (X * EvBlpPipeline) * list PipelineBatch := drain_loop [] pending s.

(** [while !can_push(stage) { drain_commit_stage(..) }] *)
Fixpoint wait_window (fuel : nat) (stage : StageId) (pending : list PipelineBatch)
    (s : X * EvBlpPipeline) : Run ((X * EvBlpPipeline) * list PipelineBatch) :=
  if can_push (ppl_controller s.2) stage then Finished (s, pending)
  else
    match fuel with
    | O => Spinning
    | S fuel' => let '(s', pending') := drain_commit_stage pending s in wait_window fuel' stage pending' s'
    end.

(** [while !pending_commit.is_empty() { drain_commit_stage(..) }] *)
Fixpoint drain_all (fuel : nat) (pending : list PipelineBatch) (s : X * EvBlpPipeline) :
    Run (X * EvBlpPipeline) :=
  match pending with
  | [] => Finished s
  | _ =>
      match fuel with
      | O => Spinning
      | S fuel' => let '(s', pending') := drain_commit_stage pending s in drain_all fuel' pending' s'
      end
  end.

(** The part of an iteration after both windows are open: P2 and the exits. *)
Definition execute_stage (pipe_batch : PipelineBatch) (s : X * EvBlpPipeline) :
    Run ((X * EvBlpPipeline) * (PipelineBatch * Z)) :=
  let visible_up_to := ppl_last_exec_complete s.2 in
  let p := on_controller (on_batch_enter Exec (pb_gas_weight pipe_batch)) s.2 in
  let '((x, c), (temp_buffer, digest)) :=
    ex_execute_batch (pb_batch pipe_batch) TempBuffer_new visible_up_to (s.1, ppl_cache p) in
  let pipe_batch := with_delta_bytes pipe_batch (delta_bytes temp_buffer) in
  let batch_id := pb_batch_id pipe_batch in
  let pages := into_delta_pages temp_buffer batch_id batch_id
    (deltapage_max_records (cfg_cache (ppl_config p))) in
  p' ← or_panic (on_batch_exec_complete batch_id pages (with_cache c p));
  let p'' := on_controller (on_batch_exit Exec (pb_gas_weight pipe_batch)) p' in
  Finished ((x, on_controller (on_batch_exit Order (pb_gas_weight pipe_batch)) p''),
            (pipe_batch, digest)).

(** One iteration of the loop over the batches. *)
Definition process_batch (fuel : nat) (batch : ExecutableEthereumBatch)
    (pending : list PipelineBatch) (s : X * EvBlpPipeline) :
    Run ((X * EvBlpPipeline) * list PipelineBatch * Z) :=
  let '(p, batch_id) := alloc_batch_id s.2 in
  pipe_batch ← or_panic (PipelineBatch_new batch_id batch);
  '(s, pending) ← wait_window fuel Order pending (s.1, p);
  let s := (s.1, on_controller (on_batch_enter Order (pb_gas_weight pipe_batch)) s.2) in
  '(s, pending) ← wait_window fuel Exec pending s;
  '(s, (pipe_batch, digest)) ← execute_stage pipe_batch s;
  let '(s, pending) := drain_commit_stage (pending ++ [pipe_batch]) s in
  Finished (s, pending, digest).

Fixpoint process_loop (fuel : nat) (batches : list ExecutableEthereumBatch)
    (pending : list PipelineBatch) (digests : list Z) (s : X * EvBlpPipeline) :
    Run ((X * EvBlpPipeline) * list Z) :=
  match batches with
  | [] =>
      s ← drain_all fuel pending s;
      match try_flush_with_retry 3 (ppl_cache s.2) with
      | Some (c, _) => Finished ((s.1, with_cache c s.2), digests)
      | None => Panicked
      end
  | batch :: batches' =>
      '(s, pending, digest) ← process_batch fuel batch pending s;
      process_loop fuel batches' pending (digests ++ [digest]) s
  end.

Definition process_batches (fuel : nat) (batches : list ExecutableEthereumBatch)
    (s : X * EvBlpPipeline) : Run ((X * EvBlpPipeline) * list Z) :=
  process_loop fuel batches [] [] s.
End pipeline.

(** ** Lemmas: the controller *)

(** No batch is in flight and every window is open. *)
Record ctl_idle (c : PipelineController) : Prop := {
  idle_w : ctl_w c = mkPerStage 0 0 0;
  idle_in_flight : ctl_in_flight c = mkPerStage 0 0 0;
  idle_zeta : forall s, 1 <= cell (ctl_zeta c) s;
  idle_zeta_max : 0 <= ctl_zeta_max c
}.

Lemma PipelineController_new_idle config :
  0 <= zeta_max config -> ctl_idle (PipelineController_new config).
Proof. intros Hz. split; simpl; [done..| |done]. by intros []. Qed.

Lemma can_push_idle c s : ctl_idle c -> can_push c s = true.
Proof.
  intros [Hw Hf Hz Hm]. unfold can_push, get_window_size, in_flight_count. specialize (Hz s).
  rewrite Hf, (proj2 (Z.eqb_neq _ _)) by lia. apply Z.ltb_lt. destruct s; simpl in *; lia.
Qed.

Lemma cell_set_cell a s v s' : cell (set_cell a s v) s' = if decide (s' = s) then v else cell a s'.
Proof. by destruct s, s'. Qed.

Lemma set_cell_set_cell a s v v' : set_cell (set_cell a s v) s v' = set_cell a s v'.
Proof. by destruct s. Qed.

Lemma enter_exit_weight d : 0 <= d -> u64_saturating_sub (0 +u64 d) d = 0.
Proof.
  intros Hd. unfold u64_saturating_sub. pose proof (u64_add_le 0 d Hd). lia.
Qed.

Lemma next_zeta_open lambda current zm : 0 <= current -> 0 <= zm -> 1 <= next_zeta 0 lambda current zm.
Proof.
  intros Hc Hm. unfold next_zeta. simpl. destruct (Z.eqb_spec (Z.min (u32_saturating_mul current 2) zm) 0); [lia|].
  unfold u32_saturating_mul, u32_max in *. lia.
Qed.

(** A batch that went through P3 leaves the controller idle. *)
Lemma commit_round_trip c d :
  ctl_idle c -> 0 <= d -> ctl_idle (on_batch_exit Commit d (on_batch_enter Commit d c)).
Proof.
  intros [Hw Hf Hz Hm] Hd. destruct c as [z w l zm f]. simpl in *. subst.
  unfold on_batch_exit, on_batch_enter. simpl. rewrite enter_exit_weight by done. by split.
Qed.

(** A batch that went through P1 and P2, likewise. *)
Lemma exec_round_trip c g :
  ctl_idle c -> 0 <= g ->
  can_push (on_batch_enter Order g c) Exec = true ∧
  ctl_idle (on_batch_exit Order g (on_batch_exit Exec g (on_batch_enter Exec g (on_batch_enter Order g c)))).
Proof.
  intros [Hw Hf Hz Hm] Hg. destruct c as [z w l zm f]. simpl in *. subst.
  pose proof (Hz Order) as H0. pose proof (Hz Exec) as H1. pose proof (Hz Commit) as H2. simpl in *. split.
  - unfold can_push, get_window_size, in_flight_count. simpl.
    rewrite (proj2 (Z.eqb_neq _ _)) by lia. apply Z.ltb_lt. lia.
  - unfold on_batch_exit, on_batch_enter, tick, get_backpressure_weight. simpl.
    rewrite !enter_exit_weight by done. split; simpl; [done|done| |done].
    intros []; simpl; [apply next_zeta_open; lia|apply next_zeta_open; lia|done].
Qed.

Lemma gas_weight_nonneg txs w : gas_weight txs = Some w -> Forall (fun tx => forall g, tx_gas tx = Some g -> 0 <= g) txs -> 0 <= w.
Proof.
  unfold gas_weight. revert w. induction txs as [|tx txs IH] using rev_ind; intros w.
  - by intros [= <-].
  - rewrite foldl_app. simpl. intros (a & Ha & E)%bind_Some [Htxs [Hg _]%Forall_cons]%Forall_app.
    apply bind_Some in E as (g & Eg & [= <-]). specialize (IH a Ha Htxs).
    unfold gas_limit in Eg. destruct (tx_gas tx) as [g'|]; [|done]. specialize (Hg g' eq_refl).
    destruct (g' <=? u64_max); simplify_eq. unfold u64_saturating_add, u64_max. lia.
Qed.

(** ** Lemmas: the loop without its windows *)

Section sequential.
Context {L D X : Type} `{HLru : LruCache L, HSt : StateStore D, HEx : !BatchExecutor X L D}.
Abbreviation EvBlpPipeline := (EvBlpPipeline L D).

(** The reference: each batch is executed on the state the previous one left,
    its pages are written, and it is committed before the next one starts. *)
Fixpoint sequential_run (max_records : nat) (batches : list ExecutableEthereumBatch)
    (s : X * TwoLevelCache L D) (next last : Z) :
    option ((X * TwoLevelCache L D) * Z * Z * list Z) :=
  match batches with
  | [] => Some (s, next, last, [])
  | batch :: batches' =>
      w ← gas_weight (batch_data batch);
      let '((x, c), (buffer, digest)) := ex_execute_batch batch [] last s in
      c ← write_delta_pages next (into_delta_pages buffer next next max_records) c;
      let done := mkPipelineBatch next batch w (delta_bytes buffer) in
      let '(s, _) := ex_commit_batch done (x, mark_batch_complete next c) in
      '(s, next', last', digests) ← sequential_run max_records batches' s (next +u64 1) next;
      Some (s, next', last', digest :: digests)
  end.

Context (Hcommit : forall b s, (ex_commit_batch b s).2 = Ok tt).

Lemma drain_one b x (p : EvBlpPipeline) :
  ctl_idle (ppl_controller p) -> 0 <= pb_delta_bytes b ->
  exists ctl, ctl_idle ctl ∧
    drain_commit_stage [b] (x, p) =
    (((ex_commit_batch b (x, ppl_cache p)).1.1,
      mkPipeline ctl (ex_commit_batch b (x, ppl_cache p)).1.2 (ppl_config p) (ppl_next_batch_id p)
        (ppl_last_exec_complete p)), []).
Proof using Hcommit.
  intros Hi Hd. unfold drain_commit_stage. simpl. rewrite can_push_idle by done.
  specialize (Hcommit b (x, ppl_cache p)).
  destruct (ex_commit_batch b (x, ppl_cache p)) as [[x' c'] r]. simpl in *. subst r.
  eexists. split; [|done]. by apply commit_round_trip.
Qed.

Lemma process_batch_sequential fuel batch x (p : EvBlpPipeline) :
  ctl_idle (ppl_controller p) ->
  Forall (fun tx => forall g, tx_gas tx = Some g -> 0 <= g) (batch_data batch) ->
  exists ctl, ctl_idle ctl ∧
    process_batch fuel batch [] (x, p) =
    match sequential_run (deltapage_max_records (cfg_cache (ppl_config p))) [batch] (x, ppl_cache p)
            (ppl_next_batch_id p) (ppl_last_exec_complete p) with
    | Some ((x', c'), next, last, ds) =>
        match ds with
        | [d] => Finished ((x', mkPipeline ctl c' (ppl_config p) next last), [], d)
        | _ => Panicked
        end
    | None => Panicked
    end.
Proof using Hcommit.
  intros Hi Hg. unfold process_batch. simpl. unfold PipelineBatch_new.
  destruct (gas_weight (batch_data batch)) as [w|] eqn:Ew; simpl; [|by exists (ppl_controller p)].
  pose proof (gas_weight_nonneg _ _ Ew Hg) as Hw.
  destruct (exec_round_trip _ w Hi Hw) as [Hpush Hidle].
  assert (forall q : EvBlpPipeline, can_push (ppl_controller q) Order = true ->
    wait_window fuel Order [] (x, q) = Finished ((x, q), [])) as Hwo.
  { intros q Hq. destruct fuel; simpl; by rewrite Hq. }
  rewrite Hwo by (by apply can_push_idle). simpl.
  assert (forall q : EvBlpPipeline, can_push (ppl_controller q) Exec = true ->
    wait_window fuel Exec [] (x, q) = Finished ((x, q), [])) as Hwe.
  { intros q Hq. destruct fuel; simpl; by rewrite Hq. }
  rewrite Hwe by done. simpl. unfold execute_stage. simpl. unfold TempBuffer_new.
  destruct (ex_execute_batch batch [] (ppl_last_exec_complete p) (x, ppl_cache p))
    as [[x1 c1] [buffer digest]]. unfold on_batch_exec_complete. simpl.
  destruct (write_delta_pages _ _ c1) as [c2|] eqn:Ewr; simpl; [|by exists (ppl_controller p)].
  match goal with |- context [drain_commit_stage [?b] (x1, ?q)] =>
    destruct (drain_one b x1 q Hidle) as (ctl & Hctl & Hdr) end; [simpl; unfold delta_bytes; lia|].
  exists ctl. split; [done|]. unfold on_controller, with_cache in *. simpl in *. rewrite Hdr.
  unfold with_delta_bytes. simpl. destruct (ex_commit_batch _ _) as [[x3 c3] r]. done.
Qed.

Lemma process_loop_sequential fuel batches ds x (p : EvBlpPipeline) :
  ctl_idle (ppl_controller p) ->
  Forall (fun b => Forall (fun tx => forall g, tx_gas tx = Some g -> 0 <= g) (batch_data b)) batches ->
  exists ctl, ctl_idle ctl ∧
    process_loop fuel batches [] ds (x, p) =
    match sequential_run (deltapage_max_records (cfg_cache (ppl_config p))) batches (x, ppl_cache p)
            (ppl_next_batch_id p) (ppl_last_exec_complete p) with
    | Some ((x', c'), next, last, ds') =>
        match try_flush_with_retry 3 c' with
        | Some (c'', _) => Finished ((x', mkPipeline ctl c'' (ppl_config p) next last), ds ++ ds')
        | None => Panicked
        end
    | None => Panicked
    end.
Proof using Hcommit.
  intros Hi Hg. revert ds x p Hi. induction Hg as [|b batches Hb Hg IH]; intros ds x p Hi.
  - exists (ppl_controller p). split; [done|]. cbn [process_loop sequential_run].
    destruct fuel; cbn [drain_all mbind Run_bind snd fst]; rewrite app_nil_r; by destruct p.
  - destruct (process_batch_sequential fuel b x p Hi Hb) as (ctl & Hctl & E).
    cbn [process_loop]. rewrite E. cbn [sequential_run].
    destruct (gas_weight _) as [w|]; [|by exists ctl]. simpl.
    destruct (ex_execute_batch b [] _ _) as [[x1 c1] [buffer digest]].
    destruct (write_delta_pages _ _ c1) as [c2|]; [|by exists ctl]. simpl.
    destruct (ex_commit_batch _ _) as [[x3 c3] r]. simpl.
    destruct (IH (ds ++ [digest]) x3
      (mkPipeline ctl c3 (ppl_config p) (ppl_next_batch_id p +u64 1) (ppl_next_batch_id p)) Hctl)
      as (ctl' & Hctl' & E'). exists ctl'. split; [done|]. simpl in E'. rewrite E'.
    destruct (sequential_run _ batches _ _ _) as [[[[[x4 c4] n4] l4] ds4]|]; [|done]. simpl.
    by rewrite <- app_assoc.
Qed.
End sequential.

(** ** Lemmas: commits that never succeed *)

Section failing.
Context {L D X : Type} `{HLru : LruCache L, HSt : StateStore D, HEx : !BatchExecutor X L D}.
Context (Hfail : forall b s, exists e, (ex_commit_batch (X := X) (L := L) (D := D) b s).2 = Err e).

Lemma drain_loop_keeps kept todo s :
  (drain_loop (L := L) (D := D) (X := X) kept todo s).2 = kept ++ todo.
Proof using Hfail.
  revert kept s. induction todo as [|b todo IH]; intros kept s; simpl; [by rewrite app_nil_r|].
  destruct (can_push _ _); [|done].
  match goal with |- context [ex_commit_batch b ?s] =>
    destruct (Hfail b s) as [e He]; destruct (ex_commit_batch b s) as [[x c] r] end.
  simpl in He. subst r. rewrite IH, <- app_assoc. done.
Qed.

Lemma wait_window_keeps fuel st pending s s' pending' :
  wait_window (L := L) (D := D) (X := X) fuel st pending s = Finished (s', pending') -> pending' = pending.
Proof using Hfail.
  revert s. induction fuel as [|fuel IH]; intros s; simpl; destruct (can_push _ _).
  - by intros [= <- <-].
  - done.
  - by intros [= <- <-].
  - pose proof (drain_loop_keeps [] pending s) as Hk. unfold drain_commit_stage.
    destruct (drain_loop [] pending s) as [s1 p1]. simpl in Hk. subst. apply IH.
Qed.

Lemma drain_all_spins fuel pending s :
  pending ≠ [] -> drain_all (L := L) (D := D) (X := X) fuel pending s = Spinning.
Proof using Hfail.
  intros Hp. revert s. induction fuel as [|fuel IH]; intros s; simpl; destruct pending as [|b pd]; try done.
  pose proof (drain_loop_keeps [] (b :: pd) s) as Hk. unfold drain_commit_stage.
  destruct (drain_loop [] (b :: pd) s) as [s1 p1]. simpl in Hk. subst. apply IH.
Qed.

Lemma process_batch_pending fuel b pending s s' pending' d :
  process_batch (L := L) (D := D) (X := X) fuel b pending s = Finished (s', pending', d) -> pending' ≠ [].
Proof using Hfail.
  unfold process_batch. destruct (alloc_batch_id s.2) as [p id].
  destruct (or_panic _) as [pb| |]; simpl; try done.
  destruct (wait_window fuel Order _ _) as [[s1 p1]| |]; simpl; try done.
  destruct (wait_window fuel Exec _ _) as [[s2 p2]| |]; simpl; try done.
  destruct (execute_stage _ _) as [[s3 [pb3 d3]]| |]; simpl; try done.
  pose proof (drain_loop_keeps [] (p2 ++ [pb3]) s3) as Hk. unfold drain_commit_stage.
  destruct (drain_loop [] (p2 ++ [pb3]) s3) as [s4 p4]. simpl in Hk. intros [= <- <- <-].
  rewrite Hk. by destruct p2.
Qed.

Lemma process_loop_never_finishes fuel batches pending ds s r :
  batches ≠ [] ∨ pending ≠ [] ->
  process_loop (L := L) (D := D) (X := X) fuel batches pending ds s ≠ Finished r.
Proof using Hfail.
  revert pending ds s. induction batches as [|b batches IH]; intros pending ds s Hne; cbn [process_loop].
  - destruct Hne as [?|Hp]; [done|]. by rewrite drain_all_spins.
  - destruct (process_batch fuel b pending s) as [[[s1 p1] d1]| |] eqn:E; simpl; try done.
    apply IH. right. by eapply process_batch_pending.
Qed.
End failing.

(** ** Lemmas: the controller's ranges *)

Record ctl_bounded (c : PipelineController) : Prop := {
  cb_zeta : forall s, 0 <= cell (ctl_zeta c) s <= Z.max 1 (ctl_zeta_max c);
  cb_w : forall s, 0 <= cell (ctl_w c) s < u64_modulus;
  cb_in_flight : forall s, 0 <= cell (ctl_in_flight c) s < u32_modulus;
  cb_zeta_max : 0 <= ctl_zeta_max c
}.

Inductive ctl_step : PipelineController -> PipelineController -> Prop :=
| ctl_enter c s d : 0 <= d -> ctl_step c (on_batch_enter s d c)
| ctl_exit c s d : 0 <= d -> ctl_step c (on_batch_exit s d c).

Lemma next_zeta_bounded w l z zm :
  0 <= z -> 0 <= zm -> 0 <= next_zeta w l z zm <= Z.max 1 zm.
Proof.
  intros Hz Hm. unfold next_zeta, u32_saturating_mul, u32_saturating_add, u32_max.
  repeat case_match; lia.
Qed.

Lemma tick_bounded s c : ctl_bounded c -> ctl_bounded (tick s c).
Proof.
  intros [H1 H2 H3 H4]. unfold tick. destruct (stage_next s); [|by split]. split; simpl; [|done..].
  intros s'. rewrite cell_set_cell. case_decide; [|done].
  apply next_zeta_bounded; [apply H1|done].
Qed.

Lemma ctl_step_bounded c c' : ctl_step c c' -> ctl_bounded c -> ctl_bounded c'.
Proof.
  intros Hs Hb. destruct Hs as [c s d Hd|c s d Hd].
  - destruct Hb as [H1 H2 H3 H4]. split; simpl; [done| | |done].
    + intros s'. rewrite cell_set_cell. case_decide; auto with chase.
    + intros s'. rewrite cell_set_cell. case_decide; auto with chase.
  - apply tick_bounded. destruct Hb as [H1 H2 H3 H4]. split; simpl; [done| | |done].
    + intros s'. rewrite cell_set_cell. case_decide; [|done].
      specialize (H2 s). unfold u64_saturating_sub. lia.
    + intros s'. rewrite cell_set_cell. case_decide; [|done].
      specialize (H3 s). unfold u32_saturating_sub. lia.
Qed.

(** ** Sample executors *)

(** Writes one slot per transaction and commits to nothing. *)
#[local] Instance mock_executor {L D} : BatchExecutor Z L D := {|
  ex_execute_batch batch buffer visible s :=
    ((s.1 + 1, s.2),
     (foldl (fun b i => record_write b i i (i + 1)) buffer
        (Z.of_nat <$> seq 1 (length (batch_data batch))), batch_digest batch));
  ex_commit_batch batch s := (s, Ok tt)
|}.

(** The same with a disk that is full. *)
Inductive FullDisk : Type := disk_is_full.

#[local] Instance full_disk_executor {L D} : BatchExecutor FullDisk L D := {|
  ex_execute_batch batch buffer visible s := (s, (buffer, batch_digest batch));
  ex_commit_batch batch s := (s, Err "no space left on device"%string)
|}.

Definition sample_batch (digest : Z) : ExecutableEthereumBatch :=
  mkBatch digest [mkEthereumTransaction None None None None (Some 21000) None None].

Definition sample_pipeline : EvBlpPipeline LruList InMemoryStateStore :=
  EvBlpPipeline_new PipelineConfig_default sample_config ∅.

Lemma sample_pipeline_idle : ctl_idle (ppl_controller sample_pipeline).
Proof. apply PipelineController_new_idle. done. Qed.

(** ** Theorems *)

Section theorems.
Context {L D X : Type} `{HLru : LruCache L, HSt : StateStore D, HEx : !BatchExecutor X L D}.

(** C36. When commits succeed, [process_batches] returns, with no fuel for its
    waiting loops at all, and does what the plain loop does: each batch runs on
    the state left by the previous one, its pages are written and it is
    committed, the frozen tables are flushed at the end; the windows neither
    block nor change anything and are open again afterwards. *)
Theorem process_batches_sequential fuel batches x (p : EvBlpPipeline L D) :
  (forall b s, (ex_commit_batch (X := X) b s).2 = Ok tt) ->
  ctl_idle (ppl_controller p) ->
  Forall (fun b => Forall (fun tx => forall g, tx_gas tx = Some g -> 0 <= g) (batch_data b)) batches ->
  exists ctl, ctl_idle ctl ∧
    process_batches fuel batches (x, p) =
    match sequential_run (deltapage_max_records (cfg_cache (ppl_config p))) batches (x, ppl_cache p)
            (ppl_next_batch_id p) (ppl_last_exec_complete p) with
    | Some ((x', c'), next, last, digests) =>
        match try_flush_with_retry 3 c' with
        | Some (c'', _) => Finished ((x', mkPipeline ctl c'' (ppl_config p) next last), digests)
        | None => Panicked
        end
    | None => Panicked
    end.
Proof.
  intros Hc Hi Hg. destruct (process_loop_sequential Hc fuel batches [] x p Hi Hg) as (ctl & Hctl & E).
  exists ctl. by split.
Qed.

(** When every commit fails, [process_batches] never returns: however often
    its loops run, the uncommitted batches keep them running. *)
Theorem failing_commits_spin fuel batches (s : X * EvBlpPipeline L D) r :
  (forall b s, exists e, (ex_commit_batch (X := X) (L := L) (D := D) b s).2 = Err e) ->
  batches ≠ [] -> process_batches fuel batches s ≠ Finished r.
Proof. intros Hf Hb. apply process_loop_never_finishes; auto. Qed.
End theorems.

Lemma process_batches_sequential_witness :
  exists ctl, ctl_idle ctl ∧
    process_batches 0 [sample_batch 7; sample_batch 8] (0, sample_pipeline) =
    match sequential_run 128 [sample_batch 7; sample_batch 8] (0, ppl_cache sample_pipeline) 1 0 with
    | Some ((x', c'), next, last, digests) =>
        match try_flush_with_retry 3 c' with
        | Some (c'', _) => Finished ((x', mkPipeline ctl c'' (ppl_config sample_pipeline) next last), digests)
        | None => Panicked
        end
    | None => Panicked
    end.
Proof.
  apply (process_batches_sequential 0 [sample_batch 7; sample_batch 8] 0 sample_pipeline).
  - intros b s. reflexivity.
  - apply sample_pipeline_idle.
  - repeat constructor; intros g [= <-]; discriminate.
Defined.

Lemma failing_commits_spin_witness :
  process_batches 100 [sample_batch 7] (disk_is_full, sample_pipeline) ≠
  Finished ((disk_is_full, sample_pipeline), [7]).
Proof.
  apply (failing_commits_spin 100 [sample_batch 7] (disk_is_full, sample_pipeline)).
  - intros b s. eexists. reflexivity.
  - discriminate.
Defined.

(** Whatever batches enter and leave the stages, every window stays between 0
    and the configured maximum (at least 1), and the weights and counts stay in
    the ranges of their types. *)
Theorem controller_bounded config c :
  0 <= zeta_max config -> rtc ctl_step (PipelineController_new config) c -> ctl_bounded c.
Proof.
  intros Hz. revert c. apply rtc_ind_r.
  - split; simpl; [intros []; simpl; lia|by intros []..|done].
  - intros c c' _ Hs. by apply ctl_step_bounded.
Qed.

Lemma controller_bounded_witness :
  ctl_bounded (on_batch_exit Exec 7 (on_batch_enter Exec 7 (PipelineController_new PipelineConfig_default))).
Proof.
  apply (controller_bounded PipelineConfig_default).
  - discriminate.
  - eapply rtc_l; [apply (ctl_enter _ Exec 7); lia|]. apply rtc_once, (ctl_exit _ Exec 7). lia.
Defined.
