(* ===== verification/Bridge.v ===== *)
(** * The concurrent pipeline

    crates/sslab-execution/chase/src/executor/chase_bridge.rs and runtime.rs:
    [EvBlpChaseBridge::execute] runs three tasks, the order loop, the execution
    worker and the commit worker, joined by channels that hold a whole run.

    Each worker is a step function of the shared state that has no result while the
    worker waits; [bridge_step] interleaves them.  A step ends where the worker next
    touches shared state: a window is tested in one step and entered in another, the
    pages are written, the batch completed and the visible batch moved in three, each
    put to the store and each insertion to L2 of a commit is a step of its own, and
    between them the other workers may move.

    The execution of a batch reads the shared cache while the commit worker changes it.
    A running execution keeps the caches that have passed by since it began, and each
    of its reads may ask L1, L2 and the store at three different times among them
    ([may_answer]); what it gets is one answer per key, an argument of its last step.
    Its reads also move entries of L2 to the front ([exec_reads]).

    The methods of the controller are atomic here: a counter of a stage is written
    by one worker only, and [in_flight] is behind a mutex.  Metrics and logging,
    which no worker reads back, are left out, and a panic, which aborts the
    process, is a worker without a step. *)

From S2P Require Import Prelude Types Backend Pages Cache Pipeline Seer ChaseCore.
Local Open Scope Z_scope.
Local Open Scope chase_scope.

Record CommitWork := mkCommitWork { cw_batch_id : Z; cw_delta_bytes : Z }.

Inductive OrderPc := OrderWait | OrderGranted.

(** [ExecRun] has the caches seen since the execution began, [ExecWrite] the buffer to
    publish. *)
Inductive ExecPc (L D : Type) :=
| ExecRecv
| ExecWait (b : PipelineBatch)
| ExecGranted (b : PipelineBatch)
| ExecRun (b : PipelineBatch) (seen : list (TwoLevelCache L D))
| ExecWrite (b : PipelineBatch) (digest : Z) (temp_buffer : TempBuffer)
| ExecComplete (b : PipelineBatch) (digest delta : Z)
| ExecVisible (b : PipelineBatch) (digest delta : Z)
| ExecExit (b : PipelineBatch) (digest delta : Z)
| ExecSend (batch_id digest delta : Z).
Arguments ExecRecv {L D}.
Arguments ExecWait {L D}.
Arguments ExecGranted {L D}.
Arguments ExecRun {L D}.
Arguments ExecWrite {L D}.
Arguments ExecComplete {L D}.
Arguments ExecVisible {L D}.
Arguments ExecExit {L D}.
Arguments ExecSend {L D}.

(** [CommitPut] has the entries of the batch and those still to put, [CommitInsert]
    those still to insert into L2. *)
Inductive CommitPc :=
| CommitRecv
| CommitWait (w : CommitWork)
| CommitGranted (w : CommitWork)
| CommitTake (w : CommitWork)
| CommitPut (w : CommitWork) (entries todo : list (Key * Value))
| CommitInsert (w : CommitWork) (todo : list (Key * Value))
| CommitExit (w : CommitWork).

(** What the bridge uses of [ConcurrencyLevelManager::execute_batch_with_effects]:
    the batch runs against the manager and the answers of the cache. *)
Class BatchRunner (M : Type) := {
  run_batch : ExecutableEthereumBatch -> (H160 -> H256 -> option Value) -> M ->
    option (M * (list Z * list Apply))
}.

(** The digest of the batch is returned. *)
Class BatchRunnerLaws (M : Type) `{!BatchRunner M} := {
  run_batch_digests b read m m' out : run_batch b read m = Some (m', out) -> out.1 = [batch_digest b]
}.

(** The state the tasks share.  [br_log], which no task reads, lists the records
    written to the cache so far. *)
Record Bridge (M L D : Type) := mkBridge {
  br_manager : M;
  br_pipeline : EvBlpPipeline L D;
  br_visible : Z;
  br_todo : list ExecutableEthereumBatch;
  br_order : OrderPc;
  br_exec_chan : list PipelineBatch;
  br_exec : ExecPc L D;
  br_commit_chan : list CommitWork;
  br_commit : CommitPc;
  br_results : list (Z * Z);
  br_log : list (Key * Value)
}.
Arguments mkBridge {M L D}.
Arguments br_manager {M L D}.
Arguments br_pipeline {M L D}.
Arguments br_visible {M L D}.
Arguments br_todo {M L D}.
Arguments br_order {M L D}.
Arguments br_exec_chan {M L D}.
Arguments br_exec {M L D}.
Arguments br_commit_chan {M L D}.
Arguments br_commit {M L D}.
Arguments br_results {M L D}.
Arguments br_log {M L D}.

Section bridge.
Context {M L D : Type} `{HLru : LruCache L, HSt : StateStore D, HRun : !BatchRunner M}.
Abbreviation Bridge := (Bridge M L D).
Abbreviation EvBlpPipeline := (EvBlpPipeline L D).

(** [EvBlpRuntime::new] with the configuration, and [with_runtime]. *)
Definition EvBlpRuntime_new (config : EvBlpConfig) (store : D) : EvBlpPipeline * Z :=
  (EvBlpPipeline_from_config config store, 0).

(** The start of [execute]: the channels are empty and the workers spawned. *)
Definition bridge_start (m : M) (runtime : EvBlpPipeline * Z) (log : list (Key * Value))
    (batches : list ExecutableEthereumBatch) : Bridge :=
  mkBridge m runtime.1 runtime.2 batches OrderWait [] ExecRecv [] CommitRecv [] log.

Definition set_order (p : EvBlpPipeline) (todo : list ExecutableEthereumBatch) (pc : OrderPc)
    (chan : list PipelineBatch) (s : Bridge) : Bridge :=
  mkBridge (br_manager s) p (br_visible s) todo pc chan (br_exec s) (br_commit_chan s)
    (br_commit s) (br_results s) (br_log s).

(** The loop of [execute] over the batches. *)
Definition order_step (s : Bridge) : option Bridge :=
  match br_todo s with
  | [] => None
  | batch :: todo =>
      match br_order s with
      | OrderWait =>
          if can_push (ppl_controller (br_pipeline s)) Order
          then Some (set_order (br_pipeline s) (batch :: todo) OrderGranted (br_exec_chan s) s)
          else None
      | OrderGranted =>
          let '(p, batch_id) := alloc_batch_id (br_pipeline s) in
          pipe_batch ← PipelineBatch_new batch_id batch;
          Some (set_order (on_controller (on_batch_enter Order (pb_gas_weight pipe_batch)) p)
                  todo OrderWait (br_exec_chan s ++ [pipe_batch]) s)
      end
  end.

Definition set_exec (p : EvBlpPipeline) (visible : Z) (chan : list PipelineBatch) (pc : ExecPc L D)
    (s : Bridge) : Bridge :=
  mkBridge (br_manager s) p visible (br_todo s) (br_order s) chan pc (br_commit_chan s)
    (br_commit s) (br_results s) (br_log s).

(** *** Reads of a running execution *)

(** [TwoLevelCache::read] with its four looks at the cache at four times. *)
Definition staged_read (k : Key) (visible : Z) (c0 c1 c2 c3 : TwoLevelCache L D) : option Value :=
  if tc_completed_batch c0 <? visible then None
  else
    match l1_read (tc_l1 c1) k with
    | Some v => Some v
    | None =>
        match (l2_get (tc_l2 c2) k).2 with
        | Some v => Some v
        | None => ss_get (tc_db c3) k
        end
    end.

Definition may_answer (visible : Z) (seen : list (TwoLevelCache L D)) (k : Key) (o : option Value) : Prop :=
  exists c0 c1 c2 c3, c0 ∈ seen ∧ c1 ∈ seen ∧ c2 ∈ seen ∧ c3 ∈ seen ∧ o = staged_read k visible c0 c1 c2 c3.

(** The execution, if one is running, reads the keys [ks] and has seen the cache. *)
Definition exec_reads (ks : list Key) (s : Bridge) : Bridge :=
  match br_exec s with
  | ExecRun b seen =>
      let c := foldl (fun c k => (cache_read k (br_visible s) c).1) (ppl_cache (br_pipeline s)) ks in
      set_exec (with_cache c (br_pipeline s)) (br_visible s) (br_exec_chan s) (ExecRun b (seen ++ [c])) s
  | _ => s
  end.

(** The answers [read] are possible for the running execution. *)
Definition reads_from (s : Bridge) (read : H160 -> H256 -> option Value) : Prop :=
  match br_exec s with
  | ExecRun _ seen => forall a i, may_answer (br_visible s) seen (encode_key a i) (read a i)
  | _ => True
  end.

(** The answers of a cache that nobody changes. *)
Definition cache_answers (visible : Z) (c : TwoLevelCache L D) (a : H160) (i : H256) : option Value :=
  (cache_read (encode_key a i) visible c).2.

(** *** The execution worker *)

(** The end of the execution, with the answers its reads got. *)
Definition exec_run (read : H160 -> H256 -> option Value) (b : PipelineBatch) (s : Bridge) : option Bridge :=
  '(m, (digests, applies)) ← run_batch (pb_batch b) read (br_manager s);
  let digest := default (pb_digest b) (head digests) in
  let temp_buffer := applies_to_temp_buffer applies TempBuffer_new in
  Some (mkBridge m (br_pipeline s) (br_visible s) (br_todo s) (br_order s) (br_exec_chan s)
          (ExecWrite b digest temp_buffer) (br_commit_chan s) (br_commit s) (br_results s) (br_log s)).

(** [on_batch_exec_complete] up to the completion. *)
Definition exec_write (b : PipelineBatch) (digest : Z) (temp_buffer : TempBuffer) (s : Bridge) : option Bridge :=
  let p := br_pipeline s in
  let batch_id := pb_batch_id b in
  let pages := into_delta_pages temp_buffer batch_id batch_id
    (deltapage_max_records (cfg_cache (ppl_config p))) in
  c ← write_delta_pages batch_id pages (ppl_cache p);
  Some (mkBridge (br_manager s) (with_cache c p) (br_visible s) (br_todo s) (br_order s) (br_exec_chan s)
          (ExecComplete b digest (delta_bytes temp_buffer)) (br_commit_chan s) (br_commit s)
          (br_results s) (br_log s ++ temp_buffer)).

(** The rest of [on_batch_exec_complete]. *)
Definition complete_batch (batch_id : Z) (p : EvBlpPipeline) : EvBlpPipeline :=
  mkPipeline (ppl_controller p) (mark_batch_complete batch_id (ppl_cache p)) (ppl_config p)
    (ppl_next_batch_id p) batch_id.

(** [exec_worker] *)
Definition exec_step (read : H160 -> H256 -> option Value) (s : Bridge) : option Bridge :=
  let p := br_pipeline s in
  match br_exec s with
  | ExecRecv =>
      match br_exec_chan s with
      | [] => None
      | b :: chan =>
          Some (set_exec (on_controller (on_batch_exit Order (pb_gas_weight b)) p) (br_visible s)
                  chan (ExecWait b) s)
      end
  | ExecWait b =>
      if can_push (ppl_controller p) Exec
      then Some (set_exec p (br_visible s) (br_exec_chan s) (ExecGranted b) s) else None
  | ExecGranted b =>
      Some (set_exec (on_controller (on_batch_enter Exec (pb_gas_weight b)) p)
              (ppl_last_exec_complete p) (br_exec_chan s) (ExecRun b []) s)
  | ExecRun b _ => exec_run read b s
  | ExecWrite b digest temp_buffer => exec_write b digest temp_buffer s
  | ExecComplete b digest delta =>
      Some (set_exec (complete_batch (pb_batch_id b) p) (br_visible s) (br_exec_chan s)
              (ExecVisible b digest delta) s)
  | ExecVisible b digest delta =>
      Some (set_exec p (pb_batch_id b) (br_exec_chan s) (ExecExit b digest delta) s)
  | ExecExit b digest delta =>
      Some (set_exec (on_controller (on_batch_exit Exec (pb_gas_weight b)) p) (br_visible s)
              (br_exec_chan s) (ExecSend (pb_batch_id b) digest delta) s)
  | ExecSend batch_id digest delta =>
      Some (mkBridge (br_manager s) p (br_visible s) (br_todo s) (br_order s) (br_exec_chan s)
              ExecRecv (br_commit_chan s ++ [mkCommitWork batch_id delta]) (br_commit s)
              (br_results s ++ [(batch_id, digest)]) (br_log s))
  end.

(** *** The commit worker *)

Definition set_commit (p : EvBlpPipeline) (chan : list CommitWork) (pc : CommitPc) (s : Bridge) :
    Bridge :=
  mkBridge (br_manager s) p (br_visible s) (br_todo s) (br_order s) (br_exec_chan s) (br_exec s)
    chan pc (br_results s) (br_log s).

(** [commit_worker] with [TwoLevelCache::commit_batch] unfolded; an error of the commit
    is logged only. *)
Definition commit_step (s : Bridge) : option Bridge :=
  let p := br_pipeline s in
  let c := ppl_cache p in
  match br_commit s with
  | CommitRecv =>
      match br_commit_chan s with
      | [] => None
      | w :: chan => Some (set_commit p chan (CommitWait w) s)
      end
  | CommitWait w =>
      if can_push (ppl_controller p) Commit
      then Some (set_commit p (br_commit_chan s) (CommitGranted w) s) else None
  | CommitGranted w =>
      Some (set_commit (on_controller (on_batch_enter Commit (cw_delta_bytes w)) p)
              (br_commit_chan s) (CommitTake w) s)
  | CommitTake w =>
      let entries := page_entries (default [] (tc_pending_batch_pages c !! cw_batch_id w)) in
      let c' := set_pending (delete (cw_batch_id w) (tc_pending_batch_pages c)) c in
      Some (set_commit (with_cache c' p) (br_commit_chan s)
              match entries with [] => CommitExit w | _ => CommitPut w entries entries end s)
  | CommitPut w entries [] => Some (set_commit p (br_commit_chan s) (CommitInsert w entries) s)
  | CommitPut w entries ((k, v) :: todo) =>
      let '(db, r) := ss_put (tc_db c) k v in
      Some (set_commit (with_cache (set_stored (tc_l2 c) db c) p) (br_commit_chan s)
              match r with Ok _ => CommitPut w entries todo | Err _ => CommitExit w end s)
  | CommitInsert w [] => Some (set_commit p (br_commit_chan s) (CommitExit w) s)
  | CommitInsert w ((k, v) :: todo) =>
      Some (set_commit (with_cache (set_stored (l2_insert (tc_l2 c) k v) (tc_db c) c) p)
              (br_commit_chan s) (CommitInsert w todo) s)
  | CommitExit w =>
      Some (set_commit (on_controller (on_batch_exit Commit (cw_delta_bytes w)) p)
              (br_commit_chan s) CommitRecv s)
  end.

(** Before a step of a worker that may change the cache, and before its own last
    step, the running execution reads. *)
Inductive bridge_step (s s' : Bridge) : Prop :=
| step_order : order_step s = Some s' -> bridge_step s s'
| step_exec ks read :
    reads_from (exec_reads ks s) read -> exec_step read (exec_reads ks s) = Some s' -> bridge_step s s'
| step_commit_worker ks : commit_step (exec_reads ks s) = Some s' -> bridge_step s s'.

(** Both workers have returned. *)
Definition bridge_joined (s : Bridge) : Prop :=
  br_todo s = [] ∧ br_exec_chan s = [] ∧ br_exec s = ExecRecv ∧
  br_commit_chan s = [] ∧ br_commit s = CommitRecv.

(** An execution panics on answers it may get. *)
Definition exec_panics (s : Bridge) : Prop :=
  exists b seen ks read, br_exec s = ExecRun b seen ∧ reads_from (exec_reads ks s) read ∧
    run_batch (pb_batch b) read (br_manager s) = None.

(** The end of [execute]: flush, and the digests in the order of the ids. *)
Definition bridge_finish (s : Bridge) : option (EvBlpPipeline * list Z) :=
  '(c, _) ← try_flush_with_retry 3 (ppl_cache (br_pipeline s));
  Some (with_cache c (br_pipeline s), (sort_by_key fst (br_results s)).*2).
End bridge.

(** The overlay backend as one execution sees it: the answers its reads of the cache
    get, over the inner backend. *)
Record CachedView (B : Type) := mkCachedView { cv_read : H160 -> H256 -> option Value; cv_inner : B }.
Arguments mkCachedView {B}.
Arguments cv_read {B}.
Arguments cv_inner {B}.

Definition view_storage {B} `{StorageBackend B} (v : CachedView B) (address : H160) (index : H256) : H256 :=
  match cv_read v address index with
  | Some val => decode_value val
  | None => be_storage (cv_inner v) address index
  end.

#[global] Instance CachedView_StorageBackend {B} `{StorageBackend B} : StorageBackend (CachedView B) := {|
  be_storage := view_storage;
  be_apply v values delete_empty := mkCachedView (cv_read v) (be_apply (cv_inner v) values delete_empty)
|}.

(** The manager of ChaseCore.v as a runner. *)
Section runner.
Context {B : Type} `{HB : StorageBackend B}.
Abbreviation Manager := (ConcurrencyLevelManager (CachedView B)).

Definition attach_cache (read : H160 -> H256 -> option Value) (m : Manager) : Manager :=
  let gs := global_state m in
  mkManager (concurrency_level m)
    (mkEvmStorage (mkCachedView read (cv_inner (backend gs))) (precompiles gs) (chain_config gs))
    (seer_ctx m) (effect_collector m).

Definition manager_runner `{HE : EvmExecutor (CachedView B)} (hs : Hasher)
    (branch_id_of : H256 -> string) (ncpu : nat) (lcw disable_rescheduling : bool) :
    BatchRunner Manager := {|
  run_batch b read m :=
    execute_batch_with_effects hs branch_id_of ncpu lcw disable_rescheduling b (attach_cache read m)
|}.
End runner.

(** ** Lemmas: the manager as a runner *)

Lemma execute_digests {B} `{StorageBackend B} `{EvmExecutor B} hs f ncpu lcw dr out
    (m m' : ConcurrencyLevelManager B) ds :
  execute hs f ncpu lcw dr out m = Some (m', ds) -> ds = batch_digest <$> out.
Proof.
  unfold execute, unpack_batches.
  intros (m1 & rws & _ & (m2 & sch & _ & (m3 & ab & _ & (m4 & ys & _ & [= _ <-])%st_bind_Some)%st_bind_Some)%st_bind_Some)%st_bind_Some.
  done.
Qed.

Lemma manager_runner_laws {B} `{StorageBackend B} `{EvmExecutor (CachedView B)} hs f ncpu lcw dr :
  @BatchRunnerLaws (ConcurrencyLevelManager (CachedView B)) (manager_runner hs f ncpu lcw dr).
Proof.
  split; simpl; unfold execute_batch_with_effects; intros b read m m' out;
    destruct (execute _ _ _ _ _ _ _) as [[m1 ds]|] eqn:E; intros ?; simplify_eq/=.
  by apply execute_digests in E.
Qed.

(** The view with the answers of a cache is the overlay over that cache. *)
Lemma view_overlay {B L D} `{LruCache L, StateStore D, StorageBackend B} (inner : B) (c : TwoLevelCache L D) v a i :
  be_storage (mkCachedView (cache_answers v c) inner) a i =
  be_storage (mkOverlay inner (Some (mkL1Visibility c v))) a i.
Proof.
  simpl. unfold view_storage, cache_answers, overlay_storage. simpl.
  by destruct (cache_read (encode_key a i) v c) as [c' [val|]].
Qed.

(** ** Lemmas: safety *)

Definition numbered (n : Z) (bs : list ExecutableEthereumBatch) : list (Z * Z) :=
  imap (fun i b => (n + Z.of_nat i, batch_digest b)) bs.

Lemma numbered_snoc n bs b :
  numbered n (bs ++ [b]) = numbered n bs ++ [(n + Z.of_nat (length bs), batch_digest b)].
Proof. unfold numbered. rewrite imap_app. simpl. by rewrite Nat.add_0_r. Qed.

Lemma numbered_digests n bs : (numbered n bs).*2 = batch_digest <$> bs.
Proof. induction bs as [|b bs IH] using rev_ind; [done|]. by rewrite numbered_snoc, !fmap_app, IH. Qed.

Lemma numbered_keys_lt n bs i : i ∈ (numbered n bs).*1 -> n <= i < n + Z.of_nat (length bs).
Proof.
  induction bs as [|b bs IH] using rev_ind; [by intros ?%elem_of_nil|].
  rewrite numbered_snoc, fmap_app, length_app, elem_of_app. simpl.
  intros [Hi%IH|Hi%list_elem_of_singleton]; lia.
Qed.

(** Ids in increasing order: sorting by them changes nothing. *)
Lemma sort_numbered n bs : sort_by_key fst (numbered n bs) = numbered n bs.
Proof.
  assert (StronglySorted (fun x y : Z * Z => x.1 < y.1) (numbered n bs)) as Hs.
  { induction bs as [|b bs IH] using rev_ind; [constructor|]. rewrite numbered_snoc.
    apply StronglySorted_app. split_and!; [|done|repeat constructor].
    intros x y Hx ->%list_elem_of_singleton. simpl.
    apply (list_elem_of_fmap_2 fst), numbered_keys_lt in Hx. lia. }
  apply (StronglySorted_unique_strong (key_le fst)).
  - intros x y Hx Hy Hxy Hyx. unfold key_le in *.
    rewrite sort_by_key_Permutation in Hx.
    destruct (StronglySorted_cases _ _ x y Hs Hx Hy) as [?|[?|?]]; [done|lia..].
  - apply sort_by_key_sorted.
  - eapply StronglySorted_impl; [|exact Hs]. unfold key_le. intros x y ?. lia.
  - apply sort_by_key_Permutation.
Qed.

Section safety.
Context {M L D : Type} `{HLru : LruCache L, HLruL : !LruLaws L, HSt : StateStore D, HStL : !StateStoreLaws D}.
Context `{HRun : !BatchRunner M, HRunL : !BatchRunnerLaws M}.
Abbreviation Bridge := (Bridge M L D).
Abbreviation cache_of s := (ppl_cache (br_pipeline s)).

(** The result the execution worker has not sent yet. *)
Definition exec_current (s : Bridge) : list (Z * Z) :=
  match br_exec s with
  | ExecRecv => []
  | ExecWait b | ExecGranted b | ExecRun b _ => [(pb_batch_id b, pb_digest b)]
  | ExecWrite b d _ | ExecComplete b d _ | ExecVisible b d _ | ExecExit b d _ => [(pb_batch_id b, d)]
  | ExecSend i d _ => [(i, d)]
  end.

(** The batches whose commit is still to come. *)
Definition uncommitted (s : Bridge) : list Z :=
  match br_exec s with
  | ExecComplete b _ _ | ExecVisible b _ _ | ExecExit b _ _ => [pb_batch_id b]
  | ExecSend i _ _ => [i]
  | _ => []
  end ++ (cw_batch_id <$> br_commit_chan s) ++
  match br_commit s with
  | CommitWait w | CommitGranted w | CommitTake w => [cw_batch_id w]
  | _ => []
  end.

Definition seen_caches (s : Bridge) : list (TwoLevelCache L D) :=
  match br_exec s with ExecRun _ seen => seen | _ => [] end.

(** The entries of the commit in progress. *)
Definition committing (s : Bridge) : list (Key * Value) :=
  match br_commit s with
  | CommitPut _ entries todo => entries ++ todo
  | CommitInsert _ todo => todo
  | _ => []
  end.

Definition exec_ready (s : Bridge) : Prop :=
  match br_exec s with
  | ExecWrite _ _ buffer => Forall entry_ok buffer
  | ExecVisible b _ _ => pb_batch_id b <= tc_completed_batch (cache_of s)
  | _ => True
  end.

(** A cache that differs from the current one in L2 and the store only. *)
Definition cache_seen (init : Key -> option Value) (s : Bridge) (c : TwoLevelCache L D) : Prop :=
  cache_inv init (br_log s) c ∧ tc_l1 c = tc_l1 (cache_of s) ∧
  tc_completed_batch c = tc_completed_batch (cache_of s).

Record bridge_inv (init : Key -> option Value) (n0 : Z) (bs : list ExecutableEthereumBatch)
    (s : Bridge) : Prop := {
  bi_progress : exists k, (k <= length bs)%nat ∧ br_todo s = drop k bs ∧
    ppl_next_batch_id (br_pipeline s) = n0 + Z.of_nat k ∧
    br_results s ++ exec_current s ++
      ((fun b => (pb_batch_id b, pb_digest b)) <$> br_exec_chan s) = numbered n0 (take k bs);
  bi_cache : cache_inv init (br_log s) (cache_of s);
  bi_pending : forall b, is_Some (tc_pending_batch_pages (cache_of s) !! b) -> b ∈ uncommitted s;
  bi_visible : br_visible s <= tc_completed_batch (cache_of s) ∧
    ppl_last_exec_complete (br_pipeline s) <= tc_completed_batch (cache_of s);
  bi_max : (0 < deltapage_max_records (cfg_cache (ppl_config (br_pipeline s))))%nat;
  bi_seen : Forall (cache_seen init s) (seen_caches s);
  bi_commit : Forall (fun e => entry_ok e ∧ e.1 ∈ (l1_log (tc_l1 (cache_of s))).*1) (committing s);
  bi_exec : exec_ready s
}.

Lemma order_step_inv init n0 bs s s' :
  0 <= n0 -> n0 + Z.of_nat (length bs) < u64_modulus ->
  order_step s = Some s' -> bridge_inv init n0 bs s -> bridge_inv init n0 bs s'.
Proof.
  intros Hn Hb Hs [(k & Hk & Ht & Hid & Hr) H2 H3 H4 H5 H6 H7 H8]. unfold order_step in Hs.
  destruct (br_todo s) as [|b todo] eqn:Et; [done|].
  assert (bs !! k = Some b) as Hkb.
  { rewrite <- (Nat.add_0_r k), <- lookup_drop, <- Ht. done. }
  pose proof (lookup_lt_Some _ _ _ Hkb) as Hlt.
  destruct (br_order s); [destruct (can_push _ _); simplify_eq; by split; simpl; eauto 6|].
  simpl in Hs. apply bind_Some in Hs as (pb & Hpb & [= <-]).
  unfold PipelineBatch_new in Hpb. apply bind_Some in Hpb as (w & _ & [= <-]).
  split; simpl; [|done..]. exists (S k). split_and!; [lia| | |].
  - rewrite (drop_S bs b k) in Ht by done. by simplify_eq.
  - no_wrap.
  - rewrite fmap_app, (take_S_r bs k b), numbered_snoc, <- Hr, length_take, Nat.min_l by (done || lia).
    simpl. rewrite !app_assoc. by rewrite Hid.
Qed.

Lemma cache_reads_inv init H v ks (c : TwoLevelCache L D) :
  cache_inv init H c ->
  let c' := foldl (fun c k => (cache_read k v c).1) c ks in
  cache_inv init H c' ∧ tc_l1 c' = tc_l1 c ∧ tc_pending_batch_pages c' = tc_pending_batch_pages c ∧
  tc_completed_batch c' = tc_completed_batch c.
Proof.
  revert c. induction ks as [|k ks IH]; intros c Hi; simpl; [done|].
  destruct (cache_read_frame init H c k v Hi) as (Hi' & <- & <- & <-). by apply IH.
Qed.

Lemma exec_reads_inv init n0 bs ks s : bridge_inv init n0 bs s -> bridge_inv init n0 bs (exec_reads ks s).
Proof.
  intros Hi. unfold exec_reads. destruct (br_exec s) as [|b|b|b seen|b d bf|b d dl|b d dl|b d dl|i d dl] eqn:Hpc; try done.
  destruct Hi as [H1 H2 H3 H4 H5 H6 H7 H8].
  destruct (cache_reads_inv init (br_log s) (br_visible s) ks (cache_of s) H2) as (C1 & C2 & C3 & C4).
  unfold exec_current, uncommitted, seen_caches in *. rewrite Hpc in H1, H3, H6.
  split; simpl; [done|done| | |done| | |done].
  - by rewrite C3.
  - by rewrite C4.
  - unfold seen_caches, cache_seen. simpl. rewrite C2, C4. apply Forall_app. split; [done|]. by apply Forall_singleton.
  - by rewrite C2.
Qed.

Lemma exec_reads_log ks (s : Bridge) :
  br_log (exec_reads ks s) = br_log s ∧ br_visible (exec_reads ks s) = br_visible s.
Proof. unfold exec_reads. by destruct (br_exec s). Qed.

(** Every answer an execution may get is that of the log. *)
Lemma may_answer_log init n0 bs s k o :
  bridge_inv init n0 bs s -> bytes32 k -> may_answer (br_visible s) (seen_caches s) k o ->
  reads_as o (overlaid (br_log s) init k).
Proof.
  intros [_ _ _ [Hv _] _ Hs _ _] Hk (c0 & c1 & c2 & c3 & S0 & S1 & S2 & S3 & ->).
  rewrite Forall_forall in Hs. destruct (Hs _ S0) as (_ & _ & E0), (Hs _ S1) as (I1 & E1 & _),
    (Hs _ S2) as (I2 & E2 & _), (Hs _ S3) as (I3 & E3 & _).
  unfold staged_read. rewrite E0, (proj2 (Z.ltb_ge _ _) Hv).
  rewrite l1_read_log by apply I1. destruct (l1_log (tc_l1 c1) !!ʳ k) as [v|] eqn:E.
  - left. destruct (ci_suffix _ _ _ I1) as [F ->]. rewrite overlaid_app. unfold overlaid at 1. by rewrite E.
  - apply last_write_None in E. rewrite (proj1 (l2_get_spec (tc_l2 c2) k)).
    destruct (l2_lookup (tc_l2 c2) k) as [v|] eqn:El.
    + left. unfold overlaid. destruct (ci_store _ _ _ I2 k Hk) as [_ Hl]; [by rewrite E2, <- E1|]. by rewrite (Hl v El).
    + apply holds_over_reads, I3; [done|]. by rewrite E3, <- E1.
Qed.

Lemma applies_to_temp_buffer_ok applies b :
  Forall entry_ok b -> Forall entry_ok (applies_to_temp_buffer applies b).
Proof.
  unfold applies_to_temp_buffer. revert b. induction applies as [|e es IH]; intros b Hb; simpl; [done|].
  apply IH. destruct e as [a bs cd st rs|a]; simpl; [|done].
  generalize (btree_iter st). intros l. revert b Hb. induction l as [|[k v] l IHl]; intros b Hb; simpl; [done|].
  auto with chase.
Qed.

Lemma exec_run_inv init n0 bs read b seen s s' :
  br_exec s = ExecRun b seen -> exec_run read b s = Some s' -> bridge_inv init n0 bs s -> bridge_inv init n0 bs s'.
Proof.
  intros Hpc Hs [H1 H2 H3 H4 H5 H6 H7 H8]. unfold exec_run in Hs.
  apply bind_Some in Hs as ([m [digests applies]] & Hrun & [= <-]).
  pose proof (run_batch_digests _ _ _ _ _ Hrun) as Hd. simpl in Hd.
  unfold exec_current, uncommitted in *. rewrite Hpc in H1, H3.
  split; simpl; [|done..|].
  - destruct H1 as (k & Hk & Ht & Hid & Hr). exists k. split_and!; [done..|].
    rewrite <- Hr. unfold exec_current. simpl. by rewrite Hd.
  - apply applies_to_temp_buffer_ok. constructor.
Qed.

(** Publishing the pages of a batch. *)
Lemma exec_write_inv init n0 bs b d buffer s :
  br_exec s = ExecWrite b d buffer -> bridge_inv init n0 bs s ->
  exists s', exec_write b d buffer s = Some s' ∧ bridge_inv init n0 bs s'.
Proof.
  intros Hpc [H1 H2 H3 H4 H5 H6 H7 H8]. unfold exec_ready in H8. rewrite Hpc in H8. unfold exec_write.
  destruct (into_delta_pages_ok buffer (pb_batch_id b) (pb_batch_id b) _ H5 H8) as [Hr Hv].
  destruct (write_delta_pages_inv init _ _ (pb_batch_id b) _ H2 Hr Hv) as (c & E & Hi).
  rewrite E. simpl. eexists. split; [done|].
  destruct (into_delta_pages_spec buffer (pb_batch_id b) (pb_batch_id b) _ H5) as [El _]. rewrite El in Hi.
  unfold exec_current, uncommitted in *. rewrite Hpc in H1, H3.
  split; simpl; [done|done| | |done|by constructor| |done].
  - intros i. unfold write_delta_pages in E. apply bind_Some in E as (l1 & _ & [= <-]). simpl.
    unfold uncommitted. simpl. intros [x [[<- _]|[_ Hin]]%lookup_insert_Some]; [left|right]. apply H3. eauto.
  - unfold write_delta_pages in E. by apply bind_Some in E as (l1 & _ & [= <-]).
  - eapply Forall_impl; [exact H7|]. intros e [He Hin]. split; [done|]. eapply write_delta_pages_keys; [|done..]. apply H2.
Qed.

Lemma exec_step_inv init n0 bs read s s' :
  exec_step read s = Some s' -> bridge_inv init n0 bs s -> bridge_inv init n0 bs s'.
Proof.
  intros Hs Hi. unfold exec_step in Hs.
  destruct (br_exec s) as [|b|b|b seen|b d bf|b d dl|b d dl|b d dl|i d dl] eqn:Hpc.
  4: by eapply exec_run_inv.
  4: destruct (exec_write_inv _ _ _ _ _ _ _ Hpc Hi) as (s1 & E & ?); congruence.
  all: destruct Hi as [(k & Hk & Ht & Hid & Hr) H2 H3 H4 H5 H6 H7 H8]; unfold exec_current in Hr;
    unfold uncommitted in H3; unfold exec_ready in H8; rewrite Hpc in Hr, H3, H8.
  - destruct (br_exec_chan s) as [|b chan] eqn:Ec; [done|]. simplify_eq.
    split; simpl; [|done|done|done|done|constructor|done|done]. by exists k.
  - destruct (can_push _ _); simplify_eq. split; simpl; [|done|done|done|done|constructor|done|done]. by exists k.
  - simplify_eq. split; simpl; [by exists k|done|done|lia|done|constructor|done|done].
  - simplify_eq. split; simpl; [by exists k|by destruct H2|done|lia|done|constructor|done|].
    unfold exec_ready. simpl. lia.
  - simplify_eq. split; simpl; [by exists k|done|done|lia|done|constructor|done|done].
  - simplify_eq. split; simpl; [by exists k|done|done|done|done|constructor|done|done].
  - simplify_eq. split; simpl; [|done| |done|done|constructor|done|done].
    + exists k. split_and!; [done..|]. rewrite <- Hr. simpl. by rewrite <- app_assoc.
    + intros j Hj%H3. unfold uncommitted. simpl. rewrite fmap_app. set_solver.
Qed.

(** A step of the commit worker that changes L2, the store and the pending pages. *)
Lemma commit_change_inv init n0 bs s c pc :
  bridge_inv init n0 bs s -> cache_inv init (br_log s) c -> tc_l1 c = tc_l1 (cache_of s) ->
  tc_completed_batch c = tc_completed_batch (cache_of s) ->
  (forall b, is_Some (tc_pending_batch_pages c !! b) -> is_Some (tc_pending_batch_pages (cache_of s) !! b) ∧
     b ∈ uncommitted (set_commit (with_cache c (br_pipeline s)) (br_commit_chan s) pc s)) ->
  Forall (fun e => entry_ok e ∧ e.1 ∈ (l1_log (tc_l1 (cache_of s))).*1)
    (committing (set_commit (with_cache c (br_pipeline s)) (br_commit_chan s) pc s)) ->
  bridge_inv init n0 bs (set_commit (with_cache c (br_pipeline s)) (br_commit_chan s) pc s).
Proof.
  intros [H1 H2 H3 H4 H5 H6 H7 H8] Hc E1 Ec Hp He.
  split; simpl; [done|done|by intros b [_ ?]%Hp|by rewrite Ec|done| |by rewrite E1|].
  - unfold cache_seen in *. simpl. by rewrite E1, Ec.
  - unfold exec_ready in *. simpl. by rewrite Ec.
Qed.

Lemma commit_step_inv init n0 bs s s' :
  commit_step s = Some s' -> bridge_inv init n0 bs s -> bridge_inv init n0 bs s'.
Proof.
  intros Hs Hi. unfold commit_step in Hs. pose proof (bi_pending _ _ _ _ Hi) as H3.
  pose proof (bi_commit _ _ _ _ Hi) as H7. unfold uncommitted in H3. unfold committing in H7.
  destruct (br_commit s) as [|w|w|w|w es [|[k v] todo]|w [|[k v] todo]|w] eqn:Hpc.
  - destruct (br_commit_chan s) as [|w chan] eqn:Ec; [done|]. simplify_eq. destruct Hi.
    split; simpl; try done. intros j Hj%H3. unfold uncommitted. simpl in *. set_solver.
  - destruct (can_push _ _); simplify_eq. destruct Hi. by split.
  - simplify_eq. destruct Hi. by split.
  - simplify_eq. destruct (tc_pending_batch_pages (cache_of s) !! cw_batch_id w) as [pages|] eqn:Ep.
    + apply commit_change_inv; [done|apply set_pending_inv, Hi|done..| |].
      * intros j. cbn [set_pending tc_pending_batch_pages]. intros [x [Hne Hx]%lookup_delete_Some]. split; [by eexists|]. apply mk_is_Some, H3 in Hx.
        unfold uncommitted. simpl. case_match; set_solver.
      * destruct (ci_pending _ _ _ (bi_cache _ _ _ _ Hi) _ _ Ep) as [Hv Hk]. unfold committing. simpl.
        assert (Forall (fun e => entry_ok e ∧ e.1 ∈ (l1_log (tc_l1 (cache_of s))).*1) (page_entries pages)) as He.
        { apply Forall_forall. intros e Hin. rewrite Forall_forall in Hv. split; [by apply Hv|].
          apply Hk. by apply list_elem_of_fmap_2. }
        destruct (page_entries pages); [constructor|]. by apply Forall_app.
    + apply commit_change_inv; [done|apply set_pending_inv, Hi|done..| |constructor].
      intros j. cbn [set_pending tc_pending_batch_pages]. intros [x [Hne Hx]%lookup_delete_Some]. split; [by eexists|]. apply mk_is_Some, H3 in Hx.
      unfold uncommitted. simpl. set_solver.
  - simplify_eq. rewrite app_nil_r in H7. destruct Hi. by split.
  - apply Forall_app in H7 as [He [[Hkv Hin] Ht]%Forall_cons].
    pose proof (put_inv init _ _ k v (bi_cache _ _ _ _ Hi) Hkv Hin) as Hc.
    destruct (ss_put (tc_db (cache_of s)) k v) as [db r]. simplify_eq.
    apply commit_change_inv; [done|done|done|done| |].
    + intros j Hj. split; [done|]. apply H3 in Hj. unfold uncommitted. simpl. by destruct r.
    + unfold committing. simpl. destruct r; [by apply Forall_app|constructor].
  - simplify_eq. destruct Hi. by split.
  - apply Forall_cons in H7 as [[Hkv Hin] Ht]. simplify_eq.
    apply commit_change_inv; [done|by apply l2_insert_inv, Hin; apply Hi|done|done| |done].
    intros j Hj. split; [done|]. apply H3 in Hj. unfold uncommitted. simpl. done.
  - simplify_eq. destruct Hi. by split.
Qed.

(** A pipeline between two runs: the cache holds the log over the initial store,
    nothing waits for its commit, and the visible batch is complete. *)
Record bridge_ready (init : Key -> option Value) (log : list (Key * Value))
    (r : EvBlpPipeline L D * Z) : Prop := {
  ready_cache : cache_inv init log (ppl_cache r.1);
  ready_pending : tc_pending_batch_pages (ppl_cache r.1) = ∅;
  ready_visible : r.2 <= tc_completed_batch (ppl_cache r.1);
  ready_last : ppl_last_exec_complete r.1 <= tc_completed_batch (ppl_cache r.1);
  ready_max : (0 < deltapage_max_records (cfg_cache (ppl_config r.1)))%nat;
  ready_id : 0 <= ppl_next_batch_id r.1
}.

Lemma EvBlpRuntime_new_ready config store :
  (0 < deltapage_max_records (cfg_cache config))%nat ->
  bridge_ready (ss_get store) [] (EvBlpRuntime_new config store).
Proof.
  intros Hm. split; simpl; [apply TwoLevelCache_new_inv|done|lia|lia|done|lia].
Qed.

Lemma bridge_start_inv init log r (m : M) bs :
  bridge_ready init log r ->
  bridge_inv init (ppl_next_batch_id r.1) bs (bridge_start m r log bs).
Proof.
  intros [H1 H2 H3 H4 H5 H6]. split; simpl; [|done| |done|done|constructor|constructor|done].
  - exists 0%nat. split_and!; [lia|done|lia|done].
  - intros b. rewrite H2, lookup_empty. by intros [].
Qed.

Lemma bridge_reachable_inv init log r (m : M) bs s :
  bridge_ready init log r -> ppl_next_batch_id r.1 + Z.of_nat (length bs) < u64_modulus ->
  rtc bridge_step (bridge_start m r log bs) s -> bridge_inv init (ppl_next_batch_id r.1) bs s.
Proof.
  intros Hr Hn. revert s. apply rtc_ind_r; [by apply bridge_start_inv|].
  intros s s' _ [Hs|ks read _ Hs|ks Hs] Hi.
  - eapply order_step_inv; [apply Hr|done..].
  - by eapply exec_step_inv, exec_reads_inv.
  - by eapply commit_step_inv, exec_reads_inv.
Qed.

Lemma joined_uncommitted s : bridge_joined s -> uncommitted s = [].
Proof. intros (_ & _ & H1 & H2 & H3). unfold uncommitted. by rewrite H1, H2, H3. Qed.

Lemma bridge_finish_joined init n0 bs s :
  0 <= n0 -> bridge_inv init n0 bs s -> bridge_joined s ->
  exists p, bridge_finish s = Some (p, batch_digest <$> bs) ∧ bridge_ready init (br_log s) (p, br_visible s).
Proof.
  intros Hn [(k & Hk & Ht & Hid & Hr) H2 H3 H4 H5 _ _ _] Hj.
  assert (tc_pending_batch_pages (cache_of s) = ∅) as Hp.
  { apply map_empty. intros b. apply eq_None_not_Some. intros Hb%H3.
    rewrite joined_uncommitted in Hb by done. by apply elem_of_nil in Hb. }
  destruct (retry_loop_inv init _ 3 3 ""%string (cache_of s) H2 Hp) as (c & r & E & Hi & Hp' & Hc).
  destruct Hj as (J1 & J2 & J3 & J4 & J5).
  unfold bridge_finish, try_flush_with_retry. rewrite E. simpl. eexists. split.
  - do 2 f_equal. unfold exec_current in Hr. rewrite J2, J3 in Hr. simpl in Hr. rewrite app_nil_r in Hr.
    rewrite J1 in Ht. rewrite Hr, sort_numbered, numbered_digests. f_equal.
    apply take_ge. apply (f_equal length) in Ht. rewrite length_drop in Ht. simpl in Ht. lia.
  - split; simpl; [done|done|by rewrite Hc; apply H4|by rewrite Hc; apply H4|done|lia].
Qed.
End safety.

(** ** Lemmas: liveness *)

Lemma exit_zeta s d c s' :
  cell (ctl_zeta (on_batch_exit s d c)) s' =
  if decide (s' = s) then
    match stage_next s with
    | Some n => next_zeta (cell (ctl_w c) n) (cell (ctl_lambda c) n) (cell (ctl_zeta c) s) (ctl_zeta_max c)
    | None => cell (ctl_zeta c) s
    end
  else cell (ctl_zeta c) s'.
Proof. by destruct s, s'. Qed.

Lemma exit_w s d c s' :
  cell (ctl_w (on_batch_exit s d c)) s' =
  if decide (s' = s) then u64_saturating_sub (cell (ctl_w c) s) d else cell (ctl_w c) s'.
Proof. by destruct s, s'. Qed.

Lemma exit_in_flight s d c s' :
  cell (ctl_in_flight (on_batch_exit s d c)) s' =
  if decide (s' = s) then u32_saturating_sub (cell (ctl_in_flight c) s) 1 else cell (ctl_in_flight c) s'.
Proof. by destruct s, s'. Qed.

Lemma exit_params s d c :
  ctl_lambda (on_batch_exit s d c) = ctl_lambda c ∧ ctl_zeta_max (on_batch_exit s d c) = ctl_zeta_max c.
Proof. by destruct s. Qed.

Lemma enter_w s d c s' :
  cell (ctl_w (on_batch_enter s d c)) s' =
  if decide (s' = s) then cell (ctl_w c) s +u64 d else cell (ctl_w c) s'.
Proof. by destruct s, s'. Qed.

Lemma enter_in_flight s d c s' :
  cell (ctl_in_flight (on_batch_enter s d c)) s' =
  if decide (s' = s) then cell (ctl_in_flight c) s +u32 1 else cell (ctl_in_flight c) s'.
Proof. by destruct s, s'. Qed.

(** Below the threshold a window never closes. *)
Lemma next_zeta_light w l z zm : 0 <= z -> 1 <= zm -> w = 0 ∨ w < l -> 1 <= next_zeta w l z zm.
Proof.
  intros Hz Hm Hw. unfold next_zeta, u32_saturating_mul, u32_saturating_add, u32_max.
  repeat case_match; lia.
Qed.

(** ** Schedules *)

Section schedules.
Context {M L D : Type} `{HLru : LruCache L, HSt : StateStore D, HRun : !BatchRunner M}.
Abbreviation Bridge := (Bridge M L D).

Lemma cache_answers_may v (c : TwoLevelCache L D) seen a i :
  c ∈ seen -> may_answer v seen (encode_key a i) (cache_answers v c a i).
Proof.
  intros Hc. exists c, c, c, c. split_and!; [done..|]. unfold cache_answers, staged_read, cache_read.
  case_match; [done|]. case_match; [done|]. by destruct (l2_get _ _) as [l2 [v'|]].
Qed.

(** The execution that reads in the current cache only. *)
Definition quiet_step (s : Bridge) : option Bridge :=
  let s0 := exec_reads [] s in exec_step (cache_answers (br_visible s0) (ppl_cache (br_pipeline s0))) s0.

Lemma quiet_reads (s : Bridge) :
  let s0 := exec_reads [] s in reads_from s0 (cache_answers (br_visible s0) (ppl_cache (br_pipeline s0))).
Proof.
  unfold reads_from, exec_reads. destruct (br_exec s) as [| | | | | | | |] eqn:Hpc; simpl; rewrite ?Hpc; try done.
  intros a i. apply cache_answers_may. set_solver.
Qed.

(** A schedule: which worker moves. *)
Inductive Worker := OrderLoop | ExecWorker | CommitWorker.

Definition worker_step (w : Worker) (s : Bridge) : option Bridge :=
  match w with
  | OrderLoop => order_step s
  | ExecWorker => quiet_step s
  | CommitWorker => commit_step (exec_reads [] s)
  end.

Fixpoint run_schedule (ws : list Worker) (s : Bridge) : option Bridge :=
  match ws with [] => Some s | w :: ws' => s' ← worker_step w s; run_schedule ws' s' end.

Lemma run_schedule_steps ws s s' : run_schedule ws s = Some s' -> rtc bridge_step s s'.
Proof.
  revert s. induction ws as [|w ws IH]; intros s; simpl; [by intros [= <-]|].
  intros (s1 & Hw & Hs)%bind_Some. eapply rtc_l; [|by apply IH].
  destruct w; [by apply step_order|eapply step_exec; [apply quiet_reads|done]|by eapply step_commit_worker].
Qed.

(** The steps of the worker that commits a batch make up [commit_batch]. *)
Abbreviation commits := (rtc (fun s s' : Bridge => commit_step s = Some s')).

Lemma insert_entries_steps w todo (s : Bridge) :
  br_commit s = CommitInsert w todo ->
  let c := ppl_cache (br_pipeline s) in
  commits s (set_commit (with_cache (set_stored (l2_insert_batch (tc_l2 c) todo) (tc_db c) c) (br_pipeline s))
    (br_commit_chan s) (CommitExit w) s).
Proof.
  revert s. induction todo as [|[k v] todo IH]; intros s Hpc.
  - apply rtc_once. unfold commit_step. rewrite Hpc. by destruct s as [m [? [] ? ? ?] ? ? ? ? ? ? ? ? ?].
  - eapply rtc_l; [unfold commit_step; by rewrite Hpc|]. exact (IH (set_commit _ _ (CommitInsert w todo) s) eq_refl).
Qed.

Lemma put_entries_steps w entries todo (s : Bridge) :
  br_commit s = CommitPut w entries todo ->
  let c := ppl_cache (br_pipeline s) in
  let '(db, r) := put_batch (tc_db c) todo in
  commits s (set_commit (with_cache (set_stored
      match r with Ok _ => l2_insert_batch (tc_l2 c) entries | Err _ => tc_l2 c end db c) (br_pipeline s))
    (br_commit_chan s) (CommitExit w) s).
Proof.
  revert s. induction todo as [|[k v] todo IH]; intros s Hpc; simpl.
  - eapply rtc_l; [unfold commit_step; by rewrite Hpc|].
    exact (insert_entries_steps w entries (set_commit _ _ (CommitInsert w entries) s) eq_refl).
  - destruct (ss_put (tc_db (ppl_cache (br_pipeline s))) k v) as [db [u|e]] eqn:Ep.
    + set (s1 := set_commit (with_cache (set_stored (tc_l2 (ppl_cache (br_pipeline s))) db (ppl_cache (br_pipeline s)))
        (br_pipeline s)) (br_commit_chan s) (CommitPut w entries todo) s).
      specialize (IH s1 eq_refl). simpl in IH. destruct (put_batch db todo) as [db' r].
      eapply rtc_l; [unfold commit_step; rewrite Hpc, Ep; reflexivity|]. exact IH.
    + apply rtc_once. unfold commit_step. by rewrite Hpc, Ep.
Qed.

Lemma commit_batch_steps w (s : Bridge) :
  br_commit s = CommitTake w ->
  commits s (set_commit (with_cache (commit_batch (cw_batch_id w) (ppl_cache (br_pipeline s))).1 (br_pipeline s))
    (br_commit_chan s) (CommitExit w) s).
Proof.
  intros Hpc. eapply rtc_l; [unfold commit_step; by rewrite Hpc|]. unfold commit_batch.
  destruct (page_entries _) as [|e es]; [done|].
  match goal with |- commits ?s1 _ => pose proof (put_entries_steps w (e :: es) (e :: es) s1 eq_refl) as Hp end.
  cbn [set_commit with_cache br_pipeline ppl_cache set_pending tc_db] in Hp. unfold persist.
  cbn [set_pending tc_db]. destruct (put_batch _ _) as [db [u|err]]; exact Hp.
Qed.
End schedules.

Section liveness.
Context {M L D : Type} `{HLru : LruCache L, HLruL : !LruLaws L, HSt : StateStore D, HStL : !StateStoreLaws D}.
Context `{HRun : !BatchRunner M, HRunL : !BatchRunnerLaws M}.
Abbreviation Bridge := (Bridge M L D).
Abbreviation ctl_of s := (ppl_controller (br_pipeline s)).

(** The light load: every transaction has a gas limit, and no batch that is executed
    writes as much as the threshold of P3. *)
Definition light_load (lambda3 : Z) (bs : list ExecutableEthereumBatch) (start : Bridge) : Prop :=
  Forall (fun b => exists w, gas_weight (batch_data b) = Some w ∧ 0 <= w) bs ∧
  forall s b d buffer, rtc bridge_step start s -> br_exec s = ExecWrite b d buffer -> delta_bytes buffer < lambda3.

Definition exec_weight (s : Bridge) : Z * Z :=
  match br_exec s with
  | ExecRun b _ | ExecWrite b _ _ | ExecComplete b _ _ | ExecVisible b _ _ | ExecExit b _ _ =>
      (0 +u64 pb_gas_weight b, 1)
  | _ => (0, 0)
  end.

Definition commit_weight (s : Bridge) : Z * Z :=
  match br_commit s with
  | CommitTake w | CommitPut w _ _ | CommitInsert w _ | CommitExit w => (0 +u64 cw_delta_bytes w, 1)
  | _ => (0, 0)
  end.

Definition exec_batches (s : Bridge) : list PipelineBatch :=
  match br_exec s with
  | ExecWait b | ExecGranted b | ExecRun b _ | ExecWrite b _ _ | ExecComplete b _ _ | ExecVisible b _ _
  | ExecExit b _ _ => [b]
  | _ => []
  end ++ br_exec_chan s.

Definition deltas (s : Bridge) : list Z :=
  match br_exec s with
  | ExecWrite _ _ buffer => [delta_bytes buffer]
  | ExecComplete _ _ d | ExecVisible _ _ d | ExecExit _ _ d | ExecSend _ _ d => [d]
  | _ => []
  end ++
  (cw_delta_bytes <$> br_commit_chan s) ++
  match br_commit s with
  | CommitRecv => []
  | CommitWait w | CommitGranted w | CommitTake w | CommitPut w _ _ | CommitInsert w _ | CommitExit w =>
      [cw_delta_bytes w]
  end.

(** The most records a batch below the threshold writes. *)
Definition max_records (lambda3 : Z) : nat := Z.to_nat (lambda3 / 64).

Record live_inv (lambda3 : Z) (bs : list ExecutableEthereumBatch) (s : Bridge) : Prop := {
  lv_params : cell (ctl_lambda (ctl_of s)) Commit = lambda3 ∧ 1 <= ctl_zeta_max (ctl_of s);
  lv_zeta : forall st, 1 <= cell (ctl_zeta (ctl_of s)) st;
  lv_order : cell (ctl_in_flight (ctl_of s)) Order = Z.of_nat (length (br_exec_chan s));
  lv_exec : cell (ctl_w (ctl_of s)) Exec = (exec_weight s).1 ∧
    cell (ctl_in_flight (ctl_of s)) Exec = (exec_weight s).2;
  lv_commit : cell (ctl_w (ctl_of s)) Commit = (commit_weight s).1 ∧
    cell (ctl_in_flight (ctl_of s)) Commit = (commit_weight s).2;
  lv_todo : forall b, b ∈ br_todo s -> b ∈ bs;
  lv_batches : forall b, b ∈ exec_batches s -> 0 <= pb_gas_weight b;
  lv_deltas : forall d, d ∈ deltas s -> 0 <= d < lambda3;
  lv_pending : forall b pages, tc_pending_batch_pages (ppl_cache (br_pipeline s)) !! b = Some pages ->
    (length (page_entries pages) <= max_records lambda3)%nat
}.

Lemma bridge_start_live init lambda3 bs (m : M) (r : EvBlpPipeline L D * Z) log :
  bridge_ready init log r ->
  ctl_idle (ppl_controller r.1) -> 1 <= ctl_zeta_max (ppl_controller r.1) ->
  cell (ctl_lambda (ppl_controller r.1)) Commit = lambda3 ->
  live_inv lambda3 bs (bridge_start m r log bs).
Proof.
  intros Hr [Hw Hf Hz _] Hm Hl. split; simpl; rewrite ?Hw, ?Hf; try done.
  - by intros b ?%elem_of_nil.
  - by intros b ?%elem_of_nil.
  - intros b pages. by rewrite (ready_pending _ _ _ Hr), lookup_empty.
Qed.

(** The light-load window of the stage a worker waits for is open. *)
Lemma can_push_live lambda3 bs s st :
  live_inv lambda3 bs s -> cell (ctl_in_flight (ctl_of s)) st = 0 -> can_push (ctl_of s) st = true.
Proof.
  intros Hl Hf. unfold can_push, get_window_size, in_flight_count. pose proof (lv_zeta _ _ _ Hl st).
  rewrite Hf, (proj2 (Z.eqb_neq _ _)) by lia. apply Z.ltb_lt. lia.
Qed.

Lemma order_step_live init n0 lambda3 bs s s' :
  Z.of_nat (length bs) < u32_modulus ->
  Forall (fun b => exists w, gas_weight (batch_data b) = Some w ∧ 0 <= w) bs ->
  order_step s = Some s' -> bridge_inv init n0 bs s -> live_inv lambda3 bs s -> live_inv lambda3 bs s'.
Proof.
  intros Hlen Hgas Hs Hb [H1 H2 H3 H4 H5 H6 H7 H8 H9]. unfold order_step in Hs.
  destruct (br_todo s) as [|b todo] eqn:Et; [done|].
  destruct (br_order s); [destruct (can_push _ _); simplify_eq; by split|].
  simpl in Hs. apply bind_Some in Hs as (pb & Hpb & [= <-]).
  unfold PipelineBatch_new in Hpb. apply bind_Some in Hpb as (w & Ew & [= <-]).
  assert (b ∈ bs) as Hin by (apply H6; left).
  assert (0 <= w) as Hw.
  { rewrite Forall_forall in Hgas. destruct (Hgas b Hin) as (w' & Ew' & ?). congruence. }
  assert (Z.of_nat (length (br_exec_chan s)) + 1 < u32_modulus) as Hc.
  { destruct (bi_progress _ _ _ _ Hb) as (k & Hk & Ht & _ & Hr). apply (f_equal length) in Hr.
    rewrite !length_app, length_fmap in Hr. unfold numbered in Hr. rewrite length_imap, length_take in Hr.
    rewrite Et in Ht. apply (f_equal length) in Ht. rewrite length_drop in Ht. simpl in Ht. lia. }
  split; simpl; try done.
  - simpl in H3. rewrite H3, length_app. simpl. no_wrap.
  - intros b' Hb'. apply H6. by right.
  - intros b' Hb'. unfold exec_batches in *. simpl in Hb'. rewrite app_assoc, elem_of_app in Hb'.
    destruct Hb' as [Hb'|Hb'%list_elem_of_singleton]; [by apply H7|by subst].
Qed.

Lemma exec_reads_live init n0 lambda3 bs ks s :
  bridge_inv init n0 bs s -> live_inv lambda3 bs s -> live_inv lambda3 bs (exec_reads ks s).
Proof.
  intros Hb Hl. unfold exec_reads. destruct (br_exec s) as [|b|b|b seen|b d bf|b d dl|b d dl|b d dl|i d dl] eqn:Hpc; try done.
  destruct Hl as [H1 H2 H3 H4 H5 H6 H7 H8 H9]. unfold exec_weight, exec_batches, deltas in *. rewrite Hpc in H4, H7, H8.
  destruct (cache_reads_inv init _ (br_visible s) ks _ (bi_cache _ _ _ _ Hb)) as (_ & _ & C3 & _).
  split; simpl; try done. by rewrite C3.
Qed.

Lemma exec_write_live lambda3 bs b d buffer s s' init n0 :
  br_exec s = ExecWrite b d buffer -> exec_write b d buffer s = Some s' ->
  bridge_inv init n0 bs s -> live_inv lambda3 bs s -> live_inv lambda3 bs s'.
Proof.
  intros Hpc Hs Hb [H1 H2 H3 H4 H5 H6 H7 H8 H9]. unfold exec_write in Hs. apply bind_Some in Hs as (c & Hc & [= <-]).
  unfold write_delta_pages in Hc. apply bind_Some in Hc as (l1 & _ & [= <-]).
  unfold exec_weight, exec_batches, deltas in *. rewrite Hpc in H4, H7, H8.
  split; simpl; try done.
  intros i pages [[<- <-]|[_ Hi]]%lookup_insert_Some; [|by eapply H9].
  rewrite page_entries_log. destruct (into_delta_pages_spec buffer (pb_batch_id b) (pb_batch_id b) _ (bi_max _ _ _ _ Hb))
    as [-> _].
  assert (0 <= delta_bytes buffer < lambda3) as Hd by (apply H8; left). unfold delta_bytes in Hd. unfold max_records.
  assert (Z.of_nat (length buffer) <= lambda3 / 64) by (apply Z.div_le_lower_bound; lia). lia.
Qed.

Lemma exec_step_live init n0 lambda3 bs read s s' :
  (forall b d buffer, br_exec s' = ExecWrite b d buffer -> delta_bytes buffer < lambda3) ->
  exec_step read s = Some s' -> bridge_inv init n0 bs s -> live_inv lambda3 bs s -> live_inv lambda3 bs s'.
Proof.
  intros Hlight Hs Hb Hl. unfold exec_step in Hs.
  destruct (br_exec s) as [|b|b|b seen|b d bf|b d dl|b d dl|b d dl|i d dl] eqn:Hpc.
  5: by eapply exec_write_live.
  all: destruct Hl as [[H1 H1'] H2 H3 H4 H5 H6 H7 H8 H9]; unfold exec_weight, exec_batches, deltas in *;
    rewrite Hpc in H4, H7, H8.
  - destruct (br_exec_chan s) as [|b chan] eqn:Ec; [done|]. simplify_eq/=.
    split; simpl br_pipeline; unfold on_controller, exec_weight, exec_batches, deltas; cbn [ppl_controller].
    + by rewrite (proj1 (exit_params _ _ _)), (proj2 (exit_params _ _ _)).
    + intros st. rewrite exit_zeta. case_decide; [|done]. simpl. apply next_zeta_light; [|done|left].
      * specialize (H2 Order). simpl in H2. lia.
      * apply H4.
    + rewrite exit_in_flight. simpl. simpl in H3. rewrite H3. unfold u32_saturating_sub. simpl. lia.
    + by rewrite exit_w, exit_in_flight.
    + by rewrite exit_w, exit_in_flight.
    + done.
    + done.
    + done.
    + done.
  - destruct (can_push _ _); simplify_eq. by split.
  - simplify_eq. split; simpl; try done. simpl in H4. by destruct H4 as [-> ->].
  - unfold exec_run in Hs. apply bind_Some in Hs as ([m [ds applies]] & _ & [= <-]).
    split; simpl; try done. intros x [->|Hx]%elem_of_cons; [|by apply H8].
    split; [unfold delta_bytes; lia|]. by eapply Hlight.
  - simplify_eq. by split.
  - simplify_eq. by split.
  - simplify_eq. assert (0 <= pb_gas_weight b) as Hg by (apply H7; left).
    split; simpl br_pipeline; unfold on_controller, exec_weight, exec_batches, deltas; cbn [ppl_controller].
    + by rewrite (proj1 (exit_params _ _ _)), (proj2 (exit_params _ _ _)).
    + intros st. rewrite exit_zeta. case_decide; [|done]. simpl stage_next. apply next_zeta_light; [|done|].
      * specialize (H2 Exec). lia.
      * rewrite (proj1 H5). unfold commit_weight. destruct (br_commit s) as [|w|w|w|w es td|w td|w]; auto.
        all: right; destruct (H8 (cw_delta_bytes w)); [set_solver|].
        all: eapply Z.le_lt_trans; [apply u64_add_le; lia|lia].
    + by rewrite exit_in_flight.
    + rewrite exit_w, exit_in_flight, (proj1 H4), (proj2 H4). simpl.
      by rewrite enter_exit_weight.
    + by rewrite exit_w, exit_in_flight.
    + done.
    + intros b' Hb'. apply H7. by right.
    + done.
    + done.
  - simplify_eq. split; simpl; try done. intros x Hx. apply H8.
    unfold deltas in Hx. simpl in Hx. rewrite fmap_app in Hx. set_solver.
Qed.

Lemma commit_step_live lambda3 bs s s' :
  commit_step s = Some s' -> live_inv lambda3 bs s -> live_inv lambda3 bs s'.
Proof.
  intros Hs [[H1 H1'] H2 H3 H4 H5 H6 H7 H8 H9]. unfold commit_step in Hs.
  unfold commit_weight, deltas in *.
  destruct (br_commit s) as [|w|w|w|w es [|[k v] todo]|w [|[k v] todo]|w] eqn:Hpc.
  - destruct (br_commit_chan s) as [|w chan] eqn:Ec; [done|]. simplify_eq. split; simpl; try done.
    intros d Hd. apply H8. unfold deltas in Hd. simpl in *. set_solver.
  - destruct (can_push _ _); simplify_eq. by split.
  - simplify_eq. split; simpl; try done. simpl in H5. by destruct H5 as [-> ->].
  - simplify_eq. split; simpl; try done.
    + unfold commit_weight. simpl. by destruct (page_entries _).
    + unfold deltas. simpl. by destruct (page_entries _).
    + intros b pages [_ ?]%lookup_delete_Some. by eapply H9.
  - simplify_eq. by split.
  - destruct (ss_put _ k v) as [db r]. simplify_eq. split; simpl; try done.
    + unfold commit_weight. simpl. by destruct r.
    + unfold deltas. simpl. by destruct r.
  - simplify_eq. by split.
  - simplify_eq. by split.
  - simplify_eq. assert (0 <= cw_delta_bytes w) as Hw by (apply H8; set_solver).
    split; simpl br_pipeline; unfold on_controller; cbn [ppl_controller].
    + by rewrite (proj1 (exit_params _ _ _)), (proj2 (exit_params _ _ _)).
    + intros st. rewrite exit_zeta. by case_decide; [subst; apply (H2 Commit)|].
    + by rewrite exit_in_flight.
    + by rewrite exit_w, exit_in_flight.
    + rewrite exit_w, exit_in_flight, (proj1 H5), (proj2 H5). unfold commit_weight. simpl.
      by rewrite enter_exit_weight.
    + done.
    + done.
    + intros d Hd. apply H8. unfold deltas in Hd. simpl in *. set_solver.
    + done.
Qed.

Lemma exec_progress init n0 lambda3 bs s :
  bridge_inv init n0 bs s -> live_inv lambda3 bs s ->
  br_exec s = ExecRecv ∧ br_exec_chan s = [] ∨ is_Some (quiet_step s) ∨ exec_panics s.
Proof.
  intros Hb Hl. pose proof (quiet_reads s) as Hq. unfold quiet_step, exec_reads in *.
  destruct (br_exec s) as [|b|b|b seen|b d bf|b d dl|b d dl|b d dl|i d dl] eqn:Hpc;
    simpl in *; unfold exec_step; simpl; rewrite ?Hpc; eauto.
  - destruct (br_exec_chan s); eauto.
  - rewrite (can_push_live _ _ _ Exec Hl); [eauto|]. rewrite (proj2 (lv_exec _ _ _ Hl)).
    unfold exec_weight. by rewrite Hpc.
  - unfold exec_run. simpl. match goal with |- context [run_batch ?x ?read ?m] => destruct (run_batch x read m) as [[m' [ds ap]]|] eqn:Er end.
    + right; left. by eexists.
    + right; right. exists b, seen, []. eexists. split_and!; [done| |exact Er]. unfold exec_reads. by rewrite Hpc.
  - destruct (exec_write_inv _ _ _ _ _ _ _ Hpc Hb) as (s' & -> & _). eauto.
Qed.

Lemma commit_progress lambda3 bs s :
  live_inv lambda3 bs s -> commit_step s = None -> br_commit s = CommitRecv ∧ br_commit_chan s = [].
Proof.
  intros Hl. unfold commit_step. destruct (br_commit s) as [|w|w|w|w es [|[k v] todo]|w [|[k v] todo]|w] eqn:Hpc; try done.
  - by destruct (br_commit_chan s).
  - rewrite (can_push_live _ _ _ Commit Hl); [done|]. rewrite (proj2 (lv_commit _ _ _ Hl)).
    unfold commit_weight. by rewrite Hpc.
  - by destruct (ss_put _ k v).
Qed.

Lemma order_progress lambda3 bs s :
  Forall (fun b => exists w, gas_weight (batch_data b) = Some w ∧ 0 <= w) bs ->
  live_inv lambda3 bs s -> br_exec_chan s = [] -> order_step s = None -> br_todo s = [].
Proof.
  intros Hgas Hl Hc. unfold order_step. destruct (br_todo s) as [|b todo] eqn:Et; [done|].
  destruct (br_order s).
  - rewrite (can_push_live _ _ _ Order Hl); [done|]. by rewrite (lv_order _ _ _ Hl), Hc.
  - simpl. unfold PipelineBatch_new. rewrite Forall_forall in Hgas.
    destruct (Hgas b) as (w & Ew & _); [apply (lv_todo _ _ _ Hl); rewrite Et; left|].
    by rewrite Ew.
Qed.

Lemma exec_reads_commit ks (s : Bridge) :
  br_commit (exec_reads ks s) = br_commit s ∧ br_commit_chan (exec_reads ks s) = br_commit_chan s.
Proof. unfold exec_reads. by destruct (br_exec s). Qed.

(** Under light load a state that is not joined has a step, unless an execution panics. *)
Lemma bridge_progress init n0 lambda3 bs s :
  Forall (fun b => exists w, gas_weight (batch_data b) = Some w ∧ 0 <= w) bs ->
  bridge_inv init n0 bs s -> live_inv lambda3 bs s ->
  (exists s', bridge_step s s') ∨ bridge_joined s ∨ exec_panics s.
Proof.
  intros Hgas Hb Hl.
  destruct (exec_progress _ _ _ _ _ Hb Hl) as [[He Hch]|[[s' Hs']|Hp]]; [| |by auto].
  2: { left. exists s'. eapply step_exec; [|exact Hs']. apply quiet_reads. }
  destruct (commit_step (exec_reads [] s)) as [s'|] eqn:Ec; [left; exists s'; by eapply step_commit_worker|].
  destruct (order_step s) as [s'|] eqn:Eo; [left; exists s'; by apply step_order|].
  right; left. destruct (commit_progress lambda3 bs _ (exec_reads_live _ _ _ _ [] _ Hb Hl) Ec) as [C1 C2].
  pose proof (order_progress _ _ _ Hgas Hl Hch Eo).
  destruct (exec_reads_commit [] s) as [E1 E2]. rewrite E1 in C1. rewrite E2 in C2. by split_and!.
Qed.

(** The number of steps a state can still make, when a batch writes at most [n]
    records: [2 n + 18] for a batch that has not been ordered, one less for each step
    behind it. *)
Definition order_steps (n : nat) (s : Bridge) : nat :=
  (2 * n + 18) * length (br_todo s) - match br_order s with OrderWait => 0 | OrderGranted => 1 end.

Definition exec_steps (n : nat) (s : Bridge) : nat :=
  (2 * n + 16) * length (br_exec_chan s) +
  match br_exec s with
  | ExecRecv => 0 | ExecWait _ => 2 * n + 15 | ExecGranted _ => 2 * n + 14 | ExecRun _ _ => 2 * n + 13
  | ExecWrite _ _ _ => 2 * n + 12 | ExecComplete _ _ _ => 2 * n + 11 | ExecVisible _ _ _ => 2 * n + 10
  | ExecExit _ _ _ => 2 * n + 9 | ExecSend _ _ _ => 2 * n + 8
  end.

Definition commit_steps (n : nat) (s : Bridge) : nat :=
  (2 * n + 7) * length (br_commit_chan s) +
  match br_commit s with
  | CommitRecv => 0 | CommitWait _ => 2 * n + 6 | CommitGranted _ => 2 * n + 5 | CommitTake _ => 2 * n + 4
  | CommitPut _ entries todo => length todo + length entries + 3
  | CommitInsert _ todo => length todo + 2
  | CommitExit _ => 1
  end.

Definition steps_left (n : nat) (s : Bridge) : nat := order_steps n s + exec_steps n s + commit_steps n s.

Lemma exec_reads_left n ks (s : Bridge) : steps_left n (exec_reads ks s) = steps_left n s.
Proof.
  unfold steps_left, order_steps, exec_steps, commit_steps, exec_reads. by destruct (br_exec s) eqn:Hpc; simpl; rewrite ?Hpc.
Qed.

Lemma order_step_left n s s' : order_step s = Some s' -> (steps_left n s' < steps_left n s)%nat.
Proof.
  intros Hs. unfold steps_left, order_steps, exec_steps, commit_steps.
  unfold order_step in Hs. destruct (br_todo s) as [|b todo] eqn:Et; [done|].
  destruct (br_order s); [destruct (can_push _ _); simplify_eq; simpl; lia|].
  simpl in Hs. apply bind_Some in Hs as (pb & _ & [= <-]). simpl. rewrite length_app. simpl. lia.
Qed.

Lemma exec_step_left n read s s' : exec_step read s = Some s' -> (steps_left n s' < steps_left n s)%nat.
Proof.
  intros Hs. unfold steps_left, order_steps, exec_steps, commit_steps. unfold exec_step in Hs.
  destruct (br_exec s) as [|b|b|b seen|b d bf|b d dl|b d dl|b d dl|i d dl] eqn:Hpc.
  - destruct (br_exec_chan s); simplify_eq. simpl. lia.
  - destruct (can_push _ _); simplify_eq. simpl. lia.
  - simplify_eq. simpl. lia.
  - unfold exec_run in Hs. apply bind_Some in Hs as ([m [ds ap]] & _ & [= <-]). simpl. lia.
  - unfold exec_write in Hs. apply bind_Some in Hs as (c & _ & [= <-]). simpl. lia.
  - simplify_eq. simpl. lia.
  - simplify_eq. simpl. lia.
  - simplify_eq. simpl. lia.
  - simplify_eq. simpl. rewrite length_app. simpl. lia.
Qed.

Lemma commit_step_left lambda3 bs s s' :
  live_inv lambda3 bs s -> commit_step s = Some s' ->
  (steps_left (max_records lambda3) s' < steps_left (max_records lambda3) s)%nat.
Proof.
  intros Hl Hs. unfold steps_left, order_steps, exec_steps, commit_steps. unfold commit_step in Hs.
  destruct (br_commit s) as [|w|w|w|w es [|[k v] todo]|w [|[k v] todo]|w] eqn:Hpc.
  - destruct (br_commit_chan s); simplify_eq. simpl. lia.
  - destruct (can_push _ _); simplify_eq. simpl. lia.
  - simplify_eq. simpl. lia.
  - assert (length (page_entries (default [] (tc_pending_batch_pages (ppl_cache (br_pipeline s)) !! cw_batch_id w)))
      <= max_records lambda3)%nat as Hn.
    { destruct (tc_pending_batch_pages _ !! _) as [pages|] eqn:E; [by eapply lv_pending|simpl; lia]. }
    simplify_eq. simpl. destruct (page_entries _) as [|e es]; simpl in *; lia.
  - simplify_eq. simpl. lia.
  - destruct (ss_put _ k v) as [db [u|e]]; simplify_eq; simpl; lia.
  - simplify_eq. simpl. lia.
  - simplify_eq. simpl. lia.
  - simplify_eq. simpl. lia.
Qed.

Lemma bridge_step_decreases init n0 lambda3 bs s s' :
  bridge_inv init n0 bs s -> live_inv lambda3 bs s -> bridge_step s s' ->
  (steps_left (max_records lambda3) s' < steps_left (max_records lambda3) s)%nat.
Proof.
  intros Hb Hl [Hs|ks read _ Hs|ks Hs].
  - by apply order_step_left.
  - rewrite <- (exec_reads_left _ ks s). by eapply exec_step_left.
  - rewrite <- (exec_reads_left _ ks s). eapply commit_step_left; [|done]. by eapply exec_reads_live.
Qed.

Lemma bridge_reachable_live init lambda3 log r (m : M) bs s :
  bridge_ready init log r -> ppl_next_batch_id r.1 + Z.of_nat (length bs) < u64_modulus ->
  Z.of_nat (length bs) < u32_modulus -> light_load lambda3 bs (bridge_start m r log bs) ->
  live_inv lambda3 bs (bridge_start m r log bs) ->
  rtc bridge_step (bridge_start m r log bs) s ->
  bridge_inv init (ppl_next_batch_id r.1) bs s ∧ live_inv lambda3 bs s.
Proof.
  intros Hr Hn Hn' [Hgas Hlight] Hl0 Hs. split; [by eapply bridge_reachable_inv|]. revert s Hs.
  apply rtc_ind_r; [done|]. intros s s' Hrs Hs Hl.
  pose proof (bridge_reachable_inv _ _ _ _ _ _ Hr Hn Hrs) as Hb.
  assert (rtc bridge_step (bridge_start m r log bs) s') as Hrs' by by eapply rtc_r.
  destruct Hs as [Hs|ks read _ Hs|ks Hs].
  - by eapply order_step_live.
  - eapply exec_step_live; [|done|by eapply exec_reads_inv|by eapply exec_reads_live]. intros b d buffer. by apply Hlight.
  - eapply commit_step_live; [done|]. by eapply exec_reads_live.
Qed.

Lemma bridge_steps_bound init lambda3 log r (m : M) bs n s :
  bridge_ready init log r -> ppl_next_batch_id r.1 + Z.of_nat (length bs) < u64_modulus ->
  Z.of_nat (length bs) < u32_modulus -> light_load lambda3 bs (bridge_start m r log bs) ->
  live_inv lambda3 bs (bridge_start m r log bs) ->
  nsteps bridge_step n (bridge_start m r log bs) s ->
  (n + steps_left (max_records lambda3) s <= steps_left (max_records lambda3) (bridge_start m r log bs))%nat.
Proof.
  intros Hr Hn Hn' Hlight Hl0. revert s. induction n as [|n IH]; intros s Hs.
  - inversion Hs; subst. lia.
  - apply nsteps_inv_r in Hs as (s1 & H1 & Hs). specialize (IH s1 H1). apply rtc_nsteps_2 in H1.
    destruct (bridge_reachable_live init lambda3 log r m bs s1) as [Hb Hl]; [done..|].
    pose proof (bridge_step_decreases _ _ _ _ _ _ Hb Hl Hs). lia.
Qed.
End liveness.

(** ** Lemmas: a closed window *)

Section closed.
Context {M L D : Type} `{HLru : LruCache L, HSt : StateStore D, HRun : !BatchRunner M}.
Abbreviation Bridge := (Bridge M L D).

(** The execution worker waits for a window of size 0. *)
Definition exec_closed (b : PipelineBatch) (s : Bridge) : Prop :=
  br_exec s = ExecWait b ∧ cell (ctl_zeta (ppl_controller (br_pipeline s))) Exec = 0.

Lemma exec_closed_step b s s' :
  bridge_step s s' -> exec_closed b s -> exec_closed b s' ∧ br_results s' = br_results s.
Proof.
  intros Hs [He Hz]. assert (forall ks, exec_reads ks s = s) as Hr by (intros; unfold exec_reads; by rewrite He).
  destruct Hs as [Hs|ks read _ Hs|ks Hs]; rewrite ?Hr in Hs.
  - unfold order_step in Hs. destruct (br_todo s) as [|b0 todo]; [done|].
    destruct (br_order s); [by destruct (can_push _ _); simplify_eq|].
    simpl in Hs. by apply bind_Some in Hs as (pb & _ & [= <-]).
  - unfold exec_step in Hs. rewrite He in Hs. unfold can_push, get_window_size in Hs.
    rewrite Hz in Hs. done.
  - unfold commit_step in Hs. destruct (br_commit s) as [|w|w|w|w es [|[k v] todo]|w [|[k v] todo]|w];
      [|destruct (can_push _ _)|..]; simplify_eq; try done.
    + by destruct (br_commit_chan s); simplify_eq.
    + by destruct (ss_put _ k v); simplify_eq.
Qed.

Lemma exec_closed_forever b s s' :
  rtc bridge_step s s' -> exec_closed b s -> exec_closed b s' ∧ br_results s' = br_results s.
Proof.
  induction 1 as [s|s s1 s' Hs _ IH]; intros Hc; [done|].
  destruct (exec_closed_step b s s1 Hs Hc) as [Hc1 <-]. by apply IH.
Qed.

End closed.

(** ** A sample runner: every batch writes slot 5 of contract 1 *)

Inductive SampleManager := sample_mgr.

#[local] Instance sample_runner : BatchRunner SampleManager := {|
  run_batch b read m :=
    Some (m, ([batch_digest b], [Modify 1 (mkBasic 0 1) None {[5 := batch_digest b]} false]))
|}.

#[local] Instance sample_runner_laws : BatchRunnerLaws SampleManager.
Proof. split; simpl; intros b read m m' out ?; by simplify_eq. Qed.

Definition sample_runtime (l3 : Z) : EvBlpPipeline LruList InMemoryStateStore * Z :=
  EvBlpRuntime_new (mkEvBlpConfig (mkPipelineConfig 8 1000000 l3) sample_config) ∅.

Definition sample_work : list ExecutableEthereumBatch := [sample_batch 7; sample_batch 8; sample_batch 9].

Definition sample_start (l3 : Z) : Bridge SampleManager LruList InMemoryStateStore :=
  bridge_start sample_mgr (sample_runtime l3) [] sample_work.

(** Batch 2 leaves P2 while batch 1 is in P3. *)
Definition overload_schedule : list Worker :=
  replicate 2 OrderLoop ++ replicate 9 ExecWorker ++ replicate 3 CommitWorker ++
  replicate 2 OrderLoop ++ replicate 9 ExecWorker ++ replicate 2 OrderLoop ++ [ExecWorker].

(** ** Theorems *)

Section theorems.
Context {M L D : Type} `{HLru : LruCache L, HLruL : !LruLaws L, HSt : StateStore D, HStL : !StateStoreLaws D}.
Context `{HRun : !BatchRunner M, HRunL : !BatchRunnerLaws M}.
Context (init : Key -> option Value) (log : list (Key * Value)) (r : EvBlpPipeline L D * Z).
Context (m : M) (bs : list ExecutableEthereumBatch) (s : Bridge M L D).


(** C30. At every point of every interleaving, a read of the cache at the visible
    batch returns the last value written by the batches executed so far, or the
    initial value of the store if there is none, committed or not, flushed or not; if
    that value is zero it may find nothing instead, since the store on RocksDB keeps
    no zeros.  The same holds of every answer that a running execution may get from
    the cache while the commit worker changes it. *)
Theorem bridge_reads_latest k :
  bridge_ready init log r -> ppl_next_batch_id r.1 + Z.of_nat (length bs) < u64_modulus ->
  rtc bridge_step (bridge_start m r log bs) s -> bytes32 k ->
  reads_as (cache_read k (br_visible s) (ppl_cache (br_pipeline s))).2 (overlaid (br_log s) init k) ∧
  forall ks o, may_answer (br_visible s) (seen_caches (exec_reads ks s)) k o ->
    reads_as o (overlaid (br_log s) init k).
Proof.
  intros Hr Hn Hs Hk. pose proof (bridge_reachable_inv _ _ _ _ _ _ Hr Hn Hs) as Hb. split.
  - apply cache_inv_read; [apply Hb|done|apply Hb].
  - intros ks o Ho. apply (exec_reads_inv _ _ _ ks) in Hb. destruct (exec_reads_log ks s) as [<- E].
    rewrite <- E in Ho. by eapply may_answer_log.
Qed.
End theorems.

Lemma sample_runtime_ready l3 : bridge_ready (ss_get (D := InMemoryStateStore) ∅) [] (sample_runtime l3).
Proof. apply EvBlpRuntime_new_ready. simpl. lia. Qed.

(** One batch after the other through the three stages. *)
Definition lockstep_schedule : list Worker :=
  concat (replicate 3 (replicate 2 OrderLoop ++ replicate 9 ExecWorker ++ replicate 9 CommitWorker)).

Definition sample_end : Bridge SampleManager LruList InMemoryStateStore :=
  default (sample_start 1000) (run_schedule lockstep_schedule (sample_start 1000)).

Lemma sample_end_reachable : rtc bridge_step (sample_start 1000) sample_end.
Proof. apply (run_schedule_steps lockstep_schedule). vm_compute. reflexivity. Qed.


Lemma bridge_reads_latest_witness :
  (cache_read (encode_key 1 5) (br_visible sample_end) (ppl_cache (br_pipeline sample_end))).2 =
  Some (encode_value 9).
Proof.
  apply reads_as_nonzero; [|vm_compute; discriminate].
  apply (bridge_reads_latest (ss_get (D := InMemoryStateStore) ∅) [] (sample_runtime 1000) sample_mgr
    sample_work sample_end (encode_key 1 5)).
  - apply sample_runtime_ready.
  - vm_compute. reflexivity.
  - exact sample_end_reachable.
  - auto with chase.
Defined.

(** Under overload the pipeline deadlocks.  With three batches of 64 bytes and
    a threshold of 64, an interleaving in which batch 2 leaves P2 while batch 1
    is being committed closes the window of P2 for good: only a batch leaving P2
    could open it, so batch 3 is never executed, whatever happens afterwards. *)
Theorem overload_deadlock :
  exists s, rtc bridge_step (sample_start 64) s ∧
    forall s', rtc bridge_step s s' -> ¬ bridge_joined s' ∧ br_results s' = [(1, 7); (2, 8)].
Proof.
  destruct (run_schedule overload_schedule (sample_start 64)) as [s|] eqn:E; [|by vm_compute in E].
  exists s. split; [by eapply run_schedule_steps|]. intros s' Hs'.
  assert (exists b, exec_closed b s) as [b Hb].
  { vm_compute in E. injection E as <-. eexists. split; reflexivity. }
  assert (br_results s = [(1, 7); (2, 8)]) as Hr.
  { vm_compute in E. injection E as <-. reflexivity. }
  destruct (exec_closed_forever b s s' Hs' Hb) as [[He _] ->]. split; [|done].
  intros (_ & _ & Hj & _). congruence.
Qed.
