(* ===== verification/Storage.v ===== *)
(** * Durable storage and the consensus adapter

    crates/sslab-execution/stack/src: rocksdb_store.rs ([ChaseStorage]),
    rocksdb_state_store.rs ([RocksDbStateStore]), layered_backend.rs
    ([PersistableCMemoryBackend]), adapter.rs and execution_state.rs.

    A column family is typed-store's [DBMap] over RocksDB; it is a class here,
    with its documented behaviour as laws: an operation that succeeds acts on the
    map it stands for, one that fails changes nothing.  A method of the storage
    threads the storage and stops at the first error, as [?] does. *)

From S2P Require Import Prelude Bytes Types Backend Pages Cache.
Local Open Scope Z_scope.
Local Open Scope chase_scope.

(** ** Column families *)

Class DBMap (T K V : Type) := {
  db_get : T -> K -> Result (option V) string;
  db_insert : T -> K -> V -> T * Result unit string;
  db_remove : T -> K -> T * Result unit string;
  db_iter : T -> list (Result (K * V) string)
}.

Definition result_ok {A} (r : Result A string) : option A :=
  match r with Ok x => Some x | Err _ => None end.

Class DBMapLaws (T K V : Type) `{Countable K} `{!DBMap T K V} := {
  db_map : T -> gmap K V;
  db_get_ok t k o : db_get t k = Ok o -> o = db_map t !! k;
  db_insert_spec t k v : db_map (db_insert t k v).1 =
    match (db_insert t k v).2 with Ok _ => <[k := v]> (db_map t) | Err _ => db_map t end;
  db_remove_spec t k : db_map (db_remove t k).1 =
    match (db_remove t k).2 with Ok _ => delete k (db_map t) | Err _ => db_map t end;
  db_iter_spec t : Forall (fun r => is_Some (result_ok r)) (db_iter t) ->
    omap result_ok (db_iter t) ≡ₚ map_to_list (db_map t)
}.

(** The map itself is an implementation that never fails. *)
#[global] Instance gmap_DBMap {K V} `{Countable K} : DBMap (gmap K V) K V := {|
  db_get t k := Ok (t !! k);
  db_insert t k v := (<[k := v]> t, Ok tt);
  db_remove t k := (delete k t, Ok tt);
  db_iter t := Ok <$> map_to_list t
|}.

#[global] Instance gmap_DBMap_laws {K V} `{Countable K} : DBMapLaws (gmap K V) K V.
Proof.
  apply (Build_DBMapLaws _ _ _ _ _ _ id).
  - intros t k o. simpl. by intros [= <-].
  - done.
  - done.
  - intros t _. simpl. induction (map_to_list t) as [|p l IH]; csimpl; [done|]. by constructor.
Defined.

(** ** ChaseStorage *)

Record StoredAccount := mkStored { st_nonce : U256; st_balance : U256; st_code : bytes }.

Definition EXECUTION_INDEX_KEY : Z := 0.

Record ChaseStorage (TA TS TI : Type) := mkChaseStorage {
  cs_accounts : TA;
  cs_slots : TS;
  cs_index : TI
}.
Arguments mkChaseStorage {TA TS TI}.
Arguments cs_accounts {TA TS TI}.
Arguments cs_slots {TA TS TI}.
Arguments cs_index {TA TS TI}.

(** Methods that change the storage and may fail. *)
Definition StoreM (S A : Type) : Type := S -> S * Result A string.

#[global] Instance StoreM_ret S : MRet (StoreM S) := fun A x s => (s, Ok x).
#[global] Instance StoreM_bind S : MBind (StoreM S) := fun A B f m s =>
  match m s with (s', Ok x) => f x s' | (s', Err e) => (s', Err e) end.

Fixpoint store_iter {S A} (f : A -> StoreM S unit) (l : list A) : StoreM S unit :=
  match l with [] => mret tt | x :: l' => _ ← f x; store_iter f l' end.

Section storage.
Context {TA TS TI : Type}.
Context `{HA : !DBMap TA H160 StoredAccount} `{HS : !DBMap TS (H160 * H256) H256} `{HI : !DBMap TI Z Z}.
Abbreviation ChaseStorage := (ChaseStorage TA TS TI).

Definition account_get (address : H160) : StoreM ChaseStorage (option StoredAccount) :=
  fun s => (s, db_get (cs_accounts s) address).

Definition account_insert (address : H160) (a : StoredAccount) : StoreM ChaseStorage unit := fun s =>
  let '(t, r) := db_insert (cs_accounts s) address a in (mkChaseStorage t (cs_slots s) (cs_index s), r).

Definition account_remove (address : H160) : StoreM ChaseStorage unit := fun s =>
  let '(t, r) := db_remove (V := StoredAccount) (cs_accounts s) address in
  (mkChaseStorage t (cs_slots s) (cs_index s), r).

Definition slot_insert (key : H160 * H256) (value : H256) : StoreM ChaseStorage unit := fun s =>
  let '(t, r) := db_insert (cs_slots s) key value in (mkChaseStorage (cs_accounts s) t (cs_index s), r).

Definition slot_remove (key : H160 * H256) : StoreM ChaseStorage unit := fun s =>
  let '(t, r) := db_remove (V := H256) (cs_slots s) key in (mkChaseStorage (cs_accounts s) t (cs_index s), r).

Definition last_executed_sub_dag_index (s : ChaseStorage) : Result Z string :=
  match db_get (cs_index s) EXECUTION_INDEX_KEY with
  | Ok o => Ok (default 0 o)
  | Err e => Err e
  end.

Definition set_last_executed_sub_dag_index (index : Z) : StoreM ChaseStorage unit := fun s =>
  let '(t, r) := db_insert (cs_index s) EXECUTION_INDEX_KEY index in
  (mkChaseStorage (cs_accounts s) (cs_slots s) t, r).

Definition get_storage_slot (address : H160) (slot : H256) (s : ChaseStorage) :
    Result (option H256) string := db_get (cs_slots s) (address, slot).

Definition put_storage_slot (address : H160) (slot value : H256) : StoreM ChaseStorage unit :=
  if decide (value = 0) then slot_remove (address, slot) else slot_insert (address, slot) value.

(** The slots of the address; entries that fail to read are skipped. *)
Definition slot_keys_of (address : H160) (s : ChaseStorage) : list (H160 * H256) :=
  fst <$> filter (fun e : (H160 * H256) * H256 => e.1.1 = address)
            (omap result_ok (db_iter (V := H256) (cs_slots s))).

Definition remove_storage_for_address (address : H160) : StoreM ChaseStorage unit := fun s =>
  store_iter slot_remove (slot_keys_of address s) s.

(** One round of [persist_applies]. *)
Definition persist_apply (e : Apply) : StoreM ChaseStorage unit :=
  match e with
  | Modify address basic code storage reset_storage =>
      stored ← account_get address;
      let account := default (mkStored 0 0 []) stored in
      let account := mkStored (nonce basic) (balance basic)
        (match code with Some c => c | None => st_code account end) in
      _ ← (if reset_storage : bool then remove_storage_for_address address else mret tt);
      _ ← store_iter (fun p : H256 * H256 => put_storage_slot address p.1 p.2) (btree_iter storage);
      if (st_balance account =? 0) && (st_nonce account =? 0)
         && match st_code account with [] => true | _ => false end
      then _ ← account_remove address; remove_storage_for_address address
      else account_insert address account
  | Delete address => _ ← account_remove address; remove_storage_for_address address
  end.

Definition persist_applies (applies : list Apply) : StoreM ChaseStorage unit :=
  store_iter persist_apply applies.

(** The inner loop of [hydrate_memory_backend]: the slots of an address. *)
Fixpoint hydrate_slots (address : H160) (l : list (Result ((H160 * H256) * H256) string))
    (m : gmap H256 H256) : Result (gmap H256 H256) string :=
  match l with
  | [] => Ok m
  | Err e :: _ => Err e
  | Ok ((addr, slot), v) :: l' =>
      hydrate_slots address l' (if decide (addr = address) then <[slot := v]> m else m)
  end.

(** The outer loop: accounts already inserted stay when a later entry fails. *)
Fixpoint hydrate_accounts (slots : list (Result ((H160 * H256) * H256) string))
    (l : list (Result (H160 * StoredAccount) string)) (state : gmap H160 MemoryAccount) :
    gmap H160 MemoryAccount * Result unit string :=
  match l with
  | [] => (state, Ok tt)
  | Err e :: _ => (state, Err e)
  | Ok (address, stored) :: l' =>
      match hydrate_slots address slots ∅ with
      | Err e => (state, Err e)
      | Ok storage =>
          hydrate_accounts slots l'
            (<[address := mkAccount (st_nonce stored) (st_balance stored) storage (st_code stored)]> state)
      end
  end.

Definition hydrate_memory_backend (s : ChaseStorage) (b : CMemoryBackend) :
    CMemoryBackend * Result unit string :=
  let '(state, r) := hydrate_accounts (db_iter (cs_slots s)) (db_iter (cs_accounts s)) (cmb_state b) in
  (mkCMemoryBackend (cmb_vicinity b) state, r).

(** ** PersistableCMemoryBackend *)

Record PersistableCMemoryBackend := mkPersistable { pm_inner : CMemoryBackend; pm_store : ChaseStorage }.

(** A failed hydration is logged only. *)
Definition PersistableCMemoryBackend_new (v : MemoryVicinity) (store : ChaseStorage) :
    PersistableCMemoryBackend :=
  mkPersistable (hydrate_memory_backend store (mkCMemoryBackend v ∅)).1 store.

Definition PersistableCMemoryBackend_apply (b : PersistableCMemoryBackend) (values : list Apply)
    (delete_empty : bool) : PersistableCMemoryBackend :=
  mkPersistable (CMemoryBackend_apply (pm_inner b) values delete_empty)
    (persist_applies values (pm_store b)).1.
End storage.

#[global] Instance PersistableCMemoryBackend_StorageBackend {TA TS TI}
    `{!DBMap TA H160 StoredAccount, !DBMap TS (H160 * H256) H256} :
    StorageBackend (PersistableCMemoryBackend (TA := TA) (TS := TS) (TI := TI)) := {|
  be_storage b := CMemoryBackend_storage (pm_inner b);
  be_apply := PersistableCMemoryBackend_apply
|}.

(** ** RocksDbStateStore *)

Definition rocks_get {TA TS TI} `{!DBMap TS (H160 * H256) H256} (s : ChaseStorage TA TS TI) (key : Key) :
    option Value :=
  let '(address, slot) := decode_key key in
  match get_storage_slot address slot s with
  | Ok (Some v) => Some (encode_value v)
  | _ => None
  end.

Definition rocks_put {TA TS TI} `{!DBMap TS (H160 * H256) H256} (s : ChaseStorage TA TS TI) (key : Key)
    (value : Value) : ChaseStorage TA TS TI * Result unit string :=
  let '(address, slot) := decode_key key in
  put_storage_slot address slot (decode_value value) s.

Definition RocksDbStateStore_store {TA TS TI} `{!DBMap TS (H160 * H256) H256} :
    StateStore (ChaseStorage TA TS TI) := {| ss_get := rocks_get; ss_put := rocks_put |}.

(** ** The consensus adapter *)

(** A batch of consensus: its digest and the raw transactions. *)
Record ConsensusBatch := mkConsensusBatch { cb_digest : Z; cb_transactions : list bytes }.

Section adapter.
Context (parse_json : bytes -> option EthereumTransaction).

(** [serde_json::from_slice(bytes).unwrap()]; the panic is [None]. *)
Definition from_json (raw : bytes) : option (Result EthereumTransaction string) :=
  tx ← parse_json raw; Some (Ok tx).

Definition adapt_batch (batch : ConsensusBatch) : option ExecutableEthereumBatch :=
  txs ← foldl (fun acc raw =>
      txs ← acc; r ← from_json raw;
      Some (match r with Ok tx => txs ++ [tx] | Err _ => txs end)) (Some []) (cb_transactions batch);
  Some (mkBatch (cb_digest batch) txs).

Definition consensus_output_to_executable_batches (groups : list (list ConsensusBatch)) :
    option (list ExecutableEthereumBatch) :=
  foldl (fun acc group =>
      foldl (fun acc batch => out ← acc; b ← adapt_batch batch; Some (out ++ [b])) acc group)
    (Some []) groups.
End adapter.

(** [handle_consensus_output]: the output is converted and executed, and its
    index recorded whatever the execution did; an error of the record is logged
    only.  [execute] is the executor the state was built with; it writes to the
    same storage. *)
Definition handle_consensus_output {X TA TS TI} `{!DBMap TI Z Z}
    (parse_json : bytes -> option EthereumTransaction)
    (execute : list ExecutableEthereumBatch -> X * ChaseStorage TA TS TI ->
               option (X * ChaseStorage TA TS TI))
    (sub_dag_index : Z) (groups : list (list ConsensusBatch)) (s : X * ChaseStorage TA TS TI) :
    option (X * ChaseStorage TA TS TI) :=
  batches ← consensus_output_to_executable_batches parse_json groups;
  '(x, store) ← execute batches s;
  Some (x, (set_last_executed_sub_dag_index sub_dag_index store).1).

(** ** Lemmas: methods that succeed *)

Lemma store_bind_Ok {S A C} (m : StoreM S A) (f : A -> StoreM S C) s s' y :
  (m ≫= f) s = (s', Ok y) ↔ exists s1 x, m s = (s1, Ok x) ∧ f x s1 = (s', Ok y).
Proof.
  unfold mbind, StoreM_bind. split.
  - destruct (m s) as [s1 [x|e]]; [eauto|done].
  - by intros (s1 & x & -> & ?).
Qed.

Lemma lookup_write_slots_raw m l k :
  write_slots m l !! k =
  match l !!ʳ k with Some v => if decide (v = 0) then None else Some v | None => m !! k end.
Proof.
  unfold write_slots. induction l as [|[i v] l IH] using rev_ind; [done|].
  rewrite foldl_app. autorewrite with chase. simpl. unfold write_slot.
  destruct (decide (k = i)) as [->|Hne].
  - by lookup_cases.
  - rewrite <- IH. by lookup_cases.
Qed.

Section storage_lemmas.
Context {TA TS TI : Type}.
Context `{HA : !DBMap TA H160 StoredAccount, HAL : !DBMapLaws TA H160 StoredAccount}.
Context `{HS : !DBMap TS (H160 * H256) H256, HSL : !DBMapLaws TS (H160 * H256) H256}.
Context `{HI : !DBMap TI Z Z}.
Abbreviation ChaseStorage := (ChaseStorage TA TS TI).

Definition accounts_of (s : ChaseStorage) : gmap H160 StoredAccount := db_map (cs_accounts s).
Definition slots_map (s : ChaseStorage) : gmap (H160 * H256) H256 := db_map (cs_slots s).

Lemma slot_remove_Ok k s s' u :
  slot_remove k s = (s', Ok u) ->
  accounts_of s' = accounts_of s ∧ slots_map s' = delete k (slots_map s).
Proof.
  unfold slot_remove, accounts_of, slots_map. pose proof (db_remove_spec (cs_slots s) k) as Hr.
  destruct (db_remove (cs_slots s) k) as [t [[]|e]]; intros ?; simplify_eq/=. done.
Qed.

Lemma slot_insert_Ok k v s s' u :
  slot_insert k v s = (s', Ok u) ->
  accounts_of s' = accounts_of s ∧ slots_map s' = <[k := v]> (slots_map s).
Proof.
  unfold slot_insert, accounts_of, slots_map. pose proof (db_insert_spec (cs_slots s) k v) as Hr.
  destruct (db_insert (cs_slots s) k v) as [t [[]|e]]; intros ?; simplify_eq/=. done.
Qed.

Lemma account_remove_Ok a s s' u :
  account_remove a s = (s', Ok u) ->
  accounts_of s' = delete a (accounts_of s) ∧ slots_map s' = slots_map s.
Proof.
  unfold account_remove, accounts_of, slots_map. pose proof (db_remove_spec (cs_accounts s) a) as Hr.
  destruct (db_remove (cs_accounts s) a) as [t [[]|e]]; intros ?; simplify_eq/=. done.
Qed.

Lemma account_insert_Ok a acc s s' u :
  account_insert a acc s = (s', Ok u) ->
  accounts_of s' = <[a := acc]> (accounts_of s) ∧ slots_map s' = slots_map s.
Proof.
  unfold account_insert, accounts_of, slots_map. pose proof (db_insert_spec (cs_accounts s) a acc) as Hr.
  destruct (db_insert (cs_accounts s) a acc) as [t [[]|e]]; intros ?; simplify_eq/=. done.
Qed.

Lemma remove_slots_Ok ks s s' u :
  store_iter slot_remove ks s = (s', Ok u) ->
  accounts_of s' = accounts_of s ∧
  forall k, slots_map s' !! k = if decide (k ∈ ks) then None else slots_map s !! k.
Proof.
  revert s. induction ks as [|k0 ks IH]; intros s; simpl.
  - by intros [= <-].
  - intros (s1 & [] & [Ha Hs]%slot_remove_Ok & [Ha' Hs']%IH)%store_bind_Ok. split; [congruence|].
    intros k. rewrite Hs', Hs. destruct (decide (k = k0)) as [->|Hne].
    + rewrite lookup_delete_eq. repeat case_decide; set_solver.
    + rewrite lookup_delete_ne by done. apply decide_ext. set_solver.
Qed.

(** Iterating over the slots meets no read error. *)
Context (Hiter : forall t : TS, Forall (fun r => is_Some (result_ok r)) (db_iter t)).

Lemma elem_of_slot_keys a s k :
  k ∈ slot_keys_of a s ↔ k.1 = a ∧ is_Some (slots_map s !! k).
Proof using Hiter.
  unfold slot_keys_of, slots_map. rewrite list_elem_of_fmap.
  setoid_rewrite list_elem_of_filter. setoid_rewrite (db_iter_spec _ (Hiter (cs_slots s))).
  split.
  - intros ([k' v] & -> & Ha & Hin%elem_of_map_to_list). simpl in *. eauto.
  - intros [Ha [v Hv]]. exists (k, v). by rewrite elem_of_map_to_list.
Qed.

Lemma remove_storage_Ok a s s' u :
  remove_storage_for_address a s = (s', Ok u) ->
  accounts_of s' = accounts_of s ∧
  forall a' k, slots_map s' !! (a', k) = if decide (a' = a) then None else slots_map s !! (a', k).
Proof using Hiter.
  intros [Ha Hs]%remove_slots_Ok. split; [done|]. intros a' k. rewrite Hs.
  destruct (decide ((a', k) ∈ slot_keys_of a s)) as [Hin|Hin]; rewrite elem_of_slot_keys in Hin; simpl in Hin.
  - destruct Hin as [-> _]. by rewrite decide_True.
  - case_decide; [|done]. apply eq_None_not_Some. naive_solver.
Qed.

Lemma put_storage_slot_Ok a k v s s' u :
  put_storage_slot a k v s = (s', Ok u) ->
  accounts_of s' = accounts_of s ∧
  forall k', slots_map s' !! k' =
    if decide (k' = (a, k)) then (if decide (v = 0) then None else Some v) else slots_map s !! k'.
Proof.
  unfold put_storage_slot. case_decide.
  - intros [? ->]%slot_remove_Ok. split; [done|]. intros k'. by lookup_cases.
  - intros [? ->]%slot_insert_Ok. split; [done|]. intros k'. by lookup_cases.
Qed.

Lemma put_slots_Ok a l s s' u :
  store_iter (fun p : H256 * H256 => put_storage_slot a p.1 p.2) l s = (s', Ok u) ->
  accounts_of s' = accounts_of s ∧
  forall a' k, slots_map s' !! (a', k) =
    if decide (a' = a) then
      match l !!ʳ k with
      | Some v => if decide (v = 0) then None else Some v
      | None => slots_map s !! (a', k)
      end
    else slots_map s !! (a', k).
Proof.
  revert s. induction l as [|[i v] l IH]; intros s; simpl.
  - intros [= <-]. split; [done|]. intros a' k. by case_decide.
  - intros (s1 & [] & [Ha Hs]%put_storage_slot_Ok & [Ha' Hs']%IH)%store_bind_Ok. split; [congruence|].
    intros a' k. rewrite Hs', Hs. simpl. destruct (decide (a' = a)) as [->|Hne].
    + destruct (l !!ʳ k); [done|]. destruct (decide (k = i)) as [->|Hk].
      * repeat case_decide; congruence.
      * by rewrite decide_False by congruence.
    + by rewrite decide_False by congruence.
Qed.

(** The state the two column families stand for. *)
Definition slots_of (m : gmap (H160 * H256) H256) (a : H160) : gmap H256 H256 :=
  list_to_map (omap (fun e : (H160 * H256) * H256 =>
    if decide (e.1.1 = a) then Some (e.1.2, e.2) else None) (map_to_list m)).

Lemma lookup_slots_of m a k : slots_of m a !! k = m !! (a, k).
Proof.
  apply option_eq. intros v. unfold slots_of. rewrite <- elem_of_list_to_map.
  - rewrite list_elem_of_omap. split.
    + intros ([[a' k'] v'] & Hin%elem_of_map_to_list & E). simpl in E. case_decide; by simplify_eq.
    + intros Hv. exists ((a, k), v). rewrite elem_of_map_to_list. split; [done|]. simpl.
      by rewrite decide_True.
  - pose proof (NoDup_fst_map_to_list m) as Hnd. induction (map_to_list m) as [|[[a' k'] v'] l IH]; csimpl; [constructor|].
    apply NoDup_cons in Hnd as [Hn Hnd]. case_decide as Ha; [|by apply IH]. csimpl. constructor; [|by apply IH].
    intros ([k0 v0] & -> & ([[a1 k1] v1] & Hin & E)%list_elem_of_omap)%list_elem_of_fmap. simpl in *.
    case_decide; simplify_eq. apply Hn. by apply (list_elem_of_fmap_2 fst) in Hin.
Qed.

Definition stored_state (s : ChaseStorage) : gmap H160 MemoryAccount :=
  map_imap (fun a st => Some (mkAccount (st_nonce st) (st_balance st) (slots_of (slots_map s) a) (st_code st)))
    (accounts_of s).

Lemma lookup_stored_state s a :
  stored_state s !! a =
  (fun st => mkAccount (st_nonce st) (st_balance st) (slots_of (slots_map s) a) (st_code st)) <$> accounts_of s !! a.
Proof. unfold stored_state. rewrite map_lookup_imap. by destruct (accounts_of s !! a). Qed.

(** Slots are non-zero and belong to an account. *)
Record storage_wf (s : ChaseStorage) : Prop := {
  sw_nonzero : forall k, slots_map s !! k ≠ Some 0;
  sw_owned : forall a k, is_Some (slots_map s !! (a, k)) -> is_Some (accounts_of s !! a)
}.

(** Two storages that agree on an address hold the same account there. *)
Lemma stored_state_agree s s' a :
  accounts_of s' !! a = accounts_of s !! a ->
  (forall k, slots_map s' !! (a, k) = slots_map s !! (a, k)) ->
  stored_state s' !! a = stored_state s !! a.
Proof.
  intros Ha Hs. rewrite !lookup_stored_state, Ha. destruct (accounts_of s !! a); [|done]. simpl.
  do 2 f_equal. apply map_eq. intros k. by rewrite !lookup_slots_of.
Qed.

(** Deleting an address. *)
Lemma delete_address_Ok a s s' u :
  (_ ← account_remove a; remove_storage_for_address a) s = (s', Ok u) ->
  (forall k, slots_map s !! k ≠ Some 0) ->
  (forall a' k, a' ≠ a -> is_Some (slots_map s !! (a', k)) -> is_Some (accounts_of s !! a')) ->
  storage_wf s' ∧ stored_state s' = delete a (stored_state s).
Proof using Hiter.
  intros (s1 & [] & [Ha Hs]%account_remove_Ok & [Ha' Hs']%remove_storage_Ok)%store_bind_Ok H1 H2.
  rewrite Ha in Ha'. split; [split|].
  - intros [a' k]. rewrite Hs', Hs. case_decide; [done|apply H1].
  - intros a' k. rewrite Hs', Hs, Ha'. case_decide; [by intros []|].
    rewrite lookup_delete_ne by done. by apply H2.
  - apply map_eq. intros a'. destruct (decide (a' = a)) as [->|Hne].
    + by rewrite lookup_delete_eq, lookup_stored_state, Ha', lookup_delete_eq.
    + rewrite lookup_delete_ne by done. apply stored_state_agree.
      * by rewrite Ha', lookup_delete_ne.
      * intros k. by rewrite Hs', Hs, decide_False.
Qed.

Lemma purge_zeros_lookup m k : m !! k ≠ Some 0 -> purge_zeros m !! k = m !! k.
Proof.
  intros Hk. unfold purge_zeros. destruct (m !! k) as [v|] eqn:E.
  - apply map_lookup_filter_Some. split; [done|]. simpl. congruence.
  - apply map_lookup_filter_None. by left.
Qed.

(** The storage an address had, as the in-memory backend sees it. *)
Lemma owned_storage s a k :
  storage_wf s ->
  acc_storage (default MemoryAccount_default (stored_state s !! a)) !! k = slots_map s !! (a, k).
Proof.
  intros [_ H2]. rewrite lookup_stored_state. destruct (accounts_of s !! a) as [st|] eqn:Ea; simpl.
  - apply lookup_slots_of.
  - rewrite lookup_empty. symmetry. apply eq_None_not_Some. intros Hk%H2. rewrite Ea in Hk. by destruct Hk.
Qed.

(** The first part of [Apply::Modify]: clearing and writing slots. *)
Lemma modify_slots_Ok a st (reset : bool) s s2 u :
  (_ ← (if reset then remove_storage_for_address a else mret tt);
   store_iter (fun p : H256 * H256 => put_storage_slot a p.1 p.2) (btree_iter st)) s = (s2, Ok u) ->
  storage_wf s ->
  accounts_of s2 = accounts_of s ∧
  (forall a' k, a' ≠ a -> slots_map s2 !! (a', k) = slots_map s !! (a', k)) ∧
  forall k, slots_map s2 !! (a, k) =
    write_slots (purge_zeros (if reset then ∅ else
      acc_storage (default MemoryAccount_default (stored_state s !! a)))) (btree_iter st) !! k.
Proof using Hiter.
  intros (s1 & [] & Hr & [Ha2 Hs2]%put_slots_Ok)%store_bind_Ok Hwf.
  assert (accounts_of s1 = accounts_of s ∧ forall a' k, slots_map s1 !! (a', k) =
    if decide (a' = a) then (if reset then None else slots_map s !! (a', k)) else slots_map s !! (a', k)) as [Ha1 Hs1].
  { destruct reset; [by apply remove_storage_Ok in Hr|]. injection Hr as <-. split; [done|].
    intros a' k. by case_decide. }
  split_and!; [congruence| |].
  - intros a' k Hne. by rewrite Hs2, Hs1, !decide_False.
  - intros k. rewrite Hs2, decide_True, lookup_write_slots_raw by done.
    destruct (_ !!ʳ k); [done|]. rewrite Hs1, decide_True by done.
    destruct reset; [by rewrite purge_zeros_lookup|].
    rewrite purge_zeros_lookup; rewrite owned_storage by done; [done|apply Hwf].
Qed.

Lemma persist_apply_Ok e s s' u :
  persist_apply e s = (s', Ok u) -> storage_wf s ->
  storage_wf s' ∧ stored_state s' = apply_one true (stored_state s) e.
Proof using Hiter.
  destruct e as [a basic code st reset|a]; simpl.
  2: { intros Hd Hwf. apply delete_address_Ok in Hd; [done|apply Hwf|]. intros. by eapply Hwf. }
  intros (s0 & stored & Hg & Hrest)%store_bind_Ok Hwf. injection Hg as <- Hg.
  apply db_get_ok in Hg. subst stored. fold (accounts_of s) in Hrest.
  apply store_bind_Ok in Hrest as (s1 & [] & Hr & Hrest).
  apply store_bind_Ok in Hrest as (s2 & [] & Hp & Hlast).
  destruct (modify_slots_Ok a st reset s s2 tt) as (Ha & Ho & Hs); [|done|].
  { apply store_bind_Ok. eauto. }
  set (old := default MemoryAccount_default (stored_state s !! a)) in *.
  assert (st_code (default (mkStored 0 0 []) (accounts_of s !! a)) = acc_code old) as Hcode.
  { unfold old. rewrite lookup_stored_state. by destruct (accounts_of s !! a). }
  rewrite Hcode in Hlast. clear Hcode.
  set (code' := match code with Some c => c | None => acc_code old end) in *.
  assert (forall k, slots_map s2 !! k ≠ Some 0) as Hnz.
  { intros [a' k]. destruct (decide (a' = a)) as [->|Hne].
    - rewrite Hs. apply write_slots_zero_free, purge_zeros_zero_free.
    - rewrite Ho by done. apply Hwf. }
  assert (forall a' k, a' ≠ a -> is_Some (slots_map s2 !! (a', k)) -> is_Some (accounts_of s2 !! a')) as Hown.
  { intros a' k Hne. rewrite Ho, Ha by done. apply Hwf. }
  change (account_is_empty (modify_account old basic code st reset) && true) with
    ((balance basic =? 0) && (nonce basic =? 0) && match code' with [] => true | _ => false end && true).
  rewrite andb_true_r. simpl st_balance in Hlast. simpl st_nonce in Hlast. simpl st_code in Hlast.
  assert (forall a', a' ≠ a -> stored_state s2 !! a' = stored_state s !! a') as Hother.
  { intros a' Hne. apply stored_state_agree; [by rewrite Ha|]. intros k. by apply Ho. }
  destruct (_ && _).
  - apply delete_address_Ok in Hlast as [Hwf' ->]; [|done..]. split; [done|].
    apply map_eq. intros a'. destruct (decide (a' = a)) as [->|Hne]; [by rewrite !lookup_delete_eq|].
    by rewrite !lookup_delete_ne, lookup_insert_ne, Hother.
  - apply account_insert_Ok in Hlast as [Ha' Hs']. split; [split|].
    + by rewrite Hs'.
    + intros a' k. rewrite Hs', Ha'. destruct (decide (a' = a)) as [->|Hne].
      * intros _. rewrite lookup_insert_eq. by eexists.
      * rewrite lookup_insert_ne by done. by apply Hown.
    + apply map_eq. intros a'. destruct (decide (a' = a)) as [->|Hne].
      * rewrite lookup_insert_eq, lookup_stored_state, Ha', lookup_insert_eq. simpl. do 2 f_equal.
        unfold modify_account. f_equal. apply map_eq. intros k. by rewrite lookup_slots_of, Hs', Hs.
      * rewrite lookup_insert_ne, <- Hother by done. apply stored_state_agree.
        -- by rewrite Ha', lookup_insert_ne.
        -- intros k. by rewrite Hs'.
Qed.

Lemma persist_applies_Ok es s s' u :
  persist_applies es s = (s', Ok u) -> storage_wf s ->
  storage_wf s' ∧ stored_state s' = foldl (apply_one true) (stored_state s) es.
Proof using Hiter.
  revert s. induction es as [|e es IH]; intros s; simpl; [by intros [= <-]|].
  intros (s1 & [] & Hp & Hps)%store_bind_Ok Hwf.
  destruct (persist_apply_Ok e s s1 tt Hp Hwf) as [Hwf1 <-]. by apply IH.
Qed.

(** Iterating over the accounts meets no read error either. *)
Context (Hiter' : forall t : TA, Forall (fun r => is_Some (result_ok r)) (db_iter (V := StoredAccount) t)).

Lemma hydrate_slots_spec a l m :
  Forall (fun r => is_Some (result_ok r)) l ->
  exists m', hydrate_slots a l m = Ok m' ∧
    forall k, m' !! k = match omap result_ok l !!ʳ (a, k) with Some v => Some v | None => m !! k end.
Proof.
  intros Hl. revert m. induction Hl as [|r l Hr Hl IH]; intros m; [by exists m|].
  destruct r as [[[a' i] v]|e]; [|by destruct Hr]. simpl.
  destruct (IH (if decide (a' = a) then <[i := v]> m else m)) as (m' & -> & Hm). exists m'. split; [done|].
  intros k. rewrite Hm. destruct (_ !!ʳ (a, k)); [done|].
  destruct (decide (a' = a)) as [->|Hne]; [destruct (decide (i = k)) as [->|Hk]|].
  - by rewrite lookup_insert_eq, decide_True.
  - by rewrite lookup_insert_ne, decide_False by congruence.
  - by rewrite decide_False by congruence.
Qed.

Lemma hydrate_accounts_spec slots l state :
  Forall (fun r => is_Some (result_ok r)) slots -> Forall (fun r => is_Some (result_ok r)) l ->
  exists state', hydrate_accounts slots l state = (state', Ok tt) ∧
    forall a, match omap result_ok l !!ʳ a with
      | Some st => exists m, state' !! a = Some (mkAccount (st_nonce st) (st_balance st) m (st_code st)) ∧
          forall k, m !! k = omap result_ok slots !!ʳ (a, k)
      | None => state' !! a = state !! a
      end.
Proof.
  intros Hs Hl. revert state. induction Hl as [|r l Hr Hl IH]; intros state; [by exists state|].
  destruct r as [[a0 st0]|e]; [|by destruct Hr]. csimpl.
  destruct (hydrate_slots_spec a0 slots ∅ Hs) as (m & -> & Hm).
  destruct (IH (<[a0 := mkAccount (st_nonce st0) (st_balance st0) m (st_code st0)]> state)) as (state' & -> & Hst).
  exists state'. split; [done|]. intros a. specialize (Hst a). revert Hst.
  destruct (omap result_ok l !!ʳ a); [done|]. intros Hst. case_decide; subst.
  - exists m. rewrite Hst, lookup_insert_eq. split; [done|]. intros k. rewrite Hm.
    by destruct (_ !!ʳ (a0, k)).
  - by rewrite Hst, lookup_insert_ne.
Qed.

Lemma last_write_map_to_list {K V} `{Countable K} (m : gmap K V) l k :
  l ≡ₚ map_to_list m -> l !!ʳ k = m !! k.
Proof.
  intros Hp. destruct (m !! k) as [v|] eqn:E.
  - apply last_write_NoDup; [|by rewrite Hp, elem_of_map_to_list].
    rewrite Hp. apply NoDup_fst_map_to_list.
  - apply last_write_None. rewrite Hp. intros ([k' v] & -> & Hin%elem_of_map_to_list)%list_elem_of_fmap.
    simpl in E. congruence.
Qed.

(** A backend started from the storage holds the stored state. *)
Lemma hydrate_stored_state v s :
  pm_inner (PersistableCMemoryBackend_new v s) = mkCMemoryBackend v (stored_state s).
Proof using Hiter Hiter'.
  unfold PersistableCMemoryBackend_new, hydrate_memory_backend. simpl.
  destruct (hydrate_accounts_spec (db_iter (cs_slots s)) (db_iter (cs_accounts s)) ∅) as (state' & -> & Hst);
    [apply Hiter|apply Hiter'|]. simpl. f_equal. apply map_eq. intros a. specialize (Hst a).
  rewrite (last_write_map_to_list _ _ _ (db_iter_spec _ (Hiter' (cs_accounts s)))) in Hst.
  rewrite lookup_stored_state. unfold accounts_of. destruct (db_map (cs_accounts s) !! a) as [st|].
  - destruct Hst as (m & -> & Hm). simpl. do 2 f_equal. apply map_eq. intros k.
    rewrite Hm, lookup_slots_of. unfold slots_map.
    apply last_write_map_to_list, db_iter_spec, Hiter.
  - rewrite Hst. apply lookup_empty.
Qed.
End storage_lemmas.

(** ** Lemmas: keys and values of the state store *)

Lemma encode_decode_value v : bytes32 v -> encode_value (decode_value v) = v.
Proof. intros [Hl Hb]. unfold encode_value, decode_value. rewrite <- Hl. by apply be_bytes_value. Qed.

Lemma decode_key_inj k k' : bytes32 k -> bytes32 k' -> decode_key k = decode_key k' -> k = k'.
Proof.
  intros [Hl Hb] [Hl' Hb']. unfold decode_key. intros [H1 H2]%pair_equal_spec.
  rewrite !be_value_app in H2. rewrite !length_drop, Hl, Hl' in H2.
  rewrite <- (take_drop 20 k), <- (take_drop 20 k'). f_equal.
  - apply be_value_inj; [by apply Forall_take..| |done]. rewrite !length_take. lia.
  - apply be_value_inj; [by apply Forall_drop..| |lia]. rewrite !length_drop. lia.
Qed.

(** ** Lemmas: loops that collect *)

Lemma foldl_concat {A C} (f : A -> C -> A) a (ls : list (list C)) :
  foldl (fun acc l => foldl f acc l) a ls = foldl f a (concat ls).
Proof. revert a. induction ls as [|l ls IH]; intros a; simpl; [done|]. by rewrite foldl_app, IH. Qed.

Lemma foldl_pointwise {A C} (f g : A -> C -> A) a l :
  (forall x y, f x y = g x y) -> foldl f a l = foldl g a l.
Proof. intros H. revert a. induction l as [|y l IH]; intros a; simpl; [done|]. by rewrite H, IH. Qed.

Lemma collect_mapM {A C} (f : A -> option C) l acc :
  foldl (fun acc x => ys ← acc; y ← f x; Some (ys ++ [y])) (Some acc) l = (app acc) <$> mapM f l.
Proof.
  revert acc. induction l as [|x l IH]; intros acc; simpl; [by rewrite app_nil_r|].
  destruct (f x) as [y|]; simpl.
  - rewrite IH. destruct (mapM f l); simpl; [by rewrite <- app_assoc|done].
  - clear IH. by induction l.
Qed.

Lemma option_fmap_app_nil {A} (o : option (list A)) : (app []) <$> o = o.
Proof. by destruct o. Qed.

(** ** Theorems *)

Section theorems.
Context {TA TS TI : Type}.
Context `{HA : !DBMap TA H160 StoredAccount, HAL : !DBMapLaws TA H160 StoredAccount}.
Context `{HS : !DBMap TS (H160 * H256) H256, HSL : !DBMapLaws TS (H160 * H256) H256}.

(** C35. Persisted effects survive a restart: if [persist_applies] succeeds and
    iterating over the two column families never meets an entry that fails to read,
    a backend hydrated from the storage afterwards holds exactly the state hydrated
    before with the effects applied in order, empty accounts removed; the storage
    keeps its invariant (no zero slot, every slot owned by an account). *)
Theorem persist_then_hydrate v es (s s' : ChaseStorage TA TS TI) :
  (forall t : TA, Forall (fun r => is_Some (result_ok r)) (db_iter (V := StoredAccount) t)) ->
  (forall t : TS, Forall (fun r => is_Some (result_ok r)) (db_iter (V := H256) t)) ->
  storage_wf s -> persist_applies es s = (s', Ok tt) ->
  storage_wf s' ∧
  cmb_state (pm_inner (PersistableCMemoryBackend_new v s')) =
  foldl (apply_one true) (cmb_state (pm_inner (PersistableCMemoryBackend_new v s))) es.
Proof.
  intros Hia His Hwf Hp. destruct (persist_applies_Ok His es s s' tt Hp Hwf) as [Hwf' E].
  split; [done|]. by rewrite !hydrate_stored_state.
Qed.

(** Clearing the storage of an address skips the entries that fail to read and still
    succeeds: such a slot stays. *)
Theorem unread_slot_survives_removal a k (s s' : ChaseStorage TA TS TI) :
  (a, k) ∉ (omap result_ok (db_iter (V := H256) (cs_slots s))).*1 -> remove_storage_for_address a s = (s', Ok tt) ->
  slots_map s' !! (a, k) = slots_map s !! (a, k).
Proof.
  intros Hk Hr. destruct (remove_slots_Ok _ _ _ _ Hr) as [_ Hs]. rewrite Hs, decide_False; [done|].
  intros (e & He & [_ Hin]%list_elem_of_filter)%list_elem_of_fmap. apply Hk. apply list_elem_of_fmap. eauto.
Qed.

(** The RocksDB state store keeps what is put, except zero: a successful put
    of a non-zero value is read back and no other key changes, while after a
    successful put of zero the key reads as absent, so the read falls through to
    the backend below the cache. *)
Theorem rocks_store_spec (s s' : ChaseStorage TA TS TI) k v k' :
  (forall (t : TS) k, exists o, db_get (V := H256) t k = Ok o) ->
  bytes32 k -> bytes32 v -> bytes32 k' -> rocks_put s k v = (s', Ok tt) ->
  rocks_get s' k' =
  if decide (k' = k) then (if decide (decode_value v = 0) then None else Some v) else rocks_get s k'.
Proof.
  intros Hget Hk Hv Hk' Hp.
  assert (forall s : ChaseStorage TA TS TI, rocks_get s k' = encode_value <$> slots_map s !! decode_key k') as Hr.
  { intros s0. unfold rocks_get, get_storage_slot. destruct (decode_key k') as [a i].
    destruct (Hget (cs_slots s0) (a, i)) as [o Ho]. rewrite Ho. apply db_get_ok in Ho.
    unfold slots_map. rewrite <- Ho. by destruct o. }
  rewrite !Hr. unfold rocks_put in Hp. destruct (decode_key k) as [a i] eqn:Ek.
  apply put_storage_slot_Ok in Hp as [_ Hp]. rewrite Hp, <- Ek.
  destruct (decide (k' = k)) as [->|Hne].
  - rewrite decide_True by done. case_decide; [done|]. simpl. by rewrite encode_decode_value.
  - rewrite decide_False; [done|]. intros E. apply Hne. by apply decode_key_inj.
Qed.

(** So the state store on RocksDB, when its reads do not fail, is a store in the sense
    of the cache. *)
Lemma RocksDbStateStore_laws :
  (forall (t : TS) k, exists o, db_get (V := H256) t k = Ok o) ->
  @StateStoreLaws (ChaseStorage TA TS TI) RocksDbStateStore_store.
Proof.
  intros Hget. split. intros s k v k' Hk Hv Hk'. simpl.
  destruct (rocks_put s k v) as [s' [[]|e]] eqn:Ep; simpl.
  - rewrite (rocks_store_spec s s' k v k') by done. destruct (decide (k' = k)); [|done].
    destruct (decide (decode_value v = 0)); [|by left]. right. eauto.
  - assert (slots_map s' = slots_map s) as E.
    { unfold rocks_put in Ep. destruct (decode_key k) as [a i]. unfold put_storage_slot in Ep. unfold slots_map.
      destruct (decide (decode_value v = 0)); unfold slot_remove, slot_insert in Ep.
      - pose proof (db_remove_spec (V := H256) (cs_slots s) (a, i)) as Hr. destruct (db_remove _ _) as [t r]. by simplify_eq/=.
      - pose proof (db_insert_spec (V := H256) (cs_slots s) (a, i) (decode_value v)) as Hr.
        destruct (db_insert _ _ _) as [t r]. by simplify_eq/=. }
    unfold rocks_get, get_storage_slot. destruct (decode_key k') as [a i].
    destruct (Hget (cs_slots s) (a, i)) as [o Ho], (Hget (cs_slots s') (a, i)) as [o' Ho'].
    rewrite Ho, Ho'. apply db_get_ok in Ho, Ho'. unfold slots_map in E. by rewrite Ho, Ho', E.
Qed.
End theorems.

(** The cache over a database whose reads and writes succeed. *)
#[global] Instance RocksDbStateStore_gmap_laws :
  @StateStoreLaws (ChaseStorage (gmap H160 StoredAccount) (gmap (H160 * H256) H256) (gmap Z Z)) RocksDbStateStore_store.
Proof. apply RocksDbStateStore_laws. intros t k. by eexists. Qed.

Definition sample_storage : ChaseStorage (gmap Z StoredAccount) (gmap (Z * Z) Z) (gmap Z Z) :=
  mkChaseStorage {[ 7 := mkStored 1 0 [96] ]} {[ (7, 5) := 10 ]} ∅.

Definition sample_effects : list Apply :=
  [Modify 7 (mkBasic 3 2) None {[ 5 := 0; 6 := 11 ]} false; Modify 8 (mkBasic 0 0) None {[ 1 := 1 ]} false].

Lemma sample_storage_wf : storage_wf sample_storage.
Proof.
  split.
  - intros k. unfold slots_map, sample_storage. simpl. intros [_ ?]%lookup_singleton_Some. done.
  - intros a k [v Hv]. unfold slots_map, sample_storage in Hv. simpl in Hv.
    apply lookup_singleton_Some in Hv as [E _]. simplify_eq. by eexists.
Qed.

Lemma persist_then_hydrate_witness :
  let s' := (persist_applies sample_effects sample_storage).1 in
  storage_wf s' ∧
  cmb_state (pm_inner (PersistableCMemoryBackend_new genesis_vicinity s')) =
  foldl (apply_one true) (cmb_state (pm_inner (PersistableCMemoryBackend_new genesis_vicinity sample_storage)))
    sample_effects.
Proof.
  apply (persist_then_hydrate genesis_vicinity sample_effects sample_storage).
  - intros t. simpl. apply Forall_fmap, Forall_forall. intros x _. by eexists.
  - intros t. simpl. apply Forall_fmap, Forall_forall. intros x _. by eexists.
  - apply sample_storage_wf.
  - vm_compute. reflexivity.
Defined.

Lemma rocks_store_spec_witness :
  let s' := (rocks_put sample_storage (encode_key 7 5) (encode_value 0)).1 in
  rocks_get sample_storage (encode_key 7 5) = Some (encode_value 10) ∧
  rocks_get s' (encode_key 7 5) = None.
Proof.
  split; [vm_compute; reflexivity|].
  rewrite (rocks_store_spec sample_storage _ (encode_key 7 5) (encode_value 0) (encode_key 7 5)).
  - vm_compute. reflexivity.
  - intros t k. simpl. by eexists.
  - auto with chase.
  - apply bytes32_be.
  - auto with chase.
  - vm_compute. reflexivity.
Defined.

(** The adapter keeps the order of batches and transactions, and panics if
    any raw transaction of the output does not parse: the branch that would skip
    it is never taken. *)
Theorem adapter_all_or_panic parse_json groups :
  consensus_output_to_executable_batches parse_json groups =
  mapM (fun b => mkBatch (cb_digest b) <$> mapM parse_json (cb_transactions b)) (concat groups).
Proof.
  unfold consensus_output_to_executable_batches.
  rewrite (foldl_concat (fun acc batch => out ← acc; b ← adapt_batch parse_json batch; Some (out ++ [b]))).
  rewrite collect_mapM. rewrite option_fmap_app_nil. apply mapM_ext. intros b.
  unfold adapt_batch, from_json.
  rewrite (foldl_pointwise _ (fun acc raw => txs ← acc; y ← parse_json raw; Some (txs ++ [y])))
    by (intros acc raw; by destruct acc, (parse_json raw)).
  rewrite collect_mapM, option_fmap_app_nil. by destruct (mapM parse_json _).
Qed.
