(* ===== verification/EvmWord.v ===== *)
(** * 256-bit words of the EVM

    src/crates/chase-evm/core/src: utils.rs ([I256]), eval/arithmetic.rs and
    eval/bitwise.rs.

    A word is an integer in [0, 2^256).  The operators [+], [-], [/] and [%] of
    [U256] panic on overflow and on a zero divisor in every build profile; here
    they return an option.  The theorems compare each opcode with its meaning on
    integers, and show that no panic is reachable. *)

From Stdlib Require Import Zpow_facts.
From S2P Require Import Prelude.
Local Open Scope Z_scope.

Definition u256_modulus : Z := 0x10000000000000000000000000000000000000000000000000000000000000000.
Definition U256_MAX : Z := 0xffffffffffffffffffffffffffffffffffffffffffffffffffffffffffffffff.

Definition word (x : Z) : Prop := 0 <= x < u256_modulus.

(** ** Operations of [U256] and [U512] *)

Definition u256_wrap (x : Z) : Z := x mod u256_modulus.
Definition overflowing_add (x y : Z) : Z := u256_wrap (x + y).
Definition overflowing_sub (x y : Z) : Z := u256_wrap (x - y).
Definition overflowing_mul (x y : Z) : Z := u256_wrap (x * y).

Definition u256_checked_add (x y : Z) : option Z :=
  if x + y <? u256_modulus then Some (x + y) else None.
Definition u256_checked_mul (x y : Z) : option Z :=
  if x * y <? u256_modulus then Some (x * y) else None.

(** The operators panic where the checked operations have no result. *)
Definition u256_add (x y : Z) : option Z := u256_checked_add x y.
Definition u256_sub (x y : Z) : option Z := if y <=? x then Some (x - y) else None.
Definition u256_div (x y : Z) : option Z := if y =? 0 then None else Some (x / y).
Definition u256_rem (x y : Z) : option Z := if y =? 0 then None else Some (x mod y).
Definition u256_saturating_add (x y : Z) : Z := Z.min U256_MAX (x + y).

Definition u256_not (x : Z) : Z := U256_MAX - x.
Definition u256_shl (x : Z) (s : Z) : Z := u256_wrap (Z.shiftl x s).
Definition u256_shr (x : Z) (s : Z) : Z := Z.shiftr x s.

Definition u512_modulus : Z := u256_modulus * u256_modulus.
Definition u512_add (x y : Z) : option Z := if x + y <? u512_modulus then Some (x + y) else None.
Definition u512_mul (x y : Z) : option Z := if x * y <? u512_modulus then Some (x * y) else None.
Definition u512_try_into (x : Z) : option Z := if x <? u256_modulus then Some x else None.

(** ** Signed words *)

Inductive Sign := Plus | Minus | Zero.

#[global] Instance Sign_eq_dec : EqDecision Sign.
Proof. solve_decision. Defined.

Definition SIGN_BIT_MASK : Z := 0x7fffffffffffffffffffffffffffffffffffffffffffffffffffffffffffffff.

Record I256 := mkI256 { i_sign : Sign; i_abs : Z }.

#[global] Instance I256_eq_dec : EqDecision I256.
Proof. solve_decision. Defined.

Definition I256_zero : I256 := mkI256 Zero 0.

Definition I256_min_value : option I256 :=
  mkI256 Minus <$> u256_add (Z.land U256_MAX SIGN_BIT_MASK) 1.

Definition I256_cmp (x y : I256) : comparison :=
  match i_sign x, i_sign y with
  | Zero, Zero => Eq
  | Zero, Plus => Lt
  | Zero, Minus => Gt
  | Minus, Zero => Lt
  | Minus, Plus => Lt
  | Minus, Minus => CompOpp (i_abs x ?= i_abs y)
  | Plus, Minus => Gt
  | Plus, Zero => Gt
  | Plus, Plus => i_abs x ?= i_abs y
  end.

Definition I256_from (val : Z) : option I256 :=
  if val =? 0 then Some I256_zero
  else if Z.land val SIGN_BIT_MASK =? val then Some (mkI256 Plus val)
  else mkI256 Minus <$> u256_add (u256_not val) 1.

Definition I256_into (value : I256) : option Z :=
  match i_sign value with
  | Zero => Some 0
  | Plus => Some (i_abs value)
  | Minus => u256_add (u256_not (i_abs value)) 1
  end.

Definition I256_div (self other : I256) : option I256 :=
  if decide (other = I256_zero) then Some I256_zero
  else
    min_value ← I256_min_value;
    if decide (self = min_value ∧ i_abs other = 1) then Some min_value
    else
      q ← u256_div (i_abs self) (i_abs other);
      let d := Z.land q SIGN_BIT_MASK in
      if d =? 0 then Some I256_zero
      else
        Some (match i_sign self, i_sign other with
              | Zero, Plus | Plus, Zero | Zero, Zero | Plus, Plus | Minus, Minus => mkI256 Plus d
              | Zero, Minus | Plus, Minus | Minus, Zero | Minus, Plus => mkI256 Minus d
              end).

Definition I256_rem (self other : I256) : option I256 :=
  q ← u256_rem (i_abs self) (i_abs other);
  let r := Z.land q SIGN_BIT_MASK in
  if r =? 0 then Some I256_zero else Some (mkI256 (i_sign self) r).

(** ** eval/arithmetic.rs *)
Module arithmetic.

Definition div (op1 op2 : Z) : option Z := if op2 =? 0 then Some 0 else u256_div op1 op2.

Definition sdiv (op1 op2 : Z) : option Z :=
  op1 ← I256_from op1;
  op2 ← I256_from op2;
  ret ← I256_div op1 op2;
  I256_into ret.

Definition rem (op1 op2 : Z) : option Z := if op2 =? 0 then Some 0 else u256_rem op1 op2.

Definition srem (op1 op2 : Z) : option Z :=
  if op2 =? 0 then Some 0
  else
    op1 ← I256_from op1;
    op2 ← I256_from op2;
    ret ← I256_rem op1 op2;
    I256_into ret.

Definition addmod (op1 op2 op3 : Z) : option Z :=
  if op3 =? 0 then Some 0
  else v ← u512_add op1 op2; u512_try_into (v mod op3).

Definition mulmod (op1 op2 op3 : Z) : option Z :=
  if op3 =? 0 then Some 0
  else v ← u512_mul op1 op2; u512_try_into (v mod op3).

(** The loop halves the exponent, so 256 rounds are enough ([exp_loop_spec]). *)
Fixpoint exp_loop (fuel : nat) (op1 op2 r : Z) : Z :=
  match fuel with
  | O => r
  | S fuel' =>
      if op2 =? 0 then r
      else
        let r' := if Z.land op2 1 =? 0 then r else overflowing_mul r op1 in
        exp_loop fuel' (overflowing_mul op1 op1) (u256_shr op2 1) r'
  end.

Definition exp (op1 op2 : Z) : Z := exp_loop 256 op1 op2 1.

Definition signextend (op1 op2 : Z) : option Z :=
  if op1 <? 32 then
    let bit_index := 8 * op1 + 7 in
    let bit := Z.testbit op2 bit_index in
    mask ← u256_sub (u256_shl 1 bit_index) 1;
    Some (if bit then Z.lor op2 (u256_not mask) else Z.land op2 mask)
  else Some op2.
End arithmetic.

(** ** eval/bitwise.rs *)
Module bitwise.

Definition slt (op1 op2 : Z) : option Z :=
  op1 ← I256_from op1;
  op2 ← I256_from op2;
  Some (match I256_cmp op1 op2 with Lt => 1 | _ => 0 end).

Definition sgt (op1 op2 : Z) : option Z :=
  op1 ← I256_from op1;
  op2 ← I256_from op2;
  Some (match I256_cmp op1 op2 with Gt => 1 | _ => 0 end).

Definition iszero (op1 : Z) : Z := if op1 =? 0 then 1 else 0.

Definition not (op1 : Z) : Z := u256_not op1.

Definition byte_step (op1 op2 : Z) (ret : Z) (n : nat) : Z :=
  let i := Z.of_nat n in
  if (i <? 8) && (op1 <? 32) then
    let t := 255 - (7 - i + 8 * op1) in
    let bit_mask := u256_shl 1 t in
    let value := u256_shr (Z.land op2 bit_mask) t in
    overflowing_add ret (u256_shl value i)
  else ret.

Definition byte (op1 op2 : Z) : Z := foldl (byte_step op1 op2) 0 (seq 0 256).

Definition shl (shift value : Z) : Z :=
  if (value =? 0) || (256 <=? shift) then 0 else u256_shl value shift.

Definition shr (shift value : Z) : Z :=
  if (value =? 0) || (256 <=? shift) then 0 else u256_shr value shift.

Definition sar (shift value : Z) : option Z :=
  value ← I256_from value;
  if decide (value = I256_zero ∨ 256 <= shift) then
    match i_sign value with
    | Plus | Zero => Some 0
    | Minus => I256_into (mkI256 Minus 1)
    end
  else
    match i_sign value with
    | Plus | Zero => Some (u256_shr (i_abs value) shift)
    | Minus =>
        let shifted := overflowing_add (u256_shr (overflowing_sub (i_abs value) 1) shift) 1 in
        I256_into (mkI256 Minus shifted)
    end.
End bitwise.

(** ** Reference meaning: two's complement *)

Definition u256_half : Z := 0x8000000000000000000000000000000000000000000000000000000000000000.

Definition to_signed (x : Z) : Z := if x <? u256_half then x else x - u256_modulus.

(** The value of the low [b] bits of [x], read in two's complement. *)
Definition to_signed_at (b x : Z) : Z :=
  let m := x mod 2 ^ b in if m <? 2 ^ (b - 1) then m else m - 2 ^ b.

Definition bool_word (b : bool) : Z := if b then 1 else 0.

(** ** Lemmas: signed words *)

Lemma u256_modulus_pow : u256_modulus = 2 ^ 256.
Proof. reflexivity. Qed.

Lemma u256_half_pow : u256_half = 2 ^ 255.
Proof. reflexivity. Qed.

Lemma land_mask x : Z.land x SIGN_BIT_MASK = x mod u256_half.
Proof. change SIGN_BIT_MASK with (Z.ones 255). by rewrite Z.land_ones by lia. Qed.

Lemma I256_min_value_eq : I256_min_value = Some (mkI256 Minus u256_half).
Proof. reflexivity. Qed.

Ltac word_lia := unfold word, u256_modulus, u256_half, U256_MAX in *; lia.

Lemma u256_wrap_range x : word (u256_wrap x).
Proof. by apply Z.mod_pos_bound. Qed.

Lemma u256_wrap_small x : word x -> u256_wrap x = x.
Proof. apply Z.mod_small. Qed.

Lemma u256_wrap_add_modulus x : u256_wrap (x + u256_modulus) = u256_wrap x.
Proof. unfold u256_wrap. rewrite <- (Z.mul_1_l u256_modulus) at 1. by apply Z.mod_add. Qed.

(** A negative number of small magnitude wraps to its two's complement. *)
Lemma u256_wrap_neg x : 0 < x <= u256_modulus -> u256_wrap (- x) = u256_modulus - x.
Proof.
  intros H. rewrite <- u256_wrap_add_modulus. rewrite u256_wrap_small; word_lia.
Qed.

Lemma to_signed_range x : word x -> - u256_half <= to_signed x < u256_half.
Proof. unfold to_signed. destruct (Z.ltb_spec x u256_half); word_lia. Qed.

Lemma u256_wrap_to_signed x : word x -> u256_wrap (to_signed x) = x.
Proof.
  intros H. unfold to_signed. destruct (Z.ltb_spec x u256_half); [by apply u256_wrap_small|].
  rewrite <- u256_wrap_add_modulus, Z.sub_add. by apply u256_wrap_small.
Qed.

(** The sign-and-magnitude form the source computes with, and the integer it
    denotes. *)
Definition I256_value (i : I256) : Z :=
  match i_sign i with Zero => 0 | Plus => i_abs i | Minus => - i_abs i end.

Definition I256_wf (i : I256) : Prop :=
  match i_sign i with
  | Zero => i_abs i = 0
  | Plus => 0 < i_abs i < u256_half
  | Minus => 0 < i_abs i <= u256_half
  end.

Lemma I256_from_spec x :
  word x -> exists i, I256_from x = Some i ∧ I256_wf i ∧ I256_value i = to_signed x.
Proof.
  intros Hx. unfold I256_from, to_signed. rewrite land_mask.
  destruct (Z.eqb_spec x 0) as [->|H0]; [by eexists|].
  destruct (Z.ltb_spec x u256_half).
  - rewrite Z.mod_small, Z.eqb_refl by word_lia. eexists. split_and!; [done| |done]. unfold I256_wf. cbn [i_sign i_abs]. word_lia.
  - destruct (Z.eqb_spec (x mod u256_half) x) as [E|_].
    { pose proof (Z.mod_pos_bound x u256_half). word_lia. }
    unfold u256_add, u256_checked_add, u256_not.
    destruct (Z.ltb_spec (U256_MAX - x + 1) u256_modulus); [|word_lia].
    eexists. split_and!; [done| |]; unfold I256_wf, I256_value; cbn [i_sign i_abs]; word_lia.
Qed.

Lemma I256_into_spec i :
  I256_wf i ∨ (i_sign i = Minus ∧ 0 < i_abs i <= u256_modulus) -> I256_into i = Some (u256_wrap (I256_value i)).
Proof.
  destruct i as [[] a]; unfold I256_into, I256_wf, I256_value; cbn [i_sign i_abs]; intros H.
  - rewrite u256_wrap_small; [done|]. destruct H as [H|[? _]]; [word_lia|done].
  - assert (0 < a <= u256_modulus) by (destruct H as [H|[_ H]]; word_lia).
    rewrite u256_wrap_neg by done. unfold u256_add, u256_checked_add, u256_not.
    destruct (Z.ltb_spec (U256_MAX - a + 1) u256_modulus); [f_equal|]; word_lia.
  - by destruct H as [->|[? _]].
Qed.

Lemma I256_cmp_spec x y : I256_wf x -> I256_wf y -> I256_cmp x y = (I256_value x ?= I256_value y).
Proof.
  destruct x as [[] a], y as [[] b]; unfold I256_cmp, I256_wf, I256_value; cbn [i_sign i_abs]; intros Hx Hy;
    symmetry; try done; try (apply Z.compare_lt_iff; lia); try (apply Z.compare_gt_iff; lia).
  rewrite Z.compare_opp. apply Z.compare_antisym.
Qed.

(** Truncated division and remainder of sign-and-magnitude numbers. *)
Lemma I256_value_quot x y :
  I256_wf x -> I256_wf y -> i_sign y ≠ Zero ->
  Z.quot (I256_value x) (I256_value y) =
    (if decide (i_sign x = i_sign y) then i_abs x / i_abs y else - (i_abs x / i_abs y)) ∧
  Z.rem (I256_value x) (I256_value y) =
    (if decide (i_sign x = Minus) then - (i_abs x mod i_abs y) else i_abs x mod i_abs y).
Proof.
  destruct x as [[] a], y as [[] b]; unfold I256_wf, I256_value; cbn [i_sign i_abs]; intros Hx Hy Hs;
    try done; repeat case_decide; try done; try (subst a; rewrite Zdiv_0_l, Zmod_0_l; by destruct b);
    rewrite ?Z.quot_opp_opp, ?Z.quot_opp_l, ?Z.quot_opp_r, ?Z.rem_opp_opp, ?Z.rem_opp_l, ?Z.rem_opp_r by lia;
    rewrite Z.quot_div_nonneg, Z.rem_mod_nonneg by lia; done.
Qed.

Lemma I256_div_spec x y :
  I256_wf x -> I256_wf y ->
  exists r, I256_div x y = Some r ∧ I256_wf r ∧
    u256_wrap (I256_value r) =
      u256_wrap (if decide (I256_value y = 0) then 0 else Z.quot (I256_value x) (I256_value y)).
Proof.
  intros Hx Hy. unfold I256_div. rewrite I256_min_value_eq. cbn [mbind option_bind].
  destruct (decide (y = I256_zero)) as [->|Hz]; [by eexists|].
  assert (i_sign y ≠ Zero ∧ 0 < i_abs y) as [Hs Hpos].
  { destruct y as [[] b]; unfold I256_wf in Hy; cbn [i_sign i_abs] in *; [split; [done|lia]..|]. by subst. }
  rewrite (decide_False (P := I256_value y = 0)); [|destruct y as [[] b]; unfold I256_value; simpl in *; try lia; done].
  destruct (I256_value_quot x y Hx Hy Hs) as [-> _].
  assert (0 <= i_abs x) by (destruct x as [[] a]; unfold I256_wf in Hx; cbn [i_sign i_abs] in *; lia).
  case_decide as Hm.
  { destruct Hm as [-> Hb]. eexists. split_and!; [done|by unfold I256_wf|]. cbn [i_sign i_abs].
    rewrite Hb, Z.div_1_r. case_decide; [|done]. reflexivity. }
  unfold u256_div. destruct (Z.eqb_spec (i_abs y) 0); [lia|]. cbn [mbind option_bind].
  rewrite land_mask. assert (0 <= i_abs x / i_abs y) by (apply Z.div_pos; lia).
  assert (i_abs x / i_abs y < u256_half) as Hlt.
  { apply Z.div_lt_upper_bound; [done|]. destruct x as [[] a]; unfold I256_wf in Hx; cbn [i_sign i_abs] in *; [word_lia| |word_lia].
    destruct (decide (a = u256_half)) as [->|]; [|word_lia]. assert (i_abs y ≠ 1) by (intros ?; by apply Hm). word_lia. }
  rewrite Z.mod_small by done.
  destruct (Z.eqb_spec (i_abs x / i_abs y) 0) as [->|]; [exists I256_zero; split_and!; [done..|by case_decide]|].
  destruct x as [sx a], y as [sy b]; cbn [i_sign i_abs] in *.
  eexists. split_and!; [done| |]; destruct sx, sy; try done; unfold I256_wf, I256_value in *; cbn [i_sign i_abs] in *;
    try lia; subst; by rewrite ?Zdiv_0_l in *.
Qed.

Lemma I256_rem_spec x y :
  I256_wf x -> I256_wf y -> I256_value y ≠ 0 ->
  exists r, I256_rem x y = Some r ∧ I256_wf r ∧ I256_value r = Z.rem (I256_value x) (I256_value y).
Proof.
  intros Hx Hy Hn.
  assert (i_sign y ≠ Zero ∧ 0 < i_abs y <= u256_half) as [Hs Hpos].
  { destruct y as [[] b]; unfold I256_wf, I256_value in *; cbn [i_sign i_abs] in *; [split; [done|lia]..|done]. }
  destruct (I256_value_quot x y Hx Hy Hs) as [_ ->]. unfold I256_rem, u256_rem.
  destruct (Z.eqb_spec (i_abs y) 0); [lia|]. cbn [mbind option_bind]. rewrite land_mask.
  pose proof (Z.mod_pos_bound (i_abs x) (i_abs y)).
  rewrite (Z.mod_small (i_abs x mod i_abs y)) by lia.
  destruct (Z.eqb_spec (i_abs x mod i_abs y) 0) as [E|]; [rewrite E; exists I256_zero; split_and!; [done..|by case_decide]|].
  destruct x as [sx a]; cbn [i_sign i_abs] in *.
  eexists. split_and!; [done| |]; destruct sx; unfold I256_wf, I256_value in *; cbn [i_sign i_abs] in *;
    try done; try lia; subst; by rewrite Zmod_0_l in *.
Qed.

(** ** Lemmas: shifts, masks and powers *)

Lemma pow2_word s : 0 <= s < 256 -> 0 < 2 ^ s < u256_modulus.
Proof.
  intros Hs. split; [by apply Z.pow_pos_nonneg; lia|].
  rewrite u256_modulus_pow. apply Z.pow_lt_mono_r; lia.
Qed.

Lemma u256_shl_1 s : 0 <= s < 256 -> u256_shl 1 s = 2 ^ s.
Proof.
  intros Hs. unfold u256_shl. rewrite Z.shiftl_1_l. apply u256_wrap_small.
  pose proof (pow2_word s Hs). unfold word. lia.
Qed.

Lemma pow2_ge_modulus s : 256 <= s -> exists k, 0 < k ∧ 2 ^ s = k * u256_modulus.
Proof.
  intros Hs. exists (2 ^ (s - 256)). split; [apply Z.pow_pos_nonneg; lia|].
  rewrite u256_modulus_pow, <- Z.pow_add_r by lia. f_equal. lia.
Qed.

Lemma land_1 x : Z.land x 1 = x mod 2.
Proof. by apply (Z.land_ones x 1). Qed.

Lemma exp_loop_spec fuel a b r :
  0 <= b < 2 ^ Z.of_nat fuel -> word r -> arithmetic.exp_loop fuel a b r = u256_wrap (r * a ^ b).
Proof.
  revert a b r. induction fuel as [|fuel IH]; intros a b r Hb Hr.
  { simpl in *. assert (b = 0) as -> by lia. by rewrite Z.mul_1_r, u256_wrap_small. }
  cbn [arithmetic.exp_loop]. destruct (Z.eqb_spec b 0) as [->|Hn].
  { by rewrite Z.mul_1_r, u256_wrap_small. }
  rewrite land_1. unfold u256_shr. rewrite Z.shiftr_div_pow2 by lia. change (2 ^ 1) with 2.
  rewrite Nat2Z.inj_succ, Z.pow_succ_r in Hb by lia.
  rewrite IH; [|split; [apply Z.div_pos; lia|apply Z.div_lt_upper_bound; lia]|].
  2: { case_match; [done|apply u256_wrap_range]. }
  assert (b = 2 * (b / 2) + b mod 2) as E by (apply Z.div_mod; lia).
  pose proof (Z.mod_pos_bound b 2). assert (0 <= b / 2) by (apply Z.div_pos; lia).
  rewrite E at 3. rewrite Z.pow_add_r, Z.pow_mul_r by lia. rewrite (Z.pow_2_r a).
  unfold overflowing_mul, u256_wrap.
  rewrite <- Z.mul_mod_idemp_r, <- Zpower_mod, Z.mul_mod_idemp_r by done.
  destruct (Z.eqb_spec (b mod 2) 0) as [->|]; [by rewrite Z.mul_1_r|].
  assert (b mod 2 = 1) as -> by lia. rewrite Z.mul_mod_idemp_l by done. f_equal. ring.
Qed.

Lemma not_mask s : 0 <= s < 256 -> u256_not (2 ^ s - 1) = Z.shiftl (Z.ones (256 - s)) s.
Proof.
  intros Hs. unfold u256_not. rewrite Z.shiftl_mul_pow2, Z.ones_equiv by lia. unfold Z.pred.
  rewrite Z.mul_add_distr_r, <- Z.pow_add_r, Z.sub_add by lia.
  change (2 ^ 256) with u256_modulus. word_lia.
Qed.

Lemma lor_not_mask x s :
  word x -> 0 <= s < 256 -> Z.lor x (u256_not (2 ^ s - 1)) = u256_modulus - 2 ^ s + x mod 2 ^ s.
Proof.
  intros Hx Hs.
  transitivity (u256_not (2 ^ s - 1) + x mod 2 ^ s); [|unfold u256_not; word_lia].
  rewrite not_mask, <- Z.land_ones by lia.
  set (N := Z.shiftl (Z.ones (256 - s)) s).
  assert (forall n, 0 <= n -> Z.testbit N n = if decide (s <= n < 256) then true else false) as HN.
  { intros n Hn. unfold N. rewrite Z.shiftl_spec by lia. case_decide.
    - apply Z.ones_spec_low. lia.
    - destruct (decide (n < s)); [apply Z.testbit_neg_r|apply Z.ones_spec_high]; lia. }
  assert (Z.land N (Z.land x (Z.ones s)) = 0) as Hd.
  { apply Z.bits_inj'. intros n Hn. rewrite !Z.land_spec, HN, Z.bits_0 by done. case_decide; [|done].
    rewrite Z.ones_spec_high by lia. apply andb_false_r. }
  rewrite Z.add_nocarry_lxor, Z.lxor_lor by done.
  apply Z.bits_inj'. intros n Hn. rewrite !Z.lor_spec, Z.land_spec, HN by done.
  destruct (decide (n < s)).
  - rewrite decide_False, Z.ones_spec_low by lia. by destruct (Z.testbit x n).
  - rewrite (Z.ones_spec_high s), andb_false_r by lia. case_decide; [by rewrite orb_true_r|].
    rewrite !orb_false_r. destruct Hx as [Hx Hx']. apply (Z.bits_above_log2 x n); [lia|].
    destruct (decide (x = 0)) as [->|]; [simpl; lia|]. apply Z.log2_lt_pow2; [lia|].
    apply Z.lt_le_trans with (2 ^ 256); [done|]. apply Z.pow_le_mono_r; lia.
Qed.

Lemma signextend_spec k x :
  word k -> word x ->
  arithmetic.signextend k x = Some (if k <? 32 then u256_wrap (to_signed_at (8 * (k + 1)) x) else x).
Proof.
  intros Hk Hx. unfold arithmetic.signextend. destruct (Z.ltb_spec k 32); [|done].
  set (s := 8 * k + 7). assert (0 <= s < 256) as Hs by (unfold word in Hk; lia).
  pose proof (pow2_word s Hs) as Hp.
  unfold u256_sub. rewrite u256_shl_1 by done. destruct (Z.leb_spec 1 (2 ^ s)); [|lia].
  cbn [mbind option_bind]. f_equal. unfold to_signed_at.
  replace (8 * (k + 1)) with (s + 1) by lia. rewrite Z.add_simpl_r.
  assert (x mod 2 ^ (s + 1) = x mod 2 ^ s + 2 ^ s * (x / 2 ^ s mod 2)) as Em.
  { rewrite Z.pow_add_r by lia. apply Z.rem_mul_r; lia. }
  rewrite Z.testbit_odd, Z.shiftr_div_pow2 by lia.
  pose proof (Z.mod_pos_bound x (2 ^ s)). rewrite Em.
  rewrite (Zmod_odd (x / 2 ^ s)). destruct (Z.odd (x / 2 ^ s)).
  - destruct (Z.ltb_spec (x mod 2 ^ s + 2 ^ s * 1) (2 ^ s)); [lia|].
    rewrite lor_not_mask by done. rewrite Z.pow_add_r by lia. change (2 ^ 1) with 2.
    rewrite <- u256_wrap_add_modulus, u256_wrap_small; [lia|]. unfold word. lia.
  - rewrite Z.mul_0_r, Z.add_0_r. destruct (Z.ltb_spec (x mod 2 ^ s) (2 ^ s)); [|lia].
    rewrite u256_wrap_small by (unfold word; lia).
    rewrite <- Z.land_ones by lia. by rewrite Z.ones_equiv.
Qed.

Lemma bit_at x t : 0 <= t < 256 -> u256_shr (Z.land x (u256_shl 1 t)) t = x / 2 ^ t mod 2.
Proof.
  intros Ht. unfold u256_shr. rewrite u256_shl_1 by done. rewrite Z.shiftr_land.
  rewrite <- (Z.shiftl_1_l t), Z.shiftr_shiftl_l, Z.sub_diag, Z.shiftl_0_r by lia.
  by rewrite land_1, Z.shiftr_div_pow2, ?Z.shiftl_1_l by lia.
Qed.

Lemma byte_low_bits o x n :
  0 <= o < 32 -> (n <= 8)%nat ->
  foldl (bitwise.byte_step o x) 0 (seq 0 n) = x / 2 ^ (248 - 8 * o) mod 2 ^ Z.of_nat n.
Proof.
  intros Ho. induction n as [|n IH]; intros Hn; [by rewrite Z.mod_1_r|].
  rewrite seq_S, foldl_app, IH by lia. cbn [foldl]. rewrite Nat.add_0_l. unfold bitwise.byte_step.
  destruct (Z.ltb_spec (Z.of_nat n) 8); [|lia]. destruct (Z.ltb_spec o 32); [|lia]. cbn [andb].
  rewrite bit_at by lia. set (y := x / 2 ^ (248 - 8 * o)).
  replace (255 - (7 - Z.of_nat n + 8 * o)) with (248 - 8 * o + Z.of_nat n) by lia.
  rewrite Z.pow_add_r, <- Zdiv_Zdiv by (try apply Z.pow_nonneg; lia). fold y.
  rewrite Nat2Z.inj_succ, Z.pow_succ_r, (Z.mul_comm 2), (Z.rem_mul_r y) by (try apply Z.pow_nonzero; lia).
  pose proof (Z.mod_pos_bound (y / 2 ^ Z.of_nat n) 2 ltac:(lia)).
  destruct (pow2_word (Z.of_nat n) ltac:(lia)) as [Hp _].
  pose proof (Z.mod_pos_bound y (2 ^ Z.of_nat n) Hp).
  assert (2 ^ Z.of_nat n <= 256) by (change 256 with (2 ^ 8); apply Z.pow_le_mono_r; lia).
  unfold u256_shl, overflowing_add. rewrite Z.shiftl_mul_pow2 by lia.
  assert (y / 2 ^ Z.of_nat n mod 2 = 0 ∨ y / 2 ^ Z.of_nat n mod 2 = 1) as [->| ->] by lia;
    rewrite ?Z.mul_0_l, ?Z.mul_1_l; rewrite (u256_wrap_small 0) || rewrite (u256_wrap_small (2 ^ _)); try rewrite u256_wrap_small; unfold word, u256_modulus; lia.
Qed.

Lemma byte_spec o x :
  word o -> bitwise.byte o x = if o <? 32 then x / 256 ^ (31 - o) mod 256 else 0.
Proof.
  intros Ho. unfold bitwise.byte. change 256%nat with (8 + 248)%nat. rewrite seq_app, foldl_app.
  assert (forall l r, (forall n, n ∈ l -> (8 <= n)%nat) -> foldl (bitwise.byte_step o x) r l = r) as Hid.
  { induction l as [|n l IH]; intros r Hl; [done|]. cbn [foldl]. rewrite IH by (intros; apply Hl; by right).
    unfold bitwise.byte_step. destruct (Z.ltb_spec (Z.of_nat n) 8); [|done]. specialize (Hl n). set_solver by lia. }
  rewrite (Hid (seq _ _)) by (intros n Hn%elem_of_seq; lia).
  destruct (Z.ltb_spec o 32) as [Hlt|Hge].
  - rewrite byte_low_bits by (unfold word in Ho; lia). change 256 with (2 ^ 8) at 1. destruct Ho.
    rewrite <- Z.pow_mul_r by lia. do 3 f_equal. lia.
  - generalize (seq 0 8). intros l. induction l as [|n l IH] using rev_ind; [done|].
    rewrite foldl_app, IH. cbn [foldl]. unfold bitwise.byte_step.
    destruct (Z.ltb_spec o 32); [lia|]. by rewrite andb_false_r.
Qed.

Lemma shl_spec s x : word s -> bitwise.shl s x = u256_wrap (x * 2 ^ s).
Proof.
  intros [Hs _]. unfold bitwise.shl. destruct (Z.eqb_spec x 0) as [->|]; [done|].
  destruct (Z.leb_spec 256 s) as [H|]; cbn [orb].
  - destruct (pow2_ge_modulus s H) as (k & _ & ->). unfold u256_wrap. by rewrite Z.mul_assoc, Z.mod_mul.
  - unfold u256_shl. by rewrite Z.shiftl_mul_pow2 by lia.
Qed.

Lemma shr_spec s x : word s -> word x -> bitwise.shr s x = x / 2 ^ s.
Proof.
  intros [Hs _] Hx. unfold bitwise.shr. destruct (Z.eqb_spec x 0) as [->|]; [by rewrite Zdiv_0_l|].
  destruct (Z.leb_spec 256 s) as [H|]; cbn [orb].
  - destruct (pow2_ge_modulus s H) as (k & Hk & ->). rewrite Z.div_small; [done|]. unfold word in Hx. nia.
  - unfold u256_shr. by rewrite Z.shiftr_div_pow2 by lia.
Qed.

Lemma div_neg a m : 0 < m -> - a / m = - ((a - 1) / m + 1).
Proof.
  intros Hm. symmetry. apply (Z.div_unique_pos _ _ _ (m - 1 - (a - 1) mod m)).
  - pose proof (Z.mod_pos_bound (a - 1) m). lia.
  - pose proof (Z.div_mod (a - 1) m). nia.
Qed.

Lemma sar_spec s x : word s -> word x -> bitwise.sar s x = Some (u256_wrap (to_signed x / 2 ^ s)).
Proof.
  intros [Hs _] Hx. unfold bitwise.sar. destruct (I256_from_spec x Hx) as (i & -> & Hi & <-).
  cbn [mbind option_bind]. assert (0 < 2 ^ s) as Hp by (apply Z.pow_pos_nonneg; lia).
  destruct i as [sg a]. case_decide as Hc.
  - assert (a < 2 ^ s ∨ sg = Zero) as Ha.
    { destruct Hc as [[= -> ->]|H]; [by right|]. left. destruct (pow2_ge_modulus s H) as (k & Hk & ->).
      destruct sg; unfold I256_wf in Hi; cbn [i_sign i_abs] in Hi; word_lia. }
    destruct sg; unfold I256_wf, I256_value in *; cbn [i_sign i_abs] in *.
    + destruct Ha; [|done]. rewrite Z.div_small; [done|lia].
    + destruct Ha; [|done]. rewrite div_neg, Z.div_small by lia. reflexivity.
    + by rewrite Zdiv_0_l.
  - destruct sg; unfold I256_wf, I256_value in *; cbn [i_sign i_abs] in *; unfold u256_shr.
    + rewrite Z.shiftr_div_pow2 by lia. rewrite u256_wrap_small; [done|]. split; [apply Z.div_pos; lia|].
      apply Z.div_lt_upper_bound; word_lia.
    + unfold overflowing_sub, overflowing_add. rewrite (u256_wrap_small (a - 1)) by word_lia.
      rewrite Z.shiftr_div_pow2, div_neg by lia. assert (0 <= (a - 1) / 2 ^ s <= a - 1).
      { split; [apply Z.div_pos; lia|]. apply Z.div_le_upper_bound; nia. }
      rewrite (u256_wrap_small (_ + 1)) by word_lia.
      rewrite I256_into_spec; [done|]. right. cbn [i_sign i_abs]. split; [done|word_lia].
    + subst a. destruct Hc. by left.
Qed.

Lemma sdiv_spec a b :
  word a -> word b ->
  arithmetic.sdiv a b =
    Some (u256_wrap (if to_signed b =? 0 then 0 else Z.quot (to_signed a) (to_signed b))).
Proof.
  intros Ha Hb. destruct (I256_from_spec a Ha) as (i & Ei & Hi & Vi).
  destruct (I256_from_spec b Hb) as (j & Ej & Hj & Vj). unfold arithmetic.sdiv.
  rewrite Ei, Ej. cbn [mbind option_bind]. destruct (I256_div_spec i j Hi Hj) as (r & -> & Hr & Er).
  cbn [mbind option_bind]. rewrite I256_into_spec, Er, Vi, Vj by auto.
  clear Er. destruct (Z.eqb_spec (to_signed b) 0); by case_decide.
Qed.

Lemma srem_spec a b :
  word a -> word b ->
  arithmetic.srem a b =
    Some (u256_wrap (if b =? 0 then 0 else Z.rem (to_signed a) (to_signed b))).
Proof.
  intros Ha Hb. destruct (I256_from_spec a Ha) as (i & Ei & Hi & Vi).
  destruct (I256_from_spec b Hb) as (j & Ej & Hj & Vj). unfold arithmetic.srem.
  destruct (Z.eqb_spec b 0) as [|Hn]; [done|]. rewrite Ei, Ej. cbn [mbind option_bind].
  destruct (I256_rem_spec i j Hi Hj) as (r & -> & Hr & Er).
  { rewrite Vj. intros E. apply Hn. by rewrite <- (u256_wrap_to_signed b Hb), E. }
  cbn [mbind option_bind]. by rewrite I256_into_spec, Er, Vi, Vj by auto.
Qed.

Lemma addmod_spec a b m :
  word a -> word b -> word m ->
  arithmetic.addmod a b m = Some (if m =? 0 then 0 else (a + b) mod m).
Proof.
  intros Ha Hb Hm. unfold arithmetic.addmod, u512_add, u512_try_into. destruct (Z.eqb_spec m 0); [done|].
  destruct (Z.ltb_spec (a + b) u512_modulus).
  2: { unfold word, u512_modulus, u256_modulus in *. lia. }
  cbn [mbind option_bind]. pose proof (Z.mod_pos_bound (a + b) m).
  destruct (Z.ltb_spec ((a + b) mod m) u256_modulus); [done|word_lia].
Qed.

Lemma mulmod_spec a b m :
  word a -> word b -> word m ->
  arithmetic.mulmod a b m = Some (if m =? 0 then 0 else (a * b) mod m).
Proof.
  intros Ha Hb Hm. unfold arithmetic.mulmod, u512_mul, u512_try_into. destruct (Z.eqb_spec m 0); [done|].
  destruct (Z.ltb_spec (a * b) u512_modulus).
  2: { unfold word, u512_modulus in *. nia. }
  cbn [mbind option_bind]. pose proof (Z.mod_pos_bound (a * b) m).
  destruct (Z.ltb_spec ((a * b) mod m) u256_modulus); [done|word_lia].
Qed.

Lemma exp_spec a b : word b -> arithmetic.exp a b = u256_wrap (a ^ b).
Proof. intros Hb. unfold arithmetic.exp. rewrite exp_loop_spec; [by rewrite Z.mul_1_l|exact Hb|done]. Qed.

Lemma slt_spec a b :
  word a -> word b -> bitwise.slt a b = Some (bool_word (to_signed a <? to_signed b)).
Proof.
  intros Ha Hb. destruct (I256_from_spec a Ha) as (i & Ei & Hi & Vi).
  destruct (I256_from_spec b Hb) as (j & Ej & Hj & Vj). unfold bitwise.slt. rewrite Ei, Ej.
  cbn [mbind option_bind]. rewrite I256_cmp_spec, Vi, Vj by done. unfold Z.ltb. by destruct (_ ?= _).
Qed.

Lemma sgt_spec a b :
  word a -> word b -> bitwise.sgt a b = Some (bool_word (to_signed b <? to_signed a)).
Proof.
  intros Ha Hb. destruct (I256_from_spec a Ha) as (i & Ei & Hi & Vi).
  destruct (I256_from_spec b Hb) as (j & Ej & Hj & Vj). unfold bitwise.sgt. rewrite Ei, Ej.
  cbn [mbind option_bind]. rewrite I256_cmp_spec, Vi, Vj by done. unfold Z.ltb.
  rewrite (Z.compare_antisym (to_signed a)). by destruct (_ ?= _).
Qed.

(** ** Closure of words under the opcodes *)

Lemma word_bits x : word x ↔ Z.land x (Z.ones 256) = x.
Proof.
  rewrite Z.land_ones by lia. change (2 ^ 256) with u256_modulus. split; [apply Z.mod_small|].
  intros <-. by apply Z.mod_pos_bound.
Qed.

Lemma word_land a b : word a -> word b -> word (Z.land a b).
Proof. rewrite !word_bits. intros _ Hb. by rewrite <- Z.land_assoc, Hb. Qed.
Lemma word_lor a b : word a -> word b -> word (Z.lor a b).
Proof. rewrite !word_bits. intros Ha Hb. by rewrite Z.land_lor_distr_l, Ha, Hb. Qed.
Lemma word_lxor a b : word a -> word b -> word (Z.lxor a b).
Proof.
  rewrite !word_bits. intros Ha Hb. apply Z.bits_inj'. intros n Hn.
  apply (f_equal (fun z => Z.testbit z n)) in Ha, Hb. rewrite Z.land_spec in Ha, Hb.
  rewrite Z.land_spec, !Z.lxor_spec.
  by destruct (Z.testbit a n), (Z.testbit b n), (Z.testbit (Z.ones 256) n).
Qed.
Lemma word_not a : word a -> word (u256_not a).
Proof. unfold u256_not. word_lia. Qed.
Lemma word_bool (b : bool) : word (if b then 1 else 0).
Proof. by destruct b. Qed.
Lemma word_0 : word 0.
Proof. done. Qed.
Lemma word_div a b : word a -> word b -> b ≠ 0 -> word (a / b).
Proof.
  intros Ha Hb Hn. split; [apply Z.div_pos; word_lia|].
  apply Z.div_lt_upper_bound; unfold word in *; nia.
Qed.
Lemma word_mod a b : word b -> b ≠ 0 -> word (a mod b).
Proof. intros Hb Hn. pose proof (Z.mod_pos_bound a b). word_lia. Qed.

#[export] Hint Resolve u256_wrap_range word_land word_lor word_lxor word_not word_bool word_0
  word_div word_mod : chase.

(** Every opcode of one result maps words to a word, without panic. *)
Definition words2 (op : Z -> Z -> option Z) : Prop :=
  forall a b, word a -> word b -> exists r, op a b = Some r ∧ word r.

Lemma words2_div : words2 arithmetic.div.
Proof. intros a b Ha Hb. unfold arithmetic.div, u256_div. destruct (Z.eqb_spec b 0); eauto with chase. Qed.
Lemma words2_rem : words2 arithmetic.rem.
Proof. intros a b Ha Hb. unfold arithmetic.rem, u256_rem. destruct (Z.eqb_spec b 0); eauto with chase. Qed.
Lemma words2_sdiv : words2 arithmetic.sdiv.
Proof. intros a b Ha Hb. rewrite sdiv_spec by done. eauto with chase. Qed.
Lemma words2_srem : words2 arithmetic.srem.
Proof. intros a b Ha Hb. rewrite srem_spec by done. eauto with chase. Qed.
Lemma words2_signextend : words2 arithmetic.signextend.
Proof. intros a b Ha Hb. rewrite signextend_spec by done. case_match; eauto with chase. Qed.
Lemma words2_slt : words2 bitwise.slt.
Proof. intros a b Ha Hb. rewrite slt_spec by done. eexists. split; [done|apply word_bool]. Qed.
Lemma words2_sgt : words2 bitwise.sgt.
Proof. intros a b Ha Hb. rewrite sgt_spec by done. eexists. split; [done|apply word_bool]. Qed.
Lemma words2_sar : words2 bitwise.sar.
Proof. intros a b Ha Hb. rewrite sar_spec by done. eauto with chase. Qed.
Lemma word_addmod a b m : word a -> word b -> word m -> exists r, arithmetic.addmod a b m = Some r ∧ word r.
Proof. intros Ha Hb Hm. rewrite addmod_spec by done. destruct (Z.eqb_spec m 0); eauto with chase. Qed.
Lemma word_mulmod a b m : word a -> word b -> word m -> exists r, arithmetic.mulmod a b m = Some r ∧ word r.
Proof. intros Ha Hb Hm. rewrite mulmod_spec by done. destruct (Z.eqb_spec m 0); eauto with chase. Qed.
Lemma word_byte a b : word a -> word b -> word (bitwise.byte a b).
Proof. intros Ha Hb. rewrite byte_spec by done. destruct (a <? 32); [by apply word_mod|done]. Qed.
Lemma word_shl a b : word a -> word (bitwise.shl a b).
Proof. intros Ha. rewrite shl_spec by done. auto with chase. Qed.
Lemma word_exp a b : word b -> word (arithmetic.exp a b).
Proof. intros Hb. rewrite exp_spec by done. auto with chase. Qed.
Lemma word_shr a b : word a -> word b -> word (bitwise.shr a b).
Proof.
  intros Ha Hb. rewrite shr_spec by done. destruct Ha as [Ha _].
  assert (0 < 2 ^ a) by (apply Z.pow_pos_nonneg; lia).
  split; [apply Z.div_pos; unfold word in Hb; lia|]. apply Z.div_lt_upper_bound; unfold word in Hb; nia.
Qed.

#[export] Hint Resolve words2_div words2_rem words2_sdiv words2_srem words2_signextend words2_slt
  words2_sgt words2_sar word_addmod word_mulmod word_byte word_shl word_shr word_exp : chase.

(** ** Theorems *)

(** C32. The arithmetic opcodes compute what their integers say, and none of the
    panicking operators they use can panic: unsigned and truncated signed division
    and remainder (zero for a zero divisor), sums and products modulo a third
    operand without intermediate overflow, powers modulo 2^256, and sign extension
    of the low bytes. *)
Theorem arithmetic_opcodes_correct a b m :
  word a -> word b -> word m ->
  arithmetic.div a b = Some (if b =? 0 then 0 else a / b) ∧
  arithmetic.sdiv a b =
    Some (u256_wrap (if to_signed b =? 0 then 0 else Z.quot (to_signed a) (to_signed b))) ∧
  arithmetic.rem a b = Some (if b =? 0 then 0 else a mod b) ∧
  arithmetic.srem a b =
    Some (u256_wrap (if b =? 0 then 0 else Z.rem (to_signed a) (to_signed b))) ∧
  arithmetic.addmod a b m = Some (if m =? 0 then 0 else (a + b) mod m) ∧
  arithmetic.mulmod a b m = Some (if m =? 0 then 0 else (a * b) mod m) ∧
  arithmetic.exp a b = u256_wrap (a ^ b) ∧
  arithmetic.signextend a b = Some (if a <? 32 then u256_wrap (to_signed_at (8 * (a + 1)) b) else b).
Proof.
  intros Ha Hb Hm. split_and!; auto using sdiv_spec, srem_spec, addmod_spec, mulmod_spec, exp_spec,
    signextend_spec; unfold arithmetic.div, arithmetic.rem, u256_div, u256_rem; by destruct (b =? 0).
Qed.

Lemma arithmetic_opcodes_correct_witness :
  arithmetic.sdiv (u256_wrap (-7)) 2 = Some (u256_wrap (-3)) ∧
  arithmetic.sdiv u256_half (u256_wrap (-1)) = Some u256_half ∧
  arithmetic.exp 3 5 = 243.
Proof.
  assert (word (u256_wrap (-7)) ∧ word 2 ∧ word u256_half ∧ word (u256_wrap (-1)) ∧ word 3 ∧ word 5) as (?&?&?&?&?&?)
    by (repeat split; vm_compute; congruence).
  destruct (arithmetic_opcodes_correct (u256_wrap (-7)) 2 2) as (_ & -> & _); [done..|].
  destruct (arithmetic_opcodes_correct u256_half (u256_wrap (-1)) 2) as (_ & -> & _); [done..|].
  destruct (arithmetic_opcodes_correct 3 5 2) as (_ & _ & _ & _ & _ & _ & -> & _); [done..|].
  repeat split; vm_compute; reflexivity.
Defined.

(** The comparison, byte and shift opcodes compute what their integers say and
    never panic: signed comparison, the [a]-th byte from the left, and left,
    logical right and arithmetic right shifts, for every shift distance, those of
    256 and more included. *)
Theorem bitwise_opcodes_correct a b :
  word a -> word b ->
  bitwise.slt a b = Some (bool_word (to_signed a <? to_signed b)) ∧
  bitwise.sgt a b = Some (bool_word (to_signed b <? to_signed a)) ∧
  bitwise.byte a b = (if a <? 32 then b / 256 ^ (31 - a) mod 256 else 0) ∧
  bitwise.shl a b = u256_wrap (b * 2 ^ a) ∧
  bitwise.shr a b = b / 2 ^ a ∧
  bitwise.sar a b = Some (u256_wrap (to_signed b / 2 ^ a)).
Proof.
  intros Ha Hb. split_and!; auto using slt_spec, sgt_spec, byte_spec, shl_spec, shr_spec, sar_spec.
Qed.

Lemma bitwise_opcodes_correct_witness :
  bitwise.sar 1 (u256_wrap (-5)) = Some (u256_wrap (-3)) ∧ bitwise.byte 30 0x1234 = 0x12.
Proof.
  assert (word 1 ∧ word (u256_wrap (-5)) ∧ word 30 ∧ word 0x1234) as (?&?&?&?)
    by (repeat split; vm_compute; congruence).
  destruct (bitwise_opcodes_correct 1 (u256_wrap (-5))) as (_ & _ & _ & _ & _ & ->); [done..|].
  destruct (bitwise_opcodes_correct 30 0x1234) as (_ & _ & -> & _); [done..|].
  split; vm_compute; reflexivity.
Defined.
