(* ===== verification/EvmCore.v ===== *)
(** * The EVM core machine

    src/crates/chase-evm/core/src: stack.rs, memory.rs, valids.rs, opcode.rs,
    eval/ and lib.rs ([Machine]).

    The machine executes the opcodes that need nothing but its own stack, memory,
    code and input; every other opcode leaves it as a trap.  Positions, sizes and
    memory offsets are [usize] values kept as integers.  The stack is the vector of
    the source with its top first.  Allocation is assumed to succeed. *)

From S2P Require Import Prelude Bytes Types EvmWord.
Local Open Scope Z_scope.
Local Open Scope chase_scope.

Definition usize_max : Z := u64_max.

(** ** Stack *)

Record Stack := mkStack { stk_data : list H256; stk_limit : Z }.

Definition Stack_new (limit : Z) : Stack := mkStack [] limit.

Definition Stack_pop (s : Stack) : Stack * Result H256 ExitError :=
  match stk_data s with
  | [] => (s, Err StackUnderflow)
  | x :: l => (mkStack l (stk_limit s), Ok x)
  end.

Definition Stack_push (s : Stack) (value : H256) : Stack * Result unit ExitError :=
  if stk_limit s <? Z.of_nat (length (stk_data s)) + 1 then (s, Err StackOverflow)
  else (mkStack (value :: stk_data s) (stk_limit s), Ok tt).

Definition Stack_peek (s : Stack) (no_from_top : nat) : Result H256 ExitError :=
  match stk_data s !! no_from_top with Some x => Ok x | None => Err StackUnderflow end.

Definition Stack_set (s : Stack) (no_from_top : nat) (val : H256) : Stack * Result unit ExitError :=
  match stk_data s !! no_from_top with
  | Some _ => (mkStack (<[no_from_top := val]> (stk_data s)) (stk_limit s), Ok tt)
  | None => (s, Err StackUnderflow)
  end.

(** ** Memory *)

Record Memory := mkMemory { mem_data : bytes; mem_effective_len : U256; mem_limit : Z }.

Definition Memory_new (limit : Z) : Memory := mkMemory [] 0 limit.

(** [x.low_u32().bitand(31).not().wrapping_add(1).bitand(31)], then a checked
    addition. *)
Definition next_multiple_of_32 (x : U256) : option U256 :=
  let r := Z.land ((u32_max - Z.land (x mod u32_modulus) 31) +u32 1) 31 in
  u256_checked_add x r.

Definition Memory_resize_end (m : Memory) (end_ : U256) : Result Memory ExitError :=
  if mem_effective_len m <? end_ then
    match next_multiple_of_32 end_ with
    | Some new_end => Ok (mkMemory (mem_data m) new_end (mem_limit m))
    | None => Err InvalidRange
    end
  else Ok m.

Definition Memory_resize_offset (m : Memory) (offset len : U256) : Result Memory ExitError :=
  if len =? 0 then Ok m
  else
    match u256_checked_add offset len with
    | Some end_ => Memory_resize_end m end_
    | None => Err InvalidRange
    end.

(** [data[position]] for a [usize] position, [None] when out of range. *)
Definition byte_at (data : bytes) (position : Z) : option Z :=
  if position <? Z.of_nat (length data) then data !! Z.to_nat position else None.

(** The loop of [get] over the remaining [n] indexes: it stops at the first
    position outside the data, and the rest of the result stays zero. *)
Fixpoint get_loop (n : nat) (data : bytes) (position : Z) : bytes :=
  match n with
  | O => []
  | S n' =>
      match byte_at data position with
      | Some b => b :: get_loop n' data (position +u64 1)
      | None => replicate n 0
      end
  end.

Definition Memory_get (m : Memory) (offset size : Z) : bytes :=
  get_loop (Z.to_nat size) (mem_data m) offset.

(** [data[offset..offset + len].clone_from_slice(v)] for a slice inside the data. *)
Definition write_slice (data : bytes) (offset : nat) (v : bytes) : bytes :=
  take offset data ++ v ++ drop (offset + length v) data.

Definition Memory_set (m : Memory) (offset : Z) (value : bytes) (target_size : option Z) :
    Memory * Result unit ExitFatal :=
  let target_size := default (Z.of_nat (length value)) target_size in
  if target_size =? 0 then (m, Ok tt)
  else if (u64_max <? offset + target_size) || (mem_limit m <? offset + target_size) then
    (m, Err NotSupported)
  else
    let off := Z.to_nat offset in
    let size := Z.to_nat target_size in
    let data := mem_data m ++ replicate (off + size - length (mem_data m)) 0 in
    let data :=
      if Z.of_nat (length value) <? target_size then
        write_slice (write_slice data off value) (off + length value)
          (replicate (size - length value) 0)
      else write_slice data off (take size value) in
    (mkMemory data (mem_effective_len m) (mem_limit m), Ok tt).

(** The part of [data] that [copy_large] copies. *)
Definition copy_source (data_offset len : U256) (data : bytes) : bytes :=
  match u256_checked_add data_offset len with
  | Some end_ =>
      if usize_max <? end_ then []
      else if Z.of_nat (length data) <? data_offset then []
      else
        drop (Z.to_nat data_offset)
          (take (Z.to_nat (Z.min end_ (Z.of_nat (length data)))) data)
  | None => []
  end.

Definition Memory_copy_large (m : Memory) (memory_offset data_offset len : U256) (data : bytes) :
    Memory * Result unit ExitFatal :=
  if len =? 0 then (m, Ok tt)
  else if usize_max <? memory_offset then (m, Err NotSupported)
  else if usize_max <? len then (m, Err NotSupported)
  else Memory_set m memory_offset (copy_source data_offset len data) (Some len).

(** ** Opcodes

    An opcode is its byte. *)
Module Opcode.
Definition STOP : Z := 0x00.
Definition ADD : Z := 0x01.
Definition MUL : Z := 0x02.
Definition SUB : Z := 0x03.
Definition DIV : Z := 0x04.
Definition SDIV : Z := 0x05.
Definition MOD : Z := 0x06.
Definition SMOD : Z := 0x07.
Definition ADDMOD : Z := 0x08.
Definition MULMOD : Z := 0x09.
Definition EXP : Z := 0x0a.
Definition SIGNEXTEND : Z := 0x0b.
Definition LT : Z := 0x10.
Definition GT : Z := 0x11.
Definition SLT : Z := 0x12.
Definition SGT : Z := 0x13.
Definition EQ : Z := 0x14.
Definition ISZERO : Z := 0x15.
Definition AND : Z := 0x16.
Definition OR : Z := 0x17.
Definition XOR : Z := 0x18.
Definition NOT : Z := 0x19.
Definition BYTE : Z := 0x1a.
Definition CALLDATALOAD : Z := 0x35.
Definition CALLDATASIZE : Z := 0x36.
Definition CALLDATACOPY : Z := 0x37.
Definition CODESIZE : Z := 0x38.
Definition CODECOPY : Z := 0x39.
Definition SHL : Z := 0x1b.
Definition SHR : Z := 0x1c.
Definition SAR : Z := 0x1d.
Definition POP : Z := 0x50.
Definition MLOAD : Z := 0x51.
Definition MSTORE : Z := 0x52.
Definition MSTORE8 : Z := 0x53.
Definition JUMP : Z := 0x56.
Definition JUMPI : Z := 0x57.
Definition PC : Z := 0x58.
Definition MSIZE : Z := 0x59.
Definition JUMPDEST : Z := 0x5b.
Definition PUSH0 : Z := 0x5f.
Definition PUSH1 : Z := 0x60.
Definition PUSH2 : Z := 0x61.
Definition PUSH3 : Z := 0x62.
Definition PUSH4 : Z := 0x63.
Definition PUSH5 : Z := 0x64.
Definition PUSH6 : Z := 0x65.
Definition PUSH7 : Z := 0x66.
Definition PUSH8 : Z := 0x67.
Definition PUSH9 : Z := 0x68.
Definition PUSH10 : Z := 0x69.
Definition PUSH11 : Z := 0x6a.
Definition PUSH12 : Z := 0x6b.
Definition PUSH13 : Z := 0x6c.
Definition PUSH14 : Z := 0x6d.
Definition PUSH15 : Z := 0x6e.
Definition PUSH16 : Z := 0x6f.
Definition PUSH17 : Z := 0x70.
Definition PUSH18 : Z := 0x71.
Definition PUSH19 : Z := 0x72.
Definition PUSH20 : Z := 0x73.
Definition PUSH21 : Z := 0x74.
Definition PUSH22 : Z := 0x75.
Definition PUSH23 : Z := 0x76.
Definition PUSH24 : Z := 0x77.
Definition PUSH25 : Z := 0x78.
Definition PUSH26 : Z := 0x79.
Definition PUSH27 : Z := 0x7a.
Definition PUSH28 : Z := 0x7b.
Definition PUSH29 : Z := 0x7c.
Definition PUSH30 : Z := 0x7d.
Definition PUSH31 : Z := 0x7e.
Definition PUSH32 : Z := 0x7f.
Definition DUP1 : Z := 0x80.
Definition DUP2 : Z := 0x81.
Definition DUP3 : Z := 0x82.
Definition DUP4 : Z := 0x83.
Definition DUP5 : Z := 0x84.
Definition DUP6 : Z := 0x85.
Definition DUP7 : Z := 0x86.
Definition DUP8 : Z := 0x87.
Definition DUP9 : Z := 0x88.
Definition DUP10 : Z := 0x89.
Definition DUP11 : Z := 0x8a.
Definition DUP12 : Z := 0x8b.
Definition DUP13 : Z := 0x8c.
Definition DUP14 : Z := 0x8d.
Definition DUP15 : Z := 0x8e.
Definition DUP16 : Z := 0x8f.
Definition SWAP1 : Z := 0x90.
Definition SWAP2 : Z := 0x91.
Definition SWAP3 : Z := 0x92.
Definition SWAP4 : Z := 0x93.
Definition SWAP5 : Z := 0x94.
Definition SWAP6 : Z := 0x95.
Definition SWAP7 : Z := 0x96.
Definition SWAP8 : Z := 0x97.
Definition SWAP9 : Z := 0x98.
Definition SWAP10 : Z := 0x99.
Definition SWAP11 : Z := 0x9a.
Definition SWAP12 : Z := 0x9b.
Definition SWAP13 : Z := 0x9c.
Definition SWAP14 : Z := 0x9d.
Definition SWAP15 : Z := 0x9e.
Definition SWAP16 : Z := 0x9f.
Definition RETURN : Z := 0xf3.
Definition REVERT : Z := 0xfd.
Definition INVALID : Z := 0xfe.
Definition EOFMAGIC : Z := 0xef.
Definition SHA3 : Z := 0x20.
Definition ADDRESS : Z := 0x30.
Definition BALANCE : Z := 0x31.
Definition SELFBALANCE : Z := 0x47.
Definition BASEFEE : Z := 0x48.
Definition ORIGIN : Z := 0x32.
Definition CALLER : Z := 0x33.
Definition CALLVALUE : Z := 0x34.
Definition GASPRICE : Z := 0x3a.
Definition EXTCODESIZE : Z := 0x3b.
Definition EXTCODECOPY : Z := 0x3c.
Definition EXTCODEHASH : Z := 0x3f.
Definition RETURNDATASIZE : Z := 0x3d.
Definition RETURNDATACOPY : Z := 0x3e.
Definition BLOCKHASH : Z := 0x40.
Definition COINBASE : Z := 0x41.
Definition TIMESTAMP : Z := 0x42.
Definition NUMBER : Z := 0x43.
Definition DIFFICULTY : Z := 0x44.
Definition GASLIMIT : Z := 0x45.
Definition SLOAD : Z := 0x54.
Definition SSTORE : Z := 0x55.
Definition GAS : Z := 0x5a.
Definition LOG0 : Z := 0xa0.
Definition LOG1 : Z := 0xa1.
Definition LOG2 : Z := 0xa2.
Definition LOG3 : Z := 0xa3.
Definition LOG4 : Z := 0xa4.
Definition CREATE : Z := 0xf0.
Definition CREATE2 : Z := 0xf5.
Definition CALL : Z := 0xf1.
Definition CALLCODE : Z := 0xf2.
Definition DELEGATECALL : Z := 0xf4.
Definition STATICCALL : Z := 0xfa.
Definition SUICIDE : Z := 0xff.
Definition CHAINID : Z := 0x46.

Definition is_push (opcode : Z) : option Z :=
  if (0x60 <=? opcode) && (opcode <=? 0x7f) then Some (opcode - 0x60 + 1) else None.
End Opcode.

(** ** Valid jump destinations *)

Abbreviation Valids := (list bool) (only parsing).

(** The scan of [Valids::new] from [i]; every round advances, so the length of the
    code bounds the rounds. *)
Fixpoint valids_loop (fuel : nat) (code : bytes) (i : nat) (valids : Valids) : Valids :=
  match fuel with
  | O => valids
  | S fuel' =>
      match code !! i with
      | None => valids
      | Some opcode =>
          if opcode =? Opcode.JUMPDEST then valids_loop fuel' code (i + 1) (<[i := true]> valids)
          else
            match Opcode.is_push opcode with
            | Some v => valids_loop fuel' code (i + (Z.to_nat v + 1)) valids
            | None => valids_loop fuel' code (i + 1) valids
            end
      end
  end.

Definition Valids_new (code : bytes) : Valids :=
  valids_loop (length code) code 0 (replicate (length code) false).

Definition is_valid (v : Valids) (position : Z) : bool :=
  if Z.of_nat (length v) <=? position then false
  else default false (v !! Z.to_nat position).

(** ** Machine *)

Record Machine := mkMachine {
  mc_data : bytes;
  mc_code : bytes;
  mc_position : Result Z ExitReason;
  mc_return_range : U256 * U256;
  mc_valids : Valids;
  mc_memory : Memory;
  mc_stack : Stack
}.

Definition Machine_new (code data : bytes) (stack_limit memory_limit : Z) : Machine :=
  mkMachine data code (Ok 0) (0, 0) (Valids_new code) (Memory_new memory_limit) (Stack_new stack_limit).

Definition set_position (p : Result Z ExitReason) (m : Machine) : Machine :=
  mkMachine (mc_data m) (mc_code m) p (mc_return_range m) (mc_valids m) (mc_memory m) (mc_stack m).
Definition set_return_range (r : U256 * U256) (m : Machine) : Machine :=
  mkMachine (mc_data m) (mc_code m) (mc_position m) r (mc_valids m) (mc_memory m) (mc_stack m).
Definition set_memory (x : Memory) (m : Machine) : Machine :=
  mkMachine (mc_data m) (mc_code m) (mc_position m) (mc_return_range m) (mc_valids m) x (mc_stack m).
Definition set_stack (x : Stack) (m : Machine) : Machine :=
  mkMachine (mc_data m) (mc_code m) (mc_position m) (mc_return_range m) (mc_valids m) (mc_memory m) x.

Definition Machine_exit (reason : ExitReason) (m : Machine) : Machine := set_position (Err reason) m.

Definition Machine_inspect (m : Machine) : option (Z * Stack) :=
  match mc_position m with
  | Ok position => (fun v => (v, mc_stack m)) <$> byte_at (mc_code m) position
  | Err _ => None
  end.

(** [as_usize] panics above [usize::MAX]. *)
Definition as_usize (x : U256) : option Z := if usize_max <? x then None else Some x.

Definition return_value (m : Machine) : option bytes :=
  let '(start, end_) := mc_return_range m in
  len ← u256_sub end_ start;
  if usize_max <? start then
    n ← as_usize len; Some (replicate (Z.to_nat n) 0)
  else if usize_max <? end_ then
    let ret := Memory_get (mc_memory m) start (usize_max - start) in
    n ← as_usize len;
    Some (ret ++ replicate (Z.to_nat n - length ret) 0)
  else Some (Memory_get (mc_memory m) start len).

(** ** Evaluation of an opcode

    The macros of eval/macros.rs return early from the evaluating function with
    [Control::Exit]. *)

Inductive Control :=
| Continue (n : Z)
| ControlExit (e : ExitReason)
| Jump (p : Z)
| ControlTrap (opcode : Z).

Abbreviation EvalM := (EM Machine ExitReason).

Definition try_or_fail {A} (r : Result A ExitError) : EvalM A :=
  match r with Ok x => mret x | Err e => em_fail (ExitReasonError e) end.

Definition pop_u256 : EvalM U256 := fun m =>
  let '(s, r) := Stack_pop (mc_stack m) in
  match r with
  | Ok x => Some (set_stack s m, Ok x)
  | Err e => Some (set_stack s m, Err (ExitReasonError e))
  end.

Definition push_u256 (x : U256) : EvalM unit := fun m =>
  let '(s, r) := Stack_push (mc_stack m) x in
  match r with
  | Ok _ => Some (set_stack s m, Ok tt)
  | Err e => Some (set_stack s m, Err (ExitReasonError e))
  end.

Definition peek (n : nat) : EvalM H256 := fun m =>
  try_or_fail (Stack_peek (mc_stack m) n) m.

Definition stack_set (n : nat) (val : H256) : EvalM unit := fun m =>
  let '(s, r) := Stack_set (mc_stack m) n val in
  match r with
  | Ok _ => Some (set_stack s m, Ok tt)
  | Err e => Some (set_stack s m, Err (ExitReasonError e))
  end.

Definition as_usize_or_fail (v : U256) (reason : ExitReason) : EvalM Z :=
  if usize_max <? v then em_fail reason else mret v.

Definition resize_offset (offset len : U256) : EvalM unit := fun m =>
  match Memory_resize_offset (mc_memory m) offset len with
  | Ok mem => Some (set_memory mem m, Ok tt)
  | Err e => Some (m, Err (ExitReasonError e))
  end.

Definition memory_set (offset : Z) (value : bytes) (target_size : option Z) : EvalM unit := fun m =>
  let '(mem, r) := Memory_set (mc_memory m) offset value target_size in
  match r with
  | Ok _ => Some (set_memory mem m, Ok tt)
  | Err e => Some (set_memory mem m, Err (Fatal e))
  end.

Definition copy_large (memory_offset data_offset len : U256) (data : bytes) : EvalM unit := fun m =>
  let '(mem, r) := Memory_copy_large (mc_memory m) memory_offset data_offset len data in
  match r with
  | Ok _ => Some (set_memory mem m, Ok tt)
  | Err e => Some (set_memory mem m, Err (Fatal e))
  end.

Definition op1_u256_fn (op : Z -> Z) : EvalM Control :=
  op1 ← pop_u256; _ ← push_u256 (op op1); mret (Continue 1).

Definition op2_u256_bool_ref (op : Z -> Z -> bool) : EvalM Control :=
  op1 ← pop_u256; op2 ← pop_u256;
  _ ← push_u256 (if op op1 op2 then 1 else 0); mret (Continue 1).

Definition op2_u256 (op : Z -> Z -> Z) : EvalM Control :=
  op1 ← pop_u256; op2 ← pop_u256; _ ← push_u256 (op op1 op2); mret (Continue 1).

Definition op2_u256_fn (op : Z -> Z -> option Z) : EvalM Control :=
  op1 ← pop_u256; op2 ← pop_u256; ret ← em_lift (op op1 op2);
  _ ← push_u256 ret; mret (Continue 1).

Definition op3_u256_fn (op : Z -> Z -> Z -> option Z) : EvalM Control :=
  op1 ← pop_u256; op2 ← pop_u256; op3 ← pop_u256; ret ← em_lift (op op1 op2 op3);
  _ ← push_u256 ret; mret (Continue 1).

(** *** eval/misc.rs *)

Definition eval_codesize : EvalM Control :=
  m ← em_get; _ ← push_u256 (Z.of_nat (length (mc_code m))); mret (Continue 1).

Definition eval_codecopy : EvalM Control :=
  memory_offset ← pop_u256; code_offset ← pop_u256; len ← pop_u256;
  _ ← resize_offset memory_offset len;
  m ← em_get;
  _ ← copy_large memory_offset code_offset len (mc_code m);
  mret (Continue 1).

(** The 32 bytes of the input from [index], zero outside it. *)
Definition load_data (data : bytes) (index : U256) : bytes :=
  (fun i =>
     match u256_checked_add index (Z.of_nat i) with
     | Some p => if p <=? usize_max then default 0 (byte_at data p) else 0
     | None => 0
     end) <$> seq 0 32.

Definition eval_calldataload : EvalM Control :=
  index ← pop_u256;
  m ← em_get;
  _ ← push_u256 (be_value (load_data (mc_data m) index));
  mret (Continue 1).

Definition eval_calldatasize : EvalM Control :=
  m ← em_get; _ ← push_u256 (Z.of_nat (length (mc_data m))); mret (Continue 1).

Definition eval_calldatacopy : EvalM Control :=
  memory_offset ← pop_u256; data_offset ← pop_u256; len ← pop_u256;
  _ ← resize_offset memory_offset len;
  if len =? 0 then mret (Continue 1)
  else
    m ← em_get;
    _ ← copy_large memory_offset data_offset len (mc_data m);
    mret (Continue 1).

Definition eval_pop : EvalM Control := _ ← pop_u256; mret (Continue 1).

Definition eval_mload : EvalM Control :=
  index ← pop_u256;
  _ ← resize_offset index 32;
  index ← as_usize_or_fail index (Fatal NotSupported);
  m ← em_get;
  _ ← push_u256 (be_value (Memory_get (mc_memory m) index 32));
  mret (Continue 1).

Definition eval_mstore : EvalM Control :=
  index ← pop_u256;
  value ← pop_u256;
  _ ← resize_offset index 32;
  index ← as_usize_or_fail index (Fatal NotSupported);
  _ ← memory_set index (be_bytes 32 value) (Some 32);
  mret (Continue 1).

Definition eval_mstore8 : EvalM Control :=
  index ← pop_u256; value ← pop_u256;
  _ ← resize_offset index 1;
  index ← as_usize_or_fail index (Fatal NotSupported);
  _ ← memory_set index [Z.land (value mod u32_modulus) 0xff] (Some 1);
  mret (Continue 1).

Definition jump_to (dest : U256) : EvalM Control :=
  dest ← as_usize_or_fail dest (ExitReasonError InvalidJump);
  m ← em_get;
  if is_valid (mc_valids m) dest then mret (Jump dest)
  else em_fail (ExitReasonError InvalidJump).

Definition eval_jump : EvalM Control := dest ← pop_u256; jump_to dest.

Definition eval_jumpi : EvalM Control :=
  dest ← pop_u256; value ← pop_u256;
  if value =? 0 then mret (Continue 1) else jump_to dest.

Definition eval_pc (position : Z) : EvalM Control := _ ← push_u256 position; mret (Continue 1).

Definition eval_msize : EvalM Control :=
  m ← em_get; _ ← push_u256 (mem_effective_len (mc_memory m)); mret (Continue 1).

(** The [n] bytes after [position], zero past the end of the code: [val] has
    [32 - n] leading zeros and the rest of it is overwritten by the slice. *)
Definition push_slice (code : bytes) (n : nat) (position : Z) : bytes :=
  let slice := take n (drop (Z.to_nat (position + 1)) code) in
  replicate (32 - n) 0 ++ slice ++ replicate (n - length slice) 0.

Definition eval_push (n : nat) (position : Z) : EvalM Control :=
  m ← em_get;
  _ ← push_u256 (be_value (push_slice (mc_code m) n position));
  mret (Continue (1 + Z.of_nat n)).

Definition eval_dup (n : nat) : EvalM Control :=
  value ← peek (n - 1); _ ← push_u256 value; mret (Continue 1).

Definition eval_swap (n : nat) : EvalM Control :=
  val1 ← peek 0; val2 ← peek n;
  _ ← stack_set 0 val2; _ ← stack_set n val1; mret (Continue 1).

(** [start + len] panics on overflow. *)
Definition finish_range (reason : ExitReason) : EvalM Control :=
  start ← pop_u256; len ← pop_u256;
  _ ← resize_offset start len;
  end_ ← em_lift (u256_add start len);
  _ ← em_modify (set_return_range (start, end_));
  mret (ControlExit reason).

Definition eval_return : EvalM Control := finish_range (Succeed Returned).
Definition eval_revert : EvalM Control := finish_range (Revert Reverted).

(** *** eval/mod.rs *)

(** The functions of the dispatch table. *)
Inductive EvalFn :=
| Eval_stop | Eval_add | Eval_mul | Eval_sub | Eval_div | Eval_sdiv | Eval_mod | Eval_smod
| Eval_addmod | Eval_mulmod | Eval_exp | Eval_signextend
| Eval_lt | Eval_gt | Eval_slt | Eval_sgt | Eval_eq | Eval_iszero
| Eval_and | Eval_or | Eval_xor | Eval_not | Eval_byte | Eval_shl | Eval_shr | Eval_sar
| Eval_codesize | Eval_codecopy | Eval_calldataload | Eval_calldatasize | Eval_calldatacopy
| Eval_pop | Eval_mload | Eval_mstore | Eval_mstore8 | Eval_jump | Eval_jumpi | Eval_pc
| Eval_msize | Eval_jumpdest
| Eval_push (n : nat) | Eval_dup (n : nat) | Eval_swap (n : nat)
| Eval_return | Eval_revert | Eval_invalid
| Eval_external.

Definition eval_fn (f : EvalFn) (opcode position : Z) : EvalM Control :=
  match f with
  | Eval_stop => mret (ControlExit (Succeed Stopped))
  | Eval_add => op2_u256 overflowing_add
  | Eval_mul => op2_u256 overflowing_mul
  | Eval_sub => op2_u256 overflowing_sub
  | Eval_div => op2_u256_fn arithmetic.div
  | Eval_sdiv => op2_u256_fn arithmetic.sdiv
  | Eval_mod => op2_u256_fn arithmetic.rem
  | Eval_smod => op2_u256_fn arithmetic.srem
  | Eval_addmod => op3_u256_fn arithmetic.addmod
  | Eval_mulmod => op3_u256_fn arithmetic.mulmod
  | Eval_exp => op2_u256 arithmetic.exp
  | Eval_signextend => op2_u256_fn arithmetic.signextend
  | Eval_lt => op2_u256_bool_ref Z.ltb
  | Eval_gt => op2_u256_bool_ref Z.gtb
  | Eval_slt => op2_u256_fn bitwise.slt
  | Eval_sgt => op2_u256_fn bitwise.sgt
  | Eval_eq => op2_u256_bool_ref Z.eqb
  | Eval_iszero => op1_u256_fn bitwise.iszero
  | Eval_and => op2_u256 Z.land
  | Eval_or => op2_u256 Z.lor
  | Eval_xor => op2_u256 Z.lxor
  | Eval_not => op1_u256_fn bitwise.not
  | Eval_byte => op2_u256 bitwise.byte
  | Eval_shl => op2_u256 bitwise.shl
  | Eval_shr => op2_u256 bitwise.shr
  | Eval_sar => op2_u256_fn bitwise.sar
  | Eval_codesize => eval_codesize
  | Eval_codecopy => eval_codecopy
  | Eval_calldataload => eval_calldataload
  | Eval_calldatasize => eval_calldatasize
  | Eval_calldatacopy => eval_calldatacopy
  | Eval_pop => eval_pop
  | Eval_mload => eval_mload
  | Eval_mstore => eval_mstore
  | Eval_mstore8 => eval_mstore8
  | Eval_jump => eval_jump
  | Eval_jumpi => eval_jumpi
  | Eval_pc => eval_pc position
  | Eval_msize => eval_msize
  | Eval_jumpdest => mret (Continue 1)
  | Eval_push n => eval_push n position
  | Eval_dup n => eval_dup n
  | Eval_swap n => eval_swap n
  | Eval_return => eval_return
  | Eval_revert => eval_revert
  | Eval_invalid => mret (ControlExit (ExitReasonError DesignatedInvalid))
  | Eval_external => mret (ControlTrap opcode)
  end.

(** [TABLE]; an opcode without an entry is external. *)
Definition TABLE : list (Z * EvalFn) :=
  [(Opcode.STOP, Eval_stop); (Opcode.ADD, Eval_add); (Opcode.MUL, Eval_mul);
   (Opcode.SUB, Eval_sub); (Opcode.DIV, Eval_div); (Opcode.SDIV, Eval_sdiv);
   (Opcode.MOD, Eval_mod); (Opcode.SMOD, Eval_smod); (Opcode.ADDMOD, Eval_addmod);
   (Opcode.MULMOD, Eval_mulmod); (Opcode.EXP, Eval_exp); (Opcode.SIGNEXTEND, Eval_signextend);
   (Opcode.LT, Eval_lt); (Opcode.GT, Eval_gt); (Opcode.SLT, Eval_slt); (Opcode.SGT, Eval_sgt);
   (Opcode.EQ, Eval_eq); (Opcode.ISZERO, Eval_iszero); (Opcode.AND, Eval_and);
   (Opcode.OR, Eval_or); (Opcode.XOR, Eval_xor); (Opcode.NOT, Eval_not);
   (Opcode.BYTE, Eval_byte); (Opcode.SHL, Eval_shl); (Opcode.SHR, Eval_shr);
   (Opcode.SAR, Eval_sar); (Opcode.CODESIZE, Eval_codesize); (Opcode.CODECOPY, Eval_codecopy);
   (Opcode.CALLDATALOAD, Eval_calldataload); (Opcode.CALLDATASIZE, Eval_calldatasize);
   (Opcode.CALLDATACOPY, Eval_calldatacopy); (Opcode.POP, Eval_pop); (Opcode.MLOAD, Eval_mload);
   (Opcode.MSTORE, Eval_mstore); (Opcode.MSTORE8, Eval_mstore8); (Opcode.JUMP, Eval_jump);
   (Opcode.JUMPI, Eval_jumpi); (Opcode.PC, Eval_pc); (Opcode.MSIZE, Eval_msize);
   (Opcode.JUMPDEST, Eval_jumpdest); (Opcode.PUSH0, Eval_push 0); (Opcode.PUSH1, Eval_push 1);
   (Opcode.PUSH2, Eval_push 2); (Opcode.PUSH3, Eval_push 3); (Opcode.PUSH4, Eval_push 4);
   (Opcode.PUSH5, Eval_push 5); (Opcode.PUSH6, Eval_push 6); (Opcode.PUSH7, Eval_push 7);
   (Opcode.PUSH8, Eval_push 8); (Opcode.PUSH9, Eval_push 9); (Opcode.PUSH10, Eval_push 10);
   (Opcode.PUSH11, Eval_push 11); (Opcode.PUSH12, Eval_push 12); (Opcode.PUSH13, Eval_push 13);
   (Opcode.PUSH14, Eval_push 14); (Opcode.PUSH15, Eval_push 15); (Opcode.PUSH16, Eval_push 16);
   (Opcode.PUSH17, Eval_push 17); (Opcode.PUSH18, Eval_push 18); (Opcode.PUSH19, Eval_push 19);
   (Opcode.PUSH20, Eval_push 20); (Opcode.PUSH21, Eval_push 21); (Opcode.PUSH22, Eval_push 22);
   (Opcode.PUSH23, Eval_push 23); (Opcode.PUSH24, Eval_push 24); (Opcode.PUSH25, Eval_push 25);
   (Opcode.PUSH26, Eval_push 26); (Opcode.PUSH27, Eval_push 27); (Opcode.PUSH28, Eval_push 28);
   (Opcode.PUSH29, Eval_push 29); (Opcode.PUSH30, Eval_push 30); (Opcode.PUSH31, Eval_push 31);
   (Opcode.PUSH32, Eval_push 32); (Opcode.DUP1, Eval_dup 1); (Opcode.DUP2, Eval_dup 2);
   (Opcode.DUP3, Eval_dup 3); (Opcode.DUP4, Eval_dup 4); (Opcode.DUP5, Eval_dup 5);
   (Opcode.DUP6, Eval_dup 6); (Opcode.DUP7, Eval_dup 7); (Opcode.DUP8, Eval_dup 8);
   (Opcode.DUP9, Eval_dup 9); (Opcode.DUP10, Eval_dup 10); (Opcode.DUP11, Eval_dup 11);
   (Opcode.DUP12, Eval_dup 12); (Opcode.DUP13, Eval_dup 13); (Opcode.DUP14, Eval_dup 14);
   (Opcode.DUP15, Eval_dup 15); (Opcode.DUP16, Eval_dup 16); (Opcode.SWAP1, Eval_swap 1);
   (Opcode.SWAP2, Eval_swap 2); (Opcode.SWAP3, Eval_swap 3); (Opcode.SWAP4, Eval_swap 4);
   (Opcode.SWAP5, Eval_swap 5); (Opcode.SWAP6, Eval_swap 6); (Opcode.SWAP7, Eval_swap 7);
   (Opcode.SWAP8, Eval_swap 8); (Opcode.SWAP9, Eval_swap 9); (Opcode.SWAP10, Eval_swap 10);
   (Opcode.SWAP11, Eval_swap 11); (Opcode.SWAP12, Eval_swap 12); (Opcode.SWAP13, Eval_swap 13);
   (Opcode.SWAP14, Eval_swap 14); (Opcode.SWAP15, Eval_swap 15); (Opcode.SWAP16, Eval_swap 16);
   (Opcode.RETURN, Eval_return); (Opcode.REVERT, Eval_revert); (Opcode.INVALID, Eval_invalid)].

Definition table_get {A} (table : list (Z * A)) (opcode : Z) : option A :=
  snd <$> find (fun e : Z * A => e.1 =? opcode) table.

Definition decode (opcode : Z) : EvalFn := default Eval_external (table_get TABLE opcode).

Definition eval (opcode position : Z) (m : Machine) : option (Machine * Control) :=
  match eval_fn (decode opcode) opcode position m with
  | None => None
  | Some (m', Ok c) => Some (m', c)
  | Some (m', Err e) => Some (m', ControlExit e)
  end.

(** ** Machine::step and Machine::run *)

Inductive Capture (E T : Type) : Type :=
| CaptureExit (e : E)
| CaptureTrap (t : T).
Arguments CaptureExit {E T} e.
Arguments CaptureTrap {E T} t.

Definition Machine_step (m : Machine) : option (Machine * Result unit (Capture ExitReason Z)) :=
  match mc_position m with
  | Err reason => Some (m, Err (CaptureExit reason))
  | Ok position =>
      match byte_at (mc_code m) position with
      | Some opcode =>
          match eval opcode position m with
          | None => None
          | Some (m', Continue p) => Some (set_position (Ok (position + p)) m', Ok tt)
          | Some (m', ControlExit e) => Some (set_position (Err e) m', Err (CaptureExit e))
          | Some (m', Jump p) => Some (set_position (Ok p) m', Ok tt)
          | Some (m', ControlTrap opcode) =>
              Some (set_position (Ok (position + 1)) m', Err (CaptureTrap opcode))
          end
      | None =>
          Some (set_position (Err (Succeed Stopped)) m, Err (CaptureExit (Succeed Stopped)))
      end
  end.

(** The loop of [run]; [Spinning] when the fuel is used up. *)
Fixpoint Machine_run (fuel : nat) (m : Machine) : Run (Machine * Capture ExitReason Z) :=
  match fuel with
  | O => Spinning
  | S fuel' =>
      match Machine_step m with
      | None => Panicked
      | Some (m', Ok _) => Machine_run fuel' m'
      | Some (m', Err c) => Finished (m', c)
      end
  end.
