(* ===== verification/EvmCoreProps.v ===== *)
(** * Properties of the EVM core machine

    - the jump table marks exactly the [JUMPDEST] bytes that start an instruction;
    - memory reads back what was written, and zero elsewhere;
    - the well-formedness of a machine (words on a bounded stack, bytes in a memory
      that the charged length covers, a position at an instruction boundary) is
      kept by every step, and no step panics. *)

From S2P Require Import Prelude Bytes Types EvmWord EvmCore.
Local Open Scope Z_scope.
Local Open Scope chase_scope.

(** ** Instruction boundaries *)

Definition instr_len (opcode : Z) : nat :=
  match Opcode.is_push opcode with Some v => S (Z.to_nat v) | None => 1 end.

Definition next_instr (code : bytes) (p q : nat) : Prop :=
  exists opcode, code !! p = Some opcode ∧ q = (p + instr_len opcode)%nat.

(** The positions a linear walk over the code visits. *)
Definition boundary (code : bytes) (p : nat) : Prop := rtc (next_instr code) 0%nat p.

Lemma boundary_next code p opcode :
  boundary code p -> code !! p = Some opcode -> boundary code (p + instr_len opcode)%nat.
Proof. intros Hb Hp. eapply rtc_r; [exact Hb|]. by exists opcode. Qed.

Lemma rtc_next_inv code i q :
  rtc (next_instr code) i q ->
  i = q ∨ exists opcode, code !! i = Some opcode ∧ rtc (next_instr code) (i + instr_len opcode)%nat q.
Proof. intros [->|(j & (op & Hi & ->) & Hr)]%rtc_inv; [by left|]. right. eauto. Qed.

Lemma valids_loop_spec fuel code i v :
  (length code <= i + fuel)%nat -> length v = length code ->
  length (valids_loop fuel code i v) = length code ∧
  forall q, valids_loop fuel code i v !! q = Some true ↔
    v !! q = Some true ∨ (rtc (next_instr code) i q ∧ code !! q = Some Opcode.JUMPDEST).
Proof.
  revert i v. induction fuel as [|fuel IH]; intros i v Hf Hv; simpl.
  { split; [done|]. intros q. split; [by left|]. intros [?|[Hr Hq]]; [done|].
    assert (code !! i = None) by (apply lookup_ge_None; lia).
    destruct (rtc_next_inv _ _ _ Hr) as [->|(op & ? & _)]; congruence. }
  destruct (code !! i) as [opcode|] eqn:Hi.
  2: { split; [done|]. intros q. split; [by left|]. intros [?|[Hr Hq]]; [done|].
       destruct (rtc_next_inv _ _ _ Hr) as [->|(op & ? & _)]; congruence. }
  assert (forall q, rtc (next_instr code) i q ↔ i = q ∨ rtc (next_instr code) (i + instr_len opcode)%nat q) as Hs.
  { intros q. split.
    - intros [?|(op & ? & ?)]%rtc_next_inv; [by left|]. right. by simplify_eq.
    - intros [->|Hr]; [done|]. eapply rtc_l; [|exact Hr]. by exists opcode. }
  destruct (Z.eqb_spec opcode Opcode.JUMPDEST) as [->|Hne].
  - destruct (IH (i + 1)%nat (<[i:=true]> v)) as [H1 H2]; [lia|by rewrite length_insert|].
    split; [done|]. intros q. rewrite H2, Hs. change (instr_len Opcode.JUMPDEST) with 1%nat.
    destruct (decide (i = q)) as [->|Hq].
    + rewrite list_lookup_insert_eq by (rewrite Hv; by apply lookup_lt_Some in Hi). naive_solver.
    + rewrite list_lookup_insert_ne by done. naive_solver.
  - assert (valids_loop (S fuel) code i v = valids_loop fuel code (i + instr_len opcode)%nat v) as E.
    { cbn [valids_loop]. rewrite Hi. destruct (Z.eqb_spec opcode Opcode.JUMPDEST); [done|].
      unfold instr_len. destruct (Opcode.is_push opcode); [|done]. f_equal. lia. }
    cbn [valids_loop] in E. rewrite Hi in E. destruct (Z.eqb_spec opcode Opcode.JUMPDEST); [done|].
    rewrite E. destruct (IH (i + instr_len opcode)%nat v) as [H1 H2]; [|done|].
    { unfold instr_len. destruct (Opcode.is_push opcode); lia. }
    split; [done|]. intros q. rewrite H2, Hs. naive_solver.
Qed.

Lemma is_valid_spec code p :
  0 <= p ->
  is_valid (Valids_new code) p = true ↔
  boundary code (Z.to_nat p) ∧ code !! Z.to_nat p = Some Opcode.JUMPDEST.
Proof.
  intros Hp. destruct (valids_loop_spec (length code) code 0 (replicate (length code) false)) as [Hl Hs].
  { lia. } { apply length_replicate. }
  fold (Valids_new code) in Hl, Hs. unfold boundary.
  trans (Valids_new code !! Z.to_nat p = Some true).
  - unfold is_valid. destruct (Z.leb_spec (Z.of_nat (length (Valids_new code))) p) as [H|H].
    + split; [done|]. intros E. apply lookup_lt_Some in E. lia.
    + destruct (Valids_new code !! Z.to_nat p) as [[]|]; naive_solver.
  - rewrite Hs, lookup_replicate. naive_solver.
Qed.

(** ** Memory *)

(** The byte a program observes at [p]: zero beyond the data. *)
Definition mem_read (m : Memory) (p : Z) : Z := default 0 (byte_at (mem_data m) p).

Lemma byte_at_lookup data p : 0 <= p -> byte_at data p = data !! Z.to_nat p.
Proof.
  intros Hp. unfold byte_at. destruct (Z.ltb_spec p (Z.of_nat (length data))); [done|].
  symmetry. apply lookup_ge_None. lia.
Qed.

Lemma get_loop_spec n data p :
  0 <= p -> Z.of_nat (length data) < u64_modulus ->
  get_loop n data p = (fun i => default 0 (byte_at data (p + Z.of_nat i))) <$> seq 0 n.
Proof.
  intros Hp Hl. revert p Hp. induction n as [|n IH]; intros p Hp; [done|].
  cbn [get_loop]. cbn [seq]. rewrite fmap_cons, <- fmap_S_seq, <- list_fmap_compose, Z.add_0_r.
  destruct (byte_at data p) as [b|] eqn:Hb.
  - f_equal. assert (p < Z.of_nat (length data)) by (unfold byte_at in Hb; by destruct (Z.ltb_spec p (Z.of_nat (length data)))).
    rewrite u64_add_small, IH by lia. apply list_fmap_ext. intros i x _. simpl. do 2 f_equal. lia.
  - simpl. f_equal. apply replicate_as_elem_of. rewrite length_fmap, length_seq. split; [done|].
    intros x (i & -> & _)%list_elem_of_fmap. rewrite byte_at_lookup in Hb by done.
    apply lookup_ge_None in Hb. simpl. rewrite byte_at_lookup, lookup_ge_None_2 by lia. done.
Qed.

Lemma length_write_slice data off v :
  (off + length v <= length data)%nat -> length (write_slice data off v) = length data.
Proof. intros H. unfold write_slice. rewrite !length_app, length_take, length_drop. lia. Qed.

Lemma lookup_write_slice data off v i :
  (off + length v <= length data)%nat ->
  write_slice data off v !! i =
    if decide (off <= i < off + length v)%nat then v !! (i - off)%nat else data !! i.
Proof.
  intros H. unfold write_slice. assert (length (take off data) = off) as Ht by (rewrite length_take; lia).
  case_decide as Hi.
  - rewrite lookup_app_r by lia. rewrite lookup_app_l by lia. by rewrite Ht.
  - destruct (decide (i < off)%nat).
    + rewrite lookup_app_l by lia. by apply lookup_take_lt.
    + rewrite !lookup_app_r by lia. rewrite lookup_drop. f_equal. lia.
Qed.

Lemma lookup_zeros (data : bytes) k i :
  default 0 ((data ++ replicate k 0) !! i) = default 0 (data !! i).
Proof.
  destruct (decide (i < length data)%nat); [by rewrite lookup_app_l|].
  rewrite lookup_app_r, (lookup_ge_None_2 data i) by lia.
  destruct (replicate k 0 !! (i - length data)%nat) eqn:E; [|done]. by apply lookup_replicate in E as [-> _].
Qed.

(** The data after a successful [set] of [size] bytes. *)
Lemma Memory_set_Ok m offset value size m' :
  0 <= offset -> 0 <= size ->
  Memory_set m offset value (Some size) = (m', Ok tt) ->
  mem_effective_len m' = mem_effective_len m ∧ mem_limit m' = mem_limit m ∧
  (size = 0 ∨ offset + size <= mem_limit m) ∧
  Z.of_nat (length (mem_data m')) =
    (if size =? 0 then Z.of_nat (length (mem_data m))
     else Z.max (Z.of_nat (length (mem_data m))) (offset + size)) ∧
  forall p, 0 <= p ->
    mem_read m' p =
      if decide (offset <= p < offset + size) then default 0 (value !! Z.to_nat (p - offset))
      else mem_read m p.
Proof.
  intros Ho Hs. unfold Memory_set. change (default _ (Some size)) with size. cbv zeta.
  destruct (Z.eqb_spec size 0) as [->|Hn].
  { intros [= <-]. split_and!; [done|done|by left|done|]. intros p Hp. by rewrite decide_False by lia. }
  destruct (_ || _) eqn:Hlim; intros E; [by simplify_eq|]. apply orb_false_iff in Hlim as [_ Hlim%Z.ltb_ge].
  injection E as <-. cbn [mem_data mem_effective_len mem_limit].
  set (off := Z.to_nat offset). set (sz := Z.to_nat size).
  set (data := mem_data m ++ replicate (off + sz - length (mem_data m)) 0).
  assert (length data = Nat.max (length (mem_data m)) (off + sz)%nat) as Hld.
  { unfold data. rewrite length_app, length_replicate. lia. }
  assert (forall d : bytes, length d = length data ->
    Z.of_nat (length d) = Z.max (Z.of_nat (length (mem_data m))) (offset + size)) as Hlen by (intros; lia).
  assert (forall i, default 0 (data !! i) = default 0 (mem_data m !! i)) as Hdata by apply lookup_zeros.
  destruct (Z.ltb_spec (Z.of_nat (length value)) size) as [Hlt|Hge].
  - set (d1 := write_slice data off value).
    assert (length d1 = length data) as Hl1 by (apply length_write_slice; lia).
    split_and!; [done|done|by right| |].
    { apply Hlen. rewrite length_write_slice; [done|]. rewrite length_replicate. lia. }
    intros p Hp. unfold mem_read. cbn [mem_data]. rewrite !byte_at_lookup by done.
    rewrite lookup_write_slice, length_replicate by (rewrite length_replicate; lia).
    case_decide as H1.
    + rewrite decide_True by lia. rewrite (lookup_ge_None_2 value) by lia.
      by rewrite lookup_replicate_2 by lia.
    + unfold d1. rewrite lookup_write_slice by lia. case_decide as H2.
      * rewrite decide_True by lia. do 2 f_equal. lia.
      * rewrite decide_False by lia. apply Hdata.
  - assert (length (take sz value) = sz) as Htk by (rewrite length_take; lia).
    split_and!; [done|done|by right| |].
    { apply Hlen. rewrite length_write_slice; [done|lia]. }
    intros p Hp. unfold mem_read. cbn [mem_data]. rewrite !byte_at_lookup by done.
    rewrite lookup_write_slice, Htk by lia. case_decide as H1.
    + rewrite decide_True by lia. rewrite lookup_take_lt by lia. do 2 f_equal. lia.
    + rewrite decide_False by lia. apply Hdata.
Qed.

Lemma land_31 x : Z.land x 31 = x mod 32.
Proof. by apply (Z.land_ones x 5). Qed.

Lemma next_multiple_of_32_spec x :
  word x -> next_multiple_of_32 x = u256_checked_add x ((- x) mod 32).
Proof.
  intros Hx. unfold next_multiple_of_32. f_equal. rewrite !land_31. unfold u32_add, u32_max, u32_modulus.
  rewrite !Z.mod_mod_divide by (by exists 134217728).
  Z.to_euclidean_division_equations. lia.
Qed.

Lemma resize_offset_Ok m offset len m' :
  word offset -> word len ->
  Memory_resize_offset m offset len = Ok m' ->
  mem_data m' = mem_data m ∧ mem_limit m' = mem_limit m ∧
  (len = 0 ∨ offset + len <= mem_effective_len m') ∧
  (m' = m ∨ word (mem_effective_len m') ∧ mem_effective_len m' mod 32 = 0 ∧
            mem_effective_len m < mem_effective_len m' < offset + len + 32) ∧
  (len = 0 ∨ offset + len < u256_modulus).
Proof.
  intros Ho Hl. unfold Memory_resize_offset, Memory_resize_end.
  destruct (Z.eqb_spec len 0) as [->|Hn]; [intros [= <-]; split_and!; auto|].
  destruct (u256_checked_add offset len) as [e|] eqn:He; [|done].
  unfold u256_checked_add in He. destruct (Z.ltb_spec (offset + len) u256_modulus); [|done].
  simplify_eq. assert (word (offset + len)) as Hw by word_lia.
  destruct (Z.ltb_spec (mem_effective_len m) (offset + len)) as [Hlt|].
  2: { intros [= <-]. split_and!; auto. }
  rewrite next_multiple_of_32_spec by done. destruct (u256_checked_add _ _) as [e|] eqn:He; [|done].
  unfold u256_checked_add in He. destruct (Z.ltb_spec (offset + len + - (offset + len) mod 32) u256_modulus); [|done].
  pose proof (Z.mod_pos_bound (- (offset + len)) 32). injection He as <-.
  intros [= <-]. cbn [mem_data mem_limit mem_effective_len]. split_and!; [done|done|right; lia| |by right].
  right. split_and!; [word_lia| |lia|lia].
  rewrite Z.add_mod_idemp_r by done. by rewrite Z.add_opp_diag_r.
Qed.

(** ** Well-formed machines *)

Definition byte_ok (b : Z) : Prop := 0 <= b < 256.

Record memory_wf (m : Memory) : Prop := {
  mw_bytes : Forall byte_ok (mem_data m);
  mw_covered : Z.of_nat (length (mem_data m)) <= mem_effective_len m;
  mw_aligned : mem_effective_len m mod 32 = 0;
  mw_word : word (mem_effective_len m);
  mw_limit : Z.of_nat (length (mem_data m)) <= mem_limit m;
  mw_usize : mem_limit m <= usize_max
}.

Record stack_wf (s : Stack) : Prop := {
  sw_words : Forall word (stk_data s);
  sw_limit : Z.of_nat (length (stk_data s)) <= stk_limit s
}.

(** Everything but the position. *)
Record core_inv (m : Machine) : Prop := {
  ci_code : Forall byte_ok (mc_code m);
  ci_code_len : Z.of_nat (length (mc_code m)) <= usize_max;
  ci_data : Forall byte_ok (mc_data m);
  ci_data_len : Z.of_nat (length (mc_data m)) <= usize_max;
  ci_valids : mc_valids m = Valids_new (mc_code m);
  ci_range : word (fst (mc_return_range m)) ∧ word (snd (mc_return_range m)) ∧
    fst (mc_return_range m) <= snd (mc_return_range m);
  ci_memory : memory_wf (mc_memory m);
  ci_stack : stack_wf (mc_stack m)
}.

(** The position is at an instruction, or past the end of the code. *)
Definition position_ok (m : Machine) : Prop :=
  forall p, mc_position m = Ok p -> 0 <= p ∧ boundary (mc_code m) (Z.to_nat p).

Definition machine_wf (m : Machine) : Prop := core_inv m ∧ position_ok m.

(** What an evaluation leaves alone. *)
Definition core_frame (m m' : Machine) : Prop :=
  mc_code m' = mc_code m ∧ mc_data m' = mc_data m ∧ mc_position m' = mc_position m ∧
  stk_limit (mc_stack m') = stk_limit (mc_stack m) ∧ mem_limit (mc_memory m') = mem_limit (mc_memory m) ∧
  mem_effective_len (mc_memory m) <= mem_effective_len (mc_memory m').

#[global] Instance core_frame_preorder : PreOrder core_frame.
Proof.
  split; [repeat split; done|].
  intros m1 m2 m3 (?&?&?&?&?&?) (?&?&?&?&?&?). repeat split; (congruence || lia).
Qed.

(** ** Evaluations

    [evals P c Q]: from a machine that satisfies the invariant and [P], [c] does not
    panic, keeps the invariant and the frame, and establishes [Q] when it does not
    return early. *)
Definition evals {A} (P : Machine -> Prop) (c : EvalM A) (Q : A -> Machine -> Prop) : Prop :=
  forall m, core_inv m -> P m ->
    match c m with
    | Some (m', r) => core_inv m' ∧ core_frame m m' ∧ (forall x, r = Ok x -> Q x m')
    | None => False
    end.

Abbreviation any_state := (fun _ : Machine => True).

Lemma evals_bind {A B} P (c : EvalM A) (f : A -> EvalM B) Q R :
  evals P c Q -> (forall x, evals (Q x) (f x) R) -> evals P (c ≫= f) R.
Proof.
  intros Hc Hf m Hi HP. specialize (Hc m Hi HP). unfold mbind, EM_bind.
  destruct (c m) as [[m1 [x|e]]|]; [..|done].
  - destruct Hc as (Hi1 & Hfr1 & HQ). specialize (Hf x m1 Hi1 (HQ x eq_refl)).
    destruct (f x m1) as [[m2 r]|]; [|done]. destruct Hf as (? & ? & ?).
    split_and!; [done|by etransitivity|done].
  - destruct Hc as (? & ? & _). split_and!; [done..|]. by intros.
Qed.

Lemma evals_weaken {A} (P P' : Machine -> Prop) (c : EvalM A) Q :
  evals P' c Q -> (forall m, P m -> P' m) -> evals P c Q.
Proof. intros Hc HP m Hi Hm. apply Hc; auto. Qed.

Lemma evals_ret {A} (x : A) (P : Machine -> Prop) (Q : A -> Machine -> Prop) :
  (forall m, core_inv m -> P m -> Q x m) -> evals P (mret x) Q.
Proof. intros HQ m Hi HP. split_and!; [done..|]. intros y [= <-]. auto. Qed.

Lemma evals_fail {A} e P (Q : A -> Machine -> Prop) : evals P (em_fail e) Q.
Proof. intros m Hi HP. split_and!; [done..|]. by intros. Qed.

Lemma evals_get (P : Machine -> Prop) : evals P em_get (fun x m => core_inv m ∧ x = m ∧ P m).
Proof. intros m Hi HP. split_and!; [done..|]. by intros y [= <-]. Qed.

Lemma evals_lift {A} (o : option A) P (Q : A -> Machine -> Prop) :
  (forall m, core_inv m -> P m -> exists x, o = Some x ∧ Q x m) -> evals P (em_lift o) Q.
Proof.
  intros HQ m Hi HP. destruct (HQ m Hi HP) as (x & -> & Hx). split_and!; [done..|]. by intros y [= <-].
Qed.

Lemma evals_usize v e (P : Machine -> Prop) :
  evals P (as_usize_or_fail v e) (fun x m => x = v ∧ v <= usize_max ∧ P m).
Proof.
  unfold as_usize_or_fail. destruct (Z.ltb_spec usize_max v); [apply evals_fail|].
  apply evals_ret. auto.
Qed.

(** *** Rules of the stack and memory operations *)

Lemma core_inv_stack m s : core_inv m -> stack_wf s -> core_inv (set_stack s m).
Proof. intros [] Hs. by split. Qed.

Lemma core_inv_memory m x : core_inv m -> memory_wf x -> core_inv (set_memory x m).
Proof. intros [] Hx. by split. Qed.

(** A property of the machine that its stack does not influence. *)
Definition stackless (P : Machine -> Prop) : Prop := forall s m, P m -> P (set_stack s m).

Lemma stackless_any : stackless any_state.
Proof. done. Qed.

Lemma evals_pop P : stackless P -> evals P pop_u256 (fun x m => word x ∧ P m).
Proof.
  intros Hst m Hi HP. destruct (ci_stack _ Hi) as [Hw Hl]. unfold pop_u256, Stack_pop.
  destruct (stk_data (mc_stack m)) as [|x l] eqn:E.
  - split_and!; [apply core_inv_stack; [done|by split; rewrite E]|repeat split; done|by intros].
  - apply Forall_cons in Hw as [Hx Hw].
    split_and!; [apply core_inv_stack; [done|]|repeat split; done|intros y [= <-]; auto].
    split; cbn [stk_data stk_limit]; [done|]. simpl in Hl. lia.
Qed.

Lemma evals_push x P : word x -> stackless P -> evals P (push_u256 x) (fun _ m => P m).
Proof.
  intros Hx Hst m Hi HP. destruct (ci_stack _ Hi) as [Hw Hl]. unfold push_u256, Stack_push.
  destruct (Z.ltb_spec (stk_limit (mc_stack m)) (Z.of_nat (length (stk_data (mc_stack m))) + 1)).
  - split_and!; [apply core_inv_stack; [done|by split]|repeat split; done|by intros].
  - split_and!; [apply core_inv_stack; [done|]|repeat split; done|intros y [= <-]; auto].
    split; cbn [stk_data stk_limit length]; [by constructor|]. lia.
Qed.

Lemma evals_peek n P : evals P (peek n) (fun x m => word x ∧ P m).
Proof.
  intros m Hi HP. destruct (ci_stack _ Hi) as [Hw Hl]. unfold peek, Stack_peek.
  destruct (stk_data (mc_stack m) !! n) eqn:E; (split_and!; [done..|]); [|by intros].
  intros y [= <-]. split; [|done]. by eapply Forall_lookup_1.
Qed.

Lemma evals_stack_set n x P : word x -> stackless P -> evals P (stack_set n x) (fun _ m => P m).
Proof.
  intros Hx Hst m Hi HP. destruct (ci_stack _ Hi) as [Hw Hl]. unfold stack_set, Stack_set.
  destruct (stk_data (mc_stack m) !! n) eqn:E.
  - split_and!; [apply core_inv_stack; [done|]|repeat split; done|intros y [= <-]; auto].
    split; cbn [stk_data stk_limit]; [by apply Forall_insert|by rewrite length_insert].
  - split_and!; [apply core_inv_stack; [done|by split]|repeat split; done|by intros].
Qed.

(** The charged memory covers a range. *)
Definition covers (offset len : Z) (m : Machine) : Prop :=
  len = 0 ∨ offset + len <= mem_effective_len (mc_memory m).

Lemma evals_resize offset len :
  word offset -> word len ->
  evals any_state (resize_offset offset len)
    (fun _ m => covers offset len m ∧ (len = 0 ∨ offset + len < u256_modulus)).
Proof.
  intros Ho Hl m Hi _. unfold resize_offset.
  destruct (Memory_resize_offset _ _ _) as [mem|e] eqn:E; [|split_and!; [done..|by intros]].
  destruct (resize_offset_Ok _ _ _ _ Ho Hl E) as (Hd & Hlim & Hc & Hm & Hov).
  destruct (ci_memory _ Hi) as [W1 W2 W3 W4 W5 W6].
  assert (mem_effective_len (mc_memory m) <= mem_effective_len mem) by (destruct Hm as [->|(_ & _ & ?)]; lia).
  split_and!; [apply core_inv_memory; [done|]|repeat split; done|by intros [] [= ]].
  split; rewrite ?Hd, ?Hlim; try done; [lia| |]; destruct Hm as [->|(? & ? & ?)]; done.
Qed.

Lemma Memory_set_wf m offset value size m' r :
  memory_wf m -> Forall byte_ok value -> 0 <= offset -> 0 <= size ->
  (size = 0 ∨ offset + size <= mem_effective_len m) ->
  Memory_set m offset value (Some size) = (m', r) ->
  memory_wf m' ∧ mem_limit m' = mem_limit m ∧ mem_effective_len m' = mem_effective_len m.
Proof.
  intros W Hv Ho Hs Hc E. destruct r as [[]|e].
  - destruct (Memory_set_Ok _ _ _ _ _ Ho Hs E) as (He & Hlim & Hl & Hlen & Hr).
    destruct W as [W1 W2 W3 W4 W5 W6]. split; [|done].
    split; rewrite ?He, ?Hlim; try done.
    + apply Forall_lookup. intros i b Hb. assert (b = mem_read m' (Z.of_nat i)) as ->.
      { unfold mem_read. rewrite byte_at_lookup, Nat2Z.id, Hb by lia. done. }
      assert (forall l : bytes, Forall byte_ok l -> forall j, byte_ok (default 0 (l !! j))) as Hok.
      { intros l Hl' j. destruct (l !! j) eqn:El; [by eapply Forall_lookup_1 in El|done]. }
      rewrite Hr by lia. case_decide; [by apply Hok|]. unfold mem_read. rewrite byte_at_lookup by lia. by apply Hok.
    + rewrite Hlen. destruct (Z.eqb_spec size 0); lia.
    + rewrite Hlen. destruct (Z.eqb_spec size 0); lia.
  - unfold Memory_set in E. change (default _ (Some size)) with size in E. cbv zeta in E.
    destruct (size =? 0); [done|]. destruct (_ || _); simplify_eq. done.
Qed.

Lemma evals_memory_set offset value size :
  Forall byte_ok value -> 0 <= offset -> 0 <= size ->
  evals (covers offset size) (memory_set offset value (Some size)) (fun _ _ => True).
Proof.
  intros Hv Ho Hs m Hi Hc. unfold memory_set.
  destruct (Memory_set _ _ _ _) as [mem r] eqn:E.
  destruct (Memory_set_wf _ _ _ _ _ _ (ci_memory _ Hi) Hv Ho Hs Hc E) as (Hw & Hlim & He).
  destruct r; (split_and!; [by apply core_inv_memory|repeat split; simpl; (done || lia)|done]).
Qed.

Lemma copy_source_bytes data_offset len data :
  Forall byte_ok data -> Forall byte_ok (copy_source data_offset len data).
Proof.
  intros Hd. unfold copy_source. repeat case_match; try constructor. by apply Forall_drop, Forall_take.
Qed.

Lemma evals_copy_large memory_offset data_offset len data :
  Forall byte_ok data -> word memory_offset -> word len ->
  evals (covers memory_offset len) (copy_large memory_offset data_offset len data) (fun _ _ => True).
Proof.
  intros Hd Hm Hl m Hi Hc. unfold copy_large, Memory_copy_large.
  destruct (len =? 0); [split_and!; [by destruct Hi|repeat split; done|done]|].
  destruct (usize_max <? memory_offset); [split_and!; [by destruct Hi|repeat split; done|done]|].
  destruct (usize_max <? len); [split_and!; [by destruct Hi|repeat split; done|done]|].
  apply (evals_memory_set memory_offset (copy_source data_offset len data) len); try done.
  - by apply copy_source_bytes.
  - apply Hm.
  - apply Hl.
Qed.

Lemma evals_pre {A} (φ : Prop) P (c : EvalM A) Q :
  (φ -> evals P c Q) -> evals (fun m => φ ∧ P m) c Q.
Proof. intros H m Hi [Hφ HP]. by apply H. Qed.

Lemma be_value_bound l : Forall byte_ok l -> 0 <= be_value l < 256 ^ Z.of_nat (length l).
Proof.
  induction l as [|b l IH] using rev_ind; [done|].
  intros [Hl [Hb _]%Forall_cons]%Forall_app. specialize (IH Hl). unfold byte_ok in Hb.
  rewrite be_value_snoc, length_app, Nat.add_1_r, Nat2Z.inj_succ, Z.pow_succ_r by lia. lia.
Qed.

Lemma word_be_value l : length l = 32%nat -> Forall byte_ok l -> word (be_value l).
Proof. intros Hl Hb. pose proof (be_value_bound l Hb) as H. by rewrite Hl in H. Qed.

Lemma byte_at_ok data p : Forall byte_ok data -> byte_ok (default 0 (byte_at data p)).
Proof.
  intros Hd. unfold byte_at. case_match; [|done].
  destruct (data !! _) eqn:E; [by eapply Forall_lookup_1 in E|done].
Qed.

Lemma get_loop_bytes n data p :
  Forall byte_ok data -> length (get_loop n data p) = n ∧ Forall byte_ok (get_loop n data p).
Proof.
  intros Hd. revert p. induction n as [|n IH]; intros p; [done|]. cbn [get_loop].
  destruct (byte_at data p) as [b|] eqn:E.
  - destruct (IH (p +u64 1)) as [H1 H2]. split; [simpl; by rewrite H1|]. constructor; [|done].
    pose proof (byte_at_ok data p Hd) as H. by rewrite E in H.
  - split; [apply length_replicate|by apply Forall_replicate].
Qed.

Lemma load_data_bytes data index :
  Forall byte_ok data -> length (load_data data index) = 32%nat ∧ Forall byte_ok (load_data data index).
Proof.
  intros Hd. split; [done|]. apply Forall_fmap, Forall_true. intros i. simpl.
  repeat case_match; (by apply byte_at_ok) || done.
Qed.

Lemma push_slice_bytes code n position :
  (n <= 32)%nat -> Forall byte_ok code ->
  length (push_slice code n position) = 32%nat ∧ Forall byte_ok (push_slice code n position).
Proof.
  intros Hn Hc. unfold push_slice. set (s := take n _).
  assert (length s <= n)%nat by (unfold s; rewrite length_take; lia). split.
  - rewrite !length_app, !length_replicate. lia.
  - apply Forall_app; split; [by apply Forall_replicate|]. apply Forall_app; split.
    + unfold s. by apply Forall_take, Forall_drop.
    + by apply Forall_replicate.
Qed.

(** ** Evaluation of every opcode *)

Definition control_ok (len : Z) (c : Control) (m : Machine) : Prop :=
  match c with
  | Continue n => n = len
  | Jump p => 0 <= p ∧ is_valid (mc_valids m) p = true
  | ControlExit _ => True
  | ControlTrap _ => len = 1
  end.

Definition fn_len (f : EvalFn) : Z := match f with Eval_push n => 1 + Z.of_nat n | _ => 1 end.

Ltac ev_pop := eapply evals_bind; [apply evals_pop, stackless_any|intros ?; apply evals_pre; intros ?].
Ltac ev_push := eapply evals_bind; [apply evals_push; [|apply stackless_any]|intros []; apply evals_ret; done].

Lemma evals_op1 op :
  (forall a, word a -> word (op a)) -> evals any_state (op1_u256_fn op) (control_ok 1).
Proof. intros Hop. unfold op1_u256_fn. ev_pop. ev_push. auto. Qed.

Lemma evals_op2_bool op : evals any_state (op2_u256_bool_ref op) (control_ok 1).
Proof. unfold op2_u256_bool_ref. do 2 ev_pop. ev_push. auto with chase. Qed.

Lemma evals_op2 op :
  (forall a b, word a -> word b -> word (op a b)) -> evals any_state (op2_u256 op) (control_ok 1).
Proof. intros Hop. unfold op2_u256. do 2 ev_pop. ev_push. auto. Qed.

Lemma evals_op2_fn op : words2 op -> evals any_state (op2_u256_fn op) (control_ok 1).
Proof.
  intros Hop. unfold op2_u256_fn. do 2 ev_pop.
  eapply evals_bind; [apply (evals_lift _ _ (fun x _ => word x ∧ True))|].
  - intros m _ _. destruct (Hop x x0) as (r & ? & ?); [done..|]. eauto.
  - intros r. apply evals_pre. intros Hr. by ev_push.
Qed.

Lemma evals_op3_fn op :
  (forall a b c, word a -> word b -> word c -> exists r, op a b c = Some r ∧ word r) ->
  evals any_state (op3_u256_fn op) (control_ok 1).
Proof.
  intros Hop. unfold op3_u256_fn. do 3 ev_pop.
  eapply evals_bind; [apply (evals_lift _ _ (fun x _ => word x ∧ True))|].
  - intros m _ _. destruct (Hop x x0 x1) as (r & ? & ?); [done..|]. eauto.
  - intros r. apply evals_pre. intros Hr. by ev_push.
Qed.

Lemma evals_get_bind {A} P (f : Machine -> EvalM A) Q :
  (forall x, core_inv x -> P x -> evals (fun m => m = x ∧ P m) (f x) Q) -> evals P (em_get ≫= f) Q.
Proof. intros Hf m Hi HP. by apply (Hf m Hi HP m Hi). Qed.

(** The machine read by [em_get], when only its invariant matters afterwards. *)
Lemma evals_get_inv {A} P (f : Machine -> EvalM A) Q :
  (forall x, core_inv x -> evals P (f x) Q) -> evals P (em_get ≫= f) Q.
Proof.
  intros Hf. apply evals_get_bind. intros x Hx _. eapply evals_weaken; [by apply Hf|]. by intros m [_ ?].
Qed.

Lemma evals_consequence {A} P (c : EvalM A) Q R :
  evals P c Q -> (forall x m, Q x m -> R x m) -> evals P c R.
Proof.
  intros Hc HQ m Hi HP. specialize (Hc m Hi HP). destruct (c m) as [[m' r]|]; [|done].
  destruct Hc as (? & ? & H). split_and!; [done..|]. intros x Hx. auto.
Qed.

Ltac ev_resize :=
  eapply evals_bind; [apply evals_resize|intros []; eapply evals_weaken; [|by intros ? [? _]]].

Ltac ev_usize :=
  eapply evals_bind; [apply evals_usize|intros ?; apply evals_pre; intros ->; apply evals_pre; intros ?].

Ltac ev_done := intros []; apply evals_ret; done.

Lemma word_len {A} (l : list A) : Z.of_nat (length l) <= usize_max -> word (Z.of_nat (length l)).
Proof. unfold usize_max, u64_max. word_lia. Qed.

Lemma evals_codesize : evals any_state eval_codesize (control_ok 1).
Proof. apply evals_get_inv. intros x Hx. ev_push. apply word_len, Hx. Qed.

Lemma evals_calldatasize : evals any_state eval_calldatasize (control_ok 1).
Proof. apply evals_get_inv. intros x Hx. ev_push. apply word_len, Hx. Qed.

Lemma evals_msize : evals any_state eval_msize (control_ok 1).
Proof. apply evals_get_inv. intros x Hx. ev_push. apply Hx. Qed.

Lemma evals_calldataload : evals any_state eval_calldataload (control_ok 1).
Proof.
  unfold eval_calldataload. ev_pop. apply evals_get_inv. intros y Hy. ev_push.
  apply word_be_value; apply load_data_bytes, Hy.
Qed.

Lemma evals_codecopy : evals any_state eval_codecopy (control_ok 1).
Proof.
  unfold eval_codecopy. do 3 ev_pop. ev_resize; [done..|]. apply evals_get_inv. intros m Hm.
  eapply evals_bind; [by apply evals_copy_large; [apply Hm|..]|ev_done].
Qed.

Lemma evals_calldatacopy : evals any_state eval_calldatacopy (control_ok 1).
Proof.
  unfold eval_calldatacopy. do 3 ev_pop. ev_resize; [done..|].
  case_match; [by apply evals_ret|]. apply evals_get_inv. intros m Hm.
  eapply evals_bind; [by apply evals_copy_large; [apply Hm|..]|ev_done].
Qed.

Lemma evals_mload : evals any_state eval_mload (control_ok 1).
Proof.
  unfold eval_mload. ev_pop. ev_resize; [done..|]. ev_usize. apply evals_get_inv. intros m Hm.
  apply (evals_weaken _ any_state); [|done]. ev_push.
  apply word_be_value; unfold Memory_get; apply get_loop_bytes, Hm.
Qed.

Lemma evals_mstore : evals any_state eval_mstore (control_ok 1).
Proof.
  unfold eval_mstore. do 2 ev_pop. ev_resize; [done..|]. ev_usize.
  eapply evals_bind; [apply evals_memory_set; [apply be_bytes_range|by apply H|done]|ev_done].
Qed.

Lemma evals_mstore8 : evals any_state eval_mstore8 (control_ok 1).
Proof.
  unfold eval_mstore8. do 2 ev_pop. ev_resize; [done..|]. ev_usize.
  eapply evals_bind; [apply evals_memory_set; [|by apply H|done]|ev_done].
  apply Forall_singleton. unfold byte_ok. change 0xff with (Z.ones 8). rewrite Z.land_ones by lia.
  by apply Z.mod_pos_bound.
Qed.

Lemma evals_jump_to dest : word dest -> evals any_state (jump_to dest) (control_ok 1).
Proof.
  intros Hd. unfold jump_to. ev_usize. apply evals_get_bind. intros m Hm _.
  destruct (is_valid (mc_valids m) dest) eqn:E; [|apply evals_fail].
  apply evals_ret. intros m' _ [-> _]. split; [apply Hd|done].
Qed.

Lemma evals_finish_range reason : evals any_state (finish_range reason) (control_ok 1).
Proof.
  unfold finish_range. ev_pop. ev_pop.
  eapply evals_bind; [by apply evals_resize|intros [] m Hi [_ Hov]].
  unfold u256_add, u256_checked_add. unfold mbind, EM_bind, em_lift, em_modify.
  destruct (Z.ltb_spec (x + x0) u256_modulus) as [Hlt|Hge].
  2: { destruct Hov as [->|]; word_lia. }
  cbn. split_and!; [|repeat split; done|by intros ? [= <-]].
  destruct Hi. split; try done. cbn. unfold word in *. lia.
Qed.

Lemma evals_dup n : evals any_state (eval_dup n) (control_ok 1).
Proof.
  unfold eval_dup. eapply evals_bind; [apply evals_peek|intros y; apply evals_pre; intros ?]. by ev_push.
Qed.

Lemma evals_swap n : evals any_state (eval_swap n) (control_ok 1).
Proof.
  unfold eval_swap. do 2 (eapply evals_bind; [apply evals_peek|intros ?; apply evals_pre; intros ?]).
  eapply evals_bind; [by apply evals_stack_set|intros []].
  eapply evals_bind; [by apply evals_stack_set|ev_done].
Qed.

Lemma evals_eval_push n position :
  (n <= 32)%nat -> evals any_state (eval_push n position) (control_ok (1 + Z.of_nat n)).
Proof.
  intros Hn. apply evals_get_inv. intros m Hm. ev_push.
  apply word_be_value; apply push_slice_bytes; (done || apply Hm).
Qed.

Definition fn_ok (f : EvalFn) : Prop := match f with Eval_push n => (n <= 32)%nat | _ => True end.

(** Every function of the table keeps the machine well formed and cannot panic. *)
Lemma evals_fn f opcode position :
  fn_ok f -> word position -> evals any_state (eval_fn f opcode position) (control_ok (fn_len f)).
Proof.
  intros Hf Hp. destruct f; cbn [eval_fn fn_len];
    match goal with
    | |- evals _ (mret _) _ => by apply evals_ret
    | |- evals _ (op2_u256_bool_ref _) _ => apply evals_op2_bool
    | |- evals _ (op2_u256_fn _) _ => apply evals_op2_fn; auto with chase
    | |- evals _ (op3_u256_fn _) _ => apply evals_op3_fn; auto with chase
    | |- evals _ (op2_u256 _) _ =>
        apply evals_op2; unfold overflowing_add, overflowing_mul, overflowing_sub; auto with chase
    | _ => idtac
    end.
  - apply evals_op1. intros a _. apply word_bool.
  - apply evals_op1. auto with chase.
  - apply evals_codesize.
  - apply evals_codecopy.
  - apply evals_calldataload.
  - apply evals_calldatasize.
  - apply evals_calldatacopy.
  - unfold eval_pop. ev_pop. by apply evals_ret.
  - apply evals_mload.
  - apply evals_mstore.
  - apply evals_mstore8.
  - unfold eval_jump. ev_pop. by apply evals_jump_to.
  - unfold eval_jumpi. do 2 ev_pop. case_match; [by apply evals_ret|by apply evals_jump_to].
  - unfold eval_pc. by ev_push.
  - apply evals_msize.
  - by apply evals_eval_push.
  - apply evals_dup.
  - apply evals_swap.
  - apply evals_finish_range.
  - apply evals_finish_range.
Qed.

(** The dispatch table agrees with the instruction lengths of the jump table. *)
Lemma decode_spec opcode :
  byte_ok opcode -> fn_ok (decode opcode) ∧ fn_len (decode opcode) = Z.of_nat (instr_len opcode).
Proof.
  intros Hb. set (ok := fun b => match decode b with
    | Eval_push n => (n <=? 32)%nat && (1 + Z.of_nat n =? Z.of_nat (instr_len b))
    | _ => Nat.eqb (instr_len b) 1 end).
  assert (forallb ok (Z.of_nat <$> seq 0 256) = true) as Hall by (vm_compute; reflexivity).
  assert (ok opcode = true) as Hok.
  { rewrite forallb_forall in Hall. apply Hall, list_elem_of_In, list_elem_of_fmap. exists (Z.to_nat opcode).
    unfold byte_ok in Hb. split; [lia|]. apply elem_of_seq. lia. }
  clear Hall. subst ok. cbv beta in Hok. revert Hok.
  generalize (decode opcode) as f, (instr_len opcode) as l. intros f l.
  destruct f; cbn [fn_ok fn_len]; intros Hok;
    match type of Hok with
    | _ && _ = true => apply andb_true_iff in Hok as [H1%Nat.leb_le H2%Z.eqb_eq]; done
    | _ => apply Nat.eqb_eq in Hok as ->; done
    end.
Qed.

Lemma Machine_step_wf m :
  machine_wf m ->
  exists m' r, Machine_step m = Some (m', r) ∧ machine_wf m' ∧
    mc_code m' = mc_code m ∧ mc_data m' = mc_data m ∧
    mem_effective_len (mc_memory m) <= mem_effective_len (mc_memory m').
Proof.
  intros [Hi Hp]. unfold Machine_step. destruct (mc_position m) as [p|e] eqn:Ep.
  2: { eexists _, _. by split_and!. }
  destruct (Hp p Ep) as [Hp0 Hb].
  destruct (byte_at (mc_code m) p) as [opcode|] eqn:Hop.
  2: { eexists _, _. split_and!; try done. split; [by destruct Hi|]. intros q. by cbn. }
  rewrite byte_at_lookup in Hop by done. destruct (Forall_lookup_1 _ _ _ _ (ci_code _ Hi) Hop) as [Hb0 Hb1].
  destruct (decode_spec opcode (conj Hb0 Hb1)) as [Hf Hlen].
  assert (word p) as Hw.
  { apply lookup_lt_Some in Hop. pose proof (ci_code_len _ Hi). unfold usize_max, u64_max in *. word_lia. }
  pose proof (evals_fn (decode opcode) opcode p Hf Hw m Hi I) as H. unfold eval.
  destruct (eval_fn (decode opcode) opcode p m) as [[m1 r]|]; [|done].
  destruct H as (Hi1 & (F1 & F2 & F3 & F4 & F5 & F6) & HQ).
  assert (forall x, core_inv (set_position x m1)) as Hi1' by (intros x; by destruct Hi1).
  assert (boundary (mc_code m) (Z.to_nat (p + Z.of_nat (instr_len opcode)))) as Hnext.
  { rewrite Z2Nat.inj_add, Nat2Z.id by lia. by apply boundary_next. }
  destruct r as [[k|e|q|t]|e]; try specialize (HQ _ eq_refl); cbn [control_ok] in HQ;
    eexists _, _; (split_and!; [done|split; [apply Hi1'|]|done..]); intros q'; cbn [set_position mc_position mc_code];
    intros [= <-]; rewrite F1.
  - rewrite HQ, Hlen. split; [lia|done].
  - destruct HQ as [Hq Hv]. split; [done|]. rewrite (ci_valids _ Hi1), F1 in Hv.
    by apply is_valid_spec in Hv as [? _].
  - rewrite HQ in Hlen. rewrite <- Hlen in Hnext. split; [lia|done].
Qed.

Lemma Machine_new_wf code data stack_limit memory_limit :
  Forall byte_ok code -> Forall byte_ok data ->
  Z.of_nat (length code) <= usize_max -> Z.of_nat (length data) <= usize_max ->
  0 <= stack_limit -> 0 <= memory_limit <= usize_max ->
  machine_wf (Machine_new code data stack_limit memory_limit).
Proof.
  intros. split.
  - split; cbn; try done; split; cbn; try done; lia.
  - intros p [= <-]. split; [done|]. apply rtc_refl.
Qed.

(** ** Theorems *)

(** The machines a run visits. *)
Definition machine_steps : Machine -> Machine -> Prop :=
  rtc (fun m m' => exists r, Machine_step m = Some (m', r)).

(** C23. Type soundness of the machine.  Every machine a run from the start of a program
    visits is well formed: the stack holds words and is within its limit, memory
    holds bytes and is covered by the charged length, which is a multiple of 32, and
    the position is at an instruction boundary or past the code.  The next step never
    panics, so the run ends only by exiting or trapping. *)
Theorem machine_run_sound code data stack_limit memory_limit m :
  Forall byte_ok code -> Forall byte_ok data ->
  Z.of_nat (length code) <= usize_max -> Z.of_nat (length data) <= usize_max ->
  0 <= stack_limit -> 0 <= memory_limit <= usize_max ->
  machine_steps (Machine_new code data stack_limit memory_limit) m ->
  machine_wf m ∧ mc_code m = code ∧ exists m' r, Machine_step m = Some (m', r).
Proof.
  intros Hc Hd Hcl Hdl Hs Hm Hr.
  cut (machine_wf m ∧ mc_code m = code).
  { intros [Hw E]. split_and!; [done..|]. destruct (Machine_step_wf m Hw) as (m' & r & ? & _). eauto. }
  remember (Machine_new code data stack_limit memory_limit) as m0 eqn:E0.
  assert (machine_wf m0 ∧ mc_code m0 = code) as H0.
  { subst. split; [by apply Machine_new_wf|done]. }
  clear E0. induction Hr as [|m0 m1 m2 [r E] _ IH]; [done|]. apply IH.
  destruct H0 as [Hw <-]. destruct (Machine_step_wf m0 Hw) as (m' & r' & E' & Hw' & Ec & _).
  simplify_eq. done.
Qed.

Definition sample_machine : Machine :=
  Machine_new [Opcode.PUSH1; 0x05; Opcode.JUMP; 0x5b; 0xff; Opcode.JUMPDEST] [] 1024 usize_max.

Lemma sample_machine_wf : machine_wf sample_machine.
Proof. apply Machine_new_wf; try done; repeat constructor; done. Qed.

Lemma machine_run_sound_witness :
  exists m, machine_steps sample_machine m ∧ mc_position m = Ok 5 ∧ machine_wf m.
Proof.
  eexists. assert (machine_steps sample_machine
    (set_position (Ok 5) (set_stack (mkStack [] 1024) sample_machine))) as Hr.
  { eapply rtc_l; [eexists; vm_compute; reflexivity|].
    eapply rtc_l; [eexists; vm_compute; reflexivity|]. apply rtc_refl. }
  split_and!; [exact Hr|done|].
  apply (machine_run_sound [Opcode.PUSH1; 0x05; Opcode.JUMP; 0x5b; 0xff; Opcode.JUMPDEST] [] 1024 usize_max);
    try done; repeat constructor; done.
Defined.

(** C39. A jump succeeds exactly on a [JUMPDEST] byte that starts an instruction, not on
    one inside the operand of a push; any other target, however large, is an
    [InvalidJump] error.  The target is popped in both cases. *)
Theorem eval_jump_correct m dest rest :
  machine_wf m -> stk_data (mc_stack m) = dest :: rest ->
  let m' := set_stack (mkStack rest (stk_limit (mc_stack m))) m in
  let target := boundary (mc_code m) (Z.to_nat dest) ∧
                mc_code m !! Z.to_nat dest = Some Opcode.JUMPDEST in
  (target -> eval_jump m = Some (m', Ok (Jump dest))) ∧
  (¬ target -> eval_jump m = Some (m', Err (ExitReasonError InvalidJump))).
Proof.
  intros [Hi _] Hs m' target. destruct (ci_stack _ Hi) as [Hw _]. rewrite Hs in Hw.
  apply Forall_cons in Hw as [[Hd0 Hd1] _].
  unfold eval_jump, jump_to, mbind, EM_bind, pop_u256, Stack_pop. rewrite Hs. fold m'.
  unfold as_usize_or_fail. destruct (Z.ltb_spec usize_max dest) as [Hbig|Hsmall].
  - split; [|done]. intros [_ Hc%lookup_lt_Some]. pose proof (ci_code_len _ Hi). lia.
  - cbn [mret EM_ret em_get]. change (mc_valids m') with (mc_valids m). rewrite (ci_valids _ Hi).
    pose proof (is_valid_spec (mc_code m) dest Hd0) as Hv. fold target in Hv.
    destruct (is_valid _ _); split; intros Ht; [done| | |done]; exfalso.
    + by apply Ht, Hv.
    + apply Hv in Ht. done.
Qed.

Lemma eval_jump_correct_witness :
  let m := set_stack (mkStack [5] 1024) sample_machine in
  eval_jump m = Some (set_stack (mkStack [] 1024) m, Ok (Jump 5)).
Proof.
  intros m. apply (eval_jump_correct m 5 []); [|done|].
  - destruct sample_machine_wf as [[] Hp]. split; [|done]. split; try done.
    split; [by repeat constructor|done].
  - split; [|reflexivity]. apply (is_valid_spec (mc_code m) 5); [done|]. vm_compute. reflexivity.
Defined.

(** C40. Memory reads back what was written: after a successful [set] of [size] bytes
    at [offset], reading any range returns the bytes of the value inside the
    written range, zero where the value is shorter than [size], and the previous
    contents elsewhere, where bytes beyond the data read as zero. *)
Theorem memory_get_set m offset value size m' p n :
  memory_wf m -> 0 <= offset -> 0 <= size -> 0 <= p ->
  Memory_set m offset value (Some size) = (m', Ok tt) ->
  Memory_get m' p n =
    (fun i =>
       let q := p + Z.of_nat i in
       if decide (offset <= q < offset + size) then default 0 (value !! Z.to_nat (q - offset))
       else default 0 (mem_data m !! Z.to_nat q)) <$> seq 0 (Z.to_nat n).
Proof.
  intros Hw Ho Hs Hp E. destruct (Memory_set_Ok _ _ _ _ _ Ho Hs E) as (_ & Hlim & Hl & Hlen & Hr).
  destruct Hw as [_ _ _ _ W5 W6]. unfold Memory_get. rewrite get_loop_spec; [|done|].
  - apply list_fmap_ext. intros j i _. specialize (Hr (p + Z.of_nat i)). unfold mem_read in Hr.
    rewrite Hr by lia. case_decide; [done|]. by rewrite byte_at_lookup by lia.
  - rewrite Hlen. unfold usize_max, u64_max, u64_modulus in *. destruct (Z.eqb_spec size 0); lia.
Qed.

Lemma memory_get_set_witness :
  exists m', Memory_set (mkMemory [] 32 usize_max) 2 [7; 8; 9] (Some 4) = (m', Ok tt) ∧
    Memory_get m' 0 8 = [0; 0; 7; 8; 9; 0; 0; 0].
Proof.
  eexists. split; [reflexivity|].
  by rewrite (memory_get_set (mkMemory [] 32 usize_max) 2 [7; 8; 9] 4).
Defined.
