(* ===== verification/EvmRuntime.v ===== *)
(** * The EVM runtime

    src/crates/chase-evm/runtime/src: context.rs, handler.rs, interrupt.rs, eval/
    and [Runtime] of lib.rs; external.rs of the core.

    The runtime steps a machine and serves the opcodes that leave it as traps,
    asking a handler for everything outside the machine.  [Handler] is the trait
    as a class over the handler's state; [I] is the type of the interrupts that
    suspend the runtime for a nested call or creation.  The [mvcc] and [tracing]
    features of the crate are off.

    [Hashes] stands for the sha3 and rlp crates. *)

From S2P Require Import Prelude Bytes Types EvmWord EvmCore.
Local Open Scope Z_scope.
Local Open Scope chase_scope.

Class Hashes := {
  (** [Keccak256::digest], as a 256-bit number *)
  keccak256 : bytes -> H256;
  (** the RLP encoding of the list of an address and a nonce *)
  rlp_address_nonce : H160 -> U256 -> bytes
}.

(** ** Context *)

Inductive CreateScheme :=
| SchemeLegacy (caller : H160)
| SchemeCreate2 (caller : H160) (code_hash salt : H256)
| SchemeFixed (address : H160).

Inductive CallScheme := SchemeCall | SchemeCallCode | SchemeDelegateCall | SchemeStaticCall.

Record Transfer := mkTransfer { tr_source : H160; tr_target : H160; tr_value : U256 }.

Inductive ExternalOperation :=
| AccountBasicRead
| AddressCodeRead (address : H160)
| IsEmpty
| WriteOperation.

(** [H160::from(H256)] keeps the low 20 bytes; the converse direction is the
    identity on the numbers. *)
Definition H160_from (x : H256) : H160 := x mod 2 ^ 160.

(** ** Handler

    The methods that read and update the handler's state, then those that run
    with their help. *)

Class HandlerOps (H : Type) := {
  h_balance : H -> H160 -> U256;
  h_code_size : H -> H160 -> U256;
  h_code_hash : H -> H160 -> H256;
  h_code : H -> H160 -> bytes;
  h_storage : H160 -> H256 -> H -> H * Result H256 ExitError;
  h_original_storage : H160 -> H256 -> H -> H * Result H256 ExitError;
  h_gas_left : H -> U256;
  h_gas_price : H -> U256;
  h_origin : H -> H160;
  (** [None] is an out-of-range index. *)
  h_block_hash : H -> U256 -> option H256;
  h_block_number : H -> U256;
  h_block_coinbase : H -> H160;
  h_block_timestamp : H -> U256;
  h_block_difficulty : H -> U256;
  h_block_randomness : H -> option H256;
  h_block_gas_limit : H -> U256;
  h_block_base_fee_per_gas : H -> U256;
  h_chain_id : H -> U256;
  h_exists : H -> H160 -> bool;
  h_deleted : H -> H160 -> bool;
  h_is_cold : H160 -> option H256 -> H -> H * Result bool ExitError;
  h_set_storage : H160 -> H256 -> H256 -> H -> H * Result unit ExitError;
  h_log : H160 -> list H256 -> bytes -> H -> H * Result unit ExitError;
  h_mark_delete : H160 -> H160 -> H -> H * Result unit ExitError;
  h_record_external_operation : ExternalOperation -> H -> H * Result unit ExitError
}.

Class Handler (H I : Type) := {
  h_ops :: HandlerOps H;
  h_create : H160 -> CreateScheme -> U256 -> bytes -> option Z -> H ->
    option (H * Capture (ExitReason * option H160 * bytes) I);
  h_call : H160 -> option Transfer -> bytes -> option Z -> bool -> Context -> H ->
    option (H * Capture (ExitReason * bytes) I);
  h_pre_validate : Context -> Z -> Stack -> H -> option (H * Result unit ExitError)
}.

(** [Handler::other], the default method. *)
Definition handler_other {H} (opcode : Z) (h : H) : H * Result unit ExitError :=
  (h, Err (InvalidCode opcode)).

(** ** Runtime *)

Record Runtime := mkRuntime {
  rt_machine : Machine;
  rt_status : Result unit ExitReason;
  rt_return_data_buffer : bytes;
  rt_return_data_len : U256;
  rt_return_data_offset : U256;
  rt_context : Context
}.

Definition Runtime_new (code data : bytes) (context : Context) (stack_limit memory_limit : Z) : Runtime :=
  mkRuntime (Machine_new code data stack_limit memory_limit) (Ok tt) [] 0 0 context.

Definition set_machine (m : Machine) (rt : Runtime) : Runtime :=
  mkRuntime m (rt_status rt) (rt_return_data_buffer rt) (rt_return_data_len rt)
    (rt_return_data_offset rt) (rt_context rt).
Definition set_status (s : Result unit ExitReason) (rt : Runtime) : Runtime :=
  mkRuntime (rt_machine rt) s (rt_return_data_buffer rt) (rt_return_data_len rt)
    (rt_return_data_offset rt) (rt_context rt).
Definition set_return_data_buffer (b : bytes) (rt : Runtime) : Runtime :=
  mkRuntime (rt_machine rt) (rt_status rt) b (rt_return_data_len rt)
    (rt_return_data_offset rt) (rt_context rt).
Definition set_return_data_target (len offset : U256) (rt : Runtime) : Runtime :=
  mkRuntime (rt_machine rt) (rt_status rt) (rt_return_data_buffer rt) len offset (rt_context rt).

Abbreviation RuntimeM := (EM Runtime ExitReason).

(** An operation of the machine inside the runtime. *)
Definition on_machine {A} (c : EvalM A) : RuntimeM A := fun rt =>
  match c (rt_machine rt) with
  | Some (m, r) => Some (set_machine m rt, r)
  | None => None
  end.

(** *** Resuming after a nested call or creation *)

(** [copy_large] whose error is observed instead of returned. *)
Definition try_copy_large (memory_offset data_offset len : U256) (data : bytes) : EvalM bool := fun m =>
  let '(mem, r) := Memory_copy_large (mc_memory m) memory_offset data_offset len data in
  Some (set_memory mem m, Ok (match r with Ok _ => true | Err _ => false end)).

Definition finish_create (reason : ExitReason) (address : option H160) (return_data : bytes) :
    RuntimeM unit :=
  _ ← em_modify (set_return_data_buffer return_data);
  let create_address := default 0 address in
  match reason with
  | Succeed _ => on_machine (push_u256 create_address)
  | Revert _ => on_machine (push_u256 0)
  | ExitReasonError _ => on_machine (push_u256 0)
  | Fatal e => _ ← on_machine (push_u256 0); em_fail (Fatal e)
  end.

Definition finish_call (out_len out_offset : U256) (reason : ExitReason) (return_data : bytes) :
    RuntimeM unit :=
  _ ← em_modify (set_return_data_buffer return_data);
  let target_len := Z.min out_len (Z.of_nat (length return_data)) in
  match reason with
  | Succeed _ =>
      copied ← on_machine (try_copy_large out_offset 0 target_len return_data);
      on_machine (push_u256 (if copied : bool then 1 else 0))
  | Revert _ =>
      _ ← on_machine (push_u256 0);
      _ ← on_machine (try_copy_large out_offset 0 target_len return_data);
      mret tt
  | ExitReasonError _ => on_machine (push_u256 0)
  | Fatal e => _ ← on_machine (push_u256 0); em_fail (Fatal e)
  end.

Definition Runtime_finish_call (reason : ExitReason) (return_data : bytes) : RuntimeM unit :=
  rt ← em_get;
  finish_call (rt_return_data_len rt) (rt_return_data_offset rt) reason return_data.

(** ** The opcodes of eval/system.rs *)

Section system.
Context {H I : Type} `{Handler H I, Hashes}.

Inductive RControl :=
| RContinue
| CallInterrupt (i : I)
| CreateInterrupt (i : I)
| RExit (e : ExitReason).

Abbreviation SystemM := (EM (Runtime * H) ExitReason).

(** An operation of the runtime alone. *)
Definition on_runtime {A} (c : RuntimeM A) : SystemM A := fun '(rt, h) =>
  match c rt with
  | Some (rt', r) => Some ((rt', h), r)
  | None => None
  end.

Definition sys_machine {A} (c : EvalM A) : SystemM A := on_runtime (on_machine c).

Definition ask {A} (f : H -> A) : SystemM A := fun '(rt, h) => Some ((rt, h), Ok (f h)).

(** A handler operation whose error ends the runtime. *)
Definition handled {A} (f : H -> H * Result A ExitError) : SystemM A := fun '(rt, h) =>
  let '(h', r) := f h in
  match r with
  | Ok x => Some ((rt, h'), Ok x)
  | Err e => Some ((rt, h'), Err (ExitReasonError e))
  end.

(** A handler operation whose result is unwrapped. *)
Definition unwrapped {A} (f : H -> H * Result A ExitError) : SystemM A := fun '(rt, h) =>
  let '(h', r) := f h in
  match r with
  | Ok x => Some ((rt, h'), Ok x)
  | Err _ => None
  end.

Definition this_context : SystemM Context := on_runtime (rt ← em_get; mret (rt_context rt)).

Definition sys_pop : SystemM U256 := sys_machine pop_u256.
Definition push_value (x : U256) : SystemM RControl := _ ← sys_machine (push_u256 x); mret RContinue.

(** The memory range as data: empty for a zero length, whatever the offset. *)
Definition memory_slice (offset len : U256) : EvalM bytes :=
  if len =? 0 then mret []
  else
    offset ← as_usize_or_fail offset (Fatal NotSupported);
    len ← as_usize_or_fail len (Fatal NotSupported);
    m ← em_get;
    mret (Memory_get (mc_memory m) offset len).

Definition sha3 : SystemM RControl :=
  from ← sys_pop; len ← sys_pop;
  _ ← sys_machine (resize_offset from len);
  data ← sys_machine (memory_slice from len);
  push_value (keccak256 data).

Definition chainid : SystemM RControl := x ← ask h_chain_id; push_value x.
Definition sys_address : SystemM RControl := c ← this_context; push_value (ctx_address c).

Definition sys_balance : SystemM RControl :=
  address ← sys_pop; x ← ask (fun h => h_balance h (H160_from address)); push_value x.

Definition selfbalance : SystemM RControl :=
  c ← this_context; x ← ask (fun h => h_balance h (ctx_address c)); push_value x.

Definition sys_origin : SystemM RControl := x ← ask h_origin; push_value x.
Definition sys_caller : SystemM RControl := c ← this_context; push_value (ctx_caller c).
Definition callvalue : SystemM RControl := c ← this_context; push_value (ctx_apparent_value c).
Definition gasprice : SystemM RControl := x ← ask h_gas_price; push_value x.
Definition base_fee : SystemM RControl := x ← ask h_block_base_fee_per_gas; push_value x.

Definition extcodesize : SystemM RControl :=
  address ← sys_pop;
  _ ← handled (h_record_external_operation (AddressCodeRead (H160_from address)));
  x ← ask (fun h => h_code_size h (H160_from address));
  push_value x.

Definition extcodehash : SystemM RControl :=
  address ← sys_pop;
  _ ← handled (h_record_external_operation (AddressCodeRead (H160_from address)));
  x ← ask (fun h => h_code_hash h (H160_from address));
  push_value x.

Definition extcodecopy : SystemM RControl :=
  address ← sys_pop; memory_offset ← sys_pop; code_offset ← sys_pop; len ← sys_pop;
  _ ← sys_machine (resize_offset memory_offset len);
  _ ← handled (h_record_external_operation (AddressCodeRead (H160_from address)));
  code ← ask (fun h => h_code h (H160_from address));
  _ ← sys_machine (copy_large memory_offset code_offset len code);
  mret RContinue.

Definition returndatasize : SystemM RControl :=
  n ← on_runtime (rt ← em_get; mret (Z.of_nat (length (rt_return_data_buffer rt))));
  push_value n.

Definition returndatacopy : SystemM RControl :=
  memory_offset ← sys_pop; data_offset ← sys_pop; len ← sys_pop;
  _ ← sys_machine (resize_offset memory_offset len);
  buffer ← on_runtime (rt ← em_get; mret (rt_return_data_buffer rt));
  if match u256_checked_add data_offset len with
     | Some l => Z.of_nat (length buffer) <? l
     | None => true
     end
  then em_fail (ExitReasonError OutOfOffset)
  else
    _ ← sys_machine (copy_large memory_offset data_offset len buffer);
    mret RContinue.

Definition blockhash : SystemM RControl :=
  number ← sys_pop;
  o ← ask (fun h => h_block_hash h number);
  x ← em_lift o;
  push_value x.

Definition coinbase : SystemM RControl := x ← ask h_block_coinbase; push_value x.
Definition timestamp : SystemM RControl := x ← ask h_block_timestamp; push_value x.
Definition number : SystemM RControl := x ← ask h_block_number; push_value x.
Definition difficulty : SystemM RControl := x ← ask h_block_difficulty; push_value x.

Definition prevrandao : SystemM RControl :=
  o ← ask h_block_randomness;
  match o with Some rand => push_value rand | None => difficulty end.

Definition gaslimit : SystemM RControl := x ← ask h_block_gas_limit; push_value x.

Definition sload : SystemM RControl :=
  index ← sys_pop;
  c ← this_context;
  value ← unwrapped (h_storage (ctx_address c) index);
  push_value value.

Definition sstore : SystemM RControl :=
  index ← sys_pop; value ← sys_pop;
  c ← this_context;
  _ ← handled (h_set_storage (ctx_address c) index value);
  mret RContinue.

Definition sys_gas : SystemM RControl := x ← ask h_gas_left; push_value x.

Fixpoint pop_topics (n : nat) : SystemM (list H256) :=
  match n with
  | O => mret []
  | S n' => value ← sys_pop; topics ← pop_topics n'; mret (value :: topics)
  end.

Definition sys_log (n : nat) : SystemM RControl :=
  offset ← sys_pop; len ← sys_pop;
  _ ← sys_machine (resize_offset offset len);
  data ← sys_machine (memory_slice offset len);
  topics ← pop_topics n;
  c ← this_context;
  _ ← handled (h_log (ctx_address c) topics data);
  mret RContinue.

Definition suicide : SystemM RControl :=
  target ← sys_pop;
  c ← this_context;
  _ ← handled (h_mark_delete (ctx_address c) (H160_from target));
  mret (RExit (Succeed Suicided)).

(** The call of a handler operation that may suspend the runtime. *)
Definition invoke {A} (f : H -> option (H * A)) : SystemM A := fun '(rt, h) =>
  match f h with
  | Some (h', x) => Some ((rt, h'), Ok x)
  | None => None
  end.

Definition sys_create (is_create2 : bool) : SystemM RControl :=
  _ ← on_runtime (em_modify (set_return_data_buffer []));
  value ← sys_pop; code_offset ← sys_pop; len ← sys_pop;
  _ ← sys_machine (resize_offset code_offset len);
  code ← sys_machine (memory_slice code_offset len);
  c ← this_context;
  scheme ←
    (if is_create2 then
       salt ← sys_pop; mret (SchemeCreate2 (ctx_address c) (keccak256 code) salt)
     else mret (SchemeLegacy (ctx_address c)));
  r ← invoke (h_create (ctx_address c) scheme value code None);
  match r with
  | CaptureExit (reason, address, return_data) =>
      _ ← on_runtime (finish_create reason address return_data); mret RContinue
  | CaptureTrap interrupt => mret (CreateInterrupt interrupt)
  end.

Definition pops_value (scheme : CallScheme) : bool :=
  match scheme with
  | SchemeCall | SchemeCallCode => true
  | SchemeDelegateCall | SchemeStaticCall => false
  end.

Definition call_context (scheme : CallScheme) (c : Context) (to : H160) (value : U256) : Context :=
  match scheme with
  | SchemeCall | SchemeStaticCall => mkContext to (ctx_address c) value
  | SchemeCallCode => mkContext (ctx_address c) (ctx_address c) value
  | SchemeDelegateCall => mkContext (ctx_address c) (ctx_caller c) (ctx_apparent_value c)
  end.

Definition call_transfer (scheme : CallScheme) (c : Context) (to : H160) (value : U256) : option Transfer :=
  match scheme with
  | SchemeCall => Some (mkTransfer (ctx_address c) to value)
  | SchemeCallCode => Some (mkTransfer (ctx_address c) (ctx_address c) value)
  | _ => None
  end.

Definition is_static_call (scheme : CallScheme) : bool :=
  match scheme with SchemeStaticCall => true | _ => false end.

Definition sys_call (scheme : CallScheme) : SystemM RControl :=
  _ ← on_runtime (em_modify (set_return_data_buffer []));
  gas ← sys_pop; to ← sys_pop;
  let gas := if u64_max <? gas then None else Some gas in
  value ← (if pops_value scheme then sys_pop else mret 0);
  in_offset ← sys_pop; in_len ← sys_pop; out_offset ← sys_pop; out_len ← sys_pop;
  _ ← sys_machine (resize_offset in_offset in_len);
  _ ← sys_machine (resize_offset out_offset out_len);
  input ← sys_machine (memory_slice in_offset in_len);
  c ← this_context;
  r ← invoke (h_call (H160_from to) (call_transfer scheme c (H160_from to) value) input gas
                (is_static_call scheme) (call_context scheme c (H160_from to) value));
  match r with
  | CaptureExit (reason, return_data) =>
      _ ← on_runtime (finish_call out_len out_offset reason return_data); mret RContinue
  | CaptureTrap interrupt =>
      _ ← on_runtime (em_modify (set_return_data_target out_len out_offset));
      mret (CallInterrupt interrupt)
  end.

(** *** eval/mod.rs *)

Definition handle_other (opcode : Z) : SystemM RControl :=
  _ ← handled (handler_other opcode); mret RContinue.

(** The dispatch of [eval]; every other opcode goes to [handle_other]. *)
Definition SYSTEM : list (Z * SystemM RControl) :=
  [(Opcode.SHA3, sha3); (Opcode.ADDRESS, sys_address); (Opcode.BALANCE, sys_balance);
   (Opcode.SELFBALANCE, selfbalance); (Opcode.ORIGIN, sys_origin); (Opcode.CALLER, sys_caller);
   (Opcode.CALLVALUE, callvalue); (Opcode.GASPRICE, gasprice); (Opcode.EXTCODESIZE, extcodesize);
   (Opcode.EXTCODEHASH, extcodehash); (Opcode.EXTCODECOPY, extcodecopy);
   (Opcode.RETURNDATASIZE, returndatasize); (Opcode.RETURNDATACOPY, returndatacopy);
   (Opcode.BLOCKHASH, blockhash); (Opcode.COINBASE, coinbase); (Opcode.TIMESTAMP, timestamp);
   (Opcode.NUMBER, number); (Opcode.DIFFICULTY, prevrandao); (Opcode.GASLIMIT, gaslimit);
   (Opcode.SLOAD, sload); (Opcode.SSTORE, sstore); (Opcode.GAS, sys_gas);
   (Opcode.LOG0, sys_log 0); (Opcode.LOG1, sys_log 1); (Opcode.LOG2, sys_log 2);
   (Opcode.LOG3, sys_log 3); (Opcode.LOG4, sys_log 4); (Opcode.SUICIDE, suicide);
   (Opcode.CREATE, sys_create false); (Opcode.CREATE2, sys_create true);
   (Opcode.CALL, sys_call SchemeCall); (Opcode.CALLCODE, sys_call SchemeCallCode);
   (Opcode.DELEGATECALL, sys_call SchemeDelegateCall); (Opcode.STATICCALL, sys_call SchemeStaticCall);
   (Opcode.CHAINID, chainid); (Opcode.BASEFEE, base_fee)].

Definition system_eval (opcode : Z) : SystemM RControl :=
  default (handle_other opcode) (table_get SYSTEM opcode).

(** ** The step of the runtime *)

Inductive Resolve :=
| ResolveCreate (i : I)
| ResolveCall (i : I).

(** The part of [step!] before the machine steps. *)
Definition pre_step (rt : Runtime) (h : H) : option (Runtime * H) :=
  match Machine_inspect (rt_machine rt) with
  | Some (opcode, stack) =>
      match h_pre_validate (rt_context rt) opcode stack h with
      | None => None
      | Some (h', Ok _) => Some (rt, h')
      | Some (h', Err e) =>
          Some (set_status (Err (ExitReasonError e))
                  (set_machine (Machine_exit (ExitReasonError e) (rt_machine rt)) rt), h')
      end
  | None => Some (rt, h)
  end.

(** The part of [step!] that serves a trap of the machine. *)
Definition serve (opcode : Z) (rt : Runtime) (h : H) :
    option (Runtime * H * Result unit (Capture ExitReason Resolve)) :=
  match system_eval opcode (rt, h) with
  | None => None
  | Some ((rt', h'), Ok RContinue) => Some (rt', h', Ok tt)
  | Some ((rt', h'), Ok (CallInterrupt i)) => Some (rt', h', Err (CaptureTrap (ResolveCall i)))
  | Some ((rt', h'), Ok (CreateInterrupt i)) => Some (rt', h', Err (CaptureTrap (ResolveCreate i)))
  | Some ((rt', h'), Ok (RExit e)) | Some ((rt', h'), Err e) =>
      Some (set_status (Err e) (set_machine (Machine_exit e (rt_machine rt')) rt'), h',
            Err (CaptureExit e))
  end.

Definition Runtime_step (rt : Runtime) (h : H) :
    option (Runtime * H * Result unit (Capture ExitReason Resolve)) :=
  match pre_step rt h with
  | None => None
  | Some (rt, h) =>
      match rt_status rt with
      | Err e => Some (rt, h, Err (CaptureExit e))
      | Ok _ =>
          match Machine_step (rt_machine rt) with
          | None => None
          | Some (m, Ok _) => Some (set_machine m rt, h, Ok tt)
          | Some (m, Err (CaptureExit e)) =>
              Some (set_status (Err e) (set_machine m rt), h, Err (CaptureExit e))
          | Some (m, Err (CaptureTrap opcode)) => serve opcode (set_machine m rt) h
          end
      end
  end.

(** The loop of [run]; [Spinning] when the fuel is used up. *)
Fixpoint Runtime_run (fuel : nat) (rt : Runtime) (h : H) :
    Run (Runtime * H * Capture ExitReason Resolve) :=
  match fuel with
  | O => Spinning
  | S fuel' =>
      match Runtime_step rt h with
      | None => Panicked
      | Some (rt', h', Ok _) => Runtime_run fuel' rt' h'
      | Some (rt', h', Err c) => Finished (rt', h', c)
      end
  end.
End system.

Arguments RControl I : clear implicits.
Arguments Resolve I : clear implicits.
