(* ===== verification/EvmGas.v ===== *)
(** * Gas metering

    src/crates/chase-evm/gasometer/src: consts.rs, costs.rs, utils.rs, memory.rs
    and lib.rs.

    The gasometer charges every opcode before the machine executes it.  Costs are
    [u64] values whose sums wrap; the costs that depend on a 256-bit length are
    computed in 256 bits with overflow checks. *)

From S2P Require Import Prelude Bytes Types EvmConfig EvmWord EvmCore EvmRuntime.
Local Open Scope Z_scope.
Local Open Scope chase_scope.

(** ** consts.rs *)

Definition G_ZERO : Z := 0.
Definition G_BASE : Z := 2.
Definition G_VERYLOW : Z := 3.
Definition G_LOW : Z := 5.
Definition G_MID : Z := 8.
Definition G_HIGH : Z := 10.
Definition G_JUMPDEST : Z := 1.
Definition R_SUICIDE : Z := 24000.
Definition G_CREATE : Z := 32000.
Definition G_CALLVALUE : Z := 9000.
Definition G_NEWACCOUNT : Z := 25000.
Definition G_EXP : Z := 10.
Definition G_MEMORY : Z := 3.
Definition G_LOG : Z := 375.
Definition G_LOGDATA : Z := 8.
Definition G_LOGTOPIC : Z := 375.
Definition G_SHA3 : Z := 30.
Definition G_SHA3WORD : Z := 6.
Definition G_COPY : Z := 3.
Definition G_BLOCKHASH : Z := 20.
Definition G_CODEDEPOSIT : Z := 200.

(** ** utils.rs and memory.rs *)

Definition u64_leading_zeros (x : Z) : Z := if x =? 0 then 64 else 63 - Z.log2 x.

(** [value.0[i]] *)
Definition limb (value : U256) (i : Z) : Z := Z.shiftr value (64 * i) mod u64_modulus.

(** The loop over the limbs from the highest one. *)
Fixpoint log2floor_loop (n : nat) (value : U256) (l : Z) : Z :=
  match n with
  | O => l
  | S i =>
      if limb value (Z.of_nat i) =? 0 then log2floor_loop i value (l -u64 64)
      else
        let l := l -u64 u64_leading_zeros (limb value (Z.of_nat i)) in
        if l =? 0 then l else l -u64 1
  end.

(** [None] is the failing assertion. *)
Definition log2floor (value : U256) : option Z :=
  if value =? 0 then None else Some (log2floor_loop 4 value 256).

Definition u64_checked_add (x y : Z) : option Z := if x + y <=? u64_max then Some (x + y) else None.
Definition u64_checked_mul (x y : Z) : option Z := if x * y <=? u64_max then Some (x * y) else None.

Definition ok_or {A E} (o : option A) (e : E) : Result A E :=
  match o with Some x => Ok x | None => Err e end.

(** [memory::memory_gas], for a number of words. *)
Definition memory_gas (a : Z) : Result Z ExitError :=
  ok_or (m ← u64_checked_mul G_MEMORY a; q ← u64_checked_mul a a; u64_checked_add m (q / 512)) OutOfGas.

(** ** costs.rs *)

Definition call_extra_check (gas : U256) (after_gas : Z) (config : Config) : Result unit ExitError :=
  if cfg_err_on_call_with_more_gas config && (after_gas <? gas) then Err OutOfGas else Ok tt.

Definition suicide_refund (already_removed : bool) : Z := if already_removed then 0 else R_SUICIDE.

Definition sstore_refund (original current new : H256) (config : Config) : Z :=
  if cfg_sstore_gas_metering config then
    if current =? new then 0
    else if (original =? current) && (new =? 0) then cfg_refund_sstore_clears config
    else
      let refund :=
        if original =? 0 then 0
        else if current =? 0 then 0 - cfg_refund_sstore_clears config
        else if new =? 0 then 0 + cfg_refund_sstore_clears config
        else 0 in
      if original =? new then
        if original =? 0 then
          i64_add refund (cfg_gas_sstore_set config -u64 cfg_gas_sload config)
        else i64_add refund (cfg_gas_sstore_reset config -u64 cfg_gas_sload config)
      else refund
  else if negb (current =? 0) && (new =? 0) then cfg_refund_sstore_clears config
  else 0.

(** The number of 32-byte words that hold [len] bytes; the sum is below [2^252]. *)
Definition words32 (len : U256) : U256 := len / 32 + (if len mod 32 =? 0 then 0 else 1).

(** [gas > u64::MAX] is out of gas, otherwise [gas.as_u64()]. *)
Definition as_gas (gas : option U256) : Result Z ExitError :=
  match gas with
  | Some g => if u64_max <? g then Err OutOfGas else Ok g
  | None => Err OutOfGas
  end.

Definition create2_cost (len : U256) : Result Z ExitError :=
  as_gas (sha_addup ← u256_checked_mul G_SHA3WORD (words32 len); u256_checked_add G_CREATE sha_addup).

(** [None] is a panic of [log2floor], which the first test excludes. *)
Definition exp_cost (power : U256) (config : Config) : option (Result Z ExitError) :=
  if power =? 0 then Some (Ok G_EXP)
  else
    l ← log2floor power;
    Some (as_gas (per_byte ← u256_checked_mul (cfg_gas_expbyte config) (l / 8 +u64 1);
                  u256_checked_add G_EXP per_byte)).

Definition verylowcopy_cost (len : U256) : Result Z ExitError :=
  as_gas (copied ← u256_checked_mul G_COPY (words32 len); u256_checked_add G_VERYLOW copied).

Definition address_access_cost (is_cold : bool) (regular_value : Z) (config : Config) : Z :=
  if cfg_increase_state_access_gas config then
    if is_cold then cfg_gas_account_access_cold config else cfg_gas_storage_read_warm config
  else regular_value.

Definition extcodecopy_cost (len : U256) (is_cold : bool) (config : Config) : Result Z ExitError :=
  as_gas (copied ← u256_checked_mul G_COPY (words32 len);
          u256_checked_add (address_access_cost is_cold (cfg_gas_ext_code config) config) copied).

Definition log_cost (n : Z) (len : U256) : Result Z ExitError :=
  as_gas (data ← u256_checked_mul G_LOGDATA len;
          base ← u256_checked_add G_LOG data;
          u256_checked_add base (G_LOGTOPIC * n)).

Definition sha3_cost (len : U256) : Result Z ExitError :=
  as_gas (hashed ← u256_checked_mul G_SHA3WORD (words32 len); u256_checked_add G_SHA3 hashed).

Definition sload_cost (is_cold : bool) (config : Config) : Z :=
  if cfg_increase_state_access_gas config then
    if is_cold then cfg_gas_sload_cold config else cfg_gas_storage_read_warm config
  else cfg_gas_sload config.

Definition sstore_cost (original current new : H256) (gas : Z) (is_cold : bool) (config : Config) :
    Result Z ExitError :=
  let charge (gas_cost : Z) : Result Z ExitError :=
    Ok (if is_cold then gas_cost +u64 cfg_gas_sload_cold config else gas_cost) in
  if cfg_estimate config then charge (cfg_gas_sstore_set config)
  else if cfg_sstore_gas_metering config then
    if cfg_sstore_revert_under_stipend config && (gas <=? cfg_call_stipend config) then Err OutOfGas
    else if new =? current then charge (cfg_gas_sload config)
    else if original =? current then
      if original =? 0 then charge (cfg_gas_sstore_set config)
      else charge (cfg_gas_sstore_reset config)
    else charge (cfg_gas_sload config)
  else if (current =? 0) && negb (new =? 0) then charge (cfg_gas_sstore_set config)
  else charge (cfg_gas_sstore_reset config).

Definition suicide_cost (value : U256) (is_cold target_exists : bool) (config : Config) : Z :=
  let eip161 := negb (cfg_empty_considered_exists config) in
  let should_charge_topup :=
    if eip161 then negb (value =? 0) && negb target_exists else negb target_exists in
  let suicide_gas_topup := if should_charge_topup then cfg_gas_suicide_new_account config else 0 in
  let gas := cfg_gas_suicide config +u64 suicide_gas_topup in
  if cfg_increase_state_access_gas config && is_cold
  then gas +u64 cfg_gas_account_access_cold config else gas.

Definition xfer_cost (is_call_or_callcode transfers_value : bool) : Z :=
  if is_call_or_callcode && transfers_value then G_CALLVALUE else 0.

Definition new_cost (is_call_or_staticcall new_account transfers_value : bool) (config : Config) : Z :=
  let eip161 := negb (cfg_empty_considered_exists config) in
  if is_call_or_staticcall then
    if eip161 then (if transfers_value && new_account then G_NEWACCOUNT else 0)
    else if new_account then G_NEWACCOUNT
    else 0
  else 0.

Definition call_cost (value : U256) (is_cold is_call_or_callcode is_call_or_staticcall new_account : bool)
    (config : Config) : Z :=
  let transfers_value := negb (value =? 0) in
  address_access_cost is_cold (cfg_gas_call config) config
  +u64 xfer_cost is_call_or_callcode transfers_value
  +u64 new_cost is_call_or_staticcall new_account transfers_value config.

(** ** The costs of lib.rs *)

Inductive GasCost :=
| GasZero | GasBase | GasVeryLow | GasLow
| GasInvalid (opcode : Z)
| GasExtCodeSize (target_is_cold : bool)
| GasBalance (target_is_cold : bool)
| GasBlockHash
| GasExtCodeHash (target_is_cold : bool)
| GasCall (value gas : U256) (target_is_cold target_exists : bool)
| GasCallCode (value gas : U256) (target_is_cold target_exists : bool)
| GasDelegateCall (gas : U256) (target_is_cold target_exists : bool)
| GasStaticCall (gas : U256) (target_is_cold target_exists : bool)
| GasSuicide (value : U256) (target_is_cold target_exists already_removed : bool)
| GasSStore (original current new : H256) (target_is_cold : bool)
| GasSha3 (len : U256)
| GasLog (n : Z) (len : U256)
| GasExtCodeCopy (target_is_cold : bool) (len : U256)
| GasVeryLowCopy (len : U256)
| GasExp (power : U256)
| GasCreate
| GasCreate2 (len : U256)
| GasSLoad (target_is_cold : bool).

Inductive StorageTarget :=
| TargetNone
| TargetAddress (address : H160)
| TargetSlot (address : H160) (key : H256).

Record MemoryCost := mkMemoryCost { mcost_offset : U256; mcost_len : U256 }.

Definition MemoryCost_join (self other : MemoryCost) : MemoryCost :=
  if mcost_len self =? 0 then other
  else if mcost_len other =? 0 then self
  else
    let self_end := u256_saturating_add (mcost_offset self) (mcost_len self) in
    let other_end := u256_saturating_add (mcost_offset other) (mcost_len other) in
    if other_end <=? self_end then self else other.

Inductive TransactionCost :=
| CallTransaction (zero_data_len non_zero_data_len access_list_address_len access_list_storage_len : Z)
| CreateTransaction (zero_data_len non_zero_data_len access_list_address_len access_list_storage_len : Z)
    (initcode_cost : Z).

Definition init_code_cost (data : bytes) : Z := 2 *u64 ((Z.of_nat (length data) +u64 31) / 32).

Definition count_access_list (access_list : list (H160 * list H256)) : Z * Z :=
  (Z.of_nat (length access_list),
   Z.of_nat (sum_list ((fun item : H160 * list H256 => length item.2) <$> access_list))).

Definition zero_data_len (data : bytes) : Z := Z.of_nat (length (filter (fun v => v = 0) data)).

Definition call_transaction_cost (data : bytes) (access_list : list (H160 * list H256)) : TransactionCost :=
  let '(addresses, storage) := count_access_list access_list in
  CallTransaction (zero_data_len data) (Z.of_nat (length data) -u64 zero_data_len data) addresses storage.

Definition create_transaction_cost (data : bytes) (access_list : list (H160 * list H256)) : TransactionCost :=
  let '(addresses, storage) := count_access_list access_list in
  CreateTransaction (zero_data_len data) (Z.of_nat (length data) -u64 zero_data_len data) addresses storage
    (init_code_cost data).

(** ** Gasometer *)

(** [Inner]; its reference to the configuration is the gasometer's. *)
Record Inner := mkInner { inner_memory_gas : Z; inner_used_gas : Z; inner_refunded_gas : Z }.

Definition Inner_memory_gas (i : Inner) (memory : MemoryCost) : Result Z ExitError :=
  if mcost_len memory =? 0 then Ok (inner_memory_gas i)
  else
    match u256_checked_add (mcost_offset memory) (mcost_len memory) with
    | None => Err OutOfGas
    | Some end_ =>
        if usize_max <? end_ then Err OutOfGas
        else
          let rem := end_ mod 32 in
          let new := if rem =? 0 then end_ / 32 else end_ / 32 + 1 in
          match memory_gas new with
          | Ok g => Ok (Z.max (inner_memory_gas i) g)
          | Err e => Err e
          end
    end.

Definition Inner_extra_check (cost : GasCost) (after_gas : Z) (config : Config) : Result unit ExitError :=
  match cost with
  | GasCall _ gas _ _ | GasCallCode _ gas _ _ | GasDelegateCall gas _ _ | GasStaticCall gas _ _ =>
      call_extra_check gas after_gas config
  | _ => Ok tt
  end.

(** [None] is a panic. *)
Definition Inner_gas_cost (cost : GasCost) (gas : Z) (config : Config) : option (Result Z ExitError) :=
  match cost with
  | GasCall value _ target_is_cold target_exists =>
      Some (Ok (call_cost value target_is_cold true true (negb target_exists) config))
  | GasCallCode value _ target_is_cold target_exists =>
      Some (Ok (call_cost value target_is_cold true false (negb target_exists) config))
  | GasDelegateCall _ target_is_cold target_exists =>
      Some (Ok (call_cost 0 target_is_cold false false (negb target_exists) config))
  | GasStaticCall _ target_is_cold target_exists =>
      Some (Ok (call_cost 0 target_is_cold false true (negb target_exists) config))
  | GasSuicide value target_is_cold target_exists _ =>
      Some (Ok (suicide_cost value target_is_cold target_exists config))
  | GasSStore original current new target_is_cold =>
      Some (sstore_cost original current new gas target_is_cold config)
  | GasSha3 len => Some (sha3_cost len)
  | GasLog n len => Some (log_cost n len)
  | GasVeryLowCopy len => Some (verylowcopy_cost len)
  | GasExp power => exp_cost power config
  | GasCreate => Some (Ok G_CREATE)
  | GasCreate2 len => Some (create2_cost len)
  | GasSLoad target_is_cold => Some (Ok (sload_cost target_is_cold config))
  | GasZero => Some (Ok G_ZERO)
  | GasBase => Some (Ok G_BASE)
  | GasVeryLow => Some (Ok G_VERYLOW)
  | GasLow => Some (Ok G_LOW)
  | GasInvalid opcode => Some (Err (InvalidCode opcode))
  | GasExtCodeSize target_is_cold =>
      Some (Ok (address_access_cost target_is_cold (cfg_gas_ext_code config) config))
  | GasExtCodeCopy target_is_cold len => Some (extcodecopy_cost len target_is_cold config)
  | GasBalance target_is_cold =>
      Some (Ok (address_access_cost target_is_cold (cfg_gas_balance config) config))
  | GasBlockHash => Some (Ok G_BLOCKHASH)
  | GasExtCodeHash target_is_cold =>
      Some (Ok (address_access_cost target_is_cold (cfg_gas_ext_code_hash config) config))
  end.

Definition Inner_gas_refund (cost : GasCost) (config : Config) : Z :=
  if cfg_estimate config then 0
  else
    match cost with
    | GasSStore original current new _ => sstore_refund original current new config
    | GasSuicide _ _ _ already_removed =>
        if cfg_decrease_clears_refund config then 0 else suicide_refund already_removed
    | _ => 0
    end.

Record Gasometer := mkGasometer {
  gm_gas_limit : Z;
  gm_config : Config;
  gm_inner : Result Inner ExitError
}.

Definition Gasometer_new (gas_limit : Z) (config : Config) : Gasometer :=
  mkGasometer gas_limit config (Ok (mkInner 0 0 0)).

Definition set_inner (i : Result Inner ExitError) (g : Gasometer) : Gasometer :=
  mkGasometer (gm_gas_limit g) (gm_config g) i.

Definition Gasometer_gas (g : Gasometer) : Z :=
  match gm_inner g with
  | Ok i => gm_gas_limit g -u64 inner_used_gas i -u64 inner_memory_gas i
  | Err _ => 0
  end.

Definition total_used_gas (g : Gasometer) : Z :=
  match gm_inner g with
  | Ok i => inner_used_gas i +u64 inner_memory_gas i
  | Err _ => gm_gas_limit g
  end.

Definition refunded_gas (g : Gasometer) : Z :=
  match gm_inner g with Ok i => inner_refunded_gas i | Err _ => 0 end.

Definition Gasometer_fail (g : Gasometer) : Gasometer := set_inner (Err OutOfGas) g.

(** [self.inner_mut()?] followed by an update of the used gas. *)
Definition update_used (f : Z -> Z) (g : Gasometer) : Gasometer * Result unit ExitError :=
  match gm_inner g with
  | Ok i => (set_inner (Ok (mkInner (inner_memory_gas i) (f (inner_used_gas i)) (inner_refunded_gas i))) g, Ok tt)
  | Err e => (g, Err e)
  end.

Definition record_cost (cost : Z) (g : Gasometer) : Gasometer * Result unit ExitError :=
  let all_gas_cost := total_used_gas g +u64 cost in
  if gm_gas_limit g <? all_gas_cost then (Gasometer_fail g, Err OutOfGas)
  else update_used (fun u => u +u64 cost) g.

Definition record_refund (refund : Z) (g : Gasometer) : Gasometer * Result unit ExitError :=
  match gm_inner g with
  | Ok i => (set_inner (Ok (mkInner (inner_memory_gas i) (inner_used_gas i) (i64_add (inner_refunded_gas i) refund))) g, Ok tt)
  | Err e => (g, Err e)
  end.

Definition record_deposit (len : Z) (g : Gasometer) : Gasometer * Result unit ExitError :=
  record_cost (len *u64 G_CODEDEPOSIT) g.

(** [try_or_fail!]: the error is stored in the gasometer and returned. *)
Definition fail_with {A} (e : ExitError) (g : Gasometer) : Gasometer * Result A ExitError :=
  (set_inner (Err e) g, Err e).

(** [None] is a panic. *)
Definition record_dynamic_cost (cost : GasCost) (memory : option MemoryCost) (g : Gasometer) :
    option (Gasometer * Result unit ExitError) :=
  let gas := Gasometer_gas g in
  match gm_inner g with
  | Err e => Some (g, Err e)
  | Ok i =>
      match match memory with Some m => Inner_memory_gas i m | None => Ok (inner_memory_gas i) end with
      | Err e => Some (fail_with e g)
      | Ok memory_gas =>
          match Inner_gas_cost cost gas (gm_config g) with
          | None => None
          | Some (Err e) => Some (fail_with e g)
          | Some (Ok gas_cost) =>
              let gas_refund := Inner_gas_refund cost (gm_config g) in
              let all_gas_cost := memory_gas +u64 inner_used_gas i +u64 gas_cost in
              if gm_gas_limit g <? all_gas_cost then Some (fail_with OutOfGas g)
              else
                let after_gas := gm_gas_limit g -u64 all_gas_cost in
                match Inner_extra_check cost after_gas (gm_config g) with
                | Err e => Some (fail_with e g)
                | Ok _ =>
                    Some (set_inner (Ok (mkInner memory_gas (inner_used_gas i +u64 gas_cost)
                                           (i64_add (inner_refunded_gas i) gas_refund))) g, Ok tt)
                end
          end
      end
  end.

Definition record_stipend (stipend : Z) (g : Gasometer) : Gasometer * Result unit ExitError :=
  update_used (fun u => u -u64 stipend) g.

Definition transaction_gas (cost : TransactionCost) (config : Config) : Z :=
  match cost with
  | CallTransaction zero non_zero addresses storage =>
      cfg_gas_transaction_call config
      +u64 zero *u64 cfg_gas_transaction_zero_data config
      +u64 non_zero *u64 cfg_gas_transaction_non_zero_data config
      +u64 addresses *u64 cfg_gas_access_list_address config
      +u64 storage *u64 cfg_gas_access_list_storage_key config
  | CreateTransaction zero non_zero addresses storage initcode_cost =>
      let cost :=
        cfg_gas_transaction_create config
        +u64 zero *u64 cfg_gas_transaction_zero_data config
        +u64 non_zero *u64 cfg_gas_transaction_non_zero_data config
        +u64 addresses *u64 cfg_gas_access_list_address config
        +u64 storage *u64 cfg_gas_access_list_storage_key config in
      match cfg_max_initcode_size config with Some _ => cost +u64 initcode_cost | None => cost end
  end.

Definition record_transaction (cost : TransactionCost) (g : Gasometer) : Gasometer * Result unit ExitError :=
  let gas_cost := transaction_gas cost (gm_config g) in
  if Gasometer_gas g <? gas_cost then (Gasometer_fail g, Err OutOfGas)
  else update_used (fun u => u +u64 gas_cost) g.

Definition Gasometer_gas_cost (cost : GasCost) (gas : Z) (g : Gasometer) : option (Result Z ExitError) :=
  match gm_inner g with
  | Ok _ => Inner_gas_cost cost gas (gm_config g)
  | Err e => Some (Err e)
  end.

(** ** The cost of an opcode *)

(** The table of [static_opcode_cost]. *)
Definition STATIC_COSTS : list (Z * Z) :=
  [(Opcode.STOP, G_ZERO); (Opcode.CALLDATASIZE, G_BASE); (Opcode.CODESIZE, G_BASE);
   (Opcode.POP, G_BASE); (Opcode.PC, G_BASE); (Opcode.MSIZE, G_BASE); (Opcode.ADDRESS, G_BASE);
   (Opcode.ORIGIN, G_BASE); (Opcode.CALLER, G_BASE); (Opcode.CALLVALUE, G_BASE);
   (Opcode.COINBASE, G_BASE); (Opcode.TIMESTAMP, G_BASE); (Opcode.NUMBER, G_BASE);
   (Opcode.DIFFICULTY, G_BASE); (Opcode.GASLIMIT, G_BASE); (Opcode.GASPRICE, G_BASE);
   (Opcode.GAS, G_BASE); (Opcode.ADD, G_VERYLOW); (Opcode.SUB, G_VERYLOW); (Opcode.NOT, G_VERYLOW);
   (Opcode.LT, G_VERYLOW); (Opcode.GT, G_VERYLOW); (Opcode.SLT, G_VERYLOW); (Opcode.SGT, G_VERYLOW);
   (Opcode.EQ, G_VERYLOW); (Opcode.ISZERO, G_VERYLOW); (Opcode.AND, G_VERYLOW);
   (Opcode.OR, G_VERYLOW); (Opcode.XOR, G_VERYLOW); (Opcode.BYTE, G_VERYLOW);
   (Opcode.CALLDATALOAD, G_VERYLOW); (Opcode.PUSH1, G_VERYLOW); (Opcode.PUSH2, G_VERYLOW);
   (Opcode.PUSH3, G_VERYLOW); (Opcode.PUSH4, G_VERYLOW); (Opcode.PUSH5, G_VERYLOW);
   (Opcode.PUSH6, G_VERYLOW); (Opcode.PUSH7, G_VERYLOW); (Opcode.PUSH8, G_VERYLOW);
   (Opcode.PUSH9, G_VERYLOW); (Opcode.PUSH10, G_VERYLOW); (Opcode.PUSH11, G_VERYLOW);
   (Opcode.PUSH12, G_VERYLOW); (Opcode.PUSH13, G_VERYLOW); (Opcode.PUSH14, G_VERYLOW);
   (Opcode.PUSH15, G_VERYLOW); (Opcode.PUSH16, G_VERYLOW); (Opcode.PUSH17, G_VERYLOW);
   (Opcode.PUSH18, G_VERYLOW); (Opcode.PUSH19, G_VERYLOW); (Opcode.PUSH20, G_VERYLOW);
   (Opcode.PUSH21, G_VERYLOW); (Opcode.PUSH22, G_VERYLOW); (Opcode.PUSH23, G_VERYLOW);
   (Opcode.PUSH24, G_VERYLOW); (Opcode.PUSH25, G_VERYLOW); (Opcode.PUSH26, G_VERYLOW);
   (Opcode.PUSH27, G_VERYLOW); (Opcode.PUSH28, G_VERYLOW); (Opcode.PUSH29, G_VERYLOW);
   (Opcode.PUSH30, G_VERYLOW); (Opcode.PUSH31, G_VERYLOW); (Opcode.PUSH32, G_VERYLOW);
   (Opcode.DUP1, G_VERYLOW); (Opcode.DUP2, G_VERYLOW); (Opcode.DUP3, G_VERYLOW);
   (Opcode.DUP4, G_VERYLOW); (Opcode.DUP5, G_VERYLOW); (Opcode.DUP6, G_VERYLOW);
   (Opcode.DUP7, G_VERYLOW); (Opcode.DUP8, G_VERYLOW); (Opcode.DUP9, G_VERYLOW);
   (Opcode.DUP10, G_VERYLOW); (Opcode.DUP11, G_VERYLOW); (Opcode.DUP12, G_VERYLOW);
   (Opcode.DUP13, G_VERYLOW); (Opcode.DUP14, G_VERYLOW); (Opcode.DUP15, G_VERYLOW);
   (Opcode.DUP16, G_VERYLOW); (Opcode.SWAP1, G_VERYLOW); (Opcode.SWAP2, G_VERYLOW);
   (Opcode.SWAP3, G_VERYLOW); (Opcode.SWAP4, G_VERYLOW); (Opcode.SWAP5, G_VERYLOW);
   (Opcode.SWAP6, G_VERYLOW); (Opcode.SWAP7, G_VERYLOW); (Opcode.SWAP8, G_VERYLOW);
   (Opcode.SWAP9, G_VERYLOW); (Opcode.SWAP10, G_VERYLOW); (Opcode.SWAP11, G_VERYLOW);
   (Opcode.SWAP12, G_VERYLOW); (Opcode.SWAP13, G_VERYLOW); (Opcode.SWAP14, G_VERYLOW);
   (Opcode.SWAP15, G_VERYLOW); (Opcode.SWAP16, G_VERYLOW); (Opcode.MUL, G_LOW); (Opcode.DIV, G_LOW);
   (Opcode.SDIV, G_LOW); (Opcode.MOD, G_LOW); (Opcode.SMOD, G_LOW); (Opcode.SIGNEXTEND, G_LOW);
   (Opcode.ADDMOD, G_MID); (Opcode.MULMOD, G_MID); (Opcode.JUMP, G_MID); (Opcode.JUMPI, G_HIGH);
   (Opcode.JUMPDEST, G_JUMPDEST)].

Definition static_opcode_cost (opcode : Z) : option Z := table_get STATIC_COSTS opcode.

Section dynamic.
Context {H : Type} `{HandlerOps H}.

Abbreviation CostM := (EM H ExitError).

Definition cost_handled {A} (f : H -> H * Result A ExitError) : CostM A := fun h => Some (f h).

(** A handler operation whose result is unwrapped. *)
Definition cost_unwrapped {A} (f : H -> H * Result A ExitError) : CostM A := fun h =>
  let '(h', r) := f h in match r with Ok x => Some (h', Ok x) | Err _ => None end.

Definition peek_word (stack : Stack) (n : nat) : CostM U256 := em_result (Stack_peek stack n).
Definition peek_address (stack : Stack) (n : nat) : CostM H160 := x ← peek_word stack n; mret (H160_from x).

(** The address a call-like opcode looks at: whether it is cold, then whether it
    exists. *)
Definition account_access (target : H160) : CostM (bool * bool) :=
  target_is_cold ← cost_handled (h_is_cold target None);
  _ ← cost_handled (h_record_external_operation IsEmpty);
  h ← em_get;
  mret (target_is_cold, h_exists h target).

Definition cold_address (target : H160) : CostM bool := cost_handled (h_is_cold target None).

Definition invalid (opcode : Z) : CostM (GasCost * StorageTarget) := mret (GasInvalid opcode, TargetNone).
Definition flat (cost : GasCost) : CostM (GasCost * StorageTarget) := mret (cost, TargetNone).

Definition log_gas (n : Z) (stack : Stack) : CostM (GasCost * StorageTarget) :=
  len ← peek_word stack 1; flat (GasLog n len).

Definition sstore_gas (address : H160) (stack : Stack) : CostM (GasCost * StorageTarget) :=
  index ← peek_word stack 0; value ← peek_word stack 1;
  original ← cost_unwrapped (h_original_storage address index);
  current ← cost_unwrapped (h_storage address index);
  target_is_cold ← cost_handled (h_is_cold address (Some index));
  mret (GasSStore original current value target_is_cold, TargetSlot address index).

Definition suicide_gas (address : H160) (stack : Stack) : CostM (GasCost * StorageTarget) :=
  target ← peek_address stack 0;
  h ← em_get;
  let value := h_balance h address in
  access ← account_access target;
  h ← em_get;
  mret (GasSuicide value access.1 access.2 (h_deleted h address), TargetAddress target).

(** The operands of CALL and CALLCODE. *)
Definition call_gas (cost : U256 -> U256 -> bool -> bool -> GasCost) (stack : Stack) :
    CostM (GasCost * StorageTarget) :=
  target ← peek_address stack 1; value ← peek_word stack 2; gas ← peek_word stack 0;
  access ← account_access target;
  mret (cost value gas access.1 access.2, TargetAddress target).

(** The operands of DELEGATECALL and STATICCALL. *)
Definition valueless_call_gas (cost : U256 -> bool -> bool -> GasCost) (stack : Stack) :
    CostM (GasCost * StorageTarget) :=
  target ← peek_address stack 1; gas ← peek_word stack 0;
  access ← account_access target;
  mret (cost gas access.1 access.2, TargetAddress target).

(** The first match of [dynamic_opcode_cost]. *)
Definition opcode_gas_cost (address : H160) (opcode : Z) (stack : Stack) (is_static : bool)
    (config : Config) : CostM (GasCost * StorageTarget) :=
  let op_is op := opcode =? op in
  if op_is Opcode.RETURN then flat GasZero
  else if op_is Opcode.MLOAD || op_is Opcode.MSTORE || op_is Opcode.MSTORE8 then flat GasVeryLow
  else if op_is Opcode.REVERT then (if cfg_has_revert config then flat GasZero else invalid opcode)
  else if op_is Opcode.CHAINID then (if cfg_has_chain_id config then flat GasBase else invalid opcode)
  else if op_is Opcode.SHL || op_is Opcode.SHR || op_is Opcode.SAR then
    (if cfg_has_bitwise_shifting config then flat GasVeryLow else invalid opcode)
  else if op_is Opcode.SELFBALANCE then (if cfg_has_self_balance config then flat GasLow else invalid opcode)
  else if op_is Opcode.BASEFEE then (if cfg_has_base_fee config then flat GasBase else invalid opcode)
  else if op_is Opcode.EXTCODESIZE then
    target ← peek_address stack 0; cold ← cold_address target;
    mret (GasExtCodeSize cold, TargetAddress target)
  else if op_is Opcode.BALANCE then
    target ← peek_address stack 0; cold ← cold_address target;
    mret (GasBalance cold, TargetAddress target)
  else if op_is Opcode.BLOCKHASH then flat GasBlockHash
  else if op_is Opcode.EXTCODEHASH then
    if cfg_has_ext_code_hash config then
      target ← peek_address stack 0; cold ← cold_address target;
      mret (GasExtCodeHash cold, TargetAddress target)
    else invalid opcode
  else if op_is Opcode.CALLCODE then call_gas GasCallCode stack
  else if op_is Opcode.STATICCALL then valueless_call_gas GasStaticCall stack
  else if op_is Opcode.SHA3 then len ← peek_word stack 1; flat (GasSha3 len)
  else if op_is Opcode.EXTCODECOPY then
    target ← peek_address stack 0; cold ← cold_address target; len ← peek_word stack 3;
    mret (GasExtCodeCopy cold len, TargetAddress target)
  else if op_is Opcode.CALLDATACOPY || op_is Opcode.CODECOPY then
    len ← peek_word stack 2; flat (GasVeryLowCopy len)
  else if op_is Opcode.EXP then power ← peek_word stack 1; flat (GasExp power)
  else if op_is Opcode.SLOAD then
    index ← peek_word stack 0; cold ← cost_handled (h_is_cold address (Some index));
    mret (GasSLoad cold, TargetSlot address index)
  else if op_is Opcode.DELEGATECALL then
    (if cfg_has_delegate_call config then valueless_call_gas GasDelegateCall stack else invalid opcode)
  else if op_is Opcode.RETURNDATASIZE then (if cfg_has_return_data config then flat GasBase else invalid opcode)
  else if op_is Opcode.RETURNDATACOPY then
    (if cfg_has_return_data config then len ← peek_word stack 2; flat (GasVeryLowCopy len) else invalid opcode)
  else if op_is Opcode.SSTORE && negb is_static then sstore_gas address stack
  else if op_is Opcode.LOG0 && negb is_static then log_gas 0 stack
  else if op_is Opcode.LOG1 && negb is_static then log_gas 1 stack
  else if op_is Opcode.LOG2 && negb is_static then log_gas 2 stack
  else if op_is Opcode.LOG3 && negb is_static then log_gas 3 stack
  else if op_is Opcode.LOG4 && negb is_static then log_gas 4 stack
  else if op_is Opcode.CREATE && negb is_static then flat GasCreate
  else if op_is Opcode.CREATE2 && (negb is_static && cfg_has_create2 config) then
    len ← peek_word stack 2; flat (GasCreate2 len)
  else if op_is Opcode.SUICIDE && negb is_static then suicide_gas address stack
  else if op_is Opcode.CALL then
    allowed ← (if is_static then value ← peek_word stack 2; mret (value =? 0) else mret true);
    if allowed : bool then call_gas GasCall stack else invalid opcode
  else if op_is Opcode.PUSH0 && cfg_has_push0 config then flat GasBase
  else invalid opcode.

Definition memory_cost_at (stack : Stack) (offset len : nat) : Result (option MemoryCost) ExitError :=
  match Stack_peek stack offset, Stack_peek stack len with
  | Ok o, Ok l => Ok (Some (mkMemoryCost o l))
  | Err e, _ | _, Err e => Err e
  end.

Definition memory_cost_fixed (stack : Stack) (len : Z) : Result (option MemoryCost) ExitError :=
  match Stack_peek stack 0 with
  | Ok o => Ok (Some (mkMemoryCost o len))
  | Err e => Err e
  end.

Definition memory_cost_join (stack : Stack) (offset1 len1 offset2 len2 : nat) :
    Result (option MemoryCost) ExitError :=
  match memory_cost_at stack offset1 len1, memory_cost_at stack offset2 len2 with
  | Ok (Some a), Ok (Some b) => Ok (Some (MemoryCost_join a b))
  | Err e, _ | _, Err e => Err e
  | _, _ => Ok None
  end.

(** The second match of [dynamic_opcode_cost]. *)
Definition opcode_memory_cost (opcode : Z) (stack : Stack) : Result (option MemoryCost) ExitError :=
  let op_is op := opcode =? op in
  if op_is Opcode.SHA3 || op_is Opcode.RETURN || op_is Opcode.REVERT || op_is Opcode.LOG0 || op_is Opcode.LOG1
     || op_is Opcode.LOG2 || op_is Opcode.LOG3 || op_is Opcode.LOG4 then memory_cost_at stack 0 1
  else if op_is Opcode.CODECOPY || op_is Opcode.CALLDATACOPY || op_is Opcode.RETURNDATACOPY then
    memory_cost_at stack 0 2
  else if op_is Opcode.EXTCODECOPY then memory_cost_at stack 1 3
  else if op_is Opcode.MLOAD || op_is Opcode.MSTORE then memory_cost_fixed stack 32
  else if op_is Opcode.MSTORE8 then memory_cost_fixed stack 1
  else if op_is Opcode.CREATE || op_is Opcode.CREATE2 then memory_cost_at stack 1 2
  else if op_is Opcode.CALL || op_is Opcode.CALLCODE then memory_cost_join stack 3 4 5 6
  else if op_is Opcode.DELEGATECALL || op_is Opcode.STATICCALL then memory_cost_join stack 2 3 4 5
  else Ok None.

Definition dynamic_opcode_cost (address : H160) (opcode : Z) (stack : Stack) (is_static : bool)
    (config : Config) : CostM (GasCost * StorageTarget * option MemoryCost) :=
  cost ← opcode_gas_cost address opcode stack is_static config;
  memory ← em_result (opcode_memory_cost opcode stack);
  mret (cost, memory).
End dynamic.
