(* ===== verification/EvmGasProps.v ===== *)
(** * Correctness of gas metering

    The arithmetic of EvmGas: the logarithm of the exponentiation price, the
    memory price, and the gasometer's bookkeeping.  [gas_wf] is the invariant of a
    gasometer; under it, and for costs that are not absurd, the wrapping sums are
    exact ([record_cost_spec], [record_dynamic_cost_spec]).  [opcode_cost_bounds]
    shows that the costs of the opcodes are not absurd, because a length is paid
    for as memory before it is paid for by the word, and that every opcode after
    which execution goes on costs gas. *)

From S2P Require Import Prelude Types EvmConfig EvmWord EvmCore EvmCoreProps EvmRuntime EvmGas.
Local Open Scope Z_scope.
Local Open Scope chase_scope.

(** ** Wrapping arithmetic *)

Lemma u64_sub_small x y : 0 <= x - y < u64_modulus -> x -u64 y = x - y.
Proof. apply Z.mod_small. Qed.

Lemma u64_mul_small x y : 0 <= x * y < u64_modulus -> x *u64 y = x * y.
Proof. apply Z.mod_small. Qed.

(** ** The logarithm *)

Lemma limb_top value n :
  0 <= value < 2 ^ (64 * Z.of_nat (S n)) -> limb value (Z.of_nat n) = value / 2 ^ (64 * Z.of_nat n).
Proof.
  intros Hv. unfold limb. rewrite Z.shiftr_div_pow2 by lia. apply Z.mod_small. split.
  - apply Z.div_pos; lia.
  - apply Z.div_lt_upper_bound; [lia|]. change u64_modulus with (2 ^ 64).
    rewrite <- Z.pow_add_r by lia. replace (64 * Z.of_nat n + 64) with (64 * Z.of_nat (S n)) by lia. lia.
Qed.

Lemma log2floor_loop_spec n value :
  (n <= 4)%nat -> 0 < value < 2 ^ (64 * Z.of_nat n) -> log2floor_loop n value (64 * Z.of_nat n) = Z.log2 value.
Proof.
  induction n as [|n IH]; intros Hn Hv; [simpl in Hv; lia|]. cbn [log2floor_loop].
  rewrite limb_top by lia. pose proof (Z.div_mod value (2 ^ (64 * Z.of_nat n)) ltac:(lia)) as Hdm.
  pose proof (Z.mod_pos_bound value (2 ^ (64 * Z.of_nat n)) ltac:(lia)) as Hm.
  destruct (Z.eqb_spec (value / 2 ^ (64 * Z.of_nat n)) 0) as [E|E].
  - rewrite u64_sub_small by (unfold u64_modulus; lia).
    replace (64 * Z.of_nat (S n) - 64) with (64 * Z.of_nat n) by lia. apply IH; [lia|]. rewrite E in Hdm. lia.
  - assert (0 < value / 2 ^ (64 * Z.of_nat n)) as Hp.
    { pose proof (Z.div_pos value (2 ^ (64 * Z.of_nat n))). lia. }
    assert (Z.log2 (value / 2 ^ (64 * Z.of_nat n)) = Z.log2 value - 64 * Z.of_nat n) as El.
    { rewrite <- Z.shiftr_div_pow2 by lia. rewrite Z.log2_shiftr by lia.
      assert (64 * Z.of_nat n <= Z.log2 value); [|lia]. apply Z.log2_le_pow2; [lia|]. nia. }
    unfold u64_leading_zeros. destruct (Z.eqb_spec (value / 2 ^ (64 * Z.of_nat n)) 0); [done|]. cbv zeta. rewrite El.
    assert (64 * Z.of_nat n <= Z.log2 value < 64 * Z.of_nat (S n)) as Hb.
    { split; [|apply Z.log2_lt_pow2; lia]. apply Z.log2_le_pow2; [lia|]. nia. }
    assert (64 * Z.of_nat (S n) -u64 (63 - (Z.log2 value - 64 * Z.of_nat n)) = Z.log2 value + 1) as ->.
    { rewrite u64_sub_small; unfold u64_modulus; lia. }
    destruct (Z.eqb_spec (Z.log2 value + 1) 0); [lia|]. rewrite u64_sub_small; unfold u64_modulus; lia.
Qed.

(** [log2floor] computes the integer part of the logarithm; it panics on zero only. *)
Lemma log2floor_spec value : word value -> log2floor value = if value =? 0 then None else Some (Z.log2 value).
Proof.
  intros [H0 H1]. unfold log2floor. destruct (Z.eqb_spec value 0); [done|]. f_equal.
  change 256 with (64 * Z.of_nat 4). apply log2floor_loop_spec; [lia|]. change (2 ^ (64 * Z.of_nat 4)) with u256_modulus. lia.
Qed.

(** ** Memory gas *)

(** The largest number of words memory can be charged for, and the price bound. *)
Definition max_words : Z := 4294967296.
Definition max_memory_gas : Z := 72057594037927936.

Lemma memory_gas_spec a g :
  0 <= a -> memory_gas a = Ok g -> a < max_words ∧ g = 3 * a + a * a / 512 ∧ 0 <= g < max_memory_gas.
Proof.
  intros Ha. unfold memory_gas, u64_checked_mul, u64_checked_add, G_MEMORY, ok_or.
  destruct (Z.leb_spec (3 * a) u64_max); [|done]. cbn [mbind option_bind].
  destruct (Z.leb_spec (a * a) u64_max) as [Hq|]; [|done]. cbn [mbind option_bind].
  destruct (Z.leb_spec (3 * a + a * a / 512) u64_max); [|done]. intros [= <-].
  assert (a < max_words) as Hw by (unfold max_words, u64_max in *; nia).
  assert (0 <= a * a / 512 <= 36028797018963968) as Hd.
  { split; [apply Z.div_pos; nia|]. unfold u64_max in Hq. apply Z.div_le_upper_bound; lia. }
  unfold max_words, max_memory_gas in *. split_and!; lia.
Qed.

Lemma memory_gas_total a : 0 <= a < max_words -> memory_gas a = Ok (3 * a + a * a / 512).
Proof.
  intros Ha. unfold memory_gas, u64_checked_mul, u64_checked_add, G_MEMORY, ok_or, max_words in *.
  rewrite (proj2 (Z.leb_le (3 * a) u64_max)) by (unfold u64_max; lia). cbn [mbind option_bind].
  rewrite (proj2 (Z.leb_le (a * a) u64_max)) by (unfold u64_max; nia). cbn [mbind option_bind].
  rewrite (proj2 (Z.leb_le (3 * a + a * a / 512) u64_max)); [done|].
  assert (a * a / 512 <= 36028797018963968) by (apply Z.div_le_upper_bound; nia). unfold u64_max. lia.
Qed.

Lemma words32_spec len : 0 <= len -> len <= 32 * words32 len < len + 32.
Proof.
  intros Hl. unfold words32. pose proof (Z.div_mod len 32 ltac:(lia)). pose proof (Z.mod_pos_bound len 32 ltac:(lia)).
  destruct (Z.eqb_spec (len mod 32) 0); lia.
Qed.

(** What a successful memory charge says about the range. *)
Definition paid_range (offset len : Z) : Prop := len = 0 ∨ offset + len <= 32 * max_words.

Lemma Inner_memory_gas_spec i m g :
  word (mcost_offset m) -> word (mcost_len m) -> 0 <= inner_memory_gas i < max_memory_gas ->
  Inner_memory_gas i m = Ok g ->
  paid_range (mcost_offset m) (mcost_len m) ∧ inner_memory_gas i <= g < max_memory_gas.
Proof.
  intros Ho Hl Hi. unfold Inner_memory_gas. destruct (Z.eqb_spec (mcost_len m) 0) as [E|E].
  { intros [= <-]. split; [by left|lia]. }
  unfold u256_checked_add. destruct (_ <? u256_modulus); [|done].
  destruct (Z.ltb_spec usize_max (mcost_offset m + mcost_len m)); [done|].
  set (e := mcost_offset m + mcost_len m) in *. cbv zeta.
  assert ((if e mod 32 =? 0 then e / 32 else e / 32 + 1) = words32 e) as ->.
  { unfold words32. destruct (e mod 32 =? 0); lia. }
  assert (0 <= e) by (unfold e; destruct Ho, Hl; lia). pose proof (words32_spec e ltac:(lia)).
  destruct (memory_gas (words32 e)) as [x|] eqn:Em; [|done]. intros [= <-].
  destruct (memory_gas_spec (words32 e) x ltac:(lia) Em) as (Hw & _ & Hx).
  split; [right; unfold e in *; lia|lia].
Qed.

Lemma MemoryCost_join_spec a b :
  word (mcost_offset a) -> word (mcost_len a) -> word (mcost_offset b) -> word (mcost_len b) ->
  paid_range (mcost_offset (MemoryCost_join a b)) (mcost_len (MemoryCost_join a b)) ->
  paid_range (mcost_offset a) (mcost_len a) ∧ paid_range (mcost_offset b) (mcost_len b).
Proof.
  intros [] [] [] []. unfold MemoryCost_join, paid_range.
  destruct (Z.eqb_spec (mcost_len a) 0) as [->|]; [intros Hb; split; [by left|done]|].
  destruct (Z.eqb_spec (mcost_len b) 0) as [->|]; [intros Ha; split; [done|by left]|].
  unfold u256_saturating_add, U256_MAX, max_words. cbv zeta.
  destruct (Z.leb_spec (Z.min 0xffffffffffffffffffffffffffffffffffffffffffffffffffffffffffffffff (mcost_offset b + mcost_len b))
    (Z.min 0xffffffffffffffffffffffffffffffffffffffffffffffffffffffffffffffff (mcost_offset a + mcost_len a))); lia.
Qed.

(** ** The gasometer *)

(** Gas limits are kept below [i64::MAX], so that sums of two do not wrap. *)
Definition max_gas : Z := 9223372036854775807.

Record gas_wf (g : Gasometer) : Prop := {
  gw_limit : 0 <= gm_gas_limit g <= max_gas;
  gw_inner : forall i, gm_inner g = Ok i ->
    0 <= inner_memory_gas i < max_memory_gas ∧ 0 <= inner_used_gas i ∧
    inner_used_gas i + inner_memory_gas i <= gm_gas_limit g
}.

(** The remaining gas, without wrapping. *)
Definition gas_of (g : Gasometer) : Z :=
  match gm_inner g with
  | Ok i => gm_gas_limit g - inner_used_gas i - inner_memory_gas i
  | Err _ => 0
  end.

Definition used_of (g : Gasometer) : Z := match gm_inner g with Ok i => inner_used_gas i | Err _ => 0 end.

Definition gas_open (g : Gasometer) : Prop := exists i, gm_inner g = Ok i.

Lemma gas_of_spec g : gas_wf g -> Gasometer_gas g = gas_of g.
Proof.
  intros [Hl Hi]. unfold Gasometer_gas, gas_of. destruct (gm_inner g) as [i|]; [|done].
  destruct (Hi i eq_refl) as (? & ? & ?). unfold max_gas in *.
  rewrite (u64_sub_small (gm_gas_limit g)) by (unfold u64_modulus; lia).
  rewrite u64_sub_small by (unfold u64_modulus; lia). done.
Qed.

Lemma gas_of_bounds g : gas_wf g -> 0 <= gas_of g <= gm_gas_limit g.
Proof.
  intros [Hl Hi]. unfold gas_of. destruct (gm_inner g) as [i|]; [|lia].
  destruct (Hi i eq_refl) as (? & ? & ?). lia.
Qed.

Lemma total_used_spec g :
  gas_wf g -> total_used_gas g = gm_gas_limit g - gas_of g.
Proof.
  intros [Hl Hi]. unfold total_used_gas, gas_of. destruct (gm_inner g) as [i|]; [|lia].
  destruct (Hi i eq_refl) as (? & ? & ?). unfold max_gas in *.
  rewrite u64_add_small by (unfold u64_modulus; lia). lia.
Qed.

Lemma Gasometer_new_wf limit config : 0 <= limit <= max_gas -> gas_wf (Gasometer_new limit config).
Proof. intros Hl. split; [done|]. intros i [= <-]. simpl. unfold max_memory_gas. lia. Qed.

Lemma set_inner_Err_wf e g : gas_wf g -> gas_wf (set_inner (Err e) g).
Proof. intros [Hl _]. by split. Qed.

(** What an operation of the gasometer leaves alone. *)
Definition same_meter (g g' : Gasometer) : Prop :=
  gm_gas_limit g' = gm_gas_limit g ∧ gm_config g' = gm_config g.

#[global] Instance same_meter_preorder : PreOrder same_meter.
Proof. split; [by split|]. intros ??? [] []. split; congruence. Qed.

(** [record_cost] charges exactly the cost, or fails and leaves no gas; it fails
    exactly when the cost exceeds the gas or the meter has failed before. *)
Lemma record_cost_spec g cost g' r :
  gas_wf g -> 0 <= cost <= max_gas -> record_cost cost g = (g', r) ->
  gas_wf g' ∧ same_meter g g' ∧
  match r with
  | Ok _ => gas_open g' ∧ gas_of g' = gas_of g - cost ∧ used_of g' = used_of g + cost
  | Err _ => gas_of g' = 0 ∧ (gas_open g -> gas_of g < cost)
  end.
Proof.
  intros Hw Hc. unfold record_cost. rewrite (total_used_spec g) by done.
  pose proof (gas_of_bounds g Hw) as Hb. pose proof (gw_limit g Hw) as Hl. unfold max_gas in *.
  rewrite u64_add_small by (unfold u64_modulus; lia).
  destruct (Z.ltb_spec (gm_gas_limit g) (gm_gas_limit g - gas_of g + cost)).
  { intros [= <- <-]. split_and!; [by apply set_inner_Err_wf|by split|done|lia]. }
  unfold update_used, used_of. destruct (gm_inner g) as [i|] eqn:E; intros [= <- <-].
  - destruct (gw_inner g Hw i E) as (Hm & Hu & Hs). unfold gas_of in *. rewrite E in *. cbn.
    rewrite u64_add_small by (unfold u64_modulus; lia).
    split_and!; [|by split|eexists; reflexivity|lia|done].
    split; [exact Hl|]. intros ? [= <-]. cbn. lia.
  - split_and!; [done|by split|by unfold gas_of; rewrite E|]. intros [i Hi]. congruence.
Qed.

Lemma record_cost_Ok g cost :
  gas_wf g -> gas_open g -> 0 <= cost <= gas_of g -> exists g', record_cost cost g = (g', Ok tt).
Proof.
  intros Hw Ho Hc. destruct (record_cost cost g) as [g' [[]|e]] eqn:E; [by exists g'|].
  pose proof (gas_of_bounds g Hw). pose proof (gw_limit g Hw).
  destruct (record_cost_spec g cost g' (Err e) Hw ltac:(lia) E) as (_ & _ & _ & Hlt). specialize (Hlt Ho). lia.
Qed.

(** The gas handed back by a child does not exceed what the parent recorded. *)
Lemma record_stipend_spec g stipend g' r :
  gas_wf g -> gas_open g -> 0 <= stipend <= used_of g -> record_stipend stipend g = (g', r) ->
  r = Ok tt ∧ gas_wf g' ∧ same_meter g g' ∧ gas_open g' ∧ gas_of g' = gas_of g + stipend ∧
  used_of g' = used_of g - stipend.
Proof.
  intros Hw [i E] Hs. unfold record_stipend, update_used, used_of, gas_of in *. rewrite E in *.
  destruct (gw_inner g Hw i E) as (? & ? & ?). pose proof (gw_limit g Hw). unfold max_gas in *. intros [= <- <-]. cbn.
  rewrite u64_sub_small by (unfold u64_modulus; lia).
  split_and!; [done| |by split|eexists; reflexivity|lia|done].
  split; [done|]. intros ? [= <-]. cbn. lia.
Qed.

Lemma record_refund_spec g refund g' r :
  gas_wf g -> gas_open g -> record_refund refund g = (g', r) ->
  r = Ok tt ∧ gas_wf g' ∧ same_meter g g' ∧ gas_open g' ∧ gas_of g' = gas_of g ∧ used_of g' = used_of g.
Proof.
  intros Hw [i E]. unfold record_refund, used_of, gas_of. rewrite E. intros [= <- <-]. cbn.
  split_and!; [done| |by split|eexists; reflexivity|done|done].
  split; [apply Hw|]. intros ? [= <-]. cbn. by apply (gw_inner g Hw i).
Qed.

Lemma record_transaction_spec g cost g' r :
  gas_wf g -> 0 <= transaction_gas cost (gm_config g) -> record_transaction cost g = (g', r) ->
  gas_wf g' ∧ same_meter g g' ∧
  match r with
  | Ok _ => gas_open g' ∧ gas_of g' = gas_of g - transaction_gas cost (gm_config g)
  | Err _ => gas_of g' = 0
  end.
Proof.
  intros Hw Hc. unfold record_transaction. rewrite gas_of_spec by done.
  destruct (Z.ltb_spec (gas_of g) (transaction_gas cost (gm_config g))).
  { intros [= <- <-]. split_and!; [by apply set_inner_Err_wf|by split|done]. }
  unfold update_used. unfold gas_of in *. destruct (gm_inner g) as [i|] eqn:E; intros [= <- <-].
  - destruct (gw_inner g Hw i E) as (? & ? & ?). pose proof (gw_limit g Hw). unfold max_gas in *. cbn.
    rewrite u64_add_small by (unfold u64_modulus; lia).
    split_and!; [|by split|eexists; reflexivity|lia]. split; [done|]. intros ? [= <-]. cbn. lia.
  - split_and!; [done|by split|by rewrite E].
Qed.

Lemma transaction_gas_nonneg cost config : 0 <= transaction_gas cost config.
Proof.
  destruct cost; cbn [transaction_gas]; [apply u64_add_range|]. case_match; apply u64_add_range.
Qed.

(** ** The costs of the opcodes *)

(** The length a cost grows with. *)
Definition cost_len (cost : GasCost) : option Z :=
  match cost with
  | GasSha3 len | GasLog _ len | GasVeryLowCopy len | GasExtCodeCopy _ len | GasCreate2 len => Some len
  | _ => None
  end.

Definition cost_words (cost : GasCost) : Prop :=
  match cost with
  | GasSha3 len | GasVeryLowCopy len | GasExtCodeCopy _ len | GasCreate2 len => word len
  | GasLog n len => 0 <= n <= 4 ∧ word len
  | GasExp power => word power
  | _ => True
  end.

(** The call transfers value. *)
Definition cost_value (cost : GasCost) : option Z :=
  match cost with GasCall value _ _ _ | GasCallCode value _ _ _ => Some value | _ => None end.

Definition free_cost (cost : GasCost) : bool :=
  match cost with GasZero | GasSuicide _ _ _ _ => true | _ => false end.

Definition max_cost : Z := 1099511693692.

Lemma as_gas_Ok o g : as_gas o = Ok g -> o = Some g ∧ g <= u64_max.
Proof. destruct o as [x|]; simpl; [|done]. destruct (Z.ltb_spec u64_max x); [done|]. by intros [= <-]. Qed.

Lemma checked_linear base per n g :
  (x ← u256_checked_mul per n; u256_checked_add base x) = Some g -> g = base + per * n.
Proof.
  unfold u256_checked_mul, u256_checked_add. case_match; [|done]. cbn [mbind option_bind]. case_match; [|done].
  by intros [= <-].
Qed.

Lemma checked_log a b c l g :
  (x ← u256_checked_mul b l; y ← u256_checked_add a x; u256_checked_add y c) = Some g -> g = a + b * l + c.
Proof.
  unfold u256_checked_mul, u256_checked_add. case_match; [|done]. cbn [mbind option_bind]. case_match; [|done].
  cbn [mbind option_bind]. case_match; [|done]. by intros [= <-].
Qed.

Lemma exp_cost_spec power config :
  cfg_ok config -> word power ->
  exists r, exp_cost power config = Some r ∧ forall g, r = Ok g -> 0 < g <= max_cost.
Proof.
  intros Hc Hw. unfold exp_cost. destruct (Z.eqb_spec power 0); [eexists; split; [done|by intros ? [= <-]]|].
  rewrite log2floor_spec by done. destruct (Z.eqb_spec power 0); [done|]. cbn [mbind option_bind].
  eexists; split; [done|]. intros g Hg%as_gas_Ok. destruct Hg as [->%checked_linear _].
  assert (0 <= Z.log2 power <= 255) as Hl.
  { split; [apply Z.log2_nonneg|]. destruct Hw. assert (Z.log2 power < 256); [|lia].
    apply Z.log2_lt_pow2; [lia|]. done. }
  pose proof (Z.div_pos (Z.log2 power) 8 ltac:(lia) ltac:(lia)).
  pose proof (Z.div_le_upper_bound (Z.log2 power) 8 32 ltac:(lia) ltac:(lia)).
  rewrite u64_add_small by (unfold u64_modulus; lia).
  pose proof (ck_prices _ Hc) as Hp. do 11 (apply Forall_cons in Hp as [? Hp]).
  unfold price_ok in *. unfold G_EXP, max_cost. nia.
Qed.

(** Splits the price bounds of a configuration. *)
Ltac cfg_prices Hc :=
  let Hp := fresh "Hp" in
  pose proof (ck_prices _ Hc) as Hp; repeat rewrite Forall_cons in Hp; unfold price_ok in Hp;
  destruct Hp as (?&?&?&?&?&?&?&?&?&?&?&?&?&_).

Lemma address_access_cost_bounds cold regular config :
  cfg_ok config -> 0 <= regular <= 4294967295 -> (cfg_increase_state_access_gas config = false -> 0 < regular) ->
  0 < address_access_cost cold regular config <= 4294967295.
Proof.
  intros Hc Hr. unfold address_access_cost. generalize (ck_access _ Hc). cfg_prices Hc.
  destruct (cfg_increase_state_access_gas config); intros Hacc Hpos; [destruct cold; lia|]. specialize (Hpos eq_refl). lia.
Qed.

Lemma call_cost_bounds value cold callcode staticcall new config :
  cfg_ok config ->
  0 < call_cost value cold callcode staticcall new config <= 4295001295 ∧
  (callcode = true -> value ≠ 0 -> 9000 < call_cost value cold callcode staticcall new config).
Proof.
  intros Hc. unfold call_cost. cbv zeta.
  assert (0 < address_access_cost cold (cfg_gas_call config) config <= 4294967295) as Ha.
  { pose proof (ck_access _ Hc) as Hacc. cfg_prices Hc. apply address_access_cost_bounds; [done|lia|].
    intros E. rewrite E in Hacc. lia. }
  assert (0 <= xfer_cost callcode (negb (value =? 0)) <= 9000 ∧
    (callcode = true -> value ≠ 0 -> xfer_cost callcode (negb (value =? 0)) = 9000)) as [Hx Hx'].
  { unfold xfer_cost, G_CALLVALUE. destruct callcode, (Z.eqb_spec value 0); simpl; split; lia || done. }
  assert (0 <= new_cost staticcall new (negb (value =? 0)) config <= 25000) as Hn.
  { unfold new_cost, G_NEWACCOUNT. repeat case_match; lia. }
  rewrite (u64_add_small (address_access_cost _ _ _)) by (unfold u64_modulus; lia).
  rewrite u64_add_small by (unfold u64_modulus; lia).
  split; [lia|]. intros H1 H2. specialize (Hx' H1 H2). lia.
Qed.

Lemma sstore_cost_bounds original current new gas cold config g :
  cfg_ok config -> sstore_cost original current new gas cold config = Ok g -> 0 < g <= 8589934590.
Proof.
  intros Hc. unfold sstore_cost. cbv zeta. pose proof (ck_sload _ Hc). pose proof (ck_sstore _ Hc). cfg_prices Hc.
  assert (forall c, 0 < c <= 4294967295 ->
    0 < (if cold then c +u64 cfg_gas_sload_cold config else c) <= 8589934590) as Hcharge.
  { intros c Hb. destruct cold; [|lia]. rewrite u64_add_small by (unfold u64_modulus; lia). lia. }
  repeat case_match; intros [= <-]; apply Hcharge; lia.
Qed.

Lemma suicide_cost_bounds value cold exists_ config :
  cfg_ok config -> 0 <= suicide_cost value cold exists_ config <= 12884901885.
Proof.
  intros Hc. unfold suicide_cost. cbv zeta. cfg_prices Hc.
  match goal with |- context [cfg_gas_suicide config +u64 ?x] => assert (0 <= x <= 4294967295) as Hx by (case_match; lia) end.
  rewrite (u64_add_small (cfg_gas_suicide config)) by (unfold u64_modulus; lia).
  destruct (cfg_increase_state_access_gas config && cold); [rewrite u64_add_small by (unfold u64_modulus; lia)|]; lia.
Qed.

(** Every cost is defined and moderate once its length has been paid for, and
    positive unless execution ends with the opcode.  A call that transfers value
    costs more than the stipend it grants. *)
Lemma Inner_gas_cost_bounds cost gas config :
  cfg_ok config -> cost_words cost ->
  exists r, Inner_gas_cost cost gas config = Some r ∧
    forall g, r = Ok g -> (forall len, cost_len cost = Some len -> len <= 32 * max_words) ->
      0 <= g <= max_cost ∧ (free_cost cost = false -> 0 < g) ∧
      (forall v, cost_value cost = Some v -> v ≠ 0 -> 9000 < g).
Proof.
  intros Hc Hw. pose proof (ck_access _ Hc) as Hacc. pose proof (ck_sload _ Hc) as Hsl.
  assert (forall len, word len -> len <= 32 * max_words -> 0 <= words32 len <= max_words + 1) as Hwords.
  { intros len [] ?. pose proof (words32_spec len ltac:(lia)). lia. }
  unfold max_cost, max_words in *.
  destruct cost; cbn [Inner_gas_cost cost_len cost_words cost_value free_cost] in *.
  (* calls *)
  10-13: (eexists; split; [done|]; intros g [= <-] _;
    match goal with |- context [call_cost ?v ?c ?a ?b ?n ?f] => destruct (call_cost_bounds v c a b n f Hc) as [Hb Hv] end;
    split_and!; [lia|lia|lia|]; intros v' [= <-]; by apply Hv).
  (* lengths *)
  12-15, 18: (eexists; split; [done|]; intros g Hg%as_gas_Ok Hl; specialize (Hl _ eq_refl);
    destruct Hg as [Hg _]; try apply checked_log in Hg; try apply checked_linear in Hg).
  all: try (eexists; split; [done|]; intros g [= <-] _).
  all: try (unfold G_ZERO, G_BASE, G_VERYLOW, G_LOW, G_BLOCKHASH, G_CREATE; split_and!; intros; (done || lia)).
  - cfg_prices Hc. destruct (address_access_cost_bounds target_is_cold (cfg_gas_ext_code config) config Hc) as [];
      [lia|intros E; rewrite E in Hacc; lia|]. split_and!; [lia..|done].
  - cfg_prices Hc. destruct (address_access_cost_bounds target_is_cold (cfg_gas_balance config) config Hc) as [];
      [lia|intros E; rewrite E in Hacc; lia|]. split_and!; [lia..|done].
  - cfg_prices Hc. destruct (address_access_cost_bounds target_is_cold (cfg_gas_ext_code_hash config) config Hc) as [];
      [lia|intros E; rewrite E in Hacc; lia|]. split_and!; [lia..|done].
  - destruct (suicide_cost_bounds value target_is_cold target_exists config Hc). split_and!; [lia|lia|done..].
  - eexists; split; [done|]. intros g Hg _. destruct (sstore_cost_bounds _ _ _ _ _ _ _ Hc Hg). split_and!; [lia..|done].
  - specialize (Hwords _ Hw Hl). subst g. unfold G_SHA3, G_SHA3WORD. split_and!; [lia..|done].
  - subst g. destruct Hw as [? []]. unfold G_LOG, G_LOGDATA, G_LOGTOPIC. split_and!; [lia..|done].
  - specialize (Hwords _ Hw Hl). cfg_prices Hc. subst g.
    destruct (address_access_cost_bounds target_is_cold (cfg_gas_ext_code config) config Hc) as [];
      [lia|intros E; rewrite E in Hacc; lia|]. unfold G_COPY. split_and!; [lia..|done].
  - specialize (Hwords _ Hw Hl). subst g. unfold G_VERYLOW, G_COPY. split_and!; [lia..|done].
  - specialize (Hwords _ Hw Hl). subst g. unfold G_CREATE, G_SHA3WORD. split_and!; [lia..|done].
  - destruct (exp_cost_spec power config Hc Hw) as (r & Hr & Hb). exists r. split; [done|]. intros g Hg _.
    specialize (Hb g Hg). unfold max_cost in Hb. split_and!; [lia..|done].
  - unfold sload_cost. cfg_prices Hc. destruct (cfg_increase_state_access_gas config), target_is_cold;
      split_and!; try done; intros; lia.
Qed.

(** ** Charging an opcode *)

(** The memory charge that goes with a cost: operands are words, and a length the
    cost grows with is the length of the memory range. *)
Record charge_ok (cost : GasCost) (memory : option MemoryCost) : Prop := {
  co_words : cost_words cost;
  co_memory : forall m, memory = Some m -> word (mcost_offset m) ∧ word (mcost_len m);
  co_len : forall len, cost_len cost = Some len -> exists m, memory = Some m ∧ mcost_len m = len
}.

Definition memory_after (memory : option MemoryCost) (i : Inner) : Result Z ExitError :=
  match memory with Some m => Inner_memory_gas i m | None => Ok (inner_memory_gas i) end.

Lemma memory_after_spec cost memory i mg :
  charge_ok cost memory -> 0 <= inner_memory_gas i < max_memory_gas -> memory_after memory i = Ok mg ->
  inner_memory_gas i <= mg < max_memory_gas ∧
  (forall m, memory = Some m -> paid_range (mcost_offset m) (mcost_len m)) ∧
  (forall len, cost_len cost = Some len -> len <= 32 * max_words).
Proof.
  intros Hco Hi. unfold memory_after. destruct memory as [m|].
  - intros Hm. destruct (co_memory _ _ Hco m eq_refl) as [Ho Hl].
    destruct (Inner_memory_gas_spec i m mg Ho Hl Hi Hm) as [Hr Hb].
    split_and!; [lia|lia|by intros ? [= <-]|].
    intros len Hlen. destruct (co_len _ _ Hco len Hlen) as (? & [= <-] & <-).
    destruct Hr as [->|]; [unfold max_words; lia|]. destruct Ho. lia.
  - intros [= <-]. split_and!; [lia|lia|done|].
    intros len Hlen. by destruct (co_len _ _ Hco len Hlen) as (? & ? & _).
Qed.

(** A successful charge: the price of the opcode and of the growth of memory. *)
Record charged (cost : GasCost) (memory : option MemoryCost) (g g' : Gasometer) (gc : Z) : Prop := {
  cd_cost : Inner_gas_cost cost (gas_of g) (gm_config g) = Some (Ok gc);
  cd_bounds : 0 <= gc <= max_cost;
  cd_open : gas_open g';
  cd_used : used_of g' = used_of g + gc;
  cd_gas : gas_of g' <= gas_of g - gc;
  cd_paid : free_cost cost = false -> 0 < gc;
  cd_value : forall v, cost_value cost = Some v -> v ≠ 0 -> 9000 < gc;
  cd_range : forall m, memory = Some m -> paid_range (mcost_offset m) (mcost_len m)
}.

Lemma record_dynamic_cost_spec g cost memory :
  gas_wf g -> cfg_ok (gm_config g) -> charge_ok cost memory ->
  exists g' r, record_dynamic_cost cost memory g = Some (g', r) ∧ gas_wf g' ∧ same_meter g g' ∧
    match r with
    | Ok _ => exists gc, charged cost memory g g' gc
    | Err _ => gas_of g' = 0
    end.
Proof.
  intros Hw Hc Hco. unfold record_dynamic_cost. rewrite gas_of_spec by done. cbv zeta.
  assert (forall e, gas_wf (set_inner (Err e) g) ∧ same_meter g (set_inner (Err e) g) ∧
    gas_of (set_inner (Err e) g) = 0) as Hfail.
  { intros e. split_and!; [by apply set_inner_Err_wf|by split|done]. }
  destruct (gm_inner g) as [i|e] eqn:Ei.
  2: { eexists _, _. split_and!; [done|done|by split|unfold gas_of; by rewrite Ei]. }
  destruct (gw_inner g Hw i Ei) as (Hm & Hu & Hs).
  destruct (match memory with Some m => Inner_memory_gas i m | None => Ok (inner_memory_gas i) end)
    as [mg|e] eqn:Emg; [|eexists _, (Err e); split; [done|apply Hfail]].
  destruct (memory_after_spec cost memory i mg Hco Hm Emg) as (Hmg & Hrange & Hlen).
  destruct (Inner_gas_cost_bounds cost (gas_of g) (gm_config g) Hc (co_words _ _ Hco)) as (r & Hr & Hb).
  rewrite Hr. destruct r as [gc|e]; [|eexists _, (Err e); split; [done|apply Hfail]].
  destruct (Hb gc eq_refl Hlen) as (Hgc & Hpos & Hval). pose proof (gw_limit g Hw) as Hlim.
  assert (mg +u64 inner_used_gas i +u64 gc = mg + inner_used_gas i + gc) as ->.
  { unfold max_gas, max_memory_gas, max_cost in *.
    rewrite (u64_add_small mg) by (unfold u64_modulus; lia). apply u64_add_small. unfold u64_modulus. lia. }
  destruct (Z.ltb_spec (gm_gas_limit g) (mg + inner_used_gas i + gc)) as [|Hle];
    [eexists _, (Err OutOfGas); split; [done|apply Hfail]|].
  destruct (Inner_extra_check _ _ _) as [[]|e]; [|eexists _, (Err e); split; [done|apply Hfail]].
  assert (inner_used_gas i +u64 gc = inner_used_gas i + gc) as ->.
  { apply u64_add_small. unfold max_gas, u64_modulus in *. lia. }
  eexists _, (Ok tt). split_and!; [done| |by split|].
  - split; [exact Hlim|]. intros ? [= <-]. cbn. lia.
  - exists gc. split; [exact Hr|done|by eexists| | |done..]; unfold gas_of, used_of; rewrite Ei; cbn; lia.
Qed.

(** ** The costs the opcodes ask for *)

(** A property of the handler that the queries of the cost function keep; the
    storage of a slot can always be read. *)
Class OpsStable {H : Type} `{HandlerOps H} (P : H -> Prop) : Prop := {
  os_is_cold : forall a k h, P h -> P (h_is_cold a k h).1;
  os_external : forall op h, P h -> P (h_record_external_operation op h).1;
  os_storage : forall a k h, P h -> exists h' v, h_storage a k h = (h', Ok v) ∧ P h';
  os_original : forall a k h, P h -> exists h' v, h_original_storage a k h = (h', Ok v) ∧ P h'
}.

(** The operand that gives the length a cost grows with. *)
Definition length_operand (opcode : Z) : option nat :=
  table_get [(Opcode.SHA3, 1%nat); (Opcode.LOG0, 1%nat); (Opcode.LOG1, 1%nat); (Opcode.LOG2, 1%nat);
    (Opcode.LOG3, 1%nat); (Opcode.LOG4, 1%nat); (Opcode.CALLDATACOPY, 2%nat); (Opcode.CODECOPY, 2%nat);
    (Opcode.RETURNDATACOPY, 2%nat); (Opcode.EXTCODECOPY, 3%nat); (Opcode.CREATE2, 2%nat)] opcode.

Definition is_call (opcode : Z) : bool := (opcode =? Opcode.CALL) || (opcode =? Opcode.CALLCODE).

(** The opcodes after which a runtime does not go on. *)
Definition is_final (opcode : Z) : bool :=
  (opcode =? Opcode.STOP) || (opcode =? Opcode.RETURN) || (opcode =? Opcode.REVERT) || (opcode =? Opcode.SUICIDE).

(** What the cost of an opcode says about its operands. *)
Record cost_of (opcode : Z) (stack : Stack) (cost : GasCost) : Prop := {
  cf_words : cost_words cost;
  cf_len : forall len, cost_len cost = Some len ->
    exists n, length_operand opcode = Some n ∧ stk_data stack !! n = Some len;
  cf_free : free_cost cost = true -> is_final opcode = true;
  cf_value : is_call opcode = true -> forall v, stk_data stack !! 2%nat = Some v ->
    cost_value cost = Some v ∨ cost = GasInvalid opcode
}.

Section dynamic.
Context {H : Type} `{HandlerOps H} (P : H -> Prop) `{!OpsStable P}.

Abbreviation CostM := (EM H ExitError).
Abbreviation cost_hoare c Q := (hoare P c (fun x h => Q x ∧ P h) (fun (_ : ExitError) h => P h)).

Lemma peek_word_hoare stack n :
  stack_wf stack -> cost_hoare (peek_word stack n) (fun x => stk_data stack !! n = Some x ∧ word x).
Proof.
  intros Hs. apply hoare_result; unfold Stack_peek; intros x h E HP; [|done].
  destruct (stk_data stack !! n) eqn:El; [|done]. simplify_eq.
  split_and!; [done| |done]. by eapply Forall_lookup_1; [apply Hs|].
Qed.

Lemma peek_address_hoare stack n : stack_wf stack -> cost_hoare (peek_address stack n) (fun _ => True).
Proof.
  intros Hs. eapply hoare_bind; [by apply peek_word_hoare|]. intros x. apply hoare_pure. intros _.
  by apply hoare_ret.
Qed.

Lemma cold_hoare a k : cost_hoare (cost_handled (h_is_cold a k)) (fun _ => True).
Proof.
  intros h HP. unfold cost_handled. pose proof (os_is_cold a k h HP).
  destruct (h_is_cold a k h) as [h' [x|e]]; done.
Qed.

Lemma account_access_hoare a : cost_hoare (account_access a) (fun _ => True).
Proof.
  eapply hoare_bind; [apply cold_hoare|]. intros x. apply hoare_pure. intros _.
  eapply hoare_bind with (Q := fun _ => P).
  - intros h HP. unfold cost_handled. pose proof (os_external IsEmpty h HP).
    destruct (h_record_external_operation IsEmpty h) as [h' [y|e]]; done.
  - intros []. eapply hoare_bind; [apply hoare_get|]. intros h0. apply hoare_ret. by intros h [-> ?].
Qed.

Lemma unwrapped_storage_hoare a k : cost_hoare (cost_unwrapped (h_storage a k)) (fun _ => True).
Proof. intros h HP. unfold cost_unwrapped. by destruct (os_storage a k h HP) as (h' & v & -> & ?). Qed.

Lemma unwrapped_original_hoare a k : cost_hoare (cost_unwrapped (h_original_storage a k)) (fun _ => True).
Proof. intros h HP. unfold cost_unwrapped. by destruct (os_original a k h HP) as (h' & v & -> & ?). Qed.

Lemma get_hoare : hoare P em_get (fun _ h => P h) (fun (_ : ExitError) h => P h).
Proof. by intros h HP. Qed.

Lemma cost_of_plain opcode stack cost :
  cost_words cost -> cost_len cost = None -> (free_cost cost = true -> is_final opcode = true) ->
  is_call opcode = false -> cost_of opcode stack cost.
Proof. intros Hw Hl Hf Hc. split; [done| |done|]; intros; congruence. Qed.

Lemma cost_of_len opcode stack cost n len :
  cost_words cost -> cost_len cost = Some len -> length_operand opcode = Some n ->
  stk_data stack !! n = Some len -> free_cost cost = false -> is_call opcode = false -> cost_of opcode stack cost.
Proof. intros Hw Hl Hn Hs Hf Hc. split; [done|naive_solver|congruence|congruence]. Qed.

Lemma cost_of_call opcode stack cost v :
  cost_words cost -> cost_len cost = None -> free_cost cost = false -> cost_value cost = Some v ->
  stk_data stack !! 2%nat = Some v -> cost_of opcode stack cost.
Proof. intros Hw Hl Hf Hv Hs. split; [done|congruence|congruence|]. intros _ v' Hv'. left. congruence. Qed.

Lemma invalid_hoare opcode stack : cost_hoare (invalid opcode) (fun r => cost_of opcode stack r.1).
Proof. apply hoare_ret. intros h HP. split; [|done]. split; try done. by right. Qed.

Lemma flat_hoare opcode stack cost :
  cost_of opcode stack cost -> cost_hoare (flat cost) (fun r => cost_of opcode stack r.1).
Proof. intros Hc. by apply hoare_ret. Qed.

Lemma log_gas_hoare opcode stack n :
  stack_wf stack -> 0 <= n <= 4 -> length_operand opcode = Some 1%nat -> is_call opcode = false ->
  cost_hoare (log_gas n stack) (fun r => cost_of opcode stack r.1).
Proof.
  intros Hs Hn Hl Hc. eapply hoare_bind; [by apply peek_word_hoare|]. intros len. apply hoare_pure. intros [Hp Hw].
  apply flat_hoare. by eapply cost_of_len.
Qed.

Lemma call_gas_hoare opcode stack cost :
  stack_wf stack -> (forall v g a b, cost_words (cost v g a b) ∧ cost_len (cost v g a b) = None ∧
    free_cost (cost v g a b) = false ∧ cost_value (cost v g a b) = Some v) ->
  cost_hoare (call_gas cost stack) (fun r => cost_of opcode stack r.1).
Proof.
  intros Hs Hc. eapply hoare_bind; [by apply peek_address_hoare|]. intros to. apply hoare_pure. intros _.
  eapply hoare_bind; [by apply peek_word_hoare|]. intros v. apply hoare_pure. intros [Hv _].
  eapply hoare_bind; [by apply peek_word_hoare|]. intros g. apply hoare_pure. intros _.
  eapply hoare_bind; [apply account_access_hoare|]. intros acc. apply hoare_pure. intros _.
  apply hoare_ret. intros h HP. split; [|done]. destruct (Hc v g acc.1 acc.2) as (?&?&?&?). by eapply cost_of_call.
Qed.

Lemma valueless_call_gas_hoare opcode stack cost :
  stack_wf stack -> is_call opcode = false -> (forall g a b, cost_words (cost g a b) ∧ cost_len (cost g a b) = None ∧
    free_cost (cost g a b) = false) ->
  cost_hoare (valueless_call_gas cost stack) (fun r => cost_of opcode stack r.1).
Proof.
  intros Hs Hop Hc. eapply hoare_bind; [by apply peek_address_hoare|]. intros to. apply hoare_pure. intros _.
  eapply hoare_bind; [by apply peek_word_hoare|]. intros g. apply hoare_pure. intros _.
  eapply hoare_bind; [apply account_access_hoare|]. intros acc. apply hoare_pure. intros _.
  apply hoare_ret. intros h HP. split; [|done]. destruct (Hc g acc.1 acc.2) as (?&?&Hf).
  apply cost_of_plain; [done..| |done]. simpl. by rewrite Hf.
Qed.

Lemma sstore_gas_hoare address stack :
  stack_wf stack -> cost_hoare (sstore_gas address stack) (fun r => cost_of Opcode.SSTORE stack r.1).
Proof.
  intros Hs. eapply hoare_bind; [by apply peek_word_hoare|]. intros i. apply hoare_pure. intros _.
  eapply hoare_bind; [by apply peek_word_hoare|]. intros v. apply hoare_pure. intros _.
  eapply hoare_bind; [apply unwrapped_original_hoare|]. intros o. apply hoare_pure. intros _.
  eapply hoare_bind; [apply unwrapped_storage_hoare|]. intros c. apply hoare_pure. intros _.
  eapply hoare_bind; [apply cold_hoare|]. intros b. apply hoare_pure. intros _.
  apply hoare_ret. intros h HP. split; [|done]. by apply cost_of_plain.
Qed.

Lemma suicide_gas_hoare address stack :
  stack_wf stack -> cost_hoare (suicide_gas address stack) (fun r => cost_of Opcode.SUICIDE stack r.1).
Proof.
  intros Hs. eapply hoare_bind; [by apply peek_address_hoare|]. intros to. apply hoare_pure. intros _.
  eapply hoare_bind; [apply get_hoare|]. intros h0.
  eapply hoare_bind; [apply account_access_hoare|]. intros acc. apply hoare_pure. intros _.
  eapply hoare_bind; [apply get_hoare|]. intros h1.
  apply hoare_ret. intros h HP. split; [|done]. by apply cost_of_plain.
Qed.

(** An opcode that looks at one account, and may grow with a length. *)
Lemma cold_address_hoare {A} address (f : bool -> CostM A) (Q : A -> Prop) :
  (forall b, cost_hoare (f b) Q) -> cost_hoare (cold_address address ≫= f) Q.
Proof. intros Hf. eapply hoare_bind; [apply cold_hoare|]. intros b. apply hoare_pure. intros _. apply Hf. Qed.

Lemma opcode_gas_cost_hoare address opcode stack is_static config :
  stack_wf stack ->
  cost_hoare (opcode_gas_cost address opcode stack is_static config) (fun r => cost_of opcode stack r.1).
Proof.
  intros Hs. unfold opcode_gas_cost. cbv zeta.
  repeat match goal with |- hoare _ (if ?b then _ else _) _ _ => destruct b eqn:? end.
  all: try apply invalid_hoare.
  all: repeat match goal with
    | E : (_ || _) = true |- _ => apply orb_true_iff in E as [E|E]
    | E : (_ && _) = true |- _ => apply andb_true_iff in E as [E ?]
    | E : (?o =? _) = true |- _ => is_var o; apply Z.eqb_eq in E; subst o
    end.
  all: try (apply flat_hoare; by apply cost_of_plain).
  all: try (by apply log_gas_hoare).
  all: try (by apply call_gas_hoare).
  all: try (by apply valueless_call_gas_hoare).
  all: try (by apply sstore_gas_hoare).
  all: try (by apply suicide_gas_hoare).
  all: try (eapply hoare_bind; [by apply peek_address_hoare|]; intros to; apply hoare_pure; intros _;
    apply cold_address_hoare; intros cold; apply hoare_ret; intros h HP; split; [by apply cost_of_plain|done]).
  all: try (eapply hoare_bind; [by apply peek_word_hoare|]; intros len; apply hoare_pure; intros [Hp Hw];
    apply flat_hoare; first [by eapply cost_of_len|by apply cost_of_plain]).
  - eapply hoare_bind; [by apply peek_address_hoare|]; intros to; apply hoare_pure; intros _.
    apply cold_address_hoare. intros cold.
    eapply hoare_bind; [by apply peek_word_hoare|]. intros len. apply hoare_pure. intros [Hp Hw].
    apply hoare_ret. intros h HP. split; [by eapply cost_of_len|done].
  - eapply hoare_bind; [by apply peek_word_hoare|]. intros i. apply hoare_pure. intros _.
    eapply hoare_bind; [apply cold_hoare|]. intros b. apply hoare_pure. intros _.
    apply hoare_ret. intros h HP. split; [by apply cost_of_plain|done].
  - eapply hoare_bind with (Q := fun _ => P).
    + destruct is_static; [|by apply hoare_ret].
      eapply hoare_bind; [by apply peek_word_hoare|]. intros v. apply hoare_pure. intros _. by apply hoare_ret.
    + intros []; [by apply call_gas_hoare|apply invalid_hoare].
Qed.
End dynamic.

Lemma table_get_elem_of {A} (t : list (Z * A)) op x : table_get t op = Some x -> (op, x) ∈ t.
Proof.
  unfold table_get. destruct (find _ t) as [[o y]|] eqn:E; [|done]. intros [= <-].
  apply find_some in E as [Hin Ho]. simpl in Ho. apply Z.eqb_eq in Ho as ->. by apply list_elem_of_In.
Qed.

Lemma Stack_peek_Ok stack n x : Stack_peek stack n = Ok x -> stk_data stack !! n = Some x.
Proof. unfold Stack_peek. destruct (stk_data stack !! n); by intros [= ->]. Qed.

Lemma memory_cost_at_spec stack o l mem :
  memory_cost_at stack o l = Ok mem ->
  exists x y, mem = Some (mkMemoryCost x y) ∧ stk_data stack !! o = Some x ∧ stk_data stack !! l = Some y.
Proof.
  unfold memory_cost_at. destruct (Stack_peek stack o) eqn:Eo; [|done].
  destruct (Stack_peek stack l) eqn:El; [|done]. intros [= <-].
  apply Stack_peek_Ok in Eo, El. eauto.
Qed.

Lemma memory_cost_words opcode stack mem m :
  stack_wf stack -> opcode_memory_cost opcode stack = Ok mem -> mem = Some m ->
  word (mcost_offset m) ∧ word (mcost_len m).
Proof.
  intros Hs Hm ->. assert (forall n x, stk_data stack !! n = Some x -> word x) as Hw.
  { intros n x. apply Forall_lookup_1, Hs. }
  assert (forall o l m', memory_cost_at stack o l = Ok (Some m') -> word (mcost_offset m') ∧ word (mcost_len m')) as Hat.
  { intros o l m' (x & y & [= ->] & Hx & Hy)%memory_cost_at_spec. simpl. eauto. }
  assert (forall len m', word len -> memory_cost_fixed stack len = Ok (Some m') ->
    word (mcost_offset m') ∧ word (mcost_len m')) as Hfix.
  { intros len m' Hl. unfold memory_cost_fixed. destruct (Stack_peek stack 0) eqn:E; [|done].
    intros [= <-]. simpl. split; [|done]. by eapply Hw, Stack_peek_Ok. }
  assert (forall a b c d m', memory_cost_join stack a b c d = Ok (Some m') ->
    word (mcost_offset m') ∧ word (mcost_len m')) as Hjoin.
  { intros a b c d m'. unfold memory_cost_join. destruct (memory_cost_at stack a b) as [[x|]|] eqn:E1; [..|done].
    - destruct (memory_cost_at stack c d) as [[y|]|] eqn:E2; [|done..]. intros [= <-].
      unfold MemoryCost_join. repeat case_match; eauto.
    - by destruct (memory_cost_at stack c d). }
  unfold opcode_memory_cost in Hm. cbv zeta in Hm. repeat case_match;
    first [discriminate|by eapply Hat|by eapply Hjoin|by eapply Hfix; [|exact Hm]; split].
Qed.

Lemma memory_cost_len opcode stack mem n len :
  opcode_memory_cost opcode stack = Ok mem -> length_operand opcode = Some n ->
  stk_data stack !! n = Some len -> exists m, mem = Some m ∧ mcost_len m = len.
Proof.
  intros Hm Hn Hl. apply table_get_elem_of in Hn.
  assert (exists o, memory_cost_at stack o n = Ok mem) as (o & Ho).
  { repeat (apply elem_of_cons in Hn as [[= -> ->]|Hn]); [..|by apply elem_of_nil in Hn];
      [exists 0%nat|exists 0%nat|exists 0%nat|exists 0%nat|exists 0%nat|exists 0%nat|exists 0%nat|exists 0%nat
      |exists 0%nat|exists 1%nat|exists 1%nat]; exact Hm. }
  apply memory_cost_at_spec in Ho as (x & y & -> & _ & Hy). eexists; split; [done|]. simpl. congruence.
Qed.

(** The charge of an opcode fits together, and the range a runtime returns is paid for. *)
Lemma dynamic_opcode_cost_hoare {H} `{HandlerOps H} (P : H -> Prop) `{!OpsStable P}
    address opcode stack is_static config :
  stack_wf stack ->
  hoare P (dynamic_opcode_cost address opcode stack is_static config)
    (fun r h => (cost_of opcode stack r.1.1 ∧ charge_ok r.1.1 r.2 ∧ opcode_memory_cost opcode stack = Ok r.2) ∧ P h)
    (fun _ h => P h).
Proof.
  intros Hs. eapply hoare_bind; [by apply opcode_gas_cost_hoare|]. intros [cost target]. apply hoare_pure. intros Hc.
  eapply hoare_bind with (Q := fun mem h => opcode_memory_cost opcode stack = Ok mem ∧ P h).
  - apply hoare_result; [done|]. by intros.
  - intros mem. apply hoare_pure. intros Hm. apply hoare_ret. intros h HP. split_and!; try done.
    split; [apply Hc| |].
    + intros m Em. by eapply memory_cost_words.
    + intros len Hlen. destruct (cf_len _ _ _ Hc len Hlen) as (n & Hn & Hl). by eapply memory_cost_len.
Qed.

Lemma static_opcode_cost_spec opcode cost :
  static_opcode_cost opcode = Some cost ->
  0 <= cost <= 10 ∧ (is_final opcode = false -> 0 < cost) ∧ is_call opcode = false ∧
  opcode ≠ Opcode.RETURN ∧ opcode ≠ Opcode.REVERT.
Proof.
  intros Hin%table_get_elem_of.
  assert (forallb (fun p : Z * Z => (0 <=? p.2) && (p.2 <=? 10) && (is_final p.1 || (0 <? p.2))
    && negb (is_call p.1) && negb (p.1 =? Opcode.RETURN) && negb (p.1 =? Opcode.REVERT)) STATIC_COSTS = true) as Hall
    by (vm_compute; done).
  rewrite forallb_forall in Hall. apply list_elem_of_In, Hall in Hin. simpl in Hin.
  repeat (apply andb_true_iff in Hin as [Hin ?]).
  repeat match goal with E : negb _ = true |- _ => apply negb_true_iff in E end.
  split_and!; [lia|lia| |done|lia|lia]. intros Hf. rewrite Hf in *. simpl in *. lia.
Qed.
