(* ===== verification/EvmRuntimeProps.v ===== *)
(** * Soundness of the runtime

    [HandlerLaws] is what the runtime relies on in its handler: an invariant, words
    and bytes as answers, a measure of the gas left that every opcode which goes on
    decreases, and the depth of open calls.  Against it, [Runtime_step_sound] shows
    that a step of a well-formed runtime does not panic, keeps it well formed, and
    makes progress; [Runtime_run_sound] that a run ends. *)

From S2P Require Import Prelude Bytes Types EvmConfig EvmWord EvmCore EvmCoreProps EvmRuntime EvmGas EvmGasProps.
Local Open Scope Z_scope.
Local Open Scope chase_scope.

(** ** Machine steps *)

(** The evaluation does not touch the return range. *)
Definition keeps_range {A} (c : EvalM A) : Prop :=
  forall m m' r, c m = Some (m', r) -> mc_return_range m' = mc_return_range m.

Lemma kr_bind {A B} (c : EvalM A) (f : A -> EvalM B) :
  keeps_range c -> (forall x, keeps_range (f x)) -> keeps_range (c ≫= f).
Proof.
  intros Hc Hf m m' r. unfold mbind, EM_bind. destruct (c m) as [[m1 [x|e]]|] eqn:E; [..|done].
  - intros E2. rewrite (Hf x _ _ _ E2). by apply (Hc _ _ _ E).
  - intros [= <- <-]. by apply (Hc _ _ _ E).
Qed.

Lemma kr_ret {A} (x : A) : keeps_range (mret x).
Proof. by intros m m' r [= <- <-]. Qed.
Lemma kr_fail {A} e : keeps_range (em_fail e : EvalM A).
Proof. by intros m m' r [= <- <-]. Qed.
Lemma kr_get : keeps_range (em_get : EvalM Machine).
Proof. by intros m m' r [= <- <-]. Qed.
Lemma kr_lift {A} (o : option A) : keeps_range (em_lift o : EvalM A).
Proof. destruct o; [apply kr_ret|done]. Qed.
Lemma kr_pop : keeps_range pop_u256.
Proof. intros m m' r. unfold pop_u256. destruct (Stack_pop _) as [s [x|e]]; by intros [= <- <-]. Qed.
Lemma kr_push x : keeps_range (push_u256 x).
Proof. intros m m' r. unfold push_u256. destruct (Stack_push _ _) as [s [y|e]]; by intros [= <- <-]. Qed.
Lemma kr_peek n : keeps_range (peek n).
Proof. intros m m' r. unfold peek, try_or_fail. case_match; by intros [= <- <-]. Qed.
Lemma kr_stack_set n x : keeps_range (stack_set n x).
Proof. intros m m' r. unfold stack_set. destruct (Stack_set _ _ _) as [s [y|e]]; by intros [= <- <-]. Qed.
Lemma kr_usize v e : keeps_range (as_usize_or_fail v e).
Proof. unfold as_usize_or_fail. case_match; [apply kr_fail|apply kr_ret]. Qed.
Lemma kr_resize o l : keeps_range (resize_offset o l).
Proof. intros m m' r. unfold resize_offset. case_match; by intros [= <- <-]. Qed.
Lemma kr_memory_set o v s : keeps_range (memory_set o v s).
Proof. intros m m' r. unfold memory_set. destruct (Memory_set _ _ _ _) as [s' [y|e]]; by intros [= <- <-]. Qed.
Lemma kr_copy_large a b l d : keeps_range (copy_large a b l d).
Proof. intros m m' r. unfold copy_large. destruct (Memory_copy_large _ _ _ _ _) as [s' [y|e]]; by intros [= <- <-]. Qed.
Lemma kr_if {A} (b : bool) (c d : EvalM A) : keeps_range c -> keeps_range d -> keeps_range (if b then c else d).
Proof. by destruct b. Qed.

#[export] Hint Resolve kr_ret kr_fail kr_get kr_lift kr_pop kr_push kr_peek kr_stack_set kr_usize kr_resize
  kr_memory_set kr_copy_large kr_bind kr_if : chase.

(** The evaluation does not leave the machine as a trap. *)
Definition no_trap (c : EvalM Control) : Prop := forall m m' t, c m = Some (m', Ok (ControlTrap t)) -> False.

Lemma nt_bind {A} (c : EvalM A) f : (forall x, no_trap (f x)) -> no_trap (c ≫= f).
Proof.
  intros Hf m m' t. unfold mbind, EM_bind. destruct (c m) as [[m1 [x|e]]|]; [|done..]. apply Hf.
Qed.
Lemma nt_continue n : no_trap (mret (Continue n)).
Proof. by intros m m' t. Qed.
Lemma nt_exit e : no_trap (mret (ControlExit e)).
Proof. by intros m m' t. Qed.
Lemma nt_jump p : no_trap (mret (Jump p)).
Proof. by intros m m' t. Qed.
Lemma nt_fail e : no_trap (em_fail e).
Proof. by intros m m' t. Qed.
Lemma nt_if (b : bool) c d : no_trap c -> no_trap d -> no_trap (if b then c else d).
Proof. by destruct b. Qed.

#[export] Hint Resolve nt_continue nt_exit nt_jump nt_fail nt_if : chase.
#[export] Hint Extern 1 (no_trap (_ ≫= _)) => apply nt_bind; intros ? : chase.
#[export] Hint Extern 1 (keeps_range (_ ≫= _)) => apply kr_bind; [|intros ?] : chase.

Definition returns (f : EvalFn) : bool := match f with Eval_return | Eval_revert => true | _ => false end.

Lemma eval_fn_keeps_range f opcode position : returns f = false -> keeps_range (eval_fn f opcode position).
Proof.
  intros Hf. destruct f; try done; cbn [eval_fn];
    unfold op1_u256_fn, op2_u256_bool_ref, op2_u256, op2_u256_fn, op3_u256_fn, eval_codesize, eval_codecopy,
      eval_calldataload, eval_calldatasize, eval_calldatacopy, eval_pop, eval_mload, eval_mstore, eval_mstore8,
      eval_jump, eval_jumpi, jump_to, eval_pc, eval_msize, eval_push, eval_dup, eval_swap; auto 20 with chase.
Qed.

Lemma eval_fn_no_trap f opcode position : f ≠ Eval_external -> no_trap (eval_fn f opcode position).
Proof.
  intros Hf. destruct f; try done; cbn [eval_fn];
    unfold op1_u256_fn, op2_u256_bool_ref, op2_u256, op2_u256_fn, op3_u256_fn, eval_codesize, eval_codecopy,
      eval_calldataload, eval_calldatasize, eval_calldatacopy, eval_pop, eval_mload, eval_mstore, eval_mstore8,
      eval_jump, eval_jumpi, jump_to, eval_pc, eval_msize, eval_push, eval_dup, eval_swap, eval_return,
      eval_revert, finish_range; auto 20 with chase.
Qed.

(** The return range is small: it has been paid for as memory. *)
Definition range_ok (m : Machine) : Prop :=
  fst (mc_return_range m) = snd (mc_return_range m) ∨ snd (mc_return_range m) <= 32 * max_words.

(** The operands of a returning opcode have been paid for. *)
Definition returns_paid (opcode : Z) (stack : Stack) : Prop :=
  (opcode = Opcode.RETURN ∨ opcode = Opcode.REVERT) ->
  forall o l, stk_data stack !! 0%nat = Some o -> stk_data stack !! 1%nat = Some l -> paid_range o l.

Lemma finish_range_spec reason m m' r :
  range_ok m ->
  (forall o l, stk_data (mc_stack m) !! 0%nat = Some o -> stk_data (mc_stack m) !! 1%nat = Some l -> paid_range o l) ->
  finish_range reason m = Some (m', r) ->
  range_ok m' ∧ (r = Ok (ControlExit reason) ∨ exists e, r = Err e).
Proof.
  intros Hr Hp. unfold finish_range, mbind, EM_bind, pop_u256, Stack_pop.
  destruct (stk_data (mc_stack m)) as [|o [|l st]]; cbn -[resize_offset].
  1,2: intros [= <- <-]; eauto.
  specialize (Hp o l eq_refl eq_refl).
  destruct (resize_offset _ _ _) as [[m1 [[]|e]]|] eqn:Em; [..|done].
  - apply kr_resize in Em. unfold u256_add, u256_checked_add. destruct (o + l <? u256_modulus); [|done]. cbn.
    intros [= <- <-]. split; [|by left]. unfold range_ok. cbn. destruct Hp as [->|?]; [left; lia|by right].
  - intros [= <- <-]. apply kr_resize in Em. split; [|eauto]. unfold range_ok. rewrite Em. done.
Qed.

Lemma returns_decode opcode : 0 <= opcode < 256 ->
  returns (decode opcode) = true -> opcode = Opcode.RETURN ∨ opcode = Opcode.REVERT.
Proof.
  intros Hop. assert (forallb (fun n => let op := Z.of_nat n in
    negb (returns (decode op)) || (op =? Opcode.RETURN) || (op =? Opcode.REVERT)) (seq 0 256) = true) as Hall
    by (vm_compute; done).
  rewrite forallb_forall in Hall. specialize (Hall (Z.to_nat opcode)). rewrite in_seq, Z2Nat.id in Hall by lia.
  specialize (Hall ltac:(lia)). cbv zeta in Hall. generalize (decode opcode) as f, Hall. intros f. clear Hall.
  intros Hall Hf. rewrite Hf in Hall. simpl in Hall. apply orb_true_iff in Hall as [?%Z.eqb_eq|?%Z.eqb_eq]; auto.
Qed.

Lemma external_dec f : {f = Eval_external} + {f ≠ Eval_external}.
Proof. destruct f; first [left; reflexivity|right; discriminate]. Defined.

(** A step at an opcode: what it is when the machine goes on, and when it traps. *)
Lemma Machine_step_at m m' r p opcode :
  machine_wf m -> range_ok m -> mc_position m = Ok p -> byte_at (mc_code m) p = Some opcode ->
  returns_paid opcode (mc_stack m) -> Machine_step m = Some (m', r) ->
  range_ok m' ∧
  match r with
  | Ok _ => is_final opcode = false
  | Err (CaptureExit _) => True
  | Err (CaptureTrap t) => t = opcode ∧ m' = set_position (Ok (p + 1)) m
  end.
Proof.
  intros [Hi Hpos] Hr Hp Hop Hpaid. unfold Machine_step, eval. rewrite Hp, Hop.
  destruct (Hpos p Hp) as [Hp0 _]. assert (0 <= opcode < 256) as Hb.
  { rewrite byte_at_lookup in Hop by done. by apply (Forall_lookup_1 _ _ _ _ (ci_code _ Hi) Hop). }
  assert (is_final opcode = true -> opcode = Opcode.STOP ∨ opcode = Opcode.RETURN ∨ opcode = Opcode.REVERT
    ∨ opcode = Opcode.SUICIDE) as Hfin.
  { unfold is_final. rewrite !orb_true_iff, !Z.eqb_eq. tauto. }
  pose proof (returns_decode opcode Hb) as Hret.
  destruct (external_dec (decode opcode)) as [Ed|Hd]; [rewrite Ed; intros [= <- <-]; by split|].
  pose proof (eval_fn_no_trap (decode opcode) opcode p Hd) as Hnt.
  assert (forall m1 x, eval_fn (decode opcode) opcode p m = Some (m1, x) -> range_ok m1 ∧
    (is_final opcode = true -> forall c, x = Ok c -> exists e, c = ControlExit e)) as Hev.
  { intros m1 x E. destruct (returns (decode opcode)) eqn:Eret.
    - specialize (Hpaid (Hret eq_refl)).
      assert (exists reason, eval_fn (decode opcode) opcode p = finish_range reason) as (reason & Er).
      { destruct (Hret eq_refl) as [->| ->]; eexists; reflexivity. }
      rewrite Er in E. destruct (finish_range_spec _ _ _ _ Hr Hpaid E) as [? [->|[e ->]]]; (split; [done|]);
        intros _ c [= <-]. eauto.
    - pose proof (eval_fn_keeps_range _ opcode p Eret _ _ _ E) as Ek. split; [unfold range_ok; by rewrite Ek|].
      intros [->|[->|[->| ->]]]%Hfin c ->.
      + injection E as _ <-. eauto.
      + discriminate Eret.
      + discriminate Eret.
      + by destruct Hd. }
  destruct (eval_fn (decode opcode) opcode p m) as [[m1 [[k|e|q|t]|e]]|] eqn:E; [..|done].
  4: by destruct (Hnt _ _ _ E).
  all: destruct (Hev _ _ eq_refl) as [Hr1 Hf1]; intros [= <- <-]; (split; [exact Hr1|]); try done.
  all: destruct (is_final opcode); [|done]; by destruct (Hf1 eq_refl _ eq_refl).
Qed.

(** A returned value is a byte string of moderate length. *)
Definition bytes_ok (b : bytes) : Prop := Forall byte_ok b ∧ Z.of_nat (length b) <= usize_max.

Lemma length_get_loop n data p : length (get_loop n data p) = n.
Proof.
  revert p. induction n as [|n IH]; intros p; simpl; [done|]. case_match; simpl; [by rewrite IH|].
  by rewrite length_replicate.
Qed.

Lemma return_value_spec m :
  core_inv m -> range_ok m ->
  exists v, return_value m = Some v ∧ Forall byte_ok v ∧ Z.of_nat (length v) <= 32 * max_words.
Proof.
  intros Hi Hr. unfold return_value, range_ok in *. destruct (ci_range m Hi) as (Hs & He & Hle).
  destruct (mc_return_range m) as [s e]. simpl in *. unfold u256_sub.
  destruct (Z.leb_spec s e); [|lia]. cbn [mbind option_bind]. destruct Hs, He.
  destruct (Z.ltb_spec usize_max s).
  - destruct Hr as [->|Hr]; [|unfold usize_max, u64_max, max_words in *; lia].
    rewrite Z.sub_diag. cbn. eexists; split; [done|]. split; [constructor|]. done.
  - destruct (Z.ltb_spec usize_max e).
    + unfold usize_max, u64_max, max_words in *; lia.
    + eexists; split; [done|]. split.
      * apply get_loop_bytes, Hi.
      * unfold Memory_get. rewrite length_get_loop. unfold max_words in *. lia.
Qed.

(** ** Well-formed runtimes *)

Record rt_ok (rt : Runtime) : Prop := {
  ro_machine : machine_wf (rt_machine rt);
  ro_range : range_ok (rt_machine rt);
  ro_buffer : bytes_ok (rt_return_data_buffer rt);
  ro_len : word (rt_return_data_len rt);
  ro_offset : word (rt_return_data_offset rt);
  ro_target : covers (rt_return_data_offset rt) (rt_return_data_len rt) (rt_machine rt);
  ro_address : word (ctx_address (rt_context rt));
  ro_caller : word (ctx_caller (rt_context rt));
  ro_value : word (ctx_apparent_value (rt_context rt))
}.

Definition context_ok (c : Context) : Prop :=
  word (ctx_address c) ∧ word (ctx_caller c) ∧ word (ctx_apparent_value c).

Lemma Runtime_new_ok code data context stack_limit memory_limit :
  bytes_ok code -> bytes_ok data -> context_ok context ->
  0 <= stack_limit -> 0 <= memory_limit <= usize_max ->
  rt_ok (Runtime_new code data context stack_limit memory_limit).
Proof.
  intros [] [] (?&?&?) ? ?. split; cbn; try done; try (by split); [by apply Machine_new_wf|by left|by left].
Qed.

Lemma word_H160 x : word (H160_from x).
Proof.
  unfold H160_from, word. pose proof (Z.mod_pos_bound x (2 ^ 160) ltac:(lia)).
  assert (2 ^ 160 < u256_modulus) by (vm_compute; done). lia.
Qed.

Lemma covers_frame offset len m m' : core_frame m m' -> covers offset len m -> covers offset len m'.
Proof. intros (_&_&_&_&_&?) [|]; [by left|right; lia]. Qed.

(** Replacing the machine by one the evaluation of an opcode leads to. *)
Lemma rt_ok_machine rt m :
  rt_ok rt -> core_inv m -> core_frame (rt_machine rt) m -> mc_return_range m = mc_return_range (rt_machine rt) ->
  rt_ok (set_machine m rt).
Proof.
  intros [[Hi Hp] Hr ????] Hm Hf Er. pose proof Hf as (Hc & _ & Hpos & _).
  split; cbn; try done.
  - split; [done|]. intros p E. rewrite Hc. apply Hp. congruence.
  - unfold range_ok. by rewrite Er.
  - by eapply covers_frame.
Qed.

Lemma rt_ok_exit rt e : rt_ok rt -> rt_ok (set_status (Err e) (set_machine (Machine_exit e (rt_machine rt)) rt)).
Proof.
  intros [[Hi Hp] Hr ????]. split; cbn; try done. split; [by destruct Hi|done].
Qed.

Lemma rt_ok_buffer rt b : rt_ok rt -> bytes_ok b -> rt_ok (set_return_data_buffer b rt).
Proof. intros [] ?. by split. Qed.

(** ** What the runtime relies on *)

Class HashesLaws `{Hashes} : Prop := { keccak256_word : forall b, word (keccak256 b) }.

(** What a call that transfers value may add to the measure; it has paid more. *)
Definition value_bonus (value : Z) : Z := if value =? 0 then 0 else 17998.

(** A fixed address is an address. *)
Definition scheme_ok (scheme : CreateScheme) : Prop := forall a, scheme = SchemeFixed a -> word a.

Class HandlerLaws (H I : Type) `{Handler H I} := {
  hl_inv : H -> Prop;
  (** bounds the steps that can still be taken *)
  hl_fuel : H -> Z;
  (** the open calls *)
  hl_depth : H -> nat;
  (** a stipend has been paid for *)
  hl_paid : H -> Prop;
  hl_interrupt : I -> Prop;
  (** the slot has been read *)
  hl_loaded : H160 -> H256 -> H -> Prop;
  hl_keeps (h h' : H) : Prop := hl_inv h' ∧ hl_fuel h' <= hl_fuel h ∧ hl_depth h' = hl_depth h;
  hl_balance h a : hl_inv h -> word (h_balance h a);
  hl_code_size h a : hl_inv h -> word (h_code_size h a);
  hl_code_hash h a : hl_inv h -> word (h_code_hash h a);
  hl_code h a : hl_inv h -> bytes_ok (h_code h a);
  hl_gas_left h : hl_inv h -> word (h_gas_left h);
  hl_environment h : hl_inv h ->
    Forall word [h_gas_price h; h_origin h; h_block_number h; h_block_coinbase h; h_block_timestamp h;
      h_block_difficulty h; h_block_gas_limit h; h_block_base_fee_per_gas h; h_chain_id h];
  hl_randomness h x : hl_inv h -> h_block_randomness h = Some x -> word x;
  hl_block_hash h n : hl_inv h -> word n -> exists x, h_block_hash h n = Some x ∧ word x;
  hl_storage h a k : hl_inv h -> exists h' v, h_storage a k h = (h', Ok v) ∧ hl_keeps h h' ∧ word v;
  hl_set_storage h a k v : hl_inv h -> word v -> hl_loaded a k h -> hl_keeps h (h_set_storage a k v h).1;
  hl_log h a t d : hl_inv h -> hl_keeps h (h_log a t d h).1;
  hl_mark_delete h a t : hl_inv h -> hl_keeps h (h_mark_delete a t h).1;
  hl_external h op : hl_inv h -> hl_keeps h (h_record_external_operation op h).1;
  hl_pre_validate h c op stack : hl_inv h -> stack_wf stack ->
    exists h' r, h_pre_validate c op stack h = Some (h', r) ∧ hl_keeps h h' ∧
      (r = Ok tt ->
        (is_final op = false -> hl_fuel h' + 2 <= hl_fuel h) ∧
        (is_call op = true -> forall v, stk_data stack !! 2%nat = Some v -> v ≠ 0 ->
           hl_paid h' ∧ hl_fuel h' + 18000 <= hl_fuel h) ∧
        (op = Opcode.SSTORE -> forall k, stk_data stack !! 0%nat = Some k -> hl_loaded (ctx_address c) k h') ∧
        returns_paid op stack);
  hl_create h caller scheme value code : hl_inv h -> word value -> word caller -> scheme_ok scheme -> bytes_ok code ->
    exists h' c, h_create caller scheme value code None h = Some (h', c) ∧ hl_inv h' ∧
      match c with
      | CaptureExit (_, address, data) =>
          hl_fuel h' <= hl_fuel h ∧ hl_depth h' = hl_depth h ∧ word (default 0 address) ∧ bytes_ok data
      | CaptureTrap i =>
          hl_fuel h' <= hl_fuel h + 1 ∧ hl_depth h' = S (hl_depth h) ∧ hl_interrupt i
      end;
  hl_call h address transfer input gas is_static context : hl_inv h -> bytes_ok input -> context_ok context ->
    (forall g, gas = Some g -> 0 <= g) ->
    (forall t, transfer = Some t -> word (tr_value t) ∧ (tr_value t ≠ 0 -> hl_paid h)) ->
    exists h' c, h_call address transfer input gas is_static context h = Some (h', c) ∧ hl_inv h' ∧
      let bonus := value_bonus (match transfer with Some t => tr_value t | None => 0 end) in
      match c with
      | CaptureExit (_, data) =>
          hl_fuel h' <= hl_fuel h + bonus ∧ hl_depth h' = hl_depth h ∧ bytes_ok data
      | CaptureTrap i =>
          hl_fuel h' <= hl_fuel h + bonus + 1 ∧ hl_depth h' = S (hl_depth h) ∧ hl_interrupt i
      end
}.

(** *** Operations of the runtime alone *)

Abbreviation rt_error := (fun (_ : ExitReason) rt => rt_ok rt).

Lemma on_machine_hoare {A} (c : EvalM A) (P : Machine -> Prop) Q :
  keeps_range c -> evals P c Q ->
  hoare (fun rt => P (rt_machine rt) ∧ rt_ok rt) (on_machine c)
    (fun x rt => Q x (rt_machine rt) ∧ rt_ok rt) rt_error.
Proof.
  intros Hk Hc rt [HP Hrt]. specialize (Hc _ (proj1 (ro_machine _ Hrt)) HP). unfold on_machine.
  destruct (c (rt_machine rt)) as [[m r]|] eqn:E; [|done]. destruct Hc as (Hi & Hf & HQ).
  assert (rt_ok (set_machine m rt)) by (by eapply rt_ok_machine; [..|eapply Hk]).
  destruct r as [x|e]; [|done]. split; [by apply HQ|done].
Qed.

Lemma on_machine_push x : word x -> hoare rt_ok (on_machine (push_u256 x)) (fun _ => rt_ok) rt_error.
Proof.
  intros Hx. eapply hoare_conseq; [apply (on_machine_hoare _ any_state (fun _ => any_state));
    [apply kr_push|by apply evals_push; [|apply stackless_any]]|done|by intros [] ? []|done].
Qed.

Lemma kr_try_copy a b l d : keeps_range (try_copy_large a b l d).
Proof. intros m m' r. unfold try_copy_large. destruct (Memory_copy_large _ _ _ _ _) as [s' ?]; by intros [= <- <-]. Qed.

Lemma evals_try_copy memory_offset len data :
  Forall byte_ok data -> word memory_offset -> word len ->
  evals (covers memory_offset len) (try_copy_large memory_offset 0 len data) (fun _ => any_state).
Proof.
  intros Hd Ho Hl m Hi Hc. pose proof (evals_copy_large memory_offset 0 len data Hd Ho Hl m Hi Hc) as H.
  unfold copy_large, try_copy_large in *. destruct (Memory_copy_large _ _ _ _ _) as [mem [[]|e]];
    destruct H as (? & ? & _); by split_and!.
Qed.

Lemma word_1 : word 1.
Proof. by split. Qed.

Lemma finish_create_hoare reason address data :
  word (default 0 address) -> bytes_ok data ->
  hoare rt_ok (finish_create reason address data) (fun _ => rt_ok) rt_error.
Proof.
  intros Ha Hd. unfold finish_create.
  eapply hoare_bind; [apply hoare_modify with (Q := fun _ => rt_ok); intros rt Hrt; by apply rt_ok_buffer|].
  intros []. destruct reason; try (by apply on_machine_push).
  eapply hoare_bind; [by apply on_machine_push|]. intros []. by apply hoare_fail.
Qed.

Lemma finish_call_hoare out_len out_offset reason data :
  word out_len -> word out_offset -> bytes_ok data ->
  hoare (fun rt => covers out_offset out_len (rt_machine rt) ∧ rt_ok rt)
    (finish_call out_len out_offset reason data) (fun _ => rt_ok) rt_error.
Proof.
  intros Hl Ho Hd. unfold finish_call. cbv zeta.
  set (P := fun rt => covers out_offset (Z.min out_len (Z.of_nat (length data))) (rt_machine rt) ∧ rt_ok rt).
  eapply hoare_bind with (Q := fun _ => P).
  { apply hoare_modify. intros rt [Hc Hrt]. split; [|by apply rt_ok_buffer].
    cbn. destruct Hl, Ho. destruct Hc as [->|Hc]; [left; lia|right; lia]. }
  assert (word (Z.min out_len (Z.of_nat (length data)))) as Hw by (destruct Hl; split; lia).
  assert (hoare P (on_machine (try_copy_large out_offset 0 (Z.min out_len (Z.of_nat (length data))) data))
    (fun _ => rt_ok) rt_error) as Hcopy.
  { eapply hoare_post; [apply (on_machine_hoare _ (covers out_offset (Z.min out_len (Z.of_nat (length data))))
      (fun _ => any_state)); [apply kr_try_copy|apply evals_try_copy; [apply Hd|done..]]|]. by intros ? ? []. }
  assert (hoare P (on_machine (push_u256 0)) (fun _ => P) rt_error) as Hpush.
  { eapply hoare_conseq; [apply (on_machine_hoare _ (covers out_offset (Z.min out_len (Z.of_nat (length data))))
      (fun _ => covers out_offset (Z.min out_len (Z.of_nat (length data)))));
      [apply kr_push|apply evals_push; [apply word_0|by intros s m]]|..]; done. }
  intros []. destruct reason.
  - eapply hoare_bind; [exact Hcopy|]. intros []; apply on_machine_push; [apply word_1|apply word_0].
  - eapply hoare_pre; [apply on_machine_push, word_0|]. by intros rt [].
  - eapply hoare_bind; [exact Hpush|]. intros [].
    eapply hoare_bind; [exact Hcopy|]. intros ?. by apply hoare_ret.
  - eapply hoare_bind; [exact Hpush|]. intros []. apply hoare_fail. by intros rt [].
Qed.

Lemma Runtime_finish_call_hoare reason data :
  bytes_ok data -> hoare rt_ok (Runtime_finish_call reason data) (fun _ => rt_ok) rt_error.
Proof.
  intros Hd rt Hrt. destruct (Hrt) as [_ _ _ Hl Ho Ht].
  apply (finish_call_hoare (rt_return_data_len rt) (rt_return_data_offset rt) reason data Hl Ho Hd rt). by split.
Qed.

Section system.
Context {H I : Type} `{HL : HandlerLaws H I, HH : Hashes, !HashesLaws}.

(** The runtime is well formed, and the handler satisfies [K]. *)
Definition kinv (K : H -> Prop) (s : Runtime * H) : Prop := rt_ok s.1 ∧ K s.2.

(** The handler is within its budget at its depth. *)
Definition within (F : Z) (D : nat) (h : H) : Prop := hl_inv h ∧ hl_fuel h <= F ∧ hl_depth h = D.

Abbreviation sinv F D := (kinv (within F D)).
Abbreviation SystemM := (EM (Runtime * H) ExitReason).
Abbreviation error K := (fun (_ : ExitReason) s => kinv K s).

Definition control_sound (F : Z) (D : nat) (c : RControl I) (s : Runtime * H) : Prop :=
  match c with
  | RContinue | RExit _ => sinv F D s
  | CallInterrupt i | CreateInterrupt i => hl_interrupt i ∧ sinv (F + 1) (S D) s
  end.

Abbreviation sound F D c := (hoare (sinv F D) c (control_sound F D) (error (within F D))).

Lemma runtime_hoare {A} (c : RuntimeM A) K (P : Runtime -> Prop) Q :
  hoare (fun rt => P rt ∧ rt_ok rt) c (fun x rt => Q x rt ∧ rt_ok rt) rt_error ->
  hoare (fun s => P s.1 ∧ kinv K s) (on_runtime c) (fun x s => Q x s.1 ∧ kinv K s) (error K).
Proof.
  intros Hc [rt h] [HP [Hrt HK]]. specialize (Hc rt (conj HP Hrt)). unfold on_runtime.
  destruct (c rt) as [[rt' [x|e]]|]; [|by split|done]. destruct Hc. by split.
Qed.

Lemma runtime_any {A} (c : RuntimeM A) K :
  hoare rt_ok c (fun _ => rt_ok) rt_error -> hoare (kinv K) (on_runtime c) (fun _ => kinv K) (error K).
Proof.
  intros Hc [rt h] [Hrt HK]. specialize (Hc rt Hrt). unfold on_runtime.
  destruct (c rt) as [[rt' [x|e]]|]; by try split.
Qed.

Lemma machine_hoare {A} (c : EvalM A) K (P : Machine -> Prop) Q :
  keeps_range c -> evals P c Q ->
  hoare (fun s => P (rt_machine s.1) ∧ kinv K s) (sys_machine c)
    (fun x s => Q x (rt_machine s.1) ∧ kinv K s) (error K).
Proof.
  intros Hk Hc. apply (runtime_hoare (on_machine c) K (fun rt => P (rt_machine rt)) (fun x rt => Q x (rt_machine rt))).
  by apply on_machine_hoare.
Qed.

Lemma machine_any {A} (c : EvalM A) K Q :
  keeps_range c -> evals any_state c (fun x _ => Q x) ->
  hoare (kinv K) (sys_machine c) (fun x s => Q x ∧ kinv K s) (error K).
Proof. intros Hk Hc. eapply hoare_pre; [by apply (machine_hoare c K any_state (fun x _ => Q x))|]. by intros s. Qed.

Lemma pop_hoare K : hoare (kinv K) sys_pop (fun x s => word x ∧ kinv K s) (error K).
Proof.
  apply machine_any; [apply kr_pop|]. eapply evals_consequence; [apply evals_pop, stackless_any|]. by intros ? ? [].
Qed.

(** The popped word is the top of the stack. *)
Lemma pop_stack_hoare K l :
  hoare (fun s => stk_data (mc_stack (rt_machine s.1)) = l ∧ kinv K s) sys_pop
    (fun x s => word x ∧ exists l', l = x :: l' ∧ stk_data (mc_stack (rt_machine s.1)) = l' ∧ kinv K s) (error K).
Proof.
  intros s [Hl Hs]. pose proof (pop_hoare K s Hs) as Hp. destruct s as [rt h]. cbn [fst] in Hl.
  unfold sys_pop, sys_machine, on_runtime, on_machine, pop_u256, Stack_pop in *. rewrite Hl in *.
  destruct l as [|x l']; cbn in *; [done|]. destruct Hp. split; [done|]. by exists l'.
Qed.

Lemma push_value_sound F D x : word x -> sound F D (push_value x).
Proof.
  intros Hx. eapply hoare_bind; [apply runtime_any; by apply on_machine_push|]. intros []. by apply hoare_ret.
Qed.

Lemma ask_hoare {A} (f : H -> A) F D (Q : A -> Prop) :
  (forall h, hl_inv h -> Q (f h)) -> hoare (sinv F D) (ask f) (fun x s => Q x ∧ sinv F D s) (error (within F D)).
Proof. intros HQ [rt h] (Hrt & Hi & Hs). split; [by apply HQ|done]. Qed.

Lemma handled_hoare {A} (f : H -> H * Result A ExitError) F D :
  (forall h, hl_inv h -> hl_keeps h (f h).1) ->
  hoare (sinv F D) (handled f) (fun _ s => sinv F D s) (error (within F D)).
Proof.
  intros Hf [rt h] (Hrt & Hi & Hfu & Hd). destruct (Hf h Hi) as (Hi' & Hfu' & Hd').
  unfold handled. simpl in *. destruct (f h) as [h' [x|e]]; simpl in *; (unfold kinv, within; simpl; split_and!; [done|done|lia|congruence]).
Qed.

Lemma context_hoare K : hoare (kinv K) this_context (fun c s => context_ok c ∧ kinv K s) (error K).
Proof. intros [rt h] Hs. split; [|done]. destruct Hs as [[] _]. unfold context_ok. by split_and!. Qed.

Lemma resize_hoare K offset len :
  word offset -> word len ->
  hoare (kinv K) (sys_machine (resize_offset offset len))
    (fun _ s => covers offset len (rt_machine s.1) ∧ kinv K s) (error K).
Proof.
  intros Ho Hl. eapply hoare_conseq; [apply (machine_hoare _ K any_state); [apply kr_resize|by apply evals_resize]|..].
  - by intros s.
  - by intros [] s [[? _] ?].
  - done.
Qed.

Lemma evals_memory_slice offset len : evals any_state (memory_slice offset len) (fun d _ => bytes_ok d).
Proof.
  unfold memory_slice. destruct (len =? 0).
  { apply evals_ret. intros. split; [constructor|]. done. }
  intros m Hi _. unfold as_usize_or_fail, mbind, EM_bind.
  destruct (Z.ltb_spec usize_max offset); [split_and!; [done..|by intros]|]. cbn.
  destruct (Z.ltb_spec usize_max len); [split_and!; [done..|by intros]|]. cbn.
  split_and!; [done..|]. intros x [= <-]. split; [apply get_loop_bytes, Hi|].
  unfold Memory_get. rewrite length_get_loop. unfold usize_max, u64_max in *. lia.
Qed.

Lemma slice_hoare K offset len :
  hoare (kinv K) (sys_machine (memory_slice offset len)) (fun d s => bytes_ok d ∧ kinv K s) (error K).
Proof. apply machine_any; [unfold memory_slice; auto 20 with chase|apply evals_memory_slice]. Qed.

(** *** The opcodes *)

Lemma ask_push_sound (f : H -> U256) F D :
  (forall h, hl_inv h -> word (f h)) -> sound F D (x ← ask f; push_value x).
Proof.
  intros Hf. eapply hoare_bind; [by apply ask_hoare|]. intros x. apply hoare_pure. apply push_value_sound.
Qed.

(** Takes the next operation of an opcode. *)
Ltac sys_pop x Hx := eapply hoare_bind; [apply pop_hoare|intros x; apply hoare_pure; intros Hx].
Ltac sys_ctx c Hc := eapply hoare_bind; [apply context_hoare|intros c; apply hoare_pure; intros Hc].
Ltac sys_handled tac := eapply hoare_bind; [apply handled_hoare; tac|intros ?].
Ltac sys_slice d Hd := eapply hoare_bind; [apply slice_hoare|intros d; apply hoare_pure; intros Hd].
Ltac sys_resize := eapply hoare_bind; [by apply resize_hoare|intros []].
Ltac drop_cover := eapply hoare_pre; [|by intros ? [_ ?]].

Lemma sha3_sound F D : sound F D sha3.
Proof.
  unfold sha3. sys_pop from Hf. sys_pop len Hl. sys_resize. drop_cover. sys_slice d Hd.
  apply push_value_sound, keccak256_word.
Qed.

Lemma extcodesize_sound F D : sound F D extcodesize.
Proof.
  unfold extcodesize. sys_pop a Ha. sys_handled ltac:(intros h Hh; by apply hl_external).
  apply ask_push_sound. intros h Hh. by apply hl_code_size.
Qed.

Lemma extcodehash_sound F D : sound F D extcodehash.
Proof.
  unfold extcodehash. sys_pop a Ha. sys_handled ltac:(intros h Hh; by apply hl_external).
  apply ask_push_sound. intros h Hh. by apply hl_code_hash.
Qed.

(** A copy into a range the memory has been extended to. *)
Lemma copy_sound F D memory_offset data_offset len data :
  Forall byte_ok data -> word memory_offset -> word len ->
  hoare (fun s => covers memory_offset len (rt_machine s.1) ∧ sinv F D s)
    (_ ← sys_machine (copy_large memory_offset data_offset len data); mret RContinue)
    (control_sound F D) (error (within F D)).
Proof.
  intros Hd Ho Hl. eapply hoare_bind; [apply machine_hoare; [apply kr_copy_large|by apply evals_copy_large]|].
  intros []. apply hoare_ret. by intros s [_ ?].
Qed.

(** An operation of the handler next to a fact about the machine. *)
Lemma handled_frame {A} (f : H -> H * Result A ExitError) F D (P : Machine -> Prop) :
  (forall h, hl_inv h -> hl_keeps h (f h).1) ->
  hoare (fun s => P (rt_machine s.1) ∧ sinv F D s) (handled f)
    (fun _ s => P (rt_machine s.1) ∧ sinv F D s) (error (within F D)).
Proof.
  intros Hf [rt h] [HP Hs]. pose proof (handled_hoare f F D Hf (rt, h) Hs) as Hh. unfold handled in *.
  destruct (f h) as [h' [x|e]]; [by split|done].
Qed.

Lemma extcodecopy_sound F D : sound F D extcodecopy.
Proof.
  unfold extcodecopy. sys_pop a Ha. sys_pop mo Hmo. sys_pop co Hco. sys_pop len Hl. sys_resize.
  eapply hoare_bind; [apply handled_frame; intros h Hh; by apply hl_external|]. intros [].
  eapply hoare_bind with (Q := fun code s => bytes_ok code ∧ covers mo len (rt_machine s.1) ∧ sinv F D s).
  { intros [rt h] [Hc (Hrt & Hi & Hs)]. split_and!; [by apply hl_code|done|done]. }
  intros code. apply hoare_pure. intros [Hb _]. by apply copy_sound.
Qed.

Lemma buffer_hoare K (P : Machine -> Prop) :
  hoare (fun s => P (rt_machine s.1) ∧ kinv K s)
    (on_runtime (rt ← em_get; mret (rt_return_data_buffer rt)))
    (fun b s => bytes_ok b ∧ P (rt_machine s.1) ∧ kinv K s) (error K).
Proof. intros [rt h] [HP [Hrt HK]]. split_and!; [apply Hrt|done|done]. Qed.

Lemma returndatasize_sound F D : sound F D returndatasize.
Proof.
  unfold returndatasize. eapply hoare_bind with (Q := fun n s => word n ∧ sinv F D s).
  { intros [rt h] [Hrt Hs]. split; [|done]. apply word_len, Hrt. }
  intros n. apply hoare_pure. apply push_value_sound.
Qed.

Lemma returndatacopy_sound F D : sound F D returndatacopy.
Proof.
  unfold returndatacopy. sys_pop mo Hmo. sys_pop dof Hdof. sys_pop len Hl. sys_resize.
  eapply hoare_bind; [apply buffer_hoare|]. intros b. apply hoare_pure. intros [Hb _].
  destruct (match u256_checked_add dof len with Some l => Z.of_nat (length b) <? l | None => true end).
  - apply hoare_fail. by intros s [_ ?].
  - by apply copy_sound.
Qed.

Lemma blockhash_sound F D : sound F D blockhash.
Proof.
  unfold blockhash. sys_pop n Hn.
  eapply hoare_bind; [apply (ask_hoare _ F D (fun o => exists x, o = Some x ∧ word x)); intros h Hh;
    by apply hl_block_hash|].
  intros o. apply hoare_pure. intros (x & -> & Hx).
  eapply hoare_bind; [apply (hoare_ret x (sinv F D) (fun y s => y = x ∧ sinv F D s)); done|].
  intros y. apply hoare_pure. intros ->. by apply push_value_sound.
Qed.

Lemma environment_sound (f : H -> U256) F D :
  (forall h, f h ∈ [h_gas_price h; h_origin h; h_block_number h; h_block_coinbase h; h_block_timestamp h;
      h_block_difficulty h; h_block_gas_limit h; h_block_base_fee_per_gas h; h_chain_id h]) ->
  sound F D (x ← ask f; push_value x).
Proof.
  intros Hf. apply ask_push_sound. intros h Hh. pose proof (hl_environment h Hh) as He.
  rewrite Forall_forall in He. apply He, Hf.
Qed.

Lemma prevrandao_sound F D : sound F D prevrandao.
Proof.
  unfold prevrandao, difficulty.
  eapply hoare_bind; [apply (ask_hoare _ F D (fun o => forall x, o = Some x -> word x)); intros h Hh x;
    by apply hl_randomness|].
  intros [x|]; apply hoare_pure; intros Ho; [by apply push_value_sound, Ho|].
  apply environment_sound. intros h. set_solver.
Qed.

Lemma sload_sound F D : sound F D sload.
Proof.
  unfold sload. sys_pop k Hk. sys_ctx c Hc.
  eapply hoare_bind with (Q := fun v s => word v ∧ sinv F D s).
  - intros [rt h] (Hrt & Hi & Hfu & Hd). destruct (hl_storage h (ctx_address c) k Hi) as (h' & v & E & (Hi' & Hf' & Hd') & Hv).
    unfold unwrapped. rewrite E. simpl in *. unfold kinv, within. simpl. split_and!; [done..|lia|congruence].
  - intros v. apply hoare_pure. apply push_value_sound.
Qed.

Lemma weaken_error {A} (c : SystemM A) P Q (K K' : H -> Prop) :
  hoare P c Q (error K) -> (forall h, K h -> K' h) -> hoare P c Q (error K').
Proof. intros Hc HK. eapply hoare_conseq; [exact Hc|done|done|]. intros e s []. split; auto. Qed.

(** A slot is read before it is written. *)
Definition store_ready (s : Runtime * H) : Prop :=
  forall k, stk_data (mc_stack (rt_machine s.1)) !! 0%nat = Some k -> hl_loaded (ctx_address (rt_context s.1)) k s.2.

Lemma pop_context_hoare K l c :
  hoare (fun s => (stk_data (mc_stack (rt_machine s.1)) = l ∧ rt_context s.1 = c) ∧ kinv K s) sys_pop
    (fun x s => word x ∧ exists l', l = x :: l' ∧ (stk_data (mc_stack (rt_machine s.1)) = l' ∧ rt_context s.1 = c) ∧ kinv K s)
    (error K).
Proof.
  intros s [[Hl Hc] Hs]. pose proof (pop_hoare K s Hs) as Hp. destruct s as [rt h]. cbn [fst] in Hl, Hc.
  unfold sys_pop, sys_machine, on_runtime, on_machine, pop_u256, Stack_pop in *. rewrite Hl in *.
  destruct l as [|x l']; cbn in *; [done|]. destruct Hp. split; [done|]. by exists l'.
Qed.

Lemma sstore_sound F D :
  hoare (fun s => store_ready s ∧ sinv F D s) sstore (control_sound F D) (error (within F D)).
Proof.
  intros [rt h] [Hr [Hrt Hw]]. unfold store_ready in Hr. cbn [fst snd] in *. unfold sstore.
  set (l := stk_data (mc_stack (rt_machine rt))) in *. set (c0 := rt_context rt) in *.
  eapply hoare_bind with (P := fun s => (stk_data (mc_stack (rt_machine s.1)) = l ∧ rt_context s.1 = c0) ∧ kinv (eq h) s);
    [eapply weaken_error; [apply (pop_context_hoare (eq h))|by intros ? <-]| |by split].
  intros k. apply hoare_pure. intros Hk. apply hoare_exists. intros l1. apply hoare_pure. intros El.
  eapply hoare_bind; [eapply weaken_error; [apply (pop_context_hoare (eq h))|by intros ? <-]|].
  intros v. apply hoare_pure. intros Hv. apply hoare_exists. intros l2. apply hoare_pure. intros _.
  eapply hoare_bind with (Q := fun c s => c = c0 ∧ kinv (eq h) s).
  { intros [rt1 h1] [[_ Hc] Hs]. done. }
  intros c. apply hoare_pure. intros ->.
  eapply hoare_bind with (Q := fun _ => sinv F D); [|intros []; by apply hoare_ret].
  intros [rt1 h1] [Hrt1 Eh]. cbn in Eh. subst h1. destruct Hw as (Hi & Hf & Hd).
  destruct (hl_set_storage h (ctx_address c0) k v Hi Hv) as (Hi' & Hf' & Hd'); [apply Hr; by rewrite El|].
  unfold handled. destruct (h_set_storage _ _ _ h) as [h' [x|e]]; cbn in *; unfold kinv, within; cbn; (split_and!; [done|done|lia|congruence]).
Qed.

Lemma pop_topics_hoare n F D :
  hoare (sinv F D) (pop_topics n) (fun _ => sinv F D) (error (within F D)).
Proof.
  induction n as [|n IH]; cbn [pop_topics]; [by apply hoare_ret|].
  sys_pop t Ht. eapply hoare_bind; [exact IH|]. intros ts. by apply hoare_ret.
Qed.

Lemma sys_log_sound n F D : sound F D (sys_log n).
Proof.
  unfold sys_log. sys_pop o Ho. sys_pop l Hl. sys_resize. drop_cover. sys_slice d Hd.
  eapply hoare_bind; [apply pop_topics_hoare|]. intros ts. sys_ctx c Hc.
  sys_handled ltac:(intros h Hh; by apply hl_log). by apply hoare_ret.
Qed.

Lemma suicide_sound F D :
  hoare (sinv F D) suicide (fun c s => (exists e, c = RExit e) ∧ sinv F D s) (error (within F D)).
Proof.
  unfold suicide. sys_pop t Ht. sys_ctx c Hc. sys_handled ltac:(intros h Hh; by apply hl_mark_delete).
  apply hoare_ret. intros s Hs. split; [eauto|done].
Qed.

Lemma clear_buffer_hoare K :
  hoare (kinv K) (on_runtime (em_modify (set_return_data_buffer []))) (fun _ => kinv K) (error K).
Proof.
  apply runtime_any, hoare_modify. intros rt Hrt. apply rt_ok_buffer; [done|]. split; [constructor|done].
Qed.

Lemma sys_create_sound b F D : sound F D (sys_create b).
Proof.
  unfold sys_create. eapply hoare_bind; [apply clear_buffer_hoare|]. intros [].
  sys_pop v Hv. sys_pop co Hco. sys_pop len Hl. sys_resize. drop_cover. sys_slice code Hcode. sys_ctx c Hc.
  eapply hoare_bind with (Q := fun scheme s => scheme_ok scheme ∧ sinv F D s).
  { destruct b; [|by apply hoare_ret]. sys_pop salt Hsalt. by apply hoare_ret. }
  intros scheme. apply hoare_pure. intros Hscheme.
  eapply hoare_bind with (Q := fun r s => match r with
    | CaptureExit (_, address, data) => word (default 0 address) ∧ bytes_ok data ∧ sinv F D s
    | CaptureTrap i => hl_interrupt i ∧ sinv (F + 1) (S D) s end).
  { intros [rt h] (Hrt & Hi & Hf & Hd).
    destruct (hl_create h (ctx_address c) scheme v code Hi Hv (proj1 Hc) Hscheme Hcode) as (h' & r & E & Hi' & Hr).
    unfold invoke. rewrite E. unfold kinv, within. simpl in *.
    destruct r as [[[? a] d]|i]; [destruct Hr as (?&?&?&?)|destruct Hr as (?&?&?)]; split_and!; try done; lia. }
  intros [[[reason a] d]|i].
  - apply hoare_pure. intros Ha. apply hoare_pure. intros Hd.
    eapply hoare_bind; [apply runtime_any; by apply finish_create_hoare|]. intros []. by apply hoare_ret.
  - by apply hoare_ret.
Qed.

(** The value a call transfers is its third operand, and has been paid for. *)
Definition call_ready (scheme : CallScheme) (F : Z) (s : Runtime * H) : Prop :=
  pops_value scheme = true -> forall v, stk_data (mc_stack (rt_machine s.1)) !! 2%nat = Some v -> v ≠ 0 ->
    hl_paid s.2 ∧ hl_fuel s.2 + 17998 <= F.

(** The operands of a call up to the value. *)
Definition call_operands (scheme : CallScheme) : SystemM (U256 * U256 * U256) :=
  gas ← sys_pop; to ← sys_pop; value ← (if pops_value scheme then sys_pop else mret 0); mret (gas, to, value).

Lemma call_operands_hoare scheme K l :
  hoare (fun s => stk_data (mc_stack (rt_machine s.1)) = l ∧ kinv K s) (call_operands scheme)
    (fun x s => (word x.1.1 ∧ word x.2 ∧ (x.2 ≠ 0 -> pops_value scheme = true ∧ l !! 2%nat = Some x.2)) ∧ kinv K s)
    (error K).
Proof.
  unfold call_operands. eapply hoare_bind; [apply pop_stack_hoare|]. intros g. apply hoare_pure. intros Hg.
  apply hoare_exists. intros l1. apply hoare_pure. intros ->.
  eapply hoare_bind; [apply pop_stack_hoare|]. intros t. apply hoare_pure. intros Ht.
  apply hoare_exists. intros l2. apply hoare_pure. intros ->.
  destruct (pops_value scheme).
  - eapply hoare_bind; [apply pop_stack_hoare|]. intros v. apply hoare_pure. intros Hv.
    apply hoare_exists. intros l3. apply hoare_pure. intros ->. apply hoare_ret. by intros s [_ ?].
  - apply hoare_ret. intros s [_ Hs]. split; [|done]. split_and!; [done|apply word_0|by intros []].
Qed.

Lemma call_context_ok scheme c to value :
  context_ok c -> word to -> word value -> context_ok (call_context scheme c to value).
Proof. intros (?&?&?) ? ?. unfold context_ok. destruct scheme; by split_and!. Qed.

Lemma call_transfer_value scheme c to value t :
  call_transfer scheme c to value = Some t -> tr_value t = value.
Proof. destruct scheme; by intros [= <-]. Qed.

(** The call itself, after its operands. *)
Lemma invoke_call_hoare scheme c to value input gas F D h0 :
  word to -> word value -> context_ok c -> bytes_ok input -> (forall g, gas = Some g -> 0 <= g) ->
  hl_inv h0 -> hl_depth h0 = D -> (value ≠ 0 -> hl_paid h0) -> hl_fuel h0 + value_bonus value <= F ->
  hoare (kinv (eq h0))
    (invoke (h_call to (call_transfer scheme c to value) input gas (is_static_call scheme)
       (call_context scheme c to value)))
    (fun r s => match r with
      | CaptureExit (_, data) => bytes_ok data ∧ sinv F D s
      | CaptureTrap i => hl_interrupt i ∧ sinv (F + 1) (S D) s end)
    (error (within F D)).
Proof.
  intros Ht Hv Hc Hin Hg Hi Hd Hp Hf [rt h] [Hrt Eh]. simpl in Eh. subst h. cbn [fst] in Hrt. unfold invoke.
  destruct (hl_call h0 to (call_transfer scheme c to value) input gas (is_static_call scheme)
    (call_context scheme c to value) Hi Hin ltac:(by apply call_context_ok) Hg) as (h' & r & E & Hi' & Hr).
  { intros t Et. by rewrite (call_transfer_value _ _ _ _ _ Et). }
  rewrite E. unfold kinv, within. simpl.
  assert (value_bonus (match call_transfer scheme c to value with Some t => tr_value t | None => 0 end)
    <= value_bonus value) as Hb.
  { unfold value_bonus. destruct scheme; simpl; repeat case_match; lia. }
  destruct r as [[? d]|i]; [destruct Hr as (?&?&?)|destruct Hr as (?&?&?)]; split_and!; try done; lia.
Qed.

(** The operands after the value, and the call. *)
Definition call_rest (scheme : CallScheme) (x : U256 * U256 * U256) : SystemM (RControl I) :=
  let gas := if u64_max <? x.1.1 then None else Some x.1.1 in
  in_offset ← sys_pop; in_len ← sys_pop; out_offset ← sys_pop; out_len ← sys_pop;
  _ ← sys_machine (resize_offset in_offset in_len);
  _ ← sys_machine (resize_offset out_offset out_len);
  input ← sys_machine (memory_slice in_offset in_len);
  c ← this_context;
  r ← invoke (h_call (H160_from x.1.2) (call_transfer scheme c (H160_from x.1.2) x.2) input gas
                (is_static_call scheme) (call_context scheme c (H160_from x.1.2) x.2));
  match r with
  | CaptureExit (reason, return_data) =>
      _ ← on_runtime (finish_call out_len out_offset reason return_data); mret RContinue
  | CaptureTrap interrupt =>
      _ ← on_runtime (em_modify (set_return_data_target out_len out_offset));
      mret (CallInterrupt interrupt)
  end.

Lemma sys_call_split scheme s :
  sys_call scheme s =
  (_ ← on_runtime (em_modify (set_return_data_buffer [])); x ← call_operands scheme; call_rest scheme x) s.
Proof.
  unfold sys_call, call_operands, call_rest. unfold mbind, EM_bind, mret, EM_ret.
  destruct (on_runtime _ s) as [[s1 [[]|]]|]; [|done..].
  destruct (sys_pop s1) as [[s2 [g|]]|]; [|done..]. destruct (sys_pop s2) as [[s3 [t|]]|]; [|done..].
  destruct (pops_value scheme); [|done]. destruct (sys_pop s3) as [[s4 [v|]]|]; done.
Qed.

Lemma evals_covers {A} (c : EvalM A) o l (Q : A -> Prop) :
  evals any_state c (fun x _ => Q x) -> evals (covers o l) c (fun x m => covers o l m ∧ Q x).
Proof.
  intros Hc m Hi Hm. specialize (Hc m Hi Logic.I). destruct (c m) as [[m' r]|]; [|done].
  destruct Hc as (? & Hf & HQ). split_and!; [done..|]. intros x Hx. split; [by eapply covers_frame|by apply HQ].
Qed.

Lemma invoke_frame {A} (f : H -> option (H * A)) K (P : Machine -> Prop) Q X :
  hoare (kinv K) (invoke f) Q X ->
  hoare (fun s => P (rt_machine s.1) ∧ kinv K s) (invoke f) (fun x s => P (rt_machine s.1) ∧ Q x s) X.
Proof.
  intros Hf [rt h] [HP Hs]. specialize (Hf (rt, h) Hs). unfold invoke in *. destruct (f h) as [[h' x]|]; by try split.
Qed.

Lemma rt_ok_target rt len offset :
  rt_ok rt -> word len -> word offset -> covers offset len (rt_machine rt) -> rt_ok (set_return_data_target len offset rt).
Proof. intros [] ???. by split. Qed.

Lemma call_rest_hoare scheme x F D h0 :
  word x.1.1 -> word x.2 -> within F D h0 -> (x.2 ≠ 0 -> hl_paid h0) -> hl_fuel h0 + value_bonus x.2 <= F ->
  hoare (kinv (eq h0)) (call_rest scheme x) (control_sound F D) (error (within F D)).
Proof.
  intros Hg Hv Hw Hp Hf. unfold call_rest. cbv zeta.
  assert (forall h, h0 = h -> within F D h) as Hk by (by intros ? <-).
  do 4 (eapply hoare_bind; [eapply weaken_error; [apply pop_hoare|exact Hk]|intros ?; apply hoare_pure; intros ?]).
  rename x0 into io, x1 into il, x2 into oo, x3 into ol.
  eapply hoare_bind; [eapply weaken_error; [by apply resize_hoare|exact Hk]|]. intros [].
  eapply hoare_pre; [|by intros ? [_ ?]].
  eapply hoare_bind; [eapply weaken_error; [by apply resize_hoare|exact Hk]|]. intros [].
  eapply hoare_bind with (Q := fun d s => bytes_ok d ∧ covers oo ol (rt_machine s.1) ∧ kinv (eq h0) s).
  { eapply weaken_error; [|exact Hk]. eapply hoare_post.
    - apply machine_hoare; [|apply evals_covers, evals_memory_slice]. unfold memory_slice. auto 20 with chase.
    - by intros d s [[? ?] ?]. }
  intros input. apply hoare_pure. intros Hin.
  eapply hoare_bind with (Q := fun c s => context_ok c ∧ covers oo ol (rt_machine s.1) ∧ kinv (eq h0) s).
  { intros [rt h] [Hc Hs]. pose proof (context_hoare (eq h0) (rt, h) Hs) as [Hctx _]. by split_and!. }
  intros c. apply hoare_pure. intros Hctx.
  eapply hoare_bind; [apply (invoke_frame _ _ (covers oo ol)), invoke_call_hoare with (F := F) (D := D); try done|].
  - apply word_H160.
  - intros g. case_match; [done|]. intros [= <-]. by destruct Hg.
  - apply Hw.
  - apply Hw.
  - intros [[reason d]|i].
    + eapply hoare_pre with (P' := fun s => bytes_ok d ∧ covers oo ol (rt_machine s.1) ∧ sinv F D s); [|by intros ? (?&?&?)].
      apply hoare_pure. intros Hd. eapply hoare_bind with (Q := fun _ => sinv F D); [|intros []; by apply hoare_ret].
      intros [rt h] [Hc [Hrt Hs]]. unfold on_runtime.
      pose proof (finish_call_hoare ol oo reason d ltac:(done) ltac:(done) Hd rt (conj Hc Hrt)) as Hfin.
      destruct (finish_call ol oo reason d rt) as [[rt' [[]|e]]|]; [by split|by split|done].
    + eapply hoare_bind with (Q := fun _ s => hl_interrupt i ∧ sinv (F + 1) (S D) s); [|intros []; by apply hoare_ret].
      intros [rt h] (Hc & Hii & Hrt & Hs). unfold on_runtime. simpl in *.
      split; [done|]. split; [by apply rt_ok_target|done].
Qed.

Lemma sys_call_sound scheme F D :
  hoare (fun s => call_ready scheme F s ∧ sinv F D s) (sys_call scheme) (control_sound F D) (error (within F D)).
Proof.
  intros [rt h] [Hr [Hrt Hw]]. unfold call_ready in Hr. cbn [fst snd] in *. rewrite sys_call_split.
  set (l := stk_data (mc_stack (rt_machine rt))) in *.
  eapply hoare_bind with (P := fun s => s.1 = rt ∧ kinv (eq h) s)
    (Q := fun _ s => stk_data (mc_stack (rt_machine s.1)) = l ∧ kinv (eq h) s); [| |by split].
  { intros [rt' h'] [Ert Hs]. cbn [fst] in Ert. subst rt'.
    pose proof (clear_buffer_hoare (eq h) (rt, h') Hs) as Hb. by split. }
  intros []. eapply hoare_bind; [eapply weaken_error; [apply call_operands_hoare|by intros ? <-]|].
  intros x. apply hoare_pure. intros (Hg & Hv & Hx). apply call_rest_hoare; [done..| |].
  - intros Hne. destruct (Hx Hne) as [Hs Hl]. by apply (Hr Hs _ Hl).
  - unfold value_bonus. destruct (Z.eqb_spec x.2 0) as [E|Hne]; [destruct Hw as (_&?&_); lia|].
    destruct (Hx Hne) as [Hs Hl]. destruct (Hr Hs _ Hl Hne). lia.
Qed.

(** *** Dispatch *)

(** A call with value has been paid for before it is served, and a slot has been
    read before it is stored. *)
Definition serve_ready (op : Z) (F : Z) (s : Runtime * H) : Prop :=
  (is_call op = true -> forall v, stk_data (mc_stack (rt_machine s.1)) !! 2%nat = Some v -> v ≠ 0 ->
     hl_paid s.2 ∧ hl_fuel s.2 + 17998 <= F) ∧
  (op = Opcode.SSTORE -> store_ready s).

Definition served (op : Z) (F : Z) (D : nat) (c : RControl I) (s : Runtime * H) : Prop :=
  (is_final op = true -> exists e, c = RExit e) ∧ control_sound F D c s.

Lemma served_sound op F D c :
  is_final op = false -> sound F D c ->
  hoare (fun s => serve_ready op F s ∧ sinv F D s) c (served op F D) (error (within F D)).
Proof.
  intros Hf Hc. eapply hoare_conseq; [exact Hc|by intros s []| |done]. intros x s Hs. split; [congruence|done].
Qed.

Lemma served_call op scheme F D :
  is_final op = false -> (pops_value scheme = true -> is_call op = true) ->
  hoare (fun s => serve_ready op F s ∧ sinv F D s) (sys_call scheme) (served op F D) (error (within F D)).
Proof.
  intros Hf Hop. eapply hoare_conseq; [apply (sys_call_sound scheme F D)| | |done].
  - intros s [[Hr _] Hs]. split; [|done]. intros Hp. by apply Hr, Hop.
  - intros x s Hs. split; [congruence|done].
Qed.

Lemma system_eval_sound op F D :
  hoare (fun s => serve_ready op F s ∧ sinv F D s) (system_eval op) (served op F D) (error (within F D)).
Proof.
  unfold system_eval. destruct (table_get SYSTEM op) as [c|] eqn:E; simpl.
  2: { intros [rt h] [_ [Hrt Hs]]. by split. }
  apply table_get_elem_of in E. unfold SYSTEM in E.
  repeat (apply elem_of_cons in E as [[= -> ->]|E]); [..|by apply elem_of_nil in E].
  all: try (apply served_call; done).
  21: { eapply hoare_conseq; [apply (sstore_sound F D)| | |done]; [intros s [[_ Hr] Hs]; split; [by apply Hr|done]|].
        intros c s Hs. split; [done|exact Hs]. }
  27: { eapply hoare_conseq; [apply (suicide_sound F D)|by intros s []| |done]. intros c s [[e ->] Hs]. split; [eauto|done]. }
  all: apply served_sound; [done|].
  all: try (by apply environment_sound; intros h; set_solver).
  - apply sha3_sound.
  - unfold sys_address. sys_ctx c Hc. apply push_value_sound, Hc.
  - unfold sys_balance. sys_pop a Ha. apply ask_push_sound. intros h Hh. by apply hl_balance.
  - unfold selfbalance. sys_ctx c Hc. apply ask_push_sound. intros h Hh. by apply hl_balance.
  - unfold sys_caller. sys_ctx c Hc. apply push_value_sound, Hc.
  - unfold callvalue. sys_ctx c Hc. apply push_value_sound, Hc.
  - apply extcodesize_sound.
  - apply extcodehash_sound.
  - apply extcodecopy_sound.
  - apply returndatasize_sound.
  - apply returndatacopy_sound.
  - apply blockhash_sound.
  - apply prevrandao_sound.
  - apply sload_sound.
  - apply ask_push_sound. intros h Hh. by apply hl_gas_left.
  - apply sys_log_sound.
  - apply sys_log_sound.
  - apply sys_log_sound.
  - apply sys_log_sound.
  - apply sys_log_sound.
  - apply sys_create_sound.
  - apply sys_create_sound.
Qed.

(** ** Steps and runs of the runtime *)

(** The state a step of the runtime reaches. *)
Definition step_sound (h : H) (rt' : Runtime) (h' : H) (r : Result unit (Capture ExitReason (Resolve I))) : Prop :=
  rt_ok rt' ∧ hl_inv h' ∧
  match r with
  | Ok _ => hl_fuel h' < hl_fuel h ∧ hl_depth h' = hl_depth h
  | Err (CaptureExit _) => hl_fuel h' <= hl_fuel h ∧ hl_depth h' = hl_depth h
  | Err (CaptureTrap (ResolveCall i)) | Err (CaptureTrap (ResolveCreate i)) =>
      hl_interrupt i ∧ hl_fuel h' < hl_fuel h ∧ hl_depth h' = S (hl_depth h)
  end.

Lemma serve_sound op rt h0 h :
  serve_ready op (hl_fuel h0 - 2) (rt, h) -> rt_ok rt -> hl_inv h -> hl_depth h = hl_depth h0 ->
  (is_final op = false -> hl_fuel h + 2 <= hl_fuel h0) -> hl_fuel h <= hl_fuel h0 ->
  exists rt' h' r, serve op rt h = Some (rt', h', r) ∧ step_sound h0 rt' h' r.
Proof.
  intros Hr Hrt Hi Hd Hf Hle. unfold serve, step_sound.
  set (F := if is_final op then hl_fuel h0 else hl_fuel h0 - 2).
  assert (serve_ready op F (rt, h) ∧ kinv (within F (hl_depth h0)) (rt, h)) as HP.
  { destruct Hr as [Hr Hst]. unfold F. split.
    - split; [|exact Hst]. intros Hc v Hv Hne. destruct (Hr Hc v Hv Hne). split; [done|]. destruct (is_final op); lia.
    - unfold kinv, within. cbn. split_and!; try done. destruct (is_final op); [lia|]. specialize (Hf eq_refl). lia. }
  pose proof (system_eval_sound op F (hl_depth h0) (rt, h) HP) as Hs'.
  destruct (system_eval op (rt, h)) as [[[rt' h'] r]|]; [|done]. unfold F in Hs'. clear HP F.
  unfold served, kinv, within in Hs'.
  destruct r as [[| i | i | e]|e]; cbn in Hs'; eexists _, _, _; (split; [done|]).
  - destruct Hs' as [Hfin (?&?&?&?)]. destruct (is_final op); [by destruct (Hfin eq_refl)|]. cbn in *. split_and!; try done; lia.
  - destruct Hs' as [Hfin (?&?&?&?&?)]. destruct (is_final op); [by destruct (Hfin eq_refl)|]. cbn in *. split_and!; try done; lia.
  - destruct Hs' as [Hfin (?&?&?&?&?)]. destruct (is_final op); [by destruct (Hfin eq_refl)|]. cbn in *. split_and!; try done; lia.
  - destruct Hs' as [_ (?&?&?&?)]. split_and!; [by apply rt_ok_exit|done|destruct (is_final op); cbn in *; lia|done].
  - destruct Hs' as (?&?&?&?). split_and!; [by apply rt_ok_exit|done|destruct (is_final op); cbn in *; lia|done].
Qed.

Lemma rt_ok_step rt m :
  rt_ok rt -> machine_wf m -> range_ok m ->
  mem_effective_len (mc_memory (rt_machine rt)) <= mem_effective_len (mc_memory m) -> rt_ok (set_machine m rt).
Proof.
  intros [] Hm Hr He. split; cbn; try done. destruct ro_target0 as [->|]; [by left|right; lia].
Qed.

Lemma rt_ok_status rt st : rt_ok rt -> rt_ok (set_status st rt).
Proof. intros []. by split. Qed.

Lemma Machine_inspect_Some m op stack :
  Machine_inspect m = Some (op, stack) ->
  exists p, mc_position m = Ok p ∧ byte_at (mc_code m) p = Some op ∧ stack = mc_stack m.
Proof.
  unfold Machine_inspect. destruct (mc_position m) as [p|]; [|done].
  destruct (byte_at (mc_code m) p) as [b|] eqn:E; [|done]. cbn. intros [= <- <-]. eauto.
Qed.

(** Past the end of the code, or after an exit, the machine exits. *)
Lemma Machine_step_end m :
  machine_wf m -> range_ok m -> Machine_inspect m = None ->
  exists m' e, Machine_step m = Some (m', Err (CaptureExit e)) ∧ machine_wf m' ∧ range_ok m' ∧
    mc_memory m' = mc_memory m.
Proof.
  intros [Hi Hp] Hr. unfold Machine_inspect, Machine_step. destruct (mc_position m) as [p|e] eqn:Ep.
  - destruct (byte_at (mc_code m) p); [done|]. intros _. eexists _, _. split_and!; [done| |done|done].
    split; [by destruct Hi|done].
  - intros _. eexists _, _. by split_and!.
Qed.

Lemma Runtime_step_sound rt h :
  rt_ok rt -> hl_inv h -> exists rt' h' r, Runtime_step rt h = Some (rt', h', r) ∧ step_sound h rt' h' r.
Proof.
  intros Hrt Hi. pose proof (ro_machine _ Hrt) as Hm. pose proof (ro_range _ Hrt) as Hr.
  unfold Runtime_step, pre_step. destruct (Machine_inspect (rt_machine rt)) as [[op stack]|] eqn:Einsp.
  2: { destruct (rt_status rt) as [[]|e] eqn:Est; [|eexists _, _, _; split; [done|]; by split_and!].
       destruct (Machine_step_end _ Hm Hr Einsp) as (m' & e & -> & Hm' & Hr' & Ee).
       eexists _, _, _. split; [done|]. split_and!; [|done..]. apply rt_ok_status, rt_ok_step; [done..|]. by rewrite Ee. }
  apply Machine_inspect_Some in Einsp as (p & Hp & Hop & ->).
  destruct (hl_pre_validate h (rt_context rt) op (mc_stack (rt_machine rt)) Hi) as (h1 & r1 & -> & (Hi1 & Hf1 & Hd1) & Hpass).
  { apply (ci_stack _ (proj1 Hm)). }
  destruct r1 as [[]|e].
  2: { cbn. eexists _, _, _. split; [done|]. split_and!; [by apply rt_ok_exit|done..]. }
  destruct (Hpass eq_refl) as (Hfin & Hcall & Hload & Hret).
  destruct (rt_status rt) as [[]|e] eqn:Est; [|eexists _, _, _; split; [done|]; by split_and!].
  destruct (Machine_step_wf _ Hm) as (m' & r & Em & Hm' & _ & _ & Hmem).
  destruct (Machine_step_at _ _ _ p op Hm Hr Hp Hop Hret Em) as [Hr' Hres]. rewrite Em.
  assert (rt_ok (set_machine m' rt)) as Hrt' by (by apply rt_ok_step).
  destruct r as [[]|[e|t]].
  - eexists _, _, _. split; [done|]. specialize (Hfin Hres). split_and!; try done; lia.
  - eexists _, _, _. split; [done|]. split_and!; try done. by apply rt_ok_status.
  - destruct Hres as [-> ->]. apply serve_sound; try done.
    split; [|intros Eop k Hk; by apply (Hload Eop k)]. intros Hc v Hv Hne. destruct (Hcall Hc v Hv Hne). split; [done|]. cbn. lia.
Qed.

(** A run of the runtime ends within the budget of its handler. *)
Lemma Runtime_run_sound fuel rt h :
  (forall h, hl_inv h -> 0 <= hl_fuel h) -> rt_ok rt -> hl_inv h -> hl_fuel h < Z.of_nat fuel ->
  exists rt' h' c, Runtime_run fuel rt h = Finished (rt', h', c) ∧ step_sound h rt' h' (Err c).
Proof.
  intros Hnn. revert rt h. induction fuel as [|fuel IH]; intros rt h Hrt Hi Hf; [specialize (Hnn h Hi); lia|].
  cbn [Runtime_run]. destruct (Runtime_step_sound rt h Hrt Hi) as (rt1 & h1 & r & -> & Hs).
  destruct r as [[]|c]; [|eauto 10]. destruct Hs as (Hrt1 & Hi1 & Hf1 & Hd1).
  destruct (IH rt1 h1 Hrt1 Hi1 ltac:(lia)) as (rt2 & h2 & c & -> & Hrt2 & Hi2 & Hc).
  eexists _, _, _. split; [done|]. split_and!; [done..|]. destruct c as [|[i|i]]; destruct_and?; split_and!; try done; lia.
Qed.
End system.
