(* ===== verification/EvmSubstate.v ===== *)
(** * The substate stack of the EVM executor

    src/crates/chase-evm/src/executor/stack/memory.rs and the substate metadata
    of executor.rs.

    A transaction works on a stack of layers over the backend.  Entering a call
    pushes a layer; leaving it merges the layer into its parent or drops it.  A
    [MemoryStackSubstate] is its own layer with the chain of its parents, the
    nearest first.  [deconstruct] turns the root layer into the effects the
    scheduler commits. *)

From S2P Require Import Prelude Types EvmConfig Backend EvmWord EvmCore EvmRuntime EvmGas.
Local Open Scope Z_scope.
Local Open Scope chase_scope.

(** ** Metadata *)

Inductive StackExitKind := ExitSucceeded | ExitReverted | ExitFailed.

Record Accessed := mkAccessed {
  accessed_addresses : gset H160;
  accessed_storage : gset (H160 * H256)
}.

Definition Accessed_default : Accessed := mkAccessed ∅ ∅.

Definition Accessed_access_address (a : Accessed) (address : H160) : Accessed :=
  mkAccessed ({[address]} ∪ accessed_addresses a) (accessed_storage a).

Definition Accessed_access_addresses (a : Accessed) (addresses : list H160) : Accessed :=
  foldl Accessed_access_address a addresses.

Definition Accessed_access_storages (a : Accessed) (storages : list (H160 * H256)) : Accessed :=
  foldl (fun a s => mkAccessed (accessed_addresses a) ({[s]} ∪ accessed_storage a)) a storages.

Record StackSubstateMetadata := mkMetadata {
  md_gasometer : Gasometer;
  md_is_static : bool;
  md_depth : option Z;
  md_accessed : option Accessed
}.

Definition Metadata_new (gas_limit : Z) (config : Config) : StackSubstateMetadata :=
  mkMetadata (Gasometer_new gas_limit config) false None
    (if cfg_increase_state_access_gas config then Some Accessed_default else None).

Definition set_gasometer (g : Gasometer) (md : StackSubstateMetadata) : StackSubstateMetadata :=
  mkMetadata g (md_is_static md) (md_depth md) (md_accessed md).

Definition set_accessed (a : option Accessed) (md : StackSubstateMetadata) : StackSubstateMetadata :=
  mkMetadata (md_gasometer md) (md_is_static md) (md_depth md) a.

(** The addresses and slots the child touched are added to the parent's. *)
Definition accessed_append (self other : option Accessed) : option Accessed :=
  match other, self with
  | Some o, Some s =>
      Some (mkAccessed (accessed_addresses s ∪ accessed_addresses o)
              (accessed_storage s ∪ accessed_storage o))
  | _, _ => self
  end.

Definition swallow_commit (self other : StackSubstateMetadata) :
    StackSubstateMetadata * Result unit ExitError :=
  match record_stipend (Gasometer_gas (md_gasometer other)) (md_gasometer self) with
  | (g, Err e) => (set_gasometer g self, Err e)
  | (g, Ok _) =>
      match record_refund (refunded_gas (md_gasometer other)) g with
      | (g', Err e) => (set_gasometer g' self, Err e)
      | (g', Ok _) =>
          (set_accessed (accessed_append (md_accessed self) (md_accessed other))
             (set_gasometer g' self), Ok tt)
      end
  end.

Definition swallow_revert (self other : StackSubstateMetadata) :
    StackSubstateMetadata * Result unit ExitError :=
  let '(g, r) := record_stipend (Gasometer_gas (md_gasometer other)) (md_gasometer self) in
  (set_gasometer g self, r).

Definition swallow_discard (self other : StackSubstateMetadata) :
    StackSubstateMetadata * Result unit ExitError := (self, Ok tt).

Definition spit_child (md : StackSubstateMetadata) (gas_limit : Z) (is_static : bool) :
    StackSubstateMetadata :=
  mkMetadata (Gasometer_new gas_limit (gm_config (md_gasometer md)))
    (is_static || md_is_static md)
    (match md_depth md with None => Some 0 | Some n => Some (n +u64 1) end)
    ((fun _ => Accessed_default) <$> md_accessed md).

Definition access_address (address : H160) (md : StackSubstateMetadata) : StackSubstateMetadata :=
  set_accessed ((fun a => Accessed_access_address a address) <$> md_accessed md) md.

Definition access_addresses (addresses : list H160) (md : StackSubstateMetadata) : StackSubstateMetadata :=
  set_accessed ((fun a => Accessed_access_addresses a addresses) <$> md_accessed md) md.

Definition access_storage (address : H160) (key : H256) (md : StackSubstateMetadata) :
    StackSubstateMetadata :=
  set_accessed ((fun a => Accessed_access_storages a [(address, key)]) <$> md_accessed md) md.

Definition access_storages (storages : list (H160 * H256)) (md : StackSubstateMetadata) :
    StackSubstateMetadata :=
  set_accessed ((fun a => Accessed_access_storages a storages) <$> md_accessed md) md.

(** ** Layers *)

Record MemoryStackAccount := mkStackAccount {
  sa_basic : Basic;
  sa_code : option bytes;
  sa_reset : bool
}.

Record Layer := mkLayer {
  ly_metadata : StackSubstateMetadata;
  ly_logs : list Log;
  ly_accounts : gmap H160 MemoryStackAccount;
  ly_storages : gmap (H160 * H256) H256;
  ly_deletes : gset H160
}.

Definition Layer_new (md : StackSubstateMetadata) : Layer := mkLayer md [] ∅ ∅ ∅.

Record MemoryStackSubstate := mkSubstate { ss_top : Layer; ss_parents : list Layer }.

Definition Substate_new (md : StackSubstateMetadata) : MemoryStackSubstate := mkSubstate (Layer_new md) [].

Definition ss_layers (s : MemoryStackSubstate) : list Layer := ss_top s :: ss_parents s.

Definition on_top (f : Layer -> Layer) (s : MemoryStackSubstate) : MemoryStackSubstate :=
  mkSubstate (f (ss_top s)) (ss_parents s).

Definition set_metadata (md : StackSubstateMetadata) (l : Layer) : Layer :=
  mkLayer md (ly_logs l) (ly_accounts l) (ly_storages l) (ly_deletes l).
Definition set_logs (x : list Log) (l : Layer) : Layer :=
  mkLayer (ly_metadata l) x (ly_accounts l) (ly_storages l) (ly_deletes l).
Definition set_accounts (x : gmap H160 MemoryStackAccount) (l : Layer) : Layer :=
  mkLayer (ly_metadata l) (ly_logs l) x (ly_storages l) (ly_deletes l).
Definition set_storages (x : gmap (H160 * H256) H256) (l : Layer) : Layer :=
  mkLayer (ly_metadata l) (ly_logs l) (ly_accounts l) x (ly_deletes l).
Definition set_deletes (x : gset H160) (l : Layer) : Layer :=
  mkLayer (ly_metadata l) (ly_logs l) (ly_accounts l) (ly_storages l) x.

Definition ss_metadata (s : MemoryStackSubstate) : StackSubstateMetadata := ly_metadata (ss_top s).
Definition metadata_mut (f : StackSubstateMetadata -> StackSubstateMetadata) (s : MemoryStackSubstate) :
    MemoryStackSubstate := on_top (fun l => set_metadata (f (ly_metadata l)) l) s.

Definition Substate_enter (gas_limit : Z) (is_static : bool) (s : MemoryStackSubstate) :
    MemoryStackSubstate :=
  mkSubstate (Layer_new (spit_child (ss_metadata s) gas_limit is_static)) (ss_layers s).

(** The storage entries of the parent that survive the resets of the child. *)
Definition unreset_storages (exited parent : Layer) : gmap (H160 * H256) H256 :=
  filter (fun p : (H160 * H256) * H256 =>
    (sa_reset <$> ly_accounts exited !! p.1.1) ≠ Some true) (ly_storages parent).

(** [BTreeMap::append]: the entries of the child replace those of the parent. *)
Definition merge_layer (exited parent : Layer) : Layer :=
  mkLayer (ly_metadata parent) (ly_logs parent ++ ly_logs exited)
    (ly_accounts exited ∪ ly_accounts parent)
    (ly_storages exited ∪ unreset_storages exited parent)
    (ly_deletes parent ∪ ly_deletes exited).

(** [None] is the panic on the root substate.  A failing [swallow_commit]
    returns before anything is merged. *)
Definition exit_commit (s : MemoryStackSubstate) : option (MemoryStackSubstate * Result unit ExitError) :=
  match ss_parents s with
  | [] => None
  | parent :: rest =>
      let '(md, r) := swallow_commit (ly_metadata parent) (ss_metadata s) in
      let parent := set_metadata md parent in
      match r with
      | Err e => Some (mkSubstate parent rest, Err e)
      | Ok _ => Some (mkSubstate (merge_layer (ss_top s) parent) rest, Ok tt)
      end
  end.

Definition exit_revert (s : MemoryStackSubstate) : option (MemoryStackSubstate * Result unit ExitError) :=
  match ss_parents s with
  | [] => None
  | parent :: rest =>
      let '(md, r) := swallow_revert (ly_metadata parent) (ss_metadata s) in
      Some (mkSubstate (set_metadata md parent) rest, r)
  end.

Definition exit_discard (s : MemoryStackSubstate) : option (MemoryStackSubstate * Result unit ExitError) :=
  match ss_parents s with
  | [] => None
  | parent :: rest =>
      let '(md, r) := swallow_discard (ly_metadata parent) (ss_metadata s) in
      Some (mkSubstate (set_metadata md parent) rest, r)
  end.

(** ** Reads through the layers *)

Fixpoint layers_account (ls : list Layer) (address : H160) : option MemoryStackAccount :=
  match ls with
  | [] => None
  | l :: ls' =>
      match ly_accounts l !! address with
      | Some account => Some account
      | None => layers_account ls' address
      end
  end.

Definition known_account (s : MemoryStackSubstate) (address : H160) : option MemoryStackAccount :=
  layers_account (ss_layers s) address.

Definition known_basic (s : MemoryStackSubstate) (address : H160) : option Basic :=
  sa_basic <$> known_account s address.

Definition known_code (s : MemoryStackSubstate) (address : H160) : option bytes :=
  acc ← known_account s address; sa_code acc.

Definition known_empty (s : MemoryStackSubstate) (address : H160) : option bool :=
  match known_account s address with
  | Some account =>
      if negb (balance (sa_basic account) =? 0) then Some false
      else if negb (nonce (sa_basic account) =? 0) then Some false
      else
        match sa_code account with
        | Some code =>
            Some ((balance (sa_basic account) =? 0) && (nonce (sa_basic account) =? 0)
                  && match code with [] => true | _ => false end)
        | None => None
        end
  | None => None
  end.

Definition layer_reset (l : Layer) (address : H160) : bool :=
  match ly_accounts l !! address with Some account => sa_reset account | None => false end.

Fixpoint layers_storage (ls : list Layer) (address : H160) (key : H256) : option H256 :=
  match ls with
  | [] => None
  | l :: ls' =>
      match ly_storages l !! (address, key) with
      | Some value => Some value
      | None => if layer_reset l address then Some 0 else layers_storage ls' address key
      end
  end.

Definition known_storage (s : MemoryStackSubstate) (address : H160) (key : H256) : option H256 :=
  layers_storage (ss_layers s) address key.

Definition known_original_storage (s : MemoryStackSubstate) (address : H160) : option H256 :=
  if existsb (fun l => layer_reset l address) (ss_layers s) then Some 0 else None.

(** No layer has accessed the item. *)
Definition recursive_is_cold (f : Accessed -> bool) (s : MemoryStackSubstate) : bool :=
  forallb (fun l =>
    negb (match md_accessed (ly_metadata l) with Some a => f a | None => false end)) (ss_layers s).

Definition Substate_is_cold (s : MemoryStackSubstate) (address : H160) : bool :=
  recursive_is_cold (fun a => bool_decide (address ∈ accessed_addresses a)) s.

Definition Substate_is_storage_cold (s : MemoryStackSubstate) (address : H160) (key : H256) : bool :=
  recursive_is_cold (fun a => bool_decide ((address, key) ∈ accessed_storage a)) s.

Definition Substate_deleted (s : MemoryStackSubstate) (address : H160) : bool :=
  existsb (fun l => bool_decide (address ∈ ly_deletes l)) (ss_layers s).

(** ** Updates of the top layer *)

Section updates.
Context {B : Type} `{EvmBackend B}.

(** The account [account_mut] finds or creates in the top layer. *)
Definition account_of (s : MemoryStackSubstate) (b : B) (address : H160) : MemoryStackAccount :=
  match ly_accounts (ss_top s) !! address with
  | Some account => account
  | None =>
      match known_account s address with
      | Some account => mkStackAccount (sa_basic account) (sa_code account) false
      | None => mkStackAccount (bk_basic b address) None false
      end
  end.

(** [account_mut] with the update of the account it returns. *)
Definition account_mut (address : H160) (b : B) (f : MemoryStackAccount -> MemoryStackAccount)
    (s : MemoryStackSubstate) : MemoryStackSubstate :=
  on_top (fun l => set_accounts (<[address := f (account_of s b address)]> (ly_accounts l)) l) s.

Definition set_basic (x : Basic) (a : MemoryStackAccount) : MemoryStackAccount :=
  mkStackAccount x (sa_code a) (sa_reset a).

Definition Substate_inc_nonce (address : H160) (b : B) (s : MemoryStackSubstate) :
    MemoryStackSubstate * Result unit ExitError :=
  let n := nonce (sa_basic (account_of s b address)) in
  if u64_max <=? n then (account_mut address b (fun a => a) s, Err MaxNonce)
  else
    (account_mut address b
       (fun a => set_basic (mkBasic (balance (sa_basic a)) (n + 1)) a) s, Ok tt).

Definition Substate_set_storage (address : H160) (key value : H256) (s : MemoryStackSubstate) :
    MemoryStackSubstate :=
  on_top (fun l => set_storages (<[(address, key) := value]> (ly_storages l)) l) s.

Definition Substate_reset_storage (address : H160) (b : B) (s : MemoryStackSubstate) :
    MemoryStackSubstate :=
  let s := on_top (fun l =>
    set_storages (filter (fun p : (H160 * H256) * H256 => p.1.1 ≠ address) (ly_storages l)) l) s in
  account_mut address b (fun a => mkStackAccount (sa_basic a) (sa_code a) true) s.

Definition Substate_log (address : H160) (topics : list H256) (data : bytes) (s : MemoryStackSubstate) :
    MemoryStackSubstate :=
  on_top (fun l => set_logs (ly_logs l ++ [mkLog address topics data]) l) s.

Definition Substate_set_deleted (address : H160) (s : MemoryStackSubstate) : MemoryStackSubstate :=
  on_top (fun l => set_deletes ({[address]} ∪ ly_deletes l) l) s.

Definition Substate_set_code (address : H160) (code : bytes) (b : B) (s : MemoryStackSubstate) :
    MemoryStackSubstate :=
  account_mut address b (fun a => mkStackAccount (sa_basic a) (Some code) (sa_reset a)) s.

Definition add_balance (f : U256 -> U256) (a : MemoryStackAccount) : MemoryStackAccount :=
  set_basic (mkBasic (f (balance (sa_basic a))) (nonce (sa_basic a))) a.

(** [withdraw]; also the first half of [transfer]. *)
Definition Substate_withdraw (address : H160) (value : U256) (b : B) (s : MemoryStackSubstate) :
    MemoryStackSubstate * Result unit ExitError :=
  if balance (sa_basic (account_of s b address)) <? value
  then (account_mut address b (fun a => a) s, Err OutOfFund)
  else (account_mut address b (add_balance (fun x => x - value)) s, Ok tt).

(** [deposit]; also the second half of [transfer]. *)
Definition Substate_deposit (address : H160) (value : U256) (b : B) (s : MemoryStackSubstate) :
    MemoryStackSubstate :=
  account_mut address b (add_balance (fun x => u256_saturating_add x value)) s.

Definition Substate_transfer (t : Transfer) (b : B) (s : MemoryStackSubstate) :
    MemoryStackSubstate * Result unit ExitError :=
  match Substate_withdraw (tr_source t) (tr_value t) b s with
  | (s, Err e) => (s, Err e)
  | (s, Ok _) => (Substate_deposit (tr_target t) (tr_value t) b s, Ok tt)
  end.

Definition Substate_reset_balance (address : H160) (b : B) (s : MemoryStackSubstate) :
    MemoryStackSubstate := account_mut address b (add_balance (fun _ => 0)) s.

Definition Substate_touch (address : H160) (b : B) (s : MemoryStackSubstate) : MemoryStackSubstate :=
  account_mut address b (fun a => a) s.

(** ** Effects *)

(** [BTreeSet] iteration. *)
Definition btree_set_iter (X : gset Z) : list Z := sort_by_key (fun x => x) (elements X).

(** The slots of one address. *)
Definition address_storage (storages : gmap (H160 * H256) H256) (address : H160) : gmap H256 H256 :=
  list_to_map (omap (fun p : (H160 * H256) * H256 =>
    if decide (p.1.1 = address) then Some (p.1.2, p.2) else None) (map_to_list storages)).

Definition touched_addresses (l : Layer) : gset H160 :=
  dom (ly_accounts l) ∪ set_map fst (dom (ly_storages l)).

Definition modify_effect (s : MemoryStackSubstate) (b : B) (address : H160) : Apply :=
  let account := account_of s b address in
  Modify address (sa_basic account) (sa_code account)
    (address_storage (ly_storages (ss_top s)) address) (sa_reset account).

(** [None] is the failing assertion that the substate is the root. *)
Definition Substate_deconstruct (s : MemoryStackSubstate) (b : B) : option (list Apply * list Log) :=
  match ss_parents s with
  | _ :: _ => None
  | [] =>
      let deletes := ly_deletes (ss_top s) in
      Some ((modify_effect s b <$> filter (fun a => a ∉ deletes)
               (btree_set_iter (touched_addresses (ss_top s))))
            ++ (Delete <$> btree_set_iter deletes),
            ly_logs (ss_top s))
  end.
End updates.

(** ** The state over a backend *)

Record MemoryStackState (B : Type) := mkStackState { mss_backend : B; mss_substate : MemoryStackSubstate }.
Arguments mkStackState {B} _ _.
Arguments mss_backend {B} _.
Arguments mss_substate {B} _.

Section state.
Context {B : Type} `{EvmBackend B}.

Definition StackState_new (md : StackSubstateMetadata) (b : B) : MemoryStackState B :=
  mkStackState b (Substate_new md).

Definition stack_exists (s : MemoryStackState B) (address : H160) : bool :=
  bool_decide (is_Some (known_account (mss_substate s) address)) || bk_exists (mss_backend s) address.

Definition stack_basic (s : MemoryStackState B) (address : H160) : Basic :=
  default (bk_basic (mss_backend s) address) (known_basic (mss_substate s) address).

Definition stack_code (s : MemoryStackState B) (address : H160) : bytes :=
  default (bk_code (mss_backend s) address) (known_code (mss_substate s) address).

Definition stack_storage (s : MemoryStackState B) (address : H160) (key : H256) : H256 :=
  default (bk_storage (mss_backend s) address key) (known_storage (mss_substate s) address key).

Definition stack_original_storage (s : MemoryStackState B) (address : H160) (key : H256) : option H256 :=
  match known_original_storage (mss_substate s) address with
  | Some value => Some value
  | None => bk_original_storage (mss_backend s) address key
  end.

Definition stack_is_empty (s : MemoryStackState B) (address : H160) : bool :=
  match known_empty (mss_substate s) address with
  | Some known => known
  | None =>
      (balance (bk_basic (mss_backend s) address) =? 0)
      && (nonce (bk_basic (mss_backend s) address) =? 0)
      && match bk_code (mss_backend s) address with [] => true | _ => false end
  end.

Definition stack_code_size (s : MemoryStackState B) (address : H160) : U256 :=
  Z.of_nat (length (stack_code s address)).

Definition stack_deconstruct (s : MemoryStackState B) : option (list Apply * list Log) :=
  Substate_deconstruct (mss_substate s) (mss_backend s).
End state.
