(* ===== verification/EvmSubstateProps.v ===== *)
(** * The substate stack: views, exits and effects

    What the reads of the executor see through the layers: leaving a layer by
    revert or discard gives back the view of its parent, leaving it by commit keeps
    the view of the child, except where the commit loses a storage reset.  The
    effects of the root layer, applied to the memory backend, give what the last
    reads of the transaction saw. *)

From S2P Require Import Prelude Types EvmConfig Backend EvmWord EvmCore EvmRuntime EvmGas EvmSubstate.
Local Open Scope Z_scope.
Local Open Scope chase_scope.

(** ** Slots of one address *)

Lemma address_storage_lookup storages a k : address_storage storages a !! k = storages !! (a, k).
Proof.
  unfold address_storage. set (l := omap _ _).
  assert (forall v, (k, v) ∈ l ↔ storages !! (a, k) = Some v) as Hin.
  { intros v. unfold l. rewrite list_elem_of_omap. split.
    - intros ([[a' k'] v'] & Hx & Hy). simpl in Hy. case_decide as Ha; [|done]. simplify_eq.
      by apply elem_of_map_to_list in Hx.
    - intros Hs. exists ((a, k), v). split; [by apply elem_of_map_to_list|]. simpl. by rewrite decide_True. }
  assert (NoDup l.*1) as Hnd.
  { unfold l. pose proof (NoDup_map_to_list storages) as Hm. pose proof (NoDup_fst_map_to_list storages) as Hf.
    clear Hin l Hm. induction (map_to_list storages) as [|[[a' k'] v'] r IH]; simpl; [constructor|].
    simpl in Hf. apply NoDup_cons in Hf as [Hn Hf]. specialize (IH Hf). case_decide as Ha; [|done]. simpl in *. subst a'.
    constructor; [|done]. intros Hk. apply Hn.
    apply list_elem_of_fmap in Hk as ([k2 v2] & -> & Hk). apply list_elem_of_omap in Hk as ([[a3 k3] v3] & Hx & Hy).
    simpl in Hy. case_decide; [|done]. simplify_eq. apply list_elem_of_fmap. by eexists; split; [|exact Hx]. }
  apply option_eq. intros v. rewrite <- Hin. symmetry. by apply elem_of_list_to_map.
Qed.

Lemma elem_of_btree_set_iter x X : x ∈ btree_set_iter X ↔ x ∈ X.
Proof. unfold btree_set_iter. by rewrite elem_of_sort_by_key, elem_of_elements. Qed.

Lemma NoDup_btree_set_iter X : NoDup (btree_set_iter X).
Proof. unfold btree_set_iter. rewrite sort_by_key_Permutation. apply NoDup_elements. Qed.

(** ** Leaving a layer *)

(** The contents of the layers, without the metadata. *)
Definition layer_data (l : Layer) := (ly_logs l, ly_accounts l, ly_storages l, ly_deletes l).

(** Two stacks of layers that no read tells apart. *)
Record same_view (ls ls' : list Layer) : Prop := {
  sv_account : forall a, layers_account ls a = layers_account ls' a;
  sv_storage : forall a k, layers_storage ls a k = layers_storage ls' a k
}.

Lemma same_data_view ls ls' : layer_data <$> ls = layer_data <$> ls' -> same_view ls ls'.
Proof.
  revert ls'. induction ls as [|l ls IH]; intros [|l' ls']; try done. intros [= El Ea Es Ed Hr].
  destruct (IH ls' Hr) as [Ha Hs]. split; intros a; simpl.
  - rewrite Ea. by destruct (ly_accounts l' !! a).
  - intros k. unfold layer_reset. rewrite Es, Ea. by rewrite Hs.
Qed.

(** Where the commit keeps the resets of the parent. *)
Definition keeps_resets (exited parent : Layer) : Prop :=
  forall a, is_Some (ly_accounts exited !! a) -> layer_reset parent a = true -> layer_reset exited a = true.

Lemma unreset_lookup exited parent a k :
  unreset_storages exited parent !! (a, k) = if layer_reset exited a then None else ly_storages parent !! (a, k).
Proof.
  unfold unreset_storages, layer_reset. rewrite map_lookup_filter.
  destruct (ly_storages parent !! (a, k)) as [v|]; simpl; [|by repeat case_match].
  destruct (ly_accounts exited !! a) as [[? ? []]|]; done.
Qed.

Lemma merge_layer_account exited parent ls a :
  layers_account (merge_layer exited parent :: ls) a = layers_account (exited :: parent :: ls) a.
Proof.
  simpl. rewrite lookup_union. destruct (ly_accounts exited !! a), (ly_accounts parent !! a); done.
Qed.

Lemma merge_layer_storage exited parent ls a k :
  (is_Some (ly_accounts exited !! a) -> layer_reset parent a = true -> layer_reset exited a = true) ->
  layers_storage (merge_layer exited parent :: ls) a k = layers_storage (exited :: parent :: ls) a k.
Proof.
  intros Hr. simpl. rewrite lookup_union, unreset_lookup.
  destruct (ly_storages exited !! (a, k)) as [v|]; simpl; [by rewrite union_Some_l|].
  destruct (layer_reset exited a) eqn:Ere.
  { rewrite (left_id_L None (∪)). unfold layer_reset in *. simpl. rewrite lookup_union.
    destruct (ly_accounts exited !! a) as [acc|]; [|done]. rewrite union_Some_l. by rewrite Ere. }
  rewrite (left_id_L None (∪)). destruct (ly_storages parent !! (a, k)); [done|].
  replace (layer_reset (merge_layer exited parent) a) with (layer_reset parent a); [done|].
  unfold layer_reset at 2. simpl. rewrite lookup_union. destruct (ly_accounts exited !! a) as [acc|] eqn:Ea.
  - rewrite union_Some_l. unfold layer_reset in Ere. rewrite Ea in Ere. rewrite Ere.
    destruct (layer_reset parent a) eqn:Ep; [|done]. specialize (Hr ltac:(eauto) eq_refl). congruence.
  - by rewrite (left_id_L None (∪)).
Qed.

(** ** Effects *)

(** The state after the modifications, account by account. *)
Lemma fold_modify_lookup (f : H160 -> Apply) (upd : H160 -> MemoryAccount -> MemoryAccount) l state a :
  NoDup l ->
  (forall x st, apply_one false st (f x) = <[x := upd x (default MemoryAccount_default (st !! x))]> st) ->
  foldl (apply_one false) state (f <$> l) !! a =
  if decide (a ∈ l) then Some (upd a (default MemoryAccount_default (state !! a))) else state !! a.
Proof.
  intros Hnd Hf. revert state. induction Hnd as [|x l Hx _ IH]; intros state; simpl.
  { done. }
  rewrite IH, Hf. destruct (decide (a = x)) as [->|Hne].
  - rewrite decide_False by done. rewrite decide_True by constructor. by rewrite lookup_insert_eq.
  - rewrite lookup_insert_ne by done. destruct (decide (a ∈ l)).
    + by rewrite decide_True by (by constructor).
    + rewrite decide_False; [done|]. by intros [|]%elem_of_cons.
Qed.

Lemma fold_delete_lookup l state a :
  foldl (apply_one false) state (Delete <$> l) !! a = if decide (a ∈ l) then None else state !! a.
Proof.
  revert state. induction l as [|x l IH]; intros state; simpl.
  { done. }
  rewrite IH. destruct (decide (a = x)) as [->|Hne].
  - rewrite (decide_True (P := x ∈ x :: l)) by constructor. case_decide; [done|]. by rewrite lookup_delete_eq.
  - rewrite lookup_delete_ne by done. destruct (decide (a ∈ l)).
    + by rewrite decide_True by (by constructor).
    + rewrite decide_False; [done|]. by intros [|]%elem_of_cons.
Qed.

(** The account a modification of the substate leaves. *)
Definition modified (s : MemoryStackSubstate) (b : MemoryBackend) (a : H160) (acc : MemoryAccount) : MemoryAccount :=
  let account := account_of s b a in
  modify_account acc (sa_basic account) (sa_code account) (address_storage (ly_storages (ss_top s)) a) (sa_reset account).

Lemma deconstruct_lookup s (b : MemoryBackend) effects logs a :
  Substate_deconstruct s b = Some (effects, logs) ->
  mb_state (MemoryBackend_apply b effects false) !! a =
  if decide (a ∈ ly_deletes (ss_top s)) then None
  else if decide (a ∈ touched_addresses (ss_top s))
       then Some (modified s b a (default MemoryAccount_default (mb_state b !! a)))
       else mb_state b !! a.
Proof.
  unfold Substate_deconstruct. destruct (ss_parents s); [|done]. intros [= <- <-].
  unfold MemoryBackend_apply. simpl. rewrite foldl_app, fold_delete_lookup.
  rewrite (fold_modify_lookup _ (modified s b)); [|apply NoDup_filter, NoDup_btree_set_iter|].
  - repeat case_decide; rewrite ?list_elem_of_filter, ?elem_of_btree_set_iter in *; done || naive_solver.
  - intros x st. unfold modify_effect, modified. simpl. by rewrite andb_false_r.
Qed.

Lemma untouched_known s a :
  ss_parents s = [] -> a ∉ touched_addresses (ss_top s) ->
  known_account s a = None ∧ forall k, known_storage s a k = None.
Proof.
  intros Hp Ht. unfold touched_addresses in Ht. apply not_elem_of_union in Ht as [Ha Hs].
  apply not_elem_of_dom in Ha. unfold known_account, known_storage, ss_layers. rewrite Hp. simpl. rewrite Ha.
  split; [done|]. intros k. unfold layer_reset. rewrite Ha.
  destruct (ly_storages (ss_top s) !! (a, k)) eqn:E; [|done]. destruct Hs.
  apply elem_of_map. exists (a, k). split; [done|]. by apply elem_of_dom.
Qed.

Lemma modified_reads s (b : MemoryBackend) a acc :
  ss_parents s = [] -> acc = default MemoryAccount_default (mb_state b !! a) ->
  let st := mkStackState b s in
  mkBasic (acc_balance (modified s b a acc)) (acc_nonce (modified s b a acc)) = stack_basic st a ∧
  acc_code (modified s b a acc) = stack_code st a ∧
  forall k, default 0 (acc_storage (modified s b a acc) !! k) = stack_storage st a k.
Proof.
  intros Hp ->. unfold modified, stack_basic, stack_code, stack_storage, known_basic, known_code, known_account,
    known_storage, account_of, known_account, ss_layers. cbv zeta.
  cbn [mss_substate mss_backend]. rewrite Hp. cbn [layers_account layers_storage].
  assert (MemoryBackend_code b a = acc_code (default MemoryAccount_default (mb_state b !! a))) as Hc.
  { unfold MemoryBackend_code. by destruct (mb_state b !! a). }
  assert (forall k, MemoryBackend_storage b a k =
    default 0 (acc_storage (default MemoryAccount_default (mb_state b !! a)) !! k)) as Hs.
  { intros k. unfold MemoryBackend_storage. by destruct (mb_state b !! a). }
  unfold layer_reset. destruct (ly_accounts (ss_top s) !! a) as [account|]; cbn; split_and!.
  - by destruct (sa_basic account).
  - destruct (sa_code account); [done|]. cbn. by rewrite <- Hc.
  - intros k. etrans; [exact (modify_account_storage _ (sa_basic account) (sa_code account) _ _ k)|].
    rewrite address_storage_lookup. destruct (ly_storages (ss_top s) !! (a, k)); [done|]. destruct (sa_reset account); [done|]. by rewrite <- Hs.
  - by destruct (MemoryBackend_basic b a).
  - by rewrite <- Hc.
  - intros k. etrans; [exact (modify_account_storage _ (MemoryBackend_basic b a) None _ false k)|].
    rewrite address_storage_lookup. destruct (ly_storages (ss_top s) !! (a, k)); [done|]. by rewrite <- Hs.
Qed.

(** ** Theorems *)

(** C31. The effects of a transaction say what it saw: applied to the memory
    backend, an account the transaction deleted is gone, and every other account
    has the balance, nonce, code and storage that the last reads through the
    substate return. *)
Theorem deconstruct_correct s (b : MemoryBackend) effects logs :
  Substate_deconstruct s b = Some (effects, logs) ->
  let b' := MemoryBackend_apply b effects false in
  let st := mkStackState b s in
  forall a,
    if decide (a ∈ ly_deletes (ss_top s)) then MemoryBackend_exists b' a = false
    else MemoryBackend_basic b' a = stack_basic st a ∧ MemoryBackend_code b' a = stack_code st a ∧
      forall k, MemoryBackend_storage b' a k = stack_storage st a k.
Proof.
  intros Hd b' st a. pose proof (deconstruct_lookup s b effects logs a Hd) as Hl. fold b' in Hl.
  assert (ss_parents s = []) as Hp by (unfold Substate_deconstruct in Hd; by destruct (ss_parents s)).
  unfold MemoryBackend_exists, MemoryBackend_basic, MemoryBackend_code, MemoryBackend_storage. rewrite Hl.
  case_decide; [done|]. destruct (decide (a ∈ touched_addresses (ss_top s))) as [|Ht].
  - destruct (modified_reads s b a _ Hp eq_refl) as (Hb & Hc & Hs). done.
  - destruct (untouched_known s a Hp Ht) as [Ha Hs].
    unfold st, stack_basic, stack_code, stack_storage, known_basic, known_code. cbn [mss_substate]. rewrite Ha.
    split_and!; [done..|]. intros k. by rewrite Hs.
Qed.

(** Leaving a call by revert or discard gives the caller back the view it
    had, its logs and its deletions; leaving it by commit keeps the view of the
    call, provided no account of the call hides a storage reset of the caller. *)
Theorem exit_keeps_view s s' r :
  (exit_revert s = Some (s', r) ∨ exit_discard s = Some (s', r) ->
     layer_data <$> ss_layers s' = layer_data <$> ss_parents s ∧ same_view (ss_layers s') (ss_parents s)) ∧
  (exit_commit s = Some (s', Ok tt) -> Forall (keeps_resets (ss_top s)) (take 1 (ss_parents s)) ->
     same_view (ss_layers s') (ss_layers s)).
Proof.
  split.
  - intros Hx. assert (layer_data <$> ss_layers s' = layer_data <$> ss_parents s) as Hd.
    { unfold exit_revert, exit_discard in Hx. destruct (ss_parents s) as [|p rest]; [by destruct Hx|].
      destruct (swallow_revert _ _) as [md r']. destruct Hx as [[= <- _]|[= <- _]]; done. }
    split; [done|by apply same_data_view].
  - unfold exit_commit, ss_layers at 2. destruct (ss_parents s) as [|p rest]; [done|].
    destruct (swallow_commit _ _) as [md [[]|er]]; [|done]. intros [= <-] Hr. apply Forall_cons in Hr as [Hr _].
    split.
    + intros a. exact (merge_layer_account (ss_top s) (set_metadata md p) rest a).
    + intros a k. exact (merge_layer_storage (ss_top s) (set_metadata md p) rest a k (Hr a)).
Qed.

Lemma exit_keeps_view_witness :
  let md := Metadata_new 100000 istanbul in
  let b := mkMemoryBackend genesis_vicinity ∅ in
  let s := Substate_set_storage 7 0 1 (Substate_enter 5000 false (Substate_set_storage 7 0 9 (Substate_new md))) in
  (exists s' r, exit_revert s = Some (s', r) ∧ known_storage s' 7 0 = Some 9) ∧
  (exists s', exit_commit s = Some (s', Ok tt) ∧ known_storage s' 7 0 = Some 1).
Proof.
  intros md b s. split.
  - destruct (exit_revert s) as [[s' r]|] eqn:E; [|by vm_compute in E].
    exists s', r. split; [done|]. unfold known_storage.
    rewrite (sv_storage _ _ (proj2 (proj1 (exit_keeps_view s s' r) (or_introl E)))). done.
  - destruct (exit_commit s) as [[s' [[]|]]|] eqn:E; [|by vm_compute in E..].
    exists s'. split; [done|]. unfold known_storage.
    rewrite (sv_storage _ _ (proj2 (exit_keeps_view s s' (Ok tt)) E ltac:(repeat constructor; intros a [? Ha]; done))).
    done.
Defined.

(** A commit loses the storage reset of the account under creation: when the
    code that creates a contract makes a call that touches the contract, the
    committed call replaces the account by one without the reset mark.  The slots
    that read as zero before the call then read as the stale values below. *)
Theorem commit_loses_reset {B} `{EvmBackend B} s (b : B) a k gas is_static s' :
  let created := Substate_reset_storage a b s in
  exit_commit (Substate_touch a b (Substate_enter gas is_static created)) = Some (s', Ok tt) ->
  known_storage created a k = Some 0 ∧
  stack_storage (mkStackState b created) a k = 0 ∧
  known_storage s' a k = layers_storage (ss_parents s) a k ∧
  (ss_parents s = [] -> stack_storage (mkStackState b s') a k = bk_storage b a k).
Proof.
  cbv zeta. set (created := Substate_reset_storage a b s).
  assert (forall ls, layers_storage (ss_top created :: ls) a k = Some 0) as Hz.
  { intros ls. simpl. unfold layer_reset. simpl. rewrite lookup_insert_eq. simpl.
    destruct (filter _ _ !! (a, k)) eqn:E; [|done]. apply map_lookup_filter_Some in E as [_ E]. by simpl in E. }
  intros Hx.
  assert (known_storage s' a k = layers_storage (ss_parents s) a k) as Hk.
  { unfold exit_commit in Hx. cbn [ss_parents on_top Substate_touch account_mut Substate_enter ss_layers] in Hx.
    destruct (swallow_commit _ _) as [md [[]|]]; [|done]. injection Hx as <-. unfold known_storage.
    cbn [ss_layers ss_top ss_parents layers_storage]. unfold layer_reset. cbn.
    rewrite !lookup_union, lookup_insert_eq. cbn. rewrite lookup_empty, (left_id_L None (∪)).
    rewrite union_Some_l. assert (sa_reset (account_of (Substate_enter gas is_static created) b a) = false) as ->.
    { unfold account_of. cbn [Substate_enter ss_top Layer_new ly_accounts]. rewrite lookup_empty.
      by destruct (known_account _ a). }
    destruct (unreset_storages _ _ !! (a, k)) eqn:E; [|done].
    unfold unreset_storages in E. apply map_lookup_filter_Some in E as [E _]. cbn in E.
    apply map_lookup_filter_Some in E as [_ E]. by simpl in E. }
  split_and!; [apply Hz| |done|].
  - unfold stack_storage. cbn [mss_substate]. unfold known_storage, ss_layers. by rewrite Hz.
  - intros Hp. unfold stack_storage. cbn [mss_substate mss_backend]. rewrite Hk, Hp. done.
Qed.

Lemma commit_loses_reset_witness :
  let b := mkMemoryBackend genesis_vicinity {[7 := mkAccount 0 0 {[0 := 5]} []]} in
  let s := Substate_new (Metadata_new 100000 istanbul) in
  let created := Substate_reset_storage 7 b s in
  exists s', exit_commit (Substate_touch 7 b (Substate_enter 5000 false created)) = Some (s', Ok tt) ∧
    stack_storage (mkStackState b created) 7 0 = 0 ∧ stack_storage (mkStackState b s') 7 0 = 5.
Proof.
  intros b s created.
  destruct (exit_commit (Substate_touch 7 b (Substate_enter 5000 false created))) as [[s' [[]|]]|] eqn:E; [|by vm_compute in E..].
  exists s'. destruct (commit_loses_reset s b 7 0 5000 false s' E) as (_ & Hz & _ & Hs).
  split_and!; [done|exact Hz|]. rewrite (Hs eq_refl). done.
Defined.

Lemma deconstruct_correct_witness :
  let b := mkMemoryBackend genesis_vicinity {[7 := mkAccount 0 3 {[0 := 5]} []]} in
  let s := Substate_set_storage 7 1 6 (Substate_deposit 8 2 b (Substate_new (Metadata_new 100000 istanbul))) in
  exists effects logs, Substate_deconstruct s b = Some (effects, logs) ∧
    MemoryBackend_storage (MemoryBackend_apply b effects false) 7 1 = 6 ∧
    MemoryBackend_basic (MemoryBackend_apply b effects false) 8 = mkBasic 2 0.
Proof.
  intros b s. destruct (Substate_deconstruct s b) as [[effects logs]|] eqn:E; [|by vm_compute in E].
  exists effects, logs. split; [done|].
  pose proof (deconstruct_correct s b effects logs E) as Hd. cbv zeta in Hd.
  pose proof (Hd 7) as H7. pose proof (Hd 8) as H8. rewrite decide_False in H7 by (vm_compute; intros; discriminate).
  rewrite decide_False in H8 by done. destruct H7 as (_ & _ & H7). destruct H8 as (H8 & _).
  split; [rewrite H7; done|rewrite H8; done].
Defined.
