(* ===== verification/EvmExecutor.v ===== *)
(** * The stack executor

    src/crates/chase-evm/src/executor/stack/executor.rs ([StackExecutor]),
    precompile.rs and tagged_runtime.rs, and [EvmStorage::executor] of
    src/crates/sslab-execution/evm/src/evm_storage/evm_storage.rs.

    The executor is the handler of the runtimes it runs.  A nested call or
    creation suspends the running runtime; the executor keeps the suspended ones on
    a call stack, the innermost first, and a layer of the substate for each.  A
    simulating executor records the slots it reads and writes.

    The runs take fuel for the two nested loops; [Spinning] is the outcome when it
    is used up. *)

From S2P Require Import Prelude Bytes Types EvmConfig Backend EvmWord EvmCore EvmRuntime EvmGas EvmSubstate.
Local Open Scope Z_scope.
Local Open Scope chase_scope.

(** ** Tagged runtimes *)

Inductive RuntimeKind :=
| KindCreate (address : H160)
| KindCall (address : H160)
| KindExecute.

Record TaggedRuntime := mkTagged { tagged_kind : RuntimeKind; tagged_inner : Runtime }.

(** ** The executor *)

Record StackExecutor (B : Type) := mkExecutor {
  se_config : Config;
  se_state : MemoryStackState B;
  se_precompiles : gmap H160 PrecompileFn;
  se_rw_set : option RwSet
}.
Arguments mkExecutor {B} _ _ _ _.
Arguments se_config {B} _.
Arguments se_state {B} _.
Arguments se_precompiles {B} _.
Arguments se_rw_set {B} _.

Section executor.
Context {B : Type} `{EvmBackend B, Hashes}.

Abbreviation Exec := (StackExecutor B).

Definition new_with_precompiles (state : MemoryStackState B) (config : Config)
    (precompile_set : gmap H160 PrecompileFn) (simulation : bool) : Exec :=
  mkExecutor config state precompile_set (if simulation then Some RwSet_new else None).

(** [EvmStorage::executor] *)
Definition storage_executor (s : EvmStorage B) (gas_limit : Z) (simulation : bool) : Exec :=
  new_with_precompiles
    (StackState_new (Metadata_new gas_limit (chain_config s)) (backend s))
    (chain_config s) (precompiles s) simulation.

Definition se_backend (e : Exec) : B := mss_backend (se_state e).
Definition se_substate (e : Exec) : MemoryStackSubstate := mss_substate (se_state e).
Definition se_metadata (e : Exec) : StackSubstateMetadata := ss_metadata (se_substate e).
Definition se_gasometer (e : Exec) : Gasometer := md_gasometer (se_metadata e).

Definition set_substate (s : MemoryStackSubstate) (e : Exec) : Exec :=
  mkExecutor (se_config e) (mkStackState (se_backend e) s) (se_precompiles e) (se_rw_set e).

Definition set_rw_set (r : option RwSet) (e : Exec) : Exec :=
  mkExecutor (se_config e) (se_state e) (se_precompiles e) r.

Definition on_substate (f : MemoryStackSubstate -> MemoryStackSubstate) (e : Exec) : Exec :=
  set_substate (f (se_substate e)) e.

Definition try_substate {A} (f : MemoryStackSubstate -> MemoryStackSubstate * A) (e : Exec) : Exec * A :=
  let '(s, x) := f (se_substate e) in (set_substate s e, x).

Definition on_metadata (f : StackSubstateMetadata -> StackSubstateMetadata) (e : Exec) : Exec :=
  on_substate (metadata_mut f) e.

Definition on_gasometer {A} (f : Gasometer -> Gasometer * A) (e : Exec) : Exec * A :=
  let '(g, x) := f (se_gasometer e) in (on_metadata (set_gasometer g) e, x).

Definition gasometer_fail (e : Exec) : Exec := on_metadata (set_gasometer (Gasometer_fail (se_gasometer e))) e.

Definition enter_substate (gas_limit : Z) (is_static : bool) (e : Exec) : Exec :=
  on_substate (Substate_enter gas_limit is_static) e.

(** [None] is the panic on the root substate. *)
Definition exit_substate (kind : StackExitKind) (e : Exec) : option (Exec * Result unit ExitError) :=
  match (match kind with
         | ExitSucceeded => exit_commit
         | ExitReverted => exit_revert
         | ExitFailed => exit_discard
         end) (se_substate e) with
  | Some (s, r) => Some (set_substate s e, r)
  | None => None
  end.

(** [StackState::record_external_operation], the default method. *)
Definition record_external_operation (op : ExternalOperation) (e : Exec) : Exec * Result unit ExitError :=
  (e, Ok tt).

(** ** The handler's reads and updates *)

Definition se_balance (e : Exec) (address : H160) : U256 := balance (stack_basic (se_state e) address).
Definition se_nonce (e : Exec) (address : H160) : U256 := nonce (stack_basic (se_state e) address).

Definition se_exists (e : Exec) (address : H160) : bool :=
  if cfg_empty_considered_exists (se_config e) then stack_exists (se_state e) address
  else stack_exists (se_state e) address && negb (stack_is_empty (se_state e) address).

Definition se_code_hash (e : Exec) (address : H160) : H256 :=
  if se_exists e address then keccak256 (stack_code (se_state e) address) else 0.

Definition note_read (address : H160) (index value : H256) (e : Exec) : Exec :=
  set_rw_set ((fun rw => record_read_key rw address index value) <$> se_rw_set e) e.

Definition note_write (address : H160) (index value : H256) (e : Exec) : Exec :=
  set_rw_set ((fun rw => record_write_key rw address index value) <$> se_rw_set e) e.

Definition se_storage (address : H160) (index : H256) (e : Exec) : Exec * Result H256 ExitError :=
  let value := stack_storage (se_state e) address index in
  (note_read address index value e, Ok value).

Definition se_original_storage (address : H160) (index : H256) (e : Exec) : Exec * Result H256 ExitError :=
  let value := default 0 (stack_original_storage (se_state e) address index) in
  (note_read address index value e, Ok value).

(** [BTreeMap::is_precompile] *)
Definition is_precompile (e : Exec) (address : H160) : bool :=
  bool_decide (is_Some (se_precompiles e !! address)).

Definition se_is_cold (address : H160) (maybe_index : option H256) (e : Exec) : Exec * Result bool ExitError :=
  match maybe_index with
  | None =>
      match on_gasometer (record_cost 0) e with
      | (e, Err er) => (e, Err er)
      | (e, Ok _) =>
          (e, Ok (negb (is_precompile e address) && Substate_is_cold (se_substate e) address))
      end
  | Some index => (e, Ok (Substate_is_storage_cold (se_substate e) address index))
  end.

Definition se_set_storage (address : H160) (index value : H256) (e : Exec) : Exec * Result unit ExitError :=
  (note_write address index value (on_substate (Substate_set_storage address index value) e), Ok tt).

Definition se_log (address : H160) (topics : list H256) (data : bytes) (e : Exec) :
    Exec * Result unit ExitError :=
  (on_substate (Substate_log address topics data) e, Ok tt).

Definition se_transfer (t : Transfer) (e : Exec) : Exec * Result unit ExitError :=
  try_substate (Substate_transfer t (se_backend e)) e.

Definition se_inc_nonce (address : H160) (e : Exec) : Exec * Result unit ExitError :=
  try_substate (Substate_inc_nonce address (se_backend e)) e.

Definition se_mark_delete (address target : H160) (e : Exec) : Exec * Result unit ExitError :=
  let balance := se_balance e address in
  match se_transfer (mkTransfer address target balance) e with
  | (e, Err er) => (e, Err er)
  | (e, Ok _) =>
      (on_substate (fun s =>
         Substate_set_deleted address (Substate_reset_balance address (se_backend e) s)) e, Ok tt)
  end.

#[global] Instance StackExecutor_ops : HandlerOps Exec := {
  h_balance := se_balance;
  h_code_size e := stack_code_size (se_state e);
  h_code_hash := se_code_hash;
  h_code e := stack_code (se_state e);
  h_storage := se_storage;
  h_original_storage := se_original_storage;
  h_gas_left e := Gasometer_gas (se_gasometer e);
  h_gas_price e := bk_gas_price (se_backend e);
  h_origin e := bk_origin (se_backend e);
  h_block_hash e := bk_block_hash (se_backend e);
  h_block_number e := bk_block_number (se_backend e);
  h_block_coinbase e := bk_block_coinbase (se_backend e);
  h_block_timestamp e := bk_block_timestamp (se_backend e);
  h_block_difficulty e := bk_block_difficulty (se_backend e);
  h_block_randomness e := bk_block_randomness (se_backend e);
  h_block_gas_limit e := bk_block_gas_limit (se_backend e);
  h_block_base_fee_per_gas e := bk_block_base_fee_per_gas (se_backend e);
  h_chain_id e := bk_chain_id (se_backend e);
  h_exists := se_exists;
  h_deleted e := Substate_deleted (se_substate e);
  h_is_cold := se_is_cold;
  h_set_storage := se_set_storage;
  h_log := se_log;
  h_mark_delete := se_mark_delete;
  h_record_external_operation := record_external_operation
}.

(** ** Nested calls and creations

    A computation returns early with the result of a call that does not run. *)

Abbreviation ExecM := (EM (StackExecutor B)).

Definition infallible {E A} (f : Exec -> Exec * A) : ExecM E A := fun e =>
  let '(e', x) := f e in Some (e', Ok x).

(** [try_or_fail!] with the result the error gives. *)
Definition step_or {E A} (f : Exec -> Exec * Result A ExitError) (ret : ExitError -> E) : ExecM E A := fun e =>
  let '(e', r) := f e in
  match r with
  | Ok x => Some (e', Ok x)
  | Err er => Some (e', Err (ret er))
  end.

(** Leaves the substate, ignoring its result, and returns. *)
Definition leave {E A} (kind : StackExitKind) (ret : E) : ExecM E A := fun e =>
  match exit_substate kind e with
  | Some (e', _) => Some (e', Err ret)
  | None => None
  end.

(** On an error the substate is left before returning. *)
Definition step_or_leave {E A} (f : Exec -> Exec * Result A ExitError) (kind : StackExitKind)
    (ret : ExitError -> E) : ExecM E A := fun e =>
  let '(e', r) := f e in
  match r with
  | Ok x => Some (e', Ok x)
  | Err er => leave kind (ret er) e'
  end.

Definition to_capture {E T} (r : option (Exec * Result T E)) : option (Exec * Capture E T) :=
  match r with
  | Some (e, Ok t) => Some (e, CaptureTrap t)
  | Some (e, Err x) => Some (e, CaptureExit x)
  | None => None
  end.

Definition l64 (gas : Z) : Z := gas -u64 gas / 64.

(** The gas a nested call may take. *)
Definition compute_after_gas {E} (take_l64 : bool) (ret : ExitError -> E) : ExecM E Z :=
  e ← em_get;
  if take_l64 && cfg_call_l64_after_gas (se_config e) then
    if cfg_estimate (se_config e) then
      let initial_after_gas := Gasometer_gas (se_gasometer e) in
      let diff := initial_after_gas -u64 l64 initial_after_gas in
      _ ← step_or (on_gasometer (record_cost diff)) ret;
      e ← em_get;
      mret (Gasometer_gas (se_gasometer e))
    else mret (l64 (Gasometer_gas (se_gasometer e)))
  else mret (Gasometer_gas (se_gasometer e)).

Definition too_deep (e : Exec) : bool :=
  match md_depth (se_metadata e) with
  | Some depth => cfg_call_stack_limit (se_config e) <? depth
  | None => false
  end.

Definition create_address (e : Exec) (scheme : CreateScheme) : H160 :=
  match scheme with
  | SchemeCreate2 caller code_hash salt =>
      H160_from (keccak256 ([0xff] ++ be_bytes 20 caller ++ be_bytes 32 salt ++ be_bytes 32 code_hash))
  | SchemeLegacy caller => H160_from (keccak256 (rlp_address_nonce caller (se_nonce e caller)))
  | SchemeFixed naddress => naddress
  end.

Definition create_inner (caller : H160) (scheme : CreateScheme) (value : U256) (init_code : bytes)
    (target_gas : option Z) (take_l64 : bool) : ExecM (ExitReason * option H160 * bytes) TaggedRuntime :=
  let fail (er : ExitError) := (ExitReasonError er, @None H160, @nil Z) in
  e ← em_get;
  let address := create_address e scheme in
  _ ← em_modify (on_metadata (access_address caller));
  _ ← em_modify (on_metadata (access_address address));
  e ← em_get;
  if too_deep e then em_fail (fail CallTooDeep)
  else if se_balance e caller <? value then em_fail (fail OutOfFund)
  else
    _ ← step_or (record_external_operation AccountBasicRead) fail;
    _ ← step_or (se_inc_nonce caller) fail;
    after_gas ← compute_after_gas take_l64 fail;
    let target_gas := default after_gas target_gas in
    let gas_limit := Z.min after_gas target_gas in
    _ ← step_or (on_gasometer (record_cost gas_limit)) fail;
    _ ← em_modify (enter_substate gas_limit false);
    _ ← step_or_leave (record_external_operation (AddressCodeRead address)) ExitFailed fail;
    e ← em_get;
    if negb (stack_code_size (se_state e) address =? 0) then leave ExitFailed (fail CreateCollision)
    else if 0 <? se_nonce e address then leave ExitFailed (fail CreateCollision)
    else
      _ ← em_modify (on_substate (Substate_reset_storage address (se_backend e)));
      _ ← step_or_leave (se_transfer (mkTransfer caller address value)) ExitReverted fail;
      e ← em_get;
      _ ← (if cfg_create_increase_nonce (se_config e) then
             _ ← step_or_leave (record_external_operation AccountBasicRead) ExitFailed fail;
             step_or (se_inc_nonce address) fail
           else mret tt);
      mret (mkTagged (KindCreate address)
              (Runtime_new init_code [] (mkContext address caller value)
                 (cfg_stack_limit (se_config e)) (cfg_memory_limit (se_config e)))).

(** [PrecompileSet::execute] of a map of functions. *)
Definition precompile_execute (code_address : H160) (input : bytes) (gas_limit : Z) (context : Context)
    (is_static : bool) (e : Exec) : Exec * option (Result PrecompileOutput PrecompileFailure) :=
  match se_precompiles e !! code_address with
  | None => (e, None)
  | Some precompile =>
      match precompile input (Some gas_limit) context is_static with
      | Ok (output, cost) =>
          match on_gasometer (record_cost cost) e with
          | (e, Ok _) => (e, Some (Ok output))
          | (e, Err er) => (e, Some (Err (PrecompileError er)))
          end
      | Err err => (e, Some (Err err))
      end
  end.

Definition call_gas_limit (config : Config) (transfer : option Transfer) (take_stipend : bool)
    (gas_limit : Z) : Z :=
  match transfer with
  | Some t =>
      if take_stipend && negb (tr_value t =? 0)
      then u64_saturating_add gas_limit (cfg_call_stipend config) else gas_limit
  | None => gas_limit
  end.

(** The result of a precompile ends the call. *)
Definition precompile_result {A} (result : Result PrecompileOutput PrecompileFailure) :
    ExecM (ExitReason * bytes) A :=
  match result with
  | Ok out => leave ExitSucceeded (Succeed (po_exit_status out), po_output out)
  | Err (PrecompileError exit_status) => leave ExitFailed (ExitReasonError exit_status, [])
  | Err (PrecompileRevert exit_status output) => leave ExitReverted (Revert exit_status, output)
  | Err (PrecompileFatal exit_status) =>
      _ ← em_modify gasometer_fail; leave ExitFailed (Fatal exit_status, [])
  end.

Definition call_inner (code_address : H160) (transfer : option Transfer) (input : bytes)
    (target_gas : option Z) (is_static take_l64 take_stipend : bool) (context : Context) :
    ExecM (ExitReason * bytes) TaggedRuntime :=
  let fail (er : ExitError) := (ExitReasonError er, @nil Z) in
  after_gas ← compute_after_gas take_l64 fail;
  let target_gas := default after_gas target_gas in
  let gas_limit := Z.min target_gas after_gas in
  _ ← step_or (on_gasometer (record_cost gas_limit)) fail;
  e ← em_get;
  let gas_limit := call_gas_limit (se_config e) transfer take_stipend gas_limit in
  _ ← em_modify (enter_substate gas_limit is_static);
  _ ← em_modify (on_substate (Substate_touch (ctx_address context) (se_backend e)));
  _ ← step_or_leave (record_external_operation (AddressCodeRead code_address)) ExitFailed fail;
  e ← em_get;
  let code := stack_code (se_state e) code_address in
  if too_deep e then leave ExitReverted (fail CallTooDeep)
  else
    _ ← match transfer with
        | Some t =>
            _ ← step_or_leave (record_external_operation AccountBasicRead) ExitFailed fail;
            step_or_leave (se_transfer t) ExitReverted fail
        | None => mret tt
        end;
    e ← em_get;
    let precompile_is_static := md_is_static (se_metadata e) in
    result ← infallible (precompile_execute code_address input gas_limit context precompile_is_static);
    match result with
    | Some result => precompile_result result
    | None =>
        mret (mkTagged (KindCall code_address)
                (Runtime_new code input context
                   (cfg_stack_limit (se_config e)) (cfg_memory_limit (se_config e))))
    end.

Definition check_first_byte (config : Config) (code : bytes) : Result unit ExitError :=
  if cfg_disallow_executable_format config
     && match code with b :: _ => b =? Opcode.EOFMAGIC | [] => false end
  then Err (InvalidCode Opcode.EOFMAGIC) else Ok tt.

(** A creation that fails on the way out: out of gas, and the substate dropped. *)
Definition fail_create {A} (ret : A) (e : Exec) : option (Exec * A) :=
  match exit_substate ExitFailed (gasometer_fail e) with
  | Some (e', _) => Some (e', ret)
  | None => None
  end.

Definition exceeds (limit : option Z) (n : Z) : bool :=
  match limit with Some l => l <? n | None => false end.

Definition cleanup_for_create (created_address : H160) (reason : ExitReason) (return_data : bytes)
    (e : Exec) : option (Exec * (ExitReason * option H160 * bytes)) :=
  match reason with
  | Succeed s =>
      match check_first_byte (se_config e) return_data with
      | Err er => fail_create (ExitReasonError er, None, []) e
      | Ok _ =>
          if exceeds (cfg_create_contract_limit (se_config e)) (Z.of_nat (length return_data))
          then fail_create (ExitReasonError CreateContractLimit, None, []) e
          else
            match on_gasometer (record_deposit (Z.of_nat (length return_data))) e with
            | (e, Ok _) =>
                match exit_substate ExitSucceeded e with
                | None => None
                | Some (e, exit_result) =>
                    match record_external_operation WriteOperation e with
                    | (e, Err er) => Some (e, (ExitReasonError er, None, []))
                    | (e, Ok _) =>
                        let e := on_substate (Substate_set_code created_address return_data (se_backend e)) e in
                        match exit_result with
                        | Err er => Some (e, (ExitReasonError er, None, []))
                        | Ok _ => Some (e, (Succeed s, Some created_address, []))
                        end
                    end
                end
            | (e, Err er) =>
                match exit_substate ExitFailed e with
                | Some (e', _) => Some (e', (ExitReasonError er, None, []))
                | None => None
                end
            end
      end
  | ExitReasonError er => fail_create (ExitReasonError er, None, []) e
  | Revert r =>
      match exit_substate ExitReverted e with
      | Some (e', _) => Some (e', (Revert r, None, return_data))
      | None => None
      end
  | Fatal f => fail_create (Fatal f, None, []) e
  end.

Definition cleanup_for_call (code_address : H160) (reason : ExitReason) (return_data : bytes) (e : Exec) :
    option (Exec * bytes) :=
  match reason with
  | Succeed _ =>
      match exit_substate ExitSucceeded e with Some (e', _) => Some (e', return_data) | None => None end
  | ExitReasonError _ =>
      match exit_substate ExitFailed e with Some (e', _) => Some (e', []) | None => None end
  | Revert _ =>
      match exit_substate ExitReverted e with Some (e', _) => Some (e', return_data) | None => None end
  | Fatal _ => fail_create [] e
  end.

(** ** The handler *)

Definition maybe_record_init_code_cost (init_code : bytes) (e : Exec) : Exec * Result unit ExitError :=
  match cfg_max_initcode_size (se_config e) with
  | Some limit =>
      if limit <? Z.of_nat (length init_code) then (gasometer_fail e, Err CreateContractLimit)
      else on_gasometer (record_cost (init_code_cost init_code)) e
  | None => (e, Ok tt)
  end.

Definition se_create (caller : H160) (scheme : CreateScheme) (value : U256) (init_code : bytes)
    (target_gas : option Z) (e : Exec) :
    option (Exec * Capture (ExitReason * option H160 * bytes) TaggedRuntime) :=
  match maybe_record_init_code_cost init_code e with
  | (e, Err er) => Some (e, CaptureExit (ExitReasonError er, None, []))
  | (e, Ok _) => to_capture (create_inner caller scheme value init_code target_gas true e)
  end.

Definition se_call (code_address : H160) (transfer : option Transfer) (input : bytes)
    (target_gas : option Z) (is_static : bool) (context : Context) (e : Exec) :
    option (Exec * Capture (ExitReason * bytes) TaggedRuntime) :=
  to_capture (call_inner code_address transfer input target_gas is_static true true context e).

(** [gasometer.record_dynamic_cost(..)?] *)
Definition charge_dynamic (cost : GasCost) (memory : option MemoryCost) : ExecM ExitError unit := fun e =>
  match record_dynamic_cost cost memory (se_gasometer e) with
  | None => None
  | Some (g, r) => Some (on_metadata (set_gasometer g) e, r)
  end.

Definition access_target (target : StorageTarget) (e : Exec) : Exec :=
  match target with
  | TargetAddress address => on_metadata (access_address address) e
  | TargetSlot address key => on_metadata (access_storage address key) e
  | TargetNone => e
  end.

Definition se_pre_validate (context : Context) (opcode : Z) (stack : Stack) (e : Exec) :
    option (Exec * Result unit ExitError) :=
  match static_opcode_cost opcode with
  | Some cost => Some (on_gasometer (record_cost cost) e)
  | None =>
      (e ← em_get;
       r ← dynamic_opcode_cost (ctx_address context) opcode stack (md_is_static (se_metadata e)) (se_config e);
       _ ← charge_dynamic r.1.1 r.2;
       em_modify (access_target r.1.2)) e
  end.

#[global] Instance StackExecutor_Handler : Handler Exec TaggedRuntime := {
  h_create := se_create;
  h_call := se_call;
  h_pre_validate := se_pre_validate
}.

(** ** The call stack *)

(** The runtime on top has exited: its substate is left. *)
Definition cleanup (kind : RuntimeKind) (reason : ExitReason) (value : bytes) (e : Exec) :
    option (Exec * (ExitReason * option H160 * bytes)) :=
  match kind with
  | KindCreate created_address => cleanup_for_create created_address reason value e
  | KindCall code_address =>
      match cleanup_for_call code_address reason value e with
      | Some (e, return_data) => Some (e, (reason, None, return_data))
      | None => None
      end
  | KindExecute => Some (e, (reason, None, value))
  end.

(** The result is passed on to the runtime below. *)
Definition resume (kind : RuntimeKind) (result : ExitReason * option H160 * bytes) : RuntimeM unit :=
  let '(reason, maybe_address, return_data) := result in
  match kind with
  | KindCreate _ => finish_create reason maybe_address return_data
  | KindCall _ | KindExecute => Runtime_finish_call reason return_data
  end.

(** What the executor does with the call stack after a runtime has exited. *)
Inductive Handover :=
| Unwound (result : ExitReason * option H160 * bytes)
| Resumed (call_stack : list TaggedRuntime).

Definition hand_over (frame : TaggedRuntime) (reason : ExitReason) (rest : list TaggedRuntime) (e : Exec) :
    option (Exec * Handover) :=
  value ← return_value (rt_machine (tagged_inner frame));
  r ← cleanup (tagged_kind frame) reason value e;
  let '(e, result) := r in
  match rest with
  | [] => Some (e, Unwound (result.1.1, None, result.2))
  | parent :: rest' =>
      r ← resume (tagged_kind frame) result (tagged_inner parent);
      match r with
      | (_, Err reason) => Some (e, Unwound (reason, None, []))
      | (inner, Ok _) => Some (e, Resumed (mkTagged (tagged_kind parent) inner :: rest'))
      end
  end.

Fixpoint execute_with_call_stack (fuel : nat) (call_stack : list TaggedRuntime) (e : Exec) :
    Run (Exec * (ExitReason * option H160 * bytes)) :=
  match fuel with
  | O => Spinning
  | S fuel' =>
      match call_stack with
      | [] => Finished (e, (Fatal UnhandledInterrupt, None, []))
      | runtime :: rest =>
          match Runtime_run fuel (tagged_inner runtime) e with
          | Panicked => Panicked
          | Spinning => Spinning
          | Finished (inner, e, CaptureTrap (ResolveCall interrupt))
          | Finished (inner, e, CaptureTrap (ResolveCreate interrupt)) =>
              execute_with_call_stack fuel'
                (interrupt :: mkTagged (tagged_kind runtime) inner :: rest) e
          | Finished (inner, e, CaptureExit reason) =>
              match hand_over (mkTagged (tagged_kind runtime) inner) reason rest e with
              | None => Panicked
              | Some (e, Unwound result) => Finished (e, result)
              | Some (e, Resumed call_stack) => execute_with_call_stack fuel' call_stack e
              end
          end
      end
  end.

Definition se_execute (fuel : nat) (runtime : Runtime) (e : Exec) : Run (Exec * ExitReason) :=
  r ← execute_with_call_stack fuel [mkTagged KindExecute runtime] e;
  mret (r.1, r.2.1.1).

(** ** Transactions *)

Definition initialize_with_access_list (access_list : list (H160 * list H256)) (e : Exec) : Exec :=
  on_metadata (access_storages
      (concat ((fun item : H160 * list H256 => (fun key => (item.1, key)) <$> item.2) <$> access_list)))
    (on_metadata (access_addresses (fst <$> access_list)) e).

Definition record_create_transaction_cost (init_code : bytes) (access_list : list (H160 * list H256))
    (e : Exec) : Exec * Result unit ExitError :=
  on_gasometer (record_transaction (create_transaction_cost init_code access_list)) e.

(** Runs what the first call or creation of a transaction leaves to run. *)
Definition run_first {R} (fuel : nat) (r : option (Exec * Capture R TaggedRuntime))
    (get : R -> ExitReason * bytes) : Run (Exec * (ExitReason * bytes)) :=
  match r with
  | None => Panicked
  | Some (e, CaptureExit x) => Finished (e, get x)
  | Some (e, CaptureTrap rt) =>
      r ← execute_with_call_stack fuel [rt] e;
      mret (r.1, (r.2.1.1, r.2.2))
  end.

Definition create_with (fuel : nat) (caller : H160) (scheme : CreateScheme) (value : U256)
    (init_code : bytes) (gas_limit : Z) (access_list : list (H160 * list H256)) (e : Exec) :
    Run (Exec * (ExitReason * bytes)) :=
  if exceeds (cfg_max_initcode_size (se_config e)) (Z.of_nat (length init_code))
  then Finished (gasometer_fail e, (ExitReasonError CreateContractLimit, []))
  else
    match record_create_transaction_cost init_code access_list e with
    | (e, Err er) => Finished (e, (ExitReasonError er, []))
    | (e, Ok _) =>
        let e := initialize_with_access_list access_list e in
        run_first fuel (to_capture (create_inner caller scheme value init_code (Some gas_limit) false e))
          (fun x => (x.1.1, x.2))
    end.

Definition se_transact_create (fuel : nat) (caller : H160) (value : U256) (init_code : bytes) (gas_limit : Z)
    (access_list : list (H160 * list H256)) (e : Exec) : Run (Exec * (ExitReason * bytes)) :=
  create_with fuel caller (SchemeLegacy caller) value init_code gas_limit access_list e.

Definition se_transact_create2 (fuel : nat) (caller : H160) (value : U256) (init_code : bytes) (salt : H256)
    (gas_limit : Z) (access_list : list (H160 * list H256)) (e : Exec) : Run (Exec * (ExitReason * bytes)) :=
  create_with fuel caller (SchemeCreate2 caller (keccak256 init_code) salt) value init_code gas_limit
    access_list e.

(** The addresses a call transaction starts with as accessed (EIP-2929, EIP-3651). *)
Definition warm_initial (caller address : H160) (access_list : list (H160 * list H256)) (e : Exec) : Exec :=
  if cfg_increase_state_access_gas (se_config e) then
    let addresses :=
      if cfg_warm_coinbase_address (se_config e)
      then [caller; address; bk_block_coinbase (se_backend e)] else [caller; address] in
    initialize_with_access_list access_list (on_metadata (access_addresses addresses) e)
  else e.

Definition se_transact_call (fuel : nat) (caller address : H160) (value : U256) (data : bytes) (gas_limit : Z)
    (access_list : list (H160 * list H256)) (e : Exec) : Run (Exec * (ExitReason * bytes)) :=
  match on_gasometer (record_transaction (call_transaction_cost data access_list)) e with
  | (e, Err er) => Finished (e, (ExitReasonError er, []))
  | (e, Ok _) =>
      let e := warm_initial caller address access_list e in
      match record_external_operation AccountBasicRead e with
      | (e, Err er) => Finished (e, (ExitReasonError er, []))
      | (e, Ok _) =>
          match se_inc_nonce caller e with
          | (e, Err er) => Finished (e, (ExitReasonError er, []))
          | (e, Ok _) =>
              run_first fuel
                (to_capture (call_inner address (Some (mkTransfer caller address value)) data
                   (Some gas_limit) false false false (mkContext address caller value) e))
                (fun x => x)
          end
      end
  end.

(** A negative refund is cast to a large [u64]. *)
Definition used_gas (e : Exec) : Z :=
  let total := total_used_gas (se_gasometer e) in
  total -u64 Z.min (total / cfg_max_refund_quotient (se_config e))
               (refunded_gas (se_gasometer e) mod u64_modulus).

Definition fee (e : Exec) (price : U256) : U256 := Z.min U256_MAX (used_gas e * price).
End executor.
