(* ===== verification/EvmExecutorProps.v ===== *)
(** * Safety and termination of the stack executor

    [exec_inv] is the invariant of an executor: every layer holds words and bytes
    and a well-formed gasometer, every open call has been paid for by its caller,
    and every slot a layer holds is in the recorded write set.  The executor
    satisfies the laws the runtime relies on ([StackExecutor_laws]), so the
    soundness of the runtime applies to it.  A transaction therefore terminates,
    does not panic, and leaves a single layer when it succeeds. *)

From S2P Require Import Prelude Bytes Types EvmConfig Backend EvmWord EvmCore.
From S2P Require Import EvmCoreProps EvmRuntime EvmGas EvmGasProps EvmRuntimeProps EvmSubstate EvmExecutor.
Local Open Scope Z_scope.
Local Open Scope chase_scope.

(** ** Invariants *)

Definition basic_ok (b : Basic) : Prop := word (balance b) ∧ word (nonce b).

Record backend_wf {B} `{EvmBackend B} (b : B) : Prop := {
  bw_basic : forall a, basic_ok (bk_basic b a);
  bw_code : forall a, bytes_ok (bk_code b a);
  bw_storage : forall a k, word (bk_storage b a k);
  bw_environment : Forall word [bk_gas_price b; bk_origin b; bk_block_number b; bk_block_coinbase b;
    bk_block_timestamp b; bk_block_difficulty b; bk_block_gas_limit b; bk_block_base_fee_per_gas b; bk_chain_id b];
  bw_randomness : forall x, bk_block_randomness b = Some x -> word x;
  bw_block_hash : forall n, word n -> exists x, bk_block_hash b n = Some x ∧ word x
}.

(** Precompiles return byte strings, and costs that are not absurd. *)
Definition precompiles_ok (p : gmap H160 PrecompileFn) : Prop :=
  forall a f, p !! a = Some f -> forall input gas context is_static,
    match f input gas context is_static with
    | Ok (out, cost) => bytes_ok (po_output out) ∧ 0 <= cost <= max_gas
    | Err (PrecompileRevert _ out) => bytes_ok out
    | Err _ => True
    end.

Record account_ok (a : MemoryStackAccount) : Prop := {
  ak_basic : basic_ok (sa_basic a);
  ak_code : forall c, sa_code a = Some c -> bytes_ok c
}.

(** The slot is in the recorded write set. *)
Definition written (rw : option RwSet) (a : H160) (k : H256) : Prop :=
  forall r, rw = Some r -> exists m, write_set r !! a = Some m ∧ is_Some (m !! k).

(** The slot is in the recorded read set. *)
Definition loaded (rw : option RwSet) (a : H160) (k : H256) : Prop :=
  forall r, rw = Some r -> exists m, read_set r !! a = Some m ∧ is_Some (m !! k).

(** Every slot of the write set is in the read set. *)
Definition writes_loaded (rw : option RwSet) : Prop :=
  forall r a m k, rw = Some r -> write_set r !! a = Some m -> is_Some (m !! k) -> loaded rw a k.

Definition ly_gasometer (l : Layer) : Gasometer := md_gasometer (ly_metadata l).

Record layer_ok (cfg : Config) (rw : option RwSet) (l : Layer) : Prop := {
  lk_gas : gas_wf (ly_gasometer l);
  lk_config : gm_config (ly_gasometer l) = cfg;
  lk_accounts : forall a acc, ly_accounts l !! a = Some acc -> account_ok acc;
  lk_storages : forall k v, ly_storages l !! k = Some v -> word v;
  lk_written : forall a k, is_Some (ly_storages l !! (a, k)) -> written rw a k
}.

(** Every caller has recorded the gas limit of the call it waits for; the limit of
    the root layer is that of the transaction. *)
Fixpoint chain (root limit : Z) (parents : list Layer) : Prop :=
  match parents with
  | [] => limit = root
  | l :: ls =>
      gas_open (ly_gasometer l) ∧ limit <= used_of (ly_gasometer l) ∧ chain root (gm_gas_limit (ly_gasometer l)) ls
  end.

Definition layers_gas (ls : list Layer) : Z := foldr (fun l z => gas_of (ly_gasometer l) + z) 0 ls.

Section executor.
Context {B : Type} `{EvmBackend B, HH : Hashes, HLaws : !HashesLaws}.
(** The gas limit of the transaction, and whether it is simulated. *)
Context (root : Z) (recording : bool).
Abbreviation Exec := (StackExecutor B).

Record exec_inv (e : Exec) : Prop := {
  xi_config : cfg_ok (se_config e);
  xi_backend : backend_wf (se_backend e);
  xi_precompiles : precompiles_ok (se_precompiles e);
  xi_layers : Forall (layer_ok (se_config e) (se_rw_set e)) (ss_layers (se_substate e));
  xi_chain : chain root (gm_gas_limit (se_gasometer e)) (ss_parents (se_substate e));
  xi_recording : bool_decide (is_Some (se_rw_set e)) = recording;
  xi_loaded : writes_loaded (se_rw_set e)
}.

Definition se_depth (e : Exec) : nat := length (ss_parents (se_substate e)).

Definition se_fuel (e : Exec) : Z := 2 * layers_gas (ss_layers (se_substate e)) + Z.of_nat (se_depth e).

(** A stipend has been paid for in the current call. *)
Definition se_paid (e : Exec) : Prop := gas_open (se_gasometer e) ∧ 9000 <= used_of (se_gasometer e).

(** The kinds of the runtimes a transaction runs. *)
Definition kind_ok (k : RuntimeKind) : Prop :=
  match k with KindCreate a => word a | KindCall _ => True | KindExecute => False end.

Definition tagged_ok (t : TaggedRuntime) : Prop := rt_ok (tagged_inner t) ∧ kind_ok (tagged_kind t).

(** The frame of an operation that keeps to the current call. *)
Definition keeps (e e' : Exec) : Prop :=
  exec_inv e' ∧ se_fuel e' <= se_fuel e ∧ se_depth e' = se_depth e.

Lemma keeps_refl e : exec_inv e -> keeps e e.
Proof. intros Hi. unfold keeps. by split_and!. Qed.

Lemma keeps_trans e1 e2 e3 : keeps e1 e2 -> keeps e2 e3 -> keeps e1 e3.
Proof. intros (? & ? & ?) (? & ? & ?). unfold keeps. split_and!; [done|lia|congruence]. Qed.

Lemma exec_inv_top_layer e : exec_inv e -> layer_ok (se_config e) (se_rw_set e) (ss_top (se_substate e)).
Proof. intros [_ _ _ Hl _ _ _]. by apply Forall_cons in Hl as [? _]. Qed.

Lemma exec_inv_gas e : exec_inv e -> gas_wf (se_gasometer e).
Proof. intros Hi. apply (lk_gas _ _ _ (exec_inv_top_layer e Hi)). Qed.

Lemma layers_gas_nonneg cfg rw ls : Forall (layer_ok cfg rw) ls -> 0 <= layers_gas ls.
Proof.
  induction 1 as [|l ls Hl _ IH]; simpl; [done|]. pose proof (gas_of_bounds _ (lk_gas _ _ _ Hl)). lia.
Qed.

Lemma se_fuel_nonneg e : exec_inv e -> 0 <= se_fuel e.
Proof. intros [_ _ _ Hl _ _ _]. unfold se_fuel. pose proof (layers_gas_nonneg _ _ _ Hl). lia. Qed.

(** Updates of the top layer that keep its gasometer. *)
Lemma keeps_top e (f : Layer -> Layer) :
  exec_inv e ->
  layer_ok (se_config e) (se_rw_set e) (f (ss_top (se_substate e))) ->
  ly_gasometer (f (ss_top (se_substate e))) = ly_gasometer (ss_top (se_substate e)) ->
  keeps e (on_substate (on_top f) e).
Proof.
  intros [Hc Hb Hp Hl Hch Hrec Hld] Hf Eg. apply Forall_cons in Hl as [_ Hl].
  unfold keeps. split_and!; [|unfold se_fuel, se_depth; cbn; rewrite Eg; lia|done].
  split; cbn; try done; [by constructor|]. unfold se_gasometer, se_metadata, ss_metadata, ly_gasometer in *. cbn. by rewrite Eg.
Qed.

(** Updates of the gasometer on top. *)
Lemma gasometer_inv e g :
  exec_inv e -> gas_wf g -> same_meter (se_gasometer e) g -> exec_inv (on_metadata (set_gasometer g) e).
Proof.
  intros [Hc Hb Hp Hl Hch Hrec Hld] Hg [El Ec]. apply Forall_cons in Hl as [[] Hl]. split; cbn; try done.
  - constructor; [|done]. split; cbn; try done. by rewrite Ec.
  - by rewrite El.
Qed.

Lemma gasometer_fuel e g :
  se_fuel (on_metadata (set_gasometer g) e) = se_fuel e + 2 * (gas_of g - gas_of (se_gasometer e)).
Proof. unfold se_fuel, se_depth, se_gasometer, se_metadata, ss_metadata, ly_gasometer. cbn. unfold ly_gasometer. lia. Qed.

Lemma keeps_gasometer e g :
  exec_inv e -> gas_wf g -> same_meter (se_gasometer e) g -> gas_of g <= gas_of (se_gasometer e) ->
  keeps e (on_metadata (set_gasometer g) e).
Proof.
  intros Hi Hg Hs Hle. unfold keeps. split_and!; [by apply gasometer_inv|rewrite gasometer_fuel; lia|done].
Qed.

(** The accounts the layers and the backend hold are well formed. *)
Lemma layers_account_ok cfg rw ls a acc :
  Forall (layer_ok cfg rw) ls -> layers_account ls a = Some acc -> account_ok acc.
Proof.
  induction 1 as [|l ls Hl _ IH]; simpl; [done|]. destruct (ly_accounts l !! a) eqn:E; [|done].
  intros [= <-]. by eapply lk_accounts.
Qed.

Lemma account_of_ok e a : exec_inv e -> account_ok (account_of (se_substate e) (se_backend e) a).
Proof.
  intros Hi. pose proof (xi_layers e Hi) as Hl. unfold account_of, known_account.
  destruct (ly_accounts (ss_top (se_substate e)) !! a) as [acc|] eqn:E.
  - by eapply lk_accounts, E; apply exec_inv_top_layer.
  - destruct (layers_account (ss_layers (se_substate e)) a) as [acc|] eqn:E2.
    + destruct (layers_account_ok _ _ _ _ _ Hl E2). by split.
    + split; [apply (bw_basic _ (xi_backend e Hi))|done].
Qed.

Lemma keeps_account e a f :
  exec_inv e -> (forall acc, account_ok acc -> account_ok (f acc)) ->
  keeps e (on_substate (account_mut a (se_backend e) f) e).
Proof.
  intros Hi Hf. apply keeps_top; [done| |done]. destruct (exec_inv_top_layer e Hi). split; cbn; try done.
  intros a' acc. rewrite lookup_insert_Some. intros [[_ <-]|[_ ?]]; [|eauto]. by apply Hf, account_of_ok.
Qed.

Lemma set_substate_twice (e : Exec) s s' : set_substate s' (set_substate s e) = set_substate s' e.
Proof. done. Qed.

Lemma keeps_inc_nonce e a : exec_inv e -> keeps e (se_inc_nonce a e).1.
Proof.
  intros Hi. unfold se_inc_nonce, try_substate, Substate_inc_nonce. cbv zeta.
  destruct (Z.leb_spec u64_max (nonce (sa_basic (account_of (se_substate e) (se_backend e) a)))); cbn.
  - by apply (keeps_account e a (fun x => x)).
  - pose proof (ak_basic _ (account_of_ok e a Hi)) as [_ [Hn _]].
    eapply (keeps_account e a); [done|]. intros acc [[Hb _] Hc]. split; [|done]. split; [done|].
    cbn. unfold u64_max in *. unfold word, u256_modulus in *. lia.
Qed.

Lemma word_saturating x y : 0 <= x -> 0 <= y -> word (u256_saturating_add x y).
Proof. unfold word, u256_saturating_add, U256_MAX, u256_modulus. lia. Qed.

Lemma keeps_transfer e t : exec_inv e -> word (tr_value t) -> keeps e (se_transfer t e).1.
Proof.
  intros Hi [Hv _]. unfold se_transfer, try_substate, Substate_transfer, Substate_withdraw.
  destruct (Z.ltb_spec (balance (sa_basic (account_of (se_substate e) (se_backend e) (tr_source t)))) (tr_value t)) as [|Hle]; cbn.
  { by apply (keeps_account e (tr_source t) (fun x => x)). }
  set (e1 := on_substate (account_mut (tr_source t) (se_backend e) (add_balance (fun x => x - tr_value t))) e).
  assert (keeps e e1) as Hk.
  { apply keeps_top; [done| |done]. destruct (exec_inv_top_layer e Hi). split; cbn; try done.
    intros a acc. rewrite lookup_insert_Some. intros [[_ <-]|[_ ?]]; [|eauto].
    destruct (account_of_ok e (tr_source t) Hi) as [[[Hb0 Hb1] Hn] Hc]. split; [|done]. split; [|done]. cbn. split; lia. }
  eapply keeps_trans; [exact Hk|].
  apply (keeps_account e1 (tr_target t)); [apply Hk|]. intros acc [[[Hb _] Hn] Hc]. split; [|done]. split; [|done].
  cbn. by apply word_saturating.
Qed.

(** Recording a read or a write. *)
Lemma written_mono rw rw' a k :
  (forall r', rw' = Some r' -> exists r, rw = Some r ∧ forall a k m, write_set r !! a = Some m -> is_Some (m !! k) ->
     exists m', write_set r' !! a = Some m' ∧ is_Some (m' !! k)) ->
  written rw a k -> written rw' a k.
Proof. intros Hm Hw r' Hr'. destruct (Hm r' Hr') as (r & Hr & Hmono). destruct (Hw r Hr) as (m & ? & ?). eauto. Qed.

Lemma keeps_rw e rw' :
  exec_inv e -> (is_Some rw' <-> is_Some (se_rw_set e)) -> writes_loaded rw' ->
  (forall a k, written (se_rw_set e) a k -> written rw' a k) -> keeps e (set_rw_set rw' e).
Proof.
  intros [Hc Hb Hp Hl Hch Hrec Hld] Hsome Hld' Hm. unfold keeps. split_and!; [|reflexivity|done].
  split; cbn; try done; [|rewrite <- Hrec; by apply bool_decide_ext]. eapply Forall_impl; [exact Hl|].
  intros l []. split; try done. auto.
Qed.

Lemma record_key_lookup (m : gmap H160 (gmap H256 H256)) a k v a' k' (mm : gmap H256 H256) :
  m !! a' = Some mm -> is_Some (mm !! k') -> exists mm', record_key m a k v !! a' = Some mm' ∧ is_Some (mm' !! k').
Proof.
  intros Hm Hk. unfold record_key. destruct (decide (a' = a)) as [->|].
  - rewrite lookup_insert_eq, Hm. eexists; split; [done|]. simpl. destruct (decide (k' = k)) as [->|].
    + by rewrite lookup_insert_eq.
    + by rewrite lookup_insert_ne.
  - rewrite lookup_insert_ne by done. eauto.
Qed.

Lemma record_key_inv (m : gmap H160 (gmap H256 H256)) a k v a' k' (mm : gmap H256 H256) :
  record_key m a k v !! a' = Some mm -> is_Some (mm !! k') ->
  (a' = a ∧ k' = k) ∨ exists m0, m !! a' = Some m0 ∧ is_Some (m0 !! k').
Proof.
  unfold record_key. destruct (decide (a' = a)) as [->|].
  - rewrite lookup_insert_eq. intros [= <-]. destruct (decide (k' = k)) as [->|]; [by left|].
    rewrite lookup_insert_ne by done. right. destruct (m !! a) as [m0|]; simpl in *; [eauto|by destruct H0].
  - rewrite lookup_insert_ne by done. eauto.
Qed.

(** A read adds to the read set, a write of a slot that was read to the write set. *)
Lemma loaded_read rw a k v a' k' :
  (a' = a ∧ k' = k) ∨ loaded rw a' k' -> loaded ((fun r => record_read_key r a k v) <$> rw) a' k'.
Proof.
  intros Hl r'. destruct rw as [r|]; [|done]. intros [= <-]. cbn. destruct Hl as [[-> ->]|Hl].
  - unfold record_key. rewrite lookup_insert_eq. eexists; split; [done|]. by rewrite lookup_insert_eq.
  - destruct (Hl r eq_refl) as (m & Hm & Hk). by eapply record_key_lookup.
Qed.

Lemma loaded_write rw a k v a' k' : loaded rw a' k' -> loaded ((fun r => record_write_key r a k v) <$> rw) a' k'.
Proof. intros Hl r'. destruct rw as [r|]; [|done]. intros [= <-]. by apply (Hl r). Qed.

Lemma writes_loaded_read rw a k v : writes_loaded rw -> writes_loaded ((fun r => record_read_key r a k v) <$> rw).
Proof.
  intros Hw r' a' m k'. destruct rw as [r|]; [|done]. intros [= <-] Hm Hk. cbn in Hm.
  apply (loaded_read (Some r)). right. by eapply Hw.
Qed.

Lemma writes_loaded_write rw a k v :
  writes_loaded rw -> loaded rw a k -> writes_loaded ((fun r => record_write_key r a k v) <$> rw).
Proof.
  intros Hw Hl r' a' m k'. destruct rw as [r|]; [|done]. intros [= <-] Hm Hk. cbn in Hm.
  apply (loaded_write (Some r)). destruct (record_key_inv _ _ _ _ _ _ _ Hm Hk) as [[-> ->]|(m0 & ? & ?)]; [done|by eapply Hw].
Qed.

Lemma keeps_note_read e a k v :
  exec_inv e -> keeps e (note_read a k v e) ∧ loaded (se_rw_set (note_read a k v e)) a k.
Proof.
  intros Hi. split; [|apply loaded_read; by left].
  apply keeps_rw; [done|by rewrite fmap_is_Some|apply writes_loaded_read, Hi|]. intros a' k'. apply written_mono. intros r'.
  destruct (se_rw_set e) as [r|]; [|done]. intros [= <-]. exists r. split; [done|]. eauto.
Qed.

Lemma written_mono_write rw a k v a' k' :
  written rw a' k' -> written ((fun r => record_write_key r a k v) <$> rw) a' k'.
Proof.
  apply written_mono. intros r'. destruct rw as [r|]; [|done]. intros [= <-]. exists r. split; [done|].
  intros a1 k1 m Hm Hk. by eapply record_key_lookup.
Qed.

Lemma written_write rw a k v : written ((fun r => record_write_key r a k v) <$> rw) a k.
Proof.
  intros r'. destruct rw as [r|]; [|done]. intros [= <-]. cbn. unfold record_key. rewrite lookup_insert_eq.
  eexists; split; [done|]. by rewrite lookup_insert_eq.
Qed.

Lemma keeps_set_storage e a k v :
  exec_inv e -> word v -> loaded (se_rw_set e) a k -> keeps e (se_set_storage a k v e).1.
Proof.
  intros Hi Hv Hl. cbn. assert (keeps e (note_write a k v e)) as Hk.
  { apply keeps_rw; [done|by rewrite fmap_is_Some|apply writes_loaded_write; [apply Hi|done]|].
    intros. by apply written_mono_write. }
  eapply keeps_trans; [exact Hk|].
  apply (keeps_top (note_write a k v e) (fun l => set_storages (<[(a, k) := v]> (ly_storages l)) l)); [apply Hk| |done].
  destruct (exec_inv_top_layer _ (proj1 Hk)). split; cbn; try done.
  - intros k' v'. rewrite lookup_insert_Some. intros [[_ <-]|[_ ?]]; eauto.
  - intros a' k'. rewrite lookup_insert_is_Some'. intros [[= <- <-]|?]; [apply written_write|by apply lk_written0].
Qed.

Lemma keeps_log e a t d : exec_inv e -> keeps e (se_log a t d e).1.
Proof. intros Hi. apply keeps_top; [done| |done]. destruct (exec_inv_top_layer e Hi). by split. Qed.

(** Reads give words and bytes. *)
Lemma stack_basic_ok e a : exec_inv e -> basic_ok (stack_basic (se_state e) a).
Proof.
  intros Hi. unfold stack_basic, known_basic, known_account.
  destruct (layers_account _ a) as [acc|] eqn:E; cbn.
  - apply ak_basic. eapply layers_account_ok, E. apply Hi.
  - apply (bw_basic _ (xi_backend e Hi)).
Qed.

Lemma stack_code_ok e a : exec_inv e -> bytes_ok (stack_code (se_state e) a).
Proof.
  intros Hi. unfold stack_code, known_code, known_account.
  destruct (layers_account _ a) as [acc|] eqn:E; cbn; [destruct (sa_code acc) as [c|] eqn:Ec; cbn|].
  - eapply ak_code, Ec. eapply layers_account_ok, E. apply Hi.
  - apply (bw_code _ (xi_backend e Hi)).
  - apply (bw_code _ (xi_backend e Hi)).
Qed.

Lemma layers_storage_word cfg rw ls a k v :
  Forall (layer_ok cfg rw) ls -> layers_storage ls a k = Some v -> word v.
Proof.
  induction 1 as [|l ls Hl _ IH]; simpl; [done|]. destruct (ly_storages l !! (a, k)) eqn:E.
  - intros [= <-]. by eapply lk_storages.
  - destruct (layer_reset l a); [intros [= <-]; apply word_0|done].
Qed.

Lemma stack_storage_word e a k : exec_inv e -> word (stack_storage (se_state e) a k).
Proof.
  intros Hi. unfold stack_storage, known_storage. destruct (layers_storage _ a k) as [v|] eqn:E; cbn.
  - eapply layers_storage_word, E. apply Hi.
  - apply (bw_storage _ (xi_backend e Hi)).
Qed.

Lemma keeps_mark_delete e a t : exec_inv e -> keeps e (se_mark_delete a t e).1.
Proof.
  intros Hi. unfold se_mark_delete. cbv zeta.
  pose proof (keeps_transfer e (mkTransfer a t (se_balance e a)) Hi (proj1 (stack_basic_ok e a Hi))) as Hk.
  destruct (se_transfer _ e) as [e1 [[]|er]]; cbn in *; [|done].
  eapply keeps_trans; [exact Hk|]. set (e2 := on_substate (Substate_reset_balance a (se_backend e1)) e1).
  assert (keeps e1 e2) as Hk2.
  { apply keeps_account; [apply Hk|]. intros acc [[_ Hn] Hc]. split; [|done]. split; [apply word_0|done]. }
  eapply keeps_trans; [exact Hk2|].
  apply (keeps_top e2 (fun l => set_deletes ({[a]} ∪ ly_deletes l) l)); [apply Hk2| |done].
  destruct (exec_inv_top_layer e2 (proj1 Hk2)). by split.
Qed.

(** Charging the current call. *)
Lemma charge_spec e cost e' r :
  exec_inv e -> 0 <= cost <= max_gas -> on_gasometer (record_cost cost) e = (e', r) ->
  keeps e e' ∧
  match r with
  | Ok _ => se_fuel e' = se_fuel e - 2 * cost ∧ gas_open (se_gasometer e') ∧
      gas_of (se_gasometer e') = gas_of (se_gasometer e) - cost ∧
      used_of (se_gasometer e') = used_of (se_gasometer e) + cost
  | Err _ => gas_open (se_gasometer e) -> gas_of (se_gasometer e) < cost
  end.
Proof.
  intros Hi Hc. unfold on_gasometer. destruct (record_cost cost (se_gasometer e)) as [g r0] eqn:E.
  intros [= <- <-]. pose proof (exec_inv_gas e Hi) as Hw.
  destruct (record_cost_spec _ _ _ _ Hw Hc E) as (Hg & Hs & Hr). pose proof (gas_of_bounds _ Hw).
  destruct r0 as [[]|er].
  - destruct Hr as (Ho & Eg & Eu). split; [apply keeps_gasometer; try done; lia|].
    rewrite gasometer_fuel. split_and!; [lia|done|done|done].
  - destruct Hr as [Eg Hlt]. split; [apply keeps_gasometer; try done; lia|done].
Qed.

Lemma keeps_fail e : exec_inv e -> keeps e (gasometer_fail e).
Proof.
  intros Hi. pose proof (exec_inv_gas e Hi) as Hw. apply keeps_gasometer; [done|by apply set_inner_Err_wf|by split|].
  pose proof (gas_of_bounds _ Hw). cbn. lia.
Qed.

Lemma keeps_access e f :
  exec_inv e -> (forall md, md_gasometer (f md) = md_gasometer md) -> keeps e (on_metadata f e).
Proof.
  intros Hi Hf. apply keeps_top; [done| |by unfold ly_gasometer; cbn].
  destruct (exec_inv_top_layer e Hi). split; unfold ly_gasometer in *; cbn; rewrite ?Hf; done.
Qed.

Lemma keeps_is_cold e a k : exec_inv e -> keeps e (se_is_cold a k e).1.
Proof.
  intros Hi. destruct k as [k|]; cbn; [by apply keeps_refl|].
  destruct (on_gasometer (record_cost 0) e) as [e' r] eqn:E.
  destruct (charge_spec e 0 e' r Hi ltac:(unfold max_gas; lia) E) as [Hk _]. by destruct r.
Qed.

(** The invariant, with a budget and the number of open calls. *)
Definition held (F : Z) (D : nat) (e : Exec) : Prop := exec_inv e ∧ se_fuel e <= F ∧ se_depth e = D.

Lemma held_keeps F D e e' : held F D e -> keeps e e' -> held F D e'.
Proof. intros (? & ? & ?) (? & ? & ?). unfold held. split_and!; [done|lia|congruence]. Qed.

Lemma held_mono F F' D e : held F D e -> F <= F' -> held F' D e.
Proof. intros (? & ? & ?) ?. unfold held. split_and!; [done|lia|done]. Qed.

#[global] Instance held_stable F D : OpsStable (held F D).
Proof.
  split.
  - intros a k e (Hi & Hf & Hd). destruct (keeps_is_cold e a k Hi) as (?&?&?). split_and!; [done|cbn; lia|cbn; congruence].
  - intros op e He. done.
  - intros a k e (Hi & Hf & Hd). eexists _, _. split; [reflexivity|].
    destruct (keeps_note_read e a k (stack_storage (se_state e) a k) Hi) as [(?&?&?) _]. split_and!; [done|lia|congruence].
  - intros a k e (Hi & Hf & Hd). eexists _, _. split; [reflexivity|].
    edestruct (keeps_note_read e a k) as [(?&?&?) _]; [done|]. split_and!; [done|lia|congruence].
Qed.

(** ** Entering and leaving a call *)

Lemma enter_spec e limit is_static F D :
  held F D e -> gas_open (se_gasometer e) -> 0 <= limit <= used_of (se_gasometer e) ->
  held (F + 2 * limit + 1) (S D) (enter_substate limit is_static e).
Proof.
  intros (Hi & Hf & Hd) Ho Hl. destruct (Hi) as [Hc Hb Hp Hls Hch Hrec Hld]. pose proof (exec_inv_gas e Hi) as Hw.
  assert (0 <= limit <= max_gas) as Hlim.
  { destruct Ho as [i Ei]. unfold used_of in Hl. rewrite Ei in Hl. destruct (gw_inner _ Hw i Ei). pose proof (gw_limit _ Hw). lia. }
  pose proof (exec_inv_top_layer e Hi) as Htop.
  unfold held. split_and!.
  - split; cbn; try done; [|split_and!; [done|apply Hl|done]]. constructor; [|done].
    split; cbn; try done; [by apply Gasometer_new_wf|by apply Htop|]. by intros a k [].
  - change (2 * (limit - 0 - 0 + layers_gas (ss_layers (se_substate e))) + Z.of_nat (S (se_depth e)) <= F + 2 * limit + 1).
    unfold se_fuel in Hf. lia.
  - unfold se_depth in *. cbn. by rewrite Hd.
Qed.

Lemma merge_layer_ok cfg rw exited parent :
  layer_ok cfg rw exited -> layer_ok cfg rw parent -> layer_ok cfg rw (merge_layer exited parent).
Proof.
  intros [] []. split; cbn; try done.
  - intros a acc. rewrite lookup_union_Some_raw. naive_solver.
  - intros k v. rewrite lookup_union_Some_raw. unfold unreset_storages. rewrite map_lookup_filter_Some. naive_solver.
  - intros a k. rewrite lookup_union_is_Some. unfold unreset_storages. intros [?|[v Hv]]; [auto|].
    apply map_lookup_filter_Some in Hv as [? _]. eauto.
Qed.

Lemma layer_ok_gasometer cfg rw l g acc :
  layer_ok cfg rw l -> gas_wf g -> same_meter (ly_gasometer l) g ->
  layer_ok cfg rw (set_metadata (set_accessed acc (set_gasometer g (ly_metadata l))) l).
Proof. intros [] Hg [? ?]. split; try done. cbn. congruence. Qed.

Lemma se_fuel_eq e :
  se_fuel e = 2 * (gas_of (se_gasometer e) + layers_gas (ss_parents (se_substate e)))
    + Z.of_nat (length (ss_parents (se_substate e))).
Proof. done. Qed.

(** The parent gets back what the child has left, which it had paid for. *)
Lemma exit_inv e l p rest :
  exec_inv e -> ss_parents (se_substate e) = p :: rest ->
  layer_ok (se_config e) (se_rw_set e) l ->
  gm_gas_limit (ly_gasometer l) = gm_gas_limit (ly_gasometer p) ->
  gas_of (ly_gasometer l) <= gas_of (ly_gasometer p) + gas_of (se_gasometer e) ->
  held (se_fuel e - 1) (length rest) (set_substate (mkSubstate l rest) e).
Proof.
  intros Hi Ep Hl El Hg. destruct (Hi) as [Hc Hb Hp Hls Hch Hrec Hld]. unfold ss_layers in Hls. rewrite Ep in *.
  apply Forall_cons in Hls as [_ Hls]. apply Forall_cons in Hls as [_ Hls]. destruct Hch as (_ & _ & Hch).
  unfold held. split_and!; [|rewrite !se_fuel_eq, Ep; cbn [layers_gas foldr length]; change (se_gasometer (set_substate (mkSubstate l rest) e)) with (ly_gasometer l); cbn [ss_parents se_substate mss_substate se_state set_substate]; fold (layers_gas rest); lia|done].
  split; cbn; try done; [by constructor|]. unfold se_gasometer, se_metadata, ss_metadata. cbn.
  unfold ly_gasometer in *. by rewrite El.
Qed.

Lemma exit_spec kind e F D :
  held F (S D) e -> exists e', exit_substate kind e = Some (e', Ok tt) ∧ held (F - 1) D e'.
Proof.
  intros (Hi & Hf & Hd). destruct (ss_parents (se_substate e)) as [|p rest] eqn:Ep.
  { unfold se_depth in Hd. rewrite Ep in Hd. done. }
  assert (length rest = D) as <- by (unfold se_depth in Hd; rewrite Ep in Hd; simpl in Hd; congruence).
  pose proof (exec_inv_top_layer e Hi) as Htop. pose proof (gas_of_bounds _ (exec_inv_gas e Hi)) as Hgb.
  destruct (Hi) as [_ _ _ Hls Hch _ _]. unfold ss_layers in Hls. rewrite Ep in Hls, Hch.
  apply Forall_cons in Hls as [_ Hls]. apply Forall_cons in Hls as [Hp _]. destruct Hch as (Hopen & Hlim & _).
  assert (forall l, layer_ok (se_config e) (se_rw_set e) l ->
    gm_gas_limit (ly_gasometer l) = gm_gas_limit (ly_gasometer p) ->
    gas_of (ly_gasometer l) <= gas_of (ly_gasometer p) + gas_of (se_gasometer e) ->
    held (F - 1) (length rest) (set_substate (mkSubstate l rest) e)) as Hexit.
  { intros l ? ? ?. eapply held_mono; [by eapply exit_inv|lia]. }
  destruct (record_stipend (gas_of (se_gasometer e)) (ly_gasometer p)) as [g r] eqn:E.
  destruct (record_stipend_spec (ly_gasometer p) (gas_of (se_gasometer e)) g r (lk_gas _ _ _ Hp) Hopen ltac:(lia) E) as (-> & Hg & Hs & Ho & Eg & _).
  rewrite <- gas_of_spec in E by (by apply exec_inv_gas).
  unfold exit_substate. destruct kind; unfold exit_commit, exit_revert, exit_discard; rewrite Ep.
  - unfold swallow_commit. unfold se_gasometer, se_metadata, ly_gasometer in E. rewrite E.
    destruct (record_refund _ g) as [g' r'] eqn:E'.
    destruct (record_refund_spec _ _ _ _ Hg Ho E') as (-> & Hg' & Hs' & _ & Eg' & _).
    eexists. split; [done|]. apply Hexit; [|by cbn; transitivity (gm_gas_limit g); [apply Hs'|apply Hs]|cbn; lia].
    apply merge_layer_ok; [done|]. apply layer_ok_gasometer; [done..|by transitivity g].
  - unfold swallow_revert. unfold se_gasometer, se_metadata, ly_gasometer in E. rewrite E.
    eexists. split; [done|]. apply Hexit; [|by apply Hs|cbn; lia].
    apply (layer_ok_gasometer _ _ p g (md_accessed (ly_metadata p))); done.
  - eexists. split; [done|]. apply Hexit; [|done|].
    + destruct Hp. by split.
    + change (gas_of (ly_gasometer p) <= gas_of (ly_gasometer p) + gas_of (se_gasometer e)). lia.
Qed.

(** ** Charging for an opcode *)

(** What the charge for an opcode gives, from a budget. *)
Definition opcode_paid (op : Z) (stack : Stack) (F : Z) (e : Exec) : Prop :=
  (is_final op = false -> se_fuel e + 2 <= F) ∧
  (is_call op = true -> forall v, stk_data stack !! 2%nat = Some v -> v ≠ 0 -> se_paid e ∧ se_fuel e + 18000 <= F) ∧
  returns_paid op stack.

Lemma return_range_paid op stack mem :
  opcode_memory_cost op stack = Ok mem ->
  (forall m, mem = Some m -> paid_range (mcost_offset m) (mcost_len m)) -> returns_paid op stack.
Proof.
  intros Hm Hp Hop o l Ho Hl. assert (memory_cost_at stack 0 1 = Ok mem) as Hat by (by destruct Hop; subst op).
  apply memory_cost_at_spec in Hat as (x & y & -> & Hx & Hy). specialize (Hp _ eq_refl). simpl in Hp. by simplify_eq.
Qed.

Lemma charge_dynamic_hoare op stack cost mem F D :
  cost_of op stack cost -> charge_ok cost mem -> opcode_memory_cost op stack = Ok mem ->
  hoare (held F D) (charge_dynamic cost mem) (fun _ e => held F D e ∧ opcode_paid op stack F e) (fun _ => held F D).
Proof.
  intros Hco Hch Hmem e (Hi & Hf & Hd). pose proof (exec_inv_gas e Hi) as Hw. unfold charge_dynamic.
  destruct (record_dynamic_cost_spec (se_gasometer e) cost mem Hw) as (g & r & -> & Hg & Hs & Hr); [|done|].
  { rewrite (lk_config _ _ _ (exec_inv_top_layer e Hi) : gm_config (se_gasometer e) = _). apply Hi. }
  pose proof (gas_of_bounds _ Hw).
  assert (gas_of g <= gas_of (se_gasometer e)) as Hle.
  { destruct r; [destruct Hr as [gc []]; lia|lia]. }
  assert (held F D (on_metadata (set_gasometer g) e)) as Hh.
  { apply (held_keeps F D e); [done|]. by apply keeps_gasometer. }
  destruct r as [[]|er]; [|done]. split; [exact Hh|]. destruct Hr as [gc Hc].
  pose proof (gasometer_fuel e g) as Ef. pose proof (cd_gas _ _ _ _ _ Hc). unfold opcode_paid. split_and!.
  - intros Hfin. assert (0 < gc); [|lia]. apply (cd_paid _ _ _ _ _ Hc). apply not_true_iff_false. intros Hfree.
    rewrite (cf_free _ _ _ Hco Hfree) in Hfin. done.
  - intros Hcall v Hv Hne. destruct (cf_value _ _ _ Hco Hcall v Hv) as [Hval| ->].
    + pose proof (cd_value _ _ _ _ _ Hc v Hval Hne). split; [|lia]. split; [apply Hc|].
      change (9000 <= used_of g). rewrite (cd_used _ _ _ _ _ Hc).
      assert (0 <= used_of (se_gasometer e)); [|lia]. unfold used_of. destruct (gm_inner (se_gasometer e)) as [i|] eqn:Ei; [|done].
      by destruct (gw_inner _ Hw i Ei) as (_ & ? & _).
    + by pose proof (cd_cost _ _ _ _ _ Hc).
  - by eapply return_range_paid; [|apply Hc].
Qed.

Lemma access_target_keeps t e : exec_inv e -> keeps e (access_target t e) ∧ se_gasometer (access_target t e) = se_gasometer e.
Proof.
  intros Hi. destruct t; (split; [|done]); [by apply keeps_refl|by apply keeps_access..].
Qed.

(** The cost of a store reads the slot. *)
Definition store_loaded (op : Z) (a : H160) (stack : Stack) (e : Exec) : Prop :=
  op = Opcode.SSTORE -> forall k, stk_data stack !! 0%nat = Some k -> loaded (se_rw_set e) a k.

Lemma sstore_gas_loads a stack F D :
  hoare (held F D) (sstore_gas a stack)
    (fun _ e => forall k, stk_data stack !! 0%nat = Some k -> loaded (se_rw_set e) a k) (fun _ _ => True).
Proof.
  unfold sstore_gas. eapply hoare_bind with (Q := fun k e => stk_data stack !! 0%nat = Some k ∧ held F D e).
  { apply hoare_result; [|done]. intros k e Hk Hh. split; [by apply Stack_peek_Ok|done]. }
  intros k. apply hoare_pure. intros Hk. eapply hoare_bind with (Q := fun _ => held F D); [by apply hoare_result|]. intros v.
  eapply hoare_bind with (Q := fun _ => held F D).
  { intros e Hh. unfold cost_unwrapped. by destruct (os_original a k e Hh) as (e' & x & -> & ?). }
  intros o. eapply hoare_bind with (Q := fun _ e => loaded (se_rw_set e) a k).
  { intros e Hh. apply (keeps_note_read e a k), Hh. }
  intros x. eapply hoare_bind with (Q := fun _ e => loaded (se_rw_set e) a k); [by intros e Hl|].
  intros y. apply hoare_ret. intros e Hl k' Hk'. by simplify_eq.
Qed.

Lemma store_loads op a stack is_static cfg F D :
  stack_wf stack ->
  hoare (held F D) (dynamic_opcode_cost a op stack is_static cfg)
    (fun r e => (exists op', r.1.1 = GasInvalid op') ∨ store_loaded op a stack e) (fun _ _ => True).
Proof.
  intros Hs. destruct (decide (op = Opcode.SSTORE)) as [->|Hop].
  - unfold dynamic_opcode_cost. eapply hoare_bind with (Q := fun r e => (exists op', r.1 = GasInvalid op')
      ∨ forall k, stk_data stack !! 0%nat = Some k -> loaded (se_rw_set e) a k).
    { destruct is_static; [apply hoare_ret; left; by eexists|].
      eapply hoare_post; [apply (sstore_gas_loads a stack F D)|]. by right. }
    intros r. eapply hoare_bind with (Q := fun _ e => (exists op', r.1 = GasInvalid op')
      ∨ forall k, stk_data stack !! 0%nat = Some k -> loaded (se_rw_set e) a k); [by apply hoare_result|].
    intros mem. apply hoare_ret. intros e [?|Hl]; [by left|right]. by intros _.
  - eapply hoare_conseq; [by apply (dynamic_opcode_cost_hoare (held F D))|done| |done].
    intros r e _. right. by intros ->.
Qed.

Definition costed (op : Z) (a : H160) (stack : Stack) (F : Z) (D : nat)
    (r : GasCost * StorageTarget * option MemoryCost) (e : Exec) : Prop :=
  (cost_of op stack r.1.1 ∧ charge_ok r.1.1 r.2 ∧ opcode_memory_cost op stack = Ok r.2) ∧ held F D e ∧
  ((exists op', r.1.1 = GasInvalid op') ∨ store_loaded op a stack e).

Lemma dynamic_cost_hoare a op stack is_static cfg F D :
  stack_wf stack ->
  hoare (held F D) (dynamic_opcode_cost a op stack is_static cfg) (costed op a stack F D) (fun _ => held F D).
Proof.
  intros Hs. eapply hoare_conseq; [apply (hoare_conj (held F D) (held F D));
    [by apply (dynamic_opcode_cost_hoare (held F D))|by apply (store_loads op a stack is_static cfg F D)]|..].
  - done.
  - intros r e [[? ?] ?]. by split.
  - by intros er e [? _].
Qed.

Lemma charge_access_hoare op a stack cost target mem F D :
  hoare (costed op a stack F D (cost, target, mem))
    (_ ← charge_dynamic cost mem; em_modify (access_target target))
    (fun _ e => held F D e ∧ opcode_paid op stack F e ∧ store_loaded op a stack e) (fun _ => held F D).
Proof.
  apply hoare_pure. intros (Hco & Hch & Hm). cbn [fst snd] in *.
  eapply hoare_bind with (Q := fun _ e => (held F D e ∧ opcode_paid op stack F e) ∧ store_loaded op a stack e).
  - intros e [Hh Hst]. pose proof (charge_dynamic_hoare op stack cost mem F D Hco Hch Hm e Hh) as Hc. unfold charge_dynamic in *.
    destruct (record_dynamic_cost cost mem (se_gasometer e)) as [[g r]|] eqn:Eg; [|done]. destruct r as [[]|er]; [|done].
    split; [exact Hc|]. destruct Hst as [[op' ->]|Hst]; [|exact Hst].
    exfalso. unfold record_dynamic_cost in Eg. cbn in Eg. repeat case_match; simplify_eq.
  - intros []. apply hoare_modify. intros e1 [[Hh1 Hp] Hst]. destruct (access_target_keeps target e1 (proj1 Hh1)) as [Hk Eg].
    split; [by eapply held_keeps|]. destruct Hp as (Ha & Hb & Hc). destruct Hk as (_ & Hf & _). split.
    + unfold opcode_paid, se_paid in *. rewrite Eg. split_and!; [| |done].
      * intros Hfin. specialize (Ha Hfin). lia.
      * intros Hcall v Hv Hne. destruct (Hb Hcall v Hv Hne). split; [done|lia].
    + by destruct target.
Qed.

Lemma pre_validate_spec e c op stack :
  exec_inv e -> stack_wf stack ->
  exists e' r, se_pre_validate c op stack e = Some (e', r) ∧ keeps e e' ∧
    (r = Ok tt -> opcode_paid op stack (se_fuel e) e' ∧ store_loaded op (ctx_address c) stack e').
Proof.
  intros Hi Hs. unfold se_pre_validate. destruct (static_opcode_cost op) as [cost|] eqn:Es.
  - assert (op ≠ Opcode.SSTORE) as Hop by (intros ->; by vm_compute in Es).
    apply static_opcode_cost_spec in Es as (Hc & Hpos & Hcall & Hret & Hrev).
    destruct (on_gasometer (record_cost cost) e) as [e' r] eqn:E.
    destruct (charge_spec e cost e' r Hi ltac:(unfold max_gas; lia) E) as [Hk Hr].
    eexists _, _. split_and!; [done|done|]. intros ->. destruct Hr as (Hf & _). split; [|by intros ?]. unfold opcode_paid. split_and!.
    + intros Hfin. specialize (Hpos Hfin). lia.
    + congruence.
    + by intros [].
  - set (F := se_fuel e). set (D := se_depth e). set (a := ctx_address c).
    assert (held F D e) as Hh by (by unfold held).
    assert (hoare (held F D)
      (e ← em_get;
       r ← dynamic_opcode_cost a op stack (md_is_static (se_metadata e)) (se_config e);
       _ ← charge_dynamic r.1.1 r.2;
       em_modify (access_target r.1.2))
      (fun _ e => held F D e ∧ opcode_paid op stack F e ∧ store_loaded op a stack e) (fun _ => held F D)) as Hho.
    { eapply hoare_bind with (Q := fun _ => held F D); [by intros e0 ?|]. intros e0.
      eapply hoare_bind; [by apply dynamic_cost_hoare|]. intros [[cost target] mem]. apply charge_access_hoare. }
    specialize (Hho e Hh).
    match type of Hho with match ?x with _ => _ end => destruct x as [[e' r]|] eqn:Ex end; [|done].
    eexists _, _. split; [exact Ex|]. destruct r as [[]|er]; [destruct Hho as [[] ?]|destruct Hho]; done.
Qed.

(** ** Nested calls and creations *)

Lemma leave_hoare {E A} kind (ret : E) F D (Q : A -> Exec -> Prop) (X : E -> Exec -> Prop) :
  (forall e, held (F - 1) D e -> X ret e) -> hoare (held F (S D)) (leave kind ret) Q X.
Proof. intros HX e He. unfold leave. destruct (exit_spec kind e F D He) as (e' & -> & He'). by apply HX. Qed.

Lemma step_or_hoare {E A} (f : Exec -> Exec * Result A ExitError) (ret : ExitError -> E) P Q X :
  (forall e, P e -> forall e' r, f e = (e', r) -> match r with Ok x => Q x e' | Err er => X (ret er) e' end) ->
  hoare P (step_or f ret) Q X.
Proof. intros Hf e He. unfold step_or. specialize (Hf e He). destruct (f e) as [e' r]. specialize (Hf e' r eq_refl). by destruct r. Qed.

Lemma step_or_leave_hoare {E A} (f : Exec -> Exec * Result A ExitError) kind (ret : ExitError -> E) F D P Q X :
  (forall e, P e -> forall e' r, f e = (e', r) -> match r with Ok x => Q x e' | Err _ => held F (S D) e' end) ->
  (forall er e, held (F - 1) D e -> X (ret er) e) ->
  hoare P (step_or_leave f kind ret) Q X.
Proof.
  intros Hf HX e He. unfold step_or_leave. specialize (Hf e He). destruct (f e) as [e' r].
  specialize (Hf e' r eq_refl). destruct r as [x|er]; [done|]. apply (leave_hoare kind (ret er) F D); [|done]. auto.
Qed.

Lemma external_hoare {E} op kind (ret : ExitError -> E) (P : Exec -> Prop) X :
  hoare P (step_or_leave (record_external_operation op) kind ret) (fun _ => P) X.
Proof. by intros e He. Qed.

Lemma gas_bounds e : exec_inv e -> Gasometer_gas (se_gasometer e) = gas_of (se_gasometer e) ∧ 0 <= gas_of (se_gasometer e) <= max_gas.
Proof.
  intros Hi. pose proof (exec_inv_gas e Hi) as Hw. split; [by apply gas_of_spec|].
  pose proof (gas_of_bounds _ Hw). pose proof (gw_limit _ Hw). lia.
Qed.

Lemma l64_bounds g : 0 <= g <= max_gas -> 0 <= l64 g <= g.
Proof.
  intros Hg. unfold l64. pose proof (Z.div_pos g 64 ltac:(lia) ltac:(lia)). pose proof (Z.div_le_upper_bound g 64 g ltac:(lia) ltac:(lia)).
  rewrite u64_sub_small by (unfold u64_modulus, max_gas in *; lia). lia.
Qed.

(** A charge: the budget shrinks by twice the cost, and the caller has paid it. *)
Lemma charge_hoare {E} cost (ret : ExitError -> E) F D (paid : Prop) (X : E -> Exec -> Prop) :
  0 <= cost <= max_gas -> (forall er e, held F D e -> X (ret er) e) ->
  hoare (fun e => held F D e ∧ (paid -> se_paid e)) (step_or (on_gasometer (record_cost cost)) ret)
    (fun _ e => held (F - 2 * cost) D e ∧ gas_open (se_gasometer e) ∧ cost <= used_of (se_gasometer e) ∧
       (paid -> cost + 9000 <= used_of (se_gasometer e))) X.
Proof.
  intros Hc HX. apply step_or_hoare. intros e [Hh Hp] e' r E0. destruct (Hh) as (Hi & Hf & Hd).
  destruct (charge_spec e cost e' r Hi Hc E0) as [Hk Hr]. pose proof (held_keeps _ _ _ _ Hh Hk) as Hh'.
  destruct r as [[]|er]; [|by apply HX]. destruct Hr as (Ef & Ho & _ & Eu).
  assert (0 <= used_of (se_gasometer e)) as Hu.
  { unfold used_of. destruct (gm_inner _) as [i|] eqn:Ei; [|done]. by destruct (gw_inner _ (exec_inv_gas e Hi) i Ei) as (_ & ? & _). }
  split_and!; [|done|lia|].
  - destruct Hk as (? & _ & ?). unfold held. split_and!; [done|lia|congruence].
  - intros Hpd. destruct (Hp Hpd). lia.
Qed.

Lemma compute_after_gas_hoare {E} b (ret : ExitError -> E) F D (paid : Prop) (X : E -> Exec -> Prop) :
  (forall er e, held F D e -> X (ret er) e) ->
  hoare (fun e => held F D e ∧ (paid -> se_paid e)) (compute_after_gas b ret)
    (fun g e => 0 <= g <= max_gas ∧ held F D e ∧ (paid -> se_paid e)) X.
Proof.
  intros HX. unfold compute_after_gas. eapply hoare_bind; [apply hoare_get|]. intros e0.
  assert (forall e, held F D e -> 0 <= Gasometer_gas (se_gasometer e) <= max_gas) as Hgas.
  { intros e (Hi & _). destruct (gas_bounds e Hi) as [-> ?]. lia. }
  destruct (b && _); [destruct (cfg_estimate _)|]; cycle 1.
  - apply hoare_ret. intros e (-> & Hh & Hp). split_and!; [| |done..]; pose proof (l64_bounds _ (Hgas e Hh)); specialize (Hgas e Hh); lia.
  - apply hoare_ret. intros e (-> & Hh & Hp). split_and!; [..|done|done]; apply (Hgas e Hh).
  - intros e (-> & Hh & Hp). pose proof (Hgas e Hh) as Hg. pose proof (l64_bounds _ Hg). cbv zeta.
    set (diff := _ -u64 _). assert (0 <= diff <= max_gas) as Hdiff.
    { unfold diff. rewrite u64_sub_small by (unfold u64_modulus, max_gas in *; lia). lia. }
    eapply (hoare_bind (fun e => held F D e ∧ (paid -> se_paid e))); [by apply charge_hoare| |done].
    intros []. eapply hoare_bind; [apply hoare_get|]. intros e1. apply hoare_ret. intros e2 (-> & Hh2 & Ho & Hu & Hpd).
    assert (held F D e2) by (eapply held_mono; [exact Hh2|lia]). split_and!; [by apply Hgas..|done|].
    intros Hpaid. specialize (Hpd Hpaid). split; [done|lia].
Qed.

Definition transfer_value (t : option Transfer) : Z := match t with Some t => tr_value t | None => 0 end.

(** The stipend adds less than the price of a transfer. *)
Lemma call_gas_limit_spec cfg t b g (g' := call_gas_limit cfg t b g) :
  cfg_ok cfg -> 0 <= g <= max_gas ->
  0 <= g' ∧ 2 * g' <= 2 * g + (if b then value_bonus (transfer_value t) else 0) ∧
  (g' <= g ∨ (b = true ∧ transfer_value t ≠ 0 ∧ g' <= g + 9000)).
Proof.
  intros Hc Hg. pose proof (ck_stipend _ Hc) as Hs. unfold g', call_gas_limit, value_bonus, transfer_value.
  destruct t as [t|]; [|destruct b; simpl; lia]. destruct b; simpl; [|lia].
  destruct (Z.eqb_spec (tr_value t) 0); simpl; [lia|]. unfold u64_saturating_add, u64_max, max_gas in *. lia.
Qed.

Definition precompile_ok (r : option (Result PrecompileOutput PrecompileFailure)) : Prop :=
  match r with
  | Some (Ok out) => bytes_ok (po_output out)
  | Some (Err (PrecompileRevert _ out)) => bytes_ok out
  | _ => True
  end.

Lemma precompile_execute_hoare {E} code_address input gas_limit context is_static F D (X : E -> Exec -> Prop) :
  hoare (held F D) (infallible (precompile_execute code_address input gas_limit context is_static))
    (fun r e => precompile_ok r ∧ held F D e) X.
Proof.
  intros e Hh. unfold infallible, precompile_execute. destruct (se_precompiles e !! code_address) as [f|] eqn:Ef; [|done].
  pose proof (xi_precompiles e (proj1 Hh) _ _ Ef input (Some gas_limit) context is_static) as Hf.
  destruct (f _ _ _ _) as [[out cost]|err]; [|destruct err; done]. destruct Hf as [Hout Hcost].
  destruct (on_gasometer (record_cost cost) e) as [e' r] eqn:Er.
  destruct (charge_spec e cost e' r (proj1 Hh) Hcost Er) as [Hk _].
  pose proof (held_keeps _ _ _ _ Hh Hk). by destruct r.
Qed.

Lemma precompile_result_hoare {A} r F D (Q : A -> Exec -> Prop) :
  precompile_ok (Some r) -> hoare (held F (S D)) (precompile_result r) Q (fun x e => bytes_ok x.2 ∧ held (F - 1) D e).
Proof.
  assert (bytes_ok []) as Hnil by (split; [constructor|done]).
  intros Hr. destruct r as [out|[| |]]; cbn [precompile_result]; try (by apply leave_hoare).
  eapply hoare_bind with (Q := fun _ => held F (S D)); [|intros []; by apply leave_hoare].
  apply hoare_modify. intros e Hh. eapply held_keeps; [exact Hh|]. apply keeps_fail, Hh.
Qed.

Lemma Runtime_new_held e code data context F D :
  held F D e -> bytes_ok code -> bytes_ok data -> context_ok context ->
  rt_ok (Runtime_new code data context (cfg_stack_limit (se_config e)) (cfg_memory_limit (se_config e))).
Proof. intros (Hi & _) ? ? ?. pose proof (xi_config e Hi) as []. by apply Runtime_new_ok. Qed.

Lemma touch_keeps e a b : exec_inv e -> b = se_backend e -> keeps e (on_substate (Substate_touch a b) e).
Proof. intros Hi ->. by apply (keeps_account e a (fun x => x)). Qed.

(** Entering a call after its gas has been charged. *)
Lemma enter_call_spec transfer (take_stipend : bool) is_static limit F D
    (bonus := if take_stipend then value_bonus (transfer_value transfer) else 0)
    (paid := take_stipend = true ∧ transfer_value transfer ≠ 0) (e : Exec) :
  0 <= limit <= max_gas ->
  held (F - 2 * limit) D e -> gas_open (se_gasometer e) -> limit <= used_of (se_gasometer e) ->
  (paid -> limit + 9000 <= used_of (se_gasometer e)) ->
  held (F + bonus + 1) (S D)
    (enter_substate (call_gas_limit (se_config e) transfer take_stipend limit) is_static e).
Proof.
  intros Hl Hh Ho Hu Hp. destruct (call_gas_limit_spec (se_config e) transfer take_stipend limit) as (Hn & Hb & Hle);
    [apply (proj1 Hh)|done|].
  eapply held_mono; [apply enter_spec; [exact Hh|done|]|unfold bonus; lia].
  split; [done|]. destruct Hle as [|(? & ? & ?)]; [lia|]. assert paid as Hpd by done. specialize (Hp Hpd). lia.
Qed.

(** What a call or a creation that does not run leaves. *)
Abbreviation call_exit F D := (fun (x : ExitReason * bytes) e => bytes_ok x.2 ∧ held F D e).

(** A call runs in a new layer, or leaves the layers as they were. *)
Lemma call_inner_hoare code_address transfer input target_gas is_static take_l64 (take_stipend : bool) context F D
    (bonus := if take_stipend then value_bonus (transfer_value transfer) else 0)
    (paid := take_stipend = true ∧ transfer_value transfer ≠ 0) :
  bytes_ok input -> context_ok context -> (forall g, target_gas = Some g -> 0 <= g) ->
  (forall t, transfer = Some t -> word (tr_value t)) ->
  hoare (fun e => held F D e ∧ (paid -> se_paid e))
    (call_inner code_address transfer input target_gas is_static take_l64 take_stipend context)
    (fun rt e => tagged_ok rt ∧ held (F + bonus + 1) (S D) e) (call_exit (F + bonus) D).
Proof.
  intros Hin Hctx Htg Htr. assert (0 <= bonus) as Hb by (unfold bonus, value_bonus; repeat case_match; lia).
  assert (bytes_ok []) as Hnil by (split; [constructor|done]).
  assert (forall e, held F D e -> held (F + bonus) D e) as Hm by (intros e Hh; eapply held_mono; [exact Hh|lia]).
  assert (forall (er : ExitError) e, held (F + bonus + 1 - 1) D e -> call_exit (F + bonus) D (ExitReasonError er, []) e) as Hx.
  { intros er e Hh. split; [done|]. eapply held_mono; [exact Hh|lia]. }
  set (G := F + bonus + 1) in *. unfold call_inner.
  eapply hoare_bind; [apply compute_after_gas_hoare; by auto|]. intros after_gas. apply hoare_pure. intros Hag.
  cbv zeta. set (limit := Z.min (default after_gas target_gas) after_gas).
  assert (0 <= limit <= max_gas) as Hlim.
  { unfold limit. destruct target_gas as [g|]; simpl; [specialize (Htg g eq_refl)|]; lia. }
  eapply hoare_bind; [apply charge_hoare; [done|by auto]|]. intros []. eapply hoare_bind; [apply hoare_get|]. intros e0.
  eapply hoare_bind with (Q := fun _ e => se_backend e0 = se_backend e ∧ held G (S D) e).
  { apply hoare_modify. intros e (-> & Hh & Ho & Hu & Hp). split; [done|by apply enter_call_spec]. }
  intros []. eapply hoare_bind with (Q := fun _ => held G (S D)).
  { apply hoare_modify. intros e [Eb Hh]. eapply held_keeps; [exact Hh|]. apply touch_keeps; [apply Hh|done]. }
  intros []. eapply hoare_bind; [apply external_hoare|]. intros []. eapply hoare_bind; [apply hoare_get|]. intros e1.
  eapply (hoare_pre _ (fun e => bytes_ok (stack_code (se_state e1) code_address) ∧ held G (S D) e)).
  2: { intros e [-> Hh]. split; [apply stack_code_ok, Hh|done]. }
  apply hoare_pure. intros Hcode. destruct (too_deep e1); [by apply leave_hoare; auto|].
  eapply hoare_bind with (Q := fun _ => held G (S D)).
  { destruct transfer as [t|]; [|by apply hoare_ret]. eapply hoare_bind; [apply external_hoare|]. intros [].
    apply (step_or_leave_hoare _ _ _ G D); [|done]. intros e Hh e' r E.
    pose proof (keeps_transfer e t (proj1 Hh) (Htr t eq_refl)) as Hk. rewrite E in Hk.
    destruct r; by eapply held_keeps. }
  intros []. eapply hoare_bind; [apply hoare_get|]. intros e2.
  eapply (hoare_pre _ (fun e => held G (S D) e2 ∧ held G (S D) e)); [|by intros e [-> ?]]. apply hoare_pure. intros He2.
  eapply hoare_bind; [apply precompile_execute_hoare|]. intros r. apply hoare_pure. intros Hr. destruct r as [r|].
  - eapply hoare_conseq; [by apply (precompile_result_hoare r G D (fun _ _ => False))|done..|].
    intros x e [? ?]. split; [done|]. eapply held_mono; [done|]. unfold G. lia.
  - apply hoare_ret. intros e Hh. split; [|done]. split; [|done]. by eapply Runtime_new_held.
Qed.

(** The nonce of an account changes only where the code counts it up. *)
Lemma account_of_basic e a : sa_basic (account_of (se_substate e) (se_backend e) a) = stack_basic (se_state e) a.
Proof.
  unfold account_of, stack_basic, known_basic, known_account, se_substate, se_backend. cbn.
  destruct (ly_accounts _ !! a); [done|]. by destruct (layers_account _ a).
Qed.

Lemma nonce_account_mut e a f a' :
  (forall acc, nonce (sa_basic (f acc)) = nonce (sa_basic acc)) ->
  se_nonce (on_substate (account_mut a (se_backend e) f) e) a' = se_nonce e a'.
Proof.
  intros Hf. unfold se_nonce. rewrite <- (account_of_basic e). unfold stack_basic, known_basic, known_account.
  cbn [ss_layers ss_top ss_parents on_top account_mut on_substate set_substate se_state mss_substate mss_backend
       layers_account ly_accounts set_accounts].
  destruct (decide (a' = a)) as [->|Hne].
  - rewrite lookup_insert_eq. cbn. apply Hf.
  - rewrite lookup_insert_ne by done. unfold account_of, known_account. cbn.
    destruct (ly_accounts _ !! a'); [done|]. by destruct (layers_account _ a').
Qed.

Lemma transfer_nonce e t e' r a : se_transfer t e = (e', r) -> se_nonce e' a = se_nonce e a.
Proof.
  unfold se_transfer, try_substate, Substate_transfer, Substate_withdraw. destruct (_ <? _); intros [= <- <-].
  - by apply (nonce_account_mut e (tr_source t) (fun x => x)).
  - set (e1 := on_substate (account_mut (tr_source t) (se_backend e) (add_balance (fun x => x - tr_value t))) e).
    etrans; [exact (nonce_account_mut e1 (tr_target t) (add_balance (fun x => u256_saturating_add x (tr_value t))) a ltac:(done))|].
    by apply nonce_account_mut.
Qed.

Lemma reset_storage_spec e a (e' := on_substate (Substate_reset_storage a (se_backend e)) e) :
  exec_inv e -> keeps e e' ∧ forall a', se_nonce e' a' = se_nonce e a'.
Proof.
  intros Hi. set (e1 := on_substate (on_top (fun l =>
    set_storages (filter (fun p : (H160 * H256) * H256 => p.1.1 ≠ a) (ly_storages l)) l)) e).
  assert (keeps e e1) as Hk1.
  { apply keeps_top; [done| |done]. destruct (exec_inv_top_layer e Hi). split; cbn; try done.
    - intros k v Hv. apply map_lookup_filter_Some in Hv as [? _]. eauto.
    - intros a' k [v Hv]. apply map_lookup_filter_Some in Hv as [? _]. eauto. }
  set (f := fun x => mkStackAccount (sa_basic x) (sa_code x) true).
  change e' with (on_substate (account_mut a (se_backend e1) f) e1). split.
  - eapply keeps_trans; [exact Hk1|]. apply keeps_account; [apply Hk1|]. intros acc []. by split.
  - intros a'. etrans; [by apply nonce_account_mut|]. done.
Qed.

Lemma inc_nonce_zero e a : se_nonce e a = 0 -> exists e', se_inc_nonce a e = (e', Ok tt).
Proof.
  intros Hn. unfold se_inc_nonce, try_substate, Substate_inc_nonce. rewrite account_of_basic.
  unfold se_nonce in Hn. rewrite Hn. eexists. reflexivity.
Qed.

Lemma create_address_word e scheme : scheme_ok scheme -> word (create_address e scheme).
Proof. intros Hs. destruct scheme; cbn; [apply word_H160|apply word_H160|by apply Hs]. Qed.

Abbreviation create_exit F D := (fun (x : ExitReason * option H160 * bytes) e =>
  word (default 0 x.1.2) ∧ bytes_ok x.2 ∧ held F D e).

Lemma step_or_keeps {E} (f : Exec -> Exec * Result unit ExitError) (ret : ExitError -> E) F D X :
  (forall e, exec_inv e -> keeps e (f e).1) -> (forall er e, held F D e -> X (ret er) e) ->
  hoare (held F D) (step_or f ret) (fun _ => held F D) X.
Proof.
  intros Hf HX. apply step_or_hoare. intros e Hh e' r E0. specialize (Hf e (proj1 Hh)). rewrite E0 in Hf.
  pose proof (held_keeps _ _ _ _ Hh Hf). destruct r; auto.
Qed.

(** The state a creation has checked: the new account has never been used. *)
Definition fresh_at (a : H160) (F : Z) (D : nat) (e : Exec) : Prop := se_nonce e a = 0 ∧ held F D e.

(** The rest of a creation once its layer is entered and the address is fresh. *)
Lemma create_setup_hoare {E A} caller address value (fail : ExitError -> E) b (k : Config -> A) F D Q X :
  word value -> (forall er e, held (F - 1) D e -> X (fail er) e) ->
  (forall cfg e, cfg_ok cfg -> held F (S D) e -> Q (k cfg) e) ->
  hoare (fun e => b = se_backend e ∧ fresh_at address F (S D) e)
    (_ ← em_modify (on_substate (Substate_reset_storage address b));
     _ ← step_or_leave (se_transfer (mkTransfer caller address value)) ExitReverted fail;
     e ← em_get;
     _ ← (if cfg_create_increase_nonce (se_config e) then
            _ ← step_or_leave (record_external_operation AccountBasicRead) ExitFailed fail;
            step_or (se_inc_nonce address) fail
          else mret tt);
     mret (k (se_config e)))
    Q X.
Proof.
  intros Hv HX HQ. eapply hoare_bind with (Q := fun _ => fresh_at address F (S D)).
  { apply hoare_modify. intros e [-> [Hn Hh]]. destruct (reset_storage_spec e address (proj1 Hh)) as [Hk Hn'].
    split; [by rewrite Hn'|by eapply held_keeps]. }
  intros []. eapply hoare_bind with (Q := fun _ => fresh_at address F (S D)).
  { apply (step_or_leave_hoare _ _ _ F D); [|done]. intros e [Hn Hh] e' r Et.
    pose proof (keeps_transfer e (mkTransfer caller address value) (proj1 Hh) Hv) as Hk. rewrite Et in Hk.
    pose proof (held_keeps _ _ _ _ Hh Hk). destruct r; [|done]. split; [|done]. by rewrite (transfer_nonce _ _ _ _ _ Et). }
  intros []. eapply hoare_bind; [apply hoare_get|]. intros e0.
  eapply (hoare_pre _ (fun e => cfg_ok (se_config e0) ∧ fresh_at address F (S D) e)).
  2: { intros e [-> Hf]. split; [apply Hf|done]. }
  apply hoare_pure. intros Hc. eapply hoare_bind with (Q := fun _ => held F (S D));
    [|intros []; apply hoare_ret; auto].
  destruct (cfg_create_increase_nonce _); [|apply hoare_ret; by intros e []].
  eapply hoare_bind; [apply external_hoare|]. intros []. apply step_or_hoare. intros e [Hn Hh] e' r Ei.
  destruct (inc_nonce_zero e address Hn) as [e1 Ei']. pose proof (keeps_inc_nonce e address (proj1 Hh)) as Hk.
  rewrite Ei in Ei', Hk. injection Ei' as <- ->. by eapply held_keeps.
Qed.

(** A creation runs in a new layer, or leaves the layers as they were. *)
Lemma create_inner_hoare caller scheme value init_code target_gas take_l64 F D :
  bytes_ok init_code -> word value -> word caller -> scheme_ok scheme -> (forall g, target_gas = Some g -> 0 <= g) ->
  hoare (held F D) (create_inner caller scheme value init_code target_gas take_l64)
    (fun rt e => tagged_ok rt ∧ held (F + 1) (S D) e) (create_exit F D).
Proof.
  intros Hin Hv Hca Hsc Htg. assert (bytes_ok []) as Hnil by (split; [constructor|done]).
  assert (forall (er : ExitError) e, held F D e -> create_exit F D (ExitReasonError er, None, []) e) as Hx.
  { intros er e Hh. split_and!; [apply word_0|done..]. }
  assert (forall (er : ExitError) e, held (F + 1 - 1) D e -> create_exit F D (ExitReasonError er, None, []) e) as Hx'.
  { intros er e Hh. apply Hx. eapply held_mono; [exact Hh|lia]. }
  unfold create_inner. cbv zeta. eapply hoare_bind with (Q := fun e0 e => word (create_address e0 scheme) ∧ held F D e).
  { intros e Hh. split; [by apply create_address_word|done]. }
  intros e0. apply hoare_pure. generalize (create_address e0 scheme). intros address Haddr.
  do 2 (eapply hoare_bind with (Q := fun _ => held F D);
    [apply hoare_modify; intros e Hh; eapply held_keeps; [exact Hh|]; apply keeps_access; [apply Hh|done]|intros []]).
  eapply hoare_bind with (Q := fun _ => held F D); [by intros e Hh|]. intros e1.
  destruct (too_deep e1); [apply hoare_fail; by auto|]. destruct (_ <? value); [apply hoare_fail; by auto|].
  eapply hoare_bind; [by apply step_or_keeps; [intros; by apply keeps_refl|auto]|]. intros [].
  eapply hoare_bind; [by apply step_or_keeps; [intros; by apply keeps_inc_nonce|auto]|]. intros [].
  eapply hoare_bind; [eapply hoare_pre; [by apply (compute_after_gas_hoare _ _ F D False); auto|done]|].
  intros after_gas. apply hoare_pure. intros Hag.
  set (limit := Z.min after_gas (default after_gas target_gas)). assert (0 <= limit <= max_gas) as Hlim.
  { unfold limit. destruct target_gas as [g|]; simpl; [specialize (Htg g eq_refl)|]; lia. }
  eapply hoare_bind; [apply charge_hoare; [done|by auto]|]. intros [].
  eapply hoare_bind with (Q := fun _ => held (F + 1) (S D)).
  { apply hoare_modify. intros e (Hh & Ho & Hu & _). eapply held_mono; [apply enter_spec; [exact Hh|done|lia]|lia]. }
  intros []. eapply hoare_bind; [apply external_hoare|]. intros []. eapply hoare_bind; [apply hoare_get|]. intros e2.
  destruct (negb _); [apply (hoare_pre _ (held (F + 1) (S D))); [by apply leave_hoare; auto|by intros e []]|].
  destruct (Z.ltb_spec 0 (se_nonce e2 address)) as [|Hn];
    [apply (hoare_pre _ (held (F + 1) (S D))); [by apply leave_hoare; auto|by intros e []]|].
  eapply hoare_pre; [apply (create_setup_hoare caller address value _ (se_backend e2) (fun cfg => mkTagged (KindCreate address)
    (Runtime_new init_code [] (mkContext address caller value) (cfg_stack_limit cfg) (cfg_memory_limit cfg))) (F + 1) D)|].
  - done.
  - auto.
  - intros cfg e [] Hh. split; [|done]. split; [|done]. apply Runtime_new_ok; done.
  - intros e [-> Hh]. split; [done|]. split; [|done]. destruct (proj2 (stack_basic_ok e address (proj1 Hh))). unfold se_nonce in *. lia.
Qed.

(** ** The laws of the handler *)

Lemma init_code_keeps code e : exec_inv e -> keeps e (maybe_record_init_code_cost code e).1.
Proof.
  intros Hi. unfold maybe_record_init_code_cost. pose proof (ck_initcode _ (xi_config e Hi)) as Hc.
  destruct (cfg_max_initcode_size (se_config e)) as [limit|]; [|by apply keeps_refl]. simpl in Hc.
  destruct (Z.ltb_spec limit (Z.of_nat (length code))); [by apply keeps_fail|].
  destruct (on_gasometer _ e) as [e' r] eqn:E. eapply charge_spec; [done| |exact E].
  unfold init_code_cost, max_gas. set (n := Z.of_nat (length code)) in *.
  rewrite u64_add_small by (unfold u64_modulus; lia).
  pose proof (Z.div_pos (n + 31) 32 ltac:(lia) ltac:(lia)). pose proof (Z.div_le_upper_bound (n + 31) 32 n ltac:(lia)).
  destruct (decide (n = 0)) as [->|]; [vm_compute; done|]. rewrite u64_mul_small by (unfold u64_modulus; lia). lia.
Qed.

Lemma se_code_hash_word e a : word (se_code_hash e a).
Proof. unfold se_code_hash. case_match; [apply keccak256_word|apply word_0]. Qed.

Lemma stack_code_size_word e a : exec_inv e -> word (stack_code_size (se_state e) a).
Proof.
  intros Hi. destruct (stack_code_ok e a Hi) as [_ Hl]. unfold stack_code_size, word, u256_modulus, usize_max, u64_max in *. lia.
Qed.

#[global] Program Instance StackExecutor_laws : HandlerLaws Exec TaggedRuntime := {|
  hl_inv := exec_inv; hl_fuel := se_fuel; hl_depth := se_depth; hl_paid := se_paid; hl_interrupt := tagged_ok;
  hl_loaded a k e := loaded (se_rw_set e) a k
|}.
Next Obligation. intros e a Hi. apply (stack_basic_ok e a Hi). Qed.
Next Obligation. intros e a Hi. by apply stack_code_size_word. Qed.
Next Obligation. intros e a Hi. apply se_code_hash_word. Qed.
Next Obligation. intros e a Hi. by apply stack_code_ok. Qed.
Next Obligation. intros e Hi. cbn. destruct (gas_bounds e Hi) as [-> ?]. unfold word, u256_modulus, max_gas in *. lia. Qed.
Next Obligation. intros e Hi. apply (bw_environment _ (xi_backend e Hi)). Qed.
Next Obligation. intros e x Hi. apply (bw_randomness _ (xi_backend e Hi)). Qed.
Next Obligation. intros e n Hi. apply (bw_block_hash _ (xi_backend e Hi)). Qed.
Next Obligation.
  intros e a k Hi. eexists _, _. split; [reflexivity|]. split; [by apply (keeps_note_read e a k)|by apply stack_storage_word].
Qed.
Next Obligation. intros. by apply keeps_set_storage. Qed.
Next Obligation. intros. by apply keeps_log. Qed.
Next Obligation. intros. by apply keeps_mark_delete. Qed.
Next Obligation. intros. by apply keeps_refl. Qed.
Next Obligation.
  intros e c op stack Hi Hs. destruct (pre_validate_spec e c op stack Hi Hs) as (e' & r & ? & ? & Hr).
  exists e', r. do 2 (split; [done|]). intros Hok. destruct (Hr Hok) as [(? & ? & ?) ?]. auto.
Qed.
Next Obligation.
  intros e caller scheme value code Hi Hv Hc Hs Hcode. cbn. unfold se_create.
  pose proof (init_code_keeps code e Hi) as Hk. destruct (maybe_record_init_code_cost code e) as [e1 [[]|er]]; cbn in Hk.
  2: { eexists _, _. split; [done|]. destruct Hk as (?&?&?). by split_and!. }
  assert (held (se_fuel e) (se_depth e) e1) as Hh by (by destruct Hk as (?&?&?)).
  pose proof (create_inner_hoare caller scheme value code None true (se_fuel e) (se_depth e) Hcode Hv Hc Hs ltac:(done) e1 Hh) as Hr.
  destruct (create_inner _ _ _ _ _ _ e1) as [[e2 [rt|[[? ?] ?]]]|]; [..|done]; unfold held in Hr; cbn in *;
    eexists _, _; (split; [done|]); naive_solver.
Qed.
Next Obligation.
  intros e a t input gas is_static context Hi Hin Hctx Hg Ht. cbn. unfold se_call.
  pose proof (call_inner_hoare a t input gas is_static true true context (se_fuel e) (se_depth e) Hin Hctx Hg
    (fun t0 E => proj1 (Ht t0 E)) e) as Hr. cbn in Hr.
  assert (held (se_fuel e) (se_depth e) e) as Hh by (by unfold held).
  assert (true = true ∧ transfer_value t ≠ 0 -> se_paid e) as Hp.
  { intros [_ Hne]. destruct t as [t|]; [|done]. by apply (Ht t eq_refl). }
  specialize (Hr (conj Hh Hp)). unfold transfer_value in Hr.
  destruct (call_inner _ _ _ _ _ _ _ _ e) as [[e2 [rt|[? ?]]]|]; [..|done]; unfold held in Hr; cbn in *;
    eexists _, _; (split; [done|]); naive_solver.
Qed.
End executor.
