(* ===== verification/EvmTransactionProps.v ===== *)
(** * Transactions of the stack executor

    The call stack of [execute_with_call_stack] and the layers of the substate grow
    and shrink together.  With the soundness of the runtimes this gives the safety
    of a transaction: it ends within a budget of steps given by its gas limit,
    nothing panics, it uses at most its gas limit, and its effects write only
    slots that are in the recorded write set. *)

From S2P Require Import Prelude Bytes Types EvmConfig Backend EvmWord EvmCore EvmCoreProps.
From S2P Require Import EvmRuntime EvmGas EvmGasProps EvmRuntimeProps EvmSubstate EvmSubstateProps EvmExecutor EvmExecutorProps.
Local Open Scope Z_scope.
Local Open Scope chase_scope.

Section transaction.
Context {B : Type} `{EvmBackend B, HH : Hashes, HLaws : !HashesLaws}.
Context (root : Z) (recording : bool).
Abbreviation Exec := (StackExecutor B).
Abbreviation held := (held root recording).

Lemma nil_ok : bytes_ok [].
Proof. split; [constructor|done]. Qed.

(** ** Leaving a call *)

(** What a runtime leaves as its return value. *)
Definition output_ok (value : bytes) : Prop := Forall byte_ok value ∧ Z.of_nat (length value) <= 32 * max_words.

Lemma output_bytes value : output_ok value -> bytes_ok value.
Proof. intros [? ?]. split; [done|]. unfold max_words, usize_max, u64_max in *. lia. Qed.

Definition result_ok (x : ExitReason * option H160 * bytes) : Prop := word (default 0 x.1.2) ∧ bytes_ok x.2.

Lemma failed_ok reason : result_ok (reason, None, []).
Proof. split; [apply word_0|apply nil_ok]. Qed.

Lemma fail_create_spec {A} (ret : A) (e : Exec) F D :
  held F (S D) e -> exists e', fail_create ret e = Some (e', ret) ∧ held (F - 1) D e'.
Proof.
  intros Hh. unfold fail_create.
  destruct (exit_spec root recording ExitFailed (gasometer_fail e) F D) as (e' & -> & He'); [|eauto].
  eapply held_keeps; [exact Hh|]. apply keeps_fail, Hh.
Qed.

Lemma deposit_keeps value (e : Exec) :
  output_ok value -> exec_inv root recording e -> keeps root recording e (on_gasometer (record_deposit (Z.of_nat (length value))) e).1.
Proof.
  intros [_ Hl] Hi. unfold record_deposit, G_CODEDEPOSIT, max_words in *.
  rewrite u64_mul_small by (unfold u64_modulus; lia).
  destruct (on_gasometer _ e) as [e' r] eqn:E. eapply charge_spec; [done| |exact E]. unfold max_gas. lia.
Qed.

Lemma cleanup_for_create_spec a reason value (e : Exec) F D :
  held F (S D) e -> word a -> output_ok value ->
  exists e' x, cleanup_for_create a reason value e = Some (e', x) ∧ result_ok x ∧ held (F - 1) D e'.
Proof.
  intros Hh Ha Hv. assert (forall r, exists e' x, fail_create (r, None, []) e = Some (e', x) ∧ result_ok x ∧ held (F - 1) D e') as Hfail.
  { intros r. destruct (fail_create_spec (r, @None H160, @nil Z) e F D Hh) as (e' & ? & ?). eauto using failed_ok. }
  destruct reason as [s|er|r|f]; cbn [cleanup_for_create]; [|by apply Hfail| |by apply Hfail].
  2: { destruct (exit_spec root recording ExitReverted e F D Hh) as (e' & -> & ?). eexists _, _. split_and!; [done| |done].
       split; [apply word_0|by apply output_bytes]. }
  destruct (check_first_byte _ _); [|by apply Hfail]. destruct (exceeds _ _); [by apply Hfail|].
  pose proof (deposit_keeps value e Hv (proj1 Hh)) as Hk.
  destruct (on_gasometer _ e) as [e1 r1]. pose proof (held_keeps root recording _ _ _ _ Hh Hk) as Hh1. cbn in Hh1.
  destruct r1 as [[]|er].
  - destruct (exit_spec root recording ExitSucceeded e1 F D Hh1) as (e2 & -> & Hh2). cbn [record_external_operation].
    eexists _, _. split; [done|]. split; [by split; [|apply nil_ok]|].
    eapply held_keeps; [exact Hh2|]. apply keeps_account; [apply Hh2|]. intros acc []. split; [done|].
    intros c [= <-]. by apply output_bytes.
  - destruct (exit_spec root recording ExitFailed e1 F D Hh1) as (e2 & -> & Hh2). eexists _, _. split_and!; [done|apply failed_ok|done].
Qed.

Lemma cleanup_for_call_spec a reason value (e : Exec) F D :
  held F (S D) e -> output_ok value ->
  exists e' data, cleanup_for_call a reason value e = Some (e', data) ∧ bytes_ok data ∧ held (F - 1) D e'.
Proof.
  intros Hh Hv. pose proof (output_bytes value Hv). destruct reason as [s|er|r|f]; cbn [cleanup_for_call].
  - destruct (exit_spec root recording ExitSucceeded e F D Hh) as (e' & -> & ?). eauto.
  - destruct (exit_spec root recording ExitFailed e F D Hh) as (e' & -> & ?). eauto using nil_ok.
  - destruct (exit_spec root recording ExitReverted e F D Hh) as (e' & -> & ?). eauto.
  - destruct (fail_create_spec (@nil Z) e F D Hh) as (e' & -> & ?). eauto using nil_ok.
Qed.

Lemma cleanup_spec kind reason value (e : Exec) F D :
  held F (S D) e -> kind_ok kind -> output_ok value ->
  exists e' x, cleanup kind reason value e = Some (e', x) ∧ result_ok x ∧ held (F - 1) D e'.
Proof.
  intros Hh Hk Hv. destruct kind as [a|a|]; cbn [cleanup]; [by apply cleanup_for_create_spec| |done].
  destruct (cleanup_for_call_spec a reason value e F D Hh Hv) as (e' & data & -> & ? & ?).
  eexists _, _. split_and!; [done| |done]. split; [apply word_0|done].
Qed.

(** ** The call stack *)

(** The reasons after which no call is left open. *)
Definition is_clean (reason : ExitReason) : bool :=
  match reason with Succeed _ | Revert _ => true | _ => false end.

(** Resuming a runtime fails with an error or a fatal reason. *)
Definition unclean {A} (c : RuntimeM A) : Prop :=
  forall rt rt' reason, c rt = Some (rt', Err reason) -> is_clean reason = false.

Lemma unclean_bind {A A'} (c : RuntimeM A) (f : A -> RuntimeM A') :
  unclean c -> (forall x, unclean (f x)) -> unclean (c ≫= f).
Proof.
  intros Hc Hf rt rt' reason. unfold mbind, EM_bind. destruct (c rt) as [[rt1 [x|er]]|] eqn:E; [apply Hf| |done].
  intros [= <- <-]. by eapply Hc.
Qed.

Lemma unclean_push x : unclean (on_machine (push_u256 x)).
Proof. intros rt rt' reason. unfold on_machine, push_u256. by destruct (Stack_push _ _) as [s [[]|er]]; intros [= <- <-]. Qed.

Lemma unclean_copy a b l d : unclean (on_machine (try_copy_large a b l d)).
Proof. intros rt rt' reason. unfold on_machine, try_copy_large. by destruct (Memory_copy_large _ _ _ _ _). Qed.

Lemma unclean_modify f : unclean (em_modify f).
Proof. by intros rt rt' reason. Qed.

Lemma unclean_fatal {A} f : unclean (em_fail (A := A) (Fatal f)).
Proof. by intros rt rt' reason [= <- <-]. Qed.

Lemma unclean_ret {A} (x : A) : unclean (mret x).
Proof. by intros rt rt' reason. Qed.

Lemma resume_unclean kind x : unclean (resume kind x).
Proof.
  pose proof unclean_push. pose proof unclean_copy.
  assert (forall r a d, unclean (finish_create r a d)) as Hcreate.
  { intros [] a d; (apply unclean_bind; [apply unclean_modify|intros []]); auto;
      apply unclean_bind; auto using unclean_fatal. }
  assert (forall l o r d, unclean (finish_call l o r d)) as Hcall.
  { intros l o [] d; (apply unclean_bind; [apply unclean_modify|intros []]); auto;
      (apply unclean_bind; [by auto|intros ?]); auto using unclean_fatal.
    apply unclean_bind; auto using unclean_ret. }
  destruct x as [[r a] d]. destruct kind; simpl; [apply Hcreate|..];
    (apply unclean_bind; [by intros rt rt' reason|intros rt; apply Hcall]).
Qed.

Lemma resume_hoare kind x : result_ok x -> hoare rt_ok (resume kind x) (fun _ => rt_ok) (fun _ _ => True).
Proof.
  intros [Ha Hd]. destruct x as [[r a] d]. destruct kind; simpl in *;
    (eapply hoare_conseq; [first [by apply finish_create_hoare|by apply Runtime_finish_call_hoare]|done..]).
Qed.

(** Handing over: a layer and a runtime are left, and the rest goes on. *)
Lemma hand_over_spec frame reason rest (e : Exec) F :
  tagged_ok frame -> Forall tagged_ok rest -> held F (S (length rest)) e ->
  exists e' h, hand_over frame reason rest e = Some (e', h) ∧
    match h with
    | Unwound x => exists D, held (F - 1) D e' ∧ (is_clean x.1.1 = true -> D = 0%nat)
    | Resumed call_stack => Forall tagged_ok call_stack ∧ held (F - 1) (length call_stack) e'
    end.
Proof.
  intros [Hrt Hkind] Hrest Hh. unfold hand_over.
  destruct (return_value_spec (rt_machine (tagged_inner frame))) as (value & -> & Hb & Hl);
    [apply (ro_machine _ Hrt)|apply (ro_range _ Hrt)|]. cbn [mbind option_bind].
  destruct (cleanup_spec (tagged_kind frame) reason value e F (length rest) Hh Hkind (conj Hb Hl)) as (e1 & x & -> & Hx & Hh1).
  cbn [mbind option_bind]. destruct rest as [|parent rest].
  { eexists _, _. split; [done|]. exists 0%nat. done. }
  apply Forall_cons in Hrest as [[Hprt Hpk] Hrest].
  pose proof (resume_hoare (tagged_kind frame) x Hx (tagged_inner parent) Hprt) as Hr.
  pose proof (resume_unclean (tagged_kind frame) x (tagged_inner parent)) as Hu.
  destruct (resume _ _ _) as [[inner [[]|er]]|]; [..|done]; cbn [mbind option_bind]; eexists _, _; (split; [done|]).
  - split; [|done]. by constructor.
  - eexists. split; [exact Hh1|]. cbn. specialize (Hu _ _ eq_refl). congruence.
Qed.

(** The loop of the call stack ends within its budget. *)
Lemma execute_with_call_stack_spec fuel call_stack (e : Exec) F :
  Forall tagged_ok call_stack -> held F (length call_stack) e -> F < Z.of_nat fuel ->
  exists e' x D, execute_with_call_stack fuel call_stack e = Finished (e', x) ∧
    held F D e' ∧ (is_clean x.1.1 = true -> D = 0%nat).
Proof.
  revert call_stack e F. induction fuel as [|fuel IH]; intros cs e F Hcs Hh Hf.
  { pose proof (se_fuel_nonneg root recording e (proj1 Hh)). destruct Hh as (_ & ? & _). lia. }
  cbn [execute_with_call_stack]. destruct cs as [|frame rest]; [eexists _, _, _; split; [done|]; by split|].
  apply Forall_cons in Hcs as [[Hrt Hkind] Hrest]. destruct (Hh) as (Hi & Hfe & Hd).
  destruct (Runtime_run_sound (HL := StackExecutor_laws root recording) (S fuel) (tagged_inner frame) e)
    as (inner & e1 & c & -> & Hinner & Hi1 & Hc); [exact (se_fuel_nonneg root recording)|done|exact Hi|cbn; lia|].
  assert (forall e2 cs2, Forall tagged_ok cs2 -> held (F - 1) (length cs2) e2 ->
    exists e' x D, execute_with_call_stack fuel cs2 e2 = Finished (e', x) ∧ held F D e' ∧ (is_clean x.1.1 = true -> D = 0%nat)) as Hgo.
  { intros e2 cs2 Hcs2 Hh2. destruct (IH cs2 e2 (F - 1) Hcs2 Hh2 ltac:(lia)) as (e' & x & D & -> & Hh' & Hcl).
    eexists _, _, _. split; [done|]. split; [by eapply held_mono; [exact Hh'|lia]|done]. }
  destruct c as [reason|[i|i]].
  - destruct Hc as [Hf1 Hd1].
    destruct (hand_over_spec (mkTagged (tagged_kind frame) inner) reason rest e1 F) as (e2 & h & -> & Hh2);
      [by split|done| |].
    + split_and!; [done|cbn in *; lia|cbn in *; congruence].
    + destruct h as [x|cs2].
      * destruct Hh2 as (D & ? & ?). eexists _, _, _. split; [done|]. split; [eapply held_mono; [eassumption|lia]|done].
      * destruct Hh2. by apply Hgo.
  - destruct Hc as (Hti & Hf1 & Hd1). apply Hgo; [constructor; [exact Hti|by constructor]|].
    split_and!; [done|cbn in *; lia|cbn in *; congruence].
  - destruct Hc as (Hti & Hf1 & Hd1). apply Hgo; [constructor; [exact Hti|by constructor]|].
    split_and!; [done|cbn in *; lia|cbn in *; congruence].
Qed.

(** ** Transactions *)

(** How a transaction ends: within the budget, and with no open call after success
    or revert. *)
Definition settled (F : Z) (r : Run (Exec * (ExitReason * bytes))) : Prop :=
  exists e' reason out D, r = Finished (e', (reason, out)) ∧ held F D e' ∧ (is_clean reason = true -> D = 0%nat).

Lemma settled_now F (e : Exec) reason out : held F 0 e -> settled F (Finished (e, (reason, out))).
Proof. intros Hh. by exists e, reason, out, 0%nat. Qed.

Lemma run_first_spec {R} fuel (c : EM Exec R TaggedRuntime) (get : R -> ExitReason * bytes) F (e : Exec) :
  hoare (held F 0) c (fun rt e => tagged_ok rt ∧ held (F + 1) 1 e) (fun _ e => held F 0 e) ->
  held F 0 e -> F + 1 < Z.of_nat fuel ->
  settled (F + 1) (run_first fuel (to_capture (c e)) get).
Proof.
  intros Hc Hh Hf. specialize (Hc e Hh). destruct (c e) as [[e1 [rt|x]]|]; [..|done]; cbn [to_capture run_first].
  - destruct Hc as [Ht Hh1].
    destruct (execute_with_call_stack_spec fuel [rt] e1 (F + 1)) as (e' & x & D & -> & ? & ?); [by apply Forall_singleton|done..|].
    cbn. by exists e', x.1.1, x.2, D.
  - destruct (get x) as [reason out]. apply settled_now. eapply held_mono; [exact Hc|lia].
Qed.

Lemma on_gasometer_keeps {A} (f : Gasometer -> Gasometer * A) (e : Exec) :
  exec_inv root recording e ->
  (forall g x, f (se_gasometer e) = (g, x) -> gas_wf g ∧ same_meter (se_gasometer e) g ∧ gas_of g <= gas_of (se_gasometer e)) ->
  keeps root recording e (on_gasometer f e).1.
Proof.
  intros Hi Hf. unfold on_gasometer. destruct (f (se_gasometer e)) as [g x]. destruct (Hf g x eq_refl) as (?&?&?).
  by apply keeps_gasometer.
Qed.

Lemma record_transaction_keeps cost (e : Exec) :
  exec_inv root recording e -> keeps root recording e (on_gasometer (record_transaction cost) e).1.
Proof.
  intros Hi. apply on_gasometer_keeps; [done|]. intros g r E. pose proof (exec_inv_gas _ _ e Hi) as Hw.
  destruct (record_transaction_spec _ _ _ _ Hw (transaction_gas_nonneg _ _) E) as (Hg & Hs & Hr).
  pose proof (gas_of_bounds _ Hw). pose proof (transaction_gas_nonneg cost (gm_config (se_gasometer e))).
  split_and!; [done..|]. destruct r; [destruct Hr|]; lia.
Qed.

Lemma initialize_keeps al (e : Exec) : exec_inv root recording e -> keeps root recording e (initialize_with_access_list al e).
Proof.
  intros Hi. assert (keeps root recording e (on_metadata (access_addresses (fst <$> al)) e)) as Hk by (by apply keeps_access).
  eapply keeps_trans; [exact Hk|]. apply keeps_access; [apply Hk|done].
Qed.

Lemma warm_initial_keeps caller address al (e : Exec) :
  exec_inv root recording e -> keeps root recording e (warm_initial caller address al e).
Proof.
  intros Hi. unfold warm_initial. destruct (cfg_increase_state_access_gas _); [|by apply keeps_refl].
  eapply keeps_trans; [|apply initialize_keeps]; by apply keeps_access.
Qed.

Lemma se_transact_call_spec fuel caller address value data gas_limit al (e : Exec) F :
  held F 0 e -> word caller -> word address -> word value -> bytes_ok data -> 0 <= gas_limit -> F + 1 < Z.of_nat fuel ->
  settled (F + 1) (se_transact_call fuel caller address value data gas_limit al e).
Proof.
  intros Hh Hc Ha Hv Hd Hg Hf. unfold se_transact_call.
  pose proof (record_transaction_keeps (call_transaction_cost data al) e (proj1 Hh)) as Hk.
  destruct (on_gasometer _ e) as [e1 [[]|er]]; cbn in Hk; pose proof (held_keeps _ _ _ _ _ _ Hh Hk) as Hh1.
  2: { apply settled_now. eapply held_mono; [exact Hh1|lia]. }
  pose proof (held_keeps _ _ _ _ _ _ Hh1 (warm_initial_keeps caller address al e1 (proj1 Hh1))) as Hh2.
  cbn [record_external_operation]. set (e2 := warm_initial caller address al e1) in *.
  pose proof (keeps_inc_nonce _ _ e2 caller (proj1 Hh2)) as Hk3.
  destruct (se_inc_nonce caller e2) as [e3 [[]|er]]; cbn in Hk3; pose proof (held_keeps _ _ _ _ _ _ Hh2 Hk3) as Hh3.
  2: { apply settled_now. eapply held_mono; [exact Hh3|lia]. }
  apply run_first_spec; [|done|done].
  eapply hoare_conseq; [apply (call_inner_hoare root recording address (Some (mkTransfer caller address value)) data
    (Some gas_limit) false false false (mkContext address caller value) F 0)|..].
  - done.
  - by split_and!.
  - by intros g [= <-].
  - by intros t [= <-].
  - intros e0 He0. split; [done|]. by intros [? _].
  - intros rt e0 [? ?]. split; [done|]. eapply held_mono; [eassumption|lia].
  - intros x e0 [_ ?]. eapply held_mono; [eassumption|lia].
Qed.

Lemma create_with_spec fuel caller scheme value init_code gas_limit al (e : Exec) F :
  held F 0 e -> word caller -> scheme_ok scheme -> word value -> bytes_ok init_code -> 0 <= gas_limit ->
  F + 1 < Z.of_nat fuel ->
  settled (F + 1) (create_with fuel caller scheme value init_code gas_limit al e).
Proof.
  intros Hh Hc Hs Hv Hd Hg Hf. unfold create_with. destruct (exceeds _ _).
  { apply settled_now. eapply held_mono; [eapply held_keeps; [exact Hh|apply keeps_fail, Hh]|lia]. }
  unfold record_create_transaction_cost.
  pose proof (record_transaction_keeps (create_transaction_cost init_code al) e (proj1 Hh)) as Hk.
  destruct (on_gasometer _ e) as [e1 [[]|er]]; cbn in Hk; pose proof (held_keeps _ _ _ _ _ _ Hh Hk) as Hh1.
  2: { apply settled_now. eapply held_mono; [exact Hh1|lia]. }
  pose proof (held_keeps _ _ _ _ _ _ Hh1 (initialize_keeps al e1 (proj1 Hh1))) as Hh2. cbv zeta.
  apply run_first_spec; [|done|done].
  eapply hoare_conseq; [apply (create_inner_hoare root recording caller scheme value init_code (Some gas_limit) false F 0)|..];
    try done.
  - by intros g [= <-].
  - by intros x e0 (_ & _ & ?).
Qed.

(** ** Gas and effects of a settled transaction *)

Lemma chain_limit cfg rw limit parents :
  Forall (layer_ok cfg rw) parents -> chain root limit parents -> limit <= root.
Proof.
  revert limit. induction parents as [|l ls IH]; intros limit Hl; simpl; [lia|].
  apply Forall_cons in Hl as [Hl Hls]. intros ([i Ei] & Hu & Hch). specialize (IH _ Hls Hch).
  destruct (gw_inner _ (lk_gas _ _ _ Hl) i Ei) as (? & ? & ?). unfold used_of in Hu. rewrite Ei in Hu. lia.
Qed.

(** A refund never exceeds its share of the gas used. *)
Lemma used_gas_bounds (e : Exec) : exec_inv root recording e -> 0 <= used_gas e <= root.
Proof.
  intros Hi. pose proof (exec_inv_gas _ _ e Hi) as Hw. unfold used_gas. rewrite total_used_spec by done.
  pose proof (gas_of_bounds _ Hw). pose proof (gw_limit _ Hw). pose proof (ck_quotient _ (xi_config _ _ _ Hi)).
  assert (gm_gas_limit (se_gasometer e) <= root).
  { pose proof (xi_layers _ _ _ Hi) as Hl. apply Forall_cons in Hl as [_ Hl]. eapply chain_limit; [exact Hl|apply Hi]. }
  set (total := gm_gas_limit (se_gasometer e) - gas_of (se_gasometer e)) in *.
  pose proof (Z.mod_pos_bound (refunded_gas (se_gasometer e)) u64_modulus ltac:(done)).
  pose proof (Z.div_pos total (cfg_max_refund_quotient (se_config e)) ltac:(lia) ltac:(lia)).
  assert (total / cfg_max_refund_quotient (se_config e) <= total) by (apply Z.div_le_upper_bound; nia).
  rewrite u64_sub_small by (unfold u64_modulus, max_gas in *; lia). lia.
Qed.

(** The slots an effect writes. *)
Definition effect_slot (effects : list Apply) (a : H160) (k : H256) : Prop :=
  exists basic code storage reset, Modify a basic code storage reset ∈ effects ∧ is_Some (storage !! k).

Lemma effects_written (e : Exec) :
  exec_inv root recording e -> se_depth e = 0%nat ->
  exists effects logs, stack_deconstruct (se_state e) = Some (effects, logs) ∧
    forall a k, effect_slot effects a k -> written (se_rw_set e) a k.
Proof.
  intros Hi Hd. unfold stack_deconstruct, Substate_deconstruct. unfold se_depth, se_substate in Hd.
  destruct (ss_parents (mss_substate (se_state e))); [|done]. eexists _, _. split; [done|].
  intros a k (basic & code & storage & reset & Hin & Hk).
  apply elem_of_app in Hin as [Hin|Hin]; [|by apply list_elem_of_fmap in Hin as (? & ? & _)].
  apply list_elem_of_fmap in Hin as (a' & [= -> -> -> -> ->] & _).
  rewrite address_storage_lookup in Hk. by apply (lk_written _ _ _ (exec_inv_top_layer _ _ e Hi)).
Qed.

(** The effects hold words and bytes. *)
Definition effect_ok (eff : Apply) : Prop :=
  match eff with
  | Modify _ basic code storage _ =>
      basic_ok basic ∧ (forall c, code = Some c -> bytes_ok c) ∧ map_Forall (fun _ => word) storage
  | Delete _ => True
  end.

Lemma effects_well_formed (e : Exec) effects logs :
  exec_inv root recording e -> stack_deconstruct (se_state e) = Some (effects, logs) -> Forall effect_ok effects.
Proof.
  intros Hi. unfold stack_deconstruct, Substate_deconstruct. destruct (ss_parents _); [|done]. intros [= <- <-].
  apply Forall_app. split; apply Forall_fmap, Forall_forall; [|done]. intros a _. simpl.
  destruct (account_of_ok _ _ e a Hi) as [Hb Hc]. split_and!; [done..|].
  intros k v. rewrite address_storage_lookup. apply (lk_storages _ _ _ (exec_inv_top_layer _ _ e Hi)).
Qed.
End transaction.

(** ** Transactions on a storage *)

Section storage.
Context {B : Type} `{EvmBackend B, HH : Hashes, HLaws : !HashesLaws}.

Record storage_ok (s : EvmStorage B) : Prop := {
  so_config : cfg_ok (chain_config s);
  so_backend : backend_wf (backend s);
  so_precompiles : precompiles_ok (precompiles s)
}.

Lemma storage_executor_held s gas simulation :
  storage_ok s -> 0 <= gas <= max_gas -> held gas simulation (2 * gas) 0 (storage_executor s gas simulation).
Proof.
  intros [] Hg. split_and!; [split; cbn; try done|change (2 * (gas - 0 - 0 + 0) + 0 <= 2 * gas); lia|done].
  - apply Forall_singleton. split; cbn; try done; [by apply Gasometer_new_wf|by intros a k []].
  - by destruct simulation.
  - intros r a m k Hr Hm. destruct simulation; [|done]. injection Hr as <-. done.
Qed.

(** The run ends; it uses at most the gas limit; every slot of the recorded write
    set is in the read set too; after success or revert the effects can be taken,
    and they write only slots of the write set. *)
Definition transaction_safe (gas : Z) (simulation : bool) (r : Run (StackExecutor B * (ExitReason * bytes))) : Prop :=
  exists e reason out, r = Finished (e, (reason, out)) ∧ 0 <= used_gas e <= gas ∧
    bool_decide (is_Some (se_rw_set e)) = simulation ∧ writes_loaded (se_rw_set e) ∧
    (is_clean reason = true ->
     exists effects logs, stack_deconstruct (se_state e) = Some (effects, logs) ∧
       forall a k, effect_slot effects a k -> forall rw, se_rw_set e = Some rw ->
         exists slots, write_set rw !! a = Some slots ∧ is_Some (slots !! k)).

Lemma settled_safe gas simulation F r : settled gas simulation F r -> transaction_safe gas simulation r.
Proof.
  intros (e & reason & out & D & -> & (Hi & _ & Hd) & Hcl). exists e, reason, out.
  split_and!; [done|by apply (used_gas_bounds gas simulation)..|apply Hi|apply Hi|].
  intros Hc. destruct (effects_written gas simulation e Hi) as (effects & logs & ? & ?); [by rewrite Hd, Hcl|].
  by exists effects, logs.
Qed.

End storage.

(** ** A sample storage *)

Record account_wf (acc : MemoryAccount) : Prop := {
  aw_basic : word (acc_balance acc) ∧ word (acc_nonce acc);
  aw_code : bytes_ok (acc_code acc);
  aw_storage : forall k v, acc_storage acc !! k = Some v -> word v
}.

(** A memory backend that holds words and bytes is well formed. *)
Lemma MemoryBackend_wf b (v := mb_vicinity b) :
  Forall word ([gas_price v; origin v; block_number v; block_coinbase v; block_timestamp v; block_difficulty v;
    block_gas_limit v; block_base_fee_per_gas v; chain_id v] ++ block_hashes v) ->
  (forall x, block_randomness v = Some x -> word x) ->
  map_Forall (fun _ => account_wf) (mb_state b) -> backend_wf b.
Proof.
  intros Hw Hr Hs. apply Forall_app in Hw as [Henv Hh]. split; cbn; [..|done|done|].
  - intros a. unfold MemoryBackend_basic. destruct (mb_state b !! a) as [acc|] eqn:E; [by apply (Hs a acc E)|done].
  - intros a. unfold MemoryBackend_code. destruct (mb_state b !! a) as [acc|] eqn:E; [by apply (Hs a acc E)|].
    split; [constructor|done].
  - intros a k. unfold MemoryBackend_storage. destruct (mb_state b !! a) as [acc|] eqn:E; [|apply word_0].
    destruct (acc_storage acc !! k) eqn:Ek; [by apply (aw_storage _ (Hs a acc E) k)|apply word_0].
  - intros n [Hn _]. unfold vicinity_block_hash. fold v.
    destruct (Z.geb_spec n (block_number v)); [exists 0; split; [done|apply word_0]|].
    destruct (Z.geb_spec (block_number v - n - 1) (Z.of_nat (length (block_hashes v)))); [exists 0; split; [done|apply word_0]|].
    simpl. destruct (lookup_lt_is_Some_2 (block_hashes v) (Z.to_nat (block_number v - n - 1))) as [x Hx]; [lia|].
    exists x. split; [done|]. by eapply Forall_lookup_1.
Qed.

(** What committing well-formed effects promises. *)
Class WfBackend (B : Type) `{StorageBackend B, EvmBackend B} : Prop := {
  apply_wf (b : B) es : backend_wf b -> Forall effect_ok es -> backend_wf (be_apply b es false)
}.

#[global] Instance MemoryBackend_WfBackend : WfBackend MemoryBackend.
Proof.
  split. intros b es Hb Hes. revert b Hb. induction Hes as [|e es He _ IH]; intros b Hb; [by destruct b|].
  change (be_apply b (e :: es) false) with (be_apply (be_apply b [e] false) es false). apply IH. clear IH es.
  pose proof (fun a k => be_storage_apply b [e] a k) as Hs. simpl in Hs.
  destruct Hb as [H1 H2 H3 H4 H5 H6]. split; [..|done|done|done].
  - intros a. specialize (H1 a). cbn in *. unfold MemoryBackend_basic in *. simpl.
    destruct e as [a' basic code st reset|a']; cbn [apply_one].
    + rewrite andb_false_r. destruct (decide (a = a')) as [->|Hne]; [rewrite lookup_insert_eq|by rewrite lookup_insert_ne].
      by destruct He as [[] _].
    + destruct (decide (a = a')) as [->|Hne]; [by rewrite lookup_delete_eq|by rewrite lookup_delete_ne].
  - intros a. specialize (H2 a). cbn in *. unfold MemoryBackend_code in *. simpl.
    destruct e as [a' basic code st reset|a']; cbn [apply_one].
    + rewrite andb_false_r. destruct (decide (a = a')) as [->|Hne]; [rewrite lookup_insert_eq|by rewrite lookup_insert_ne].
      simpl. destruct code as [c|]; [by apply He|]. by destruct (mb_state b !! a').
    + destruct (decide (a = a')) as [->|Hne]; [rewrite lookup_delete_eq; split; [constructor|done]|by rewrite lookup_delete_ne].
  - intros a k. specialize (H3 a k). cbn in *. rewrite Hs. unfold effect_storage.
    destruct e as [a' basic code st reset|a']; case_decide; try done.
    destruct He as (_ & _ & Hst). destruct (st !! k) as [v|] eqn:E; [by apply (Hst k)|]. destruct reset; [apply word_0|done].
Qed.

(** A hash with the range of keccak. *)
#[local] Instance sample_hashes : Hashes := {
  keccak256 b := foldl (fun h x => (h * 257 + x + 1) mod u256_modulus) 0 b;
  rlp_address_nonce a n := be_bytes 20 a ++ be_bytes 32 n
}.

#[local] Instance sample_hashes_laws : HashesLaws.
Proof.
  split. intros b. unfold keccak256, sample_hashes. assert (forall h, word h ->
    word (foldl (fun h x => (h * 257 + x + 1) mod u256_modulus) h b)) as Hg; [|apply Hg, word_0].
  induction b as [|x b IH]; intros h Hh; simpl; [done|]. apply IH. unfold word. by apply Z.mod_pos_bound.
Qed.

(** Contract 7 counts its calls in slot 0: PUSH1 0, SLOAD, PUSH1 1, ADD, PUSH1 0, SSTORE, STOP. *)
Definition counter_code : bytes := [0x60; 0; 0x54; 0x60; 1; 0x01; 0x60; 0; 0x55; 0x00].

Definition counter_storage : EvmStorage MemoryBackend :=
  mkEvmStorage
    (mkMemoryBackend genesis_vicinity
       (<[5 := mkAccount 0 1000 ∅ []]> {[7 := mkAccount 1 0 {[0 := 41]} counter_code]})) ∅ istanbul.

Lemma counter_storage_ok : storage_ok counter_storage.
Proof.
  split; [|apply MemoryBackend_wf|].
  - eapply Forall_lookup_1; [exact forks_cfg_ok|]. by instantiate (1 := 1%nat).
  - by repeat constructor.
  - done.
  - apply map_Forall_insert_2; [|apply map_Forall_singleton]; split; cbn; try done.
    + by repeat constructor.
    + intros k v. rewrite lookup_singleton_Some. by intros [_ <-].
  - intros a f Hf. done.
Qed.

Section theorems.
Context {B : Type} `{EvmBackend B, HH : Hashes, HLaws : !HashesLaws}.

(** C3. A call transaction of a well-formed storage is safe: it ends within a
    number of steps given by its gas limit, nothing panics, it uses at most its gas
    limit, every slot of the recorded write set is in the read set, and after
    success its effects write only slots of the write set the scheduler works
    with. *)
Theorem transact_call_safe s caller address value data gas al simulation fuel :
  storage_ok s -> word caller -> word address -> word value -> bytes_ok data ->
  0 <= gas <= max_gas -> 2 * gas + 1 < Z.of_nat fuel ->
  transaction_safe gas simulation
    (se_transact_call fuel caller address value data gas al (storage_executor s gas simulation)).
Proof.
  intros Hs Hc Ha Hv Hd Hg Hf. eapply settled_safe, se_transact_call_spec; [by apply storage_executor_held|done..|lia|lia].
Qed.

(** A create transaction is safe in the same way. *)
Theorem transact_create_safe s caller value init_code gas al simulation fuel :
  storage_ok s -> word caller -> word value -> bytes_ok init_code ->
  0 <= gas <= max_gas -> 2 * gas + 1 < Z.of_nat fuel ->
  transaction_safe gas simulation
    (se_transact_create fuel caller value init_code gas al (storage_executor s gas simulation)).
Proof.
  intros Hs Hc Hv Hd Hg Hf. eapply settled_safe, create_with_spec; [by apply storage_executor_held|done..|lia|lia].
Qed.
End theorems.

Lemma transact_call_safe_witness :
  transaction_safe 100000 true
    (se_transact_call (Z.to_nat 200002) 5 7 0 [] 100000 [] (storage_executor counter_storage 100000 true)).
Proof.
  apply (transact_call_safe counter_storage 5 7 0 [] 100000 [] true (Z.to_nat 200002));
    [exact counter_storage_ok|by split..|by repeat constructor|unfold max_gas; lia|lia].
Defined.

Lemma transact_create_safe_witness :
  transaction_safe 100000 true
    (se_transact_create (Z.to_nat 200002) 5 0 counter_code 100000 [] (storage_executor counter_storage 100000 true)).
Proof.
  apply (transact_create_safe counter_storage 5 0 counter_code 100000 [] true (Z.to_nat 200002));
    [exact counter_storage_ok|by split..|by repeat constructor|unfold max_gas; lia|lia].
Defined.
