(* ===== verification/EvmLocality.v ===== *)
(** * A transaction depends on storage only through its read set

    Two runs of the executor, on backends that hold the same accounts and agree on
    the slots the first run records as read, go in lockstep: they end for the same
    reason with the same output, gas, substate and read-write set.  This is what
    the scheduler assumes of the read sets it gets.

    [lock] relates two stateful computations; the runtime is shown to go in
    lockstep over any handler whose operations do ([OpsTrace], [HandlerTrace]), and
    the executor is such a handler. *)

From S2P Require Import Prelude Bytes Types EvmConfig Backend EvmWord EvmCore.
From S2P Require Import EvmRuntime EvmGas EvmSubstate EvmExecutor EvmExecutorProps EvmTransactionProps.
Local Open Scope Z_scope.
Local Open Scope chase_scope.

(** ** Lockstep *)

Section lock.
Context {S : Type} (swap : S -> S) (ok fits : S -> Prop).

(** What [f1] does from a state, [f2] does from its image, provided the final state
    of [f1] fits; a state fits when a later one does. *)
Definition lock {A} (f1 f2 : S -> option (S * A)) : Prop :=
  forall s s' x, ok s -> f1 s = Some (s', x) ->
    ok s' ∧ (fits s' -> fits s ∧ f2 (swap s) = Some (swap s', x)).

(** An operation that always returns. *)
Definition tracks {A} (f : S -> S * A) : Prop := lock (fun s => Some (f s)) (fun s => Some (f s)).

Context {E : Type}.
Abbreviation M := (EM S E).

Lemma lock_ret {A} (x : A) : lock (mret (M := M) x) (mret (M := M) x).
Proof. intros s s' r Hok [= <- <-]. auto. Qed.

Lemma lock_fail {A} (x : E) : lock (em_fail (A := A) x) (em_fail x).
Proof. intros s s' r Hok [= <- <-]. auto. Qed.

Lemma lock_panic {A} (f : S -> option (S * A)) : lock (fun _ => None) f.
Proof. by intros s s' r _ ?. Qed.

Lemma lock_bind {A A'} (c1 c2 : M A) (f1 f2 : A -> M A') :
  lock c1 c2 -> (forall x, lock (f1 x) (f2 x)) -> lock (c1 ≫= f1) (c2 ≫= f2).
Proof.
  intros Hc Hf s s' r Hok E1. unfold mbind, EM_bind in *. destruct (c1 s) as [[s1 [x|er]]|] eqn:E0; [..|done].
  - destruct (Hc _ _ _ Hok E0) as [Hok1 Hgo]. destruct (Hf x _ _ _ Hok1 E1) as [Hok2 Hgo2]. split; [done|].
    intros Hfit. destruct (Hgo2 Hfit) as [Hfit1 E2]. destruct (Hgo Hfit1) as [? ->]. done.
  - injection E1 as <- <-. destruct (Hc _ _ _ Hok E0) as [Hok1 Hgo]. split; [done|].
    intros Hfit. destruct (Hgo Hfit) as [? ->]. done.
Qed.

Lemma lock_get {A} (f1 f2 : S -> M A) :
  (forall s, ok s -> lock (f1 s) (f2 (swap s))) -> lock (em_get ≫= f1) (em_get ≫= f2).
Proof. intros Hf s s' r Hok E1. exact (Hf s Hok s s' r Hok E1). Qed.

Lemma lock_result {A} (r : Result A E) : lock (em_result r) (em_result r).
Proof. destruct r; [apply lock_ret|apply lock_fail]. Qed.

Lemma lock_lift {A} (o : option A) : lock (em_lift (E := E) o) (em_lift o).
Proof. destruct o; [apply lock_ret|by intros s s' r]. Qed.

Lemma lock_modify (f1 f2 : S -> S) :
  (forall s, ok s -> ok (f1 s) ∧ (fits (f1 s) -> fits s) ∧ f2 (swap s) = swap (f1 s)) ->
  lock (em_modify (E := E) f1) (em_modify f2).
Proof.
  intros Hf s s' r Hok [= <- <-]. destruct (Hf s Hok) as (? & ? & Ef). split; [done|]. intros Hfit.
  split; [auto|]. unfold em_modify. by rewrite Ef.
Qed.

Lemma lock_if {A} (b : bool) (f1 f2 g1 g2 : S -> option (S * A)) :
  lock f1 f2 -> lock g1 g2 -> lock (if b then f1 else g1) (if b then f2 else g2).
Proof. by destruct b. Qed.
End lock.

(** ** Handlers that go in lockstep *)

(** The questions a runtime asks have the same answers. *)
Record same_answers {H} `{HandlerOps H} (h1 h2 : H) : Prop := {
  sn_balance : forall a, h_balance h1 a = h_balance h2 a;
  sn_code_size : forall a, h_code_size h1 a = h_code_size h2 a;
  sn_code_hash : forall a, h_code_hash h1 a = h_code_hash h2 a;
  sn_code : forall a, h_code h1 a = h_code h2 a;
  sn_gas_left : h_gas_left h1 = h_gas_left h2;
  sn_gas_price : h_gas_price h1 = h_gas_price h2;
  sn_origin : h_origin h1 = h_origin h2;
  sn_block_hash : forall n, h_block_hash h1 n = h_block_hash h2 n;
  sn_block_number : h_block_number h1 = h_block_number h2;
  sn_block_coinbase : h_block_coinbase h1 = h_block_coinbase h2;
  sn_block_timestamp : h_block_timestamp h1 = h_block_timestamp h2;
  sn_block_difficulty : h_block_difficulty h1 = h_block_difficulty h2;
  sn_block_randomness : h_block_randomness h1 = h_block_randomness h2;
  sn_block_gas_limit : h_block_gas_limit h1 = h_block_gas_limit h2;
  sn_base_fee : h_block_base_fee_per_gas h1 = h_block_base_fee_per_gas h2;
  sn_chain_id : h_chain_id h1 = h_chain_id h2;
  sn_exists : forall a, h_exists h1 a = h_exists h2 a;
  sn_deleted : forall a, h_deleted h1 a = h_deleted h2 a
}.

Class OpsTrace {H : Type} `{HandlerOps H} (swap : H -> H) (ok fits : H -> Prop) : Prop := {
  ot_answers : forall h, ok h -> same_answers h (swap h);
  ot_storage : forall a k, tracks swap ok fits (h_storage a k);
  ot_original : forall a k, tracks swap ok fits (h_original_storage a k);
  ot_is_cold : forall a k, tracks swap ok fits (h_is_cold a k);
  ot_set_storage : forall a k v, tracks swap ok fits (h_set_storage a k v);
  ot_log : forall a t d, tracks swap ok fits (h_log a t d);
  ot_mark_delete : forall a t, tracks swap ok fits (h_mark_delete a t);
  ot_external : forall op, tracks swap ok fits (h_record_external_operation op)
}.

Class HandlerTrace {H I : Type} `{Handler H I} (swap : H -> H) (ok fits : H -> Prop) : Prop := {
  ht_ops :: OpsTrace swap ok fits;
  ht_create : forall caller scheme value code gas,
    lock swap ok fits (h_create caller scheme value code gas) (h_create caller scheme value code gas);
  ht_call : forall address transfer input gas is_static context,
    lock swap ok fits (h_call address transfer input gas is_static context)
      (h_call address transfer input gas is_static context);
  ht_pre_validate : forall c op stack,
    lock swap ok fits (h_pre_validate c op stack) (h_pre_validate c op stack)
}.

Create HintDb lock.
#[export] Hint Resolve lock_ret lock_fail lock_result lock_lift : lock.

(** Walks through a computation; the leaves are in the hint database. *)
Ltac lock_walk :=
  repeat (first
    [ solve [auto with lock]
    | lazymatch goal with
      | |- lock _ _ _ (mbind _ em_get) _ => fail
      | |- lock _ _ _ (mbind _ (ask _)) _ => fail
      | |- lock _ _ _ (mbind _ _) _ => apply lock_bind; [|intros ?]
      end
    | match goal with
      | |- lock _ _ _ (if ?b then _ else _) _ => destruct b
      | |- lock _ _ _ (match ?x with _ => _ end) _ => destruct x
      end ]).

(** *** The costs of the opcodes *)

Section costs.
Context {H : Type} `{HandlerOps H} (swap : H -> H) (ok fits : H -> Prop) `{!OpsTrace swap ok fits}.
Abbreviation locked c := (lock swap ok fits c c).

Lemma lock_handled {A} (f : H -> H * Result A ExitError) : tracks swap ok fits f -> locked (cost_handled f).
Proof. done. Qed.

Lemma lock_unwrapped {A} (f : H -> H * Result A ExitError) : tracks swap ok fits f -> locked (cost_unwrapped f).
Proof.
  intros Hf s s' r Hok. unfold cost_unwrapped. destruct (f s) as [h' [x|]] eqn:Es; [|done]. intros [= <- <-].
  destruct (Hf s h' (Ok x) Hok) as [? Hgo]; [by rewrite Es|]. split; [done|]. intros Hfit.
  destruct (Hgo Hfit) as [? [= ->]]. done.
Qed.

Hint Resolve lock_handled lock_unwrapped ot_storage ot_original ot_is_cold ot_external : lock.

Lemma lock_peek stack n : locked (peek_word stack n).
Proof. apply lock_result. Qed.
Lemma lock_peek_address stack n : locked (peek_address stack n).
Proof. unfold peek_address, peek_word. lock_walk. Qed.
Hint Resolve lock_peek lock_peek_address : lock.

Lemma lock_account_access a : locked (account_access a).
Proof.
  unfold account_access. lock_walk. apply lock_get. intros h Hok. rewrite (sn_exists _ _ (ot_answers h Hok)). lock_walk.
Qed.
Hint Resolve lock_account_access : lock.

Lemma lock_suicide_gas a stack : locked (suicide_gas a stack).
Proof.
  unfold suicide_gas. lock_walk. apply lock_get. intros h Hok. rewrite (sn_balance _ _ (ot_answers h Hok)). cbv zeta. lock_walk.
  apply lock_get. intros h' Hok'. rewrite (sn_deleted _ _ (ot_answers h' Hok')). lock_walk.
Qed.
Hint Resolve lock_suicide_gas : lock.

Lemma lock_opcode_gas_cost a op stack is_static cfg : locked (opcode_gas_cost a op stack is_static cfg).
Proof.
  unfold opcode_gas_cost, log_gas, invalid, flat, call_gas, valueless_call_gas, sstore_gas, cold_address. cbv zeta.
  lock_walk.
Qed.

Lemma lock_dynamic_opcode_cost a op stack is_static cfg : locked (dynamic_opcode_cost a op stack is_static cfg).
Proof. unfold dynamic_opcode_cost. pose proof lock_opcode_gas_cost. lock_walk. Qed.
End costs.

(** *** The runtime *)

Section runtime.
Context {H I : Type} `{Handler H I, Hashes} (swap : H -> H) (ok fits : H -> Prop) `{!HandlerTrace swap ok fits}.

Definition swap_pair (s : Runtime * H) : Runtime * H := (s.1, swap s.2).
Definition ok_pair (s : Runtime * H) : Prop := ok s.2.
Definition fits_pair (s : Runtime * H) : Prop := fits s.2.
Abbreviation locked c := (lock swap_pair ok_pair fits_pair c c).

Lemma lock_on_runtime {A} (c : RuntimeM A) : locked (on_runtime c).
Proof.
  intros [rt h] [rt' h'] r Hok. simpl. destruct (c rt) as [[rt1 r1]|]; [|done]. by intros [= <- <- <-].
Qed.

Lemma lock_sys_machine {A} (c : EvalM A) : locked (sys_machine c).
Proof. apply lock_on_runtime. Qed.

Lemma lock_ask {A} (f : H -> A) : (forall h, ok h -> f h = f (swap h)) -> locked (ask f).
Proof. intros Hf [rt h] [rt' h'] r Hok [= <- <- <-]. split; [done|]. intros Hfit. split; [done|]. simpl. by rewrite (Hf h Hok). Qed.

Lemma lock_op {A A'} (f : H -> H * Result A ExitError) (k : Result A ExitError -> option (Result A' ExitReason)) :
  tracks swap ok fits f ->
  locked (fun '(rt, h) => let '(h', r) := f h in r' ← k r; Some ((rt, h'), r')).
Proof.
  intros Hf [rt h] [rt' h'] r Hok. simpl. destruct (f h) as [h1 r1] eqn:Es. destruct (k r1) as [r'|] eqn:Ek; [|done].
  cbn. intros [= <- <- <-]. destruct (Hf h h1 r1 Hok) as [? Hgo]; [by rewrite Es|]. split; [done|]. intros Hfit.
  destruct (Hgo Hfit) as [? [= ->]]. split; [done|]. by rewrite Ek.
Qed.

Lemma lock_sys_handled {A} (f : H -> H * Result A ExitError) : tracks swap ok fits f -> locked (handled f).
Proof.
  intros Hf. eapply lock_op with (k := fun r => Some (match r with Ok x => Ok x | Err e => Err (ExitReasonError e) end)) in Hf.
  intros s s' r Hok Es. destruct (Hf s s' r Hok) as [? Hgo].
  - destruct s as [rt h]. unfold handled in Es. destruct (f h) as [h' []]; done.
  - split; [done|]. intros Hfit. destruct (Hgo Hfit) as [? <-]. split; [done|].
    destruct s as [rt h]. unfold handled. simpl. destruct (f (swap h)) as [h' []]; done.
Qed.

Lemma lock_sys_unwrapped {A} (f : H -> H * Result A ExitError) : tracks swap ok fits f -> locked (unwrapped f).
Proof.
  intros Hf. eapply lock_op with (k := fun r => match r with Ok x => Some (Ok x) | Err e => None end) in Hf.
  intros s s' r Hok Es. destruct (Hf s s' r Hok) as [? Hgo].
  - destruct s as [rt h]. unfold unwrapped in Es. destruct (f h) as [h' []]; done.
  - split; [done|]. intros Hfit. destruct (Hgo Hfit) as [? <-]. split; [done|].
    destruct s as [rt h]. unfold unwrapped. simpl. destruct (f (swap h)) as [h' []]; done.
Qed.

Lemma lock_invoke {A} (f : H -> option (H * A)) : lock swap ok fits f f -> locked (invoke f).
Proof.
  intros Hf [rt h] [rt' h'] r Hok. simpl. destruct (f h) as [[h1 x]|] eqn:Es; [|done]. intros [= <- <- <-].
  destruct (Hf h h1 x Hok Es) as [? Hgo]. split; [done|]. intros Hfit. destruct (Hgo Hfit) as [? ->]. done.
Qed.

Lemma lock_other op : tracks swap ok fits (handler_other op).
Proof. intros h h' r Hok [= <- <-]. done. Qed.

Lemma trace_updates :
  (forall a k, tracks swap ok fits (h_storage a k)) ∧ (forall a k v, tracks swap ok fits (h_set_storage a k v)) ∧
  (forall a t d, tracks swap ok fits (h_log a t d)) ∧ (forall a t, tracks swap ok fits (h_mark_delete a t)) ∧
  (forall op, tracks swap ok fits (h_record_external_operation op)).
Proof.
  split_and!; intros; [apply ot_storage|apply ot_set_storage|apply ot_log|apply ot_mark_delete|apply ot_external].
Qed.

Hint Resolve lock_on_runtime lock_sys_machine lock_sys_handled lock_sys_unwrapped lock_invoke lock_other
  ht_create ht_call : lock.

Lemma lock_push x : locked (push_value (I := I) x).
Proof. unfold push_value. lock_walk. Qed.
Lemma lock_pop : locked sys_pop.
Proof. apply lock_sys_machine. Qed.
Lemma lock_context : locked this_context.
Proof. apply lock_on_runtime. Qed.
Hint Resolve lock_push lock_pop lock_context : lock.

Lemma lock_topics n : locked (pop_topics n).
Proof. induction n; simpl; lock_walk. Qed.
Hint Resolve lock_topics : lock.

(** A question leads to the same answer. *)
Lemma lock_answer {A A'} (f : H -> A) (k : A -> EM (Runtime * H) ExitReason A') :
  (forall h1 h2, same_answers h1 h2 -> f h1 = f h2) -> (forall x, locked (k x)) -> locked (ask f ≫= k).
Proof. intros Hf Hk. apply lock_bind; [|done]. apply lock_ask. intros h Hok. apply Hf, ot_answers, Hok. Qed.

Ltac sys_walk := repeat (lock_walk; try (apply lock_answer; [intros ? ? Hs; first [apply Hs|by rewrite ?(sn_balance _ _ Hs)]|intros ?])).

Lemma lock_create b : locked (sys_create b).
Proof. unfold sys_create. sys_walk. Qed.

Lemma lock_call scheme : locked (sys_call scheme).
Proof. unfold sys_call. cbv zeta. sys_walk. Qed.

Lemma lock_system_eval op : locked (system_eval (I := I) op).
Proof.
  unfold system_eval. destruct (table_get SYSTEM op) as [c|] eqn:Eo; simpl; [|unfold handle_other; sys_walk].
  unfold table_get in Eo. destruct (find _ SYSTEM) as [[o c']|] eqn:Ef; [|done]. injection Eo as ->.
  apply find_some in Ef as [Hin _]. unfold SYSTEM in Hin. pose proof lock_create. pose proof lock_call.
  destruct trace_updates as (? & ? & ? & ? & ?).
  repeat destruct Hin as [[= <- <-]|Hin]; [..|done].
  all: unfold sha3, sys_address, sys_balance, selfbalance, sys_origin, sys_caller, callvalue, gasprice, extcodesize,
    extcodehash, extcodecopy, returndatasize, returndatacopy, blockhash, coinbase, timestamp, number, difficulty,
    prevrandao, gaslimit, sload, sstore, sys_gas, sys_log, suicide, chainid, base_fee; sys_walk.
Qed.

(** The part of a step before the machine, and the service of a trap. *)
Lemma lock_pre_step rt h rt' h' :
  ok h -> pre_step rt h = Some (rt', h') ->
  ok h' ∧ (fits h' -> fits h ∧ pre_step rt (swap h) = Some (rt', swap h')).
Proof.
  intros Hok. unfold pre_step. destruct (Machine_inspect _) as [[op stack]|]; [|by intros [= <- <-]].
  destruct (h_pre_validate _ op stack h) as [[h1 r]|] eqn:E; [|done].
  destruct (ht_pre_validate _ _ _ _ _ _ Hok E) as [Hok' Hgo]. intros Er.
  assert (h1 = h') as -> by (destruct r; congruence). split; [done|]. intros Hfit. destruct (Hgo Hfit) as [? ->].
  split; [done|]. destruct r; congruence.
Qed.

Lemma lock_serve op rt h rt' h' r :
  ok h -> serve op rt h = Some (rt', h', r) ->
  ok h' ∧ (fits h' -> fits h ∧ serve op rt (swap h) = Some (rt', swap h', r)).
Proof.
  intros Hok. unfold serve. destruct (system_eval op (rt, h)) as [[[rt1 h1] x]|] eqn:E; [|done].
  destruct (lock_system_eval op (rt, h) _ _ Hok E) as [Hok' Hgo]. unfold swap_pair, ok_pair, fits_pair in *. simpl in *.
  intros Er. assert (h1 = h') as -> by (destruct x as [[]|]; congruence). split; [done|]. intros Hfit.
  destruct (Hgo Hfit) as [? ->]. split; [done|]. destruct x as [[]|]; congruence.
Qed.

Lemma lock_step rt h rt' h' r :
  ok h -> Runtime_step rt h = Some (rt', h', r) ->
  ok h' ∧ (fits h' -> fits h ∧ Runtime_step rt (swap h) = Some (rt', swap h', r)).
Proof.
  intros Hok. unfold Runtime_step. destruct (pre_step rt h) as [[rt1 h1]|] eqn:E; [|done].
  destruct (lock_pre_step _ _ _ _ Hok E) as [Hok1 Hgo].
  destruct (rt_status rt1) as [[]|e] eqn:Est.
  2: { intros [= <- <- <-]. split; [done|]. intros Hfit. destruct (Hgo Hfit) as [? ->]. by rewrite Est. }
  destruct (Machine_step (rt_machine rt1)) as [[m [[]|[e|op]]]|] eqn:Em; [..|done].
  1-2: intros [= <- <- <-]; (split; [done|]); intros Hfit; destruct (Hgo Hfit) as [? ->]; by rewrite Est, Em.
  intros Es. destruct (lock_serve _ _ _ _ _ _ Hok1 Es) as [Hok2 Hgo2]. split; [done|]. intros Hfit.
  destruct (Hgo2 Hfit) as [Hfit1 Es2]. destruct (Hgo Hfit1) as [? ->]. by rewrite Est, Em.
Qed.

Lemma lock_run fuel rt h rt' h' c :
  ok h -> Runtime_run fuel rt h = Finished (rt', h', c) ->
  ok h' ∧ (fits h' -> fits h ∧ Runtime_run fuel rt (swap h) = Finished (rt', swap h', c)).
Proof.
  revert rt h. induction fuel as [|fuel IH]; intros rt h Hok; simpl; [done|].
  destruct (Runtime_step rt h) as [[[rt1 h1] r]|] eqn:E; [|done]. destruct (lock_step _ _ _ _ _ Hok E) as [Hok1 Hgo].
  destruct r as [[]|c'].
  - intros Er. destruct (IH rt1 h1 Hok1 Er) as [? Hgo2]. split; [done|]. intros Hfit. destruct (Hgo2 Hfit) as [Hfit1 Er2].
    destruct (Hgo Hfit1) as [? ->]. done.
  - intros [= <- <- <-]. split; [done|]. intros Hfit. by destruct (Hgo Hfit) as [? ->].
Qed.
End runtime.

(** ** The executor *)

(** Backends that differ at most in storage. *)
Record same_accounts {B} `{EvmBackend B} (b1 b2 : B) : Prop := {
  sb_gas_price : bk_gas_price b1 = bk_gas_price b2;
  sb_origin : bk_origin b1 = bk_origin b2;
  sb_block_hash : forall n, bk_block_hash b1 n = bk_block_hash b2 n;
  sb_block_number : bk_block_number b1 = bk_block_number b2;
  sb_block_coinbase : bk_block_coinbase b1 = bk_block_coinbase b2;
  sb_block_timestamp : bk_block_timestamp b1 = bk_block_timestamp b2;
  sb_block_difficulty : bk_block_difficulty b1 = bk_block_difficulty b2;
  sb_block_randomness : bk_block_randomness b1 = bk_block_randomness b2;
  sb_block_gas_limit : bk_block_gas_limit b1 = bk_block_gas_limit b2;
  sb_base_fee : bk_block_base_fee_per_gas b1 = bk_block_base_fee_per_gas b2;
  sb_chain_id : bk_chain_id b1 = bk_chain_id b2;
  sb_exists : forall a, bk_exists b1 a = bk_exists b2 a;
  sb_basic : forall a, bk_basic b1 a = bk_basic b2 a;
  sb_code : forall a, bk_code b1 a = bk_code b2 a
}.

(** The slot is in the recorded read set. *)
Definition slot_read (rw : option RwSet) (a : H160) (k : H256) : Prop :=
  exists r slots, rw = Some r ∧ read_set r !! a = Some slots ∧ is_Some (slots !! k).

Section executor.
Context {B : Type} `{EvmBackend B, HH : Hashes} (b1 b2 : B) (Hsame : same_accounts b1 b2).
Abbreviation Exec := (StackExecutor B).

Definition same_slot (a : H160) (k : H256) : Prop :=
  bk_storage b1 a k = bk_storage b2 a k ∧ bk_original_storage b1 a k = bk_original_storage b2 a k.

Definition swap (e : Exec) : Exec :=
  mkExecutor (se_config e) (mkStackState b2 (se_substate e)) (se_precompiles e) (se_rw_set e).
Definition ok (e : Exec) : Prop := se_backend e = b1 ∧ is_Some (se_rw_set e).
Definition fits (e : Exec) : Prop := forall a k, slot_read (se_rw_set e) a k -> same_slot a k.
Abbreviation tracked f := (tracks swap ok fits f).
Abbreviation locked c := (lock swap ok fits c c).

Lemma swap_spec e : se_backend (swap e) = b2 ∧ se_substate (swap e) = se_substate e ∧ se_config (swap e) = se_config e ∧
  se_gasometer (swap e) = se_gasometer e ∧ se_precompiles (swap e) = se_precompiles e.
Proof. done. Qed.

(** *** Accounts do not depend on the backend *)

Lemma same_account_of s a : account_of s b1 a = account_of s b2 a.
Proof. unfold account_of. repeat case_match; [done..|]. by rewrite (sb_basic _ _ Hsame). Qed.

Lemma same_account_mut a f s : account_mut a b1 f s = account_mut a b2 f s.
Proof. unfold account_mut. by rewrite same_account_of. Qed.

Lemma same_inc_nonce a s : Substate_inc_nonce a b1 s = Substate_inc_nonce a b2 s.
Proof. unfold Substate_inc_nonce. by rewrite same_account_of, !same_account_mut. Qed.

Lemma same_transfer t s : Substate_transfer t b1 s = Substate_transfer t b2 s.
Proof.
  unfold Substate_transfer, Substate_withdraw, Substate_deposit. rewrite same_account_of, !same_account_mut.
  by destruct (_ <? _); rewrite ?same_account_mut.
Qed.

Lemma same_reset_storage a s : Substate_reset_storage a b1 s = Substate_reset_storage a b2 s.
Proof. apply same_account_mut. Qed.

(** *** Operations that do not read storage *)

(** The operation works on the substate alone. *)
Definition unaffected {A} (f : Exec -> Exec * A) : Prop := forall e, se_backend e = b1 ->
  se_backend (f e).1 = b1 ∧ se_rw_set (f e).1 = se_rw_set e ∧ f (swap e) = (swap (f e).1, (f e).2).

Lemma plain_tracked {A} (f : Exec -> Exec * A) : unaffected f -> tracked f.
Proof.
  intros Hf e e' r [Hb Hr] [= E0]. destruct (Hf e Hb) as (Hb' & Hr' & Hs). rewrite E0 in *. cbn in *.
  unfold ok, fits. rewrite Hb', Hr'. split; [done|]. intros Hfit. by rewrite Hs.
Qed.

Lemma plain_substate (g : B -> MemoryStackSubstate -> MemoryStackSubstate) :
  (forall s, g b1 s = g b2 s) -> forall e, se_backend e = b1 ->
  on_substate (g b2) (swap e) = swap (on_substate (g (se_backend e)) e).
Proof. intros Hg e ->. unfold on_substate, set_substate, swap. cbn. by rewrite Hg. Qed.

Lemma plain_try {A} (g : B -> MemoryStackSubstate -> MemoryStackSubstate * A) :
  (forall s, g b1 s = g b2 s) -> unaffected (fun e => try_substate (g (se_backend e)) e).
Proof.
  intros Hg e Hb. unfold try_substate. rewrite Hb. change (se_backend (swap e)) with b2.
  change (se_substate (swap e)) with (se_substate e). rewrite <- Hg. by destruct (g b1 (se_substate e)).
Qed.

Lemma plain_gasometer {A} (f : Gasometer -> Gasometer * A) : unaffected (on_gasometer f).
Proof.
  intros e Hb. unfold on_gasometer. change (se_gasometer (swap e)) with (se_gasometer e).
  by destruct (f (se_gasometer e)).
Qed.

Lemma plain_transfer t : unaffected (se_transfer t).
Proof. apply (plain_try (fun b => Substate_transfer t b)). apply same_transfer. Qed.

Lemma plain_inc_nonce a : unaffected (se_inc_nonce a).
Proof. apply (plain_try (fun b => Substate_inc_nonce a b)). apply same_inc_nonce. Qed.

Lemma plain_external op : unaffected (record_external_operation op).
Proof. by intros e Hb. Qed.

Lemma stack_basic_swap e a : se_backend e = b1 -> stack_basic (se_state (swap e)) a = stack_basic (se_state e) a.
Proof. intros Hb. unfold stack_basic. cbn. unfold se_backend in Hb. by rewrite Hb, (sb_basic _ _ Hsame). Qed.

Lemma stack_code_swap e a : se_backend e = b1 -> stack_code (se_state (swap e)) a = stack_code (se_state e) a.
Proof. intros Hb. unfold stack_code. cbn. unfold se_backend in Hb. by rewrite Hb, (sb_code _ _ Hsame). Qed.

Lemma se_exists_swap e a : se_backend e = b1 -> se_exists (swap e) a = se_exists e a.
Proof.
  intros Hb. unfold se_exists, stack_exists, stack_is_empty. cbn. unfold se_backend, se_substate in *.
  by rewrite Hb, (sb_exists _ _ Hsame), (sb_basic _ _ Hsame), (sb_code _ _ Hsame).
Qed.

Lemma plain_mark_delete a t : unaffected (se_mark_delete a t).
Proof.
  intros e Hb. unfold se_mark_delete. cbv zeta.
  assert (se_balance (swap e) a = se_balance e a) as -> by (unfold se_balance; by rewrite stack_basic_swap).
  destruct (plain_transfer (mkTransfer a t (se_balance e a)) e Hb) as (Hb1 & Hr1 & ->).
  destruct (se_transfer _ e) as [e1 [[]|er]]; cbn in *; [|done]. split_and!; [done..|]. f_equal.
  apply (plain_substate (fun b s => Substate_set_deleted a (Substate_reset_balance a b s))); [|done].
  intros s. unfold Substate_reset_balance. by rewrite same_account_mut.
Qed.

(** *** Operations on storage *)

Lemma slot_read_note rw a k v a' k' :
  slot_read rw a' k' ∨ (is_Some rw ∧ a' = a ∧ k' = k) ->
  slot_read ((fun r => record_read_key r a k v) <$> rw) a' k'.
Proof.
  intros [(r & m & -> & Hm & Hk)|[[r ->] [-> ->]]].
  - unfold slot_read. cbn. destruct (decide (a' = a)) as [->|Hne].
    + eexists _, _. split_and!; [done|cbn; unfold record_key; by rewrite lookup_insert_eq|]. rewrite Hm. simpl.
      destruct (decide (k' = k)) as [->|]; [by rewrite lookup_insert_eq|by rewrite lookup_insert_ne].
    + eexists _, _. split_and!; [done|cbn; unfold record_key; by rewrite lookup_insert_ne|done].
  - eexists _, _. split_and!; [done|cbn; unfold record_key; by rewrite lookup_insert_eq|]. by rewrite lookup_insert_eq.
Qed.

Lemma tracked_note_read a k (f : MemoryStackState B -> H256) :
  (forall e, se_backend e = b1 -> same_slot a k -> f (se_state (swap e)) = f (se_state e)) ->
  tracked (fun e => (note_read a k (f (se_state e)) e, @Ok H256 ExitError (f (se_state e)))).
Proof.
  intros Hf e e' r [Hb Hr] [= <- <-]. split; [split; [done|]; cbn; by rewrite fmap_is_Some|].
  intros Hfit. assert (same_slot a k) as Hslot.
  { apply Hfit. apply slot_read_note. by right. }
  split; [|by rewrite (Hf e Hb Hslot)]. intros a' k' Hread. apply Hfit, slot_read_note. by left.
Qed.

Lemma tracked_storage a k : tracked (se_storage a k).
Proof.
  apply (tracked_note_read a k (fun s => stack_storage s a k)). intros e Hb [Hs _].
  unfold stack_storage. cbn. unfold se_backend in Hb. by rewrite Hb, Hs.
Qed.

Lemma tracked_original a k : tracked (se_original_storage a k).
Proof.
  apply (tracked_note_read a k (fun s => default 0 (stack_original_storage s a k))). intros e Hb [_ Hs].
  unfold stack_original_storage. cbn. unfold se_backend in Hb. by rewrite Hb, Hs.
Qed.

Lemma tracked_set_storage a k v : tracked (se_set_storage a k v).
Proof.
  intros e e' r [Hb Hr] [= <- <-]. split; [split; [done|]; cbn; by rewrite fmap_is_Some|].
  intros Hfit. split; [|done]. intros a' k' (rw & m & Hrw & Hm). apply Hfit. unfold slot_read. cbn in *.
  unfold note_write. cbn. rewrite Hrw. by eexists _, _.
Qed.

Lemma plain_is_cold a k : unaffected (se_is_cold a k).
Proof.
  intros e Hb. destruct k as [k|]; cbn; [done|].
  destruct (plain_gasometer (record_cost 0) e Hb) as (Hb1 & Hr1 & ->).
  destruct (on_gasometer _ e) as [e1 [[]|er]]; done.
Qed.

#[global] Instance StackExecutor_ops_trace : OpsTrace swap ok fits.
Proof.
  split.
  - intros e [Hb Hr]. pose proof Hb as Hb'. unfold se_backend in Hb'.
    split; intros; try done; try (cbn; rewrite ?Hb, ?Hb'; apply Hsame).
    + change (se_balance e a = se_balance (swap e) a). unfold se_balance. by rewrite stack_basic_swap.
    + change (stack_code_size (se_state e) a = stack_code_size (se_state (swap e)) a). unfold stack_code_size.
      by rewrite stack_code_swap.
    + change (se_code_hash e a = se_code_hash (swap e) a). unfold se_code_hash. by rewrite se_exists_swap, stack_code_swap.
    + change (stack_code (se_state e) a = stack_code (se_state (swap e)) a). by rewrite stack_code_swap.
    + symmetry. by apply se_exists_swap.
  - apply tracked_storage.
  - apply tracked_original.
  - intros. apply plain_tracked, plain_is_cold.
  - apply tracked_set_storage.
  - intros. by apply plain_tracked.
  - intros. apply plain_tracked, plain_mark_delete.
  - intros. apply plain_tracked, plain_external.
Qed.

(** *** Nested calls and creations *)

Lemma lock_step_or {E A} (f : Exec -> Exec * Result A ExitError) (ret : ExitError -> E) :
  tracked f -> locked (step_or f ret).
Proof.
  intros Hf e e' r Hok. unfold step_or. destruct (f e) as [e1 r1] eqn:E1.
  destruct (Hf e e1 r1 Hok) as [Hok1 Hgo]; [by rewrite E1|]. intros Er.
  assert (e1 = e') as -> by (destruct r1; congruence). split; [done|]. intros Hfit. destruct (Hgo Hfit) as [? [= ->]].
  split; [done|]. destruct r1; congruence.
Qed.

Lemma lock_exit kind : locked (exit_substate kind).
Proof.
  intros e e' r [Hb Hr]. unfold exit_substate. change (se_substate (swap e)) with (se_substate e).
  match goal with |- context [match ?x with Some _ => _ | None => _ end = Some (e', r)] => destruct x as [[s r1]|]; [|done] end.
  intros [= <- <-]. split; [by split|]. by intros Hfit.
Qed.

Lemma lock_leave {E A} kind (ret : E) : locked (leave (A := A) kind ret).
Proof.
  intros e e' r Hok. unfold leave. destruct (exit_substate kind e) as [[e1 r1]|] eqn:E1; [|done].
  destruct (lock_exit kind e e1 r1 Hok E1) as [Hok1 Hgo]. intros [= <- <-]. split; [done|]. intros Hfit.
  by destruct (Hgo Hfit) as [? ->].
Qed.

Lemma lock_step_or_leave {E A} (f : Exec -> Exec * Result A ExitError) kind (ret : ExitError -> E) :
  tracked f -> locked (step_or_leave f kind ret).
Proof.
  intros Hf e e' r Hok. unfold step_or_leave. destruct (f e) as [e1 r1] eqn:E1.
  destruct (Hf e e1 r1 Hok) as [Hok1 Hgo]; [by rewrite E1|]. destruct r1 as [x|er].
  - intros [= <- <-]. split; [done|]. intros Hfit. by destruct (Hgo Hfit) as [? [= ->]].
  - intros El. destruct (lock_leave kind (ret er) e1 e' r Hok1 El) as [Hok2 Hgo2]. split; [done|]. intros Hfit.
    destruct (Hgo2 Hfit) as [Hfit1 El2]. by destruct (Hgo Hfit1) as [? [= ->]].
Qed.

Lemma lock_substate {E} (g : B -> MemoryStackSubstate -> MemoryStackSubstate) (b b' : B) :
  (forall s, g b s = g b' s) -> locked (em_modify (E := E) (on_substate (g b))) ∧
  lock swap ok fits (em_modify (E := E) (on_substate (g b))) (em_modify (on_substate (g b'))).
Proof.
  intros Hg. split; apply lock_modify; intros e [Hb Hr]; (split_and!; [done..|]); [done|].
  unfold on_substate, set_substate, swap. cbn. by rewrite Hg.
Qed.

Lemma lock_metadata {E} g : locked (em_modify (E := E) (on_metadata g)).
Proof. apply (proj1 (lock_substate (fun _ => metadata_mut g) b1 b1 ltac:(done))). Qed.

Lemma lock_enter {E} gas is_static : locked (em_modify (E := E) (enter_substate gas is_static)).
Proof. apply (proj1 (lock_substate (fun _ => Substate_enter gas is_static) b1 b1 ltac:(done))). Qed.

Lemma lock_gasometer_fail {E} : locked (em_modify (E := E) gasometer_fail).
Proof. by apply lock_modify. Qed.

Lemma lock_charge {E} cost (ret : ExitError -> E) : locked (step_or (on_gasometer (record_cost cost)) ret).
Proof. apply lock_step_or, plain_tracked, plain_gasometer. Qed.
Lemma lock_count {E} a (ret : ExitError -> E) : locked (step_or (se_inc_nonce a) ret).
Proof. apply lock_step_or, plain_tracked, plain_inc_nonce. Qed.
Lemma lock_note {E} op (ret : ExitError -> E) : locked (step_or (record_external_operation op) ret).
Proof. apply lock_step_or, plain_tracked, plain_external. Qed.
Lemma lock_note_leave {E} op kind (ret : ExitError -> E) : locked (step_or_leave (record_external_operation op) kind ret).
Proof. apply lock_step_or_leave, plain_tracked, plain_external. Qed.
Lemma lock_transfer {E} t kind (ret : ExitError -> E) : locked (step_or_leave (se_transfer t) kind ret).
Proof. apply lock_step_or_leave, plain_tracked, plain_transfer. Qed.

Hint Resolve lock_leave lock_metadata lock_enter lock_gasometer_fail lock_charge lock_count lock_note lock_note_leave
  lock_transfer : lock.

Lemma lock_after_gas {E} b (ret : ExitError -> E) : locked (compute_after_gas b ret).
Proof.
  unfold compute_after_gas. apply lock_get. intros e Hok. cbv zeta. change (se_config (swap e)) with (se_config e).
  change (se_gasometer (swap e)) with (se_gasometer e). lock_walk. apply lock_get. intros e1 Hok1.
  change (se_gasometer (swap e1)) with (se_gasometer e1). lock_walk.
Qed.
Hint Resolve lock_after_gas : lock.

Lemma lock_precompile {E} a input gas c is_static :
  locked (infallible (E := E) (precompile_execute a input gas c is_static)).
Proof.
  assert (unaffected (precompile_execute a input gas c is_static)) as Hp.
  { intros e Hb. unfold precompile_execute. change (se_precompiles (swap e)) with (se_precompiles e).
    destruct (se_precompiles e !! a) as [f|]; [|done]. destruct (f _ _ _ _) as [[out cost]|]; [|done].
    destruct (plain_gasometer (record_cost cost) e Hb) as (? & ? & ->). by destruct (on_gasometer _ e) as [e1 [[]|]]. }
  intros e e' r Hok. unfold infallible. destruct (precompile_execute _ _ _ _ _ e) as [e1 x] eqn:E1.
  destruct (plain_tracked _ Hp e e1 x Hok) as [Hok1 Hgo]; [by rewrite E1|]. intros [= <- <-]. split; [done|].
  intros Hfit. by destruct (Hgo Hfit) as [? [= ->]].
Qed.
Hint Resolve lock_precompile : lock.

Lemma lock_precompile_result {A} r : locked (precompile_result (A := A) r).
Proof. destruct r as [|[]]; simpl; lock_walk. Qed.
Hint Resolve lock_precompile_result : lock.

Lemma lock_call_inner a t input gas is_static take_l64 take_stipend c :
  locked (call_inner a t input gas is_static take_l64 take_stipend c).
Proof.
  unfold call_inner. lock_walk. cbv zeta. lock_walk. apply lock_get. intros e [Hb Hr].
  change (se_config (swap e)) with (se_config e). change (se_backend (swap e)) with b2. rewrite Hb. lock_walk.
  { apply (lock_substate (fun b => Substate_touch (ctx_address c) b)). intros s. apply same_account_mut. }
  apply lock_get. intros e1 Hok1. change (too_deep (swap e1)) with (too_deep e1). rewrite stack_code_swap by apply Hok1. lock_walk.
  all: apply lock_get; intros e2 Hok2; change (se_metadata (swap e2)) with (se_metadata e2);
    change (se_config (swap e2)) with (se_config e2); lock_walk.
Qed.

Lemma create_address_swap e scheme : se_backend e = b1 -> create_address (swap e) scheme = create_address e scheme.
Proof. intros Hb. unfold create_address, se_nonce. destruct scheme; [by rewrite stack_basic_swap|done..]. Qed.

Lemma lock_create_inner caller scheme value init_code gas take_l64 :
  locked (create_inner caller scheme value init_code gas take_l64).
Proof.
  unfold create_inner. cbv zeta. apply lock_get. intros e Hok. rewrite create_address_swap by apply Hok. lock_walk.
  apply lock_get. intros e1 [Hb1 Hr1]. change (too_deep (swap e1)) with (too_deep e1).
  unfold se_balance. rewrite stack_basic_swap by done. lock_walk.
  apply lock_get. intros e2 [Hb2 Hr2]. unfold stack_code_size, se_nonce.
  rewrite stack_code_swap, stack_basic_swap by done. change (se_backend (swap e2)) with b2. rewrite Hb2. lock_walk.
  { apply (lock_substate (fun b => Substate_reset_storage (create_address e scheme) b)). intros s. apply same_reset_storage. }
  apply lock_get. intros e3 Hok3. change (se_config (swap e3)) with (se_config e3). lock_walk.
Qed.

Lemma lock_to_capture {R T} (f : Exec -> option (Exec * Result T R)) : locked f -> locked (fun e => to_capture (f e)).
Proof.
  intros Hf e e' r Hok. destruct (f e) as [[e1 x]|] eqn:E1; [|done]. destruct (Hf e e1 x Hok E1) as [Hok1 Hgo].
  intros Er. assert (e1 = e') as -> by (destruct x; simpl in Er; congruence). split; [done|]. intros Hfit.
  destruct (Hgo Hfit) as [? ->]. split; [done|]. destruct x; simpl in *; congruence.
Qed.

Lemma plain_init_code code : unaffected (maybe_record_init_code_cost code).
Proof.
  intros e Hb. unfold maybe_record_init_code_cost. change (se_config (swap e)) with (se_config e).
  destruct (cfg_max_initcode_size _); [|done]. destruct (_ <? _); [done|]. by apply plain_gasometer.
Qed.

Lemma lock_se_create caller scheme value code gas : locked (se_create caller scheme value code gas).
Proof.
  intros e e' r Hok. unfold se_create. destruct (maybe_record_init_code_cost code e) as [e1 r1] eqn:E1.
  destruct (plain_tracked _ (plain_init_code code) e e1 r1 Hok) as [Hok1 Hgo]; [by rewrite E1|]. destruct r1 as [[]|er].
  - intros Er. destruct (lock_to_capture _ (lock_create_inner caller scheme value code gas true) e1 e' r Hok1 Er) as [? Hgo2].
    split; [done|]. intros Hfit. destruct (Hgo2 Hfit) as [Hfit1 Er2]. by destruct (Hgo Hfit1) as [? [= ->]].
  - intros [= <- <-]. split; [done|]. intros Hfit. by destruct (Hgo Hfit) as [? [= ->]].
Qed.

Lemma lock_pre_validate c op stack : locked (se_pre_validate c op stack).
Proof.
  unfold se_pre_validate. destruct (static_opcode_cost op) as [cost|].
  { apply (plain_tracked _ (plain_gasometer (record_cost cost))). }
  apply lock_get. intros e Hok. change (se_metadata (swap e)) with (se_metadata e). change (se_config (swap e)) with (se_config e).
  apply lock_bind; [apply lock_dynamic_opcode_cost; apply _|]. intros [[cost target] mem].
  apply lock_bind.
  - intros e1 e1' r [Hb Hr]. unfold charge_dynamic. change (se_gasometer (swap e1)) with (se_gasometer e1).
    destruct (record_dynamic_cost _ _ _) as [[g r1]|]; [|done]. intros [= <- <-]. split; [done|]. done.
  - intros []. destruct target; simpl; [by apply lock_modify|apply lock_metadata..].
Qed.

#[global] Instance StackExecutor_trace : HandlerTrace swap ok fits.
Proof.
  split; [apply _|apply lock_se_create| |apply lock_pre_validate].
  intros. apply (lock_to_capture _ (lock_call_inner address transfer input gas is_static true true context)).
Qed.

(** *** The call stack *)

Lemma lock_fail_create {A} (ret : A) : locked (fail_create ret).
Proof.
  intros e e' r Hok. unfold fail_create. change (gasometer_fail (swap e)) with (swap (gasometer_fail e)).
  destruct (exit_substate ExitFailed (gasometer_fail e)) as [[e1 x]|] eqn:E1; [|done].
  destruct (lock_exit ExitFailed (gasometer_fail e) e1 x Hok E1) as [Hok1 Hgo]. intros [= <- <-]. split; [done|].
  intros Hfit. by destruct (Hgo Hfit) as [? ->].
Qed.

Lemma lock_exit_with {A} kind (k : Result unit ExitError -> A) :
  locked (fun e => match exit_substate kind e with Some (e', r) => Some (e', k r) | None => None end).
Proof.
  intros e e' r Hok. destruct (exit_substate kind e) as [[e1 x]|] eqn:E1; [|done].
  destruct (lock_exit kind e e1 x Hok E1) as [Hok1 Hgo]. intros [= <- <-]. split; [done|].
  intros Hfit. by destruct (Hgo Hfit) as [? ->].
Qed.

Lemma lock_cleanup_create a reason data : locked (cleanup_for_create a reason data).
Proof.
  destruct reason as [sc|ee|rv|ft]; simpl; [|apply lock_fail_create|apply lock_exit_with|apply lock_fail_create].
  intros e e' r Hok. change (se_config (swap e)) with (se_config e). cbn [cleanup_for_create].
  destruct (check_first_byte _ _) as [[]|]; [|apply lock_fail_create; done].
  destruct (exceeds _ _); [apply lock_fail_create; done|].
  destruct (plain_gasometer (record_deposit (Z.of_nat (length data))) e (proj1 Hok)) as (Hb1 & Hr1 & ->).
  destruct (on_gasometer _ e) as [e1 [[]|er]]; cbn in *.
  - destruct (exit_substate ExitSucceeded e1) as [[e2 x]|] eqn:E2; [|done].
    assert (ok e1) as Hok1 by (split; [done|]; rewrite Hr1; apply Hok).
    destruct (lock_exit ExitSucceeded e1 e2 x Hok1 E2) as [Hok2 Hgo]. intros Er.
    set (e3 := on_substate (Substate_set_code a data (se_backend e2)) e2) in *.
    assert (e3 = e') as <- by (destruct x; congruence). split; [by split; apply Hok2|].
    intros Hfit. destruct (Hgo Hfit) as [Hfit1 ->]. split; [by unfold fits in *; rewrite <- Hr1|].
    change (se_backend (swap e2)) with b2.
    rewrite (plain_substate (fun b => Substate_set_code a data b) (fun s => same_account_mut _ _ s) e2 (proj1 Hok2)).
    fold e3. destruct x; congruence.
  - intros Ex. assert (ok e1) as Hok1 by (split; [done|]; rewrite Hr1; apply Hok).
    destruct (lock_exit_with ExitFailed (fun _ => (ExitReasonError er, None, [])) e1 e' r Hok1 Ex) as [Hok2 Hgo].
    split; [done|]. intros Hfit. destruct (Hgo Hfit) as [Hfit1 E2]. split; [by unfold fits in *; rewrite <- Hr1|done].
Qed.

Lemma lock_cleanup kind reason value : locked (cleanup kind reason value).
Proof.
  destruct kind as [a|a|]; [apply lock_cleanup_create| |by intros e e' r Hok [= <- <-]].
  assert (locked (cleanup_for_call a reason value)) as Hcall.
  { destruct reason as [sc|ee|rv|ft]; [| | |apply (lock_fail_create [])].
    - apply (lock_exit_with ExitSucceeded (fun _ => value)).
    - apply (lock_exit_with ExitFailed (fun _ => [])).
    - apply (lock_exit_with ExitReverted (fun _ => value)). }
  intros e e' r Hok. cbn [cleanup]. destruct (cleanup_for_call a reason value e) as [[e1 y]|] eqn:E1; [|done].
  destruct (Hcall e e1 y Hok E1) as [? Hgo]. intros [= <- <-]. split; [done|]. intros Hfit. by destruct (Hgo Hfit) as [? ->].
Qed.

Lemma lock_hand_over frame reason rest : locked (hand_over frame reason rest).
Proof.
  intros e e' h Hok. unfold hand_over. destruct (return_value _) as [value|]; [|done]. cbn [mbind option_bind].
  destruct (cleanup _ reason value e) as [[e1 x]|] eqn:E1; [|done]. cbn [mbind option_bind].
  destruct (lock_cleanup _ _ _ e e1 x Hok E1) as [Hok1 Hgo]. intros Eh.
  assert (e1 = e') as -> by (destruct rest; [congruence|]; destruct (resume _ _ _) as [[? []]|]; cbn in Eh; congruence).
  split; [done|]. intros Hfit. destruct (Hgo Hfit) as [? ->]. split; [done|]. cbn [mbind option_bind].
  destruct rest; [congruence|]. destruct (resume _ _ _) as [[? []]|]; cbn in *; congruence.
Qed.

Lemma lock_call_stack fuel call_stack e e' x :
  ok e -> execute_with_call_stack fuel call_stack e = Finished (e', x) ->
  ok e' ∧ (fits e' -> fits e ∧ execute_with_call_stack fuel call_stack (swap e) = Finished (swap e', x)).
Proof.
  revert call_stack e. induction fuel as [|fuel IH]; intros cs e Hok; cbn [execute_with_call_stack]; [done|].
  destruct cs as [|frame rest]; [by intros [= <- <-]|].
  destruct (Runtime_run (S fuel) (tagged_inner frame) e) as [[[inner e1] c]| |] eqn:Er; [|done..].
  destruct (lock_run swap ok fits (S fuel) (tagged_inner frame) e inner e1 c Hok Er) as [Hok1 Hgo].
  assert (forall e2 cs2, ok e2 -> (fits e2 -> fits e1) -> execute_with_call_stack fuel cs2 e2 = Finished (e', x) ->
    ok e' ∧ (fits e' -> fits e2 ∧ fits e1 ∧ execute_with_call_stack fuel cs2 (swap e2) = Finished (swap e', x))) as Hrest.
  { intros e2 cs2 Hok2 Hmono E2. destruct (IH cs2 e2 Hok2 E2) as [? Hgo2]. split; [done|]. intros Hfit.
    destruct (Hgo2 Hfit) as [? ?]. auto. }
  destruct c as [reason|[i|i]].
  - destruct (hand_over _ reason rest e1) as [[e2 h]|] eqn:Eh; [|done].
    destruct (lock_hand_over _ _ _ e1 e2 h Hok1 Eh) as [Hok2 Hgo2]. destruct h as [y|cs2].
    + intros [= <- <-]. split; [done|]. intros Hfit. destruct (Hgo2 Hfit) as [Hfit1 Eh2]. destruct (Hgo Hfit1) as [? ->].
      by rewrite Eh2.
    + intros E2. destruct (Hrest e2 cs2 Hok2 (fun Hf => proj1 (Hgo2 Hf)) E2) as [? Hgo3]. split; [done|]. intros Hfit.
      destruct (Hgo3 Hfit) as (Hfit2 & Hfit1 & E3). destruct (Hgo Hfit1) as [? ->]. destruct (Hgo2 Hfit2) as [_ ->]. done.
  - intros E2. destruct (Hrest e1 _ Hok1 ltac:(done) E2) as [? Hgo3]. split; [done|]. intros Hfit.
    destruct (Hgo3 Hfit) as (_ & Hfit1 & E3). by destruct (Hgo Hfit1) as [? ->].
  - intros E2. destruct (Hrest e1 _ Hok1 ltac:(done) E2) as [? Hgo3]. split; [done|]. intros Hfit.
    destruct (Hgo3 Hfit) as (_ & Hfit1 & E3). by destruct (Hgo Hfit1) as [? ->].
Qed.

(** *** Transactions *)

(** A run that ends goes in lockstep. *)
Definition lock_end {A} (f : Exec -> Run (Exec * A)) : Prop := forall e e' x,
  ok e -> f e = Finished (e', x) -> ok e' ∧ (fits e' -> fits e ∧ f (swap e) = Finished (swap e', x)).

Lemma lock_run_first {R} fuel (f : Exec -> option (Exec * Result TaggedRuntime R)) get :
  locked f -> lock_end (fun e => run_first fuel (to_capture (f e)) get).
Proof.
  intros Hf e e' x Hok. destruct (f e) as [[e1 [rt|y]]|] eqn:E1; [..|done]; destruct (Hf e e1 _ Hok E1) as [Hok1 Hgo];
    cbn [to_capture run_first].
  - destruct (execute_with_call_stack fuel [rt] e1) as [[e2 z]| |] eqn:E2; [|done..].
    destruct (lock_call_stack fuel [rt] e1 e2 z Hok1 E2) as [Hok2 Hgo2]. intros [= <- <-]. split; [done|]. intros Hfit.
    destruct (Hgo2 Hfit) as [Hfit1 E3]. destruct (Hgo Hfit1) as [? ->]. split; [done|]. cbn [to_capture run_first]. by rewrite E3.
  - intros [= <- <-]. split; [done|]. intros Hfit. by destruct (Hgo Hfit) as [? ->].
Qed.

(** An operation before the run that may end the transaction. *)
Lemma lock_end_op {A} (f : Exec -> Exec * Result unit ExitError) (g : ExitError -> A) (k : Exec -> Run (Exec * A)) :
  unaffected f -> lock_end k ->
  lock_end (fun e => match f e with (e, Err er) => Finished (e, g er) | (e, Ok _) => k e end).
Proof.
  intros Hf Hk e e' x Hok. destruct (Hf e (proj1 Hok)) as (Hb & Hr & Hs). rewrite Hs. destruct (f e) as [e1 [[]|er]]; cbn in *.
  - assert (ok e1) as Hok1 by (split; [done|]; rewrite Hr; apply Hok). intros Ek. destruct (Hk e1 e' x Hok1 Ek) as [? Hgo].
    split; [done|]. intros Hfit. destruct (Hgo Hfit) as [Hfit1 ?]. split; [|done]. unfold fits in *. by rewrite <- Hr.
  - intros [= <- <-]. split; [split; [done|]; rewrite Hr; apply Hok|]. intros Hfit. split; [|done]. unfold fits in *. by rewrite <- Hr.
Qed.

Lemma lock_end_update {A} (f : Exec -> Exec) (k : Exec -> Run (Exec * A)) :
  (forall e, ok e -> se_backend (f e) = b1 ∧ se_rw_set (f e) = se_rw_set e ∧ f (swap e) = swap (f e)) ->
  lock_end k -> lock_end (fun e => k (f e)).
Proof.
  intros Hf Hk e e' x Hok Ek. destruct (Hf e Hok) as (Hb & Hr & Hs). rewrite Hs.
  destruct (Hk (f e) e' x) as [? Hgo]; [split; [done|]; rewrite Hr; apply Hok|done|]. split; [done|]. intros Hfit.
  destruct (Hgo Hfit) as [Hfit1 ?]. split; [|done]. unfold fits in *. by rewrite <- Hr.
Qed.

Lemma lock_transact_call fuel caller address value data gas al :
  lock_end (se_transact_call fuel caller address value data gas al).
Proof.
  unfold se_transact_call. apply (lock_end_op _ (fun er => (ExitReasonError er, []))); [apply plain_gasometer|].
  apply (lock_end_update (warm_initial caller address al)
    (fun e => match record_external_operation AccountBasicRead e with
      | (e, Err er) => Finished (e, (ExitReasonError er, [])) | (e, Ok _) => _ end)).
  - intros e [Hb Hr]. unfold warm_initial. change (se_config (swap e)) with (se_config e).
    change (se_backend (swap e)) with b2. rewrite Hb, (sb_block_coinbase _ _ Hsame).
    destruct (cfg_increase_state_access_gas _); [|done]. by destruct (cfg_warm_coinbase_address _).
  - apply (lock_end_op _ (fun er => (ExitReasonError er, []))); [apply plain_external|].
    apply (lock_end_op _ (fun er => (ExitReasonError er, []))); [apply plain_inc_nonce|].
    apply lock_run_first, lock_call_inner.
Qed.

Lemma lock_create_with fuel caller scheme value init_code gas al :
  lock_end (create_with fuel caller scheme value init_code gas al).
Proof.
  intros e e' x Hok. unfold create_with. change (se_config (swap e)) with (se_config e).
  destruct (exceeds _ _); [by intros [= <- <-]|]. revert Hok. revert e e' x.
  apply (lock_end_op (record_create_transaction_cost init_code al) (fun er => (ExitReasonError er, [])));
    [apply plain_gasometer|].
  apply (lock_end_update (initialize_with_access_list al) (fun e => run_first fuel (to_capture (create_inner caller scheme
    value init_code (Some gas) false e)) (fun x => (x.1.1, x.2)))); [by intros e [Hb Hr]|].
  apply lock_run_first, lock_create_inner.
Qed.
End executor.

(** ** Theorems *)

Lemma deconstruct_swap {B} `{EvmBackend B} (b1 b2 : B) s :
  same_accounts b1 b2 -> Substate_deconstruct s b1 = Substate_deconstruct s b2.
Proof.
  intros Hs. unfold Substate_deconstruct. destruct (ss_parents s); [|done]. do 3 f_equal.
  apply list_fmap_ext. intros i a _. unfold modify_effect. by rewrite (same_account_of b1 b2 Hs).
Qed.

(** What the scheduler gets of a finished run. *)
Definition visible {B} `{EvmBackend B} (e : StackExecutor B) :=
  (used_gas e, se_rw_set e, stack_deconstruct (se_state e)).

Lemma lock_end_visible {B} `{EvmBackend B} {A} (f : StackExecutor B -> Run (StackExecutor B * A)) s b2 gas e x :
  let b1 := backend s in
  (same_accounts b1 b2 -> lock_end b1 b2 f) -> same_accounts b1 b2 ->
  f (storage_executor s gas true) = Finished (e, x) ->
  (forall a k, slot_read (se_rw_set e) a k -> same_slot b1 b2 a k) ->
  exists e2, f (storage_executor (mkEvmStorage b2 (precompiles s) (chain_config s)) gas true) = Finished (e2, x) ∧
    visible e2 = visible e.
Proof.
  intros b1 Hl Hs Hf Hr. assert (ok b1 (storage_executor s gas true)) as Hok by (split; [done|by eexists]).
  destruct (Hl Hs _ _ _ Hok Hf) as [[Hb _] Hgo].
  destruct (Hgo Hr) as [_ Hf2]. exists (swap b2 e). split; [exact Hf2|].
  unfold visible, stack_deconstruct. unfold se_backend in Hb. rewrite Hb. cbn.
  by rewrite (deconstruct_swap b1 b2) by done.
Qed.

(** The recorded read set is complete for storage: if a call transaction is
    simulated on one backend, then on every backend with the same accounts that
    agrees on the slots of the recorded read set it ends for the same reason with
    the same output, uses the same gas, records the same read-write set, and has
    the same effects and logs. *)
Theorem transact_call_read_set {B} `{EvmBackend B, Hashes} (s : EvmStorage B) (b2 : B)
    fuel caller address value data gas al e x :
  same_accounts (backend s) b2 ->
  se_transact_call fuel caller address value data gas al (storage_executor s gas true) = Finished (e, x) ->
  (forall a k, slot_read (se_rw_set e) a k -> same_slot (backend s) b2 a k) ->
  exists e2, se_transact_call fuel caller address value data gas al
      (storage_executor (mkEvmStorage b2 (precompiles s) (chain_config s)) gas true) = Finished (e2, x) ∧
    visible e2 = visible e.
Proof.
  intros Hs. apply lock_end_visible; [|done]. intros _. by apply lock_transact_call.
Qed.

(** The same for a create transaction. *)
Theorem transact_create_read_set {B} `{EvmBackend B, Hashes} (s : EvmStorage B) (b2 : B)
    fuel caller value init_code gas al e x :
  same_accounts (backend s) b2 ->
  se_transact_create fuel caller value init_code gas al (storage_executor s gas true) = Finished (e, x) ->
  (forall a k, slot_read (se_rw_set e) a k -> same_slot (backend s) b2 a k) ->
  exists e2, se_transact_create fuel caller value init_code gas al
      (storage_executor (mkEvmStorage b2 (precompiles s) (chain_config s)) gas true) = Finished (e2, x) ∧
    visible e2 = visible e.
Proof.
  intros Hs. apply lock_end_visible; [|done]. intros _. by apply lock_create_with.
Qed.
