(* ===== verification/EvmChase.v ===== *)
(** * The interpreter under the scheduler

    The scheduler sees the interpreter as an [EvmExecutor]: the exit reason, the
    effects, the logs and the read-write set of a transaction.  Here the stack
    executor is made one, with the fuel that its gas limit gives; a run that panics or
    uses up its fuel has no outcome, and well-formed transactions on a well-formed
    state have one.  So what the development proves of the scheduler holds of CHASE
    with its EVM. *)

From S2P Require Import Prelude Bytes Types EvmConfig Backend ConflictGraph CdsScheduler GraphProps Seer ChaseCore EvmWord EvmCore.
From S2P Require Import EvmCoreProps EvmRuntime EvmGas EvmGasProps EvmRuntimeProps EvmSubstate EvmSubstateProps EvmExecutor EvmExecutorProps EvmTransactionProps EvmLocality.
Local Open Scope Z_scope.
Local Open Scope chase_scope.

Section evm.
Context {B : Type} `{EvmBackend B, HH : Hashes}.
Context (pre : gmap H160 PrecompileFn) (cfg : Config).

(** What [evm_utils::simulate_tx] reads from the executor after the transaction.
    After a failure it reads nothing.  A panic, and a run without end, have no
    outcome. *)
Definition evm_outcome (r : Run (StackExecutor B * (ExitReason * bytes))) : option (ExitReason * Outcome) :=
  match r with
  | Finished (e, (reason, _)) =>
      match stack_deconstruct (se_state e), se_rw_set e with
      | Some (effects, logs), Some rw => Some (reason, mkOutcome effects logs rw)
      | _, _ => if is_clean reason then None else Some (reason, mkOutcome [] [] RwSet_new)
      end
  | _ => None
  end.

(** Enough steps for any run with this gas limit. *)
Definition gas_fuel (gas : Z) : nat := Z.to_nat (2 * gas + 2).

Definition chase_evm : EvmExecutor B := {|
  transact_call b caller to v d gas al :=
    evm_outcome (se_transact_call (gas_fuel gas) caller to v d gas al
      (storage_executor (mkEvmStorage b pre cfg) gas true));
  transact_create b caller v init_code gas al :=
    evm_outcome (se_transact_create (gas_fuel gas) caller v init_code gas al
      (storage_executor (mkEvmStorage b pre cfg) gas true))
|}.
End evm.

(** ** Well-formed transactions *)

(** The fields are words and bytes, and the gas limit is below [i64::MAX]. *)
Record tx_wf (tx : EthereumTransaction) : Prop := {
  tw_gas : forall g, gas_limit tx = Some g -> 0 <= g <= max_gas;
  tw_caller : forall a, caller tx = Some a -> word a;
  tw_to : forall a, to_addr tx = Some a -> word a;
  tw_value : forall v, value tx = Some v -> word v;
  tw_data : forall d, data tx = Some d -> bytes_ok d
}.

(** The write set holds every slot the effects write. *)
Definition covered (o : Outcome) : Prop :=
  forall a k, effect_slot (out_effects o) a k ->
    exists slots, write_set (out_rw_set o) !! a = Some slots ∧ is_Some (slots !! k).

Section simulation.
Context {B : Type} `{EvmBackend B, HH : Hashes, HLaws : !HashesLaws}.
Context (pre : gmap H160 PrecompileFn) (cfg : Config).
Abbreviation evm := (chase_evm (B := B) pre cfg).
Abbreviation run_tx b tx := (@simulate_tx B evm b tx).

Lemma gas_fuel_enough gas : 0 <= gas -> 2 * gas + 1 < Z.of_nat (gas_fuel gas).
Proof. unfold gas_fuel. lia. Qed.

(** A settled run has an outcome; after success or revert it is covered and its
    effects hold words and bytes. *)
Lemma settled_outcome gas F (r : Run (StackExecutor B * (ExitReason * bytes))) :
  settled gas true F r ->
  exists reason o, evm_outcome r = Some (reason, o) ∧
    (is_clean reason = true -> covered o ∧ Forall effect_ok (out_effects o)).
Proof.
  intros Hset. pose proof (settled_safe _ _ _ _ Hset) as (e & reason & out & -> & _ & Hrec & _ & Hcl).
  destruct Hset as (e0 & reason0 & out0 & D & [= <- <- <-] & (Hi & _) & _).
  simpl. apply bool_decide_eq_true in Hrec as [rw Hrw]. rewrite Hrw.
  destruct (is_clean reason) eqn:Ecl.
  - destruct (Hcl eq_refl) as (effects & logs & Hd & Hcov). rewrite Hd. eexists _, _. split; [done|]. intros _. cbn.
    split; [intros a k Hak; by apply (Hcov a k Hak rw)|by eapply effects_well_formed].
  - destruct (stack_deconstruct _) as [[effects logs]|]; eexists _, _; (split; [done|]); congruence.
Qed.

(** The two ways the code tells success from failure. *)
Lemma finish_some processed o o' : finish processed o = Ok (Some o') -> processed = Ok false ∧ o' = o.
Proof. destruct processed as [[]|]; simpl; naive_solver. Qed.

Lemma call_succeeded reason : process_transact_call_result reason = Ok false -> is_clean reason = true.
Proof. by destruct reason. Qed.

Lemma create_succeeded reason : process_transact_create_result reason = Ok false -> is_clean reason = true.
Proof. by destruct reason. Qed.

Lemma transact_call_outcome b from to v d gas al :
  storage_ok (mkEvmStorage b pre cfg) -> word from -> word to -> word v -> bytes_ok d -> 0 <= gas <= max_gas ->
  exists reason o, @transact_call B evm b from to v d gas al = Some (reason, o) ∧
    (is_clean reason = true -> covered o ∧ Forall effect_ok (out_effects o)).
Proof.
  intros Hs Hf Ht Hv Hd Hg. eapply settled_outcome, se_transact_call_spec; [by apply storage_executor_held|done..|lia|].
  apply gas_fuel_enough. lia.
Qed.

Lemma transact_create_outcome b from v d gas al :
  storage_ok (mkEvmStorage b pre cfg) -> word from -> word v -> bytes_ok d -> 0 <= gas <= max_gas ->
  exists reason o, @transact_create B evm b from v d gas al = Some (reason, o) ∧
    (is_clean reason = true -> covered o ∧ Forall effect_ok (out_effects o)).
Proof.
  intros Hs Hf Hv Hd Hg. eapply settled_outcome, create_with_spec; [by apply storage_executor_held|done..|lia|].
  apply gas_fuel_enough. lia.
Qed.

Lemma simulate_covered b tx o :
  storage_ok (mkEvmStorage b pre cfg) -> tx_wf tx -> run_tx b tx = Some (Ok (Some o)) -> covered o.
Proof.
  intros Hs [Hg Hc Ht Hv Hd]. unfold simulate_tx. destruct (gas_limit tx) as [gas|] eqn:Eg; [|done].
  cbn [mbind option_bind]. specialize (Hg gas eq_refl).
  destruct (to_addr tx) as [to|]; [|destruct (data tx) as [init|]];
    (destruct (caller tx) as [from|]; [|done]); (destruct (value tx) as [v|]; [|done]); cbn [mbind option_bind].
  - destruct (data tx) as [d|]; [|done]. cbn [mbind option_bind].
    destruct (transact_call_outcome b from to v d gas (access_list tx) Hs (Hc _ eq_refl) (Ht _ eq_refl) (Hv _ eq_refl)
      (Hd _ eq_refl) Hg) as (reason & o1 & -> & Hcov). intros [= [Hp ->]%finish_some]. by apply Hcov, call_succeeded.
  - destruct (transact_create_outcome b from v init gas (access_list tx) Hs (Hc _ eq_refl) (Hv _ eq_refl)
      (Hd _ eq_refl) Hg) as (reason & o1 & -> & Hcov). intros [= [Hp ->]%finish_some]. by apply Hcov, create_succeeded.
  - destruct (tx_nonce_of tx); [|done]. cbn [mbind option_bind]. intros [= <-]. intros a k (basic & code & st & rs & Hin & Hk).
    apply list_elem_of_singleton in Hin. simplify_eq. by destruct Hk.
Qed.

(** A transaction with the fields the simulation unwraps, all of them words and bytes. *)
Record tx_ready (tx : EthereumTransaction) : Prop := {
  ty_complete : tx_complete tx;
  ty_wf : tx_wf tx;
  ty_nonce : forall n, tx_nonce_of tx = Some n -> word n
}.

Definition effects_ok : list Apply -> Prop := Forall effect_ok.

(** The simulation of a ready transaction ends, and its effects hold words and bytes. *)
Lemma simulate_tx_total b tx :
  storage_ok (mkEvmStorage b pre cfg) -> tx_ready tx ->
  exists r, run_tx b tx = Some r ∧ forall o, r = Ok (Some o) -> effects_ok (out_effects o).
Proof.
  intros Hs [[[gas Eg] [from Ef] [v Ev] Ed [n En]] [Hg Hc Ht Hv Hd] Hn]. unfold simulate_tx.
  rewrite Eg, Ef, Ev, En. cbn [mbind option_bind]. specialize (Hg gas Eg).
  destruct (to_addr tx) as [to|].
  - destruct Ed as [d Ed]; [by eexists|]. rewrite Ed. cbn [mbind option_bind].
    destruct (transact_call_outcome b from to v d gas (access_list tx) Hs (Hc _ Ef) (Ht _ eq_refl) (Hv _ Ev)
      (Hd _ Ed) Hg) as (reason & o1 & -> & Hcov). eexists. split; [done|].
    intros o [Hp ->]%finish_some. by apply Hcov, call_succeeded.
  - destruct (data tx) as [init|].
    + destruct (transact_create_outcome b from v init gas (access_list tx) Hs (Hc _ Ef) (Hv _ Ev)
        (Hd _ eq_refl) Hg) as (reason & o1 & -> & Hcov). eexists. split; [done|].
      intros o [Hp ->]%finish_some. by apply Hcov, create_succeeded.
    + eexists. split; [done|]. intros o [= <-]. apply Forall_singleton. split_and!; [|done|done].
      split; [by apply Hv|by apply Hn].
Qed.

(** *** Locality *)

Lemma outcome_visible (e1 e2 : StackExecutor B) (x : ExitReason * bytes) :
  visible e2 = visible e1 -> evm_outcome (Finished (e2, x)) = evm_outcome (Finished (e1, x)).
Proof. intros [= _ Hrw Hd]. destruct x. simpl. by rewrite Hrw, Hd. Qed.

Lemma clean_outcome (r : Run (StackExecutor B * (ExitReason * bytes))) reason o :
  evm_outcome r = Some (reason, o) -> is_clean reason = true ->
  exists e out, r = Finished (e, (reason, out)) ∧ se_rw_set e = Some (out_rw_set o).
Proof.
  destruct r as [[e [reason' out]]| |]; simpl; [|done..].
  destruct (stack_deconstruct _) as [[effects logs]|], (se_rw_set e) as [rw|] eqn:Erw; simpl;
    try (destruct (is_clean reason') eqn:Ec; simpl; intros ?; simplify_eq; congruence).
  intros [= <- <-] _. eauto.
Qed.

Lemma transact_call_local b1 b2 from to v d gas al reason o :
  same_accounts b1 b2 -> @transact_call B evm b1 from to v d gas al = Some (reason, o) -> is_clean reason = true ->
  (forall a k, slot_read (Some (out_rw_set o)) a k -> same_slot b1 b2 a k) ->
  @transact_call B evm b2 from to v d gas al = Some (reason, o).
Proof.
  intros Hs E Hc Hr. destruct (clean_outcome _ _ _ E Hc) as (e & out & Ee & Erw). cbn in E. rewrite Ee in E.
  destruct (lock_end_visible (se_transact_call (gas_fuel gas) from to v d gas al) (mkEvmStorage b1 pre cfg) b2 gas e
    (reason, out)) as (e2 & E2 & Hv); [intros _; by apply lock_transact_call|done|done|by rewrite Erw|].
  cbn in E2 |- *. by rewrite E2, (outcome_visible _ _ _ Hv).
Qed.

Lemma transact_create_local b1 b2 from v d gas al reason o :
  same_accounts b1 b2 -> @transact_create B evm b1 from v d gas al = Some (reason, o) -> is_clean reason = true ->
  (forall a k, slot_read (Some (out_rw_set o)) a k -> same_slot b1 b2 a k) ->
  @transact_create B evm b2 from v d gas al = Some (reason, o).
Proof.
  intros Hs E Hc Hr. destruct (clean_outcome _ _ _ E Hc) as (e & out & Ee & Erw). cbn in E. rewrite Ee in E.
  destruct (lock_end_visible (se_transact_create (gas_fuel gas) from v d gas al) (mkEvmStorage b1 pre cfg) b2 gas e
    (reason, out)) as (e2 & E2 & Hv); [intros _; by apply lock_create_with|done|done|by rewrite Erw|].
  cbn in E2 |- *. by rewrite E2, (outcome_visible _ _ _ Hv).
Qed.

(** C24. The recorded read set is complete for storage: a transaction that is
    simulated with success on one backend has the same effects, logs and
    read-write set on every backend with the same accounts that agrees on the
    slots of its read set. *)
Theorem simulation_records_reads b1 b2 tx o :
  same_accounts b1 b2 -> run_tx b1 tx = Some (Ok (Some o)) ->
  (forall a k, slot_read (Some (out_rw_set o)) a k -> same_slot b1 b2 a k) ->
  run_tx b2 tx = Some (Ok (Some o)).
Proof.
  intros Hs. unfold simulate_tx. destruct (gas_limit tx) as [gas|]; [|done]. cbn [mbind option_bind].
  destruct (to_addr tx) as [to|]; [|destruct (data tx) as [init|]; [|done]];
    (destruct (caller tx) as [from|]; [|done]); (destruct (value tx) as [v|]; [|done]); cbn [mbind option_bind].
  - destruct (data tx) as [d|]; [|done]. cbn [mbind option_bind].
    destruct (@transact_call B evm b1 from to v d gas (access_list tx)) as [[reason o1]|] eqn:E; [|done].
    intros [= Hf] Hr. destruct (finish_some _ _ _ Hf) as [Hp ->].
    rewrite (transact_call_local b1 b2 _ _ _ _ _ _ _ _ Hs E (call_succeeded _ Hp) Hr). simpl. by rewrite Hf.
  - destruct (@transact_create B evm b1 from v init gas (access_list tx)) as [[reason o1]|] eqn:E; [|done].
    intros [= Hf] Hr. destruct (finish_some _ _ _ Hf) as [Hp ->].
    rewrite (transact_create_local b1 b2 _ _ _ _ _ _ _ Hs E (create_succeeded _ Hp) Hr). simpl. by rewrite Hf.
Qed.
End simulation.

(** The interpreter keeps its promise to the scheduler. *)
#[global] Instance chase_evm_laws {B} `{WfBackend B, Hashes, !HashesLaws} pre cfg :
  SimulationLaws (H0 := chase_evm pre cfg) (fun b => storage_ok (mkEvmStorage b pre cfg)) tx_ready effects_ok.
Proof.
  split.
  - by intros tx [].
  - intros b tx. apply simulate_tx_total.
  - intros b es [Hc Hb Hp] He. split; [done| |done]. by apply apply_wf.
Qed.

(** ** Epochs of simulated transactions *)

(** The transactions of the conflict zone carry simulation results of the batch. *)
Lemma conflict_zone_members ncpu lcw dr txs g s e :
  NoDup (tx_ids txs) -> par_construct ncpu txs = Some g -> schedule_graph lcw dr g = Some s ->
  e ∈ conflict_zone_finalized s ->
  exists candidates, e ∈ place_into_epochs candidates tk_finalized ∧
    forall c, c ∈ candidates -> exists tx, tx ∈ txs ∧
      tk_write_keys c = extract_write_set (sim_rw_set tx) ∧ fin_effect (tk_finalized c) = sim_effects tx.
Proof.
  intros Hnd Hg Hs He. destruct (par_construct_wf ncpu txs) as (g0 & Hg0 & W); [by intros ->|done|].
  rewrite Hg in Hg0. injection Hg0 as <-.
  destruct (schedule_graph_reordered _ _ _ _ _ Hnd W Hs) as (g' & Hh & Hx).
  pose proof (take_schedule_holds _ _ Hh) as Ht. unfold extract_schedule in Hx.
  destruct (take_schedule g') as [tx_list aborted_txs]. destruct Ht as [_ Hr].
  unfold build_cds_schedule in Hx.
  destruct (group_by_sequence_waves (clear_write_units <$> tx_list)) as (done & Hp & [Hc _ _ _]).
  destruct (extract_conflict_free_chains _) as [chains|]; [|done]. injection Hx as <-.
  eexists. split; [exact He|]. intros c Hc0. rewrite elem_of_sort_by_key in Hc0.
  apply list_elem_of_fmap in Hc0 as (t & -> & Ht).
  assert (t ∈ clear_write_units <$> tx_list) as Hin.
  { rewrite <- Hp, <- Hc. destruct (group_by_sequence _) as [|x xs]; [done|]. simpl in *. apply elem_of_app. by right. }
  apply list_elem_of_fmap in Hin as (t0 & -> & Ht0).
  destruct (Hr t0) as (_ & tx & Htx & [_ R2 _ R4 _]); [by left|]. exists tx. split_and!; [done| |done].
  simpl. unfold AbortInfo_write_keys, extract_write_set. by rewrite R4.
Qed.

(** A covered outcome with plain effects is confined to its write set. *)
Lemma covered_confined o fin :
  covered o -> Forall plain (out_effects o) -> fin_effect fin = out_effects o ->
  confined (extract_write_set (out_rw_set o)) fin.
Proof.
  intros Hc Hp Ef. split; [by rewrite Ef|]. rewrite Ef. intros a k v Hin. unfold effects_writes in Hin.
  apply list_elem_of_bind in Hin as (eff & Hw & Hin). destruct eff as [a' basic code st reset|]; simpl in Hw; [|by apply elem_of_nil in Hw].
  apply list_elem_of_fmap in Hw as ([k' v'] & [= -> -> ->] & Hk). apply elem_of_btree_iter in Hk.
  destruct (Hc a' k') as (slots & Hs & Hk'); [by exists basic, code, st, reset; split; [|exists v']|].
  apply elem_of_flatten_keys. exists a', slots. split; [done|]. by apply elem_of_dom.
Qed.

(** Without the cache, every simulation result is a simulation on the current state. *)
Lemma simulate_batch_outcome {B} `{EvmExecutor B} hs f l (m m' : ConcurrencyLevelManager B) sims sim :
  is_enabled (config (seer_ctx m)) = false -> simulate_batch hs f l m = Some (m', sims) -> sim ∈ sims ->
  exists raw o, raw ∈ l ∧ simulate_tx (backend (global_state m)) (itx raw) = Some (Ok (Some o)) ∧
    sim = SimulatedTransaction_new (out_rw_set o) (out_effects o) (out_logs o) raw.
Proof.
  intros Hoff. unfold simulate_batch. rewrite Hoff. intros (ctx & Hs & _)%on_seer_Some Hin.
  unfold simulate_all in Hs. rewrite st_bind_Some in Hs. destruct Hs as (s1 & os & Hi%st_iter_Forall2 & E).
  unfold mret, ST_ret in E. simplify_eq/=. apply list_elem_of_omap in Hin as (o & Ho & Eo). unfold id in Eo. subst o.
  apply list_elem_of_lookup in Ho as [i Ho]. destruct (Forall2_lookup_r _ _ _ _ _ Hi Ho) as (x & Hx & s2 & s3 & Hb).
  apply st_bind_Some in Hb as (s4 & r & Hr & E). unfold mret, ST_ret, st_lift in *.
  destruct (simulate_tx _ (itx x)) as [r0|] eqn:Es; [|done]. simplify_eq/=.
  unfold keep_simulated in *. destruct r as [[o|]|]; simplify_eq/=. exists x, o.
  split_and!; [by eapply list_elem_of_lookup_2|done..].
Qed.

(** ** A sample contract *)

#[local] Existing Instance sample_hashes.
#[local] Existing Instance sample_hashes_laws.

(** Contract 7 moves twice: it stores in the slot of its second argument the slot
    of its first argument plus one, and does the same with its third and fourth
    argument.  A move is PUSH1, CALLDATALOAD, SLOAD, PUSH1 1, ADD, PUSH1,
    CALLDATALOAD, SSTORE. *)
Definition move_code (from to : Z) : bytes := [0x60; from; 0x35; 0x54; 0x60; 1; 0x01; 0x60; to; 0x35; 0x55].
Definition mover_code : bytes := move_code 0 32 ++ move_code 64 96 ++ [0x00].

Definition mover_backend (slots : gmap H256 H256) : MemoryBackend :=
  mkMemoryBackend genesis_vicinity
    (<[5 := mkAccount 0 1000 ∅ []]> (<[6 := mkAccount 0 1000 ∅ []]> {[7 := mkAccount 1 0 slots mover_code]})).

Definition mover_tx (from r w r' w' : Z) : EthereumTransaction :=
  mkEthereumTransaction (Some from) (Some 7) (Some 0)
    (Some (be_bytes 32 r ++ be_bytes 32 w ++ be_bytes 32 r' ++ be_bytes 32 w')) (Some 100000) None (Some 0).

Definition transfer_tx (from to v : Z) : EthereumTransaction :=
  mkEthereumTransaction (Some from) (Some to) (Some v) (Some []) (Some 21000) None (Some 0).

Abbreviation sample_evm := (chase_evm (B := MemoryBackend) ∅ istanbul).

Definition mover_manager : ConcurrencyLevelManager MemoryBackend :=
  with_seer (mkEvmStorage (mover_backend ∅) ∅ istanbul) 2 SeerContext_disabled.

Lemma mover_same_accounts m1 m2 : same_accounts (mover_backend m1) (mover_backend m2).
Proof.
  split; try done; intros a; cbn; unfold MemoryBackend_exists, MemoryBackend_basic, MemoryBackend_code, mover_backend; cbn;
    (destruct (decide (a = 5)) as [->|?]; [by simplify_map_eq|]);
    (destruct (decide (a = 6)) as [->|?]; [by simplify_map_eq|]);
    destruct (decide (a = 7)) as [->|?]; by simplify_map_eq.
Qed.

Lemma mover_storage_ok : storage_ok (mkEvmStorage (mover_backend ∅) ∅ istanbul).
Proof.
  split; [|apply MemoryBackend_wf|].
  - eapply Forall_lookup_1; [exact forks_cfg_ok|]. by instantiate (1 := 1%nat).
  - by repeat constructor.
  - done.
  - apply map_Forall_insert_2; [|apply map_Forall_insert_2; [|apply map_Forall_singleton]]; split; cbn; try done;
      by repeat constructor.
  - intros a f Hf. done.
Qed.

#[local] Instance same_slot_dec b1 b2 a k : Decision (same_slot (B := MemoryBackend) b1 b2 a k).
Proof. unfold same_slot. apply _. Defined.

(** A read set checked slot by slot. *)
Lemma reads_agree (b1 b2 : MemoryBackend) rw :
  bool_decide (map_Forall (fun a => map_Forall (fun k (_ : H256) => same_slot b1 b2 a k)) (read_set rw)) = true ->
  forall a k, slot_read (Some rw) a k -> same_slot b1 b2 a k.
Proof. intros Hb%bool_decide_eq_true a k (r & slots & [= <-] & Hr & [v Hk]). by apply (Hb a slots Hr k v). Qed.

Definition mover_batch : ExecutableEthereumBatch :=
  mkBatch 41 [mover_tx 5 1 2 1 2; mover_tx 6 3 4 3 4; mover_tx 5 2 5 2 5; mover_tx 6 4 6 4 6].

Lemma mover_tx_wf from r w r' w' : word from -> tx_wf (mover_tx from r w r' w').
Proof.
  intros Hf. split; unfold mover_tx; cbn [gas_limit caller to_addr value data]; intros x <-%(inj Some);
    [unfold max_gas; lia|done|by split..|].
  split; [|by rewrite !length_app, !length_be_bytes]. rewrite !Forall_app. split_and!; apply be_bytes_range.
Qed.

Lemma mover_tx_ready from r w r' w' : word from -> tx_ready (mover_tx from r w r' w').
Proof.
  intros Hf. split; [split; by eexists|by apply mover_tx_wf|]. by intros n [= <-].
Qed.

Definition run_batches (batches : list (list EthereumTransaction)) : option MemoryBackend :=
  (fun r => backend (global_state r.1)) <$>
    st_iter (fun txs => execute (H0 := sample_evm) sample_hasher sample_branch_id 4 false false [mkBatch 41 txs])
      batches mover_manager.

(** ** Theorems *)

(** C1. Executing batches of complete, well-formed transactions, with gas limits below
    [i64::MAX] as CHASE's EVM needs them, on a well-formed state: the simulation ends
    without a panic, [_execute] then returns if and only if the graph and the schedule
    are built (some transaction succeeded and no dependency cycle panics), and it
    returns the digests of its batches in order and leaves a well-formed state, so
    that the next batches can be executed. *)
Theorem execute_returns {B} `{WfBackend B, Hashes, !HashesLaws} pre cfg hs f ncpu lcw dr
    (out : list ExecutableEthereumBatch) (m : ConcurrencyLevelManager B) :
  Forall tx_ready (concat (batch_data <$> out)) ->
  storage_ok (mkEvmStorage (backend (global_state m)) pre cfg) -> seer_ok effects_ok (seer_ctx m) ->
  exists m1 rws, simulate_batch (H0 := chase_evm pre cfg) hs f (unpack_batches out).2 m = Some (m1, rws) ∧
    (is_Some (execute (H0 := chase_evm pre cfg) hs f ncpu lcw dr out m) ↔
     is_Some (acg ← par_construct ncpu rws; schedule_graph lcw dr acg)) ∧
    forall m' ds, execute (H0 := chase_evm pre cfg) hs f ncpu lcw dr out m = Some (m', ds) ->
      ds = batch_digest <$> out ∧
      storage_ok (mkEvmStorage (backend (global_state m')) pre cfg) ∧ seer_ok effects_ok (seer_ctx m').
Proof.
  intros Htx Hs Hc.
  destruct (execute_total (HE := chase_evm pre cfg) _ tx_ready effects_ok hs f ncpu lcw dr out m Htx (conj Hs Hc))
    as (m1 & rws & E & He).
  exists m1, rws. split; [exact E|]. destruct (_ ≫= _) as [s|].
  - destruct He as (m' & -> & Hs' & Hc'). split; [by split; eauto|]. by intros ? ? [= <- <-].
  - rewrite He. split; [|done]. split; by intros [].
Qed.

Lemma execute_returns_witness :
  exists m', execute (H0 := sample_evm) sample_hasher sample_branch_id 4 false false [mover_batch] mover_manager =
    Some (m', [41]) ∧ storage_ok (mkEvmStorage (backend (global_state m')) ∅ istanbul).
Proof.
  destruct (execute_returns ∅ istanbul sample_hasher sample_branch_id 4 false false [mover_batch] mover_manager)
    as (m1 & rws & Hs & Hiff & Hd).
  - repeat (constructor; [by apply mover_tx_ready|]). constructor.
  - exact mover_storage_ok.
  - split; [apply empty_table_ok|]. intros fp o E. discriminate E.
  - assert (is_Some (acg ← par_construct 4 rws; schedule_graph false false acg)) as Hsome.
    { vm_compute in Hs. injection Hs as _ Hrws. subst rws. eexists. vm_compute. reflexivity. }
    apply Hiff in Hsome as [[m' ds] E]. destruct (Hd m' ds E) as (Eds & Hok & _). exists m'. rewrite E, Eds. by split.
Defined.

Lemma simulation_records_reads_witness :
  exists o, @simulate_tx _ sample_evm (mover_backend ∅) (mover_tx 5 1 2 1 2) = Some (Ok (Some o)) ∧
    @simulate_tx _ sample_evm (mover_backend {[3 := 77]}) (mover_tx 5 1 2 1 2) = Some (Ok (Some o)).
Proof.
  eexists. assert (@simulate_tx _ sample_evm (mover_backend ∅) (mover_tx 5 1 2 1 2) = Some (Ok (Some _))) as E
    by (vm_compute; reflexivity).
  split; [exact E|]. apply (simulation_records_reads ∅ istanbul (mover_backend ∅));
    [apply mover_same_accounts|exact E|]. apply reads_agree. vm_compute. reflexivity.
Defined.

(** C22. The transactions of an epoch of the conflict zone commute: when a batch of
    well-formed transactions is simulated by the interpreter on a well-formed state
    and scheduled, and no transaction deletes an account or resets its storage, the
    finalized transactions of every epoch can be committed in any order, on any
    state, and leave the same storage. *)
Theorem simulated_epochs_commute {B} `{StorageBackendLaws B, EvmBackend B, Hashes, !HashesLaws} pre cfg hs f ncpu lcw dr
    (out : list ExecutableEthereumBatch) (m m' m1 : ConcurrencyLevelManager B) sims g s e order :
  storage_ok (mkEvmStorage (backend (global_state m)) pre cfg) -> is_enabled (config (seer_ctx m)) = false ->
  Forall tx_wf (concat (batch_data <$> out)) ->
  simulate_batch (H0 := chase_evm pre cfg) hs f (unpack_batches out).2 m = Some (m', sims) ->
  Forall (fun sim => Forall plain (sim_effects sim)) sims ->
  par_construct ncpu sims = Some g -> schedule_graph lcw dr g = Some s ->
  e ∈ conflict_zone_finalized s -> order ≡ₚ e ->
  forall a k, storage_of (commit_in_order m1 order) a k = storage_of (commit_in_order m1 e) a k.
Proof.
  intros Hok Hoff Hwf Hsim Hplain Hg Hs He Hp.
  destruct (conflict_zone_members _ _ _ _ _ _ _ (simulate_batch_NoDup _ _ _ _ _ _ Hsim) Hg Hs He) as (cands & Hin & Hc).
  apply (epoch_commit_permutation m1 cands); [|done..]. apply Forall_forall. intros c Hcin.
  destruct (Hc c Hcin) as (sim & Hsin & -> & Eff).
  destruct (simulate_batch_outcome _ _ _ _ _ _ _ Hoff Hsim Hsin) as (raw & o & Hraw & Hrun & ->).
  rewrite Forall_forall in Hplain. specialize (Hplain _ Hsin).
  apply covered_confined; [|done..]. eapply simulate_covered; [done| |done].
  rewrite Forall_forall in Hwf. apply Hwf. cbn in Hraw. apply list_elem_of_lookup in Hraw as [i Hi].
  rewrite list_lookup_imap_Some in Hi. destruct Hi as (tx & Hi & ->). by eapply list_elem_of_lookup_2.
Qed.

Lemma simulated_epochs_commute_witness :
  exists e1 e2, fin_id e1 = 0 ∧ fin_id e2 = 1 ∧
    storage_of (commit_in_order mover_manager [e2; e1]) 7 2 = storage_of (commit_in_order mover_manager [e1; e2]) 7 2.
Proof.
  eexists _, _. split; [|split]; cycle 2.
  - eapply (simulated_epochs_commute ∅ istanbul sample_hasher sample_branch_id 4 false false [mover_batch] mover_manager);
      [exact mover_storage_ok|reflexivity| |vm_compute; reflexivity| |vm_compute; reflexivity|vm_compute; reflexivity| |].
    + repeat (constructor; [by apply mover_tx_wf|]). constructor.
    + repeat constructor.
    + apply list_elem_of_here.
    + apply perm_swap.
  - reflexivity.
  - reflexivity.
Defined.

(** Balances are not tracked: the read-write set of a transfer is empty, so two
    transfers to one account, and two transfers from one account, are scheduled as
    independent and the last one committed wins.  Of two deposits one is lost, and
    an account pays only one of two transfers that both arrive. *)
Theorem concurrent_transfers_lose_updates :
  (fun b => balance ∘ MemoryBackend_basic b <$> [5; 6; 9]) <$> run_batches [[transfer_tx 5 9 10]; [transfer_tx 6 9 20]]
    = Some [990; 980; 30] ∧
  (fun b => balance ∘ MemoryBackend_basic b <$> [5; 6; 9]) <$> run_batches [[transfer_tx 5 9 10; transfer_tx 6 9 20]]
    = Some [990; 980; 20] ∧
  (fun b => balance ∘ MemoryBackend_basic b <$> [5; 8; 9]) <$> run_batches [[transfer_tx 5 9 10; transfer_tx 5 8 20]]
    = Some [980; 20; 10].
Proof. vm_compute. done. Qed.

(** The schedule is not serializable: a transaction that reads slot 1 and writes
    slot 2 and one that reads slot 2 and writes slot 1 are both committed with what
    they read before the batch, a result that neither order of the two gives.  The
    sort raises the sequence of an updater at each address it updates, and does not
    check again the readers of the addresses sorted before. *)
Theorem write_skew_commits :
  (fun b => MemoryBackend_storage b 7 <$> [1; 2]) <$> run_batches [[mover_tx 5 1 2 1 2; mover_tx 6 2 1 2 1]] = Some [1; 1] ∧
  (fun b => MemoryBackend_storage b 7 <$> [1; 2]) <$> run_batches [[mover_tx 5 1 2 1 2]; [mover_tx 6 2 1 2 1]] = Some [2; 1] ∧
  (fun b => MemoryBackend_storage b 7 <$> [1; 2]) <$> run_batches [[mover_tx 6 2 1 2 1]; [mover_tx 5 1 2 1 2]] = Some [1; 2].
Proof. vm_compute. done. Qed.

(** A batch can stop the node: three transactions that each succeed alone, of
    which the second reads what the first writes and the first what the second
    writes, get equal sequences, and building the conflict-free chains panics on the
    cycle. *)
Theorem evm_batch_panics :
  let txs := [mover_tx 5 3 2 3 2; mover_tx 6 2 3 2 4; mover_tx 5 4 2 4 3] in
  Forall (fun tx => is_Some (run_batches [[tx]])) txs ∧ run_batches [txs] = None.
Proof.
  intros txs. split; [|vm_compute; done]. subst txs.
  repeat (constructor; [eexists; vm_compute; reflexivity|]). constructor.
Qed.
