(* ===== verification/BridgeEvm.v ===== *)
(** * Termination of the pipeline

    The progress argument of Bridge.v put together: under light load every
    interleaving of the three tasks ends, and it ends with both workers returned
    unless an execution panics.  The pipeline of the witness runs CHASE's manager with
    the interpreter of EvmChase on the view of the overlay backend
    (crates/sslab-execution/chase/src/executor/cache/cache_overlay.rs). *)

From Stdlib Require Import FunctionalExtensionality.
From S2P Require Import Prelude Types EvmConfig Backend Pages Cache Pipeline Seer ChaseCore Bridge EvmExecutor EvmTransactionProps EvmChase.
Local Open Scope Z_scope.
Local Open Scope chase_scope.

(** The view of the overlay for the interpreter: everything but the storage comes from
    the inner backend. *)
#[global] Instance CachedView_EvmBackend {B} `{StorageBackend B, EvmBackend B} : EvmBackend (CachedView B) := {
  bk_gas_price v := bk_gas_price (cv_inner v);
  bk_origin v := bk_origin (cv_inner v);
  bk_block_hash v := bk_block_hash (cv_inner v);
  bk_block_number v := bk_block_number (cv_inner v);
  bk_block_coinbase v := bk_block_coinbase (cv_inner v);
  bk_block_timestamp v := bk_block_timestamp (cv_inner v);
  bk_block_difficulty v := bk_block_difficulty (cv_inner v);
  bk_block_randomness v := bk_block_randomness (cv_inner v);
  bk_block_gas_limit v := bk_block_gas_limit (cv_inner v);
  bk_block_base_fee_per_gas v := bk_block_base_fee_per_gas (cv_inner v);
  bk_chain_id v := bk_chain_id (cv_inner v);
  bk_exists v := bk_exists (cv_inner v);
  bk_basic v := bk_basic (cv_inner v);
  bk_code v := bk_code (cv_inner v);
  bk_storage := view_storage;
  bk_original_storage v a i := Some (view_storage v a i)
}.

(** ** Lemmas: a single batch *)

Section single.
Context {M L D : Type} `{HLru : LruCache L, HLruL : !LruLaws L, HSt : StateStore D, HStL : !StateStoreLaws D}.
Context `{HRun : !BatchRunner M, HRunL : !BatchRunnerLaws M}.
Context (init : Key -> option Value) (log : list (Key * Value)) (r : EvBlpPipeline L D * Z).
Context (m : M) (b0 : ExecutableEthereumBatch).
Context (Hr : bridge_ready init log r) (Hn : ppl_next_batch_id r.1 + 1 < u64_modulus).
Abbreviation Bridge := (Bridge M L D).
Abbreviation start := (bridge_start m r log [b0]).

Definition fresh (s : Bridge) : Prop := br_manager s = m ∧ br_log s = log.

(** The buffer comes from an execution on the initial manager with the answers of the
    initial log. *)
Definition first_buffer (buffer : TempBuffer) : Prop :=
  exists read m' ds applies,
    (forall a i, reads_as (read a i) (overlaid log init (encode_key a i))) ∧
    run_batch b0 read m = Some (m', (ds, applies)) ∧ buffer = applies_to_temp_buffer applies TempBuffer_new.

Record single_inv (s : Bridge) : Prop := {
  si_todo : forall b, b ∈ br_todo s -> b = b0;
  si_batches : forall b, b ∈ exec_batches s -> pb_batch b = b0;
  si_exec : match br_exec s with
    | ExecRecv => br_results s = [] -> fresh s
    | ExecWait _ | ExecGranted _ | ExecRun _ _ => fresh s
    | ExecWrite _ _ buffer => first_buffer buffer
    | _ => True
    end
}.

Lemma single_order s s' : order_step s = Some s' -> single_inv s -> single_inv s'.
Proof.
  intros Hs [H1 H2 H3]. unfold order_step in Hs. destruct (br_todo s) as [|b todo] eqn:Et; [done|].
  destruct (br_order s); [destruct (can_push _ _); simplify_eq; by split|].
  simpl in Hs. apply bind_Some in Hs as (pb & Hpb & [= <-]). unfold PipelineBatch_new in Hpb.
  apply bind_Some in Hpb as (w & _ & [= <-]). split; simpl; [|..|done].
  - intros b' Hb'. apply H1. by right.
  - intros b'. unfold exec_batches in *. simpl. rewrite app_assoc, elem_of_app.
    intros [Hb'|Hb'%list_elem_of_singleton]; [by apply H2|]. subst b'. apply H1. left.
Qed.

Lemma single_reads ks s : single_inv s -> single_inv (exec_reads ks s).
Proof.
  intros Hi. unfold exec_reads. destruct (br_exec s) eqn:Hpc; try done. destruct Hi as [H1 H2 H3].
  unfold exec_batches in H2. rewrite Hpc in H2, H3. by split.
Qed.

Lemma single_commit s s' : commit_step s = Some s' -> single_inv s -> single_inv s'.
Proof.
  intros Hs [H1 H2 H3]. unfold commit_step in Hs.
  destruct (br_commit s) as [|w|w|w|w es [|[k v] todo]|w [|[k v] todo]|w]; simplify_eq; try by split.
  - destruct (br_commit_chan s); simplify_eq. by split.
  - destruct (can_push _ _); simplify_eq. by split.
  - destruct (ss_put _ k v); simplify_eq. by split.
Qed.

Lemma single_exec read s s' :
  bridge_inv init (ppl_next_batch_id r.1) [b0] s -> reads_from s read -> exec_step read s = Some s' ->
  single_inv s -> single_inv s'.
Proof.
  intros Hb Hread Hs [H1 H2 H3]. unfold exec_step in Hs. unfold exec_batches in H2.
  destruct (br_exec s) as [|b|b|b seen|b d bf|b d dl|b d dl|b d dl|i d dl] eqn:Hpc.
  - destruct (br_exec_chan s) as [|b chan] eqn:Ec; [done|]. simplify_eq. split; simpl; [done|done|]. apply H3.
    destruct (bi_progress _ _ _ _ Hb) as (k & Hk & _ & _ & Hres). apply (f_equal length) in Hres.
    rewrite Ec, !length_app, length_fmap in Hres. unfold numbered in Hres. rewrite length_imap, length_take in Hres.
    simpl in Hres, Hk. apply nil_length_inv. lia.
  - destruct (can_push _ _); simplify_eq. by split.
  - simplify_eq. by split.
  - unfold exec_run in Hs. apply bind_Some in Hs as ([m1 [ds ap]] & Hrun & [= <-]). split; simpl; [done|done|].
    destruct H3 as [Em El]. rewrite (H2 b) in Hrun by left. rewrite Em in Hrun. exists read, m1, ds, ap. split; [|done].
    intros a i. rewrite <- El. eapply may_answer_log; [exact Hb|auto with chase|]. unfold seen_caches, reads_from in *.
    rewrite Hpc in *. apply Hread.
  - unfold exec_write in Hs. apply bind_Some in Hs as (c & _ & [= <-]). by split.
  - simplify_eq. by split.
  - simplify_eq. by split.
  - simplify_eq. split; simpl; [done| |done]. intros b' Hb'. apply H2. by right.
  - simplify_eq. split; simpl; [done|done|]. intros E. by apply app_nil in E as [_ E].
Qed.

Lemma single_reachable s : rtc bridge_step start s -> single_inv s.
Proof.
  intros Hs. revert s Hs. apply rtc_ind_r.
  - split; simpl; [by intros b Hb%list_elem_of_singleton|by intros b ?%elem_of_nil|done].
  - intros s s' Hrs Hs Hi. pose proof (bridge_reachable_inv init log r m [b0] s Hr Hn Hrs) as Hb.
    destruct Hs as [Hs|ks read Hread Hs|ks Hs].
    + by eapply single_order.
    + eapply single_exec; [by eapply exec_reads_inv|done..|]. by apply single_reads.
    + eapply single_commit; [done|]. by apply single_reads.
Qed.

Lemma single_write s b d buffer :
  rtc bridge_step start s -> br_exec s = ExecWrite b d buffer -> first_buffer buffer.
Proof. intros Hs%single_reachable Hpc. pose proof (si_exec _ Hs) as Hw. by rewrite Hpc in Hw. Qed.
End single.

(** ** CHASE's manager in the pipeline *)

#[local] Existing Instance sample_hashes.

#[local] Instance mover_runner : BatchRunner (ConcurrencyLevelManager (CachedView MemoryBackend)) :=
  manager_runner (HE := chase_evm ∅ istanbul) sample_hasher sample_branch_id 4 false false.

#[local] Instance mover_runner_laws : BatchRunnerLaws (ConcurrencyLevelManager (CachedView MemoryBackend)).
Proof. apply manager_runner_laws. Qed.

Definition view_manager : ConcurrencyLevelManager (CachedView MemoryBackend) :=
  with_seer (mkEvmStorage (mkCachedView (fun _ _ => None) (mover_backend ∅)) ∅ istanbul) 2 SeerContext_disabled.

Definition mover_start : Bridge (ConcurrencyLevelManager (CachedView MemoryBackend)) LruList InMemoryStateStore :=
  bridge_start view_manager (sample_runtime 1000) [] [mover_batch].

Lemma mover_writes_little :
  match run_batch mover_batch (fun _ _ => None) view_manager with
  | Some (_, (_, applies)) => delta_bytes (applies_to_temp_buffer applies TempBuffer_new) <? 1000
  | None => false
  end = true.
Proof. vm_compute. reflexivity. Qed.

(** ** Theorems *)

(** C29. Under light load, where every transaction has a gas limit and no batch that is
    executed writes as much as the threshold of P3, every interleaving of the three
    tasks ends: it makes at most 18 steps per batch and two more for each record that
    a batch below the threshold can hold, and a state without a next step is one where
    both workers have returned, or one where the execution of a batch panics. *)
Theorem bridge_terminates {M L D} `{HLru : LruCache L, HLruL : !LruLaws L, HSt : StateStore D, HStL : !StateStoreLaws D,
    HRun : !BatchRunner M, HRunL : !BatchRunnerLaws M} init log (r : EvBlpPipeline L D * Z) (m : M) bs s lambda3 :
  bridge_ready init log r -> ppl_next_batch_id r.1 + Z.of_nat (length bs) < u64_modulus ->
  Z.of_nat (length bs) < u32_modulus ->
  ctl_idle (ppl_controller r.1) -> 1 <= ctl_zeta_max (ppl_controller r.1) ->
  cell (ctl_lambda (ppl_controller r.1)) Commit = lambda3 ->
  light_load lambda3 bs (bridge_start m r log bs) ->
  (forall n, nsteps bridge_step n (bridge_start m r log bs) s ->
     (n <= (2 * max_records lambda3 + 18) * length bs)%nat) ∧
  (rtc bridge_step (bridge_start m r log bs) s ->
   (exists s', bridge_step s s') ∨ bridge_joined s ∨ exec_panics s).
Proof.
  intros Hr Hn Hn' Hi Hm Hl Hlight.
  pose proof (bridge_start_live init lambda3 bs m r log Hr Hi Hm Hl) as Hl0. split.
  - intros n Hs%(bridge_steps_bound init lambda3); [|done..]. unfold steps_left, order_steps, exec_steps, commit_steps in Hs.
    cbn [bridge_start br_todo br_order br_exec br_exec_chan br_commit br_commit_chan length] in Hs. lia.
  - intros Hs. destruct (bridge_reachable_live init lambda3 log r m bs s) as [Hb Hlive]; [done..|].
    eapply bridge_progress; [apply Hlight|done..].
Qed.

Lemma bridge_terminates_witness :
  (exists s', bridge_step mover_start s') ∨ bridge_joined mover_start ∨ exec_panics mover_start.
Proof.
  apply (bridge_terminates (ss_get (D := InMemoryStateStore) ∅) [] (sample_runtime 1000) view_manager
    [mover_batch] mover_start 1000).
  - apply sample_runtime_ready.
  - vm_compute. reflexivity.
  - vm_compute. reflexivity.
  - apply PipelineController_new_idle. vm_compute. discriminate.
  - vm_compute. discriminate.
  - reflexivity.
  - split.
    + apply Forall_singleton. exists 400000. by split.
    + intros s b d buffer Hs Hpc.
      destruct (single_write (ss_get (D := InMemoryStateStore) ∅) [] (sample_runtime 1000) view_manager mover_batch
        (sample_runtime_ready 1000) ltac:(vm_compute; reflexivity) s b d buffer Hs Hpc)
        as (read & m' & ds & ap & Hread & Hrun & ->).
      assert (read = fun _ _ => None) as ->.
      { apply functional_extensionality. intros a. apply functional_extensionality. intros i.
        destruct (Hread a i) as [E|(E & _)]; [rewrite E|exact E]. reflexivity. }
      pose proof mover_writes_little as Hw. rewrite Hrun in Hw. by apply Z.ltb_lt.
  - apply rtc_refl.
Defined.
