(* ===== verification/Committee.v ===== *)
(** * The committee

    src/narwhal/config/src/committee.rs: authorities, their stake, the quorum and
    validity thresholds, and the stake-weighted choice of a leader.  Public keys,
    network keys and addresses are integers; a [BTreeMap] is a [gmap] read in key
    order.  The random generator of the rand crate is the class [Rng]. *)

From S2P Require Import Prelude Bytes.
Local Open Scope Z_scope.
Local Open Scope chase_scope.

(** ** Authorities *)

Record Authority := mkAuthority {
  au_id : Z;
  au_protocol_key : Z;
  au_stake : Z;
  au_primary_address : Z;
  au_network_key : Z;
  au_hostname : string;
  au_initialised : bool
}.

#[global] Instance Authority_eq_dec : EqDecision Authority.
Proof. solve_decision. Defined.

Definition Authority_new (protocol_key stake primary_address network_key : Z) (hostname : string) : Authority :=
  mkAuthority 0 protocol_key stake primary_address network_key hostname false.

Definition Authority_initialise (a : Authority) (id : Z) : Authority :=
  mkAuthority id (au_protocol_key a) (au_stake a) (au_primary_address a) (au_network_key a) (au_hostname a) true.

(** The accessors assert that the authority is initialised. *)
Definition Authority_id (a : Authority) : option Z := if au_initialised a then Some (au_id a) else None.
Definition Authority_stake (a : Authority) : option Z := if au_initialised a then Some (au_stake a) else None.
Definition Authority_hostname (a : Authority) : option string :=
  if au_initialised a then Some (au_hostname a) else None.
Definition Authority_protocol_key (a : Authority) : option Z :=
  if au_initialised a then Some (au_protocol_key a) else None.

(** ** The committee *)

Record Committee := mkCommittee {
  cm_authorities : gmap Z Authority;
  cm_authorities_by_id : gmap Z Authority;
  cm_epoch : Z;
  cm_quorum_threshold : Z;
  cm_validity_threshold : Z
}.

(** [values()] of the map of authorities, in key order. *)
Definition Committee_authorities (c : Committee) : list Authority := (btree_iter (cm_authorities c)).*2.

Definition Committee_size (c : Committee) : Z := Z.of_nat (size (cm_authorities c)).

Definition Committee_total_stake (c : Committee) : Z :=
  foldl (fun acc a => acc +u64 au_stake a) 0 (Committee_authorities c).

(** [NonZeroU64::new(_).unwrap()]. *)
Definition nonzero (x : Z) : option Z := if x =? 0 then None else Some x.

Definition calculate_quorum_threshold (c : Committee) : option Z :=
  nonzero ((2 *u64 Committee_total_stake c) / 3 +u64 1).

Definition calculate_validity_threshold (c : Committee) : option Z :=
  nonzero ((Committee_total_stake c +u64 2) / 3).

(** The identifiers are 16-bit numbers given in key order. *)
Definition initialised_authorities (authorities : gmap Z Authority) : list (Z * Authority) :=
  imap (fun i (e : Z * Authority) => (e.1, Authority_initialise e.2 (Z.of_nat i mod 65536)))
    (btree_iter authorities).

Definition Committee_load (c : Committee) : option Committee :=
  let entries := initialised_authorities (cm_authorities c) in
  let by_id := foldl (fun (m : gmap Z Authority) (e : Z * Authority) => <[au_id e.2 := e.2]> m) ∅ entries in
  let c := mkCommittee (list_to_map entries) by_id (cm_epoch c) (cm_quorum_threshold c) (cm_validity_threshold c) in
  validity ← calculate_validity_threshold c;
  quorum ← calculate_quorum_threshold c;
  Some (mkCommittee (cm_authorities c) (cm_authorities_by_id c) (cm_epoch c) quorum validity).

(** The assertions of [new] after [load]. *)
Definition Committee_new (authorities : gmap Z Authority) (epoch : Z) : option Committee :=
  c ← Committee_load (mkCommittee authorities ∅ epoch 0 0);
  validity ← calculate_validity_threshold c;
  quorum ← calculate_quorum_threshold c;
  if (size (cm_authorities_by_id c) =? size (cm_authorities c))%nat
     && (cm_validity_threshold c =? validity) && (cm_quorum_threshold c =? quorum)
     && forallb (fun p : nat * Authority => Z.of_nat p.1 mod 65536 =? au_id p.2)
          (imap pair (Committee_authorities c))
  then Some c else None.

Definition add_authority (b : Z * gmap Z Authority)
    (protocol_key stake primary_address network_key : Z) (hostname : string) : Z * gmap Z Authority :=
  (b.1, <[protocol_key := Authority_new protocol_key stake primary_address network_key hostname]> b.2).

Definition CommitteeBuilder_build (b : Z * gmap Z Authority) : option Committee := Committee_new b.2 b.1.

Definition Committee_authority (c : Committee) (identifier : Z) : option Authority :=
  cm_authorities_by_id c !! identifier.

(** The panic of [authority_safe] is [None]. *)
Definition authority_safe (c : Committee) (identifier : Z) : option Authority :=
  cm_authorities_by_id c !! identifier.

Definition authority_by_network_key (c : Committee) (network_key : Z) : option Authority :=
  List.find (fun a => au_network_key a =? network_key) (Committee_authorities c).

Definition Committee_stake (c : Committee) (name : Z) : Z :=
  match cm_authorities c !! name with Some a => au_stake a | None => 0 end.

Definition stake_by_id (c : Committee) (id : Z) : Z :=
  match cm_authorities_by_id c !! id with Some a => au_stake a | None => 0 end.

Definition reached_quorum (c : Committee) (stake : Z) : bool := cm_quorum_threshold c <=? stake.
Definition reached_validity (c : Committee) (stake : Z) : bool := cm_validity_threshold c <=? stake.

(** ** The choice of a leader *)

(** [StdRng::from_seed] followed by [choose_weighted] or [choose] of
    [SliceRandom]; an error of [choose_weighted] is [None]. *)
Class Rng := {
  rng_choose_weighted : list Z -> list (Authority * Z) -> option (Authority * Z);
  rng_choose : list Z -> list Authority -> option Authority
}.

Class RngLaws `{Rng} := {
  rng_choose_weighted_elem seed items x : rng_choose_weighted seed items = Some x -> x ∈ items;
  rng_choose_weighted_some seed items x :
    x ∈ items -> 0 < x.2 -> is_Some (rng_choose_weighted seed items);
  rng_choose_elem seed items x : rng_choose seed items = Some x -> x ∈ items;
  rng_choose_nil seed : rng_choose seed [] = None;
  rng_choose_some seed items : items <> [] -> is_Some (rng_choose seed items)
}.

(** The last eight bytes of the seed are the number, least significant first. *)
Definition seed_bytes (seed : Z) : list Z := replicate 24 0 ++ reverse (be_bytes 8 seed).

(** [as f32]: rounding to 24 significant bits, ties to even. *)
Definition u64_as_f32 (x : Z) : Z :=
  if x <? 16777216 then x
  else
    let unit := 2 ^ (Z.log2 x - 23) in
    let q := x / unit in
    let r := x mod unit in
    (if (2 * r <? unit) || ((2 * r =? unit) && Z.even q) then q else q + 1) * unit.

Definition Committee_leader `{Rng} (c : Committee) (seed : Z) : option Authority :=
  fst <$> rng_choose_weighted (seed_bytes seed)
            ((fun a => (a, u64_as_f32 (au_stake a))) <$> Committee_authorities c).

(** ** Sums of stake *)

Section sums.
Context (f : Z -> Z).
Definition sum_of (l : list Z) : Z := foldr (fun i acc => f i + acc) 0 l.

Lemma sum_of_app l l' : sum_of (l ++ l') = sum_of l + sum_of l'.
Proof. induction l; simpl; lia. Qed.

Lemma sum_of_Permutation l l' : l ≡ₚ l' -> sum_of l = sum_of l'.
Proof. induction 1; simpl; lia. Qed.

Lemma sum_of_subset l l' :
  (forall i, 0 <= f i) -> NoDup l -> (forall i, i ∈ l -> f i = 0 ∨ i ∈ l') -> sum_of l <= sum_of l'.
Proof.
  intros Hpos Hnd. revert l'. induction Hnd as [|i l Hi Hnd IH]; intros l' Hsub.
  { simpl. induction l' as [|i l' IH']; simpl; [done|]. specialize (Hpos i). assert (0 <= sum_of l') by (apply IH'; set_solver). lia. }
  destruct (Hsub i ltac:(set_solver)) as [H0|Hin].
  - simpl. rewrite H0. apply IH. set_solver.
  - apply elem_of_Permutation in Hin as [l1 Hl1]. rewrite (sum_of_Permutation _ _ Hl1). simpl.
    enough (sum_of l <= sum_of l1) by lia. apply IH. intros j Hj.
    destruct (Hsub j ltac:(set_solver)) as [?|Hj']; [by left|right]. rewrite Hl1 in Hj'. set_solver.
Qed.
End sums.

Definition stake_sum (c : Committee) (ids : list Z) : Z := sum_of (stake_by_id c) ids.

(** The total without wrap-around. *)
Definition total_stake (c : Committee) : Z := foldr (fun a acc => au_stake a + acc) 0 (Committee_authorities c).

(** What [Committee_new] establishes. *)
Record committee_wf (c : Committee) : Prop := {
  wf_listed i a : cm_authorities_by_id c !! i = Some a -> a ∈ Committee_authorities c;
  wf_indexed a : a ∈ Committee_authorities c -> cm_authorities_by_id c !! au_id a = Some a;
  wf_initialised a : a ∈ Committee_authorities c -> au_initialised a = true;
  wf_stake a : a ∈ Committee_authorities c -> 0 <= au_stake a;
  wf_total : 0 < total_stake c < 9223372036854775808;
  wf_distinct : NoDup (au_id <$> Committee_authorities c);
  wf_position i a : Committee_authorities c !! i = Some a -> au_id a = Z.of_nat i ∧ Z.of_nat i < 65536;
  wf_by_id i a : cm_authorities_by_id c !! i = Some a -> au_id a = i;
  wf_quorum : cm_quorum_threshold c = 2 * total_stake c / 3 + 1;
  wf_validity : cm_validity_threshold c = (total_stake c + 2) / 3
}.


Section committee.
Context (c : Committee) (Hwf : committee_wf c).

Lemma stake_by_id_pos i : 0 <= stake_by_id c i.
Proof.
  unfold stake_by_id. destruct (_ !! i) as [a|] eqn:E; [|done].
  eapply (wf_stake _ Hwf), (wf_listed _ Hwf), E.
Qed.

Lemma committee_length : Z.of_nat (length (Committee_authorities c)) <= 65536.
Proof.
  destruct (Z.le_gt_cases (Z.of_nat (length (Committee_authorities c))) 65536) as [|Hgt]; [done|].
  destruct (lookup_lt_is_Some_2 (Committee_authorities c) (Z.to_nat 65536)) as [a Ha]; [lia|].
  apply (wf_position _ Hwf) in Ha. lia.
Qed.

Lemma total_stake_ids : total_stake c = stake_sum c (au_id <$> Committee_authorities c).
Proof.
  unfold total_stake, stake_sum. pose proof (wf_indexed _ Hwf) as Hi. revert Hi.
  induction (Committee_authorities c) as [|a l IH]; intros Hi; simpl; [done|].
  rewrite IH by set_solver. unfold stake_by_id at 2. by rewrite Hi by set_solver.
Qed.

Lemma stake_sum_le_total ids : NoDup ids -> 0 <= stake_sum c ids <= total_stake c.
Proof.
  intros Hnd. rewrite total_stake_ids. split.
  - clear Hnd. induction ids as [|i ids IH]; simpl; [done|]. pose proof (stake_by_id_pos i). lia.
  - apply sum_of_subset; [apply stake_by_id_pos|done|].
    intros i _. unfold stake_by_id. destruct (_ !! i) as [a|] eqn:E; [right|by left].
    rewrite <- (wf_by_id _ Hwf _ _ E). apply list_elem_of_fmap_2. by eapply wf_listed.
Qed.

(** A quorum and a set of f+1 share an authority. *)
Lemma quorum_validity_intersect q v :
  NoDup q -> NoDup v -> cm_quorum_threshold c <= stake_sum c q -> cm_validity_threshold c <= stake_sum c v ->
  exists i, i ∈ q ∧ i ∈ v.
Proof.
  intros Hq Hv Hsq Hsv. rewrite (wf_quorum _ Hwf) in Hsq. rewrite (wf_validity _ Hwf) in Hsv.
  destruct (decide (Exists (fun i => i ∈ v) q)) as [He|Hne].
  { apply Exists_exists in He as (i & ? & ?). eauto. }
  exfalso. assert (stake_sum c (q ++ v) <= total_stake c) as Hle.
  { apply stake_sum_le_total, NoDup_app. split_and!; [done| |done].
    intros i Hiq Hiv. apply Hne, Exists_exists. eauto. }
  unfold stake_sum in *. rewrite sum_of_app in Hle.
  pose proof (wf_total _ Hwf).
  pose proof (Z.div_mod (2 * total_stake c) 3 ltac:(done)).
  pose proof (Z.mod_pos_bound (2 * total_stake c) 3 ltac:(done)).
  pose proof (Z.div_mod (total_stake c + 2) 3 ltac:(done)).
  pose proof (Z.mod_pos_bound (total_stake c + 2) 3 ltac:(done)). lia.
Qed.

(** Two quorums share more than f of the stake, the part outside any set below
    the validity threshold. *)
Lemma quorums_intersect q q' b :
  NoDup q -> NoDup q' -> cm_quorum_threshold c <= stake_sum c q -> cm_quorum_threshold c <= stake_sum c q' ->
  NoDup b -> stake_sum c b < cm_validity_threshold c ->
  exists i, i ∈ q ∧ i ∈ q' ∧ i ∉ b.
Proof.
  intros Hq Hq' Hsq Hsq' Hb Hsb. destruct (decide (Exists (fun i => i ∈ q' ∧ i ∉ b) q)) as [He|Hne].
  { apply Exists_exists in He as (i & ? & ? & ?). eauto. }
  exfalso. set (r := filter (fun i => i ∉ b) q').
  assert (stake_sum c (q ++ r) <= total_stake c) as Hle.
  { apply stake_sum_le_total, NoDup_app. split_and!; [done| |by apply NoDup_filter].
    intros i Hiq [Hb' Hiv]%list_elem_of_filter. apply Hne, Exists_exists. eauto. }
  assert (stake_sum c q' <= stake_sum c b + stake_sum c r) as Hsplit.
  { unfold stake_sum. rewrite <- sum_of_app. apply sum_of_subset; [apply stake_by_id_pos|done|].
    intros i Hi. right. unfold r. rewrite elem_of_app, list_elem_of_filter. destruct (decide (i ∈ b)); auto. }
  unfold stake_sum in *. rewrite sum_of_app in Hle.
  pose proof (wf_total _ Hwf). rewrite (wf_quorum _ Hwf) in *. rewrite (wf_validity _ Hwf) in *.
  pose proof (Z.div_mod (2 * total_stake c) 3 ltac:(done)).
  pose proof (Z.mod_pos_bound (2 * total_stake c) 3 ltac:(done)).
  pose proof (Z.div_mod (total_stake c + 2) 3 ltac:(done)).
  pose proof (Z.mod_pos_bound (total_stake c + 2) 3 ltac:(done)). lia.
Qed.
End committee.

(** ** The committee that is built is well formed *)

Lemma foldl_u64_add_stakes l z :
  (forall a, a ∈ l -> 0 <= au_stake a) -> 0 <= z -> z + foldr (fun a acc => au_stake a + acc) 0 l < u64_modulus ->
  foldl (fun acc a => acc +u64 au_stake a) z l = z + foldr (fun a acc => au_stake a + acc) 0 l.
Proof.
  revert z. induction l as [|a l IH]; intros z Hp Hz Hlt; simpl in *; [lia|].
  assert (0 <= foldr (fun a acc => au_stake a + acc) 0 l) as Hnn.
  { clear -Hp. induction l as [|b l IHl]; simpl; [done|].
    pose proof (Hp b ltac:(set_solver)). specialize (IHl ltac:(set_solver)). lia. }
  pose proof (Hp a ltac:(set_solver)).
  rewrite u64_add_small by lia. rewrite IH; [lia|set_solver|lia|lia].
Qed.

Lemma btree_iter_list_to_map {V} (l : list (Z * V)) :
  StronglySorted (key_le fst) l -> NoDup l.*1 -> btree_iter (list_to_map l : gmap Z V) = l.
Proof.
  intros Hs Hnd. unfold btree_iter, sort_by_key.
  assert (merge_sort (key_le fst) (map_to_list (list_to_map l : gmap Z V)) ≡ₚ l) as Hp.
  { etrans; [apply merge_sort_Permutation|]. by apply map_to_list_to_map. }
  assert (StronglySorted (key_le fst) (merge_sort (key_le fst) (map_to_list (list_to_map l : gmap Z V)))) as Hs'.
  { apply StronglySorted_merge_sort; apply _. }
  revert Hs' Hp. generalize (merge_sort (key_le fst) (map_to_list (list_to_map l : gmap Z V))) as k.
  induction Hs as [|x l Hs IH Hx]; intros k Hk Hp.
  { by apply Permutation_nil_r in Hp. }
  destruct Hk as [|y k Hk Hy]; [by apply Permutation_nil_l in Hp|].
  inversion Hnd as [|? ? Hxl Hndl]; subst.
  assert (x = y) as <-.
  { assert (y ∈ x :: l) as Hyl by (rewrite <- Hp; set_solver).
    assert (x ∈ y :: k) as Hxk by (rewrite Hp; set_solver).
    apply elem_of_cons in Hyl as [->|Hyl]; [done|]. apply elem_of_cons in Hxk as [->|Hxk]; [done|].
    rewrite Forall_forall in Hx, Hy. specialize (Hx _ Hyl). specialize (Hy _ Hxk). unfold key_le in *.
    exfalso. apply Hxl. assert (x.1 = y.1) as -> by lia. by apply list_elem_of_fmap_2. }
  f_equal. apply IH; [done|done|]. by apply Permutation_cons_inv in Hp.
Qed.

Section by_id.
Abbreviation index_by_id := (foldl (fun (m : gmap Z Authority) (e : Z * Authority) => <[au_id e.2 := e.2]> m)).
Abbreviation au_ids l := ((fun e : Z * Authority => au_id e.2) <$> l).

Lemma index_by_id_size l m :
  (size (index_by_id m l) <= size m + length l)%nat ∧
  (size (index_by_id m l) = size m + length l -> NoDup (au_ids l) ∧ forall i, i ∈ au_ids l -> m !! i = None)%nat.
Proof.
  revert m. induction l as [|e l IH]; intros m; simpl.
  { split; [lia|]. intros _. split; [constructor|set_solver]. }
  destruct (IH (<[au_id e.2 := e.2]> m)) as [Hle Heq].
  assert (size (<[au_id e.2 := e.2]> m) <= S (size m))%nat as Hins.
  { rewrite map_size_insert. destruct (m !! _); simpl; lia. }
  split; [lia|]. intros Hs. destruct Heq as [Hnd Hfresh]; [lia|].
  assert (m !! au_id e.2 = None) as Hnone.
  { destruct (m !! au_id e.2) eqn:E; [|done]. rewrite map_size_insert, E in Hle. simpl in Hle. lia. }
  split.
  - constructor; [|done]. intros Hin. specialize (Hfresh _ Hin). by rewrite lookup_insert_eq in Hfresh.
  - intros i [->|Hi]%elem_of_cons; [done|]. specialize (Hfresh i Hi).
    by apply lookup_insert_None in Hfresh as [? _].
Qed.

Lemma index_by_id_sound l m i a :
  index_by_id m l !! i = Some a -> (au_id a = i ∧ exists k, (k, a) ∈ l) ∨ m !! i = Some a.
Proof.
  revert m. induction l as [|[k b] l IH]; intros m; simpl; [by right|].
  intros [[<- [k' ?]]|Hm]%IH; [left; split; [done|]; exists k'; set_solver|].
  apply lookup_insert_Some in Hm as [[<- <-]|[_ ?]]; [left; split; [done|]; exists k; set_solver|by right].
Qed.

Lemma index_by_id_complete l m e :
  NoDup (au_ids l) -> (e ∈ l ∨ (m !! au_id e.2 = Some e.2 ∧ au_id e.2 ∉ au_ids l)) -> index_by_id m l !! au_id e.2 = Some e.2.
Proof.
  revert m. induction l as [|e' l IH]; intros m Hnd He; simpl.
  { destruct He as [He|[? _]]; [set_solver|done]. }
  inversion Hnd; subst. apply IH; [done|].
  destruct He as [[->|He]%elem_of_cons|[Hm Hn]]; [right|by left|right].
  - by rewrite lookup_insert_eq.
  - apply not_elem_of_cons in Hn as [Hne Hn]. by rewrite lookup_insert_ne by congruence.
Qed.
End by_id.

Lemma initialised_keys m : (initialised_authorities m).*1 = (btree_iter m).*1.
Proof. unfold initialised_authorities. rewrite fmap_imap. apply (imap_const fst). Qed.

Lemma StronglySorted_keys {V} (l : list (Z * V)) : StronglySorted Z.le l.*1 -> StronglySorted (key_le fst) l.
Proof.
  induction l as [|x l IH]; simpl; intros Hs; inversion Hs as [|? ? Hs' Hx]; subst; constructor; [auto|].
  by apply (Forall_fmap fst) in Hx.
Qed.

Lemma btree_iter_initialised m :
  btree_iter (list_to_map (initialised_authorities m) : gmap Z Authority) = initialised_authorities m.
Proof.
  apply btree_iter_list_to_map; [apply StronglySorted_keys|]; rewrite initialised_keys.
  - apply (StronglySorted_fmap _ (key_le fst)); [done|]. apply sort_by_key_sorted.
  - apply btree_iter_NoDup.
Qed.

Lemma initialised_elem m e :
  e ∈ initialised_authorities m -> au_initialised e.2 = true ∧ exists k a, m !! k = Some a ∧ au_stake e.2 = au_stake a.
Proof.
  unfold initialised_authorities. intros [i Hi]%list_elem_of_lookup. rewrite list_lookup_imap in Hi.
  apply fmap_Some in Hi as ([k a] & Hk & ->). split; [done|]. exists k, a. split; [|done].
  apply elem_of_btree_iter. by eapply list_elem_of_lookup_2.
Qed.

Lemma foldr_stakes_imap m :
  foldr (fun a acc => au_stake a + acc) 0 (initialised_authorities m).*2 =
  foldr (fun a acc => au_stake a + acc) 0 (btree_iter m).*2.
Proof.
  assert (forall g l, foldr (fun a acc => au_stake a + acc) 0
      (imap (fun i (e : Z * Authority) => (e.1, Authority_initialise e.2 (g i))) l).*2 =
      foldr (fun a acc => au_stake a + acc) 0 l.*2) as H; [|apply H].
  intros g l. revert g. induction l as [|e l IH]; intros g; simpl; [done|]. f_equal. apply (IH (g ∘ S)).
Qed.

(** The result of [Committee_new], given stakes whose sum stays below 2^63. *)
Lemma Committee_new_inv m epoch c :
  Committee_new m epoch = Some c ->
  cm_authorities c = list_to_map (initialised_authorities m) ∧
  cm_authorities_by_id c =
    foldl (fun (m : gmap Z Authority) (e : Z * Authority) => <[au_id e.2 := e.2]> m) ∅ (initialised_authorities m) ∧
  size (cm_authorities_by_id c) = size (cm_authorities c) ∧
  calculate_validity_threshold c = Some (cm_validity_threshold c) ∧
  calculate_quorum_threshold c = Some (cm_quorum_threshold c).
Proof.
  unfold Committee_new. intros (c1 & Hl & (v & Hv & (q & Hq & Hc)%bind_Some)%bind_Some)%bind_Some.
  destruct (_ && _ && _ && _) eqn:E in Hc; [|done]. injection Hc as <-.
  apply andb_true_iff in E as [[[E1 E2]%andb_true_iff E3]%andb_true_iff _].
  apply Nat.eqb_eq in E1. apply Z.eqb_eq in E2, E3. subst v q.
  unfold Committee_load in Hl. apply bind_Some in Hl as (? & _ & (? & _ & Hc)%bind_Some).
  injection Hc as <-. simpl in *. by split_and!.
Qed.

Lemma thresholds_value c :
  Committee_total_stake c = total_stake c -> 0 <= total_stake c < 9223372036854775808 ->
  calculate_validity_threshold c = Some (cm_validity_threshold c) ->
  calculate_quorum_threshold c = Some (cm_quorum_threshold c) ->
  0 < total_stake c ∧ cm_quorum_threshold c = 2 * total_stake c / 3 + 1 ∧
  cm_validity_threshold c = (total_stake c + 2) / 3.
Proof.
  unfold calculate_validity_threshold, calculate_quorum_threshold, nonzero, u64_add, u64_mul, u64_modulus.
  intros -> Ht Hv Hq.
  rewrite (Z.mod_small (total_stake c + 2)) in Hv by lia. rewrite (Z.mod_small (2 * total_stake c)) in Hq by lia.
  assert (0 <= 2 * total_stake c / 3 <= 2 * total_stake c).
  { split; [apply Z.div_pos; lia|apply Z.div_le_upper_bound; lia]. }
  rewrite Z.mod_small in Hq by lia.
  destruct (_ =? 0) eqn:E in Hv; [done|]. destruct (_ =? 0) eqn:E' in Hq; [done|].
  injection Hv as <-. injection Hq as <-. split_and!; [|done|done].
  destruct (decide (total_stake c = 0)) as [H0|]; [|lia]. rewrite H0 in E. done.
Qed.

Section new_wf.
Context (m : gmap Z Authority) (Hpos : forall k a, m !! k = Some a -> 0 <= au_stake a).

Lemma initialised_stake a : a ∈ (initialised_authorities m).*2 -> au_initialised a = true ∧ 0 <= au_stake a.
Proof.
  intros (e & -> & [Hi (k & b & Hb & ->)]%initialised_elem)%list_elem_of_fmap. eauto.
Qed.

Lemma stakes_nonneg : 0 <= foldr (fun a acc => au_stake a + acc) 0 (initialised_authorities m).*2.
Proof.
  pose proof initialised_stake as Hst. induction (initialised_authorities m).*2 as [|a l IH]; simpl; [done|].
  specialize (IH ltac:(set_solver)). destruct (Hst a ltac:(set_solver)). lia.
Qed.

(** Distinct 16-bit identifiers are the positions. *)
Lemma initialised_position i e :
  NoDup ((fun e : Z * Authority => au_id e.2) <$> initialised_authorities m) ->
  initialised_authorities m !! i = Some e -> au_id e.2 = Z.of_nat i ∧ Z.of_nat i < 65536.
Proof.
  intros Hnd Hi. assert (forall j e', initialised_authorities m !! j = Some e' -> au_id e'.2 = Z.of_nat j mod 65536) as Hm.
  { unfold initialised_authorities. intros j e' Hj. rewrite list_lookup_imap in Hj.
    destruct (btree_iter m !! j); [|done]. by injection Hj as <-. }
  destruct (Z.lt_ge_cases (Z.of_nat i) 65536) as [|Hge].
  { split; [|done]. rewrite (Hm _ _ Hi). apply Z.mod_small. lia. }
  exfalso.
  assert (exists e', initialised_authorities m !! Z.to_nat (Z.of_nat i - 65536) = Some e') as [e' He'].
  { apply lookup_lt_is_Some. apply lookup_lt_Some in Hi. lia. }
  assert (i = Z.to_nat (Z.of_nat i - 65536)); [|lia]. eapply (NoDup_lookup _ _ _ (au_id e.2)); [exact Hnd|..].
  - rewrite list_lookup_fmap. by rewrite Hi.
  - rewrite list_lookup_fmap, He'. simpl. f_equal. rewrite (Hm _ _ Hi), (Hm _ _ He').
    rewrite Z2Nat.id by lia. rewrite Zminus_mod, Z.sub_0_r. by apply Z.mod_mod.
Qed.

(** A committee whose stakes add up to less than 2^63 is well formed: the
    identifiers index the authorities, and the thresholds are those of the
    unwrapped total. *)
Theorem Committee_new_wf epoch c :
  foldr (fun a acc => au_stake a + acc) 0 (btree_iter m).*2 < 9223372036854775808 ->
  Committee_new m epoch = Some c -> committee_wf c.
Proof.
  intros Hlt (Ha & Hi & Hsz & Hv & Hq)%Committee_new_inv.
  assert (Committee_authorities c = (initialised_authorities m).*2) as Hl.
  { unfold Committee_authorities. by rewrite Ha, btree_iter_initialised. }
  assert (NoDup ((fun e : Z * Authority => au_id e.2) <$> initialised_authorities m)) as Hnd.
  { apply (index_by_id_size (initialised_authorities m) ∅). rewrite <- Hi, Hsz, Ha, map_size_empty.
    rewrite <- length_map_to_list. apply Permutation_length, map_to_list_to_map.
    rewrite initialised_keys. apply btree_iter_NoDup. }
  assert (0 <= total_stake c < 9223372036854775808) as Ht.
  { unfold total_stake. rewrite Hl. split; [apply stakes_nonneg|by rewrite foldr_stakes_imap]. }
  destruct (thresholds_value c) as (? & ? & ?); [|done..|].
  { unfold Committee_total_stake, total_stake in *. rewrite Hl in *.
    rewrite foldl_u64_add_stakes; [done|apply initialised_stake|lia|unfold u64_modulus; lia]. }
  split; rewrite ?Hl, ?Hi; [..|done|done].
  - intros i a [[_ [k ?]]|?]%index_by_id_sound; [|done]. by apply (list_elem_of_fmap_2' snd _ (k, a)).
  - intros a (e & -> & He)%list_elem_of_fmap. apply index_by_id_complete; auto.
  - intros a ?%initialised_stake. tauto.
  - intros a ?%initialised_stake. tauto.
  - lia.
  - by rewrite <- list_fmap_compose.
  - intros i a Hi'. rewrite list_lookup_fmap in Hi'. destruct (_ !! i) as [e|] eqn:E; [|done].
    injection Hi' as <-. by apply initialised_position.
  - by intros i a [[? _]|?]%index_by_id_sound.
Qed.
End new_wf.
