(* ===== verification/DagTypes.v ===== *)
(** * Headers, certificates and committed sub-dags

    src/narwhal/types/src/primary.rs ([Header], [Certificate], [Vote]) and
    src/narwhal/types/src/consensus.rs ([CommittedSubDag], [ReputationScores],
    [ConsensusCommit]).

    The digest of a header is a hash of its serialization, the class [HeaderHash];
    the digest of a certificate is the one of its header.  The source caches the
    digest of a header on its first use. *)

From S2P Require Import Prelude Committee.
Local Open Scope Z_scope.
Local Open Scope chase_scope.

(** ** Headers and certificates *)

(** The payload is an [IndexMap], listed in insertion order; the parents are a
    [BTreeSet], listed in ascending order. *)
Record Header := mkHeader {
  he_author : Z;
  he_round : Z;
  he_epoch : Z;
  he_created_at : Z;
  he_payload : list (Z * (Z * Z));
  he_parents : list Z
}.

#[global] Instance Header_eq_dec : EqDecision Header.
Proof. solve_decision. Defined.

Class HeaderHash := header_digest : Header -> Z.

Record Certificate := mkCertificate {
  ce_header : Header;
  ce_aggregated_signature : Z;
  ce_signed_authorities : list Z;
  ce_created_at : Z
}.

#[global] Instance Certificate_eq_dec : EqDecision Certificate.
Proof. solve_decision. Defined.

Definition Certificate_round (c : Certificate) : Z := he_round (ce_header c).
Definition Certificate_epoch (c : Certificate) : Z := he_epoch (ce_header c).
Definition Certificate_origin (c : Certificate) : Z := he_author (ce_header c).
Definition Certificate_parents (c : Certificate) : list Z := he_parents (ce_header c).

Section hashed.
Context `{HeaderHash}.

Definition Certificate_digest (c : Certificate) : Z := header_digest (ce_header c).

(** [PartialEq]: the signatures are not compared. *)
Definition Certificate_eq (c d : Certificate) : bool :=
  (Certificate_digest c =? Certificate_digest d) && (Certificate_round c =? Certificate_round d)
  && (Certificate_epoch c =? Certificate_epoch d) && (Certificate_origin c =? Certificate_origin d).

(** [parents().contains(digest)]. *)
Definition has_parent (c : Certificate) (digest : Z) : bool :=
  existsb (fun p => p =? digest) (Certificate_parents c).
End hashed.

(** ** Reputation scores *)

Record ReputationScores := mkScores { rs_scores : gmap Z Z; rs_final_of_schedule : bool }.

#[global] Instance ReputationScores_eq_dec : EqDecision ReputationScores.
Proof. solve_decision. Defined.

Definition ReputationScores_default : ReputationScores := mkScores ∅ false.

Definition ReputationScores_new (committee : Committee) : option ReputationScores :=
  ids ← mapM Authority_id (Committee_authorities committee);
  Some (mkScores (foldl (fun (m : gmap Z Z) i => <[i := 0]> m) ∅ ids) false).

Definition add_score (s : ReputationScores) (authority score : Z) : ReputationScores :=
  mkScores (<[authority := match rs_scores s !! authority with Some v => v +u64 score | None => score end]> (rs_scores s))
    (rs_final_of_schedule s).

Definition total_authorities (s : ReputationScores) : Z := Z.of_nat (size (rs_scores s)).

Definition all_zero (s : ReputationScores) : bool :=
  negb (existsb (fun e : Z * Z => 0 <? e.2) (map_to_list (rs_scores s))).

(** By descending score, then by descending identifier. *)
Definition authorities_by_score_desc (s : ReputationScores) : list (Z * Z) :=
  sort_by_pair (fun e : Z * Z => (- e.2, - e.1)) (map_to_list (rs_scores s)).

(** ** Committed sub-dags *)

Record CommittedSubDag := mkSubDag {
  sd_certificates : list Certificate;
  sd_leader : Certificate;
  sd_index : Z;
  sd_scores : ReputationScores;
  sd_timestamp : Z
}.

Definition CommittedSubDag_new (certificates : list Certificate) (leader : Certificate) (sub_dag_index : Z)
    (reputation_score : ReputationScores) (previous_sub_dag : option CommittedSubDag) : CommittedSubDag :=
  let previous_sub_dag_ts := match previous_sub_dag with Some s => sd_timestamp s | None => 0 end in
  mkSubDag certificates leader sub_dag_index reputation_score
    (Z.max previous_sub_dag_ts (he_created_at (ce_header leader))).

Definition CommittedSubDag_len (s : CommittedSubDag) : Z := Z.of_nat (length (sd_certificates s)).

Definition num_batches (s : CommittedSubDag) : Z :=
  foldr (fun c acc => Z.of_nat (length (he_payload (ce_header c))) + acc) 0 (sd_certificates s).

Definition CommittedSubDag_leader_round (s : CommittedSubDag) : Z := Certificate_round (sd_leader s).

(** A zero is the timestamp of a commit stored before the field existed. *)
Definition commit_timestamp (s : CommittedSubDag) : Z :=
  if sd_timestamp s =? 0 then he_created_at (ce_header (sd_leader s)) else sd_timestamp s.

(** ** Stored commits *)

Record CommittedSubDagShell := mkShell {
  sh_certificates : list Z;
  sh_leader : Z;
  sh_leader_round : Z;
  sh_index : Z;
  sh_scores : ReputationScores
}.

Record ConsensusCommitV2 := mkCommitV2 {
  v2_certificates : list Z;
  v2_leader : Z;
  v2_leader_round : Z;
  v2_index : Z;
  v2_scores : ReputationScores;
  v2_timestamp : Z
}.

Inductive ConsensusCommit :=
  | CommitV1 (s : CommittedSubDagShell)
  | CommitV2 (s : ConsensusCommitV2).

Definition commit_certificates (c : ConsensusCommit) : list Z :=
  match c with CommitV1 s => sh_certificates s | CommitV2 s => v2_certificates s end.
Definition commit_leader (c : ConsensusCommit) : Z :=
  match c with CommitV1 s => sh_leader s | CommitV2 s => v2_leader s end.
Definition commit_leader_round (c : ConsensusCommit) : Z :=
  match c with CommitV1 s => sh_leader_round s | CommitV2 s => v2_leader_round s end.
Definition commit_index (c : ConsensusCommit) : Z :=
  match c with CommitV1 s => sh_index s | CommitV2 s => v2_index s end.
Definition commit_scores (c : ConsensusCommit) : ReputationScores :=
  match c with CommitV1 s => sh_scores s | CommitV2 s => v2_scores s end.
Definition commit_time (c : ConsensusCommit) : Z :=
  match c with CommitV1 _ => 0 | CommitV2 s => v2_timestamp s end.

Definition CommittedSubDag_from_commit (commit : ConsensusCommit) (certificates : list Certificate)
    (leader : Certificate) : CommittedSubDag :=
  mkSubDag certificates leader (commit_index commit) (commit_scores commit) (commit_time commit).

Definition ConsensusCommitV2_from_sub_dag `{HeaderHash} (s : CommittedSubDag) : ConsensusCommitV2 :=
  mkCommitV2 (Certificate_digest <$> sd_certificates s) (Certificate_digest (sd_leader s))
    (Certificate_round (sd_leader s)) (sd_index s) (sd_scores s) (sd_timestamp s).

Definition CommittedSubDagShell_from_sub_dag `{HeaderHash} (s : CommittedSubDag) : CommittedSubDagShell :=
  mkShell (Certificate_digest <$> sd_certificates s) (Certificate_digest (sd_leader s))
    (Certificate_round (sd_leader s)) (sd_index s) (sd_scores s).
