(* ===== verification/ConsensusCore.v ===== *)
(** * The state of consensus

    src/narwhal/consensus/src/consensus.rs (leader swap table, leader schedule,
    [ConsensusState], [ConsensusRound]), utils.rs ([order_dag], [gc_round]) and the
    errors and outcomes of lib.rs.  Metrics and logging are left out, except where
    computing them can panic.

    Rounds are 64-bit integers.  The loop of [order_dag] has a fuel, one more than
    the number of certificates in the dag. *)

From S2P Require Import Prelude Bytes Committee DagTypes.
Local Open Scope Z_scope.
Local Open Scope chase_scope.

(** ** Errors and outcomes *)

Inductive ConsensusError :=
  | StoreError (e : string)
  | CertificateEquivocation (new existing : Certificate)
  | ShuttingDown.

Inductive ConsensusOutcome :=
  | CertificateBelowCommitRound
  | NoLeaderElectedForOddRound
  | LeaderBelowCommitRound
  | LeaderNotFound
  | NotEnoughSupportForLeader
  | Commit.

(** ** The dag *)

(** Per round and authority, the digest and the certificate. *)
Abbreviation Dag := (gmap Z (gmap Z (Z * Certificate))).


(** [values()] of a round. *)
Definition round_values (m : gmap Z (Z * Certificate)) : list (Z * Certificate) := (map_to_list m).*2.

Definition dag_size (dag : Dag) : nat := sum_list ((fun e => size e.2) <$> map_to_list dag).

(** ** The leader swap table *)

Record LeaderSwapTable := mkSwapTable {
  lt_round : Z;
  lt_good_nodes : list Authority;
  lt_bad_nodes : gmap Z Authority
}.

Definition LeaderSwapTable_default : LeaderSwapTable := mkSwapTable 0 [] ∅.

(** The loop of [retrieve_first_nodes]. *)
Fixpoint first_nodes (committee : Committee) (authorities : list (Z * Z)) (stake : Z) : option (list Authority) :=
  match authorities with
  | [] => Some []
  | (authority_id, _) :: authorities' =>
      let stake := stake +u64 stake_by_id committee authority_id in
      if reached_validity committee stake then Some []
      else
        a ← authority_safe committee authority_id;
        rest ← first_nodes committee authorities' stake;
        Some (a :: rest)
  end.

Definition retrieve_first_nodes (committee : Committee) (authorities : list (Z * Z)) : option (list Authority) :=
  first_nodes committee authorities 0.

Definition LeaderSwapTable_new (committee : Committee) (round : Z) (reputation_scores : ReputationScores) :
    option LeaderSwapTable :=
  if negb (rs_final_of_schedule reputation_scores) then None
  else
    good_nodes ← retrieve_first_nodes committee (authorities_by_score_desc reputation_scores);
    bad ← retrieve_first_nodes committee (reverse (authorities_by_score_desc reputation_scores));
    bad ← mapM (fun a => id ← Authority_id a; Some (id, a)) bad;
    Some (mkSwapTable round good_nodes (foldl (fun m (e : Z * Authority) => <[e.1 := e.2]> m) ∅ bad)).

(** The outer option is the panic of [expect]. *)
Definition LeaderSwapTable_swap `{Rng} (t : LeaderSwapTable) (leader leader_round : Z) : option (option Authority) :=
  match lt_bad_nodes t !! leader with
  | Some _ =>
      good_node ← rng_choose (seed_bytes leader_round) (lt_good_nodes t);
      Some (Some good_node)
  | None => Some None
  end.

(** ** The leader schedule *)

Record LeaderSchedule := mkSchedule { ls_committee : Committee; ls_swap_table : LeaderSwapTable }.

Definition update_leader_swap_table (s : LeaderSchedule) (table : LeaderSwapTable) : LeaderSchedule :=
  mkSchedule (ls_committee s) table.

Section schedule.
Context `{Rng}.

(** The election outside of tests. *)
Definition LeaderSchedule_leader (s : LeaderSchedule) (round : Z) : option Authority :=
  if negb (round mod 2 =? 0) then None
  else
    leader ← Committee_leader (ls_committee s) round;
    id ← Authority_id leader;
    swapped ← LeaderSwapTable_swap (ls_swap_table s) id round;
    Some (default leader swapped).

Definition leader_certificate (s : LeaderSchedule) (round : Z) (dag : Dag) :
    option (Authority * option Certificate) :=
  leader ← LeaderSchedule_leader s round;
  match dag !! round with
  | None => Some (leader, None)
  | Some m => id ← Authority_id leader; Some (leader, snd <$> m !! id)
  end.
End schedule.

(** ** Rounds *)

Definition gc_round (commit_round gc_depth : Z) : Z := u64_saturating_sub commit_round gc_depth.

Record ConsensusRound := mkRound { cr_committed : Z; cr_gc : Z }.

Definition new_with_gc_depth (committed_round gc_depth : Z) : ConsensusRound :=
  mkRound committed_round (gc_round committed_round gc_depth).

Definition ConsensusRound_update (r : ConsensusRound) (new_committed_round gc_depth : Z) : ConsensusRound :=
  let last_committed_round := Z.max (cr_committed r) new_committed_round in
  mkRound last_committed_round (gc_round last_committed_round gc_depth).

(** ** ConsensusState *)

Record ConsensusState := mkState {
  st_last_round : ConsensusRound;
  st_gc_depth : Z;
  st_last_committed : gmap Z Z;
  st_last_sub_dag : option CommittedSubDag;
  st_leader_swap_table : LeaderSwapTable;
  st_dag : Dag
}.

Definition ConsensusState_new (gc_depth : Z) : ConsensusState :=
  mkState (mkRound 0 0) gc_depth ∅ None LeaderSwapTable_default ∅.

Definition set_dag (s : ConsensusState) (dag : Dag) : ConsensusState :=
  mkState (st_last_round s) (st_gc_depth s) (st_last_committed s) (st_last_sub_dag s) (st_leader_swap_table s) dag.

Definition set_last_sub_dag (s : ConsensusState) (d : CommittedSubDag) : ConsensusState :=
  mkState (st_last_round s) (st_gc_depth s) (st_last_committed s) (Some d) (st_leader_swap_table s) (st_dag s).

Section state.
Context `{HeaderHash}.

(** The panics of [check_parents] are [None]. *)
Definition check_parents (certificate : Certificate) (dag : Dag) (gc_round : Z) : option unit :=
  let round := Certificate_round certificate in
  if round <=? gc_round +u64 1 then Some tt
  else
    match dag !! (round -u64 1) with
    | None => None
    | Some round_table =>
        let store_parents := (round_values round_table).*1 in
        if forallb (fun p => existsb (fun d => d =? p) store_parents) (Certificate_parents certificate)
        then Some tt else None
    end.

(** The dag keeps the new certificate also when it equivocates. *)
Definition try_insert_in_dag (dag : Dag) (last_committed : gmap Z Z) (gc_round : Z) (certificate : Certificate) :
    option (Dag * Result bool ConsensusError) :=
  if Certificate_round certificate <=? gc_round then Some (dag, Ok false)
  else
    _ ← check_parents certificate dag gc_round;
    let entry := default ∅ (dag !! Certificate_round certificate) in
    let dag' := <[Certificate_round certificate :=
      <[Certificate_origin certificate := (Certificate_digest certificate, certificate)]> entry]> dag in
    let newer := default 0 (last_committed !! Certificate_origin certificate) <? Certificate_round certificate in
    match entry !! Certificate_origin certificate with
    | Some (_, existing_certificate) =>
        if Certificate_digest existing_certificate =? Certificate_digest certificate then Some (dag', Ok newer)
        else Some (dag', Err (CertificateEquivocation certificate existing_certificate))
    | None => Some (dag', Ok newer)
    end.

Definition try_insert (certificate : Certificate) : EM ConsensusState ConsensusError bool := fun s =>
  '(dag, r) ← try_insert_in_dag (st_dag s) (st_last_committed s) (cr_gc (st_last_round s)) certificate;
  Some (set_dag s dag, r).

Definition ConsensusState_update (s : ConsensusState) (certificate : Certificate) : ConsensusState :=
  let r := match st_last_committed s !! Certificate_origin certificate with
           | Some r => Z.max r (Certificate_round certificate)
           | None => Certificate_round certificate
           end in
  let last_round := ConsensusRound_update (st_last_round s) (Certificate_round certificate) (st_gc_depth s) in
  mkState last_round (st_gc_depth s) (<[Certificate_origin certificate := r]> (st_last_committed s))
    (st_last_sub_dag s) (st_leader_swap_table s)
    (filter (fun e : Z * gmap Z (Z * Certificate) => cr_gc last_round < e.1) (st_dag s)).

Definition next_sub_dag_index (s : ConsensusState) : Z :=
  match st_last_sub_dag s with Some d => sd_index d | None => 0 end +u64 1.

(** ** Flattening the dag of a leader *)

Definition find_parent (dag : Dag) (round parent : Z) : option (Z * Certificate) :=
  m ← dag !! round; List.find (fun e : Z * Certificate => e.1 =? parent) (round_values m).

(** The parents of a certificate, in order: each goes on the stack unless it is
    ordered already, or its authority has a commit at this round or later. *)
Fixpoint push_parents (dag : Dag) (last_committed : gmap Z Z) (round : Z) (parents : list Z)
    (buffer : list Certificate) (already_ordered : gset Z) : option (list Certificate * gset Z) :=
  match parents with
  | [] => Some (buffer, already_ordered)
  | parent :: parents' =>
      '(digest, certificate) ← find_parent dag round parent;
      let skip := bool_decide (digest ∈ already_ordered)
        || match last_committed !! Certificate_origin certificate with
           | Some r => Certificate_round certificate <=? r
           | None => false
           end in
      if skip then push_parents dag last_committed round parents' buffer already_ordered
      else push_parents dag last_committed round parents' (certificate :: buffer) ({[digest]} ∪ already_ordered)
  end.

(** The stack [buffer] is listed from its top. *)
Fixpoint order_dag_loop (fuel : nat) (dag : Dag) (last_committed : gmap Z Z) (gc_round : Z)
    (buffer : list Certificate) (already_ordered : gset Z) (ordered : list Certificate) : Run (list Certificate) :=
  match buffer with
  | [] => Finished ordered
  | x :: buffer' =>
      match fuel with
      | O => Spinning
      | S fuel' =>
          let ordered := ordered ++ [x] in
          if Certificate_round x =? gc_round +u64 1
          then order_dag_loop fuel' dag last_committed gc_round buffer' already_ordered ordered
          else
            match push_parents dag last_committed (Certificate_round x -u64 1) (Certificate_parents x)
                    buffer' already_ordered with
            | None => Panicked
            | Some (buffer, already_ordered) =>
                order_dag_loop fuel' dag last_committed gc_round buffer already_ordered ordered
            end
      end
  end.

Definition order_dag (leader : Certificate) (s : ConsensusState) : Run (list Certificate) :=
  if negb (0 <? Certificate_round leader) then Panicked
  else
    let gc_round := u64_saturating_sub (Certificate_round leader) (st_gc_depth s) in
    ordered ← order_dag_loop (S (dag_size (st_dag s))) (st_dag s) (st_last_committed s) gc_round [leader] ∅ [];
    Finished (stable_sort_by_key Certificate_round ordered).
End state.
