(* ===== verification/Bullshark.v ===== *)
(** * The ordering protocols

    src/narwhal/consensus/src/bullshark.rs, tusk.rs and protocol.rs, the consensus
    loop of consensus.rs ([Consensus]) and the store they write to
    (src/narwhal/storage/src/consensus_store.rs).

    A step of a protocol runs in the monad [EM] over the protocol and the consensus
    state: a panic is [None], an error keeps the state reached.  Metrics and clocks
    are left out, except where computing a metric can panic. *)

From S2P Require Import Prelude Committee DagTypes ConsensusCore.
Local Open Scope Z_scope.
Local Open Scope chase_scope.

(** ** The consensus store *)

(** [css_outcomes] lists how the coming writes end; the remaining ones succeed. *)
Record ConsensusStore := mkConsensusStore {
  css_last_committed : gmap Z Z;
  css_sub_dags : gmap Z CommittedSubDagShell;
  css_sub_dags_v2 : gmap Z ConsensusCommit;
  css_outcomes : list (Result unit string)
}.

Section store.
Context `{HeaderHash}.

(** One atomic batch for both tables. *)
Definition write_consensus_state (last_committed : gmap Z Z) (sub_dag : CommittedSubDag) (s : ConsensusStore) :
    ConsensusStore * Result unit string :=
  let commit := CommitV2 (ConsensusCommitV2_from_sub_dag sub_dag) in
  match css_outcomes s with
  | Err e :: outcomes =>
      (mkConsensusStore (css_last_committed s) (css_sub_dags s) (css_sub_dags_v2 s) outcomes, Err e)
  | outcomes =>
      (mkConsensusStore (last_committed ∪ css_last_committed s) (css_sub_dags s)
         (<[sd_index sub_dag := commit]> (css_sub_dags_v2 s)) (tail outcomes), Ok tt)
  end.
End store.

Definition read_last_committed (s : ConsensusStore) : gmap Z Z := css_last_committed s.

Definition get_latest_sub_dag_index (s : ConsensusStore) : Z :=
  match last (btree_iter (css_sub_dags_v2 s)) with
  | Some (seq, _) => seq
  | None => match last (btree_iter (css_sub_dags s)) with Some (seq, _) => seq | None => 0 end
  end.

Definition get_latest_sub_dag (s : ConsensusStore) : option ConsensusCommit :=
  match last (btree_iter (css_sub_dags_v2 s)) with
  | Some (_, sub_dag) => Some sub_dag
  | None => (fun e : Z * CommittedSubDagShell => CommitV1 e.2) <$> last (btree_iter (css_sub_dags s))
  end.

Definition read_committed_sub_dags_from (from : Z) (s : ConsensusStore) : list ConsensusCommit :=
  ((fun e : Z * CommittedSubDagShell => CommitV1 e.2) <$> filter (fun e => from <= e.1) (btree_iter (css_sub_dags s)))
  ++ (snd <$> filter (fun e => from <= e.1) (btree_iter (css_sub_dags_v2 s))).

Definition read_consensus_commit (seq : Z) (s : ConsensusStore) : option ConsensusCommit := css_sub_dags_v2 s !! seq.

Definition em_run {S E A} (r : Run A) : EM S E A := fun s =>
  match r with Finished x => Some (s, Ok x) | _ => None end.

(** Runs a step of the second component of the state. *)
Definition em_snd {S T E A} (m : EM T E A) : EM (S * T) E A := fun '(s, t) =>
  '(t', r) ← m t; Some ((s, t'), r).

(** [%]; a zero divisor panics. *)
Definition u64_rem (x y : Z) : option Z := if y =? 0 then None else Some (x mod y).

(** [(lo..=hi).rev().step_by(2)]. *)
Definition rev_step_by_2 (lo hi : Z) : list Z :=
  if hi <? lo then [] else (fun i => hi - 2 * i) <$> seqZ 0 ((hi - lo) / 2 + 1).

(** ** Bullshark *)

Record Bullshark := mkBullshark {
  bs_committee : Committee;
  bs_new_leader_election_schedule : bool;
  bs_store : ConsensusStore;
  bs_max_inserted_certificate_round : Z;
  bs_num_sub_dags_per_schedule : Z;
  bs_leader_schedule : LeaderSchedule
}.

Definition Bullshark_new (committee : Committee) (store : ConsensusStore) (new_schedule : bool)
    (num_sub_dags_per_schedule : Z) (leader_schedule : LeaderSchedule) : Bullshark :=
  mkBullshark committee new_schedule store 0 num_sub_dags_per_schedule leader_schedule.

Definition bs_set_store (b : Bullshark) (store : ConsensusStore) : Bullshark :=
  mkBullshark (bs_committee b) (bs_new_leader_election_schedule b) store (bs_max_inserted_certificate_round b)
    (bs_num_sub_dags_per_schedule b) (bs_leader_schedule b).

Definition bs_set_max_inserted (b : Bullshark) (round : Z) : Bullshark :=
  mkBullshark (bs_committee b) (bs_new_leader_election_schedule b) (bs_store b) round
    (bs_num_sub_dags_per_schedule b) (bs_leader_schedule b).

Definition bs_set_schedule (b : Bullshark) (s : LeaderSchedule) : Bullshark :=
  mkBullshark (bs_committee b) (bs_new_leader_election_schedule b) (bs_store b)
    (bs_max_inserted_certificate_round b) (bs_num_sub_dags_per_schedule b) s.

Section protocols.
Context `{HeaderHash} `{Rng}.

(** One point for every certificate that has the previous leader as a parent. *)
Definition score_votes (previous_leader : Certificate) (committed_sequence : list Certificate)
    (s : ReputationScores) : ReputationScores :=
  foldl (fun s c => if has_parent c (Certificate_digest previous_leader)
                    then add_score s (Certificate_origin c) 1 else s) s committed_sequence.

Definition resolve_reputation_score (b : Bullshark) (state : ConsensusState)
    (committed_sequence : list Certificate) (sub_dag_index : Z) : option ReputationScores :=
  reset ← (if sub_dag_index =? 1 then Some true
           else r ← u64_rem sub_dag_index (bs_num_sub_dags_per_schedule b); Some (r =? 0));
  reputation_score ← (if reset : bool then ReputationScores_new (bs_committee b)
                      else sd_scores <$> st_last_sub_dag state);
  let reputation_score := match st_last_sub_dag state with
                          | Some last => score_votes (sd_leader last) committed_sequence reputation_score
                          | None => reputation_score
                          end in
  r ← u64_rem (sub_dag_index +u64 1) (bs_num_sub_dags_per_schedule b);
  let reputation_score := mkScores (rs_scores reputation_score) (r =? 0) in
  if total_authorities reputation_score =? Committee_size (bs_committee b) then Some reputation_score else None.

(** The rounds between the two leaders, from the later one down. *)
Definition Bullshark_linked (leader prev_leader : Certificate) (dag : Dag) : option bool :=
  parents ← foldl (fun acc r =>
      parents ← acc;
      m ← dag !! r;
      Some (snd <$> List.filter (fun e : Z * Certificate => existsb (fun x => has_parent x e.1) parents)
                      (round_values m)))
    (Some [leader])
    (reverse (seqZ (Certificate_round prev_leader) (Certificate_round leader - Certificate_round prev_leader)));
  Some (existsb (fun x => Certificate_eq x prev_leader) parents).

(** The loop of [order_leaders]; [rounds] are the even rounds still to visit. *)
Fixpoint walk_leaders (schedule : LeaderSchedule) (dag : Dag) (rounds : list Z) (leader : Certificate)
    (to_commit : list Certificate) : option (list Certificate) :=
  match rounds with
  | [] => Some to_commit
  | r :: rounds' =>
      '(authority, found) ← leader_certificate schedule r dag;
      match found with
      | None => _ ← Authority_hostname authority; walk_leaders schedule dag rounds' leader to_commit
      | Some prev_leader =>
          path ← Bullshark_linked leader prev_leader dag;
          if path : bool then walk_leaders schedule dag rounds' prev_leader (to_commit ++ [prev_leader])
          else _ ← Authority_hostname authority; walk_leaders schedule dag rounds' leader to_commit
      end
  end.

(** The report at the end looks every leader up in the committee. *)
Definition report_leaders (committee : Committee) (to_commit : list Certificate) : option unit :=
  _ ← mapM (fun c => a ← Committee_authority committee (Certificate_origin c); Authority_hostname a) to_commit;
  Some tt.

Definition Bullshark_order_leaders (b : Bullshark) (leader : Certificate) (state : ConsensusState) :
    option (list Certificate) :=
  if negb (Certificate_round leader mod 2 =? 0) then None
  else
    to_commit ← walk_leaders (bs_leader_schedule b) (st_dag state)
      (rev_step_by_2 (cr_committed (st_last_round state) +u64 2) (Certificate_round leader -u64 2)) leader [leader];
    _ ← report_leaders (bs_committee b) to_commit;
    Some to_commit.

Definition update_leader_schedule (b : Bullshark) (leader_round : Z) (reputation_scores : ReputationScores) :
    option (Bullshark * bool) :=
  if bs_new_leader_election_schedule b && rs_final_of_schedule reputation_scores
  then
    table ← LeaderSwapTable_new (bs_committee b) leader_round reputation_scores;
    Some (bs_set_schedule b (update_leader_swap_table (bs_leader_schedule b) table), true)
  else Some (b, false).

(** The metric elects the leader of two rounds before. *)
Definition on_time_metrics (schedule : LeaderSchedule) (max_inserted certificate_round : Z) : option Z :=
  _ ← (if (max_inserted <? certificate_round) && (certificate_round mod 2 =? 0) && (2 <? certificate_round)
       then a ← LeaderSchedule_leader schedule (certificate_round -u64 2); Authority_hostname a
       else Some EmptyString);
  Some (Z.max max_inserted certificate_round).

Definition Bullshark_report_leader_on_time_metrics (b : Bullshark) (certificate_round : Z) : option Bullshark :=
  r ← on_time_metrics (bs_leader_schedule b) (bs_max_inserted_certificate_round b) certificate_round;
  Some (bs_set_max_inserted b r).

(** The stake of the certificates of the round that have the leader as a parent. *)
Definition support_stake (committee : Committee) (m : gmap Z (Z * Certificate)) (leader : Certificate) : Z :=
  foldl (fun acc e => acc +u64 stake_by_id committee (Certificate_origin e.2)) 0
    (List.filter (fun e : Z * Certificate => has_parent e.2 (Certificate_digest leader)) (round_values m)).

(** One round of the commit loop of [process_certificate]. *)
Definition Bullshark_commit_leader (leader : Certificate) : EM (Bullshark * ConsensusState) ConsensusError CommittedSubDag :=
  '(b, state) ← em_get;
  let sub_dag_index := next_sub_dag_index state in
  sequence ← em_run (order_dag leader state);
  let state := foldl ConsensusState_update state sequence in
  reputation_score ← em_lift (resolve_reputation_score b state sequence sub_dag_index);
  let sub_dag := CommittedSubDag_new sequence leader sub_dag_index reputation_score (st_last_sub_dag state) in
  let '(store, r) := write_consensus_state (st_last_committed state) sub_dag (bs_store b) in
  let b := bs_set_store b store in
  _ ← em_modify (fun _ => (b, state));
  match r with
  | Err e => em_fail (StoreError e)
  | Ok _ =>
      let state := set_last_sub_dag state sub_dag in
      '(b, _) ← em_lift (update_leader_schedule b (Certificate_round leader) reputation_score);
      _ ← em_modify (fun _ => (b, state));
      mret sub_dag
  end.

Definition Bullshark_process_certificate (certificate : Certificate) :
    EM (Bullshark * ConsensusState) ConsensusError (ConsensusOutcome * list CommittedSubDag) :=
  let round := Certificate_round certificate in
  inserted ← em_snd (try_insert certificate);
  if negb inserted then mret (CertificateBelowCommitRound, [])
  else
    '(b, state) ← em_get;
    b ← em_lift (Bullshark_report_leader_on_time_metrics b round);
    _ ← em_modify (fun _ => (b, state));
    let r := round -u64 1 in
    if negb (r mod 2 =? 0) || (r <? 2) then mret (NoLeaderElectedForOddRound, [])
    else if r <=? cr_committed (st_last_round state) then mret (LeaderBelowCommitRound, [])
    else
      '(_, found) ← em_lift (leader_certificate (bs_leader_schedule b) r (st_dag state));
      match found with
      | None => mret (LeaderNotFound, [])
      | Some leader =>
          m ← em_lift (st_dag state !! round);
          if support_stake (bs_committee b) m leader <? cm_validity_threshold (bs_committee b)
          then mret (NotEnoughSupportForLeader, [])
          else
            leaders ← em_lift (Bullshark_order_leaders b leader state);
            committed_sub_dags ← em_iter Bullshark_commit_leader (reverse leaders);
            mret (Commit, committed_sub_dags)
      end.

(** ** Tusk *)

Record Tusk := mkTusk {
  tk_committee : Committee;
  tk_store : ConsensusStore;
  tk_max_inserted_certificate_round : Z;
  tk_leader_schedule : LeaderSchedule
}.

Definition Tusk_new (committee : Committee) (store : ConsensusStore) (leader_schedule : LeaderSchedule) : Tusk :=
  mkTusk committee store 0 leader_schedule.

Definition Tusk_linked (leader prev_leader : Certificate) (dag : Dag) : option bool :=
  parents ← foldl (fun acc r =>
      parents ← acc;
      m ← dag !! r;
      Some (snd <$> List.filter (fun e : Z * Certificate => existsb (fun x => has_parent x e.1) parents)
                      (round_values m)))
    (Some [leader])
    (reverse (seqZ (Certificate_round prev_leader) (Certificate_round leader - Certificate_round prev_leader)));
  Some (existsb (fun x => Certificate_eq x prev_leader) parents).

(** The loop of [order_leaders]. *)
Fixpoint Tusk_walk_leaders (schedule : LeaderSchedule) (dag : Dag) (rounds : list Z) (leader : Certificate)
    (to_commit : list Certificate) : option (list Certificate) :=
  match rounds with
  | [] => Some to_commit
  | r :: rounds' =>
      '(authority, found) ← leader_certificate schedule r dag;
      match found with
      | None => _ ← Authority_hostname authority; Tusk_walk_leaders schedule dag rounds' leader to_commit
      | Some prev_leader =>
          path ← Tusk_linked leader prev_leader dag;
          if path : bool then Tusk_walk_leaders schedule dag rounds' prev_leader (to_commit ++ [prev_leader])
          else _ ← Authority_hostname authority; Tusk_walk_leaders schedule dag rounds' leader to_commit
      end
  end.

Definition Tusk_order_leaders (t : Tusk) (leader : Certificate) (state : ConsensusState) :
    option (list Certificate) :=
  if negb (Certificate_round leader mod 2 =? 0) then None
  else
    to_commit ← Tusk_walk_leaders (tk_leader_schedule t) (st_dag state)
      (rev_step_by_2 (cr_committed (st_last_round state) +u64 2) (Certificate_round leader -u64 2)) leader [leader];
    _ ← report_leaders (tk_committee t) to_commit;
    Some to_commit.

Definition Tusk_report_leader_on_time_metrics (t : Tusk) (certificate_round : Z) : option Tusk :=
  r ← on_time_metrics (tk_leader_schedule t) (tk_max_inserted_certificate_round t) certificate_round;
  Some (mkTusk (tk_committee t) (tk_store t) r (tk_leader_schedule t)).

(** One round of the commit loop of [process_certificate]. *)
Definition Tusk_commit_leader (leader : Certificate) : EM (Tusk * ConsensusState) ConsensusError CommittedSubDag :=
  '(t, state) ← em_get;
  let sub_dag_index := next_sub_dag_index state in
  sequence ← em_run (order_dag leader state);
  let state := foldl ConsensusState_update state sequence in
  reputation_score ← em_lift (ReputationScores_new (tk_committee t));
  let sub_dag := CommittedSubDag_new sequence leader sub_dag_index reputation_score (st_last_sub_dag state) in
  let '(store, r) := write_consensus_state (st_last_committed state) sub_dag (tk_store t) in
  let t := mkTusk (tk_committee t) store (tk_max_inserted_certificate_round t) (tk_leader_schedule t) in
  _ ← em_modify (fun _ => (t, state));
  match r with
  | Err e => em_fail (StoreError e)
  | Ok _ => _ ← em_modify (fun _ => (t, set_last_sub_dag state sub_dag)); mret sub_dag
  end.

Definition Tusk_process_certificate (certificate : Certificate) :
    EM (Tusk * ConsensusState) ConsensusError (ConsensusOutcome * list CommittedSubDag) :=
  let round := Certificate_round certificate in
  inserted ← em_snd (try_insert certificate);
  if negb inserted then mret (CertificateBelowCommitRound, [])
  else
    '(t, state) ← em_get;
    t ← em_lift (Tusk_report_leader_on_time_metrics t round);
    _ ← em_modify (fun _ => (t, state));
    let r := round -u64 1 in
    if negb (r mod 2 =? 0) || (r <? 2) then mret (NoLeaderElectedForOddRound, [])
    else if r <=? cr_committed (st_last_round state) then mret (LeaderBelowCommitRound, [])
    else
      '(_, found) ← em_lift (leader_certificate (tk_leader_schedule t) r (st_dag state));
      match found with
      | None => mret (LeaderNotFound, [])
      | Some leader =>
          m ← em_lift (st_dag state !! round);
          if support_stake (tk_committee t) m leader <? cm_validity_threshold (tk_committee t)
          then mret (NotEnoughSupportForLeader, [])
          else
            leaders ← em_lift (Tusk_order_leaders t leader state);
            committed_sub_dags ← em_iter Tusk_commit_leader (reverse leaders);
            mret (Commit, committed_sub_dags)
      end.

(** ** The consensus loop *)

Inductive ConsensusProtocol :=
  | ProtocolBullshark (engine : Bullshark)
  | ProtocolTusk (engine : Tusk).

Definition process_certificate (certificate : Certificate) :
    EM (ConsensusProtocol * ConsensusState) ConsensusError (ConsensusOutcome * list CommittedSubDag) := fun '(p, state) =>
  match p with
  | ProtocolBullshark engine =>
      '(engine, state, r) ← Bullshark_process_certificate certificate (engine, state);
      Some (ProtocolBullshark engine, state, r)
  | ProtocolTusk engine =>
      '(engine, state, r) ← Tusk_process_certificate certificate (engine, state);
      Some (ProtocolTusk engine, state, r)
  end.

(** The channels of the loop: what was sent, and whether the receiver is there. *)
Record ConsensusChannels := mkChannels {
  ch_sequence : list CommittedSubDag;
  ch_committed : list (Z * list Certificate);
  ch_rounds : list ConsensusRound;
  ch_sequence_open : bool;
  ch_committed_open : bool;
  ch_rounds_open : bool
}.

Record Consensus := mkConsensus {
  cn_committee : Committee;
  cn_protocol : ConsensusProtocol;
  cn_state : ConsensusState;
  cn_channels : ConsensusChannels
}.

Definition send_sequence (d : CommittedSubDag) : EM ConsensusChannels ConsensusError unit := fun ch =>
  if ch_sequence_open ch
  then Some (mkChannels (ch_sequence ch ++ [d]) (ch_committed ch) (ch_rounds ch) (ch_sequence_open ch)
               (ch_committed_open ch) (ch_rounds_open ch), Ok tt)
  else Some (ch, Err ShuttingDown).

Definition send_committed (m : Z * list Certificate) : EM ConsensusChannels ConsensusError unit := fun ch =>
  if ch_committed_open ch
  then Some (mkChannels (ch_sequence ch) (ch_committed ch ++ [m]) (ch_rounds ch) (ch_sequence_open ch)
               (ch_committed_open ch) (ch_rounds_open ch), Ok tt)
  else Some (ch, Err ShuttingDown).

Definition send_round (r : ConsensusRound) : EM ConsensusChannels ConsensusError unit := fun ch =>
  if ch_rounds_open ch
  then Some (mkChannels (ch_sequence ch) (ch_committed ch) (ch_rounds ch ++ [r]) (ch_sequence_open ch)
               (ch_committed_open ch) (ch_rounds_open ch), Ok tt)
  else Some (ch, Err ShuttingDown).

(** Lifts a step of the protocol or of the channels to the loop. *)
Definition on_protocol {A} (m : EM (ConsensusProtocol * ConsensusState) ConsensusError A) :
    EM Consensus ConsensusError A := fun c =>
  '(p, state, r) ← m (cn_protocol c, cn_state c);
  Some (mkConsensus (cn_committee c) p state (cn_channels c), r).

Definition on_channels {A} (m : EM ConsensusChannels ConsensusError A) : EM Consensus ConsensusError A := fun c =>
  '(ch, r) ← m (cn_channels c);
  Some (mkConsensus (cn_committee c) (cn_protocol c) (cn_state c) ch, r).

(** The handling of one received certificate in [run_inner]. *)
Definition run_inner_step (certificate : Certificate) : EM Consensus ConsensusError unit :=
  c ← em_get;
  if negb (Certificate_epoch certificate =? cm_epoch (cn_committee c)) then mret tt
  else
    '(_, committed_sub_dags) ← on_protocol (process_certificate certificate);
    _ ← em_iter (fun d => on_channels (send_sequence d)) committed_sub_dags;
    let committed_certificates := committed_sub_dags ≫= sd_certificates in
    match Certificate_round <$> committed_certificates with
    | [] => mret tt
    | r :: rs =>
        let leader_commit_round := foldl Z.max r rs in
        _ ← on_channels (send_committed (leader_commit_round, committed_certificates));
        c ← em_get;
        if cr_committed (st_last_round (cn_state c)) =? leader_commit_round
        then on_channels (send_round (st_last_round (cn_state c)))
        else em_panic
    end.

(** The certificates received until shutdown. *)
Definition run_inner (certificates : list Certificate) : EM Consensus ConsensusError unit :=
  _ ← em_iter run_inner_step certificates; mret tt.

(** Every error but [ShuttingDown] panics. *)
Definition Consensus_run (certificates : list Certificate) (c : Consensus) : option Consensus :=
  '(c, r) ← run_inner certificates c;
  match r with Ok _ | Err ShuttingDown => Some c | Err _ => None end.
End protocols.
