(* ===== verification/DagProps.v ===== *)
(** * The dag of consensus

    Theorems about the dag that consensus keeps and about [order_dag].

    [certified_dag] says what the certificates of an epoch promise: one header per
    authority and round, and a quorum of parents of the previous round.  Voting
    shows where this comes from.  [dag_ok] is the invariant of the dag of one node
    with respect to these headers.  [flatten] is [order_dag] on headers: it looks a
    parent up among all certified headers, so its result is the same on every
    node; [order_dag_refines] is the refinement. *)

From S2P Require Import Prelude Committee DagTypes ConsensusCore.
Local Open Scope Z_scope.
Local Open Scope chase_scope.

(** ** Certified headers *)

Section certified.
Context `{HH : HeaderHash} (c : Committee) (G : gmap Z Header).

(** The parents of a header of a later round than the first, as headers. *)
Record parents_ok (h : Header) (ps : list Header) : Prop := {
  po_lookup : Forall2 (fun p q => G !! p = Some q) (he_parents h) ps;
  po_authors : NoDup (he_author <$> ps);
  po_quorum : cm_quorum_threshold c <= stake_sum c (he_author <$> ps)
}.

(** [G] maps the digests of an epoch to its certified headers. *)
Record certified_dag : Prop := {
  cd_digest d h : G !! d = Some h -> header_digest h = d;
  cd_round d h : G !! d = Some h -> 1 <= he_round h < u64_modulus;
  cd_unique d d' h h' :
    G !! d = Some h -> G !! d' = Some h' -> he_round h = he_round h' -> he_author h = he_author h' -> h = h';
  cd_author d h : G !! d = Some h -> is_Some (cm_authorities_by_id c !! he_author h);
  cd_parent_round d h p q :
    G !! d = Some h -> p ∈ he_parents h -> G !! p = Some q -> he_round q = he_round h - 1;
  cd_parents d h : G !! d = Some h -> 2 <= he_round h -> exists ps, parents_ok h ps
}.

Definition in_dag (h : Header) : Prop := G !! header_digest h = Some h.

(** The certificate carries a certified header. *)
Definition certified (x : Certificate) : Prop := in_dag (ce_header x).

(** A path from a header to one of its ancestors. *)
Inductive path : Header -> Header -> Prop :=
  | path_refl h : path h h
  | path_step h p q h' : p ∈ he_parents h -> G !! p = Some q -> path q h' -> path h h'.

(** ** The invariant of a node's dag *)

Record dag_ok (gc : Z) (dag : Dag) : Prop := {
  do_entry r m a d x : dag !! r = Some m -> m !! a = Some (d, x) ->
    Certificate_round x = r ∧ Certificate_origin x = a ∧ d = Certificate_digest x ∧ certified x;
  do_nonempty r m : dag !! r = Some m -> m <> ∅;
  do_gc r m : dag !! r = Some m -> gc < r;
  do_parents r m a d x p : dag !! r = Some m -> m !! a = Some (d, x) -> gc + 1 < r ->
    p ∈ Certificate_parents x -> exists y, find_parent dag (r - 1) p = Some (p, y)
}.

(** A certificate of the dag. *)
Definition dag_has (dag : Dag) (x : Certificate) : Prop :=
  exists m, dag !! Certificate_round x = Some m ∧ m !! Certificate_origin x = Some (Certificate_digest x, x).
End certified.

Section dag.
Context `{HH : HeaderHash} (c : Committee) (G : gmap Z Header) (Hcd : certified_dag c G).

Lemma in_dag_round h : in_dag G h -> 1 <= he_round h < u64_modulus.
Proof. apply (cd_round _ _ Hcd). Qed.

Lemma in_dag_parent h p q : in_dag G h -> p ∈ he_parents h -> G !! p = Some q -> in_dag G q ∧ he_round q = he_round h - 1.
Proof.
  intros Hh Hp Hq. split; [|by eapply cd_parent_round]. unfold in_dag. by rewrite (cd_digest _ _ Hcd _ _ Hq).
Qed.

Lemma in_dag_unique h h' :
  in_dag G h -> in_dag G h' -> he_round h = he_round h' -> he_author h = he_author h' -> h = h'.
Proof. unfold in_dag. intros. by eapply cd_unique. Qed.

Lemma in_dag_digest h h' : in_dag G h -> in_dag G h' -> header_digest h = header_digest h' -> h = h'.
Proof. unfold in_dag. congruence. Qed.

Lemma path_in_dag h h' : path G h h' -> in_dag G h -> in_dag G h' ∧ he_round h' <= he_round h.
Proof.
  induction 1 as [|h p q h' Hp Hq Hpath IH]; intros Hh; [done|].
  destruct (in_dag_parent _ _ _ Hh Hp Hq) as [Hin Hr]. destruct (IH Hin). split; [done|lia].
Qed.

Lemma path_trans h1 h2 h3 : path G h1 h2 -> path G h2 h3 -> path G h1 h3.
Proof. induction 1; [done|]. intros. eapply path_step; eauto. Qed.

(** A path to an older header goes through a parent. *)
Lemma path_parent h h' : path G h h' -> h <> h' -> exists p q, p ∈ he_parents h ∧ G !! p = Some q ∧ path G q h'.
Proof. destruct 1; [done|]. intros _. eauto. Qed.

(** The last step of a path. *)
Lemma path_last h h' : path G h h' -> h <> h' ->
  exists q p, path G h q ∧ p ∈ he_parents q ∧ G !! p = Some h'.
Proof.
  induction 1 as [|h p q h' Hp Hq Hpath IH]; [done|]. intros Hne.
  destruct (decide (q = h')) as [->|Hqh]; [exists h, p; split; [constructor|done]|].
  destruct (IH Hqh) as (q' & p' & Hpq & ? & ?). exists q', p'. split; [|done]. eapply path_step; eauto.
Qed.

(** ** Looking up the dag *)

Context (gc : Z) (dag : Dag) (Hok : dag_ok G gc dag).

Lemma round_values_elem m d x :
  (d, x) ∈ round_values m -> exists a, m !! a = Some (d, x).
Proof.
  unfold round_values. intros ([a e] & -> & Ha)%list_elem_of_fmap. exists a. by apply elem_of_map_to_list in Ha.
Qed.

Lemma find_parent_sound r p d x :
  find_parent dag r p = Some (d, x) ->
  d = p ∧ G !! p = Some (ce_header x) ∧ Certificate_round x = r ∧ dag_has dag x.
Proof.
  unfold find_parent. intros (m & Hm & [Hin Hd]%find_some)%bind_Some. simpl in Hd. apply Z.eqb_eq in Hd as ->.
  apply list_elem_of_In, round_values_elem in Hin as [a Ha].
  destruct (do_entry _ _ _ Hok _ _ _ _ _ Hm Ha) as (Hr & Ho & -> & Hx). split_and!; try done.
  exists m. by rewrite Hr, Ho.
Qed.

Lemma find_parent_complete x : dag_has dag x -> exists y,
  find_parent dag (Certificate_round x) (Certificate_digest x) = Some (Certificate_digest x, y) ∧ ce_header y = ce_header x.
Proof.
  intros (m & Hm & Ha). unfold find_parent. rewrite Hm. simpl.
  destruct (List.find _ _) as [[d y]|] eqn:E.
  - exists y. assert (find_parent dag (Certificate_round x) (Certificate_digest x) = Some (d, y)) as Hf.
    { unfold find_parent. by rewrite Hm. }
    destruct (find_parent_sound _ _ _ _ Hf) as (-> & Hy & _). split; [done|].
    destruct (do_entry _ _ _ Hok _ _ _ _ _ Hm Ha) as (_ & _ & _ & Hx).
    unfold certified, in_dag, Certificate_digest in *. congruence.
  - eapply find_none in E; [|apply list_elem_of_In, list_elem_of_fmap_2, elem_of_map_to_list, Ha].
    simpl in E. by rewrite Z.eqb_refl in E.
Qed.

Lemma dag_has_certified x : dag_has dag x -> certified G x ∧ gc < Certificate_round x.
Proof.
  intros (m & Hm & Ha). split; [|by eapply do_gc]. by destruct (do_entry _ _ _ Hok _ _ _ _ _ Hm Ha) as (_ & _ & _ & ?).
Qed.

(** The ancestors above the garbage collection round are there. *)
Lemma dag_has_path x h :
  dag_has dag x -> path G (ce_header x) h -> gc < he_round h -> exists y, dag_has dag y ∧ ce_header y = h.
Proof.
  intros Hx Hpath. remember (ce_header x) as hx eqn:Ehx. revert x Hx Ehx.
  induction Hpath as [h|h p q h' Hp Hq Hpath IH]; intros x Hx -> Hgc; [eauto|].
  destruct (dag_has_certified _ Hx) as [Hcx _].
  destruct (in_dag_parent _ _ _ Hcx Hp Hq) as [Hin Hr].
  pose proof (path_in_dag _ _ Hpath Hin) as [_ Hle].
  destruct Hx as (m & Hm & Ha).
  destruct (do_parents _ _ _ Hok _ _ _ _ _ p Hm Ha) as [y Hy]; [unfold Certificate_round; lia|done|].
  destruct (find_parent_sound _ _ _ _ Hy) as (_ & Hqy & _ & Hhas).
  eapply IH; [exact Hhas|congruence|done].
Qed.
End dag.

(** ** Inserting a certificate *)

Section insert.
Context `{HH : HeaderHash} (c : Committee) (G : gmap Z Header) (Hcd : certified_dag c G).

Lemma find_parent_exists dag r p :
  (exists y, find_parent dag r p = Some (p, y)) <-> exists m a y, dag !! r = Some m ∧ m !! a = Some (p, y).
Proof.
  unfold find_parent. split.
  - intros [y (m & Hm & [Hin _]%find_some)%bind_Some]. apply list_elem_of_In, round_values_elem in Hin as [a Ha]. eauto.
  - intros (m & a & y & Hm & Ha). rewrite Hm. simpl. destruct (List.find _ _) as [[d z]|] eqn:E.
    + apply find_some in E as [_ Hd]. simpl in Hd. apply Z.eqb_eq in Hd as ->. eauto.
    + eapply find_none in E; [|apply list_elem_of_In, list_elem_of_fmap_2, elem_of_map_to_list, Ha].
      simpl in E. by rewrite Z.eqb_refl in E.
Qed.

Lemma check_parents_spec x dag gc :
  0 <= gc < Certificate_round x -> Certificate_round x < u64_modulus ->
  check_parents x dag gc = Some tt ->
  Certificate_round x = gc + 1 ∨
  forall p, p ∈ Certificate_parents x -> exists y, find_parent dag (Certificate_round x - 1) p = Some (p, y).
Proof.
  unfold check_parents. intros Hgc Hr. rewrite u64_add_small by lia. destruct (Z.leb_spec (Certificate_round x) (gc + 1)).
  { left. lia. }
  unfold u64_sub. rewrite Z.mod_small by lia. destruct (dag !! _) as [m|] eqn:Hm; [|done].
  destruct (forallb _ _) eqn:Ef; [|done]. intros _. right. intros p Hp. rewrite find_parent_exists.
  rewrite forallb_forall in Ef. specialize (Ef p ltac:(by apply list_elem_of_In)).
  apply existsb_exists in Ef as (d & Hd & ->%Z.eqb_eq). apply list_elem_of_In, list_elem_of_fmap in Hd as ([d y] & -> & Hin).
  apply round_values_elem in Hin as [a Ha]. exists m, a, y. done.
Qed.

(** The dag with one more certificate. *)
Definition dag_insert (dag : Dag) (x : Certificate) : Dag :=
  <[Certificate_round x := <[Certificate_origin x := (Certificate_digest x, x)]> (default ∅ (dag !! Certificate_round x))]> dag.

Lemma dag_insert_lookup dag x r m a e :
  dag_insert dag x !! r = Some m -> m !! a = Some e ->
  (r = Certificate_round x ∧ a = Certificate_origin x ∧ e = (Certificate_digest x, x)) ∨
  (exists m', dag !! r = Some m' ∧ m' !! a = Some e).
Proof.
  unfold dag_insert. intros [[<- <-]|[_ ?]]%lookup_insert_Some Ha; [|eauto].
  apply lookup_insert_Some in Ha as [[<- <-]|[_ Ha]]; [by left|right].
  destruct (dag !! Certificate_round x) as [m'|] eqn:E; [|by simpl in Ha; rewrite lookup_empty in Ha]. eauto.
Qed.

Lemma dag_insert_has dag x : dag_has (dag_insert dag x) x.
Proof. unfold dag_has, dag_insert. eexists. split; [apply lookup_insert_eq|]. apply lookup_insert_eq. Qed.

(** A digest that was in a round is still there: a certificate that takes the
    place of another one has the same header. *)
Lemma dag_insert_keeps gc dag x r p :
  dag_ok G gc dag -> certified G x ->
  (exists y, find_parent dag r p = Some (p, y)) -> exists y, find_parent (dag_insert dag x) r p = Some (p, y).
Proof.
  intros Hok Hx. rewrite !find_parent_exists. intros (m & a & y & Hm & Ha).
  destruct (do_entry _ _ _ Hok _ _ _ _ _ Hm Ha) as (Hr & Ho & -> & Hy). unfold dag_insert.
  destruct (decide (r = Certificate_round x)) as [->|Hne]; [|exists m, a, y; by rewrite lookup_insert_ne by done].
  rewrite lookup_insert_eq, Hm. simpl. eexists _, a.
  destruct (decide (a = Certificate_origin x)) as [->|Hne]; [|exists y; by rewrite lookup_insert_ne by done].
  exists x. split; [done|]. rewrite lookup_insert_eq. do 2 f_equal. unfold Certificate_digest. f_equal.
  by eapply in_dag_unique.
Qed.

Lemma dag_insert_ok gc dag x :
  dag_ok G gc dag -> 0 <= gc < Certificate_round x -> certified G x -> check_parents x dag gc = Some tt ->
  dag_ok G gc (dag_insert dag x).
Proof.
  intros Hok Hgc Hx Hp. pose proof (in_dag_round _ _ Hcd _ Hx) as Hrx.
  apply check_parents_spec in Hp; [|done|apply Hrx]. split.
  - intros r m a d y Hm Ha. destruct (dag_insert_lookup _ _ _ _ _ _ Hm Ha) as [(-> & -> & [= -> ->])|(m' & Hm' & Ha')]; [done|].
    by apply (do_entry _ _ _ Hok r m').
  - unfold dag_insert. intros r m [[_ <-]|[_ Hm]]%lookup_insert_Some; [apply insert_non_empty|by eapply do_nonempty].
  - unfold dag_insert. intros r m [[<- _]|[_ Hm]]%lookup_insert_Some; [lia|by eapply do_gc].
  - intros r m a d y p Hm Ha Hr Hpy. apply (dag_insert_keeps gc); [done|done|].
    destruct (dag_insert_lookup _ _ _ _ _ _ Hm Ha) as [(-> & -> & [= -> ->])|(m' & Hm' & Ha')].
    + destruct Hp as [?|Hp]; [lia|by apply Hp].
    + by apply (do_parents _ _ _ Hok r m' a d y).
Qed.

(** What [try_insert_in_dag] does with a certified certificate. *)
Lemma try_insert_in_dag_ok gc dag lc x dag' r :
  dag_ok G gc dag -> 0 <= gc -> certified G x -> try_insert_in_dag dag lc gc x = Some (dag', r) ->
  (dag' = dag ∧ r = Ok false ∧ Certificate_round x <= gc) ∨
  (dag' = dag_insert dag x ∧ dag_ok G gc dag' ∧ gc < Certificate_round x ∧
   r = Ok (default 0 (lc !! Certificate_origin x) <? Certificate_round x)).
Proof.
  intros Hok Hgc Hx. unfold try_insert_in_dag. destruct (Z.leb_spec (Certificate_round x) gc); [intros [= <- <-]; by left|].
  intros ([] & Hp & Hi)%bind_Some. right. fold (dag_insert dag x) in Hi.
  assert (dag_ok G gc (dag_insert dag x)) by (apply dag_insert_ok; [done|lia|done|done]).
  destruct (default ∅ (dag !! Certificate_round x) !! Certificate_origin x) as [[d y]|] eqn:E; [|by simplify_eq].
  destruct (dag !! Certificate_round x) as [m|] eqn:Hm; [|by simpl in E; rewrite lookup_empty in E]. simpl in E.
  destruct (do_entry _ _ _ Hok _ _ _ _ _ Hm E) as (Hr & Ho & _ & Hy).
  assert (Certificate_digest y = Certificate_digest x) as He.
  { unfold Certificate_digest. f_equal. by eapply in_dag_unique. }
  rewrite He, Z.eqb_refl in Hi. by simplify_eq.
Qed.
End insert.

(** ** Termination of [order_dag] *)

Section termination.
Context `{HH : HeaderHash}.

Definition dag_entries (dag : Dag) : list (Z * Certificate) := map_to_list dag ≫= (fun e => round_values e.2).

Definition dag_digests (dag : Dag) : gset Z := list_to_set (dag_entries dag).*1.

Lemma size_list_to_set_le (l : list Z) : (size (list_to_set l : gset Z) <= length l)%nat.
Proof.
  induction l as [|x l IH]; [by rewrite list_to_set_nil, size_empty|].
  rewrite list_to_set_cons, size_union_alt, size_singleton. simpl.
  pose proof (subseteq_size (list_to_set l ∖ {[x]}) (list_to_set l : gset Z) ltac:(set_solver)). lia.
Qed.

Lemma size_dag_digests dag : (size (dag_digests dag) <= dag_size dag)%nat.
Proof.
  unfold dag_digests. etrans; [apply size_list_to_set_le|]. rewrite length_fmap. unfold dag_entries, dag_size.
  induction (map_to_list dag) as [|e l IH]; csimpl; [done|]. rewrite length_app. unfold round_values at 1.
  rewrite length_fmap, length_map_to_list. lia.
Qed.

Lemma find_parent_digest dag r p d x : find_parent dag r p = Some (d, x) -> d ∈ dag_digests dag.
Proof.
  unfold find_parent. intros (m & Hm & [Hin _]%find_some)%bind_Some. apply list_elem_of_In in Hin.
  unfold dag_digests. apply elem_of_list_to_set, (list_elem_of_fmap_2' fst _ (d, x)); [|done].
  unfold dag_entries. apply list_elem_of_bind. exists (r, m). split; [done|]. by apply elem_of_map_to_list.
Qed.

(** A push moves a fresh digest of the dag into [already_ordered]. *)
Lemma push_parents_count dag lc r ps buffer already buffer' already' :
  push_parents dag lc r ps buffer already = Some (buffer', already') ->
  (length buffer' + size already = length buffer + size already')%nat ∧
  (already ⊆ dag_digests dag -> already' ⊆ dag_digests dag).
Proof.
  revert buffer already. induction ps as [|p ps IH]; intros buffer already; simpl.
  { intros [= <- <-]. split; [lia|done]. }
  intros ([d x] & Hf & Hp)%bind_Some. destruct (bool_decide (d ∈ already)) eqn:Ed; simpl in Hp; [by apply IH|].
  apply bool_decide_eq_false in Ed. case_match; [by apply IH|].
  apply IH in Hp as [Hl Hs]. simpl in Hl. rewrite size_union in Hl by set_solver. rewrite size_singleton in Hl.
  split; [lia|]. intros Hsub. apply Hs. apply find_parent_digest in Hf. set_solver.
Qed.

Lemma order_dag_loop_terminates dag lc g fuel buffer already ordered :
  already ⊆ dag_digests dag -> (length buffer + size (dag_digests dag) <= fuel + size already)%nat ->
  order_dag_loop fuel dag lc g buffer already ordered <> Spinning.
Proof.
  revert buffer already ordered. induction fuel as [|fuel IH]; intros [|x buffer] already ordered Hsub Hle; simpl in *; try done.
  { pose proof (subseteq_size _ _ Hsub). lia. }
  case_match; [apply IH; [done|lia]|].
  destruct (push_parents _ _ _ _ _ _) as [[buffer' already']|] eqn:Ep; [|done].
  apply push_parents_count in Ep as [Hl Hs]. apply IH; [by apply Hs|lia].
Qed.

(** The loop of [order_dag] ends on every dag, well formed or not. *)
Theorem order_dag_terminates leader s : order_dag leader s <> Spinning.
Proof.
  unfold order_dag. case_match; [done|].
  pose proof (order_dag_loop_terminates (st_dag s) (st_last_committed s)
    (u64_saturating_sub (Certificate_round leader) (st_gc_depth s)) (S (dag_size (st_dag s))) [leader] ∅ []) as Ht.
  destruct (order_dag_loop _ _ _ _ _ _ _); simpl; [done|done|]. intros _. apply Ht; [set_solver| |done].
  pose proof (size_dag_digests (st_dag s)). rewrite size_empty. simpl. lia.
Qed.
End termination.

(** ** Flattening among the certified headers *)

Section flatten.
Context (G : gmap Z Header).

Fixpoint flatten_push (lc : gmap Z Z) (parents : list Z) (buffer : list Header) (already : gset Z) :
    option (list Header * gset Z) :=
  match parents with
  | [] => Some (buffer, already)
  | p :: parents' =>
      h ← G !! p;
      if bool_decide (p ∈ already)
         || match lc !! he_author h with Some r => he_round h <=? r | None => false end
      then flatten_push lc parents' buffer already
      else flatten_push lc parents' (h :: buffer) ({[p]} ∪ already)
  end.

Fixpoint flatten_loop (fuel : nat) (lc : gmap Z Z) (gc : Z) (buffer : list Header) (already : gset Z)
    (ordered : list Header) : Run (list Header) :=
  match buffer with
  | [] => Finished ordered
  | h :: buffer' =>
      match fuel with
      | O => Spinning
      | S fuel' =>
          if he_round h =? gc + 1 then flatten_loop fuel' lc gc buffer' already (ordered ++ [h])
          else
            match flatten_push lc (he_parents h) buffer' already with
            | None => Panicked
            | Some (buffer, already) => flatten_loop fuel' lc gc buffer already (ordered ++ [h])
            end
      end
  end.

(** The headers a leader commits, given the last committed rounds. *)
Definition flatten (gc_depth : Z) (lc : gmap Z Z) (leader : Header) : Run (list Header) :=
  l ← flatten_loop (S (size G)) lc (gc_round (he_round leader) gc_depth) [leader] ∅ [];
  Finished (stable_sort_by_key he_round l).

Lemma flatten_loop_mono fuel fuel' lc gc buffer already ordered :
  flatten_loop fuel lc gc buffer already ordered <> Spinning -> (fuel <= fuel')%nat ->
  flatten_loop fuel' lc gc buffer already ordered = flatten_loop fuel lc gc buffer already ordered.
Proof.
  revert fuel' buffer already ordered. induction fuel as [|fuel IH]; intros fuel' [|h buffer] already ordered Hn Hle;
    destruct fuel' as [|fuel']; simpl in *; try done; try lia.
  case_match; [apply IH; [done|lia]|]. destruct (flatten_push _ _ _ _) as [[b a]|]; [|done]. apply IH; [done|lia].
Qed.

Lemma flatten_push_count lc ps buffer already buffer' already' :
  flatten_push lc ps buffer already = Some (buffer', already') ->
  (length buffer' + size already = length buffer + size already')%nat ∧
  (already ⊆ dom G -> already' ⊆ dom G).
Proof.
  revert buffer already. induction ps as [|p ps IH]; intros buffer already; simpl.
  { intros [= <- <-]. split; [lia|done]. }
  intros (h & Hf & Hp)%bind_Some. destruct (bool_decide (p ∈ already)) eqn:Ed; simpl in Hp; [by apply IH|].
  apply bool_decide_eq_false in Ed. case_match; [by apply IH|].
  apply IH in Hp as [Hl Hs]. simpl in Hl. rewrite size_union in Hl by set_solver. rewrite size_singleton in Hl.
  split; [lia|]. intros Hsub. apply Hs. apply elem_of_dom_2 in Hf. set_solver.
Qed.

Lemma flatten_loop_terminates lc gc fuel buffer already ordered :
  already ⊆ dom G -> (length buffer + size (dom G) <= fuel + size already)%nat ->
  flatten_loop fuel lc gc buffer already ordered <> Spinning.
Proof.
  revert buffer already ordered. induction fuel as [|fuel IH]; intros [|x buffer] already ordered Hsub Hle; simpl in *; try done.
  { pose proof (subseteq_size _ _ Hsub). lia. }
  case_match; [apply IH; [done|lia]|].
  destruct (flatten_push _ _ _ _) as [[buffer' already']|] eqn:Ep; [|done].
  apply flatten_push_count in Ep as [Hl Hs]. apply IH; [by apply Hs|lia].
Qed.

(** Any fuel that suffices gives the result of [flatten]. *)
Lemma flatten_loop_fuel lc gc_depth leader fuel l :
  flatten_loop fuel lc (gc_round (he_round leader) gc_depth) [leader] ∅ [] = Finished l ->
  flatten gc_depth lc leader = Finished (stable_sort_by_key he_round l).
Proof.
  intros Hl. unfold flatten.
  assert (flatten_loop (S (size G)) lc (gc_round (he_round leader) gc_depth) [leader] ∅ [] <> Spinning) as Ht.
  { apply flatten_loop_terminates; [set_solver|]. rewrite size_dom, size_empty. simpl. lia. }
  destruct (decide (fuel <= S (size G))%nat).
  - rewrite (flatten_loop_mono fuel); [by rewrite Hl|by rewrite Hl|done].
  - rewrite <- (flatten_loop_mono (S (size G)) fuel); [by rewrite Hl|done|lia].
Qed.
End flatten.

(** ** Refinement and absence of panics *)

Section refinement.
Context `{HH : HeaderHash} (c : Committee) (G : gmap Z Header) (Hcd : certified_dag c G).
Context (gc : Z) (dag : Dag) (Hok : dag_ok G gc dag).

Lemma push_parents_refines lc r ps buffer already buffer' already' :
  push_parents dag lc r ps buffer already = Some (buffer', already') ->
  flatten_push G lc ps (ce_header <$> buffer) already = Some (ce_header <$> buffer', already').
Proof.
  revert buffer already. induction ps as [|p ps IH]; intros buffer already; simpl; [by intros [= <- <-]|].
  intros ([d x] & Hf & Hp)%bind_Some.
  destruct (find_parent_sound _ _ _ Hok _ _ _ _ Hf) as (-> & Hx & _). rewrite Hx. simpl.
  unfold Certificate_origin, Certificate_round in Hp. destruct (_ || _); by apply IH in Hp.
Qed.

Lemma order_dag_loop_refines lc g fuel buffer already ordered l :
  0 <= g < u64_modulus - 1 ->
  order_dag_loop fuel dag lc g buffer already ordered = Finished l ->
  flatten_loop G fuel lc g (ce_header <$> buffer) already (ce_header <$> ordered) = Finished (ce_header <$> l).
Proof.
  intros Hg. revert buffer already ordered. induction fuel as [|fuel IH]; intros [|x buffer] already ordered; csimpl; try done.
  { by intros [= ->]. }
  { by intros [= ->]. }
  rewrite u64_add_small by (unfold u64_modulus in *; lia). unfold Certificate_round at 1.
  destruct (he_round (ce_header x) =? g + 1).
  { intros Hl%IH. by rewrite fmap_app in Hl. }
  destruct (push_parents _ _ _ _ _ _) as [[buffer' already']|] eqn:Ep; [|done].
  apply push_parents_refines in Ep. unfold Certificate_parents in Ep. rewrite Ep. intros Hl%IH. by rewrite fmap_app in Hl.
Qed.

(** What a node orders below a leader are the headers of [flatten]. *)
Lemma order_dag_refines leader s l :
  st_dag s = dag -> certified G leader -> 1 <= st_gc_depth s ->
  order_dag leader s = Finished l ->
  flatten G (st_gc_depth s) (st_last_committed s) (ce_header leader) = Finished (ce_header <$> l).
Proof.
  intros Hdag Hl Hd. unfold order_dag. rewrite Hdag. case_match; [done|].
  pose proof (in_dag_round _ _ Hcd _ Hl) as Hr. change (he_round (ce_header leader)) with (Certificate_round leader) in Hr.
  destruct (order_dag_loop _ _ _ _ _ _ _) as [l0| |] eqn:El; [|done|done]. simpl. intros [= <-].
  apply order_dag_loop_refines in El; [|unfold u64_saturating_sub, u64_modulus in *; lia].
  erewrite flatten_loop_fuel by exact El.
  by rewrite (stable_sort_by_key_fmap ce_header he_round Certificate_round).
Qed.

Lemma push_parents_some lc r ps buffer already :
  (forall p, p ∈ ps -> exists y, find_parent dag r p = Some (p, y)) ->
  exists buffer' already', push_parents dag lc r ps buffer already = Some (buffer', already') ∧
    forall y, y ∈ buffer' -> y ∈ buffer ∨ (dag_has dag y ∧ Certificate_round y = r).
Proof.
  revert buffer already. induction ps as [|p ps IH]; intros buffer already Hps; simpl; [eauto 10|].
  destruct (Hps p ltac:(set_solver)) as [y Hy]. rewrite Hy. simpl.
  destruct (find_parent_sound _ _ _ Hok _ _ _ _ Hy) as (_ & _ & Hr & Hhas).
  destruct (_ || _); [apply IH; set_solver|].
  destruct (IH (y :: buffer) ({[p]} ∪ already)) as (b & a & Hb & Hin); [set_solver|].
  exists b, a. split; [done|]. intros z [[->|?]%elem_of_cons|?]%Hin; auto.
Qed.

Lemma order_dag_loop_no_panic lc g fuel buffer already ordered :
  0 <= gc <= g -> g < u64_modulus - 1 ->
  (forall x, x ∈ buffer -> dag_has dag x ∧ g + 1 <= Certificate_round x) ->
  order_dag_loop fuel dag lc g buffer already ordered <> Panicked.
Proof.
  intros Hgc Hg. revert buffer already ordered. induction fuel as [|fuel IH]; intros [|x buffer] already ordered Hb; simpl; try done.
  rewrite u64_add_small by (unfold u64_modulus in *; lia).
  destruct (Hb x ltac:(set_solver)) as [Hx Hrx]. destruct (dag_has_certified _ _ _ Hok _ Hx) as [Hcx _].
  pose proof (in_dag_round _ _ Hcd _ Hcx) as Hr. change (he_round (ce_header x)) with (Certificate_round x) in Hr.
  destruct (Z.eqb_spec (Certificate_round x) (g + 1)) as [|Hne]; [apply IH; set_solver|].
  unfold u64_sub. rewrite Z.mod_small by lia. destruct Hx as (m & Hm & Ha).
  destruct (push_parents_some lc (Certificate_round x - 1) (Certificate_parents x) buffer already) as (b & a & -> & Hin).
  { intros p Hp. eapply do_parents; [done|done|done|lia|done]. }
  apply IH. intros y [Hy|[Hy Hry]]%Hin; [apply Hb; set_solver|]. split; [done|]. lia.
Qed.

(** [order_dag] succeeds on the leaders of the dag. *)
Lemma order_dag_total leader s :
  st_dag s = dag -> dag_has dag leader -> 1 <= st_gc_depth s ->
  0 <= gc <= gc_round (Certificate_round leader) (st_gc_depth s) ->
  exists l, order_dag leader s = Finished l.
Proof.
  intros Hdag Hl Hd Hgc. pose proof (order_dag_terminates leader s) as Ht.
  destruct (dag_has_certified _ _ _ Hok _ Hl) as [Hcl _].
  pose proof (in_dag_round _ _ Hcd _ Hcl) as Hr. change (he_round (ce_header leader)) with (Certificate_round leader) in Hr.
  unfold order_dag in *. rewrite Hdag in *. destruct (Z.ltb_spec 0 (Certificate_round leader)); [|lia]. cbn [negb] in *.
  unfold gc_round in *.
  destruct (order_dag_loop _ _ _ _ _ _ _) as [l| |] eqn:El; [by eexists| |done].
  exfalso. revert El. apply order_dag_loop_no_panic; unfold u64_saturating_sub, u64_modulus in *; [lia|lia|].
  intros x ->%list_elem_of_singleton. split; [done|lia].
Qed.
End refinement.

(** ** What [flatten] selects *)

Section selection.
Context `{HH : HeaderHash} (c : Committee) (G : gmap Z Header) (Hcd : certified_dag c G).
Context (lc : gmap Z Z) (leader : Header) (gc : Z).
Context (Hleader : in_dag G leader) (Hgc : 0 <= gc < he_round leader).

(** The authority has a commit at the round of the header or later. *)
Definition superseded (lc : gmap Z Z) (h : Header) : Prop :=
  exists r, lc !! he_author h = Some r ∧ he_round h <= r.

(** A header that may be selected. *)
Definition selectable (h : Header) : Prop :=
  in_dag G h ∧ path G leader h ∧ gc < he_round h ∧
  (h = leader ∨ (he_round h < he_round leader ∧ ~ superseded lc h)).

(** The parents of the header are selected, superseded or collected. *)
Definition closed (l : list Header) (h : Header) : Prop :=
  he_round h = gc + 1 ∨
  forall p, p ∈ he_parents h -> exists q, G !! p = Some q ∧ (q ∈ l ∨ superseded lc q).

Record flat_inv (buffer : list Header) (already : gset Z) (ordered : list Header) : Prop := {
  fi_nodup : NoDup (buffer ++ ordered);
  fi_digest h : h ∈ buffer ++ ordered -> h = leader ∨ header_digest h ∈ already;
  fi_already d : d ∈ already -> exists h, h ∈ buffer ++ ordered ∧ header_digest h = d;
  fi_elem h : h ∈ buffer ++ ordered -> selectable h
}.

Lemma superseded_leb h :
  match lc !! he_author h with Some r => he_round h <=? r | None => false end = true <-> superseded lc h.
Proof.
  unfold superseded. destruct (lc !! he_author h) as [r|]; [|split; [done|by intros (?&?&?)]].
  rewrite Z.leb_le. split; [eauto|]. by intros (? & [= ->] & ?).
Qed.

Lemma flat_inv_push x p q buffer already ordered :
  flat_inv buffer already ordered -> x ∈ ordered -> gc + 1 < he_round x ->
  p ∈ he_parents x -> G !! p = Some q -> p ∉ already -> ~ superseded lc q ->
  flat_inv (q :: buffer) ({[p]} ∪ already) ordered.
Proof.
  intros Hinv Hx Hrx Hp Hq Hna Hns.
  destruct (fi_elem _ _ _ Hinv x ltac:(set_solver)) as (Hinx & Hpx & _ & Hlx).
  destruct (in_dag_parent _ _ Hcd _ _ _ Hinx Hp Hq) as [Hinq Hrq].
  assert (he_round q < he_round leader) as Hlt by (destruct Hlx as [->|[? _]]; lia).
  assert (header_digest q = p) as Hdq by apply (cd_digest _ _ Hcd _ _ Hq).
  split; simpl.
  - constructor; [|apply Hinv]. intros [->|Hd]%(fi_digest _ _ _ Hinv); [lia|]. by rewrite Hdq in Hd.
  - intros h [->|Hh]%elem_of_cons; [right; set_solver|]. destruct (fi_digest _ _ _ Hinv _ Hh); [by left|right; set_solver].
  - intros d [->%elem_of_singleton|Hd]%elem_of_union; [exists q; set_solver|].
    destruct (fi_already _ _ _ Hinv _ Hd) as (h & ? & ?). exists h. set_solver.
  - intros h [->|Hh]%elem_of_cons; [|by apply (fi_elem _ _ _ Hinv)].
    split_and!; [done| |lia|by right]. eapply path_trans; [exact Hpx|]. eapply path_step; [done..|constructor].
Qed.

Lemma flatten_push_inv x ps buffer already ordered buffer' already' :
  flat_inv buffer already ordered -> x ∈ ordered -> gc + 1 < he_round x -> ps ⊆ he_parents x ->
  flatten_push G lc ps buffer already = Some (buffer', already') ->
  flat_inv buffer' already' ordered ∧ buffer ⊆ buffer' ∧ already ⊆ already' ∧
  forall p, p ∈ ps -> exists q, G !! p = Some q ∧ (p ∈ already' ∨ superseded lc q).
Proof.
  intros Hinv Hx Hrx. revert buffer already Hinv. induction ps as [|p ps IH]; intros buffer already Hinv Hps; simpl.
  { intros [= <- <-]. split_and!; [done|done|done|set_solver]. }
  intros (q & Hq & Hpush)%bind_Some. destruct (bool_decide (p ∈ already)) eqn:Ed; simpl in Hpush.
  - apply bool_decide_eq_true in Ed. apply IH in Hpush as (? & ? & ? & Hall); [|done|set_solver].
    split_and!; [done..|]. intros p' [->|?]%elem_of_cons; [exists q; split; [done|left; set_solver]|auto].
  - apply bool_decide_eq_false in Ed. destruct (match _ with Some _ => _ | None => _ end) eqn:Es.
    + apply superseded_leb in Es. apply IH in Hpush as (? & ? & ? & Hall); [|done|set_solver].
      split_and!; [done..|]. intros p' [->|?]%elem_of_cons; [exists q; auto|auto].
    + assert (~ superseded lc q) as Hns by (rewrite <- superseded_leb, Es; done).
      apply IH in Hpush as (? & ? & ? & Hall); [|eapply flat_inv_push; eauto; set_solver|set_solver].
      split_and!; [done|set_solver|set_solver|].
      intros p' [->|?]%elem_of_cons; [exists q; split; [done|left; set_solver]|auto].
Qed.

Lemma flatten_loop_inv fuel buffer already ordered l :
  flat_inv buffer already ordered -> (forall h, h ∈ ordered -> closed (buffer ++ ordered) h) ->
  flatten_loop G fuel lc gc buffer already ordered = Finished l ->
  NoDup l ∧ buffer ++ ordered ⊆ l ∧ (forall h, h ∈ l -> selectable h) ∧ forall h, h ∈ l -> closed l h.
Proof.
  revert buffer already ordered. induction fuel as [|fuel IH]; intros [|x buffer] already ordered Hinv Hcl; simpl; try done.
  1,2: intros [= <-]; split_and!; [apply Hinv|done|apply Hinv|done].
  assert (x :: buffer ++ ordered ≡ₚ buffer ++ ordered ++ [x]) as Hperm by solve_Permutation.
  assert (flat_inv buffer already (ordered ++ [x])) as Hinv'.
  { destruct Hinv as [Hn Hd Ha He]. simpl in *. split; setoid_rewrite <- Hperm || rewrite <- Hperm; done. }
  destruct (Z.eqb_spec (he_round x) (gc + 1)) as [Hx|Hx].
  - intros Hl. apply IH in Hl as (? & Hsub & ? & ?); [|done|].
    + split_and!; [done| |done|done]. set_solver.
    + intros h Hh. apply elem_of_app in Hh as [Hh| ->%list_elem_of_singleton]; [|by left].
      destruct (Hcl _ Hh) as [?|Hp]; [by left|right]. intros p Hp'. destruct (Hp p Hp') as (q & ? & Hq). exists q. set_solver.
  - destruct (flatten_push _ _ _ _ _) as [[buffer' already']|] eqn:Ep; [|done].
    destruct (fi_elem _ _ _ Hinv x ltac:(set_solver)) as (Hinx & _ & Hrx & _).
    eapply (flatten_push_inv x) in Ep as (Hinv2 & Hsubb & _ & Hall); [|done|set_solver|lia|done].
    intros Hl. apply IH in Hl as (? & Hsub & ? & ?); [|done|].
    + split_and!; [done| |done|done]. set_solver.
    + intros h Hh. apply elem_of_app in Hh as [Hh| ->%list_elem_of_singleton].
      * destruct (Hcl _ Hh) as [?|Hp]; [by left|right]. intros p Hp'. destruct (Hp p Hp') as (q & ? & Hq). exists q. set_solver.
      * right. intros p Hp. destruct (Hall p Hp) as (q & Hq & [Ha|?]); [|eauto]. exists q. split; [done|left].
        destruct (fi_already _ _ _ Hinv2 _ Ha) as (h & Hh' & <-).
        assert (h = q) as <-; [|done]. destruct (fi_elem _ _ _ Hinv2 _ Hh') as [Hinh _]. unfold in_dag in Hinh. congruence.
Qed.

Lemma flat_inv_start : flat_inv [leader] ∅ [].
Proof.
  split; simpl.
  - apply NoDup_singleton.
  - intros h ->%list_elem_of_singleton. by left.
  - set_solver.
  - intros h ->%list_elem_of_singleton. split_and!; [done|constructor|lia|by left].
Qed.

(** The selection: without repetition and by round, it contains the leader, only
    ancestors of it that are not superseded nor collected, and with a header its
    parents unless they are superseded or collected. *)
Record selection (l : list Header) : Prop := {
  sel_nodup : NoDup l;
  sel_sorted : StronglySorted (key_le he_round) l;
  sel_leader : leader ∈ l;
  sel_elem h : h ∈ l -> selectable h;
  sel_closed h : h ∈ l -> closed l h
}.

Lemma flatten_loop_selection fuel l :
  flatten_loop G fuel lc gc [leader] ∅ [] = Finished l -> selection (stable_sort_by_key he_round l).
Proof.
  intros Hl. apply flatten_loop_inv in Hl as (Hnd & Hsub & Hel & Hcl); [|apply flat_inv_start|set_solver].
  pose proof (stable_sort_by_key_Permutation he_round l) as Hp.
  split.
  - by rewrite Hp.
  - apply stable_sort_by_key_sorted.
  - rewrite Hp. set_solver.
  - intros h Hh. apply Hel. by rewrite <- Hp.
  - intros h Hh. rewrite Hp in Hh. destruct (Hcl _ Hh) as [?|Ha]; [by left|right].
    intros p Hp'. destruct (Ha p Hp') as (q & ? & Hq). exists q. by rewrite Hp.
Qed.
End selection.
