(* ===== verification/ConsensusSample.v ===== *)
(** * A committee of four and a small dag

    Concrete instances for the theorems about consensus: a rotating leader schedule,
    a digest that names round and author, four authorities of equal stake, and a
    check that a list of headers is a certified dag. *)

From S2P Require Import Prelude Bytes Committee DagTypes ConsensusCore Bullshark DagProps.
Local Open Scope Z_scope.
Local Open Scope chase_scope.

(** ** A rotating choice *)

Definition seed_value (seed : list Z) : Z := be_value (reverse (drop 24 seed)).

Definition pick {A} (i : Z) (l : list A) : option A := l !! Z.to_nat (i mod Z.of_nat (length l)).

Lemma pick_elem {A} i (l : list A) x : pick i l = Some x -> x ∈ l.
Proof. unfold pick. apply list_elem_of_lookup_2. Qed.

Lemma pick_some {A} i (l : list A) : l <> [] -> is_Some (pick i l).
Proof.
  intros Hl. unfold pick. apply lookup_lt_is_Some. destruct l as [|x l]; [done|].
  pose proof (Z.mod_pos_bound i (Z.of_nat (length (x :: l)))) as Hb. specialize (Hb ltac:(simpl; lia)). lia.
Qed.

(** The leader of round r is the authority number r/2 + k - 1. *)
Definition rotating_rng (k : Z) : Rng := {|
  rng_choose_weighted seed items := pick (seed_value seed / 2 + k - 1) items;
  rng_choose seed items := pick (seed_value seed) items
|}.

Lemma rotating_rng_laws k : @RngLaws (rotating_rng k).
Proof.
  split; simpl.
  - intros seed items x. apply pick_elem.
  - intros seed items x Hx _. apply pick_some. by intros ->; apply not_elem_of_nil in Hx.
  - intros seed items x. apply pick_elem.
  - done.
  - intros seed items. apply pick_some.
Qed.

(** ** Digests *)

Definition sample_hash : HeaderHash := fun h => he_round h * 65536 + he_author h.

(** ** The committee *)

Definition four_authorities : gmap Z Authority :=
  (add_authority (add_authority (add_authority (add_authority (0, ∅)
     100 1 0 200 "a") 101 1 0 201 "b") 102 1 0 202 "c") 103 1 0 203 "d").2.

Definition four : Committee := default (mkCommittee ∅ ∅ 0 0 0) (Committee_new four_authorities 0).

Lemma four_wf : committee_wf four.
Proof.
  apply (Committee_new_wf four_authorities) with (epoch := 0); [|vm_compute; done|vm_compute; reflexivity].
  change (map_Forall (fun _ a => 0 <= au_stake a) four_authorities).
  repeat (apply map_Forall_insert_2; [done|]). apply map_Forall_empty.
Qed.

(** ** Checking a dag *)

Section check.
Context `{HH : HeaderHash} (c : Committee).

Definition dag_of (hs : list Header) : gmap Z Header := list_to_map ((fun h => (header_digest h, h)) <$> hs).

(** The parents of the header, if all are in the dag. *)
Definition parents_of (G : gmap Z Header) (h : Header) : option (list Header) := mapM (fun p => G !! p) (he_parents h).

Definition check_header (G : gmap Z Header) (hs : list Header) (h : Header) : bool :=
  (1 <=? he_round h) && (he_round h <? u64_modulus)
  && match cm_authorities_by_id c !! he_author h with Some _ => true | None => false end
  && forallb (fun h' => negb ((he_round h =? he_round h') && (he_author h =? he_author h')) || bool_decide (h = h')) hs
  && forallb (fun p => match G !! p with Some q => he_round q =? he_round h - 1 | None => true end) (he_parents h)
  && ((he_round h <? 2)
      || match parents_of G h with
         | Some ps => bool_decide (NoDup (he_author <$> ps)) && (cm_quorum_threshold c <=? stake_sum c (he_author <$> ps))
         | None => false
         end).

Lemma dag_of_lookup hs d h : dag_of hs !! d = Some h -> header_digest h = d ∧ h ∈ hs.
Proof.
  unfold dag_of. intros Hl%elem_of_list_to_map_2. by apply list_elem_of_fmap in Hl as (h' & [= -> ->] & ?).
Qed.

Lemma check_certified hs : forallb (check_header (dag_of hs) hs) hs = true -> certified_dag c (dag_of hs).
Proof.
  rewrite forallb_forall. intros Hall. setoid_rewrite <- list_elem_of_In in Hall.
  assert (forall d h, dag_of hs !! d = Some h -> check_header (dag_of hs) hs h = true) as Hck.
  { intros d h [_ Hh]%dag_of_lookup. by apply Hall. }
  unfold check_header in Hck.
  split.
  - by intros d h [? _]%dag_of_lookup.
  - intros d h Hh. specialize (Hck _ _ Hh). rewrite !andb_true_iff, Z.leb_le, Z.ltb_lt in Hck. tauto.
  - intros d d' h h' Hh [_ Hh']%dag_of_lookup Hr Ha. specialize (Hck _ _ Hh).
    rewrite !andb_true_iff in Hck. destruct Hck as [[[_ Hu] _] _]. rewrite forallb_forall in Hu.
    specialize (Hu h' ltac:(by apply list_elem_of_In)). rewrite Hr, Ha, !Z.eqb_refl in Hu. by apply bool_decide_eq_true in Hu.
  - intros d h Hh. specialize (Hck _ _ Hh). rewrite !andb_true_iff in Hck. destruct Hck as [[[[_ Ha] _] _] _].
    destruct (_ !! he_author h); [eauto|done].
  - intros d h p q Hh Hp Hq. specialize (Hck _ _ Hh). rewrite !andb_true_iff in Hck. destruct Hck as [[_ Hu] _].
    rewrite forallb_forall in Hu. specialize (Hu p ltac:(by apply list_elem_of_In)). rewrite Hq in Hu. by apply Z.eqb_eq.
  - intros d h Hh Hr. specialize (Hck _ _ Hh). rewrite !andb_true_iff in Hck. destruct Hck as [_ Hp].
    destruct (Z.ltb_spec (he_round h) 2); [lia|]. simpl in Hp. destruct (parents_of _ h) as [ps|] eqn:E; [|done].
    apply andb_true_iff in Hp as [Hn%bool_decide_eq_true Hq%Z.leb_le]. exists ps. split; [|done|done].
    by apply mapM_Some in E.
Qed.
End check.

(** ** The dag *)

(** A header of an author and round whose parents are the authors [ps] of the
    round before. *)
Definition header_at (r a : Z) (ps : list Z) : Header :=
  mkHeader a r 0 (1000 + r) [] ((fun p => (r - 1) * 65536 + p) <$> ps).

Definition cert (h : Header) : Certificate := mkCertificate h 0 [0; 1; 2] 0.

Definition all_four : list Z := [0; 1; 2; 3].

(** Round 2 is led by [a]; in round 3 the authors 0 and 1 vote for it, 2 and 3 do
    not; the headers of round 4 do not see author 0 of round 3. *)
Definition split_votes (a : Z) : list Header :=
  ((fun i => header_at 1 i []) <$> all_four) ++ ((fun i => header_at 2 i all_four) <$> all_four)
  ++ ((fun i => header_at 3 i (if i <? 2 then all_four else List.filter (fun p => negb (p =? a)) all_four)) <$> all_four)
  ++ ((fun i => header_at 4 i [1; 2; 3]) <$> all_four) ++ ((fun i => header_at 5 i all_four) <$> all_four).

(** The order of a node that is told of author 0 of round 3 last. *)
Definition late_vote (a : Z) : list Header :=
  List.filter (fun h => negb ((he_round h =? 3) && (he_author h =? 0))) (split_votes a) ++ [header_at 3 0 all_four].

#[local] Existing Instance sample_hash.

Lemma split_votes_certified a : a ∈ all_four -> certified_dag four (dag_of (split_votes a)).
Proof. intros Ha. apply check_certified. unfold all_four in Ha. set_unfold in Ha. by destruct_or! Ha; subst a; vm_compute. Qed.

Lemma late_vote_permutation a : late_vote a ≡ₚ split_votes a.
Proof. unfold late_vote, split_votes. simpl. solve_Permutation. Qed.

Lemma split_votes_in_dag a x :
  a ∈ all_four -> x ∈ cert <$> split_votes a -> certified (dag_of (split_votes a)) x.
Proof.
  intros Ha (h & -> & Hh)%list_elem_of_fmap. assert (Forall (in_dag (dag_of (split_votes a))) (split_votes a)) as Hall.
  { unfold all_four in Ha. set_unfold in Ha. by destruct_or! Ha; subst a; repeat constructor; vm_compute. }
  by eapply Forall_forall in Hall.
Qed.

(** The channels are open, the stores empty and working. *)
Definition sample_channels : ConsensusChannels := mkChannels [] [] [] true true true.
Definition sample_store : ConsensusStore := mkConsensusStore ∅ ∅ ∅ [].
Definition sample_schedule : LeaderSchedule := mkSchedule four LeaderSwapTable_default.
Definition sample_bullshark (new_schedule : bool) (num : Z) : ConsensusProtocol :=
  ProtocolBullshark (Bullshark_new four sample_store new_schedule num sample_schedule).
Definition sample_tusk : ConsensusProtocol := ProtocolTusk (Tusk_new four sample_store sample_schedule).

(** A node of the committee that runs the protocol on the headers. *)
Definition sample_node (p : ConsensusProtocol) : Consensus := mkConsensus four p (ConsensusState_new 50) sample_channels.
Definition sample_run (k : Z) (p : ConsensusProtocol) (hs : list Header) : Consensus :=
  default (sample_node p) (@Consensus_run sample_hash (rotating_rng k) (cert <$> hs) (sample_node p)).
