(* ===== verification/Agreement.v ===== *)
(** * Agreement of the ordering protocols

    Theorems about Bullshark and Tusk with a fixed leader schedule.

    [leader_chain] is the walk of [order_leaders] among all certified headers; [Bullshark_linked]
    decides [path].  [replay] determines the committed sub-dags from the leaders.
    [node_ok] is the invariant of a node: what it has committed is the replay of
    the chain that ends in its last leader.  A leader with enough support is an
    ancestor of every later header ([supported_path]), so the chains of two nodes
    extend each other. *)

From S2P Require Import Prelude Committee DagTypes ConsensusCore Bullshark DagProps ConsensusSample.
Local Open Scope Z_scope.
Local Open Scope chase_scope.

(** ** [Bullshark_linked] decides the existence of a path *)

Lemma reverse_seqZ_S r n : reverse (seqZ r (Z.of_nat (S n))) = (r + Z.of_nat n) :: reverse (seqZ r (Z.of_nat n)).
Proof.
  rewrite Nat2Z.inj_succ, <- Z.add_1_r, seqZ_app, reverse_app by lia.
  rewrite (seqZ_cons (r + Z.of_nat n)), seqZ_nil by lia. done.
Qed.

Section parents.
Context `{HH : HeaderHash} (c : Committee) (Hc : committee_wf c) (G : gmap Z Header) (Hcd : certified_dag c G).

Lemma quorum_positive : 0 < cm_quorum_threshold c.
Proof.
  rewrite (wf_quorum _ Hc). pose proof (wf_total _ Hc). pose proof (Z.div_pos (2 * total_stake c) 3). lia.
Qed.

(** A header of a later round than the first has a parent. *)
Lemma some_parent h : in_dag G h -> 2 <= he_round h -> exists p q, p ∈ he_parents h ∧ G !! p = Some q.
Proof.
  intros Hh Hr. destruct (cd_parents _ _ Hcd _ _ Hh Hr) as [ps [Hps _ Hq]].
  pose proof quorum_positive. destruct ps as [|q ps]; [simpl in Hq; lia|].
  apply Forall2_cons_inv_r in Hps as (p & l & Hp & _ & ->). exists p, q. split; [set_solver|done].
Qed.
End parents.

Section linked.
Context `{HH : HeaderHash} (c : Committee) (Hc : committee_wf c) (G : gmap Z Header) (Hcd : certified_dag c G).
Context (gc : Z) (dag : Dag) (Hgc : 0 <= gc) (Hok : dag_ok G gc dag).

Lemma has_parent_spec x d : has_parent x d = true <-> d ∈ Certificate_parents x.
Proof.
  unfold has_parent. rewrite existsb_exists. setoid_rewrite Z.eqb_eq. setoid_rewrite <- list_elem_of_In.
  split; [by intros (? & ? & ->)|eauto].
Qed.

Lemma Certificate_eq_spec x y : certified G x -> certified G y -> Certificate_eq x y = true <-> ce_header x = ce_header y.
Proof.
  intros Hx Hy. unfold Certificate_eq, Certificate_digest, Certificate_round, Certificate_epoch, Certificate_origin.
  rewrite !andb_true_iff, !Z.eqb_eq. split; [|by intros ->]. intros [[[Hd _] _] _]. by eapply in_dag_digest.
Qed.

Lemma dag_has_unique x y : dag_has dag x -> dag_has dag y -> ce_header x = ce_header y -> x = y.
Proof.
  unfold dag_has, Certificate_round, Certificate_origin. intros (m & Hm & Hx) (m' & Hm' & Hy) He.
  rewrite He in Hm, Hx. congruence.
Qed.

(** Every round from the collected ones to the one of a certificate is there. *)
Lemma dag_rounds n r x : gc < r -> dag_has dag x -> Certificate_round x = r + Z.of_nat n -> is_Some (dag !! r).
Proof.
  intros Hr. revert x. induction n as [|n IH]; intros x Hx Hrx.
  { destruct Hx as (m & Hm & _). exists m. by rewrite Hrx, Z.add_0_r in Hm. }
  destruct (dag_has_certified _ _ _ Hok _ Hx) as [Hcx _].
  destruct (some_parent c Hc G Hcd (ce_header x) Hcx) as (p & q & Hp & Hq); [unfold Certificate_round in Hrx; lia|].
  destruct (in_dag_parent _ _ Hcd _ _ _ Hcx Hp Hq) as [_ Hrq]. change (he_round (ce_header x)) with (Certificate_round x) in Hrq.
  destruct (dag_has_path _ _ Hcd _ _ Hok x q Hx) as (y & Hy & Hyq);
    [eapply path_step; [done..|constructor]|lia|].
  apply (IH y Hy). unfold Certificate_round at 1. rewrite Hyq. lia.
Qed.

(** The certificates of a round below the leader. *)
Definition layer (leader : Certificate) (r : Z) (ps : list Certificate) : Prop :=
  forall y, y ∈ ps <-> dag_has dag y ∧ Certificate_round y = r ∧ path G (ce_header leader) (ce_header y).

Lemma layer_leader leader : dag_has dag leader -> layer leader (Certificate_round leader) [leader].
Proof.
  intros Hl y. rewrite list_elem_of_singleton. split; [intros ->; split_and!; [done|done|constructor]|].
  intros (Hy & Hr & Hp). destruct (decide (ce_header leader = ce_header y)) as [He|Hne]; [by apply dag_has_unique|].
  destruct (path_parent _ _ _ Hp Hne) as (p & q & Hp' & Hq & Hpath).
  destruct (dag_has_certified _ _ _ Hok _ Hl) as [Hcl _].
  destruct (in_dag_parent _ _ Hcd _ _ _ Hcl Hp' Hq) as [Hin Hrq].
  pose proof (path_in_dag _ _ Hcd _ _ Hpath Hin) as [_ ?]. unfold Certificate_round in *. lia.
Qed.

Lemma layer_step leader r ps m :
  dag_has dag leader -> gc < r < Certificate_round leader -> dag !! r = Some m -> layer leader (r + 1) ps ->
  layer leader r (snd <$> List.filter (fun e : Z * Certificate => existsb (fun x => has_parent x e.1) ps) (round_values m)).
Proof.
  intros Hl Hr Hm Hps y. rewrite list_elem_of_fmap. setoid_rewrite list_elem_of_In. setoid_rewrite filter_In.
  setoid_rewrite existsb_exists. setoid_rewrite has_parent_spec. setoid_rewrite <- list_elem_of_In. split.
  - intros ([d y'] & -> & Hin & x & Hx & Hd). simpl in *. apply round_values_elem in Hin as [a Ha].
    destruct (do_entry _ _ _ Hok _ _ _ _ _ Hm Ha) as (Hry & Ho & -> & Hcy).
    apply Hps in Hx as (Hx & _ & Hpx). split_and!; [exists m; by rewrite Hry, Ho|done|].
    eapply path_trans; [exact Hpx|]. eapply path_step; [done|exact Hcy|constructor].
  - intros (Hy & Hry & Hpy). destruct (dag_has_certified _ _ _ Hok _ Hy) as [Hcy _].
    destruct (path_last _ _ _ Hpy) as (q & p & Hq & Hp & Hpq); [intros He; unfold Certificate_round in *; rewrite He in Hr; lia|].
    destruct (dag_has_certified _ _ _ Hok _ Hl) as [Hcl _].
    pose proof (path_in_dag _ _ Hcd _ _ Hq Hcl) as [Hinq _].
    destruct (in_dag_parent _ _ Hcd _ _ _ Hinq Hp Hpq) as [_ Hrq].
    destruct (dag_has_path _ _ Hcd _ _ Hok leader q Hl Hq) as (x & Hx & <-); [unfold Certificate_round in *; lia|].
    destruct Hy as (m' & Hm' & Hay). assert (m' = m) as -> by congruence.
    exists (Certificate_digest y, y). split; [done|]. split.
    + apply (list_elem_of_fmap_2' snd _ (Certificate_origin y, (Certificate_digest y, y))); [|done].
      by apply elem_of_map_to_list.
    + exists x. split; [apply Hps; split_and!; [done|unfold Certificate_round in *; lia|done]|].
      simpl. replace (Certificate_digest y) with p; [done|]. unfold Certificate_digest.
      symmetry. by apply (cd_digest _ _ Hcd).
Qed.

Lemma linked_layers leader n r ps :
  dag_has dag leader -> gc < r -> r + Z.of_nat n <= Certificate_round leader -> layer leader (r + Z.of_nat n) ps ->
  exists ps', foldl (fun acc r =>
      parents ← acc; m ← dag !! r;
      Some (snd <$> List.filter (fun e : Z * Certificate => existsb (fun x => has_parent x e.1) parents) (round_values m)))
    (Some ps) (reverse (seqZ r (Z.of_nat n))) = Some ps' ∧ layer leader r ps'.
Proof.
  intros Hl Hr. revert ps. induction n as [|n IH]; intros ps Hle Hps.
  { exists ps. by rewrite Z.add_0_r in Hps. }
  rewrite reverse_seqZ_S. simpl.
  destruct (dag_rounds (Z.to_nat (Certificate_round leader - (r + Z.of_nat n))) (r + Z.of_nat n) leader) as [m Hm]; [lia|done|lia|].
  rewrite Hm. simpl. apply IH; [lia|]. apply layer_step; [done|lia|done|]. by replace (r + Z.of_nat n + 1) with (r + Z.of_nat (S n)) by lia.
Qed.

(** On certificates of the dag, [Bullshark_linked] does not panic and says whether there is
    a path. *)
Lemma linked_spec leader prev :
  dag_has dag leader -> dag_has dag prev -> Certificate_round prev <= Certificate_round leader ->
  exists b, Bullshark_linked leader prev dag = Some b ∧ (b = true <-> path G (ce_header leader) (ce_header prev)).
Proof.
  intros Hl Hp Hle. destruct (dag_has_certified _ _ _ Hok _ Hp) as [Hcp Hgp].
  destruct (linked_layers leader (Z.to_nat (Certificate_round leader - Certificate_round prev)) (Certificate_round prev) [leader])
    as (ps & Hfold & Hps); [done|lia|lia| |].
  { replace (Certificate_round prev + _) with (Certificate_round leader) by lia. by apply layer_leader. }
  unfold Bullshark_linked. rewrite Z2Nat.id in Hfold by lia. rewrite Hfold. simpl. eexists. split; [done|].
  rewrite existsb_exists. setoid_rewrite <- list_elem_of_In. split.
  - intros (x & Hx & He). apply Hps in Hx as (Hx & _ & Hpath).
    destruct (dag_has_certified _ _ _ Hok _ Hx) as [Hcx _]. apply Certificate_eq_spec in He; [|done|done]. by rewrite <- He.
  - intros Hpath. exists prev. split; [by apply Hps|]. by apply Certificate_eq_spec.
Qed.
End linked.

(** ** Chains of leaders *)

Section chain.
Context `{HH : HeaderHash} (c : Committee) (Hc : committee_wf c) (G : gmap Z Header) (Hcd : certified_dag c G).
Context (elect : Z -> option Z).

(** The certified header of the elected leader of a round. *)
Definition anchor (r : Z) (h : Header) : Prop := in_dag G h ∧ he_round h = r ∧ elect r = Some (he_author h).

(** The leaders that the walk from [h] commits at the rounds [r], [r - 2], ...
    down to [lo]. *)
Inductive leader_chain (lo : Z) : Z -> Header -> list Header -> Prop :=
  | chain_done r h : r < lo -> leader_chain lo r h []
  | chain_hit r h h' l : lo <= r -> anchor r h' -> path G h h' -> leader_chain lo (r - 2) h' l -> leader_chain lo r h (h' :: l)
  | chain_miss r h l : lo <= r -> (forall h', anchor r h' -> ~ path G h h') -> leader_chain lo (r - 2) h l -> leader_chain lo r h l.

(** f+1 of the stake has the header as a parent. *)
Definition supported (h : Header) : Prop := exists hs,
  (forall x, x ∈ hs -> in_dag G x ∧ he_round x = he_round h + 1 ∧ header_digest h ∈ he_parents x) ∧
  NoDup (he_author <$> hs) ∧ cm_validity_threshold c <= stake_sum c (he_author <$> hs).

Lemma anchor_unique r h h' : anchor r h -> anchor r h' -> h = h'.
Proof. intros (? & ? & ?) (? & ? & ?). eapply in_dag_unique; [done..|congruence|congruence]. Qed.

Lemma chain_unique lo r h l l' : leader_chain lo r h l -> leader_chain lo r h l' -> l = l'.
Proof.
  intros Hl. revert l'. induction Hl as [r h Hr|r h h1 l Hr Ha Hp Hl IH|r h l Hr Hno Hl IH]; intros l' Hl';
    inversion Hl' as [|? ? h2 l2 ? Ha2 Hp2 Hl2|? ? ? ? Hno2 Hl2]; subst; try lia; try done.
  - assert (h2 = h1) as -> by by eapply anchor_unique. f_equal. by apply IH.
  - by apply Hno2 in Ha.
  - by apply Hno in Ha2.
  - by apply IH.
Qed.

(** A supported header is an ancestor of every header two rounds later: the
    quorum of parents meets the f+1 supporters. *)
Lemma supported_path h x : in_dag G h -> supported h -> in_dag G x -> he_round h + 2 <= he_round x -> path G x h.
Proof.
  intros Hh (hs & Hhs & Hnd & Hv) Hx Hr.
  assert (forall n x, in_dag G x -> he_round x = he_round h + 2 + Z.of_nat n -> path G x h) as Hn.
  2: { apply (Hn (Z.to_nat (he_round x - he_round h - 2))); [done|lia]. }
  pose proof (in_dag_round _ _ Hcd _ Hh).
  clear x Hx Hr. induction n as [|n IH]; intros x Hx Hrx.
  - destruct (cd_parents _ _ Hcd _ _ Hx ltac:(lia)) as [ps [Hps Hndp Hq]].
    destruct (quorum_validity_intersect c Hc _ _ Hndp Hnd Hq Hv) as (a & Ha & Ha').
    apply list_elem_of_fmap in Ha as (q & -> & Hqin). apply list_elem_of_fmap in Ha' as (q' & Haq & Hq'in).
    apply list_elem_of_lookup in Hqin as [i Hi]. eapply Forall2_lookup_r in Hps as (p & Hpi & Hpq); [|exact Hi].
    apply list_elem_of_lookup_2 in Hpi. destruct (in_dag_parent _ _ Hcd _ _ _ Hx Hpi Hpq) as [Hinq Hrq].
    destruct (Hhs _ Hq'in) as (Hinq' & Hrq' & Hdq').
    assert (q = q') as -> by (eapply in_dag_unique; [done..|lia|done]).
    eapply path_step; [exact Hpi|exact Hpq|]. eapply path_step; [exact Hdq'|exact Hh|constructor].
  - destruct (some_parent c Hc G Hcd x Hx) as (p & q & Hp & Hq); [lia|].
    destruct (in_dag_parent _ _ Hcd _ _ _ Hx Hp Hq) as [Hinq Hrq].
    eapply path_step; [exact Hp|exact Hq|]. apply IH; [done|lia].
Qed.

(** The walk passes through a supported leader, and goes on from there. *)
Lemma chain_through lo r h l ra a :
  leader_chain (ra + 2) r h l -> anchor ra a -> supported a -> in_dag G h -> (r - ra) mod 2 = 0 -> ra <= r -> r + 2 <= he_round h ->
  lo <= ra -> forall l', leader_chain lo (ra - 2) a l' -> leader_chain lo r h (l ++ a :: l').
Proof.
  intros Hl Ha Hs. induction Hl as [r h Hr|r h h1 l Hr Ha1 Hp Hl IH|r h l Hr Hno Hl IH]; intros Hh Hm Hle Hrh Hlo l' Hl'.
  - assert (r = ra) as ->.
    { assert (r - ra = 0 ∨ r - ra = 1) as [?|He] by lia; [lia|]. by rewrite He in Hm. }
    apply chain_hit; [lia|done| |done]. destruct Ha as (? & ? & _). apply supported_path; [done..|lia].
  - apply chain_hit; [lia|done|done|]. destruct Ha1 as (? & Hr1 & _). apply IH; try done; try lia.
    by replace (r - 2 - ra) with (r - ra + (-1) * 2) by lia; rewrite Z.mod_add.
  - apply chain_miss; [lia|done|]. apply IH; try done; try lia.
    by replace (r - 2 - ra) with (r - ra + (-1) * 2) by lia; rewrite Z.mod_add.
Qed.

Lemma chain_split lo r h l ra a :
  leader_chain lo r h l -> anchor ra a -> supported a -> in_dag G h -> (r - ra) mod 2 = 0 -> ra <= r -> r + 2 <= he_round h ->
  lo <= ra -> exists l1 l2, l = l1 ++ a :: l2 ∧ leader_chain lo (ra - 2) a l2.
Proof.
  intros Hl Ha Hs. induction Hl as [r h Hr|r h h1 l Hr Ha1 Hp Hl IH|r h l Hr Hno Hl IH]; intros Hh Hm Hle Hrh Hlo; [lia|..].
  - destruct (decide (r = ra)) as [->|Hne].
    { assert (h1 = a) as -> by by eapply anchor_unique. exists [], l. done. }
    destruct IH as (l1 & l2 & -> & ?); try done.
    + apply Ha1.
    + by replace (r - 2 - ra) with (r - ra + (-1) * 2) by lia; rewrite Z.mod_add.
    + destruct (decide (r - ra = 1)) as [He|]; [by rewrite He in Hm|lia].
    + destruct Ha1 as (_ & ? & _). lia.
    + by exists (h1 :: l1), l2.
  - destruct (decide (r = ra)) as [->|Hne].
    { exfalso. apply (Hno a Ha). destruct Ha as (? & ? & _). apply supported_path; [done..|lia]. }
    apply IH; try done; [..|lia].
    + by replace (r - 2 - ra) with (r - ra + (-1) * 2) by lia; rewrite Z.mod_add.
    + destruct (decide (r - ra = 1)) as [He|]; [by rewrite He in Hm|lia].
Qed.

(** The leaders committed up to and including [a], the latest first. *)
Definition history (a : Header) (l : list Header) : Prop :=
  anchor (he_round a) a ∧ supported a ∧ he_round a mod 2 = 0 ∧ 2 <= he_round a ∧ leader_chain 2 (he_round a - 2) a l.

(** Of two histories, one is a suffix of the other. *)
Lemma history_comparable a l b l' :
  history a l -> history b l' -> he_round a <= he_round b -> exists k, b :: l' = k ++ a :: l.
Proof.
  intros (Ha & Hsa & Hma & Hra & Hla) (Hb & Hsb & Hmb & Hrb & Hlb) Hle.
  destruct (decide (he_round a = he_round b)) as [He|Hne].
  - rewrite He in Ha, Hla. assert (a = b) as -> by by eapply anchor_unique.
    exists []. simpl. f_equal. by eapply chain_unique.
  - assert (he_round a <= he_round b - 2).
    { destruct (decide (he_round b = he_round a + 1)) as [E|]; [|lia]. exfalso. rewrite E, Z.add_mod, Hma in Hmb by done. done. }
    destruct (chain_split 2 _ _ _ (he_round a) a Hlb) as (l1 & l2 & -> & Hl2); [done|done|apply Hb| |lia|lia|lia|].
    + rewrite Zminus_mod, Hma. rewrite (Zminus_mod (he_round b)), Hmb. done.
    + exists (b :: l1). simpl. repeat f_equal. by eapply chain_unique.
Qed.

(** A direct commit extends the history. *)
Lemma history_extend a l b l1 :
  history a l -> anchor (he_round b) b -> supported b -> he_round b mod 2 = 0 -> he_round a < he_round b ->
  leader_chain (he_round a + 2) (he_round b - 2) b l1 -> history b (l1 ++ a :: l).
Proof.
  intros (Ha & Hsa & Hma & Hra & Hla) Hb Hsb Hmb Hlt Hl1. split_and!; [done|done|done|lia|].
  destruct (decide (he_round b = he_round a + 1)) as [E|]; [rewrite E, Z.add_mod, Hma in Hmb by done; done|].
  eapply chain_through; [exact Hl1|done|done|apply Hb| |lia|lia|lia|done].
  rewrite Zminus_mod, Hma. rewrite (Zminus_mod (he_round b)), Hmb. done.
Qed.
(** The leaders of a chain come in descending rounds. *)
Lemma chain_rounds lo hi h l :
  leader_chain lo hi h l -> StronglySorted (fun a b => he_round b < he_round a) l ∧
  forall x, x ∈ l -> lo <= he_round x <= hi.
Proof.
  induction 1 as [r h Hr|r h h1 l Hr (_ & Hr1 & _) Hp Hl [IHs IHr]|r h l Hr Hno Hl [IHs IHr]].
  - split; [constructor|by intros x ?%not_elem_of_nil].
  - split; [constructor; [done|]|].
    + apply Forall_forall. intros x Hx. specialize (IHr x Hx). lia.
    + intros x [->|Hx]%elem_of_cons; [lia|]. specialize (IHr x Hx). lia.
  - split; [done|]. intros x Hx. specialize (IHr x Hx). lia.
Qed.

(** A leader of a chain splits it. *)
Lemma chain_restrict lo r h k a l :
  leader_chain lo r h (k ++ a :: l) -> leader_chain (he_round a + 2) r h k ∧ leader_chain lo (he_round a - 2) a l.
Proof.
  intros Hch. remember (k ++ a :: l) as full eqn:E. revert k E.
  induction Hch as [r h Hr|r h h1 l' Hr Ha1 Hp Hl IH|r h l' Hr Hno Hl IH]; intros k E; [by destruct k| |].
  - destruct k as [|h2 k]; simplify_eq/=.
    + destruct Ha1 as (_ & Hr1 & _). rewrite Hr1. split; [apply chain_done; lia|done].
    + destruct (IH k eq_refl) as [H1 H2]. split; [|done].
      destruct (chain_rounds _ _ _ _ Hl) as [_ Hb]. specialize (Hb a ltac:(set_solver)). apply chain_hit; [lia|done..].
  - subst l'. destruct (IH k eq_refl) as [H1 H2]. split; [|done].
    destruct (chain_rounds _ _ _ _ Hl) as [_ Hb]. specialize (Hb a ltac:(set_solver)). apply chain_miss; [lia|done..].
Qed.

Lemma chain_even lo r h l x : leader_chain lo r h l -> r mod 2 = 0 -> x ∈ l -> he_round x mod 2 = 0.
Proof.
  assert (forall z, (z - 2) mod 2 = z mod 2) as Hz.
  { intros z. replace (z - 2) with (z + (-1) * 2) by lia. by rewrite Z.mod_add. }
  induction 1 as [r h Hr|r h h1 l Hr (_ & Hr1 & _) Hp Hl IH|r h l Hr Hno Hl IH]; intros Hev Hx; [set_solver| |].
  - apply elem_of_cons in Hx as [->|Hx]; [by rewrite Hr1|]. apply IH; [by rewrite Hz|done].
  - apply IH; [by rewrite Hz|done].
Qed.

Lemma history_sorted a l : history a l -> StronglySorted (fun a b => he_round b < he_round a) (a :: l).
Proof.
  intros (_ & _ & _ & _ & Hch). destruct (chain_rounds _ _ _ _ Hch) as [Hs Hb].
  constructor; [done|]. apply Forall_forall. intros x Hx. specialize (Hb x Hx). lia.
Qed.

(** The leaders that a node has committed, the latest first: those of a history, or
    fewer if it stopped before the last ones were committed. *)
Definition committed_leaders (ls : list Header) : Prop :=
  ls = [] ∨ exists a l, history a l ∧ ls `suffix_of` a :: l.

Lemma history_committed a l : history a l -> committed_leaders (a :: l).
Proof. intros Hh. right. by exists a, l. Qed.

Lemma committed_suffix ls ls' : committed_leaders ls -> ls' `suffix_of` ls -> committed_leaders ls'.
Proof.
  intros [->|(a & l & Hh & Hs)] Hs'; [left; by apply suffix_nil_inv in Hs'|]. right. exists a, l. split; [done|]. by etrans.
Qed.

Lemma committed_sorted ls : committed_leaders ls -> StronglySorted (fun a b => he_round b < he_round a) ls.
Proof.
  intros [->|(a & l & Hh & k & Hk)]; [constructor|]. apply history_sorted in Hh. rewrite Hk in Hh.
  by apply StronglySorted_app_1_r in Hh.
Qed.

Lemma committed_head_even a l : committed_leaders (a :: l) -> he_round a mod 2 = 0.
Proof.
  intros [?|(b & l' & (_ & _ & Hev & _ & Hch) & k & Hk)]; [done|]. destruct k as [|? k]; simplify_eq/=; [done|].
  eapply chain_even; [exact Hch| |set_solver]. by rewrite Zminus_mod, Hev.
Qed.

(** Of two suffixes the one with the later leader is the longer one. *)
Lemma suffix_by_round x l y l' full :
  StronglySorted (fun a b => he_round b < he_round a) full -> x :: l `suffix_of` full -> y :: l' `suffix_of` full ->
  he_round x <= he_round y -> x :: l `suffix_of` y :: l'.
Proof.
  intros Hsort H1 H2 Hle. destruct (suffix_weak_total _ _ _ H1 H2) as [?|[k Hk]]; [done|]. destruct k as [|z k]; [by rewrite Hk|].
  destruct H1 as [k1 ->]. apply StronglySorted_app_1_r in Hsort. simplify_eq/=.
  inversion Hsort as [|? ? ? Hall]; subst. rewrite Forall_forall in Hall. specialize (Hall y ltac:(set_solver)). lia.
Qed.

(** Of the leaders of two nodes, the ones are a suffix of the others. *)
Lemma committed_comparable x l y l' :
  committed_leaders (x :: l) -> committed_leaders (y :: l') -> he_round x <= he_round y -> x :: l `suffix_of` y :: l'.
Proof.
  intros [?|(a & k & Ha & Hs)] [?|(b & k' & Hb & Hs')] Hle; [done..|].
  destruct (Z.le_ge_cases (he_round a) (he_round b)) as [Hab|Hab].
  - destruct (history_comparable _ _ _ _ Ha Hb Hab) as [k1 Hk].
    apply (suffix_by_round _ _ _ _ (b :: k')); [by apply history_sorted| |done|done]. etrans; [exact Hs|]. by exists k1.
  - destruct (history_comparable _ _ _ _ Hb Ha Hab) as [k1 Hk].
    apply (suffix_by_round _ _ _ _ (a :: k)); [by apply history_sorted|done| |done]. etrans; [exact Hs'|]. by exists k1.
Qed.

(** A direct commit completes the history. *)
Lemma committed_extend ls b l1 :
  committed_leaders ls -> anchor (he_round b) b -> supported b -> he_round b mod 2 = 0 -> 2 <= he_round b ->
  match ls with [] => 0 | a :: _ => he_round a end < he_round b ->
  leader_chain (match ls with [] => 0 | a :: _ => he_round a end + 2) (he_round b - 2) b l1 -> history b (l1 ++ ls).
Proof.
  intros Hl Hb Hsb Hmb Hge Hlt Hl1. destruct ls as [|h l0]; [rewrite app_nil_r; by split_and!|].
  destruct Hl as [?|(a & l & Ha & k & Hk)]; [done|].
  destruct k as [|a' k]; simplify_eq/=; [by apply (history_extend h l0)|]. rename a' into a.
  pose proof Ha as (Haa & Hsa & Hma & Hra & Hla). pose proof (history_sorted _ _ Ha) as Hsort.
  destruct (chain_restrict _ _ _ _ _ _ Hla) as [Hk1 Hh0].
  destruct (chain_rounds _ _ _ _ Hla) as [_ Hbd]. pose proof (Hbd h ltac:(set_solver)) as Hrh.
  assert (forall x y, x mod 2 = 0 -> y mod 2 = 0 -> (x - 2 - y) mod 2 = 0) as Hev.
  { intros x y Hx Hy. rewrite Zminus_mod, Hy, (Zminus_mod x), Hx. done. }
  assert (forall x y, x mod 2 = 0 -> y mod 2 = 0 -> x < y -> x <= y - 2) as Hstep.
  { intros x y Hx Hy Hxy. destruct (decide (y = x + 1)) as [E|]; [|lia]. rewrite E, Z.add_mod, Hx in Hy by done. done. }
  destruct (Z.lt_trichotomy (he_round b) (he_round a)) as [Hba|[Heq|Hab]].
  - destruct (chain_split 2 _ _ _ (he_round b) b Hla) as (m1 & m2 & Hm & Hm2); [done..|apply Haa|by apply Hev|by apply Hstep|lia|lia|].
    destruct (suffix_by_round h l0 b m2 (a :: k ++ h :: l0)) as [[|b' k2] Hk2]; [done|by exists (a :: k)| |lia|..].
    + exists (a :: m1). simpl. by rewrite Hm.
    + injection Hk2 as -> _. lia.
    + injection Hk2 as <- ->. destruct (chain_restrict _ _ _ _ _ _ Hm2) as [Hk3 _].
      assert (l1 = k2) as -> by by eapply chain_unique. by split_and!.
  - rewrite Heq in Hb, Hl1. assert (b = a) as -> by by eapply anchor_unique.
    assert (l1 = k) as -> by by eapply chain_unique. done.
  - assert (he_round h mod 2 = 0) as Hmh.
    { eapply chain_even; [exact Hla|by rewrite Zminus_mod, Hma|set_solver]. }
    destruct (chain_split _ _ _ _ (he_round a) a Hl1) as (m1 & m2 & -> & Hm2); [done..|apply Hb|by apply Hev|by apply Hstep|lia|lia|].
    assert (m2 = k) as -> by by eapply chain_unique. destruct (chain_restrict _ _ _ _ _ _ Hl1) as [Hm1 _].
    rewrite <- (assoc_L (++)). by apply (history_extend a (k ++ h :: l0)).
Qed.
End chain.

(** ** One step of a node, for either protocol *)

(** A committed sub-dag without the signatures of its certificates; this is what
    the digest of a sub-dag covers. *)
Record CommitView := mkView {
  cv_headers : list Header;
  cv_leader : Header;
  cv_index : Z;
  cv_scores : ReputationScores;
  cv_timestamp : Z
}.

Definition view (d : CommittedSubDag) : CommitView :=
  mkView (ce_header <$> sd_certificates d) (ce_header (sd_leader d)) (sd_index d) (sd_scores d) (sd_timestamp d).

(** The scores of a sub-dag, from the previous sub-dag, the certificates and the
    index. *)
Definition ScoreFn : Type := option CommittedSubDag -> list Certificate -> Z -> option ReputationScores.

Section step.
Context `{HH : HeaderHash} `{Rng} (c : Committee) (sched : LeaderSchedule) (score : ScoreFn).

(** Committing the leaders one after the other. *)
Inductive commits : ConsensusState -> list Certificate -> list CommittedSubDag -> ConsensusState -> Prop :=
  | commits_nil s : commits s [] [] s
  | commits_cons s leader seq sc d leaders ds s' :
      order_dag leader s = Finished seq ->
      score (st_last_sub_dag s) seq (next_sub_dag_index s) = Some sc ->
      d = CommittedSubDag_new seq leader (next_sub_dag_index s) sc (st_last_sub_dag s) ->
      commits (set_last_sub_dag (foldl ConsensusState_update s seq) d) leaders ds s' ->
      commits s (leader :: leaders) (d :: ds) s'.

(** The certificate is inserted and lets a leader commit; [leaders] are to be
    committed in this order. *)
Inductive to_commit (s : ConsensusState) (x : Certificate) (s1 : ConsensusState) : list Certificate -> Prop :=
  | to_commit_leaders authority leader m leaders :
      try_insert x s = Some (s1, Ok true) ->
      (Certificate_round x -u64 1) mod 2 = 0 -> 2 <= Certificate_round x -u64 1 ->
      cr_committed (st_last_round s1) < Certificate_round x -u64 1 ->
      leader_certificate sched (Certificate_round x -u64 1) (st_dag s1) = Some (authority, Some leader) ->
      st_dag s1 !! Certificate_round x = Some m ->
      cm_validity_threshold c <= support_stake c m leader ->
      walk_leaders sched (st_dag s1)
        (rev_step_by_2 (cr_committed (st_last_round s1) +u64 2) (Certificate_round leader -u64 2)) leader [leader] = Some leaders ->
      to_commit s x s1 (reverse leaders).

(** Processing one certificate. *)
Inductive node_step (s : ConsensusState) (x : Certificate) : list CommittedSubDag -> ConsensusState -> Prop :=
  | step_insert s1 b : try_insert x s = Some (s1, Ok b) -> node_step s x [] s1
  | step_commit s1 leaders ds s2 : to_commit s x s1 leaders -> commits s1 leaders ds s2 -> node_step s x ds s2.

Inductive node_steps : ConsensusState -> list Certificate -> list CommittedSubDag -> ConsensusState -> Prop :=
  | steps_nil s : node_steps s [] [] s
  | steps_cons s x xs ds ds' s1 s2 :
      node_step s x ds s1 -> node_steps s1 xs ds' s2 -> node_steps s (x :: xs) (ds ++ ds') s2.
End step.

(** ** Updating the state *)

Definition bump (lc : gmap Z Z) (h : Header) : gmap Z Z :=
  <[he_author h := match lc !! he_author h with Some r => Z.max r (he_round h) | None => he_round h end]> lc.

Section update.
Context `{HH : HeaderHash}.

Lemma update_fields s l :
  let s' := foldl ConsensusState_update s l in
  st_gc_depth s' = st_gc_depth s ∧ st_last_sub_dag s' = st_last_sub_dag s ∧
  cr_committed (st_last_round s') = foldl Z.max (cr_committed (st_last_round s)) (Certificate_round <$> l) ∧
  st_last_committed s' = foldl bump (st_last_committed s) (ce_header <$> l).
Proof.
  revert s. induction l as [|x l IH]; intros s; simpl; [done|].
  destruct (IH (ConsensusState_update s x)) as (-> & -> & -> & ->). done.
Qed.

Lemma update_committed_ge s l :
  cr_committed (st_last_round s) <= cr_committed (st_last_round (foldl ConsensusState_update s l)).
Proof. destruct (update_fields s l) as (_ & _ & -> & _). apply foldl_max_ge_init. Qed.

Lemma update_dag s l :
  l <> [] ->
  let s' := foldl ConsensusState_update s l in
  cr_gc (st_last_round s') = gc_round (cr_committed (st_last_round s')) (st_gc_depth s) ∧
  st_dag s' = filter (fun e : Z * gmap Z (Z * Certificate) => cr_gc (st_last_round s') < e.1) (st_dag s).
Proof.
  revert s. induction l as [|x l IH]; intros s Hne; [done|]. destruct l as [|y l]; [done|].
  set (s1 := ConsensusState_update s x). change (foldl _ s (x :: y :: l)) with (foldl ConsensusState_update s1 (y :: l)).
  destruct (IH s1 ltac:(done)) as [Hg Hd]. split; [exact Hg|].
  rewrite Hd. etrans; [apply map_filter_filter|]. apply map_filter_ext.
  intros r m _. split; [tauto|]. intros Hr. split; [done|]. cbn [fst] in *. rewrite Hg in Hr.
  pose proof (update_committed_ge s1 (y :: l)) as Hge. unfold gc_round, u64_saturating_sub in *.
  cbn [s1 ConsensusState_update st_last_round st_gc_depth cr_committed ConsensusRound_update cr_gc] in *.
  unfold gc_round, u64_saturating_sub. lia.
Qed.

Lemma dag_ok_filter G gc gc' dag :
  dag_ok G gc dag -> gc <= gc' -> dag_ok G gc' (filter (fun e : Z * gmap Z (Z * Certificate) => gc' < e.1) dag).
Proof.
  intros Hok Hle.
  assert (forall r, gc' < r -> filter (fun e : Z * gmap Z (Z * Certificate) => gc' < e.1) dag !! r = dag !! r) as Heq.
  { intros r Hr. destruct (dag !! r) eqn:E; [by apply map_lookup_filter_Some|apply map_lookup_filter_None; auto]. }
  split.
  - intros r m a d x [Hm _]%map_lookup_filter_Some. by apply (do_entry _ _ _ Hok).
  - intros r m [Hm _]%map_lookup_filter_Some. by eapply do_nonempty.
  - intros r m [_ ?]%map_lookup_filter_Some. done.
  - intros r m a d x p [Hm _]%map_lookup_filter_Some Ha Hr Hp.
    destruct (do_parents _ _ _ Hok _ _ _ _ _ p Hm Ha ltac:(lia) Hp) as [y Hy]. exists y.
    unfold find_parent in *. by rewrite Heq by lia.
Qed.

Lemma dag_has_filter gc' dag x :
  dag_has dag x -> gc' < Certificate_round x -> dag_has (filter (fun e : Z * gmap Z (Z * Certificate) => gc' < e.1) dag) x.
Proof. intros (m & Hm & Ha) Hr. exists m. split; [|done]. by apply map_lookup_filter_Some. Qed.
End update.

(** ** The walk of [order_leaders] *)

Lemma rev_step_by_2_unfold lo hi :
  rev_step_by_2 lo hi = if hi <? lo then [] else hi :: rev_step_by_2 lo (hi - 2).
Proof.
  unfold rev_step_by_2. destruct (Z.ltb_spec hi lo); [done|].
  rewrite (seqZ_cons 0) by (pose proof (Z.div_pos (hi - lo) 2); lia). rewrite fmap_cons. f_equal; [lia|].
  replace (Z.pred ((hi - lo) / 2 + 1)) with ((hi - lo) / 2) by lia.
  destruct (Z.ltb_spec (hi - 2) lo).
  - assert (hi - lo = 0 ∨ hi - lo = 1) as [-> | ->] by lia; done.
  - replace ((hi - 2 - lo) / 2 + 1) with ((hi - lo) / 2).
    + replace (Z.succ 0) with (1 + 0) by lia. rewrite <- (fmap_add_seqZ 1 0), <- list_fmap_compose.
      apply list_fmap_ext. intros i x _. simpl. lia.
    + replace (hi - lo) with (hi - 2 - lo + 1 * 2) by lia. rewrite Z.div_add by done. lia.
Qed.

Section walk.
Context `{HH : HeaderHash} `{Rng} (c : Committee) (Hc : committee_wf c) (G : gmap Z Header) (Hcd : certified_dag c G).
Context (sched : LeaderSchedule) (gc : Z) (dag : Dag) (Hgc : 0 <= gc) (Hok : dag_ok G gc dag).

Definition elected (r : Z) : option Z := a ← LeaderSchedule_leader sched r; Authority_id a.

Lemma leader_certificate_some r a x :
  leader_certificate sched r dag = Some (a, Some x) ->
  dag_has dag x ∧ Certificate_round x = r ∧ anchor G elected r (ce_header x).
Proof.
  unfold leader_certificate, anchor, elected. intros (a' & Ha & Hx)%bind_Some.
  destruct (dag !! r) as [m|] eqn:Hm; [|done]. apply bind_Some in Hx as (i & Hi & Hx). injection Hx as -> Hx.
  apply fmap_Some in Hx as ([d y] & Hy & ->). simpl. destruct (do_entry _ _ _ Hok _ _ _ _ _ Hm Hy) as (Hr & Ho & -> & Hcx).
  split_and!; [exists m; by rewrite Hr, Ho|done|done|done|]. rewrite Ha. simpl. by rewrite Hi, <- Ho.
Qed.

(** A leader that is not in the dag is not an ancestor. *)
Lemma leader_certificate_none r a leader :
  leader_certificate sched r dag = Some (a, None) -> dag_has dag leader -> gc < r ->
  forall h, anchor G elected r h -> ~ path G (ce_header leader) h.
Proof.
  intros Hl Hleader Hr h (Hh & Hrh & He) Hp.
  destruct (dag_has_path _ _ Hcd _ _ Hok leader h Hleader Hp ltac:(lia)) as (y & (m & Hm & Hy) & <-).
  unfold leader_certificate, elected in *. apply bind_Some in Hl as (a' & Ha & Hl). rewrite Ha in He. simpl in He.
  unfold Certificate_round in Hm. rewrite Hrh in Hm. rewrite Hm, He in Hl. simpl in Hl.
  unfold Certificate_origin in Hy. by rewrite Hy in Hl.
Qed.

Lemma walk_leaders_spec lo n hi leader acc res :
  hi - lo < 2 * Z.of_nat n -> gc < lo -> dag_has dag leader -> hi + 2 <= Certificate_round leader ->
  walk_leaders sched dag (rev_step_by_2 lo hi) leader acc = Some res ->
  exists l, res = acc ++ l ∧ (forall x, x ∈ l -> dag_has dag x) ∧ leader_chain G elected lo hi (ce_header leader) (ce_header <$> l).
Proof.
  intros Hn Hlo. revert hi leader acc Hn. induction n as [|n IH]; intros hi leader acc Hn Hl Hhi;
    rewrite rev_step_by_2_unfold; destruct (Z.ltb_spec hi lo); simpl; try lia.
  1,2: intros [= <-]; exists []; rewrite app_nil_r; split_and!; [done|set_solver|by constructor].
  intros ([a [prev|]] & Hf & Hw)%bind_Some.
  - destruct (leader_certificate_some _ _ _ Hf) as (Hp & Hrp & Ha).
    destruct (linked_spec c Hc G Hcd gc dag Hgc Hok leader prev Hl Hp ltac:(lia)) as (b & Hb & Hiff).
    rewrite Hb in Hw. simpl in Hw. destruct b.
    + apply IH in Hw as (l & -> & Hin & Hch); [|lia|done|lia]. exists (prev :: l). rewrite <- (assoc_L (++)).
      split_and!; [done|set_solver|]. apply chain_hit; [lia|done|by apply Hiff|done].
    + apply bind_Some in Hw as (_ & _ & Hw). apply IH in Hw as (l & -> & Hin & Hch); [|lia|done|lia].
      exists l. split_and!; [done|done|]. apply chain_miss; [lia| |done].
      intros h Hh Hpath. assert (h = ce_header prev) as -> by by eapply anchor_unique. by apply Hiff in Hpath.
  - apply bind_Some in Hw as (_ & _ & Hw). apply IH in Hw as (l & -> & Hin & Hch); [|lia|done|lia].
    exists l. split_and!; [done|done|]. apply chain_miss; [lia| |done]. eapply leader_certificate_none; [done|done|lia].
Qed.

(** ** Support *)

Lemma foldl_u64_stake_by_id l z :
  0 <= z -> z + stake_sum c ((fun e : Z * Certificate => Certificate_origin e.2) <$> l) < u64_modulus ->
  foldl (fun acc e => acc +u64 stake_by_id c (Certificate_origin (snd (A := Z) e))) z l =
  z + stake_sum c ((fun e : Z * Certificate => Certificate_origin e.2) <$> l).
Proof.
  unfold stake_sum. revert z. induction l as [|e l IH]; intros z Hz Hlt; csimpl in *; [lia|].
  assert (0 <= sum_of (stake_by_id c) ((fun e : Z * Certificate => Certificate_origin e.2) <$> l)).
  { clear -Hc. induction ((fun e : Z * Certificate => Certificate_origin e.2) <$> l) as [|i k IHk]; simpl; [done|].
    pose proof (stake_by_id_pos c Hc i). lia. }
  pose proof (stake_by_id_pos c Hc (Certificate_origin e.2)).
  rewrite u64_add_small by lia. rewrite IH; lia.
Qed.

Lemma round_origins r m : dag !! r = Some m ->
  (fun e : Z * Certificate => Certificate_origin e.2) <$> round_values m = (map_to_list m).*1.
Proof.
  intros Hm. unfold round_values. rewrite <- list_fmap_compose. apply list_fmap_ext.
  intros i [a [d x]] Hi%list_elem_of_lookup_2%elem_of_map_to_list. simpl.
  by destruct (do_entry _ _ _ Hok _ _ _ _ _ Hm Hi) as (_ & ? & _).
Qed.

(** Enough support in the dag of a node is support among the certified headers. *)
Lemma support_stake_supported leader m :
  certified G leader -> dag !! (Certificate_round leader + 1) = Some m ->
  cm_validity_threshold c <= support_stake c m leader -> supported c G (ce_header leader).
Proof.
  intros Hl Hm Hs. set (es := List.filter (fun e : Z * Certificate => has_parent e.2 (Certificate_digest leader)) (round_values m)) in *.
  assert (NoDup ((fun e : Z * Certificate => Certificate_origin e.2) <$> es)) as Hnd.
  { assert (es `sublist_of` round_values m) as Hsub.
    { unfold es. clear. induction (round_values m) as [|e l IH]; simpl; [constructor|]. destruct (has_parent _ _); by constructor. }
    eapply sublist_NoDup; [|apply (fmap_sublist _ _ _ Hsub)]. rewrite (round_origins _ _ Hm). apply NoDup_fst_map_to_list. }
  exists (ce_header ∘ snd <$> es). rewrite <- list_fmap_compose. split_and!.
  - intros h (e & -> & He)%list_elem_of_fmap. apply list_elem_of_In, filter_In in He as [He Hp].
    apply list_elem_of_In in He. destruct e as [d x]. apply round_values_elem in He as [a Ha].
    destruct (do_entry _ _ _ Hok _ _ _ _ _ Hm Ha) as (Hr & _ & _ & Hcx). by apply has_parent_spec in Hp.
  - done.
  - pose proof (stake_sum_le_total c Hc _ Hnd). pose proof (wf_total _ Hc).
    unfold support_stake in Hs. fold es in Hs. rewrite foldl_u64_stake_by_id in Hs; [done|lia|unfold u64_modulus; lia].
Qed.
End walk.

(** ** Replaying leaders *)

Lemma flatten_selection `{HH : HeaderHash} c G depth lc h l :
  certified_dag c G -> in_dag G h -> 1 <= depth -> flatten G depth lc h = Finished l ->
  selection G lc h (gc_round (he_round h) depth) l.
Proof.
  intros Hcd Hh Hd. unfold flatten. destruct (flatten_loop _ _ _ _ _ _ _) as [k| |] eqn:E; [|done|done].
  intros [= <-]. pose proof (in_dag_round _ _ Hcd _ Hh).
  eapply flatten_loop_selection; [done|done| |exact E]. unfold gc_round, u64_saturating_sub. lia.
Qed.

Section replay.
Context `{HH : HeaderHash} (G : gmap Z Header) (score : ScoreFn) (depth : Z).

(** The scores depend on headers only. *)
Definition score_proper : Prop := forall last last' seq seq' i,
  view <$> last = view <$> last' -> ce_header <$> seq = ce_header <$> seq' -> score last seq i = score last' seq' i.

Definition next_index (last : option CommitView) : Z := default 0 (cv_index <$> last) +u64 1.

Definition next_timestamp (last : option CommitView) (h : Header) : Z :=
  Z.max (default 0 (cv_timestamp <$> last)) (he_created_at h).

(** The sub-dags that the leaders commit and the last committed rounds after
    them; both lists have the latest first. *)
Inductive replay : list Header -> list CommitView -> gmap Z Z -> Prop :=
  | replay_nil : replay [] [] ∅
  | replay_cons h ls outs lc certs last sc :
      replay ls outs lc ->
      flatten G depth lc h = Finished (ce_header <$> certs) ->
      view <$> last = head outs ->
      score last certs (next_index (head outs)) = Some sc ->
      replay (h :: ls)
        (mkView (ce_header <$> certs) h (next_index (head outs)) sc (next_timestamp (head outs) h) :: outs)
        (foldl bump lc (ce_header <$> certs)).

Lemma replay_unique ls outs lc outs' lc' :
  score_proper -> replay ls outs lc -> replay ls outs' lc' -> outs = outs' ∧ lc = lc'.
Proof.
  intros Hp Hr. revert outs' lc'. induction Hr as [|h ls outs lc certs last sc Hr IH Hf Hv Hs]; intros outs' lc' Hr';
    inversion Hr' as [|? ? ? ? certs' last' sc' Hr1 Hf1 Hv1 Hs1]; subst; [done|].
  apply IH in Hr1 as [<- <-]. rewrite Hf in Hf1. injection Hf1 as Hcerts.
  rewrite (Hp last last' certs certs') in Hs by congruence. rewrite Hcerts. split; [|done]. congruence.
Qed.

Lemma replay_suffix k ls outs lc :
  replay (k ++ ls) outs lc -> exists o1 o2 lc2, outs = o1 ++ o2 ∧ replay ls o2 lc2.
Proof.
  revert outs lc. induction k as [|h k IH]; intros outs lc Hr; [by exists [], outs, lc|].
  inversion Hr as [|? ? ? ? ? ? ? Hr1]; subst. apply IH in Hr1 as (o1 & o2 & lc2 & -> & ?). by eexists (_ :: o1), o2, lc2.
Qed.

Lemma bump_le M lc l :
  (forall a r, lc !! a = Some r -> r <= M) -> (forall h, h ∈ l -> he_round h <= M) ->
  forall a r, foldl bump lc l !! a = Some r -> r <= M.
Proof.
  revert lc. induction l as [|h l IH]; intros lc Hlc Hl; simpl; [done|]. apply IH; [|set_solver].
  intros a r. unfold bump. pose proof (Hl h ltac:(set_solver)).
  intros [[<- <-]|[_ ?]]%lookup_insert_Some; [|eauto]. destruct (lc !! he_author h) as [r0|] eqn:E; [|done].
  pose proof (Hlc _ _ E). lia.
Qed.
End replay.

Lemma StronglySorted_reverse {A} (R : A -> A -> Prop) l :
  StronglySorted (fun x y => R y x) l -> StronglySorted R (reverse l).
Proof.
  induction 1 as [|x l Hs IH Hx]; [constructor|]. rewrite Forall_forall in Hx. rewrite reverse_cons.
  apply StronglySorted_app_2; [|done|repeat constructor].
  intros y z Hy ->%list_elem_of_singleton. apply Hx. by rewrite elem_of_reverse in Hy.
Qed.

(** ** The invariant of a node *)

Section node.
Context `{HH : HeaderHash} `{Rng} (c : Committee) (Hc : committee_wf c) (G : gmap Z Header) (Hcd : certified_dag c G).
Context (sched : LeaderSchedule) (score : ScoreFn) (Hproper : score_proper score) (depth : Z) (Hdepth : 1 <= depth).
Abbreviation elected := (elected sched).

(** While leaders are being committed: [outs] have been committed, for the
    leaders [ls], the latest first. *)
Record node_mid (s : ConsensusState) (outs : list CommittedSubDag) (ls : list Header) : Prop := {
  nm_dag : dag_ok G (cr_gc (st_last_round s)) (st_dag s);
  nm_gc : cr_gc (st_last_round s) = gc_round (cr_committed (st_last_round s)) depth;
  nm_depth : st_gc_depth s = depth;
  nm_last : st_last_sub_dag s = last outs;
  nm_replay : replay G score depth ls (view <$> reverse outs) (st_last_committed s);
  nm_committed : cr_committed (st_last_round s) = match ls with [] => 0 | h :: _ => he_round h end;
  nm_leaders h : h ∈ ls -> in_dag G h;
  nm_lc a r : st_last_committed s !! a = Some r -> r <= cr_committed (st_last_round s)
}.

(** Between certificates. *)
Definition node_ok (s : ConsensusState) (outs : list CommittedSubDag) : Prop :=
  exists ls, node_mid s outs ls ∧ committed_leaders c G elected ls.

Lemma committed_nonneg s outs ls : node_mid s outs ls -> 0 <= cr_committed (st_last_round s).
Proof.
  intros Hn. rewrite (nm_committed _ _ _ Hn). destruct ls as [|h ls]; [done|].
  pose proof (in_dag_round _ _ Hcd h (nm_leaders _ _ _ Hn h ltac:(set_solver))). lia.
Qed.

Lemma gc_nonneg s outs ls : node_mid s outs ls -> 0 <= cr_gc (st_last_round s).
Proof. intros Hn. rewrite (nm_gc _ _ _ Hn). unfold gc_round, u64_saturating_sub. lia. Qed.

Lemma head_view_reverse outs : head (view <$> reverse outs) = view <$> last outs.
Proof. by destruct outs as [|d outs _] using rev_ind; [|rewrite reverse_snoc, last_snoc]. Qed.

(** The sequence of a leader: the headers of [flatten]. *)
Lemma order_dag_selection s outs ls leader seq :
  node_mid s outs ls -> dag_has (st_dag s) leader -> order_dag leader s = Finished seq ->
  flatten G depth (st_last_committed s) (ce_header leader) = Finished (ce_header <$> seq) ∧
  selection G (st_last_committed s) (ce_header leader) (gc_round (Certificate_round leader) depth) (ce_header <$> seq).
Proof.
  intros Hn Hl Ho. destruct (dag_has_certified _ _ _ (nm_dag _ _ _ Hn) _ Hl) as [Hcl _].
  pose proof (order_dag_refines c G Hcd _ _ (nm_dag _ _ _ Hn) leader s seq eq_refl Hcl) as Hf.
  rewrite (nm_depth _ _ _ Hn) in Hf. specialize (Hf Hdepth Ho). split; [done|]. by eapply flatten_selection.
Qed.

Lemma selection_rounds lc leader gc l z :
  in_dag G leader -> selection G lc leader gc l -> z < he_round leader ->
  (forall h, h ∈ l -> he_round h <= he_round leader) ∧ foldl Z.max z (he_round <$> l) = he_round leader.
Proof.
  intros Hl Hsel Hz.
  assert (forall h, h ∈ l -> he_round h <= he_round leader) as Hmax.
  { intros h Hh. destruct (sel_elem _ _ _ _ _ Hsel h Hh) as (_ & Hp & _ & _). by apply (path_in_dag _ _ Hcd _ _ Hp Hl). }
  split; [done|].
  pose proof (foldl_max_le (he_round <$> l) z (he_round leader)) as H1.
  specialize (H1 ltac:(apply elem_of_cons; right; apply list_elem_of_fmap_2, (sel_leader _ _ _ _ _ Hsel))).
  pose proof (foldl_max_elem_of (he_round <$> l) z) as H2.
  apply elem_of_cons in H2 as [H2|(h & H2 & Hh)%list_elem_of_fmap]; [lia|]. specialize (Hmax h Hh). lia.
Qed.

(** The rounds and the dag after a leader's sequence. *)
Lemma update_sequence s outs ls leader seq :
  node_mid s outs ls -> dag_has (st_dag s) leader -> cr_committed (st_last_round s) < Certificate_round leader ->
  order_dag leader s = Finished seq ->
  let s' := foldl ConsensusState_update s seq in
  cr_committed (st_last_round s') = Certificate_round leader ∧
  cr_gc (st_last_round s') = gc_round (Certificate_round leader) depth ∧
  cr_gc (st_last_round s) <= cr_gc (st_last_round s') ∧
  st_dag s' = filter (fun e : Z * gmap Z (Z * Certificate) => cr_gc (st_last_round s') < e.1) (st_dag s).
Proof.
  intros Hn Hl Hr Ho s'. destruct (order_dag_selection _ _ _ _ _ Hn Hl Ho) as [_ Hsel].
  destruct (dag_has_certified _ _ _ (nm_dag _ _ _ Hn) _ Hl) as [Hcl _].
  destruct (update_fields s seq) as (_ & _ & Hcm & _). fold s' in Hcm.
  destruct (update_dag s seq) as [Hgc Hdag].
  { intros ->. pose proof (sel_leader _ _ _ _ _ Hsel). set_solver. }
  fold s' in Hgc, Hdag.
  replace (Certificate_round <$> seq) with (he_round <$> (ce_header <$> seq)) in Hcm by by rewrite <- list_fmap_compose.
  destruct (selection_rounds _ _ _ _ (cr_committed (st_last_round s)) Hcl Hsel Hr) as [_ Hmax]. rewrite Hmax in Hcm.
  rewrite Hcm, (nm_depth _ _ _ Hn) in Hgc. split_and!; [done|done| |done].
  rewrite Hgc, (nm_gc _ _ _ Hn). unfold gc_round, u64_saturating_sub, Certificate_round in *. lia.
Qed.

(** Committing one leader. *)
Lemma commit_leader_step s outs ls leader seq sc d :
  node_mid s outs ls -> dag_has (st_dag s) leader -> cr_committed (st_last_round s) < Certificate_round leader ->
  order_dag leader s = Finished seq ->
  score (st_last_sub_dag s) seq (next_sub_dag_index s) = Some sc ->
  d = CommittedSubDag_new seq leader (next_sub_dag_index s) sc (st_last_sub_dag s) ->
  let s' := set_last_sub_dag (foldl ConsensusState_update s seq) d in
  node_mid s' (outs ++ [d]) (ce_header leader :: ls) ∧
  forall x, dag_has (st_dag s) x -> Certificate_round leader < Certificate_round x -> dag_has (st_dag s') x.
Proof.
  intros Hn Hl Hr Ho Hs -> s'.
  destruct (dag_has_certified _ _ _ (nm_dag _ _ _ Hn) _ Hl) as [Hcl _].
  destruct (order_dag_selection _ _ _ _ _ Hn Hl Ho) as [Hf Hsel].
  destruct (update_fields s seq) as (Hd & Hsd & _ & Hlc).
  destruct (update_sequence _ _ _ _ _ Hn Hl Hr Ho) as (Hcm & Hgc & Hgcle & Hdag).
  destruct (selection_rounds _ _ _ _ _ Hcl Hsel Hr) as [Hmax _].
  split; [split|]; cbn [s' set_last_sub_dag st_last_round st_dag st_gc_depth st_last_sub_dag st_last_committed].
  - rewrite Hdag. by apply (dag_ok_filter G (cr_gc (st_last_round s))), Hgcle; apply Hn.
  - by rewrite Hgc, Hcm.
  - by rewrite Hd, (nm_depth _ _ _ Hn).
  - by rewrite last_snoc.
  - rewrite reverse_snoc, Hlc. cbn [fmap list_fmap].
    pose proof (replay_cons G score depth (ce_header leader) ls _ _ seq (st_last_sub_dag s) sc (nm_replay _ _ _ Hn) Hf) as Hrp.
    rewrite head_view_reverse, <- (nm_last _ _ _ Hn) in Hrp. specialize (Hrp eq_refl).
    replace (next_index (view <$> st_last_sub_dag s)) with (next_sub_dag_index s) in Hrp
      by (unfold next_index, next_sub_dag_index; by destruct (st_last_sub_dag s)).
    specialize (Hrp Hs). replace (next_timestamp _ _) with
      (sd_timestamp (CommittedSubDag_new seq leader (next_sub_dag_index s) sc (st_last_sub_dag s))) in Hrp
      by (unfold next_timestamp; simpl; by destruct (st_last_sub_dag s)).
    exact Hrp.
  - by rewrite Hcm.
  - intros h [->|Hh]%elem_of_cons; [done|by apply Hn].
  - rewrite Hcm, Hlc. apply bump_le; [|done]. intros a r Ha. pose proof (nm_lc _ _ _ Hn a r Ha). lia.
  - intros x Hx Hrx. rewrite Hdag. apply dag_has_filter; [done|]. rewrite Hgc. unfold gc_round, u64_saturating_sub.
    pose proof (in_dag_round _ _ Hcd _ Hcl). unfold Certificate_round in *. lia.
Qed.

Lemma commits_ok s outs ls leaders ds s' :
  commits score s leaders ds s' -> node_mid s outs ls ->
  (forall x, x ∈ leaders -> dag_has (st_dag s) x ∧ cr_committed (st_last_round s) < Certificate_round x) ->
  StronglySorted (fun x y => Certificate_round x < Certificate_round y) leaders ->
  node_mid s' (outs ++ ds) (reverse (ce_header <$> leaders) ++ ls).
Proof.
  intros Hco. revert outs ls. induction Hco as [s|s leader seq sc d leaders ds s' Ho Hs Hd Hco IH]; intros outs ls Hn Hl Hsort.
  { by rewrite app_nil_r. }
  destruct (Hl leader ltac:(set_solver)) as [Hleader Hr]. inversion Hsort as [|? ? Hsort' Hlt]; subst.
  rewrite Forall_forall in Hlt.
  destruct (commit_leader_step _ _ _ _ _ _ _ Hn Hleader Hr Ho Hs eq_refl) as [Hn' Hkeep].
  apply IH in Hn'; [|clear IH|done].
  - rewrite <- (assoc_L (++)) in Hn'. cbn [fmap list_fmap]. by rewrite reverse_cons, <- (assoc_L (++)).
  - intros x Hx. split; [apply Hkeep; [apply Hl; set_solver|by apply Hlt]|].
    rewrite (nm_committed _ _ _ Hn'). by apply Hlt.
Qed.
(** Inserting a certificate. *)
Lemma try_insert_ok s outs ls x s' r :
  node_mid s outs ls -> certified G x -> try_insert x s = Some (s', r) ->
  node_mid s' outs ls ∧ st_last_round s' = st_last_round s ∧ (exists b, r = Ok b) ∧
  (r = Ok true -> dag_has (st_dag s') x ∧ cr_gc (st_last_round s) < Certificate_round x).
Proof.
  intros Hn Hx. unfold try_insert. intros ([dag r'] & Hi & Hr)%bind_Some. injection Hr as <- <-.
  destruct (try_insert_in_dag_ok c G Hcd _ _ _ _ _ _ (nm_dag _ _ _ Hn) (gc_nonneg _ _ _ Hn) Hx Hi)
    as [(-> & -> & _)|(-> & Hok & Hgc & ->)].
  - split_and!; [by destruct Hn; split|done|eauto|done].
  - split_and!; [by destruct Hn; split|done|eauto|]. intros _. split; [apply dag_insert_has|done].
Qed.

Lemma init_ok : node_ok (ConsensusState_new depth) [].
Proof.
  exists []. split; [|by left]. split; try done.
  - simpl. unfold gc_round, u64_saturating_sub. lia.
  - constructor.
  - by intros h ?%not_elem_of_nil.
Qed.

(** The leaders that a direct commit commits. *)
Lemma walk_ok s outs ls leader leaders :
  node_mid s outs ls -> committed_leaders c G elected ls ->
  dag_has (st_dag s) leader -> anchor G elected (Certificate_round leader) (ce_header leader) ->
  supported c G (ce_header leader) -> Certificate_round leader mod 2 = 0 -> 2 <= Certificate_round leader ->
  cr_committed (st_last_round s) < Certificate_round leader ->
  walk_leaders sched (st_dag s)
    (rev_step_by_2 (cr_committed (st_last_round s) +u64 2) (Certificate_round leader -u64 2)) leader [leader] = Some leaders ->
  (forall x, x ∈ leaders -> dag_has (st_dag s) x ∧ cr_committed (st_last_round s) < Certificate_round x) ∧
  StronglySorted (fun x y => Certificate_round y < Certificate_round x) leaders ∧
  exists a l, (ce_header <$> leaders) ++ ls = a :: l ∧ history c G elected a l.
Proof.
  intros Hn Hh Hl Ha Hs Hev Hge Hlt. pose proof (committed_nonneg _ _ _ Hn) as Hc0.
  destruct (dag_has_certified _ _ _ (nm_dag _ _ _ Hn) _ Hl) as [Hcl _].
  pose proof (in_dag_round _ _ Hcd _ Hcl) as Hrl. change (he_round (ce_header leader)) with (Certificate_round leader) in Hrl.
  assert (cr_committed (st_last_round s) mod 2 = 0) as Hcev.
  { rewrite (nm_committed _ _ _ Hn). destruct ls as [|a l]; [done|]. by eapply committed_head_even. }
  assert (cr_committed (st_last_round s) + 2 <= Certificate_round leader) as Hle2.
  { destruct (decide (Certificate_round leader = cr_committed (st_last_round s) + 1)) as [E|]; [|lia].
    rewrite E, Z.add_mod, Hcev in Hev by done. done. }
  rewrite u64_add_small by (unfold u64_modulus in *; lia). unfold u64_sub. rewrite (Z.mod_small (_ - _)) by lia.
  assert (cr_gc (st_last_round s) < cr_committed (st_last_round s) + 2) as Hgc.
  { rewrite (nm_gc _ _ _ Hn). unfold gc_round, u64_saturating_sub. lia. }
  intros (l & -> & Hin & Hch)%(walk_leaders_spec c Hc G Hcd sched _ _ (gc_nonneg _ _ _ Hn) (nm_dag _ _ _ Hn) _
    (Z.to_nat (Certificate_round leader))); [|lia|done|done|lia].
  destruct (chain_rounds _ _ _ _ _ _ Hch) as [Hsort Hbounds].
  assert (forall x, x ∈ l -> cr_committed (st_last_round s) + 2 <= Certificate_round x <= Certificate_round leader - 2) as Hb.
  { intros x Hx. apply Hbounds. by apply list_elem_of_fmap_2. }
  split_and!.
  - intros x [->|Hx]%elem_of_cons; [split; [done|lia]|]. split; [by apply Hin|]. specialize (Hb x Hx). lia.
  - constructor; [|apply Forall_forall; intros x Hx; specialize (Hb x Hx); lia].
    clear -Hsort. induction l as [|x l IH]; [constructor|]. cbn [fmap list_fmap] in Hsort. inversion Hsort as [|? ? ? Hx]; subst.
    constructor; [by apply IH|]. by apply Forall_fmap in Hx.
  - exists (ce_header leader), ((ce_header <$> l) ++ ls). split; [done|]. rewrite (nm_committed _ _ _ Hn) in Hch, Hlt.
    by apply (committed_extend c Hc G Hcd elected).
Qed.

(** The leaders to commit are there, and complete the history. *)
Lemma to_commit_ok s outs ls x s1 leaders :
  node_mid s outs ls -> committed_leaders c G elected ls -> certified G x -> to_commit c sched s x s1 leaders ->
  node_mid s1 outs ls ∧ (forall y, y ∈ leaders -> dag_has (st_dag s1) y ∧ cr_committed (st_last_round s1) < Certificate_round y) ∧
  StronglySorted (fun y z => Certificate_round y < Certificate_round z) leaders ∧
  committed_leaders c G elected (reverse (ce_header <$> leaders) ++ ls).
Proof.
  intros Hn Hh Hx Hto. destruct Hto as [authority leader m leaders Hi Hev Hge Hlt Hf Hm Hsup Hw].
  destruct (try_insert_ok _ _ _ _ _ _ Hn Hx Hi) as (Hn1 & Hlr & _ & Hhas). destruct (Hhas eq_refl) as [Hxd _].
  pose proof (in_dag_round _ _ Hcd _ Hx) as Hrx. change (he_round (ce_header x)) with (Certificate_round x) in Hrx.
  unfold u64_sub in *. rewrite (Z.mod_small (Certificate_round x - 1)) in * by lia.
  destruct (leader_certificate_some G sched _ _ (nm_dag _ _ _ Hn1) _ _ _ Hf) as (Hld & Hrl & Ha).
  destruct (dag_has_certified _ _ _ (nm_dag _ _ _ Hn1) _ Hld) as [Hcl _].
  assert (supported c G (ce_header leader)) as Hs.
  { eapply (support_stake_supported c Hc G _ _ (nm_dag _ _ _ Hn1)); [done| |done].
    by replace (Certificate_round leader + 1) with (Certificate_round x) by lia. }
  rewrite <- Hrl in Ha, Hev, Hge, Hlt.
  destruct (walk_ok _ _ _ _ _ Hn1 Hh Hld Ha Hs Hev Hge Hlt Hw) as (Hin & Hsort & a & l & He & Hhist).
  split_and!; [done| |by apply StronglySorted_reverse|].
  - intros y Hy. apply Hin. by rewrite elem_of_reverse in Hy.
  - rewrite fmap_reverse, reverse_involutive, He. by apply history_committed.
Qed.

Lemma node_step_ok s outs x ds s' :
  node_ok s outs -> certified G x -> node_step c sched score s x ds s' -> node_ok s' (outs ++ ds).
Proof.
  intros (ls & Hn & Hh) Hx [s1 b Hi|s1 leaders ds' s2 Hto Hco].
  { destruct (try_insert_ok _ _ _ _ _ _ Hn Hx Hi) as (Hn1 & _). rewrite app_nil_r. by exists ls. }
  destruct (to_commit_ok _ _ _ _ _ _ Hn Hh Hx Hto) as (Hn1 & Hin & Hsort & Hhist).
  eexists. split; [by eapply commits_ok|done].
Qed.

Lemma node_steps_ok s outs xs ds s' :
  node_steps c sched score s xs ds s' -> node_ok s outs -> Forall (certified G) xs -> node_ok s' (outs ++ ds).
Proof.
  intros Hs. revert outs. induction Hs as [s|s x xs ds ds' s1 s2 Hx Hxs IH]; intros outs Hn Hall; [by rewrite app_nil_r|].
  inversion Hall; subst. rewrite (assoc_L (++)). apply IH; [|done]. by eapply node_step_ok.
Qed.

(** The commits of two nodes extend each other. *)
Lemma replays_agree outs ls lc outs' ls' lc' :
  replay G score depth ls (view <$> reverse outs) lc -> replay G score depth ls' (view <$> reverse outs') lc' ->
  committed_leaders c G elected ls -> committed_leaders c G elected ls' ->
  (forall h, h ∈ ls -> in_dag G h) ->
  match ls with [] => 0 | h :: _ => he_round h end <= match ls' with [] => 0 | h :: _ => he_round h end ->
  (view <$> outs) `prefix_of` (view <$> outs').
Proof.
  intros Hr Hr' Hh Hh' Hin Hle.
  assert (exists k, ls' = k ++ ls) as [k Hk].
  { destruct ls as [|a l]; [exists ls'; by rewrite app_nil_r|]. destruct ls' as [|b l'].
    - pose proof (in_dag_round _ _ Hcd a (Hin a ltac:(set_solver))). lia.
    - by apply (committed_comparable c Hc G Hcd elected). }
  rewrite Hk in Hr'. apply replay_suffix in Hr' as (o1 & o2 & lc2 & Ho & Hr').
  destruct (replay_unique _ _ _ _ _ _ _ _ Hproper Hr Hr') as [<- _].
  exists (reverse o1). apply (inj reverse). rewrite reverse_app, reverse_involutive, <- !fmap_reverse. done.
Qed.

Lemma node_ok_agree s outs s' outs' :
  node_ok s outs -> node_ok s' outs' -> cr_committed (st_last_round s) <= cr_committed (st_last_round s') ->
  (view <$> outs) `prefix_of` (view <$> outs').
Proof.
  intros (ls & Hn & Hh) (ls' & Hn' & Hh') Hle. rewrite (nm_committed _ _ _ Hn), (nm_committed _ _ _ Hn') in Hle.
  eapply replays_agree; [apply Hn|apply Hn'|done|done|apply Hn|done].
Qed.
End node.

(** ** The protocols take steps of a node *)

Definition bullshark_score `{HeaderHash} (c : Committee) (num : Z) : ScoreFn := fun last seq i =>
  resolve_reputation_score (Bullshark_new c (mkConsensusStore ∅ ∅ ∅ []) false num (mkSchedule c LeaderSwapTable_default))
    (mkState (mkRound 0 0) 0 ∅ last LeaderSwapTable_default ∅) seq i.

Definition tusk_score (c : Committee) : ScoreFn := fun _ _ _ => ReputationScores_new c.

Section engines.
Context `{HH : HeaderHash} `{Rng}.

Lemma score_votes_proper leader leader' seq seq' s :
  ce_header leader = ce_header leader' -> ce_header <$> seq = ce_header <$> seq' ->
  score_votes leader seq s = score_votes leader' seq' s.
Proof.
  intros Hl. unfold score_votes. unfold Certificate_digest at 1 2. rewrite Hl. revert seq' s.
  induction seq as [|x seq IH]; intros [|x' seq'] s Hs; try done. cbn [fmap list_fmap] in Hs. injection Hs as Hx Hs.
  simpl. unfold has_parent at 2 4, Certificate_parents, Certificate_origin at 2 4. rewrite Hx. by apply IH.
Qed.

Lemma bullshark_score_proper c num : score_proper (bullshark_score c num).
Proof.
  intros last last' seq seq' i Hl Hs. unfold bullshark_score, resolve_reputation_score. simpl.
  destruct last as [d|], last' as [d'|]; try done; simpl in *.
  injection Hl as _ Hl _ Hsc _. rewrite Hsc.
  destruct (if _ =? 1 then _ else _) as [reset|]; [|done]. simpl.
  destruct (if reset then _ else _) as [base|]; [|done]. simpl. by rewrite (score_votes_proper _ (sd_leader d') _ seq').
Qed.

Lemma tusk_score_proper c : score_proper (tusk_score c).
Proof. done. Qed.

(** What a schedule-preserving step leaves of the engine. *)
Definition bs_same (b b' : Bullshark) : Prop :=
  bs_committee b' = bs_committee b ∧ bs_new_leader_election_schedule b' = bs_new_leader_election_schedule b ∧
  bs_num_sub_dags_per_schedule b' = bs_num_sub_dags_per_schedule b ∧ bs_leader_schedule b' = bs_leader_schedule b.

Lemma Bullshark_commit_leader_inv leader b s b' s' r :
  bs_new_leader_election_schedule b = false ->
  Bullshark_commit_leader leader (b, s) = Some ((b', s'), r) ->
  bs_same b b' ∧
  match r with
  | Err e => exists e' lc d, e = StoreError e' ∧ write_consensus_state lc d (bs_store b) = (bs_store b', Err e')
  | Ok d => exists seq sc,
      order_dag leader s = Finished seq ∧
      bullshark_score (bs_committee b) (bs_num_sub_dags_per_schedule b) (st_last_sub_dag s) seq (next_sub_dag_index s) = Some sc ∧
      d = CommittedSubDag_new seq leader (next_sub_dag_index s) sc (st_last_sub_dag s) ∧
      s' = set_last_sub_dag (foldl ConsensusState_update s seq) d ∧
      write_consensus_state (st_last_committed s') d (bs_store b) = (bs_store b', Ok tt)
  end.
Proof.
  intros Hflag. unfold Bullshark_commit_leader. intros Hb. em_pure Hb.
  apply em_bind_inv in Hb as [(s1 & seq & Hm & Hb)|(e & Hm & _)]; [|by destruct (order_dag leader s)].
  destruct (order_dag leader s) as [seq'| |] eqn:Ho; [|done|done]. injection Hm as <- <-.
  em_value Hb as sc Hsc. destruct (update_fields s seq') as (_ & Hsd & _). rewrite Hsd in Hb.
  assert (bullshark_score (bs_committee b) (bs_num_sub_dags_per_schedule b) (st_last_sub_dag s) seq' (next_sub_dag_index s) = Some sc) as Hscore.
  { rewrite <- Hsc. unfold bullshark_score, resolve_reputation_score. simpl. by rewrite Hsd. }
  destruct (write_consensus_state _ _ _) as [store [[]|e]] eqn:Hw; em_pure Hb.
  - unfold update_leader_schedule in Hb. cbn [bs_set_store bs_new_leader_election_schedule] in Hb. rewrite Hflag in Hb.
    em_pure Hb. simpl in Hb. em_pure Hb. injection Hb as <- <- <-. split; [done|]. exists seq', sc. by split_and!.
  - injection Hb as <- <- <-. split; [done|]. by eauto 10.
Qed.

Lemma bs_same_trans b1 b2 b3 : bs_same b1 b2 -> bs_same b2 b3 -> bs_same b1 b3.
Proof. intros (? & ? & ? & ?) (? & ? & ? & ?). repeat split; congruence. Qed.

Lemma Bullshark_commits leaders b s b' s' r :
  bs_new_leader_election_schedule b = false ->
  em_iter Bullshark_commit_leader leaders (b, s) = Some ((b', s'), r) ->
  bs_same b b' ∧
  match r with
  | Err e => exists e', e = StoreError e'
  | Ok ds => commits (bullshark_score (bs_committee b) (bs_num_sub_dags_per_schedule b)) s leaders ds s'
  end.
Proof.
  revert b s b' s' r. induction leaders as [|leader leaders IH]; intros b s b' s' r Hflag Hi; simpl in Hi.
  { injection Hi as <- <- <-. split; [done|constructor]. }
  apply em_bind_inv in Hi as [([b1 s1] & d & Hd & Hi)|(e & Hd & ->)];
    apply Bullshark_commit_leader_inv in Hd as [Hsame Hd]; [|done| |done]; [|destruct Hd as (e' & _ & _ & -> & _); by eauto].
  pose proof Hsame as (Hc & Hf & Hnum & Hsch).
  apply em_bind_inv in Hi as [([b2 s2] & ds & Hds & Hi)|(e & Hds & ->)];
    apply IH in Hds as [Hsame' Hds]; [|congruence| |congruence].
  - injection Hi as <- <- <-. split; [by eapply bs_same_trans|]. rewrite Hc, Hnum in Hds.
    destruct Hd as (seq & sc & Ho & Hsc & -> & -> & _). by eapply commits_cons.
  - split; [by eapply bs_same_trans|done].
Qed.

Lemma try_insert_error x s s' e :
  try_insert x s = Some (s', Err e) -> exists y z, e = CertificateEquivocation y z.
Proof.
  unfold try_insert, try_insert_in_dag. case_match; [done|]. destruct (check_parents _ _ _); [|done]. simpl.
  repeat case_match; simpl; intros ?; simplify_eq; eauto.
Qed.

(** How an engine processes a certificate: it inserts it, and perhaps commits leaders
    one after the other. *)
Definition processed {E} (f : Certificate -> EM (E * ConsensusState) ConsensusError CommittedSubDag) (store : E -> ConsensusStore)
    (same : E -> E -> Prop) (c : Committee) (sched : LeaderSchedule) (x : Certificate) (e : E) (s : ConsensusState)
    (e' : E) (s' : ConsensusState) (r : Result (ConsensusOutcome * list CommittedSubDag) ConsensusError) : Prop :=
  (exists ins, try_insert x s = Some (s', ins) ∧ same e e' ∧ store e' = store e ∧
    match r with Ok (_, ds) => ds = [] ∧ exists b, ins = Ok b | Err err => ins = Err err end) ∨
  (exists s1 leaders e1 res, to_commit c sched s x s1 leaders ∧ same e e1 ∧ store e1 = store e ∧
    em_iter f leaders (e1, s1) = Some ((e', s'), res) ∧
    match r with Ok (_, ds) => res = Ok ds | Err err => res = Err err end).

(** Bullshark without schedule changes. *)
Lemma Bullshark_processed x b s b' s' r :
  Bullshark_process_certificate x (b, s) = Some ((b', s'), r) ->
  processed Bullshark_commit_leader bs_store bs_same (bs_committee b) (bs_leader_schedule b) x b s b' s' r.
Proof.
  unfold Bullshark_process_certificate. intros Hb.
  apply em_bind_inv in Hb as [([b1 s1] & ins & Hi & Hb)|(e & Hi & ->)].
  2: { unfold em_snd in Hi. apply bind_Some in Hi as ([s1 r1] & Hi & [= <- <- ->]). left. eexists. split; [exact Hi|]. done. }
  unfold em_snd in Hi. apply bind_Some in Hi as ([s1' r1] & Hi & Hi2). injection Hi2 as <- <- ->.
  destruct ins; simpl in Hb; [|injection Hb as <- <- <-; left; eexists; split; [exact Hi|]; repeat split; by eauto].
  em_pure Hb. em_value Hb as b2 Hb2. em_pure Hb.
  unfold Bullshark_report_leader_on_time_metrics in Hb2. apply bind_Some in Hb2 as (mx & _ & [= <-]).
  destruct (negb _ || _) eqn:E1; [injection Hb as <- <- <-; left; eexists; split; [exact Hi|]; repeat split; by eauto|].
  destruct (_ <=? _) eqn:E2; [injection Hb as <- <- <-; left; eexists; split; [exact Hi|]; repeat split; by eauto|].
  apply orb_false_iff in E1 as [E1%negb_false_iff%Z.eqb_eq E3%Z.ltb_ge]. apply Z.leb_gt in E2.
  em_value Hb as found Hf. destruct found as [authority [leader|]]; [|injection Hb as <- <- <-; left; eexists; split; [exact Hi|]; repeat split; by eauto].
  em_value Hb as m Hm. cbn [bs_set_max_inserted bs_committee bs_leader_schedule] in *.
  destruct (_ <? _) eqn:E4; [injection Hb as <- <- <-; left; eexists; split; [exact Hi|]; repeat split; by eauto|]. apply Z.ltb_ge in E4.
  em_value Hb as leaders Hl. unfold Bullshark_order_leaders in Hl. case_match; [done|].
  apply bind_Some in Hl as (leaders' & Hw & (_ & _ & [= ->])%bind_Some). right.
  exists s1', (reverse leaders). apply em_bind_inv in Hb as [([b3 s3] & ds & Hds & Hb)|(e & Hds & ->)].
  - injection Hb as <- <- <-. do 2 eexists. split; [by econstructor|]. split; [|split; [|split; [exact Hds|done]]]; done.
  - do 2 eexists. split; [by econstructor|]. split; [|split; [|split; [exact Hds|done]]]; done.
Qed.

(** It takes steps of a node. *)
Lemma Bullshark_process_step x b s b' s' r :
  bs_new_leader_election_schedule b = false ->
  Bullshark_process_certificate x (b, s) = Some ((b', s'), r) ->
  match r with
  | Err e => e <> ShuttingDown
  | Ok (_, ds) => bs_same b b' ∧
      node_step (bs_committee b) (bs_leader_schedule b)
        (bullshark_score (bs_committee b) (bs_num_sub_dags_per_schedule b)) s x ds s'
  end.
Proof.
  intros Hflag Hb. apply Bullshark_processed in Hb as [(ins & Hi & Hsame & _ & Hr)|(s1 & leaders & b1 & res & Hto & Hsame & _ & Hit & Hr)].
  - destruct r as [[o ds]|e]; [destruct Hr as [-> [ok ->]]; split; [done|by eapply step_insert]|].
    subst ins. apply try_insert_error in Hi as (? & ? & ->). done.
  - pose proof Hsame as (Hc & Hf & Hnum & _). apply Bullshark_commits in Hit as [Hsame' Hit]; [|congruence].
    destruct r as [[o ds]|e]; subst res; [|by destruct Hit as [? ->]]. rewrite Hc, Hnum in Hit.
    split; [by eapply bs_same_trans|]. by eapply step_commit.
Qed.
(** *** Tusk *)

Lemma Tusk_walk_leaders_eq sched dag rounds leader acc :
  Tusk_walk_leaders sched dag rounds leader acc = walk_leaders sched dag rounds leader acc.
Proof.
  revert leader acc. induction rounds as [|r rounds IH]; intros leader acc; simpl; [done|].
  destruct (leader_certificate sched r dag) as [[a [prev|]]|]; simpl; [|by destruct (Authority_hostname a); simpl|done].
  change (Tusk_linked leader prev dag) with (Bullshark_linked leader prev dag).
  destruct (Bullshark_linked leader prev dag) as [[]|]; simpl; [done| |done]. by destruct (Authority_hostname a); simpl.
Qed.

Definition tk_same (t t' : Tusk) : Prop :=
  tk_committee t' = tk_committee t ∧ tk_leader_schedule t' = tk_leader_schedule t.

Lemma Tusk_commit_leader_inv leader t s t' s' r :
  Tusk_commit_leader leader (t, s) = Some ((t', s'), r) ->
  tk_same t t' ∧
  match r with
  | Err e => exists e' lc d, e = StoreError e' ∧ write_consensus_state lc d (tk_store t) = (tk_store t', Err e')
  | Ok d => exists seq sc,
      order_dag leader s = Finished seq ∧
      tusk_score (tk_committee t) (st_last_sub_dag s) seq (next_sub_dag_index s) = Some sc ∧
      d = CommittedSubDag_new seq leader (next_sub_dag_index s) sc (st_last_sub_dag s) ∧
      s' = set_last_sub_dag (foldl ConsensusState_update s seq) d ∧
      write_consensus_state (st_last_committed s') d (tk_store t) = (tk_store t', Ok tt)
  end.
Proof.
  unfold Tusk_commit_leader. intros Hb. em_pure Hb.
  apply em_bind_inv in Hb as [(s1 & seq & Hm & Hb)|(e & Hm & _)]; [|by destruct (order_dag leader s)].
  destruct (order_dag leader s) as [seq'| |] eqn:Ho; [|done|done]. injection Hm as <- <-.
  em_value Hb as sc Hsc. destruct (update_fields s seq') as (_ & Hsd & _). rewrite Hsd in Hb.
  destruct (write_consensus_state _ _ _) as [store [[]|e]] eqn:Hw; em_pure Hb.
  - em_pure Hb. injection Hb as <- <- <-. split; [done|]. exists seq', sc. by split_and!.
  - injection Hb as <- <- <-. split; [done|]. by eauto 10.
Qed.

Lemma Tusk_commits leaders t s t' s' r :
  em_iter Tusk_commit_leader leaders (t, s) = Some ((t', s'), r) ->
  tk_same t t' ∧
  match r with
  | Err e => exists e', e = StoreError e'
  | Ok ds => commits (tusk_score (tk_committee t)) s leaders ds s'
  end.
Proof.
  revert t s t' s' r. induction leaders as [|leader leaders IH]; intros t s t' s' r Hi; simpl in Hi.
  { injection Hi as <- <- <-. split; [done|constructor]. }
  apply em_bind_inv in Hi as [([t1 s1] & d & Hd & Hi)|(e & Hd & ->)];
    apply Tusk_commit_leader_inv in Hd as [[Hc Hsch] Hd]; [|destruct Hd as (e' & _ & _ & -> & _); split; [done|by eauto]].
  apply em_bind_inv in Hi as [([t2 s2] & ds & Hds & Hi)|(e & Hds & ->)];
    apply IH in Hds as [[Hc' Hsch'] Hds].
  - injection Hi as <- <- <-. split; [split; congruence|]. rewrite Hc in Hds.
    destruct Hd as (seq & sc & Ho & Hsc & -> & -> & _). by eapply commits_cons.
  - split; [split; congruence|done].
Qed.

Lemma Tusk_processed x t s t' s' r :
  Tusk_process_certificate x (t, s) = Some ((t', s'), r) ->
  processed Tusk_commit_leader tk_store tk_same (tk_committee t) (tk_leader_schedule t) x t s t' s' r.
Proof.
  unfold Tusk_process_certificate. intros Hb.
  apply em_bind_inv in Hb as [([b1 s1] & ins & Hi & Hb)|(e & Hi & ->)].
  2: { unfold em_snd in Hi. apply bind_Some in Hi as ([s1 r1] & Hi & [= <- <- ->]). left. eexists. split; [exact Hi|]. done. }
  unfold em_snd in Hi. apply bind_Some in Hi as ([s1' r1] & Hi & Hi2). injection Hi2 as <- <- ->.
  destruct ins; simpl in Hb; [|injection Hb as <- <- <-; left; eexists; split; [exact Hi|]; repeat split; by eauto].
  em_pure Hb. em_value Hb as t2 Ht2. em_pure Hb.
  unfold Tusk_report_leader_on_time_metrics in Ht2. apply bind_Some in Ht2 as (mx & _ & [= <-]).
  destruct (negb _ || _) eqn:E1; [injection Hb as <- <- <-; left; eexists; split; [exact Hi|]; repeat split; by eauto|].
  destruct (_ <=? _) eqn:E2; [injection Hb as <- <- <-; left; eexists; split; [exact Hi|]; repeat split; by eauto|].
  apply orb_false_iff in E1 as [E1%negb_false_iff%Z.eqb_eq E3%Z.ltb_ge]. apply Z.leb_gt in E2.
  em_value Hb as found Hf. destruct found as [authority [leader|]]; [|injection Hb as <- <- <-; left; eexists; split; [exact Hi|]; repeat split; by eauto].
  em_value Hb as m Hm. cbn [tk_committee tk_leader_schedule] in *.
  destruct (_ <? _) eqn:E4; [injection Hb as <- <- <-; left; eexists; split; [exact Hi|]; repeat split; by eauto|]. apply Z.ltb_ge in E4.
  em_value Hb as leaders Hl. unfold Tusk_order_leaders in Hl. case_match; [done|].
  apply bind_Some in Hl as (leaders' & Hw & (_ & _ & [= ->])%bind_Some). rewrite Tusk_walk_leaders_eq in Hw. right.
  exists s1', (reverse leaders). apply em_bind_inv in Hb as [([b3 s3] & ds & Hds & Hb)|(e & Hds & ->)].
  - injection Hb as <- <- <-. do 2 eexists. split; [by econstructor|]. split; [|split; [|split; [exact Hds|done]]]; done.
  - do 2 eexists. split; [by econstructor|]. split; [|split; [|split; [exact Hds|done]]]; done.
Qed.

(** Tusk takes steps of a node. *)
Lemma Tusk_process_step x t s t' s' r :
  Tusk_process_certificate x (t, s) = Some ((t', s'), r) ->
  match r with
  | Err e => e <> ShuttingDown
  | Ok (_, ds) => tk_same t t' ∧
      node_step (tk_committee t) (tk_leader_schedule t) (tusk_score (tk_committee t)) s x ds s'
  end.
Proof.
  intros Hb. apply Tusk_processed in Hb as [(ins & Hi & Hsame & _ & Hr)|(s1 & leaders & t1 & res & Hto & [Hc Hs] & _ & Hit & Hr)].
  - destruct r as [[o ds]|e]; [destruct Hr as [-> [ok ->]]; split; [done|by eapply step_insert]|].
    subst ins. apply try_insert_error in Hi as (? & ? & ->). done.
  - apply Tusk_commits in Hit as [[Hc' Hs'] Hit].
    destruct r as [[o ds]|e]; subst res; [|by destruct Hit as [? ->]]. rewrite Hc in Hit.
    split; [split; congruence|]. by eapply step_commit.
Qed.
End engines.

(** ** The consensus loop *)

Definition protocol_committee (p : ConsensusProtocol) : Committee :=
  match p with ProtocolBullshark b => bs_committee b | ProtocolTusk t => tk_committee t end.

Definition protocol_schedule (p : ConsensusProtocol) : LeaderSchedule :=
  match p with ProtocolBullshark b => bs_leader_schedule b | ProtocolTusk t => tk_leader_schedule t end.

Definition protocol_score `{HeaderHash} (p : ConsensusProtocol) : ScoreFn :=
  match p with
  | ProtocolBullshark b => bullshark_score (bs_committee b) (bs_num_sub_dags_per_schedule b)
  | ProtocolTusk t => tusk_score (tk_committee t)
  end.

(** The leader schedule does not change. *)
Definition fixed_schedule (p : ConsensusProtocol) : Prop :=
  match p with ProtocolBullshark b => bs_new_leader_election_schedule b = false | ProtocolTusk _ => True end.

Definition same_protocol `{HeaderHash} (p p' : ConsensusProtocol) : Prop :=
  protocol_committee p' = protocol_committee p ∧ protocol_schedule p' = protocol_schedule p ∧
  protocol_score p' = protocol_score p ∧ (fixed_schedule p -> fixed_schedule p').

Section loop.
Context `{HH : HeaderHash} `{Rng}.

Lemma protocol_score_proper p : score_proper (protocol_score p).
Proof. destruct p; [apply bullshark_score_proper|apply tusk_score_proper]. Qed.

Lemma same_protocol_trans p1 p2 p3 : same_protocol p1 p2 -> same_protocol p2 p3 -> same_protocol p1 p3.
Proof. intros (? & ? & ? & ?) (? & ? & ? & ?). split_and!; try congruence. auto. Qed.

Lemma process_certificate_step x p s p' s' r :
  fixed_schedule p -> process_certificate x (p, s) = Some ((p', s'), r) ->
  match r with
  | Err e => e <> ShuttingDown
  | Ok (_, ds) => same_protocol p p' ∧ node_step (protocol_committee p) (protocol_schedule p) (protocol_score p) s x ds s'
  end.
Proof.
  intros Hfix. unfold process_certificate. destruct p as [b|t]; intros ([[e s1] r1] & Hp & [= <- <- <-])%bind_Some.
  - apply Bullshark_process_step in Hp; [|done]. destruct r1 as [[o ds]|err]; [|done]. destruct Hp as [(Hc & Hf & Hn & Hs) Hstep].
    split; [|done]. split_and!; simpl; [done|done|by rewrite Hc, Hn|by rewrite Hf].
  - apply Tusk_process_step in Hp. destruct r1 as [[o ds]|err]; [|done]. destruct Hp as [[Hc Hs] Hstep].
    split; [|done]. split_and!; simpl; [done|done|by rewrite Hc|done].
Qed.

Lemma send_all c ds c' r :
  em_iter (fun d => on_channels (send_sequence d)) ds c = Some (c', r) ->
  cn_committee c' = cn_committee c ∧ cn_protocol c' = cn_protocol c ∧ cn_state c' = cn_state c ∧
  exists k, k `prefix_of` ds ∧ ch_sequence (cn_channels c') = ch_sequence (cn_channels c) ++ k ∧
    match r with Ok _ => k = ds | Err e => e = ShuttingDown end.
Proof.
  revert c c' r. induction ds as [|d ds IH]; intros c c' r Hi; simpl in Hi.
  { injection Hi as <- <-. split_and!; [done..|]. exists []. by rewrite app_nil_r. }
  apply em_bind_inv in Hi as [(c1 & u & Hd & Hi)|(e & Hd & ->)];
    unfold on_channels, send_sequence in Hd; destruct (ch_sequence_open (cn_channels c)) eqn:Eo; try done; injection Hd as <- <-.
  - apply em_bind_inv in Hi as [(c2 & us & Hds & Hi)|(e & Hds & ->)];
      apply IH in Hds as (Hc & Hp & Hs & k & Hk & Hseq & Hr); simpl in *.
    + injection Hi as <- <-. split_and!; [done..|]. exists (d :: k). rewrite Hseq, <- (assoc_L (++)).
      split_and!; [by apply prefix_cons|done|congruence].
    + split_and!; [done..|]. exists (d :: k). rewrite Hseq, <- (assoc_L (++)). split_and!; [by apply prefix_cons|done|done].
  - split_and!; [done..|]. exists []. rewrite app_nil_r. split_and!; [apply prefix_nil|done|done].
Qed.

Context (c : Committee) (Hc : committee_wf c) (G : gmap Z Header) (Hcd : certified_dag c G) (depth : Z) (Hdepth : 1 <= depth).

(** The state of the loop between certificates: [p] is the protocol at the start. *)
Definition loop_ok (p : ConsensusProtocol) (n : Consensus) (outs : list CommittedSubDag) : Prop :=
  cn_committee n = c ∧ same_protocol p (cn_protocol n) ∧
  node_ok c G (protocol_schedule p) (protocol_score p) depth (cn_state n) outs.

Lemma run_inner_step_ok p n outs x n' r :
  protocol_committee p = c -> fixed_schedule p -> loop_ok p n outs -> ch_sequence (cn_channels n) = outs ->
  (Certificate_epoch x = cm_epoch c -> certified G x) ->
  run_inner_step x n = Some (n', r) ->
  match r with
  | Ok _ => exists outs', loop_ok p n' outs' ∧ ch_sequence (cn_channels n') = outs'
  | Err ShuttingDown => exists outs', loop_ok p n' outs' ∧ ch_sequence (cn_channels n') `prefix_of` outs'
  | Err _ => True
  end.
Proof.
  intros Hpc Hfix (Hcm & Hsame & Hok) Hseq Hx. unfold run_inner_step. intros Hb. em_pure Hb.
  rewrite Hcm in Hb. destruct (Z.eqb_spec (Certificate_epoch x) (cm_epoch c)) as [He|]; simpl in Hb.
  2: { injection Hb as <- <-. by exists outs. }
  apply em_bind_inv in Hb as [(n1 & [o ds] & Hp & Hb)|(e & Hp & ->)]; unfold on_protocol in Hp;
    apply bind_Some in Hp as ([[p1 s1] r1] & Hp & [= <- ->]); pose proof Hsame as (Hc1 & Hs1 & Hsc1 & Hf1);
    apply process_certificate_step in Hp; auto; [|by destruct e].
  destruct Hp as [Hsame1 Hstep]. rewrite Hc1, Hs1, Hsc1, Hpc in Hstep.
  pose proof (node_step_ok c Hc G Hcd _ _ (protocol_score_proper p) depth Hdepth _ _ _ _ _ Hok (Hx He) Hstep) as Hok1.
  assert (same_protocol p p1) as Hsame2 by by eapply same_protocol_trans.
  apply em_bind_inv in Hb as [(n2 & us & Hsend & Hb)|(e & Hsend & ->)];
    apply send_all in Hsend as (Hc2 & Hp2 & Hst2 & k & Hk & Hsq & Hr); simpl in *.
  2: { subst e. exists (outs ++ ds). split; [split_and!; congruence|]. rewrite Hsq, Hseq. by apply prefix_app. }
  subst k. assert (loop_ok p n2 (outs ++ ds) ∧ ch_sequence (cn_channels n2) = outs ++ ds) as [Hl2 Hsq2].
  { split; [split_and!; congruence|]. by rewrite Hsq, Hseq. }
  destruct (Certificate_round <$> _) as [|rd rds]; [injection Hb as <- <-; eauto|].
  apply em_bind_inv in Hb as [(n3 & u & Hsend & Hb)|(e & Hsend & ->)];
    unfold on_channels, send_committed in Hsend; destruct (ch_committed_open (cn_channels n2)); try done; injection Hsend as <- <-.
  2: { exists (outs ++ ds). simpl; by rewrite Hsq2. }
  em_pure Hb. destruct (_ =? _) in Hb; [|done]. unfold on_channels, send_round in Hb. simpl in Hb.
  destruct (ch_rounds_open (cn_channels n2)); injection Hb as <- <-; exists (outs ++ ds); simpl; by rewrite ?Hsq2.
Qed.

Lemma run_inner_ok p xs n outs n' r :
  protocol_committee p = c -> fixed_schedule p -> loop_ok p n outs -> ch_sequence (cn_channels n) = outs ->
  (forall x, x ∈ xs -> Certificate_epoch x = cm_epoch c -> certified G x) ->
  em_iter run_inner_step xs n = Some (n', r) ->
  match r with
  | Ok _ | Err ShuttingDown => exists outs', loop_ok p n' outs' ∧ ch_sequence (cn_channels n') `prefix_of` outs'
  | Err _ => True
  end.
Proof.
  intros Hpc Hfix. revert n outs n' r. induction xs as [|x xs IH]; intros n outs n' r Hl Hseq Hxs Hi; simpl in Hi.
  { injection Hi as <- <-. exists outs. by rewrite Hseq. }
  apply em_bind_inv in Hi as [(n1 & u & Hx & Hi)|(e & Hx & ->)];
    (apply (run_inner_step_ok p n outs) in Hx; [|done|done|done|done|by apply Hxs; set_solver]).
  - destruct Hx as (outs1 & Hl1 & Hs1).
    apply em_bind_inv in Hi as [(n2 & us & Hxs' & Hi)|(e & Hxs' & ->)];
      (apply (IH n1 outs1) in Hxs'; [|done|done|set_solver]); [by injection Hi as <- <-|done].
  - destruct e; [done|done|eauto].
Qed.
End loop.

(** ** Agreement *)

(** A node that has committed nothing. *)
Definition started (c : Committee) (p : ConsensusProtocol) (gc_depth : Z) (ch : ConsensusChannels) : Consensus :=
  mkConsensus c p (ConsensusState_new gc_depth) ch.

Section agreement.
Context `{HH : HeaderHash} `{Rng} (c : Committee) (Hc : committee_wf c) (G : gmap Z Header) (Hcd : certified_dag c G).
Context (depth : Z) (Hdepth : 1 <= depth).

Lemma Consensus_run_ok p xs ch n :
  protocol_committee p = c -> fixed_schedule p -> ch_sequence ch = [] ->
  (forall x, x ∈ xs -> Certificate_epoch x = cm_epoch c -> certified G x) ->
  Consensus_run xs (started c p depth ch) = Some n ->
  exists outs, loop_ok c G depth p n outs ∧ ch_sequence (cn_channels n) `prefix_of` outs.
Proof.
  intros Hpc Hfix Hch Hxs. unfold Consensus_run, run_inner. intros ([n1 r] & Hr & Hn)%bind_Some.
  apply em_bind_inv in Hr as [(n2 & us & Hi & Hr)|(e & Hi & ->)];
    (apply (run_inner_ok c Hc G Hcd depth Hdepth p xs _ []) in Hi; [|done|done| |done|done]).
  - injection Hr as <- <-. injection Hn as <-. done.
  - by split_and!; [..|apply init_ok].
  - destruct e; [done|done|]. injection Hn as <-. done.
  - by split_and!; [..|apply init_ok].
Qed.

Lemma prefix_fmap {A B} (f : A -> B) (k l : list A) : k `prefix_of` l -> (f <$> k) `prefix_of` (f <$> l).
Proof. intros [k' ->]. exists (f <$> k'). apply fmap_app. Qed.

(** Prefixes of lists that extend each other extend each other. *)
Lemma prefix_comparable {A} (k k' l l' : list A) :
  k `prefix_of` l -> k' `prefix_of` l' -> l `prefix_of` l' -> k `prefix_of` k' ∨ k' `prefix_of` k.
Proof. intros Hk Hk' Hl. eapply prefix_weak_total; [|exact Hk']. by transitivity l. Qed.
End agreement.

Lemma runs_agree `{HH : HeaderHash} `{Rng} (c : Committee) (G : gmap Z Header) (depth : Z)
    (p p' : ConsensusProtocol) (xs xs' : list Certificate) (ch ch' : ConsensusChannels) (n n' : Consensus) :
  committee_wf c -> certified_dag c G -> 1 <= depth ->
  protocol_committee p = c -> fixed_schedule p -> same_protocol p p' ->
  (forall x, x ∈ xs ++ xs' -> Certificate_epoch x = cm_epoch c -> certified G x) ->
  ch_sequence ch = [] -> ch_sequence ch' = [] ->
  Consensus_run xs (started c p depth ch) = Some n -> Consensus_run xs' (started c p' depth ch') = Some n' ->
  (view <$> ch_sequence (cn_channels n)) `prefix_of` (view <$> ch_sequence (cn_channels n')) ∨
  (view <$> ch_sequence (cn_channels n')) `prefix_of` (view <$> ch_sequence (cn_channels n)).
Proof.
  intros Hc Hcd Hd Hpc Hfix (Hc' & Hs' & Hsc' & Hf') Hxs Hch Hch' Hn Hn'.
  apply (Consensus_run_ok c Hc G Hcd depth Hd) in Hn as (outs & (_ & _ & Hok) & Hp); [|done|done|done|set_solver].
  apply (Consensus_run_ok c Hc G Hcd depth Hd) in Hn' as (outs' & (_ & _ & Hok') & Hp'); [|congruence|auto|done|set_solver].
  rewrite Hs', Hsc' in Hok'. apply (prefix_fmap view) in Hp, Hp'.
  pose proof (protocol_score_proper p) as Hprop.
  destruct (Z.le_ge_cases (cr_committed (st_last_round (cn_state n))) (cr_committed (st_last_round (cn_state n')))) as [Hle|Hle].
  - apply (node_ok_agree c Hc G Hcd _ _ Hprop depth Hd _ _ _ _ Hok Hok') in Hle. by eapply prefix_comparable.
  - apply (node_ok_agree c Hc G Hcd _ _ Hprop depth Hd _ _ _ _ Hok' Hok) in Hle.
    apply or_comm. by eapply prefix_comparable.
Qed.

(** C5. Agreement: two nodes that run the same protocol, Tusk or Bullshark, with a
    fixed leader schedule and are given certificates of the same certified dag, in
    any order and any selection, output sequences of sub-dags of which one extends
    the other.  The sub-dags agree in everything but the signatures: headers and
    their order, leader, index, scores and timestamp. *)
Theorem consensus_agreement `{HH : HeaderHash} `{Rng} (c : Committee) (G : gmap Z Header) (depth : Z)
    (p p' : ConsensusProtocol) (xs xs' : list Certificate) (ch ch' : ConsensusChannels) (n n' : Consensus) :
  committee_wf c -> certified_dag c G -> 1 <= depth ->
  protocol_committee p = c -> fixed_schedule p -> same_protocol p p' ->
  (forall x, x ∈ xs ++ xs' -> Certificate_epoch x = cm_epoch c -> certified G x) ->
  ch_sequence ch = [] -> ch_sequence ch' = [] ->
  Consensus_run xs (started c p depth ch) = Some n -> Consensus_run xs' (started c p' depth ch') = Some n' ->
  (view <$> ch_sequence (cn_channels n)) `prefix_of` (view <$> ch_sequence (cn_channels n')) ∨
  (view <$> ch_sequence (cn_channels n')) `prefix_of` (view <$> ch_sequence (cn_channels n)).
Proof. apply runs_agree. Qed.

Lemma consensus_agreement_witness :
  let n := sample_run 0 (sample_bullshark false 50) (split_votes 0) in
  let n' := sample_run 0 (sample_bullshark false 50) (late_vote 0) in
  length (ch_sequence (cn_channels n)) = 2%nat ∧
  ((view <$> ch_sequence (cn_channels n)) `prefix_of` (view <$> ch_sequence (cn_channels n')) ∨
   (view <$> ch_sequence (cn_channels n')) `prefix_of` (view <$> ch_sequence (cn_channels n))).
Proof.
  split; [vm_compute; reflexivity|].
  apply (@consensus_agreement sample_hash (rotating_rng 0) four (@dag_of sample_hash (split_votes 0)) 50
    (sample_bullshark false 50) (sample_bullshark false 50) (cert <$> split_votes 0) (cert <$> late_vote 0)
    sample_channels sample_channels).
  - apply four_wf.
  - apply split_votes_certified. by left.
  - done.
  - done.
  - done.
  - done.
  - intros x Hx _. apply (split_votes_in_dag 0); [by left|]. rewrite late_vote_permutation in Hx. set_solver.
  - done.
  - done.
  - vm_compute; reflexivity.
  - vm_compute; reflexivity.
Defined.
