(* ===== verification/ConsensusProps.v ===== *)
(** * What a node outputs

    [sequence_ok]: the sub-dags a node outputs are numbered from one, repeat no
    header, come with growing leader rounds and timestamps, list a header after its
    parents, and leave out only parents that are collected or superseded
    ([consensus_integrity]). *)

From S2P Require Import Prelude Committee DagTypes ConsensusCore Bullshark DagProps ConsensusSample Agreement.
Local Open Scope Z_scope.
Local Open Scope chase_scope.

(** ** Sequences of sub-dags *)

Definition committed_headers (vs : list CommitView) : list Header := vs ≫= cv_headers.

(** A header of the same authority at the same round or later is committed. *)
Definition overtaken (vs : list CommitView) (q : Header) : Prop :=
  exists q', q' ∈ committed_headers vs ∧ he_author q' = he_author q ∧ he_round q <= he_round q'.

(** The sub-dag [v] may follow the sub-dags [prev]. *)
Record commit_ok (G : gmap Z Header) (depth : Z) (prev : list CommitView) (v : CommitView) : Prop := {
  ck_nodup : NoDup (cv_headers v);
  ck_fresh h : h ∈ cv_headers v -> h ∉ committed_headers prev;
  ck_sorted : StronglySorted (key_le he_round) (cv_headers v);
  ck_leader : last (cv_headers v) = Some (cv_leader v);
  ck_ancestors h : h ∈ cv_headers v -> path G (cv_leader v) h;
  ck_complete h p : h ∈ cv_headers v -> p ∈ he_parents h ->
    he_round h = gc_round (he_round (cv_leader v)) depth + 1 ∨
    exists q, G !! p = Some q ∧ (q ∈ cv_headers v ∨ overtaken prev q);
  ck_index : cv_index v = Z.of_nat (length prev) + 1;
  ck_round u : u ∈ prev -> he_round (cv_leader u) < he_round (cv_leader v);
  ck_timestamp u : u ∈ prev -> cv_timestamp u <= cv_timestamp v
}.

Definition sequence_ok (G : gmap Z Header) (depth : Z) (vs : list CommitView) : Prop :=
  forall i v, vs !! i = Some v -> commit_ok G depth (take i vs) v.

Lemma sequence_ok_nil G depth : sequence_ok G depth [].
Proof. intros i v. by rewrite lookup_nil. Qed.

Lemma sequence_ok_snoc G depth vs v : sequence_ok G depth vs -> commit_ok G depth vs v -> sequence_ok G depth (vs ++ [v]).
Proof.
  intros Hvs Hv i u Hi. apply lookup_snoc_Some in Hi as [[Hlt Hi]|[-> ->]].
  - rewrite take_app_le by lia. by apply Hvs.
  - by rewrite take_app_length.
Qed.

Lemma sequence_ok_prefix G depth vs ws : vs `prefix_of` ws -> sequence_ok G depth ws -> sequence_ok G depth vs.
Proof.
  intros [k ->] Hok i v Hi. pose proof (lookup_lt_Some _ _ _ Hi).
  specialize (Hok i v (lookup_app_l_Some _ _ _ _ Hi)). by rewrite take_app_le in Hok by lia.
Qed.

(** No header is committed twice. *)
Lemma sequence_ok_NoDup G depth vs : sequence_ok G depth vs -> NoDup (committed_headers vs).
Proof.
  induction vs as [|v vs IH] using rev_ind; intros Hok; [constructor|].
  unfold committed_headers. rewrite bind_app. simpl. rewrite app_nil_r.
  specialize (IH ltac:(eapply sequence_ok_prefix; [|done]; by exists [v])).
  specialize (Hok (length vs) v). rewrite take_app_length in Hok. destruct Hok as [Hnd Hfr]; [by apply list_lookup_middle|].
  apply NoDup_app. split_and!; [done| |done]. intros h Hh Hv. by apply (Hfr h).
Qed.

(** ** Replays give such sequences *)

Lemma bump_superseded l lc h : h ∈ l ∨ superseded lc h -> superseded (foldl bump lc l) h.
Proof.
  revert lc. induction l as [|x l IH]; intros lc Hh; simpl; [by destruct Hh as [?%not_elem_of_nil|?]|].
  apply IH. rewrite elem_of_cons in Hh. destruct Hh as [[->|?]|(r & Hr & Hle)]; [right|by left|right].
  - unfold superseded, bump. rewrite lookup_insert_eq. eexists. split; [done|]. destruct (lc !! _); lia.
  - unfold superseded, bump. destruct (decide (he_author h = he_author x)) as [He|Hne].
    + rewrite He, lookup_insert_eq, <- He, Hr. eexists. split; [done|]. lia.
    + rewrite lookup_insert_ne by done. eauto.
Qed.

Lemma bump_exact l lc a r :
  foldl bump lc l !! a = Some r -> lc !! a = Some r ∨ exists h, h ∈ l ∧ he_author h = a ∧ he_round h = r.
Proof.
  revert lc. induction l as [|x l IH]; intros lc; simpl; [by left|].
  intros [Hl|(h & ? & ? & ?)]%IH; [|right; exists h; set_solver].
  unfold bump in Hl. apply lookup_insert_Some in Hl as [[<- Hr]|[_ ?]]; [|by left].
  destruct (lc !! he_author x) as [r0|] eqn:E; [|right; exists x; set_solver].
  destruct (Z.max_spec r0 (he_round x)) as [[_ Hm]|[_ Hm]]; rewrite Hm in Hr; subst; [right; exists x; set_solver|by left].
Qed.

Section replay_ok.
Context `{HH : HeaderHash} (c : Committee) (G : gmap Z Header) (Hcd : certified_dag c G).
Context (score : ScoreFn) (depth : Z) (Hdepth : 1 <= depth).

(** What the last committed rounds say about the headers committed so far. *)
Record replay_inv (vs : list CommitView) (lc : gmap Z Z) : Prop := {
  ri_seq : sequence_ok G depth vs;
  ri_superseded h : h ∈ committed_headers vs -> superseded lc h;
  ri_exact a r : lc !! a = Some r -> exists h, h ∈ committed_headers vs ∧ he_author h = a ∧ he_round h = r;
  ri_round h : h ∈ committed_headers vs -> exists v, last vs = Some v ∧ he_round h <= he_round (cv_leader v);
  ri_leaders v : v ∈ vs -> in_dag G (cv_leader v);
  ri_length v : last vs = Some v -> Z.of_nat (length vs) <= he_round (cv_leader v)
}.

Lemma superseded_overtaken vs lc q : replay_inv vs lc -> superseded lc q -> overtaken vs q.
Proof. intros Hri (r & Hr & Hle). destruct (ri_exact _ _ Hri _ _ Hr) as (h & ? & ? & <-). by exists h. Qed.

(** In a selection the leader comes last. *)
Lemma selection_last lc leader gc l : selection G lc leader gc l -> last l = Some leader.
Proof.
  intros [Hnd Hsort Hl Hel _]. destruct l as [|h l _] using rev_ind; [by apply not_elem_of_nil in Hl|].
  rewrite last_snoc. f_equal. apply elem_of_app in Hl as [Hl|Hl]; [|by apply list_elem_of_singleton in Hl].
  pose proof (StronglySorted_app_1_elem_of _ _ _ leader h Hsort Hl ltac:(set_solver)) as Hle. unfold key_le in Hle.
  destruct (Hel h ltac:(set_solver)) as (_ & _ & _ & [?|[? _]]); [done|lia].
Qed.

Lemma commit_ok_next vs lc leader l sc :
  replay_inv vs lc -> in_dag G leader -> (forall v, last vs = Some v -> he_round (cv_leader v) < he_round leader) ->
  selection G lc leader (gc_round (he_round leader) depth) l ->
  commit_ok G depth vs (mkView l leader (next_index (last vs)) sc (next_timestamp (last vs) leader)).
Proof.
  intros Hri Hl Hlt Hsel. pose proof (in_dag_round _ _ Hcd _ Hl) as Hrl.
  assert (forall u, u ∈ vs -> exists v, last vs = Some v ∧ (u = v ∨ he_round (cv_leader u) < he_round (cv_leader v) ∧
    cv_timestamp u <= cv_timestamp v)) as Hlast.
  { intros u Hu. destruct vs as [|v vs _] using rev_ind; [by apply not_elem_of_nil in Hu|]. rewrite last_snoc.
    exists v. split; [done|]. apply elem_of_app in Hu as [Hu|Hu]; [right|left; by apply list_elem_of_singleton in Hu].
    pose proof (ri_seq _ _ Hri (length vs) v) as Hv. rewrite take_app_length in Hv.
    destruct Hv; [by apply list_lookup_middle|]. split; auto. }
  assert (Z.of_nat (length vs) < he_round leader) as Hlen.
  { destruct (last vs) as [v|] eqn:E; [|by apply last_None in E as ->; simpl; lia].
    pose proof (ri_length _ _ Hri _ E). specialize (Hlt _ eq_refl). lia. }
  split; simpl.
  - apply Hsel.
  - intros h Hh Hin. destruct (sel_elem _ _ _ _ _ Hsel h Hh) as (_ & _ & _ & [->|[_ Hns]]).
    + destruct (ri_round _ _ Hri _ Hin) as (v & Hv & Hle). specialize (Hlt v Hv). lia.
    + by apply Hns, (ri_superseded _ _ Hri).
  - apply Hsel.
  - by eapply selection_last.
  - intros h Hh. by destruct (sel_elem _ _ _ _ _ Hsel h Hh) as (_ & ? & _).
  - intros h p Hh Hp. destruct (sel_closed _ _ _ _ _ Hsel h Hh) as [?|Hcl]; [by left|right].
    destruct (Hcl p Hp) as (q & Hq & [?|?]); exists q; split; auto. right. by eapply superseded_overtaken.
  - destruct (last vs) as [v|] eqn:E; [|by apply last_None in E as ->].
    apply last_Some in E as [vs' ->]. pose proof (ri_seq _ _ Hri (length vs') v) as Hv. rewrite take_app_length in Hv.
    destruct Hv as [_ _ _ _ _ _ Hidx _ _]; [by apply list_lookup_middle|]. unfold next_index. simpl. rewrite Hidx.
    rewrite length_app in *. simpl in *. rewrite u64_add_small; [lia|]. unfold u64_modulus in *. lia.
  - intros u Hu. destruct (Hlast u Hu) as (v & Hv & [->|[? _]]); specialize (Hlt v Hv); lia.
  - intros u Hu. destruct (Hlast u Hu) as (v & Hv & Huv). unfold next_timestamp. rewrite Hv. simpl.
    destruct Huv as [->|[_ ?]]; lia.
Qed.

Lemma replay_ok ls outs lc :
  replay G score depth ls outs lc -> (forall h, h ∈ ls -> in_dag G h) ->
  StronglySorted (fun a b => he_round b < he_round a) ls ->
  replay_inv (reverse outs) lc ∧ cv_leader <$> outs = ls.
Proof.
  induction 1 as [|h ls outs lc certs last0 sc Hr IH Hf Hv Hs]; intros Hin Hsort.
  { split; [|done]. split; try set_solver. apply sequence_ok_nil. }
  inversion Hsort as [|? ? Hsort' Hlt]; subst. destruct IH as [Hri Hls]; [set_solver|done|].
  assert (head outs = last (reverse outs)) as Hhead by (by destruct outs; simpl; rewrite ?reverse_cons, ?last_snoc).
  pose proof (flatten_selection c G depth _ _ _ Hcd (Hin h ltac:(set_solver)) Hdepth Hf) as Hsel.
  pose proof (in_dag_round _ _ Hcd h (Hin h ltac:(set_solver))) as Hrh.
  assert (forall v, last (reverse outs) = Some v -> he_round (cv_leader v) < he_round h) as Hlast.
  { intros v Hv'. rewrite <- Hhead in Hv'. destruct outs as [|w outs]; [done|]. injection Hv' as ->. subst ls.
    by inversion Hlt. }
  pose proof (commit_ok_next _ _ h _ sc Hri (Hin h ltac:(set_solver)) Hlast Hsel) as Hck.
  rewrite <- Hhead in Hck. split; [|by cbn [fmap list_fmap]; rewrite Hls]. rewrite reverse_cons. split.
  - apply sequence_ok_snoc; [apply Hri|done].
  - intros x Hx. unfold committed_headers in Hx. rewrite bind_app in Hx. simpl in Hx. rewrite app_nil_r in Hx.
    apply bump_superseded. apply elem_of_app in Hx as [Hx|Hx]; [right; by apply Hri|by left].
  - intros a r [Ha|(x & Hx & ? & ?)]%bump_exact.
    + destruct (ri_exact _ _ Hri _ _ Ha) as (x & Hx & ?). exists x. split; [|done].
      unfold committed_headers in *. rewrite bind_app. set_solver.
    + exists x. split; [|done]. unfold committed_headers. rewrite bind_app. simpl. rewrite app_nil_r. set_solver.
  - intros x Hx. rewrite last_snoc. eexists. split; [done|]. simpl. unfold committed_headers in Hx. rewrite bind_app in Hx.
    simpl in Hx. rewrite app_nil_r in Hx. apply elem_of_app in Hx as [Hx|Hx].
    + destruct (ri_round _ _ Hri _ Hx) as (v & Hv' & ?). specialize (Hlast v Hv'). lia.
    + destruct (sel_elem _ _ _ _ _ Hsel x Hx) as (_ & Hp & _). apply (path_in_dag _ _ Hcd _ _ Hp). by apply Hin; set_solver.
  - intros v [Hv'|Hv']%elem_of_app; [by apply Hri|]. apply list_elem_of_singleton in Hv' as ->. apply Hin. set_solver.
  - intros v. rewrite last_snoc. intros [= <-]. simpl. rewrite length_app. simpl.
    destruct (last (reverse outs)) as [w|] eqn:E.
    + pose proof (ri_length _ _ Hri _ E). specialize (Hlast _ eq_refl). lia.
    + apply last_None in E. rewrite E. simpl. lia.
Qed.
End replay_ok.

(** ** Integrity of the output *)

Section node_sequence.
Context `{HH : HeaderHash} `{Rng} (c : Committee) (G : gmap Z Header) (Hcd : certified_dag c G).
Context (sched : LeaderSchedule) (score : ScoreFn) (depth : Z) (Hdepth : 1 <= depth).

Lemma node_ok_replay s outs :
  node_ok c G sched score depth s outs -> replay_inv G depth (view <$> outs) (st_last_committed s).
Proof.
  intros (ls & Hn & Hh).
  pose proof (replay_ok c G Hcd score depth Hdepth _ _ _ (nm_replay _ _ _ _ _ _ Hn) (nm_leaders _ _ _ _ _ _ Hn)) as Hr.
  destruct Hr as [Hri _]; [|by rewrite fmap_reverse, reverse_involutive in Hri].
  by eapply committed_sorted.
Qed.
End node_sequence.

(** C7. Integrity of the output of a node: the sub-dags are numbered from one, no
    header is committed twice, leaders have growing rounds and timestamps do not go
    back; within a sub-dag headers come by round, so parents first, and end with the
    leader, of which all are ancestors; a parent of a committed header is committed
    as well unless it is collected or its authority has a later header committed
    before. *)
Theorem consensus_integrity `{HH : HeaderHash} `{Rng} (c : Committee) (G : gmap Z Header) (depth : Z)
    (p : ConsensusProtocol) (xs : list Certificate) (ch : ConsensusChannels) (n : Consensus) :
  committee_wf c -> certified_dag c G -> 1 <= depth -> protocol_committee p = c -> fixed_schedule p ->
  (forall x, x ∈ xs -> Certificate_epoch x = cm_epoch c -> certified G x) -> ch_sequence ch = [] ->
  Consensus_run xs (started c p depth ch) = Some n ->
  sequence_ok G depth (view <$> ch_sequence (cn_channels n)) ∧
  NoDup (committed_headers (view <$> ch_sequence (cn_channels n))).
Proof.
  intros Hc Hcd Hd Hpc Hfix Hxs Hch Hn.
  apply (Consensus_run_ok c Hc G Hcd depth Hd) in Hn as (outs & (_ & _ & Hok) & Hp); [|done..].
  apply (node_ok_replay c G Hcd _ _ depth Hd) in Hok.
  assert (sequence_ok G depth (view <$> ch_sequence (cn_channels n))) as Hseq.
  { eapply sequence_ok_prefix; [by apply prefix_fmap|apply Hok]. }
  split; [done|]. by eapply sequence_ok_NoDup.
Qed.

Lemma consensus_integrity_witness :
  let n := sample_run 0 sample_tusk (late_vote 0) in
  length (committed_headers (view <$> ch_sequence (cn_channels n))) = 12%nat ∧
  sequence_ok (@dag_of sample_hash (split_votes 0)) 50 (view <$> ch_sequence (cn_channels n)) ∧
  NoDup (committed_headers (view <$> ch_sequence (cn_channels n))).
Proof.
  split; [vm_compute; reflexivity|].
  apply (@consensus_integrity sample_hash (rotating_rng 0) four (@dag_of sample_hash (split_votes 0)) 50
    sample_tusk (cert <$> late_vote 0) sample_channels).
  - apply four_wf.
  - apply split_votes_certified. by left.
  - done.
  - done.
  - done.
  - intros x Hx _. apply (split_votes_in_dag 0); [by left|]. by rewrite late_vote_permutation in Hx.
  - done.
  - vm_compute; reflexivity.
Defined.
