(* ===== verification/ConsensusSafe.v ===== *)
(** * Consensus does not stop

    Under causal delivery, with a working store and open channels, the consensus
    loop neither panics nor fails ([consensus_never_panics]): no parent is missing,
    every leader is found in the committee, no assertion fails. *)

From S2P Require Import Prelude Committee DagTypes ConsensusCore Bullshark DagProps ConsensusSample Agreement ConsensusProps.
Local Open Scope Z_scope.
Local Open Scope chase_scope.

(** ** Electing a leader *)

Section election.
Context `{HR : Rng} `{!RngLaws} (c : Committee) (Hc : committee_wf c).

Lemma u64_as_f32_pos x : 0 < x -> 0 < u64_as_f32 x.
Proof.
  intros Hx. unfold u64_as_f32. destruct (Z.ltb_spec x 16777216); [done|].
  pose proof (Z.log2_spec x Hx) as [Hlo _].
  assert (0 < 2 ^ (Z.log2 x - 23)) as Hu.
  { apply Z.pow_pos_nonneg; [lia|]. assert (24 <= Z.log2 x) by (apply Z.log2_le_pow2; [lia|]; simpl; lia). lia. }
  assert (1 <= x / 2 ^ (Z.log2 x - 23)).
  { apply Z.div_le_lower_bound; [lia|]. rewrite Z.mul_1_r.
    etrans; [|exact Hlo]. apply Z.pow_le_mono_r; lia. }
  destruct (_ || _); lia.
Qed.

Lemma some_stake : exists a, a ∈ Committee_authorities c ∧ 0 < au_stake a.
Proof.
  pose proof (wf_total _ Hc) as [Ht _]. revert Ht. unfold total_stake.
  induction (Committee_authorities c) as [|a l IH]; simpl; [lia|]. intros Ht.
  destruct (decide (0 < au_stake a)); [exists a; set_solver|]. destruct IH as (b & ? & ?); [lia|]. exists b. set_solver.
Qed.

Lemma Committee_leader_total seed : exists a, Committee_leader c seed = Some a ∧ a ∈ Committee_authorities c.
Proof.
  unfold Committee_leader. destruct some_stake as (a & Ha & Hs).
  set (items := (fun a => (a, u64_as_f32 (au_stake a))) <$> Committee_authorities c).
  destruct (rng_choose_weighted_some (seed_bytes seed) items (a, u64_as_f32 (au_stake a))) as [[b w] Hb].
  { unfold items. by apply (list_elem_of_fmap_2 (fun a => (a, u64_as_f32 (au_stake a)))). }
  { by apply u64_as_f32_pos. }
  rewrite Hb. exists b. split; [done|]. apply rng_choose_weighted_elem in Hb.
  unfold items in Hb. by apply list_elem_of_fmap in Hb as (? & [= -> _] & ?).
Qed.

(** The schedule of a node that has not changed it. *)
Definition original_schedule : LeaderSchedule := mkSchedule c LeaderSwapTable_default.

Lemma leader_total r : r mod 2 = 0 ->
  exists a, LeaderSchedule_leader original_schedule r = Some a ∧ a ∈ Committee_authorities c.
Proof.
  intros Hr. destruct (Committee_leader_total r) as (a & Ha & Hin). exists a. split; [|done].
  unfold LeaderSchedule_leader. rewrite Hr. simpl. rewrite Ha. simpl. unfold Authority_id.
  by rewrite (wf_initialised _ Hc _ Hin).
Qed.

Lemma authority_hostname_total a : a ∈ Committee_authorities c -> is_Some (Authority_hostname a).
Proof. intros Ha. unfold Authority_hostname. rewrite (wf_initialised _ Hc _ Ha). eauto. Qed.

Lemma leader_certificate_total r dag : r mod 2 = 0 ->
  exists a o, leader_certificate original_schedule r dag = Some (a, o) ∧ a ∈ Committee_authorities c.
Proof.
  intros Hr. destruct (leader_total r Hr) as (a & Ha & Hin). exists a. unfold leader_certificate. rewrite Ha. simpl.
  destruct (dag !! r) as [m|]; [|eauto]. unfold Authority_id. rewrite (wf_initialised _ Hc _ Hin). simpl. eauto.
Qed.

Lemma on_time_metrics_total mx r : 0 <= r < u64_modulus -> is_Some (on_time_metrics original_schedule mx r).
Proof.
  intros Hr. unfold on_time_metrics. destruct (_ && _ && _) eqn:E; [|simpl; eauto].
  apply andb_true_iff in E as [[_ E1%Z.eqb_eq]%andb_true_iff E2%Z.ltb_lt].
  unfold u64_sub. rewrite Z.mod_small by lia.
  destruct (leader_total (r - 2)) as (a & -> & Ha); [by rewrite Zminus_mod, E1|]. simpl.
  destruct (authority_hostname_total a Ha) as [h ->]. simpl. eauto.
Qed.
End election.

Section walk_total.
Context `{HH : HeaderHash} `{HR : Rng} `{!RngLaws} (c : Committee) (Hc : committee_wf c).
Context (G : gmap Z Header) (Hcd : certified_dag c G) (gc : Z) (dag : Dag) (Hgc : 0 <= gc) (Hok : dag_ok G gc dag).

Lemma walk_leaders_total lo n hi leader acc :
  hi - lo < 2 * Z.of_nat n -> hi mod 2 = 0 -> dag_has dag leader -> hi + 2 <= Certificate_round leader ->
  is_Some (walk_leaders (original_schedule c) dag (rev_step_by_2 lo hi) leader acc).
Proof.
  revert hi leader acc. induction n as [|n IH]; intros hi leader acc Hn Hev Hl Hhi;
    rewrite rev_step_by_2_unfold; destruct (Z.ltb_spec hi lo); simpl; [eauto|lia|eauto|].
  assert ((hi - 2) mod 2 = 0) by by rewrite Zminus_mod, Hev.
  destruct (leader_certificate_total c Hc hi dag Hev) as (a & o & Hf & Ha). rewrite Hf. simpl.
  destruct (authority_hostname_total c Hc a Ha) as [h Hh]. rewrite Hh.
  destruct o as [prev|]; simpl; [|apply IH; [lia|done|done|lia]].
  destruct (leader_certificate_some G _ _ _ Hok _ _ _ Hf) as (Hp & Hrp & _).
  destruct (linked_spec c Hc G Hcd gc dag Hgc Hok leader prev Hl Hp ltac:(lia)) as (b & Hb & _). rewrite Hb. simpl.
  destruct b; apply IH; [lia|done|done|lia|lia|done|done|lia].
Qed.

Lemma report_leaders_total l : (forall x, x ∈ l -> certified G x) -> report_leaders c l = Some tt.
Proof.
  intros Hl. unfold report_leaders.
  assert (is_Some (mapM (fun x => a ← Committee_authority c (Certificate_origin x); Authority_hostname a) l)) as [k ->]; [|done].
  apply mapM_is_Some, Forall_forall. intros x Hx. destruct (cd_author _ _ Hcd _ _ (Hl x Hx)) as [a Ha].
  unfold compose, Committee_authority, Certificate_origin. rewrite Ha. simpl.
  eapply authority_hostname_total, wf_listed; [done|done|exact Ha].
Qed.
End walk_total.

(** ** Scores *)

Section scores.
Context `{HH : HeaderHash} (c : Committee) (Hc : committee_wf c).
Abbreviation ids := (dom (cm_authorities_by_id c)).

Lemma ids_listed : ids = list_to_set (au_id <$> Committee_authorities c).
Proof.
  apply set_eq. intros i. rewrite elem_of_dom, elem_of_list_to_set, list_elem_of_fmap. split.
  - intros [a Ha]. exists a. split; [by rewrite (wf_by_id _ Hc _ _ Ha)|by eapply wf_listed].
  - intros (a & -> & Ha). rewrite (wf_indexed _ Hc _ Ha). eauto.
Qed.

Lemma ids_size : Z.of_nat (size ids) = Committee_size c.
Proof.
  rewrite ids_listed, size_list_to_set by apply (wf_distinct _ Hc). rewrite length_fmap.
  unfold Committee_size, Committee_authorities. rewrite length_fmap. unfold btree_iter.
  by rewrite length_sort_by_key, length_map_to_list.
Qed.

Lemma ReputationScores_new_total : exists s, ReputationScores_new c = Some s ∧ dom (rs_scores s) = ids.
Proof.
  unfold ReputationScores_new.
  assert (mapM Authority_id (Committee_authorities c) = Some (au_id <$> Committee_authorities c)) as ->.
  { apply mapM_Some. apply Forall2_fmap_r, Forall_Forall2_diag, Forall_forall. intros a Ha. unfold Authority_id.
    by rewrite (wf_initialised _ Hc _ Ha). }
  simpl. eexists. split; [done|]. simpl. rewrite ids_listed.
  assert (forall (l : list Z) (m : gmap Z Z), dom (foldl (fun (m : gmap Z Z) i => <[i := 0]> m) m l) = dom m ∪ list_to_set l) as Hd.
  { induction l as [|i l IH]; intros m; simpl; [set_solver|]. rewrite IH, dom_insert_L. set_solver. }
  rewrite Hd. set_solver.
Qed.

Definition scores_ok (o : option CommittedSubDag) : Prop := forall d, o = Some d -> dom (rs_scores (sd_scores d)) = ids.

(** The scores of a sub-dag whose certificates come from the committee exist, and
    have an entry for each authority. *)
Definition score_total (score : ScoreFn) : Prop := forall last seq i,
  scores_ok last -> (forall x, x ∈ seq -> Certificate_origin x ∈ ids) -> (last = None -> i = 1) ->
  exists s, score last seq i = Some s ∧ dom (rs_scores s) = ids.

Lemma tusk_score_total : score_total (tusk_score c).
Proof. intros last seq i _ _ _. apply ReputationScores_new_total. Qed.

Lemma score_votes_dom leader seq s :
  (forall x, x ∈ seq -> Certificate_origin x ∈ dom (rs_scores s)) -> dom (rs_scores (score_votes leader seq s)) = dom (rs_scores s).
Proof.
  unfold score_votes. revert s. induction seq as [|x seq IH]; intros s Hs; simpl; [done|].
  pose proof (Hs x ltac:(set_solver)) as Hx.
  assert (dom (rs_scores (if has_parent x (Certificate_digest leader) then add_score s (Certificate_origin x) 1 else s))
    = dom (rs_scores s)) as Hd.
  { destruct (has_parent _ _); [|done]. simpl. rewrite dom_insert_L. set_solver. }
  rewrite IH; [done|]. rewrite Hd. set_solver.
Qed.

Lemma bullshark_score_total num : 0 < num -> score_total (bullshark_score c num).
Proof.
  intros Hnum last seq i Hlast Hseq Hi. unfold bullshark_score, resolve_reputation_score. simpl.
  unfold u64_rem. destruct (Z.eqb_spec num 0); [lia|]. simpl.
  assert (exists reset, (if i =? 1 then Some true else Some (i mod num =? 0)) = Some reset ∧ (last = None -> reset = true))
    as (reset & -> & Hreset).
  { destruct (Z.eqb_spec i 1); eexists; (split; [done|]); [done|]. intros Hl. by apply Hi in Hl. }
  simpl. destruct ReputationScores_new_total as (s0 & Hs0 & Hd0).
  assert (exists base, (if reset then ReputationScores_new c else sd_scores <$> last) = Some base ∧ dom (rs_scores base) = ids)
    as (base & -> & Hbase).
  { destruct reset; [eauto|]. destruct last as [d|]; [|by specialize (Hreset eq_refl)]. simpl. eexists. split; [done|]. by apply Hlast. }
  simpl.
  assert (dom (rs_scores (match last with Some d => score_votes (sd_leader d) seq base | None => base end)) = ids) as Hd.
  { destruct last as [d|]; [|done]. rewrite score_votes_dom; [done|]. by rewrite Hbase. }
  unfold total_authorities. cbn [rs_scores]. rewrite <- size_dom, Hd, ids_size, Z.eqb_refl. eauto.
Qed.
End scores.

(** ** Delivered certificates *)

Section delivered.
Context `{HH : HeaderHash} (c : Committee) (Hc : committee_wf c) (G : gmap Z Header) (Hcd : certified_dag c G).

(** The certificates received so far are in the dag unless they are collected. *)
Definition delivered (seen : list Certificate) (s : ConsensusState) : Prop :=
  forall y, y ∈ seen -> cr_gc (st_last_round s) < Certificate_round y ->
  exists z, dag_has (st_dag s) z ∧ ce_header z = ce_header y.

(** Every parent comes before its children. *)
Definition causal (xs : list Certificate) : Prop := forall i x p,
  xs !! i = Some x -> Certificate_epoch x = cm_epoch c -> 2 <= Certificate_round x -> p ∈ Certificate_parents x ->
  exists y, y ∈ take i xs ∧ Certificate_epoch y = cm_epoch c ∧ Certificate_digest y = p.

Lemma dag_insert_keeps_has gc dag x z :
  dag_ok G gc dag -> certified G x -> dag_has dag z ->
  exists z', dag_has (dag_insert dag x) z' ∧ ce_header z' = ce_header z.
Proof.
  intros Hok Hx (m & Hm & Hz). destruct (do_entry _ _ _ Hok _ _ _ _ _ Hm Hz) as (_ & _ & _ & Hcz).
  destruct (decide (Certificate_round z = Certificate_round x ∧ Certificate_origin z = Certificate_origin x)) as [[Hr Ho]|Hne].
  - exists x. split; [apply dag_insert_has|]. by eapply in_dag_unique.
  - exists z. split; [|done]. unfold dag_has, dag_insert. destruct (decide (Certificate_round z = Certificate_round x)) as [Hr|Hr].
    + rewrite Hr, lookup_insert_eq, <- Hr, Hm. simpl. eexists. split; [done|]. rewrite lookup_insert_ne; [done|]. naive_solver.
    + exists m. by rewrite lookup_insert_ne by done.
Qed.

Lemma check_parents_total gc dag (seen : list Certificate) x :
  dag_ok G gc dag -> 0 <= gc < Certificate_round x -> certified G x ->
  (forall y, y ∈ seen -> gc < Certificate_round y -> exists z, dag_has dag z ∧ ce_header z = ce_header y) ->
  (forall p, gc + 1 < Certificate_round x -> p ∈ Certificate_parents x -> exists y, y ∈ seen ∧ certified G y ∧ Certificate_digest y = p) ->
  check_parents x dag gc = Some tt.
Proof.
  intros Hok Hgc Hx Hdel Hpar. pose proof (in_dag_round _ _ Hcd _ Hx) as Hr.
  change (he_round (ce_header x)) with (Certificate_round x) in Hr.
  unfold check_parents. rewrite u64_add_small by lia. destruct (Z.leb_spec (Certificate_round x) (gc + 1)); [done|].
  unfold u64_sub. rewrite Z.mod_small by lia.
  assert (forall p, p ∈ Certificate_parents x -> exists m a z, dag !! (Certificate_round x - 1) = Some m ∧ m !! a = Some (p, z)) as Hall.
  { intros p Hp. destruct (Hpar p ltac:(lia) Hp) as (y & Hy & Hcy & Hdy).
    assert (Certificate_round y = Certificate_round x - 1) as Hry.
    { eapply (cd_parent_round _ _ Hcd); [exact Hx|exact Hp|]. by rewrite <- Hdy. }
    destruct (Hdel y Hy ltac:(lia)) as (z & (m & Hm & Hz) & He).
    exists m, (Certificate_origin z), z. unfold Certificate_round, Certificate_digest in *. rewrite He in Hm, Hz.
    rewrite Hry in Hm. by rewrite Hdy in Hz. }
  destruct (some_parent c Hc G Hcd (ce_header x) Hx) as (p0 & q0 & Hp0 & _); [unfold Certificate_round in *; lia|].
  destruct (Hall p0 Hp0) as (m & _ & _ & Hm & _). rewrite Hm.
  replace (forallb _ _) with true; [done|]. symmetry. apply forallb_forall. intros p Hp%list_elem_of_In.
  apply existsb_exists. destruct (Hall p Hp) as (m' & a & z & Hm' & Hz). exists p. split; [|apply Z.eqb_refl].
  assert (m' = m) as -> by congruence. apply list_elem_of_In, (list_elem_of_fmap_2' fst _ (p, z)); [|done].
  by apply (list_elem_of_fmap_2' snd _ (a, (p, z))); [apply elem_of_map_to_list|].
Qed.

Lemma try_insert_total s (seen : list Certificate) x :
  dag_ok G (cr_gc (st_last_round s)) (st_dag s) -> 0 <= cr_gc (st_last_round s) -> certified G x -> delivered seen s ->
  (forall p, 2 <= Certificate_round x -> p ∈ Certificate_parents x -> exists y, y ∈ seen ∧ certified G y ∧ Certificate_digest y = p) ->
  exists s' b, try_insert x s = Some (s', Ok b) ∧ delivered (seen ++ [x]) s' ∧ st_last_sub_dag s' = st_last_sub_dag s.
Proof.
  intros Hok Hgc Hx Hdel Hpar.
  assert (is_Some (try_insert_in_dag (st_dag s) (st_last_committed s) (cr_gc (st_last_round s)) x)) as [[dag r] Hi].
  { unfold try_insert_in_dag. destruct (Z.leb_spec (Certificate_round x) (cr_gc (st_last_round s))); [eauto|].
    rewrite (check_parents_total _ _ seen); [|done|lia|done|done|intros p Hp; apply Hpar; lia]. simpl. repeat case_match; eauto. }
  unfold try_insert. rewrite Hi. simpl.
  destruct (try_insert_in_dag_ok c G Hcd _ _ _ _ _ _ Hok Hgc Hx Hi) as [(-> & -> & Hle)|(-> & Hok' & Hlt & ->)].
  - do 2 eexists. split_and!; [done| |done]. intros y [Hy|Hy]%elem_of_app; [by apply Hdel|].
    apply list_elem_of_singleton in Hy as ->. simpl. lia.
  - do 2 eexists. split_and!; [done| |done]. intros y [Hy|Hy]%elem_of_app Hgy; simpl in *.
    + destruct (Hdel y Hy Hgy) as (z & Hz & <-). by eapply dag_insert_keeps_has.
    + apply list_elem_of_singleton in Hy as ->. exists x. split; [apply dag_insert_has|done].
Qed.
End delivered.

(** ** Committing leaders *)

Section commit_total.
Context `{HH : HeaderHash} `{HR : Rng} (c : Committee) (Hc : committee_wf c) (G : gmap Z Header) (Hcd : certified_dag c G).
Context (score : ScoreFn) (Hproper : score_proper score) (Htotal : score_total c score) (depth : Z) (Hdepth : 1 <= depth).
Abbreviation mid := (node_mid G score depth).

Lemma commit_values s outs ls leader :
  mid s outs ls -> scores_ok c (st_last_sub_dag s) -> dag_has (st_dag s) leader ->
  cr_committed (st_last_round s) < Certificate_round leader ->
  exists seq sc, order_dag leader s = Finished seq ∧
    score (st_last_sub_dag s) seq (next_sub_dag_index s) = Some sc ∧ dom (rs_scores sc) = dom (cm_authorities_by_id c).
Proof.
  intros Hn Hsc Hl Hlt.
  destruct (order_dag_total c G Hcd _ _ (nm_dag _ _ _ _ _ _ Hn) leader s eq_refl Hl) as [seq Ho].
  { by rewrite (nm_depth _ _ _ _ _ _ Hn). }
  { rewrite (nm_gc _ _ _ _ _ _ Hn), (nm_depth _ _ _ _ _ _ Hn). unfold gc_round, u64_saturating_sub. lia. }
  destruct (order_dag_selection c G Hcd score depth Hdepth _ _ _ _ _ Hn Hl Ho) as [_ Hsel].
  destruct (Htotal (st_last_sub_dag s) seq (next_sub_dag_index s)) as (sc & ? & ?); [done| | |eauto].
  - intros x Hx. destruct (sel_elem _ _ _ _ _ Hsel (ce_header x)) as [Hin _]; [by apply list_elem_of_fmap_2|].
    apply elem_of_dom. by eapply (cd_author _ _ Hcd).
  - unfold next_sub_dag_index. by intros ->.
Qed.

(** An engine that commits a leader whenever its sequence and scores exist. *)
Context {E : Type} (f : Certificate -> EM (E * ConsensusState) ConsensusError CommittedSubDag) (good : E -> Prop).
Context (Hf : forall leader e s seq sc, good e -> order_dag leader s = Finished seq ->
  score (st_last_sub_dag s) seq (next_sub_dag_index s) = Some sc ->
  let d := CommittedSubDag_new seq leader (next_sub_dag_index s) sc (st_last_sub_dag s) in
  exists e', f leader (e, s) = Some ((e', set_last_sub_dag (foldl ConsensusState_update s seq) d), Ok d) ∧ good e').

Lemma commits_total (seen : list Certificate) leaders e s outs ls :
  good e -> mid s outs ls -> scores_ok c (st_last_sub_dag s) -> delivered seen s ->
  (forall x, x ∈ leaders -> dag_has (st_dag s) x ∧ cr_committed (st_last_round s) < Certificate_round x) ->
  StronglySorted (fun x y => Certificate_round x < Certificate_round y) leaders ->
  exists e' s' ds, em_iter f leaders (e, s) = Some ((e', s'), Ok ds) ∧ good e' ∧
    scores_ok c (st_last_sub_dag s') ∧ delivered seen s'.
Proof.
  revert e s outs ls. induction leaders as [|leader leaders IH]; intros e s outs ls Hg Hn Hsc Hdel Hl Hsort; simpl; [eauto 10|].
  destruct (Hl leader ltac:(set_solver)) as [Hleader Hr]. inversion Hsort as [|? ? Hsort' Hlt]; subst. rewrite Forall_forall in Hlt.
  destruct (commit_values _ _ _ _ Hn Hsc Hleader Hr) as (seq & sc & Ho & Hs & Hdom).
  destruct (Hf leader e s seq sc Hg Ho Hs) as (e1 & He1 & Hg1).
  destruct (commit_leader_step c Hc G Hcd score Hproper depth Hdepth _ _ _ _ _ _ _ Hn Hleader Hr Ho Hs eq_refl) as [Hn1 Hkeep].
  destruct (update_sequence c Hc G Hcd score Hproper depth Hdepth _ _ _ _ _ Hn Hleader Hr Ho) as (Hcm & Hgc & Hgcle & Hdag).
  destruct (IH e1 _ _ _ Hg1 Hn1) as (e2 & s2 & ds & Hi & Hg2 & Hsc2 & Hdel2).
  - intros d [= <-]. done.
  - intros y Hy Hgy. simpl in *. destruct (Hdel y Hy ltac:(lia)) as (z & Hz & He). exists z. split; [|done].
    rewrite Hdag. apply dag_has_filter; [done|]. unfold Certificate_round in *. by rewrite He.
  - intros x Hx. split; [apply Hkeep; [apply Hl; set_solver|by apply Hlt]|]. simpl. rewrite Hcm. by apply Hlt.
  - done.
  - exists e2, s2, (CommittedSubDag_new seq leader (next_sub_dag_index s) sc (st_last_sub_dag s) :: ds).
    split_and!; [|done..]. unfold mbind, EM_bind. rewrite He1. unfold mbind, EM_bind in Hi. by rewrite Hi.
Qed.
End commit_total.

(** ** The engines *)

Section engines_total.
Context `{HH : HeaderHash} `{HR : Rng} (c : Committee).

(** Bullshark with a fixed schedule, a positive schedule length and a store that
    works. *)
Definition bullshark_good (num : Z) (b : Bullshark) : Prop :=
  bs_committee b = c ∧ bs_new_leader_election_schedule b = false ∧ bs_num_sub_dags_per_schedule b = num ∧
  bs_leader_schedule b = original_schedule c ∧ css_outcomes (bs_store b) = [].

Definition tusk_good (t : Tusk) : Prop :=
  tk_committee t = c ∧ tk_leader_schedule t = original_schedule c ∧ css_outcomes (tk_store t) = [].

Lemma write_ok lc d s : css_outcomes s = [] ->
  exists s', write_consensus_state lc d s = (s', Ok tt) ∧ css_outcomes s' = [].
Proof. unfold write_consensus_state. intros ->. eauto. Qed.

Lemma Bullshark_commit_total num leader b s seq sc :
  bullshark_good num b -> order_dag leader s = Finished seq ->
  bullshark_score c num (st_last_sub_dag s) seq (next_sub_dag_index s) = Some sc ->
  let d := CommittedSubDag_new seq leader (next_sub_dag_index s) sc (st_last_sub_dag s) in
  exists b', Bullshark_commit_leader leader (b, s) = Some ((b', set_last_sub_dag (foldl ConsensusState_update s seq) d), Ok d)
    ∧ bullshark_good num b'.
Proof.
  intros (Hc & Hflag & Hnum & Hsch & Hst) Ho Hs d. unfold Bullshark_commit_leader.
  unfold mbind, EM_bind, em_get, em_run, em_lift, em_modify, mret, EM_ret. rewrite Ho.
  destruct (update_fields s seq) as (_ & Hsd & _).
  assert (resolve_reputation_score b (foldl ConsensusState_update s seq) seq (next_sub_dag_index s) = Some sc) as Hr.
  { rewrite <- Hs. unfold bullshark_score, resolve_reputation_score. simpl. by rewrite Hsd, Hc, Hnum. }
  rewrite Hr, Hsd. fold d.
  destruct (write_ok (st_last_committed (foldl ConsensusState_update s seq)) d (bs_store b) Hst) as (st' & -> & Hst').
  unfold update_leader_schedule. cbn [bs_set_store bs_new_leader_election_schedule]. rewrite Hflag. simpl.
  eexists. split; [done|]. by repeat split.
Qed.

Lemma Tusk_commit_total leader t s seq sc :
  tusk_good t -> order_dag leader s = Finished seq ->
  tusk_score c (st_last_sub_dag s) seq (next_sub_dag_index s) = Some sc ->
  let d := CommittedSubDag_new seq leader (next_sub_dag_index s) sc (st_last_sub_dag s) in
  exists t', Tusk_commit_leader leader (t, s) = Some ((t', set_last_sub_dag (foldl ConsensusState_update s seq) d), Ok d)
    ∧ tusk_good t'.
Proof.
  intros (Hc & Hsch & Hst) Ho Hs d. unfold Tusk_commit_leader.
  unfold mbind, EM_bind, em_get, em_run, em_lift, em_modify, mret, EM_ret. rewrite Ho.
  destruct (update_fields s seq) as (_ & Hsd & _). unfold tusk_score in Hs. rewrite Hc, Hs, Hsd. fold d.
  destruct (write_ok (st_last_committed (foldl ConsensusState_update s seq)) d (tk_store t) Hst) as (st' & -> & Hst').
  eexists. split; [done|]. by repeat split.
Qed.
End engines_total.

(** ** Processing a certificate *)

Section process_total.
Context `{HH : HeaderHash} `{HR : Rng} `{!RngLaws} (c : Committee) (Hc : committee_wf c) (G : gmap Z Header) (Hcd : certified_dag c G).
Context (score : ScoreFn) (Hproper : score_proper score) (depth : Z) (Hdepth : 1 <= depth).
Abbreviation sched := (original_schedule c).

(** The leaders to commit are found. *)
Lemma leaders_total s outs ls r a leader m :
  node_mid G score depth s outs ls -> committed_leaders c G (elected sched) ls ->
  r mod 2 = 0 -> 2 <= r -> cr_committed (st_last_round s) < r ->
  leader_certificate sched r (st_dag s) = Some (a, Some leader) -> st_dag s !! (r + 1) = Some m ->
  cm_validity_threshold c <= support_stake c m leader ->
  exists leaders, Certificate_round leader mod 2 = 0 ∧
    walk_leaders sched (st_dag s)
      (rev_step_by_2 (cr_committed (st_last_round s) +u64 2) (Certificate_round leader -u64 2)) leader [leader] = Some leaders ∧
    report_leaders c leaders = Some tt ∧
    (forall x, x ∈ reverse leaders -> dag_has (st_dag s) x ∧ cr_committed (st_last_round s) < Certificate_round x) ∧
    StronglySorted (fun x y => Certificate_round x < Certificate_round y) (reverse leaders).
Proof.
  intros Hn Hh Hev Hge Hlt Hf Hm Hsup.
  destruct (leader_certificate_some G sched _ _ (nm_dag _ _ _ _ _ _ Hn) _ _ _ Hf) as (Hld & <- & Ha).
  destruct (dag_has_certified _ _ _ (nm_dag _ _ _ _ _ _ Hn) _ Hld) as [Hcl _].
  pose proof (in_dag_round _ _ Hcd _ Hcl) as Hrl. change (he_round (ce_header leader)) with (Certificate_round leader) in Hrl.
  assert (0 <= cr_gc (st_last_round s)) as Hgc0 by by eapply gc_nonneg.
  assert (0 <= cr_committed (st_last_round s)) as Hc0 by by eapply committed_nonneg.
  assert (supported c G (ce_header leader)) as Hs by by eapply (support_stake_supported c Hc G _ _ (nm_dag _ _ _ _ _ _ Hn)).
  destruct (walk_leaders_total c Hc G Hcd _ _ Hgc0 (nm_dag _ _ _ _ _ _ Hn) (cr_committed (st_last_round s) +u64 2)
    (Z.to_nat (Certificate_round leader)) (Certificate_round leader -u64 2) leader [leader]) as [leaders Hw].
  1-4: pose proof (u64_add_range (cr_committed (st_last_round s)) 2); unfold u64_sub; rewrite ?(Z.mod_small (Certificate_round leader - 2)) by lia;
    first [done | lia | by rewrite Zminus_mod, Hev].
  destruct (walk_ok c Hc G Hcd sched score Hproper depth Hdepth _ _ _ _ _ Hn Hh Hld Ha Hs Hev Hge Hlt Hw) as (Hin & Hsort & _).
  exists leaders. split_and!; [done|done| | |by apply StronglySorted_reverse].
  - apply (report_leaders_total c Hc G Hcd). intros x Hx.
    apply (dag_has_certified _ _ _ (nm_dag _ _ _ _ _ _ Hn)). by apply Hin.
  - intros x Hx. apply Hin. by rewrite elem_of_reverse in Hx.
Qed.

(** What must hold of the state before a certificate comes. *)
Record safe_state (s : ConsensusState) (outs : list CommittedSubDag) (seen : list Certificate) : Prop := {
  ss_node : node_ok c G sched score depth s outs;
  ss_scores : scores_ok c (st_last_sub_dag s);
  ss_delivered : delivered seen s
}.

(** The certificate is certified and its parents have been received. *)
Definition receivable (seen : list Certificate) (x : Certificate) : Prop :=
  certified G x ∧ forall p, 2 <= Certificate_round x -> p ∈ Certificate_parents x ->
    exists y, y ∈ seen ∧ certified G y ∧ Certificate_digest y = p.

Lemma insert_total s outs seen x :
  safe_state s outs seen -> receivable seen x ->
  exists s' b ls, try_insert x s = Some (s', Ok b) ∧ delivered (seen ++ [x]) s' ∧
    node_mid G score depth s' outs ls ∧ committed_leaders c G (elected sched) ls ∧
    scores_ok c (st_last_sub_dag s') ∧ (b = true -> exists m, st_dag s' !! Certificate_round x = Some m).
Proof.
  intros [(ls & Hn & Hh) Hsc Hdel] [Hx Hpar].
  destruct (try_insert_total c Hc G Hcd s seen x (nm_dag _ _ _ _ _ _ Hn)) as (s' & b & Hi & Hdel' & Hsd); try done.
  { by eapply gc_nonneg. }
  destruct (try_insert_ok c G Hcd score depth _ _ _ _ _ _ Hn Hx Hi) as (Hn' & _ & _ & Hhas).
  exists s', b, ls. split_and!; [done|done|done|done|by rewrite Hsd|].
  intros ->. destruct (Hhas eq_refl) as [(m & Hm & _) _]. eauto.
Qed.
End process_total.

Section engines_process.
Context `{HH : HeaderHash} `{HR : Rng} `{!RngLaws} (c : Committee) (Hc : committee_wf c) (G : gmap Z Header) (Hcd : certified_dag c G).
Context (depth : Z) (Hdepth : 1 <= depth).

Lemma Bullshark_process_total num b s outs seen x :
  0 < num -> bullshark_good c num b -> safe_state c G (bullshark_score c num) depth s outs seen -> receivable G seen x ->
  exists b' s' o ds, Bullshark_process_certificate x (b, s) = Some ((b', s'), Ok (o, ds)) ∧ bullshark_good c num b' ∧
    scores_ok c (st_last_sub_dag s') ∧ delivered (seen ++ [x]) s'.
Proof.
  intros Hnum Hg Hsafe Hx. pose proof (in_dag_round _ _ Hcd _ (proj1 Hx)) as Hrx.
  change (he_round (ce_header x)) with (Certificate_round x) in Hrx.
  destruct (insert_total c Hc G Hcd _ depth _ _ _ _ Hsafe Hx) as (s1 & ins & ls & Hi & Hdel & Hn & Hh & Hsc & Hm).
  pose proof Hg as (Hbc & Hflag & Hbn & Hsch & Hst). unfold Bullshark_process_certificate.
  erewrite em_bind_ok; [|unfold em_snd; by rewrite Hi]. destruct ins; simpl; [|eauto 10].
  erewrite em_bind_ok by done. simpl. unfold Bullshark_report_leader_on_time_metrics. rewrite Hsch.
  destruct (on_time_metrics_total c Hc (bs_max_inserted_certificate_round b) (Certificate_round x)) as [mx ->]; [lia|]. simpl.
  erewrite em_bind_ok by done. erewrite em_bind_ok by done. cbn [bs_set_max_inserted bs_leader_schedule bs_committee].
  assert (bullshark_good c num (bs_set_max_inserted b mx)) as Hg1 by by repeat split.
  destruct (negb _ || _) eqn:E1; [eauto 10|]. destruct (_ <=? _) eqn:E2; [eauto 10|].
  apply orb_false_iff in E1 as [E1%negb_false_iff%Z.eqb_eq E3%Z.ltb_ge]. apply Z.leb_gt in E2.
  rewrite Hsch. destruct (leader_certificate_total c Hc (Certificate_round x -u64 1) (st_dag s1) E1) as (a & o & Hf & Ha). rewrite Hf.
  erewrite em_bind_ok by done. destruct o as [leader|]; [|eauto 10]. destruct (Hm eq_refl) as [m Hdm]. rewrite Hdm.
  erewrite em_bind_ok by done. rewrite Hbc. destruct (_ <? _) eqn:E4; [eauto 10|]. apply Z.ltb_ge in E4.
  assert (st_dag s1 !! (Certificate_round x -u64 1 + 1) = Some m) as Hdm1.
  { unfold u64_sub. rewrite Z.mod_small by lia. by rewrite Z.sub_add. }
  destruct (leaders_total c Hc G Hcd _ (bullshark_score_proper c num) depth Hdepth s1 outs ls _ a leader m Hn Hh E1 E3 E2 Hf Hdm1 E4)
    as (leaders & Hev & Hw & Hrep & Hin & Hsort).
  unfold Bullshark_order_leaders. cbn [bs_set_max_inserted bs_leader_schedule bs_committee]. rewrite Hev, Hsch, Hw, Hbc. simpl. rewrite Hrep. simpl.
  erewrite em_bind_ok by done.
  destruct (commits_total c Hc G Hcd _ (bullshark_score_proper c num) (bullshark_score_total c Hc num Hnum) depth Hdepth
    Bullshark_commit_leader (bullshark_good c num) (Bullshark_commit_total c num) (seen ++ [x]) _ _ s1 outs ls Hg1 Hn Hsc Hdel Hin Hsort)
    as (b' & s' & ds & Hit & Hg' & Hsc' & Hdel').
  erewrite em_bind_ok by exact Hit. eauto 10.
Qed.

Lemma Tusk_process_total t s outs seen x :
  tusk_good c t -> safe_state c G (tusk_score c) depth s outs seen -> receivable G seen x ->
  exists t' s' o ds, Tusk_process_certificate x (t, s) = Some ((t', s'), Ok (o, ds)) ∧ tusk_good c t' ∧
    scores_ok c (st_last_sub_dag s') ∧ delivered (seen ++ [x]) s'.
Proof.
  intros Hg Hsafe Hx. pose proof (in_dag_round _ _ Hcd _ (proj1 Hx)) as Hrx.
  change (he_round (ce_header x)) with (Certificate_round x) in Hrx.
  destruct (insert_total c Hc G Hcd _ depth _ _ _ _ Hsafe Hx) as (s1 & ins & ls & Hi & Hdel & Hn & Hh & Hsc & Hm).
  pose proof Hg as (Htc & Hsch & Hst). unfold Tusk_process_certificate.
  erewrite em_bind_ok; [|unfold em_snd; by rewrite Hi]. destruct ins; simpl; [|eauto 10].
  erewrite em_bind_ok by done. simpl. unfold Tusk_report_leader_on_time_metrics. rewrite Hsch.
  destruct (on_time_metrics_total c Hc (tk_max_inserted_certificate_round t) (Certificate_round x)) as [mx ->]; [lia|]. simpl.
  erewrite em_bind_ok by done. erewrite em_bind_ok by done. cbn [tk_leader_schedule tk_committee].
  assert (tusk_good c (mkTusk (tk_committee t) (tk_store t) mx (original_schedule c))) as Hg1 by by repeat split.
  destruct (negb _ || _) eqn:E1; [eauto 10|]. destruct (_ <=? _) eqn:E2; [eauto 10|].
  apply orb_false_iff in E1 as [E1%negb_false_iff%Z.eqb_eq E3%Z.ltb_ge]. apply Z.leb_gt in E2.
  destruct (leader_certificate_total c Hc (Certificate_round x -u64 1) (st_dag s1) E1) as (a & o & Hf & Ha). rewrite Hf.
  erewrite em_bind_ok by done. destruct o as [leader|]; [|eauto 10]. destruct (Hm eq_refl) as [m Hdm]. rewrite Hdm.
  erewrite em_bind_ok by done. rewrite Htc in *. destruct (_ <? _) eqn:E4; [eauto 10|]. apply Z.ltb_ge in E4.
  assert (st_dag s1 !! (Certificate_round x -u64 1 + 1) = Some m) as Hdm1.
  { unfold u64_sub. rewrite Z.mod_small by lia. by rewrite Z.sub_add. }
  destruct (leaders_total c Hc G Hcd _ (tusk_score_proper c) depth Hdepth s1 outs ls _ a leader m Hn Hh E1 E3 E2 Hf Hdm1 E4)
    as (leaders & Hev & Hw & Hrep & Hin & Hsort).
  unfold Tusk_order_leaders. cbn [tk_leader_schedule tk_committee]. rewrite Hev, Tusk_walk_leaders_eq, Hw. simpl. rewrite Hrep. simpl.
  erewrite em_bind_ok by done.
  destruct (commits_total c Hc G Hcd _ (tusk_score_proper c) (tusk_score_total c Hc) depth Hdepth
    Tusk_commit_leader (tusk_good c) (Tusk_commit_total c) (seen ++ [x]) _ _ s1 outs ls Hg1 Hn Hsc Hdel Hin Hsort)
    as (t' & s' & ds & Hit & Hg' & Hsc' & Hdel').
  erewrite em_bind_ok by exact Hit. eauto 10.
Qed.
End engines_process.

(** ** The consensus loop *)

Definition protocol_good (c : Committee) (p : ConsensusProtocol) : Prop :=
  match p with
  | ProtocolBullshark b => 0 < bs_num_sub_dags_per_schedule b ∧ bullshark_good c (bs_num_sub_dags_per_schedule b) b
  | ProtocolTusk t => tusk_good c t
  end.

Definition channels_open (ch : ConsensusChannels) : Prop :=
  ch_sequence_open ch = true ∧ ch_committed_open ch = true ∧ ch_rounds_open ch = true.

Section loop_total.
Context `{HH : HeaderHash} `{HR : Rng} `{!RngLaws} (c : Committee) (Hc : committee_wf c) (G : gmap Z Header) (Hcd : certified_dag c G).
Context (depth : Z) (Hdepth : 1 <= depth).

Lemma protocol_good_config p :
  protocol_good c p -> protocol_committee p = c ∧ fixed_schedule p ∧ protocol_schedule p = original_schedule c.
Proof. destruct p; [intros (_ & ? & ? & _ & ? & _)|intros (? & ? & _)]; done. Qed.

Lemma process_certificate_total p s outs seen x :
  protocol_good c p -> safe_state c G (protocol_score p) depth s outs seen -> receivable G seen x ->
  exists p' s' o ds, process_certificate x (p, s) = Some ((p', s'), Ok (o, ds)) ∧ protocol_good c p' ∧
    same_protocol p p' ∧ safe_state c G (protocol_score p) depth s' (outs ++ ds) (seen ++ [x]).
Proof.
  intros Hg Hsafe Hx. destruct (protocol_good_config p Hg) as (Hpc & Hfix & Hsch).
  assert (exists p' s' o ds, process_certificate x (p, s) = Some ((p', s'), Ok (o, ds)) ∧ protocol_good c p' ∧
    scores_ok c (st_last_sub_dag s') ∧ delivered (seen ++ [x]) s') as (p' & s' & o & ds & Hp & Hg' & Hsc & Hdel).
  { unfold process_certificate. destruct p as [b|t].
    - destruct Hg as [Hnum Hg]. simpl in Hsafe, Hpc. rewrite Hpc in Hsafe.
      destruct (Bullshark_process_total c Hc G Hcd depth Hdepth _ b s outs seen x Hnum Hg Hsafe Hx) as (b' & s' & o & ds & -> & Hg' & ? & ?).
      simpl. exists (ProtocolBullshark b'), s', o, ds. split_and!; [done| |done|done].
      pose proof Hg' as (_ & _ & Hn' & _). simpl. by rewrite Hn'.
    - simpl in Hsafe, Hpc. rewrite Hpc in Hsafe.
      destruct (Tusk_process_total c Hc G Hcd depth Hdepth t s outs seen x Hg Hsafe Hx) as (t' & s' & o & ds & -> & ? & ? & ?).
      simpl. exists (ProtocolTusk t'), s', o, ds. by split_and!. }
  exists p', s', o, ds. split; [done|]. split; [done|].
  apply process_certificate_step in Hp as [Hsame Hstep]; [|done]. split; [done|]. split; [|done|done].
  rewrite Hpc, Hsch in Hstep. eapply node_step_ok; [done|done|apply protocol_score_proper|done|apply Hsafe|apply Hx|exact Hstep].
Qed.

(** The highest committed round is the one of the last leader. *)
Lemma committed_round_max score s outs d :
  score_proper score -> node_ok c G (original_schedule c) score depth s (outs ++ [d]) ->
  cr_committed (st_last_round s) = Certificate_round (sd_leader d) ∧
  (forall e y, e ∈ outs ++ [d] -> y ∈ sd_certificates e -> Certificate_round y <= Certificate_round (sd_leader d)) ∧
  exists y, y ∈ sd_certificates d ∧ Certificate_round y = Certificate_round (sd_leader d).
Proof.
  intros Hproper Hok. pose proof (node_ok_replay c G Hcd _ _ depth Hdepth _ _ Hok) as Hri.
  rewrite fmap_app in Hri. simpl in Hri. destruct Hok as (ls & Hn & Hh).
  assert (ls = cv_leader <$> (view <$> reverse (outs ++ [d]))) as Hls.
  { symmetry. eapply (replay_ok c G Hcd score depth Hdepth _ _ _ (nm_replay _ _ _ _ _ _ Hn) (nm_leaders _ _ _ _ _ _ Hn)).
    by eapply committed_sorted. }
  rewrite reverse_snoc in Hls. rewrite (nm_committed _ _ _ _ _ _ Hn), Hls. split; [done|]. split.
  - intros e y He Hy. destruct (ri_round _ _ _ _ Hri (ce_header y)) as (v & Hv & Hle).
    + unfold committed_headers. apply list_elem_of_bind. exists (view e). split; [by apply list_elem_of_fmap_2|].
      change [view d] with (view <$> [d]). rewrite <- fmap_app. by apply list_elem_of_fmap_2.
    + rewrite last_snoc in Hv. by injection Hv as <-.
  - pose proof (ri_seq _ _ _ _ Hri (length outs) (view d)) as Hck.
    destruct Hck as [_ _ _ Hlast _ _ _ _ _].
    { by rewrite lookup_app_r, length_fmap, Nat.sub_diag by by rewrite length_fmap. }
    simpl in Hlast. apply last_Some_elem_of, list_elem_of_fmap in Hlast as (y & Hy & Hin). exists y. split; [done|].
    unfold Certificate_round. by rewrite <- Hy.
Qed.
Definition safe_loop (p : ConsensusProtocol) (n : Consensus) (outs : list CommittedSubDag) (seen : list Certificate) : Prop :=
  cn_committee n = c ∧ protocol_good c (cn_protocol n) ∧ same_protocol p (cn_protocol n) ∧
  safe_state c G (protocol_score p) depth (cn_state n) outs seen ∧ channels_open (cn_channels n).

Lemma send_all_total ds n :
  channels_open (cn_channels n) ->
  exists ch us, em_iter (fun d => on_channels (send_sequence d)) ds n =
    Some (mkConsensus (cn_committee n) (cn_protocol n) (cn_state n) ch, Ok us) ∧ channels_open ch.
Proof.
  revert n. induction ds as [|d ds IH]; intros n Hopen; simpl.
  { exists (cn_channels n), []. by destruct n. }
  erewrite em_bind_ok; [|unfold on_channels, send_sequence; by rewrite (proj1 Hopen)].
  destruct (IH (mkConsensus (cn_committee n) (cn_protocol n) (cn_state n)
    (mkChannels (ch_sequence (cn_channels n) ++ [d]) (ch_committed (cn_channels n)) (ch_rounds (cn_channels n))
       true (ch_committed_open (cn_channels n)) (ch_rounds_open (cn_channels n)))))
    as (ch & us & Hus & Hch); [by destruct Hopen as (_ & ? & ?)|].
  erewrite em_bind_ok by exact Hus. simpl. eauto.
Qed.

(** The assertion of the loop. *)
Lemma committed_round_assertion p s outs ds r rs :
  node_ok c G (original_schedule c) (protocol_score p) depth s (outs ++ ds) ->
  Certificate_round <$> (ds ≫= sd_certificates) = r :: rs -> cr_committed (st_last_round s) = foldl Z.max r rs.
Proof.
  intros Hok Hr. destruct ds as [|d ds _] using rev_ind; [done|]. rewrite (assoc_L (++)) in Hok.
  destruct (committed_round_max _ _ _ _ (protocol_score_proper p) Hok) as (-> & Hle & y & Hy & Hyr).
  apply Z.le_antisymm.
  - apply foldl_max_le. rewrite <- Hr, <- Hyr. apply list_elem_of_fmap_2, list_elem_of_bind. exists d. set_solver.
  - pose proof (foldl_max_elem_of rs r) as Hin. rewrite <- Hr in Hin.
    apply list_elem_of_fmap in Hin as (z & -> & (e & He & Hz)%list_elem_of_bind). apply (Hle e z); [set_solver|done].
Qed.

Lemma run_inner_step_total p n outs (seen : list Certificate) x :
  safe_loop p n outs seen -> (Certificate_epoch x = cm_epoch c -> receivable G seen x) ->
  exists n' outs', run_inner_step x n = Some (n', Ok tt) ∧
    safe_loop p n' outs' (seen ++ (if decide (Certificate_epoch x = cm_epoch c) then [x] else [])).
Proof.
  intros (Hcm & Hg & Hsame & Hsafe & Hopen) Hx. unfold run_inner_step. erewrite em_bind_ok by done. rewrite Hcm.
  destruct (Z.eqb_spec (Certificate_epoch x) (cm_epoch c)) as [He|Hne]; simpl.
  2: { exists n, outs. rewrite decide_False, app_nil_r by done. by split_and!. }
  rewrite decide_True by done. pose proof Hsame as (_ & _ & Hsc & _). rewrite <- Hsc in Hsafe.
  destruct (process_certificate_total _ _ _ _ _ Hg Hsafe (Hx He)) as (p' & s' & o & ds & Hp & Hg' & Hsame' & Hsafe').
  rewrite Hsc in Hsafe'. assert (same_protocol p p') as Hsame2 by by eapply same_protocol_trans.
  erewrite em_bind_ok; [|unfold on_protocol; by rewrite Hp].
  destruct (send_all_total ds (mkConsensus (cn_committee n) p' s' (cn_channels n)) Hopen) as (ch & us & Hus & Hch).
  erewrite em_bind_ok by exact Hus. cbn [cn_committee cn_protocol cn_state cn_channels].
  destruct (Certificate_round <$> _) as [|r rs] eqn:Er.
  { eexists _, (outs ++ ds). split; [done|]. by split_and!. }
  destruct Hch as (Ho1 & Ho2 & Ho3).
  erewrite em_bind_ok; [|unfold on_channels, send_committed; simpl; by rewrite Ho2].
  erewrite em_bind_ok by done. cbn [cn_committee cn_protocol cn_state cn_channels].
  rewrite (committed_round_assertion p s' outs ds r rs (ss_node _ _ _ _ _ _ _ Hsafe') Er), Z.eqb_refl.
  unfold on_channels, send_round. simpl. rewrite Ho3. simpl. eexists _, (outs ++ ds). split; [done|]. by split_and!.
Qed.

Lemma run_inner_total p xs n outs seen :
  safe_loop p n outs seen ->
  (forall i x, xs !! i = Some x -> Certificate_epoch x = cm_epoch c ->
    receivable G (seen ++ filter (fun y => Certificate_epoch y = cm_epoch c) (take i xs)) x) ->
  exists n' us, em_iter run_inner_step xs n = Some (n', Ok us).
Proof.
  revert n outs seen. induction xs as [|x xs IH]; intros n outs seen Hs Hxs; simpl; [eauto|].
  destruct (run_inner_step_total p n outs seen x Hs) as (n1 & outs1 & Hx & Hs1).
  { intros He. specialize (Hxs 0%nat x eq_refl He). by rewrite app_nil_r in Hxs. }
  erewrite em_bind_ok by exact Hx. destruct (IH _ _ _ Hs1) as (n2 & us & Hus).
  { intros i y Hy He. specialize (Hxs (S i) y Hy He). simpl in Hxs. rewrite filter_cons in Hxs.
    rewrite <- (assoc_L (++)). by destruct (decide _). }
  erewrite em_bind_ok by exact Hus. eauto.
Qed.
End loop_total.

(** C8. Consensus does not stop: when every certificate is certified and comes after
    its parents, the store works and the channels are open, the loop of Tusk or of
    Bullshark with a fixed schedule processes all certificates without a panic, a
    failed assertion or an error. *)
Theorem consensus_never_panics `{HH : HeaderHash} `{HR : Rng} `{!RngLaws} (c : Committee) (G : gmap Z Header) (depth : Z)
    (p : ConsensusProtocol) (xs : list Certificate) (ch : ConsensusChannels) :
  committee_wf c -> certified_dag c G -> 1 <= depth -> protocol_good c p -> channels_open ch ->
  (forall x, x ∈ xs -> Certificate_epoch x = cm_epoch c -> certified G x) -> causal c xs ->
  exists n, run_inner xs (started c p depth ch) = Some (n, Ok tt).
Proof.
  intros Hc Hcd Hd Hg Hch Hxs Hca. destruct (protocol_good_config c p Hg) as (Hpc & Hfix & Hsch).
  destruct (run_inner_total c Hc G Hcd depth Hd p xs (started c p depth ch) [] []) as (n & us & Hn).
  - split_and!; [done|done|done| |done]. split; [by apply init_ok|done|by intros y ?%not_elem_of_nil].
  - intros i x Hi He. split; [apply Hxs; [by eapply list_elem_of_lookup_2|done]|]. intros q Hr Hq.
    destruct (Hca i x q Hi He Hr Hq) as (y & Hy & Hey & Hdy). exists y. simpl. split_and!; [|apply Hxs; [|done]|done].
    + by apply list_elem_of_filter.
    + apply list_elem_of_lookup in Hy as [j [Hj _]%lookup_take_Some]. by eapply list_elem_of_lookup_2.
  - exists n. unfold run_inner. by erewrite em_bind_ok by exact Hn.
Qed.

(** A check of causal delivery. *)
Fixpoint check_causal `{HeaderHash} (c : Committee) (seen : list Z) (xs : list Certificate) : bool :=
  match xs with
  | [] => true
  | x :: xs =>
      forallb (fun p => (Certificate_round x <? 2) || existsb (Z.eqb p) seen) (Certificate_parents x)
      && check_causal c (if Certificate_epoch x =? cm_epoch c then seen ++ [Certificate_digest x] else seen) xs
  end.

Lemma check_causal_sound `{HeaderHash} (c : Committee) xs : check_causal c [] xs = true -> causal c xs.
Proof.
  assert (forall xs pre seen, check_causal c seen xs = true ->
    (forall d, d ∈ seen -> exists y, y ∈ pre ∧ Certificate_epoch y = cm_epoch c ∧ Certificate_digest y = d) ->
    forall i x p, xs !! i = Some x -> 2 <= Certificate_round x -> p ∈ Certificate_parents x ->
    exists y, y ∈ pre ++ take i xs ∧ Certificate_epoch y = cm_epoch c ∧ Certificate_digest y = p) as Hgen.
  { clear. induction xs as [|x xs IH]; intros pre seen Hck Hseen i y p Hi Hr Hp; [done|]. simpl in Hck.
    apply andb_true_iff in Hck as [Hx Hxs]. destruct i as [|i]; simpl in Hi |- *.
    - injection Hi as <-. rewrite forallb_forall in Hx. specialize (Hx p ltac:(by apply list_elem_of_In)).
      destruct (Z.ltb_spec (Certificate_round x) 2); [lia|]. apply existsb_exists in Hx as (d & Hd & ->%Z.eqb_eq).
      rewrite app_nil_r. apply Hseen. by apply list_elem_of_In.
    - rewrite cons_middle, (assoc_L (++)). eapply IH; [exact Hxs| |done..]. intros d Hd.
      destruct (Z.eqb_spec (Certificate_epoch x) (cm_epoch c)); [apply elem_of_app in Hd as [Hd|Hd]|].
      2: { apply list_elem_of_singleton in Hd as ->. exists x. set_solver. }
      all: destruct (Hseen d Hd) as (z & ? & ?); exists z; set_solver. }
  intros Hck i x p Hi _ Hr Hp. destruct (Hgen xs [] [] Hck) with i x p as (y & Hy & ?); [by intros d ?%not_elem_of_nil|done..|].
  by exists y.
Qed.

Lemma consensus_never_panics_witness :
  exists n, @run_inner sample_hash (rotating_rng 3) (cert <$> late_vote 3)
    (@started four (sample_bullshark false 2) 50 sample_channels) = Some (n, Ok tt).
Proof.
  apply (@consensus_never_panics sample_hash (rotating_rng 3) (rotating_rng_laws 3) four
    (@dag_of sample_hash (split_votes 3)) 50 (sample_bullshark false 2) (cert <$> late_vote 3) sample_channels).
  - apply four_wf.
  - apply split_votes_certified. set_solver.
  - done.
  - by repeat split.
  - done.
  - intros x Hx _. apply (split_votes_in_dag 3); [set_solver|]. by rewrite late_vote_permutation in Hx.
  - apply check_causal_sound. by vm_compute.
Defined.
