(* ===== verification/ConsensusLimits.v ===== *)
(** * Where consensus falls short

    Runs of the model in which the code does not do what it is meant to: with the
    new leader schedule enabled two nodes that receive the same certificates in
    different causal orders commit different leaders, and a swap table of a
    committee with unequal stakes can stop a node. *)

From S2P Require Import Prelude Committee DagTypes ConsensusCore Bullshark DagProps ConsensusSample Agreement ConsensusSafe.
Local Open Scope Z_scope.
Local Open Scope chase_scope.

#[local] Existing Instance sample_hash.

(** With the changing leader schedule nodes can disagree: two nodes of one
    committee receive the same certificates of a certified dag, each in a causal
    order, and both run without an error, yet neither output extends the other.
    The leaders of a recursive commit are chosen with the schedule of its start,
    while a node that commits them one by one changes the schedule in between. *)
Theorem schedule_change_disagrees :
  exists (R : Rng) (c : Committee) (G : gmap Z Header) (b : Bullshark) (xs xs' : list Certificate) (n n' : Consensus),
    RngLaws ∧ committee_wf c ∧ certified_dag c G ∧ bullshark_good c 2 (mkBullshark (bs_committee b) false (bs_store b)
      (bs_max_inserted_certificate_round b) (bs_num_sub_dags_per_schedule b) (bs_leader_schedule b)) ∧
    bs_new_leader_election_schedule b = true ∧
    Forall (certified G) xs ∧ xs ≡ₚ xs' ∧ causal c xs ∧ causal c xs' ∧
    run_inner xs (started c (ProtocolBullshark b) 50 sample_channels) = Some (n, Ok tt) ∧
    run_inner xs' (started c (ProtocolBullshark b) 50 sample_channels) = Some (n', Ok tt) ∧
    ¬ (view <$> ch_sequence (cn_channels n)) `prefix_of` (view <$> ch_sequence (cn_channels n')) ∧
    ¬ (view <$> ch_sequence (cn_channels n')) `prefix_of` (view <$> ch_sequence (cn_channels n)).
Proof.
  exists (rotating_rng 3), four, (dag_of (split_votes 3)), (Bullshark_new four sample_store true 2 sample_schedule),
    (cert <$> split_votes 3), (cert <$> late_vote 3),
    (sample_run 3 (sample_bullshark true 2) (split_votes 3)), (sample_run 3 (sample_bullshark true 2) (late_vote 3)).
  split; [apply rotating_rng_laws|]. split; [apply four_wf|].
  split; [apply split_votes_certified; set_solver|]. split; [by repeat split|]. split; [done|].
  split; [apply Forall_forall; intros x; apply split_votes_in_dag; set_solver|].
  split; [by rewrite late_vote_permutation|].
  split; [apply check_causal_sound; by vm_compute|]. split; [apply check_causal_sound; by vm_compute|].
  split; [vm_compute; reflexivity|]. split; [vm_compute; reflexivity|].
  split; intros [l Hl]; vm_compute in Hl; discriminate Hl.
Qed.

(** ** The swap table *)

(** Four authorities of which the first holds most of the stake. *)
Definition uneven_authorities : gmap Z Authority :=
  (add_authority (add_authority (add_authority (add_authority (0, ∅)
     100 5 0 200 "a") 101 1 0 201 "b") 102 1 0 202 "c") 103 1 0 203 "d").2.

Definition uneven : Committee := default (mkCommittee ∅ ∅ 0 0 0) (Committee_new uneven_authorities 0).

Lemma uneven_wf : committee_wf uneven.
Proof.
  apply (Committee_new_wf uneven_authorities) with (epoch := 0); [|vm_compute; done|vm_compute; reflexivity].
  change (map_Forall (fun _ a => 0 <= au_stake a) uneven_authorities).
  repeat (apply map_Forall_insert_2; [done|]). apply map_Forall_empty.
Qed.

(** Scores at the end of a schedule in which the first authority voted most. *)
Definition uneven_scores : ReputationScores := mkScores (list_to_map [(0, 9); (1, 3); (2, 2); (3, 1)]) true.

(** The best authority alone reaches the validity threshold, so the table has no
    good node, while two authorities are bad: electing either of them panics. *)
Theorem uneven_swap_panics :
  exists t, LeaderSwapTable_new uneven 4 uneven_scores = Some t ∧
    forall (R : Rng), RngLaws -> forall round, LeaderSwapTable_swap t 2 round = None ∧ LeaderSwapTable_swap t 3 round = None.
Proof.
  eexists. split; [vm_compute; reflexivity|]. intros R HR round. unfold LeaderSwapTable_swap. simpl.
  by rewrite rng_choose_nil.
Qed.
