(* ===== verification/Certification.v ===== *)
(** * Votes and certificates

    src/narwhal/types/src/primary.rs (validation of headers, votes, assembly and
    verification of certificates), src/narwhal/types/src/error.rs ([DagError]),
    src/narwhal/primary/src/aggregators.rs, and the worker index of
    src/narwhal/config/src/lib.rs.

    Signatures are those of the fastcrypto crate, the class [Signatures]; what it
    documents is stated in [SignatureLaws].  The intent wrapped around a digest before
    signing is part of the class.  A public key stands for its key pair. *)

From S2P Require Import Prelude Committee DagTypes.
Local Open Scope Z_scope.
Local Open Scope chase_scope.

(** ** Signatures *)

Class Signatures := {
  sign : Z -> Z -> Z;
  sig_verify : Z -> Z -> Z -> bool;
  agg_default : Z;
  aggregate : list Z -> option Z;
  agg_bytes : Z -> Z;
  agg_bytes_default : Z;
  agg_parse : Z -> option Z;
  agg_verify : Z -> Z -> list Z -> bool
}.

Class SignatureLaws `{Signatures} := {
  sign_verifies key digest : sig_verify (sign key digest) digest key = true;
  agg_parse_bytes a : agg_parse (agg_bytes a) = Some a;
  (** Valid signatures of a digest can be aggregated; a list with an invalid one may not. *)
  aggregate_valid sigs digest : sigs <> [] -> (forall s, s ∈ sigs -> exists key, sig_verify s digest key = true) ->
    is_Some (aggregate sigs);
  (** A signature aggregated from valid signatures of the keys is valid. *)
  aggregate_verifies sigs a digest keys :
    aggregate sigs = Some a -> Forall2 (fun s k => sig_verify s digest k = true) sigs keys ->
    agg_verify a digest keys = true
}.

(** ** Errors *)

Inductive DagError :=
  | InvalidBitmap
  | InvalidSignature
  | StoreError (e : string)
  | InvalidHeaderDigest
  | HeaderHasBadWorkerIds (header : Z)
  | HeaderHasInvalidParentRoundNumbers (header : Z)
  | HeaderHasInvalidParentTimestamp (header : Z)
  | HeaderHasDuplicateParentAuthorities (header : Z)
  | UnknownAuthority (authority : Z)
  | AuthorityReuse (authority : Z)
  | UnexpectedVote (header : Z)
  | AlreadyVoted (vote header round : Z)
  | AlreadyVotedNewerHeader (header round voted : Z)
  | CouldNotFormCertificate (header : Z)
  | CertificateRequiresQuorum
  | HeaderRequiresQuorum (header : Z)
  | TooManyParents (parents limit : Z)
  | TooOld (digest round gc_round : Z)
  | TooNew (digest round processed : Z)
  | InvalidEpoch (expected received : Z)
  | InvalidRound (expected received : Z)
  | InvalidTimestamp (created_time local_time : Z)
  | InvalidGenesisParent (digest : Z)
  | NetworkError (what : string)
  | Suspended (digest : Z)
  | ProposedHeaderMissingCertificates
  | NoCertificateFetched
  | TooManyFetchedCertificatesReturned (returned limit : Z)
  | Canceled
  | ShuttingDown.

(** [ensure!]. *)
Definition ensure {S} (condition : bool) (e : DagError) : EM S DagError unit :=
  if condition then mret tt else em_fail e.

(** ** Workers *)

(** The names of the workers of each authority; their addresses are left out. *)
Record WorkerCache := mkWorkerCache { wc_workers : gmap Z (gmap Z Z); wc_epoch : Z }.

(** The error of a worker that is not in the cache is [None]. *)
Definition worker (wc : WorkerCache) (to id : Z) : option Z :=
  index ← wc_workers wc !! to;
  index !! id.

(** ** Headers *)

Section headers.
Context `{HeaderHash}.

Definition check_workers (c : Committee) (wc : WorkerCache) (h : Header) :
    list (Z * (Z * Z)) -> option (Result unit DagError) :=
  foldr (fun (e : Z * (Z * Z)) rest =>
      a ← Committee_authority c (he_author h);
      key ← Authority_protocol_key a;
      match worker wc key e.2.1 with Some _ => rest | None => Some (Err (HeaderHasBadWorkerIds (header_digest h))) end)
    (Some (Ok tt)).

(** A header that arrives carries no digest, so the comparison of its digest with
    the hash of its content always holds. *)
Definition Header_validate (c : Committee) (wc : WorkerCache) (h : Header) : option (Result unit DagError) :=
  if negb (he_epoch h =? cm_epoch c) then Some (Err (InvalidEpoch (cm_epoch c) (he_epoch h)))
  else if negb (0 <? stake_by_id c (he_author h)) then Some (Err (UnknownAuthority (he_author h)))
  else check_workers c wc h (he_payload h).
End headers.

(** ** Votes *)

Record Vote := mkVote {
  vo_header_digest : Z;
  vo_round : Z;
  vo_epoch : Z;
  vo_origin : Z;
  vo_author : Z;
  vo_signature : Z
}.

#[global] Instance Vote_eq_dec : EqDecision Vote.
Proof. solve_decision. Defined.

Definition Vote_digest (v : Vote) : Z := vo_header_digest v.

Definition Vote_new `{HeaderHash} `{Signatures} (header : Header) (author key : Z) : Vote :=
  mkVote (header_digest header) (he_round header) (he_epoch header) (he_author header) author
    (sign key (header_digest header)).

Record VoteInfo := mkVoteInfo { vi_epoch : Z; vi_round : Z; vi_vote_digest : Z }.

#[global] Instance VoteInfo_eq_dec : EqDecision VoteInfo.
Proof. solve_decision. Defined.

Definition VoteInfo_from (v : Vote) : VoteInfo := mkVoteInfo (vo_epoch v) (vo_round v) (Vote_digest v).

(** ** Certificates *)

Section certificates.
Context `{HeaderHash} `{Signatures}.

(** [now] is the time a default metadata reads. *)
Definition Certificate_genesis (now : Z) (c : Committee) : option (list Certificate) :=
  mapM (fun a =>
      id ← Authority_id a;
      Some (mkCertificate (mkHeader id 0 (cm_epoch c) 0 [] []) agg_bytes_default [] now))
    (Committee_authorities c).

(** [from_sorted_iter] of the roaring crate fails unless the numbers ascend. *)
Fixpoint ascending (l : list Z) : bool :=
  match l with
  | x :: (y :: _) as l' => (x <? y) && ascending l'
  | _ => true
  end.

Fixpoint drop_repeats (v : Z * Z) (votes : list (Z * Z)) : list (Z * Z) :=
  match votes with
  | v' :: votes' => if bool_decide (v' = v) then drop_repeats v votes' else votes
  | [] => []
  end.

(** The filter over the authorities: it takes the vote in front when it is the
    authority's.  The result is the votes left, the weight, the signatures and the
    indexes of the authorities. *)
Fixpoint take_votes (authorities : list Authority) (i : Z) (votes : list (Z * Z)) (weight : Z) (sigs : list (Z * Z))
    (indexes : list Z) : option (list (Z * Z) * Z * list (Z * Z) * list Z) :=
  match authorities with
  | [] => Some (votes, weight, sigs, indexes)
  | a :: authorities' =>
      match votes with
      | [] => take_votes authorities' (i + 1) votes weight sigs indexes
      | v :: votes' =>
          id ← Authority_id a;
          if id =? v.1 then
            stake ← Authority_stake a;
            take_votes authorities' (i + 1) (drop_repeats v votes') (weight +u64 stake) (sigs ++ [v])
              (indexes ++ [i mod u32_modulus])
          else take_votes authorities' (i + 1) votes weight sigs indexes
      end
  end.

Definition Certificate_new_unsafe (now : Z) (c : Committee) (header : Header) (votes : list (Z * Z)) (check_stake : bool) :
    option (Result Certificate DagError) :=
  '(votes, weight, sigs, indexes) ← take_votes (Committee_authorities c) 0 (stable_sort_by_key fst votes) 0 [] [];
  Some (if negb (ascending indexes) then Err InvalidBitmap
        else match votes with
        | v :: _ => Err (UnknownAuthority v.1)
        | [] =>
            if check_stake && negb (cm_quorum_threshold c <=? weight) then Err CertificateRequiresQuorum
            else match (if bool_decide (sigs = []) then Some agg_default else aggregate sigs.*2) with
                 | None => Err InvalidSignature
                 | Some a => Ok (mkCertificate header (agg_bytes a) indexes now)
                 end
        end).

Definition Certificate_new_unverified (now : Z) (c : Committee) (header : Header) (votes : list (Z * Z)) :
    option (Result Certificate DagError) :=
  Certificate_new_unsafe now c header votes true.

(** The filter of [signed_by]: the next index is compared with the position of each
    authority. *)
Fixpoint signed_loop (authorities : list Authority) (i : Z) (indexes : list Z) (weight : Z) (keys : list Z) :
    option (Z * list Z) :=
  match authorities with
  | [] => Some (weight, keys)
  | a :: authorities' =>
      match indexes with
      | index :: indexes' =>
          if index =? i mod u32_modulus then
            stake ← Authority_stake a;
            key ← Authority_protocol_key a;
            signed_loop authorities' (i + 1) indexes' (weight +u64 stake) (keys ++ [key])
          else signed_loop authorities' (i + 1) indexes weight keys
      | [] => signed_loop authorities' (i + 1) indexes weight keys
      end
  end.

Definition signed_by (c : Committee) (x : Certificate) : option (Z * list Z) :=
  signed_loop (Committee_authorities c) 0 (ce_signed_authorities x) 0 [].

(** [signed_authorities]: the certificate is of the committee's epoch. *)
Definition signed_authorities (c : Committee) (x : Certificate) : option (list Z) :=
  if cm_epoch c =? Certificate_epoch x then snd <$> signed_by c x else None.

Definition verify_aggregate (x : Certificate) (keys : list Z) : bool :=
  match agg_parse (ce_aggregated_signature x) with
  | Some a => agg_verify a (Certificate_digest x) keys
  | None => false
  end.

Definition Certificate_verify (now : Z) (c : Committee) (wc : WorkerCache) (x : Certificate) :
    option (Result unit DagError) :=
  if negb (Certificate_epoch x =? cm_epoch c) then Some (Err (InvalidEpoch (cm_epoch c) (Certificate_epoch x)))
  else
    genesis ← (if Certificate_round x =? 0
               then g ← Certificate_genesis now c; Some (existsb (fun y => Certificate_eq y x) g)
               else Some false);
    if genesis : bool then Some (Ok tt)
    else
      valid ← Header_validate c wc (ce_header x);
      match valid with
      | Err e => Some (Err e)
      | Ok _ =>
          '(weight, keys) ← signed_by c x;
          Some (if negb (cm_quorum_threshold c <=? weight) then Err CertificateRequiresQuorum
                else if verify_aggregate x keys then Ok tt else Err InvalidSignature)
      end.
End certificates.

(** ** Aggregators *)

Record VotesAggregator := mkVotesAggregator {
  va_weight : Z;
  va_votes : list (Z * Z);
  va_used : gset Z
}.

Definition VotesAggregator_new : VotesAggregator := mkVotesAggregator 0 [] ∅.

Section votes_aggregator.
Context `{HeaderHash} `{Signatures} (now : Z) (c : Committee).

(** The loop over the votes after a failed verification: the votes whose own
    signature is invalid are removed. *)
Fixpoint retain_valid (digest : Z) (votes : list (Z * Z)) (weight : Z) : option (Z * list (Z * Z)) :=
  match votes with
  | [] => Some (weight, [])
  | (id, sig) :: votes' =>
      a ← authority_safe c id;
      key ← Authority_protocol_key a;
      if negb (sig_verify sig digest key)
      then retain_valid digest votes' (weight -u64 Committee_stake c key)
      else
        '(weight, kept) ← retain_valid digest votes' weight;
        Some (weight, (id, sig) :: kept)
  end.

Definition VotesAggregator_append (vote : Vote) (header : Header) :
    EM VotesAggregator DagError (option Certificate) :=
  let author := vo_author vote in
  s ← em_get;
  _ ← ensure (negb (bool_decide (author ∈ va_used s))) (AuthorityReuse author);
  let s := mkVotesAggregator (va_weight s +u64 stake_by_id c author) (va_votes s ++ [(author, vo_signature vote)])
             ({[author]} ∪ va_used s) in
  _ ← em_modify (fun _ => s);
  if cm_quorum_threshold c <=? va_weight s then
    made ← em_lift (Certificate_new_unverified now c header (va_votes s));
    cert ← em_result made;
    '(_, keys) ← em_lift (signed_by c cert);
    _ ← ensure (match agg_parse (ce_aggregated_signature cert) with Some _ => true | None => false end) InvalidSignature;
    if verify_aggregate cert keys then mret (Some cert)
    else
      '(weight, kept) ← em_lift (retain_valid (Certificate_digest cert) (va_votes s) (va_weight s));
      _ ← em_modify (fun s => mkVotesAggregator weight kept (va_used s));
      mret None
  else mret None.
End votes_aggregator.

Record CertificatesAggregator := mkCertificatesAggregator {
  ca_weight : Z;
  ca_certificates : list Certificate;
  ca_used : gset Z
}.

Definition CertificatesAggregator_new : CertificatesAggregator := mkCertificatesAggregator 0 [] ∅.

(** The certificates since the last quorum are handed out; the weight stays. *)
Definition CertificatesAggregator_append (c : Committee) (x : Certificate) (s : CertificatesAggregator) :
    CertificatesAggregator * option (list Certificate) :=
  let origin := Certificate_origin x in
  if bool_decide (origin ∈ ca_used s) then (s, None)
  else
    let used := {[origin]} ∪ ca_used s in
    let certificates := ca_certificates s ++ [x] in
    let weight := ca_weight s +u64 stake_by_id c origin in
    if cm_quorum_threshold c <=? weight then (mkCertificatesAggregator weight [] used, Some certificates)
    else (mkCertificatesAggregator weight certificates used, None).
