(* ===== verification/SignatureSample.v ===== *)
(** * A concrete hash and concrete signatures

    Digests that determine their header, short ones for the headers of a sample dag,
    and a signature scheme that satisfies the laws
    of [SignatureLaws]: a signature is the pair of the key and the signed digest, an
    aggregated one the list of its parts. *)

From S2P Require Import Prelude Committee DagTypes ConsensusSample Certification.
Local Open Scope Z_scope.
Local Open Scope chase_scope.

Definition code {A} `{Countable A} (x : A) : Z := Z.pos (encode x).

Lemma code_inj {A} `{Countable A} (x y : A) : code x = code y -> x = y.
Proof. unfold code. intros [= Hxy]. by apply (inj encode). Qed.

(** ** Digests *)

(** The headers of a list have their short digest; all others have negative ones. *)
Definition named_hash (hs : list Header) : HeaderHash := fun h =>
  if bool_decide (h ∈ hs) then sample_hash h
  else - code (he_author h, he_round h, he_epoch h, he_created_at h, he_payload h, he_parents h).

Definition distinct_names (hs : list Header) : bool :=
  forallb (fun h => (0 <=? sample_hash h)
    && forallb (fun h' => negb (sample_hash h =? sample_hash h') || bool_decide (h = h')) hs) hs.

Lemma named_hash_inj hs h h' : distinct_names hs = true -> named_hash hs h = named_hash hs h' -> h = h'.
Proof.
  intros Hd. unfold distinct_names in Hd. rewrite forallb_forall in Hd. setoid_rewrite <- list_elem_of_In in Hd.
  assert (forall h, h ∈ hs -> 0 <= sample_hash h) as Hpos.
  { intros k Hk. specialize (Hd k Hk). rewrite andb_true_iff, Z.leb_le in Hd. tauto. }
  assert (forall A (EqA : EqDecision A) (CA : Countable A) (x : A), 0 < code x) as Hcode by (intros; unfold code; lia).
  unfold named_hash. case_bool_decide as H1; case_bool_decide as H2; intros He.
  - specialize (Hd h H1). apply andb_true_iff in Hd as [_ Hd]. rewrite forallb_forall in Hd.
    specialize (Hd h' ltac:(by apply list_elem_of_In)). rewrite He, Z.eqb_refl in Hd. by apply bool_decide_eq_true in Hd.
  - specialize (Hpos h H1). rewrite He in Hpos. destruct (Zle_not_lt _ _ Hpos). by apply Z.opp_neg_pos.
  - specialize (Hpos h' H2). rewrite <- He in Hpos. destruct (Zle_not_lt _ _ Hpos). by apply Z.opp_neg_pos.
  - apply Z.opp_inj, code_inj in He. destruct h, h'. by injection He as -> -> -> -> -> ->.
Qed.

(** The headers of the first rounds of a dag in which each header has all headers of
    the round before as parents, from the genesis on. *)
Definition full_headers : list Header :=
  ((fun i => mkHeader i 0 0 0 [] []) <$> all_four)
  ++ concat ((fun r => (fun i => header_at r i all_four) <$> all_four) <$> [1; 2; 3; 4; 5]).

Definition full_hash : HeaderHash := named_hash full_headers.

Lemma full_hash_inj h h' : full_hash h = full_hash h' -> h = h'.
Proof. apply named_hash_inj. by vm_compute. Qed.

(** ** Signatures *)

Definition plain_signatures : Signatures := {|
  sign key digest := code (key, digest);
  sig_verify sig digest key := sig =? code (key, digest);
  agg_default := code (@nil Z);
  aggregate sigs := if bool_decide (sigs = []) then None else Some (code sigs);
  agg_bytes a := a;
  agg_bytes_default := 0;
  agg_parse b := Some b;
  agg_verify a digest keys := a =? code ((fun key => code (key, digest)) <$> keys)
|}.

#[global] Instance plain_signature_laws : @SignatureLaws plain_signatures.
Proof.
  split; cbn [sign sig_verify agg_parse agg_bytes aggregate agg_verify plain_signatures].
  - intros key digest. apply Z.eqb_refl.
  - done.
  - intros sigs digest Hs _. by rewrite bool_decide_false.
  - intros sigs a digest keys. case_bool_decide; [done|]. intros [= <-] Hf. apply Z.eqb_eq. do 2 f_equal.
    induction Hf as [|s k sigs keys Hsk Hf IH]; [done|]. csimpl. apply Z.eqb_eq in Hsk as ->. f_equal.
    destruct sigs; [by inversion Hf|]. by apply IH.
Qed.

(** The workers of the four authorities: one each. *)
Definition four_workers : WorkerCache :=
  mkWorkerCache (list_to_map ((fun key => (key, {[0 := key + 200]})) <$> [100; 101; 102; 103])) 0.
