(* ===== verification/CertificationProps.v ===== *)
(** * What a certificate proves

    A verified certificate is signed by authorities that hold a quorum
    ([verify_quorum]); a certificate that the aggregator of a proposer puts together
    passes the verification of every node ([aggregated_certificate_verifies]), and a
    quorum of correct votes is enough to form one ([votes_form_certificate]). *)

From S2P Require Import Prelude Committee DagTypes ConsensusSample Certification SignatureSample.
Local Open Scope Z_scope.
Local Open Scope chase_scope.

(** ** Sums of stakes *)

Definition stake_of (l : list Authority) : Z := foldr (fun a acc => au_stake a + acc) 0 l.

(** [l] are authorities of the committee, each once. *)
Definition members (c : Committee) (l : list Authority) : Prop :=
  (forall a, a ∈ l -> a ∈ Committee_authorities c) ∧ NoDup (au_id <$> l).

Section members.
Context (c : Committee) (Hc : committee_wf c).

Lemma stake_of_ids l : (forall a, a ∈ l -> a ∈ Committee_authorities c) -> stake_of l = stake_sum c (au_id <$> l).
Proof.
  induction l as [|a l IH]; intros Hl; simpl; [done|].
  rewrite IH by set_solver. unfold stake_sum. simpl. f_equal. unfold stake_by_id.
  by rewrite (wf_indexed _ Hc) by (apply Hl; by left).
Qed.

Lemma stake_of_bound l : members c l -> 0 <= stake_of l < u64_modulus.
Proof.
  intros [Hl Hnd]. rewrite stake_of_ids by done. pose proof (stake_sum_le_total c Hc _ Hnd) as [? ?].
  pose proof (wf_total _ Hc). unfold u64_modulus. lia.
Qed.

Lemma members_app l k : members c (l ++ k) -> members c l ∧ members c k.
Proof. intros [Hl Hnd]. rewrite fmap_app, NoDup_app in Hnd. destruct Hnd as (? & _ & ?). split; (split; [set_solver|done]). Qed.

Lemma stake_of_app l k : stake_of (l ++ k) = stake_of l + stake_of k.
Proof. induction l as [|a l IH]; simpl; [done|]. lia. Qed.

Lemma members_sublist l : l `sublist_of` Committee_authorities c -> members c l.
Proof.
  intros Hl. split; [by intros a Ha; eapply elem_of_sublist|].
  eapply sublist_NoDup; [apply (wf_distinct _ Hc)|by apply fmap_sublist].
Qed.

Lemma fold_stakes l : members c l -> foldl (fun acc a => acc +u64 au_stake a) 0 l = stake_of l.
Proof.
  intros Hl. pose proof (stake_of_bound l Hl). rewrite foldl_u64_add_stakes; [done| |done|].
  - intros a Ha. by apply (wf_stake _ Hc), Hl.
  - unfold stake_of in *. lia.
Qed.
End members.

(** ** The signers of a certificate *)

Section signed_by.
Context `{HeaderHash} `{Signatures}.

Lemma signed_loop_spec auths i idx w keys w' keys' :
  signed_loop auths i idx w keys = Some (w', keys') ->
  exists l, l `sublist_of` auths ∧ w' = foldl (fun acc a => acc +u64 au_stake a) w l ∧ keys' = keys ++ (au_protocol_key <$> l).
Proof.
  revert i idx w keys. induction auths as [|a auths IH]; intros i idx w keys Hs; simpl in Hs.
  { injection Hs as <- <-. exists []. by rewrite app_nil_r. }
  assert (forall idx, signed_loop auths (i + 1) idx w keys = Some (w', keys') ->
    exists l, l `sublist_of` a :: auths ∧ w' = foldl (fun acc a => acc +u64 au_stake a) w l ∧ keys' = keys ++ (au_protocol_key <$> l)) as Hskip.
  { intros idx' (l & ? & ? & ?)%IH. exists l. split; [by constructor|done]. }
  destruct idx as [|j idx]; [by eapply Hskip|]. destruct (j =? _); [|by eapply Hskip].
  unfold Authority_stake, Authority_protocol_key in Hs. destruct (au_initialised a); [|done]. simpl in Hs.
  apply IH in Hs as (l & ? & -> & ->). exists (a :: l). split; [by constructor|]. split; [done|].
  by rewrite <- (assoc_L (++)).
Qed.

Lemma signed_loop_total auths i idx w keys :
  (forall a, a ∈ auths -> au_initialised a = true) -> is_Some (signed_loop auths i idx w keys).
Proof.
  revert i idx w keys. induction auths as [|a auths IH]; intros i idx w keys Hi; simpl; [by eauto|].
  assert (forall a, a ∈ auths -> au_initialised a = true) as Hi' by set_solver.
  destruct idx as [|j idx]; [by apply IH|]. destruct (j =? _); [|by apply IH].
  unfold Authority_stake, Authority_protocol_key. rewrite (Hi a) by set_solver. by apply IH.
Qed.

Context (c : Committee) (Hc : committee_wf c).

Lemma signed_by_spec x w keys : signed_by c x = Some (w, keys) ->
  exists l, members c l ∧ w = stake_of l ∧ keys = au_protocol_key <$> l.
Proof.
  intros (l & Hl & -> & ->)%signed_loop_spec. exists l. pose proof (members_sublist c Hc l Hl) as Hm.
  split; [done|]. split; [by apply (fold_stakes c Hc)|done].
Qed.

Lemma signed_by_total x : is_Some (signed_by c x).
Proof. apply signed_loop_total. apply (wf_initialised _ Hc). Qed.

(** ** Verification *)

Lemma check_workers_total wc h l : is_Some (cm_authorities_by_id c !! he_author h) -> is_Some (check_workers c wc h l).
Proof.
  intros [a Ha]. induction l as [|e l IH]; simpl; [by eauto|]. unfold Committee_authority. rewrite Ha. simpl.
  unfold Authority_protocol_key. rewrite (wf_initialised _ Hc) by by eapply wf_listed. simpl. by destruct (worker _ _ _); eauto.
Qed.

Lemma Header_validate_total wc h : is_Some (Header_validate c wc h).
Proof.
  unfold Header_validate. destruct (negb _); [by eauto|]. destruct (Z.ltb_spec 0 (stake_by_id c (he_author h))) as [Hlt|]; simpl; [|by eauto].
  apply check_workers_total. unfold stake_by_id in Hlt. destruct (_ !! _); [by eauto|lia].
Qed.

Lemma genesis_total now : is_Some (Certificate_genesis now c).
Proof.
  unfold Certificate_genesis. apply mapM_is_Some, Forall_forall. intros a Ha. simpl. unfold Authority_id.
  rewrite (wf_initialised _ Hc a Ha). simpl. by eauto.
Qed.

Lemma verify_total now wc x : is_Some (Certificate_verify now c wc x).
Proof.
  unfold Certificate_verify. destruct (negb _); [by eauto|].
  destruct (genesis_total now) as [g Hg]. destruct (Certificate_round x =? 0); simpl; rewrite ?Hg; simpl.
  1: destruct (existsb _ g); [by eauto|].
  all: destruct (Header_validate_total wc (ce_header x)) as [[|e] ->]; simpl; [|by eauto].
  all: by destruct (signed_by_total x) as [[w keys] ->]; simpl; eauto.
Qed.

(** What [verify] establishes for a certificate that is not of the genesis. *)
Record verified (wc : WorkerCache) (x : Certificate) (l : list Authority) : Prop := {
  vf_epoch : Certificate_epoch x = cm_epoch c;
  vf_valid : Header_validate c wc (ce_header x) = Some (Ok tt);
  vf_members : members c l;
  vf_quorum : cm_quorum_threshold c <= stake_sum c (au_id <$> l);
  vf_signature : verify_aggregate x (au_protocol_key <$> l) = true;
  vf_signed : signed_by c x = Some (stake_of l, au_protocol_key <$> l)
}.

Lemma verify_quorum now wc x :
  Certificate_round x <> 0 -> Certificate_verify now c wc x = Some (Ok tt) -> exists l, verified wc x l.
Proof.
  intros Hr. unfold Certificate_verify. destruct (Z.eqb_spec (Certificate_epoch x) (cm_epoch c)) as [He|]; simpl; [|done].
  destruct (Z.eqb_spec (Certificate_round x) 0) as [|_]; [done|]. simpl.
  destruct (Header_validate c wc (ce_header x)) as [[[]|]|] eqn:Hv; simpl; [|done|done].
  destruct (signed_by c x) as [[w keys]|] eqn:Hs; simpl; [|done]. pose proof Hs as (l & Hm & -> & ->)%signed_by_spec.
  destruct (Z.leb_spec (cm_quorum_threshold c) (stake_of l)) as [Hq|]; simpl; [|done].
  destruct (verify_aggregate x _) eqn:Ha; [|done]. intros _. exists l. split; [done..| |done|done].
  rewrite <- stake_of_ids; [done|done|apply Hm].
Qed.

Lemma verified_verify now wc x w l :
  Certificate_epoch x = cm_epoch c -> Header_validate c wc (ce_header x) = Some (Ok tt) ->
  signed_by c x = Some (w, l) -> cm_quorum_threshold c <= w -> verify_aggregate x l = true ->
  Certificate_verify now c wc x = Some (Ok tt).
Proof.
  intros He Hv Hs Hq Ha. unfold Certificate_verify. rewrite He, Z.eqb_refl. simpl.
  destruct (genesis_total now) as [g Hg]. rewrite Hg. destruct (Certificate_round x =? 0); simpl.
  1: destruct (existsb _ g); [done|].
  all: rewrite Hv; simpl; rewrite Hs; simpl; rewrite (proj2 (Z.leb_le _ _) Hq); simpl; by rewrite Ha.
Qed.
End signed_by.

(** ** Assembling a certificate *)

Section assembled.
Context `{HeaderHash} `{Signatures}.

(** The votes taken belong to authorities in order; the indexes lead [signed_by] to
    the same authorities. *)
Lemma take_votes_spec auths i votes w sigs idx rest w' sigs' idx' :
  (forall a, a ∈ auths -> au_initialised a = true) -> 0 <= i -> i + Z.of_nat (length auths) <= u32_modulus ->
  take_votes auths i votes w sigs idx = Some (rest, w', sigs', idx') ->
  exists l vs js, l `sublist_of` auths ∧ sigs' = sigs ++ vs ∧ idx' = idx ++ js ∧ Forall2 (fun a v => au_id a = v.1) l vs ∧
    w' = foldl (fun acc a => acc +u64 au_stake a) w l ∧ Forall (fun j => i <= j) js ∧ ascending js = true ∧
    (forall w0 ks, signed_loop auths i js w0 ks = Some (foldl (fun acc a => acc +u64 au_stake a) w0 l, ks ++ (au_protocol_key <$> l))).
Proof.
  revert i votes w sigs idx. induction auths as [|a auths IH]; intros i votes w sigs idx Hini Hi Hlen Ht; simpl in Ht, Hlen.
  { injection Ht as <- <- <- <-. exists [], [], []. rewrite !app_nil_r. split_and!; [constructor|done..|].
    intros w0 ks. simpl. by rewrite app_nil_r. }
  assert (forall votes, take_votes auths (i + 1) votes w sigs idx = Some (rest, w', sigs', idx') ->
    exists l vs js, l `sublist_of` a :: auths ∧ sigs' = sigs ++ vs ∧ idx' = idx ++ js ∧ Forall2 (fun a v => au_id a = v.1) l vs ∧
      w' = foldl (fun acc a => acc +u64 au_stake a) w l ∧ Forall (fun j => i <= j) js ∧ ascending js = true ∧
      (forall w0 ks, signed_loop (a :: auths) i js w0 ks = Some (foldl (fun acc a => acc +u64 au_stake a) w0 l, ks ++ (au_protocol_key <$> l)))) as Hskip.
  { intros votes' Ht'. apply IH in Ht' as (l & vs & js & Hl & Hs & Hx & Hf & Hw & Hge & Has & Hsig); [|set_solver|lia|lia].
    exists l, vs, js. split_and!; [by constructor|done..| |done|].
    { eapply Forall_impl; [exact Hge|]. simpl. lia. }
    intros w0 ks. simpl. destruct js as [|j js]; [by rewrite Hsig|]. apply Forall_cons in Hge as [Hj _].
    rewrite Z.mod_small by lia. destruct (Z.eqb_spec j i); [lia|]. by rewrite Hsig. }
  destruct votes as [|v votes]; [by eapply Hskip|].
  unfold Authority_id, Authority_stake in Ht. rewrite (Hini a) in Ht by set_solver. simpl in Ht.
  destruct (Z.eqb_spec (au_id a) v.1) as [Hv|]; [|by eapply Hskip]. clear Hskip.
  apply IH in Ht as (l & vs & js & Hl & -> & -> & Hf & -> & Hge & Has & Hsig); [|set_solver|lia|lia].
  rewrite Z.mod_small by lia. exists (a :: l), (v :: vs), (i :: js).
  split_and!; [by constructor|by rewrite <- (assoc_L (++))|by rewrite <- (assoc_L (++))|by constructor|done| | |].
  - constructor; [lia|]. eapply Forall_impl; [exact Hge|]. simpl. lia.
  - simpl. destruct js as [|j js]; [done|]. apply Forall_cons in Hge as [Hj _]. rewrite Has.
    by rewrite (proj2 (Z.ltb_lt _ _)) by lia.
  - intros w0 ks. simpl. rewrite Z.mod_small, Z.eqb_refl by lia. unfold Authority_stake, Authority_protocol_key.
    rewrite (Hini a) by set_solver. simpl. rewrite Hsig. by rewrite <- (assoc_L (++)).
Qed.

Context (c : Committee) (Hc : committee_wf c).

(** A certificate that is put together names the authorities of the votes. *)
Lemma new_unsafe_spec now header votes check x :
  Certificate_new_unsafe now c header votes check = Some (Ok x) ->
  exists l (vs : list (Z * Z)), members c l ∧ Forall2 (fun a v => au_id a = v.1) l vs ∧ ce_header x = header ∧
    signed_by c x = Some (stake_of l, au_protocol_key <$> l) ∧ (check = true -> cm_quorum_threshold c <= stake_of l).
Proof.
  unfold Certificate_new_unsafe.
  destruct (take_votes _ 0 _ 0 [] []) as [[[[rest w] sigs] idx]|] eqn:Ht; simpl; [|done].
  apply take_votes_spec in Ht as (l & vs & js & Hl & -> & -> & Hf & -> & _ & Has & Hsig);
    [|apply (wf_initialised _ Hc)|done|pose proof (committee_length c Hc); unfold u32_modulus; lia].
  pose proof (members_sublist c Hc l Hl) as Hm. rewrite (fold_stakes c Hc l Hm). simpl. rewrite Has. simpl.
  destruct rest as [|v rest]; [|done].
  destruct (check && _) eqn:Hq; [done|]. destruct (if bool_decide _ then _ else _); [|done]. intros [= <-].
  exists l, vs. split_and!; [done..| |].
  - unfold signed_by. simpl. rewrite Hsig. by rewrite (fold_stakes c Hc l Hm).
  - intros ->. simpl in Hq. apply negb_false_iff, Z.leb_le in Hq. done.
Qed.

(** A certificate that the aggregator of a proposer returns for a valid header is
    accepted by the verification of every node, whatever votes it was sent. *)
Lemma aggregated_certificate_verifies now vote header s s' x :
  VotesAggregator_append now c vote header s = Some (s', Ok (Some x)) ->
  ce_header x = header ∧
  (forall now' wc, Header_validate c wc header = Some (Ok tt) -> Certificate_verify now' c wc x = Some (Ok tt)).
Proof.
  unfold VotesAggregator_append, mbind, EM_bind, em_get, ensure, em_modify, em_lift, em_result, mret, EM_ret.
  destruct (negb (bool_decide (vo_author vote ∈ va_used s))); [|done].
  destruct (cm_quorum_threshold c <=? _); [|done].
  destruct (Certificate_new_unverified _ _ _ _) as [[y|e]|] eqn:Hn; [|done|done].
  apply new_unsafe_spec in Hn as (l & vs & Hm & _ & Hh & Hs & Hq). specialize (Hq eq_refl). rewrite Hs.
  destruct (agg_parse _); [|done]. destruct (verify_aggregate y _) eqn:Ha.
  2: { by destruct (retain_valid _ _ _ _) as [[]|]. }
  intros [= _ <-]. split; [done|]. intros now' wc Hv.
  eapply verified_verify; [done| |by rewrite Hh|exact Hs|done|done].
  unfold Certificate_epoch. rewrite Hh. unfold Header_validate in Hv. destruct (Z.eqb_spec (he_epoch header) (cm_epoch c)); [done|done].
Qed.
End assembled.

(** ** A quorum of votes is enough *)

Definition key_of (c : Committee) (i : Z) : Z :=
  match cm_authorities_by_id c !! i with Some a => au_protocol_key a | None => 0 end.

Section quorum.
Context `{HeaderHash} `{HS : Signatures} `{!SignatureLaws} (c : Committee) (Hc : committee_wf c).

Abbreviation ascending_by f := (StronglySorted (fun x y => f x < f y)).

Lemma drop_repeats_id v votes : Forall (fun v' => v.1 < v'.1) votes -> drop_repeats v votes = votes.
Proof. destruct 1 as [|v' votes Hv]; simpl; [done|]. rewrite bool_decide_false; [done|]. intros ->. lia. Qed.

(** Votes of distinct authorities, by identifier, are all taken. *)
Lemma take_votes_all auths i votes w sigs idx :
  (forall a, a ∈ auths -> au_initialised a = true) -> ascending_by au_id auths -> ascending_by fst votes ->
  (forall v, v ∈ votes -> v.1 ∈ au_id <$> auths) ->
  exists w' idx', take_votes auths i votes w sigs idx = Some ([], w', sigs ++ votes, idx').
Proof.
  revert i votes w sigs idx. induction auths as [|a auths IH]; intros i votes w sigs idx Hini Ha Hv Hin.
  { destruct votes as [|v votes]; [|by destruct (not_elem_of_nil v.1); apply (Hin v); left].
    simpl. rewrite app_nil_r. by eauto. }
  apply StronglySorted_inv in Ha as [Ha Hlt]. rewrite Forall_forall in Hlt. simpl.
  assert (forall a, a ∈ auths -> au_initialised a = true) as Hini' by set_solver.
  destruct votes as [|v votes]; [apply IH; [done..|by intros ? ?%not_elem_of_nil]|].
  unfold Authority_id, Authority_stake. rewrite (Hini a) by set_solver. simpl. pose proof Hv as Hv'.
  apply StronglySorted_inv in Hv as [Hv Hvlt]. destruct (Z.eqb_spec (au_id a) v.1) as [Heq|Hne].
  - rewrite drop_repeats_id by done. rewrite (cons_middle v sigs votes), (assoc_L (++)). apply IH; [done..|].
    intros v' Hv1. rewrite Forall_forall in Hvlt. specialize (Hvlt _ Hv1).
    specialize (Hin v' ltac:(by right)). csimpl in Hin. apply elem_of_cons in Hin as [?|?]; [lia|done].
  - apply IH; [done..|]. assert (v.1 ∈ au_id <$> auths) as Hv1.
    { specialize (Hin v ltac:(by left)). csimpl in Hin. apply elem_of_cons in Hin as [?|?]; [lia|done]. }
    intros v' [->|Hv2]%elem_of_cons; [done|]. specialize (Hin v' ltac:(by right)). csimpl in Hin.
    apply elem_of_cons in Hin as [Heq|?]; [|done]. apply list_elem_of_fmap in Hv1 as (b & Hb & Hb').
    specialize (Hlt _ Hb'). rewrite Forall_forall in Hvlt. specialize (Hvlt _ Hv2). lia.
Qed.

Lemma authorities_ascending : ascending_by au_id (Committee_authorities c).
Proof.
  pose proof (wf_position _ Hc) as Hpos. revert Hpos. generalize (Committee_authorities c) as l. intros l Hpos.
  assert (forall k, (forall i a, l !! i = Some a -> au_id a = Z.of_nat (k + i)) -> ascending_by au_id l) as Hgen.
  { clear Hpos. induction l as [|a l IH]; intros k Hk; [constructor|]. constructor.
    - apply (IH (S k)). intros i b Hb. rewrite (Hk (S i) b Hb). lia.
    - apply Forall_forall. intros b [i Hi]%list_elem_of_lookup. rewrite (Hk 0%nat a eq_refl), (Hk (S i) b Hi). lia. }
  apply (Hgen 0%nat). intros i a Ha. by apply Hpos.
Qed.

Lemma sorted_votes_ascending (votes : list (Z * Z)) : NoDup votes.*1 -> ascending_by fst (stable_sort_by_key fst votes).
Proof.
  intros Hnd. pose proof (stable_sort_by_key_sorted fst votes) as Hs.
  assert (NoDup (stable_sort_by_key fst votes).*1) as Hnd' by (by rewrite stable_sort_by_key_Permutation).
  revert Hs Hnd'. generalize (stable_sort_by_key fst votes) as l. induction 1 as [|v l Hl IH Hlt]; intros Hnd'; [constructor|].
  csimpl in Hnd'. apply NoDup_cons in Hnd' as [Hv Hnd']. constructor; [by apply IH|]. rewrite Forall_forall in *.
  intros v' Hv'. specialize (Hlt _ Hv'). unfold key_le in Hlt. assert (v.1 <> v'.1); [|lia].
  intros Heq. apply Hv. rewrite Heq. by apply list_elem_of_fmap_2.
Qed.

Abbreviation votes_of header ids := ((fun i => (i, sign (key_of c i) (header_digest header))) <$> ids).

(** Any of the signatures can be aggregated. *)
Definition aggregates (pool : list Z) : Prop :=
  forall sigs, sigs <> [] -> (forall s, s ∈ sigs -> s ∈ pool) -> is_Some (aggregate sigs).

(** The votes of authorities with a quorum are assembled if their signatures can be
    aggregated. *)
Lemma new_unverified_cases now header (votes : list (Z * Z)) :
  NoDup votes.*1 -> (forall v, v ∈ votes -> is_Some (cm_authorities_by_id c !! v.1)) -> cm_quorum_threshold c <= stake_sum c votes.*1 ->
  let vs := stable_sort_by_key fst votes in
  exists idx l, vs <> [] ∧ Forall2 (fun a v => au_id a = v.1) l vs ∧ (forall a, a ∈ l -> a ∈ Committee_authorities c) ∧
    Certificate_new_unverified now c header votes = Some (match aggregate vs.*2 with
      | None => Err InvalidSignature
      | Some a => Ok (mkCertificate header (agg_bytes a) idx now)
      end) ∧
    forall sig, signed_by c (mkCertificate header sig idx now) = Some (stake_of l, au_protocol_key <$> l).
Proof.
  intros Hnd Hin Hq vs. unfold Certificate_new_unverified, Certificate_new_unsafe. fold vs.
  assert (vs ≡ₚ votes) as Hp by apply stable_sort_by_key_Permutation.
  destruct (take_votes_all (Committee_authorities c) 0 vs 0 [] []) as (w & idx & Ht).
  { apply (wf_initialised _ Hc). }
  { apply authorities_ascending. }
  { by apply sorted_votes_ascending. }
  { intros v Hv. rewrite Hp in Hv. destruct (Hin _ Hv) as [a Ha]. rewrite <- (wf_by_id _ Hc _ _ Ha). apply list_elem_of_fmap_2.
    by eapply wf_listed. }
  rewrite Ht. simpl. pose proof Ht as Ht'.
  apply take_votes_spec in Ht' as (l & vs' & js & Hl & Heq & Hidx & Hf & Hw & _ & Has & Hsig);
    [|apply (wf_initialised _ Hc)|done|pose proof (committee_length c Hc); unfold u32_modulus; lia].
  simpl in Heq, Hidx. subst vs' js. rewrite Has. simpl. pose proof (members_sublist c Hc l Hl) as Hm.
  assert (au_id <$> l = vs.*1) as Hids.
  { clear -Hf. induction Hf as [|a v l vs Hav Hf IH]; csimpl; [done|]. by rewrite Hav, IH. }
  assert (w = stake_sum c votes.*1) as ->.
  { rewrite Hw, (fold_stakes c Hc l Hm), (stake_of_ids c Hc) by apply Hm. unfold stake_sum. apply sum_of_Permutation.
    by rewrite Hids, Hp. }
  rewrite (proj2 (Z.leb_le _ _) Hq). simpl.
  assert (vs <> []) as Hne.
  { intros Hnil. assert (votes = []) as ->; [|unfold stake_sum in Hq; simpl in Hq; rewrite (wf_quorum _ Hc) in Hq;
      pose proof (wf_total _ Hc); pose proof (Z.div_pos (2 * total_stake c) 3); lia].
    rewrite Hnil in Hp. by apply Permutation_nil_l in Hp. }
  rewrite bool_decide_false by done. exists idx, l. split_and!; [done|done|apply Hm|done|].
  intros sig. unfold signed_by. simpl. rewrite Hsig. by rewrite (fold_stakes c Hc l Hm).
Qed.

(** A certificate is assembled from the votes of authorities with a quorum whose
    signatures can be aggregated, and if the votes are correct its aggregated signature
    holds. *)
Lemma new_unverified_any now header (votes : list (Z * Z)) :
  aggregates votes.*2 -> NoDup votes.*1 -> (forall v, v ∈ votes -> is_Some (cm_authorities_by_id c !! v.1)) ->
  cm_quorum_threshold c <= stake_sum c votes.*1 ->
  exists x l, Certificate_new_unverified now c header votes = Some (Ok x) ∧ ce_header x = header ∧
    signed_by c x = Some (stake_of l, au_protocol_key <$> l) ∧ is_Some (agg_parse (ce_aggregated_signature x)) ∧
    ((forall v, v ∈ votes -> sig_verify v.2 (header_digest header) (key_of c v.1) = true) ->
      verify_aggregate x (au_protocol_key <$> l) = true).
Proof.
  intros Hagg Hnd Hin Hq. destruct (new_unverified_cases now header votes Hnd Hin Hq) as (idx & l & Hne & Hf & Hm & -> & Hs).
  set (vs := stable_sort_by_key fst votes) in *. assert (vs ≡ₚ votes) as Hp by apply stable_sort_by_key_Permutation.
  destruct (Hagg vs.*2) as [a Ha]; [by intros ?%fmap_nil_inv|by intros s; rewrite Hp|]. rewrite Ha.
  exists (mkCertificate header (agg_bytes a) idx now), l. split; [done|]. split; [done|]. split; [apply Hs|].
  simpl. unfold verify_aggregate. simpl. rewrite agg_parse_bytes. split; [by eauto|]. intros Hval.
  eapply aggregate_verifies; [exact Ha|]. apply Forall2_fmap, Forall2_flip. eapply Forall2_impl_elem; [exact Hf|].
  intros b v Hb Hv Hbv. simpl. rewrite Hp in Hv. specialize (Hval v Hv). unfold key_of in Hval. rewrite <- Hbv in Hval.
  by rewrite (wf_indexed _ Hc) in Hval by by apply Hm.
Qed.

Lemma new_unverified_votes now header ids :
  NoDup ids -> (forall i, i ∈ ids -> is_Some (cm_authorities_by_id c !! i)) -> cm_quorum_threshold c <= stake_sum c ids ->
  exists x l, Certificate_new_unverified now c header (votes_of header ids) = Some (Ok x) ∧
    signed_by c x = Some (stake_of l, au_protocol_key <$> l) ∧ is_Some (agg_parse (ce_aggregated_signature x)) ∧
    verify_aggregate x (au_protocol_key <$> l) = true.
Proof.
  intros Hnd Hin Hq. assert ((votes_of header ids).*1 = ids) as Hfst by (rewrite <- list_fmap_compose; apply list_fmap_id).
  destruct (new_unverified_any now header (votes_of header ids)) as (x & l & Hx & _ & Hs & Ha & Hv); [|by rewrite Hfst| |by rewrite Hfst|].
  { intros sigs Hne Hsigs. apply (aggregate_valid _ (header_digest header)); [done|]. intros sg Hsg%Hsigs. rewrite <- list_fmap_compose in Hsg.
    apply list_elem_of_fmap in Hsg as (i & -> & _). exists (key_of c i). apply sign_verifies. }
  { intros v (i & -> & Hi)%list_elem_of_fmap. by apply Hin. }
  exists x, l. split_and!; [done..|]. apply Hv. intros v (i & -> & Hi)%list_elem_of_fmap. apply sign_verifies.
Qed.

(** The aggregator after the votes of [ids]. *)
Definition collected (header : Header) (ids : list Z) : VotesAggregator :=
  mkVotesAggregator (stake_sum c ids) (votes_of header ids) (list_to_set ids).

Lemma stake_sum_bound ids : NoDup ids -> 0 <= stake_sum c ids < u64_modulus.
Proof. intros Hnd. pose proof (stake_sum_le_total c Hc ids Hnd). pose proof (wf_total _ Hc). unfold u64_modulus. lia. Qed.

(** What [append] does before it looks at the weight. *)
Lemma append_collected header ids i : NoDup (ids ++ [i]) ->
  mkVotesAggregator (va_weight (collected header ids) +u64 stake_by_id c i)
    (va_votes (collected header ids) ++ [(i, sign (key_of c i) (header_digest header))]) ({[i]} ∪ va_used (collected header ids))
  = collected header (ids ++ [i]).
Proof.
  intros Hnd. unfold collected. simpl. pose proof (stake_sum_bound _ Hnd) as Hb. unfold stake_sum in *.
  rewrite sum_of_app in *. simpl in *. f_equal.
  - rewrite u64_add_small by lia. lia.
  - by rewrite fmap_app.
  - set_solver.
Qed.

Lemma append_more now header ids i : NoDup (ids ++ [i]) -> stake_sum c (ids ++ [i]) < cm_quorum_threshold c ->
  VotesAggregator_append now c (Vote_new header i (key_of c i)) header (collected header ids)
  = Some (collected header (ids ++ [i]), Ok None).
Proof.
  intros Hnd Hq. unfold VotesAggregator_append, mbind, EM_bind, em_get, ensure, em_modify.
  apply NoDup_app in Hnd as Hnd'. destruct Hnd' as (_ & Hdisj & _).
  rewrite bool_decide_false by (simpl; intros ?%elem_of_list_to_set; set_solver). cbn [negb mret EM_ret].
  cbn [Vote_new vo_author vo_signature]. rewrite append_collected by done.
  rewrite (proj2 (Z.leb_gt _ _)); [done|]. by simpl.
Qed.

Lemma append_last now header ids i :
  NoDup (ids ++ [i]) -> (forall j, j ∈ ids ++ [i] -> is_Some (cm_authorities_by_id c !! j)) ->
  cm_quorum_threshold c <= stake_sum c (ids ++ [i]) ->
  exists x, VotesAggregator_append now c (Vote_new header i (key_of c i)) header (collected header ids)
  = Some (collected header (ids ++ [i]), Ok (Some x)).
Proof.
  intros Hnd Hin Hq. unfold VotesAggregator_append, mbind, EM_bind, em_get, ensure, em_modify.
  apply NoDup_app in Hnd as Hnd'. destruct Hnd' as (_ & Hdisj & _).
  rewrite bool_decide_false by (simpl; intros ?%elem_of_list_to_set; set_solver). cbn [negb mret EM_ret].
  cbn [Vote_new vo_author vo_signature]. rewrite append_collected by done.
  rewrite (proj2 (Z.leb_le _ _)) by by simpl. cbn [collected va_votes].
  destruct (new_unverified_votes now header (ids ++ [i]) Hnd Hin Hq) as (x & l & -> & Hs & [a Ha] & Hv).
  cbn [em_lift em_result mret EM_ret]. rewrite Hs. cbn [em_lift mret EM_ret]. rewrite Ha. cbn [mret EM_ret]. rewrite Hv. by exists x.
Qed.

Lemma append_prefix now header ids done' : NoDup (done' ++ ids) -> stake_sum c (done' ++ ids) < cm_quorum_threshold c ->
  em_iter (fun v => VotesAggregator_append now c v header) ((fun i => Vote_new header i (key_of c i)) <$> ids) (collected header done')
  = Some (collected header (done' ++ ids), Ok (replicate (length ids) None)).
Proof.
  revert done'. induction ids as [|i ids IH]; intros done' Hnd Hq; csimpl; [by rewrite app_nil_r|].
  rewrite (cons_middle i done' ids), (assoc_L (++)) in Hnd, Hq |- *.
  assert (stake_sum c (done' ++ [i]) < cm_quorum_threshold c) as Hq'.
  { pose proof (stake_sum_bound ids ltac:(by apply NoDup_app in Hnd as (_ & _ & ?))). unfold stake_sum in *. rewrite sum_of_app in Hq. lia. }
  apply NoDup_app in Hnd as Hnd'. destruct Hnd' as (Hnd' & _ & _).
  unfold mbind, EM_bind. rewrite append_more by done. rewrite IH by done. done.
Qed.

Lemma append_then now header l v s s1 s2 outs o :
  em_iter (fun v => VotesAggregator_append now c v header) l s = Some (s1, Ok outs) ->
  VotesAggregator_append now c v header s1 = Some (s2, Ok o) ->
  em_iter (fun v => VotesAggregator_append now c v header) (l ++ [v]) s = Some (s2, Ok (outs ++ [o])).
Proof.
  intros Hl Hv. revert s outs Hl. induction l as [|w l IH]; intros s outs Hl; cbn [app em_iter] in *.
  - injection Hl as -> <-. unfold mbind, EM_bind. by rewrite Hv.
  - unfold mbind, EM_bind in Hl |- *. destruct (VotesAggregator_append now c w header s) as [[s' [y|]]|]; [|done|done].
    destruct (em_iter _ l s') as [[s'' [ys|]]|] eqn:E; [|done|done]. injection Hl as -> <-. by rewrite (IH s' ys E).
Qed.

(** C15. A proposer whose header is voted for by authorities with a quorum of the
    stake gets a certificate with the vote that completes the quorum, not before, and
    every node accepts the certificate if the header is valid. *)
Theorem votes_form_certificate now header ids i :
  NoDup (ids ++ [i]) -> (forall j, j ∈ ids ++ [i] -> is_Some (cm_authorities_by_id c !! j)) ->
  stake_sum c ids < cm_quorum_threshold c <= stake_sum c (ids ++ [i]) ->
  exists s x, em_iter (fun v => VotesAggregator_append now c v header)
      ((fun j => Vote_new header j (key_of c j)) <$> ids ++ [i]) VotesAggregator_new
    = Some (s, Ok (replicate (length ids) None ++ [Some x])) ∧
    ce_header x = header ∧
    (forall now' wc, Header_validate c wc header = Some (Ok tt) -> Certificate_verify now' c wc x = Some (Ok tt)).
Proof.
  intros Hnd Hin [Hlt Hq]. destruct (append_last now header ids i Hnd Hin Hq) as [x Hx].
  exists (collected header (ids ++ [i])), x. apply NoDup_app in Hnd as (Hnd & _ & _).
  pose proof (append_prefix now header ids [] Hnd Hlt) as Hp. change (collected header []) with VotesAggregator_new in Hp.
  split; [|by eapply aggregated_certificate_verifies].
  rewrite fmap_app. by eapply append_then.
Qed.
End quorum.

#[local] Existing Instance full_hash.
#[local] Existing Instance plain_signatures.

(** Three of four equal votes. *)
Lemma votes_form_certificate_witness :
  let header := header_at 1 0 [] in
  exists s x, em_iter (fun v => VotesAggregator_append 7 four v header)
      ((fun j => Vote_new header j (key_of four j)) <$> [0; 1] ++ [2]) VotesAggregator_new
    = Some (s, Ok ([None; None] ++ [Some x])) ∧
    ce_header x = header ∧ Certificate_verify 8 four four_workers x = Some (Ok tt).
Proof.
  intros header. destruct (votes_form_certificate four four_wf 7 header [0; 1] 2) as (s & x & H1 & H2 & H3).
  - apply (bool_decide_unpack (NoDup [0; 1; 2])). by vm_compute.
  - apply Forall_forall, (bool_decide_unpack (Forall (fun j => is_Some (cm_authorities_by_id four !! j)) [0; 1; 2])). by vm_compute.
  - by vm_compute.
  - exists s, x. split; [exact H1|]. split; [exact H2|]. apply H3. by vm_compute.
Defined.
