(* ===== verification/PrimarySample.v ===== *)
(** * Certificates of the committee of four

    The headers of the sample dag as a certified dag, and signatures under which
    exactly the headers of a list verify. *)

From S2P Require Import Prelude Committee DagTypes DagProps ConsensusSample Certification SignatureSample CertificationProps.
Local Open Scope Z_scope.
Local Open Scope chase_scope.

(** ** A dag *)

(** The headers above the genesis. *)
Definition full_dag : list Header := drop 4 full_headers.

Lemma full_dag_certified : @certified_dag full_hash four (@dag_of full_hash full_dag).
Proof. apply check_certified. by vm_compute. Qed.

#[global] Instance in_dag_dec `{HeaderHash} G h : Decision (in_dag G h).
Proof. unfold in_dag. apply _. Defined.

#[global] Instance certified_dec `{HeaderHash} G x : Decision (certified G x).
Proof. unfold certified. apply _. Defined.

(** Signatures under which exactly the headers of a list verify. *)
Definition ideal_signatures (hs : list Header) : Signatures := {|
  sign key digest := code (key, digest);
  sig_verify sig digest key := sig =? code (key, digest);
  agg_default := 0;
  aggregate _ := Some 0;
  agg_bytes a := a;
  agg_bytes_default := 0;
  agg_parse b := Some b;
  agg_verify _ digest _ := existsb (fun h => full_hash h =? digest) hs
|}.

Lemma ideal_certified hs now wc x : Forall (@in_dag full_hash (@dag_of full_hash hs)) hs ->
  @Certificate_verify full_hash (ideal_signatures hs) now four wc x = Some (Ok tt) -> 1 <= Certificate_round x ->
  @certified full_hash (@dag_of full_hash hs) x.
Proof.
  intros Hhs Hv Hr. apply (@verify_quorum full_hash _ _ four_wf) in Hv as (l & [_ _ _ _ Hs _]); [|lia].
  unfold verify_aggregate in Hs. cbn [agg_parse agg_verify ideal_signatures] in Hs. apply existsb_exists in Hs as (h & Hin & He%Z.eqb_eq).
  apply full_hash_inj in He. rewrite Forall_forall in Hhs. unfold certified. rewrite <- He. by apply Hhs, list_elem_of_In.
Qed.
