(* ===== verification/CertificateStore.v ===== *)
(** * The certificate store

    src/narwhal/storage/src/certificate_store.rs: certificates by digest, two indexes
    of their digests and a cache in front.  The tables are maps whose rows are read in
    key order; a batch is written at once, with a result from a script, and reads
    succeed.  The cache is the trait [Cache] with its two implementations; the lru
    crate below the first is the class [Lru].  Subscriptions to writes are left out. *)

From S2P Require Import Prelude DagTypes.
Local Open Scope Z_scope.
Local Open Scope chase_scope.

(** ** Caches *)

Class Lru (L : Type) := {
  lru_put : Z -> Certificate -> L -> L;
  lru_get : Z -> L -> L * option Certificate;
  lru_contains : Z -> L -> bool;
  lru_pop : Z -> L -> L
}.

(** What an lru cache holds is a part of what was put and not removed. *)
Class LruLaws (L : Type) `{Lru L} := {
  lru_view : L -> gmap Z Certificate;
  lru_view_put k x l : lru_view (lru_put k x l) ⊆ <[k := x]> (lru_view l);
  lru_get_value k l : (lru_get k l).2 = lru_view l !! k;
  lru_view_get k l : lru_view (lru_get k l).1 = lru_view l;
  lru_contains_true k l : lru_contains k l = true <-> is_Some (lru_view l !! k);
  lru_view_pop k l : lru_view (lru_pop k l) = delete k (lru_view l)
}.

(** The trait [Cache]; the operations on several certificates repeat these. *)
Class StoreCache (T : Type) := {
  cache_write : Z -> Certificate -> T -> T;
  cache_get : Z -> T -> T * option Certificate;
  cache_contains : Z -> T -> bool;
  cache_remove : Z -> T -> T
}.

#[global] Instance CertificateStoreCache (L : Type) `{Lru L} : StoreCache L := {|
  cache_write := lru_put; cache_get := lru_get; cache_contains := lru_contains; cache_remove := lru_pop
|}.

#[global] Instance NoCache : StoreCache unit := {|
  cache_write _ _ t := t; cache_get _ t := (t, None); cache_contains _ _ := false; cache_remove _ t := t
|}.

(** ** The store *)

Record CertificateStore (T : Type) := mkCertificateStore {
  cs_by_id : gmap Z Certificate;
  cs_by_round : gmap (Z * Z) Z;
  cs_by_origin : gmap (Z * Z) Z;
  cs_cache : T;
  cs_outcomes : list (Result unit string)
}.
Arguments mkCertificateStore {T}.
Arguments cs_by_id {T}.
Arguments cs_by_round {T}.
Arguments cs_by_origin {T}.
Arguments cs_cache {T}.
Arguments cs_outcomes {T}.

Definition pair_ltb (x y : Z * Z) : bool := (x.1 <? y.1) || ((x.1 =? y.1) && (x.2 <? y.2)).

(** The rows of an index in key order. *)
Definition rows (m : gmap (Z * Z) Z) : list (Z * Z * Z) := sort_by_pair fst (map_to_list m).

(** [skip_to]: from the first row at or above the key. *)
Definition skip_to (key : Z * Z) (l : list (Z * Z * Z)) : list (Z * Z * Z) :=
  List.filter (fun e : Z * Z * Z => negb (pair_ltb e.1 key)) l.

(** The first row of [skip_prior_to]: the last one at or below the key. *)
Definition row_prior_to (key : Z * Z) (l : list (Z * Z * Z)) : option (Z * Z * Z) :=
  last (List.filter (fun e : Z * Z * Z => negb (pair_ltb key e.1)) l).

Section store.
Context `{HeaderHash} {T : Type} `{StoreCache T}.
Abbreviation Store := (CertificateStore T).

Definition set_cache (s : Store) (t : T) : Store :=
  mkCertificateStore (cs_by_id s) (cs_by_round s) (cs_by_origin s) t (cs_outcomes s).

Definition write_result (s : Store) : Result unit string :=
  match cs_outcomes s with r :: _ => r | [] => Ok tt end.

(** The batch of [write_all]: rows by digest, by round and by origin.  The cache is
    written whatever the result. *)
Definition cs_write_all (xs : list Certificate) (s : Store) : Store * Result unit string :=
  let t := foldl (fun t x => cache_write (Certificate_digest x) x t) (cs_cache s) xs in
  let outcomes := tail (cs_outcomes s) in
  match write_result s with
  | Ok _ =>
      (mkCertificateStore
         (foldl (fun m x => <[Certificate_digest x := x]> m) (cs_by_id s) xs)
         (foldl (fun m x => <[(Certificate_round x, Certificate_origin x) := Certificate_digest x]> m) (cs_by_round s) xs)
         (foldl (fun m x => <[(Certificate_origin x, Certificate_round x) := Certificate_digest x]> m) (cs_by_origin s) xs)
         t outcomes, Ok tt)
  | Err e => (mkCertificateStore (cs_by_id s) (cs_by_round s) (cs_by_origin s) t outcomes, Err e)
  end.

Definition cs_write (x : Certificate) (s : Store) : Store * Result unit string := cs_write_all [x] s.

Definition cs_read (id : Z) (s : Store) : Store * option Certificate :=
  let '(t, found) := cache_get id (cs_cache s) in
  match found with
  | Some x => (set_cache s t, Some x)
  | None => (set_cache s t, cs_by_id s !! id)
  end.

Definition cs_read_by_index (origin round : Z) (s : Store) : Store * option Certificate :=
  match cs_by_origin s !! (origin, round) with
  | Some d => cs_read d s
  | None => (s, None)
  end.

Definition cs_contains (digest : Z) (s : Store) : bool :=
  if cache_contains digest (cs_cache s) then true else bool_decide (is_Some (cs_by_id s !! digest)).

(** The cache answers first; the digests it does not hold are looked up in the table,
    and the hits are marked at their positions. *)
Definition mark_hit (found : list bool) (e : nat * Z * bool) : list bool := if e.2 then <[e.1.1 := true]> found else found.

Definition cs_multi_contains (digests : list Z) (s : Store) : list bool :=
  let found := (fun d => cache_contains d (cs_cache s)) <$> digests in
  let store_lookups := omap (fun e : nat * (Z * bool) => if e.2.2 then None else Some (e.1, e.2.1))
    (imap pair (zip digests found)) in
  let store_found := (fun e : nat * Z => bool_decide (is_Some (cs_by_id s !! e.2))) <$> store_lookups in
  foldl mark_hit found (zip store_lookups store_found).

(** The cache answers first; the digests it misses are read from the table. *)
Fixpoint cache_get_all (ids : list Z) (t : T) : T * list (Z * option Certificate) :=
  match ids with
  | [] => (t, [])
  | id :: ids' =>
      let '(t, x) := cache_get id t in
      let '(t, l) := cache_get_all ids' t in
      (t, (id, x) :: l)
  end.

Definition cs_read_all (ids : list Z) (s : Store) : Store * list (option Certificate) :=
  let '(t, cached) := cache_get_all ids (cs_cache s) in
  let found := foldl (fun (m : gmap Z Certificate) (e : Z * option Certificate) =>
      match e.2 with Some x => <[e.1 := x]> m | None => m end) ∅ cached in
  let missing := (List.filter (fun e : Z * option Certificate => match e.2 with Some _ => false | None => true end) cached).*1 in
  let found := foldl (fun (m : gmap Z Certificate) id =>
      match cs_by_id s !! id with Some x => <[id := x]> m | None => m end) found missing in
  (set_cache s t, (fun id => found !! id) <$> ids).

(** The batch removes the rows by digest and by round, not those by origin. *)
Definition cs_remove (keys : list (Z * Z)) (ids : list Z) (s : Store) : Store * Result unit string :=
  let outcomes := tail (cs_outcomes s) in
  match write_result s with
  | Ok _ =>
      (mkCertificateStore (foldl (fun m d => delete d m) (cs_by_id s) ids) (foldl (fun m k => delete k m) (cs_by_round s) keys)
         (cs_by_origin s) (foldl (fun t d => cache_remove d t) (cs_cache s) ids) outcomes, Ok tt)
  | Err e => (mkCertificateStore (cs_by_id s) (cs_by_round s) (cs_by_origin s) (cs_cache s) outcomes, Err e)
  end.

Definition cs_delete (id : Z) (s : Store) : Store * Result unit string :=
  let '(s, found) := cs_read id s in
  match found with
  | Some x => cs_remove [(Certificate_round x, Certificate_origin x)] [id] s
  | None => (s, Ok tt)
  end.

Definition cs_delete_all (ids : list Z) (s : Store) : Store * Result unit string :=
  let '(s, found) := cs_read_all ids s in
  let keys := (fun x => (Certificate_round x, Certificate_origin x)) <$> omap id found in
  if bool_decide (keys = []) then (s, Ok tt) else cs_remove keys ids s.

(** The digests of the index from the round on; an error if one has no certificate. *)
Definition after_round (round : Z) (s : Store) : Result (list Certificate) string :=
  let iter := rows (cs_by_round s) in
  let iter := if 0 <? round then skip_to (round - 1, 0) iter else iter in
  let digests := snd <$> List.filter (fun e : Z * Z * Z => round <=? e.1.1) iter in
  match mapM (fun d => cs_by_id s !! d) digests with
  | Some l => Ok l
  | None => Err "RocksDBError"
  end.

Definition push_origin (m : gmap Z (list Z)) (e : Z * Z * Z) : gmap Z (list Z) :=
  <[e.1.1 := default [] (m !! e.1.1) ++ [e.1.2]]> m.

Definition origins_after_round (round : Z) (s : Store) : gmap Z (list Z) :=
  let iter := rows (cs_by_round s) in
  let iter := if 0 <? round then skip_to (round - 1, 0) iter else iter in
  foldl push_origin ∅ (List.filter (fun e : Z * Z * Z => negb (e.1.1 <? round)) iter).

(** Backwards from the last row; [round] is 0 before the first. *)
Fixpoint last_two_loop (by_id : gmap Z Certificate) (iter : list (Z * Z * Z)) (round : Z) : Result (list Certificate) string :=
  match iter with
  | [] => Ok []
  | (r, _, digest) :: iter' =>
      if negb (round =? 0) && (r <? round - 1) then Ok []
      else
        match by_id !! digest, last_two_loop by_id iter' (if round =? 0 then r else round) with
        | None, _ => Err "RocksDBError"
        | Some x, Ok l => Ok (x :: l)
        | Some _, Err e => Err e
        end
  end.

Definition last_two_rounds_certs (s : Store) : Result (list Certificate) string :=
  last_two_loop (cs_by_id s) (reverse (rows (cs_by_round s))) 0.

Definition u64_max : Z := u64_modulus - 1.

Definition last_round (origin : Z) (s : Store) : Store * option Certificate :=
  match row_prior_to (origin, u64_max) (rows (cs_by_origin s)) with
  | Some (name, _, digest) => if name =? origin then cs_read digest s else (s, None)
  | None => (s, None)
  end.

Definition highest_round_number (s : Store) : Z :=
  match last (rows (cs_by_round s)) with Some (round, _, _) => round | None => 0 end.

Definition last_round_number (origin : Z) (s : Store) : option Z :=
  match row_prior_to (origin, u64_max) (rows (cs_by_origin s)) with
  | Some (name, round, _) => if name =? origin then Some round else None
  | None => None
  end.

Definition next_round_number (origin round : Z) (s : Store) : option Z :=
  match skip_to (origin, round +u64 1) (rows (cs_by_origin s)) with
  | (name, r, _) :: _ => if name =? origin then Some r else None
  | [] => None
  end.

(** The tables are cleared one after the other, each with a result of its own; the
    cache is left as it is. *)
Definition cs_clear (s : Store) : Store * Result unit string :=
  let s1 := mkCertificateStore ∅ (cs_by_round s) (cs_by_origin s) (cs_cache s) (tail (cs_outcomes s)) in
  let s2 := mkCertificateStore ∅ ∅ (cs_by_origin s) (cs_cache s) (tail (cs_outcomes s1)) in
  let s3 := mkCertificateStore ∅ ∅ ∅ (cs_cache s) (tail (cs_outcomes s2)) in
  match write_result s, write_result s1, write_result s2 with
  | Err e, _, _ => (mkCertificateStore (cs_by_id s) (cs_by_round s) (cs_by_origin s) (cs_cache s) (tail (cs_outcomes s)), Err e)
  | _, Err e, _ => (mkCertificateStore ∅ (cs_by_round s) (cs_by_origin s) (cs_cache s) (tail (cs_outcomes s1)), Err e)
  | _, _, Err e => (mkCertificateStore ∅ ∅ (cs_by_origin s) (cs_cache s) (tail (cs_outcomes s2)), Err e)
  | Ok _, Ok _, Ok _ => (s3, Ok tt)
  end.

Definition cs_is_empty (s : Store) : bool := bool_decide (cs_by_id s = ∅).
End store.

(** ** The cache is transparent *)

Class CacheLaws (T : Type) `{StoreCache T} := {
  cache_holds : T -> gmap Z Certificate -> Prop;
  cache_holds_write t m d x : cache_holds t m -> cache_holds (cache_write d x t) (<[d := x]> m);
  cache_holds_remove t m d : cache_holds t m -> cache_holds (cache_remove d t) (delete d m);
  cache_holds_get t m d : cache_holds t m -> cache_holds (cache_get d t).1 m;
  cache_get_holds t m d x : cache_holds t m -> (cache_get d t).2 = Some x -> m !! d = Some x;
  cache_contains_holds t m d : cache_holds t m -> cache_contains d t = true -> is_Some (m !! d)
}.

#[global] Instance lru_cache_laws (L : Type) `{HL : Lru L} `{!LruLaws L} : CacheLaws L.
Proof.
  refine {| cache_holds t m := lru_view t ⊆ m |}; simpl.
  - intros t m d x Ht. etrans; [apply lru_view_put|]. by apply insert_mono.
  - intros t m d Ht. rewrite lru_view_pop. by apply delete_mono.
  - intros t m d Ht. by rewrite lru_view_get.
  - intros t m d x Ht. rewrite lru_get_value. intros Hx. by eapply lookup_weaken.
  - intros t m d Ht [x Hx]%lru_contains_true. exists x. by eapply lookup_weaken.
Defined.

#[global] Instance no_cache_laws : CacheLaws unit.
Proof. by refine {| cache_holds _ _ := True |}. Defined.

Section transparent.
Context `{HeaderHash} {T : Type} `{StoreCache T} `{!CacheLaws T}.
Implicit Types s : CertificateStore T.

Definition cache_ok s : Prop := cache_holds (cs_cache s) (cs_by_id s).

Lemma cs_contains_spec s d : cache_ok s -> cs_contains d s = bool_decide (is_Some (cs_by_id s !! d)).
Proof.
  intros Hs. unfold cs_contains. destruct (cache_contains d (cs_cache s)) eqn:E; [|done].
  symmetry. apply bool_decide_eq_true. by eapply cache_contains_holds.
Qed.

Lemma mark_hits_lookup (l : list (nat * Z * bool)) found j :
  foldl mark_hit found l !! j =
  if decide (Exists (fun e : nat * Z * bool => e.1.1 = j ∧ e.2 = true) l) then (fun _ => true) <$> found !! j else found !! j.
Proof.
  revert found. induction l as [|[[i d] hit] l IH]; intros found; cbn [foldl]; [by destruct (decide _) as [?%Exists_nil|]|].
  assert (forall l : list bool, <[i := true]> l !! j = if decide (i = j) then (fun _ => true) <$> l !! j else l !! j) as Hins.
  { intros l'. destruct (decide (i = j)) as [->|Hne]; [|by rewrite list_lookup_insert_ne].
    destruct (l' !! j) as [b|] eqn:E; [|by rewrite list_insert_ge; [|by apply lookup_ge_None]].
    rewrite list_lookup_insert_eq; [done|]. by eapply lookup_lt_Some. }
  rewrite IH. unfold mark_hit. simpl. destruct (decide (Exists _ l)) as [He|He].
  - rewrite decide_True by (by right). destruct hit; [|done]. rewrite Hins. case_decide; [by destruct (found !! j)|done].
  - destruct hit.
    + rewrite Hins. apply decide_ext. rewrite Exists_cons. simpl. naive_solver.
    + rewrite decide_False; [done|]. rewrite Exists_cons. naive_solver.
Qed.

(** The batched check is the check of each digest. *)
Lemma cs_multi_contains_spec s ds : cs_multi_contains ds s = (fun d => cs_contains d s) <$> ds.
Proof.
  unfold cs_multi_contains. set (found := _ <$> ds). set (lookups := omap _ _). set (hits := (fun e : nat * Z => _) <$> lookups).
  apply list_eq. intros j. rewrite mark_hits_lookup.
  assert (forall i d, (i, d) ∈ lookups <-> ds !! i = Some d ∧ cache_contains d (cs_cache s) = false) as Hl.
  { intros i d. unfold lookups. rewrite list_elem_of_omap. unfold found. split.
    - intros ([i' [d' b]] & Hin & He). apply elem_of_lookup_imap in Hin as (i2 & [d2 b2] & [= -> -> ->] & Hz).
      apply lookup_zip_Some in Hz as [Hd Hb]. rewrite list_lookup_fmap, Hd in Hb. simpl in *. injection Hb as <-.
      destruct (cache_contains d2 (cs_cache s)) eqn:E; [done|]. by injection He as -> ->.
    - intros [Hd Hb]. exists (i, (d, false)). split; [|done]. apply elem_of_lookup_imap. exists i, (d, false). split; [done|].
      apply lookup_zip_Some. split; [done|]. rewrite list_lookup_fmap, Hd. simpl. by rewrite Hb. }
  assert (forall d, ds !! j = Some d ->
    Exists (fun e : nat * Z * bool => e.1.1 = j ∧ e.2 = true) (zip lookups hits) <->
    cache_contains d (cs_cache s) = false ∧ is_Some (cs_by_id s !! d)) as Hex.
  { intros d Hd. rewrite Exists_exists. unfold hits. split.
    - intros ([[i d'] b] & Hin & Hi & Hb). simpl in *. subst i b. apply list_elem_of_lookup in Hin as [k Hk].
      apply lookup_zip_Some in Hk as [Hk Hb]. rewrite list_lookup_fmap, Hk in Hb. simpl in Hb. injection Hb as Hb%bool_decide_eq_true.
      apply list_elem_of_lookup_2, Hl in Hk as [Hd' Hc]. by replace d with d' by congruence.
    - intros [Hc Hs]. assert ((j, d) ∈ lookups) as Hin by by apply Hl. apply list_elem_of_lookup in Hin as [k Hk].
      exists (j, d, true). split; [|done]. apply list_elem_of_lookup. exists k. apply lookup_zip_Some. split; [done|].
      rewrite list_lookup_fmap, Hk. simpl. by rewrite bool_decide_eq_true_2. }
  unfold found. rewrite !list_lookup_fmap. destruct (ds !! j) as [d|] eqn:Hd; simpl; [|by destruct (decide _)].
  specialize (Hex d eq_refl). unfold cs_contains. destruct (decide _) as [He|He].
  - apply Hex in He as [-> Hs]. by rewrite bool_decide_eq_true_2.
  - destruct (cache_contains d (cs_cache s)); [done|]. rewrite bool_decide_eq_false_2; [done|]. tauto.
Qed.

Lemma cs_read_spec s d : cache_ok s ->
  (cs_read d s).2 = cs_by_id s !! d ∧ cache_ok (cs_read d s).1 ∧ exists t, (cs_read d s).1 = set_cache s t.
Proof.
  intros Hs. unfold cs_read. pose proof (cache_holds_get _ _ d Hs) as Hh. pose proof (fun x => cache_get_holds _ _ d x Hs) as Hg.
  destruct (cache_get d (cs_cache s)) as [t [x|]]; simpl in *; [|by eauto].
  rewrite (Hg x eq_refl). by eauto.
Qed.

Lemma cache_get_all_spec ids t m : cache_holds t m ->
  cache_holds (cache_get_all ids t).1 m ∧ ((cache_get_all ids t).2).*1 = ids ∧
  forall d x, (d, Some x) ∈ (cache_get_all ids t).2 -> m !! d = Some x.
Proof.
  revert t. induction ids as [|d ids IH]; intros t Ht; simpl.
  { split_and!; [done|done|]. by intros d x ?%not_elem_of_nil. }
  pose proof (cache_holds_get _ _ d Ht) as Hh. pose proof (cache_get_holds t m d) as Hg.
  destruct (cache_get d t) as [t' o]. simpl in *. destruct (IH t' Hh) as (Hi & Hfst & Hall).
  destruct (cache_get_all ids t') as [t'' l]. simpl in *. split_and!; [done|f_equal; exact Hfst|].
  intros d' x [[= -> Ho]|Hin]%elem_of_cons; [by apply Hg|by apply Hall].
Qed.

(** A fold of inserts of rows of [m] agrees with [m] where it is defined. *)
Lemma insert_rows_sub {A} (f : A -> option (Z * Certificate)) (l : list A) (acc m : gmap Z Certificate) :
  acc ⊆ m -> (forall a k x, a ∈ l -> f a = Some (k, x) -> m !! k = Some x) ->
  foldl (fun acc a => match f a with Some (k, x) => <[k := x]> acc | None => acc end) acc l ⊆ m.
Proof.
  revert acc. induction l as [|a l IH]; intros acc Hacc Hl; simpl; [done|]. apply IH; [|set_solver].
  destruct (f a) as [[k x]|] eqn:E; [|done]. apply insert_subseteq_l; [|done]. eapply Hl; [by left|done].
Qed.

Lemma insert_rows_lookup {A} (f : A -> option (Z * Certificate)) (l : list A) (acc : gmap Z Certificate) k :
  is_Some (acc !! k) ∨ (exists a x, a ∈ l ∧ f a = Some (k, x)) ->
  is_Some (foldl (fun acc a => match f a with Some (k, x) => <[k := x]> acc | None => acc end) acc l !! k).
Proof.
  revert acc. induction l as [|a l IH]; intros acc Hor; simpl.
  { destruct Hor as [?|(? & ? & ?%not_elem_of_nil & _)]; done. }
  apply IH. destruct Hor as [Hacc|(b & x & [->|Hb]%elem_of_cons & Hf)]; [left|left|eauto].
  - destruct (f a) as [[k' x']|]; [|done]. rewrite lookup_insert_is_Some. destruct (decide (k' = k)); auto.
  - rewrite Hf. by rewrite lookup_insert_eq.
Qed.

Lemma foldl_ext_fun {A B} (f g : B -> A -> B) l b : (forall b a, f b a = g b a) -> foldl f b l = foldl g b l.
Proof. intros Hfg. revert b. induction l as [|a l IH]; intros b; simpl; [done|]. by rewrite Hfg, IH. Qed.

Lemma cs_read_all_spec s ids : cache_ok s ->
  (cs_read_all ids s).2 = (fun d => cs_by_id s !! d) <$> ids ∧ cache_ok (cs_read_all ids s).1 ∧
  exists t, (cs_read_all ids s).1 = set_cache s t.
Proof.
  intros Hs. unfold cs_read_all. destruct (cache_get_all_spec ids _ _ Hs) as (Hh & Hfst & Hall).
  destruct (cache_get_all ids (cs_cache s)) as [t l]. simpl in *. split_and!; [|done|by eauto].
  set (f := fun e : Z * option Certificate => match e.2 with Some x => Some (e.1, x) | None => None end).
  set (g := fun d => match cs_by_id s !! d with Some x => Some (d, x) | None => None end).
  rewrite (foldl_ext_fun _ (fun acc a => match f a with Some (k, x) => <[k := x]> acc | None => acc end) l)
    by (intros m [d [x|]]; done).
  rewrite (foldl_ext_fun _ (fun acc a => match g a with Some (k, x) => <[k := x]> acc | None => acc end))
    by (intros m d; unfold g; by destruct (_ !! d)).
  apply list_fmap_ext. intros i d Hd. set (m1 := foldl _ ∅ l). set (miss := (List.filter _ l).*1).
  assert (m1 ⊆ cs_by_id s) as H1.
  { apply insert_rows_sub; [apply map_empty_subseteq|]. intros [e [x'|]] k x He; [|done]. intros [= -> ->]. by apply Hall. }
  assert (foldl (fun acc a => match g a with Some (k, x) => <[k := x]> acc | None => acc end) m1 miss ⊆ cs_by_id s) as H2.
  { apply insert_rows_sub; [done|]. intros e k x _. unfold g. destruct (cs_by_id s !! e) as [y|] eqn:E; [|done]. by intros [= <- <-]. }
  destruct (cs_by_id s !! d) as [x|] eqn:E.
  - assert (is_Some (foldl (fun acc a => match g a with Some (k, x) => <[k := x]> acc | None => acc end) m1 miss !! d)) as [y Hy].
    { apply insert_rows_lookup. apply list_elem_of_lookup_2 in Hd. rewrite <- Hfst in Hd.
      apply list_elem_of_fmap in Hd as ([d' o] & -> & Hin). simpl in *. destruct o as [z|].
      - left. apply insert_rows_lookup. right. by exists (d', Some z), z.
      - right. exists d', x. unfold g. rewrite E. split; [|done]. unfold miss. apply list_elem_of_fmap.
        exists (d', None). split; [done|]. apply list_elem_of_In, filter_In. by rewrite <- list_elem_of_In. }
    rewrite Hy. f_equal. eapply lookup_weaken in Hy; [|exact H2]. congruence.
  - destruct (foldl _ m1 miss !! d) as [y|] eqn:Hy; [|done]. eapply lookup_weaken in Hy; [|exact H2]. congruence.
Qed.
End transparent.

(** ** A client of the store *)

Inductive StoreOp :=
  | OpWriteAll (xs : list Certificate)
  | OpRead (digest : Z)
  | OpReadByIndex (origin round : Z)
  | OpReadAll (digests : list Z)
  | OpContains (digest : Z)
  | OpMultiContains (digests : list Z)
  | OpDelete (digest : Z)
  | OpDeleteAll (digests : list Z)
  | OpAfterRound (round : Z)
  | OpOriginsAfterRound (round : Z)
  | OpLastTwoRounds
  | OpLastRound (origin : Z)
  | OpHighestRoundNumber
  | OpLastRoundNumber (origin : Z)
  | OpNextRoundNumber (origin round : Z)
  | OpClear
  | OpIsEmpty.

Inductive StoreReply :=
  | ReplyUnit (r : Result unit string)
  | ReplyCertificate (x : option Certificate)
  | ReplyAll (xs : list (option Certificate))
  | ReplyList (r : Result (list Certificate) string)
  | ReplyBool (b : bool)
  | ReplyBools (bs : list bool)
  | ReplyOrigins (m : gmap Z (list Z))
  | ReplyRound (r : option Z).

Definition store_op `{HeaderHash} {T} `{StoreCache T} (op : StoreOp) (s : CertificateStore T) :
    CertificateStore T * StoreReply :=
  match op with
  | OpWriteAll xs => let '(s, r) := cs_write_all xs s in (s, ReplyUnit r)
  | OpRead d => let '(s, x) := cs_read d s in (s, ReplyCertificate x)
  | OpReadByIndex o r => let '(s, x) := cs_read_by_index o r s in (s, ReplyCertificate x)
  | OpReadAll ds => let '(s, l) := cs_read_all ds s in (s, ReplyAll l)
  | OpContains d => (s, ReplyBool (cs_contains d s))
  | OpMultiContains ds => (s, ReplyBools (cs_multi_contains ds s))
  | OpDelete d => let '(s, r) := cs_delete d s in (s, ReplyUnit r)
  | OpDeleteAll ds => let '(s, r) := cs_delete_all ds s in (s, ReplyUnit r)
  | OpAfterRound r => (s, ReplyList (after_round r s))
  | OpOriginsAfterRound r => (s, ReplyOrigins (origins_after_round r s))
  | OpLastTwoRounds => (s, ReplyList (last_two_rounds_certs s))
  | OpLastRound o => let '(s, x) := last_round o s in (s, ReplyCertificate x)
  | OpHighestRoundNumber => (s, ReplyRound (Some (highest_round_number s)))
  | OpLastRoundNumber o => (s, ReplyRound (last_round_number o s))
  | OpNextRoundNumber o r => (s, ReplyRound (next_round_number o r s))
  | OpClear => let '(s, r) := cs_clear s in (s, ReplyUnit r)
  | OpIsEmpty => (s, ReplyBool (cs_is_empty s))
  end.

(** The batch of the operation has failed. *)
Definition write_failed (op : StoreOp) (r : StoreReply) : bool :=
  match op, r with OpWriteAll _, ReplyUnit (Err _) => true | _, _ => false end.

(** The replies to a client that stops after a write that failed, as the synchronizer
    does: it expects every write of a certificate to succeed. *)
Fixpoint store_run `{HeaderHash} {T} `{StoreCache T} (ops : list StoreOp) (s : CertificateStore T) : list StoreReply :=
  match ops with
  | [] => []
  | op :: ops' => let '(s, r) := store_op op s in r :: if write_failed op r then [] else store_run ops' s
  end.

Section cached.
Context `{HeaderHash} {T : Type} `{StoreCache T} `{!CacheLaws T}.
Implicit Types s : CertificateStore T.

Definition uncached s : CertificateStore unit :=
  mkCertificateStore (cs_by_id s) (cs_by_round s) (cs_by_origin s) tt (cs_outcomes s).

(** The script holds no failure. *)
Definition writes_succeed s : Prop := Forall (fun r => r = Ok tt) (cs_outcomes s).

Definition cached_ok s : Prop := cache_ok s ∧ writes_succeed s.

Lemma uncached_ok s : cache_ok (uncached s).
Proof. done. Qed.

Lemma write_result_ok s : writes_succeed s -> write_result s = Ok tt ∧ Forall (fun r => r = Ok tt) (tail (cs_outcomes s)).
Proof. unfold writes_succeed, write_result. destruct (cs_outcomes s); [done|]. intros [-> ?]%Forall_cons. done. Qed.

Lemma cache_holds_write_all xs t m : cache_holds t m ->
  cache_holds (foldl (fun t x => cache_write (Certificate_digest x) x t) t xs)
    (foldl (fun m x => <[Certificate_digest x := x]> m) m xs).
Proof. revert t m. induction xs as [|x xs IH]; intros t m Ht; simpl; [done|]. by apply IH, cache_holds_write. Qed.

Lemma cache_holds_remove_all ds t m : cache_holds t m ->
  cache_holds (foldl (fun t d => cache_remove d t) t ds) (foldl (fun m d => delete d m) m ds).
Proof. revert t m. induction ds as [|d ds IH]; intros t m Ht; simpl; [done|]. by apply IH, cache_holds_remove. Qed.

(** [f] with the cache refines [g] without. *)
Definition refines_op {A} (s : CertificateStore T) (f : CertificateStore T * A) (g : CertificateStore unit * A) : Prop :=
  f.2 = g.2 ∧ cache_ok f.1 ∧ uncached f.1 = g.1.

Lemma cs_read_refines s d : cache_ok s -> refines_op s (cs_read d s) (cs_read d (uncached s)).
Proof.
  intros Hs. destruct (cs_read_spec s d Hs) as (Hv & Hok & t & Ht). unfold refines_op. rewrite Hv, Ht in *. by split.
Qed.

Lemma cs_read_all_refines s ds : cache_ok s -> refines_op s (cs_read_all ds s) (cs_read_all ds (uncached s)).
Proof.
  intros Hs. destruct (cs_read_all_spec s ds Hs) as (Hv & Hok & t & Ht).
  destruct (cs_read_all_spec (uncached s) ds (uncached_ok s)) as (Hv' & _ & [] & Ht').
  unfold refines_op. rewrite Hv, Hv', Ht', Ht in *. by split.
Qed.

(** A write that fails has the same reply, and leaves the cache ahead of the table. *)
Lemma cs_write_all_refines s xs : cache_ok s ->
  (cs_write_all xs s).2 = (cs_write_all xs (uncached s)).2 ∧
  (write_result s = Ok tt -> refines_op s (cs_write_all xs s) (cs_write_all xs (uncached s))) ∧
  (forall e, write_result s = Err e -> (cs_write_all xs s).2 = Err e).
Proof.
  intros Hs. unfold cs_write_all. change (write_result (uncached s)) with (write_result s).
  destruct (write_result s) as [[]|e]; (split; [done|]); (split; [|try by intros e' [= ->]]); [intros _|done].
  split; [done|]. split; [by apply cache_holds_write_all|]. unfold uncached. simpl. f_equal. by destruct (foldl _ tt xs).
Qed.

Lemma cs_remove_refines s ks ds : cache_ok s -> refines_op s (cs_remove ks ds s) (cs_remove ks ds (uncached s)).
Proof.
  intros Hs. unfold cs_remove. change (write_result (uncached s)) with (write_result s). destruct (write_result s) as [[]|e]; [|by split].
  split; [done|]. split; [by apply cache_holds_remove_all|]. unfold uncached. simpl. f_equal. by destruct (foldl _ tt ds).
Qed.

(** The writes of the script that are left. *)
Lemma cs_write_all_ok s xs : cached_ok s -> cached_ok (cs_write_all xs s).1 ∧ (cs_write_all xs s).2 = Ok tt.
Proof.
  intros [Hs Hw]. destruct (write_result_ok s Hw) as [Hr Ht]. unfold cs_write_all. rewrite Hr.
  split; [|done]. split; [by apply cache_holds_write_all|done].
Qed.

Lemma cs_read_ok s d : cached_ok s -> cached_ok (cs_read d s).1.
Proof. intros [Hs Hw]. destruct (cs_read_spec s d Hs) as (_ & Hok & t & Ht). rewrite Ht in *. by split. Qed.

Lemma store_op_refines s op : cache_ok s -> op <> OpClear -> write_failed op (store_op op s).2 = false ->
  refines_op s (store_op op s) (store_op op (uncached s)).
Proof.
  intros Hs Hne Hwf. pose proof (cs_read_refines s) as Hread. destruct op; cbn [store_op] in *; try done; try (by split).
  - destruct (cs_write_all_refines s xs Hs) as (_ & Hok & Hf). destruct (write_result s) as [[]|e].
    + destruct (Hok eq_refl) as (H1 & H2 & H3). destruct (cs_write_all xs s), (cs_write_all xs (uncached s)). simpl in *. subst. by split.
    + specialize (Hf e eq_refl). destruct (cs_write_all xs s) as [s1 r]. simpl in *. by subst.
  - destruct (Hread digest Hs) as (H1 & H2 & H3). destruct (cs_read digest s), (cs_read digest (uncached s)). simpl in *. subst. by split.
  - unfold cs_read_by_index. cbn [uncached cs_by_origin]. destruct (cs_by_origin s !! _) as [d|]; [|by split].
    destruct (Hread d Hs) as (H1 & H2 & H3). destruct (cs_read d s), (cs_read d (uncached s)). simpl in *. subst. by split.
  - destruct (cs_read_all_refines s digests Hs) as (H1 & H2 & H3). destruct (cs_read_all digests s), (cs_read_all digests (uncached s)).
    simpl in *. subst. by split.
  - split; [|by split]. simpl. f_equal. rewrite cs_contains_spec by done. by rewrite cs_contains_spec.
  - split; [|by split]. simpl. f_equal. rewrite !cs_multi_contains_spec. apply list_fmap_ext. intros _ d _.
    rewrite cs_contains_spec by done. by rewrite cs_contains_spec.
  - unfold cs_delete. destruct (Hread digest Hs) as (H1 & H2 & H3).
    destruct (cs_read digest s) as [s1 o], (cs_read digest (uncached s)) as [s2 o']. simpl in *. subst o' s2.
    destruct o as [x|]; [|by split].
    destruct (cs_remove_refines s1 [(Certificate_round x, Certificate_origin x)] [digest] H2) as (H4 & H5 & H6).
    destruct (cs_remove _ _ s1), (cs_remove _ _ (uncached s1)). simpl in *. subst. by split.
  - unfold cs_delete_all. destruct (cs_read_all_refines s digests Hs) as (H1 & H2 & H3).
    destruct (cs_read_all digests s) as [s1 l], (cs_read_all digests (uncached s)) as [s2 l']. simpl in *. subst l' s2.
    set (ks := _ <$> omap id l). destruct (bool_decide (ks = [])); [by split|].
    destruct (cs_remove_refines s1 ks digests H2) as (H4 & H5 & H6).
    destruct (cs_remove ks digests s1), (cs_remove ks digests (uncached s1)). simpl in *. subst. by split.
  - unfold last_round. cbn [uncached cs_by_origin]. destruct (row_prior_to _ _) as [[[n r] d]|]; [|by split]. destruct (n =? origin); [|by split].
    destruct (Hread d Hs) as (H1 & H2 & H3). destruct (cs_read d s), (cs_read d (uncached s)). simpl in *. subst. by split.
Qed.

(** The reply to a write is the same even if it fails. *)
Lemma store_op_reply s op : cache_ok s -> op <> OpClear -> (store_op op s).2 = (store_op op (uncached s)).2.
Proof.
  intros Hs Hne. destruct (write_failed op (store_op op s).2) eqn:Hwf; [|by apply store_op_refines].
  destruct op; try (cbn [store_op write_failed] in Hwf; repeat case_match; done). cbn [store_op].
  destruct (cs_write_all_refines s xs Hs) as (H1 & _). destruct (cs_write_all xs s), (cs_write_all xs (uncached s)). simpl in *. by subst.
Qed.

(** C34. The cache of the certificate store does not change what a client sees, up to
    the first write that fails: any sequence of operations other than [clear], whatever
    the results of the writes and deletions, gets the same replies with a lawful cache as
    without one, until a write of certificates returns an error, which both return. *)
Theorem certificate_cache_transparent s ops : cache_ok s -> Forall (fun op => op <> OpClear) ops ->
  store_run ops s = store_run ops (uncached s).
Proof.
  intros Hs Hops. revert s Hs. induction Hops as [|op ops Hop _ IH]; intros s Hs; simpl; [done|].
  pose proof (store_op_reply s op Hs Hop) as Hr. pose proof (store_op_refines s op Hs Hop) as Hf.
  destruct (store_op op s) as [s1 r], (store_op op (uncached s)) as [s2 r']. simpl in *. subst r'.
  destruct (write_failed op r); [done|]. destruct (Hf eq_refl) as (_ & H2 & H3). simpl in *. subst s2. by rewrite IH.
Qed.
End cached.

(** ** A bounded cache *)

(** Entries with the most recently used first. *)
Record RecentCache := mkRecent { rc_capacity : nat; rc_entries : list (Z * Certificate) }.

Abbreviation without k l := (List.filter (fun e : Z * Certificate => negb (e.1 =? k)) l).
Abbreviation entries_map l := (list_to_map l : gmap Z Certificate).

Lemma without_lookup k l k' : entries_map (without k l) !! k' = if decide (k' = k) then None else entries_map l !! k'.
Proof.
  induction l as [|[q x] l IH]; simpl; [by destruct (decide _)|]. destruct (Z.eqb_spec q k) as [->|Hne]; simpl.
  - rewrite IH. destruct (decide (k' = k)) as [->|Hk]; [done|]. by rewrite lookup_insert_ne.
  - destruct (decide (k' = q)) as [->|Hq]; [by rewrite !lookup_insert_eq, decide_False|]. by rewrite !lookup_insert_ne, IH.
Qed.

Lemma take_entries n l : entries_map (take n l) ⊆ entries_map l.
Proof.
  revert l. induction n as [|n IH]; intros [|[k x] l]; simpl; try done; [apply map_empty_subseteq|]. by apply insert_mono.
Qed.

#[global] Instance RecentCache_lru : Lru RecentCache := {|
  lru_put k x l := mkRecent (rc_capacity l) (take (rc_capacity l) ((k, x) :: without k (rc_entries l)));
  lru_get k l := match entries_map (rc_entries l) !! k with
                 | Some x => (mkRecent (rc_capacity l) ((k, x) :: without k (rc_entries l)), Some x)
                 | None => (l, None)
                 end;
  lru_contains k l := existsb (fun e : Z * Certificate => e.1 =? k) (rc_entries l);
  lru_pop k l := mkRecent (rc_capacity l) (without k (rc_entries l))
|}.

#[global] Instance RecentCache_laws : LruLaws RecentCache.
Proof.
  refine {| lru_view l := entries_map (rc_entries l) |}; simpl.
  - intros k x l. etrans; [apply take_entries|]. simpl. apply map_subseteq_spec. intros k' y.
    destruct (decide (k' = k)) as [->|Hk]; [by rewrite !lookup_insert_eq|]. rewrite !lookup_insert_ne, without_lookup by done.
    by rewrite decide_False.
  - intros k l. by destruct (_ !! k).
  - intros k l. destruct (entries_map (rc_entries l) !! k) as [x|] eqn:E; [|done]. simpl. apply map_eq. intros k'.
    destruct (decide (k' = k)) as [->|Hk]; [by rewrite lookup_insert_eq|]. rewrite lookup_insert_ne, without_lookup by done.
    by rewrite decide_False.
  - intros k l. induction (rc_entries l) as [|[q x] es IH]; simpl; [split; [done|by intros [? ?]]|].
    rewrite orb_true_iff, IH, Z.eqb_eq. destruct (decide (q = k)) as [->|Hq]; [rewrite lookup_insert_eq; naive_solver|].
    rewrite lookup_insert_ne by done. naive_solver.
  - intros k l. apply map_eq. intros k'. rewrite without_lookup. destruct (decide (k' = k)) as [->|Hk]; [by rewrite lookup_delete_eq|].
    by rewrite lookup_delete_ne.
Defined.

(** Three certificates pass through a cache of two; the last write fails. *)
Lemma certificate_cache_transparent_witness :
  let hash : HeaderHash := fun h => he_round h * 65536 + he_author h in
  let x r a := mkCertificate (mkHeader a r 0 0 [] []) 0 [] 0 in
  let ops := [OpWriteAll [x 1 0; x 1 1]; OpWriteAll [x 2 0]; OpReadAll [65536; 65537; 131072]; OpDelete 65537; OpContains 65537;
              OpMultiContains [65537; 65536]; OpRead 65536; OpWriteAll [x 2 1]; OpContains 131073] in
  let s := mkCertificateStore ∅ ∅ ∅ (mkRecent 2 []) [Ok tt; Ok tt; Ok tt; Err "disk full"%string] in
  cache_ok s ∧ @store_run hash _ _ ops s = @store_run hash _ _ ops (uncached s) ∧
  length (@store_run hash _ _ ops (uncached s)) = 8%nat.
Proof.
  intros hash x ops s. assert (cache_ok s) as Hs by apply map_empty_subseteq.
  split; [exact Hs|]. split; [|by vm_compute]. apply (@certificate_cache_transparent hash _ _ _ s ops Hs).
  repeat (constructor; [discriminate|]). constructor.
Defined.

(** The cache survives [clear]: a certificate that was written is still read after the
    tables have been cleared, while without a cache it is gone. *)
Theorem clear_keeps_cache `{HeaderHash} (x : Certificate) (n : nat) :
  let ops := [OpWriteAll [x]; OpClear; OpRead (Certificate_digest x); OpIsEmpty] in
  store_run ops (mkCertificateStore ∅ ∅ ∅ (mkRecent (S n) []) []) =
    [ReplyUnit (Ok tt); ReplyUnit (Ok tt); ReplyCertificate (Some x); ReplyBool true] ∧
  store_run ops (mkCertificateStore ∅ ∅ ∅ tt []) =
    [ReplyUnit (Ok tt); ReplyUnit (Ok tt); ReplyCertificate None; ReplyBool true].
Proof. split; [|done]. simpl. rewrite take_nil. unfold cs_read. simpl. by rewrite lookup_insert_eq. Qed.

(** ** The index by round *)

Section index.
Context `{HeaderHash} {T : Type} `{StoreCache T}.
Implicit Types s : CertificateStore T.

(** The index by round lists exactly the certificates. *)
Record index_ok s : Prop := {
  ix_sound r o d : cs_by_round s !! (r, o) = Some d ->
    exists x, cs_by_id s !! d = Some x ∧ Certificate_round x = r ∧ Certificate_origin x = o;
  ix_complete d x : cs_by_id s !! d = Some x ->
    Certificate_digest x = d ∧ cs_by_round s !! (Certificate_round x, Certificate_origin x) = Some d
}.

(** A write keeps the index when it neither equivocates nor collides. *)
Lemma index_ok_write s x :
  index_ok s -> write_result s = Ok tt ->
  (forall d, cs_by_round s !! (Certificate_round x, Certificate_origin x) = Some d -> d = Certificate_digest x) ->
  (forall y, cs_by_id s !! Certificate_digest x = Some y -> ce_header y = ce_header x) ->
  index_ok (cs_write x s).1.
Proof.
  intros [Hs Hc] Hw Hx Hcol. unfold cs_write, cs_write_all. rewrite Hw. split; simpl.
  - intros r o d. rewrite lookup_insert_Some. intros [[[= <- <-] <-]|[Hne Hl]].
    + exists x. by rewrite lookup_insert_eq.
    + destruct (Hs _ _ _ Hl) as (y & Hy & <- & <-). exists y. rewrite lookup_insert_ne; [done|].
      intros <-. apply Hne. unfold Certificate_round, Certificate_origin. by rewrite (Hcol _ Hy).
  - intros d y. rewrite !lookup_insert_Some. intros [[<- <-]|[Hne Hl]]; [by auto|].
    destruct (Hc _ _ Hl) as [Hd Hr]. split; [done|]. right. split; [|done]. intros Heq. rewrite <- Heq in Hr.
    by apply Hx in Hr.
Qed.

Lemma elem_of_rows (m : gmap (Z * Z) Z) k d : (k, d) ∈ rows m <-> m !! k = Some d.
Proof. unfold rows. by rewrite sort_by_pair_Permutation, elem_of_map_to_list. Qed.

Lemma rows_sorted (m : gmap (Z * Z) Z) : StronglySorted (fun x y : Z * Z * Z => x.1.1 <= y.1.1) (rows m).
Proof.
  eapply StronglySorted_impl; [|apply (sort_by_pair_sorted fst)]. intros x y. unfold pair_key_le. lia.
Qed.

Lemma StronglySorted_list_filter {A} (R : A -> A -> Prop) (f : A -> bool) l :
  StronglySorted R l -> StronglySorted R (List.filter f l).
Proof.
  induction 1 as [|x l Hl IH Hx]; simpl; [constructor|]. destruct (f x); [|done]. constructor; [done|].
  rewrite Forall_forall in *. intros y Hy%list_elem_of_In%filter_In. apply Hx, list_elem_of_In, Hy.
Qed.

(** The rows [after_round] reads. *)
Definition rows_from (round : Z) s : list (Z * Z * Z) :=
  List.filter (fun e : Z * Z * Z => round <=? e.1.1)
    (if 0 <? round then skip_to (round - 1, 0) (rows (cs_by_round s)) else rows (cs_by_round s)).

Lemma elem_of_rows_from round s k d :
  (k, d) ∈ rows_from round s <-> cs_by_round s !! k = Some d ∧ round <= k.1.
Proof.
  unfold rows_from. rewrite list_elem_of_In, filter_In, <- list_elem_of_In. simpl. rewrite Z.leb_le.
  destruct (0 <? round); [|by rewrite elem_of_rows].
  unfold skip_to. rewrite list_elem_of_In, filter_In, <- list_elem_of_In, elem_of_rows. simpl. unfold pair_ltb. simpl.
  split; [tauto|]. intros [? Hk]. split_and!; [done| |done]. destruct (Z.ltb_spec k.1 (round - 1)); [lia|].
  destruct (Z.eqb_spec k.1 (round - 1)); [lia|done].
Qed.

Lemma rows_from_sorted round s : StronglySorted (fun x y : Z * Z * Z => x.1.1 <= y.1.1) (rows_from round s).
Proof.
  apply StronglySorted_list_filter. destruct (0 <? round); [apply StronglySorted_list_filter|]; apply rows_sorted.
Qed.

(** With a sound index [after_round] returns the certificates of the round and after,
    by round. *)
Lemma after_round_spec s round : index_ok s ->
  exists l, after_round round s = Ok l ∧
    (forall x, x ∈ l <-> cs_by_id s !! Certificate_digest x = Some x ∧ round <= Certificate_round x) ∧
    StronglySorted (fun x y => Certificate_round x <= Certificate_round y) l.
Proof.
  intros [Hs Hc]. unfold after_round. fold (rows_from round s).
  assert (forall e, e ∈ rows_from round s ->
    exists x, cs_by_id s !! e.2 = Some x ∧ Certificate_round x = e.1.1 ∧ Certificate_digest x = e.2) as Hrow.
  { intros [[r o] d] [Hl _]%elem_of_rows_from. destruct (Hs _ _ _ Hl) as (x & Hx & Hr & _).
    exists x. split_and!; [done|done|]. by destruct (Hc _ _ Hx). }
  destruct (mapM (fun d => cs_by_id s !! d) (snd <$> rows_from round s)) as [l|] eqn:E.
  2: { apply mapM_None, Exists_exists in E as (d & (e & -> & He)%list_elem_of_fmap & Hn).
       destruct (Hrow e He) as (x & Hx & _). congruence. }
  exists l. apply mapM_Some, Forall2_fmap_l in E. split; [done|]. split.
  - intros x. split.
    + intros Hx. destruct (Forall2_elem_of_r _ _ _ _ E Hx) as ([[r o] d] & He & Hd). simpl in Hd.
      destruct (Hrow _ He) as (y & Hy & Hry & Hdy). simpl in *. assert (x = y) as -> by congruence.
      rewrite Hdy. split; [done|]. apply elem_of_rows_from in He. simpl in He. lia.
    + intros [Hx Hr]. destruct (Hc _ _ Hx) as [_ Hi].
      destruct (Forall2_elem_of_l _ _ _ ((Certificate_round x, Certificate_origin x), Certificate_digest x) E) as (y & Hy & Hl).
      { by apply elem_of_rows_from. }
      simpl in Hl. congruence.
  - pose proof (rows_from_sorted round s) as Hso. revert Hso Hrow. clear Hs Hc.
    induction E as [|e x es xs Hex E IH]; intros Hso Hrow; [constructor|]. apply StronglySorted_inv in Hso as [Hso Hlt].
    constructor; [apply IH; [done|set_solver]|]. rewrite Forall_forall in Hlt. apply Forall_forall. intros y Hy.
    destruct (Forall2_elem_of_r _ _ _ _ E Hy) as (e' & He' & Hd'). simpl in *.
    destruct (Hrow e ltac:(set_solver)) as (? & ? & ? & _). destruct (Hrow e' ltac:(set_solver)) as (? & ? & ? & _).
    specialize (Hlt _ He'). simplify_eq. lia.
Qed.
End index.

(** Deleting a certificate leaves its row in the index by origin: the last round of
    its author is still reported, and its certificate is not found. *)
Theorem delete_keeps_origin_row `{HeaderHash} x :
  0 <= Certificate_round x < u64_modulus ->
  let s := (cs_delete (Certificate_digest x) (cs_write x (mkCertificateStore ∅ ∅ ∅ tt [])).1).1 in
  cs_by_id s = ∅ ∧ cs_by_round s = ∅ ∧ last_round_number (Certificate_origin x) s = Some (Certificate_round x) ∧
  (last_round (Certificate_origin x) s).2 = None.
Proof.
  intros Hr. unfold cs_delete, cs_write, cs_write_all. simpl. rewrite lookup_insert_eq. simpl. unfold cs_remove. simpl.
  rewrite !delete_insert_id by done. split; [done|]. split; [done|].
  unfold last_round_number, last_round. simpl. unfold row_prior_to, rows.
  rewrite insert_empty, map_to_list_singleton. simpl. unfold pair_ltb. simpl.
  rewrite Z.ltb_irrefl, Z.eqb_refl. destruct (Z.ltb_spec u64_max (Certificate_round x)); [unfold u64_max in *; lia|].
  simpl. by rewrite Z.eqb_refl.
Qed.
