(* ===== verification/Synchronizer.v ===== *)
(** * The synchronizer

    src/narwhal/primary/src/synchronizer.rs: certificates are verified, kept back
    while parents are missing, and passed on to consensus, to the proposer and to the
    certificate store in causal order.

    The acceptor task runs [process_certificate_with_lock] for one certificate after
    the other from a queue: it looks the certificate up in the store
    ([acceptor_take]), waits for the lock of the suspended certificates, and does the
    rest with the lock ([acceptor_locked]).  The garbage collection task stores the new
    round ([gc_store]) and then, with the lock, drops and accepts suspended
    certificates ([gc_run]).  These are the atomic steps; what the tasks do with the
    lock held is one.  Sets are iterated in an order of the hash function, the class
    [SetIter].  A waiter for a suspended certificate, metrics and the fetching of
    certificates and batches are left out; what is sent to the tasks is recorded. *)

From S2P Require Import Prelude Committee DagTypes ConsensusCore Certification CertificateStore.
Local Open Scope Z_scope.
Local Open Scope chase_scope.

Class SetIter := set_iter : gset Z -> list Z.
Class SetIterLaws `{SetIter} := set_iter_permutation s : set_iter s ≡ₚ elements s.

(** ** Suspended certificates *)

Record SuspendedCertificate := mkSuspended { su_certificate : Certificate; su_missing_parents : gset Z }.

(** [missing] maps round and digest of a certificate that is not in the dag to the
    digests of the suspended certificates that have it as a parent. *)
Record SyncState := mkSyncState {
  sy_suspended : gmap Z SuspendedCertificate;
  sy_missing : gmap (Z * Z) (gset Z)
}.

Definition SyncState_default : SyncState := mkSyncState ∅ ∅.

Definition NEW_CERTIFICATE_ROUND_LIMIT : Z := 1000.

Section state.
Context `{HeaderHash} `{SetIter}.

Definition check_suspended (digest : Z) (s : SyncState) : bool := bool_decide (is_Some (sy_suspended s !! digest)).

(** Registers the digest as a child of each missing parent; the assertion fails if
    it is one already. *)
Definition add_missing (missing_round digest : Z) (acc : option (gmap (Z * Z) (gset Z))) (d : Z) :
    option (gmap (Z * Z) (gset Z)) :=
  m ← acc;
  let children := default ∅ (m !! (missing_round, d)) in
  if bool_decide (digest ∈ children) then None else Some (<[(missing_round, d) := {[digest]} ∪ children]> m).

(** The panics of [insert] are [None]. *)
Definition SyncState_insert (certificate : Certificate) (missing_parents : list Z) (allow_reinsert : bool) (s : SyncState) :
    option SyncState :=
  let digest := Certificate_digest certificate in
  let missing_round := Certificate_round certificate -u64 1 in
  match sy_suspended s !! digest with
  | Some suspended =>
      if allow_reinsert && bool_decide (su_missing_parents suspended = list_to_set missing_parents) then Some s else None
  | None =>
      missing ← foldl (add_missing missing_round digest) (Some (sy_missing s)) missing_parents;
      Some (mkSyncState (<[digest := mkSuspended certificate (list_to_set missing_parents)]> (sy_suspended s)) missing)
  end.

(** The children of an accepted certificate lose a missing parent; those that have
    none left are taken out and queued. *)
Fixpoint release_children (digest : Z) (children : list Z) (suspended : gmap Z SuspendedCertificate)
    (to_traverse : list (Z * Z)) (to_accept : list SuspendedCertificate) :
    option (gmap Z SuspendedCertificate * list (Z * Z) * list SuspendedCertificate) :=
  match children with
  | [] => Some (suspended, to_traverse, to_accept)
  | child :: children' =>
      sc ← suspended !! child;
      let sc := mkSuspended (su_certificate sc) (su_missing_parents sc ∖ {[digest]}) in
      if bool_decide (su_missing_parents sc = ∅) then
        release_children digest children' (delete child suspended)
          (to_traverse ++ [(Certificate_round (su_certificate sc), Certificate_digest (su_certificate sc))])
          (to_accept ++ [sc])
      else release_children digest children' (<[child := sc]> suspended) to_traverse to_accept
  end.

Fixpoint traverse (fuel : nat) (s : SyncState) (to_traverse : list (Z * Z)) (to_accept : list SuspendedCertificate) :
    Run (SyncState * list SuspendedCertificate) :=
  match to_traverse with
  | [] => Finished (s, to_accept)
  | (round, digest) :: rest =>
      match fuel with
      | O => Spinning
      | S fuel' =>
          match sy_missing s !! (round, digest) with
          | None => traverse fuel' s rest to_accept
          | Some children =>
              match release_children digest (set_iter children) (sy_suspended s) rest to_accept with
              | None => Panicked
              | Some (suspended, rest, to_accept) =>
                  traverse fuel' (mkSyncState suspended (delete (round, digest) (sy_missing s))) rest to_accept
              end
          end
      end
  end.

(** A certificate is traversed once, and every suspended one at most once. *)
Definition accept_children (round digest : Z) (s : SyncState) : Run (SyncState * list SuspendedCertificate) :=
  match sy_suspended s !! digest with
  | Some _ => Panicked
  | None => traverse (S (size (sy_suspended s))) s [(round, digest)] []
  end.

(** The loop of [run_gc] over the missing certificates in order of their rounds. *)
Fixpoint run_gc_loop (gc_round : Z) (entries : list (Z * Z * gset Z)) (s : SyncState) (above : gset Z) : SyncState * gset Z :=
  match entries with
  | [] => (s, above)
  | ((round, digest), children) :: entries' =>
      if gc_round <? round then (s, above)
      else
        run_gc_loop gc_round entries'
          (mkSyncState (delete digest (sy_suspended s)) (delete (round, digest) (sy_missing s)))
          (if round =? gc_round then above ∪ children else above)
  end.

(** The certificates just above the collected round can be accepted. *)
Fixpoint take_suspended (digests : list Z) (suspended : gmap Z SuspendedCertificate) :
    option (gmap Z SuspendedCertificate * list SuspendedCertificate) :=
  match digests with
  | [] => Some (suspended, [])
  | d :: digests' =>
      sc ← suspended !! d;
      '(suspended, l) ← take_suspended digests' (delete d suspended);
      Some (suspended, mkSuspended (su_certificate sc) ∅ :: l)
  end.

Definition run_gc (gc_round : Z) (s : SyncState) : option (SyncState * list SuspendedCertificate) :=
  let '(s, above) := run_gc_loop gc_round (sort_by_pair fst (map_to_list (sy_missing s))) s ∅ in
  '(suspended, to_accept) ← take_suspended (set_iter above) (sy_suspended s);
  Some (mkSyncState suspended (sy_missing s), to_accept).
End state.

(** ** The synchronizer *)

Inductive CertificateFetcherCommand := Ancestors (x : Certificate) | Kick.

(** What was sent to the other tasks, and whether they still listen. *)
Record SyncChannels := mkSyncChannels {
  sc_new_certificates : list Certificate;
  sc_parents : list (list Certificate * Z * Z);
  sc_fetcher : list CertificateFetcherCommand;
  sc_batch_tasks : list (Header * Z);
  sc_own : list Certificate;
  sc_new_certificates_open : bool;
  sc_parents_open : bool;
  sc_fetcher_open : bool;
  sc_batch_tasks_open : bool;
  sc_own_open : bool
}.

(** The part of [Inner] that does not change. *)
Record SyncConfig := mkSyncConfig {
  sf_authority_id : Z;
  sf_committee : Committee;
  sf_worker_cache : WorkerCache;
  sf_gc_depth : Z;
  sf_genesis : gmap Z Certificate
}.

(** [sn_acceptor] is the queue of the acceptor task and [sn_accepting] the certificate
    for which it waits for the lock. *)
Record Synchronizer (T : Type) := mkSynchronizer {
  sn_gc_round : Z;
  sn_processed : Z;
  sn_received : Z;
  sn_store : CertificateStore T;
  sn_aggregators : gmap Z CertificatesAggregator;
  sn_state : SyncState;
  sn_acceptor : list (Certificate * bool);
  sn_accepting : option (Certificate * bool);
  sn_channels : SyncChannels
}.
Arguments mkSynchronizer {T}.
Arguments sn_gc_round {T}.
Arguments sn_processed {T}.
Arguments sn_received {T}.
Arguments sn_store {T}.
Arguments sn_aggregators {T}.
Arguments sn_state {T}.
Arguments sn_acceptor {T}.
Arguments sn_accepting {T}.
Arguments sn_channels {T}.

Section setters.
Context {T : Type} (n : Synchronizer T).

Definition sn_set_gc_round (r : Z) := mkSynchronizer r (sn_processed n) (sn_received n) (sn_store n) (sn_aggregators n)
  (sn_state n) (sn_acceptor n) (sn_accepting n) (sn_channels n).
Definition sn_set_processed (r : Z) := mkSynchronizer (sn_gc_round n) r (sn_received n) (sn_store n) (sn_aggregators n)
  (sn_state n) (sn_acceptor n) (sn_accepting n) (sn_channels n).
Definition sn_set_received (r : Z) := mkSynchronizer (sn_gc_round n) (sn_processed n) r (sn_store n) (sn_aggregators n)
  (sn_state n) (sn_acceptor n) (sn_accepting n) (sn_channels n).
Definition sn_set_store (s : CertificateStore T) := mkSynchronizer (sn_gc_round n) (sn_processed n) (sn_received n) s
  (sn_aggregators n) (sn_state n) (sn_acceptor n) (sn_accepting n) (sn_channels n).
Definition sn_set_aggregators (a : gmap Z CertificatesAggregator) := mkSynchronizer (sn_gc_round n) (sn_processed n)
  (sn_received n) (sn_store n) a (sn_state n) (sn_acceptor n) (sn_accepting n) (sn_channels n).
Definition sn_set_state (s : SyncState) := mkSynchronizer (sn_gc_round n) (sn_processed n) (sn_received n) (sn_store n)
  (sn_aggregators n) s (sn_acceptor n) (sn_accepting n) (sn_channels n).
Definition sn_set_acceptor (q : list (Certificate * bool)) := mkSynchronizer (sn_gc_round n) (sn_processed n) (sn_received n)
  (sn_store n) (sn_aggregators n) (sn_state n) q (sn_accepting n) (sn_channels n).
Definition sn_set_accepting (o : option (Certificate * bool)) := mkSynchronizer (sn_gc_round n) (sn_processed n) (sn_received n)
  (sn_store n) (sn_aggregators n) (sn_state n) (sn_acceptor n) o (sn_channels n).
Definition sn_set_channels (ch : SyncChannels) := mkSynchronizer (sn_gc_round n) (sn_processed n) (sn_received n) (sn_store n)
  (sn_aggregators n) (sn_state n) (sn_acceptor n) (sn_accepting n) ch.
End setters.

(** ** Sending *)

Definition sc_send_new (x : Certificate) (ch : SyncChannels) : SyncChannels :=
  mkSyncChannels (sc_new_certificates ch ++ [x]) (sc_parents ch) (sc_fetcher ch) (sc_batch_tasks ch) (sc_own ch)
    (sc_new_certificates_open ch) (sc_parents_open ch) (sc_fetcher_open ch) (sc_batch_tasks_open ch) (sc_own_open ch).
Definition sc_send_parents (m : list Certificate * Z * Z) (ch : SyncChannels) : SyncChannels :=
  mkSyncChannels (sc_new_certificates ch) (sc_parents ch ++ [m]) (sc_fetcher ch) (sc_batch_tasks ch) (sc_own ch)
    (sc_new_certificates_open ch) (sc_parents_open ch) (sc_fetcher_open ch) (sc_batch_tasks_open ch) (sc_own_open ch).
Definition sc_send_fetcher (m : CertificateFetcherCommand) (ch : SyncChannels) : SyncChannels :=
  mkSyncChannels (sc_new_certificates ch) (sc_parents ch) (sc_fetcher ch ++ [m]) (sc_batch_tasks ch) (sc_own ch)
    (sc_new_certificates_open ch) (sc_parents_open ch) (sc_fetcher_open ch) (sc_batch_tasks_open ch) (sc_own_open ch).
Definition sc_send_batch_task (m : Header * Z) (ch : SyncChannels) : SyncChannels :=
  mkSyncChannels (sc_new_certificates ch) (sc_parents ch) (sc_fetcher ch) (sc_batch_tasks ch ++ [m]) (sc_own ch)
    (sc_new_certificates_open ch) (sc_parents_open ch) (sc_fetcher_open ch) (sc_batch_tasks_open ch) (sc_own_open ch).
Definition sc_send_own (x : Certificate) (ch : SyncChannels) : SyncChannels :=
  mkSyncChannels (sc_new_certificates ch) (sc_parents ch) (sc_fetcher ch) (sc_batch_tasks ch) (sc_own ch ++ [x])
    (sc_new_certificates_open ch) (sc_parents_open ch) (sc_fetcher_open ch) (sc_batch_tasks_open ch) (sc_own_open ch).

Section synchronizer.
Context `{HeaderHash} `{Signatures} `{SetIter} {T : Type} `{StoreCache T} (cfg : SyncConfig).
Abbreviation SyncM := (EM (Synchronizer T) DagError).

(** [send(..).await.map_err(|_| DagError::ShuttingDown)?]. *)
Definition sync_send (is_open : SyncChannels -> bool) (push : SyncChannels -> SyncChannels) : SyncM unit :=
  n ← em_get;
  _ ← ensure (is_open (sn_channels n)) ShuttingDown;
  em_modify (fun n => sn_set_channels n (push (sn_channels n))).

Definition send_parents (parents : list Certificate) (round epoch : Z) : SyncM unit :=
  sync_send sc_parents_open (sc_send_parents (parents, round, epoch)).
Definition send_fetcher (m : CertificateFetcherCommand) : SyncM unit := sync_send sc_fetcher_open (sc_send_fetcher m).

(** ** Accepting *)

Definition append_certificate_in_aggregator (x : Certificate) : SyncM unit :=
  n ← em_get;
  let round := Certificate_round x in
  let '(a, parents) := CertificatesAggregator_append (sf_committee cfg) x
                         (default CertificatesAggregator_new (sn_aggregators n !! round)) in
  _ ← em_modify (fun n => sn_set_aggregators n (<[round := a]> (sn_aggregators n)));
  match parents with
  | None => mret tt
  | Some parents => send_parents parents round (Certificate_epoch x)
  end.

Definition accept_certificate_internal (x : Certificate) : SyncM unit :=
  n ← em_get;
  _ ← (if (sn_gc_round n +u64 1 <? Certificate_round x)
          && negb (forallb (fun b => b) (cs_multi_contains (Certificate_parents x) (sn_store n)))
       then em_panic else mret tt);
  let '(s, r) := cs_write x (sn_store n) in
  _ ← (match r with Ok _ => mret tt | Err _ => em_panic end : SyncM unit);
  _ ← em_modify (fun n => sn_set_processed (sn_set_store n s) (Z.max (sn_processed n) (Certificate_round x)));
  _ ← append_certificate_in_aggregator x;
  sync_send sc_new_certificates_open (sc_send_new x).

Definition accept_suspended_certificate (sc : SuspendedCertificate) : SyncM unit :=
  accept_certificate_internal (su_certificate sc).

Fixpoint accept_all (l : list SuspendedCertificate) : SyncM unit :=
  match l with
  | [] => mret tt
  | sc :: l' => _ ← accept_suspended_certificate sc; accept_all l'
  end.

(** ** Missing parents *)

(** The parents of a certificate of round 1 are the genesis certificates. *)
Definition check_genesis_parents (parents : list Z) : Result unit DagError :=
  foldr (fun d rest => match sf_genesis cfg !! d with Some _ => rest | None => Err (InvalidGenesisParent d) end) (Ok tt) parents.

Definition not_stored (digests : list Z) (s : CertificateStore T) : list Z :=
  fst <$> List.filter (fun p : Z * bool => negb p.2) (zip digests (cs_multi_contains digests s)).

Definition sync_get_unknown_parent_digests (header : Header) : SyncM (list Z) :=
  n ← em_get;
  if he_round header =? 1 then
    _ ← em_result (check_genesis_parents (he_parents header));
    mret []
  else mret (List.filter (fun d => negb (check_suspended d (sn_state n))) (not_stored (he_parents header) (sn_store n))).

Definition get_missing_parents (x : Certificate) : SyncM (list Z) :=
  n ← em_get;
  if Certificate_round x =? 1 then
    _ ← em_result (check_genesis_parents (Certificate_parents x));
    mret []
  else
    let result := not_stored (Certificate_parents x) (sn_store n) in
    _ ← (if bool_decide (result = []) then mret tt else send_fetcher (Ancestors x));
    mret result.

(** ** Processing *)

Definition sanitize_certificate (now : Z) (x : Certificate) : SyncM unit :=
  n ← em_get;
  _ ← ensure (cm_epoch (sf_committee cfg) =? Certificate_epoch x) (InvalidEpoch (cm_epoch (sf_committee cfg)) (Certificate_epoch x));
  _ ← ensure (sn_gc_round n <? Certificate_round x) (TooOld (Certificate_digest x) (Certificate_round x) (sn_gc_round n));
  r ← em_lift (Certificate_verify now (sf_committee cfg) (sf_worker_cache cfg) x);
  em_result r.

(** [process_certificate_with_lock] once it has the lock. *)
Definition process_certificate_locked (x : Certificate) (early_suspend : bool) : SyncM unit :=
  n ← em_get;
  let digest := Certificate_digest x in
  _ ← ensure (negb (early_suspend && check_suspended digest (sn_state n))) (Suspended digest);
  missing ← (if sn_gc_round n +u64 1 <? Certificate_round x then get_missing_parents x else mret []);
  if bool_decide (missing = []) then
    n ← em_get;
    match accept_children (Certificate_round x) digest (sn_state n) with
    | Finished (s, children) =>
        _ ← em_modify (fun n => sn_set_state n s);
        _ ← accept_certificate_internal x;
        accept_all children
    | _ => em_panic
    end
  else
    n ← em_get;
    s ← em_lift (SyncState_insert x missing (negb early_suspend) (sn_state n));
    _ ← em_modify (fun n => sn_set_state n s);
    em_fail (Suspended digest).

Definition process_certificate_with_lock (x : Certificate) (early_suspend : bool) : SyncM unit :=
  n ← em_get;
  if cs_contains (Certificate_digest x) (sn_store n) then mret tt else process_certificate_locked x early_suspend.

(** [process_certificate_internal] up to the queue of the acceptor task. *)
Definition submit_certificate (now : Z) (x : Certificate) (sanitize early_suspend : bool) : SyncM bool :=
  n ← em_get;
  let digest := Certificate_digest x in
  if cs_contains digest (sn_store n) then mret false
  else
    _ ← ensure (negb (early_suspend && check_suspended digest (sn_state n))) (Suspended digest);
    _ ← (if sanitize then sanitize_certificate now x else mret tt);
    _ ← em_modify (fun n => sn_set_received n (Z.max (sn_received n) (Certificate_round x)));
    _ ← send_parents [] (u64_saturating_sub (Certificate_round x) 1) (Certificate_epoch x);
    _ ← sync_send sc_batch_tasks_open (sc_send_batch_task (ce_header x, u64_saturating_sub (sf_gc_depth cfg) 1));
    n ← em_get;
    if sn_processed n +u64 NEW_CERTIFICATE_ROUND_LIMIT <? Certificate_round x then
      _ ← send_fetcher (Ancestors x);
      em_fail (TooNew digest (Certificate_round x) (sn_processed n))
    else
      _ ← em_modify (fun n => sn_set_acceptor n (sn_acceptor n ++ [(x, early_suspend)]));
      mret true.

(** The acceptor task takes the next certificate and looks it up in the store; it
    goes on with the certificate when it has the lock. *)
Definition acceptor_take : SyncM unit :=
  n ← em_get;
  match sn_accepting n, sn_acceptor n with
  | None, (x, early_suspend) :: q =>
      _ ← em_modify (fun n => sn_set_acceptor n q);
      if cs_contains (Certificate_digest x) (sn_store n) then mret tt
      else em_modify (fun n => sn_set_accepting n (Some (x, early_suspend)))
  | _, _ => mret tt
  end.

(** The result goes back to the task that submitted the certificate. *)
Definition acceptor_locked : SyncM unit :=
  n ← em_get;
  match sn_accepting n with
  | None => mret tt
  | Some (x, early_suspend) =>
      _ ← em_modify (fun n => sn_set_accepting n None);
      process_certificate_locked x early_suspend
  end.

(** One round of the loop of the acceptor task, when no other task has the lock. *)
Definition acceptor_step : SyncM unit :=
  _ ← acceptor_take;
  acceptor_locked.

Lemma acceptor_step_with_lock (n : Synchronizer T) x early_suspend q :
  sn_accepting n = None -> sn_acceptor n = (x, early_suspend) :: q ->
  acceptor_step n = process_certificate_with_lock x early_suspend (sn_set_acceptor n q).
Proof.
  intros Hacc Hq. unfold acceptor_step, acceptor_take, acceptor_locked, process_certificate_with_lock, mbind, EM_bind, em_get, em_modify.
  rewrite Hacc, Hq. cbn [sn_store sn_set_acceptor]. destruct (cs_contains _ _); simpl; [by rewrite Hacc|].
  unfold sn_set_accepting, sn_set_acceptor. simpl. by rewrite Hacc.
Qed.

(** What becomes of another task's certificate is not reported. *)
Definition em_ignore (m : SyncM unit) : SyncM unit := fun n => '(n, _) ← m n; Some (n, Ok tt).

(** The acceptor task until it has answered for the last certificate of its queue. *)
Fixpoint acceptor_answers (before : nat) : SyncM unit :=
  match before with
  | O => acceptor_step
  | S before' => _ ← em_ignore acceptor_step; acceptor_answers before'
  end.

(** The whole of [process_certificate_internal]: the acceptor task first answers for
    the certificates that came before. *)
Definition process_certificate_internal (now : Z) (x : Certificate) (sanitize early_suspend : bool) : SyncM unit :=
  queued ← submit_certificate now x sanitize early_suspend;
  if queued : bool then
    _ ← em_ignore acceptor_locked;
    n ← em_get;
    acceptor_answers (length (sn_acceptor n) - 1)
  else mret tt.

Definition try_accept_certificate (now : Z) (x : Certificate) : SyncM unit := process_certificate_internal now x true true.

Definition try_accept_fetched_certificate (now : Z) (x : Certificate) : SyncM unit :=
  process_certificate_internal now x false false.

(** Any error but a shutdown panics. *)
Definition accept_own_certificate (now : Z) (x : Certificate) : SyncM unit :=
  _ ← (fun n => match process_certificate_internal now x false false n with
                | Some (n, Err ShuttingDown) => Some (n, Err ShuttingDown)
                | Some (n, Err _) => None
                | r => r
                end);
  sync_send sc_own_open (sc_send_own x).

(** ** Garbage collection *)

Definition gc_store (gc_round : Z) : SyncM unit :=
  em_modify (fun n =>
    sn_set_aggregators (sn_set_gc_round n gc_round)
      (filter (fun e : Z * CertificatesAggregator => gc_round < e.1) (sn_aggregators n))).

Fixpoint gc_accept (l : list SuspendedCertificate) : SyncM unit :=
  match l with
  | [] => mret tt
  | sc :: l' =>
      n ← em_get;
      match accept_children (Certificate_round (su_certificate sc)) (Certificate_digest (su_certificate sc)) (sn_state n) with
      | Finished (s, children) =>
          _ ← em_modify (fun n => sn_set_state n s);
          _ ← accept_all (sc :: children);
          gc_accept l'
      | _ => em_panic
      end
  end.

Definition gc_run : SyncM unit :=
  n ← em_get;
  '(s, l) ← em_lift (run_gc (sn_gc_round n) (sn_state n));
  _ ← em_modify (fun n => sn_set_state n s);
  gc_accept l.

(** ** Parents for a vote *)

(** [notify_read] waits until the certificate is stored; [None] while one is not. *)
Fixpoint read_parents (digests : list Z) (s : CertificateStore T) : CertificateStore T * option (list Certificate) :=
  match digests with
  | [] => (s, Some [])
  | d :: digests' =>
      let '(s, x) := cs_read d s in
      let '(s, l) := read_parents digests' s in
      (s, x ← x; l ← l; Some (x :: l))
  end.

Fixpoint genesis_parents (digests : list Z) : Result (list Certificate) DagError :=
  match digests with
  | [] => Ok []
  | d :: digests' =>
      match sf_genesis cfg !! d, genesis_parents digests' with
      | None, _ => Err (InvalidGenesisParent d)
      | Some x, Ok l => Ok (x :: l)
      | Some _, Err e => Err e
      end
  end.

Definition notify_read_parent_certificates (header : Header) : SyncM (option (list Certificate)) :=
  if he_round header =? 1 then
    l ← em_result (genesis_parents (he_parents header));
    mret (Some l)
  else
    n ← em_get;
    let '(s, l) := read_parents (he_parents header) (sn_store n) in
    _ ← em_modify (fun n => sn_set_store n s);
    mret l.
End synchronizer.

(** ** The start *)

Definition make_genesis `{HeaderHash} `{Signatures} (now : Z) (c : Committee) : option (gmap Z Certificate) :=
  g ← Certificate_genesis now c;
  Some (foldl (fun m x => <[Certificate_digest x := x]> m) ∅ g).

(** A new synchronizer on a store, before its recovery task has run. *)
Definition Synchronizer_new {T} (gc_round : Z) (store : CertificateStore T) (ch : SyncChannels) : Synchronizer T :=
  mkSynchronizer gc_round (highest_round_number store) 0 store ∅ SyncState_default [] None ch.

(** The recovery task hands the certificates of the last two rounds to the
    aggregators again. *)
Definition recover_parents `{HeaderHash} {T} (cfg : SyncConfig) : EM (Synchronizer T) DagError unit :=
  n ← em_get;
  match last_two_rounds_certs (sn_store n) with
  | Err _ => em_panic
  | Ok l => foldr (fun x rest => _ ← append_certificate_in_aggregator cfg x; rest) (mret tt) l
  end.
