(* ===== verification/SynchronizerProps.v ===== *)
(** * The bookkeeping of the synchronizer

    The suspended certificates and the missing parents stay consistent under every step
    of the synchronizer's tasks, so that no assertion fails but the one of
    [SynchronizerSafe.fetched_certificate_panics], and certificates reach consensus
    after their parents ([sync_ok]). *)

From S2P Require Import Prelude Committee DagTypes ConsensusCore Bullshark DagProps ConsensusSample Certification CertificationProps CertificateStore Synchronizer.
Local Open Scope Z_scope.
Local Open Scope chase_scope.

Abbreviation su_digest su := (Certificate_digest (su_certificate su)).
Abbreviation su_round su := (Certificate_round (su_certificate su)).

Section bookkeeping.
Context `{HH : HeaderHash} `{HI : SetIter} `{!SetIterLaws} (c : Committee) (G : gmap Z Header) (Hcd : certified_dag c G).
Implicit Types (D : gset Z) (s : SyncState) (l : list SuspendedCertificate).

Definition digests_of l : gset Z := list_to_set ((fun su => su_digest su) <$> l).

(** [D] are the digests of the stored certificates, [g] is the collected round.
    Certificates at or below it may have lost their registration. *)
Record sync_inv D (g : Z) s : Prop := {
  sv_certified d su : sy_suspended s !! d = Some su -> certified G (su_certificate su) ∧ su_digest su = d;
  sv_fresh d su : sy_suspended s !! d = Some su -> d ∉ D;
  sv_nonempty d su : sy_suspended s !! d = Some su -> su_missing_parents su <> ∅;
  sv_parent d su p : sy_suspended s !! d = Some su -> p ∈ su_missing_parents su ->
    p ∈ Certificate_parents (su_certificate su) ∧
    (((p ∉ D) ∧ (exists ch, sy_missing s !! (su_round su - 1, p) = Some ch ∧ d ∈ ch)) ∨ su_round su <= g);
  sv_present d su p : sy_suspended s !! d = Some su -> p ∈ Certificate_parents (su_certificate su) ->
    p ∉ su_missing_parents su -> p ∈ D;
  sv_children r p ch : sy_missing s !! (r, p) = Some ch -> ch <> ∅;
  sv_child r p ch d : sy_missing s !! (r, p) = Some ch -> d ∈ ch ->
    exists su, sy_suspended s !! d = Some su ∧ su_round su = r + 1 ∧ p ∈ su_missing_parents su;
  sv_absent r p ch : sy_missing s !! (r, p) = Some ch -> p ∉ D
}.

(** ** Releasing children *)

Definition release_one (d : Z) (su : SuspendedCertificate) : SuspendedCertificate :=
  mkSuspended (su_certificate su) (su_missing_parents su ∖ {[d]}).

(** What is left of a child that loses the parent [d]. *)
Definition after_release (d : Z) (cs : list Z) (k : Z) (o : option SuspendedCertificate) : option SuspendedCertificate :=
  if decide (k ∈ cs) then su ← o; if decide (su_missing_parents (release_one d su) = ∅) then None else Some (release_one d su)
  else o.

Record release_result (d : Z) (cs : list Z) (sus sus' : gmap Z SuspendedCertificate) (rs : list SuspendedCertificate) : Prop := {
  rr_lookup k : sus' !! k = after_release d cs k (sus !! k);
  rr_released su' : su' ∈ rs -> exists k su, k ∈ cs ∧ sus !! k = Some su ∧ su_missing_parents (release_one d su) = ∅ ∧ su' = release_one d su;
  rr_nodup : NoDup ((fun su => su_digest su) <$> rs);
  rr_size : (size sus' + length rs)%nat = size sus
}.

Lemma release_children_spec d cs sus q l :
  NoDup cs -> (forall k, k ∈ cs -> exists su, sus !! k = Some su ∧ su_digest su = k) ->
  exists sus' rs, release_children d cs sus q l = Some (sus', q ++ ((fun su => (su_round su, su_digest su)) <$> rs), l ++ rs) ∧
    release_result d cs sus sus' rs.
Proof.
  revert sus q l. induction cs as [|k cs IH]; intros sus q l Hnd Hcs; simpl.
  { exists sus, []. simpl. rewrite !app_nil_r. split; [done|]. split; [done|by intros ? ?%not_elem_of_nil|constructor|simpl; lia]. }
  apply NoDup_cons in Hnd as [Hk Hnd]. destruct (Hcs k ltac:(by left)) as (su & Hsc & Hd). rewrite Hsc. simpl.
  fold (release_one d su).
  assert (forall sus' : gmap Z SuspendedCertificate, (forall k', k' <> k -> sus' !! k' = sus !! k') ->
    forall k', k' ∈ cs -> exists su, sus' !! k' = Some su ∧ su_digest su = k') as Hrest.
  { intros sus' Hsame k' Hk'. rewrite Hsame by (by intros ->). apply Hcs. by right. }
  case_bool_decide as He.
  - destruct (IH (delete k sus) (q ++ [(su_round su, su_digest su)]) (l ++ [release_one d su]) Hnd) as (sus' & rs & Hr & [Hlk Hrel Hn Hsz]).
    { apply Hrest. intros k' Hne. by rewrite lookup_delete_ne. }
    exists sus', (release_one d su :: rs). split.
    { rewrite Hr. csimpl. by rewrite <- !(assoc_L (++)). }
    split.
    + intros k'. rewrite Hlk. unfold after_release. destruct (decide (k' = k)) as [->|Hne].
      * rewrite lookup_delete_eq, Hsc. rewrite (decide_True (P := k ∈ k :: cs)) by by left. simpl.
        rewrite (decide_True (P := _ = ∅)) by done. by destruct (decide (k ∈ cs)).
      * rewrite lookup_delete_ne by done. destruct (decide (k' ∈ cs)) as [Hin|Hin].
        -- by rewrite decide_True by by right.
        -- rewrite decide_False; [done|]. intros [?|?]%elem_of_cons; done.
    + intros su' [->|Hin]%elem_of_cons; [exists k, su; split_and!; [by left|done..]|].
      destruct (Hrel _ Hin) as (k' & su1 & ? & Hl & ? & ?). exists k', su1. split_and!; [by right| |done..].
      apply lookup_delete_Some in Hl. tauto.
    + csimpl. constructor; [|done]. intros (su' & Heq & Hin)%list_elem_of_fmap.
      destruct (Hrel _ Hin) as (k' & su1 & Hk' & Hl & _ & ->). simpl in Heq. apply lookup_delete_Some in Hl as [Hne Hl].
      destruct (Hcs k' ltac:(by right)) as (su2 & Hl2 & Hd2). congruence.
    + assert (size sus <> 0%nat) by (intros H0%map_size_empty_inv; by rewrite H0 in Hsc).
      rewrite map_size_delete, Hsc in Hsz. simpl in *. lia.
  - destruct (IH (<[k := release_one d su]> sus) q l Hnd) as (sus' & rs & Hr & [Hlk Hrel Hn Hsz]).
    { apply Hrest. intros k' Hne. by rewrite lookup_insert_ne. }
    exists sus', rs. split; [done|]. split.
    + intros k'. rewrite Hlk. unfold after_release. destruct (decide (k' = k)) as [->|Hne].
      * rewrite lookup_insert_eq, Hsc. rewrite (decide_False (P := k ∈ cs)) by done.
        rewrite (decide_True (P := k ∈ k :: cs)) by by left. simpl. by rewrite decide_False.
      * rewrite lookup_insert_ne by done. destruct (decide (k' ∈ cs)) as [Hin|Hin].
        -- by rewrite decide_True by by right.
        -- rewrite decide_False; [done|]. intros [?|?]%elem_of_cons; done.
    + intros su' Hin. destruct (Hrel _ Hin) as (k' & su1 & Hk' & Hl & ? & ?). exists k', su1. split_and!; [by right| |done..].
      by rewrite lookup_insert_ne in Hl by (intros ->; done).
    + done.
    + rewrite Hsz. apply map_size_insert_Some. by rewrite Hsc.
Qed.
(** ** Traversing the released certificates *)

Lemma elem_of_digests_of l d : d ∈ digests_of l <-> exists su, su ∈ l ∧ su_digest su = d.
Proof. unfold digests_of. rewrite elem_of_list_to_set, list_elem_of_fmap. naive_solver. Qed.

Lemma digests_of_app l l' : digests_of (l ++ l') = digests_of l ∪ digests_of l'.
Proof. unfold digests_of. by rewrite fmap_app, list_to_set_app_L. Qed.

(** A parent of a certified certificate is one round below it. *)
Lemma certified_parent_round x d h :
  certified G x -> G !! d = Some h -> d ∈ Certificate_parents x -> he_round h = Certificate_round x - 1.
Proof. intros Hx Hd Hp. exact (cd_parent_round _ _ Hcd _ _ _ _ Hx Hp Hd). Qed.

(** A missing certificate with a child is one round below it. *)
Lemma missing_round D g s r d ch h :
  sync_inv D g s -> sy_missing s !! (r, d) = Some ch -> G !! d = Some h -> he_round h = r.
Proof.
  intros Hinv Hm Hh. pose proof (sv_children _ _ _ Hinv _ _ _ Hm) as Hne.
  apply set_choose_L in Hne as [k Hk]. destruct (sv_child _ _ _ Hinv _ _ _ _ Hm Hk) as (su & Hsu & Hr & Hp).
  destruct (sv_parent _ _ _ Hinv _ _ _ Hsu Hp) as [Hpa _]. destruct (sv_certified _ _ _ Hinv _ _ Hsu) as [Hc _].
  rewrite (certified_parent_round _ _ _ Hc Hh Hpa). lia.
Qed.

(** The state while the certificates accepted with [d0] are found: [l] are those
    found, [q] those whose children are still to be looked at. *)
Record traversal D (g d0 : Z) s (q : list (Z * Z)) l : Prop := {
  tv_inv : sync_inv (D ∪ ({[d0]} ∪ digests_of l) ∖ list_to_set q.*2) g s;
  tv_queue r d : (r, d) ∈ q -> d ∈ ({[d0]} ∪ digests_of l : gset Z) ∧ (exists h, G !! d = Some h ∧ he_round h = r);
  tv_queue_nodup : NoDup q.*2;
  tv_found su : su ∈ l -> certified G (su_certificate su) ∧ (su_digest su ∉ D) ∧ su_digest su <> d0;
  tv_gone d : d ∈ ({[d0]} ∪ digests_of l : gset Z) -> sy_suspended s !! d = None;
  tv_nodup : NoDup ((fun su => su_digest su) <$> l);
  tv_causal i su p : l !! i = Some su -> p ∈ Certificate_parents (su_certificate su) ->
    p ∈ D ∪ ({[d0]} ∪ digests_of (take i l))
}.

Section step.
Context (D : gset Z) (g d0 r d : Z) (s : SyncState) (rest : list (Z * Z)) (l : list SuspendedCertificate).
Context (Ht : traversal D g d0 s ((r, d) :: rest) l).

Abbreviation known := ({[d0]} ∪ digests_of l : gset Z).
Abbreviation stored := (D ∪ known ∖ list_to_set ((r, d) :: rest).*2).
Abbreviation stored' := (D ∪ known ∖ list_to_set rest.*2).

Lemma step_stored x : x ∈ stored' <-> x ∈ stored ∨ x = d.
Proof.
  pose proof (tv_queue_nodup _ _ _ _ _ _ Ht) as Hn. csimpl in Hn. apply NoDup_cons in Hn as [Hn _].
  destruct (tv_queue _ _ _ _ _ _ Ht r d ltac:(by left)) as [Hd _]. rewrite fmap_cons, list_to_set_cons. simpl.
  destruct (decide (x = d)) as [->|]; set_solver.
Qed.

Lemma step_gone k su : sy_suspended s !! k = Some su -> k ∉ known.
Proof. intros Hk Hin. pose proof (tv_gone _ _ _ _ _ _ Ht k Hin). congruence. Qed.

Lemma step_fresh k su : sy_suspended s !! k = Some su -> k ∉ stored'.
Proof.
  intros Hk. rewrite step_stored. intros [Hin| ->].
  - exact (sv_fresh _ _ _ (tv_inv _ _ _ _ _ _ Ht) _ _ Hk Hin).
  - destruct (tv_queue _ _ _ _ _ _ Ht r d ltac:(by left)) as [Hd _]. exact (step_gone _ _ Hk Hd).
Qed.

(** A certificate that misses [d] is one round above it. *)
Lemma step_child_round k su : sy_suspended s !! k = Some su -> d ∈ su_missing_parents su -> su_round su - 1 = r.
Proof.
  intros Hk Hd. destruct (tv_queue _ _ _ _ _ _ Ht r d ltac:(by left)) as (_ & h & Hh & <-).
  destruct (sv_certified _ _ _ (tv_inv _ _ _ _ _ _ Ht) _ _ Hk) as [Hc _].
  destruct (sv_parent _ _ _ (tv_inv _ _ _ _ _ _ Ht) _ _ _ Hk Hd) as [Hp _].
  symmetry. by apply (certified_parent_round _ d).
Qed.

Lemma step_absent r' p ch : sy_missing s !! (r', p) = Some ch -> (r', p) <> (r, d) -> p ∉ stored'.
Proof.
  intros Hch Hne. rewrite step_stored. intros [Hin| ->].
  - exact (sv_absent _ _ _ (tv_inv _ _ _ _ _ _ Ht) _ _ _ Hch Hin).
  - destruct (tv_queue _ _ _ _ _ _ Ht r d ltac:(by left)) as (_ & h & Hh & Hr). apply Hne.
    by rewrite <- Hr, (missing_round _ _ _ _ _ _ _ (tv_inv _ _ _ _ _ _ Ht) Hch Hh).
Qed.

Lemma step_skip : sy_missing s !! (r, d) = None -> traversal D g d0 s rest l.
Proof.
  intros Hnone. pose proof (tv_inv _ _ _ _ _ _ Ht) as Hinv. split.
  - split.
    + apply (sv_certified _ _ _ Hinv).
    + apply step_fresh.
    + apply (sv_nonempty _ _ _ Hinv).
    + intros k su p Hk Hp. destruct (sv_parent _ _ _ Hinv _ _ _ Hk Hp) as [Hpa Hor]. split; [done|].
      destruct Hor as [[Hn (ch & Hch & Hin)]|]; [left|by right]. split; [|by eauto]. rewrite step_stored. intros [?| ->]; [done|].
      rewrite (step_child_round _ _ Hk Hp) in Hch. congruence.
    + intros k su p Hk Hp Hn. rewrite step_stored. left. by apply (sv_present _ _ _ Hinv _ _ _ Hk).
    + apply (sv_children _ _ _ Hinv).
    + apply (sv_child _ _ _ Hinv).
    + intros r' p ch Hch. apply (step_absent _ _ _ Hch). congruence.
  - intros r' d' Hin. apply (tv_queue _ _ _ _ _ _ Ht). by right.
  - pose proof (tv_queue_nodup _ _ _ _ _ _ Ht) as Hn. csimpl in Hn. by apply NoDup_cons in Hn as [_ ?].
  - apply (tv_found _ _ _ _ _ _ Ht).
  - apply (tv_gone _ _ _ _ _ _ Ht).
  - apply (tv_nodup _ _ _ _ _ _ Ht).
  - apply (tv_causal _ _ _ _ _ _ Ht).
Qed.

Section release.
Context (ch : gset Z) (Hch : sy_missing s !! (r, d) = Some ch) (sus' : gmap Z SuspendedCertificate) (rs : list SuspendedCertificate).
Context (Hr : release_result d (set_iter ch) (sy_suspended s) sus' rs).

Lemma elem_of_iter k : k ∈ set_iter ch <-> k ∈ ch.
Proof. by rewrite set_iter_permutation, elem_of_elements. Qed.

(** A certificate still suspended: its old entry, and whether it was a child. *)
Lemma release_inv k su' : sus' !! k = Some su' ->
  exists su, sy_suspended s !! k = Some su ∧
    ((k ∈ ch ∧ su' = release_one d su ∧ su_missing_parents su' <> ∅) ∨ (k ∉ ch) ∧ su' = su).
Proof.
  rewrite (rr_lookup _ _ _ _ _ Hr). unfold after_release. destruct (decide (k ∈ set_iter ch)) as [Hin|Hin]; rewrite elem_of_iter in Hin.
  - destruct (sy_suspended s !! k) as [su|]; simpl; [|done]. destruct (decide _) as [|Hne]; [done|]. intros [= <-]. eauto 10.
  - intros Hk. eauto 10.
Qed.

Lemma release_found su' : su' ∈ rs ->
  exists su, sy_suspended s !! su_digest su = Some su ∧ su' = release_one d su ∧ su_digest su ∈ ch ∧ su_missing_parents su ⊆ {[d]}.
Proof.
  intros Hin. destruct (rr_released _ _ _ _ _ Hr _ Hin) as (k & su & Hk & Hl & He & ->). rewrite elem_of_iter in Hk.
  destruct (sv_certified _ _ _ (tv_inv _ _ _ _ _ _ Ht) _ _ Hl) as [_ <-]. exists su. split_and!; [done..|].
  unfold release_one in He. simpl in He. intros x Hx. destruct (decide (x = d)) as [->|Hne]; [by apply elem_of_singleton|].
  destruct (not_elem_of_empty (C := gset Z) x). rewrite <- He. by apply elem_of_difference; split; [|apply not_elem_of_singleton].
Qed.

Lemma release_sync_inv : sync_inv stored' g (mkSyncState sus' (delete (r, d) (sy_missing s))).
Proof.
  pose proof (tv_inv _ _ _ _ _ _ Ht) as Hinv. split; simpl.
  - intros k su' (su & Hk & Hcase)%release_inv. destruct (sv_certified _ _ _ Hinv _ _ Hk) as [? ?].
    by destruct Hcase as [(_ & -> & _)|[_ ->]].
  - intros k su' (su & Hk & _)%release_inv. by eapply step_fresh.
  - intros k su' (su & Hk & [(_ & _ & ?)|[_ ->]])%release_inv; [done|]. by apply (sv_nonempty _ _ _ Hinv _ _ Hk).
  - intros k su' p (su & Hk & Hcase)%release_inv Hp.
    assert (p ∈ su_missing_parents su ∧ su_certificate su' = su_certificate su ∧ (p = d -> k ∉ ch)) as (Hp' & -> & Hpd).
    { destruct Hcase as [(_ & -> & _)|[? ->]]; [|done]. simpl in Hp. set_solver. }
    destruct (sv_parent _ _ _ Hinv _ _ _ Hk Hp') as [Hpa Hor]. split; [done|].
    destruct Hor as [[Hn (ch' & Hch' & Hin)]|]; [left|by right].
    assert (p <> d) as Hne.
    { intros ->. rewrite (step_child_round _ _ Hk Hp') in Hch'. rewrite Hch in Hch'. injection Hch' as <-. by apply Hpd. }
    split; [rewrite step_stored; tauto|]. exists ch'. split; [|done]. rewrite lookup_delete_ne; [done|congruence].
  - intros k su' p (su & Hk & Hcase)%release_inv Hpa Hp. rewrite step_stored.
    destruct (decide (p = d)) as [->|Hne]; [by right|left]. apply (sv_present _ _ _ Hinv _ _ _ Hk).
    + by destruct Hcase as [(_ & -> & _)|[_ ->]].
    + destruct Hcase as [(_ & -> & _)|[_ ->]]; [|done]. simpl in Hp. set_solver.
  - intros r' p ch' [_ Hl]%lookup_delete_Some. by apply (sv_children _ _ _ Hinv _ _ _ Hl).
  - intros r' p ch' k [Hne Hl]%lookup_delete_Some Hin. destruct (sv_child _ _ _ Hinv _ _ _ _ Hl Hin) as (su & Hk & Hrd & Hp).
    rewrite (rr_lookup _ _ _ _ _ Hr). unfold after_release. rewrite Hk. destruct (decide (k ∈ set_iter ch)) as [Hin'|]; [|by eauto].
    rewrite elem_of_iter in Hin'. destruct (sv_child _ _ _ Hinv _ _ _ _ Hch Hin') as (su1 & Hk1 & Hrd1 & _).
    assert (su1 = su) as -> by congruence. assert (p <> d) as Hpd by (intros ->; apply Hne; f_equal; lia).
    simpl. rewrite decide_False by set_solver. eexists. split; [done|]. simpl. set_solver.
  - intros r' p ch' [Hne Hl]%lookup_delete_Some. apply (step_absent _ _ _ Hl). congruence.
Qed.

Lemma release_gone k : k ∈ digests_of rs -> (k ∉ known) ∧ (k ∉ D) ∧ sus' !! k = None.
Proof.
  intros (su' & Hin & <-)%elem_of_digests_of. destruct (release_found _ Hin) as (su & Hk & -> & Hc & Hm).
  cbn [release_one su_certificate]. split_and!.
  - by eapply step_gone.
  - intros HD. apply (step_fresh _ _ Hk). set_solver.
  - rewrite (rr_lookup _ _ _ _ _ Hr). unfold after_release. rewrite decide_True by by rewrite elem_of_iter. rewrite Hk. simpl.
    rewrite decide_True; [done|]. simpl. set_solver.
Qed.

Lemma step_release :
  traversal D g d0 (mkSyncState sus' (delete (r, d) (sy_missing s))) (rest ++ ((fun su => (su_round su, su_digest su)) <$> rs)) (l ++ rs).
Proof.
  pose proof (tv_inv _ _ _ _ _ _ Ht) as Hinv. pose proof (tv_queue_nodup _ _ _ _ _ _ Ht) as Hn. csimpl in Hn.
  apply NoDup_cons in Hn as [Hdr Hn].
  assert (((fun su => (su_round su, su_digest su)) <$> rs).*2 = (fun su => su_digest su) <$> rs) as Hsnd by (by rewrite <- list_fmap_compose).
  assert (forall x, x ∈ rest.*2 -> x ∈ known) as Hrest.
  { intros x ([r' d'] & -> & Hin)%list_elem_of_fmap. apply (tv_queue _ _ _ _ _ _ Ht r'). by right. }
  split.
  - rewrite digests_of_app, fmap_app, Hsnd, list_to_set_app_L. fold (digests_of rs).
    replace (D ∪ ({[d0]} ∪ (digests_of l ∪ digests_of rs)) ∖ (list_to_set rest.*2 ∪ digests_of rs)) with stored'.
    { apply release_sync_inv. }
    apply set_eq. intros x. pose proof (release_gone x). set_solver.
  - intros r' d' [Hin|Hin]%elem_of_app.
    + destruct (tv_queue _ _ _ _ _ _ Ht r' d' ltac:(by right)) as [Hk Hh]. split; [|done]. rewrite digests_of_app. set_solver.
    + apply list_elem_of_fmap in Hin as (su' & [= -> ->] & Hin). split.
      { rewrite digests_of_app. assert (su_digest su' ∈ digests_of rs) by (apply elem_of_digests_of; eauto). set_solver. }
      destruct (release_found _ Hin) as (su & Hk & -> & _). destruct (sv_certified _ _ _ Hinv _ _ Hk) as [Hc _]. by exists (ce_header (su_certificate su)).
  - rewrite fmap_app, Hsnd. apply NoDup_app. split_and!; [done| |apply (rr_nodup _ _ _ _ _ Hr)].
    intros x Hx%Hrest Hx'. destruct (release_gone x) as [Hn' _]; [unfold digests_of; by apply elem_of_list_to_set|done].
  - intros su' [Hin|Hin]%elem_of_app; [by apply (tv_found _ _ _ _ _ _ Ht)|].
    assert (su_digest su' ∈ digests_of rs) as (Hk & HD & _)%release_gone by (apply elem_of_digests_of; eauto).
    destruct (release_found _ Hin) as (su & Hl & -> & _). split; [by apply (sv_certified _ _ _ Hinv _ _ Hl)|]. set_solver.
  - intros k. rewrite digests_of_app. intros Hk. simpl. destruct (decide (k ∈ digests_of rs)) as [?%release_gone|Hnr]; [tauto|].
    assert (sy_suspended s !! k = None) as Hnone by (apply (tv_gone _ _ _ _ _ _ Ht); set_solver).
    destruct (sus' !! k) as [su'|] eqn:E; [|done]. apply release_inv in E as (su & Hsu & _). congruence.
  - rewrite fmap_app. apply NoDup_app. split_and!; [apply (tv_nodup _ _ _ _ _ _ Ht)| |apply (rr_nodup _ _ _ _ _ Hr)].
    intros x Hx Hx'. destruct (release_gone x) as [Hn' _]; [unfold digests_of; by apply elem_of_list_to_set|].
    apply Hn', elem_of_union_r. unfold digests_of. by apply elem_of_list_to_set.
  - intros i su' p Hi Hp. apply lookup_app_Some in Hi as [Hi|[Hge Hi]].
    + rewrite take_app_le by (apply lookup_lt_Some in Hi; lia). by apply (tv_causal _ _ _ _ _ _ Ht i su').
    + rewrite take_app_ge by done. rewrite digests_of_app.
      assert (p ∈ stored') as Hst; [|set_solver]. rewrite step_stored.
      apply list_elem_of_lookup_2, release_found in Hi as (su & Hl & -> & _ & Hm). destruct (decide (p = d)) as [|Hne]; [by right|left].
      apply (sv_present _ _ _ Hinv _ _ _ Hl Hp). set_solver.
Qed.
End release.
End step.
Lemma traverse_spec fuel D g d0 s q l :
  traversal D g d0 s q l -> (length q + size (sy_suspended s) <= fuel)%nat ->
  exists s' l', traverse fuel s q l = Finished (s', l') ∧ traversal D g d0 s' [] l'.
Proof.
  revert s q l. induction fuel as [|fuel IH]; intros s q l Ht Hf; destruct q as [|[r d] rest]; simpl in *.
  1,3: by eauto.
  { lia. }
  destruct (sy_missing s !! (r, d)) as [ch|] eqn:Hch.
  - pose proof (tv_inv _ _ _ _ _ _ Ht) as Hinv.
    destruct (release_children_spec d (set_iter ch) (sy_suspended s) rest l) as (sus' & rs & -> & Hr).
    { rewrite set_iter_permutation. apply NoDup_elements. }
    { intros k Hk. rewrite elem_of_iter in Hk. destruct (sv_child _ _ _ Hinv _ _ _ _ Hch Hk) as (su & Hl & _).
      exists su. split; [done|]. by apply (sv_certified _ _ _ Hinv _ _ Hl). }
    apply IH; [by eapply step_release|]. simpl. rewrite length_app, length_fmap. pose proof (rr_size _ _ _ _ _ Hr). lia.
  - apply IH; [by eapply step_skip|lia].
Qed.

(** The certificates accepted together with [x]. *)
Record accepted D g x s' l : Prop := {
  ac_inv : sync_inv (D ∪ ({[Certificate_digest x]} ∪ digests_of l)) g s';
  ac_found su : su ∈ l -> certified G (su_certificate su) ∧ (su_digest su ∉ D) ∧ su_digest su <> Certificate_digest x;
  ac_gone d : d ∈ ({[Certificate_digest x]} ∪ digests_of l : gset Z) -> sy_suspended s' !! d = None;
  ac_nodup : NoDup ((fun su => su_digest su) <$> l);
  ac_causal i su p : l !! i = Some su -> p ∈ Certificate_parents (su_certificate su) ->
    p ∈ D ∪ ({[Certificate_digest x]} ∪ digests_of (take i l))
}.

(** A stored certificate has no children to release. *)
Lemma accept_children_stored D g x s :
  sync_inv D g s -> Certificate_digest x ∈ D ->
  accept_children (Certificate_round x) (Certificate_digest x) s = Finished (s, []) ∧ accepted D g x s [].
Proof.
  intros Hinv HD. assert (sy_suspended s !! Certificate_digest x = None) as Hnone.
  { apply eq_None_not_Some. intros [su Hsu]. exact (sv_fresh _ _ _ Hinv _ _ Hsu HD). }
  split.
  - unfold accept_children. rewrite Hnone. simpl. destruct (sy_missing s !! _) as [ch|] eqn:Hch; [|by destruct (size _)].
    by destruct (sv_absent _ _ _ Hinv _ _ _ Hch).
  - split.
    + unfold digests_of. simpl. replace (D ∪ _) with D by set_solver. done.
    + by intros su ?%not_elem_of_nil.
    + unfold digests_of. simpl. intros d Hd. assert (d = Certificate_digest x) as ->; [|done]. set_solver.
    + constructor.
    + done.
Qed.

Lemma accept_children_spec D g x s :
  sync_inv D g s -> certified G x -> sy_suspended s !! Certificate_digest x = None ->
  exists s' l, accept_children (Certificate_round x) (Certificate_digest x) s = Finished (s', l) ∧ accepted D g x s' l.
Proof.
  intros Hinv Hx Hnone. destruct (decide (Certificate_digest x ∈ D)) as [HD|HD]; [by eauto using accept_children_stored|].
  unfold accept_children. rewrite Hnone.
  destruct (traverse_spec (S (size (sy_suspended s))) D g (Certificate_digest x) s
    [(Certificate_round x, Certificate_digest x)] []) as (s' & l & -> & [Hi _ _ Hf Hg Hn Hca]); [|simpl; lia|].
  - split.
    + replace (D ∪ _ ∖ _) with D; [done|]. apply set_eq. intros y. simpl. set_solver.
    + intros r d [= -> ->]%list_elem_of_singleton. split; [set_solver|]. by exists (ce_header x).
    + apply NoDup_singleton.
    + by intros su ?%not_elem_of_nil.
    + intros d Hd. assert (d = Certificate_digest x) as ->; [|done]. set_solver.
    + constructor.
    + done.
  - exists s', l. split; [done|]. split; [|done..]. simpl in Hi. by rewrite difference_empty_L in Hi.
Qed.

(** The suspended certificates only become fewer, and what is found was suspended. *)
Definition drawn (sus sus' : gmap Z SuspendedCertificate) l l' : Prop :=
  (forall k, sus !! k = None -> sus' !! k = None) ∧
  (forall k su', sus' !! k = Some su' -> exists su, sus !! k = Some su ∧ su_certificate su' = su_certificate su) ∧
  (forall su', su' ∈ l' -> su' ∈ l ∨ exists k su, sus !! k = Some su ∧ su_certificate su' = su_certificate su).

Lemma drawn_trans sus1 sus2 sus3 l1 l2 l3 : drawn sus1 sus2 l1 l2 -> drawn sus2 sus3 l2 l3 -> drawn sus1 sus3 l1 l3.
Proof.
  intros (N1 & K1 & F1) (N2 & K2 & F2). split_and!; [by auto| |].
  - intros k su (su1 & Hk & ->)%K2. by eapply K1.
  - intros su [Hin|(k & su1 & Hk & ->)]%F2; [by apply F1|]. apply K1 in Hk as (su2 & ? & ->). eauto.
Qed.

Lemma release_children_drawn d cs sus q l sus' q' l' : release_children d cs sus q l = Some (sus', q', l') -> drawn sus sus' l l'.
Proof.
  revert sus q l. induction cs as [|k cs IH]; intros sus q l; simpl.
  { intros [= <- <- <-]. split_and!; [done|by eauto|by auto]. }
  destruct (sus !! k) as [su|] eqn:E; simpl; [|done]. fold (release_one d su).
  case_bool_decide; intros Hr%IH; (eapply drawn_trans; [|exact Hr]); split_and!.
  - intros k' Hk'. by apply lookup_delete_None; right.
  - intros k' su' [_ ?]%lookup_delete_Some. eauto.
  - intros su' [?| ->%list_elem_of_singleton]%elem_of_app; [by left|right]. by exists k, su.
  - intros k' Hk'. rewrite lookup_insert_ne; [done|]. intros ->. congruence.
  - intros k' su' [[<- <-]|[_ ?]]%lookup_insert_Some; eauto.
  - by auto.
Qed.

Lemma traverse_drawn fuel s q l s' l' : traverse fuel s q l = Finished (s', l') -> drawn (sy_suspended s) (sy_suspended s') l l'.
Proof.
  revert s q l. induction fuel as [|fuel IH]; intros s q l; destruct q as [|[r d] q]; simpl; try done.
  1,2: intros [= <- <-]; split_and!; [done|by eauto|by auto].
  destruct (sy_missing s !! (r, d)) as [ch|]; [|apply IH].
  destruct (release_children _ _ _ _ _) as [[[sus q'] l1]|] eqn:E; [|done]. intros Ht.
  eapply drawn_trans; [by eapply release_children_drawn|]. by apply IH in Ht.
Qed.

Lemma accept_children_drawn r d s s' l :
  accept_children r d s = Finished (s', l) -> drawn (sy_suspended s) (sy_suspended s') [] l.
Proof. unfold accept_children. destruct (_ !! d); [done|]. apply traverse_drawn. Qed.

(** ** Suspending a certificate *)

Lemma add_missing_spec (mr dg : Z) (ps : list Z) (m : gmap (Z * Z) (gset Z)) :
  NoDup ps -> (forall p, p ∈ ps -> dg ∉ default ∅ (m !! (mr, p))) ->
  exists m', foldl (add_missing mr dg) (Some m) ps = Some m' ∧
    forall k, m' !! k = if decide (k.1 = mr ∧ k.2 ∈ ps) then Some ({[dg]} ∪ default ∅ (m !! k)) else m !! k.
Proof.
  revert m. induction ps as [|p ps IH]; intros m Hnd Hps; simpl.
  { exists m. split; [done|]. intros k. rewrite decide_False; [done|]. by intros [_ ?%not_elem_of_nil]. }
  apply NoDup_cons in Hnd as [Hp Hnd]. rewrite bool_decide_false by (apply Hps; by left).
  destruct (IH (<[(mr, p) := {[dg]} ∪ default ∅ (m !! (mr, p))]> m) Hnd) as (m' & -> & Hm').
  { intros p' Hp'. rewrite lookup_insert_ne by (intros [= ->]; done). apply Hps. by right. }
  exists m'. split; [done|]. intros [r' p']. rewrite Hm'. simpl. destruct (decide ((r', p') = (mr, p))) as [[= -> ->]|Hne].
  - rewrite decide_False by tauto. rewrite lookup_insert_eq. rewrite decide_True; [done|]. split; [done|]. by left.
  - rewrite lookup_insert_ne by done. destruct (decide (r' = mr ∧ p' ∈ ps)) as [[-> ?]|Hn].
    + rewrite decide_True; [done|]. split; [done|]. by right.
    + rewrite decide_False; [done|]. intros [-> [->|?]%elem_of_cons]; [by apply Hne|by apply Hn].
Qed.

Lemma insert_spec D g x s mp re :
  sync_inv D g s -> certified G x -> sy_suspended s !! Certificate_digest x = None -> Certificate_digest x ∉ D ->
  1 <= Certificate_round x < u64_modulus -> NoDup mp -> mp <> [] ->
  (forall p, p ∈ mp <-> p ∈ Certificate_parents x ∧ (p ∉ D)) ->
  exists s', SyncState_insert x mp re s = Some s' ∧ sync_inv D g s'.
Proof.
  intros Hinv Hx Hnone HD Hr Hnd Hne Hmp. unfold SyncState_insert. rewrite Hnone.
  assert (Certificate_round x -u64 1 = Certificate_round x - 1) as -> by (unfold u64_sub; apply Z.mod_small; lia).
  destruct (add_missing_spec (Certificate_round x - 1) (Certificate_digest x) mp (sy_missing s) Hnd) as (m' & -> & Hm').
  { intros p _. destruct (sy_missing s !! _) as [ch|] eqn:E; simpl; [|apply not_elem_of_empty]. intros Hin.
    destruct (sv_child _ _ _ Hinv _ _ _ _ E Hin) as (su & ? & _). congruence. }
  eexists. split; [done|]. split; simpl.
  - intros d su. rewrite lookup_insert_Some. intros [[<- <-]|[_ Hl]]; [done|]. by apply (sv_certified _ _ _ Hinv).
  - intros d su. rewrite lookup_insert_Some. intros [[<- <-]|[_ Hl]]; [done|]. by eapply (sv_fresh _ _ _ Hinv).
  - intros d su. rewrite lookup_insert_Some. intros [[<- <-]|[_ Hl]]; simpl; [|by eapply (sv_nonempty _ _ _ Hinv)].
    destruct mp as [|p mp]; [done|]. simpl. intros He. destruct (not_elem_of_empty (C := gset Z) p). rewrite <- He. set_solver.
  - intros d su p. rewrite lookup_insert_Some. intros [[<- <-]|[Hne' Hl]] Hp; simpl in *.
    + apply elem_of_list_to_set in Hp. apply Hmp in Hp as Hp'. split; [tauto|]. left. split; [tauto|].
      eexists. rewrite Hm'. simpl. rewrite decide_True by done. split; [done|]. set_solver.
    + destruct (sv_parent _ _ _ Hinv _ _ _ Hl Hp) as [Hpa Hor]. split; [done|].
      destruct Hor as [[Hn (ch & Hch & Hin)]|]; [left|by right]. split; [done|]. rewrite Hm'. rewrite Hch. simpl.
      destruct (decide _); eexists; (split; [done|]); set_solver.
  - intros d su p. rewrite lookup_insert_Some. intros [[<- <-]|[Hne' Hl]] Hpa Hn; simpl in *.
    + rewrite elem_of_list_to_set, Hmp in Hn. destruct (decide (p ∈ D)); [done|tauto].
    + by eapply (sv_present _ _ _ Hinv).
  - intros r p ch. rewrite Hm'. destruct (decide _); [intros [= <-]|by apply (sv_children _ _ _ Hinv)].
    intros He. destruct (not_elem_of_empty (C := gset Z) (Certificate_digest x)). rewrite <- He. set_solver.
  - intros r p ch d. rewrite Hm'. simpl.
    assert (forall ch, sy_missing s !! (r, p) = Some ch -> d ∈ ch -> exists su : SuspendedCertificate,
      <[Certificate_digest x := mkSuspended x (list_to_set mp)]> (sy_suspended s) !! d = Some su ∧ su_round su = r + 1 ∧ p ∈ su_missing_parents su) as Hold.
    { intros ch' Hch' Hin. destruct (sv_child _ _ _ Hinv _ _ _ _ Hch' Hin) as (su & Hl & ?). exists su. split; [|done].
      rewrite lookup_insert_ne; [done|]. intros <-. congruence. }
    destruct (decide _) as [[-> Hp]|]; [intros [= <-]|by apply Hold]. rewrite elem_of_union, elem_of_singleton. intros [->|Hin].
    + eexists. rewrite lookup_insert_eq. split; [done|]. simpl. split; [lia|]. by apply elem_of_list_to_set.
    + destruct (sy_missing s !! _) as [ch'|] eqn:E; simpl in Hin; [by eapply Hold|by apply not_elem_of_empty in Hin].
  - intros r p ch. rewrite Hm'. simpl. destruct (decide _) as [[_ Hp]|]; [|by apply (sv_absent _ _ _ Hinv)]. intros _. by apply Hmp.
Qed.
(** ** Garbage collection *)

Record collected_by (g : Z) (es : list (Z * Z * gset Z)) s s' (above above' : gset Z) : Prop := {
  co_missing k : (sy_missing s' !! k = None ∧ (exists ch, (k, ch) ∈ es ∧ k.1 <= g)) ∨
    (sy_missing s' !! k = sy_missing s !! k ∧ forall ch, (k, ch) ∈ es -> g < k.1);
  co_suspended d : (sy_suspended s' !! d = None ∧ (exists r ch, ((r, d), ch) ∈ es ∧ r <= g)) ∨
    (sy_suspended s' !! d = sy_suspended s !! d ∧ forall r ch, ((r, d), ch) ∈ es -> g < r);
  co_above d : d ∈ above' <-> d ∈ above ∨ (exists p ch, ((g, p), ch) ∈ es ∧ d ∈ ch)
}.

Lemma run_gc_loop_spec g es s above : StronglySorted (pair_key_le fst) es ->
  collected_by g es s (run_gc_loop g es s above).1 above (run_gc_loop g es s above).2.
Proof.
  intros Hs. revert s above. induction Hs as [|[[r d] ch] es Hs IH Hlt]; intros s above; simpl.
  { split.
    - intros k. right. split; [done|]. by intros ? ?%not_elem_of_nil.
    - intros d. right. split; [done|]. by intros ? ? ?%not_elem_of_nil.
    - intros d. split; [by left|]. intros [?|(? & ? & ?%not_elem_of_nil & _)]; done. }
  rewrite Forall_forall in Hlt. destruct (Z.ltb_spec g r) as [Hg|Hg]; simpl.
  { assert (forall k ch', (k, ch') ∈ ((r, d), ch) :: es -> g < k.1) as Hall.
    { intros k ch' [[= -> ->]|Hin]%elem_of_cons; [done|]. specialize (Hlt _ Hin). unfold pair_key_le in Hlt. simpl in Hlt. lia. }
    split.
    - intros k. right. split; [done|]. by apply Hall.
    - intros d'. right. split; [done|]. intros r' ch'. apply (Hall (r', d')).
    - intros d'. split; [by left|]. intros [?|(p & ch' & Hin & _)]; [done|]. apply Hall in Hin. simpl in Hin. lia. }
  destruct (IH (mkSyncState (delete d (sy_suspended s)) (delete (r, d) (sy_missing s)))
              (if r =? g then above ∪ ch else above)) as [Hm Hsu Ha]. simpl in *. split.
  - intros k. destruct (Hm k) as [[? (ch' & ? & ?)]|[Heq Hn]].
    + left. split; [done|]. exists ch'. split; [by right|done].
    + destruct (decide (k = (r, d))) as [->|Hne].
      * left. rewrite Heq, lookup_delete_eq. split; [done|]. exists ch. split; [by left|done].
      * right. rewrite Heq, lookup_delete_ne by done. split; [done|]. intros ch' [[= -> ->]|?]%elem_of_cons; [done|eauto].
  - intros d'. destruct (Hsu d') as [[? (r' & ch' & ? & ?)]|[Heq Hn]].
    + left. split; [done|]. exists r', ch'. split; [by right|done].
    + destruct (decide (d' = d)) as [->|Hne].
      * left. rewrite Heq, lookup_delete_eq. split; [done|]. exists r, ch. split; [by left|done].
      * right. rewrite Heq, lookup_delete_ne by done. split; [done|]. intros r' ch' [[= -> -> ->]|?]%elem_of_cons; [done|eauto].
  - intros d'. rewrite Ha. destruct (Z.eqb_spec r g) as [->|Hne].
    + rewrite elem_of_union. split.
      * intros [[?|?]|(p & ch' & ? & ?)]; [by left|right; exists d, ch; split; [by left|done]|right; exists p, ch'; split; [by right|done]].
      * intros [?|(p & ch' & [[= -> ->]|Hin]%elem_of_cons & ?)]; [tauto|tauto|right; eauto].
    + split.
      * intros [?|(p & ch' & ? & ?)]; [by left|right; exists p, ch'; split; [by right|done]].
      * intros [?|(p & ch' & [[= -> -> ->]|Hin]%elem_of_cons & ?)]; [by left|done|right; eauto].
Qed.

Lemma take_suspended_spec ds sus : NoDup ds -> (forall d, d ∈ ds -> exists su, sus !! d = Some su ∧ su_digest su = d) ->
  exists sus' l, take_suspended ds sus = Some (sus', l) ∧
    (forall k, sus' !! k = if decide (k ∈ ds) then None else sus !! k) ∧
    (fun su => su_digest su) <$> l = ds ∧
    (forall su', su' ∈ l -> exists su, sus !! su_digest su' = Some su ∧ su_certificate su' = su_certificate su).
Proof.
  revert sus. induction ds as [|d ds IH]; intros sus Hnd Hds; simpl.
  { exists sus, []. split_and!; [done..|by intros ? ?%not_elem_of_nil]. }
  apply NoDup_cons in Hnd as [Hd Hnd]. destruct (Hds d ltac:(by left)) as (su & Hsu & Hdg). rewrite Hsu. simpl.
  destruct (IH (delete d sus) Hnd) as (sus' & l & -> & Hlk & Hfm & Hl).
  { intros d' Hd'. rewrite lookup_delete_ne by (intros ->; done). apply Hds. by right. }
  simpl. eexists sus', _. split; [done|]. split_and!.
  - intros k. rewrite Hlk. destruct (decide (k = d)) as [->|Hne].
    + rewrite decide_False, decide_True by (done || by left). apply lookup_delete_eq.
    + rewrite lookup_delete_ne by done. destruct (decide (k ∈ ds)) as [|Hn].
      * by rewrite decide_True by by right.
      * rewrite decide_False; [done|]. intros [?|?]%elem_of_cons; done.
  - csimpl. by rewrite Hfm, Hdg.
  - intros su' [->|Hin]%elem_of_cons; [exists su; simpl; by rewrite Hdg|]. destruct (Hl _ Hin) as (su1 & [_ ?]%lookup_delete_Some & ?). eauto.
Qed.

Record gc_result D (g : Z) s s' l : Prop := {
  gr_inv : sync_inv D g s';
  gr_found su : su ∈ l -> certified G (su_certificate su) ∧ (su_digest su ∉ D) ∧ su_round su = g + 1;
  gr_gone su : su ∈ l -> sy_suspended s' !! su_digest su = None;
  gr_nodup : NoDup ((fun su => su_digest su) <$> l)
}.

Lemma run_gc_spec D g s : sync_inv D g s -> exists s' l, run_gc g s = Some (s', l) ∧ gc_result D g s s' l.
Proof.
  intros Hinv. unfold run_gc. set (es := sort_by_pair fst (map_to_list (sy_missing s))).
  pose proof (run_gc_loop_spec g es s ∅ (sort_by_pair_sorted _ _)) as [Hm Hsu Ha].
  destruct (run_gc_loop g es s ∅) as [s1 above]. simpl in *.
  assert (forall k ch, (k, ch) ∈ es <-> sy_missing s !! k = Some ch) as Hes.
  { intros k ch. unfold es. by rewrite sort_by_pair_Permutation, elem_of_map_to_list. }
  assert (forall k su, sy_suspended s !! k = Some su -> g < su_round su -> sy_suspended s1 !! k = Some su) as Hkeep.
  { intros k su Hk Hgt. destruct (Hsu k) as [[_ (r & ch & Hin & Hle)]|[-> _]]; [|done]. exfalso. apply Hes in Hin.
    destruct (sv_certified _ _ _ Hinv _ _ Hk) as [Hc <-]. pose proof (missing_round _ _ _ _ _ _ _ Hinv Hin Hc) as Hr.
    unfold Certificate_round in Hgt. lia. }
  assert (forall d, d ∈ above -> exists su, sy_suspended s !! d = Some su ∧ su_round su = g + 1) as Habove.
  { intros d Hd. apply Ha in Hd as [?%not_elem_of_empty|(p & ch & Hin%Hes & Hd)]; [done|].
    destruct (sv_child _ _ _ Hinv _ _ _ _ Hin Hd) as (su & ? & ? & _). eauto. }
  destruct (take_suspended_spec (set_iter above) (sy_suspended s1)) as (sus' & l & -> & Hlk & Hfm & Hl).
  { rewrite set_iter_permutation. apply NoDup_elements. }
  { intros d Hd. rewrite set_iter_permutation, elem_of_elements in Hd. destruct (Habove d Hd) as (su & Hk & Hr).
    exists su. split; [apply Hkeep; [done|lia]|]. by apply (sv_certified _ _ _ Hinv _ _ Hk). }
  assert (forall k su, sus' !! k = Some su -> sy_suspended s !! k = Some su ∧ (k ∉ above)) as Hin'.
  { intros k su. rewrite Hlk. destruct (decide _) as [|Hn]; [done|]. rewrite set_iter_permutation, elem_of_elements in Hn.
    destruct (Hsu k) as [[-> _]|[-> _]]; [done|]. done. }
  eexists _, l. split; [done|]. split; simpl.
  - split; simpl.
    + intros d su [Hk _]%Hin'. by apply (sv_certified _ _ _ Hinv).
    + intros d su [Hk _]%Hin'. by apply (sv_fresh _ _ _ Hinv _ _ Hk).
    + intros d su [Hk _]%Hin'. by apply (sv_nonempty _ _ _ Hinv _ _ Hk).
    + intros d su p [Hk Hna]%Hin' Hp. destruct (sv_parent _ _ _ Hinv _ _ _ Hk Hp) as [Hpa Hor]. split; [done|].
      destruct Hor as [[Hn (ch & Hch & Hd)]|]; [|by right]. destruct (Hm (su_round su - 1, p)) as [[_ (_ & _ & Hle)]|[-> _]]; [|by eauto 10].
      simpl in Hle. right. destruct (decide (su_round su = g + 1)) as [Heq|]; [|lia]. exfalso. apply Hna, Ha. right. exists p, ch.
      split; [|done]. apply Hes. by replace g with (su_round su - 1) by lia.
    + intros d su p [Hk _]%Hin'. by apply (sv_present _ _ _ Hinv _ _ _ Hk).
    + intros r p ch. destruct (Hm (r, p)) as [[-> _]|[-> _]]; [done|]. by apply (sv_children _ _ _ Hinv).
    + intros r p ch d. destruct (Hm (r, p)) as [[-> _]|[-> Hgt]]; [done|]. intros Hch Hd.
      pose proof (Hgt _ (proj2 (Hes _ _) Hch)) as Hr. simpl in Hr. destruct (sv_child _ _ _ Hinv _ _ _ _ Hch Hd) as (su & Hk & Hrd & Hp).
      exists su. split; [|done]. rewrite Hlk. rewrite decide_False; [apply Hkeep; [done|lia]|].
      rewrite set_iter_permutation, elem_of_elements. intros Hab. destruct (Habove d Hab) as (su1 & Hk1 & ?). assert (su1 = su) by congruence. subst. lia.
    + intros r p ch. destruct (Hm (r, p)) as [[-> _]|[-> _]]; [done|]. by apply (sv_absent _ _ _ Hinv).
  - intros su' Hsu'. assert (su_digest su' ∈ above) as Hab.
    { rewrite <- elem_of_elements, <- set_iter_permutation, <- Hfm. apply list_elem_of_fmap. eauto. }
    destruct (Habove _ Hab) as (su & Hk & Hr). destruct (Hl _ Hsu') as (su1 & Hk1 & Hcert).
    assert (su1 = su) as -> by (rewrite (Hkeep _ _ Hk) in Hk1 by lia; congruence).
    destruct (sv_certified _ _ _ Hinv _ _ Hk) as [Hc _]. rewrite Hcert. split_and!; [done| |done].
    rewrite <- Hcert. by apply (sv_fresh _ _ _ Hinv _ _ Hk).
  - intros su' Hsu'. rewrite Hlk, decide_True; [done|]. rewrite <- Hfm. apply list_elem_of_fmap. eauto.
  - rewrite Hfm, set_iter_permutation. apply NoDup_elements.
Qed.
End bookkeeping.

(** ** The synchronizer *)

Definition sync_open (ch : SyncChannels) : Prop :=
  sc_new_certificates_open ch = true ∧ sc_parents_open ch = true ∧ sc_fetcher_open ch = true ∧ sc_batch_tasks_open ch = true.

(** ** The parents for the proposer *)

Section feeding.
Context `{HH : HeaderHash} (c : Committee) (Hc : committee_wf c) (G : gmap Z Header).
Implicit Types (ms : list (list Certificate * Z * Z)) (aggregators : gmap Z CertificatesAggregator).

Definition quorum_of (ps : list Certificate) : Prop :=
  NoDup (Certificate_origin <$> ps) ∧ cm_quorum_threshold c <= stake_sum c (Certificate_origin <$> ps).

(** The certificates of a message are of its round, and a quorum of the round is in
    this message or in an earlier one. *)
Record message_ok ms (i : nat) (ps : list Certificate) (r e : Z) : Prop := {
  me_round : 0 <= r < u64_modulus;
  me_epoch : exists y, certified G y ∧ e = Certificate_epoch y;
  me_certified x : x ∈ ps -> certified G x ∧ Certificate_round x = r;
  me_quorum : ps <> [] -> exists j qs e', (j <= i)%nat ∧ ms !! j = Some (qs, r, e') ∧ quorum_of qs
}.

Definition messages_ok ms : Prop := forall i ps r e, ms !! i = Some (ps, r, e) -> message_ok ms i ps r e.

(** [l] are the certificates an aggregator was given. *)
Record aggregator_ok ms (r : Z) (a : CertificatesAggregator) (l : list Certificate) : Prop := {
  ag_used : ca_used a = list_to_set (Certificate_origin <$> l);
  ag_nodup : NoDup (Certificate_origin <$> l);
  ag_weight : ca_weight a = stake_sum c (Certificate_origin <$> l);
  ag_certified x : x ∈ l -> certified G x ∧ Certificate_round x = r;
  ag_pending : (ca_weight a < cm_quorum_threshold c ∧ ca_certificates a = l) ∨
    (cm_quorum_threshold c <= ca_weight a ∧ ca_certificates a = [] ∧ exists qs e, (qs, r, e) ∈ ms ∧ quorum_of qs)
}.

Record feeding aggregators ms : Prop := {
  fe_messages : messages_ok ms;
  fe_aggregators r a : aggregators !! r = Some a -> exists l, aggregator_ok ms r a l
}.

Lemma message_ok_app ms ms' i ps r e : message_ok ms i ps r e -> message_ok (ms ++ ms') i ps r e.
Proof.
  intros [? ? ? Hq]. split; [done..|]. intros (j & qs & e' & ? & ? & ?)%Hq. exists j, qs, e'. split_and!; [done| |done].
  by apply lookup_app_l_Some.
Qed.

Lemma aggregator_ok_app ms ms' r a l : aggregator_ok ms r a l -> aggregator_ok (ms ++ ms') r a l.
Proof.
  intros [? ? ? ? Hp]. split; [done..|]. destruct Hp as [?|(? & ? & qs & e & ? & ?)]; [by left|right]. split_and!; [done..|].
  exists qs, e. split; [|done]. apply elem_of_app. by left.
Qed.

Lemma messages_ok_snoc ms ps r e : messages_ok ms -> message_ok (ms ++ [(ps, r, e)]) (length ms) ps r e -> messages_ok (ms ++ [(ps, r, e)]).
Proof.
  intros Hms Hm i ps' r' e' [Hi|[Hge Hi]]%lookup_app_Some; [by apply message_ok_app, Hms|].
  apply list_lookup_singleton_Some in Hi as [Hi [= -> -> ->]]. by replace i with (length ms) by lia.
Qed.

(** What is sent while a certificate is only announced. *)
Lemma feeding_announce aggregators ms r y : feeding aggregators ms -> certified G y -> 0 <= r < u64_modulus ->
  feeding aggregators (ms ++ [([], r, Certificate_epoch y)]).
Proof.
  intros [Hms Hag] Hy Hr. split.
  - apply messages_ok_snoc; [done|]. split; [done|by eauto|by intros ? ?%not_elem_of_nil|done].
  - intros r' a [l Hl]%Hag. exists l. by apply aggregator_ok_app.
Qed.

Lemma aggregator_new_ok ms r : aggregator_ok ms r CertificatesAggregator_new [].
Proof.
  split; [done|constructor|done|by intros ? ?%not_elem_of_nil|]. left. split; [|done]. simpl. rewrite (wf_quorum _ Hc).
  pose proof (wf_total _ Hc). pose proof (Z.div_pos (2 * total_stake c) 3). lia.
Qed.

(** The messages that an aggregator makes the synchronizer send. *)
Definition aggregated (x : Certificate) (o : option (list Certificate)) : list (list Certificate * Z * Z) :=
  match o with Some ps => [(ps, Certificate_round x, Certificate_epoch x)] | None => [] end.

Lemma aggregator_append_ok ms x a l : messages_ok ms -> aggregator_ok ms (Certificate_round x) a l -> certified G x ->
  0 <= Certificate_round x < u64_modulus ->
  let '(a', o) := CertificatesAggregator_append c x a in
  messages_ok (ms ++ aggregated x o) ∧ exists l', aggregator_ok (ms ++ aggregated x o) (Certificate_round x) a' l'.
Proof.
  intros Hms [Hu Hn Hw Hl Hp] Hx Hr. unfold CertificatesAggregator_append. case_bool_decide as Ho.
  { simpl. rewrite app_nil_r. split; [done|]. exists l. by split. }
  rewrite Hu, elem_of_list_to_set in Ho.
  assert (NoDup (Certificate_origin <$> l ++ [x])) as Hn'.
  { rewrite fmap_app. apply NoDup_app. split_and!; [done| |apply NoDup_singleton]. by intros y Hy ->%list_elem_of_singleton. }
  pose proof (stake_by_id_pos c Hc (Certificate_origin x)) as Hpos.
  assert (stake_sum c (Certificate_origin <$> l ++ [x]) = ca_weight a + stake_by_id c (Certificate_origin x)) as Hsum.
  { rewrite Hw. unfold stake_sum. rewrite fmap_app, sum_of_app. simpl. lia. }
  pose proof (stake_sum_le_total c Hc _ Hn') as Hle. pose proof (wf_total _ Hc) as Ht. pose proof (stake_sum_le_total c Hc _ Hn) as Hle0.
  rewrite u64_add_small by (unfold u64_modulus; lia).
  assert (forall y, y ∈ l ++ [x] -> certified G y ∧ Certificate_round y = Certificate_round x) as Hl'.
  { by intros y [?| ->%list_elem_of_singleton]%elem_of_app; auto. }
  destruct (Z.leb_spec (cm_quorum_threshold c) (ca_weight a + stake_by_id c (Certificate_origin x))) as [Hq|Hq]; simpl.
  - assert (message_ok (ms ++ [(ca_certificates a ++ [x], Certificate_round x, Certificate_epoch x)]) (length ms)
      (ca_certificates a ++ [x]) (Certificate_round x) (Certificate_epoch x)) as Hm.
    { split; [done|by eauto| |].
      - intros y Hy. apply Hl'. destruct Hp as [[_ <-]|(_ & Hnil & _)]; [done|]. rewrite Hnil in Hy. apply elem_of_app. by right.
      - intros _. destruct Hp as [[_ ->]|(_ & _ & qs & e & [j Hj]%list_elem_of_lookup & Hqs)].
        + eexists (length ms), _, _. split_and!; [lia|by rewrite list_lookup_middle|]. split; [done|lia].
        + exists j, qs, e. split_and!; [apply lookup_lt_Some in Hj; lia|by apply lookup_app_l_Some|done]. }
    split; [by apply messages_ok_snoc|]. exists (l ++ [x]). split; simpl; [|done|lia|done|].
    + rewrite Hu, fmap_app, list_to_set_app_L. set_solver.
    + right. split_and!; [lia|done|]. destruct (me_quorum _ _ _ _ _ Hm) as (j & qs & e & _ & Hj & Hqs); [by destruct (ca_certificates a)|].
      exists qs, e. split; [by eapply list_elem_of_lookup_2|done].
  - rewrite app_nil_r. split; [done|]. exists (l ++ [x]). split; simpl; [|done|lia|done|].
    + rewrite Hu, fmap_app, list_to_set_app_L. set_solver.
    + left. split; [lia|]. destruct Hp as [[_ ->]|(? & _)]; [done|lia].
Qed.

Lemma feeding_append aggregators ms x : feeding aggregators ms -> certified G x -> 0 <= Certificate_round x < u64_modulus ->
  let '(a, o) := CertificatesAggregator_append c x (default CertificatesAggregator_new (aggregators !! Certificate_round x)) in
  feeding (<[Certificate_round x := a]> aggregators) (ms ++ aggregated x o).
Proof.
  intros [Hms Hag] Hx Hr. set (a0 := default _ _).
  assert (exists l, aggregator_ok ms (Certificate_round x) a0 l) as [l Hl].
  { unfold a0. destruct (aggregators !! _) as [a|] eqn:E; simpl; [by apply Hag|]. exists []. apply aggregator_new_ok. }
  pose proof (aggregator_append_ok ms x a0 l Hms Hl Hx Hr) as Happ. destruct (CertificatesAggregator_append c x a0) as [a o].
  destruct Happ as [Hms' Ha]. split; [done|]. intros r' a' [[<- <-]|[_ [l' Hl']%Hag]]%lookup_insert_Some; [done|].
  exists l'. by apply aggregator_ok_app.
Qed.

Lemma feeding_filter P `{!forall e, Decision (P e)} aggregators ms : feeding aggregators ms -> feeding (filter P aggregators) ms.
Proof. intros [? Hag]. split; [done|]. intros r a [Ha _]%map_lookup_filter_Some. by apply Hag. Qed.
End feeding.

(** How often a certificate was handed to consensus. *)
Definition handed `{HeaderHash} (d : Z) (l : list Certificate) : nat := length (filter (fun x => Certificate_digest x = d) l).

Lemma handed_app `{HeaderHash} d l x : handed d (l ++ [x]) = (handed d l + if decide (Certificate_digest x = d) then 1 else 0)%nat.
Proof. unfold handed. rewrite filter_app, length_app. f_equal. rewrite filter_cons, filter_nil. by destruct (decide _). Qed.

Lemma handed_0 `{HeaderHash} d l : d ∉ (list_to_set (Certificate_digest <$> l) : gset Z) -> handed d l = 0%nat.
Proof.
  intros Hd. unfold handed. destruct (filter _ l) as [|x l'] eqn:E; [done|]. destruct Hd.
  assert (x ∈ filter (fun x => Certificate_digest x = d) l) as [<- Hx]%list_elem_of_filter by (rewrite E; by left).
  apply elem_of_list_to_set. by apply list_elem_of_fmap_2.
Qed.

Section node.
Context `{HH : HeaderHash} `{HS : Signatures} `{HI : SetIter} `{!SetIterLaws} {T : Type} `{HT : StoreCache T} `{!CacheLaws T}.
Context (cfg : SyncConfig) (Hc : committee_wf (sf_committee cfg)) (G : gmap Z Header) (Hcd : certified_dag (sf_committee cfg) G).
Context (base : gset Z) (limit : nat) (Hlimit : (1 <= limit)%nat).
Implicit Types n : Synchronizer T.

Abbreviation stored_digests n := (dom (cs_by_id (sn_store n))).
Abbreviation sent n := (sc_new_certificates (sn_channels n)).
Abbreviation digest_set l := (list_to_set (Certificate_digest <$> l) : gset Z).

(** The invariant without the suspended certificates.  [base] are the digests stored
    at the start.  A certificate is sent at most [limit] times, and one less while the
    acceptor task waits with it for the lock; a sent certificate above the collected
    round comes after its parents. *)
Record sync_core n : Prop := {
  so_store : cached_ok (sn_store n);
  so_certs d x : cs_by_id (sn_store n) !! d = Some x -> Certificate_digest x = d ∧ certified G x;
  so_queue x e : (x, e) ∈ sn_acceptor n -> certified G x;
  so_accepting x e : sn_accepting n = Some (x, e) ->
    certified G x ∧ (Certificate_digest x ∉ base) ∧ (S (handed (Certificate_digest x) (sent n)) <= limit)%nat;
  so_gc : 0 <= sn_gc_round n < u64_modulus - 1;
  so_open : sync_open (sn_channels n);
  so_sent : stored_digests n = base ∪ digest_set (sent n);
  so_sent_certified x : x ∈ sent n -> certified G x;
  so_count d : (handed d (sent n) <= limit)%nat;
  so_causal i x p : sent n !! i = Some x -> sn_gc_round n + 1 < Certificate_round x -> p ∈ Certificate_parents x ->
    p ∈ base ∪ digest_set (take i (sent n))
}.

Definition sync_ok n : Prop := sync_core n ∧ sync_inv G (stored_digests n) (sn_gc_round n) (sn_state n).

Lemma contains_iff n d : sync_core n -> cs_contains d (sn_store n) = true <-> d ∈ stored_digests n.
Proof. intros Hn. rewrite cs_contains_spec by apply Hn. by rewrite bool_decide_eq_true, elem_of_dom. Qed.

Lemma unsent n d : sync_core n -> d ∉ stored_digests n -> handed d (sent n) = 0%nat.
Proof. intros Hn Hd. apply handed_0. rewrite (so_sent _ Hn) in Hd. by apply not_elem_of_union in Hd as [_ ?]. Qed.

(** A certificate may be sent once more; one for which the acceptor task does not wait,
    or which is not stored while it waits with it and [limit] is not [1]. *)
Definition admits n d : Prop :=
  (sn_accepting n = None ∧ (S (handed d (sent n)) <= limit)%nat) ∨ ((2 <= limit)%nat ∧ (d ∉ stored_digests n)).
Definition free n : Prop := sn_accepting n = None ∨ (2 <= limit)%nat.

Lemma free_admits n d : sync_core n -> free n -> d ∉ stored_digests n -> admits n d.
Proof. intros Hn [Hf|Hf] Hd; [left|by right]. split; [done|]. rewrite (unsent _ _ Hn Hd). lia. Qed.

Lemma not_stored_cons p ps (s : CertificateStore T) :
  not_stored (p :: ps) s = if cs_contains p s then not_stored ps s else p :: not_stored ps s.
Proof. unfold not_stored. rewrite !cs_multi_contains_spec. csimpl. by destruct (cs_contains p s). Qed.

Lemma not_stored_spec n ps p : sync_core n -> p ∈ not_stored ps (sn_store n) <-> p ∈ ps ∧ (p ∉ stored_digests n).
Proof.
  intros Hn. induction ps as [|q ps IH].
  { split; [by intros ?%not_elem_of_nil|by intros [?%not_elem_of_nil _]]. }
  rewrite not_stored_cons. pose proof (contains_iff n q Hn) as Hq. destruct (cs_contains q (sn_store n)).
  - rewrite IH, elem_of_cons. split; [tauto|]. intros [[->|?] ?]; [|done]. tauto.
  - rewrite !elem_of_cons, IH. split; [|tauto]. intros [->|?]; [|tauto]. split; [by left|]. intros ?%Hq. done.
Qed.

Lemma not_stored_nodup n ps : sync_core n -> NoDup ps -> NoDup (not_stored ps (sn_store n)).
Proof.
  intros Hn. induction ps as [|p ps IH]; [constructor|]. intros [Hp Hnd]%NoDup_cons. rewrite not_stored_cons.
  destruct (cs_contains p (sn_store n)); [by apply IH|]. constructor; [|by apply IH]. intros [? _]%not_stored_spec; done.
Qed.

(** What the proposer is sent. *)
Abbreviation feeds n := (feeding (sf_committee cfg) G (sn_aggregators n) (sc_parents (sn_channels n))).
Definition feeds_on n n' : Prop := (feeds n -> feeds n') ∧ sc_parents (sn_channels n) `prefix_of` sc_parents (sn_channels n').

Lemma feeds_on_trans n1 n2 n3 : feeds_on n1 n2 -> feeds_on n2 n3 -> feeds_on n1 n3.
Proof. intros [H1 P1] [H2 P2]. split; [by auto|by etrans]. Qed.

Lemma feeds_on_same n n' : sn_aggregators n' = sn_aggregators n -> sc_parents (sn_channels n') = sc_parents (sn_channels n) -> feeds_on n n'.
Proof. intros Ha Hp. unfold feeds_on. by rewrite Ha, Hp. Qed.

(** What accepting certificates leaves alone, and what it stores. *)
Record extends (n n' : Synchronizer T) (ds : gset Z) : Prop := {
  ex_core : sync_core n';
  ex_stored : stored_digests n' = stored_digests n ∪ ds;
  ex_state : sn_state n' = sn_state n;
  ex_gc : sn_gc_round n' = sn_gc_round n;
  ex_acceptor : sn_acceptor n' = sn_acceptor n;
  ex_accepting : sn_accepting n' = sn_accepting n;
  ex_feeds : feeds_on n n'
}.

Lemma append_aggregator_ok x n : sync_open (sn_channels n) -> certified G x ->
  exists a ps, let n' := sn_set_channels (sn_set_aggregators n a) (foldl (fun ch m => sc_send_parents m ch) (sn_channels n) ps) in
    append_certificate_in_aggregator cfg x n = Some (n', Ok tt) ∧ feeds_on n n'.
Proof.
  intros (_ & Ho & _) Hx.
  assert (feeds n -> let '(a, o) := CertificatesAggregator_append (sf_committee cfg) x (default CertificatesAggregator_new (sn_aggregators n !! Certificate_round x)) in
    feeding (sf_committee cfg) G (<[Certificate_round x := a]> (sn_aggregators n)) (sc_parents (sn_channels n) ++ aggregated x o)) as Hfe.
  { intros Hf. apply feeding_append; [done..|]. pose proof (cd_round _ _ Hcd _ _ Hx). unfold Certificate_round. lia. }
  unfold append_certificate_in_aggregator, mbind, EM_bind, em_get, em_modify.
  destruct (CertificatesAggregator_append _ _ _) as [a [ps|]].
  - unfold send_parents, sync_send, mbind, EM_bind, em_get, ensure, em_modify. simpl. rewrite Ho. simpl.
    eexists _, [_]. split; [done|]. split; [exact Hfe|]. simpl. by apply prefix_app_r.
  - exists (<[Certificate_round x := a]> (sn_aggregators n)), []. split; [done|]. split; [|done]. simpl in *. by rewrite app_nil_r in Hfe.
Qed.

Lemma send_parents_fold ch ps : let ch' := foldl (fun ch m => sc_send_parents m ch) ch ps in
  sc_new_certificates ch' = sc_new_certificates ch ∧ (sync_open ch -> sync_open ch').
Proof. simpl. revert ch. induction ps as [|m ps IH]; intros ch; simpl; [done|]. destruct (IH (sc_send_parents m ch)) as [-> Ho]. done. Qed.

Lemma accept_internal_ok x n :
  sync_core n -> certified G x -> admits n (Certificate_digest x) ->
  (sn_gc_round n + 1 < Certificate_round x -> forall p, p ∈ Certificate_parents x -> p ∈ stored_digests n) ->
  exists n', accept_certificate_internal cfg x n = Some (n', Ok tt) ∧ extends n n' {[Certificate_digest x]}.
Proof.
  intros Hn Hx Hd Hpar. unfold accept_certificate_internal, mbind, EM_bind, em_get. pose proof (so_gc _ Hn) as Hgc.
  assert ((sn_gc_round n +u64 1 <? Certificate_round x) &&
    negb (forallb (fun b => b) (cs_multi_contains (Certificate_parents x) (sn_store n))) = false) as ->.
  { rewrite u64_add_small by lia. destruct (Z.ltb_spec (sn_gc_round n + 1) (Certificate_round x)) as [Hlt|]; [|done]. simpl.
    rewrite cs_multi_contains_spec. apply negb_false_iff, forallb_forall. intros b (p & -> & Hp)%list_elem_of_In%list_elem_of_fmap.
    apply contains_iff; [done|]. by apply Hpar. }
  destruct (so_store _ Hn) as [Hcache Hw]. destruct (write_result_ok _ Hw) as [Hwr Htl].
  destruct (cs_write_all_ok (sn_store n) [x] (so_store _ Hn)) as [Hcok _].
  unfold cs_write. unfold cs_write_all in *. rewrite Hwr in *. cbn [mret EM_ret em_modify].
  set (n1 := sn_set_processed _ _).
  destruct (append_aggregator_ok x n1 (so_open _ Hn) Hx) as (a & ps & -> & Hfeeds).
  unfold sync_send, mbind, EM_bind, em_get, ensure, em_modify. simpl. destruct (send_parents_fold (sn_channels n) ps) as [Hnew Hopen].
  pose proof (Hopen (so_open _ Hn)) as Ho. rewrite (proj1 Ho). eexists. split; [done|].
  assert (stored_digests n ∪ {[Certificate_digest x]} = dom (<[Certificate_digest x := x]> (cs_by_id (sn_store n)))) as Hdom
    by (rewrite dom_insert_L; apply (comm_L (∪))).
  split; [|simpl; by rewrite Hdom|done..|exact Hfeeds]. split; simpl.
  - done.
  - intros d y. rewrite lookup_insert_Some. intros [[<- <-]|[_ Hl]]; [done|]. by apply (so_certs _ Hn).
  - apply (so_queue _ Hn).
  - intros y e Hy. rewrite Hnew, handed_app. destruct (so_accepting _ Hn y e Hy) as (Hyc & Hyb & Hyn). split_and!; [done..|].
    destruct (decide _) as [Heq|]; [|lia]. destruct Hd as [[? _]|[? Hd]]; [congruence|].
    rewrite <- Heq, (unsent _ _ Hn Hd). lia.
  - done.
  - done.
  - rewrite Hnew, <- Hdom, (so_sent _ Hn), fmap_app, list_to_set_app_L. simpl. set_solver.
  - intros y. rewrite Hnew. intros [?| ->%list_elem_of_singleton]%elem_of_app; [by apply (so_sent_certified _ Hn)|done].
  - intros d. rewrite Hnew, handed_app. pose proof (so_count _ Hn d). destruct (decide _) as [<-|]; [|lia].
    destruct Hd as [[_ ?]|[? Hd]]; [lia|]. rewrite (unsent _ _ Hn Hd). lia.
  - rewrite Hnew. intros i y p Hi Hr Hp. apply lookup_app_Some in Hi as [Hi|[Hge Hi]].
    + rewrite take_app_le by (apply lookup_lt_Some in Hi; lia). by eapply (so_causal _ Hn).
    + apply list_lookup_singleton_Some in Hi as [Hi <-]. rewrite take_app_ge by done.
      specialize (Hpar Hr p Hp). rewrite (so_sent _ Hn) in Hpar. rewrite fmap_app, list_to_set_app_L. set_solver.
Qed.

Lemma accept_all_ok l n :
  sync_core n -> free n -> (forall su, su ∈ l -> certified G (su_certificate su) ∧ (su_digest su ∉ stored_digests n)) ->
  NoDup ((fun su => su_digest su) <$> l) ->
  (forall i su p, l !! i = Some su -> sn_gc_round n + 1 < su_round su -> p ∈ Certificate_parents (su_certificate su) ->
    p ∈ stored_digests n ∪ digests_of (take i l)) ->
  exists n', accept_all cfg l n = Some (n', Ok tt) ∧ extends n n' (digests_of l).
Proof.
  revert n. induction l as [|su l IH]; intros n Hn Hfree Hl Hnd Hca.
  { exists n. split; [done|]. split; [done| |done..|by apply feeds_on_same]. unfold digests_of. simpl. set_solver. }
  csimpl in Hnd. apply NoDup_cons in Hnd as [Hsu Hnd]. destruct (Hl su ltac:(by left)) as [Hcert Hfresh].
  destruct (accept_internal_ok (su_certificate su) n Hn Hcert) as (n1 & H1 & [Hn1 Hst1 Hs1 Hg1 Ha1 Hb1 Hf1]); [by apply free_admits|..].
  { intros Hr p Hp. specialize (Hca 0%nat su p eq_refl Hr Hp). unfold digests_of in Hca. simpl in Hca. set_solver. }
  destruct (IH n1 Hn1) as (n2 & H2 & [Hn2 Hst2 Hs2 Hg2 Ha2 Hb2 Hf2]).
  - unfold free. by rewrite Hb1.
  - intros su' Hin. destruct (Hl su' ltac:(by right)) as [? Hf]. split; [done|]. rewrite Hst1. rewrite elem_of_union, elem_of_singleton.
    intros [?|Heq]; [done|]. apply Hsu. rewrite <- Heq. by apply (list_elem_of_fmap_2 (fun su => su_digest su)).
  - done.
  - intros i su' p Hi Hr Hp. rewrite Hg1 in Hr. specialize (Hca (S i) su' p Hi Hr Hp). rewrite Hst1.
    unfold digests_of in *. csimpl in Hca. set_solver.
  - exists n2. split.
    { cbn [accept_all]. unfold accept_suspended_certificate, mbind, EM_bind. by rewrite H1. }
    split; [done| |congruence..|by eapply feeds_on_trans]. rewrite Hst2, Hst1. unfold digests_of. csimpl. set_solver.
Qed.

(** A certificate that is not suspended is accepted with the suspended ones it releases. *)
Lemma accept_with_children_ok x n s l :
  sync_ok n -> free n -> certified G x -> admits n (Certificate_digest x) ->
  (sn_gc_round n + 1 < Certificate_round x -> forall p, p ∈ Certificate_parents x -> p ∈ stored_digests n) ->
  accepted G (stored_digests n) (sn_gc_round n) x s l ->
  exists n', (_ ← accept_certificate_internal cfg x; accept_all cfg l) (sn_set_state n s) = Some (n', Ok tt) ∧
    sync_ok n' ∧ sn_state n' = s ∧ sn_gc_round n' = sn_gc_round n ∧ sn_acceptor n' = sn_acceptor n ∧
    sn_accepting n' = sn_accepting n ∧ feeds_on n n' ∧ stored_digests n' = stored_digests n ∪ ({[Certificate_digest x]} ∪ digests_of l).
Proof.
  intros [Hn Hinv] Hfree Hx Hd Hpar [Hai Haf Hag Han Hac].
  assert (sync_core (sn_set_state n s)) as Hn0 by (by destruct Hn).
  destruct (accept_internal_ok x _ Hn0 Hx Hd Hpar) as (n1 & H1 & [Hn1 Hs1 He1 Hg1 Ha1 Hb1 Hf1]). simpl in *.
  destruct (accept_all_ok l n1 Hn1) as (n2 & H2 & [Hn2 Hs2 He2 Hg2 Ha2 Hb2 Hf2]).
  - unfold free. by rewrite Hb1.
  - intros su Hin. destruct (Haf su Hin) as (? & ? & ?). split; [done|]. rewrite Hs1. set_solver.
  - done.
  - intros i su p Hi _ Hp. rewrite Hs1. specialize (Hac i su p Hi Hp). set_solver.
  - exists n2. unfold mbind, EM_bind. rewrite H1, H2. split; [done|].
    assert (stored_digests n2 = stored_digests n ∪ ({[Certificate_digest x]} ∪ digests_of l)) as Hst.
    { rewrite Hs2, Hs1. apply (set_eq (C := gset Z)). set_solver. }
    split_and!; [|congruence..|exact (feeds_on_trans n _ _ Hf1 Hf2)|congruence].
    split; [done|]. rewrite Hst, He2, Hg2, Hg1. simpl in He1. by rewrite He1.
Qed.

(** A suspended certificate above the collected round misses the parents that are
    not stored. *)
Lemma suspended_missing D g x s su mp :
  sync_inv G D g s -> sy_suspended s !! Certificate_digest x = Some su -> certified G x -> g < Certificate_round x ->
  (forall p, p ∈ mp <-> p ∈ Certificate_parents x ∧ (p ∉ D)) -> su_missing_parents su = list_to_set mp.
Proof.
  intros Hinv Hs Hx Hg Hmp. destruct (sv_certified _ _ _ _ Hinv _ _ Hs) as [Hsc Hd].
  assert (ce_header (su_certificate su) = ce_header x) as Hh.
  { unfold certified, in_dag in Hx, Hsc. unfold Certificate_digest in Hd. rewrite Hd in Hsc. congruence. }
  apply set_eq. intros p. rewrite elem_of_list_to_set, Hmp. split.
  - intros Hp. destruct (sv_parent _ _ _ _ Hinv _ _ _ Hs Hp) as [Hpa Hor]. unfold Certificate_parents, Certificate_round in *.
    rewrite Hh in *. split; [done|]. destruct Hor as [[? _]|]; [done|lia].
  - intros [Hpa Hn]. destruct (decide (p ∈ su_missing_parents su)) as [|Hm]; [done|]. destruct Hn.
    apply (sv_present _ _ _ _ Hinv _ _ _ Hs); [|done]. unfold Certificate_parents in *. by rewrite Hh.
Qed.

Lemma certified_parents_nodup x : certified G x -> 2 <= Certificate_round x -> NoDup (Certificate_parents x).
Proof.
  intros Hx Hr. destruct (cd_parents _ _ Hcd _ _ Hx Hr) as (ps & [Hl Ha _]). unfold Certificate_parents.
  revert Ha. induction Hl as [|p q l ps' Hpq Hl IH]; csimpl; [constructor|]. intros [Hq Hn]%NoDup_cons. constructor; [|by apply IH].
  intros Hin. apply Hq. apply (Forall2_elem_of_l _ _ _ _ Hl) in Hin as (q' & Hin & Hpq'). assert (q' = q) as -> by congruence.
  by apply list_elem_of_fmap_2.
Qed.


(** A certificate is stale when it is suspended and its parents are no longer asked for. *)
Definition stale n x : Prop := is_Some (sy_suspended (sn_state n) !! Certificate_digest x) ∧ Certificate_round x <= sn_gc_round n + 1.

(** The steps that leave the queue and the collected round alone and do not panic. *)
Definition safe_step (m : EM (Synchronizer T) DagError unit) n : Prop :=
  exists n' r, m n = Some (n', r) ∧ sync_ok n' ∧ sn_gc_round n' = sn_gc_round n ∧
    sn_acceptor n' = sn_acceptor n ∧ sn_accepting n' = sn_accepting n ∧ feeds_on n n'.

Lemma locked_accept x n : sync_ok n -> free n -> certified G x -> admits n (Certificate_digest x) ->
  sy_suspended (sn_state n) !! Certificate_digest x = None ->
  (sn_gc_round n + 1 < Certificate_round x -> forall p, p ∈ Certificate_parents x -> p ∈ stored_digests n) ->
  safe_step (n ← em_get;
      match accept_children (Certificate_round x) (Certificate_digest x) (sn_state n) with
      | Finished (s, children) =>
          _ ← em_modify (fun n => sn_set_state n s);
          _ ← accept_certificate_internal cfg x;
          accept_all cfg children
      | _ => em_panic
      end) n.
Proof.
  intros Hn Hf Hx Hd Hs Hpar.
  destruct (accept_children_spec _ G Hcd _ _ x _ (proj2 Hn) Hx Hs) as (s & l & Hac & Hacc).
  destruct (accept_with_children_ok x n s l Hn Hf Hx Hd Hpar Hacc) as (n' & Hr & Hok & _ & Hg & Ha & Hb & Hf' & _).
  unfold safe_step. erewrite em_bind_ok by done. rewrite Hac. exists n', (Ok tt). split_and!; [exact Hr|done..].
Qed.

Lemma get_missing_ok x n :
  sync_core n -> certified G x -> sn_gc_round n + 1 < Certificate_round x ->
  exists ch, sync_open ch ∧ sc_new_certificates ch = sent n ∧ sc_parents ch = sc_parents (sn_channels n) ∧
    get_missing_parents cfg x n = Some (sn_set_channels n ch, Ok (not_stored (Certificate_parents x) (sn_store n))).
Proof.
  intros Hn Hx Hr. pose proof (so_gc _ Hn). unfold get_missing_parents. erewrite em_bind_ok by done.
  rewrite (proj2 (Z.eqb_neq _ _)) by lia. destruct (bool_decide _).
  - exists (sn_channels n). split_and!; [by apply (so_open _ Hn)|done|done|]. by destruct n.
  - exists (sc_send_fetcher (Ancestors x) (sn_channels n)). split_and!; [apply (so_open _ Hn)|done|done|].
    erewrite em_bind_ok; [done|]. unfold send_fetcher, sync_send. erewrite em_bind_ok by done.
    destruct (so_open _ Hn) as (_ & _ & -> & _). done.
Qed.

Lemma core_channels n ch : sync_core n -> sync_open ch -> sc_new_certificates ch = sent n -> sync_core (sn_set_channels n ch).
Proof. intros [] Ho Hs. split; simpl; rewrite ?Hs; done. Qed.

(** A certificate that was sent above the collected round has its parents stored. *)
Lemma sent_parents x n p : sync_core n -> certified G x -> Certificate_digest x ∉ base -> Certificate_digest x ∈ stored_digests n ->
  sn_gc_round n + 1 < Certificate_round x -> p ∈ Certificate_parents x -> p ∈ stored_digests n.
Proof.
  intros Hn Hx Hb Hs Hr Hp. rewrite (so_sent _ Hn) in Hs. apply elem_of_union in Hs as [?|Hs]; [done|].
  apply elem_of_list_to_set, list_elem_of_fmap in Hs as (y & Hd & Hy). pose proof (so_sent_certified _ Hn _ Hy) as Hyc.
  assert (ce_header y = ce_header x) as Hh.
  { unfold certified, in_dag in Hx, Hyc. unfold Certificate_digest in Hd. rewrite Hd in Hx. congruence. }
  apply list_elem_of_lookup in Hy as [i Hi]. unfold Certificate_round, Certificate_parents in Hr, Hp. rewrite <- Hh in Hr, Hp.
  pose proof (so_causal _ Hn i y p Hi Hr Hp) as Hin. rewrite (so_sent _ Hn). apply elem_of_union in Hin as [?|Hin]; [set_solver|].
  apply elem_of_union_r. apply elem_of_list_to_set, list_elem_of_fmap in Hin as (z & -> & Hz). apply elem_of_list_to_set.
  apply list_elem_of_fmap_2. by eapply (subseteq_take i).
Qed.

Lemma locked_ok x early n : sync_ok n -> sn_accepting n = None -> certified G x -> Certificate_digest x ∉ base ->
  (S (handed (Certificate_digest x) (sent n)) <= limit)%nat -> (early = false -> ~ stale n x) ->
  safe_step (process_certificate_locked cfg x early) n.
Proof.
  intros [Hn Hinv] Hacc Hx Hb Hcount Hst. unfold process_certificate_locked, safe_step. erewrite em_bind_ok by done. cbn zeta.
  assert (admits n (Certificate_digest x)) as Hd by (by left). assert (free n) as Hfree by (by left).
  unfold check_suspended. destruct (early && bool_decide _) eqn:Es; [by eexists _, (Err _); eauto 10 using feeds_on_same|].
  assert (is_Some (sy_suspended (sn_state n) !! Certificate_digest x) -> sn_gc_round n + 1 < Certificate_round x) as Hsus.
  { intros Hs. destruct early; [by case_bool_decide|]. destruct (Z.lt_ge_cases (sn_gc_round n + 1) (Certificate_round x)) as [|Hle]; [done|].
    by destruct (Hst eq_refl). }
  erewrite em_bind_ok by done. pose proof (so_gc _ Hn). rewrite u64_add_small by lia.
  destruct (Z.ltb_spec (sn_gc_round n + 1) (Certificate_round x)) as [Hlt|Hge].
  2:{ erewrite em_bind_ok by done. apply locked_accept; [by split|done..| |lia].
      apply eq_None_not_Some. intros ?%Hsus. lia. }
  destruct (get_missing_ok x n Hn Hx Hlt) as (ch & Hch & Hse & Hpa & Hm). erewrite em_bind_ok by done.
  set (n1 := sn_set_channels n ch). assert (sync_core n1) as Hn1 by (by apply core_channels).
  assert (sync_ok n1) as Hok1 by done. pose proof (fun p => not_stored_spec n (Certificate_parents x) p Hn) as Hns.
  destruct (bool_decide (not_stored (Certificate_parents x) (sn_store n) = [])) eqn:He.
  - apply bool_decide_eq_true in He. 
    assert (feeds_on n n1) as Hf1 by (by apply feeds_on_same).
    destruct (locked_accept x n1 Hok1 Hfree Hx) as (n' & r & ? & ? & ? & ? & ? & Hf2);
      [..|exists n', r; split_and!; try done; exact (feeds_on_trans _ _ _ Hf1 Hf2)].
    + left. split; [done|]. simpl. by rewrite Hse.
    + apply eq_None_not_Some. intros [su Hsu]. apply (sv_nonempty _ _ _ _ Hinv _ _ Hsu).
      rewrite (suspended_missing _ _ x _ su _ Hinv Hsu Hx ltac:(lia) Hns). by rewrite He.
    + intros _ p Hp. destruct (decide (p ∈ stored_digests n)) as [|Hnp]; [done|].
      assert (p ∈ not_stored (Certificate_parents x) (sn_store n)) as Hin by (by apply Hns). rewrite He in Hin. by apply not_elem_of_nil in Hin.
  - apply bool_decide_eq_false in He. erewrite em_bind_ok by done. change (sn_state n1) with (sn_state n).
    assert (exists s, SyncState_insert x (not_stored (Certificate_parents x) (sn_store n)) (negb early) (sn_state n) = Some s ∧
      sync_inv G (stored_digests n) (sn_gc_round n) s) as (s & Hi & Hs).
    { destruct (sy_suspended (sn_state n) !! Certificate_digest x) as [su|] eqn:Hsu.
      - exists (sn_state n). split; [|done]. unfold SyncState_insert. rewrite Hsu. destruct early.
        { rewrite bool_decide_true in Es by done. done. }
        simpl. by rewrite (bool_decide_true _ (suspended_missing _ _ x _ su _ Hinv Hsu Hx ltac:(lia) Hns)).
      - apply (insert_spec (sf_committee cfg) G Hcd); try done; [|by apply (cd_round _ _ Hcd _ _ Hx)|].
        + intros Hin. apply He. apply elem_of_nil_inv. intros p [Hp Hnp]%Hns. by eapply Hnp, sent_parents.
        + apply not_stored_nodup; [done|]. apply certified_parents_nodup; [done|lia]. }
    erewrite em_bind_ok by (unfold em_lift; by rewrite Hi). erewrite em_bind_ok by done.
    eexists _, (Err _). split; [done|]. split; [|by eauto using feeds_on_same]. split; [by destruct Hn1|done].
Qed.

(** ** Garbage collection *)

Lemma gc_accept_ok l n : sync_ok n -> free n ->
  (forall su, su ∈ l -> certified G (su_certificate su) ∧ (su_digest su ∉ stored_digests n) ∧ su_round su = sn_gc_round n + 1 ∧
    sy_suspended (sn_state n) !! su_digest su = None) ->
  NoDup ((fun su => su_digest su) <$> l) -> safe_step (gc_accept cfg l) n.
Proof.
  revert n. induction l as [|su l IH]; intros n Hn Hfree Hl Hnd; [by exists n, (Ok tt); eauto 10 using feeds_on_same|].
  csimpl in Hnd. apply NoDup_cons in Hnd as [Hsu Hnd]. destruct (Hl su ltac:(by left)) as (Hx & Hd & Hr & Hs).
  destruct (accept_children_spec _ G Hcd _ _ (su_certificate su) _ (proj2 Hn) Hx Hs) as (s & ch & Hac & Hacc).
  destruct (accept_with_children_ok (su_certificate su) n s ch Hn Hfree Hx (free_admits _ _ (proj1 Hn) Hfree Hd) ltac:(lia) Hacc)
    as (n1 & H1 & Hn1 & Hst & Hg & Hq & Hb & Hf1 & Hdom).
  destruct (accept_children_drawn _ _ _ _ _ Hac) as (Hnone & _ & Hch).
  destruct (IH n1 Hn1) as (n2 & r & H2 & Hn2 & Hg2 & Hq2 & Hb2 & Hf2); [| |done|].
  - unfold free. by rewrite Hb.
  - intros su' Hin. destruct (Hl su' ltac:(by right)) as (? & Hd' & Hr' & Hs'). rewrite Hdom, Hst, Hg. split_and!; [done| |done|by apply Hnone].
    rewrite !elem_of_union, elem_of_singleton, elem_of_digests_of. intros [?|[He|(su1 & Hin1 & He)]]; [done| |].
    + apply Hsu. rewrite <- He. by apply (list_elem_of_fmap_2 (fun su => su_digest su)).
    + apply Hch in Hin1 as [?%not_elem_of_nil|(k & su0 & Hk & Hc0)]; [done|].
      destruct (sv_certified _ _ _ _ (proj2 Hn) _ _ Hk) as [_ Hk']. rewrite Hc0, Hk' in He. congruence.
  - exists n2, r. split_and!; [|done|congruence..|by eapply feeds_on_trans]. cbn [gc_accept]. erewrite em_bind_ok by done. rewrite Hac.
    erewrite em_bind_ok by done. erewrite em_bind_ok; [exact H2|]. exact H1.
Qed.

Lemma gc_run_ok n : sync_ok n -> free n -> safe_step (gc_run cfg) n.
Proof.
  intros [Hn Hinv] Hfree. destruct (run_gc_spec _ G Hcd _ _ _ Hinv) as (s & l & Hrun & [Hs Hf Hgone Hnd]).
  unfold gc_run, safe_step. erewrite em_bind_ok by done. erewrite em_bind_ok by (unfold em_lift; by rewrite Hrun).
  cbn beta iota. erewrite em_bind_ok by done. destruct (gc_accept_ok l (sn_set_state n s)) as (n' & r & Hr & Hn' & Hg & Hq & Hb & Hf').
  - split; [by destruct Hn|done].
  - done.
  - intros su Hin. destruct (Hf su Hin) as (? & ? & ?). split_and!; [done..|by apply Hgone].
  - done.
  - by exists n', r.
Qed.

(** A larger collected round only weakens the invariant. *)
Lemma gc_store_ok r n : sync_ok n -> sn_gc_round n <= r < u64_modulus - 1 ->
  exists n', gc_store r n = Some (n', Ok tt) ∧ sync_ok n' ∧ feeds_on n n'.
Proof.
  intros [[] []] Hr. eexists. split; [done|]. split; [|split; [apply feeding_filter|done]]. split; split; simpl; try done; try lia; eauto with lia.
  intros d su p Hd Hp. destruct (sv_parent0 d su p Hd Hp) as [? [?|?]]; [by auto|]. split; [done|]. right. lia.
Qed.

(** ** Receiving *)

(** Changes of the counters and channels that keep what was sent. *)
Record same_core n n' : Prop := {
  sm_store : sn_store n' = sn_store n;
  sm_state : sn_state n' = sn_state n;
  sm_gc : sn_gc_round n' = sn_gc_round n;
  sm_open : sync_open (sn_channels n) -> sync_open (sn_channels n');
  sm_sent : sent n' = sent n;
  sm_queue x e : (x, e) ∈ sn_acceptor n' -> (x, e) ∈ sn_acceptor n ∨ certified G x;
  sm_accepting : sn_accepting n' = sn_accepting n
}.

Lemma same_core_ok n n' : same_core n n' -> sync_ok n -> sync_ok n'.
Proof.
  intros [Hst Hs Hg Ho Hse Hq Ha] [[] Hinv]. split; [|by rewrite Hst, Hs, Hg]. split; rewrite ?Hst, ?Hg, ?Hse, ?Ha; try done; [|by auto].
  intros x e [?|?]%Hq; [by eapply so_queue0|done].
Qed.

Lemma submit_ok now x sanitize early n : sync_ok n ->
  (sanitize = false -> certified G x) ->
  (sanitize = true -> Certificate_verify now (sf_committee cfg) (sf_worker_cache cfg) x = Some (Ok tt) ->
    1 <= Certificate_round x -> certified G x) ->
  Certificate_verify now (sf_committee cfg) (sf_worker_cache cfg) x <> None ->
  exists n' r, submit_certificate cfg now x sanitize early n = Some (n', r) ∧ sync_ok n' ∧ feeds_on n n'.
Proof.
  intros Hn Hx Hver Htot. unfold submit_certificate. erewrite em_bind_ok by done. cbn zeta.
  destruct (cs_contains _ _); [by exists n, (Ok false)|].
  destruct (negb (early && check_suspended _ _)); [|by exists n, (Err (Suspended (Certificate_digest x)))].
  erewrite em_bind_ok by done.
  assert ((exists e, (if sanitize then sanitize_certificate cfg now x else mret tt) n = Some (n, Err e)) ∨
    ((if sanitize then sanitize_certificate cfg now x else mret tt) n = Some (n, Ok tt) ∧ certified G x)) as [[e He]|[He Hxc]].
  { destruct sanitize; [|right; split; [done|by apply Hx]]. unfold sanitize_certificate. erewrite em_bind_ok by done.
    destruct (_ =? _); [|left; by eexists]. erewrite em_bind_ok by done.
    destruct (Z.ltb_spec (sn_gc_round n) (Certificate_round x)) as [Hlt|]; [|left; by eexists]. erewrite em_bind_ok by done.
    destruct (Certificate_verify _ _ _ x) as [[[]|e]|] eqn:E; [right|left; by eexists|done]. split; [done|].
    apply (Hver eq_refl eq_refl). pose proof (so_gc _ (proj1 Hn)). lia. }
  { exists n, (Err e). unfold mbind, EM_bind. by rewrite He. }
  erewrite em_bind_ok by exact He. erewrite em_bind_ok by done.
  assert (forall n', sn_aggregators n' = sn_aggregators n ->
    sc_parents (sn_channels n') = sc_parents (sn_channels n) ++ [([], u64_saturating_sub (Certificate_round x) 1, Certificate_epoch x)] -> feeds_on n n') as Hann.
  { intros n' Ha Hp. unfold feeds_on. rewrite Ha, Hp. split; [|by apply prefix_app_r]. intros Hf. apply feeding_announce; [done..|].
    pose proof (cd_round _ _ Hcd _ _ Hxc). unfold u64_saturating_sub, Certificate_round. lia. }
  destruct (so_open _ (proj1 Hn)) as (Ho1 & Ho2 & Ho3 & Ho4).
  unfold send_parents, send_fetcher, sync_send.
  erewrite em_bind_ok by (erewrite em_bind_ok by done; cbn [sn_channels sn_set_received]; rewrite Ho2; reflexivity).
  erewrite em_bind_ok by (erewrite em_bind_ok by done; cbn; rewrite Ho4; reflexivity).
  erewrite em_bind_ok by done. destruct (_ <? _).
  - erewrite em_bind_ok by (erewrite em_bind_ok by done; cbn; rewrite Ho3; reflexivity).
    eexists _, (Err _). split; [done|]. split; [|by apply Hann]. eapply same_core_ok; [|exact Hn]. split; try done; [by simpl; auto].
  - erewrite em_bind_ok by done. eexists _, (Ok true). split; [done|]. split; [|by apply Hann]. eapply same_core_ok; [|exact Hn]. split; try done. simpl.
    intros y e [?|[= -> ->]%list_elem_of_singleton]%elem_of_app; auto.
Qed.
End node.
