(* ===== verification/SynchronizerSafe.v ===== *)
(** * The synchronizer keeps causal order

    The tasks of the synchronizer as events that interleave: certificates arrive from
    peers, from the fetcher and from the certifier of the node ([ReceiveFetched] for the
    last two, which are not checked again), the acceptor task looks the next one up
    ([AcceptNext]) and goes on when it has the lock ([AcceptLocked]), garbage collection
    stores the new round and later releases what it holds back.  In every order of these
    events a certificate reaches consensus after its parents ([synchronizer_causal]).

    Two things can go wrong between two steps of a task, and nothing else: a fetched
    certificate that is suspended while the collected round overtakes it stops the node
    ([fetched_certificate_panics]), and a certificate that garbage collection accepts
    while the acceptor task waits for the lock is handed to consensus again
    ([certificate_handed_twice]). *)

From S2P Require Import Prelude Committee DagTypes DagProps ConsensusSample Certification SignatureSample CertificationProps PrimarySample CertificateStore Synchronizer SynchronizerProps.
Local Open Scope Z_scope.
Local Open Scope chase_scope.

(** ** Events *)

Inductive SyncEvent :=
  | ReceiveCertificate (now : Z) (x : Certificate)
  | ReceiveFetched (now : Z) (x : Certificate)
  | AcceptNext
  | AcceptLocked
  | CollectRound (gc_round : Z)
  | CollectSuspended.

Section events.
Context `{HH : HeaderHash} `{HS : Signatures} `{HI : SetIter} {T : Type} `{HT : StoreCache T} (cfg : SyncConfig).

Definition sync_event (ev : SyncEvent) : EM (Synchronizer T) DagError unit :=
  match ev with
  | ReceiveCertificate now x => _ ← submit_certificate cfg now x true true; mret tt
  | ReceiveFetched now x => _ ← submit_certificate cfg now x false false; mret tt
  | AcceptNext => acceptor_take
  | AcceptLocked => acceptor_locked cfg
  | CollectRound r => gc_store r
  | CollectSuspended => gc_run cfg
  end.

(** A fetched certificate is verified by the fetcher, an own one when it is assembled;
    the collected round grows. *)
Definition event_allowed (G : gmap Z Header) (ev : SyncEvent) (n : Synchronizer T) : Prop :=
  match ev with
  | ReceiveCertificate _ _ | AcceptNext | AcceptLocked | CollectSuspended => True
  | ReceiveFetched _ x => certified G x
  | CollectRound r => sn_gc_round n <= r < u64_modulus - 1
  end.

(** Suspended certificates are not collected while the acceptor task waits for the
    lock. *)
Definition calm (ev : SyncEvent) (n : Synchronizer T) : Prop := ev = CollectSuspended -> sn_accepting n = None.

(** An event that fails is over, and the next one happens.  All runs, or only the calm
    ones. *)
Inductive sync_reaches (only_calm : bool) (G : gmap Z Header) (n : Synchronizer T) : Synchronizer T -> Prop :=
  | reaches_start : sync_reaches only_calm G n n
  | reaches_event n1 ev n2 r :
      sync_reaches only_calm G n n1 -> event_allowed G ev n1 -> (only_calm = true -> calm ev n1) ->
      sync_event ev n1 = Some (n2, r) -> sync_reaches only_calm G n n2.

(** The acceptor task has the lock for a stale certificate. *)
Definition stops (ev : SyncEvent) (n : Synchronizer T) : Prop :=
  ev = AcceptLocked ∧ exists x, sn_accepting n = Some (x, false) ∧ stale n x.

Lemma stops_or ev (n : Synchronizer T) : stops ev n ∨ ~ stops ev n.
Proof.
  unfold stops, stale. destruct ev; try (right; naive_solver). destruct (sn_accepting n) as [[x []]|]; try (right; naive_solver).
  destruct (decide (is_Some (sy_suspended (sn_state n) !! Certificate_digest x) ∧ Certificate_round x <= sn_gc_round n + 1)); [left|right]; naive_solver.
Qed.

Lemma reaches_any only_calm G n n' : sync_reaches only_calm G n n' -> sync_reaches false G n n'.
Proof. induction 1; [constructor|by eapply reaches_event]. Qed.
End events.

(** ** Safety *)

Section safe.
Context `{HH : HeaderHash} `{HS : Signatures} `{HI : SetIter} `{!SetIterLaws} {T : Type} `{HT : StoreCache T} `{!CacheLaws T}.
Context (cfg : SyncConfig) (Hc : committee_wf (sf_committee cfg)) (G : gmap Z Header) (Hcd : certified_dag (sf_committee cfg) G).
Context (base : gset Z) (limit : nat) (Hlimit : (1 <= limit)%nat).
Implicit Types n : Synchronizer T.
Abbreviation sync_ok := (sync_ok G base limit).
Abbreviation feeds_on := (feeds_on cfg G).

Lemma take_ok n : sync_ok n -> exists n' r, acceptor_take n = Some (n', r) ∧ sync_ok n' ∧ feeds_on n n'.
Proof.
  intros Hn. unfold acceptor_take. erewrite em_bind_ok by done. destruct (sn_accepting n) as [|] eqn:Ha; [by exists n, (Ok tt)|].
  destruct (sn_acceptor n) as [|[x early] q] eqn:Hq; [by exists n, (Ok tt)|]. erewrite em_bind_ok by done.
  assert (certified G x) as Hx by (apply (so_queue _ _ _ _ (proj1 Hn) x early); rewrite Hq; by left).
  assert (sync_ok (sn_set_acceptor n q)) as Hn'.
  { eapply same_core_ok; [|exact Hn]. split; try done. simpl. intros y e Hy. left. rewrite Hq. by right. }
  pose proof (contains_iff G base limit n (Certificate_digest x) (proj1 Hn)) as Hcon.
  destruct (cs_contains _ _); [by eexists _, (Ok tt)|]. eexists _, (Ok tt). split; [done|].
  split; [|by apply feeds_on_same].
  assert (Certificate_digest x ∉ dom (cs_by_id (sn_store n))) as Hd by (intros ?%Hcon; done).
  destruct Hn' as [Hn' ?]. split; [|done]. pose proof (unsent G base limit n _ (proj1 Hn) Hd) as Hun.
  rewrite (so_sent _ _ _ _ (proj1 Hn)) in Hd. destruct Hn'. split; try done. simpl. intros y e [= <- <-].
  split_and!; [done|set_solver|]. rewrite Hun. lia.
Qed.

Lemma set_accepting_ok n : sync_ok n -> sync_ok (sn_set_accepting n None).
Proof. intros [[] ?]. by split; [split|]. Qed.

Lemma acceptor_locked_ok n : sync_ok n -> ~ stops AcceptLocked n -> exists n' r, acceptor_locked cfg n = Some (n', r) ∧ sync_ok n' ∧ feeds_on n n'.
Proof.
  intros Hn Hst. unfold acceptor_locked. erewrite em_bind_ok by done.
  destruct (sn_accepting n) as [[x early]|] eqn:Ha; [|by exists n, (Ok tt)]. erewrite em_bind_ok by done.
  destruct (so_accepting _ _ _ _ (proj1 Hn) _ _ Ha) as (Hx & Hb & Hcount).
  destruct (locked_ok cfg Hc G Hcd base limit Hlimit x early _ (set_accepting_ok n Hn)) as (n' & r & Hr & Hok & _ & _ & _ & Hf); [done..| |by eauto].
  intros -> ?. apply Hst. split; [done|]. by exists x.
Qed.

(** The acceptor task panics on a stale certificate. *)
Lemma stops_panics ev n : sync_ok n -> stops ev n -> sync_event cfg ev n = None.
Proof.
  intros [Hn Hinv] (-> & x & Ha & [su Hsu] & Hr). simpl. unfold acceptor_locked. erewrite em_bind_ok by done. rewrite Ha.
  erewrite em_bind_ok by done. unfold process_certificate_locked. erewrite em_bind_ok by done. cbn zeta.
  cbn [sn_store sn_set_accepting sn_state sn_gc_round].
  erewrite em_bind_ok by done. pose proof (so_gc _ _ _ _ Hn). rewrite u64_add_small by lia. rewrite (proj2 (Z.ltb_ge _ _)) by lia.
  erewrite em_bind_ok by done. rewrite bool_decide_true by done. erewrite em_bind_ok by done.
  cbn [sn_store sn_set_accepting sn_state sn_gc_round]. unfold accept_children. by rewrite Hsu.
Qed.

Lemma event_ok ev n :
  sync_ok n -> event_allowed G ev n -> (ev = CollectSuspended -> free limit n) ->
  (forall now x, ev = ReceiveCertificate now x ->
    Certificate_verify now (sf_committee cfg) (sf_worker_cache cfg) x = Some (Ok tt) -> 1 <= Certificate_round x -> certified G x) ->
  ~ stops ev n -> exists n' r, sync_event cfg ev n = Some (n', r) ∧ sync_ok n' ∧ feeds_on n n'.
Proof.
  intros Hn Hall Hfree Hver Hst.
  assert (forall now x sanitize early, (sanitize = false -> certified G x) ->
    (sanitize = true -> Certificate_verify now (sf_committee cfg) (sf_worker_cache cfg) x = Some (Ok tt) ->
      1 <= Certificate_round x -> certified G x) ->
    exists n' r, (_ ← submit_certificate cfg now x sanitize early; mret tt) n = Some (n', r) ∧ sync_ok n' ∧ feeds_on n n') as Hsub.
  { intros now x sanitize early Hx Hv. destruct (submit_ok cfg G Hcd base limit Hlimit now x sanitize early n Hn Hx Hv) as (n' & r & Hr & Hok).
    { destruct (verify_total _ Hc now (sf_worker_cache cfg) x) as [? ->]. done. }
    unfold mbind, EM_bind. rewrite Hr. destruct r; eauto. }
  destruct ev as [now x|now x| | |r|]; simpl in *.
  - apply Hsub; [done|]. intros _. by eapply Hver.
  - by apply Hsub.
  - by apply take_ok.
  - by apply acceptor_locked_ok.
  - destruct (gc_store_ok cfg G base limit Hlimit r n Hn Hall) as (n' & ? & ? & ?). eauto.
  - destruct (gc_run_ok cfg Hc G Hcd base limit Hlimit n Hn (Hfree eq_refl)) as (n' & r & ? & ? & _ & _ & _ & ?). eauto.
Qed.

(** An event that does not panic keeps the invariant. *)
Lemma event_safe ev n n' r :
  sync_ok n -> event_allowed G ev n -> (ev = CollectSuspended -> free limit n) ->
  (forall now x, ev = ReceiveCertificate now x ->
    Certificate_verify now (sf_committee cfg) (sf_worker_cache cfg) x = Some (Ok tt) -> 1 <= Certificate_round x -> certified G x) ->
  sync_event cfg ev n = Some (n', r) -> sync_ok n' ∧ feeds_on n n'.
Proof.
  intros Hn Hall Hfree Hver Hev. destruct (event_ok ev n Hn Hall Hfree Hver) as (n1 & r1 & Hev1 & Hn1); [|congruence].
  intros Hst%stops_panics; [congruence|done].
Qed.
End safe.

(** ** The theorem *)

(** A synchronizer that starts on a store of certified certificates. *)
Record sync_starts `{HeaderHash} {T} `{StoreCache T} `{!CacheLaws T} (G : gmap Z Header) (n : Synchronizer T) : Prop := {
  ss_new : exists gc store ch, n = Synchronizer_new gc store ch;
  ss_store : cached_ok (sn_store n);
  ss_certs d x : cs_by_id (sn_store n) !! d = Some x -> Certificate_digest x = d ∧ certified G x;
  ss_gc : 0 <= sn_gc_round n < u64_modulus - 1;
  ss_open : sync_open (sn_channels n);
  ss_sent : sc_new_certificates (sn_channels n) = [];
  ss_parents : sc_parents (sn_channels n) = []
}.

Lemma starts_ok `{HH : HeaderHash} {T} `{HT : StoreCache T} `{!CacheLaws T} (G : gmap Z Header) limit (n : Synchronizer T) :
  sync_starts G n -> sync_ok G (dom (cs_by_id (sn_store n))) limit n.
Proof.
  intros [(gc & store & ch & ->) Hst Hce Hgc Ho Hse _]. split.
  - split; rewrite ?Hse; try done.
    + by intros x e ?%not_elem_of_nil.
    + simpl. set_solver.
    + by intros x ?%not_elem_of_nil.
    + unfold handed. simpl. lia.
  - split; simpl; try (intros *; by rewrite lookup_empty).
Qed.

Lemma starts_feeding `{HH : HeaderHash} {T} `{HT : StoreCache T} `{!CacheLaws T} (c : Committee) (G G' : gmap Z Header) (n : Synchronizer T) :
  sync_starts G n -> feeding c G' (sn_aggregators n) (sc_parents (sn_channels n)).
Proof. intros [(gc & store & ch & ->) _ _ _ _ _ ->]. split; [done|]. intros r a. simpl. by rewrite lookup_empty. Qed.

(** How often a certificate can be handed to consensus. *)
Definition hand_limit (only_calm : bool) : nat := if only_calm then 1 else 2.

Lemma reaches_ok `{HH : HeaderHash} `{HS : Signatures} `{HI : SetIter} `{!SetIterLaws} {T : Type} `{HT : StoreCache T}
    `{!CacheLaws T} (cfg : SyncConfig) (G : gmap Z Header) only_calm (n0 n : Synchronizer T) :
  committee_wf (sf_committee cfg) -> certified_dag (sf_committee cfg) G ->
  (forall now x, Certificate_verify now (sf_committee cfg) (sf_worker_cache cfg) x = Some (Ok tt) ->
    1 <= Certificate_round x -> certified G x) ->
  sync_starts G n0 -> sync_reaches cfg only_calm G n0 n -> sync_ok G (dom (cs_by_id (sn_store n0))) (hand_limit only_calm) n.
Proof.
  intros Hc Hcd Hver Hstart Hreach. induction Hreach as [|n1 ev n2 r _ IH Hall Hcalm Hev]; [by apply starts_ok|].
  eapply (event_safe cfg Hc G Hcd); [|exact IH|exact Hall| |by eauto|exact Hev].
  - destruct only_calm; simpl; lia.
  - intros He. destruct only_calm; [left; by apply Hcalm|right; simpl; lia].
Qed.


(** ** Runs *)

Section play.
Context `{HH : HeaderHash} `{HS : Signatures} `{HI : SetIter} {T : Type} `{HT : StoreCache T} (cfg : SyncConfig) (only_calm : bool) (G : gmap Z Header).

#[global] Instance event_allowed_dec ev (n : Synchronizer T) : Decision (event_allowed G ev n).
Proof. destruct ev; simpl; apply _. Defined.

#[global] Instance calm_dec ev (n : Synchronizer T) : Decision (calm ev n).
Proof. unfold calm. destruct ev; [left; done..|]. destruct (sn_accepting n); [right; naive_solver|by left]. Defined.

(** The state after a list of events, if all are allowed, calm if that is asked for, and none
    panics. *)
Fixpoint sync_play (evs : list SyncEvent) (n : Synchronizer T) : option (Synchronizer T) :=
  match evs with
  | [] => Some n
  | ev :: evs' =>
      if bool_decide (event_allowed G ev n) && (negb only_calm || bool_decide (calm ev n)) then
        match sync_event cfg ev n with Some (n', _) => sync_play evs' n' | None => None end
      else None
  end.

Lemma sync_play_reaches evs n0 n n' : sync_reaches cfg only_calm G n0 n -> sync_play evs n = Some n' -> sync_reaches cfg only_calm G n0 n'.
Proof.
  revert n. induction evs as [|ev evs IH]; intros n Hn; simpl; [by intros [= <-]|].
  destruct (bool_decide (event_allowed G ev n)) eqn:Hall; [|done]. apply bool_decide_eq_true in Hall. simpl.
  destruct (negb only_calm || bool_decide (calm ev n)) eqn:Hcalm; [|done]. destruct (sync_event cfg ev n) as [[n1 r]|] eqn:Hev; [|done].
  apply IH. eapply reaches_event; [exact Hn|exact Hall| |exact Hev].
  intros ->. by apply bool_decide_eq_true in Hcalm.
Qed.
End play.

#[local] Existing Instance full_hash.

Definition ascending_iter : SetIter := elements.
#[global] Instance ascending_iter_laws : @SetIterLaws ascending_iter.
Proof. intros s. reflexivity. Qed.

#[local] Existing Instance ascending_iter.

Definition four_config : SyncConfig := mkSyncConfig 0 four four_workers 50
  (list_to_map ((fun h => (full_hash h, mkCertificate h 0 [] 0)) <$> take 4 full_headers)).

Definition open_sync_channels : SyncChannels := mkSyncChannels [] [] [] [] [] true true true true true.

Definition new_synchronizer : Synchronizer RecentCache :=
  Synchronizer_new 0 (mkCertificateStore ∅ ∅ ∅ (mkRecent 2 []) []) open_sync_channels.

(** The certificate of an author in a round of the full dag. *)
Definition full_cert (r i : Z) : Certificate := mkCertificate (header_at r i all_four) 0 [0; 1; 2] 0.

Lemma new_synchronizer_starts G : sync_starts G new_synchronizer.
Proof.
  split; try done.
  - by eexists _, _, _.
  - split; [apply map_empty_subseteq|constructor].
Qed.

#[local] Instance full_signatures : Signatures := ideal_signatures full_dag.

(** A certificate of round 2 arrives before its parents; a collected round lets one of
    round 3 pass. *)
Definition late_parents : list SyncEvent :=
  [ReceiveCertificate 1 (full_cert 2 0); AcceptNext; AcceptLocked]
  ++ concat ((fun i => [ReceiveCertificate 2 (full_cert 1 i); AcceptNext; AcceptLocked]) <$> all_four)
  ++ [ReceiveCertificate 3 (full_cert 3 1); AcceptNext; AcceptLocked; CollectRound 2; CollectSuspended].

Lemma full_dag_in_dag : Forall (in_dag (dag_of full_dag)) full_dag.
Proof. apply (bool_decide_unpack (Forall (in_dag (dag_of full_dag)) full_dag)). by vm_compute. Qed.


(** A fetched certificate stops the node when the collected round has overtaken a
    suspended copy of it: the round is stored before the suspended certificates are
    released, so the acceptor may run in between, no longer looks for the parents and
    finds the certificate suspended. *)
Theorem fetched_certificate_panics :
  let G := dag_of full_dag in
  let x := full_cert 2 0 in
  exists n, sync_play four_config true G
      [ReceiveCertificate 1 x; AcceptNext; AcceptLocked; CollectRound 1; ReceiveFetched 2 x; AcceptNext] new_synchronizer = Some n ∧
    certified G x ∧ sn_accepting n = Some (x, false) ∧ sync_event four_config AcceptLocked n = None.
Proof.
  intros G x. eexists. split; [vm_compute; reflexivity|]. split; [by vm_compute|]. split; by vm_compute.
Qed.

(** Two copies of a certificate wait for the acceptor task.  The first is suspended; the
    second is looked up in the store before garbage collection accepts the first and
    gets the lock after it, so consensus receives the certificate twice. *)
Theorem certificate_handed_twice :
  let G := dag_of full_dag in
  let x := full_cert 2 0 in
  exists n, sync_play four_config false G
      [ReceiveCertificate 1 x; ReceiveCertificate 2 x; AcceptNext; AcceptLocked; AcceptNext; CollectRound 1; CollectSuspended; AcceptLocked]
      new_synchronizer = Some n ∧
    sc_new_certificates (sn_channels n) = [x; x].
Proof. intros G x. eexists. split; by vm_compute. Qed.
