(* ===== verification/Proposer.v ===== *)
(** * The proposer

    src/narwhal/primary/src/proposer.rs: the task that makes the headers of a node, and
    the store of its last header, src/narwhal/storage/src/proposer_store.rs.

    A branch of the main loop is one definition.  Time is an argument in milliseconds;
    a timer is the time at which it elapses.  The channel to the certifier and the
    round watch are the lists of what was sent; the results of the writes to the store
    come from a script.  Metrics are left out, but not the leader that is computed for
    them, because computing it may panic. *)

From S2P Require Import Prelude Committee DagTypes ConsensusCore Certification.
Local Open Scope Z_scope.
Local Open Scope chase_scope.

(** ** State *)

Record OurDigestMessage := mkOurDigest { od_digest : Z; od_worker_id : Z; od_timestamp : Z }.

#[global] Instance OurDigestMessage_eq_dec : EqDecision OurDigestMessage.
Proof. solve_decision. Defined.

(** The part of [Proposer] that does not change. *)
Record ProposerConfig := mkProposerConfig {
  pf_authority_id : Z;
  pf_committee : Committee;
  pf_batches_threshold : Z;
  pf_max_batches : Z;
  pf_max_header_delay : Z;
  pf_min_header_delay : Z;
  pf_schedule : LeaderSchedule
}.

Record Proposer := mkProposer {
  pr_last_proposed : option Header;
  pr_outcomes : list (Result unit string);
  pr_headers : list Header;
  pr_headers_open : bool;
  pr_round : Z;
  pr_round_updates : list Z;
  pr_last_parents : list Certificate;
  pr_last_leader : option Certificate;
  pr_digests : list OurDigestMessage;
  pr_proposed : gmap Z (Header * list OurDigestMessage);
  pr_advance : bool;
  pr_latest_header : option Header;
  pr_max_timer : Z;
  pr_min_timer : Z
}.

Section updates.
Context (p : Proposer).

Definition pr_set_store (h : option Header) (outcomes : list (Result unit string)) := mkProposer h outcomes (pr_headers p)
  (pr_headers_open p) (pr_round p) (pr_round_updates p) (pr_last_parents p) (pr_last_leader p) (pr_digests p) (pr_proposed p)
  (pr_advance p) (pr_latest_header p) (pr_max_timer p) (pr_min_timer p).
Definition pr_send_header (h : Header) := mkProposer (pr_last_proposed p) (pr_outcomes p) (pr_headers p ++ [h])
  (pr_headers_open p) (pr_round p) (pr_round_updates p) (pr_last_parents p) (pr_last_leader p) (pr_digests p) (pr_proposed p)
  (pr_advance p) (pr_latest_header p) (pr_max_timer p) (pr_min_timer p).
Definition pr_set_round (r : Z) := mkProposer (pr_last_proposed p) (pr_outcomes p) (pr_headers p)
  (pr_headers_open p) r (pr_round_updates p ++ [r]) (pr_last_parents p) (pr_last_leader p) (pr_digests p) (pr_proposed p)
  (pr_advance p) (pr_latest_header p) (pr_max_timer p) (pr_min_timer p).
Definition pr_set_parents (l : list Certificate) := mkProposer (pr_last_proposed p) (pr_outcomes p) (pr_headers p)
  (pr_headers_open p) (pr_round p) (pr_round_updates p) l (pr_last_leader p) (pr_digests p) (pr_proposed p)
  (pr_advance p) (pr_latest_header p) (pr_max_timer p) (pr_min_timer p).
Definition pr_set_leader (x : option Certificate) := mkProposer (pr_last_proposed p) (pr_outcomes p) (pr_headers p)
  (pr_headers_open p) (pr_round p) (pr_round_updates p) (pr_last_parents p) x (pr_digests p) (pr_proposed p)
  (pr_advance p) (pr_latest_header p) (pr_max_timer p) (pr_min_timer p).
Definition pr_set_batches (ds : list OurDigestMessage) (m : gmap Z (Header * list OurDigestMessage)) := mkProposer
  (pr_last_proposed p) (pr_outcomes p) (pr_headers p) (pr_headers_open p) (pr_round p) (pr_round_updates p) (pr_last_parents p)
  (pr_last_leader p) ds m (pr_advance p) (pr_latest_header p) (pr_max_timer p) (pr_min_timer p).
Definition pr_set_advance (b : bool) := mkProposer (pr_last_proposed p) (pr_outcomes p) (pr_headers p)
  (pr_headers_open p) (pr_round p) (pr_round_updates p) (pr_last_parents p) (pr_last_leader p) (pr_digests p) (pr_proposed p)
  b (pr_latest_header p) (pr_max_timer p) (pr_min_timer p).
Definition pr_set_latest (h : Header) := mkProposer (pr_last_proposed p) (pr_outcomes p) (pr_headers p)
  (pr_headers_open p) (pr_round p) (pr_round_updates p) (pr_last_parents p) (pr_last_leader p) (pr_digests p) (pr_proposed p)
  (pr_advance p) (Some h) (pr_max_timer p) (pr_min_timer p).
Definition pr_set_timers (max min : Z) := mkProposer (pr_last_proposed p) (pr_outcomes p) (pr_headers p)
  (pr_headers_open p) (pr_round p) (pr_round_updates p) (pr_last_parents p) (pr_last_leader p) (pr_digests p) (pr_proposed p)
  (pr_advance p) (pr_latest_header p) max min.
End updates.

(** ** Collections *)

(** [IndexMap::insert]: a key that is there keeps its place. *)
Fixpoint index_insert (k : Z) (v : Z * Z) (l : list (Z * (Z * Z))) : list (Z * (Z * Z)) :=
  match l with
  | [] => [(k, v)]
  | (k', v') :: l' => if k' =? k then (k, v) :: l' else (k', v') :: index_insert k v l'
  end.

Definition payload_of (ds : list OurDigestMessage) : list (Z * (Z * Z)) :=
  foldl (fun l m => index_insert (od_digest m) (od_worker_id m, od_timestamp m) l) [] ds.

(** The [BTreeSet] of the digests of the parents. *)
Definition parent_set `{HeaderHash} (ps : list Certificate) : list Z :=
  (btree_iter (list_to_map ((fun x => (Certificate_digest x, tt)) <$> ps) : gmap Z unit)).*1.

Section proposer.
Context `{HeaderHash} `{Rng} (cfg : ProposerConfig).
Abbreviation ProposerM := (EM Proposer DagError).

(** ** Making headers *)

Definition write_last_proposed (h : Header) : ProposerM unit :=
  p ← em_get;
  match pr_outcomes p with
  | Err e :: outcomes => _ ← em_modify (fun p => pr_set_store p (pr_last_proposed p) outcomes); em_fail (StoreError e)
  | outcomes => em_modify (fun p => pr_set_store p (Some h) (tail outcomes))
  end.

Definition leader_and_support (round : Z) (parents : list Certificate) : option string :=
  if round mod 2 =? 0 then
    leader ← Committee_leader (pf_committee cfg) round;
    id ← Authority_id leader;
    Some (if pf_authority_id cfg =? id then "even_round_is_leader" else "even_round_not_leader")
  else
    leader ← Committee_leader (pf_committee cfg) (round -u64 1);
    id ← Authority_id leader;
    Some (if existsb (fun x => Certificate_origin x =? id) parents then "odd_round_gives_support" else "odd_round_no_support").

Definition parent_max_time (parents : list Certificate) : Z :=
  foldl (fun t x => Z.max t (he_created_at (ce_header x))) 0 parents.

(** The proposer sleeps until the largest time of its parents. *)
Definition create_new_header (now : Z) : ProposerM Header :=
  p ← em_get;
  let this_round := pr_round p in
  let this_epoch := cm_epoch (pf_committee cfg) in
  match (last_header ← pr_last_proposed p;
         if (he_round last_header =? this_round) && (he_epoch last_header =? this_epoch) then Some last_header else None) with
  | Some last_header => _ ← em_modify (fun p => pr_set_parents p []); mret last_header
  | None =>
      let num_of_digests := Z.to_nat (Z.min (Z.of_nat (length (pr_digests p))) (pf_max_batches cfg)) in
      let header_digests := take num_of_digests (pr_digests p) in
      let parents := pr_last_parents p in
      let header := mkHeader (pf_authority_id cfg) this_round this_epoch (Z.max now (parent_max_time parents))
                      (payload_of header_digests) (parent_set parents) in
      _ ← em_lift (leader_and_support this_round parents);
      _ ← em_modify (fun p => pr_set_batches (pr_set_parents p []) (drop num_of_digests (pr_digests p))
                                (<[this_round := (header, header_digests)]> (pr_proposed p)));
      mret header
  end.

Definition make_header (now : Z) : ProposerM Header :=
  header ← create_new_header now;
  _ ← write_last_proposed header;
  p ← em_get;
  _ ← ensure (pr_headers_open p) ShuttingDown;
  _ ← em_modify (fun p => pr_send_header p header);
  mret header.

(** ** Delays *)

Definition max_delay (round : Z) : option Z :=
  leader ← Committee_leader (pf_committee cfg) (round +u64 1);
  id ← Authority_id leader;
  Some (if id =? pf_authority_id cfg then pf_max_header_delay cfg / 2 else pf_max_header_delay cfg).

Definition min_delay (round : Z) : option Z :=
  if 1 <? Committee_size (pf_committee cfg) then
    leader ← Committee_leader (pf_committee cfg) (round +u64 1);
    id ← Authority_id leader;
    Some (if id =? pf_authority_id cfg then 0 else pf_min_header_delay cfg)
  else Some (pf_min_header_delay cfg).

(** ** Advancing *)

Definition update_leader (p : Proposer) : option (Proposer * bool) :=
  leader ← LeaderSchedule_leader (pf_schedule cfg) (pr_round p);
  id ← Authority_id leader;
  let found := List.find (fun x => Certificate_origin x =? id) (pr_last_parents p) in
  Some (pr_set_leader p found, match found with Some _ => true | None => false end).

(** The stake of the last parents that vote for the leader, and of the others. *)
Definition count_votes (leader : Z) (parents : list Certificate) : Z * Z :=
  foldl (fun (v : Z * Z) x =>
      let stake := stake_by_id (pf_committee cfg) (Certificate_origin x) in
      if has_parent x leader then (v.1 +u64 stake, v.2) else (v.1, v.2 +u64 stake))
    (0, 0) parents.

Definition enough_votes (p : Proposer) : option bool :=
  next ← LeaderSchedule_leader (pf_schedule cfg) (pr_round p +u64 1);
  id ← Authority_id next;
  if id =? pf_authority_id cfg then Some true
  else match pr_last_leader p with
  | None => Some true
  | Some leader =>
      let '(votes_for_leader, no_votes) := count_votes (Certificate_digest leader) (pr_last_parents p) in
      Some ((cm_validity_threshold (pf_committee cfg) <=? votes_for_leader) || (cm_quorum_threshold (pf_committee cfg) <=? no_votes))
  end.

Definition Proposer_ready (p : Proposer) : option (Proposer * bool) :=
  if pr_round p mod 2 =? 0 then update_leader p
  else b ← enough_votes p; Some (p, b).

(** ** The main loop *)

Definition should_create_header (now : Z) (p : Proposer) : bool :=
  let enough_parents := negb (bool_decide (pr_last_parents p = [])) in
  let enough_digests := pf_batches_threshold cfg <=? Z.of_nat (length (pr_digests p)) in
  let max_delay_timed_out := pr_max_timer p <=? now in
  let min_delay_timed_out := pr_min_timer p <=? now in
  (max_delay_timed_out || ((enough_digests || min_delay_timed_out) && pr_advance p)) && enough_parents.

(** A header that cannot be made panics unless the node shuts down. *)
Definition save_header (now : Z) : ProposerM unit := fun p =>
  match make_header now p with
  | Some (p, Ok header) => Some (pr_set_latest p header, Ok tt)
  | Some (p, Err ShuttingDown) => Some (p, Ok tt)
  | _ => None
  end.

(** The head of the loop: whether a header was made. *)
Definition propose_next (now : Z) : ProposerM bool :=
  p ← em_get;
  if should_create_header now p then
    _ ← em_modify (fun p => pr_set_round p (pr_round p +u64 1));
    _ ← save_header now;
    _ ← em_modify (fun p => pr_set_advance p false);
    p ← em_get;
    max ← em_lift (max_delay (pr_round p));
    min ← em_lift (min_delay (pr_round p));
    _ ← em_modify (fun p => pr_set_timers p (now + max) (now + min));
    mret true
  else mret false.

Definition resend_header : ProposerM unit :=
  em_modify (fun p => match pr_latest_header p with
                      | Some header => if pr_headers_open p then pr_send_header p header else p
                      | None => p
                      end).

(** The headers up to the last committed round that were not committed give their
    batches back, oldest round first. *)
Definition committed_own_headers (commit_headers : list Z) : ProposerM unit :=
  em_modify (fun p =>
    let max_committed_round := foldl Z.max 0 commit_headers in
    let proposed := foldl (fun m r => delete r m) (pr_proposed p) commit_headers in
    let retransmit := List.filter (fun e : Z * (Header * list OurDigestMessage) => e.1 <=? max_committed_round) (btree_iter proposed) in
    if bool_decide (retransmit = []) then pr_set_batches p (pr_digests p) proposed
    else pr_set_batches p (concat ((fun e : Z * (Header * list OurDigestMessage) => e.2.2) <$> retransmit) ++ pr_digests p)
           (foldl (fun m (e : Z * (Header * list OurDigestMessage)) => delete e.1 m) proposed retransmit)).

Definition receive_parents (now : Z) (parents : list Certificate) (round epoch : Z) : ProposerM unit :=
  p ← em_get;
  if negb (epoch =? cm_epoch (pf_committee cfg)) then mret tt
  else if round <? pr_round p then mret tt
  else
    _ ← (if pr_round p <? round then
           _ ← em_modify (fun p => pr_set_advance (pr_set_parents (pr_set_round p round) parents) false);
           max ← em_lift (max_delay round);
           em_modify (fun p => pr_set_timers p (now + max) now)
         else em_modify (fun p => pr_set_parents p (pr_last_parents p ++ parents)));
    p ← em_get;
    '(p, advance) ← em_lift (Proposer_ready p);
    em_modify (fun _ => pr_set_advance p advance).

Definition receive_digest (m : OurDigestMessage) : ProposerM unit :=
  em_modify (fun p => pr_set_batches p (pr_digests p ++ [m]) (pr_proposed p)).

(** The start, at round 0 with the genesis certificates as parents. *)
Definition Proposer_spawn `{Signatures} (now genesis_time : Z) (last_proposed : option Header) (outcomes : list (Result unit string)) :
    option Proposer :=
  genesis ← Certificate_genesis genesis_time (pf_committee cfg);
  Some (mkProposer last_proposed outcomes [] true 0 [] genesis None [] ∅ true None
          (now + pf_max_header_delay cfg) (now + pf_min_header_delay cfg)).
End proposer.
