(* ===== verification/ProposerProps.v ===== *)
(** * What the proposer promises

    In one run the proposer sends at most one header per round
    ([proposer_one_header_per_round]) and loses no batch: a digest it was given is
    waiting, in a header that is not committed yet, or in a committed one
    ([proposer_keeps_batches]).  The protection does not survive a restart:
    [restart_equivocates]. *)

From S2P Require Import Prelude Committee DagTypes ConsensusCore ConsensusSample ConsensusSafe Certification SignatureSample Proposer.
Local Open Scope Z_scope.
Local Open Scope chase_scope.

(** ** Events *)

Inductive ProposerEvent :=
  | ProposeNext (now : Z)
  | ResendHeader
  | CommittedOwnHeaders (rounds : list Z)
  | ReceiveParents (now : Z) (parents : list Certificate) (round epoch : Z)
  | ReceiveDigest (m : OurDigestMessage).

Section events.
Context `{HeaderHash} `{Rng} (cfg : ProposerConfig).

Definition proposer_event (ev : ProposerEvent) : EM Proposer DagError unit :=
  match ev with
  | ProposeNext now => _ ← propose_next cfg now; mret tt
  | ResendHeader => resend_header
  | CommittedOwnHeaders rounds => committed_own_headers rounds
  | ReceiveParents now parents round epoch => receive_parents cfg now parents round epoch
  | ReceiveDigest m => receive_digest m
  end.

(** The rounds stay below the largest number. *)
Definition round_allowed (ev : ProposerEvent) (p : Proposer) : Prop :=
  match ev with
  | ProposeNext _ => pr_round p < u64_modulus - 1
  | ReceiveParents _ _ round _ => 0 <= round < u64_modulus
  | _ => True
  end.

Definition batches_of (m : gmap Z (Header * list OurDigestMessage)) : list OurDigestMessage :=
  concat ((fun e : Z * (Header * list OurDigestMessage) => e.2.2) <$> map_to_list m).

(** The batches in the committed headers that the event reports. *)
Definition committed_batches (ev : ProposerEvent) (p : Proposer) : list OurDigestMessage :=
  match ev with
  | CommittedOwnHeaders rounds =>
      batches_of (filter (fun e : Z * (Header * list OurDigestMessage) => e.1 ∈ rounds) (pr_proposed p))
  | _ => []
  end.

Definition received_batches (ev : ProposerEvent) : list OurDigestMessage :=
  match ev with ReceiveDigest m => [m] | _ => [] end.

(** A run: the state, the batches received and those committed. *)
Inductive proposer_run (p0 : Proposer) : Proposer -> list OurDigestMessage -> list OurDigestMessage -> Prop :=
  | run_start : proposer_run p0 p0 [] []
  | run_event p received committed ev p' r :
      proposer_run p0 p received committed -> round_allowed ev p -> proposer_event ev p = Some (p', r) ->
      proposer_run p0 p' (received ++ received_batches ev) (committed ++ committed_batches ev p).
End events.

(** ** The invariant *)

Section invariant.
Context `{HH : HeaderHash} `{HR : Rng} (cfg : ProposerConfig).

Definition tracked (p : Proposer) : list OurDigestMessage := pr_digests p ++ batches_of (pr_proposed p).

Record proposer_ok (p : Proposer) : Prop := {
  pk_round : 0 <= pr_round p < u64_modulus;
  pk_proposed r e : pr_proposed p !! r = Some e -> r <= pr_round p;
  pk_headers h : h ∈ pr_headers p -> he_round h <= pr_round p;
  pk_unique h h' : h ∈ pr_headers p -> h' ∈ pr_headers p -> he_round h = he_round h' -> h = h';
  pk_latest h : pr_latest_header p = Some h -> h ∈ pr_headers p
}.

Lemma batches_of_insert m r h ds : m !! r = None -> batches_of (<[r := (h, ds)]> m) ≡ₚ ds ++ batches_of m.
Proof. intros Hr. unfold batches_of. rewrite map_to_list_insert by done. done. Qed.

(** Making a header in a round without one. *)
Record made (p p' : Proposer) (h : Header) : Prop := {
  md_round : pr_round p' = pr_round p;
  md_header : he_round h = pr_round p;
  md_proposed : pr_proposed p' = pr_proposed p ∨ exists ds, pr_proposed p' = <[pr_round p := (h, ds)]> (pr_proposed p);
  md_tracked : pr_proposed p !! pr_round p = None -> tracked p' ≡ₚ tracked p;
  md_headers : pr_headers p' = pr_headers p;
  md_latest : pr_latest_header p' = pr_latest_header p;
  md_last : pr_last_proposed p' = pr_last_proposed p;
  md_author : he_author h = pf_authority_id cfg ∨ pr_last_proposed p = Some h;
  md_cleared : pr_last_parents p' = [];
  md_new : (exists t payload, h = mkHeader (pf_authority_id cfg) (pr_round p) (cm_epoch (pf_committee cfg)) t payload
      (parent_set (pr_last_parents p))) ∨ pr_last_proposed p = Some h
}.

Lemma create_made now p p' h : create_new_header cfg now p = Some (p', Ok h) -> made p p' h.
Proof.
  unfold create_new_header. intros Hc. em_pure Hc.
  destruct (last_header ← _; _) as [last|] eqn:E.
  - em_pure Hc. injection Hc as <- <-. destruct (pr_last_proposed p) as [last'|] eqn:Elast; [|done]. simpl in E.
    destruct (Z.eqb_spec (he_round last') (pr_round p)) as [Hr|]; [|done]. simpl in E. destruct (_ =? _); [|done]. injection E as <-.
    split; try done; [by left|by right..].
  - em_value Hc as l Hl. em_pure Hc. injection Hc as <- <-. split; simpl; try done; [right; by eexists| |by left|left; by eexists _, _].
    intros Hnone. unfold tracked. simpl. rewrite batches_of_insert by done.
    rewrite (assoc_L (++)), (comm (++) (drop _ _)). by rewrite take_drop.
Qed.

Lemma create_no_error now p p' e : create_new_header cfg now p <> Some (p', Err e).
Proof.
  unfold create_new_header. intros Hc. em_pure Hc. destruct (last_header ← _; _) as [last|].
  - by em_pure Hc.
  - em_value Hc as l Hl. by em_pure Hc.
Qed.

(** What [save_header] leaves: a header of the current round was sent, or none. *)
Lemma save_header_spec now p p' r : save_header cfg now p = Some (p', r) ->
  exists p1 h, made p p1 h ∧ pr_round p' = pr_round p ∧ pr_proposed p' = pr_proposed p1 ∧ pr_digests p' = pr_digests p1 ∧
    ((pr_headers p' = pr_headers p ++ [h] ∧ pr_latest_header p' = Some h) ∨
     (pr_headers p' = pr_headers p ∧ pr_latest_header p' = pr_latest_header p)) ∧
    (pr_last_proposed p' = Some h ∨ pr_last_proposed p' = pr_last_proposed p) ∧ pr_last_parents p' = [].
Proof.
  unfold save_header. destruct (make_header cfg now p) as [[q [h|e]]|] eqn:Hm; [| |done].
  - intros [= <- _]. unfold make_header in Hm.
    apply em_bind_inv in Hm as [(p1 & h1 & Hc & Hm)|(e & _ & ?)]; [|done]. apply create_made in Hc.
    apply em_bind_inv in Hm as [(p2 & [] & Hw & Hm)|(e & _ & ?)]; [|done]. em_pure Hm.
    apply em_bind_inv in Hm as [(p3 & [] & He & Hm)|(e & _ & ?)]; [|done].
    unfold ensure in He. destruct (pr_headers_open p2); [injection He as <-|done]. em_pure Hm. injection Hm as <- <-.
    unfold write_last_proposed in Hw. em_pure Hw.
    assert (exists outs, p2 = pr_set_store p1 (Some h1) outs) as (outs & ->).
    { destruct (pr_outcomes p1) as [|[]]; [injection Hw as <-; eauto..|]. by em_pure Hw. }
    exists p1, h1. split; [done|]. simpl. destruct Hc. split_and!; [done..| |by left|done]. left. split; congruence.
  - destruct e; try done. intros [= <- _]. unfold make_header in Hm.
    apply em_bind_inv in Hm as [(p1 & h1 & Hc & Hm)|(e & Hc & _)]; [|by apply create_no_error in Hc]. apply create_made in Hc.
    apply em_bind_inv in Hm as [(p2 & [] & Hw & Hm)|(e & Hw & He)].
    + em_pure Hm. apply em_bind_inv in Hm as [(p3 & [] & He & Hm)|(e & He & _)]; [by em_pure Hm|].
      unfold ensure in He. destruct (pr_headers_open p2); [done|]. injection He as <- <-.
      unfold write_last_proposed in Hw. em_pure Hw.
      assert (exists outs, p2 = pr_set_store p1 (Some h1) outs) as (outs & ->).
      { destruct (pr_outcomes p1) as [|[]]; [injection Hw as <-; eauto..|]. by em_pure Hw. }
      exists p1, h1. split; [done|]. simpl. destruct Hc. split_and!; [done..| |by left|done]. right. split; congruence.
    + unfold write_last_proposed in Hw. em_pure Hw. destruct (pr_outcomes p1) as [|[]]; [done..|]. em_pure Hw. injection Hw as _ <-. done.
Qed.

(** What an event does to the invariant and to the batches. *)
Definition event_keeps (p p' : Proposer) (received committed : list OurDigestMessage) : Prop :=
  proposer_ok p' ∧ tracked p ++ received ≡ₚ tracked p' ++ committed.

Lemma keeps_same p p' :
  proposer_ok p -> pr_round p <= pr_round p' < u64_modulus -> pr_proposed p' = pr_proposed p -> pr_digests p' = pr_digests p ->
  pr_headers p' = pr_headers p -> pr_latest_header p' = pr_latest_header p -> event_keeps p p' [] [].
Proof.
  intros [Hr Hp Hh Hu Hl] Hle Hp' Hd' Hh' Hl'. split; [|unfold tracked; by rewrite Hp', Hd', !app_nil_r].
  split; rewrite ?Hp', ?Hh', ?Hl'; [lia| | |done|done].
  - intros r e He. specialize (Hp r e He). lia.
  - intros h He. specialize (Hh h He). lia.
Qed.

Lemma propose_keeps now p p' r : proposer_ok p -> pr_round p < u64_modulus - 1 -> propose_next cfg now p = Some (p', r) -> event_keeps p p' [] [].
Proof.
  intros Hok Hlt Hp. pose proof Hok as [Hr Hpr Hh Hu Hl]. unfold propose_next in Hp. em_pure Hp. destruct (should_create_header _ _ _).
  2: { injection Hp as <- _. apply keeps_same; try done; lia. }
  em_pure Hp. rewrite u64_add_small in Hp by lia. set (p1 := pr_set_round p (pr_round p + 1)) in Hp.
  assert (exists p2 r2, save_header cfg now p1 = Some (p2, r2) ∧ pr_round p' = pr_round p2 ∧ pr_proposed p' = pr_proposed p2 ∧
    pr_digests p' = pr_digests p2 ∧ pr_headers p' = pr_headers p2 ∧ pr_latest_header p' = pr_latest_header p2)
    as (p2 & r2 & Hs & Hr' & Hp' & Hd' & Hh' & Hl').
  { apply em_bind_inv in Hp as [(p2 & [] & Hs & Hp)|(e & Hs & _)]; [|by exists p', (Err e)]. exists p2, (Ok tt). split; [done|].
    em_pure Hp. em_pure Hp. em_value Hp as mx Hmx. em_value Hp as mn Hmn. em_pure Hp. by injection Hp as <- _. }
  apply save_header_spec in Hs as (q & h & [Hqr Hqh Hqp Hqt Hqs Hql _ _ _ _] & Hr2 & Hp2 & Hd2 & Hcase & _).
  assert (pr_proposed p1 !! pr_round p1 = None) as Hnone.
  { apply eq_None_not_Some. intros [e He]. specialize (Hpr _ _ He). simpl in Hpr. lia. }
  simpl in *. split.
  - assert (forall h', h' ∈ pr_headers p' -> h' ∈ pr_headers p ∨ h' = h) as Hin.
    { intros h'. rewrite Hh'. destruct Hcase as [[-> _]|[-> _]]; [|by auto]. intros [?|?%list_elem_of_singleton]%elem_of_app; auto. }
    split.
    + lia.
    + intros k e. rewrite Hp', Hp2, Hr', Hr2. destruct Hqp as [->|[ds ->]]; [intros He; specialize (Hpr _ _ He); lia|].
      rewrite lookup_insert_Some. intros [[<- _]|[_ He]]; [lia|]. specialize (Hpr _ _ He). lia.
    + intros h' [Hh1| ->]%Hin; [specialize (Hh _ Hh1)|]; lia.
    + intros h1 h2 [H1| ->]%Hin [H2| ->]%Hin; [by apply Hu|specialize (Hh _ H1); lia|specialize (Hh _ H2); lia|done].
    + intros h'. rewrite Hl', Hh'. destruct Hcase as [[-> ->]|[-> ->]]; [intros [= <-]; apply elem_of_app; right; by left|by apply Hl].
  - unfold tracked in *. rewrite !app_nil_r, Hd', Hp', Hp2, Hd2. by rewrite Hqt by done.
Qed.

(** ** The author of the headers *)

Definition proposer_own (p : Proposer) : Prop :=
  forall h, h ∈ pr_headers p ∨ pr_last_proposed p = Some h ∨ pr_latest_header p = Some h -> he_author h = pf_authority_id cfg.

Lemma own_same p p' : proposer_own p -> pr_headers p' = pr_headers p -> pr_last_proposed p' = pr_last_proposed p ->
  pr_latest_header p' = pr_latest_header p -> proposer_own p'.
Proof. unfold proposer_own. by intros Hp -> -> ->. Qed.

Lemma propose_own now p p' r : proposer_own p -> propose_next cfg now p = Some (p', r) ->
  proposer_own p' ∧ exists l, pr_headers p' = pr_headers p ++ l.
Proof.
  intros Hown Hp. unfold propose_next in Hp. em_pure Hp. destruct (should_create_header _ _ _).
  2: { injection Hp as <- _. split; [done|]. exists []. by rewrite app_nil_r. }
  em_pure Hp. set (p1 := pr_set_round p _) in Hp.
  assert (exists p2 r2, save_header cfg now p1 = Some (p2, r2) ∧ pr_headers p' = pr_headers p2 ∧ pr_latest_header p' = pr_latest_header p2 ∧
    pr_last_proposed p' = pr_last_proposed p2) as (p2 & r2 & Hs & Hh' & Hl' & Hla').
  { apply em_bind_inv in Hp as [(p2 & [] & Hs & Hp)|(e & Hs & _)]; [|by exists p', (Err e)]. exists p2, (Ok tt). split; [done|].
    em_pure Hp. em_pure Hp. em_value Hp as mx Hmx. em_value Hp as mn Hmn. em_pure Hp. by injection Hp as <- _. }
  apply save_header_spec in Hs as (q & h & [_ _ _ _ _ _ _ Hqa _ _] & _ & _ & _ & Hcase & Hlast & _). simpl in *.
  assert (he_author h = pf_authority_id cfg) as Ha by (destruct Hqa; auto). unfold proposer_own in *. rewrite Hh', Hl', Hla'.
  destruct Hcase as [[-> ->]|[-> ->]]; (split; [|eauto using app_nil_r]).
  - intros h' [[?| ->%list_elem_of_singleton]%elem_of_app|[Hla|[= <-]]]; [by auto|done| |done]. destruct Hlast as [Hls|Hls]; [congruence|].
    rewrite Hls in Hla. auto.
  - intros h' [?|[Hla|?]]; [by auto| |by auto]. destruct Hlast as [Hls|Hls]; [congruence|]. rewrite Hls in Hla. auto.
Qed.

Lemma delete_all_lookup {A} (l : list Z) (m : gmap Z A) r : foldl (fun m r => delete r m) m l !! r = if decide (r ∈ l) then None else m !! r.
Proof.
  revert m. induction l as [|k l IH]; intros m; simpl; [done|]. rewrite IH.
  destruct (decide (r ∈ l)) as [Hin|Hin]; [by rewrite decide_True by by right|].
  destruct (decide (r = k)) as [->|Hne]; [rewrite decide_True by (by left); by rewrite lookup_delete_eq|].
  rewrite lookup_delete_ne by done. rewrite decide_False; [done|]. intros [?|?]%elem_of_cons; done.
Qed.

Lemma delete_all_filter {A} (l : list Z) (m : gmap Z A) : foldl (fun m r => delete r m) m l = filter (fun e : Z * A => e.1 ∉ l) m.
Proof.
  apply map_eq. intros r. rewrite delete_all_lookup. destruct (decide (r ∈ l)) as [Hin|Hin].
  - symmetry. apply map_lookup_filter_None. right. intros x _ Hn. by apply Hn.
  - destruct (m !! r) as [x|] eqn:E; symmetry; [by apply map_lookup_filter_Some|]. apply map_lookup_filter_None. by left.
Qed.

(** The batches of a map split along a predicate on rounds. *)
Lemma batches_of_split (P : Z * (Header * list OurDigestMessage) -> Prop) `{!forall e, Decision (P e)} m :
  batches_of m ≡ₚ batches_of (filter P m) ++ batches_of (filter (fun e => ~ P e) m).
Proof.
  induction m as [|r [h ds] m Hr IH] using map_ind; [by rewrite !map_filter_empty|].
  assert (forall Q : Z * (Header * list OurDigestMessage) -> Prop, forall HQ : (forall e, Decision (Q e)), filter Q m !! r = None) as Hnone.
  { intros Q HQ. apply map_lookup_filter_None. by left. }
  rewrite batches_of_insert, IH by done. destruct (decide (P (r, (h, ds)))) as [HP|HP].
  - rewrite map_filter_insert_True by done. rewrite (map_filter_insert_False (fun e => ~ P e)) by tauto.
    rewrite delete_id by done. rewrite batches_of_insert by done. by rewrite (assoc_L (++)).
  - rewrite map_filter_insert_False by done. rewrite (map_filter_insert_True (fun e => ~ P e)) by done.
    rewrite delete_id by done. rewrite batches_of_insert by done. solve_Permutation.
Qed.

Abbreviation rows_up_to M m := (List.filter (fun e : Z * (Header * list OurDigestMessage) => e.1 <=? M) (btree_iter m)).

Lemma elem_of_rows_up_to M m e : e ∈ rows_up_to M m <-> m !! e.1 = Some e.2 ∧ e.1 <= M.
Proof.
  rewrite list_elem_of_In, filter_In, <- list_elem_of_In, Z.leb_le. destruct e as [r e]. by rewrite elem_of_btree_iter.
Qed.

Lemma batches_of_rows M m :
  batches_of (filter (fun e : Z * (Header * list OurDigestMessage) => e.1 <= M) m)
  ≡ₚ concat ((fun e : Z * (Header * list OurDigestMessage) => e.2.2) <$> rows_up_to M m).
Proof.
  unfold batches_of. assert (map_to_list (filter (fun e : Z * (Header * list OurDigestMessage) => e.1 <= M) m) ≡ₚ rows_up_to M m) as ->; [|done].
  apply NoDup_Permutation.
  - apply NoDup_map_to_list.
  - apply NoDup_ListNoDup, List.NoDup_filter, NoDup_ListNoDup. apply (NoDup_fmap_1 fst), btree_iter_NoDup.
  - intros [r e]. rewrite elem_of_map_to_list, elem_of_rows_up_to, map_lookup_filter_Some. done.
Qed.

Lemma delete_rows M m :
  foldl (fun m (e : Z * (Header * list OurDigestMessage)) => delete e.1 m) m (rows_up_to M m)
  = filter (fun e : Z * (Header * list OurDigestMessage) => ~ e.1 <= M) m.
Proof.
  assert (forall l (m : gmap Z (Header * list OurDigestMessage)),
    foldl (fun m (e : Z * (Header * list OurDigestMessage)) => delete e.1 m) m l = foldl (fun m r => delete r m) m l.*1) as ->.
  { induction l as [|e l IH]; intros m'; simpl; [done|]. apply IH. }
  apply map_eq. intros r. rewrite delete_all_lookup. destruct (m !! r) as [e|] eqn:E.
  - destruct (decide (r <= M)) as [Hle|Hle].
    + rewrite decide_True; [|by apply (list_elem_of_fmap_2' _ _ (r, e)); [apply elem_of_rows_up_to|]].
      symmetry. apply map_lookup_filter_None. right. intros x _ Hn. by apply Hn.
    + rewrite decide_False; [by symmetry; apply map_lookup_filter_Some|].
      intros (e' & -> & [_ ?]%elem_of_rows_up_to)%list_elem_of_fmap. done.
  - rewrite (proj2 (map_lookup_filter_None _ _ _)) by by left. by destruct (decide _).
Qed.

Lemma committed_keeps rounds p : proposer_ok p ->
  exists p', committed_own_headers rounds p = Some (p', Ok tt) ∧
    event_keeps p p' [] (batches_of (filter (fun e : Z * (Header * list OurDigestMessage) => e.1 ∈ rounds) (pr_proposed p))).
Proof.
  intros Hok. eexists. split; [done|]. pose proof Hok as [Hr Hp Hh Hu Hl]. cbn zeta. rewrite delete_all_filter.
  set (m := filter (fun e : Z * (Header * list OurDigestMessage) => e.1 ∉ rounds) (pr_proposed p)).
  set (com := batches_of (filter _ _)). set (M := foldl Z.max 0 rounds).
  assert (batches_of (pr_proposed p) ≡ₚ com ++ batches_of m) as Hsplit by apply batches_of_split.
  assert (forall r e, m !! r = Some e -> r <= pr_round p) as Hm.
  { intros r e [He _]%map_lookup_filter_Some. by eapply Hp. }
  case_bool_decide as Hrow; (split; [split; simpl; try done|]).
  - unfold tracked. simpl. rewrite Hsplit. solve_Permutation.
  - rewrite delete_rows. intros r e [He _]%map_lookup_filter_Some. by eapply Hm.
  - unfold tracked. simpl. rewrite Hsplit, delete_rows.
    rewrite (batches_of_split (fun e : Z * (Header * list OurDigestMessage) => e.1 <= M) m), batches_of_rows. solve_Permutation.
Qed.

Lemma ready_same p p' b : Proposer_ready cfg p = Some (p', b) ->
  pr_round p' = pr_round p ∧ pr_proposed p' = pr_proposed p ∧ pr_digests p' = pr_digests p ∧ pr_headers p' = pr_headers p ∧
  pr_latest_header p' = pr_latest_header p ∧ pr_last_proposed p' = pr_last_proposed p ∧ pr_last_parents p' = pr_last_parents p.
Proof.
  unfold Proposer_ready, update_leader. destruct (_ =? 0).
  - destruct (LeaderSchedule_leader _ _); [|done]. simpl. destruct (Authority_id _); [|done]. simpl. by intros [= <- _].
  - destruct (enough_votes cfg p); [|done]. simpl. by intros [= <- _].
Qed.

Lemma parents_keeps now parents round epoch p p' r : proposer_ok p -> 0 <= round < u64_modulus ->
  receive_parents cfg now parents round epoch p = Some (p', r) -> event_keeps p p' [] [].
Proof.
  intros Hok Hround Hp. pose proof (pk_round _ Hok) as Hr. unfold receive_parents in Hp. em_pure Hp.
  destruct (negb _); [injection Hp as <- _; apply keeps_same; try done; lia|].
  destruct (Z.ltb_spec round (pr_round p)); [injection Hp as <- _; apply keeps_same; try done; lia|].
  assert (exists q, pr_round p <= pr_round q < u64_modulus ∧ pr_proposed q = pr_proposed p ∧ pr_digests q = pr_digests p ∧
    pr_headers q = pr_headers p ∧ pr_latest_header q = pr_latest_header p ∧
    (q' ← em_get; '(q', b) ← em_lift (Proposer_ready cfg q'); em_modify (fun _ => pr_set_advance q' b)) q = Some (p', r))
    as (q & Hq & H1 & H2 & H3 & H4 & Hq').
  { apply em_bind_inv in Hp as [(q & [] & Hm & Hp)|(e & Hm & _)].
    - exists q. destruct (Z.ltb_spec (pr_round p) round).
      + em_pure Hm. em_value Hm as mx Hmx. injection Hm as <-. simpl. split_and!; try done; lia.
      + injection Hm as <-. simpl. split_and!; try done; lia.
    - destruct (_ <? _); [|done]. em_pure Hm. by em_value Hm as mx Hmx. }
  em_pure Hq'. apply em_bind_inv in Hq' as [(q1 & [q2 b] & Hm & Hq')|(e & Hm & _)]; [|by apply em_lift_inv in Hm as (? & _ & _ & ?)].
  apply em_lift_inv in Hm as (? & Hready & -> & [= <-]). apply ready_same in Hready as (G1 & G2 & G3 & G4 & G5 & _).
  injection Hq' as <- _. apply keeps_same; simpl; try congruence; lia.
Qed.

Lemma event_keeps_ok ev p p' r : proposer_ok p -> round_allowed ev p -> proposer_event cfg ev p = Some (p', r) ->
  event_keeps p p' (received_batches ev) (committed_batches ev p).
Proof.
  intros Hok Hall Hev. destruct ev as [now| |rounds|now parents round epoch|m]; simpl in *.
  - apply em_bind_inv in Hev as [(q & b & Hq & Hev)|(e & Hq & _)]; [injection Hev as <- _|]; by eapply propose_keeps.
  - injection Hev as <- _. pose proof Hok as [Hr Hp Hh Hu Hl]. destruct (pr_latest_header p) as [h|] eqn:El.
    2: { apply keeps_same; try done; lia. }
    destruct (pr_headers_open p); [|apply keeps_same; try done; lia]. specialize (Hl h eq_refl).
    assert (forall h', h' ∈ pr_headers p ++ [h] -> h' ∈ pr_headers p) as Hin.
    { by intros h' [?| ->%list_elem_of_singleton]%elem_of_app. }
    split; [|unfold tracked; by rewrite !app_nil_r]. split; simpl; [done|done|by eauto|by eauto|].
    rewrite El. intros h' [= <-]. apply elem_of_app. by left.
  - destruct (committed_keeps rounds p Hok) as (q & Hq & Hk). rewrite Hev in Hq. by injection Hq as -> _.
  - by eapply parents_keeps.
  - injection Hev as <- _. split; [by destruct Hok|]. unfold tracked. simpl. solve_Permutation.
Qed.

Lemma parents_own now parents round epoch p p' r : proposer_own p -> receive_parents cfg now parents round epoch p = Some (p', r) ->
  proposer_own p' ∧ pr_headers p' = pr_headers p.
Proof.
  intros Hown Hp. unfold receive_parents in Hp. em_pure Hp. destruct (negb _); [by injection Hp as <- _|].
  destruct (_ <? _); [by injection Hp as <- _|].
  apply em_bind_inv in Hp as [(q & [] & Hm & Hp)|(e & Hm & _)].
  2: { destruct (_ <? _); [|done]. em_pure Hm. by em_value Hm as mx Hmx. }
  assert (pr_headers q = pr_headers p ∧ pr_latest_header q = pr_latest_header p ∧ pr_last_proposed q = pr_last_proposed p) as (H1 & H2 & H3).
  { destruct (_ <? _); [em_pure Hm; em_value Hm as mx Hmx|]; by injection Hm as <-. }
  em_pure Hp. apply em_bind_inv in Hp as [(q1 & [q2 b] & Hm' & Hp)|(e & Hm' & _)]; [|by apply em_lift_inv in Hm' as (? & _ & _ & ?)].
  apply em_lift_inv in Hm' as (? & Hready & -> & [= <-]). apply ready_same in Hready as (_ & _ & _ & G1 & G2 & G3 & _).
  injection Hp as <- _. simpl. split; [apply (own_same p); [done|simpl; congruence..]|congruence].
Qed.

Lemma event_own ev p p' r : proposer_own p -> proposer_event cfg ev p = Some (p', r) ->
  proposer_own p' ∧ exists l, pr_headers p' = pr_headers p ++ l.
Proof.
  intros Hown Hev. assert (forall q, pr_headers q = pr_headers p -> exists l, pr_headers q = pr_headers p ++ l) as Hsame.
  { intros q ->. exists []. by rewrite app_nil_r. }
  destruct ev as [now| |rounds|now parents round epoch|m]; simpl in *.
  - apply em_bind_inv in Hev as [(q & b & Hq & Hev)|(e & Hq & _)]; [injection Hev as <- _|]; by eapply propose_own.
  - injection Hev as <- _. destruct (pr_latest_header p) as [h|] eqn:El; [|by auto]. destruct (pr_headers_open p); [|by auto].
    split; [|by eexists]. intros h'. simpl. rewrite elem_of_app, list_elem_of_singleton, El.
    intros [[?| ->]|[?|[= <-]]]; apply Hown; auto.
  - injection Hev as <- _. cbn zeta. case_bool_decide; (split; [by apply (own_same p)|by apply Hsame]).
  - apply parents_own in Hev as [? ?]; auto.
  - injection Hev as <- _. split; [by apply (own_same p)|by apply Hsame].
Qed.

Lemma run_keeps p0 p received committed : proposer_ok p0 -> tracked p0 = [] -> proposer_run cfg p0 p received committed ->
  proposer_ok p ∧ received ≡ₚ tracked p ++ committed.
Proof.
  intros H0 Ht. induction 1 as [|p received committed ev p' r _ [IH Hp] Hall Hev]; [by rewrite Ht|].
  destruct (event_keeps_ok ev p p' r IH Hall Hev) as [Hok Hk]. split; [done|].
  rewrite Hp, <- (assoc_L (++)), (comm (++) committed (received_batches ev)), (assoc_L (++)), Hk. solve_Permutation.
Qed.

Lemma spawn_ok `{Signatures} now genesis_time last outcomes p0 :
  Proposer_spawn cfg now genesis_time last outcomes = Some p0 -> proposer_ok p0 ∧ tracked p0 = [].
Proof.
  unfold Proposer_spawn. destruct (Certificate_genesis _ _); [|done]. simpl. intros [= <-]. split; [|done].
  split; simpl; [done|by intros r e ?%lookup_empty_Some|by intros h ?%not_elem_of_nil|by intros h h' ?%not_elem_of_nil|done].
Qed.
End invariant.

(** C16. The proposer protects against equivocation within a run: whatever it receives
    and however often it is told to send its header again, the headers it sends for one
    round are the same. *)
Theorem proposer_one_header_per_round `{HH : HeaderHash} `{HR : Rng} `{HS : Signatures} (cfg : ProposerConfig) (now genesis_time : Z)
    (last : option Header) (outcomes : list (Result unit string)) (p0 p : Proposer) (received committed : list OurDigestMessage) (h h' : Header) :
  Proposer_spawn cfg now genesis_time last outcomes = Some p0 -> proposer_run cfg p0 p received committed ->
  h ∈ pr_headers p -> h' ∈ pr_headers p -> he_round h = he_round h' -> h = h'.
Proof.
  intros Hs Hr Hh Hh'. destruct (spawn_ok cfg now genesis_time last outcomes p0 Hs) as [H0 Ht].
  destruct (run_keeps cfg p0 p _ _ H0 Ht Hr) as [Hok _]. by apply (pk_unique _ Hok).
Qed.

(** C17. No batch is lost or duplicated: the digests the proposer was given are, as often
    as it was given them, waiting for a header, in a proposed header that is not
    committed, or in one that consensus reported as committed; batches of headers that
    were passed over are proposed again. *)
Theorem proposer_keeps_batches `{HH : HeaderHash} `{HR : Rng} `{HS : Signatures} (cfg : ProposerConfig) (now genesis_time : Z)
    (last : option Header) (outcomes : list (Result unit string)) (p0 p : Proposer) (received committed : list OurDigestMessage) :
  Proposer_spawn cfg now genesis_time last outcomes = Some p0 -> proposer_run cfg p0 p received committed ->
  received ≡ₚ pr_digests p ++ batches_of (pr_proposed p) ++ committed.
Proof.
  intros Hs Hr. destruct (spawn_ok cfg now genesis_time last outcomes p0 Hs) as [H0 Ht].
  destruct (run_keeps cfg p0 p _ _ H0 Ht Hr) as [_ Hk]. rewrite Hk. unfold tracked. by rewrite (assoc_L (++)).
Qed.

(** ** Runs *)

Section play.
Context `{HH : HeaderHash} `{HR : Rng} (cfg : ProposerConfig).

#[global] Instance round_allowed_dec ev p : Decision (round_allowed ev p).
Proof. destruct ev; simpl; apply _. Defined.

Fixpoint proposer_play (evs : list ProposerEvent) (p : Proposer) : option (Proposer * list OurDigestMessage * list OurDigestMessage) :=
  match evs with
  | [] => Some (p, [], [])
  | ev :: evs' =>
      if bool_decide (round_allowed ev p) then
        match proposer_event cfg ev p with
        | Some (p', _) =>
            '(q, received, committed) ← proposer_play evs' p';
            Some (q, received_batches ev ++ received, committed_batches ev p ++ committed)
        | None => None
        end
      else None
  end.

Lemma proposer_play_run evs p0 p rec com q rec' com' :
  proposer_run cfg p0 p rec com -> proposer_play evs p = Some (q, rec', com') -> proposer_run cfg p0 q (rec ++ rec') (com ++ com').
Proof.
  revert p rec com q rec' com'. induction evs as [|ev evs IH]; intros p rec com q rec' com' Hr; simpl.
  { intros [= <- <- <-]. by rewrite !app_nil_r. }
  case_bool_decide as Hall; [|done]. destruct (proposer_event cfg ev p) as [[p' r]|] eqn:Hev; [|done].
  destruct (proposer_play evs p') as [[[q1 rec1] com1]|] eqn:Hp; [|done]. simpl. intros [= <- <- <-].
  rewrite !(assoc_L (++)). eapply IH; [|exact Hp]. by eapply run_event.
Qed.
End play.

#[local] Existing Instance full_hash.
#[local] Existing Instance plain_signatures.
#[local] Instance first_leads : Rng := rotating_rng 1.

Definition four_proposer : ProposerConfig := mkProposerConfig 0 four 1 2 100 50 (original_schedule four).

Definition batch (d : Z) : OurDigestMessage := mkOurDigest d 0 5.

(** Three batches go into headers of rounds 1 and 2; only the second header commits. *)
Definition two_rounds : list ProposerEvent :=
  [ReceiveDigest (batch 7); ReceiveDigest (batch 8); ReceiveDigest (batch 9); ProposeNext 60; ResendHeader;
   ReceiveParents 70 ((fun i => cert (header_at 1 i all_four)) <$> [1; 2; 3]) 1 0; ProposeNext 200; CommittedOwnHeaders [2]].

Definition spawned (last : option Header) : Proposer :=
  default (mkProposer None [] [] false 0 [] [] None [] ∅ false None 0 0) (Proposer_spawn four_proposer 0 0 last []).

Lemma two_rounds_run :
  exists p, proposer_run four_proposer (spawned None) p [batch 7; batch 8; batch 9] [batch 9] ∧
    he_round <$> pr_headers p = [1; 1; 2] ∧ pr_digests p = [batch 7; batch 8].
Proof.
  destruct (proposer_play four_proposer two_rounds (spawned None)) as [[[p rec] com]|] eqn:Hp; [|by vm_compute in Hp].
  assert (rec = [batch 7; batch 8; batch 9] ∧ com = [batch 9] ∧ he_round <$> pr_headers p = [1; 1; 2] ∧ pr_digests p = [batch 7; batch 8])
    as (-> & -> & Hh & Hd).
  { vm_compute in Hp. injection Hp as <- <- <-. done. }
  exists p. split; [|by split].
  exact (proposer_play_run four_proposer two_rounds (spawned None) (spawned None) [] [] p _ _ (run_start _ _) Hp).
Qed.

Lemma proposer_one_header_per_round_witness :
  exists p h h', proposer_run four_proposer (spawned None) p [batch 7; batch 8; batch 9] [batch 9] ∧
    pr_headers p !! 0%nat = Some h ∧ pr_headers p !! 1%nat = Some h' ∧ h = h'.
Proof.
  destruct two_rounds_run as (p & Hr & Hh & _). destruct (pr_headers p) as [|h [|h' l]] eqn:E; [done..|].
  exists p, h, h'. split; [exact Hr|]. rewrite E. split; [reflexivity|]. split; [reflexivity|].
  injection Hh as H1 H2 _.
  apply (proposer_one_header_per_round four_proposer 0 0 None [] (spawned None) p [batch 7; batch 8; batch 9] [batch 9] h h');
    [vm_compute; reflexivity|exact Hr|rewrite E; by left|rewrite E; by right; left|congruence].
Defined.

Lemma proposer_keeps_batches_witness :
  exists p, proposer_run four_proposer (spawned None) p [batch 7; batch 8; batch 9] [batch 9] ∧ pr_digests p = [batch 7; batch 8] ∧
    [batch 7; batch 8; batch 9] ≡ₚ pr_digests p ++ batches_of (pr_proposed p) ++ [batch 9].
Proof.
  destruct two_rounds_run as (p & Hr & _ & Hd). exists p. split; [exact Hr|]. split; [exact Hd|].
  apply (proposer_keeps_batches four_proposer 0 0 None [] (spawned None) p); [vm_compute; reflexivity|exact Hr].
Defined.

(** The protection does not survive a restart.  The proposer starts again at round 0
    and compares only with the last header it stored: a node that had proposed rounds 1
    and 2 and restarts proposes a second, different header of round 1. *)
Theorem restart_equivocates :
  exists p rec com p' rec' com' h h',
    proposer_play four_proposer two_rounds (spawned None) = Some (p, rec, com) ∧
    proposer_play four_proposer [ReceiveDigest (batch 10); ProposeNext 360] (spawned (pr_last_proposed p)) = Some (p', rec', com') ∧
    h ∈ pr_headers p ∧ h' ∈ pr_headers p' ∧
    he_round h = he_round h' ∧ he_author h = he_author h' ∧ he_epoch h = he_epoch h' ∧ h <> h'.
Proof.
  eexists _, _, _, _, _, _, _, _. split; [vm_compute; reflexivity|]. split; [vm_compute; reflexivity|].
  split; [by left|]. split; [by left|]. by vm_compute.
Qed.
