(* ===== verification/Voting.v ===== *)
(** * Voting for headers

    The handler of vote requests, [PrimaryReceiverHandler] of
    src/narwhal/primary/src/primary.rs, with the store of the last votes,
    src/narwhal/storage/src/vote_digest_store.rs.

    The handler is cut where it waits: before the parents are stored, and between
    reading the last vote and recording the new one, where it waits for the signature.
    [process_request_vote] is the whole handler when it does not wait.  The results of
    the writes to the stores of headers and votes come from a script; the result of
    fetching the batches from the workers is an argument. *)

From S2P Require Import Prelude Committee DagTypes Certification CertificateStore Synchronizer.
Local Open Scope Z_scope.
Local Open Scope chase_scope.

(** ** State *)

Record Receiver (T : Type) := mkReceiver {
  rv_sync : Synchronizer T;
  rv_headers : gmap Z Header;
  rv_votes : gmap Z VoteInfo;
  rv_parent_digests : gmap (Z * Z) Z;
  rv_narwhal_round : Z;
  rv_outcomes : list (Result unit string)
}.
Arguments mkReceiver {T}.
Arguments rv_sync {T}.
Arguments rv_headers {T}.
Arguments rv_votes {T}.
Arguments rv_parent_digests {T}.
Arguments rv_narwhal_round {T}.
Arguments rv_outcomes {T}.

Definition HEADER_AGE_LIMIT : Z := 3.
Definition TOLERANCE_MS : Z := 1000.

Inductive VoteReply :=
  | Voted (v : Vote)
  | MissingParents (digests : list Z)
  | WaitingForParents.

(** What to do with a header after the last vote was read. *)
Inductive VoteDecision :=
  | ResendVote (v : Vote)
  | CreateVote.

Section receiver.
Context `{HeaderHash} `{Signatures} `{SetIter} {T : Type} `{StoreCache T} (cfg : SyncConfig) (key : Z).
Abbreviation ReceiverM := (EM (Receiver T) DagError).

Definition rv_set_sync (r : Receiver T) (n : Synchronizer T) : Receiver T :=
  mkReceiver n (rv_headers r) (rv_votes r) (rv_parent_digests r) (rv_narwhal_round r) (rv_outcomes r).
Definition rv_set_parent_digests (r : Receiver T) (m : gmap (Z * Z) Z) : Receiver T :=
  mkReceiver (rv_sync r) (rv_headers r) (rv_votes r) m (rv_narwhal_round r) (rv_outcomes r).

Definition on_sync {A} (m : EM (Synchronizer T) DagError A) : ReceiverM A := fun r =>
  match m (rv_sync r) with
  | Some (n, x) => Some (rv_set_sync r n, x)
  | None => None
  end.

(** A write to one of the two stores. *)
Definition store_write (f : Receiver T -> Receiver T) : ReceiverM unit :=
  r ← em_get;
  let next r := mkReceiver (rv_sync r) (rv_headers r) (rv_votes r) (rv_parent_digests r) (rv_narwhal_round r) (tail (rv_outcomes r)) in
  match rv_outcomes r with
  | Err e :: _ => _ ← em_modify next; em_fail (StoreError e)
  | _ => em_modify (fun r => f (next r))
  end.

(** ** Parents *)

(** The entries below the round before the limit are dropped; a digest that another
    header asked for is not asked for again. *)
Fixpoint request_digests (round author : Z) (digests : list Z) (m : gmap (Z * Z) Z) : gmap (Z * Z) Z * list Z :=
  match digests with
  | [] => (m, [])
  | d :: digests' =>
      match m !! (round, d) with
      | Some _ => request_digests round author digests' m
      | None => let '(m, kept) := request_digests round author digests' (<[(round, d) := author]> m) in (m, d :: kept)
      end
  end.

Definition get_unknown_parent_digests (header : Header) : ReceiverM (list Z) :=
  digests ← on_sync (sync_get_unknown_parent_digests cfg header);
  r ← em_get;
  let limit_round := u64_saturating_sub (rv_narwhal_round r) HEADER_AGE_LIMIT in
  _ ← ensure (limit_round <=? he_round header) (TooOld (header_digest header) (he_round header) (rv_narwhal_round r));
  let recent := filter (fun e : Z * Z * Z => u64_saturating_sub limit_round 1 <= e.1.1) (rv_parent_digests r) in
  let '(m, kept) := request_digests (he_round header -u64 1) (he_author header) digests recent in
  _ ← em_modify (fun r => rv_set_parent_digests r m);
  mret kept.

(** The certificates that were asked of the author of the header. *)
Definition requested_parents (header : Header) (parents : list Certificate) (m : gmap (Z * Z) Z) : list Certificate :=
  List.filter (fun x => match m !! (Certificate_round x, Certificate_digest x) with
                        | Some from => from =? he_author header
                        | None => false
                        end) parents.

Definition try_accept_unknown_parents (now : Z) (header : Header) (parents : list Certificate) : ReceiverM unit :=
  r ← em_get;
  foldr (fun x rest => _ ← on_sync (try_accept_certificate cfg now x); rest) (mret tt)
    (requested_parents header parents (rv_parent_digests r)).

(** ** The request *)

(** The checks of the request itself.  [peer] is the network key of the sender. *)
Definition check_request (peer : option Z) (header : Header) (parents : list Certificate) : ReceiverM unit :=
  valid ← em_lift (Header_validate (sf_committee cfg) (sf_worker_cache cfg) header);
  _ ← em_result valid;
  let num_parents := Z.of_nat (length parents) in
  _ ← ensure (num_parents <=? Committee_size (sf_committee cfg)) (TooManyParents num_parents (Committee_size (sf_committee cfg)));
  peer ← em_result (match peer with Some k => Ok k | None => Err (NetworkError "Unable to access remote peer ID") end);
  a ← em_result (match authority_by_network_key (sf_committee cfg) peer with
                 | Some a => Ok a
                 | None => Err (NetworkError "Unable to find authority with network key")
                 end);
  id ← em_lift (Authority_id a);
  ensure (he_author header =? id) (NetworkError "Header author must match requesting peer").

(** The parents that the request has to bring along, if any. *)
Definition request_parents (now : Z) (header : Header) (parents : list Certificate) : ReceiverM (list Z) :=
  if bool_decide (parents = []) then get_unknown_parent_digests header
  else _ ← try_accept_unknown_parents now header parents; mret [].

(** The loop over the parents: all of the previous round, not newer than the header,
    by distinct authors; the result is their stake. *)
Fixpoint check_parents_loop (header : Header) (parents : list Certificate) (authorities : gset Z) (stake : Z) : Result Z DagError :=
  match parents with
  | [] => Ok stake
  | x :: parents' =>
      if negb (Certificate_round x +u64 1 =? he_round header) then Err (HeaderHasInvalidParentRoundNumbers (header_digest header))
      else if negb (he_created_at (ce_header x) <=? he_created_at header) then Err (HeaderHasInvalidParentTimestamp (header_digest header))
      else if bool_decide (Certificate_origin x ∈ authorities) then Err (HeaderHasDuplicateParentAuthorities (header_digest header))
      else check_parents_loop header parents' ({[Certificate_origin x]} ∪ authorities)
             (stake +u64 stake_by_id (sf_committee cfg) (Certificate_origin x))
  end.

Definition check_parents_quorum (header : Header) (parents : list Certificate) : Result unit DagError :=
  match check_parents_loop header parents ∅ 0 with
  | Ok stake => if cm_quorum_threshold (sf_committee cfg) <=? stake then Ok tt else Err (HeaderRequiresQuorum (header_digest header))
  | Err e => Err e
  end.

(** A header from the near future is waited for. *)
Definition check_time (now : Z) (header : Header) : Result unit DagError :=
  if now <? he_created_at header then
    if he_created_at header - now <? TOLERANCE_MS then Ok tt else Err (InvalidTimestamp (he_created_at header) now)
  else Ok tt.

(** From the parents to the decision. *)
Definition decide_vote (now : Z) (synced : Result unit DagError) (header : Header) (parents : list Certificate) : ReceiverM VoteDecision :=
  _ ← em_result (check_parents_quorum header parents);
  _ ← em_result synced;
  _ ← em_result (check_time now header);
  _ ← store_write (fun r => mkReceiver (rv_sync r) (<[header_digest header := header]> (rv_headers r)) (rv_votes r)
                              (rv_parent_digests r) (rv_narwhal_round r) (rv_outcomes r));
  r ← em_get;
  match rv_votes r !! he_author header with
  | None => mret CreateVote
  | Some vi =>
      _ ← ensure (he_epoch header =? vi_epoch vi) (InvalidEpoch (he_epoch header) (vi_epoch vi));
      _ ← ensure (vi_round vi <=? he_round header) (AlreadyVotedNewerHeader (header_digest header) (he_round header) (vi_round vi));
      if he_round header =? vi_round vi then
        let vote := Vote_new header (sf_authority_id cfg) key in
        _ ← ensure (Vote_digest vote =? vi_vote_digest vi) (AlreadyVoted (vi_vote_digest vi) (header_digest header) (he_round header));
        mret (ResendVote vote)
      else mret CreateVote
  end.

Definition vote_write (v : Vote) : ReceiverM unit :=
  store_write (fun r => mkReceiver (rv_sync r) (rv_headers r) (<[vo_origin v := VoteInfo_from v]> (rv_votes r))
                          (rv_parent_digests r) (rv_narwhal_round r) (rv_outcomes r)).

Definition record_vote (header : Header) : ReceiverM Vote :=
  let vote := Vote_new header (sf_authority_id cfg) key in
  _ ← vote_write vote;
  mret vote.

Definition process_request_vote (now : Z) (synced : Result unit DagError) (peer : option Z) (header : Header)
    (parents : list Certificate) : ReceiverM VoteReply :=
  _ ← check_request peer header parents;
  missing ← request_parents now header parents;
  if negb (bool_decide (missing = [])) then mret (MissingParents missing)
  else
    parents ← on_sync (notify_read_parent_certificates cfg header);
    match parents with
    | None => mret WaitingForParents
    | Some parents =>
        decision ← decide_vote now synced header parents;
        match decision with
        | ResendVote vote => mret (Voted vote)
        | CreateVote => vote ← record_vote header; mret (Voted vote)
        end
    end.
End receiver.
