(* ===== verification/Certifier.v ===== *)
(** * The certifier

    src/narwhal/primary/src/certifier.rs: asking the other authorities to vote for a
    header and assembling its certificate.  The answers of a peer to the repeated
    requests are a list; so are the votes in the order in which they arrive. *)

From S2P Require Import Prelude Committee DagTypes Certification CertificateStore.
Local Open Scope Z_scope.
Local Open Scope chase_scope.

(** The answer to one request. *)
Inductive VoteResponse :=
  | ResponseVote (v : Vote)
  | ResponseMissing (digests : list Z)
  | ResponseBadRequest
  | ResponseFailed.

Section certifier.
Context `{HeaderHash} `{Signatures} {T : Type} `{StoreCache T} (c : Committee).

(** ** Asking for a vote *)

(** The checks of a vote that has arrived. *)
Definition verify_vote (header : Header) (authority : Z) (vote : Vote) : Result Vote DagError :=
  if negb ((vo_header_digest vote =? header_digest header) && (vo_origin vote =? he_author header) && (vo_author vote =? authority))
  then Err (UnexpectedVote (vo_header_digest vote))
  else if negb (he_epoch header =? vo_epoch vote) then Err (InvalidEpoch (he_epoch header) (vo_epoch vote))
  else if negb (he_round header =? vo_round vote) then Err (InvalidRound (he_round header) (vo_round vote))
  else if negb (vo_epoch vote =? cm_epoch c) then Err (InvalidEpoch (cm_epoch c) (vo_epoch vote))
  else if negb (0 <? stake_by_id c (vo_author vote)) then Err (UnknownAuthority (vo_author vote))
  else Ok vote.

(** The certificates sent along with a request. *)
Definition missing_parents_of (header : Header) (missing : list Z) (s : CertificateStore T) :
    CertificateStore T * Result (list Certificate) DagError :=
  if bool_decide (missing = []) then (s, Ok [])
  else
    let '(s, found) := cs_read_all (List.filter (fun d => existsb (fun p => p =? d) (he_parents header)) missing) s in
    let parents := omap id found in
    (s, if (length parents =? length missing)%nat then Ok parents else Err ProposedHeaderMissingCertificates).

(** [None] while the peer has not answered with a vote or a final error. *)
Fixpoint request_vote (header : Header) (authority : Z) (responses : list VoteResponse) (missing : list Z) (s : CertificateStore T) :
    CertificateStore T * option (Result Vote DagError) :=
  match responses with
  | [] => (s, None)
  | response :: responses' =>
      match missing_parents_of header missing s with
      | (s, Err e) => (s, Some (Err e))
      | (s, Ok _) =>
          match response with
          | ResponseVote vote => (s, Some (verify_vote header authority vote))
          | ResponseMissing digests => request_vote header authority responses' digests s
          | ResponseBadRequest => (s, Some (Err (NetworkError "unrecoverable error requesting vote")))
          | ResponseFailed => request_vote header authority responses' [] s
          end
      end
  end.

(** ** Assembling the certificate *)

(** The loop over the results of the requests, until a certificate is formed. *)
Fixpoint collect_votes (now : Z) (header : Header) (results : list (Result Vote DagError)) (certificate : option Certificate) :
    EM VotesAggregator DagError (option Certificate) :=
  match certificate, results with
  | Some x, _ => mret (Some x)
  | None, [] => mret None
  | None, Ok vote :: results' =>
      certificate ← VotesAggregator_append now c vote header;
      collect_votes now header results' certificate
  | None, Err _ :: results' => collect_votes now header results' None
  end.

(** [stored] is the result of storing the header; a canceled proposal is one whose
    results end early.  [key] signs for the authority. *)
Definition propose_header (now : Z) (authority_id key : Z) (stored : Result unit string) (header : Header)
    (results : list (Result Vote DagError)) : option (Result Certificate DagError) :=
  if negb (he_epoch header =? cm_epoch c) then Some (Err (InvalidEpoch (cm_epoch c) (he_epoch header)))
  else match stored with
  | Err e => Some (Err (StoreError e))
  | Ok _ =>
      let run := certificate ← VotesAggregator_append now c (Vote_new header authority_id key) header;
                 collect_votes now header results certificate in
      match run VotesAggregator_new with
      | Some (_, Ok (Some x)) => Some (Ok x)
      | Some (_, Ok None) => Some (Err (CouldNotFormCertificate (header_digest header)))
      | Some (_, Err e) => Some (Err e)
      | None => None
      end
  end.
End certifier.
