(* ===== verification/CertifierProps.v ===== *)
(** * Certification in the presence of bad votes

    When all authorities have the same stake, a header gets its certificate as soon as
    correct votes with a quorum of the stake have arrived, whatever other votes arrive
    in between, as long as their signatures can be aggregated
    ([bad_votes_do_not_block]).  A vote whose signature cannot be ends the proposal
    ([unaggregated_vote_ends_proposal]).  With unequal stakes a single bad vote can
    prevent the certificate although the correct votes have a quorum
    ([bad_vote_blocks_certificate]): the votes left after the bad ones are removed are
    not tried again. *)

From S2P Require Import Prelude Committee DagTypes ConsensusSample Certification SignatureSample CertificationProps CertificateStore Certifier.
Local Open Scope Z_scope.
Local Open Scope chase_scope.

(** The authorities are indexed by their key. *)
Definition keyed (c : Committee) : Prop := forall k a, cm_authorities c !! k = Some a -> au_protocol_key a = k.

Section collect.
Context `{HH : HeaderHash} `{HS : Signatures} `{!SignatureLaws} (c : Committee) (Hc : committee_wf c) (Hkey : keyed c).
Context (s : Z) (Hstake : forall a, a ∈ Committee_authorities c -> au_stake a = s).

Abbreviation known i := (is_Some (cm_authorities_by_id c !! i)).
Lemma known_authority i : known i -> exists a, cm_authorities_by_id c !! i = Some a ∧ a ∈ Committee_authorities c ∧ au_id a = i.
Proof. intros [a Ha]. exists a. split; [done|]. split; [by eapply wf_listed|by eapply wf_by_id]. Qed.

Lemma stake_sum_cons i ids : stake_sum c (i :: ids) = stake_by_id c i + stake_sum c ids.
Proof. done. Qed.

Lemma equal_stakes ids : (forall i, i ∈ ids -> known i) -> stake_sum c ids = s * Z.of_nat (length ids).
Proof.
  induction ids as [|i ids IH]; intros Hids; [simpl; lia|]. unfold stake_sum in *. simpl sum_of. rewrite IH by set_solver.
  destruct (known_authority i (Hids i ltac:(by left))) as (a & Ha & Hin & _). unfold stake_by_id. rewrite Ha, (Hstake a Hin). simpl length. lia.
Qed.

Context (header : Header) (good : Z -> Prop) (pool : list Z) (Hpool : aggregates pool).
Abbreviation valid v := (sig_verify (v : Z * Z).2 (header_digest header) (key_of c v.1)).

Lemma stake_of_key i : known i -> exists a, authority_safe c i = Some a ∧ Authority_protocol_key a = Some (key_of c i) ∧
  Committee_stake c (key_of c i) = stake_by_id c i.
Proof.
  intros (a & Ha & Hin & Hi)%known_authority. exists a. unfold authority_safe, key_of, Authority_protocol_key, stake_by_id. rewrite Ha.
  split; [done|]. rewrite (wf_initialised _ Hc a Hin). split; [done|]. unfold Committee_stake.
  unfold Committee_authorities in Hin. apply list_elem_of_fmap in Hin as ([k a'] & -> & Hk%elem_of_btree_iter). simpl.
  rewrite (Hkey k a' Hk). by rewrite Hk.
Qed.

Lemma retain_valid_spec votes w : (forall v, v ∈ votes -> known v.1) -> stake_sum c votes.*1 <= w < u64_modulus ->
  retain_valid c (header_digest header) votes w
  = Some (w - stake_sum c votes.*1 + stake_sum c (List.filter (fun v => valid v) votes).*1, List.filter (fun v => valid v) votes).
Proof.
  revert w. induction votes as [|[i sig] votes IH]; intros w Hk Hw.
  { simpl. do 2 f_equal. lia. }
  destruct (stake_of_key i (Hk (i, sig) ltac:(by left))) as (a & Ha & Hka & Hst).
  pose proof (stake_by_id_pos c Hc i) as Hpos.
  assert (0 <= stake_sum c votes.*1) as Hpos'.
  { unfold stake_sum. clear -Hc. induction votes.*1 as [|j l IHl]; simpl; [done|]. pose proof (stake_by_id_pos c Hc j). lia. }
  assert (forall v, v ∈ votes -> known v.1) as Hk' by (intros v Hv; apply Hk; by right).
  rewrite fmap_cons in *. cbn [fst] in *. rewrite !stake_sum_cons in *. cbn [retain_valid List.filter]. rewrite Ha. simpl. rewrite Hka. simpl.
  destruct (sig_verify sig (header_digest header) (key_of c i)) eqn:Hv; simpl.
  - rewrite (IH w Hk') by lia. simpl. do 2 f_equal. unfold fmap. lia.
  - assert (w -u64 Committee_stake c (key_of c i) = w - stake_by_id c i) as -> by (rewrite Hst; unfold u64_sub; apply Z.mod_small; lia).
    rewrite IH by (done || lia). do 2 f_equal. lia.
Qed.

(** ** The aggregator between certificates *)

Abbreviation quorum := (cm_quorum_threshold c).

Record collecting (used : gset Z) (st : VotesAggregator) : Prop := {
  cl_used : va_used st = used;
  cl_nodup : NoDup (va_votes st).*1;
  cl_ids v : v ∈ va_votes st -> known v.1 ∧ v.1 ∈ used ∧ v.2 ∈ pool;
  cl_weight : va_weight st = stake_sum c (va_votes st).*1;
  cl_below : va_weight st < quorum;
  cl_kept i : i ∈ used -> good i -> exists sig, (i, sig) ∈ va_votes st ∧ valid (i, sig) = true
}.

(** The votes that are left after some are dropped do not reach the quorum. *)
Lemma dropped_below (votes : list (Z * Z)) v (p : Z * Z -> bool) :
  0 < s -> (forall v, v ∈ votes -> known v.1) -> stake_sum c votes.*1 < quorum -> known v.1 ->
  existsb (fun v => negb (p v)) (votes ++ [v]) = true ->
  stake_sum c (List.filter p (votes ++ [v])).*1 < quorum.
Proof.
  intros Hs Hk Hlt Hv Hex.
  assert (length (List.filter p (votes ++ [v])) <= length votes)%nat as Hlen.
  { assert (length (List.filter p (votes ++ [v])) < length (votes ++ [v]))%nat; [|rewrite length_app in *; simpl in *; lia].
    revert Hex. clear. generalize (votes ++ [v]) as l. induction l as [|e l IH]; simpl; [done|].
    pose proof (List.filter_length_le p l). destruct (p e); simpl; [|lia]. intros ?%IH. lia. }
  rewrite equal_stakes in Hlt |- *.
  - rewrite !length_fmap in *. nia.
  - intros i (e & -> & He)%list_elem_of_fmap. auto.
  - intros i (e & -> & He%list_elem_of_In%filter_In%proj1%list_elem_of_In)%list_elem_of_fmap.
    apply elem_of_app in He as [?| ->%list_elem_of_singleton]; auto.
Qed.

Lemma filter_fst_sublist (p : Z * Z -> bool) (l : list (Z * Z)) : (List.filter p l).*1 `sublist_of` l.*1.
Proof. apply fmap_sublist. induction l as [|e l IH]; simpl; [constructor|]. destruct (p e); by constructor. Qed.

(** One more vote: a certificate, or the aggregator goes on collecting. *)
Lemma append_collecting now used st vote :
  0 < s -> collecting used st -> known (vo_author vote) -> vo_author vote ∉ used -> vo_signature vote ∈ pool ->
  (good (vo_author vote) -> valid (vo_author vote, vo_signature vote) = true) ->
  exists st' r, VotesAggregator_append now c vote header st = Some (st', Ok r) ∧
    (r = None -> collecting ({[vo_author vote]} ∪ used) st').
Proof.
  intros Hs [Hu Hnd Hids Hw Hbelow Hkept] Hkn Hfresh Hpl Hgood. set (v := (vo_author vote, vo_signature vote)).
  assert (NoDup (va_votes st ++ [v]).*1) as Hnd'.
  { rewrite fmap_app. apply NoDup_app. split; [done|]. split; [|apply NoDup_singleton].
    intros i (e & He1 & (_ & He & _)%Hids)%list_elem_of_fmap Hi%list_elem_of_singleton. simpl in Hi. by rewrite <- He1, Hi in He. }
  assert (forall e, e ∈ va_votes st ++ [v] -> known e.1 ∧ e.1 ∈ ({[vo_author vote]} ∪ used) ∧ e.2 ∈ pool) as Hids'.
  { intros e [(? & ? & ?)%Hids| ->%list_elem_of_singleton]%elem_of_app; simpl; (split; [done|split; [set_solver|done]]). }
  assert (va_weight st +u64 stake_by_id c (vo_author vote) = stake_sum c (va_votes st ++ [v]).*1) as Hw'.
  { pose proof (stake_sum_bound c Hc _ Hnd') as Hb. rewrite fmap_app in *. unfold stake_sum in *. rewrite sum_of_app in *. simpl in *.
    rewrite Hw, u64_add_small by lia. lia. }
  assert (forall i, i ∈ {[vo_author vote]} ∪ used -> good i -> exists sig, (i, sig) ∈ va_votes st ++ [v] ∧ valid (i, sig) = true) as Hkept'.
  { intros i [->%elem_of_singleton|Hi]%elem_of_union Hg; [exists (vo_signature vote); split; [apply elem_of_app; right; by left|by apply Hgood]|].
    destruct (Hkept i Hi Hg) as (sig & ? & ?). exists sig. split; [apply elem_of_app; by left|done]. }
  unfold VotesAggregator_append. erewrite em_bind_ok by done. rewrite Hu, bool_decide_false by done. erewrite em_bind_ok by done.
  erewrite em_bind_ok by done. cbn [va_weight va_votes va_used]. fold v. rewrite Hw'. destruct (Z.leb_spec quorum (stake_sum c (va_votes st ++ [v]).*1)) as [Hq|Hq].
  2: { eexists _, None. split; [done|]. intros _. by split. }
  assert (aggregates (va_votes st ++ [v]).*2) as Hagg.
  { intros sigs Hne Hsigs. apply Hpool; [done|]. intros sg (e & -> & (_ & _ & He)%Hids')%Hsigs%list_elem_of_fmap. done. }
  destruct (new_unverified_any c Hc now header (va_votes st ++ [v]) Hagg Hnd' ltac:(by intros e [? _]%Hids') Hq) as (x & l & Hx & Hh & Hsig & [a Ha] & Hver).
  erewrite em_bind_ok by (unfold em_lift; by rewrite Hx). erewrite em_bind_ok by done.
  erewrite em_bind_ok by (unfold em_lift; by rewrite Hsig). cbn beta iota. rewrite Ha. erewrite em_bind_ok by done.
  destruct (verify_aggregate x _) eqn:Ev; [by eexists _, (Some x)|].
  assert (Certificate_digest x = header_digest header) as -> by (unfold Certificate_digest; by rewrite Hh).
  pose proof (stake_sum_bound c Hc _ Hnd') as Hb.
  erewrite em_bind_ok by (unfold em_lift; rewrite retain_valid_spec; [done|by intros e [? _]%Hids'|lia]).
  cbn beta iota. erewrite em_bind_ok by done. eexists _, None. split; [done|]. intros _. split; simpl.
  - done.
  - eapply sublist_NoDup; [exact Hnd'|apply filter_fst_sublist].
  - intros e [He _]%list_elem_of_In%filter_In. by apply Hids', list_elem_of_In.
  - lia.
  - rewrite Z.sub_diag, Z.add_0_l. apply dropped_below; try done; [by intros e [? _]%Hids|by rewrite <- Hw|].
    apply not_false_iff_true. intros Hex. discriminate Hver. intros e He. apply not_false_iff_true. intros Hf.
    apply not_true_iff_false in Hex. apply Hex, existsb_exists. exists e. split; [by apply list_elem_of_In|by rewrite Hf].
  - intros i Hi Hg. destruct (Hkept' i Hi Hg) as (sig & Hin & Hvs). exists sig. split; [|done].
    apply list_elem_of_In, filter_In. split; [by apply list_elem_of_In|done].
Qed.

(** The results of the requests: a vote of each authority that answered. *)
Definition authors_of (results : list (Result Vote DagError)) : list Z :=
  omap (fun r => match r with Ok v => Some (vo_author v) | Err _ => None end) results.

Lemma collect_votes_ok now results used st :
  0 < s -> collecting used st -> NoDup (authors_of results) ->
  (forall v, Ok v ∈ results -> known (vo_author v) ∧ (vo_author v ∉ used) ∧ vo_signature v ∈ pool ∧
    (good (vo_author v) -> valid (vo_author v, vo_signature v) = true)) ->
  exists st' r, collect_votes c now header results None st = Some (st', Ok r) ∧
    (r = None -> collecting (list_to_set (authors_of results) ∪ used) st').
Proof.
  intros Hs. revert used st. induction results as [|[v|e] results IH]; intros used st Hst Hnd Hres.
  - exists st, None. split; [done|]. intros _. simpl. by rewrite (left_id_L ∅ (∪)).
  - csimpl in Hnd. apply NoDup_cons in Hnd as [Hv Hnd]. destruct (Hres v ltac:(by left)) as (Hk & Hf & Hpl & Hg).
    destruct (append_collecting now used st v Hs Hst Hk Hf Hpl Hg) as (st1 & r & Hr & Hcol).
    cbn [collect_votes]. erewrite em_bind_ok by exact Hr. destruct r as [x|]; [destruct results; by exists st1, (Some x)|].
    destruct (IH _ st1 (Hcol eq_refl) Hnd) as (st2 & r2 & Hr2 & Hc2).
    + intros v' Hin. destruct (Hres v' ltac:(by right)) as (? & Hf' & ?). split; [done|]. split; [|done].
      rewrite elem_of_union, elem_of_singleton. intros [He|?]; [|done]. apply Hv. rewrite <- He.
      unfold authors_of. apply list_elem_of_omap. by exists (Ok v').
    + exists st2, r2. split; [done|]. intros Hn. specialize (Hc2 Hn). csimpl.
      replace ({[vo_author v]} ∪ list_to_set (authors_of results) ∪ used) with (list_to_set (authors_of results) ∪ ({[vo_author v]} ∪ used)) by set_solver.
      done.
  - apply IH; [done|done|]. intros v Hv. apply Hres. by right.
Qed.
End collect.

Lemma collect_votes_some `{HH : HeaderHash} `{HS : Signatures} c now header results st st' x :
  collect_votes c now header results None st = Some (st', Ok (Some x)) ->
  exists v st1 st2, VotesAggregator_append now c v header st1 = Some (st2, Ok (Some x)).
Proof.
  revert st. induction results as [|[v|e] results IH]; intros st; cbn [collect_votes]; [done| |apply IH].
  intros [(st1 & r & Hr & Hc)|(e & _ & ?)]%em_bind_inv; [|done]. destruct r as [y|]; [|by eapply IH].
  destruct results; injection Hc as _ <-; eauto.
Qed.

(** The signatures of the votes that arrive. *)
Definition signatures_of (results : list (Result Vote DagError)) : list Z :=
  omap (fun r => match r with Ok v => Some (vo_signature v) | Err _ => None end) results.

(** C18. With equal stakes wrong votes do not prevent a certificate: if authorities with a
    quorum, the proposer among them, vote correctly, and no signature that arrives makes
    the aggregation fail, the proposer ends with a certificate of its header, whatever
    votes the other authorities send, with signatures that do not verify or none at all,
    and in whatever order they arrive. *)
Theorem bad_votes_do_not_block `{HH : HeaderHash} `{HS : Signatures} `{!SignatureLaws} (c : Committee) (s now id : Z) (header : Header)
    (results : list (Result Vote DagError)) (good : list Z) :
  committee_wf c -> keyed c -> (forall a, a ∈ Committee_authorities c -> au_stake a = s) ->
  he_epoch header = cm_epoch c -> is_Some (cm_authorities_by_id c !! id) ->
  NoDup (id :: authors_of results) -> (forall v, Ok v ∈ results -> is_Some (cm_authorities_by_id c !! vo_author v)) ->
  NoDup (id :: good) -> cm_quorum_threshold c <= stake_sum c (id :: good) ->
  (forall i, i ∈ good -> i ∈ authors_of results ∧
    forall v, Ok v ∈ results -> vo_author v = i -> v = Vote_new header i (key_of c i)) ->
  aggregates (sign (key_of c id) (header_digest header) :: signatures_of results) ->
  exists x, propose_header c now id (key_of c id) (Ok tt) header results = Some (Ok x) ∧ ce_header x = header ∧
    forall now' wc, Header_validate c wc header = Some (Ok tt) -> Certificate_verify now' c wc x = Some (Ok tt).
Proof.
  intros Hc Hkey Hst Hep Hid Hnd Hkn Hgnd Hq Hgood Hagg.
  assert (forall i, i ∈ id :: good -> is_Some (cm_authorities_by_id c !! i)) as Hgk.
  { intros i [->|Hi]%elem_of_cons; [done|]. destruct (Hgood i Hi) as [Hin _]. apply list_elem_of_omap in Hin as ([v|] & Hv & [= <-]). by apply Hkn. }
  assert (0 < cm_quorum_threshold c) as Hqpos.
  { rewrite (wf_quorum _ Hc). pose proof (wf_total _ Hc). pose proof (Z.div_pos (2 * total_stake c) 3). lia. }
  assert (0 < s) as Hs by (rewrite (equal_stakes c Hc Hkey s Hst) in Hq by exact Hgk; nia).
  apply NoDup_cons in Hnd as [Hself Hnd].
  set (G := fun i => i ∈ id :: good). set (own := Vote_new header id (key_of c id)).
  set (pool := sign (key_of c id) (header_digest header) :: signatures_of results) in *.
  destruct (append_collecting c Hc Hkey s Hst header G pool Hagg now ∅ VotesAggregator_new own Hs) as (st1 & r1 & Hr1 & Hc1); [|done|set_solver|by left| |].
  { split; simpl; [done|constructor|by intros v ?%not_elem_of_nil|done|done|set_solver]. }
  { intros _. apply sign_verifies. }
  unfold propose_header. rewrite Hep, Z.eqb_refl. cbn [negb]. fold own. erewrite em_bind_ok by exact Hr1.
  assert (exists st x v st2 st3, collect_votes c now header results r1 st1 = Some (st, Ok (Some x)) ∧
    VotesAggregator_append now c v header st2 = Some (st3, Ok (Some x))) as (st & x & v & st2 & st3 & -> & Hx).
  { destruct r1 as [x|]; [exists st1, x, own, VotesAggregator_new, st1; by destruct results|].
    destruct (collect_votes_ok c Hc Hkey s Hst header G pool Hagg now results _ st1 Hs (Hc1 eq_refl) Hnd) as (st & r & Hr & Hcol).
    - intros v Hv. split; [by apply Hkn|]. split.
      + simpl. rewrite (right_id_L ∅ (∪)), elem_of_singleton. intros He. apply Hself. rewrite <- He.
        apply list_elem_of_omap. by exists (Ok v).
      + split; [right; apply list_elem_of_omap; by exists (Ok v)|]. intros [Hi|Hi]%elem_of_cons.
        * destruct Hself. rewrite <- Hi. apply list_elem_of_omap. by exists (Ok v).
        * destruct (Hgood _ Hi) as [_ Hv']. rewrite (Hv' v Hv eq_refl). apply sign_verifies.
    - destruct r as [x|]; [destruct (collect_votes_some _ _ _ _ _ _ _ Hr) as (v & st2 & st3 & Hx); by exists st, x, v, st2, st3|].
      destruct (Hcol eq_refl) as [_ Hvn _ Hw Hb Hkept]. rewrite Hw in Hb.
      assert (stake_sum c (id :: good) <= stake_sum c (va_votes st).*1); [|lia].
      apply sum_of_subset; [apply (stake_by_id_pos c Hc)|done|]. intros i Hi. right. destruct (Hkept i) as (sig & Hin & _); [|done|].
      + apply elem_of_cons in Hi as [->|Hi]; [set_solver|]. destruct (Hgood i Hi) as [Hin _]. set_solver.
      + by apply (list_elem_of_fmap_2' _ _ (i, sig)). }
  exists x. split; [done|]. by eapply aggregated_certificate_verifies.
Qed.

(** Correct votes below the quorum are collected. *)
Lemma collect_correct_votes `{HH : HeaderHash} `{HS : Signatures} `{!SignatureLaws} (c : Committee) (Hc : committee_wf c) now header ids done' results :
  NoDup (done' ++ ids) -> stake_sum c (done' ++ ids) < cm_quorum_threshold c ->
  collect_votes c now header (((fun i => Ok (Vote_new header i (key_of c i))) <$> ids) ++ results) None (collected c header done')
  = collect_votes c now header results None (collected c header (done' ++ ids)).
Proof.
  revert done'. induction ids as [|i ids IH]; intros done' Hnd Hq; csimpl; [by rewrite app_nil_r|].
  rewrite (cons_middle i done' ids), (assoc_L (++)) in Hnd, Hq |- *.
  assert (stake_sum c (done' ++ [i]) < cm_quorum_threshold c) as Hq'.
  { pose proof (stake_sum_bound c Hc ids ltac:(by apply NoDup_app in Hnd as (_ & _ & ?))). unfold stake_sum in *. rewrite sum_of_app in Hq. lia. }
  apply NoDup_app in Hnd as Hnd'. destruct Hnd' as (Hnd' & _ & _).
  erewrite em_bind_ok by by apply append_more. by apply IH.
Qed.

(** A vote whose signature cannot be aggregated ends the proposal when it completes the
    quorum, although the votes before it are correct and others may follow. *)
Theorem unaggregated_vote_ends_proposal `{HH : HeaderHash} `{HS : Signatures} `{!SignatureLaws} (c : Committee) (now id : Z) (header : Header)
    (ids : list Z) (v : Vote) (rest : list (Result Vote DagError)) :
  committee_wf c -> he_epoch header = cm_epoch c -> NoDup (id :: ids ++ [vo_author v]) ->
  (forall i, i ∈ id :: ids ++ [vo_author v] -> is_Some (cm_authorities_by_id c !! i)) ->
  stake_sum c (id :: ids) < cm_quorum_threshold c <= stake_sum c (id :: ids ++ [vo_author v]) ->
  (forall sigs, vo_signature v ∈ sigs -> aggregate sigs = None) ->
  propose_header c now id (key_of c id) (Ok tt) header
    (((fun i => Ok (Vote_new header i (key_of c i))) <$> ids) ++ Ok v :: rest) = Some (Err InvalidSignature).
Proof.
  intros Hc Hep Hnd Hin [Hlt Hq] Hbad. unfold propose_header. rewrite Hep, Z.eqb_refl. cbn [negb].
  change (id :: ids ++ [vo_author v]) with ((id :: ids) ++ [vo_author v]) in *.
  apply NoDup_app in Hnd as Hnd'. destruct Hnd' as (Hnd1 & Hdis & _).
  assert (NoDup [id]) as Hnd0 by apply NoDup_singleton.
  assert (stake_sum c [id] < cm_quorum_threshold c) as Hlt0.
  { pose proof (stake_sum_bound c Hc ids ltac:(by apply NoDup_cons in Hnd1 as [_ ?])). unfold stake_sum in *. simpl in *. lia. }
  change VotesAggregator_new with (collected c header []). erewrite em_bind_ok by by apply (append_more c Hc now header [] id).
  rewrite (collect_correct_votes c Hc now header ids ([] ++ [id])) by done. cbn [collect_votes app].
  assert (VotesAggregator_append now c v header (collected c header (id :: ids)) =
    Some (mkVotesAggregator (stake_sum c (id :: ids) +u64 stake_by_id c (vo_author v))
      (va_votes (collected c header (id :: ids)) ++ [(vo_author v, vo_signature v)]) ({[vo_author v]} ∪ va_used (collected c header (id :: ids))),
      Err InvalidSignature)) as Happ.
  { unfold VotesAggregator_append. erewrite em_bind_ok by done. cbn [collected va_used].
    rewrite bool_decide_false by (rewrite elem_of_list_to_set; intros ?; eapply Hdis; [done|by left]).
    erewrite em_bind_ok by done. erewrite em_bind_ok by done. cbn [va_weight va_votes collected].
    assert (stake_sum c ((id :: ids) ++ [vo_author v]) = stake_sum c (id :: ids) + stake_by_id c (vo_author v)) as Hsum
      by (unfold stake_sum; rewrite sum_of_app; simpl; lia).
    pose proof (stake_sum_bound c Hc _ Hnd) as Hb. rewrite u64_add_small by lia. rewrite (proj2 (Z.leb_le _ _)) by lia.
    set (votes := _ ++ [(vo_author v, vo_signature v)]).
    assert (votes.*1 = (id :: ids) ++ [vo_author v]) as Hfst.
    { unfold votes. rewrite fmap_app. f_equal. rewrite <- list_fmap_compose. apply (list_fmap_id (id :: ids)). }
    destruct (new_unverified_cases c Hc now header votes) as (idx & l & _ & _ & _ & Hn & _); [by rewrite Hfst| | |].
    - intros e He. apply Hin. rewrite <- Hfst. by apply list_elem_of_fmap_2.
    - by rewrite Hfst.
    - rewrite Hbad in Hn; [|rewrite stable_sort_by_key_Permutation; unfold votes; rewrite fmap_app; set_solver].
      erewrite em_bind_ok by (unfold em_lift; by rewrite Hn). done. }
  unfold mbind, EM_bind. by rewrite Happ.
Qed.

#[local] Existing Instance full_hash.
#[local] Existing Instance plain_signatures.

(** A vote of the authority with a wrong signature. *)
Definition bad_vote (c : Committee) (header : Header) (i : Z) : Vote :=
  mkVote (header_digest header) (he_round header) (he_epoch header) (he_author header) i 0.

Definition good_vote (c : Committee) (header : Header) (i : Z) : Vote := Vote_new header i (key_of c i).

Lemma four_keyed : keyed four.
Proof.
  change (map_Forall (fun k a => au_protocol_key a = k) (cm_authorities four)).
  apply map_Forall_to_list, (bool_decide_unpack (Forall _ _)). by vm_compute.
Qed.

Lemma bad_votes_do_not_block_witness :
  let header := header_at 1 0 all_four in
  exists x, propose_header four 7 0 (key_of four 0) (Ok tt) header
      [Ok (bad_vote four header 3); Ok (good_vote four header 1); Ok (good_vote four header 2)] = Some (Ok x) ∧
    ce_header x = header ∧ Certificate_verify 8 four four_workers x = Some (Ok tt).
Proof.
  intros header.
  destruct (bad_votes_do_not_block four 1 7 0 header
    [Ok (bad_vote four header 3); Ok (good_vote four header 1); Ok (good_vote four header 2)] [1; 2]) as (x & H1 & H2 & H3).
  - exact four_wf.
  - exact four_keyed.
  - intros a Ha. apply (proj1 (Forall_forall (fun a => au_stake a = 1) (Committee_authorities four))); [|exact Ha].
    apply (bool_decide_unpack (Forall _ _)). by vm_compute.
  - reflexivity.
  - eexists. vm_compute. reflexivity.
  - apply (bool_decide_unpack (NoDup [0; 3; 1; 2])). by vm_compute.
  - intros v Hv. repeat (apply elem_of_cons in Hv as [Hv|Hv]; [injection Hv as ->; eexists; vm_compute; reflexivity|]).
    by apply not_elem_of_nil in Hv.
  - apply (bool_decide_unpack (NoDup [0; 1; 2])). by vm_compute.
  - by vm_compute.
  - intros i Hi. repeat (apply elem_of_cons in Hi as [->|Hi]); [| |by apply not_elem_of_nil in Hi];
      (split; [apply (bool_decide_unpack (_ ∈ [3; 1; 2])); by vm_compute|]);
      intros v Hv; repeat (apply elem_of_cons in Hv as [Hv|Hv]; [injection Hv as ->; done|]); by apply not_elem_of_nil in Hv.
  - intros sigs Hne _. cbn. rewrite bool_decide_false by exact Hne. eexists. reflexivity.
  - exists x. split; [exact H1|]. split; [exact H2|]. apply H3. by vm_compute.
Defined.

(** Three authorities with stakes 1, 1 and 2. *)
Definition uneven : Committee := default (mkCommittee ∅ ∅ 0 0 0) (Committee_new
  (add_authority (add_authority (add_authority (0, ∅) 100 1 0 200 "a") 101 1 0 201 "b") 102 2 0 202 "c").2 0).

(** With unequal stakes one bad vote can prevent a certificate: the proposer and the
    third authority have a quorum and vote correctly, but the invalid vote of the second
    arrives first; when the quorum is reached the invalid vote is removed, the votes that
    are left are not tried again, and no other vote is to come. *)
Theorem bad_vote_blocks_certificate :
  let header := header_at 1 0 all_four in
  cm_quorum_threshold uneven <= stake_sum uneven [0; 2] ∧
  propose_header uneven 7 0 (key_of uneven 0) (Ok tt) header [Ok (bad_vote uneven header 1); Ok (good_vote uneven header 2)]
    = Some (Err (CouldNotFormCertificate (header_digest header))) ∧
  (exists x, propose_header uneven 7 0 (key_of uneven 0) (Ok tt) header [Ok (good_vote uneven header 2); Ok (bad_vote uneven header 1)]
    = Some (Ok x)).
Proof. split; [by vm_compute|]. split; [by vm_compute|]. eexists. by vm_compute. Qed.
