(* ===== verification/PrimaryNode.v ===== *)
(** * The primaries of an epoch

    The parts of a primary together, and the primaries of a committee together.  A node
    is the handler of vote requests with its synchronizer, the proposer, and the vote
    requests in flight: the layer in front of the handler admits one request per peer at
    a time (src/narwhal/primary/src/primary.rs), and a request waits for its parents and
    for its signature while other things happen.  Certificates that arrive, the acceptor,
    garbage collection, the fetcher and the branches of the proposer are further events;
    the proposer reads the parents that the synchronizer of its node has sent, one
    message after the other.

    The network delivers anything to anyone.  What Byzantine authorities send is only
    limited by signatures: [unforged] says that an aggregated signature that verifies for
    the key of an honest authority contains a vote that this authority has sent.  Nodes do
    not restart. *)

From S2P Require Import Prelude Committee DagTypes Certification CertificationProps CertificateStore Synchronizer SynchronizerProps SynchronizerSafe Voting Proposer ProposerProps.
Local Open Scope Z_scope.
Local Open Scope chase_scope.

(** ** A node *)

Inductive RequestPhase := AwaitParents | AwaitSignature.

#[global] Instance RequestPhase_eq_dec : EqDecision RequestPhase.
Proof. solve_decision. Defined.

(** [pm_parents_read] is the number of messages from the synchronizer that the proposer
    has read; [pm_requests] are the requests in flight by the network key of the peer;
    [pm_voted] are the headers for which a vote was sent. *)
Record Primary (T : Type) := mkPrimary {
  pm_receiver : Receiver T;
  pm_proposer : Proposer;
  pm_parents_read : nat;
  pm_requests : gmap Z (Header * RequestPhase);
  pm_voted : list Header
}.
Arguments mkPrimary {T}.
Arguments pm_receiver {T}.
Arguments pm_proposer {T}.
Arguments pm_parents_read {T}.
Arguments pm_requests {T}.
Arguments pm_voted {T}.

Inductive PrimaryEvent :=
  | EventSync (ev : SyncEvent)
  | EventRequest (now peer : Z) (header : Header) (parents : list Certificate)
  | EventParents (now : Z) (synced : Result unit DagError) (peer : Z)
  | EventSignature (peer : Z)
  | EventDropped (peer : Z)
  | EventProposer (ev : ProposerEvent)
  | EventProposerParents (now : Z).

Section primary.
Context `{HH : HeaderHash} `{HS : Signatures} `{HI : SetIter} `{HR : Rng} {T : Type} `{HT : StoreCache T}.
Context (cfg : SyncConfig) (pcfg : ProposerConfig) (key : Z).
Abbreviation PrimaryM := (EM (Primary T) DagError).

Definition on_receiver {A} (m : EM (Receiver T) DagError A) : PrimaryM A := fun n =>
  match m (pm_receiver n) with
  | Some (r, x) => Some (mkPrimary r (pm_proposer n) (pm_parents_read n) (pm_requests n) (pm_voted n), x)
  | None => None
  end.

Definition on_proposer {A} (m : EM Proposer DagError A) : PrimaryM A := fun n =>
  match m (pm_proposer n) with
  | Some (p, x) => Some (mkPrimary (pm_receiver n) p (pm_parents_read n) (pm_requests n) (pm_voted n), x)
  | None => None
  end.

Definition set_request (peer : Z) (r : option (Header * RequestPhase)) (n : Primary T) : Primary T :=
  mkPrimary (pm_receiver n) (pm_proposer n) (pm_parents_read n) (partial_alter (fun _ => r) peer (pm_requests n)) (pm_voted n).

Definition count_parents (n : Primary T) : Primary T :=
  mkPrimary (pm_receiver n) (pm_proposer n) (S (pm_parents_read n)) (pm_requests n) (pm_voted n).

(** The vote is sent and the request is over. *)
Definition send_vote (peer : Z) (h : Header) (n : Primary T) : Primary T :=
  mkPrimary (pm_receiver n) (pm_proposer n) (pm_parents_read n) (delete peer (pm_requests n)) (pm_voted n ++ [h]).

(** An error ends the request. *)
Definition or_end_request {A} (peer : Z) (m : PrimaryM A) : PrimaryM A := fun n =>
  match m n with
  | Some (n', Err e) => Some (set_request peer None n', Err e)
  | r => r
  end.

(** A request that is refused or answered without a vote leaves no trace. *)
Definition request_arrives (now peer : Z) (header : Header) (parents : list Certificate) : PrimaryM unit :=
  n ← em_get;
  match pm_requests n !! peer with
  | Some _ => em_fail (NetworkError "too many requests in flight")
  | None =>
      missing ← on_receiver (_ ← check_request cfg (Some peer) header parents; request_parents cfg now header parents);
      if bool_decide (missing = []) then em_modify (set_request peer (Some (header, AwaitParents))) else mret tt
  end.

Definition request_parents_ready (now : Z) (synced : Result unit DagError) (peer : Z) : PrimaryM unit :=
  n ← em_get;
  match pm_requests n !! peer with
  | Some (header, AwaitParents) => or_end_request peer (
      parents ← on_receiver (on_sync (notify_read_parent_certificates cfg header));
      match parents with
      | None => mret tt
      | Some parents =>
          decision ← on_receiver (decide_vote cfg key now synced header parents);
          match decision with
          | ResendVote _ => em_modify (send_vote peer header)
          | CreateVote => em_modify (set_request peer (Some (header, AwaitSignature)))
          end
      end)
  | _ => mret tt
  end.

Definition request_signed (peer : Z) : PrimaryM unit :=
  n ← em_get;
  match pm_requests n !! peer with
  | Some (header, AwaitSignature) => or_end_request peer (
      _ ← on_receiver (record_vote cfg key header);
      em_modify (send_vote peer header))
  | _ => mret tt
  end.

(** The proposer receives the next message of the channel from its synchronizer. *)
Definition parents_arrive (now : Z) : PrimaryM unit :=
  n ← em_get;
  match sc_parents (sn_channels (rv_sync (pm_receiver n))) !! pm_parents_read n with
  | None => mret tt
  | Some (parents, round, epoch) =>
      _ ← em_modify count_parents;
      on_proposer (receive_parents pcfg now parents round epoch)
  end.

Definition primary_event (ev : PrimaryEvent) : PrimaryM unit :=
  match ev with
  | EventSync ev => on_receiver (on_sync (sync_event cfg ev))
  | EventRequest now peer header parents => request_arrives now peer header parents
  | EventParents now synced peer => request_parents_ready now synced peer
  | EventSignature peer => request_signed peer
  | EventDropped peer => em_modify (set_request peer None)
  | EventProposer ev => on_proposer (proposer_event pcfg ev)
  | EventProposerParents now => parents_arrive now
  end.

(** The headers with a vote of the node, its own included: the certifier votes for what
    the proposer sends it. *)
Definition voted_by (n : Primary T) : list Header := pm_voted n ++ pr_headers (pm_proposer n).
End primary.

(** ** The committee *)

Section epoch.
Context `{HH : HeaderHash} `{HS : Signatures} `{HI : SetIter} `{HR : Rng} {T : Type} `{HT : StoreCache T}.
Context (c : Committee) (cfg : Z -> SyncConfig) (pcfg : Z -> ProposerConfig).

(** The honest authorities; the others are Byzantine. *)
Abbreviation World := (gmap Z (Primary T)).

Definition authority_ids : list Z := au_id <$> Committee_authorities c.

Definition byzantine (W : World) : list Z :=
  List.filter (fun i => match W !! i with None => true | Some _ => false end) authority_ids.

(** Whoever may have voted for the header. *)
Definition supporters (W : World) (h : Header) : list Z :=
  List.filter (fun i => match W !! i with None => true | Some n => bool_decide (h ∈ voted_by n) end) authority_ids.

Definition all_voted (W : World) : list Header := concat (voted_by <$> (map_to_list W).*2).

(** The headers that can have a certificate. *)
Definition certified_headers (W : World) : gmap Z Header :=
  list_to_map ((fun h => (header_digest h, h)) <$>
    List.filter (fun h => cm_quorum_threshold c <=? stake_sum c (supporters W h)) (all_voted W)).

(** If the aggregated signature holds, the honest signers have sent a vote for the header. *)
Definition unforged (W : World) (x : Certificate) : Prop :=
  forall weight keys i n, signed_by c x = Some (weight, keys) -> verify_aggregate x keys = true ->
    W !! i = Some n -> key_of c i ∈ keys -> exists h, h ∈ voted_by n ∧ header_digest h = Certificate_digest x.

(** Rounds stay below the largest 64-bit numbers.  The fetcher has verified what it
    hands on, and so has the certifier.  A node sends no request to itself, and parents
    reach its proposer only from its synchronizer. *)
Definition primary_allowed (W : World) (i : Z) (ev : PrimaryEvent) (n : Primary T) : Prop :=
  match ev with
  | EventSync (ReceiveCertificate _ x) => unforged W x
  | EventSync (ReceiveFetched _ x) => unforged W x ∧ 1 <= Certificate_round x ∧
      exists now, Certificate_verify now c (sf_worker_cache (cfg i)) x = Some (Ok tt)
  | EventSync (CollectRound r) => sn_gc_round (rv_sync (pm_receiver n)) <= r < u64_modulus - 1
  | EventSync _ => True
  | EventRequest _ _ header parents =>
      0 <= he_round header < u64_modulus - 1 ∧ he_author header <> i ∧ (forall x, x ∈ parents -> unforged W x)
  | EventProposer (ProposeNext _) => pr_round (pm_proposer n) < u64_modulus - 2
  | EventProposer (ReceiveParents _ _ _ _) => False
  | EventProposer _ => True
  | EventParents _ _ _ | EventSignature _ | EventDropped _ | EventProposerParents _ => True
  end.

Inductive world_step (W : World) : World -> Prop :=
  | step_event i n ev n' r :
      W !! i = Some n -> primary_allowed W i ev n -> primary_event (cfg i) (pcfg i) (key_of c i) ev n = Some (n', r) ->
      world_step W (<[i := n']> W).
End epoch.
