(* ===== verification/PrimaryProps.v ===== *)
(** * Lemmas about the parts of a primary

    What the handler of vote requests and the synchronizer below it keep, with respect to
    a certified dag; PrimarySafe builds the invariant of a node from them. *)

From S2P Require Import Prelude Committee DagTypes DagProps Certification CertificationProps CertificateStore Synchronizer SynchronizerProps SynchronizerSafe Voting Proposer ProposerProps PrimaryNode.
Local Open Scope Z_scope.
Local Open Scope chase_scope.

Lemma em_ret_bind {S E A B} (x : A) (f : A -> EM S E B) s : (mret x ≫= f) s = f x s.
Proof. done. Qed.

Lemma em_fail_bind {S E A B} (e : E) (f : A -> EM S E B) s : (em_fail e ≫= f) s = Some (s, Err e).
Proof. done. Qed.

(** ** The synchronizer of a node *)

Section sync.
Context `{HH : HeaderHash} `{HS : Signatures} `{HI : SetIter} `{!SetIterLaws} {T : Type} `{HT : StoreCache T} `{!CacheLaws T}.
Implicit Types n : Synchronizer T.

Lemma certified_mono (G G' : gmap Z Header) x : G ⊆ G' -> certified G x -> certified G' x.
Proof. intros Hsub. unfold certified, in_dag. intros Hx. by eapply lookup_weaken. Qed.

Lemma sync_ok_mono (G G' : gmap Z Header) base limit n : G ⊆ G' -> sync_ok G base limit n -> sync_ok G' base limit n.
Proof.
  intros Hsub [[] []]. pose proof (fun x => certified_mono G G' x Hsub) as Hm. split; split; try done.
  - intros d x [? ?]%so_certs. auto.
  - eauto.
  - intros x e (? & ? & ?)%so_accepting. auto.
  - eauto.
  - intros d su [? ?]%sv_certified. auto.
Qed.

Lemma messages_ok_mono c (G G' : gmap Z Header) ms : G ⊆ G' -> messages_ok c G ms -> messages_ok c G' ms.
Proof.
  intros Hsub Hms i ps r e [? (y & ? & ?) Hce Hq]%Hms. pose proof (fun x => certified_mono G G' x Hsub) as Hm. split; [done|by eauto| |done].
  intros x [? ?]%Hce. auto.
Qed.

Lemma feeding_mono c (G G' : gmap Z Header) aggregators ms : G ⊆ G' -> feeding c G aggregators ms -> feeding c G' aggregators ms.
Proof.
  intros Hsub [Hms Hag]. split; [by eapply messages_ok_mono|]. intros r a [l [? ? ? Hce ?]]%Hag. exists l. split; try done.
  intros x [? ?]%Hce. split; [by eapply certified_mono|done].
Qed.

(** What the proposer of the node is sent, with the invariant of the synchronizer. *)
Definition fed_ok cfg (G : gmap Z Header) base n : Prop :=
  sync_ok G base 2 n ∧ feeding (sf_committee cfg) G (sn_aggregators n) (sc_parents (sn_channels n)).

Lemma fed_ok_mono cfg (G G' : gmap Z Header) base n : G ⊆ G' -> fed_ok cfg G base n -> fed_ok cfg G' base n.
Proof. intros Hsub [? ?]. split; [by eapply sync_ok_mono|by eapply feeding_mono]. Qed.

(** More is sent, and the invariant stays. *)
Definition fed_steps cfg (G : gmap Z Header) base n n' : Prop :=
  fed_ok cfg G base n' ∧ sc_parents (sn_channels n) `prefix_of` sc_parents (sn_channels n').

Lemma fed_steps_trans cfg (G : gmap Z Header) base n1 n2 n3 :
  fed_steps cfg G base n1 n2 -> (fed_ok cfg G base n2 -> fed_steps cfg G base n2 n3) -> fed_steps cfg G base n1 n3.
Proof. intros [H1 P1] H2. destruct (H2 H1) as [? ?]. split; [done|by etrans]. Qed.

Lemma fed_steps_refl cfg (G : gmap Z Header) base n : fed_ok cfg G base n -> fed_steps cfg G base n n.
Proof. by split. Qed.

Lemma sync_ok_cache (G : gmap Z Header) base limit n t : sync_ok G base limit n -> cached_ok (set_cache (sn_store n) t) ->
  sync_ok G base limit (sn_set_store n (set_cache (sn_store n) t)).
Proof. intros [[] []] Ht. by split; split. Qed.

Lemma read_parents_spec ds (s : CertificateStore T) : cached_ok s ->
  exists t l, read_parents ds s = (set_cache s t, l) ∧ cached_ok (set_cache s t) ∧
    forall ps, l = Some ps -> Forall2 (fun d x => cs_by_id s !! d = Some x) ds ps.
Proof.
  revert s. induction ds as [|d ds IH]; intros s Hs; simpl.
  { exists (cs_cache s), (Some []). split; [by destruct s|]. split; [by destruct s|]. by intros ps [= <-]. }
  pose proof (cs_read_ok s d Hs) as Hok. destruct (cs_read_spec s d (proj1 Hs)) as (Hv & _ & t & Ht).
  destruct (cs_read d s) as [s1 x]. simpl in *. subst s1 x.
  destruct (IH (set_cache s t) Hok) as (t' & l & -> & Hok' & Hl). exists t'. eexists. split; [done|]. split; [done|].
  intros ps Hps. destruct (cs_by_id s !! d) as [x|] eqn:E; [|done]. destruct l as [l|]; [|done]. injection Hps as <-.
  constructor; [done|]. by apply Hl.
Qed.

Context (cfg : SyncConfig) (Hc : committee_wf (sf_committee cfg)) (G : gmap Z Header) (Hcd : certified_dag (sf_committee cfg) G) (base : gset Z).

(** An event that does not panic keeps the invariant. *)
Lemma sync_event_keeps ev n n' r : fed_ok cfg G base n -> sync_event cfg ev n = Some (n', r) ->
  match ev with
  | ReceiveCertificate now x => Certificate_verify now (sf_committee cfg) (sf_worker_cache cfg) x = Some (Ok tt) ->
      1 <= Certificate_round x -> certified G x
  | ReceiveFetched _ x => certified G x
  | CollectRound r => sn_gc_round n <= r < u64_modulus - 1
  | _ => True
  end -> fed_steps cfg G base n n'.
Proof.
  intros [Hn Hfe] Hev Hall. destruct (event_safe cfg Hc G Hcd base 2 ltac:(lia) ev n n' r Hn) as [Hn' [Hf Hp]]; [..|exact Hev|by split; [split; auto|]].
  - by destruct ev.
  - intros _. right. lia.
  - intros now x ->. exact Hall.
Qed.

Lemma acceptor_step_keeps n n' r : fed_ok cfg G base n -> acceptor_step cfg n = Some (n', r) -> fed_steps cfg G base n n'.
Proof.
  intros Hn. unfold acceptor_step. intros [(n1 & [] & H1 & H2)|(e & H1 & _)]%em_bind_inv; [|by eapply (sync_event_keeps AcceptNext)].
  eapply fed_steps_trans; [exact (sync_event_keeps AcceptNext _ _ _ Hn H1 I)|]. intros Hn1. exact (sync_event_keeps AcceptLocked _ _ _ Hn1 H2 I).
Qed.

Lemma em_ignore_keeps (m : EM (Synchronizer T) DagError unit) n n' r :
  (forall n1 r1, m n = Some (n1, r1) -> fed_steps cfg G base n n1) -> em_ignore m n = Some (n', r) -> fed_steps cfg G base n n' ∧ r = Ok tt.
Proof. intros Hm. unfold em_ignore. destruct (m n) as [[n1 r1]|]; [|done]. intros [= <- <-]. eauto. Qed.

Lemma acceptor_answers_keeps k n n' r : fed_ok cfg G base n -> acceptor_answers cfg k n = Some (n', r) -> fed_steps cfg G base n n'.
Proof.
  revert n. induction k as [|k IH]; intros n Hn; simpl; [by apply acceptor_step_keeps|].
  intros [(n1 & [] & H1 & H2)|(e & H1 & _)]%em_bind_inv; (apply em_ignore_keeps in H1 as [Hn1 ?]; [|by eauto using acceptor_step_keeps]); [|done].
  eapply fed_steps_trans; [exact Hn1|]. intros ?. by eapply IH.
Qed.

Lemma try_accept_keeps now x n n' r : fed_ok cfg G base n ->
  (Certificate_verify now (sf_committee cfg) (sf_worker_cache cfg) x = Some (Ok tt) -> 1 <= Certificate_round x -> certified G x) ->
  try_accept_certificate cfg now x n = Some (n', r) -> fed_steps cfg G base n n'.
Proof.
  intros Hn Hx. unfold try_accept_certificate, process_certificate_internal. intros [(n1 & b & Hs & Hr)|(e & Hs & _)]%em_bind_inv.
  - eapply fed_steps_trans; [|intros Hn1].
    { eapply (sync_event_keeps (ReceiveCertificate now x)); [exact Hn| |exact Hx]. simpl. by erewrite em_bind_ok by exact Hs. }
    destruct b; [|by injection Hr as <- _].
    apply em_bind_inv in Hr as [(n2 & [] & H1 & H2)|(e & H1 & _)];
      (apply em_ignore_keeps in H1 as [Hn2 ?]; [|intros ? ? He; exact (sync_event_keeps AcceptLocked _ _ _ Hn1 He I)]); [|done].
    eapply fed_steps_trans; [exact Hn2|]. intros Hf2. exact (acceptor_answers_keeps _ _ _ _ Hf2 H2).
  - eapply (sync_event_keeps (ReceiveCertificate now x)); [exact Hn| |exact Hx]. simpl. unfold mbind, EM_bind. by rewrite Hs.
Qed.
End sync.

(** ** The handler of vote requests *)

Section handler.
Context `{HH : HeaderHash} `{HS : Signatures} `{HI : SetIter} `{!SetIterLaws} {T : Type} `{HT : StoreCache T} `{!CacheLaws T}.
Context (cfg : SyncConfig) (Hc : committee_wf (sf_committee cfg)) (G : gmap Z Header) (Hcd : certified_dag (sf_committee cfg) G).
Implicit Types r : Receiver T.
Abbreviation c := (sf_committee cfg).

(** What a part of the handler that does not record a vote leaves alone. *)
Definition handler_keeps r r' : Prop := rv_votes r' = rv_votes r ∧ fed_steps cfg G ∅ (rv_sync r) (rv_sync r').

Lemma on_sync_keeps {A} (m : EM (Synchronizer T) DagError A) r r' res :
  (forall n' x, m (rv_sync r) = Some (n', x) -> fed_steps cfg G ∅ (rv_sync r) n') -> on_sync m r = Some (r', res) -> handler_keeps r r'.
Proof.
  intros Hm. unfold on_sync. destruct (m (rv_sync r)) as [[n' x]|] eqn:E; [|done]. intros [= <- _]. split; [done|]. simpl. by eapply Hm.
Qed.

Lemma check_request_same peer h ps r r' res : check_request cfg peer h ps r = Some (r', res) -> r' = r.
Proof.
  unfold check_request, ensure. intros Hr. apply em_bind_inv in Hr as [(? & v & Hm & Hr)|(? & Hm & _)].
  2: { unfold em_lift in Hm. by destruct (Header_validate _ _ _). }
  apply em_lift_inv in Hm as (? & _ & -> & _).
  repeat match goal with
  | Hr : (_ ≫= _) _ = Some _ |- _ => apply em_bind_inv in Hr as [(? & ? & ?Hm & Hr)|(? & ?Hm & _)]
  | Hm : em_lift _ _ = Some (_, _) |- _ => apply em_lift_inv in Hm as (? & _ & ? & _); subst
  | Hm : em_result ?x _ = Some (_, _) |- _ => unfold em_result in Hm; destruct x; injection Hm as <- ?
  | Hm : (if ?b then _ else _) _ = Some (_, _) |- _ => destruct b; injection Hm as <- ?
  end; done.
Qed.

(** A request that passes the checks comes from the author of the header. *)
Record request_checked (peer : Z) (h : Header) : Prop := {
  rc_epoch : he_epoch h = cm_epoch c;
  rc_author : is_Some (cm_authorities_by_id c !! he_author h);
  rc_peer : exists a, authority_by_network_key c peer = Some a ∧ au_id a = he_author h
}.

Lemma check_request_ok peer h ps r r' : check_request cfg (Some peer) h ps r = Some (r', Ok tt) -> request_checked peer h.
Proof.
  unfold check_request. intros Hr. em_value Hr as v Hv. apply em_bind_inv in Hr as [(? & [] & Hm & Hr)|(? & _ & ?)]; [|done].
  destruct v as [[]|]; [injection Hm as <-|done]. apply em_bind_inv in Hr as [(? & [] & _ & Hr)|(? & _ & ?)]; [|done].
  em_pure Hr. apply em_bind_inv in Hr as [(r1 & a & Hm & Hr)|(? & _ & ?)]; [|done].
  destruct (authority_by_network_key c peer) as [a'|] eqn:Ha; [injection Hm as <- <-|done].
  em_value Hr as id Hid. unfold ensure in Hr. destruct (Z.eqb_spec (he_author h) id) as [<-|]; [|done].
  unfold Header_validate in Hv. destruct (Z.eqb_spec (he_epoch h) (cm_epoch c)); [|done]. simpl in Hv.
  destruct (Z.ltb_spec 0 (stake_by_id c (he_author h))) as [Hst|]; [|done].
  split; [done| |].
  - unfold stake_by_id in Hst. destruct (_ !! _); [by eauto|lia].
  - exists a'. split; [done|]. unfold Authority_id in Hid. destruct (au_initialised a'); [by injection Hid|done].
Qed.

Abbreviation verified_is_certified now x :=
  (Certificate_verify now c (sf_worker_cache cfg) x = Some (Ok tt) -> 1 <= Certificate_round x -> certified G x).

Lemma accept_list_keeps now l r r' res :
  fed_ok cfg G ∅ (rv_sync r) -> (forall x, x ∈ l -> verified_is_certified now x) ->
  foldr (fun x rest => _ ← on_sync (try_accept_certificate cfg now x); rest) (mret tt) l r = Some (r', res) -> handler_keeps r r'.
Proof.
  revert r. induction l as [|x l IH]; intros r Hr Hl; simpl; [by intros [= <- _]|].
  assert (forall r1 y, on_sync (try_accept_certificate cfg now x) r = Some (r1, y) -> handler_keeps r r1) as Hx.
  { intros r1 y. apply on_sync_keeps. intros n' z. apply (try_accept_keeps cfg Hc G Hcd); [done|]. apply Hl. by left. }
  intros [(r1 & [] & Hm & Hrest)|(e & Hm & _)]%em_bind_inv; apply Hx in Hm as [Hv Hs]; [|done].
  destruct (IH r1 (proj1 Hs)) as [Hv' Hs']; [intros y Hy; apply Hl; by right|exact Hrest|]. split; [congruence|].
  by eapply fed_steps_trans.
Qed.

Lemma get_unknown_same h r r' res : get_unknown_parent_digests cfg h r = Some (r', res) -> fed_ok cfg G ∅ (rv_sync r) -> handler_keeps r r'.
Proof.
  unfold get_unknown_parent_digests. intros Hg Hr.
  assert (forall n' y, sync_get_unknown_parent_digests cfg h (rv_sync r) = Some (n', y) -> n' = rv_sync r) as Hsame.
  { intros n' y. unfold sync_get_unknown_parent_digests. intros Hn. em_pure Hn. destruct (_ =? 1); [|by injection Hn as <- _].
    unfold em_result in Hn. destruct (check_genesis_parents _ _); [em_pure Hn; by injection Hn as <- _|].
    apply em_bind_inv in Hn as [(? & ? & ? & _)|(? & Hn & _)]; [done|by injection Hn as <- _]. }
  assert (forall r1 y, on_sync (sync_get_unknown_parent_digests cfg h) r = Some (r1, y) -> handler_keeps r r1) as Hk.
  { intros r1 y. apply on_sync_keeps. intros n' z ->%Hsame. done. }
  apply em_bind_inv in Hg as [(r1 & ds & Hm & Hg)|(e & Hm & _)]; apply Hk in Hm as [Hv Hs]; [|done]. em_pure Hg.
  unfold ensure in Hg. destruct (_ <=? _); [|by injection Hg as <- _]. em_pure Hg.
  destruct (request_digests _ _ _ _) as [m kept]. em_pure Hg. injection Hg as <- _. by split.
Qed.

Lemma request_parents_keeps now h ps r r' res :
  fed_ok cfg G ∅ (rv_sync r) -> (forall x, x ∈ ps -> verified_is_certified now x) ->
  request_parents cfg now h ps r = Some (r', res) -> handler_keeps r r'.
Proof.
  intros Hr Hps. unfold request_parents. destruct (bool_decide _); [intros Hg; by eapply get_unknown_same|].
  assert (forall r1 y, try_accept_unknown_parents cfg now h ps r = Some (r1, y) -> handler_keeps r r1) as Hk.
  { intros r1 y Hr1. unfold try_accept_unknown_parents in Hr1. em_pure Hr1. eapply accept_list_keeps; [exact Hr| |exact Hr1].
    intros x Hx. apply Hps. by apply list_elem_of_In, filter_In, proj1, list_elem_of_In in Hx. }
  intros [(r1 & [] & Hm & Hrest)|(e & Hm & _)]%em_bind_inv; apply Hk in Hm; [by injection Hrest as <- _|done].
Qed.

(** ** What a vote says about a header *)

Record header_ok (h : Header) : Prop := {
  ho_round : 1 <= he_round h < u64_modulus - 1;
  ho_epoch : he_epoch h = cm_epoch c;
  ho_author : is_Some (cm_authorities_by_id c !! he_author h);
  ho_first p : he_round h = 1 -> p ∈ he_parents h -> exists g, header_digest g = p ∧ he_round g = 0;
  ho_parents : 2 <= he_round h -> exists ps, parents_ok c G h ps ∧ Forall (fun q => he_round q = he_round h - 1) ps
}.

Context (Hgen : forall d x, sf_genesis cfg !! d = Some x -> Certificate_digest x = d ∧ Certificate_round x = 0).
Context (Hbound : forall d h, G !! d = Some h -> he_round h < u64_modulus - 1).

Definition parent_read (h : Header) (d : Z) (x : Certificate) : Prop :=
  Certificate_digest x = d ∧ (if he_round h =? 1 then Certificate_round x = 0 else certified G x).

Lemma notify_keeps h n n' res : fed_ok cfg G ∅ n -> notify_read_parent_certificates cfg h n = Some (n', res) ->
  fed_steps cfg G ∅ n n' ∧ forall ps, res = Ok (Some ps) -> Forall2 (parent_read h) (he_parents h) ps.
Proof.
  intros Hn. unfold notify_read_parent_certificates, parent_read. destruct (he_round h =? 1).
  - assert (forall ds l, genesis_parents cfg ds = Ok l -> Forall2 (fun d x => Certificate_digest x = d ∧ Certificate_round x = 0) ds l) as Hg.
    { induction ds as [|d ds IH]; intros l; simpl; [by intros [= <-]|]. destruct (sf_genesis cfg !! d) as [x|] eqn:E; [|done].
      destruct (genesis_parents cfg ds); [|done]. intros [= <-]. constructor; [by apply Hgen|by apply IH]. }
    unfold em_result. destruct (genesis_parents cfg (he_parents h)) as [l|e] eqn:E; intros Hr.
    + em_pure Hr. injection Hr as <- <-. split; [done|]. intros ps [= <-]. by apply Hg.
    + apply em_bind_inv in Hr as [(? & ? & ? & _)|(? & Hr & ->)]; [done|]. injection Hr as <- _. by split.
  - intros Hr. em_pure Hr. destruct (read_parents_spec (he_parents h) (sn_store n) (so_store _ _ _ _ (proj1 (proj1 Hn)))) as (t & l & Hl & Hok & Hf).
    rewrite Hl in Hr. em_pure Hr. injection Hr as <- <-. split; [split; [split; [apply sync_ok_cache; [apply Hn|done]|apply Hn]|done]|]. intros ps [= ->].
    eapply Forall2_impl; [by apply Hf|]. intros d x Hx. by apply (so_certs _ _ _ _ (proj1 (proj1 Hn))).
Qed.

Lemma check_loop_spec h ps auths stake st : check_parents_loop cfg h ps auths stake = Ok st ->
  (forall x, x ∈ ps -> Certificate_round x +u64 1 = he_round h ∧ (Certificate_origin x ∉ auths)) ∧
  NoDup (Certificate_origin <$> ps) ∧ st = foldl (fun acc x => acc +u64 stake_by_id c (Certificate_origin x)) stake ps.
Proof.
  revert auths stake. induction ps as [|x ps IH]; intros auths stake; simpl.
  { intros [= <-]. split; [by intros x ?%not_elem_of_nil|]. split; [constructor|done]. }
  destruct (Z.eqb_spec (Certificate_round x +u64 1) (he_round h)) as [Hr|]; [|done]. simpl.
  destruct (_ <=? _); [|done]. simpl. case_bool_decide as Ha; [done|]. intros (Hps & Hnd & Hst)%IH. split_and!; [| |done].
  - intros y [->|Hy]%elem_of_cons; [done|]. destruct (Hps y Hy). split; [done|]. set_solver.
  - csimpl. constructor; [|done]. intros (y & He & Hy)%list_elem_of_fmap. destruct (Hps y Hy) as [_ Hn]. apply Hn. rewrite He. set_solver.
Qed.

Lemma foldl_stakes ps stake : 0 <= stake -> NoDup (Certificate_origin <$> ps) ->
  stake + stake_sum c (Certificate_origin <$> ps) < u64_modulus ->
  foldl (fun acc x => acc +u64 stake_by_id c (Certificate_origin x)) stake ps = stake + stake_sum c (Certificate_origin <$> ps).
Proof.
  unfold stake_sum. revert stake. induction ps as [|x ps IH]; intros stake Hs; csimpl; [simpl; lia|]. intros [_ Hnd]%NoDup_cons Hlt.
  pose proof (stake_by_id_pos c Hc (Certificate_origin x)). pose proof (stake_sum_le_total c Hc _ Hnd). unfold stake_sum in *.
  rewrite u64_add_small by lia. rewrite IH by (done || lia). lia.
Qed.

Lemma parents_header_ok h ps : 0 <= he_round h < u64_modulus - 1 -> he_epoch h = cm_epoch c -> is_Some (cm_authorities_by_id c !! he_author h) ->
  Forall2 (parent_read h) (he_parents h) ps -> check_parents_quorum cfg h ps = Ok tt -> header_ok h.
Proof.
  intros Hr He Ha Hf. unfold check_parents_quorum. destruct (check_parents_loop cfg h ps ∅ 0) as [st|] eqn:El; [|done].
  apply check_loop_spec in El as (Hps & Hnd & ->).
  pose proof (stake_sum_le_total c Hc _ Hnd) as Hle. pose proof (wf_total _ Hc) as Ht.
  rewrite foldl_stakes by (done || unfold u64_modulus; lia). rewrite Z.add_0_l.
  destruct (Z.leb_spec (cm_quorum_threshold c) (stake_sum c (Certificate_origin <$> ps))) as [Hq|]; [|done]. intros _.
  assert (0 < cm_quorum_threshold c) as Hqp by (rewrite (wf_quorum _ Hc); pose proof (Z.div_pos (2 * total_stake c) 3); lia).
  assert (forall x, x ∈ ps -> he_round h <> 1 -> certified G x ∧ he_round (ce_header x) = he_round h - 1) as Hcert.
  { intros x Hx Hne. apply (Forall2_elem_of_r _ _ _ _ Hf) in Hx as Hx'. destruct Hx' as (d & _ & _ & Hxc).
    rewrite (proj2 (Z.eqb_neq _ _) Hne) in Hxc. split; [done|]. destruct (Hps x Hx) as [Hxr _]. unfold Certificate_round in Hxr.
    pose proof (cd_round _ _ Hcd _ _ Hxc). pose proof (Hbound _ _ Hxc). rewrite u64_add_small in Hxr by lia. lia. }
  split.
  - destruct ps as [|x ps]; [unfold stake_sum in Hq; simpl in Hq; lia|].
    destruct (Z.eq_dec (he_round h) 1) as [->|Hne]; [unfold u64_modulus; lia|].
    destruct (Hcert x ltac:(by left) Hne) as [Hxc Hxr]. pose proof (cd_round _ _ Hcd _ _ Hxc). lia.
  - done.
  - done.
  - intros p H1 (x & _ & Hd & Hx)%(Forall2_elem_of_l _ _ _ _ Hf). rewrite (proj2 (Z.eqb_eq _ _) H1) in Hx. by exists (ce_header x).
  - intros H2. exists (ce_header <$> ps). split; [split|].
    + apply Forall2_fmap_r. eapply Forall2_impl_elem; [exact Hf|]. intros d x _ Hx [<- _]. apply Hcert; [done|lia].
    + rewrite <- list_fmap_compose. exact Hnd.
    + rewrite <- list_fmap_compose. exact Hq.
    + apply Forall_fmap, Forall_forall. intros x Hx. apply Hcert; [done|lia].
Qed.

Lemma store_write_inv f r r' res : store_write f r = Some (r', res) ->
  exists outs, let r0 := mkReceiver (rv_sync r) (rv_headers r) (rv_votes r) (rv_parent_digests r) (rv_narwhal_round r) outs in
    (res = Ok tt ∧ r' = f r0) ∨ (exists e, res = Err e ∧ r' = r0).
Proof.
  unfold store_write. intros Hw. em_pure Hw. destruct (rv_outcomes r) as [|[[]|e] outs] eqn:Eo;
    [injection Hw as <- <-; exists (tail (rv_outcomes r)); by left..|].
  em_pure Hw. injection Hw as <- <-. exists (tail (rv_outcomes r)). right. by eexists.
Qed.

Context (key : Z).

Lemma decide_vote_inv now synced h ps r r' res : decide_vote cfg key now synced h ps r = Some (r', res) ->
  rv_votes r' = rv_votes r ∧ rv_sync r' = rv_sync r ∧
  forall d, res = Ok d -> check_parents_quorum cfg h ps = Ok tt ∧
    match d with
    | ResendVote _ => exists vi, rv_votes r !! he_author h = Some vi ∧ he_round h = vi_round vi ∧ header_digest h = vi_vote_digest vi
    | CreateVote => forall vi, rv_votes r !! he_author h = Some vi -> vi_round vi < he_round h
    end.
Proof.
  unfold decide_vote. intros Hd. apply em_bind_inv in Hd as [(? & [] & Hm & Hd)|(e & Hm & ->)].
  2: { unfold em_result in Hm. destruct (check_parents_quorum cfg h ps); [done|]. injection Hm as <- _. done. }
  unfold em_result in Hm. destruct (check_parents_quorum cfg h ps) as [[]|]; [injection Hm as <-|done].
  unfold em_result in Hd. destruct synced as [[]|e]; [rewrite em_ret_bind in Hd|rewrite em_fail_bind in Hd; by injection Hd as <- <-].
  destruct (check_time now h) as [[]|e]; [rewrite em_ret_bind in Hd|rewrite em_fail_bind in Hd; by injection Hd as <- <-].
  apply em_bind_inv in Hd as [(r1 & [] & Hm & Hd)|(e & Hm & ->)]; apply store_write_inv in Hm as (outs & [[? ->]|(e' & ? & ->)]); try done.
  em_pure Hd. cbn [rv_votes] in Hd. destruct (rv_votes r !! he_author h) as [vi|] eqn:Evi.
  2: { injection Hd as <- <-. split; [done|]. split; [done|]. by intros d [= <-]. }
  unfold ensure in Hd. destruct (he_epoch h =? vi_epoch vi); [rewrite em_ret_bind in Hd|rewrite em_fail_bind in Hd; by injection Hd as <- <-].
  destruct (Z.leb_spec (vi_round vi) (he_round h)) as [Hle|]; [rewrite em_ret_bind in Hd|rewrite em_fail_bind in Hd; by injection Hd as <- <-].
  destruct (Z.eqb_spec (he_round h) (vi_round vi)) as [He|Hne].
  - destruct (Z.eqb_spec (Vote_digest (Vote_new h (sf_authority_id cfg) key)) (vi_vote_digest vi)) as [Hdg|];
      [rewrite em_ret_bind in Hd|rewrite em_fail_bind in Hd; by injection Hd as <- <-].
    injection Hd as <- <-. split; [done|]. split; [done|]. intros d [= <-]. split; [done|]. by exists vi.
  - injection Hd as <- <-. split; [done|]. split; [done|]. intros d [= <-]. split; [done|]. intros vi' [= <-]. lia.
Qed.

Lemma record_vote_inv h r r' res : record_vote cfg key h r = Some (r', res) ->
  rv_sync r' = rv_sync r ∧
  match res with
  | Ok _ => rv_votes r' = <[he_author h := mkVoteInfo (he_epoch h) (he_round h) (header_digest h)]> (rv_votes r)
  | Err _ => rv_votes r' = rv_votes r
  end.
Proof.
  unfold record_vote, vote_write. intros [(r1 & [] & Hm & Hr)|(e & Hm & ->)]%em_bind_inv;
    apply store_write_inv in Hm as (outs & [[? ->]|(e' & ? & ->)]); try done. by injection Hr as <- <-.
Qed.
End handler.
