(* ===== verification/ProposerFeed.v ===== *)
(** * What the proposer makes of the parents it is sent

    The synchronizer of a node is the only one to send parents to its proposer, in the
    order of a channel.  A proposer that reads this channel has, whenever it has parents
    at all, a quorum of certified parents of its round ([fed]), and so the headers it
    makes have the shape that the other nodes check before they vote
    ([own_header_ok]). *)

From S2P Require Import Prelude Committee DagTypes ConsensusCore DagProps Certification CertificationProps CertificateStore Synchronizer SynchronizerProps Proposer ProposerProps PrimaryProps.
Local Open Scope Z_scope.
Local Open Scope chase_scope.

(** ** Events of the proposer *)

(** The headers a proposer may send. *)
Definition own_header (p : Proposer) (h : Header) : Prop :=
  h ∈ pr_headers p ∨ pr_last_proposed p = Some h ∨ pr_latest_header p = Some h.

Section events.
Context `{HH : HeaderHash} `{HR : Rng} (cfg : ProposerConfig).

Definition same_parents (p p' : Proposer) : Prop :=
  pr_round p' = pr_round p ∧ pr_last_parents p' = pr_last_parents p ∧ forall h, own_header p' h -> own_header p h.

Record proposes (p p' : Proposer) (h : Header) : Prop := {
  pp_parents : pr_last_parents p <> [];
  pp_round : pr_round p' = pr_round p +u64 1;
  pp_cleared : pr_last_parents p' = [];
  pp_own h' : own_header p' h' -> own_header p h' ∨ h' = h;
  pp_new : (exists t payload, h = mkHeader (pf_authority_id cfg) (pr_round p +u64 1) (cm_epoch (pf_committee cfg)) t payload
      (parent_set (pr_last_parents p))) ∨ pr_last_proposed p = Some h
}.

Lemma propose_spec now p p' r : propose_next cfg now p = Some (p', r) -> same_parents p p' ∨ exists h, proposes p p' h.
Proof.
  intros Hp. unfold propose_next in Hp. em_pure Hp. destruct (should_create_header cfg now p) eqn:Hsc; [right|left; by injection Hp as <- _].
  em_pure Hp. set (p1 := pr_set_round p _) in Hp.
  assert (exists p2 r2, save_header cfg now p1 = Some (p2, r2) ∧ pr_round p' = pr_round p2 ∧ pr_last_parents p' = pr_last_parents p2 ∧
    pr_headers p' = pr_headers p2 ∧ pr_latest_header p' = pr_latest_header p2 ∧ pr_last_proposed p' = pr_last_proposed p2)
    as (p2 & r2 & Hs & Hr' & Hpa' & Hh' & Hl' & Hla').
  { apply em_bind_inv in Hp as [(p2 & [] & Hs & Hp)|(e & Hs & _)]; [|by exists p', (Err e)]. exists p2, (Ok tt). split; [done|].
    em_pure Hp. em_pure Hp. em_value Hp as mx Hmx. em_value Hp as mn Hmn. em_pure Hp. by injection Hp as <- _. }
  apply save_header_spec in Hs as (q & h & [_ _ _ _ _ _ _ _ _ Hnew] & Hr2 & _ & _ & Hcase & Hlast & Hcl). simpl in *.
  exists h. split.
  - unfold should_create_header in Hsc. apply andb_true_iff in Hsc as [_ Hsc]. by apply negb_true_iff, bool_decide_eq_false in Hsc.
  - congruence.
  - congruence.
  - intros h'. unfold own_header. rewrite Hh', Hl', Hla'. destruct Hcase as [[-> ->]|[-> ->]], Hlast as [-> | ->];
      rewrite ?elem_of_app, ?list_elem_of_singleton; naive_solver.
  - exact Hnew.
Qed.

Lemma receive_spec now ps round epoch p p' r : receive_parents cfg now ps round epoch p = Some (p', r) ->
  (forall h, own_header p' h -> own_header p h) ∧
  (p' = p ∧ (epoch <> cm_epoch (pf_committee cfg) ∨ round < pr_round p) ∨
   epoch = cm_epoch (pf_committee cfg) ∧ pr_round p <= round ∧ pr_round p' = round ∧
     pr_last_parents p' = if pr_round p <? round then ps else pr_last_parents p ++ ps).
Proof.
  intros Hp. unfold receive_parents in Hp. em_pure Hp. destruct (Z.eqb_spec epoch (cm_epoch (pf_committee cfg))) as [He|He]; simpl in Hp.
  2: { injection Hp as <- _. auto. }
  destruct (Z.ltb_spec round (pr_round p)) as [Hlt|Hge]; [injection Hp as <- _; auto|].
  apply em_bind_inv in Hp as [(q & [] & Hm & Hp)|(e & Hm & _)].
  2: { destruct (_ <? _); [|done]. em_pure Hm. by em_value Hm as mx Hmx. }
  assert (pr_headers q = pr_headers p ∧ pr_latest_header q = pr_latest_header p ∧ pr_last_proposed q = pr_last_proposed p ∧ pr_round q = round ∧
    pr_last_parents q = if pr_round p <? round then ps else pr_last_parents p ++ ps) as (H1 & H2 & H3 & H4 & H5).
  { destruct (Z.ltb_spec (pr_round p) round); [em_pure Hm; em_value Hm as mx Hmx; by injection Hm as <-|].
    injection Hm as <-. simpl. split_and!; try done. lia. }
  em_pure Hp. apply em_bind_inv in Hp as [(q1 & [q2 b] & Hm' & Hp)|(e & Hm' & _)]; [|by apply em_lift_inv in Hm' as (? & _ & _ & ?)].
  apply em_lift_inv in Hm' as (? & Hready & -> & [= <-]). apply ready_same in Hready as (G0 & _ & _ & G1 & G2 & G3 & G4).
  injection Hp as <- _. unfold own_header. simpl. rewrite G1, G2, G3, H1, H2, H3. split; [done|]. right. split_and!; [done|done|congruence..].
Qed.

Lemma other_spec ev p p' r : proposer_event cfg ev p = Some (p', r) ->
  match ev with ProposeNext _ | ReceiveParents _ _ _ _ => False | _ => True end -> same_parents p p'.
Proof.
  destruct ev as [now| |rounds|now parents round epoch|m]; simpl; intros Hev Ht; [done| | |done|]; injection Hev as <- _.
  - destruct (pr_latest_header p) as [h|] eqn:El; [|done]. destruct (pr_headers_open p); [|done].
    split; [done|]. split; [done|]. intros h'. unfold own_header. simpl. rewrite elem_of_app, list_elem_of_singleton, El. naive_solver.
  - cbn zeta. by case_bool_decide.
  - done.
Qed.
End events.

(** ** The invariant *)

Section fed.
Context `{HH : HeaderHash} `{HR : Rng} (cfg : SyncConfig) (pcfg : ProposerConfig) (Hc : committee_wf (sf_committee cfg)).
Context (Hpc : pf_committee pcfg = sf_committee cfg).
Abbreviation c := (sf_committee cfg).
Implicit Types (G : gmap Z Header) (ms : list (list Certificate * Z * Z)).

(** [ms] are the messages the proposer has read.  A header is made of the committee by
    the identifier of the node. *)
Record fed G ms (p : Proposer) : Prop := {
  fd_read ps r e : (ps, r, e) ∈ ms -> e = cm_epoch c ->
    r <= pr_round p ∧ (r = pr_round p -> forall x, x ∈ ps -> x ∈ pr_last_parents p);
  fd_parents x : x ∈ pr_last_parents p ->
    if pr_round p =? 0 then Certificate_round x = 0 else exists ps e, (ps, pr_round p, e) ∈ ms ∧ x ∈ ps;
  fd_own h : own_header p h -> is_Some (cm_authorities_by_id c !! he_author h) -> header_ok cfg G h
}.

Lemma fed_same G ms p p' : fed G ms p -> same_parents p p' -> fed G ms p'.
Proof. intros [] (Hr & Hp & Ho). split; rewrite ?Hr, ?Hp; eauto. Qed.

Lemma elem_of_parent_set ps d : d ∈ parent_set ps <-> exists x, x ∈ ps ∧ Certificate_digest x = d.
Proof.
  unfold parent_set. rewrite list_elem_of_fmap. split.
  - intros ([d' []] & -> & Hd). apply elem_of_btree_iter, elem_of_list_to_map_2, list_elem_of_fmap in Hd as (x & [= ->] & Hx). eauto.
  - intros (x & Hx & <-). exists (Certificate_digest x, tt). split; [done|]. apply elem_of_btree_iter.
    destruct (_ !! Certificate_digest x) as [[]|] eqn:E; [done|]. apply not_elem_of_list_to_map in E. exfalso. apply E.
    rewrite <- list_fmap_compose. apply list_elem_of_fmap. by exists x.
Qed.

Lemma parent_set_NoDup ps : NoDup (parent_set ps).
Proof. apply btree_iter_NoDup. Qed.

Section dag.
Context (G : gmap Z Header) (Hcd : certified_dag c G) (Hepoch : forall d h, G !! d = Some h -> he_epoch h = cm_epoch c).

(** A set of certified parents of one round that contains a quorum. *)
Lemma parent_set_ok h ps qs r : he_parents h = parent_set ps -> (forall x, x ∈ ps -> certified G x ∧ Certificate_round x = r) ->
  quorum_of c qs -> (forall x, x ∈ qs -> x ∈ ps) ->
  exists hs, parents_ok c G h hs ∧ Forall (fun q => he_round q = r) hs.
Proof.
  intros Hh Hps [Hn Hq] Hsub. set (f d := default h (G !! d)).
  assert (forall x, x ∈ ps -> f (Certificate_digest x) = ce_header x) as Hf.
  { intros x Hx. destruct (Hps x Hx) as [Hc' _]. unfold f, certified, in_dag, Certificate_digest in *. by rewrite Hc'. }
  assert (forall d, d ∈ parent_set ps -> exists x, x ∈ ps ∧ Certificate_digest x = d ∧ f d = ce_header x) as Hel.
  { intros d (x & Hx & <-)%elem_of_parent_set. eauto. }
  exists (f <$> parent_set ps). split; [split|].
  - rewrite Hh. apply Forall2_fmap_r, Forall_Forall2_diag, Forall_forall. intros d (x & Hx & <- & Hfx)%Hel.
    change (G !! Certificate_digest x = Some (f (Certificate_digest x))). rewrite Hfx. by apply Hps.
  - rewrite <- list_fmap_compose. apply NoDup_fmap_2_strong; [|apply parent_set_NoDup].
    intros d d' (x & Hx & <- & Hfx)%Hel (y & Hy & <- & Hfy)%Hel. simpl. rewrite Hfx, Hfy. intros Ha.
    destruct (Hps x Hx) as [Hxc Hxr], (Hps y Hy) as [Hyc Hyr]. unfold Certificate_round in *.
    unfold Certificate_digest. f_equal. eapply (cd_unique _ _ Hcd); [exact Hxc|exact Hyc|congruence|done].
  - etrans; [exact Hq|]. apply sum_of_subset; [by apply stake_by_id_pos|done|]. intros i (x & -> & Hx)%list_elem_of_fmap. right.
    rewrite <- list_fmap_compose. apply list_elem_of_fmap. exists (Certificate_digest x). apply Hsub in Hx. simpl. rewrite Hf by done.
    split; [done|]. apply elem_of_parent_set. eauto.
  - apply Forall_fmap, Forall_forall. intros d (x & Hx & <- & Hfx)%Hel. simpl. rewrite Hfx. by apply Hps.
Qed.

Lemma own_header_ok ms p h t payload : messages_ok c G ms -> fed G ms p -> 0 <= pr_round p < u64_modulus - 2 -> pr_last_parents p <> [] ->
  h = mkHeader (pf_authority_id pcfg) (pr_round p +u64 1) (cm_epoch (pf_committee pcfg)) t payload (parent_set (pr_last_parents p)) ->
  is_Some (cm_authorities_by_id c !! he_author h) -> header_ok cfg G h.
Proof.
  intros Hms [Hread Hpar _] Hr Hne Hh Ha. rewrite u64_add_small in Hh by lia. rewrite Hpc in Hh.
  split; [subst h; simpl; lia|by subst h|done|..].
  - subst h. simpl. intros d H1 (x & Hx & <-)%elem_of_parent_set. specialize (Hpar x Hx). rewrite (proj2 (Z.eqb_eq _ _)) in Hpar by lia.
    by exists (ce_header x).
  - intros H2. assert (pr_round p <> 0) as Hnz by (subst h; simpl in H2; lia). rewrite (proj2 (Z.eqb_neq _ _) Hnz) in Hpar.
    assert (he_round h - 1 = pr_round p) as -> by (subst h; simpl; lia).
    assert (forall ps e, (ps, pr_round p, e) ∈ ms -> exists i, message_ok c G ms i ps (pr_round p) e) as Hm.
    { intros ps e [i Hi]%list_elem_of_lookup. eauto. }
    assert (exists qs, quorum_of c qs ∧ forall x, x ∈ qs -> x ∈ pr_last_parents p) as (qs & Hqs & Hsub).
    { destruct (pr_last_parents p) as [|x l] eqn:El; [done|]. destruct (Hpar x ltac:(by left)) as (ps & e & Hin & Hx).
      destruct (Hm _ _ Hin) as [i [_ _ _ Hq]]. destruct Hq as (j & qs & e' & _ & Hj & Hqs); [by destruct ps; [apply not_elem_of_nil in Hx|]|].
      exists qs. split; [done|]. apply list_elem_of_lookup_2 in Hj as Hjin. destruct (Hms _ _ _ _ Hj) as [_ (y & Hy & ->) _ _].
      apply (proj2 (Hread _ _ _ Hjin (Hepoch _ _ Hy)) eq_refl). }
    apply (parent_set_ok h (pr_last_parents p) qs); [by subst h| |done|done].
    intros x Hx. destruct (Hpar x Hx) as (ps & e & Hin & Hxp). destruct (Hm _ _ Hin) as [i [_ _ Hce _]]. by apply Hce.
Qed.

Lemma fed_propose ms now p p' r : messages_ok c G ms -> fed G ms p -> 0 <= pr_round p < u64_modulus - 2 ->
  propose_next pcfg now p = Some (p', r) -> fed G ms p'.
Proof.
  intros Hms Hp Hr [Hs|(h & [Hne Hr' Hcl Hown Hnew])]%propose_spec; [by eapply fed_same|].
  rewrite u64_add_small in Hr' by lia. split.
  - intros ps r' e Hin He. destruct (fd_read _ _ _ Hp _ _ _ Hin He) as [Hle _]. split; lia.
  - intros x. rewrite Hcl. by intros ?%not_elem_of_nil.
  - intros h' [Ho| ->]%Hown Ha; [by apply (fd_own _ _ _ Hp)|]. destruct Hnew as [(t & payload & Heq)|Hlast].
    + by eapply own_header_ok.
    + apply (fd_own _ _ _ Hp); [|done]. right. by left.
Qed.

Lemma fed_receive ms now ps round epoch p p' r : message_ok c G (ms ++ [(ps, round, epoch)]) (length ms) ps round epoch -> fed G ms p ->
  receive_parents pcfg now ps round epoch p = Some (p', r) -> fed G (ms ++ [(ps, round, epoch)]) p'.
Proof.
  intros Hm [Hread Hpar Hown] [Hown' Hcase]%receive_spec. rewrite Hpc in Hcase.
  destruct Hcase as [[-> Hskip]|(He & Hle & Hr & Hps)].
  - split; [| |done].
    + intros ps' r' e' [Hin|[= -> -> ->]%list_elem_of_singleton]%elem_of_app He; [by eauto|]. destruct Hskip; [done|lia].
    + intros x Hx. specialize (Hpar x Hx). destruct (_ =? 0); [done|]. destruct Hpar as (ps' & e' & Hin & Hxin). exists ps', e'.
      split; [|done]. apply elem_of_app. by left.
  - split; rewrite ?Hr, ?Hps; [| |by eauto].
    + intros ps' r' e' [Hin|[= -> -> ->]%list_elem_of_singleton]%elem_of_app He'.
      * destruct (Hread _ _ _ Hin He') as [Hle' Hsub]. split; [lia|]. intros -> x Hx. destruct (Z.ltb_spec (pr_round p) round); [lia|].
        apply elem_of_app. left. apply Hsub; [lia|done].
      * split; [lia|]. intros _ x Hx. destruct (_ <? _); [done|]. apply elem_of_app. by right.
    + assert (forall x, x ∈ ps -> if round =? 0 then Certificate_round x = 0 else
        exists ps0 e0, (ps0, round, e0) ∈ ms ++ [(ps, round, epoch)] ∧ x ∈ ps0) as Hnew.
      { intros x Hx. destruct (Z.eqb_spec round 0) as [H0|]; [rewrite <- H0; by apply (me_certified _ _ _ _ _ _ _ Hm)|].
        exists ps, epoch. split; [|done]. apply elem_of_app. right. by left. }
      intros x. destruct (Z.ltb_spec (pr_round p) round); [by apply Hnew|]. intros [Hx|Hx]%elem_of_app; [|by apply Hnew].
      specialize (Hpar x Hx). replace (pr_round p) with round in Hpar by lia. destruct (_ =? 0); [done|].
      destruct Hpar as (ps' & e' & Hin & Hxin). exists ps', e'. split; [|done]. apply elem_of_app. by left.
Qed.
End dag.
End fed.
