(* ===== verification/PrimarySafe.v ===== *)
(** * Certified headers are unique

    The invariant of the nodes of an epoch ([node_ok]) and what follows from it: in every
    world that is reached, the headers that can have a certificate form a certified dag,
    and the nodes store nothing else ([world_steps_keep]); Epoch has the theorems. *)

From S2P Require Import Prelude Committee DagTypes DagProps Certification CertificationProps CertificateStore Synchronizer SynchronizerProps SynchronizerSafe Voting Proposer ProposerProps PrimaryNode PrimaryProps ProposerFeed.
Local Open Scope Z_scope.
Local Open Scope chase_scope.

(** ** A node *)

Section node.
Context `{HH : HeaderHash} `{HS : Signatures} `{HI : SetIter} `{!SetIterLaws} `{HR : Rng} {T : Type} `{HT : StoreCache T} `{!CacheLaws T}.
Context (digest_inj : forall h h' : Header, header_digest h = header_digest h' -> h = h').
Context (cfg : SyncConfig) (pcfg : ProposerConfig) (key : Z) (Hc : committee_wf (sf_committee cfg)).
Context (Hgen : forall d x, sf_genesis cfg !! d = Some x -> Certificate_digest x = d ∧ Certificate_round x = 0).
Implicit Types n : Primary T.
Abbreviation c := (sf_committee cfg).
Abbreviation me := (pf_authority_id pcfg).
Abbreviation votes n := (rv_votes (pm_receiver n)).
Abbreviation parents_sent n := (sc_parents (sn_channels (rv_sync (pm_receiver n)))).
Context (Hpc : pf_committee pcfg = sf_committee cfg).

(** A request in flight; before the signature the author has no vote of the round. *)
Record request_ok (G : gmap Z Header) n (peer : Z) (h : Header) (ph : RequestPhase) : Prop := {
  rq_checked : request_checked cfg peer h;
  rq_author : he_author h <> me;
  rq_round : 0 <= he_round h < u64_modulus - 1;
  rq_header : ph = AwaitSignature -> header_ok cfg G h;
  rq_new vi : ph = AwaitSignature -> votes n !! he_author h = Some vi -> vi_round vi < he_round h
}.

Record node_ok (G : gmap Z Header) n : Prop := {
  nk_sync : fed_ok cfg G ∅ (rv_sync (pm_receiver n));
  nk_voted h : h ∈ pm_voted n -> header_ok cfg G h ∧ he_author h <> me;
  nk_unique h h' : h ∈ pm_voted n -> h' ∈ pm_voted n -> he_author h = he_author h' -> he_round h = he_round h' -> h = h';
  nk_last h : h ∈ pm_voted n -> exists vi, votes n !! he_author h = Some vi ∧ he_round h <= vi_round vi;
  nk_info a vi : votes n !! a = Some vi ->
    exists h, h ∈ pm_voted n ∧ he_author h = a ∧ he_round h = vi_round vi ∧ header_digest h = vi_vote_digest vi;
  nk_request peer h ph : pm_requests n !! peer = Some (h, ph) -> request_ok G n peer h ph;
  nk_proposer : proposer_ok (pm_proposer n);
  nk_own : proposer_own pcfg (pm_proposer n);
  nk_fed : fed cfg G (take (pm_parents_read n) (parents_sent n)) (pm_proposer n);
  nk_read : (pm_parents_read n <= length (parents_sent n))%nat
}.

(** Peers are the authors of what they send. *)
Lemma checked_same_peer peer peer' h h' :
  request_checked cfg peer h -> request_checked cfg peer' h' -> he_author h = he_author h' -> peer = peer'.
Proof.
  intros [_ _ (a & Ha & Hi)] [_ _ (a' & Ha' & Hi')] He. unfold authority_by_network_key in *.
  apply List.find_some in Ha as [Hin Hk], Ha' as [Hin' Hk']. apply Z.eqb_eq in Hk, Hk'.
  apply list_elem_of_In, (wf_indexed _ Hc) in Hin, Hin'. rewrite Hi in Hin. rewrite Hi', <- He in Hin'. congruence.
Qed.

Lemma header_ok_mono (G G' : gmap Z Header) h : G ⊆ G' -> header_ok cfg G h -> header_ok cfg G' h.
Proof.
  intros Hsub [Hr He Ha Hf Hp]. split; [done..|]. intros H2. destruct (Hp H2) as (ps & [Hl ? ?] & ?). exists ps. split; [|done].
  split; [|done..]. eapply Forall2_impl; [exact Hl|]. intros p q Hq. exact (lookup_weaken _ _ _ _ Hq Hsub).
Qed.

Lemma node_ok_mono (G G' : gmap Z Header) n : G ⊆ G' -> node_ok G n -> node_ok G' n.
Proof.
  intros Hsub []. split; try done.
  - by eapply fed_ok_mono.
  - intros h [? ?]%nk_voted0. split; [by eapply header_ok_mono|done].
  - intros peer h ph [? ? ? ? ?]%nk_request0. split; eauto using header_ok_mono.
  - destruct nk_fed0 as [? ? Hown]. split; [done..|]. intros h Ho Ha. by eapply header_ok_mono, Hown.
Qed.

Context (G : gmap Z Header) (Hcd : certified_dag (sf_committee cfg) G).
Context (Hbound : forall d h, G !! d = Some h -> he_round h < u64_modulus - 1).
Context (Hepoch : forall d h, G !! d = Some h -> he_epoch h = cm_epoch (sf_committee cfg)).

Lemma node_receiver n r : node_ok G n -> handler_keeps cfg G (pm_receiver n) r ->
  node_ok G (mkPrimary r (pm_proposer n) (pm_parents_read n) (pm_requests n) (pm_voted n)).
Proof.
  intros [] [Hv [Hs [l Hl]]]. split; simpl; rewrite ?Hv, ?Hl; try done.
  - intros peer h ph [? ? ? ? ?]%nk_request0. split; simpl; rewrite ?Hv; done.
  - by rewrite take_app_le.
  - rewrite length_app. lia.
Qed.

Lemma node_request n peer r : node_ok G n -> (forall h ph, r = Some (h, ph) -> request_ok G n peer h ph) -> node_ok G (set_request peer r n).
Proof.
  intros [] Hr. split; simpl; try done. intros peer' h ph. destruct (decide (peer = peer')) as [<-|Hne].
  - rewrite lookup_partial_alter_eq. intros ->. by destruct (Hr h ph eq_refl).
  - rewrite lookup_partial_alter_ne by done. intros Hl. by destruct (nk_request0 _ _ _ Hl).
Qed.

(** A vote is sent for a header that has one already. *)
Lemma node_resend n peer h : node_ok G n -> h ∈ pm_voted n -> node_ok G (send_vote peer h n).
Proof.
  intros [] Hh. assert (forall h', h' ∈ pm_voted n ++ [h] -> h' ∈ pm_voted n) as Hin.
  { by intros h' [?| ->%list_elem_of_singleton]%elem_of_app. }
  split; simpl; eauto.
  - intros a vi (h' & ? & ?)%nk_info0. exists h'. split; [|done]. apply elem_of_app. by left.
  - intros peer' h' ph [_ Hl]%lookup_delete_Some. by destruct (nk_request0 _ _ _ Hl).
Qed.

(** A vote for the header of a request that is recorded first. *)
Lemma node_vote n peer h r : node_ok G n -> pm_requests n !! peer = Some (h, AwaitSignature) -> rv_sync r = rv_sync (pm_receiver n) ->
  rv_votes r = <[he_author h := mkVoteInfo (he_epoch h) (he_round h) (header_digest h)]> (votes n) ->
  node_ok G (send_vote peer h (mkPrimary r (pm_proposer n) (pm_parents_read n) (pm_requests n) (pm_voted n))).
Proof.
  intros Hn Hreq Hs Hv. destruct (nk_request _ _ Hn _ _ _ Hreq) as [Hck Ha Hr Hh Hnew]. specialize (Hh eq_refl).
  specialize (fun vi => Hnew vi eq_refl).
  assert (forall h', h' ∈ pm_voted n -> he_author h' = he_author h -> he_round h' < he_round h) as Hlt.
  { intros h' Hin Hau. destruct (nk_last _ _ Hn _ Hin) as (vi & Hvi & ?). rewrite Hau in Hvi. specialize (Hnew _ Hvi). lia. }
  destruct Hn. split; simpl; rewrite ?Hs, ?Hv; try done.
  - by intros h' [?| ->%list_elem_of_singleton]%elem_of_app; auto.
  - intros h1 h2 [H1| ->%list_elem_of_singleton]%elem_of_app [H2| ->%list_elem_of_singleton]%elem_of_app He Hr'; [by eauto| | |done].
    + specialize (Hlt _ H1 He). lia.
    + specialize (Hlt _ H2 (eq_sym He)). lia.
  - intros h' [Hin| ->%list_elem_of_singleton]%elem_of_app; [|rewrite lookup_insert_eq; eexists; split; [done|simpl; lia]].
    destruct (decide (he_author h' = he_author h)) as [He|Hne].
    + rewrite He, lookup_insert_eq. eexists. split; [done|]. simpl. specialize (Hlt _ Hin He). lia.
    + rewrite lookup_insert_ne by done. auto.
  - intros a vi [[<- <-]|[_ (h' & ? & ?)%nk_info0]]%lookup_insert_Some; simpl; [exists h|exists h']; rewrite elem_of_app, list_elem_of_singleton; auto.
  - intros peer' h' ph [Hne Hl]%lookup_delete_Some. destruct (nk_request0 _ _ _ Hl). split; simpl; rewrite ?Hv; try done.
    intros vi Hph. rewrite lookup_insert_ne; [by auto|]. intros He. by apply Hne, (checked_same_peer _ _ h h').
Qed.

(** ** Events *)

Lemma on_receiver_inv {A} (m : EM (Receiver T) DagError A) n n' x : on_receiver m n = Some (n', x) ->
  exists r, m (pm_receiver n) = Some (r, x) ∧ n' = mkPrimary r (pm_proposer n) (pm_parents_read n) (pm_requests n) (pm_voted n).
Proof. unfold on_receiver. destruct (m (pm_receiver n)) as [[r y]|]; [|done]. intros [= <- <-]. by exists r. Qed.

(** What an event may bring. *)
Definition event_certified (ev : PrimaryEvent) n : Prop :=
  match ev with
  | EventSync (ReceiveCertificate now x) =>
      Certificate_verify now c (sf_worker_cache cfg) x = Some (Ok tt) -> 1 <= Certificate_round x -> certified G x
  | EventSync (ReceiveFetched _ x) => certified G x
  | EventSync (CollectRound r) => sn_gc_round (rv_sync (pm_receiver n)) <= r < u64_modulus - 1
  | EventRequest now _ h ps => 0 <= he_round h < u64_modulus - 1 ∧ he_author h <> me ∧
      forall x, x ∈ ps -> Certificate_verify now c (sf_worker_cache cfg) x = Some (Ok tt) -> 1 <= Certificate_round x -> certified G x
  | EventProposer (ProposeNext _) => pr_round (pm_proposer n) < u64_modulus - 2
  | EventProposer (ReceiveParents _ _ _ _) => False
  | _ => True
  end.

(** Votes are not taken back. *)
Definition node_steps n n' : Prop := node_ok G n' ∧ forall h, h ∈ voted_by n -> h ∈ voted_by n'.

Lemma sync_event_steps ev n n' r : node_ok G n -> event_certified (EventSync ev) n ->
  on_receiver (on_sync (sync_event cfg ev)) n = Some (n', r) -> node_steps n n'.
Proof.
  intros Hn Hev (rc & Hrc & ->)%on_receiver_inv. split; [|done]. apply node_receiver; [done|].
  eapply on_sync_keeps; [|exact Hrc]. intros s x Hs. eapply (sync_event_keeps cfg Hc G Hcd); [apply Hn|exact Hs|]. by destruct ev.
Qed.

Lemma request_arrives_steps now peer h ps n n' r : node_ok G n -> event_certified (EventRequest now peer h ps) n ->
  request_arrives cfg now peer h ps n = Some (n', r) -> node_steps n n'.
Proof.
  intros Hn (Hround & Hme & Hps) Hr. unfold request_arrives in Hr. em_pure Hr.
  destruct (pm_requests n !! peer); [by injection Hr as <- _|].
  assert (forall n1 x, on_receiver (_ ← check_request cfg (Some peer) h ps; request_parents cfg now h ps) n = Some (n1, x) ->
    node_steps n n1 ∧ forall y, x = Ok y -> request_checked cfg peer h) as Hstep.
  { intros n1 x (rc & Hm & ->)%on_receiver_inv. apply em_bind_inv in Hm as [(rc1 & [] & Hck & Hm)|(e & Hck & ->)].
    - pose proof (check_request_same _ _ _ _ _ _ _ Hck) as ->. split; [|intros; by eapply check_request_ok].
      split; [|done]. apply node_receiver; [done|]. eapply request_parents_keeps; [exact Hc|exact Hcd|apply Hn|exact Hps|exact Hm].
    - pose proof (check_request_same _ _ _ _ _ _ _ Hck) as ->. split; [|done]. split; [by destruct n|done]. }
  apply em_bind_inv in Hr as [(n1 & missing & Hm & Hr)|(e & Hm & _)]; apply Hstep in Hm as [[Hn1 Hg] Hck]; [|done].
  case_bool_decide; injection Hr as <- _; [|done]. split; [|done]. apply node_request; [done|]. intros ? ? [= <- <-].
  split; eauto; done.
Qed.

Lemma end_request_steps peer (m : EM (Primary T) DagError unit) n n' r :
  (forall n1 x, m n = Some (n1, x) -> node_steps n n1) -> or_end_request peer m n = Some (n', r) -> node_steps n n'.
Proof.
  intros Hm. unfold or_end_request. destruct (m n) as [[n1 [x|e]]|]; [..|done]; intros [= <- _]; destruct (Hm _ _ eq_refl) as [H1 H2]; [done|].
  split; [by apply node_request|done].
Qed.

Lemma parents_ready_steps now synced peer n n' r : node_ok G n ->
  request_parents_ready cfg key now synced peer n = Some (n', r) -> node_steps n n'.
Proof.
  intros Hn Hr. unfold request_parents_ready in Hr. em_pure Hr.
  destruct (pm_requests n !! peer) as [[h []]|] eqn:Ereq; [|by injection Hr as <- _..].
  pose proof (nk_request _ _ Hn _ _ _ Ereq) as [Hck Ha Hround _ _].
  revert Hr. apply end_request_steps. intros n1 x Hr.
  assert (forall n2 y, on_receiver (on_sync (notify_read_parent_certificates cfg h)) n = Some (n2, y) -> node_steps n n2 ∧
    (forall ps, y = Ok (Some ps) -> Forall2 (parent_read G h) (he_parents h) ps) ∧ votes n2 = votes n ∧ pm_voted n2 = pm_voted n) as Hread.
  { intros n2 y (rc & Hm & ->)%on_receiver_inv. unfold on_sync in Hm.
    destruct (notify_read_parent_certificates cfg h (rv_sync (pm_receiver n))) as [[s z]|] eqn:En; [|done]. injection Hm as <- <-.
    destruct (notify_keeps cfg G Hgen h _ _ _ (nk_sync _ _ Hn) En) as [Hs Hps]. split; [|done]. split; [|done].
    apply node_receiver; [done|]. by split. }
  apply em_bind_inv in Hr as [(n2 & ps & Hm & Hr)|(e & Hm & _)]; apply Hread in Hm as ([Hn2 Hg] & Hps & Hv & Hvd); [|done].
  destruct ps as [ps|]; [|by injection Hr as <- _]. specialize (Hps ps eq_refl).
  assert (forall n3 y, on_receiver (decide_vote cfg key now synced h ps) n2 = Some (n3, y) -> node_ok G n3 ∧ pm_voted n3 = pm_voted n2 ∧
    voted_by n3 = voted_by n2 ∧ votes n3 = votes n2 ∧ forall d, y = Ok d -> header_ok cfg G h ∧ match d with
      | ResendVote _ => h ∈ pm_voted n3
      | CreateVote => forall vi, votes n3 !! he_author h = Some vi -> vi_round vi < he_round h
      end) as Hdec.
  { intros n3 y (rc & Hm' & ->)%on_receiver_inv. apply decide_vote_inv in Hm' as (Hv' & Hs' & Hd).
    split; [apply node_receiver; [done|]; split; [done|rewrite Hs'; apply fed_steps_refl, Hn2]|]. do 3 (split; [done|]). intros d Hok. simpl.
    destruct (Hd d Hok) as [Hq Hcase]. split; [eapply parents_header_ok; eauto using rc_author, rc_epoch|]. rewrite Hv'.
    destruct d; [|done]. destruct Hcase as (vi & Hvi & Hrd & Hdg). destruct (nk_info _ _ Hn2 _ _ Hvi) as (h' & Hin & _ & _ & Hdg').
    by rewrite (digest_inj h h') by congruence. }
  apply em_bind_inv in Hr as [(n3 & d & Hm' & Hr)|(e & Hm' & _)]; apply Hdec in Hm' as (Hn3 & _ & Hg3 & _ & Hd).
  2: { split; [done|]. intros h' Hh'. rewrite Hg3. auto. }
  destruct (Hd d eq_refl) as [Hho Hcase]. destruct d; injection Hr as <- _.
  - split; [by apply node_resend|]. intros h' Hh'. apply Hg in Hh'. rewrite <- Hg3 in Hh'. unfold voted_by in *. simpl. set_solver.
  - split; [apply node_request; [done|]; intros ? ? [= <- <-]; split; auto|]. intros h' Hh'. apply Hg in Hh'. by rewrite <- Hg3 in Hh'.
Qed.

Lemma signed_steps peer n n' r : node_ok G n -> request_signed cfg key peer n = Some (n', r) -> node_steps n n'.
Proof.
  intros Hn Hr. unfold request_signed in Hr. em_pure Hr. destruct (pm_requests n !! peer) as [[h []]|] eqn:Ereq; [by injection Hr as <- _| |by injection Hr as <- _].
  revert Hr. apply end_request_steps. intros n1 x [(n2 & v & Hm & Hr)|(e & Hm & _)]%em_bind_inv;
    apply on_receiver_inv in Hm as (rc & [Hs Hv]%record_vote_inv & ->).
  - injection Hr as <- _. split; [by apply node_vote|]. intros h'. unfold voted_by. simpl. set_solver.
  - split; [|done]. apply node_receiver; [done|]. split; [done|rewrite Hs; apply fed_steps_refl, Hn].
Qed.

(** A step of the proposer, which has read [k] messages. *)
Lemma proposer_steps ev n p k r : node_ok G n -> round_allowed ev (pm_proposer n) -> proposer_event pcfg ev (pm_proposer n) = Some (p, r) ->
  fed cfg G (take k (parents_sent n)) p -> (k <= length (parents_sent n))%nat ->
  node_steps n (mkPrimary (pm_receiver n) p k (pm_requests n) (pm_voted n)).
Proof.
  intros Hn Hall Ep Hfed Hk. destruct (event_keeps_ok pcfg ev _ _ _ (nk_proposer _ _ Hn) Hall Ep) as [Hok _].
  destruct (event_own pcfg ev _ _ _ (nk_own _ _ Hn) Ep) as [Hown [l Hl]]. split.
  - destruct Hn. split; simpl; try done. by intros peer h ph [? ? ? ? ?]%nk_request0.
  - intros h. unfold voted_by. simpl. rewrite Hl. set_solver.
Qed.

Lemma read_messages_ok n k : node_ok G n -> messages_ok c G (take k (parents_sent n)).
Proof.
  intros Hn i ps r e [Hi Hlt]%lookup_take_Some. destruct (fe_messages _ _ _ _ (proj2 (nk_sync _ _ Hn)) _ _ _ _ Hi) as [? ? ? Hq].
  split; [done..|]. intros (j & qs & e' & Hj & Hl & ?)%Hq. exists j, qs, e'. split_and!; [done| |done]. apply lookup_take_Some. split; [done|lia].
Qed.

Lemma proposer_event_steps ev n n' r : node_ok G n -> event_certified (EventProposer ev) n ->
  on_proposer (proposer_event pcfg ev) n = Some (n', r) -> node_steps n n'.
Proof.
  intros Hn Hev Hr. unfold on_proposer in Hr. destruct (proposer_event pcfg ev (pm_proposer n)) as [[p x]|] eqn:Ep; [|done]. injection Hr as <- _.
  pose proof (pk_round _ (nk_proposer _ _ Hn)) as Hround.
  eapply proposer_steps; [done| |exact Ep| |apply Hn].
  - destruct ev; [simpl in Hev |- *; lia|exact I|exact I|destruct Hev|exact I].
  - destruct ev; [|exact (fed_same _ _ _ _ _ (nk_fed _ _ Hn) (other_spec _ _ _ _ _ Ep I))..| |]; [|destruct Hev|exact (fed_same _ _ _ _ _ (nk_fed _ _ Hn) (other_spec _ _ _ _ _ Ep I))].
    change ((_ ← propose_next pcfg now; mret tt) (pm_proposer n) = Some (p, x)) in Ep. simpl in Hev. assert (exists q b, propose_next pcfg now (pm_proposer n) = Some (q, b) ∧ p = q) as (q & b & Hq & ->).
    { apply em_bind_inv in Ep as [(q & b & Hq & Ep)|(e & Hq & _)]; [injection Ep as <- _|]; eauto. }
    eapply (fed_propose cfg pcfg Hc Hpc G Hcd Hepoch); [by apply read_messages_ok|apply Hn|lia|exact Hq].
Qed.

Lemma parents_arrive_steps now n n' r : node_ok G n -> parents_arrive pcfg now n = Some (n', r) -> node_steps n n'.
Proof.
  intros Hn Hr. unfold parents_arrive in Hr. em_pure Hr. destruct (parents_sent n !! pm_parents_read n) as [[[ps round] epoch]|] eqn:Em;
    [|by injection Hr as <- _].
  em_pure Hr. unfold on_proposer in Hr. simpl in Hr.
  destruct (receive_parents pcfg now ps round epoch (pm_proposer n)) as [[p x]|] eqn:Ep; [|done]. injection Hr as <- _.
  pose proof (read_messages_ok n (S (pm_parents_read n)) Hn) as Hms. rewrite (take_S_r _ _ _ Em) in Hms.
  assert (length (take (pm_parents_read n) (parents_sent n)) = pm_parents_read n) as Hlen by (rewrite length_take; apply lookup_lt_Some in Em; lia).
  assert (message_ok c G (take (pm_parents_read n) (parents_sent n) ++ [(ps, round, epoch)]) (length (take (pm_parents_read n) (parents_sent n))) ps round epoch) as Hm.
  { apply Hms. by rewrite lookup_app_r, Nat.sub_diag by lia. }
  eapply (proposer_steps (ReceiveParents now ps round epoch)); [done|apply (me_round _ _ _ _ _ _ _ Hm)|exact Ep| |apply lookup_lt_Some in Em; lia].
  rewrite (take_S_r _ _ _ Em). eapply fed_receive; [done|exact Hm|apply Hn|exact Ep].
Qed.

Lemma primary_event_steps ev n n' r : node_ok G n -> event_certified ev n ->
  primary_event cfg pcfg key ev n = Some (n', r) -> node_steps n n'.
Proof.
  intros Hn Hev Hr. destruct ev as [ev|now peer h ps|now synced peer|peer|peer|ev|now]; simpl in Hr.
  - by eapply sync_event_steps.
  - by eapply request_arrives_steps.
  - by eapply parents_ready_steps.
  - by eapply signed_steps.
  - injection Hr as <- _. split; [by apply node_request|done].
  - by eapply proposer_event_steps.
  - by eapply parents_arrive_steps.
Qed.
End node.

(** ** The world *)

Section world.
Context `{HH : HeaderHash} `{HS : Signatures} `{HI : SetIter} `{!SetIterLaws} `{HR : Rng} {T : Type} `{HT : StoreCache T} `{!CacheLaws T}.
Context (digest_inj : forall h h' : Header, header_digest h = header_digest h' -> h = h').
Context (c : Committee) (Hc : committee_wf c).
Implicit Types W : gmap Z (Primary T).

Lemma elem_of_all_voted W h : h ∈ all_voted W <-> exists i n, W !! i = Some n ∧ h ∈ voted_by n.
Proof.
  unfold all_voted. rewrite list_elem_of_In, in_concat. split.
  - intros (l & Hl & Hh%list_elem_of_In). apply list_elem_of_In, list_elem_of_fmap in Hl as (n & -> & ((i & n') & -> & Hin)%list_elem_of_fmap).
    exists i, n'. split; [by apply elem_of_map_to_list|done].
  - intros (i & n & Hi & Hh). exists (voted_by n). split; [|by apply list_elem_of_In]. apply list_elem_of_In, list_elem_of_fmap.
    exists n. split; [done|]. apply list_elem_of_fmap. exists (i, n). split; [done|]. by apply elem_of_map_to_list.
Qed.

Lemma elem_of_supporters W h i : i ∈ supporters c W h <-> i ∈ authority_ids c ∧ forall n, W !! i = Some n -> h ∈ voted_by n.
Proof.
  unfold supporters. rewrite list_elem_of_In, filter_In, <- list_elem_of_In. f_equiv. destruct (W !! i) as [n|]; [|by split].
  rewrite bool_decide_eq_true. split; [by intros Hh ? [= <-]|auto].
Qed.

Lemma elem_of_byzantine W i : i ∈ byzantine c W <-> i ∈ authority_ids c ∧ W !! i = None.
Proof.
  unfold byzantine. rewrite list_elem_of_In, filter_In, <- list_elem_of_In. f_equiv. by destruct (W !! i).
Qed.

Lemma supporters_NoDup W h : NoDup (supporters c W h).
Proof. apply NoDup_ListNoDup, List.NoDup_filter, NoDup_ListNoDup, (wf_distinct _ Hc). Qed.

Lemma byzantine_NoDup W : NoDup (byzantine c W).
Proof. apply NoDup_ListNoDup, List.NoDup_filter, NoDup_ListNoDup, (wf_distinct _ Hc). Qed.

Definition can_certify W h : Prop := h ∈ all_voted W ∧ cm_quorum_threshold c <= stake_sum c (supporters c W h).

Lemma certified_lookup W d h : certified_headers c W !! d = Some h <-> header_digest h = d ∧ can_certify W h.
Proof.
  unfold certified_headers, can_certify. set (l := List.filter _ (all_voted W)).
  assert (forall h', h' ∈ l <-> h' ∈ all_voted W ∧ cm_quorum_threshold c <= stake_sum c (supporters c W h')) as Hl.
  { intros h'. unfold l. by rewrite list_elem_of_In, filter_In, <- list_elem_of_In, Z.leb_le. }
  rewrite <- Hl. split.
  - intros Hd%elem_of_list_to_map_2. apply list_elem_of_fmap in Hd as (h' & [= -> ->] & Hin). done.
  - intros [<- Hin]. destruct (list_to_map ((fun h => (header_digest h, h)) <$> l) !! header_digest h) as [h'|] eqn:E.
    + apply elem_of_list_to_map_2 in E. apply list_elem_of_fmap in E as (h2 & [= Hd ->] & _). f_equal. symmetry. by apply digest_inj.
    + apply not_elem_of_list_to_map in E. exfalso. apply E. rewrite <- list_fmap_compose.
      apply list_elem_of_fmap. by exists h.
Qed.

(** Votes are added to a world; the honest nodes stay the same. *)
Definition world_grows W W' : Prop :=
  (forall i n', W' !! i = Some n' -> exists n, W !! i = Some n ∧ forall h, h ∈ voted_by n -> h ∈ voted_by n') ∧
  (forall i n, W !! i = Some n -> is_Some (W' !! i)).

Lemma certified_grows W W' : world_grows W W' -> certified_headers c W ⊆ certified_headers c W'.
Proof.
  intros [Hb Hf]. apply map_subseteq_spec. intros d h [Hd [Hv Hq]]%certified_lookup. apply certified_lookup. split; [done|]. split.
  - apply elem_of_all_voted in Hv as (i & n & Hi & Hh). destruct (Hf i n Hi) as [n' Hi']. destruct (Hb i n' Hi') as (n2 & Hi2 & Hn2).
    apply elem_of_all_voted. exists i, n'. split; [done|]. apply Hn2. congruence.
  - etrans; [exact Hq|]. apply sum_of_subset; [by apply stake_by_id_pos|apply supporters_NoDup|].
    intros i [Hi Hs]%elem_of_supporters. right. apply elem_of_supporters. split; [done|].
    intros n' Hn'. destruct (Hb i n' Hn') as (n & Hn & Hg). auto.
Qed.

(** The Byzantine authorities have less than a third of the stake. *)
Definition few_byzantine W : Prop := stake_sum c (byzantine c W) < cm_validity_threshold c.

(** Someone honest stands behind a certified header. *)
Lemma honest_voter W h : few_byzantine W -> cm_quorum_threshold c <= stake_sum c (supporters c W h) ->
  exists i n, i ∈ authority_ids c ∧ W !! i = Some n ∧ h ∈ voted_by n.
Proof.
  intros Hf Hq. destruct (decide (Exists (fun i => is_Some (W !! i)) (supporters c W h))) as [He|Hne].
  - apply Exists_exists in He as (i & [Hi Hs]%elem_of_supporters & [n Hn]). exists i, n. auto.
  - exfalso. unfold few_byzantine in Hf. rewrite (wf_validity _ Hc) in Hf. rewrite (wf_quorum _ Hc) in Hq. pose proof (wf_total _ Hc).
    assert (stake_sum c (supporters c W h) <= stake_sum c (byzantine c W)) as Hle.
    { apply sum_of_subset; [by apply stake_by_id_pos|apply supporters_NoDup|]. intros i Hi. right. apply elem_of_byzantine.
      split; [by apply elem_of_supporters in Hi as [? _]|]. destruct (W !! i) eqn:E; [|done]. exfalso. apply Hne, Exists_exists. exists i. by rewrite E. }
    assert ((total_stake c + 2) / 3 <= 2 * total_stake c / 3 + 1); [|lia].
    transitivity ((2 * total_stake c + 3) / 3); [apply Z.div_le_mono; lia|].
    replace (2 * total_stake c + 3) with (2 * total_stake c + 1 * 3) by lia. rewrite Z.div_add by lia. lia.
Qed.

(** A certificate that verifies and is not forged is of a certified header. *)
Lemma verified_certified W now wc x : few_byzantine W -> unforged c W x -> 1 <= Certificate_round x ->
  Certificate_verify now c wc x = Some (Ok tt) -> certified (certified_headers c W) x.
Proof.
  intros Hfew Hunf Hr Hv. destruct (verify_quorum c Hc now wc x ltac:(lia) Hv) as (l & [_ _ [Hin Hnd] Hq Hsig Hsb]).
  apply certified_lookup. split; [done|].
  assert (cm_quorum_threshold c <= stake_sum c (supporters c W (ce_header x))) as Hsup.
  { etrans; [exact Hq|]. apply sum_of_subset; [by apply stake_by_id_pos|done|].
    intros i (a & -> & Ha)%list_elem_of_fmap. right. apply elem_of_supporters. split; [apply list_elem_of_fmap; eauto|].
    intros n Hn. destruct (Hunf _ _ _ _ Hsb Hsig Hn) as (h & Hh & Hd).
    - unfold key_of. rewrite (wf_indexed _ Hc a) by auto. apply list_elem_of_fmap. by exists a.
    - by apply digest_inj in Hd as <-. }
  split; [|done]. destruct (honest_voter W _ Hfew Hsup) as (i & n & _ & Hi & Hh). apply elem_of_all_voted. eauto.
Qed.

(** ** The invariant of the epoch *)

Context (cfg : Z -> SyncConfig) (pcfg : Z -> ProposerConfig).

(** The nodes have the committee and its genesis. *)
Record epoch_config : Prop := {
  ec_committee i : sf_committee (cfg i) = c;
  ec_genesis i d x : sf_genesis (cfg i) !! d = Some x -> Certificate_digest x = d ∧ Certificate_round x = 0;
  ec_authority i : pf_authority_id (pcfg i) = i;
  ec_proposer i : pf_committee (pcfg i) = c
}.

Context (Hcfg : epoch_config).

Definition world_ok W : Prop := forall i n, W !! i = Some n -> node_ok (cfg i) (pcfg i) (certified_headers c W) n.

(** An honest node has checked the header before it voted, or has made it. *)
Lemma certified_header_ok W d h : few_byzantine W -> world_ok W -> certified_headers c W !! d = Some h ->
  exists i, header_ok (cfg i) (certified_headers c W) h.
Proof.
  intros Hfew Hw [_ [_ Hq]]%certified_lookup. destruct (honest_voter W h Hfew Hq) as (i & n & Hid & Hi & Hh).
  pose proof (Hw i n Hi) as Hn. exists i. apply elem_of_app in Hh as [Hh|Hh]; [by apply (nk_voted _ _ _ _ Hn)|].
  apply (fd_own _ _ _ _ (nk_fed _ _ _ _ Hn)); [by left|]. rewrite (ec_committee Hcfg).
  rewrite (nk_own _ _ _ _ Hn) by by left. rewrite (ec_authority Hcfg).
  apply list_elem_of_fmap in Hid as (a & -> & Ha). exists a. by apply (wf_indexed _ Hc).
Qed.

Lemma honest_unique i n G h h' : node_ok (cfg i) (pcfg i) G n -> h ∈ voted_by n -> h' ∈ voted_by n ->
  he_round h = he_round h' -> he_author h = he_author h' -> h = h'.
Proof.
  intros Hn [Hh|Hh]%elem_of_app [Hh'|Hh']%elem_of_app Hr Ha.
  - by eapply (nk_unique _ _ _ _ Hn).
  - exfalso. destruct (nk_voted _ _ _ _ Hn _ Hh) as [_ Hne]. apply Hne. rewrite Ha. apply (nk_own _ _ _ _ Hn). by left.
  - exfalso. destruct (nk_voted _ _ _ _ Hn _ Hh') as [_ Hne]. apply Hne. rewrite <- Ha. apply (nk_own _ _ _ _ Hn). by left.
  - by eapply (pk_unique _ (nk_proposer _ _ _ _ Hn)).
Qed.

Lemma world_dag W : few_byzantine W -> world_ok W -> certified_dag c (certified_headers c W).
Proof.
  intros Hfew Hw. assert (forall d h, certified_headers c W !! d = Some h -> exists i, header_ok (cfg i) (certified_headers c W) h) as Hok
    by (intros d h; by apply certified_header_ok). split.
  - by intros d h [? _]%certified_lookup.
  - intros d h [i []]%Hok. lia.
  - intros d d' h h' [_ [_ Hq]]%certified_lookup [_ [_ Hq']]%certified_lookup Hr Ha.
    destruct (quorums_intersect c Hc (supporters c W h) (supporters c W h') (byzantine c W)) as (i & Hi & Hi' & Hb);
      [apply supporters_NoDup..|done|done|apply byzantine_NoDup|exact Hfew|].
    apply elem_of_supporters in Hi as [Hin Hi], Hi' as [_ Hi']. destruct (W !! i) as [n|] eqn:E.
    + eapply (honest_unique i n _ h h' (Hw i n E)); auto.
    + exfalso. apply Hb. by apply elem_of_byzantine.
  - intros d h [i [_ _ Ha _ _]]%Hok. by rewrite (ec_committee Hcfg) in Ha.
  - intros d h p q Hh Hp Hq. pose proof (Hok _ _ Hq) as [j [Hqr _ _ _ _]]. apply Hok in Hh as [i [Hr _ _ Hf Hps]].
    apply certified_lookup in Hq as Hqd. destruct Hqd as [Hqd _].
    destruct (Z.eq_dec (he_round h) 1) as [He|Hne].
    + destruct (Hf p He Hp) as (g & Hg & Hg0). rewrite <- Hqd in Hg. apply digest_inj in Hg as ->. lia.
    + destruct Hps as (ps & [Hl _ _] & Hall); [lia|]. apply (Forall2_elem_of_l _ _ _ _ Hl) in Hp as (q' & Hq' & Hpq).
      rewrite Hq in Hpq. injection Hpq as <-. by apply (proj1 (Forall_forall _ _) Hall).
  - intros d h [i [_ _ _ _ Hps]]%Hok H2. destruct (Hps H2) as (ps & Hp & _). exists ps. by rewrite (ec_committee Hcfg) in Hp.
Qed.

Lemma world_bound W d h : few_byzantine W -> world_ok W -> certified_headers c W !! d = Some h -> he_round h < u64_modulus - 1.
Proof. intros Hfew Hw [i []]%certified_header_ok; [lia|done..]. Qed.

Lemma world_epoch W d h : few_byzantine W -> world_ok W -> certified_headers c W !! d = Some h -> he_epoch h = cm_epoch c.
Proof. intros Hfew Hw [i [_ He _ _ _]]%certified_header_ok; [|done..]. by rewrite (ec_committee Hcfg) in He. Qed.

Lemma grows_byzantine W W' : world_grows W W' -> byzantine c W' = byzantine c W.
Proof.
  intros [Hb Hf]. apply List.filter_ext. intros i. destruct (W' !! i) as [n'|] eqn:E'.
  - destruct (Hb i n' E') as (n & -> & _). done.
  - destruct (W !! i) as [n|] eqn:E; [|done]. destruct (Hf i n E). congruence.
Qed.

Lemma world_step_keeps W W' : few_byzantine W -> world_ok W -> world_step c cfg pcfg W W' -> few_byzantine W' ∧ world_ok W' ∧ world_grows W W'.
Proof.
  intros Hfew Hw [i n ev n' r Hi Hall Hev].
  assert (node_steps (cfg i) (pcfg i) (certified_headers c W) n n') as [Hn' Hg].
  { eapply (primary_event_steps digest_inj (cfg i) (pcfg i) (key_of c i)); rewrite ?(ec_committee Hcfg);
      eauto using world_dag, world_bound, world_epoch, ec_genesis, ec_proposer.
    destruct ev as [[]| | | | | |]; simpl in *; rewrite ?(ec_committee Hcfg), ?(ec_authority Hcfg); eauto using verified_certified.
    - destruct Hall as (? & ? & now' & ?). eauto using verified_certified.
    - destruct Hall as (? & ? & Hps). split_and!; [lia..|done|]. intros x Hx. eauto using verified_certified. }
  assert (world_grows W (<[i := n']> W)) as Hgrow.
  { split.
    - intros j m [[<- <-]|[_ Hj]]%lookup_insert_Some; eauto.
    - intros j m Hj. destruct (decide (i = j)) as [<-|]; [rewrite lookup_insert_eq|rewrite lookup_insert_ne by done]; eauto. }
  split; [|split; [|done]].
  - unfold few_byzantine. by rewrite (grows_byzantine _ _ Hgrow).
  - pose proof (certified_grows _ _ Hgrow) as Hsub. intros j m [[<- <-]|[_ Hj]]%lookup_insert_Some.
    + by eapply node_ok_mono.
    + by eapply node_ok_mono; [|apply Hw].
Qed.

Lemma world_steps_keep W W' : few_byzantine W -> world_ok W -> rtc (world_step c cfg pcfg) W W' -> few_byzantine W' ∧ world_ok W'.
Proof. intros Hfew Hw Hs. induction Hs as [|W W1 W' Hs _ IH]; [done|]. destruct (world_step_keeps _ _ Hfew Hw Hs) as (? & ? & _). auto. Qed.
End world.

(** ** The start *)

(** A node with empty stores. *)
Record node_starts `{HeaderHash} `{Signatures} {T} `{StoreCache T} `{!CacheLaws T} (pcfg : ProposerConfig) (n : Primary T) : Prop := {
  ns_sync : sync_starts ∅ (rv_sync (pm_receiver n));
  ns_store : cs_by_id (sn_store (rv_sync (pm_receiver n))) = ∅;
  ns_votes : rv_votes (pm_receiver n) = ∅;
  ns_requests : pm_requests n = ∅;
  ns_voted : pm_voted n = [];
  ns_read : pm_parents_read n = 0%nat;
  ns_proposer : exists now genesis_time outcomes, Proposer_spawn pcfg now genesis_time None outcomes = Some (pm_proposer n)
}.

Lemma genesis_round `{HH : HeaderHash} `{HS : Signatures} now c g x : Certificate_genesis now c = Some g -> x ∈ g -> Certificate_round x = 0.
Proof.
  unfold Certificate_genesis. intros Hg%mapM_Some Hx. apply (Forall2_elem_of_r _ _ _ _ Hg) in Hx as (a & _ & Ha).
  destruct (Authority_id a); [|done]. by injection Ha as <-.
Qed.

Lemma node_starts_ok `{HH : HeaderHash} `{HS : Signatures} {T} `{HT : StoreCache T} `{!CacheLaws T} cfg pcfg G (n : Primary T) :
  node_starts pcfg n -> node_ok cfg pcfg G n.
Proof.
  intros [Hs Hst Hv Hr Hvd Hrd (now & gt & outs & Hp)].
  assert (sync_ok ∅ ∅ 2 (rv_sync (pm_receiver n))) as Hsync.
  { pose proof (starts_ok ∅ 2 _ Hs) as Hok. by rewrite Hst, dom_empty_L in Hok. }
  destruct (spawn_ok _ _ _ _ _ _ Hp) as [Hok _].
  assert (proposer_own pcfg (pm_proposer n)) as Hown.
  { unfold Proposer_spawn in Hp. destruct (Certificate_genesis _ _); [|done]. injection Hp as <-. intros h. simpl. set_solver. }
  split; rewrite ?Hv, ?Hr, ?Hvd, ?Hrd; try done; try (intros *; by rewrite ?elem_of_nil, ?lookup_empty).
  - split; [eapply sync_ok_mono; [|done]; apply map_empty_subseteq|by eapply starts_feeding].
  - unfold Proposer_spawn in Hp. destruct (Certificate_genesis gt (pf_committee pcfg)) as [g|] eqn:Eg; [|done]. injection Hp as <-.
    split; simpl; [by intros ? ? ? ?%not_elem_of_nil|intros x Hx; by eapply genesis_round|].
    intros h. unfold own_header. simpl. rewrite elem_of_nil. naive_solver.
  - lia.
Qed.
