(* ===== verification/Epoch.v ===== *)
(** * An epoch from votes to committed sub-dags

    The primaries of a committee together with the consensus of each.  In a world that
    honest nodes reach from empty stores, headers are certified at most once per author
    and round and form a certified dag ([world_certified_dag]); what two honest nodes
    commit from the certificates that their synchronizers hand on is the same sequence,
    one a prefix of the other ([epoch_agreement]).  A run of three honest nodes and a
    Byzantine one evaluates both. *)

From S2P Require Import Prelude Committee DagTypes DagProps ConsensusCore Bullshark ConsensusSample Agreement ConsensusSafe Certification SignatureSample CertificationProps PrimarySample CertificateStore Synchronizer SynchronizerProps SynchronizerSafe Voting Proposer ProposerProps PrimaryNode PrimaryProps ProposerFeed PrimarySafe.
Local Open Scope Z_scope.
Local Open Scope chase_scope.

(** C13. Honest nodes start with empty stores, do not restart, and stay below the last
    64-bit rounds.  The Byzantine authorities have less than a third of the stake
    ([few_byzantine], the validity threshold), an aggregated signature that verifies
    contains the key of an honest authority only if it voted for the header
    ([unforged]), and no two headers have the same digest.  Then in every world the nodes
    reach, the headers that can have a certificate form a certified dag: one per author
    and round, with a quorum of certified parents in the round before.  A node stores and
    hands to consensus only certificates of such headers, and two certificates that
    verify for the same author and round have the same header. *)
Theorem world_certified_dag `{HH : HeaderHash} `{HS : Signatures} `{HI : SetIter} `{!SetIterLaws} `{HR : Rng} {T : Type}
    `{HT : StoreCache T} `{!CacheLaws T} (c : Committee) (cfg : Z -> SyncConfig) (pcfg : Z -> ProposerConfig) (W0 W : gmap Z (Primary T)) :
  committee_wf c -> (forall h h' : Header, header_digest h = header_digest h' -> h = h') ->
  epoch_config c cfg pcfg -> few_byzantine c W0 -> (forall i n, W0 !! i = Some n -> node_starts (pcfg i) n) ->
  rtc (world_step c cfg pcfg) W0 W ->
  let G := certified_headers c W in
  certified_dag c G ∧
  (forall i n, W !! i = Some n -> let s := rv_sync (pm_receiver n) in
    (forall d x, cs_by_id (sn_store s) !! d = Some x -> Certificate_digest x = d ∧ certified G x) ∧
    (forall x, x ∈ sc_new_certificates (sn_channels s) -> certified G x)) ∧
  (forall now wc x y, Certificate_verify now c wc x = Some (Ok tt) -> Certificate_verify now c wc y = Some (Ok tt) ->
    unforged c W x -> unforged c W y -> 1 <= Certificate_round x ->
    Certificate_round x = Certificate_round y -> Certificate_origin x = Certificate_origin y -> ce_header x = ce_header y).
Proof.
  intros Hc Hinj Hcfg Hfew Hstart Hsteps G.
  destruct (world_steps_keep Hinj c Hc cfg pcfg Hcfg W0 W Hfew) as [Hfew' Hw]; [|exact Hsteps|].
  { intros i n Hi. by apply node_starts_ok, Hstart. }
  pose proof (world_dag Hinj c Hc cfg pcfg Hcfg W Hfew' Hw) as Hdag. split; [exact Hdag|]. split.
  - intros i n Hi s. destruct (nk_sync _ _ _ _ (Hw i n Hi)) as [[Hs _] _]. split; [apply Hs|]. apply (so_sent_certified _ _ _ _ Hs).
  - intros now wc x y Hx Hy Hux Huy Hr Hrr Ho.
    apply (verified_certified Hinj c Hc W now wc) in Hx; [|done..]. apply (verified_certified Hinj c Hc W now wc) in Hy; [|done|done|lia].
    by eapply (cd_unique _ _ Hdag).
Qed.

(** C4. Agreement end to end, under the assumptions of [world_certified_dag]: the
    Byzantine authorities have less than a third of the stake, signatures of honest
    authorities are not forged, headers have distinct digests, nodes start with empty
    stores and do not restart.  Two honest nodes that run the same protocol with a fixed
    leader schedule on the certificates their synchronizers have handed on, as far as
    they have come, output sequences of sub-dags of which one extends the other. *)
Theorem epoch_agreement `{HH : HeaderHash} `{HS : Signatures} `{HI : SetIter} `{!SetIterLaws} `{HR : Rng} {T : Type}
    `{HT : StoreCache T} `{!CacheLaws T} (c : Committee) (cfg : Z -> SyncConfig) (pcfg : Z -> ProposerConfig) (W0 W : gmap Z (Primary T))
    (depth i j : Z) (n n' : Primary T) (p p' : ConsensusProtocol) (ch ch' : ConsensusChannels) (xs xs' : list Certificate) (o o' : Consensus) :
  committee_wf c -> (forall h h' : Header, header_digest h = header_digest h' -> h = h') ->
  epoch_config c cfg pcfg -> few_byzantine c W0 -> (forall i n, W0 !! i = Some n -> node_starts (pcfg i) n) ->
  rtc (world_step c cfg pcfg) W0 W -> W !! i = Some n -> W !! j = Some n' ->
  1 <= depth -> protocol_committee p = c -> fixed_schedule p -> same_protocol p p' ->
  xs `prefix_of` sc_new_certificates (sn_channels (rv_sync (pm_receiver n))) ->
  xs' `prefix_of` sc_new_certificates (sn_channels (rv_sync (pm_receiver n'))) ->
  ch_sequence ch = [] -> ch_sequence ch' = [] ->
  Consensus_run xs (started c p depth ch) = Some o -> Consensus_run xs' (started c p' depth ch') = Some o' ->
  (view <$> ch_sequence (cn_channels o)) `prefix_of` (view <$> ch_sequence (cn_channels o')) ∨
  (view <$> ch_sequence (cn_channels o')) `prefix_of` (view <$> ch_sequence (cn_channels o)).
Proof.
  intros Hc Hinj Hcfg Hfew Hstart Hsteps Hi Hj Hd Hp Hfix Hsame Hxs Hxs' Hch Hch' Ho Ho'.
  destruct (world_steps_keep Hinj c Hc cfg pcfg Hcfg W0 W Hfew) as [Hfew' Hw]; [|exact Hsteps|].
  { intros k m Hk. by apply node_starts_ok, Hstart. }
  apply (runs_agree c (certified_headers c W) depth p p' xs xs' ch ch'); try done; [by eapply world_dag|].
  intros x [Hx|Hx]%elem_of_app _; [destruct (nk_sync _ _ _ _ (Hw i n Hi)) as [[Hs _] _]|destruct (nk_sync _ _ _ _ (Hw j n' Hj)) as [[Hs _] _]];
    apply (so_sent_certified _ _ _ _ Hs); [destruct Hxs as [l ->]|destruct Hxs' as [l ->]]; apply elem_of_app; by left.
Qed.

(** ** Runs *)

Section play.
Context `{HH : HeaderHash} `{HS : Signatures} `{HI : SetIter} `{HR : Rng} {T : Type} `{HT : StoreCache T}.
Context (c : Committee) (cfg : Z -> SyncConfig) (pcfg : Z -> ProposerConfig).

Definition check_unforged (W : gmap Z (Primary T)) (x : Certificate) : bool :=
  match signed_by c x with
  | Some (_, keys) => negb (verify_aggregate x keys) ||
      forallb (fun e : Z * Primary T => negb (bool_decide (key_of c e.1 ∈ keys)) ||
        existsb (fun h => header_digest h =? Certificate_digest x) (voted_by e.2)) (map_to_list W)
  | None => true
  end.

Lemma check_unforged_ok W x : check_unforged W x = true -> unforged c W x.
Proof.
  unfold check_unforged, unforged. intros Hck weight keys i n Hs Hv Hi Hk. rewrite Hs, Hv in Hck. simpl in Hck.
  rewrite forallb_forall in Hck. specialize (Hck (i, n) ltac:(by apply list_elem_of_In, elem_of_map_to_list)). simpl in Hck.
  rewrite bool_decide_true in Hck by done. simpl in Hck. apply existsb_exists in Hck as (h & Hh & Hd%Z.eqb_eq).
  exists h. split; [by apply list_elem_of_In|done].
Qed.

Definition check_allowed (W : gmap Z (Primary T)) (i : Z) (ev : PrimaryEvent) (n : Primary T) : bool :=
  match ev with
  | EventSync (ReceiveCertificate _ x) => check_unforged W x
  | EventSync (ReceiveFetched _ _) => false
  | EventSync (CollectRound r) => (sn_gc_round (rv_sync (pm_receiver n)) <=? r) && (r <? u64_modulus - 1)
  | EventSync _ => true
  | EventRequest _ _ h ps => (0 <=? he_round h) && (he_round h <? u64_modulus - 1) && negb (he_author h =? i) && forallb (check_unforged W) ps
  | EventProposer (ProposeNext _) => pr_round (pm_proposer n) <? u64_modulus - 2
  | EventProposer (ReceiveParents _ _ _ _) => false
  | _ => true
  end.

Lemma check_allowed_ok W i ev n : check_allowed W i ev n = true -> primary_allowed c cfg W i ev n.
Proof.
  destruct ev as [[]| | | | |[]|]; simpl; try done; rewrite ?andb_true_iff, ?Z.leb_le, ?Z.ltb_lt; try done.
  - apply check_unforged_ok.
  - rewrite negb_true_iff, Z.eqb_neq, forallb_forall. intros [[? ?] Hps]. split; [done|]. split; [done|].
    intros x Hx. apply check_unforged_ok, Hps. by apply list_elem_of_In.
Qed.

(** The world after a list of events, if all are allowed and none panics. *)
Fixpoint world_play (evs : list (Z * PrimaryEvent)) (W : gmap Z (Primary T)) : option (gmap Z (Primary T)) :=
  match evs with
  | [] => Some W
  | (i, ev) :: evs' =>
      n ← W !! i;
      if check_allowed W i ev n then
        '(n', _) ← primary_event (cfg i) (pcfg i) (key_of c i) ev n;
        world_play evs' (<[i := n']> W)
      else None
  end.

Lemma world_play_steps evs W W' : world_play evs W = Some W' -> rtc (world_step c cfg pcfg) W W'.
Proof.
  revert W. induction evs as [|[i ev] evs IH]; intros W; cbn [world_play]; [by intros [= <-]|].
  destruct (W !! i) as [n|] eqn:Hi; [|done]. cbn. destruct (check_allowed W i ev n) eqn:Hall; [|done].
  destruct (primary_event _ _ _ ev n) as [[n' r]|] eqn:Hev; [|done]. cbn. intros Hp. eapply rtc_l; [|by apply IH].
  eapply step_event; [exact Hi|by apply check_allowed_ok|exact Hev].
Qed.
End play.

(** ** Three honest nodes and a Byzantine one *)

#[local] Existing Instances full_hash plain_signatures ascending_iter.
#[local] Instance epoch_rng : Rng := rotating_rng 0.

Definition node_config (i : Z) : SyncConfig := mkSyncConfig i four four_workers 50 (sf_genesis four_config).
Definition node_proposer (i : Z) : ProposerConfig := mkProposerConfig i four 1 2 1 0 (original_schedule four).

Definition new_node (i : Z) : Primary RecentCache :=
  mkPrimary (mkReceiver new_synchronizer ∅ ∅ ∅ 0 [])
    (default (spawned None) (Proposer_spawn (node_proposer i) 1000 0 None [])) 0 ∅ [].

Definition three_nodes : gmap Z (Primary RecentCache) := list_to_map ((fun i => (i, new_node i)) <$> [0; 1; 2]).

(** The certificate of the header by the three honest nodes. *)
Definition signed_cert (r i : Z) : Certificate :=
  let h := header_at r i all_four in
  mkCertificate h (code ((fun key => code (key, header_digest h)) <$> [100; 101; 102])) [0; 1; 2] 0.

(** A round: the honest nodes propose, each votes for the headers of all others, the
    four certificates arrive everywhere, and each proposer reads what its synchronizer
    has sent: four announcements, a quorum of parents and the fourth parent. *)
Definition play_round (r : Z) : list (Z * PrimaryEvent) :=
  let now := 1000 + r in
  ((fun i => (i, EventProposer (ProposeNext now))) <$> [0; 1; 2])
  ++ concat ((fun j => concat ((fun i =>
       [(j, EventRequest now (200 + i) (header_at r i all_four) []); (j, EventParents now (Ok tt) (200 + i)); (j, EventSignature (200 + i))])
       <$> List.filter (fun i => negb (i =? j)) all_four)) <$> [0; 1; 2])
  ++ concat ((fun j => concat ((fun i => [(j, EventSync (ReceiveCertificate now (signed_cert r i))); (j, EventSync AcceptNext); (j, EventSync AcceptLocked)]) <$> all_four)
       ++ replicate 6 (j, EventProposerParents now)) <$> [0; 1; 2]).

Definition three_rounds : list (Z * PrimaryEvent) := concat (play_round <$> [1; 2; 3]).

Definition after_three_rounds : gmap Z (Primary RecentCache) :=
  default ∅ (world_play four node_config node_proposer three_rounds three_nodes).

Definition handed_on (W : gmap Z (Primary RecentCache)) (i : Z) : list Certificate :=
  match W !! i with Some n => sc_new_certificates (sn_channels (rv_sync (pm_receiver n))) | None => [] end.

Lemma handed_on_lookup W i n : W !! i = Some n -> handed_on W i = sc_new_certificates (sn_channels (rv_sync (pm_receiver n))).
Proof. unfold handed_on. by intros ->. Qed.

Lemma three_rounds_nodes i : i = 0 ∨ i = 1 -> exists n, after_three_rounds !! i = Some n.
Proof. intros [->| ->]; (match goal with |- exists n, ?m = Some n => assert (is_Some m) as [n Hn] by (by vm_compute; eexists); by exists n end). Qed.

Lemma three_rounds_steps : rtc (world_step four node_config node_proposer) three_nodes after_three_rounds.
Proof.
  apply (world_play_steps _ _ _ three_rounds). unfold after_three_rounds.
  destruct (world_play four node_config node_proposer three_rounds three_nodes) eqn:E; [reflexivity|]. by vm_compute in E.
Qed.

Lemma three_nodes_config : epoch_config four node_config node_proposer.
Proof.
  split; [done| |done|done]. intros i d x Hx.
  assert (map_Forall (fun d x => Certificate_digest x = d ∧ Certificate_round x = 0) (sf_genesis (node_config i))) as Hall; [|exact (Hall d x Hx)].
  refine (bool_decide_unpack _ _). by vm_compute.
Qed.

Lemma three_nodes_few : few_byzantine four three_nodes.
Proof. by vm_compute. Qed.

Lemma three_nodes_start i n : three_nodes !! i = Some n -> node_starts (node_proposer i) n.
Proof.
  intros Hi%elem_of_list_to_map_2. apply list_elem_of_fmap in Hi as (j & [= -> ->] & Hj).
  split; [apply new_synchronizer_starts|done..|]. exists 1000, 0, []. set_unfold in Hj. by destruct_or! Hj; subst j; vm_compute.
Qed.

Lemma world_certified_dag_witness :
  rtc (world_step four node_config node_proposer) three_nodes after_three_rounds ∧
  let G := certified_headers four after_three_rounds in
  size G = 12%nat ∧ certified_dag four G ∧
  (forall x, x ∈ handed_on after_three_rounds 0 -> certified G x) ∧ length (handed_on after_three_rounds 0) = 12%nat.
Proof.
  split; [exact three_rounds_steps|]. split; [by vm_compute|].
  destruct (world_certified_dag four node_config node_proposer three_nodes after_three_rounds four_wf full_hash_inj three_nodes_config
    three_nodes_few three_nodes_start three_rounds_steps) as (Hdag & Hnodes & _).
  split; [exact Hdag|]. split; [|by vm_compute]. intros x. destruct (three_rounds_nodes 0 (or_introl eq_refl)) as [n Hn].
  rewrite (handed_on_lookup _ 0 n Hn). apply (Hnodes 0 n Hn).
Defined.

Definition committed_by (xs : list Certificate) : option Consensus :=
  Consensus_run xs (started four (sample_bullshark false 50) 50 sample_channels).

Lemma one_protocol : same_protocol (sample_bullshark false 50) (sample_bullshark false 50).
Proof. done. Qed.

(** Node 1 has not read its last two certificates. *)
Lemma epoch_agreement_witness :
  exists o o', committed_by (handed_on after_three_rounds 0) = Some o ∧ committed_by (take 10 (handed_on after_three_rounds 1)) = Some o' ∧
    length (ch_sequence (cn_channels o)) = 1%nat ∧
    ((view <$> ch_sequence (cn_channels o)) `prefix_of` (view <$> ch_sequence (cn_channels o')) ∨
     (view <$> ch_sequence (cn_channels o')) `prefix_of` (view <$> ch_sequence (cn_channels o))).
Proof.
  assert (exists o, committed_by (handed_on after_three_rounds 0) = Some o ∧ length (ch_sequence (cn_channels o)) = 1%nat) as (o & Ho & Hlen)
    by (eexists; split; vm_compute; reflexivity).
  assert (exists o', committed_by (take 10 (handed_on after_three_rounds 1)) = Some o') as (o' & Ho') by (eexists; vm_compute; reflexivity).
  exists o, o'. split; [exact Ho|]. split; [exact Ho'|]. split; [exact Hlen|].
  destruct (three_rounds_nodes 0 (or_introl eq_refl)) as [n Hn]. destruct (three_rounds_nodes 1 (or_intror eq_refl)) as [n' Hn'].
  apply (epoch_agreement four node_config node_proposer three_nodes after_three_rounds 50 0 1 n n' (sample_bullshark false 50)
    (sample_bullshark false 50) sample_channels sample_channels (handed_on after_three_rounds 0) (take 10 (handed_on after_three_rounds 1)) o o'
    four_wf full_hash_inj three_nodes_config three_nodes_few three_nodes_start three_rounds_steps Hn Hn').
  - lia.
  - reflexivity.
  - reflexivity.
  - exact one_protocol.
  - rewrite (handed_on_lookup _ 0 n Hn). reflexivity.
  - rewrite (handed_on_lookup _ 1 n' Hn'). apply prefix_take.
  - reflexivity.
  - reflexivity.
  - exact Ho.
  - exact Ho'.
Defined.
