(* ===== verification/Fetching.v ===== *)
(** * Fetching certificates

    A primary that misses certificates asks the others for them:
    src/narwhal/primary/src/certificate_fetcher.rs is the side that asks,
    [fetch_certificates] of src/narwhal/primary/src/primary.rs the side that answers,
    and the request is in src/narwhal/types/src/primary.rs.

    The rounds that the asking side has are sent as one bitmap per authority; the bitmaps
    of the roaring crate are a class.  Whether the time of a handler is over is a script.
    The choice of a peer and the network in between are left out. *)

From S2P Require Import Prelude Committee DagTypes Certification CertificateStore Synchronizer.
Local Open Scope Z_scope.
Local Open Scope chase_scope.

(** ** Bitmaps *)

(** Sets of 32-bit numbers as bytes. *)
Class RoaringBitmap := {
  rb_serialize : list Z -> list Z;
  rb_deserialize : list Z -> option (list Z)
}.

Class BitmapLaws `{RoaringBitmap} : Prop := rb_roundtrip l :
  Forall (fun x => 0 <= x < u32_modulus) l ->
  exists l', rb_deserialize (rb_serialize l) = Some l' ∧ forall x, x ∈ l' <-> x ∈ l.

(** ** The request *)

Record FetchCertificatesRequest := mkFetchRequest {
  fq_lower_bound : Z;
  fq_skip_rounds : list (Z * list Z);
  fq_max_items : Z
}.

Definition FetchCertificatesRequest_default : FetchCertificatesRequest := mkFetchRequest 0 [] 0.

Definition MAX_CERTIFICATES_TO_FETCH : Z := 2000.
Definition VERIFY_CERTIFICATES_BATCH_SIZE : nat := 200.

(** The distance of a round to the collected one; more than 32 bits panic. *)
Definition round_offset (gc_round v : Z) : option Z :=
  let d := v -u64 gc_round in if d <? u32_modulus then Some d else None.

Section request.
Context `{RoaringBitmap}.

Definition get_bounds (q : FetchCertificatesRequest) : Z * gmap Z (gset Z) :=
  (fq_lower_bound q,
   foldl (fun m (e : Z * list Z) => match rb_deserialize e.2 with
                                    | Some l => <[e.1 := list_to_set ((fun r => fq_lower_bound q +u64 r) <$> l)]> m
                                    | None => m
                                    end) ∅ (fq_skip_rounds q)).

Definition set_bounds (gc_round : Z) (skip_rounds : gmap Z (gset Z)) (q : FetchCertificatesRequest) : option FetchCertificatesRequest :=
  bitmaps ← mapM (fun e : Z * gset Z =>
                    offsets ← mapM (round_offset gc_round) (sort_by_key id (elements e.2));
                    Some (e.1, rb_serialize offsets)) (btree_iter skip_rounds);
  Some (mkFetchRequest gc_round bitmaps (fq_max_items q)).

Definition set_max_items (max_items : Z) (q : FetchCertificatesRequest) : FetchCertificatesRequest :=
  mkFetchRequest (fq_lower_bound q) (fq_skip_rounds q) max_items.
End request.

(** ** The answer *)

(** The queue of the next rounds, least first. *)
Fixpoint heap_push (x : Z * Z) (l : list (Z * Z)) : list (Z * Z) :=
  match l with
  | [] => [x]
  | y :: l' => if pair_ltb y x then y :: heap_push x l' else x :: l
  end.

Section handler.
Context `{HeaderHash} {T : Type} `{StoreCache T} `{RoaringBitmap}.
Abbreviation Store := (CertificateStore T).

(** The rounds grow, so each row of the index is seen at most once. *)
Fixpoint find_next_loop (fuel : nat) (origin current_round : Z) (skip_rounds : gset Z) (s : Store) : Run (option Z) :=
  match fuel with
  | O => Spinning
  | S fuel =>
      match next_round_number origin current_round s with
      | None => Finished None
      | Some round =>
          if bool_decide (round ∈ skip_rounds) then find_next_loop fuel origin round skip_rounds s else Finished (Some round)
      end
  end.

Definition find_next_round (origin current_round : Z) (skip_rounds : gset Z) (s : Store) : Run (option Z) :=
  find_next_loop (S (size (cs_by_origin s))) origin current_round skip_rounds s.

Definition push_next (origin current_round : Z) (skip_rounds : gset Z) (queue : list (Z * Z)) (s : Store) : Run (list (Z * Z)) :=
  next ← find_next_round origin current_round skip_rounds s;
  Finished (match next with Some r => heap_push (r, origin) queue | None => queue end).

Fixpoint fill_queue (lower_bound : Z) (skip_rounds : list (Z * gset Z)) (queue : list (Z * Z)) (s : Store) : Run (list (Z * Z)) :=
  match skip_rounds with
  | [] => Finished queue
  | (origin, rounds) :: skip_rounds' =>
      queue ← push_next origin lower_bound rounds queue s;
      fill_queue lower_bound skip_rounds' queue s
  end.

(** [elapsed] says after each certificate whether the time is over. *)
Fixpoint fetch_loop (fuel : nat) (skip_rounds : gmap Z (gset Z)) (max_items : Z) (elapsed : list bool) (queue : list (Z * Z))
    (certificates : list Certificate) (s : Store) : Run (Store * list Certificate) :=
  match queue with
  | [] => Finished (s, certificates)
  | (round, origin) :: queue =>
      match fuel with
      | O => Spinning
      | S fuel =>
          let '(s, found) := cs_read_by_index origin round s in
          match found with
          | None => fetch_loop fuel skip_rounds max_items elapsed queue certificates s
          | Some x =>
              let certificates := certificates ++ [x] in
              match skip_rounds !! origin with
              | None => Panicked
              | Some rounds =>
                  queue ← push_next origin round rounds queue s;
                  let n := Z.of_nat (length certificates) in
                  if n =? max_items then Finished (s, certificates)
                  else if default false (head elapsed) then Finished (s, certificates)
                  else if n <? max_items then fetch_loop fuel skip_rounds max_items (tail elapsed) queue certificates s
                  else Panicked
              end
          end
      end
  end.

Definition fetch_certificates (q : FetchCertificatesRequest) (elapsed : list bool) (s : Store) : Run (Store * list Certificate) :=
  if fq_max_items q =? 0 then Finished (s, [])
  else
    let '(lower_bound, skip_rounds) := get_bounds q in
    queue ← fill_queue lower_bound (btree_iter skip_rounds) [] s;
    fetch_loop (S (size (cs_by_origin s))) skip_rounds (fq_max_items q) elapsed queue [] s.
End handler.

(** ** The fetcher *)

(** [fe_task] is the request of the task that runs, if any. *)
Record CertificateFetcher := mkFetcher {
  fe_targets : gmap Z Z;
  fe_task : option FetchCertificatesRequest
}.

Section fetcher.
Context `{HeaderHash} `{Signatures} `{SetIter} {T : Type} `{StoreCache T} `{RoaringBitmap} (cfg : SyncConfig).
Abbreviation Store := (CertificateStore T).

(** The rounds above the collected one that are stored, by author; every authority has
    an entry. *)
Definition written_rounds (gc_round : Z) (s : Store) : option (gmap Z (gset Z)) :=
  ids ← mapM Authority_id (Committee_authorities (sf_committee cfg));
  let empty := foldl (fun m id => <[id := ∅]> m) ∅ ids in
  Some (foldl (fun m (e : Z * list Z) =>
                 foldl (fun m origin => <[origin := {[e.1]} ∪ default ∅ (m !! origin)]> m) m e.2)
              empty (btree_iter (origins_after_round (gc_round +u64 1) s))).

Definition last_written (gc_round : Z) (written : gmap Z (gset Z)) (origin : Z) : Z :=
  match written !! origin with
  | Some rounds => default gc_round (last (sort_by_key id (elements rounds)))
  | None => gc_round
  end.

(** The request that [run_fetch_task] sends. *)
Definition fetch_request (gc_round : Z) (written : gmap Z (gset Z)) : option FetchCertificatesRequest :=
  q ← set_bounds gc_round written FetchCertificatesRequest_default;
  Some (set_max_items MAX_CERTIFICATES_TO_FETCH q).

Definition kickstart (gc_round : Z) (s : Store) (f : CertificateFetcher) : option CertificateFetcher :=
  written ← written_rounds gc_round s;
  let targets := filter (fun e : Z * Z => last_written gc_round written e.1 < e.2) (fe_targets f) in
  if bool_decide (targets = ∅) then Some (mkFetcher targets (fe_task f))
  else q ← fetch_request gc_round written; Some (mkFetcher targets (Some q)).

Definition kickstart_idle (gc_round : Z) (s : Store) (f : CertificateFetcher) : option CertificateFetcher :=
  match fe_task f with None => kickstart gc_round s f | Some _ => Some f end.

(** A command arrives. *)
Definition fetcher_command (gc_round : Z) (s : Store) (command : CertificateFetcherCommand) (f : CertificateFetcher) :
    option CertificateFetcher :=
  match command with
  | Kick => kickstart_idle gc_round s f
  | Ancestors x =>
      let header := ce_header x in
      if negb (he_epoch header =? cm_epoch (sf_committee cfg)) then Some f
      else if match fe_targets f !! he_author header with Some r => he_round header <=? r | None => false end then Some f
      else if he_round header <=? default 0 (last_round_number (he_author header) s) then Some f
      else kickstart_idle gc_round s (mkFetcher (<[he_author header := he_round header]> (fe_targets f)) (fe_task f))
  end.

(** The task has ended. *)
Definition fetcher_task_ends (gc_round : Z) (s : Store) (f : CertificateFetcher) : option CertificateFetcher :=
  kickstart_idle gc_round s (mkFetcher (fe_targets f) None).

(** ** Accepting what was fetched *)

Fixpoint chunks {A} (fuel size : nat) (l : list A) : list (list A) :=
  match fuel, l with
  | O, _ | _, [] => []
  | S fuel, _ => take size l :: chunks fuel size (drop size l)
  end.

Fixpoint sanitize_all (now : Z) (xs : list Certificate) : EM (Synchronizer T) DagError unit :=
  match xs with
  | [] => mret tt
  | x :: xs' => _ ← sanitize_certificate cfg now x; sanitize_all now xs'
  end.

(** An error of one certificate does not stop the others. *)
Fixpoint accept_fetched (now : Z) (xs : list Certificate) : EM (Synchronizer T) DagError unit :=
  match xs with
  | [] => mret tt
  | x :: xs' => fun n =>
      match try_accept_fetched_certificate cfg now x n with
      | Some (n, _) => accept_fetched now xs' n
      | None => None
      end
  end.

Fixpoint accept_chunks (now : Z) (chunks : list (Result unit DagError * list Certificate)) : EM (Synchronizer T) DagError unit :=
  match chunks with
  | [] => mret tt
  | (verified, xs) :: chunks' => _ ← em_result verified; _ ← accept_fetched now xs; accept_chunks now chunks'
  end.

(** The chunks are verified before the first certificate is accepted. *)
Definition process_certificates_helper (now : Z) (response : list Certificate) : EM (Synchronizer T) DagError unit :=
  _ ← ensure (Z.of_nat (length response) <=? MAX_CERTIFICATES_TO_FETCH)
        (TooManyFetchedCertificatesReturned (Z.of_nat (length response)) MAX_CERTIFICATES_TO_FETCH);
  n ← em_get;
  verified ← em_lift (mapM (fun xs => match sanitize_all now xs n with Some (_, r) => Some (r, xs) | None => None end)
                           (chunks (length response) VERIFY_CERTIFICATES_BATCH_SIZE response));
  accept_chunks now verified.

(** [response] is what a peer has answered, if one did. *)
Definition run_fetch_task (now : Z) (response : option (list Certificate)) : EM (Synchronizer T) DagError unit :=
  match response with
  | None => em_fail NoCertificateFetched
  | Some response => process_certificates_helper now response
  end.
End fetcher.
