(* ===== verification/FetchingProps.v ===== *)
(** * What fetching promises

    A request arrives as it was sent ([request_roundtrip]).  The handler answers with the
    certificates that the asking side lacks, in the order of their rounds, as many as were
    asked for or as the time allows ([fetch_certificates_correct]).  So a node can accept
    them in this order: the parents of each are stored already, come before it in the
    answer or are collected ([fetched_in_causal_order]). *)

From S2P Require Import Prelude Committee DagTypes DagProps ConsensusSample Certification SignatureSample PrimarySample CertificateStore Synchronizer SynchronizerSafe Fetching.
Local Open Scope Z_scope.
Local Open Scope chase_scope.

(** ** Sorted lists *)

(** The order of the queue: by round, then by author. *)
Abbreviation key_before := (pair_key_le (@id (Z * Z)%type)).

Lemma pair_ltb_spec x y : pair_ltb x y = true <-> key_before x y ∧ x <> y.
Proof.
  destruct x as [a b], y as [a' b']. unfold pair_ltb, pair_key_le. simpl.
  rewrite orb_true_iff, andb_true_iff, !Z.ltb_lt, Z.eqb_eq. split.
  - intros Hlt. split; [lia|]. intros [= -> ->]. lia.
  - intros [Hle Hne]. destruct (Z.eq_dec a a') as [->|]; [|lia]. right. split; [done|].
    assert (b <> b') by congruence. lia.
Qed.

Lemma key_before_total x y : key_before x y ∨ key_before y x.
Proof. unfold pair_key_le. lia. Qed.

Lemma key_before_anti x y : key_before x y -> key_before y x -> x = y.
Proof. destruct x, y. unfold pair_key_le. simpl. intros ? ?. f_equal; lia. Qed.

Lemma heap_push_Permutation x l : heap_push x l ≡ₚ x :: l.
Proof. induction l as [|z l IH]; simpl; [done|]. destruct (pair_ltb z x); [|done]. rewrite IH. constructor. Qed.

Lemma elem_of_heap_push x y l : y ∈ heap_push x l <-> y = x ∨ y ∈ l.
Proof. by rewrite heap_push_Permutation, elem_of_cons. Qed.

Lemma heap_push_sorted x l : StronglySorted key_before l -> StronglySorted key_before (heap_push x l).
Proof.
  induction 1 as [|y l Hl IH Hy]; simpl; [repeat constructor|]. destruct (pair_ltb y x) eqn:E.
  - constructor; [done|]. apply Forall_forall. intros z [->|Hz]%elem_of_heap_push; [by apply pair_ltb_spec|].
    by apply (proj1 (Forall_forall _ _) Hy).
  - assert (key_before x y) as Hxy.
    { destruct (key_before_total x y) as [?|Hyx]; [done|]. destruct (decide (y = x)) as [->|Hne]; [done|].
      assert (pair_ltb y x = true) by by apply pair_ltb_spec. congruence. }
    constructor; [by constructor|]. constructor; [done|]. eapply Forall_impl; [exact Hy|]. intros z Hz. by etrans.
Qed.

Lemma filter_ext_elem {A} (P P' : A -> Prop) `{!forall x, Decision (P x)} `{!forall x, Decision (P' x)} (l : list A) :
  (forall x, x ∈ l -> P x <-> P' x) -> filter P l = filter P' l.
Proof.
  induction l as [|x l IH]; intros Hl; [done|]. rewrite !filter_cons, IH by (intros y Hy; apply Hl; by right).
  specialize (Hl x ltac:(by left)). destruct (decide (P x)), (decide (P' x)); tauto.
Qed.

(** The least element that satisfies a predicate comes first. *)
Lemma filter_least {A} `{!EqDecision A} (R : A -> A -> Prop) (P P' : A -> Prop) `{!forall x, Decision (P x)} `{!forall x, Decision (P' x)} (l : list A) (x : A) :
  (forall a b, R a b -> R b a -> a = b) -> StronglySorted R l -> NoDup l -> x ∈ l -> P x ->
  (forall y, y ∈ l -> P y -> R x y) -> (forall y, y ∈ l -> P' y <-> P y ∧ y <> x) -> filter P l = x :: filter P' l.
Proof.
  intros Hanti Hs. induction Hs as [|y l Hs IH Hy]; intros Hnd Hx HP Hmin HP'; [by apply not_elem_of_nil in Hx|].
  apply NoDup_cons in Hnd as [Hnin Hnd]. rewrite Forall_forall in Hy. rewrite !filter_cons. destruct (decide (y = x)) as [->|Hne].
  - rewrite decide_True by done. rewrite decide_False by (rewrite HP' by (by left); tauto). f_equal.
    apply filter_ext_elem. intros z Hz. rewrite HP' by (by right). split; [|tauto]. intros ?. split; [done|]. by intros ->.
  - apply elem_of_cons in Hx as [?|Hx]; [congruence|].
    assert (~ P y) as Hny. { intros HPy. apply Hne. apply Hanti; [by apply Hy|]. by apply Hmin; [left|]. }
    rewrite !decide_False; [|rewrite HP' by (by left); tauto|done]. apply IH; [done|done|done| |].
    + intros z Hz. apply Hmin. by right.
    + intros z Hz. apply HP'. by right.
Qed.

(** ** The index by origin *)

Section index.
Context `{HH : HeaderHash} {T : Type} `{HT : StoreCache T}.
Implicit Types s : CertificateStore T.

(** The index by origin lists exactly the certificates, with rounds below the largest. *)
Record origin_ok s : Prop := {
  og_sound o r d : cs_by_origin s !! (o, r) = Some d ->
    exists x, cs_by_id s !! d = Some x ∧ Certificate_origin x = o ∧ Certificate_round x = r ∧ 0 <= r < u64_modulus - 1;
  og_complete d x : cs_by_id s !! d = Some x ->
    Certificate_digest x = d ∧ cs_by_origin s !! (Certificate_origin x, Certificate_round x) = Some d
}.

(** A write keeps it when it neither equivocates nor collides. *)
Lemma origin_ok_write s x :
  origin_ok s -> write_result s = Ok tt -> 0 <= Certificate_round x < u64_modulus - 1 ->
  (forall d, cs_by_origin s !! (Certificate_origin x, Certificate_round x) = Some d -> d = Certificate_digest x) ->
  (forall y, cs_by_id s !! Certificate_digest x = Some y -> ce_header y = ce_header x) ->
  origin_ok (cs_write x s).1.
Proof.
  intros [Hs Hc] Hw Hr Hx Hcol. unfold cs_write, cs_write_all. rewrite Hw. split; simpl.
  - intros o r d. rewrite lookup_insert_Some. intros [[[= <- <-] <-]|[Hne Hl]].
    + exists x. by rewrite lookup_insert_eq.
    + destruct (Hs _ _ _ Hl) as (y & Hy & <- & <- & ?). exists y. rewrite lookup_insert_ne; [done|].
      intros <-. apply Hne. unfold Certificate_round, Certificate_origin. by rewrite (Hcol _ Hy).
  - intros d y. rewrite !lookup_insert_Some. intros [[<- <-]|[Hne Hl]]; [by auto|].
    destruct (Hc _ _ Hl) as [Hd Hl']. split; [done|]. right. split; [|done]. intros Heq. rewrite <- Heq in Hl'.
    by apply Hx in Hl'.
Qed.

Definition has_round s (origin r : Z) : Prop := is_Some (cs_by_origin s !! (origin, r)).

Lemma next_round_spec s origin cur : 0 <= cur < u64_modulus - 1 ->
  match next_round_number origin cur s with
  | Some r => cur < r ∧ has_round s origin r ∧ forall r', has_round s origin r' -> cur < r' -> r <= r'
  | None => forall r', has_round s origin r' -> r' <= cur
  end.
Proof.
  intros Hcur. unfold next_round_number. rewrite u64_add_small by lia.
  set (l := skip_to (origin, cur + 1) (rows (cs_by_origin s))).
  assert (forall k d, (k, d) ∈ l <-> cs_by_origin s !! k = Some d ∧ pair_ltb k (origin, cur + 1) = false) as Hl.
  { intros k d. unfold l, skip_to. by rewrite list_elem_of_In, filter_In, <- list_elem_of_In, elem_of_rows, negb_true_iff. }
  assert (StronglySorted (pair_key_le (fst : Z * Z * Z -> Z * Z)) l) as Hs by (apply StronglySorted_list_filter, sort_by_pair_sorted).
  assert (forall r, pair_ltb (origin, r) (origin, cur + 1) = false <-> cur < r) as Hlt.
  { intros r. unfold pair_ltb. simpl. rewrite orb_false_iff, andb_false_iff, !Z.ltb_ge, Z.eqb_neq. lia. }
  destruct l as [|[[name r] d] l'].
  { intros r' [d Hd]. destruct (Z.le_gt_cases r' cur) as [|Hgt]; [done|]. exfalso.
    apply (not_elem_of_nil ((origin, r'), d)), Hl. split; [done|]. apply Hlt. lia. }
  apply StronglySorted_inv in Hs as [_ Hs]. rewrite Forall_forall in Hs.
  assert (forall r', has_round s origin r' -> cur < r' -> pair_key_le (fst : Z * Z * Z -> Z * Z) (name, r, d) (origin, r', d) ) as Hmin.
  { intros r' [d' Hd'] Hr'. assert (((origin, r'), d') ∈ (name, r, d) :: l') as [Heq|Hin]%elem_of_cons.
    - apply Hl. split; [done|]. by apply Hlt.
    - injection Heq as -> -> ->. unfold pair_key_le. simpl. lia.
    - by apply Hs in Hin. }
  destruct (proj1 (Hl (name, r) d) ltac:(by left)) as [Hd Hge]. destruct (Z.eqb_spec name origin) as [->|Hne].
  - split; [by apply Hlt|]. split; [by eexists|]. intros r' Hr' Hgt. specialize (Hmin r' Hr' Hgt). unfold pair_key_le in Hmin. simpl in Hmin. lia.
  - intros r' Hr'. destruct (Z.le_gt_cases r' cur) as [|Hgt]; [done|]. exfalso. specialize (Hmin r' Hr' ltac:(lia)).
    unfold pair_key_le in Hmin. simpl in Hmin. unfold pair_ltb in Hge. simpl in Hge. apply orb_false_iff in Hge as [Hge _].
    apply Z.ltb_ge in Hge. lia.
Qed.

(** ** The next round to send *)

(** A round of the author that is stored, above the current one and not skipped. *)
Definition open_round s (origin cur : Z) (skip : gset Z) (r : Z) : Prop := has_round s origin r ∧ cur < r ∧ r ∉ skip.

Definition rows_above s (origin cur : Z) : gset (Z * Z) := filter (fun k : Z * Z => k.1 = origin ∧ cur < k.2) (dom (cs_by_origin s)).

Lemma elem_of_rows_above s origin cur k : k ∈ rows_above s origin cur <-> k.1 = origin ∧ cur < k.2 ∧ has_round s origin k.2.
Proof.
  unfold rows_above, has_round. rewrite elem_of_filter, elem_of_dom. destruct k as [o r]; simpl. split; [intros [[-> ?] ?]; done|]. by intros (-> & ? & ?).
Qed.

Lemma find_next_loop_spec s origin skip fuel cur : origin_ok s -> 0 <= cur < u64_modulus - 1 ->
  (size (rows_above s origin cur) < fuel)%nat ->
  exists res, find_next_loop fuel origin cur skip s = Finished res ∧
    match res with
    | Some r => open_round s origin cur skip r ∧ forall r', open_round s origin cur skip r' -> r <= r'
    | None => forall r', ~ open_round s origin cur skip r'
    end.
Proof.
  intros Hs. revert cur. induction fuel as [|fuel IH]; intros cur Hcur Hf; [lia|]. simpl.
  pose proof (next_round_spec s origin cur Hcur) as Hn. destruct (next_round_number origin cur s) as [r|].
  2: { eexists. split; [done|]. intros r' (Hr' & ? & _). specialize (Hn r' Hr'). lia. }
  destruct Hn as (Hr & Hrow & Hmin). pose proof Hrow as [d Hd]. destruct (og_sound _ Hs _ _ _ Hd) as (_ & _ & _ & _ & Hrange).
  case_bool_decide as Hskip.
  - destruct (IH r ltac:(lia)) as (res & Hres & Hspec).
    { assert (rows_above s origin r ⊂ rows_above s origin cur) as Hsub.
      { split.
        - intros k. rewrite !elem_of_rows_above. intros (? & ? & ?). split_and!; [done|lia|done].
        - intros Hin. assert ((origin, r) ∈ rows_above s origin r) as Hk%elem_of_rows_above; [|simpl in Hk; lia].
          apply Hin, elem_of_rows_above. done. }
      apply subset_size in Hsub. lia. }
    exists res. split; [done|]. assert (forall r', open_round s origin cur skip r' <-> open_round s origin r skip r') as Heq.
    { intros r'. unfold open_round. split; intros (Hr' & Hlt & Hns); (split_and!; [done| |done]); [|lia].
      specialize (Hmin r' Hr' Hlt). assert (r <> r') by set_solver. lia. }
    destruct res as [r2|]; [destruct Hspec as [H1 H2]; split; [by apply Heq|]; intros r' Hr'; by apply H2, Heq|].
    intros r' Hr'. by eapply Hspec, Heq.
  - eexists. split; [done|]. split; [done|]. intros r' (? & ? & _). by apply Hmin.
Qed.

Lemma find_next_round_spec s origin skip cur : origin_ok s -> 0 <= cur < u64_modulus - 1 ->
  exists res, find_next_round origin cur skip s = Finished res ∧
    match res with
    | Some r => open_round s origin cur skip r ∧ forall r', open_round s origin cur skip r' -> r <= r'
    | None => forall r', ~ open_round s origin cur skip r'
    end.
Proof.
  intros Hs Hcur. apply find_next_loop_spec; [done|done|]. rewrite <- (size_dom (D := gset (Z * Z))).
  assert (rows_above s origin cur ⊆ dom (cs_by_origin s)) as Hsub%subseteq_size by (unfold rows_above; set_solver). lia.
Qed.
End index.

(** ** The answer *)

Section answer.
Context `{HH : HeaderHash} {T : Type} `{HT : StoreCache T} `{!CacheLaws T}.
Implicit Types s : CertificateStore T.
Context (lb : Z) (skip : gmap Z (gset Z)).

(** A key, round and author, that is to be sent. *)
Definition wanted s (k : Z * Z) : Prop :=
  has_round s k.2 k.1 ∧ lb < k.1 ∧ match skip !! k.2 with Some rounds => k.1 ∉ rounds | None => False end.

#[global] Instance wanted_dec s k : Decision (wanted s k).
Proof. unfold wanted, has_round. destruct (skip !! k.2); apply _. Defined.

(** All keys, by round. *)
Definition all_keys s : list (Z * Z) := sort_by_pair id ((fun e : Z * Z * Z => (e.1.2, e.1.1)) <$> map_to_list (cs_by_origin s)).

Lemma elem_of_all_keys s k : k ∈ all_keys s <-> has_round s k.2 k.1.
Proof.
  unfold all_keys, has_round. rewrite sort_by_pair_Permutation, list_elem_of_fmap. split.
  - intros (((o & r) & d) & -> & Hd%elem_of_map_to_list). by exists d.
  - intros [d Hd]. exists ((k.2, k.1), d). split; [by destruct k|]. by apply elem_of_map_to_list.
Qed.

Lemma all_keys_sorted s : StronglySorted key_before (all_keys s).
Proof. apply sort_by_pair_sorted. Qed.

Lemma all_keys_NoDup s : NoDup (all_keys s).
Proof.
  unfold all_keys. rewrite sort_by_pair_Permutation.
  replace (fun e : Z * Z * Z => (e.1.2, e.1.1)) with ((fun k : Z * Z => (k.2, k.1)) ∘ (fst : Z * Z * Z -> Z * Z)) by done.
  rewrite list_fmap_compose. apply NoDup_fmap_2; [|apply NoDup_fst_map_to_list]. intros [a b] [a' b'] [= -> ->]. done.
Qed.

Lemma length_all_keys s : length (all_keys s) = size (cs_by_origin s).
Proof. unfold all_keys. rewrite sort_by_pair_Permutation, length_fmap. apply length_map_to_list. Qed.

Record queue_ok s (q : list (Z * Z)) : Prop := {
  qo_sorted : StronglySorted key_before q;
  qo_wanted k : k ∈ q -> wanted s k;
  qo_unique : NoDup q.*2
}.

(** A key that the queue still leads to. *)
Definition pending s (q : list (Z * Z)) (k : Z * Z) : Prop := wanted s k ∧ Exists (fun e => e.2 = k.2 ∧ e.1 <= k.1) q.

#[global] Instance pending_dec s q k : Decision (pending s q k).
Proof. unfold pending. apply _. Defined.

Lemma pending_nil s l : filter (pending s []) l = [].
Proof. induction l as [|k l IH]; [done|]. rewrite filter_cons, decide_False; [done|]. by intros [_ ?%Exists_nil]. Qed.

Lemma push_next_spec s q o cur rounds : origin_ok s -> queue_ok s q -> lb <= cur -> 0 <= cur < u64_modulus - 1 ->
  skip !! o = Some rounds -> (forall r, (r, o) ∉ q) ->
  exists q', push_next o cur rounds q s = Finished q' ∧ queue_ok s q' ∧
    (forall r o', (r, o') ∈ q' -> (r, o') ∈ q ∨ o' = o) ∧
    (forall k, pending s q' k <-> pending s q k ∨ (k.2 = o ∧ wanted s k ∧ cur < k.1)).
Proof.
  intros Hs [Hsort Hw Hu] Hlb Hcur Hskip Hno. unfold push_next.
  assert (forall r, open_round s o cur rounds r <-> wanted s (r, o) ∧ cur < r) as Hopen.
  { intros r. unfold open_round, wanted. simpl. rewrite Hskip. split; [intros (? & ? & ?); split_and!; try done; lia|tauto]. }
  destruct (find_next_round_spec s o rounds cur Hs Hcur) as ([r|] & -> & Hspec); simpl.
  - destruct Hspec as [Hr Hmin]. apply Hopen in Hr as [Hr Hlt]. eexists. split; [done|]. split; [split|split].
    + by apply heap_push_sorted.
    + intros k [->|Hk]%elem_of_heap_push; auto.
    + rewrite heap_push_Permutation. csimpl. constructor; [|done]. intros ([r' o'] & -> & He)%list_elem_of_fmap. by destruct (Hno r').
    + intros r1 o' [[= -> ->]|H1]%elem_of_heap_push; auto.
    + intros k. unfold pending. rewrite !Exists_exists. split.
      * intros (Hk & e & [->|He]%elem_of_heap_push & Heo & Her); [right|left; eauto]. simpl in *. split_and!; [done..|lia].
      * intros [(Hk & e & He & Heo)|(<- & Hk & Hkc)]; (split; [done|]).
        -- exists e. rewrite elem_of_heap_push. auto.
        -- exists (r, k.2). rewrite elem_of_heap_push. split; [by left|]. split; [done|]. simpl. apply Hmin, Hopen. by destruct k.
  - eexists. split; [done|]. split; [by split|]. split; [auto|]. intros k. split; [auto|]. intros [?|(<- & Hk & Hkc)]; [done|].
    destruct (Hspec k.1). apply Hopen. by destruct k.
Qed.

Lemma fill_queue_spec s l q : origin_ok s -> queue_ok s q -> 0 <= lb < u64_modulus - 1 -> NoDup l.*1 ->
  (forall o rounds, (o, rounds) ∈ l -> skip !! o = Some rounds ∧ forall r, (r, o) ∉ q) ->
  exists q', fill_queue lb l q s = Finished q' ∧ queue_ok s q' ∧
    forall k, pending s q' k <-> pending s q k ∨ (k.2 ∈ l.*1 ∧ wanted s k).
Proof.
  intros Hs. revert q. induction l as [|[o rounds] l IH]; intros q Hq Hlb Hnd Hl; csimpl.
  { exists q. split; [done|]. split; [done|]. intros k. rewrite elem_of_nil. tauto. }
  apply NoDup_cons in Hnd as [Hnin Hnd]. destruct (Hl o rounds ltac:(by left)) as [Hskip Hno].
  destruct (push_next_spec s q o lb rounds Hs Hq ltac:(lia) Hlb Hskip Hno) as (q1 & -> & Hq1 & Hin & Hp1).
  destruct (IH q1 Hq1 Hlb Hnd) as (q' & Hf & Hq' & Hp').
  { intros o' rounds' Hl'. destruct (Hl o' rounds' ltac:(by right)) as [? Hno']. split; [done|].
    intros r [?| ->]%Hin; [by eapply Hno'|]. apply Hnin, list_elem_of_fmap. by exists (o, rounds'). }
  exists q'. split; [done|]. split; [done|]. intros k. rewrite Hp', Hp1, elem_of_cons.
  assert (wanted s k -> lb < k.1) by (by intros (_ & ? & _)). tauto.
Qed.

(** The least key that is pending heads the queue. *)
Lemma pending_head s r o q : origin_ok s -> queue_ok s ((r, o) :: q) ->
  wanted s (r, o) ∧ queue_ok s q ∧ (forall r', (r', o) ∉ q) ∧
  (forall k, pending s ((r, o) :: q) k -> key_before (r, o) k) ∧
  (forall k, pending s ((r, o) :: q) k ∧ k <> (r, o) <-> pending s q k ∨ (k.2 = o ∧ wanted s k ∧ r < k.1)).
Proof.
  intros Hs [Hsort Hw Hu]. pose proof Hsort as [Hsort' Hmin]%StronglySorted_inv. rewrite Forall_forall in Hmin.
  csimpl in Hu. apply NoDup_cons in Hu as [Hno Hu].
  assert (forall r', (r', o) ∉ q) as Hno' by (intros r' Hr'; apply Hno, list_elem_of_fmap; by exists (r', o)).
  assert (wanted s (r, o)) as Hro by (apply Hw; by left).
  split; [done|]. split; [split; [done| |done]; intros k Hk; apply Hw; by right|]. split; [done|]. split.
  - intros k [Hk [e [He [Heo Hle]]]%Exists_exists]. apply elem_of_cons in He as [->|He]; unfold pair_key_le; simpl in *; [lia|].
    specialize (Hmin e He). unfold pair_key_le in Hmin. simpl in Hmin. lia.
  - intros k. unfold pending. rewrite Exists_cons. simpl. destruct k as [r' o']; simpl. split.
    + intros [(Hk & [[<- Hle]|He]) Hne]; [|by left]. right. split_and!; [done|done|]. assert (r <> r') by congruence. lia.
    + intros [[Hk He]|(-> & Hk & Hlt)]; [|split; [split; [done|left; split; [done|lia]]|intros [= ->]; lia]].
      split; [split; [done|by right]|]. intros [= -> ->]. apply Exists_exists in He as ([r1 o1] & He & Heo & _). simpl in Heo. subst o1.
      by destruct (Hno' r1).
Qed.

(** The certificate of a key. *)
Definition cert_at s (k : Z * Z) (x : Certificate) : Prop :=
  cs_by_id s !! Certificate_digest x = Some x ∧ Certificate_origin x = k.2 ∧ Certificate_round x = k.1.

Lemma read_by_index_spec s r o : cached_ok s -> origin_ok s -> has_round s o r ->
  exists t x, cs_read_by_index o r s = (set_cache s t, Some x) ∧ cached_ok (set_cache s t) ∧ cert_at s (r, o) x.
Proof.
  intros Hs Hi [d Hd]. unfold cs_read_by_index. rewrite Hd. destruct (og_sound _ Hi _ _ _ Hd) as (x & Hx & Ho & Hr & _).
  pose proof (cs_read_ok s d Hs) as Hok. destruct (cs_read_spec s d (proj1 Hs)) as (Hv & _ & t & Ht).
  destruct (cs_read d s) as [s1 y]. simpl in *. subst s1 y. rewrite Hx. exists t, x. split; [done|]. split; [done|].
  unfold cert_at. destruct (og_complete _ Hi _ _ Hx) as [-> _]. done.
Qed.

(** What the loop has sent and why it stopped; [n] certificates were sent before. *)
Record answered s (max_items n : Z) (elapsed : list bool) (keys : list (Z * Z)) (xs : list Certificate) : Prop := {
  an_keys : Forall2 (cert_at s) (take (length xs) keys) xs;
  an_bound : n + Z.of_nat (length xs) <= max_items;
  an_stop : length xs = length keys ∨ n + Z.of_nat (length xs) = max_items ∨ true ∈ elapsed
}.

Lemma answered_one s max_items n elapsed k keys x : cert_at s k x -> n < max_items ->
  keys = [] ∨ n + 1 = max_items ∨ true ∈ elapsed -> answered s max_items n elapsed (k :: keys) [x].
Proof. intros Hx Hn Hst. split; simpl; [rewrite take_0; constructor; [exact Hx|constructor]|lia|]. destruct Hst as [->|[?|?]]; [by left|right; left; lia|by auto]. Qed.

Lemma answered_cons s max_items n elapsed elapsed' k keys x xs : cert_at s k x -> (true ∈ elapsed' -> true ∈ elapsed) ->
  answered s max_items (n + 1) elapsed' keys xs -> answered s max_items n elapsed (k :: keys) (x :: xs).
Proof. intros Hx He [Hk Hb Hst]. split; simpl; [by constructor|lia|]. destruct Hst as [->|[?|?]]; [by left|right; left; lia|by auto]. Qed.

Lemma fetch_loop_spec fuel max_items s elapsed q certs : cached_ok s -> origin_ok s -> queue_ok s q -> 0 <= lb ->
  (length (filter (pending s q) (all_keys s)) <= fuel)%nat -> Z.of_nat (length certs) < max_items ->
  exists t xs, fetch_loop fuel skip max_items elapsed q certs s = Finished (set_cache s t, certs ++ xs) ∧ cached_ok (set_cache s t) ∧
    answered s max_items (Z.of_nat (length certs)) elapsed (filter (pending s q) (all_keys s)) xs.
Proof.
  intros Hs Hi Hq Hlb. revert s elapsed q certs Hs Hi Hq.
  induction fuel as [|fuel IH]; intros s elapsed q certs Hs Hi Hq Hf Hn; (destruct q as [|[r o] q]; [|destruct (pending_head s r o q Hi Hq) as (Hro & Hq0 & Hno & Hmin & Hrest)]).
  1, 3: exists (cs_cache s), []; rewrite app_nil_r, pending_nil; (split; [by destruct s|]); (split; [by destruct s|]);
    (split; [by apply Forall2_nil|simpl; lia|by left]).
  all: pose proof Hro as (Hrow & Hrlb & Hskip); simpl in Hrow, Hrlb, Hskip.
  all: assert (pending s ((r, o) :: q) (r, o)) as Hp by (split; [done|]; left; simpl; split; [done|lia]).
  { assert (filter (pending s ((r, o) :: q)) (all_keys s) = []) as Hnil by (destruct (filter _ _); simpl in Hf; [done|lia]).
    assert ((r, o) ∈ filter (pending s ((r, o) :: q)) (all_keys s)) as Hin by (apply list_elem_of_filter; split; [done|by apply elem_of_all_keys]).
    rewrite Hnil in Hin. by apply not_elem_of_nil in Hin. }
  destruct (skip !! o) as [rounds|] eqn:Eskip; [|done]. simpl.
  destruct (read_by_index_spec s r o Hs Hi Hrow) as (t & x & -> & Hs1 & Hx). rewrite Eskip.
  assert (0 <= r < u64_modulus - 1) as Hr. { destruct Hrow as [d Hd]. destruct (og_sound _ Hi _ _ _ Hd) as (_ & _ & _ & _ & ?). lia. }
  destruct (push_next_spec (set_cache s t) q o r rounds) as (q1 & -> & Hq1 & _ & Hp1); [by destruct Hi|by destruct Hq0|lia|done|done|done|].
  assert (filter (pending s ((r, o) :: q)) (all_keys s) = (r, o) :: filter (pending s q1) (all_keys s)) as Hkeys.
  { apply (filter_least key_before); [apply key_before_anti|apply all_keys_sorted|apply all_keys_NoDup|by apply elem_of_all_keys|done| |].
    - intros y _. apply Hmin.
    - intros y _. rewrite Hrest. apply Hp1. }
  rewrite Hkeys in Hf |- *. simpl in Hf. cbn [mbind Run_bind]. rewrite length_app. cbn [length].
  destruct (Z.eqb_spec (Z.of_nat (length certs + 1)) max_items) as [Hm|Hm].
  { exists t, [x]. split; [done|]. split; [done|]. apply answered_one; [done|lia|right; left; lia]. }
  destruct (default false (head elapsed)) eqn:Eel.
  { exists t, [x]. split; [done|]. split; [done|]. apply answered_one; [done|lia|right; right].
    destruct elapsed as [|b ?]; [done|]. simpl in Eel. subst b. by left. }
  rewrite (proj2 (Z.ltb_lt (Z.of_nat (length certs + 1)) max_items)) by lia.
  destruct (IH (set_cache s t) (tail elapsed) q1 (certs ++ [x])) as (t' & xs & -> & Hs' & Hxs);
    [done|by destruct Hi|done|exact (le_S_n _ _ Hf)|rewrite length_app; simpl; lia|].
  exists t', (x :: xs). split; [by rewrite <- (assoc_L (++))|]. split; [done|].
  rewrite length_app, Nat2Z.inj_add in Hxs. destruct Hxs as [Hk Hb Hst].
  apply (answered_cons s max_items _ elapsed (tail elapsed)); [done|destruct elapsed; [done|by right]|by split].
Qed.
End answer.

(** ** The request *)

Section request.
Context `{HB : RoaringBitmap} `{!BitmapLaws}.

Lemma foldl_insert_union {V} (l : list (Z * V)) (m : gmap Z V) : NoDup l.*1 ->
  foldl (fun m (e : Z * V) => <[e.1 := e.2]> m) m l = list_to_map l ∪ m.
Proof.
  revert m. induction l as [|[k v] l IH]; intros m Hnd; csimpl; [by rewrite (left_id_L ∅ (∪))|]. apply NoDup_cons in Hnd as [Hk Hnd].
  rewrite IH by done. rewrite <- insert_union_l, insert_union_r; [done|]. by apply not_elem_of_list_to_map.
Qed.

Lemma btree_iter_to_map {V} (m : gmap Z V) : list_to_map (btree_iter m) = m.
Proof.
  rewrite <- (list_to_map_to_list m) at 2. apply list_to_map_proper; [apply btree_iter_NoDup|apply sort_by_key_Permutation].
Qed.

(** The rounds of a bitmap are those it was made of. *)
Lemma bitmap_rounds gc_round (rounds : gset Z) offsets :
  (forall r, r ∈ rounds -> 0 <= r < u64_modulus) -> mapM (round_offset gc_round) (sort_by_key id (elements rounds)) = Some offsets ->
  exists l, rb_deserialize (rb_serialize offsets) = Some l ∧ list_to_set ((fun r => gc_round +u64 r) <$> l) = rounds.
Proof.
  intros Hr Hm%mapM_Some.
  assert (forall v d, round_offset gc_round v = Some d -> 0 <= v < u64_modulus -> 0 <= d < u32_modulus ∧ gc_round +u64 d = v) as Hoff.
  { intros v d. unfold round_offset. destruct (Z.ltb_spec (v -u64 gc_round) u32_modulus) as [Hlt|]; [|done]. intros [= <-] Hv.
    split; [unfold u64_sub in *; pose proof (Z.mod_pos_bound (v - gc_round) u64_modulus); unfold u64_modulus in *; lia|].
    unfold u64_add, u64_sub. rewrite Zplus_mod_idemp_r. replace (gc_round + (v - gc_round)) with v by lia. by apply Z.mod_small. }
  assert (forall v, v ∈ sort_by_key id (elements rounds) <-> v ∈ rounds) as Hin by (intros v; by rewrite elem_of_sort_by_key, elem_of_elements).
  destruct (rb_roundtrip offsets) as (l & -> & Hl).
  { apply Forall_forall. intros d (v & Hv & Hd)%(Forall2_elem_of_r _ _ _ _ Hm). eapply Hoff; [exact Hd|]. by apply Hr, Hin. }
  exists l. split; [done|]. apply set_eq. intros v. rewrite elem_of_list_to_set, list_elem_of_fmap. split.
  - intros (d & -> & (w & Hw & Hd)%Hl%(Forall2_elem_of_r _ _ _ _ Hm)). apply Hin in Hw. destruct (Hoff w d Hd (Hr w Hw)) as [_ ->]. done.
  - intros Hv. destruct (Forall2_elem_of_l _ _ _ _ Hm (proj2 (Hin v) Hv)) as (d & Hd & Hvd). exists d.
    destruct (Hoff v d Hvd (Hr v Hv)) as [_ ->]. split; [done|]. by apply Hl.
Qed.

Lemma set_bounds_inv gc_round skip q q' : set_bounds gc_round skip q = Some q' ->
  (forall o rounds r, skip !! o = Some rounds -> r ∈ rounds -> 0 <= r < u64_modulus) -> get_bounds q' = (gc_round, skip).
Proof.
  unfold set_bounds. destruct (mapM _ (btree_iter skip)) as [bitmaps|] eqn:E; [|done]. simpl. intros [= <-] Hr.
  unfold get_bounds. cbn [fq_lower_bound fq_skip_rounds]. f_equal.
  trans (foldl (fun m (e : Z * gset Z) => <[e.1 := e.2]> m) (∅ : gmap Z (gset Z)) (btree_iter skip)).
  2: { rewrite foldl_insert_union by apply btree_iter_NoDup. by rewrite btree_iter_to_map, (right_id_L ∅ (∪)). }
  assert (forall e, e ∈ btree_iter skip -> forall r, r ∈ e.2 -> 0 <= r < u64_modulus) as Hr'.
  { intros [o rounds] He r. apply (Hr o). by apply elem_of_btree_iter. }
  clear Hr. revert Hr'. apply mapM_Some in E. generalize (∅ : gmap Z (gset Z)) as m.
  induction E as [|[o rounds] e' l bitmaps He E IH]; intros m Hr; [done|]. cbn [foldl].
  cbn [fst snd] in He. apply bind_Some in He as (offsets & Eo & [= <-]). cbn [fst snd].
  destruct (bitmap_rounds gc_round rounds offsets) as (bits & -> & ->); [apply (Hr (o, rounds)); by left|done|].
  apply IH. intros e He. apply Hr. by right.
Qed.

Lemma set_bounds_total gc_round skip q : 0 <= gc_round ->
  (forall o rounds r, skip !! o = Some rounds -> r ∈ rounds -> gc_round <= r < gc_round + u32_modulus ∧ r < u64_modulus) ->
  is_Some (set_bounds gc_round skip q).
Proof.
  intros Hg Hr. unfold set_bounds. destruct (mapM _ (btree_iter skip)) as [bitmaps|] eqn:E; [by eexists|]. exfalso.
  apply mapM_None, Exists_exists in E as ([o rounds] & He%elem_of_btree_iter & Hn). cbn [fst snd] in Hn.
  apply bind_None in Hn as [Eo|(? & _ & ?)]; [|done]. apply mapM_None, Exists_exists in Eo as (v & Hv%elem_of_sort_by_key%elem_of_elements & Hoff).
  destruct (Hr o rounds v He Hv) as [? ?]. unfold round_offset in Hoff. unfold u64_sub in Hoff. rewrite Z.mod_small in Hoff by lia.
  destruct (Z.ltb_spec (v - gc_round) u32_modulus); [done|lia].
Qed.
End request.

(** ** The rounds that are stored *)

Section written.
Context `{HH : HeaderHash} {T : Type} `{HT : StoreCache T}.
Implicit Types s : CertificateStore T.

Lemma push_origins_spec l m r o :
  o ∈ default [] (foldl push_origin m l !! r) <-> o ∈ default [] (m !! r) ∨ exists d, ((r, o), d) ∈ l.
Proof.
  revert m. induction l as [|[[r' o'] d'] l IH]; intros m; simpl; [split; [auto|]; intros [?|[? ?%not_elem_of_nil]]; done|].
  rewrite IH. unfold push_origin. simpl. setoid_rewrite elem_of_cons. destruct (decide (r' = r)) as [->|Hne].
  - rewrite lookup_insert_eq. simpl. rewrite elem_of_app, list_elem_of_singleton. naive_solver.
  - rewrite lookup_insert_ne by done. naive_solver.
Qed.

Lemma origins_after_spec s round r o :
  o ∈ default [] (origins_after_round round s !! r) <-> is_Some (cs_by_round s !! (r, o)) ∧ round <= r.
Proof.
  unfold origins_after_round. rewrite push_origins_spec, lookup_empty. simpl. rewrite elem_of_nil.
  assert (forall d, ((r, o), d) ∈ List.filter (fun e : Z * Z * Z => negb (e.1.1 <? round))
      (if 0 <? round then skip_to (round - 1, 0) (rows (cs_by_round s)) else rows (cs_by_round s)) <->
    ((r, o), d) ∈ rows_from round s) as Hrows.
  { intros d. unfold rows_from. rewrite !list_elem_of_In, !filter_In. simpl. by rewrite Z.leb_antisym. }
  setoid_rewrite Hrows. setoid_rewrite elem_of_rows_from. simpl. split; [intros [[]|(d & ? & ?)]; eauto|]. intros [[d ?] ?]. eauto.
Qed.

Definition add_round (r : Z) (m : gmap Z (gset Z)) (origin : Z) : gmap Z (gset Z) := <[origin := {[r]} ∪ default ∅ (m !! origin)]> m.

Lemma add_rounds_spec r0 l m :
  (forall o r, r ∈ default ∅ (foldl (add_round r0) m l !! o) <-> r ∈ default ∅ (m !! o) ∨ (r = r0 ∧ o ∈ l)) ∧
  (forall o, is_Some (m !! o) -> is_Some (foldl (add_round r0) m l !! o)).
Proof.
  revert m. induction l as [|o' l IH]; intros m; simpl; [split; [|auto]; intros o r; rewrite elem_of_nil; naive_solver|].
  destruct (IH (add_round r0 m o')) as [H1 H2]. split.
  - intros o r. rewrite H1, elem_of_cons. unfold add_round. destruct (decide (o' = o)) as [->|Hne].
    + rewrite lookup_insert_eq. simpl. set_solver.
    + rewrite lookup_insert_ne by done. naive_solver.
  - intros o Ho. apply H2. unfold add_round. destruct (decide (o' = o)) as [->|Hne]; [rewrite lookup_insert_eq; eauto|by rewrite lookup_insert_ne].
Qed.

Lemma add_all_rounds_spec (l : list (Z * list Z)) m :
  let res := foldl (fun m e => foldl (add_round e.1) m e.2) m l in
  (forall o r, r ∈ default ∅ (res !! o) <-> r ∈ default ∅ (m !! o) ∨ exists os, (r, os) ∈ l ∧ o ∈ os) ∧
  (forall o, is_Some (m !! o) -> is_Some (res !! o)).
Proof.
  revert m. induction l as [|[r0 os0] l IH]; intros m; simpl.
  { split; [|auto]. intros o r. split; [auto|]. intros [?|(os & ?%not_elem_of_nil & _)]; done. }
  destruct (IH (foldl (add_round r0) m os0)) as [H1 H2]. destruct (add_rounds_spec r0 os0 m) as [H3 H4]. split; [|auto].
  intros o r. rewrite H1, H3. setoid_rewrite elem_of_cons. naive_solver.
Qed.

Lemma written_rounds_spec cfg gc_round s w : committee_wf (sf_committee cfg) -> 0 <= gc_round < u64_modulus - 1 ->
  written_rounds cfg gc_round s = Some w ->
  (forall a, a ∈ Committee_authorities (sf_committee cfg) -> is_Some (w !! au_id a)) ∧
  (forall o r, r ∈ default ∅ (w !! o) <-> is_Some (cs_by_round s !! (r, o)) ∧ gc_round < r).
Proof.
  intros Hc Hgc. unfold written_rounds. destruct (mapM Authority_id _) as [ids|] eqn:Eids; [|done]. cbn [mbind option_bind]. intros [= <-].
  set (empty := foldl _ ∅ ids).
  assert ((forall o, is_Some (empty !! o) <-> o ∈ ids) ∧ forall o, default ∅ (empty !! o) = (∅ : gset Z)) as [He1 He2].
  { unfold empty. clear. assert (forall m : gmap Z (gset Z), (forall o, default ∅ (m !! o) = ∅) ->
      (forall o, is_Some (foldl (fun m id => <[id := ∅]> m) m ids !! o) <-> is_Some (m !! o) ∨ o ∈ ids) ∧
      forall o, default ∅ (foldl (fun m id => <[id := ∅]> m) m ids !! o) = ∅) as Hgen.
    { induction ids as [|i ids IH]; intros m Hm; simpl; [split; [|done]; intros o; rewrite elem_of_nil; tauto|].
      destruct (IH (<[i := ∅]> m)) as [H1 H2].
      { intros o. destruct (decide (i = o)) as [->|]; [by rewrite lookup_insert_eq|by rewrite lookup_insert_ne]. }
      split; [|done]. intros o. rewrite H1, lookup_insert_is_Some, elem_of_cons. destruct (decide (i = o)); naive_solver. }
    destruct (Hgen ∅) as [H1 H2]; [done|]. split; [|done]. intros o. rewrite H1, lookup_empty. split; [intros [[? ?]|?]; done|auto]. }
  destruct (add_all_rounds_spec (btree_iter (origins_after_round (gc_round +u64 1) s)) empty) as [H1 H2]. split.
  - intros a Ha. apply H2, He1. apply mapM_Some in Eids. destruct (Forall2_elem_of_l _ _ _ _ Eids Ha) as (i & Hi & Hid).
    unfold Authority_id in Hid. rewrite (wf_initialised _ Hc a Ha) in Hid. by injection Hid as ->.
  - intros o r. rewrite u64_add_small in H1 |- * by lia. unfold add_round in H1. rewrite H1, He2.
    pose proof (origins_after_spec s (gc_round + 1) r o) as Hsp. setoid_rewrite elem_of_btree_iter. split.
    + intros [?%not_elem_of_empty|(os & Hos & Ho)]; [done|]. rewrite Hos in Hsp. apply Hsp in Ho as [? ?]. split; [done|lia].
    + intros [Hr Hlt]. right. destruct (origins_after_round (gc_round + 1) s !! r) as [os|] eqn:E.
      * exists os. split; [done|]. apply Hsp. split; [done|lia].
      * simpl in Hsp. destruct (not_elem_of_nil o). apply Hsp. split; [done|lia].
Qed.
End written.

(** ** Theorems *)

(** A request arrives as it was sent: when the rounds to skip are at most 32 bits above
    the collected round, packing them does not panic, and the receiver reads the same
    bound and, for every authority, the same rounds. *)
Theorem request_roundtrip `{HB : RoaringBitmap} `{!BitmapLaws} (gc_round : Z) (skip : gmap Z (gset Z)) (q : FetchCertificatesRequest) :
  0 <= gc_round ->
  (forall o rounds r, skip !! o = Some rounds -> r ∈ rounds -> gc_round <= r < gc_round + u32_modulus ∧ r < u64_modulus) ->
  exists q', set_bounds gc_round skip q = Some q' ∧ get_bounds q' = (gc_round, skip).
Proof.
  intros Hg Hr. destruct (set_bounds_total gc_round skip q Hg Hr) as [q' Hq]. exists q'. split; [done|].
  eapply set_bounds_inv; [exact Hq|]. intros o rounds r Ho Hin. destruct (Hr o rounds r Ho Hin). lia.
Qed.

(** The keys of the certificates that the other side lacks: of the authors it names, above
    its bound, not skipped; by round and author. *)
Definition missing_keys `{HeaderHash} {T} (lb : Z) (skip : gmap Z (gset Z)) (s : CertificateStore T) : list (Z * Z) :=
  filter (wanted lb skip s) (all_keys s).

Lemma missing_sorted `{HeaderHash} {T} lb skip (s : CertificateStore T) : StronglySorted key_before (missing_keys lb skip s).
Proof.
  unfold missing_keys. induction (all_keys_sorted s) as [|k l Hs IH Hk]; [constructor|]. rewrite filter_cons. destruct (decide _); [|done].
  constructor; [done|]. rewrite Forall_forall in *. intros k' [_ Hk']%list_elem_of_filter. auto.
Qed.

Section fetched.
Context `{HH : HeaderHash} {T : Type} `{HT : StoreCache T} `{!CacheLaws T} `{HB : RoaringBitmap}.
Implicit Types s : CertificateStore T.

Lemma fetch_spec q elapsed s lb skip : cached_ok s -> origin_ok s -> get_bounds q = (lb, skip) -> 0 <= lb < u64_modulus - 1 -> 0 <= fq_max_items q ->
  exists t xs, fetch_certificates q elapsed s = Finished (set_cache s t, xs) ∧ cached_ok (set_cache s t) ∧
    answered s (fq_max_items q) 0 elapsed (missing_keys lb skip s) xs.
Proof.
  intros Hs Hi Hb Hlb Hm. unfold fetch_certificates. destruct (Z.eqb_spec (fq_max_items q) 0) as [H0|H0].
  { exists (cs_cache s), []. split; [by destruct s|]. split; [by destruct s|]. split; [by apply Forall2_nil|simpl; lia|right; left; simpl; lia]. }
  rewrite Hb. destruct (fill_queue_spec lb skip s (btree_iter skip) [] Hi) as (queue & -> & Hq & Hp).
  { split; [constructor|by intros k ?%not_elem_of_nil|constructor]. }
  { done. }
  { apply btree_iter_NoDup. }
  { intros o rounds Ho%elem_of_btree_iter. split; [done|]. intros r. apply not_elem_of_nil. }
  cbn [mbind Run_bind].
  assert (filter (pending lb skip s queue) (all_keys s) = missing_keys lb skip s) as Hkeys.
  { apply filter_ext_elem. intros k Hk. rewrite Hp. unfold pending. rewrite Exists_nil. split; [tauto|]. intros Hw. right. split; [|done].
    destruct Hw as (_ & _ & Hw). destruct (skip !! k.2) as [rounds|] eqn:E; [|done].
    apply list_elem_of_fmap. exists (k.2, rounds). split; [done|]. by apply elem_of_btree_iter. }
  destruct (fetch_loop_spec lb skip (S (size (cs_by_origin s))) (fq_max_items q) s elapsed queue [] Hs Hi Hq) as (t & xs & Hl & Ht & Ha).
  - lia.
  - pose proof (length_filter (pending lb skip s queue) (all_keys s)). rewrite length_all_keys in *. lia.
  - simpl. lia.
  - rewrite Hkeys in Ha. by exists t, xs.
Qed.

Lemma push_next_origins s o cur rounds q : match push_next o cur rounds q s with
  | Finished q' => forall k, k ∈ q' -> k.2 = o ∨ k ∈ q
  | Panicked => False
  | Spinning => True
  end.
Proof.
  unfold push_next, find_next_round. generalize (S (size (cs_by_origin s))) as fuel. intros fuel. revert cur.
  induction fuel as [|fuel IH]; intros cur; simpl; [done|]. destruct (next_round_number o cur s) as [r|]; [|by simpl; auto].
  case_bool_decide; [apply IH|]. simpl. intros k [->|?]%elem_of_heap_push; auto.
Qed.

Lemma fetch_loop_bounded fuel skip max_items elapsed q certs s : (forall k, k ∈ q -> is_Some (skip !! k.2)) ->
  Z.of_nat (length certs) < max_items ->
  match fetch_loop fuel skip max_items elapsed q certs s with
  | Finished (_, xs) => Z.of_nat (length xs) <= max_items
  | Panicked => False
  | Spinning => True
  end.
Proof.
  revert elapsed q certs s. induction fuel as [|fuel IH]; intros elapsed q certs s Hq Hn; (destruct q as [|[r o] q]; [simpl; lia|]); simpl; [done|].
  destruct (cs_read_by_index o r s) as [s' [x|]]; [|apply IH; [intros k Hk; apply Hq; by right|done]].
  destruct (Hq (r, o) ltac:(by left)) as [rounds Hskip]. simpl in Hskip. rewrite Hskip.
  pose proof (push_next_origins s' o r rounds q) as Hp. destruct (push_next o r rounds q s') as [q'| |]; [|done|done]. cbn [mbind Run_bind].
  rewrite length_app. cbn [length]. destruct (Z.eqb_spec (Z.of_nat (length certs + 1)) max_items); [rewrite length_app; simpl; lia|].
  destruct (default false (head elapsed)); [rewrite length_app; simpl; lia|].
  rewrite (proj2 (Z.ltb_lt (Z.of_nat (length certs + 1)) max_items)) by lia. apply IH; [|rewrite length_app; simpl; lia].
  intros k [->|Hk]%Hp; [by rewrite Hskip|]. apply Hq. by right.
Qed.

Lemma fill_queue_origins s lb l q : match fill_queue lb l q s with
  | Finished q' => forall k, k ∈ q' -> k.2 ∈ l.*1 ∨ k ∈ q
  | Panicked => False
  | Spinning => True
  end.
Proof.
  revert q. induction l as [|[o rounds] l IH]; intros q; csimpl; [auto|].
  pose proof (push_next_origins s o lb rounds q) as Hp. destruct (push_next o lb rounds q s) as [q1| |]; [|done|done]. cbn [mbind Run_bind].
  specialize (IH q1). destruct (fill_queue lb l q1 s) as [q2| |]; [|done|done]. setoid_rewrite elem_of_cons.
  intros k [?|[?|?]%Hp]%IH; auto.
Qed.
End fetched.

(** C20. The handler returns, without a failing assertion, the certificates that the asking
    side lacks in the order of rounds and authors, and stops only at the end of them, at
    the number that was asked for or when its time is over. *)
Theorem fetch_certificates_correct `{HH : HeaderHash} {T : Type} `{HT : StoreCache T} `{!CacheLaws T} `{HB : RoaringBitmap}
    (q : FetchCertificatesRequest) (elapsed : list bool) (s : CertificateStore T) (lb : Z) (skip : gmap Z (gset Z)) :
  cached_ok s -> origin_ok s -> get_bounds q = (lb, skip) -> 0 <= lb < u64_modulus - 1 -> 0 <= fq_max_items q ->
  let keys := missing_keys lb skip s in
  exists s' xs, fetch_certificates q elapsed s = Finished (s', xs) ∧ cs_by_id s' = cs_by_id s ∧
    Forall2 (cert_at s) (take (length xs) keys) xs ∧
    Z.of_nat (length xs) <= fq_max_items q ∧
    (length xs = length keys ∨ Z.of_nat (length xs) = fq_max_items q ∨ true ∈ elapsed).
Proof.
  intros Hs Hi Hb Hlb Hm keys. destruct (fetch_spec q elapsed s lb skip Hs Hi Hb Hlb Hm) as (t & xs & Hf & _ & [Hk Hn Hst]).
  exists (set_cache s t), xs. split_and!; [done|done|done|lia|]. destruct Hst as [?|[?|?]]; [by left|right; left; lia|by auto].
Qed.

(** C21. Whatever the stores and the request hold, the handler does not run into its
    assertion or a missing entry and never sends more than was asked for; so a node does
    not reject an honest answer to its own request as too long. *)
Theorem fetch_answer_bounded `{HH : HeaderHash} {T : Type} `{HT : StoreCache T} `{HB : RoaringBitmap}
    (q : FetchCertificatesRequest) (elapsed : list bool) (s : CertificateStore T) :
  0 <= fq_max_items q ->
  fetch_certificates q elapsed s <> Panicked ∧
  (forall s' xs, fetch_certificates q elapsed s = Finished (s', xs) -> Z.of_nat (length xs) <= fq_max_items q) ∧
  (forall gc_round written, fetch_request gc_round written = Some q -> forall s' xs, fetch_certificates q elapsed s = Finished (s', xs) ->
    Z.of_nat (length xs) <= MAX_CERTIFICATES_TO_FETCH).
Proof.
  intros Hm.
  assert (match fetch_certificates q elapsed s with
    | Finished (_, xs) => Z.of_nat (length xs) <= fq_max_items q | Panicked => False | Spinning => True end) as Hf.
  { unfold fetch_certificates. destruct (Z.eqb_spec (fq_max_items q) 0); [simpl; lia|]. destruct (get_bounds q) as [lb skip].
    pose proof (fill_queue_origins s lb (btree_iter skip) []) as Hq. destruct (fill_queue lb (btree_iter skip) [] s) as [queue| |]; [|done|done].
    apply fetch_loop_bounded; [|simpl; lia]. intros k [Hk|?%not_elem_of_nil]%Hq; [|done].
    apply list_elem_of_fmap in Hk as ([o rounds] & -> & Ho%elem_of_btree_iter). by exists rounds. }
  destruct (fetch_certificates q elapsed s) as [[s' xs]| |]; [|done|done]. split; [done|]. split; [by intros ? ? [= <- <-]|].
  intros gc_round written Hq ? ? [= <- <-]. unfold fetch_request in Hq. destruct (set_bounds _ _ _); [|done]. by injection Hq as <-.
Qed.

(** ** Causal order *)

Section causal.
Context `{HH : HeaderHash} {T : Type} `{HT : StoreCache T} `{!CacheLaws T} `{HB : RoaringBitmap} `{!BitmapLaws}.
Context (cfg : SyncConfig) (Hc : committee_wf (sf_committee cfg)) (G : gmap Z Header) (Hcd : certified_dag (sf_committee cfg) G).
Implicit Types s : CertificateStore T.

Lemma sorted_before (l : list (Z * Z)) i k k' : StronglySorted key_before l -> l !! i = Some k -> k' ∈ l -> k'.1 < k.1 ->
  exists j, (j < i)%nat ∧ l !! j = Some k'.
Proof.
  intros Hs Hi [j Hj]%list_elem_of_lookup_1 Hlt. exists j. split; [|done]. destruct (decide (j < i)%nat) as [|Hge]; [done|]. exfalso.
  assert (key_before k k' ∨ k = k') as [Hle| ->]; [|unfold pair_key_le in Hle; simpl in Hle; lia|lia].
  revert i j Hi Hj Hge. induction Hs as [|y l Hs IH Hy]; intros i j Hi Hj Hge; [done|].
  destruct i as [|i], j as [|j]; simpl in *; simplify_eq.
  - by right.
  - left. apply (proj1 (Forall_forall _ _) Hy). by eapply list_elem_of_lookup_2.
  - lia.
  - apply (IH i j); [done|done|lia].
Qed.

(** A store that holds certified certificates only. *)
Definition store_certified s : Prop := forall d x, cs_by_id s !! d = Some x -> certified G x.

(** Above the round after the collected one, with a certificate its parents are stored. *)
Definition closed_above s (g : Z) : Prop :=
  forall d x p, cs_by_id s !! d = Some x -> g + 1 < Certificate_round x -> p ∈ Certificate_parents x -> is_Some (cs_by_id s !! p).

Lemma certified_same x y : certified G x -> certified G y -> Certificate_round x = Certificate_round y -> Certificate_origin x = Certificate_origin y ->
  Certificate_digest x = Certificate_digest y.
Proof. intros Hx Hy Hr Ho. unfold Certificate_digest. by rewrite (cd_unique _ _ Hcd _ _ _ _ Hx Hy Hr Ho). Qed.

(** A certificate that the asking side has is the one of its author and round. *)
Lemma written_same s w gc_round y : index_ok s -> store_certified s -> certified G y -> 0 <= gc_round < u64_modulus - 1 ->
  written_rounds cfg gc_round s = Some w -> Certificate_round y ∈ default ∅ (w !! Certificate_origin y) -> is_Some (cs_by_id s !! Certificate_digest y).
Proof.
  intros Hix Hsc Hy Hgc Hw Hin. apply (written_rounds_spec cfg gc_round s w Hc Hgc Hw) in Hin as [[d Hd] _].
  destruct (ix_sound _ Hix _ _ _ Hd) as (x & Hx & Hr & Ho). destruct (ix_complete _ Hix _ _ Hx) as [Hdx _].
  rewrite (certified_same y x); [|done|by eapply Hsc|done|done]. rewrite Hdx. eauto.
Qed.

Lemma written_range s w gc_round : index_ok s -> store_certified s -> 0 <= gc_round < u64_modulus - 1 ->
  written_rounds cfg gc_round s = Some w -> forall o rounds r, w !! o = Some rounds -> r ∈ rounds -> 0 <= r < u64_modulus.
Proof.
  intros Hix Hsc Hgc Hw o rounds r Ho Hr. assert (r ∈ default ∅ (w !! o)) as Hin by by rewrite Ho.
  apply (written_rounds_spec cfg gc_round s w Hc Hgc Hw) in Hin as [[d Hd] _].
  destruct (ix_sound _ Hix _ _ _ Hd) as (x & Hx & <- & _). pose proof (cd_round _ _ Hcd _ _ (Hsc _ _ Hx)). unfold Certificate_round. lia.
Qed.

Lemma wanted_or_written s1 s2 w gc_round y : index_ok s1 -> store_certified s1 -> origin_ok s2 -> store_certified s2 ->
  0 <= gc_round < u64_modulus - 1 -> written_rounds cfg gc_round s1 = Some w -> cs_by_id s2 !! Certificate_digest y = Some y ->
  gc_round < Certificate_round y ->
  is_Some (cs_by_id s1 !! Certificate_digest y) ∨ (Certificate_round y, Certificate_origin y) ∈ missing_keys gc_round w s2.
Proof.
  intros Hix Hsc Hi Hsc2 Hgc Hw Hy Hr. assert (certified G y) as Hyc by by eapply Hsc2.
  destruct (decide (Certificate_round y ∈ default ∅ (w !! Certificate_origin y))) as [Hin|Hnin]; [left; by eapply written_same|right].
  assert (has_round s2 (Certificate_origin y) (Certificate_round y)) as Hrow by (eexists; by apply (og_complete _ Hi)).
  apply list_elem_of_filter. split; [|by apply elem_of_all_keys]. split; [done|]. split; [done|]. simpl.
  destruct (cd_author _ _ Hcd _ _ Hyc) as [a Ha]. pose proof (wf_by_id _ Hc _ _ Ha) as Hid.
  destruct (written_rounds_spec cfg gc_round s1 w Hc Hgc Hw) as [Hall _].
  destruct (Hall a (wf_listed _ Hc _ _ Ha)) as [rounds Hrounds]. rewrite Hid in Hrounds. unfold Certificate_origin in *. rewrite Hrounds in Hnin |- *. done.
Qed.

(** The answer to the request is a beginning of the missing keys. *)
Lemma answer_keys s1 s2 s2' w gc_round q elapsed xs : index_ok s1 -> store_certified s1 -> cached_ok s2 -> origin_ok s2 ->
  0 <= gc_round < u64_modulus - 1 -> written_rounds cfg gc_round s1 = Some w -> fetch_request gc_round w = Some q ->
  fetch_certificates q elapsed s2 = Finished (s2', xs) -> Forall2 (cert_at s2) (take (length xs) (missing_keys gc_round w s2)) xs.
Proof.
  intros Hix Hsc Hs2 Hi2 Hgc Hw Hq Hf. unfold fetch_request in Hq. destruct (set_bounds gc_round w _) as [q0|] eqn:Hb; [|done]. injection Hq as <-.
  assert (get_bounds (set_max_items MAX_CERTIFICATES_TO_FETCH q0) = (gc_round, w)) as Hb'.
  { exact (set_bounds_inv _ _ _ _ Hb (written_range s1 w gc_round Hix Hsc Hgc Hw)). }
  destruct (fetch_spec _ elapsed s2 gc_round w Hs2 Hi2 Hb' Hgc) as (t & xs' & Hf' & _ & [Hk _ _]); [done|].
  rewrite Hf in Hf'. by injection Hf' as _ <-.
Qed.

(** What was asked for is not stored by the asking side. *)
Lemma missing_not_stored s1 s2 w gc_round k x : index_ok s1 -> store_certified s1 -> store_certified s2 -> 0 <= gc_round < u64_modulus - 1 ->
  written_rounds cfg gc_round s1 = Some w -> k ∈ missing_keys gc_round w s2 -> cert_at s2 k x -> cs_by_id s1 !! Certificate_digest x = None.
Proof.
  intros Hix Hsc Hsc2 Hgc Hw [(_ & Hlt & Hw') _]%list_elem_of_filter (Hx & Ho & Hr). destruct (cs_by_id s1 !! Certificate_digest x) as [x1|] eqn:E; [|done].
  exfalso. destruct (ix_complete _ Hix _ _ E) as [Hd Hrow].
  assert (ce_header x1 = ce_header x) as Hh.
  { pose proof (Hsc _ _ E) as H1. pose proof (Hsc2 _ _ Hx) as H2. unfold certified, in_dag in H1, H2. unfold Certificate_digest in Hd. congruence. }
  unfold Certificate_round, Certificate_origin in *. rewrite Hh, Ho, Hr in Hrow.
  assert (k.1 ∈ default ∅ (w !! k.2)) as Hin by (apply (written_rounds_spec cfg gc_round s1 w Hc Hgc Hw); split; [by eexists|done]).
  by destruct (w !! k.2).
Qed.
End causal.

(** C19. Certificates come in an order in which they can be accepted.  A node with collected
    round [gc_round] asks for what it lacks; the answer of a node that stores, above its
    own collected round [g], with each certificate its parents contains nothing that the
    asking node has, and the parents of each certificate above both collected rounds are
    stored by the asking node or come before it in the answer. *)
Theorem fetched_in_causal_order `{HH : HeaderHash} {T : Type} `{HT : StoreCache T} `{!CacheLaws T} `{HB : RoaringBitmap} `{!BitmapLaws}
    (cfg : SyncConfig) (G : gmap Z Header) (s1 s2 s2' : CertificateStore T) (gc_round g : Z) (w : gmap Z (gset Z))
    (q : FetchCertificatesRequest) (elapsed : list bool) (xs : list Certificate) :
  committee_wf (sf_committee cfg) -> certified_dag (sf_committee cfg) G ->
  index_ok s1 -> store_certified G s1 ->
  cached_ok s2 -> origin_ok s2 -> store_certified G s2 -> closed_above s2 g ->
  0 <= gc_round < u64_modulus - 1 ->
  written_rounds cfg gc_round s1 = Some w -> fetch_request gc_round w = Some q -> fetch_certificates q elapsed s2 = Finished (s2', xs) ->
  (forall x, x ∈ xs -> gc_round < Certificate_round x ∧ cs_by_id s2 !! Certificate_digest x = Some x ∧ cs_by_id s1 !! Certificate_digest x = None) ∧
  (forall i x p, xs !! i = Some x -> Z.max gc_round g + 1 < Certificate_round x -> p ∈ Certificate_parents x ->
    is_Some (cs_by_id s1 !! p) ∨ exists y, y ∈ take i xs ∧ Certificate_digest y = p).
Proof.
  intros Hc Hcd Hix Hsc Hs2 Hi2 Hsc2 Hcl Hgc Hw Hq Hf.
  pose proof (answer_keys cfg Hc G Hcd s1 s2 s2' w gc_round q elapsed xs Hix Hsc Hs2 Hi2 Hgc Hw Hq Hf) as Hkeys.
  assert (forall i x, xs !! i = Some x -> exists k, missing_keys gc_round w s2 !! i = Some k ∧ (i < length xs)%nat ∧ cert_at s2 k x) as Hat.
  { intros i x Hi. pose proof (lookup_lt_Some _ _ _ Hi) as Hlen. destruct (Forall2_lookup_r _ _ _ _ _ Hkeys Hi) as (k & Hk & Hx).
    rewrite lookup_take_lt in Hk by done. eauto. }
  split.
  - intros x [i Hi]%list_elem_of_lookup_1. destruct (Hat i x Hi) as (k & Hk%list_elem_of_lookup_2 & _ & Hx).
    split; [|split; [apply Hx|by eapply missing_not_stored]]. destruct Hx as (_ & _ & ->).
    by apply list_elem_of_filter in Hk as [(_ & ? & _) _].
  - intros i x p Hi Hr Hp. destruct (Hat i x Hi) as (k & Hk & Hlen & (Hx & Ho & Hrx)).
    destruct (Hcl _ _ _ Hx ltac:(lia) Hp) as [y Hy]. pose proof (proj1 (og_complete _ Hi2 _ _ Hy)) as Hd.
    assert (Certificate_round y = Certificate_round x - 1) as Hry.
    { apply (cd_parent_round _ _ Hcd _ _ _ _ (Hsc2 _ _ Hx) Hp). rewrite <- Hd. by eapply Hsc2. }
    rewrite <- Hd in Hy |- *.
    destruct (wanted_or_written cfg Hc G Hcd s1 s2 w gc_round y Hix Hsc Hi2 Hsc2 Hgc Hw Hy ltac:(lia)) as [?|Hin]; [by left|right].
    destruct (sorted_before _ i k _ (missing_sorted gc_round w s2) Hk Hin) as (j & Hj & Hjk); [simpl; lia|].
    destruct (Forall2_lookup_l _ _ _ j (Certificate_round y, Certificate_origin y) Hkeys) as (y' & Hy' & (Hyd & Hyo & Hyr)); [rewrite lookup_take_lt by lia; exact Hjk|].
    exists y'. split; [eapply list_elem_of_lookup_2; by rewrite lookup_take_lt|]. simpl in Hyo, Hyr.
    by eapply (certified_same cfg G Hcd); [eapply Hsc2..| |].
Qed.

(** ** Examples *)

Section checks.
Context `{HH : HeaderHash} {T : Type} `{HT : StoreCache T}.
Implicit Types s : CertificateStore T.

Definition check_origin s : bool :=
  bool_decide (map_Forall (fun (k : Z * Z) d => match cs_by_id s !! d with
      | Some x => bool_decide (Certificate_origin x = k.1 ∧ Certificate_round x = k.2 ∧ 0 <= k.2 < u64_modulus - 1) | None => false end = true) (cs_by_origin s)) &&
  bool_decide (map_Forall (fun d x => Certificate_digest x = d ∧ cs_by_origin s !! (Certificate_origin x, Certificate_round x) = Some d) (cs_by_id s)).

Lemma check_origin_ok s : check_origin s = true -> origin_ok s.
Proof.
  unfold check_origin. rewrite andb_true_iff, !bool_decide_eq_true. intros [H1 H2]. split; [|apply H2].
  intros o r d Hd. specialize (H1 _ _ Hd). simpl in H1. destruct (cs_by_id s !! d) as [x|]; [|done]. exists x. by apply bool_decide_eq_true in H1.
Qed.

Definition check_index s : bool :=
  bool_decide (map_Forall (fun (k : Z * Z) d => match cs_by_id s !! d with
      | Some x => bool_decide (Certificate_round x = k.1 ∧ Certificate_origin x = k.2) | None => false end = true) (cs_by_round s)) &&
  bool_decide (map_Forall (fun d x => Certificate_digest x = d ∧ cs_by_round s !! (Certificate_round x, Certificate_origin x) = Some d) (cs_by_id s)).

Lemma check_index_ok s : check_index s = true -> index_ok s.
Proof.
  unfold check_index. rewrite andb_true_iff, !bool_decide_eq_true. intros [H1 H2]. split; [|apply H2].
  intros r o d Hd. specialize (H1 _ _ Hd). simpl in H1. destruct (cs_by_id s !! d) as [x|]; [|done]. exists x. by apply bool_decide_eq_true in H1.
Qed.

Definition check_closed s (g : Z) : bool :=
  bool_decide (map_Forall (fun _ x => g + 1 < Certificate_round x -> Forall (fun p => is_Some (cs_by_id s !! p)) (Certificate_parents x)) (cs_by_id s)).

Lemma check_closed_ok s g : check_closed s g = true -> closed_above s g.
Proof. intros Hck%bool_decide_eq_true d x p Hx Hr Hp. by apply (proj1 (Forall_forall _ _) (Hck _ _ Hx Hr)). Qed.
End checks.

#[local] Existing Instance full_hash.

Definition list_bitmap : RoaringBitmap := {| rb_serialize l := l; rb_deserialize := Some |}.
#[local] Existing Instance list_bitmap.
#[global] Instance list_bitmap_laws : @BitmapLaws list_bitmap.
Proof. intros l _. by exists l. Qed.

Definition stored (xs : list Certificate) : CertificateStore unit := foldl (fun s x => (cs_write x s).1) (mkCertificateStore ∅ ∅ ∅ tt []) xs.

Definition round_certs (r : Z) : list Certificate := full_cert r <$> all_four.

(** The asking node lacks three certificates of round 2 and all of round 3. *)
Definition behind : CertificateStore unit := stored (round_certs 1 ++ [full_cert 2 0]).
Definition ahead : CertificateStore unit := stored (round_certs 1 ++ round_certs 2 ++ round_certs 3).

Definition behind_rounds : gmap Z (gset Z) := default ∅ (written_rounds four_config 0 behind).
Definition behind_request : FetchCertificatesRequest := default FetchCertificatesRequest_default (fetch_request 0 behind_rounds).

Lemma request_roundtrip_witness :
  let skip : gmap Z (gset Z) := {[0 := {[3; 5; 4]}; 1 := ∅]} in
  exists q', set_bounds 2 skip FetchCertificatesRequest_default = Some q' ∧ get_bounds q' = (2, skip).
Proof.
  intros skip. apply (request_roundtrip 2 skip FetchCertificatesRequest_default); [done|].
  assert (map_Forall (fun _ rounds => set_Forall (fun r => 2 <= r < 2 + u32_modulus ∧ r < u64_modulus) rounds) skip) as Hall
    by (refine (bool_decide_unpack _ _); by vm_compute).
  intros o rounds r Ho Hr. exact (Hall o rounds Ho r Hr).
Defined.

Lemma fetch_certificates_correct_witness :
  length (missing_keys 0 behind_rounds ahead) = 7%nat ∧
  exists s' xs, fetch_certificates behind_request [] ahead = Finished (s', xs) ∧ cs_by_id s' = cs_by_id ahead ∧
    Forall2 (cert_at ahead) (take (length xs) (missing_keys 0 behind_rounds ahead)) xs ∧
    Z.of_nat (length xs) <= fq_max_items behind_request ∧
    (length xs = length (missing_keys 0 behind_rounds ahead) ∨ Z.of_nat (length xs) = fq_max_items behind_request ∨ true ∈ @nil bool).
Proof.
  split; [by vm_compute|].
  apply (fetch_certificates_correct behind_request [] ahead 0 behind_rounds); [by split; [|constructor]|apply check_origin_ok; by vm_compute|by vm_compute|done|by vm_compute].
Defined.

Lemma fetch_answer_bounded_witness :
  0 <= fq_max_items (set_max_items 3 behind_request) ∧
  (exists s' xs, fetch_certificates (set_max_items 3 behind_request) [] ahead = Finished (s', xs) ∧ length xs = 3%nat) ∧
  fetch_certificates behind_request [] ahead <> Panicked ∧
  (forall s' xs, fetch_certificates behind_request [] ahead = Finished (s', xs) -> Z.of_nat (length xs) <= MAX_CERTIFICATES_TO_FETCH).
Proof.
  split; [done|]. split; [eexists _, _; split; [vm_compute; reflexivity|done]|].
  assert (0 <= fq_max_items behind_request) as Hm by by vm_compute.
  destruct (fetch_answer_bounded behind_request [] ahead Hm) as (Hp & _ & Hb). split; [exact Hp|].
  apply (Hb 0 behind_rounds). by vm_compute.
Defined.

Lemma stored_certified xs : Forall (certified (dag_of full_dag)) xs -> store_certified (dag_of full_dag) (stored xs).
Proof.
  intros Hxs. assert (forall s, store_certified (dag_of full_dag) s -> write_result s = Ok tt -> cs_outcomes s = [] ->
    store_certified (dag_of full_dag) (foldl (fun s x => (cs_write x s).1) s xs)) as Hgen; [|apply Hgen; [intros d x; simpl; by rewrite lookup_empty|done|done]].
  induction Hxs as [|x xs Hx _ IH]; intros s Hs Hw Ho; simpl; [done|]. apply IH; unfold cs_write, cs_write_all; rewrite Hw; simpl.
  - intros d y. cbn [cs_by_id]. intros [[_ <-]|[_ Hy]]%lookup_insert_Some; [done|by eapply Hs].
  - unfold write_result. simpl. by rewrite Ho.
  - by rewrite Ho.
Qed.

Lemma fetched_in_causal_order_witness :
  exists s2' xs, fetch_certificates behind_request [] ahead = Finished (s2', xs) ∧ length xs = 7%nat ∧
  (forall x, x ∈ xs -> 0 < Certificate_round x ∧ cs_by_id ahead !! Certificate_digest x = Some x ∧ cs_by_id behind !! Certificate_digest x = None) ∧
  (forall i x p, xs !! i = Some x -> 1 < Certificate_round x -> p ∈ Certificate_parents x ->
    is_Some (cs_by_id behind !! p) ∨ exists y, y ∈ take i xs ∧ Certificate_digest y = p).
Proof.
  assert (exists s2' xs, fetch_certificates behind_request [] ahead = Finished (s2', xs) ∧ length xs = 7%nat) as (s2' & xs & Hf & Hlen)
    by (eexists _, _; split; [vm_compute; reflexivity|done]).
  exists s2', xs. split; [exact Hf|]. split; [exact Hlen|].
  apply (fetched_in_causal_order four_config (dag_of full_dag) behind ahead s2' 0 0 behind_rounds behind_request [] xs four_wf full_dag_certified).
  - apply check_index_ok. by vm_compute.
  - apply stored_certified, (bool_decide_unpack _). by vm_compute.
  - split; [done|constructor].
  - apply check_origin_ok. by vm_compute.
  - apply stored_certified, (bool_decide_unpack _). by vm_compute.
  - apply check_closed_ok. by vm_compute.
  - clear. unfold u64_modulus. lia.
  - by vm_compute.
  - by vm_compute.
  - exact Hf.
Defined.
