(* ===== verification/Recovery.v ===== *)
(** * Starting consensus from the stores

    What a node reads when it starts: [Consensus_spawn] and the functions of
    [ConsensusState] below it (src/narwhal/consensus/src/consensus.rs) rebuild the state
    of consensus from the consensus store and the certificate store;
    [get_restored_consensus_output] (src/narwhal/executor/src/lib.rs) reads the sub-dags
    that the executor may not have executed; [spawn_consensus]
    (src/narwhal/node/src/primary_node.rs) composes them.

    Reading a certificate can move an entry of the cache, so the certificate store is
    threaded through.  An [unwrap], [expect] or assertion that fails is [None]. *)

From S2P Require Import Prelude Committee DagTypes ConsensusCore Bullshark CertificateStore.
Local Open Scope Z_scope.
Local Open Scope chase_scope.

Section recovery.
Context `{HeaderHash} {T : Type} `{StoreCache T}.
Abbreviation Store := (CertificateStore T).

(** ** The state of consensus *)

(** The loop of [construct_dag_from_cert_store]. *)
Fixpoint insert_certificates (last_committed : gmap Z Z) (gc_round : Z) (certificates : list Certificate) (dag : Dag) :
    option (Result Dag ConsensusError) :=
  match certificates with
  | [] => Some (Ok dag)
  | cert :: certificates' =>
      '(dag, r) ← try_insert_in_dag dag last_committed gc_round cert;
      match r with
      | Ok _ => insert_certificates last_committed gc_round certificates' dag
      | Err e => Some (Err e)
      end
  end.

Definition construct_dag_from_cert_store (cert_store : Store) (last_committed : gmap Z Z) (gc_round : Z) :
    option (Result Dag ConsensusError) :=
  match after_round (gc_round +u64 1) cert_store with
  | Ok certificates => insert_certificates last_committed gc_round certificates ∅
  | Err _ => None
  end.

Definition read_expect (id : Z) (cert_store : Store) : option (Store * Certificate) :=
  let '(cert_store, x) := cs_read id cert_store in
  x ← x; Some (cert_store, x).

Fixpoint read_each (ids : list Z) (cert_store : Store) : option (Store * list Certificate) :=
  match ids with
  | [] => Some (cert_store, [])
  | id :: ids' =>
      '(cert_store, x) ← read_expect id cert_store;
      '(cert_store, l) ← read_each ids' cert_store;
      Some (cert_store, x :: l)
  end.

Definition new_from_store (last_committed_round gc_depth : Z) (recovered_last_committed : gmap Z Z)
    (latest_sub_dag : option ConsensusCommit) (cert_store : Store) : option (Store * ConsensusState) :=
  let last_round := new_with_gc_depth last_committed_round gc_depth in
  r ← construct_dag_from_cert_store cert_store recovered_last_committed (cr_gc last_round);
  match r with
  | Err _ => None
  | Ok dag =>
      '(cert_store, last_committed_sub_dag) ←
        match latest_sub_dag with
        | None => Some (cert_store, None)
        | Some commit =>
            '(cert_store, certificates) ← read_each (commit_certificates commit) cert_store;
            '(cert_store, leader) ← read_expect (commit_leader commit) cert_store;
            Some (cert_store, Some (CommittedSubDag_from_commit commit certificates leader))
        end;
      Some (cert_store,
            mkState last_round gc_depth recovered_last_committed last_committed_sub_dag LeaderSwapTable_default dag)
  end.

(** The latest round of [last_committed]. *)
Definition recovered_round (last_committed : gmap Z Z) : Z :=
  match (map_to_list last_committed).*2 with [] => 0 | r :: rs => foldl Z.max r rs end.

Definition Consensus_spawn (committee : Committee) (gc_depth : Z) (store : ConsensusStore) (cert_store : Store)
    (channels : ConsensusChannels) (protocol : ConsensusProtocol) : option (Store * Consensus) :=
  let recovered_last_committed := read_last_committed store in
  let last_committed_round := recovered_round recovered_last_committed in
  let latest_sub_dag := get_latest_sub_dag store in
  if match latest_sub_dag with Some d => negb (commit_leader_round d =? last_committed_round) | None => false end
  then None
  else
    '(cert_store, state) ←
      new_from_store last_committed_round gc_depth recovered_last_committed latest_sub_dag cert_store;
    match send_round (st_last_round state) channels with
    | Some (channels, Ok _) => Some (cert_store, mkConsensus committee protocol state channels)
    | _ => None
    end.

(** ** The output that may not have been executed *)

(** A certificate that is missing from a sub-dag is left out. *)
Fixpoint restore_sub_dags (commits : list ConsensusCommit) (cert_store : Store) : option (Store * list CommittedSubDag) :=
  match commits with
  | [] => Some (cert_store, [])
  | commit :: commits' =>
      let '(cert_store, certificates) := cs_read_all (commit_certificates commit) cert_store in
      '(cert_store, leader) ← read_expect (commit_leader commit) cert_store;
      '(cert_store, sub_dags) ← restore_sub_dags commits' cert_store;
      Some (cert_store, CommittedSubDag_from_commit commit (omap id certificates) leader :: sub_dags)
  end.

Definition get_restored_consensus_output (last_executed_sub_dag_index : Z) (store : ConsensusStore) (cert_store : Store) :
    option (Store * list CommittedSubDag) :=
  restore_sub_dags (read_committed_sub_dags_from last_executed_sub_dag_index store) cert_store.

(** ** The start of a node *)

Definition CONSENSUS_SCHEDULE_CHANGE_SUB_DAGS : Z := 300.

(** The engine is Tusk if [CHASE_USE_TUSK] is set; [new_schedule] is the protocol's
    feature flag. *)
Definition ordering_engine (committee : Committee) (use_tusk new_schedule : bool) (store : ConsensusStore) : ConsensusProtocol :=
  let leader_schedule := mkSchedule committee LeaderSwapTable_default in
  if use_tusk then ProtocolTusk (Tusk_new committee store leader_schedule)
  else ProtocolBullshark (Bullshark_new committee store new_schedule CONSENSUS_SCHEDULE_CHANGE_SUB_DAGS leader_schedule).

(** The result has the restored output for the executor. *)
Definition spawn_consensus (committee : Committee) (gc_depth last_executed : Z) (use_tusk new_schedule : bool)
    (store : ConsensusStore) (cert_store : Store) (channels : ConsensusChannels) :
    option (Store * list CommittedSubDag * Consensus) :=
  '(cert_store, restored) ← get_restored_consensus_output last_executed store cert_store;
  '(cert_store, consensus) ← Consensus_spawn committee gc_depth store cert_store channels
    (ordering_engine committee use_tusk new_schedule store);
  Some (cert_store, restored, consensus).
End recovery.
