(* ===== verification/RecoveryProps.v ===== *)
(** * Restarts of consensus

    What is on the disk of a node at any time, and what a node makes of it when it
    starts again.  [disk_ok] says that the consensus store holds the sub-dags of a replay;
    it holds whenever a node stops, also between the writes of one certificate
    ([run_disk]).  [Consensus_spawn] rebuilds from such a disk a state with the invariant
    of a running node ([consensus_spawn_ok]).  So nodes agree although they stop and start again. *)

From S2P Require Import Prelude Committee DagTypes ConsensusCore Bullshark DagProps ConsensusSample Agreement ConsensusProps ConsensusSafe CertificateStore Recovery.
Local Open Scope Z_scope.
Local Open Scope chase_scope.

(** ** What is written *)

Definition stored_commit `{HeaderHash} (d : CommittedSubDag) : ConsensusCommit := CommitV2 (ConsensusCommitV2_from_sub_dag d).

Definition commit_table `{HeaderHash} (outs : list CommittedSubDag) : gmap Z ConsensusCommit :=
  list_to_map ((fun d => (sd_index d, stored_commit d)) <$> outs).

(** The store holds the sub-dags and the last committed rounds [lc], and no row of the
    former format. *)
Record stored `{HeaderHash} (st : ConsensusStore) (outs : list CommittedSubDag) (lc : gmap Z Z) : Prop := {
  sr_rounds : css_last_committed st = lc;
  sr_former : css_sub_dags st = ∅;
  sr_commits : css_sub_dags_v2 st = commit_table outs
}.

Definition same_tables (st st' : ConsensusStore) : Prop :=
  css_last_committed st' = css_last_committed st ∧ css_sub_dags st' = css_sub_dags st ∧ css_sub_dags_v2 st' = css_sub_dags_v2 st.

Lemma write_err `{HeaderHash} lc d st st' e : write_consensus_state lc d st = (st', Err e) -> same_tables st st'.
Proof. unfold write_consensus_state. destruct (css_outcomes st) as [|[u|e'] l]; intros [= <-]; done. Qed.

Lemma stored_same `{HeaderHash} st st' outs lc : same_tables st st' -> stored st outs lc -> stored st' outs lc.
Proof. intros (H1 & H2 & H3) [? ? ?]. split; congruence. Qed.

(** The sub-dags are numbered from one. *)
Definition numbered (outs : list CommittedSubDag) : Prop := forall i d, outs !! i = Some d -> sd_index d = Z.of_nat i + 1.

Lemma numbered_app outs d : numbered (outs ++ [d]) -> numbered outs ∧ sd_index d = Z.of_nat (length outs) + 1.
Proof.
  intros Hn. split; [|by apply Hn, list_lookup_middle]. intros i e He. apply Hn. by apply lookup_app_l_Some.
Qed.

Lemma numbered_keys `{HeaderHash} outs k :
  numbered outs -> k ∈ ((fun d => (sd_index d, stored_commit d)) <$> outs).*1 -> 1 <= k <= Z.of_nat (length outs).
Proof.
  intros Hn. rewrite <- list_fmap_compose. intros (d & -> & [i Hi]%list_elem_of_lookup_1)%list_elem_of_fmap. simpl.
  rewrite (Hn _ _ Hi). apply lookup_lt_Some in Hi. lia.
Qed.

Lemma write_ok_stored `{HeaderHash} lc lc' d st st' u outs :
  write_consensus_state lc' d st = (st', Ok u) -> stored st outs lc -> dom lc ⊆ dom lc' -> numbered (outs ++ [d]) ->
  stored st' (outs ++ [d]) lc'.
Proof.
  intros Hw [H1 H2 H3] Hdom [Hn Hi]%numbered_app. unfold write_consensus_state in Hw.
  assert (st' = mkConsensusStore (lc' ∪ css_last_committed st) (css_sub_dags st)
    (<[sd_index d := stored_commit d]> (css_sub_dags_v2 st)) (tail (css_outcomes st))) as ->.
  { destruct (css_outcomes st) as [|[[]|e] l]; by injection Hw. }
  split; simpl; [|done|].
  - rewrite H1. apply map_eq. intros k. rewrite lookup_union. destruct (lc' !! k) as [r|] eqn:E; [by destruct (lc !! k)|].
    apply not_elem_of_dom in E. destruct (lc !! k) eqn:E'; [|done]. apply elem_of_dom_2 in E'. set_solver.
  - rewrite H3. unfold commit_table. rewrite fmap_app. symmetry. apply list_to_map_snoc. intros Hk%(numbered_keys _ _ Hn). lia.
Qed.

(** ** The disk of a node *)

Section disk.
Context `{HH : HeaderHash} `{HR : Rng} (c : Committee) (Hc : committee_wf c) (G : gmap Z Header) (Hcd : certified_dag c G).
Context (sched : LeaderSchedule) (score : ScoreFn) (Hproper : score_proper score) (depth : Z) (Hdepth : 1 <= depth).
Abbreviation mid := (node_mid G score depth).
Abbreviation leaders_ok := (committed_leaders c G (elected sched)).

(** The store holds the sub-dags [outs] of leaders that a node may have committed. *)
Definition disk_ok (st : ConsensusStore) (outs : list CommittedSubDag) : Prop :=
  exists ls lc, replay G score depth ls (view <$> reverse outs) lc ∧ (forall h, h ∈ ls -> in_dag G h) ∧
    leaders_ok ls ∧ stored st outs lc.

Lemma replay_numbered ls outs lc :
  replay G score depth ls (view <$> reverse outs) lc -> (forall h, h ∈ ls -> in_dag G h) -> leaders_ok ls ->
  replay_inv G depth (view <$> outs) lc ∧ numbered outs ∧ (fun d => ce_header (sd_leader d)) <$> reverse outs = ls.
Proof.
  intros Hr Hin Hl. destruct (replay_ok c G Hcd score depth Hdepth _ _ _ Hr Hin (committed_sorted _ _ _ _ Hl)) as [Hri Hls].
  rewrite fmap_reverse, reverse_involutive in Hri. split_and!; [done| |by rewrite <- Hls, <- list_fmap_compose].
  intros i d Hd. destruct (ri_seq _ _ _ _ Hri i (view d)) as [_ _ _ _ _ _ Hi _ _]; [by rewrite list_lookup_fmap, Hd|].
  simpl in Hi. rewrite Hi, length_take, length_fmap. apply lookup_lt_Some in Hd. lia.
Qed.

Lemma mid_disk s outs ls st : mid s outs ls -> leaders_ok ls -> stored st outs (st_last_committed s) -> disk_ok st outs.
Proof. intros Hn Hl Hs. exists ls, (st_last_committed s). split_and!; [apply Hn|apply Hn|done|done]. Qed.

Lemma bump_dom lc l : dom lc ⊆ dom (foldl bump lc l).
Proof. revert lc. induction l as [|h l IH]; intros lc; simpl; [done|]. etrans; [|apply IH]. unfold bump. set_solver. Qed.

(** An engine that writes each sub-dag as it commits it. *)
Context {E : Type} (f : Certificate -> EM (E * ConsensusState) ConsensusError CommittedSubDag) (store : E -> ConsensusStore) (good : E -> Prop).
Context (Hf : forall leader e s e' s' r, good e -> f leader (e, s) = Some ((e', s'), r) -> good e' ∧
  match r with
  | Err _ => same_tables (store e) (store e')
  | Ok d => exists seq sc, order_dag leader s = Finished seq ∧
      score (st_last_sub_dag s) seq (next_sub_dag_index s) = Some sc ∧
      d = CommittedSubDag_new seq leader (next_sub_dag_index s) sc (st_last_sub_dag s) ∧
      s' = set_last_sub_dag (foldl ConsensusState_update s seq) d ∧
      write_consensus_state (st_last_committed s') d (store e) = (store e', Ok tt)
  end).

Lemma commits_disk leaders e s outs ls e' s' r :
  good e -> mid s outs ls -> stored (store e) outs (st_last_committed s) ->
  (forall x, x ∈ leaders -> dag_has (st_dag s) x ∧ cr_committed (st_last_round s) < Certificate_round x) ->
  StronglySorted (fun x y => Certificate_round x < Certificate_round y) leaders ->
  leaders_ok (reverse (ce_header <$> leaders) ++ ls) ->
  em_iter f leaders (e, s) = Some ((e', s'), r) ->
  exists ds, disk_ok (store e') (outs ++ ds) ∧
    match r with Ok ds' => ds' = ds ∧ good e' ∧ stored (store e') (outs ++ ds) (st_last_committed s') | Err _ => True end.
Proof.
  revert e s outs ls e' s' r. induction leaders as [|leader leaders IH]; intros e s outs ls e' s' r Hg Hn Hs Hin Hsort Hl Hi.
  { injection Hi as <- <- <-. exists []. rewrite app_nil_r. split; [|done]. by eapply mid_disk. }
  cbn [fmap list_fmap] in Hl. rewrite reverse_cons, <- (assoc_L (++)) in Hl. simpl in Hl.
  destruct (Hin leader ltac:(set_solver)) as [Hleader Hr]. inversion Hsort as [|? ? Hsort' Hlt]; subst. rewrite Forall_forall in Hlt.
  assert (leaders_ok (ce_header leader :: ls)) as Hl1 by (eapply committed_suffix; [exact Hl|by eexists]).
  assert (leaders_ok ls) as Hl0 by (eapply committed_suffix; [exact Hl1|by exists [ce_header leader]]).
  apply em_bind_inv in Hi as [([e1 s1] & d & Hd & Hi)|(err & Hd & ->)]; apply Hf in Hd as [Hg1 Hd]; [|done| |done].
  2: { exists []. rewrite app_nil_r. split; [|done]. eapply mid_disk; [done..|]. by eapply stored_same. }
  destruct Hd as (seq & sc & Ho & Hsc & Hd & -> & Hw).
  destruct (commit_leader_step c Hc G Hcd score Hproper depth Hdepth _ _ _ _ _ _ _ Hn Hleader Hr Ho Hsc Hd) as [Hn1 Hkeep].
  assert (stored (store e1) (outs ++ [d]) (st_last_committed (set_last_sub_dag (foldl ConsensusState_update s seq) d))) as Hs1.
  { eapply write_ok_stored; [exact Hw|exact Hs| |].
    - simpl. destruct (update_fields s seq) as (_ & _ & _ & ->). apply bump_dom.
    - by eapply replay_numbered; [apply Hn1|apply Hn1|]. }
  assert (forall x, x ∈ leaders -> dag_has (st_dag (set_last_sub_dag (foldl ConsensusState_update s seq) d)) x ∧
    cr_committed (st_last_round (set_last_sub_dag (foldl ConsensusState_update s seq) d)) < Certificate_round x) as Hin1.
  { intros x Hx. split; [apply Hkeep; [apply Hin; set_solver|by apply Hlt]|]. rewrite (nm_committed _ _ _ _ _ _ Hn1). by apply Hlt. }
  apply em_bind_inv in Hi as [([e2 s2] & ds & Hds & Hi)|(err & Hds & ->)];
    destruct (IH _ _ _ _ _ _ _ Hg1 Hn1 Hs1 Hin1 Hsort' Hl Hds) as (ds' & Hdisk & Hres).
  - destruct Hres as (-> & Hg2 & Hst). injection Hi as <- <- <-. exists (d :: ds'). rewrite <- (assoc_L (++)) in *. by split_and!.
  - exists (d :: ds'). rewrite <- (assoc_L (++)) in *. done.
Qed.

(** Processing a certificate. *)
Lemma processed_disk same x e s outs e' s' r :
  good e -> (forall e1, same e e1 -> good e1) ->
  node_ok c G sched score depth s outs -> stored (store e) outs (st_last_committed s) -> certified G x ->
  processed f store same c sched x e s e' s' r ->
  exists ds, disk_ok (store e') (outs ++ ds) ∧
    match r with Ok (_, ds') => ds' = ds ∧ stored (store e') (outs ++ ds) (st_last_committed s') | Err _ => True end.
Proof.
  intros Hg Hsame (ls & Hn & Hl) Hs Hx [(ins & Hi & _ & He & Hr)|(s1 & leaders & e1 & res & Hto & Hs1 & He & Hit & Hr)].
  - destruct (try_insert_ok c G Hcd score depth _ _ _ _ _ _ Hn Hx Hi) as (Hn1 & _). exists []. rewrite app_nil_r, He.
    assert (st_last_committed s' = st_last_committed s) as Hlc.
    { unfold try_insert in Hi. apply bind_Some in Hi as ([dag r'] & _ & [= <- _]). done. }
    split; [eapply mid_disk; [exact Hn1|done|by rewrite Hlc]|]. destruct r as [[o ds]|]; [|done]. destruct Hr as [-> _]. by rewrite Hlc.
  - destruct (to_commit_ok c Hc G Hcd sched score Hproper depth Hdepth _ _ _ _ _ _ Hn Hl Hx Hto) as (Hn1 & Hin & Hsort & Hl1).
    assert (st_last_committed s1 = st_last_committed s) as Hlc.
    { destruct Hto as [? ? ? ? Hi _ _ _ _ _ _ _]. unfold try_insert in Hi. apply bind_Some in Hi as ([dag r'] & _ & [= <- _]). done. }
    eapply commits_disk in Hit as (ds & Hdisk & Hres); [|by apply Hsame|exact Hn1|by rewrite He, Hlc|done|done|done].
    exists ds. split; [done|]. destruct r as [[o ds']|]; subst res; [|done]. destruct Hres as (-> & _ & ?). done.
Qed.
End disk.

Definition engine_store (p : ConsensusProtocol) : ConsensusStore :=
  match p with ProtocolBullshark b => bs_store b | ProtocolTusk t => tk_store t end.

Section loop.
Context `{HH : HeaderHash} `{HR : Rng} (c : Committee) (Hc : committee_wf c) (G : gmap Z Header) (Hcd : certified_dag c G).
Context (depth : Z) (Hdepth : 1 <= depth).

(** The disk of a node with the protocol [p]. *)
Definition node_disk (p : ConsensusProtocol) : ConsensusStore -> list CommittedSubDag -> Prop :=
  disk_ok c G (protocol_schedule p) (protocol_score p) depth.

Lemma process_certificate_disk p s outs x p' s' r :
  protocol_committee p = c -> fixed_schedule p ->
  node_ok c G (protocol_schedule p) (protocol_score p) depth s outs -> stored (engine_store p) outs (st_last_committed s) ->
  certified G x -> process_certificate x (p, s) = Some ((p', s'), r) ->
  exists ds, node_disk p (engine_store p') (outs ++ ds) ∧
    match r with Ok (_, ds') => ds' = ds ∧ stored (engine_store p') (outs ++ ds) (st_last_committed s') | Err _ => True end.
Proof.
  intros Hpc Hfix Hok Hs Hx Hp. pose proof (protocol_score_proper p) as Hproper. unfold process_certificate in Hp.
  destruct p as [b|t]; apply bind_Some in Hp as ([[e s1] r1] & Hp & [= <- <- <-]).
  - apply Bullshark_processed in Hp. simpl in Hpc. rewrite Hpc in Hp.
    refine (processed_disk c Hc G Hcd _ _ Hproper depth Hdepth Bullshark_commit_leader bs_store (bs_same b) _ bs_same x b s outs e s1 r1 _ _ Hok Hs Hx Hp);
      [|done|done].
    intros leader b1 s2 b2 s3 r (Hc1 & Hf1 & Hn1 & Hs1) Hb. apply Bullshark_commit_leader_inv in Hb as [Hsame Hb]; [|congruence].
    split; [by eapply bs_same_trans|]. destruct r as [d|err].
    + destruct Hb as (seq & sc & ? & Hsc & ? & ? & ?). exists seq, sc. split_and!; [done| |done..]. simpl. by rewrite <- Hc1, <- Hn1.
    + destruct Hb as (e' & lc & d & _ & Hw). by eapply write_err.
  - apply Tusk_processed in Hp. simpl in Hpc. rewrite Hpc in Hp.
    refine (processed_disk c Hc G Hcd _ _ Hproper depth Hdepth Tusk_commit_leader tk_store (tk_same t) _ tk_same x t s outs e s1 r1 _ _ Hok Hs Hx Hp);
      [|done|done].
    intros leader t1 s2 t2 s3 r [Hc1 Hs1] Hb. apply Tusk_commit_leader_inv in Hb as [[Hc2 Hs2] Hb].
    split; [split; congruence|]. destruct r as [d|err].
    + destruct Hb as (seq & sc & ? & Hsc & ? & ? & ?). exists seq, sc. split_and!; [done| |done..]. simpl. by rewrite <- Hc1.
    + destruct Hb as (e' & lc & d & _ & Hw). by eapply write_err.
Qed.

(** A running node and its disk. *)
Definition running (p : ConsensusProtocol) (n : Consensus) (outs : list CommittedSubDag) : Prop :=
  loop_ok c G depth p n outs ∧ stored (engine_store (cn_protocol n)) outs (st_last_committed (cn_state n)).

Lemma same_node_disk p p' : same_protocol p p' -> node_disk p' = node_disk p.
Proof. intros (_ & Hs & Hsc & _). unfold node_disk. by rewrite Hs, Hsc. Qed.

Lemma run_inner_step_disk p n outs x n' r :
  protocol_committee p = c -> fixed_schedule p -> running p n outs ->
  (Certificate_epoch x = cm_epoch c -> certified G x) -> run_inner_step x n = Some (n', r) ->
  exists ds k, k `prefix_of` ds ∧ ch_sequence (cn_channels n') = ch_sequence (cn_channels n) ++ k ∧
    node_disk p (engine_store (cn_protocol n')) (outs ++ ds) ∧
    match r with Ok _ => k = ds ∧ running p n' (outs ++ ds) | Err _ => True end.
Proof.
  intros Hpc Hfix [(Hcm & Hsame & Hok) Hst] Hx Hb. unfold run_inner_step in Hb. em_pure Hb.
  rewrite Hcm in Hb. destruct (Z.eqb_spec (Certificate_epoch x) (cm_epoch c)) as [He|]; simpl in Hb.
  2: { injection Hb as <- <-. exists [], []. rewrite !app_nil_r. split_and!; [done|done| |done|by split_and!].
       destruct Hok as (ls & Hn & Hl). by eapply mid_disk. }
  pose proof Hsame as (Hc1 & Hs1 & Hsc1 & Hf1).
  assert (forall q s1 r1, process_certificate x (cn_protocol n, cn_state n) = Some ((q, s1), r1) ->
    exists ds, node_disk p (engine_store q) (outs ++ ds) ∧
      match r1 with
      | Ok (_, ds') => ds' = ds ∧ stored (engine_store q) (outs ++ ds) (st_last_committed s1) ∧ same_protocol p q ∧
          node_ok c G (protocol_schedule p) (protocol_score p) depth s1 (outs ++ ds)
      | Err _ => True
      end) as Hproc.
  { intros q s1 r1 Hp. pose proof Hp as Hp2. rewrite <- (same_node_disk _ _ Hsame).
    eapply process_certificate_disk in Hp as (ds & Hdisk & Hr); [|congruence|auto|by rewrite Hs1, Hsc1|done|auto].
    exists ds. split; [done|]. destruct r1 as [[o ds']|]; [|done]. destruct Hr as [-> Hr].
    apply process_certificate_step in Hp2 as [Hsame1 Hstep]; [|auto]. split_and!; [done|done|by eapply same_protocol_trans|].
    rewrite Hc1, Hs1, Hsc1, Hpc in Hstep.
    by apply (node_step_ok c Hc G Hcd _ _ (protocol_score_proper p) depth Hdepth _ _ _ _ _ Hok (Hx He) Hstep). }
  apply em_bind_inv in Hb as [(n1 & [o ds] & Hp & Hb)|(e & Hp & ->)]; unfold on_protocol in Hp;
    apply bind_Some in Hp as ([[q s1] r1] & Hp & Hp2); injection Hp2 as <- ->; apply Hproc in Hp as (ds' & Hdisk & Hr).
  2: { exists ds', []. rewrite app_nil_r. split_and!; [apply prefix_nil|done|done|done]. }
  destruct Hr as (-> & Hst1 & Hsame1 & Hok1). exists ds'.
  apply em_bind_inv in Hb as [(n2 & us & Hsend & Hb)|(e & Hsend & ->)];
    apply send_all in Hsend as (Hc2 & Hp2 & Hst2 & k & Hk & Hsq & Hkr); simpl in *.
  2: { exists k. by rewrite Hp2. }
  subst k. exists ds'. assert (running p n2 (outs ++ ds')) as Hrun.
  { split; [split_and!; congruence|by rewrite Hp2, Hst2]. }
  assert (forall ch, ch_sequence ch = ch_sequence (cn_channels n2) -> let n3 := mkConsensus (cn_committee n2) (cn_protocol n2) (cn_state n2) ch in
    ds' `prefix_of` ds' ∧ ch_sequence (cn_channels n3) = ch_sequence (cn_channels n) ++ ds' ∧
    node_disk p (engine_store (cn_protocol n3)) (outs ++ ds') ∧ ds' = ds' ∧ running p n3 (outs ++ ds')) as Hdone.
  { intros ch Hch. simpl. split_and!; [done|by rewrite Hch|by rewrite Hp2|done|exact Hrun]. }
  destruct (Certificate_round <$> _) as [|rd rds].
  { injection Hb as <- <-. destruct n2. exact (Hdone _ eq_refl). }
  apply em_bind_inv in Hb as [(n3 & u & Hsend & Hb)|(e & Hsend & ->)];
    unfold on_channels, send_committed in Hsend; destruct (ch_committed_open (cn_channels n2)); try done; injection Hsend as <- <-.
  2: { destruct n2. destruct (Hdone _ eq_refl) as (? & ? & ? & _). by split_and!. }
  em_pure Hb. destruct (_ =? _) in Hb; [|done]. unfold on_channels, send_round in Hb. simpl in Hb.
  destruct (ch_rounds_open (cn_channels n2)); injection Hb as <- <-; [exact (Hdone (mkChannels _ _ _ _ _ _) eq_refl)|].
  destruct (Hdone (mkChannels (ch_sequence (cn_channels n2)) [] [] true true true) eq_refl) as (? & ? & ? & _). by split_and!.
Qed.

Lemma run_inner_disk p xs n outs n' r :
  protocol_committee p = c -> fixed_schedule p -> running p n outs ->
  (forall x, x ∈ xs -> Certificate_epoch x = cm_epoch c -> certified G x) -> em_iter run_inner_step xs n = Some (n', r) ->
  exists ds k, k `prefix_of` ds ∧ ch_sequence (cn_channels n') = ch_sequence (cn_channels n) ++ k ∧
    node_disk p (engine_store (cn_protocol n')) (outs ++ ds).
Proof.
  intros Hpc Hfix. revert n outs n' r. induction xs as [|x xs IH]; intros n outs n' r Hrun Hxs Hi.
  { injection Hi as <- <-. exists [], []. rewrite !app_nil_r. split_and!; [done|done|].
    destruct Hrun as [(_ & _ & ls & Hn & Hl) Hst]. by eapply mid_disk. }
  apply em_bind_inv in Hi as [(n1 & u & Hx & Hi)|(e & Hx & ->)];
    (apply (run_inner_step_disk p n outs) in Hx as (ds & k & Hk & Hsq & Hdisk & Hr); [|done|done|done|by apply Hxs; set_solver]); [|by exists ds, k].
  destruct Hr as [-> Hrun1]. apply em_bind_inv in Hi as [(n2 & us & Hxs' & Hi)|(e & Hxs' & ->)];
    (apply (IH n1 (outs ++ ds)) in Hxs' as (ds1 & k1 & Hk1 & Hsq1 & Hdisk1); [|done|set_solver]);
    try injection Hi as <- <-; exists (ds ++ ds1), (ds ++ k1); rewrite !(assoc_L (++)), <- Hsq; (split_and!; [by apply prefix_app|done|done]).
Qed.
End loop.

(** ** Rows of the consensus store *)

Lemma commit_rows `{HeaderHash} outs :
  numbered outs -> btree_iter (commit_table outs) = (fun d => (sd_index d, stored_commit d)) <$> outs.
Proof.
  intros Hn. unfold commit_table. apply btree_iter_list_to_map.
  - induction outs as [|d outs IH] using rev_ind; [constructor|]. destruct (numbered_app _ _ Hn) as [Hn' Hd].
    rewrite fmap_app. apply StronglySorted_app_2; [|by apply IH|repeat constructor].
    intros x y Hx ->%list_elem_of_singleton. apply (list_elem_of_fmap_2 fst) in Hx. apply (numbered_keys _ _ Hn') in Hx.
    unfold key_le. simpl. lia.
  - induction outs as [|d outs IH] using rev_ind; [constructor|]. destruct (numbered_app _ _ Hn) as [Hn' Hd].
    rewrite !fmap_app. apply NoDup_app. split_and!; [by apply IH| |apply NoDup_singleton].
    intros k Hk ->%list_elem_of_singleton. apply (numbered_keys _ _ Hn') in Hk. simpl in Hk. lia.
Qed.

Lemma latest_sub_dag_stored `{HeaderHash} st outs lc :
  stored st outs lc -> numbered outs -> get_latest_sub_dag st = stored_commit <$> last outs.
Proof.
  intros [_ H2 H3] Hn. unfold get_latest_sub_dag. rewrite H2, H3, (commit_rows _ Hn), fmap_last.
  by destruct (last outs).
Qed.

Lemma drop_numbered outs k : numbered outs -> 0 <= k ->
  filter (fun d => k <= sd_index d) outs = drop (Z.to_nat (k - 1)) outs.
Proof.
  intros Hn Hk. assert (forall i l, (forall j d, l !! j = Some d -> sd_index d = Z.of_nat (i + j) + 1) ->
    filter (fun d => k <= sd_index d) l = drop (Z.to_nat (k - 1) - i) l) as Hgen.
  { intros i l. revert i. induction l as [|d l IH]; intros i Hl; [by rewrite drop_nil|].
    pose proof (Hl 0%nat d eq_refl) as Hd. rewrite filter_cons.
    rewrite (IH (S i)) by (intros j e He; rewrite (Hl (S j) e He); lia).
    destruct (decide (k <= sd_index d)).
    - replace (Z.to_nat (k - 1) - i)%nat with 0%nat by lia. by replace (Z.to_nat (k - 1) - S i)%nat with 0%nat by lia.
    - replace (Z.to_nat (k - 1) - i)%nat with (S (Z.to_nat (k - 1) - S i)) by lia. done. }
  specialize (Hgen 0%nat outs). rewrite Nat.sub_0_r in Hgen. by apply Hgen.
Qed.

Lemma committed_from_stored `{HeaderHash} st outs lc k :
  stored st outs lc -> numbered outs -> 0 <= k ->
  read_committed_sub_dags_from k st = stored_commit <$> drop (Z.to_nat (k - 1)) outs.
Proof.
  intros [_ H2 H3] Hn Hk. unfold read_committed_sub_dags_from. rewrite H2, H3, (commit_rows _ Hn), <- (drop_numbered _ _ Hn Hk).
  change (btree_iter (∅ : gmap Z CommittedSubDagShell)) with (@nil (Z * CommittedSubDagShell)). simpl. clear. induction outs as [|d outs IH]; [done|].
  cbn [fmap list_fmap]. rewrite !filter_cons. simpl. destruct (decide (k <= sd_index d)); [|done]. cbn [fmap list_fmap]. by f_equal.
Qed.

(** ** Reading certificates *)

Section reads.
Context `{HH : HeaderHash} {T : Type} `{HT : StoreCache T} `{!CacheLaws T}.
Implicit Types C : CertificateStore T.

Lemma read_expect_found C d x : cache_ok C -> cs_by_id C !! d = Some x ->
  exists t, read_expect d C = Some (set_cache C t, x) ∧ cache_ok (set_cache C t).
Proof.
  intros HC Hx. unfold read_expect. destruct (cs_read_spec C d HC) as (Hr & Hok & t & Ht).
  destruct (cs_read d C) as [C' o]. simpl in *. subst. rewrite Hx. simpl. eauto.
Qed.

Lemma read_each_found C ds xs : cache_ok C -> Forall2 (fun d x => cs_by_id C !! d = Some x) ds xs ->
  exists t, read_each ds C = Some (set_cache C t, xs) ∧ cache_ok (set_cache C t).
Proof.
  intros HC Hds. revert C HC Hds. revert xs. induction ds as [|d ds IH]; intros xs C HC Hds.
  - apply Forall2_nil_inv_l in Hds as ->. exists (cs_cache C). by destruct C.
  - apply Forall2_cons_inv_l in Hds as (x & xs' & Hx & Hds & ->). simpl.
    destruct (read_expect_found C d x HC Hx) as (t & -> & Ht). simpl.
    destruct (IH xs' (set_cache C t) Ht Hds) as (t' & -> & Ht'). simpl. by exists t'.
Qed.

Lemma read_all_found C ds xs : cache_ok C -> Forall2 (fun d x => cs_by_id C !! d = Some x) ds xs ->
  exists t, cs_read_all ds C = (set_cache C t, Some <$> xs) ∧ cache_ok (set_cache C t).
Proof.
  intros HC Hds. destruct (cs_read_all_spec C ds HC) as (Hr & Hok & t & Ht).
  destruct (cs_read_all ds C) as [C' l]. simpl in *. subst. exists t. split; [|done]. f_equal.
  clear -Hds. induction Hds as [|d x ds xs Hx Hds IH]; [done|]. cbn [fmap list_fmap]. by rewrite Hx, IH.
Qed.
End reads.

(** ** The state that a node starts with *)

Section start.
Context `{HH : HeaderHash} `{HR : Rng} {T : Type} `{HT : StoreCache T} `{!CacheLaws T}.
Context (c : Committee) (Hc : committee_wf c) (G : gmap Z Header) (Hcd : certified_dag c G) (depth : Z) (Hdepth : 1 <= depth).

(** The round of the last committed leader. *)
Definition last_leader_round (outs : list CommittedSubDag) : Z :=
  match last outs with Some d => Certificate_round (sd_leader d) | None => 0 end.

(** What the certificate store of a node holds: certificates of the epoch, above the
    collected rounds with their parents, and all that are committed. *)
Record archive (C : CertificateStore T) (outs : list CommittedSubDag) : Prop := {
  ar_cache : cache_ok C;
  ar_index : index_ok C;
  ar_certified d x : cs_by_id C !! d = Some x -> certified G x;
  ar_parents d x p : cs_by_id C !! d = Some x -> gc_round (last_leader_round outs) depth + 1 < Certificate_round x ->
    p ∈ Certificate_parents x -> is_Some (cs_by_id C !! p);
  ar_committed d x : d ∈ outs -> x ∈ sd_certificates d -> is_Some (cs_by_id C !! Certificate_digest x)
}.

Lemma dag_insert_elem gc dag x (seen : list Certificate) :
  dag_ok G gc dag -> certified G x -> (forall y, dag_has dag y <-> y ∈ seen) ->
  (forall y, y ∈ seen -> ce_header y = ce_header x -> y = x) ->
  forall y, dag_has (dag_insert dag x) y <-> y ∈ seen ++ [x].
Proof.
  intros Hok Hx Hseen Huniq.
  assert (forall y, dag_has (dag_insert dag x) y -> y ∈ seen ++ [x]) as Hfwd.
  { intros y (m & Hm & Hy). destruct (dag_insert_lookup _ _ _ _ _ _ Hm Hy) as [(_ & _ & [= _ ->])|(m' & Hm' & Hy')]; [set_solver|].
    apply elem_of_app. left. apply Hseen. by exists m'. }
  intros y. split; [apply Hfwd|]. intros [Hy|Hy]%elem_of_app.
  2: { apply list_elem_of_singleton in Hy as ->. apply dag_insert_has. }
  pose proof Hy as Hd. apply Hseen in Hd.
  destruct (dag_insert_keeps_has c G Hcd gc dag x y Hok Hx Hd) as (z & Hz & He). pose proof Hz as Hz'.
  apply Hfwd, elem_of_app in Hz' as [Hz'|Hz'].
  - apply Hseen in Hz'. by rewrite <- (dag_has_unique dag z y).
  - apply list_elem_of_singleton in Hz' as ->. by rewrite (Huniq y).
Qed.

(** Certificates by round, with their parents, make a dag. *)
Lemma insert_certificates_ok lc gc l (seen : list Certificate) dag :
  0 <= gc -> dag_ok G gc dag -> (forall y, dag_has dag y <-> y ∈ seen) ->
  (forall x, x ∈ seen ++ l -> certified G x ∧ gc < Certificate_round x) ->
  (forall x y, x ∈ seen ++ l -> y ∈ seen ++ l -> ce_header x = ce_header y -> x = y) ->
  (forall x p, x ∈ l -> gc + 1 < Certificate_round x -> p ∈ Certificate_parents x ->
    exists y, y ∈ seen ++ l ∧ Certificate_digest y = p) ->
  StronglySorted (fun x y => Certificate_round x <= Certificate_round y) l ->
  exists dag', insert_certificates lc gc l dag = Some (Ok dag') ∧ dag_ok G gc dag' ∧
    forall y, dag_has dag' y <-> y ∈ seen ++ l.
Proof.
  revert seen dag. induction l as [|x l IH]; intros seen dag Hgc Hok Hseen Hall Huniq Hpar Hsort; simpl.
  { exists dag. by rewrite app_nil_r. }
  inversion Hsort as [|? ? Hsort' Hle]; subst. rewrite Forall_forall in Hle. destruct (Hall x) as [Hx Hgx]; [set_solver|].
  assert (check_parents x dag gc = Some tt) as Hcp.
  { apply (check_parents_total c Hc G Hcd gc dag seen); [done|lia|done| |].
    - intros y Hy _. exists y. split; [by apply Hseen|done].
    - intros p Hr Hp. destruct (Hpar x p ltac:(set_solver) Hr Hp) as (y & Hy & Hd).
      destruct (Hall y Hy) as [Hcy _]. exists y. split_and!; [|done|done].
      assert (Certificate_round y = Certificate_round x - 1) as Hry.
      { eapply (cd_parent_round _ _ Hcd); [exact Hx|exact Hp|]. by rewrite <- Hd. }
      apply elem_of_app in Hy as [Hy|Hy]; [done|]. apply elem_of_cons in Hy as [->|Hy]; [lia|]. specialize (Hle y Hy). lia. }
  assert (is_Some (try_insert_in_dag dag lc gc x)) as [[dag1 r] Hi].
  { unfold try_insert_in_dag. rewrite Hcp. simpl. repeat case_match; eauto. }
  rewrite Hi. simpl. destruct (try_insert_in_dag_ok c G Hcd _ _ _ _ _ _ Hok Hgc Hx Hi) as [(_ & _ & ?)|(-> & Hok1 & _ & ->)]; [lia|].
  rewrite cons_middle, (assoc_L (++)) in *. apply IH; try done.
  - apply (dag_insert_elem gc); [done|done|done|]. intros y Hy He. apply Huniq; [set_solver|set_solver|done].
  - intros y p Hy. apply Hpar. set_solver.
Qed.

Lemma construct_dag_ok C outs lc :
  archive C outs -> last_leader_round outs < u64_modulus -> 0 <= last_leader_round outs ->
  let gc := gc_round (last_leader_round outs) depth in
  exists dag, construct_dag_from_cert_store C lc gc = Some (Ok dag) ∧ dag_ok G gc dag ∧
    forall x, dag_has dag x <-> cs_by_id C !! Certificate_digest x = Some x ∧ gc < Certificate_round x.
Proof.
  intros [Hca Hix Hce Hpa _] Hlt Hge gc.
  assert (0 <= gc < u64_modulus - 1) as Hgc by (unfold gc, gc_round, u64_saturating_sub, u64_modulus in *; lia).
  unfold construct_dag_from_cert_store. rewrite u64_add_small by lia.
  destruct (after_round_spec C (gc + 1) Hix) as (l & -> & Hl & Hsort).
  destruct (insert_certificates_ok lc gc l [] ∅) as (dag & Hd & Hok & Hhas); [lia|..|done|].
  - split; intros *; by rewrite lookup_empty.
  - intros y. split; [intros (m & Hm & _); by rewrite lookup_empty in Hm|by intros ?%not_elem_of_nil].
  - intros x Hx. apply Hl in Hx as [Hx Hr]. split; [by eapply Hce|lia].
  - intros x y Hx Hy He. apply Hl in Hx as [Hx _], Hy as [Hy _]. unfold Certificate_digest in *. rewrite He in Hx. congruence.
  - intros x p [Hx Hr]%Hl Hr1 Hp. destruct (Hpa _ _ _ Hx Hr1 Hp) as [y Hy]. exists y.
    destruct (ix_complete _ Hix _ _ Hy) as [Hd _]. split; [|done]. apply Hl. rewrite Hd. split; [done|].
    assert (Certificate_round y = Certificate_round x - 1); [|lia].
    eapply (cd_parent_round _ _ Hcd); [apply (Hce _ _ Hx)|exact Hp|]. rewrite <- Hd. by apply (Hce _ _ Hy).
  - exists dag. split_and!; [done|done|]. intros x. rewrite Hhas, app_nil_l, Hl. split; intros [? ?]; (split; [done|lia]).
Qed.
End start.

(** The last committed rounds give back the round of the last leader. *)
Lemma recovered_round_spec `{HH : HeaderHash} G depth (outs : list CommittedSubDag) lc :
  replay_inv G depth (view <$> outs) lc -> recovered_round lc = last_leader_round outs.
Proof.
  intros Hri. unfold last_leader_round. destruct outs as [|d outs _] using rev_ind.
  { replace lc with (∅ : gmap Z Z); [done|]. symmetry. apply map_empty. intros a. apply eq_None_not_Some. intros [r Hr].
    destruct (ri_exact _ _ _ _ Hri _ _ Hr) as (h & Hh & _). by apply not_elem_of_nil in Hh. }
  rewrite last_snoc. set (h := ce_header (sd_leader d)).
  assert (h ∈ committed_headers (view <$> outs ++ [d])) as Hh.
  { destruct (ri_seq _ _ _ _ Hri (length outs) (view d)) as [_ _ _ Hlast _ _ _ _ _].
    { by rewrite fmap_app, lookup_app_r, length_fmap, Nat.sub_diag by by rewrite length_fmap. }
    apply last_Some_elem_of in Hlast. apply list_elem_of_bind. exists (view d). split; [exact Hlast|]. rewrite fmap_app. set_solver. }
  destruct (ri_superseded _ _ _ _ Hri h Hh) as (r & Hr & Hle).
  assert (forall q, q ∈ (map_to_list lc).*2 -> q <= he_round h) as Hall.
  { intros q ([a q'] & -> & Hq%elem_of_map_to_list)%list_elem_of_fmap. simpl.
    destruct (ri_exact _ _ _ _ Hri _ _ Hq) as (x & Hx & _ & <-). destruct (ri_round _ _ _ _ Hri x Hx) as (v & Hv & Hxv).
    rewrite fmap_app in Hv. change (view <$> [d]) with [view d] in Hv. rewrite last_snoc in Hv. by injection Hv as <-. }
  assert (r ∈ (map_to_list lc).*2) as Hin.
  { apply list_elem_of_fmap. exists (he_author h, r). split; [done|]. by apply elem_of_map_to_list. }
  unfold recovered_round. destruct (map_to_list lc).*2 as [|q qs]; [by apply not_elem_of_nil in Hin|].
  pose proof (foldl_max_le qs q r Hin) as H1. pose proof (Hall _ (foldl_max_elem_of qs q)) as H2.
  unfold Certificate_round. fold h. lia.
Qed.

Lemma stored_commit_view `{HeaderHash} d d' : view d = view d' -> sd_index d = sd_index d' ∧ stored_commit d = stored_commit d'.
Proof.
  unfold view. intros [= Hh Hl Hi Hs Ht]. split; [done|]. unfold stored_commit, ConsensusCommitV2_from_sub_dag.
  rewrite Hi, Hs, Ht. unfold Certificate_digest at 2 4, Certificate_round. rewrite Hl. do 2 f_equal.
  assert (forall l : list Certificate, Certificate_digest <$> l = header_digest <$> (ce_header <$> l)) as Hd.
  { intros l. by rewrite <- list_fmap_compose. }
  by rewrite !Hd, Hh.
Qed.

Lemma commits_view `{HeaderHash} (outs outs' : list CommittedSubDag) : view <$> outs = view <$> outs' -> stored_commit <$> outs = stored_commit <$> outs'.
Proof.
  revert outs'. induction outs as [|d outs IH]; intros [|d' outs'] Hv; try done. cbn [fmap list_fmap] in *. injection Hv as Hd Hv.
  destruct (stored_commit_view d d') as [_ ->]; [unfold view; congruence|]. f_equal. apply IH. done.
Qed.

Lemma stored_view `{HeaderHash} st outs outs' lc : stored st outs lc -> view <$> outs = view <$> outs' -> stored st outs' lc.
Proof.
  intros [H1 H2 H3] Hv. split; [done|done|]. rewrite H3. unfold commit_table. f_equal. clear -Hv.
  revert outs' Hv. induction outs as [|d outs IH]; intros [|d' outs'] Hv; try done. cbn [fmap list_fmap] in *. injection Hv as Hd Hv.
  destruct (stored_commit_view d d') as [-> ->]; [unfold view; congruence|]. f_equal. apply IH. done.
Qed.

Lemma last_leader_view (outs outs' : list CommittedSubDag) : view <$> outs = view <$> outs' -> last_leader_round outs = last_leader_round outs'.
Proof.
  intros Hv. assert (view <$> last outs = view <$> last outs') as Hl by by rewrite <- !fmap_last, Hv.
  unfold last_leader_round. destruct (last outs) as [d|], (last outs') as [d'|]; try done.
  unfold view in Hl. unfold Certificate_round. simpl in Hl. congruence.
Qed.

Section spawn.
Context `{HH : HeaderHash} `{HR : Rng} {T : Type} `{HT : StoreCache T} `{!CacheLaws T}.
Context (c : Committee) (Hc : committee_wf c) (G : gmap Z Header) (Hcd : certified_dag c G) (depth : Z) (Hdepth : 1 <= depth).
Implicit Types C : CertificateStore T.

Lemma archive_set_cache C t outs : archive G depth C outs -> cache_ok (set_cache C t) -> archive G depth (set_cache C t) outs.
Proof. intros [? [? ?] ? ? ?] Ht. split; [done|by split|done..]. Qed.

(** A committed sub-dag is read back. *)
Lemma archive_sub_dag C outs lc d :
  archive G depth C outs -> replay_inv G depth (view <$> outs) lc -> d ∈ outs ->
  exists xs leader, Forall2 (fun k x => cs_by_id C !! k = Some x) (commit_certificates (stored_commit d)) xs ∧
    cs_by_id C !! commit_leader (stored_commit d) = Some leader ∧
    view (CommittedSubDag_from_commit (stored_commit d) xs leader) = view d.
Proof.
  intros Har Hri Hd. pose proof (list_elem_of_fmap_2 view _ _ Hd) as Hv.
  pose proof (ri_leaders _ _ _ _ Hri _ Hv) as Hleader. apply list_elem_of_lookup_1 in Hv as [i Hi].
  destruct (ri_seq _ _ _ _ Hri _ _ Hi) as [_ _ _ Hlast Hanc _ _ _ _]. simpl in *.
  assert (forall y, y ∈ sd_certificates d -> exists x, cs_by_id C !! Certificate_digest y = Some x ∧ ce_header x = ce_header y) as Hread.
  { intros y Hy. destruct (ar_committed _ _ _ _ Har d y Hd Hy) as [x Hx]. exists x. split; [done|].
    destruct (ix_complete _ (ar_index _ _ _ _ Har) _ _ Hx) as [Hdg _].
    eapply in_dag_digest; [by eapply ar_certified| |exact Hdg].
    eapply (path_in_dag _ _ Hcd); [|exact Hleader]. apply Hanc. by apply list_elem_of_fmap_2. }
  assert (exists xs, Forall2 (fun k x => cs_by_id C !! k = Some x) (Certificate_digest <$> sd_certificates d) xs ∧
    ce_header <$> xs = ce_header <$> sd_certificates d) as (xs & Hxs & Hhd).
  { clear -Hread. induction (sd_certificates d) as [|y l IH]; [by exists []|].
    destruct (Hread y) as (x & Hx & He); [set_solver|]. destruct IH as (xs & Hxs & Hhd); [set_solver|].
    exists (x :: xs). cbn [fmap list_fmap]. split; [by constructor|]. f_equal; [done|exact Hhd]. }
  apply last_Some_elem_of, list_elem_of_fmap in Hlast as (y & Hy & Hyin). destruct (Hread y Hyin) as (leader & Hl & Hlh).
  exists xs, leader. split_and!; [done| |].
  - simpl. unfold Certificate_digest in *. by rewrite Hy.
  - unfold view, CommittedSubDag_from_commit. simpl. rewrite Hhd, Hlh, <- Hy. done.
Qed.

Lemma omap_Some {A} (l : list A) : omap id (Some <$> l) = l.
Proof. induction l as [|x l IH]; [done|]. cbn. f_equal. exact IH. Qed.

Lemma restore_ok C outs lc ds :
  archive G depth C outs -> replay_inv G depth (view <$> outs) lc -> (forall d, d ∈ ds -> d ∈ outs) ->
  exists t ds', restore_sub_dags (stored_commit <$> ds) C = Some (set_cache C t, ds') ∧ cache_ok (set_cache C t) ∧
    view <$> ds' = view <$> ds.
Proof.
  intros Har Hri. revert C Har. induction ds as [|d ds IH]; intros C Har Hds.
  { exists (cs_cache C), []. destruct C. by split_and!; [..|apply Har|]. }
  destruct (archive_sub_dag C outs lc d Har Hri) as (xs & leader & Hxs & Hl & Hv); [set_solver|].
  rewrite fmap_cons. cbn [restore_sub_dags]. destruct (read_all_found C _ xs (ar_cache _ _ _ _ Har) Hxs) as (t1 & -> & Ht1).
  destruct (read_expect_found (set_cache C t1) _ leader Ht1 Hl) as (t2 & -> & Ht2). simpl.
  destruct (IH (set_cache C t2)) as (t3 & ds' & Hr & Ht3 & Hds'); [by apply archive_set_cache|set_solver|].
  change (set_cache (set_cache C t1) t2) with (set_cache C t2). rewrite Hr. simpl. rewrite omap_Some.
  eexists t3, _. split_and!; [done|done|]. cbn [fmap list_fmap]. f_equal; [exact Hv|exact Hds'].
Qed.

(** A node starts from its disk with what it had committed. *)
Lemma consensus_spawn_ok p C ch outs :
  protocol_committee p = c -> node_disk c G depth p (engine_store p) outs -> archive G depth C outs -> ch_rounds_open ch = true ->
  exists t n outs', Consensus_spawn c depth (engine_store p) C ch p = Some (set_cache C t, n) ∧
    view <$> outs' = view <$> outs ∧ running c G depth p n outs' ∧ cn_protocol n = p ∧
    ch_sequence (cn_channels n) = ch_sequence ch ∧
    forall x, dag_has (st_dag (cn_state n)) x <->
      cs_by_id C !! Certificate_digest x = Some x ∧ gc_round (last_leader_round outs) depth < Certificate_round x.
Proof.
  intros Hpc (ls & lc & Hrep & Hin & Hl & Hst) Har Hopen.
  destruct (replay_numbered c G Hcd (protocol_schedule p) (protocol_score p) depth Hdepth _ _ _ Hrep Hin Hl) as (Hri & Hnum & Hls).
  assert (last_leader_round outs = match ls with [] => 0 | h :: _ => he_round h end) as Hllr.
  { rewrite <- Hls. unfold last_leader_round. by destruct outs as [|d outs _] using rev_ind; [|rewrite last_snoc, reverse_snoc]. }
  assert (0 <= last_leader_round outs < u64_modulus) as [Hge Hlt].
  { rewrite Hllr. destruct ls as [|h ls]; [done|]. pose proof (in_dag_round _ _ Hcd h (Hin h ltac:(set_solver))). lia. }
  unfold Consensus_spawn, read_last_committed. rewrite (sr_rounds _ _ _ Hst), (recovered_round_spec _ _ _ _ Hri).
  rewrite (latest_sub_dag_stored _ _ _ Hst Hnum).
  assert (match stored_commit <$> last outs with
    | Some d => negb (commit_leader_round d =? last_leader_round outs) | None => false end = false) as ->.
  { unfold last_leader_round. destruct (last outs); [|done]. simpl. by rewrite Z.eqb_refl. }
  destruct (construct_dag_ok c Hc G Hcd depth Hdepth C outs lc Har Hlt Hge) as (dag & Hcon & Hok & Hhas).
  unfold new_from_store. cbn [new_with_gc_depth cr_gc]. rewrite Hcon. simpl.
  assert (exists t outs', match stored_commit <$> last outs with
      | None => Some (C, None)
      | Some commit =>
          '(cert_store, certificates) ← read_each (commit_certificates commit) C;
          '(cert_store, leader) ← read_expect (commit_leader commit) cert_store;
          Some (cert_store, Some (CommittedSubDag_from_commit commit certificates leader))
      end = Some (set_cache C t, last outs') ∧ view <$> outs' = view <$> outs) as (t & outs' & -> & Hv).
  { destruct outs as [|d outs _] using rev_ind; [exists (cs_cache C), []; by destruct C|].
    rewrite last_snoc. cbn [fmap option_fmap option_map].
    destruct (archive_sub_dag C _ lc d Har Hri) as (xs & leader & Hxs & Hld & Hv); [set_solver|].
    destruct (read_each_found C _ xs (ar_cache _ _ _ _ Har) Hxs) as (t1 & -> & Ht1). cbn [mbind option_bind].
    destruct (read_expect_found (set_cache C t1) _ leader Ht1 Hld) as (t2 & -> & Ht2). simpl.
    exists t2, (outs ++ [CommittedSubDag_from_commit (stored_commit d) xs leader]). rewrite last_snoc. split; [done|].
    rewrite !fmap_app. cbn. f_equal. f_equal. exact Hv. }
  cbn. unfold send_round. rewrite Hopen. do 3 eexists. split; [done|]. split; [exact Hv|]. cbn.
  split; [split; [split_and!|]|split_and!; [done|done|exact Hhas]]; [done|done| |by eapply stored_view].
  exists ls. split; [|done]. split; cbn; try done.
  - rewrite fmap_reverse, Hv, <- fmap_reverse. exact Hrep.
  - intros a r Ha. rewrite Hllr. destruct (ri_exact _ _ _ _ Hri _ _ Ha) as (h & Hh & _ & <-).
    destruct (ri_round _ _ _ _ Hri h Hh) as (v & Hvl & Hle). rewrite fmap_last in Hvl.
    rewrite <- Hllr. unfold last_leader_round. destruct (last outs) as [d|]; [|done]. by injection Hvl as <-.
Qed.
End spawn.
