(* ===== verification/Restart.v ===== *)
(** * Nodes that stop and start again

    [lifetime] is the life of the disk of a node: it starts empty, and each time the node
    starts, consensus is restored from the consensus store and the certificate store
    ([spawn_consensus]) and processes certificates until the node stops.  It may stop
    anywhere: the outcomes of the writes are arbitrary, and a node that is killed before a
    write leaves the same disk as one whose write fails.

    The committed sub-dags on the disks of two nodes extend each other
    ([restart_agreement]); a start succeeds and gives back what was committed
    ([restart_restores]); the executor is handed the sub-dags from the last executed one
    on ([restart_hands_on]). *)

From S2P Require Import Prelude Committee DagTypes ConsensusCore Bullshark DagProps ConsensusSample Agreement ConsensusProps ConsensusSafe CertificateStore Recovery RecoveryProps.
Local Open Scope Z_scope.
Local Open Scope chase_scope.

Section lifetime.
Context `{HH : HeaderHash} `{HR : Rng} {T : Type} `{HT : StoreCache T} `{!CacheLaws T}.
Context (c : Committee) (G : gmap Z Header) (depth : Z) (use_tusk : bool).
Implicit Types (C : CertificateStore T) (st : ConsensusStore).
Abbreviation engine := (ordering_engine c use_tusk false).

(** The certificate store of a node with the consensus store [st]: certificates of the
    epoch, above the collected rounds with their parents, and all that are committed. *)
Record archived C st : Prop := {
  av_cache : cache_ok C;
  av_index : index_ok C;
  av_certified d x : cs_by_id C !! d = Some x -> certified G x;
  av_parents d x p : cs_by_id C !! d = Some x -> gc_round (recovered_round (read_last_committed st)) depth + 1 < Certificate_round x ->
    p ∈ Certificate_parents x -> is_Some (cs_by_id C !! p);
  av_committed commit k : commit ∈ read_committed_sub_dags_from 0 st -> k ∈ commit_certificates commit -> is_Some (cs_by_id C !! k)
}.

(** The certificates that consensus is given are certified. *)
Definition epoch_certificates (xs : list Certificate) : Prop :=
  forall x, x ∈ xs -> Certificate_epoch x = cm_epoch c -> certified G x.

(** The leader schedule is fixed. *)
Inductive lifetime : ConsensusStore -> Prop :=
  | life_new outcomes : lifetime (mkConsensusStore ∅ ∅ ∅ outcomes)
  | life_run st st1 C ch last_executed C1 restored n xs n' r :
      lifetime st -> same_tables st st1 -> archived C st1 -> 0 <= last_executed ->
      spawn_consensus c depth last_executed use_tusk false st1 C ch = Some (C1, restored, n) ->
      epoch_certificates xs -> run_inner xs n = Some (n', r) ->
      lifetime (engine_store (cn_protocol n')).

Context (Hc : committee_wf c) (Hcd : certified_dag c G) (Hdepth : 1 <= depth).

Definition life_disk st (outs : list CommittedSubDag) : Prop := node_disk c G depth (engine st) st outs.

Lemma engine_config st : protocol_committee (engine st) = c ∧ fixed_schedule (engine st) ∧ engine_store (engine st) = st.
Proof. unfold ordering_engine. by destruct use_tusk. Qed.

Lemma engine_same st st' : same_protocol (engine st) (engine st').
Proof. unfold ordering_engine. by destruct use_tusk. Qed.

Lemma life_disk_same st st1 outs : same_tables st st1 -> life_disk st outs -> life_disk st1 outs.
Proof.
  intros Hst. unfold life_disk. rewrite (same_node_disk c G depth _ _ (engine_same st st1)).
  intros (ls & lc & ? & ? & ? & Hs). exists ls, lc. split_and!; [done..|]. by eapply stored_same.
Qed.

(** The disk in terms of the sub-dags. *)
Lemma life_disk_inv st outs : life_disk st outs -> exists lc, replay_inv G depth (view <$> outs) lc ∧ numbered outs ∧ stored st outs lc.
Proof.
  intros (ls & lc & Hr & Hin & Hl & Hs). exists lc.
  by destruct (replay_numbered c G Hcd _ _ depth Hdepth _ _ _ Hr Hin Hl) as (? & ? & _).
Qed.

Lemma archived_archive C st outs : life_disk st outs -> archived C st -> archive G depth C outs.
Proof.
  intros (lc & Hri & Hn & Hs)%life_disk_inv [H1 H2 H3 H4 H5]. split; [done..| |].
  - unfold read_last_committed in H4. rewrite (sr_rounds _ _ _ Hs), (recovered_round_spec _ _ _ _ Hri) in H4. done.
  - intros d x Hd Hx. apply (H5 (stored_commit d)).
    + rewrite (committed_from_stored _ _ _ 0 Hs Hn) by done. simpl. by apply list_elem_of_fmap_2.
    + simpl. by apply list_elem_of_fmap_2.
Qed.

(** A start from a disk. *)
Lemma spawn_consensus_ok st C ch last_executed outs :
  life_disk st outs -> archived C st -> 0 <= last_executed -> ch_rounds_open ch = true ->
  exists C1 restored n outs', spawn_consensus c depth last_executed use_tusk false st C ch = Some (C1, restored, n) ∧
    view <$> restored = view <$> drop (Z.to_nat (last_executed - 1)) outs ∧ view <$> outs' = view <$> outs ∧
    running c G depth (engine st) n outs' ∧ cn_protocol n = engine st ∧
    ch_sequence (cn_channels n) = ch_sequence ch ∧
    forall x, dag_has (st_dag (cn_state n)) x <->
      cs_by_id C !! Certificate_digest x = Some x ∧ gc_round (last_leader_round outs) depth < Certificate_round x.
Proof.
  intros Hd Har Hle Ho. pose proof (archived_archive _ _ _ Hd Har) as Har1. destruct (life_disk_inv _ _ Hd) as (lc & Hri & Hn & Hs).
  unfold spawn_consensus, get_restored_consensus_output. rewrite (committed_from_stored _ _ _ _ Hs Hn Hle).
  destruct (restore_ok c Hc G Hcd depth Hdepth C outs lc (drop (Z.to_nat (last_executed - 1)) outs) Har1 Hri) as (t & ds & -> & Ht & Hv).
  { intros d Hdd. rewrite <- (take_drop (Z.to_nat (last_executed - 1)) outs). set_solver. }
  cbn [mbind option_bind]. destruct (engine_config st) as (Hpc & _ & Hst).
  destruct (consensus_spawn_ok c Hc G Hcd depth Hdepth (engine st) (set_cache C t) ch outs) as (t1 & n & outs' & Hsp & Hv' & Hrun & Hp & Hsq & Hdag).
  { done. } { rewrite Hst. exact Hd. } { by apply archive_set_cache. } { done. }
  rewrite Hst in Hsp. rewrite Hsp. simpl. by eexists _, ds, n, outs'.
Qed.

(** Closed channels are the only failure. *)
Lemma spawn_consensus_open st C ch last_executed C1 restored n :
  spawn_consensus c depth last_executed use_tusk false st C ch = Some (C1, restored, n) -> ch_rounds_open ch = true.
Proof.
  unfold spawn_consensus, Consensus_spawn. intros ([C2 l] & _ & ([C3 n2] & Hs & _)%bind_Some)%bind_Some.
  case_match; [done|]. apply bind_Some in Hs as ([C4 s] & _ & Hs). unfold send_round in Hs. by destruct (ch_rounds_open ch).
Qed.

(** A run from a disk. *)
Lemma start_run_disk st C ch last_executed C1 restored n xs n' r outs :
  life_disk st outs -> archived C st -> 0 <= last_executed ->
  spawn_consensus c depth last_executed use_tusk false st C ch = Some (C1, restored, n) ->
  epoch_certificates xs -> run_inner xs n = Some (n', r) ->
  exists outs' ds k, view <$> restored = view <$> drop (Z.to_nat (last_executed - 1)) outs ∧ view <$> outs' = view <$> outs ∧
    k `prefix_of` ds ∧ ch_sequence (cn_channels n') = ch_sequence ch ++ k ∧ life_disk (engine_store (cn_protocol n')) (outs' ++ ds).
Proof.
  intros Hd Har Hle Hsp Hxs Hrun. pose proof (spawn_consensus_open _ _ _ _ _ _ _ Hsp) as Ho.
  destruct (spawn_consensus_ok _ _ _ _ _ Hd Har Hle Ho) as (C2 & l & n2 & outs' & Hsp' & Hl & Hv & Hr & Hp & Hsq & _).
  rewrite Hsp in Hsp'. injection Hsp' as <- <- <-. destruct (engine_config st) as (Hpc & Hfix & _). unfold run_inner in Hrun.
  assert (exists res, em_iter run_inner_step xs n = Some (n', res)) as [res Hit].
  { apply em_bind_inv in Hrun as [(n1 & us & Hi & Hrun)|(e & Hi & _)]; [injection Hrun as <- _|]; eauto. }
  destruct (run_inner_disk c Hc G Hcd depth Hdepth _ xs n outs' n' res Hpc Hfix Hr Hxs Hit) as (ds & k & Hk & Hs & Hdisk).
  exists outs', ds, k. split_and!; [done|done|done|by rewrite Hs, Hsq|].
  unfold life_disk. by rewrite (same_node_disk c G depth _ _ (engine_same st _)).
Qed.

Lemma lifetime_disk st : lifetime st -> exists outs, life_disk st outs.
Proof.
  induction 1 as [outcomes|st st1 C ch le C1 restored n xs n' r Hl [outs Hd] Hsame Har Hle Hsp Hxs Hrun].
  - exists [], [], ∅. split_and!; [constructor|by intros h ?%not_elem_of_nil|by left|done].
  - apply (life_disk_same _ _ _ Hsame) in Hd.
    destruct (start_run_disk _ _ _ _ _ _ _ _ _ _ _ Hd Har Hle Hsp Hxs Hrun) as (outs' & ds & k & _ & _ & _ & _ & ?). eauto.
Qed.
End lifetime.

(** ** Theorems *)

Lemma commits_prefix `{HeaderHash} (outs outs' : list CommittedSubDag) :
  (view <$> outs) `prefix_of` (view <$> outs') -> (stored_commit <$> outs) `prefix_of` (stored_commit <$> outs').
Proof.
  intros [k Hk]. assert (view <$> outs = view <$> take (length outs) outs') as Hv.
  { rewrite fmap_take, Hk. by rewrite <- (length_fmap view outs), take_app_length. }
  exists (stored_commit <$> drop (length outs) outs'). by rewrite (commits_view _ _ Hv), <- fmap_app, take_drop.
Qed.

(** C6. Agreement across restarts: take two nodes of an epoch that run the same protocol
    with a fixed schedule, and that stop and start again any number of times, at any
    point of their work, the ones between the writes of one certificate included.  The
    sequences of committed sub-dags in their consensus stores are prefixes of each other. *)
Theorem restart_agreement `{HH : HeaderHash} `{HR : Rng} {T T' : Type} `{HT : StoreCache T} `{HT' : StoreCache T'}
    `{!CacheLaws T} `{!CacheLaws T'} (c : Committee) (G : gmap Z Header) (depth : Z) (use_tusk : bool) (st st' : ConsensusStore) :
  committee_wf c -> certified_dag c G -> 1 <= depth ->
  lifetime (T := T) c G depth use_tusk st -> lifetime (T := T') c G depth use_tusk st' ->
  read_committed_sub_dags_from 0 st `prefix_of` read_committed_sub_dags_from 0 st' ∨
  read_committed_sub_dags_from 0 st' `prefix_of` read_committed_sub_dags_from 0 st.
Proof.
  intros Hc Hcd Hd Hl Hl'.
  destruct (lifetime_disk c G depth use_tusk Hc Hcd Hd st Hl) as [outs Hdisk].
  destruct (lifetime_disk c G depth use_tusk Hc Hcd Hd st' Hl') as [outs' Hdisk'].
  destruct (life_disk_inv c G depth use_tusk Hcd Hd _ _ Hdisk) as (lc & _ & Hn & Hs).
  destruct (life_disk_inv c G depth use_tusk Hcd Hd _ _ Hdisk') as (lc' & _ & Hn' & Hs').
  rewrite (committed_from_stored _ _ _ 0 Hs Hn), (committed_from_stored _ _ _ 0 Hs' Hn') by done. simpl. rewrite !drop_0.
  unfold life_disk in Hdisk'. rewrite (same_node_disk c G depth _ _ (engine_same c use_tusk st st')) in Hdisk'.
  destruct Hdisk as (ls & l & Hr & Hin & Hlo & _), Hdisk' as (ls' & l' & Hr' & Hin' & Hlo' & _).
  destruct (Z.le_ge_cases (match ls with [] => 0 | h :: _ => he_round h end) (match ls' with [] => 0 | h :: _ => he_round h end)) as [Hle|Hle];
    [left|right]; apply commits_prefix; (eapply replays_agree; [done|done|apply protocol_score_proper|done..]).
Qed.

(** C9. A restart does not panic, and nothing committed is lost: from the disk of any node
    that has stopped, with a certificate store that holds what was committed and the
    parents of what it holds, the node starts.  The executor is given the stored sub-dags
    from the last executed one on; consensus has the committed rounds and the last
    sub-dag of the store, and its dag has the stored certificates above the collected
    rounds, no more and no fewer. *)
Theorem restart_restores `{HH : HeaderHash} `{HR : Rng} {T : Type} `{HT : StoreCache T} `{!CacheLaws T}
    (c : Committee) (G : gmap Z Header) (depth last_executed : Z) (use_tusk : bool) (st : ConsensusStore)
    (C : CertificateStore T) (ch : ConsensusChannels) :
  committee_wf c -> certified_dag c G -> 1 <= depth -> lifetime (T := T) c G depth use_tusk st ->
  archived G depth C st -> 0 <= last_executed -> ch_rounds_open ch = true ->
  exists C1 restored n, spawn_consensus c depth last_executed use_tusk false st C ch = Some (C1, restored, n) ∧
    stored_commit <$> restored = read_committed_sub_dags_from last_executed st ∧
    stored_commit <$> st_last_sub_dag (cn_state n) = get_latest_sub_dag st ∧
    st_last_committed (cn_state n) = read_last_committed st ∧
    forall x, dag_has (st_dag (cn_state n)) x <->
      cs_by_id C !! Certificate_digest x = Some x ∧
      gc_round (recovered_round (read_last_committed st)) depth < Certificate_round x.
Proof.
  intros Hc Hcd Hd Hl Har Hle Ho. destruct (lifetime_disk c G depth use_tusk Hc Hcd Hd st Hl) as [outs Hdisk].
  destruct (spawn_consensus_ok c G depth use_tusk Hc Hcd Hd st C ch last_executed outs Hdisk Har Hle Ho)
    as (C1 & restored & n & outs' & Hsp & Hv & Hv' & [(_ & _ & ls & Hn & _) Hst] & Hp & _ & Hdag).
  destruct (life_disk_inv c G depth use_tusk Hcd Hd _ _ Hdisk) as (lc & Hri & Hnum & Hs).
  exists C1, restored, n. split_and!; [done|..].
  - rewrite (commits_view _ _ Hv). symmetry. by eapply committed_from_stored.
  - rewrite (nm_last _ _ _ _ _ _ Hn), (latest_sub_dag_stored _ _ _ Hs Hnum), <- !fmap_last. f_equal. by apply commits_view.
  - rewrite Hp in Hst. pose proof (engine_config c use_tusk st) as (_ & _ & He). rewrite He in Hst.
    unfold read_last_committed. symmetry. by apply (sr_rounds _ _ _ Hst).
  - unfold read_last_committed. by rewrite (sr_rounds _ _ _ Hs), (recovered_round_spec _ _ _ _ Hri).
Qed.

(** What the executor is handed after a start, first the restored sub-dags and then those
    that consensus sends, are the stored sub-dags from the last executed one on. *)
Lemma restart_hands_on `{HH : HeaderHash} `{HR : Rng} {T : Type} `{HT : StoreCache T} `{!CacheLaws T}
    (c : Committee) (G : gmap Z Header) (depth last_executed : Z) (use_tusk : bool) (st : ConsensusStore)
    (C C1 : CertificateStore T) (ch : ConsensusChannels) (restored : list CommittedSubDag) (n n' : Consensus)
    (xs : list Certificate) (r : Result unit ConsensusError) :
  committee_wf c -> certified_dag c G -> 1 <= depth -> lifetime (T := T) c G depth use_tusk st ->
  archived G depth C st -> 0 <= last_executed <= get_latest_sub_dag_index st -> ch_sequence ch = [] ->
  spawn_consensus c depth last_executed use_tusk false st C ch = Some (C1, restored, n) ->
  epoch_certificates c G xs -> run_inner xs n = Some (n', r) ->
  (stored_commit <$> restored ++ ch_sequence (cn_channels n')) `prefix_of`
    read_committed_sub_dags_from last_executed (engine_store (cn_protocol n')).
Proof.
  intros Hc Hcd Hd Hl Har [Hle Hlatest] Hch Hsp Hxs Hrun. destruct (lifetime_disk c G depth use_tusk Hc Hcd Hd st Hl) as [outs Hdisk].
  destruct (start_run_disk c G depth use_tusk Hc Hcd Hd _ _ _ _ _ _ _ _ _ _ _ Hdisk Har Hle Hsp Hxs Hrun)
    as (outs' & ds & k & Hv & Hv' & Hk & Hsq & Hdisk').
  destruct (life_disk_inv c G depth use_tusk Hcd Hd _ _ Hdisk) as (lc & _ & Hn & Hs).
  destruct (life_disk_inv c G depth use_tusk Hcd Hd _ _ Hdisk') as (lc' & _ & Hn' & Hs').
  rewrite (committed_from_stored _ _ _ _ Hs' Hn' Hle), Hsq, Hch. simpl.
  assert (length outs' = length outs) as Hlen by by rewrite <- (length_fmap view outs'), Hv', length_fmap.
  assert (last_executed <= Z.of_nat (length outs)) as Hlast.
  { unfold get_latest_sub_dag_index in Hlatest. rewrite (sr_commits _ _ _ Hs), (sr_former _ _ _ Hs), (commit_rows _ Hn), fmap_last in Hlatest.
    destruct outs as [|d outs _] using rev_ind; [done|]. rewrite last_snoc in Hlatest. simpl in Hlatest.
    apply numbered_app in Hn as [_ Hd']. rewrite length_app. simpl. lia. }
  rewrite drop_app_le by lia. apply commits_prefix. rewrite !fmap_app, Hv. destruct Hk as [k' ->].
  rewrite !fmap_drop, Hv', fmap_app. exists (view <$> k'). by rewrite <- (assoc_L (++)).
Qed.

(** ** A node that stops between two writes *)

Section check.
Context `{HH : HeaderHash} (G : gmap Z Header) (depth : Z).

Definition check_archived (C : CertificateStore unit) (st : ConsensusStore) : bool :=
  let gc := gc_round (recovered_round (read_last_committed st)) depth in
  let has k := bool_decide (is_Some (cs_by_id C !! k)) in
  forallb (fun e : Z * Z * Z =>
      match cs_by_id C !! e.2 with Some x => bool_decide ((Certificate_round x, Certificate_origin x) = e.1) | None => false end)
    (map_to_list (cs_by_round C))
  && forallb (fun e : Z * Certificate =>
      (Certificate_digest e.2 =? e.1)
      && bool_decide (cs_by_round C !! (Certificate_round e.2, Certificate_origin e.2) = Some e.1)
      && bool_decide (G !! header_digest (ce_header e.2) = Some (ce_header e.2))
      && ((Certificate_round e.2 <=? gc + 1) || forallb has (Certificate_parents e.2)))
    (map_to_list (cs_by_id C))
  && forallb (fun commit => forallb has (commit_certificates commit)) (read_committed_sub_dags_from 0 st).

Lemma check_archived_sound C st : check_archived C st = true -> archived G depth C st.
Proof.
  unfold check_archived. rewrite !andb_true_iff, !forallb_forall. intros [[H1 H2] H3].
  assert (forall d x, cs_by_id C !! d = Some x -> Certificate_digest x = d ∧
    cs_by_round C !! (Certificate_round x, Certificate_origin x) = Some d ∧ certified G x ∧
    (Certificate_round x <= gc_round (recovered_round (read_last_committed st)) depth + 1 ∨
     forall p, p ∈ Certificate_parents x -> is_Some (cs_by_id C !! p))) as Hrow.
  { intros d x Hx. specialize (H2 (d, x) ltac:(by apply list_elem_of_In, elem_of_map_to_list)). simpl in H2.
    rewrite !andb_true_iff, orb_true_iff, Z.eqb_eq, Z.leb_le, !bool_decide_eq_true, forallb_forall in H2.
    destruct H2 as [[[Hd Hr] Hg] Hp]. split_and!; [done|done|done|]. destruct Hp as [?|Hp]; [by left|right].
    intros p Hin. specialize (Hp p ltac:(by apply list_elem_of_In)). by apply bool_decide_eq_true in Hp. }
  split; [done|split| | |].
  - intros r o d Hd. specialize (H1 (r, o, d) ltac:(by apply list_elem_of_In, elem_of_map_to_list)). simpl in H1.
    destruct (cs_by_id C !! d) as [x|]; [|done]. apply bool_decide_eq_true in H1 as [= <- <-]. eauto.
  - intros d x Hx. by destruct (Hrow d x Hx) as (? & ? & _).
  - intros d x Hx. by destruct (Hrow d x Hx) as (_ & _ & ? & _).
  - intros d x p Hx Hr Hp. destruct (Hrow d x Hx) as (_ & _ & _ & [?|Hall]); [lia|by apply Hall].
  - intros commit k Hcm Hk. specialize (H3 commit ltac:(by apply list_elem_of_In)). rewrite forallb_forall in H3.
    specialize (H3 k ltac:(by apply list_elem_of_In)). by apply bool_decide_eq_true in H3.
Qed.
End check.

#[local] Existing Instance sample_hash.

Definition sample_archive (hs : list Header) : CertificateStore unit :=
  (cs_write_all (cert <$> hs) (mkCertificateStore ∅ ∅ ∅ tt [])).1.

(** One start and run of a sample node: what the executor was handed and the disk. *)
Definition sample_start (last_executed : Z) (st : ConsensusStore) (C : CertificateStore unit) (hs : list Header) :
    option (list CommittedSubDag * Consensus * Consensus * Result unit ConsensusError) :=
  '(_, restored, n) ← @spawn_consensus sample_hash unit _ four 50 last_executed false false st C sample_channels;
  '(n', r) ← @run_inner sample_hash (rotating_rng 0) (cert <$> hs) n;
  Some (restored, n, n', r).

(** The vote that comes late makes the leaders of two rounds commit; the second write
    fails. *)
Definition stopped_disk : ConsensusStore :=
  match sample_start 0 (mkConsensusStore ∅ ∅ ∅ [Ok tt; Err "io"]) (sample_archive []) (late_vote 0) with
  | Some (_, _, n, _) => engine_store (cn_protocol n)
  | None => sample_store
  end.

(** The next start, with all certificates in the store. *)
Definition restarted_disk : ConsensusStore :=
  match sample_start 1 stopped_disk (sample_archive (late_vote 0)) (late_vote 0) with
  | Some (_, _, n, _) => engine_store (cn_protocol n)
  | None => sample_store
  end.

Abbreviation sample_dag := (dag_of (split_votes 0)).
Abbreviation sample_lifetime := (@lifetime sample_hash (rotating_rng 0) unit _ _ four sample_dag 50 false).

Lemma sample_start_inv le st C hs restored n n' r :
  sample_start le st C hs = Some (restored, n, n', r) ->
  exists C1, spawn_consensus four 50 le false false st C sample_channels = Some (C1, restored, n) ∧
    @run_inner sample_hash (rotating_rng 0) (cert <$> hs) n = Some (n', r).
Proof.
  unfold sample_start. intros ([[C1 l] n1] & Hsp & ([n2 r2] & Hrun & [= <- <- <- <-])%bind_Some)%bind_Some. eauto.
Qed.

Lemma late_vote_epoch : epoch_certificates four sample_dag (cert <$> late_vote 0).
Proof. intros x Hx _. apply (split_votes_in_dag 0); [by left|]. by rewrite late_vote_permutation in Hx. Qed.

Lemma split_votes_epoch : epoch_certificates four sample_dag (cert <$> split_votes 0).
Proof. intros x Hx _. apply (split_votes_in_dag 0); [by left|done]. Qed.

Lemma sample_life le st C hs d :
  sample_lifetime st -> check_archived sample_dag 50 C st = true -> 0 <= le ->
  epoch_certificates four sample_dag (cert <$> hs) -> bool_decide (is_Some (sample_start le st C hs)) = true ->
  sample_lifetime (match sample_start le st C hs with Some (_, _, n, _) => engine_store (cn_protocol n) | None => d end).
Proof.
  intros Hl Har Hle Hhs Ho. destruct (sample_start le st C hs) as [[[[restored n] n'] r]|] eqn:E; [|done].
  apply sample_start_inv in E as (C1 & Hsp & Hrun).
  eapply (life_run _ _ _ _ st st); [done|done|by apply check_archived_sound|exact Hle|exact Hsp|exact Hhs|exact Hrun].
Qed.

Lemma stopped_life : sample_lifetime stopped_disk.
Proof. apply sample_life; [constructor|by vm_compute|done|apply late_vote_epoch|by vm_compute]. Qed.

Lemma restarted_life : sample_lifetime restarted_disk.
Proof. apply sample_life; [apply stopped_life|by vm_compute|done|apply late_vote_epoch|by vm_compute]. Qed.

(** A node that does not stop, and gets the certificates in another order. *)
Definition straight_disk : ConsensusStore :=
  match sample_start 0 sample_store (sample_archive []) (split_votes 0) with
  | Some (_, _, n, _) => engine_store (cn_protocol n)
  | None => sample_store
  end.

Lemma straight_life : sample_lifetime straight_disk.
Proof. apply sample_life; [constructor|by vm_compute|done|apply split_votes_epoch|by vm_compute]. Qed.

Lemma restart_agreement_witness :
  length (read_committed_sub_dags_from 0 restarted_disk) = 2%nat ∧ length (read_committed_sub_dags_from 0 straight_disk) = 2%nat ∧
  (read_committed_sub_dags_from 0 restarted_disk `prefix_of` read_committed_sub_dags_from 0 straight_disk ∨
   read_committed_sub_dags_from 0 straight_disk `prefix_of` read_committed_sub_dags_from 0 restarted_disk).
Proof.
  split; [vm_compute; reflexivity|]. split; [vm_compute; reflexivity|].
  apply (@restart_agreement sample_hash (rotating_rng 0) unit unit _ _ _ _ four sample_dag 50 false).
  - apply four_wf.
  - apply split_votes_certified. by left.
  - done.
  - apply restarted_life.
  - apply straight_life.
Defined.

Lemma restart_restores_witness :
  length (read_committed_sub_dags_from 1 stopped_disk) = 1%nat ∧
  exists C1 restored n, spawn_consensus four 50 1 false false stopped_disk (sample_archive (late_vote 0)) sample_channels = Some (C1, restored, n) ∧
    stored_commit <$> restored = read_committed_sub_dags_from 1 stopped_disk ∧
    stored_commit <$> st_last_sub_dag (cn_state n) = get_latest_sub_dag stopped_disk ∧
    st_last_committed (cn_state n) = read_last_committed stopped_disk ∧
    forall x, dag_has (st_dag (cn_state n)) x <->
      cs_by_id (sample_archive (late_vote 0)) !! Certificate_digest x = Some x ∧
      gc_round (recovered_round (read_last_committed stopped_disk)) 50 < Certificate_round x.
Proof.
  split; [vm_compute; reflexivity|].
  apply (@restart_restores sample_hash (rotating_rng 0) unit _ _ four sample_dag 50 1 false stopped_disk).
  - apply four_wf.
  - apply split_votes_certified. by left.
  - done.
  - apply stopped_life.
  - apply check_archived_sound. by vm_compute.
  - done.
  - done.
Defined.
