(* ===== verification/Executor.v ===== *)
(** * The executor of consensus output

    src/narwhal/executor/src/subscriber.rs, with the trait [ExecutionState] of lib.rs and
    its implementation by the stack (src/crates/sslab-execution/stack/src/execution_state.rs).
    The subscriber fetches the batches of each sub-dag from the workers and passes the
    sub-dags on in the order in which it got them; a second task executes them.

    The client of the workers is an argument: for a worker and a request it lists the
    answers to the attempts of the loop.  An answer that does not come is [Spinning], a
    panic [Panicked].  The branches of the two [select!] loops are events.  Metrics are
    left out. *)

From S2P Require Import Prelude Bytes Types Storage Committee DagTypes ConsensusCore Certification.
Local Open Scope Z_scope.
Local Open Scope chase_scope.

(** ** The batches of a sub-dag *)

Record ConsensusOutput := mkOutput { co_sub_dag : CommittedSubDag; co_batches : list (list ConsensusBatch) }.

Record SubscriberInner := mkInner { su_authority_id : Z; su_worker_cache : WorkerCache; su_committee : Committee }.

Record FetchBatchesRequest := mkFetchBatches { fb_digests : gset Z; fb_known_workers : gset Z }.

Definition WorkerClient : Type := Z -> FetchBatchesRequest -> list (Result (gmap Z ConsensusBatch) string).

Definition workers_for_certificate (inner : SubscriberInner) (certificate : Certificate) (worker_id : Z) : option (list Z) :=
  authorities ← signed_authorities (su_committee inner) certificate;
  Some (omap (M := list) (fun authority => worker (su_worker_cache inner) authority worker_id) authorities).

(** One entry of the payload of a certificate. *)
Definition add_request (inner : SubscriberInner) (cert : Certificate) (e : Z * (Z * Z))
    (requests : gmap Z FetchBatchesRequest) : option (gmap Z FetchBatchesRequest) :=
  let '(digest, (worker_id, _)) := e in
  authority ← Committee_authority (su_committee inner) (su_authority_id inner);
  key ← Authority_protocol_key authority;
  own_worker_name ← worker (su_worker_cache inner) key worker_id;
  workers ← workers_for_certificate inner cert worker_id;
  let entry := default (mkFetchBatches ∅ ∅) (requests !! own_worker_name) in
  Some (<[own_worker_name := mkFetchBatches ({[digest]} ∪ fb_digests entry) (list_to_set workers ∪ fb_known_workers entry)]> requests).

Definition add_certificate (inner : SubscriberInner) (requests : option (gmap Z FetchBatchesRequest)) (cert : Certificate) :
    option (gmap Z FetchBatchesRequest) :=
  foldl (fun acc e => requests ← acc; add_request inner cert e requests) requests (he_payload (ce_header cert)).

(** The loop of attempts: the first answer that is not an error. *)
Fixpoint first_answer (answers : list (Result (gmap Z ConsensusBatch) string)) : Run (gmap Z ConsensusBatch) :=
  match answers with
  | [] => Spinning
  | Ok batches :: _ => Finished batches
  | Err _ :: answers' => first_answer answers'
  end.

Definition fetch_batches_from_workers (client : WorkerClient) (requests : gmap Z FetchBatchesRequest) : Run (gmap Z ConsensusBatch) :=
  foldl (fun acc (e : Z * FetchBatchesRequest) =>
      fetched ← acc; batches ← first_answer (client e.1 e.2); Finished (batches ∪ fetched))
    (Finished ∅) (map_to_list requests).

(** The batches of each certificate, in the order of its payload. *)
Definition output_batches (fetched : gmap Z ConsensusBatch) (cert : Certificate) : option (list ConsensusBatch) :=
  mapM (fun e : Z * (Z * Z) => fetched !! e.1) (he_payload (ce_header cert)).

Definition fetch_batches (inner : SubscriberInner) (client : WorkerClient) (deliver : CommittedSubDag) : Run ConsensusOutput :=
  if num_batches deliver =? 0 then Finished (mkOutput deliver [])
  else
    match foldl (add_certificate inner) (Some ∅) (sd_certificates deliver) with
    | None => Panicked
    | Some requests =>
        fetched ← fetch_batches_from_workers client requests;
        match mapM (output_batches fetched) (sd_certificates deliver) with
        | Some batches => Finished (mkOutput deliver batches)
        | None => Panicked
        end
    end.

(** ** The execution state *)

(** The trait; a panic of the handler is [None]. *)
Class ExecutionState (S : Type) := {
  es_handle_consensus_output : ConsensusOutput -> S -> option S;
  es_last_executed_sub_dag_index : S -> Z
}.

(** The state of the stack: the executor [X] and the storage. *)
#[local] Instance ChaseExecutionState {X TA TS TI} `{!DBMap TI Z Z} (parse_json : bytes -> option EthereumTransaction)
    (execute : list ExecutableEthereumBatch -> X * ChaseStorage TA TS TI -> option (X * ChaseStorage TA TS TI)) :
    ExecutionState (X * ChaseStorage TA TS TI) := {|
  es_handle_consensus_output out := handle_consensus_output parse_json execute (sd_index (co_sub_dag out)) (co_batches out);
  es_last_executed_sub_dag_index s := match last_executed_sub_dag_index s.2 with Ok i => i | Err _ => 0 end
|}.

(** ** The tasks *)

Definition MAX_PENDING_PAYLOADS : nat := 1000.
Definition EXECUTOR_CHANNEL_CAPACITY : nat := 1000.

(** [et_waiting] is the queue of futures; [et_channel] the outputs sent to the second
    task; [et_handled] is what it has executed. *)
Record ExecutorTasks (S : Type) := mkTasks {
  et_waiting : list CommittedSubDag;
  et_channel : list ConsensusOutput;
  et_handled : list ConsensusOutput;
  et_state : S;
  et_subscriber : bool;
  et_notify : bool
}.
Arguments mkTasks {S}.
Arguments et_waiting {S}.
Arguments et_channel {S}.
Arguments et_handled {S}.
Arguments et_state {S}.
Arguments et_subscriber {S}.
Arguments et_notify {S}.

Inductive ExecutorEvent :=
  | SubDagArrives (sub_dag : CommittedSubDag)
  | PayloadReady (client : WorkerClient)
  | OutputHandled
  | SubscriberShutdown
  | NotifyShutdown.

Section tasks.
Context {S : Type} `{ExecutionState S} (inner : SubscriberInner).
Abbreviation Tasks := (ExecutorTasks S).

(** The restored sub-dags wait first. *)
Definition Executor_spawn (restored : list CommittedSubDag) (state : S) : Tasks := mkTasks restored [] [] state true true.

(** The branch of [run_notify] that receives a message. *)
Definition notify_step (t : Tasks) : option Tasks :=
  match et_notify t, et_channel t with
  | true, message :: channel =>
      state ← es_handle_consensus_output message (et_state t);
      Some (mkTasks (et_waiting t) channel (et_handled t ++ [message]) state (et_subscriber t) true)
  | _, _ => Some t
  end.

(** One branch of a loop.  A branch that is not enabled changes nothing: the guard of the
    sequence, a payload that is not there yet, a full channel, an ended task.  A subscriber
    that waits for room in the channel takes no other branch; here it may. *)
Definition executor_event (ev : ExecutorEvent) (t : Tasks) : option Tasks :=
  match ev with
  | SubDagArrives sub_dag => Some (
      if et_subscriber t && bool_decide (length (et_waiting t) < MAX_PENDING_PAYLOADS)%nat
      then mkTasks (et_waiting t ++ [sub_dag]) (et_channel t) (et_handled t) (et_state t) true (et_notify t)
      else t)
  | PayloadReady client =>
      match et_subscriber t, et_waiting t with
      | true, sub_dag :: waiting =>
          match fetch_batches inner client sub_dag with
          | Panicked => None
          | Spinning => Some t
          | Finished message => Some (
              if negb (et_notify t) then mkTasks waiting (et_channel t) (et_handled t) (et_state t) false false
              else if bool_decide (length (et_channel t) < EXECUTOR_CHANNEL_CAPACITY)%nat
              then mkTasks waiting (et_channel t ++ [message]) (et_handled t) (et_state t) true true
              else t)
          end
      | _, _ => Some t
      end
  | OutputHandled => notify_step t
  | SubscriberShutdown => Some (mkTasks (et_waiting t) (et_channel t) (et_handled t) (et_state t) false (et_notify t))
  | NotifyShutdown => Some (mkTasks (et_waiting t) (et_channel t) (et_handled t) (et_state t) (et_subscriber t) false)
  end.

Fixpoint executor_run (evs : list ExecutorEvent) (t : Tasks) : option Tasks :=
  match evs with
  | [] => Some t
  | ev :: evs' => t ← executor_event ev t; executor_run evs' t
  end.

(** The sub-dags that the subscriber takes from the sequence in the course of the events. *)
Fixpoint taken (evs : list ExecutorEvent) (t : Tasks) : list CommittedSubDag :=
  match evs with
  | [] => []
  | ev :: evs' =>
      match ev with
      | SubDagArrives sub_dag =>
          if et_subscriber t && bool_decide (length (et_waiting t) < MAX_PENDING_PAYLOADS)%nat then [sub_dag] else []
      | _ => []
      end ++ match executor_event ev t with Some t' => taken evs' t' | None => [] end
  end.

(** Executing outputs one after the other. *)
Fixpoint execute_all (outs : list ConsensusOutput) (s : S) : option S :=
  match outs with
  | [] => Some s
  | out :: outs' => s ← es_handle_consensus_output out s; execute_all outs' s
  end.
End tasks.
