(* ===== verification/ExecutorProps.v ===== *)
(** * What the executor executes

    The batches that the subscriber adds to a sub-dag are those of its payloads, in order
    ([fetch_batches_correct]).  Whatever the interleaving of the two tasks, the sub-dags
    are executed in the order in which they are handed on, none is left out, and the
    queue is bounded ([executor_in_order]).  Together with the start of a node this gives
    what is executed after a restart ([node_executes_committed]), which begins with the
    sub-dag that the execution state reports as executed last
    ([restart_executes_again]). *)

From S2P Require Import Prelude Bytes Types Storage Committee DagTypes ConsensusCore Bullshark DagProps ConsensusSample Agreement Certification CertificateStore Recovery RecoveryProps Restart Executor.
Local Open Scope Z_scope.
Local Open Scope chase_scope.

(** ** The batches of a sub-dag *)

Section batches.
Context (inner : SubscriberInner) (client : WorkerClient).

(** The digests that are requested. *)
Definition requested (requests : gmap Z FetchBatchesRequest) (d : Z) : Prop :=
  exists w req, requests !! w = Some req ∧ d ∈ fb_digests req.

(** The workers of the node are known, and so are the signers of the certificate. *)
Definition workers_known (cert : Certificate) : Prop :=
  is_Some (signed_authorities (su_committee inner) cert) ∧
  exists a key, Committee_authority (su_committee inner) (su_authority_id inner) = Some a ∧ Authority_protocol_key a = Some key ∧
    forall e, e ∈ he_payload (ce_header cert) -> is_Some (worker (su_worker_cache inner) key e.2.1).

(** A worker answers at some time, with the batches that it is asked for. *)
Definition worker_answers : Prop := forall w req, exists m, first_answer (client w req) = Finished m ∧
  fb_digests req ⊆ dom m ∧ forall d b, m !! d = Some b -> cb_digest b = d.

Lemma requested_insert requests w d ws d' :
  let entry := default (mkFetchBatches ∅ ∅) (requests !! w) in
  requested (<[w := mkFetchBatches ({[d]} ∪ fb_digests entry) ws]> requests) d' <-> d' = d ∨ requested requests d'.
Proof.
  intros entry. split.
  - intros (w' & req & [[<- <-]|[_ Hr]]%lookup_insert_Some & Hd); [|right; by exists w', req].
    simpl in Hd. apply elem_of_union in Hd as [?%elem_of_singleton|Hd]; [by left|right].
    unfold entry in Hd. destruct (requests !! w) as [req|] eqn:E; [|by apply not_elem_of_empty in Hd]. by exists w, req.
  - intros [->|(w' & req & Hr & Hd)].
    + exists w. eexists. rewrite lookup_insert_eq. split; [done|]. set_solver.
    + destruct (decide (w' = w)) as [->|Hne]; [|exists w', req; by rewrite lookup_insert_ne].
      exists w. eexists. rewrite lookup_insert_eq. split; [done|]. unfold entry. rewrite Hr. set_solver.
Qed.

Lemma add_certificate_ok cert requests : workers_known cert ->
  exists requests', add_certificate inner (Some requests) cert = Some requests' ∧
    forall d, requested requests' d <-> d ∈ (he_payload (ce_header cert)).*1 ∨ requested requests d.
Proof.
  intros ([ks Hks] & a & key & Ha & Hk & Hw). unfold add_certificate. revert requests.
  induction (he_payload (ce_header cert)) as [|[d [wid ts]] l IH]; intros requests; csimpl.
  { exists requests. split; [done|]. intros d. set_solver. }
  destruct (Hw (d, (wid, ts))) as [w Hwk]; [set_solver|]. simpl in Hwk.
  unfold workers_for_certificate. rewrite Ha, Hks. simpl. rewrite Hk. simpl. rewrite Hwk. simpl.
  destruct (IH ltac:(set_solver) (<[w := mkFetchBatches ({[d]} ∪ fb_digests (default (mkFetchBatches ∅ ∅) (requests !! w)))
    (list_to_set (omap (M := list) (fun a => worker (su_worker_cache inner) a wid) ks)
       ∪ fb_known_workers (default (mkFetchBatches ∅ ∅) (requests !! w)))]> requests)) as (requests' & Hr & Hd).
  exists requests'. split; [exact Hr|]. intros d'. rewrite Hd, requested_insert, elem_of_cons. tauto.
Qed.

Lemma requests_ok certs requests : (forall cert, cert ∈ certs -> workers_known cert) ->
  exists requests', foldl (add_certificate inner) (Some requests) certs = Some requests' ∧
    forall d, requested requests' d <-> (exists cert, cert ∈ certs ∧ d ∈ (he_payload (ce_header cert)).*1) ∨ requested requests d.
Proof.
  revert requests. induction certs as [|cert certs IH]; intros requests Hk; simpl.
  { exists requests. split; [done|]. intros d. split; [by right|]. intros [(? & ?%not_elem_of_nil & _)|?]; done. }
  destruct (add_certificate_ok cert requests) as (r1 & -> & H1); [apply Hk; set_solver|].
  destruct (IH r1) as (r2 & -> & H2); [set_solver|]. exists r2. split; [done|]. intros d. rewrite H2, H1. split.
  - intros [(x & Hx & Hd)|[Hd|Hd]]; [left; exists x; set_solver|left; exists cert; set_solver|by right].
  - intros [(x & [->|Hx]%elem_of_cons & Hd)|Hd]; [right; by left|left; by exists x|right; by right].
Qed.

Lemma fetch_from_workers_ok requests : worker_answers ->
  exists fetched, fetch_batches_from_workers client requests = Finished fetched ∧
    (forall d, requested requests d -> is_Some (fetched !! d)) ∧ forall d b, fetched !! d = Some b -> cb_digest b = d.
Proof.
  intros Hans. unfold fetch_batches_from_workers.
  assert (forall l acc, (forall d b, acc !! d = Some b -> cb_digest b = d) ->
    exists fetched, foldl (fun acc (e : Z * FetchBatchesRequest) =>
        fetched ← acc; batches ← first_answer (client e.1 e.2); Finished (batches ∪ fetched)) (Finished acc) l = Finished fetched ∧
      (forall d, d ∈ dom acc ∨ (exists e, e ∈ l ∧ d ∈ fb_digests e.2) -> is_Some (fetched !! d)) ∧
      forall d b, fetched !! d = Some b -> cb_digest b = d) as Hfold.
  { intros l. induction l as [|[w req] l IH]; intros acc Hacc; simpl.
    { exists acc. split_and!; [done| |done]. intros d [Hd%elem_of_dom|(? & ?%not_elem_of_nil & _)]; done. }
    destruct (Hans w req) as (m & -> & Hdom & Hm). simpl. destruct (IH (m ∪ acc)) as (fetched & Hf & Hd & Hb).
    - intros d b [?|[_ ?]]%lookup_union_Some_raw; auto.
    - exists fetched. split_and!; [exact Hf| |done]. intros d Hor. apply Hd. rewrite dom_union.
      destruct Hor as [?|(e & [->|He]%elem_of_cons & Hde)]; [set_solver|set_solver|right; eauto]. }
  destruct (Hfold (map_to_list requests) ∅) as (fetched & Hf & Hd & Hb); [intros d b; by rewrite lookup_empty|].
  exists fetched. split_and!; [done| |done]. intros d (w & req & Hr & Hdr). apply Hd. right. exists (w, req).
  split; [by apply elem_of_map_to_list|done].
Qed.

Lemma output_batches_ok fetched cert :
  (forall d, d ∈ (he_payload (ce_header cert)).*1 -> is_Some (fetched !! d)) ->
  (forall d b, fetched !! d = Some b -> cb_digest b = d) ->
  exists bs, output_batches fetched cert = Some bs ∧ cb_digest <$> bs = (he_payload (ce_header cert)).*1.
Proof.
  intros Hd Hb. unfold output_batches. induction (he_payload (ce_header cert)) as [|e l IH]; [by exists []|].
  destruct (Hd e.1) as [b He]; [set_solver|]. destruct IH as (bs & Hbs & Hdg); [set_solver|].
  exists (b :: bs). simpl. rewrite He. simpl. rewrite Hbs. simpl. split; [done|]. cbn. f_equal; [by apply Hb|exact Hdg].
Qed.
End batches.

(** C12. The subscriber completes a sub-dag: when the workers of the node and the signers
    are known and the worker answers in the end, it does not panic and outputs for every
    certificate the batches of its payload, in the order of the payload.  A sub-dag
    without any batch has an empty list of groups, not one empty group per certificate. *)
Theorem fetch_batches_correct (inner : SubscriberInner) (client : WorkerClient) (d : CommittedSubDag) :
  (forall cert, cert ∈ sd_certificates d -> workers_known inner cert) -> worker_answers client ->
  exists groups, fetch_batches inner client d = Finished (mkOutput d groups) ∧
    fmap cb_digest <$> groups =
      (if num_batches d =? 0 then [] else (fun cert => (he_payload (ce_header cert)).*1) <$> sd_certificates d).
Proof.
  intros Hk Hans. unfold fetch_batches. destruct (num_batches d =? 0); [by exists []|].
  destruct (requests_ok inner _ ∅ Hk) as (requests & -> & Hreq).
  destruct (fetch_from_workers_ok client requests Hans) as (fetched & -> & Hf & Hb). simpl.
  assert (forall cert, cert ∈ sd_certificates d -> exists bs, output_batches fetched cert = Some bs ∧
    cb_digest <$> bs = (he_payload (ce_header cert)).*1) as Hout.
  { intros cert Hc. apply output_batches_ok; [|done]. intros k Hkd. apply Hf, Hreq. left. by exists cert. }
  clear -Hout. assert (exists groups, mapM (output_batches fetched) (sd_certificates d) = Some groups ∧
    fmap cb_digest <$> groups = (fun cert => (he_payload (ce_header cert)).*1) <$> sd_certificates d) as (groups & -> & Hg); [|eauto].
  induction (sd_certificates d) as [|cert certs IH]; [by exists []|].
  destruct (Hout cert) as (bs & Hbs & Hd); [set_solver|]. destruct IH as (groups & Hm & Hg); [set_solver|].
  exists (bs :: groups). simpl. rewrite Hbs. simpl. rewrite Hm. simpl. split; [done|]. cbn. f_equal; [exact Hd|exact Hg].
Qed.

Lemma fetch_sub_dag inner client d out : fetch_batches inner client d = Finished out -> co_sub_dag out = d.
Proof.
  unfold fetch_batches. case_match; [by intros [= <-]|]. case_match; [|done].
  destruct (fetch_batches_from_workers client _); simpl; [|done|done]. case_match; [by intros [= <-]|done].
Qed.

(** ** The order of execution *)

Section order.
Context {S : Type} `{HES : ExecutionState S} (inner : SubscriberInner) (s0 : S).

(** [all] are the sub-dags handed on so far. *)
Record tasks_inv (limit : nat) (all : list CommittedSubDag) (t : ExecutorTasks S) : Prop := {
  ti_prefix : (co_sub_dag <$> et_handled t ++ et_channel t) `prefix_of` all;
  ti_all : et_subscriber t = true -> (co_sub_dag <$> et_handled t ++ et_channel t) ++ et_waiting t = all;
  ti_state : execute_all (et_handled t) s0 = Some (et_state t);
  ti_bound : (length (et_waiting t) <= Nat.max MAX_PENDING_PAYLOADS limit)%nat
}.

Lemma execute_all_snoc outs out s s1 s2 :
  execute_all outs s = Some s1 -> es_handle_consensus_output out s1 = Some s2 -> execute_all (outs ++ [out]) s = Some s2.
Proof.
  revert s. induction outs as [|o outs IH]; intros s; simpl; [intros [= ->] ->; done|].
  intros (s' & -> & Hs)%bind_Some Ho. simpl. by apply IH.
Qed.

Lemma tasks_event limit all ev t t' : tasks_inv limit all t -> executor_event inner ev t = Some t' ->
  tasks_inv limit (all ++ taken inner [ev] t) t'.
Proof.
  intros [Hp Ha Hs Hb] He. assert (taken inner [ev] t = match ev with
    | SubDagArrives d => if et_subscriber t && bool_decide (length (et_waiting t) < MAX_PENDING_PAYLOADS)%nat then [d] else []
    | _ => [] end) as -> by (simpl; rewrite He, app_nil_r; done).
  destruct ev as [d|client| | |]; cbn [executor_event] in He.
  - injection He as <-. destruct (et_subscriber t) eqn:Es; simpl; [|by rewrite app_nil_r; split; rewrite ?Es].
    case_bool_decide as Hlen; [|by rewrite app_nil_r; split; rewrite ?Es]. split; simpl; [|..].
    + by apply prefix_app_r.
    + intros _. by rewrite (assoc_L (++)), Ha.
    + done.
    + rewrite length_app. simpl. lia.
  - rewrite app_nil_r. destruct (et_subscriber t) eqn:Es; [|by simplify_eq; split; rewrite ?Es].
    destruct (et_waiting t) as [|d waiting] eqn:Ew; [by simplify_eq; split; rewrite ?Es, ?Ew|].
    destruct (fetch_batches inner client d) as [out| |] eqn:Ef; [|done|by simplify_eq; split; rewrite ?Es, ?Ew].
    apply fetch_sub_dag in Ef. injection He as <-. simpl in Hb.
    destruct (et_notify t); simpl; [case_bool_decide|]; [|by split; rewrite ?Es, ?Ew|].
    + rewrite <- (Ha eq_refl). split; simpl; [|intros _|done|lia]; rewrite !fmap_app; csimpl; rewrite Ef.
      * eexists waiting. by rewrite <- !(assoc_L (++)).
      * by rewrite <- !(assoc_L (++)).
    + split; simpl; [done|done|done|lia].
  - rewrite app_nil_r. unfold notify_step in He. destruct (et_notify t); [|by simplify_eq; split]. destruct (et_channel t) as [|out channel] eqn:Ech.
    { simplify_eq. by split; rewrite ?Ech. }
    apply bind_Some in He as (s1 & Hh & [= <-]). rewrite cons_middle, (assoc_L (++)) in Hp, Ha.
    split; simpl; [done|done|by eapply execute_all_snoc|done].
  - injection He as <-. rewrite app_nil_r. by split.
  - injection He as <-. rewrite app_nil_r. by split.
Qed.

Lemma taken_cons ev evs t t' : executor_event inner ev t = Some t' -> taken inner (ev :: evs) t = taken inner [ev] t ++ taken inner evs t'.
Proof. intros He. simpl. by rewrite He, app_nil_r. Qed.

Lemma tasks_run limit all evs t t' : tasks_inv limit all t -> executor_run inner evs t = Some t' ->
  tasks_inv limit (all ++ taken inner evs t) t'.
Proof.
  revert all t. induction evs as [|ev evs IH]; intros all t Ht Hr.
  { injection Hr as <-. by rewrite app_nil_r. }
  simpl in Hr. apply bind_Some in Hr as (t1 & He & Hr). rewrite (taken_cons _ _ _ _ He), (assoc_L (++)).
  eapply IH; [|done]. by eapply tasks_event.
Qed.

Lemma spawn_inv restored : tasks_inv (length restored) restored (Executor_spawn restored s0).
Proof. split; simpl; [apply prefix_nil|done|done|lia]. Qed.
End order.

(** C11. Execution follows the order of consensus: whatever the interleaving of the tasks,
    the sub-dags executed or sent to be executed are a prefix of the restored ones and
    those taken from the sequence, and while the subscriber runs the rest is waiting, so
    none is lost or reordered; the execution state is the result of executing them one
    after the other; and no more wait than the limit or the restored ones. *)
Theorem executor_in_order {S : Type} `{HES : ExecutionState S} (inner : SubscriberInner) (s0 : S)
    (restored : list CommittedSubDag) (evs : list ExecutorEvent) (t : ExecutorTasks S) :
  executor_run inner evs (Executor_spawn restored s0) = Some t ->
  let all := restored ++ taken inner evs (Executor_spawn restored s0) in
  (co_sub_dag <$> et_handled t ++ et_channel t) `prefix_of` all ∧
  (et_subscriber t = true -> (co_sub_dag <$> et_handled t ++ et_channel t) ++ et_waiting t = all) ∧
  execute_all (et_handled t) s0 = Some (et_state t) ∧
  (length (et_waiting t) <= Nat.max MAX_PENDING_PAYLOADS (length restored))%nat.
Proof. intros Hr. by destruct (tasks_run inner s0 _ _ _ _ _ (spawn_inv s0 restored) Hr). Qed.

(** ** After a restart *)

Section restarted.
Context `{HH : HeaderHash} `{HR : Rng} {T : Type} `{HT : StoreCache T} `{!CacheLaws T} {S : Type} `{HES : ExecutionState S}.
Context (c : Committee) (G : gmap Z Header) (depth : Z) (use_tusk : bool) (inner : SubscriberInner).

(** A start of a node whose disk is [st] and whose execution state is [s0], and a run until
    it stops: consensus reaches [n], the executor [t].  The subscriber takes from the
    sequence what consensus sends. *)
Record node_run (st : ConsensusStore) (s0 : S) (n : Consensus) (t : ExecutorTasks S) : Prop := {
  nr_life : lifetime (T := T) c G depth use_tusk st;
  nr_executed : 0 <= es_last_executed_sub_dag_index s0 <= get_latest_sub_dag_index st;
  nr_run : exists (C C1 : CertificateStore T) ch restored n0 xs r evs,
    archived G depth C st ∧ ch_sequence ch = [] ∧
    spawn_consensus c depth (es_last_executed_sub_dag_index s0) use_tusk false st C ch = Some (C1, restored, n0) ∧
    epoch_certificates c G xs ∧ run_inner xs n0 = Some (n, r) ∧
    executor_run inner evs (Executor_spawn restored s0) = Some t ∧
    taken inner evs (Executor_spawn restored s0) `prefix_of` ch_sequence (cn_channels n)
}.

Context (Hc : committee_wf c) (Hcd : certified_dag c G) (Hdepth : 1 <= depth).

Lemma node_run_prefix st s0 n t : node_run st s0 n t ->
  (stored_commit ∘ co_sub_dag <$> et_handled t) `prefix_of`
    read_committed_sub_dags_from (es_last_executed_sub_dag_index s0) (engine_store (cn_protocol n)).
Proof.
  intros [Hl Hle (C & C1 & ch & restored & n0 & xs & r & evs & Har & Hch & Hsp & Hxs & Hrun & Hex & Hsub)].
  etrans; [|by eapply (restart_hands_on c G depth _ use_tusk st C C1 ch restored n0 n xs r)].
  destruct (tasks_run inner s0 _ _ _ _ _ (spawn_inv s0 restored) Hex) as [Hp _ _ _].
  rewrite list_fmap_compose. apply prefix_fmap. etrans; [|by apply prefix_app]. etrans; [|exact Hp].
  rewrite fmap_app. by eexists.
Qed.

(** The disk at the end of the run. *)
Lemma node_run_life st s0 n t : node_run st s0 n t -> lifetime (T := T) c G depth use_tusk (engine_store (cn_protocol n)).
Proof.
  intros [Hl [Hle _] (C & C1 & ch & restored & n0 & xs & r & evs & Har & Hch & Hsp & Hxs & Hrun & Hex & Hsub)].
  by eapply (life_run c G depth use_tusk st st).
Qed.
End restarted.

(** C10. What a node executes after a start are the committed sub-dags on its disk, from the
    last executed one on, in order and without a gap, however often it has stopped before,
    and its execution state is the result of executing them one after the other. *)
Theorem node_executes_committed `{HH : HeaderHash} `{HR : Rng} {T : Type} `{HT : StoreCache T} `{!CacheLaws T} {S : Type}
    `{HES : ExecutionState S} (c : Committee) (G : gmap Z Header) (depth : Z) (use_tusk : bool) (inner : SubscriberInner)
    (st : ConsensusStore) (s0 : S) (n : Consensus) (t : ExecutorTasks S) :
  committee_wf c -> certified_dag c G -> 1 <= depth -> node_run (T := T) c G depth use_tusk inner st s0 n t ->
  (stored_commit ∘ co_sub_dag <$> et_handled t) `prefix_of`
    read_committed_sub_dags_from (es_last_executed_sub_dag_index s0) (engine_store (cn_protocol n)) ∧
  execute_all (et_handled t) s0 = Some (et_state t).
Proof.
  intros Hc Hcd Hd Hn. split; [by eapply node_run_prefix|].
  destruct Hn as [_ _ (C & C1 & ch & restored & n0 & xs & r & evs & _ & _ & _ & _ & _ & Hex & _)].
  by destruct (tasks_run inner s0 _ _ _ _ _ (spawn_inv s0 restored) Hex).
Qed.

(** A restart hands a sub-dag to the execution state again: if the state reports that some
    sub-dag was executed last, the first one handed to it after the start has the same
    index, and the state that results is that of handling this one and the others. *)
Theorem restart_executes_again `{HH : HeaderHash} `{HR : Rng} {T : Type} `{HT : StoreCache T} `{!CacheLaws T} {S : Type}
    `{HES : ExecutionState S} (c : Committee) (G : gmap Z Header) (depth : Z) (use_tusk : bool) (inner : SubscriberInner)
    (st : ConsensusStore) (s0 : S) (n : Consensus) (t : ExecutorTasks S) (out : ConsensusOutput) (outs : list ConsensusOutput) :
  committee_wf c -> certified_dag c G -> 1 <= depth -> node_run (T := T) c G depth use_tusk inner st s0 n t ->
  1 <= es_last_executed_sub_dag_index s0 -> et_handled t = out :: outs ->
  sd_index (co_sub_dag out) = es_last_executed_sub_dag_index s0 ∧
  execute_all (out :: outs) s0 = Some (et_state t).
Proof.
  intros Hc Hcd Hd Hn Hle Hh. pose proof (node_run_life c G depth use_tusk inner _ _ _ _ Hn) as Hl.
  destruct (lifetime_disk c G depth use_tusk Hc Hcd Hd _ Hl) as [ds Hdisk].
  destruct (life_disk_inv c G depth use_tusk Hcd Hd _ _ Hdisk) as (lc & _ & Hnum & Hst).
  destruct (node_run_prefix c G depth use_tusk inner Hc Hcd Hd _ _ _ _ Hn) as [k Hk].
  rewrite Hh, (committed_from_stored _ _ _ _ Hst Hnum) in Hk by lia. split.
  - destruct (drop _ ds) as [|d ds'] eqn:E; [done|]. injection Hk as Hi _.
    assert (ds !! Z.to_nat (es_last_executed_sub_dag_index s0 - 1) = Some d) as Hd'.
    { by rewrite <- (Nat.add_0_r (Z.to_nat _)), <- lookup_drop, E. }
    specialize (Hnum _ _ Hd'). simpl in *. lia.
  - destruct Hn as [_ _ (C & C1 & ch & restored & n0 & xs & r & evs & _ & _ & _ & _ & _ & Hex & _)].
    destruct (tasks_run inner s0 _ _ _ _ _ (spawn_inv s0 restored) Hex) as [_ _ Hs _]. by rewrite Hh in Hs.
Qed.

(** ** Samples *)

Definition sample_inner : SubscriberInner :=
  mkInner 0 (mkWorkerCache (list_to_map ((fun key => (key, {[0 := key + 200]})) <$> [100; 101; 102; 103])) 0) four.

(** The worker fails once and then answers with what is asked for. *)
Definition sample_client : WorkerClient := fun _ req =>
  [Err "busy"; Ok (set_to_map (fun d => (d, mkConsensusBatch d [])) (fb_digests req))].

Lemma sample_client_answers : worker_answers sample_client.
Proof.
  intros w req. eexists. split; [done|]. split.
  - intros d Hd. apply elem_of_dom. exists (mkConsensusBatch d []). apply lookup_set_to_map; [done|]. by exists d.
  - intros d b Hb. apply lookup_set_to_map in Hb as (d' & _ & [= <- <-]); done.
Qed.

Definition sample_sub_dag : CommittedSubDag :=
  let x a payload := mkCertificate (mkHeader a 1 0 0 payload []) 0 [0; 1; 2] 0 in
  mkSubDag [x 0 [(7, (0, 1)); (9, (0, 1))]; x 1 []; x 2 [(7, (0, 2))]] (x 2 [(7, (0, 2))]) 1 (mkScores ∅ false) 0.

Lemma fetch_batches_correct_witness :
  exists groups, fetch_batches sample_inner sample_client sample_sub_dag = Finished (mkOutput sample_sub_dag groups) ∧
    fmap (M := list) cb_digest <$> groups = [[7; 9]; []; [7]].
Proof.
  destruct (fetch_batches_correct sample_inner sample_client sample_sub_dag) as (groups & Hf & Hg).
  - assert (forall cert, cert ∈ sd_certificates sample_sub_dag ->
      ce_signed_authorities cert = [0; 1; 2] ∧ Certificate_epoch cert = 0 ∧ Forall (fun e => e.2.1 = 0) (he_payload (ce_header cert))) as Hall.
    { apply Forall_forall. repeat constructor. }
    intros cert (Hs & He & Hw)%Hall. split.
    + unfold signed_authorities, signed_by. rewrite Hs, He. eexists. vm_compute. reflexivity.
    + eexists _, 100. split; [vm_compute; reflexivity|]. split; [vm_compute; reflexivity|].
      intros e Hin. rewrite Forall_forall in Hw. rewrite (Hw e Hin). eexists. vm_compute. reflexivity.
  - apply sample_client_answers.
  - exists groups. split; [exact Hf|]. rewrite Hg. by vm_compute.
Defined.

(** An execution state that records the indices it executes. *)
#[local] Instance index_log : ExecutionState (list Z) := {|
  es_handle_consensus_output out s := Some (s ++ [sd_index (co_sub_dag out)]);
  es_last_executed_sub_dag_index s := default 0 (last s)
|}.

#[local] Existing Instance sample_hash.

(** The node that stopped after its first write has executed that sub-dag, and starts. *)
Definition restarted_consensus : list CommittedSubDag * Consensus * Consensus * Result unit ConsensusError :=
  default ([], sample_node sample_tusk, sample_node sample_tusk, Ok tt)
    (sample_start 1 stopped_disk (sample_archive (late_vote 0)) (late_vote 0)).

Definition restart_events : list ExecutorEvent :=
  [PayloadReady sample_client; OutputHandled]
  ++ (SubDagArrives <$> ch_sequence (cn_channels restarted_consensus.1.2)) ++ [PayloadReady sample_client; OutputHandled].

Definition restarted_tasks : ExecutorTasks (list Z) :=
  default (Executor_spawn [] [1])
    (executor_run sample_inner restart_events (Executor_spawn restarted_consensus.1.1.1 [1])).

Lemma executor_in_order_witness :
  et_state restarted_tasks = [1; 1; 2] ∧
  let all := restarted_consensus.1.1.1 ++ taken sample_inner restart_events (Executor_spawn restarted_consensus.1.1.1 [1]) in
  (co_sub_dag <$> et_handled restarted_tasks ++ et_channel restarted_tasks) `prefix_of` all ∧
  (et_subscriber restarted_tasks = true ->
    (co_sub_dag <$> et_handled restarted_tasks ++ et_channel restarted_tasks) ++ et_waiting restarted_tasks = all) ∧
  execute_all (et_handled restarted_tasks) [1] = Some (et_state restarted_tasks) ∧
  (length (et_waiting restarted_tasks) <= Nat.max MAX_PENDING_PAYLOADS (length restarted_consensus.1.1.1))%nat.
Proof.
  split; [vm_compute; reflexivity|].
  apply (executor_in_order sample_inner [1] restarted_consensus.1.1.1 restart_events restarted_tasks).
  vm_compute. reflexivity.
Defined.

Lemma restarted_run :
  node_run (HR := rotating_rng 0) (T := unit) four (dag_of (split_votes 0)) 50 false sample_inner stopped_disk [1]
    restarted_consensus.1.2 restarted_tasks.
Proof.
  set (rc := restarted_consensus).
  assert (sample_start 1 stopped_disk (sample_archive (late_vote 0)) (late_vote 0) = Some (rc.1.1.1, rc.1.1.2, rc.1.2, rc.2)) as E
    by (vm_compute; reflexivity).
  apply sample_start_inv in E as (C1 & Hsp & Hrun). split; [apply stopped_life|split; vm_compute; discriminate|].
  exists (sample_archive (late_vote 0)), C1, sample_channels, rc.1.1.1, rc.1.1.2, (cert <$> late_vote 0), rc.2, restart_events.
  split; [apply check_archived_sound; vm_compute; reflexivity|]. split; [reflexivity|]. split; [exact Hsp|].
  split; [apply late_vote_epoch|]. split; [exact Hrun|]. split; [vm_compute; reflexivity|].
  exists []. vm_compute. reflexivity.
Qed.

Lemma node_executes_committed_witness :
  length (et_handled restarted_tasks) = 2%nat ∧
  (stored_commit ∘ co_sub_dag <$> et_handled restarted_tasks) `prefix_of`
    read_committed_sub_dags_from (es_last_executed_sub_dag_index [1]) (engine_store (cn_protocol restarted_consensus.1.2)) ∧
  execute_all (et_handled restarted_tasks) [1] = Some (et_state restarted_tasks).
Proof.
  split; [vm_compute; reflexivity|].
  exact (@node_executes_committed sample_hash (rotating_rng 0) unit _ _ (list Z) index_log four (dag_of (split_votes 0)) 50 false
    sample_inner stopped_disk [1] restarted_consensus.1.2 restarted_tasks
    four_wf (split_votes_certified 0 (list_elem_of_here _ _)) (Z.lt_le_incl 1 50 eq_refl) restarted_run).
Defined.

Lemma restart_executes_again_witness :
  exists out outs, et_handled restarted_tasks = out :: outs ∧
    sd_index (co_sub_dag out) = es_last_executed_sub_dag_index [1] ∧
    execute_all (out :: outs) [1] = Some (et_state restarted_tasks).
Proof.
  assert (exists out outs, et_handled restarted_tasks = out :: outs) as (out & outs & E).
  { do 2 eexists. vm_compute. reflexivity. }
  exists out, outs. split; [exact E|].
  exact (@restart_executes_again sample_hash (rotating_rng 0) unit _ _ (list Z) index_log four (dag_of (split_votes 0)) 50 false
    sample_inner stopped_disk [1] restarted_consensus.1.2 restarted_tasks out outs
    four_wf (split_votes_certified 0 (list_elem_of_here _ _)) (Z.lt_le_incl 1 50 eq_refl) restarted_run (Z.le_refl 1) E).
Defined.
