(* ===== verification/Conformance.v ===== *)
(** * Conformance: the repository's own scheduling tests, run on the model

    The seven tests of src/crates/sslab-execution/chase/src/tests/chase_tests.rs.
    Each builds simulated transactions, schedules them through
    [AddressBasedConflictGraph::construct] (and through [par_construct]),
    [hierarchcial_sort], [reorder] and [extract_schedule], and compares the ids
    of the three zones with the expected ones.  The model computes the expected
    schedule in every one of them. *)

From S2P Require Import Prelude Types ConflictGraph CdsScheduler.
Local Open Scope Z_scope.

Definition default_tx : EthereumTransaction :=
  mkEthereumTransaction None None None None None None None.

Definition transaction_with_multiple_rw (tx_id : Z) (read_addr write_addr : list Z) :
    SimulatedTransaction :=
  let set := foldl (fun s k => record_read_key s 1 k 1) RwSet_new read_addr in
  let set := foldl (fun s k => record_write_key s 1 k 1) set write_addr in
  SimulatedTransaction_new set [] [] (mkIndexed default_tx tx_id).

Definition transaction_with_rw (tx_id read_addr write_addr : Z) : SimulatedTransaction :=
  transaction_with_multiple_rw tx_id [read_addr] [write_addr].

(** The ids of the conflict-free chains, of the conflict epochs and of the
    aborted epochs: what [assert_cds_schedule] compares. *)
Definition schedule_ids (s : ScheduledInfo) : list (list Z) * list (list Z) * list (list Z) :=
  (map (map fin_id) (conflict_free_zone s), map (map fin_id) (conflict_zone_finalized s),
   map (map AbortedTransaction_id) (conflict_zone_aborted s)).

Definition chase_test (txs : list SimulatedTransaction) :=
  schedule_ids <$> schedule_graph false false (construct txs).

(** On a machine with four CPUs. *)
Definition chase_par_test (txs : list SimulatedTransaction) :=
  g ← par_construct 4 txs; schedule_ids <$> schedule_graph false false g.

Ltac run_test := split; vm_compute; reflexivity.

Definition scenario_1 : list SimulatedTransaction :=
  [transaction_with_rw 1 2 1; transaction_with_rw 2 3 2; transaction_with_rw 3 4 2;
   transaction_with_rw 4 4 3; transaction_with_rw 5 4 4; transaction_with_rw 6 1 3].

Example test_scenario_1 :
  chase_test scenario_1 = Some ([[2]], [[3; 4; 5]; [6]], [[1]]) ∧
  chase_par_test scenario_1 = Some ([[2]], [[3; 4; 5]; [6]], [[1]]).
Proof. run_test. Qed.

Definition scenario_2 : list SimulatedTransaction :=
  [transaction_with_rw 1 2 1; transaction_with_rw 3 4 2; transaction_with_rw 2 3 2;
   transaction_with_rw 4 4 3; transaction_with_rw 5 4 4; transaction_with_rw 6 1 3].

Example test_scenario_2 :
  chase_test scenario_2 = Some ([[3]], [[2; 4; 5]; [6]], [[1]]) ∧
  chase_par_test scenario_2 = Some ([[3]], [[2; 4; 5]; [6]], [[1]]).
Proof. run_test. Qed.

Definition scenario_3 : list SimulatedTransaction :=
  [transaction_with_rw 1 2 1; transaction_with_rw 2 3 2; transaction_with_rw 3 4 2;
   transaction_with_rw 6 1 3; transaction_with_rw 5 4 4; transaction_with_rw 4 4 3].

Example test_scenario_3 :
  chase_test scenario_3 = Some ([[2]], [[3; 4; 5]; [6]], [[1]]) ∧
  chase_par_test scenario_3 = Some ([[2]], [[3; 4; 5]; [6]], [[1]]).
Proof. run_test. Qed.

Definition scenario_4 : list SimulatedTransaction :=
  [transaction_with_rw 1 2 1; transaction_with_rw 2 3 2; transaction_with_rw 3 4 2;
   transaction_with_rw 4 4 4; transaction_with_rw 5 4 4; transaction_with_rw 6 1 3].

Example test_scenario_4 :
  chase_test scenario_4 = Some ([[1]], [[2; 4]; [3]], [[5; 6]]) ∧
  chase_par_test scenario_4 = Some ([[1]], [[2; 4]; [3]], [[5; 6]]).
Proof. run_test. Qed.

Definition scenario_5 : list SimulatedTransaction := scenario_4 ++ [transaction_with_rw 7 4 4].

Example test_scenario_5 :
  chase_test scenario_5 = Some ([[1]], [[2; 4]; [3]], [[5; 6]; [7]]) ∧
  chase_par_test scenario_5 = Some ([[1]], [[2; 4]; [3]], [[5; 6]; [7]]).
Proof. run_test. Qed.

Definition reordering : list SimulatedTransaction :=
  [transaction_with_multiple_rw 1 [] [1; 2]; transaction_with_rw 2 2 1].

Example test_reordering :
  chase_test reordering = Some ([[2]], [[1]], []) ∧
  chase_par_test reordering = Some ([[2]], [[1]], []).
Proof. run_test. Qed.

(** The 256-bit slots of [test_scenario_6]. *)
Definition slot_48c8 : Z := 0x48c8d13a49dbf1c93484ba997be20d9cae319d82960232db3544bb8bf65d4ac0.
Definition slot_e3ea : Z := 0xe3ea58be4f1efa6db4e24abc274fb1bccd82dfcd49c8f508a08c911f0357c19d.
Definition slot_7b6a : Z := 0x7b6a909101d770fd973075a9dbcef6c7ae894d77f3f89dcacb997ab3178cd44e.
Definition slot_b955 : Z := 0xb955ea50cf68e45358af8183015c9694f0e9401fee45e367d90c462108f102bd.

Definition scenario_6 : list SimulatedTransaction :=
  [transaction_with_multiple_rw 1 [slot_48c8; slot_e3ea] [slot_48c8; slot_e3ea];
   transaction_with_multiple_rw 2 [slot_7b6a; slot_b955] [slot_7b6a; slot_b955];
   transaction_with_multiple_rw 3 [slot_7b6a; slot_e3ea] [slot_7b6a; slot_e3ea]].

Example test_scenario_6 :
  chase_test scenario_6 = Some ([[1]; [2]], [], [[3]]) ∧
  chase_par_test scenario_6 = Some ([[1]; [2]], [], [[3]]).
Proof. run_test. Qed.
